(* ===== verification/_CoqProject ===== *)
-Q . S2P
Prelude.v
Encoding.v
TrieSpec.v
Node.v
Trie.v
TrieMap.v
Hasher.v
Committer.v
Reload.v
Database.v
Core.v
Storage.v
Chain.v
ChainMem.v
HashRing.v
ConsistentHash.v
Message.v
Follower.v
Proposer.v
Epoch.v
Pools.v
Liveness.v
Fleet.v
Partition.v
MerkleProof.v
Iterator.v
Iteration.v
StackTrie.v
OnChain.v
Pbft.v
Agreement.v
PbftBroker.v
Reshard.v
Resharding.v
Committee.v
Injection.v
Brokering.v
Rerouting.v
Measure.v
Supervisor.v
Stopping.v
CommitteeSample.v
StateSync.v
Syncing.v
RangeProof.v
RangeProofs.v
Decoding.v
SecureTrie.v
Combine.v
HeapOrder.v
Combining.v
Combined.v
RingLock.v
Generator.v
