(* ===== verification/Prelude.v ===== *)
(** * Aster: a verification library for the proposer/follower blockchain

    ** The program

    Aster keeps account balances in a Merkle Patricia trie that is split over
    follower processes.  A proposer takes batches of pending transfers, sends each
    transfer to the follower of the sender's account and the follower of the
    recipient's account, collects the transfers that were executed, and appends a
    block of them to its chain.  Around this core lie the trie package (a fork of
    the one of go-ethereum), a chain with its block storage, a transaction pool, a
    consistent-hash ring that says which data keys move when a follower joins, a
    graph partition of accounts, and the framing of messages.  The PBFT shards and
    the supervisor of the simulator it grew from are still in the repository;
    [main.go] starts neither.  A PBFT shard is a set of replicas of one chain: a
    fixed primary proposes blocks, and replicas add them after two rounds of
    confirmations.  The supervisor reads transactions from a data file, sends each to
    its shard, receives a report of every block, measures, may move accounts between
    shards, and stops the nodes when no transactions are left.

    ** Files

    - [Prelude] (this file): Go's outcomes ([Ret]/[Panic]), results with errors,
      calls that may block on a mutex ([sync]), fixed-width integers, and the
      lemmas and tactics the other files share.
    - [Encoding]: [trie/encoding.go].
    - [TrieSpec]: the trie as a pure tree, its canonical form and the finite map
      it holds; the specification that the next files refine.
    - [Node], [Trie], [TrieMap]: [trie/node.go], [tracer.go], [trie_reader.go],
      [trie.go].  [trie_rep t m] relates a trie, partly in memory and partly behind
      its reader, to the map it stores.
    - [Hasher], [Committer], [Reload]: [trie/hasher.go], [node_enc.go],
      [committer.go], [nodeset.go], and reading a stored trie back.
    - [StackTrie]: [trie/stacktrie.go], the one-pass root of sorted keys.
    - [Database]: [trie/database.go], [preimages.go]; [db_inv] is the invariant of
      the dirty cache, its flush list and its reference counts.
    - [MerkleProof]: [trie/proof.go], making and verifying the proof of a key.
      [RangeProof], [RangeProofs]: the proofs of a range of keys, and what an accepted
      one means.  [Decoding]: what the decoder makes of bytes of strangers.
    - [SecureTrie]: [trie/secure_trie.go] and the rest of [trie.go].
    - [Iterator], [Iteration]: [trie/iterator.go], the node and key-value iterators,
      and what they visit.  [Combine]: the interface of the iterators as a class, and the
      difference and union iterators over it.  [HeapOrder]: the heap of the union;
      [Combining]: what the two visit, proved from the laws of the interface;
      [Combined]: the node iterator has the laws, and what follows for tries.
    - [StateSync], [Syncing]: [trie/sync.go], the scheduler that downloads a trie; its
      requests form a heap, and the queue, the database and the callback for leaves
      are classes with laws.
    - [Core], [Storage]: [core/], [storage/storage.go].
    - [Chain], [ChainMem], [OnChain]: [chain/blockchain.go],
      [blockchain_MemoryMPT.go], [blockchain_rollback.go].
    - [HashRing], [ConsistentHash]: [local/]; the client is proved against the
      ring's interface as a class, and the skip list is its instance.  [RingLock]: the
      locks of the ring, with goroutines and guards as a step relation.
    - [Message]: the frames of [message/].
    - [Follower], [Proposer]: [consensus_shard/subMPT/].  Every handler is a
      function on the node's record; a goroutine is split into the pieces between
      which another handler may run.
    - [Epoch], [Pools], [Liveness]: the proposer and its followers together: what a
      batch does to all balances, the pools as a state machine over every
      interleaving, and progress from a batch to its block.  [Fleet] is a concrete
      proposer with two followers on which these properties are applied.
    - [Partition]: [partition/graph.go] and [partition_CLPA.go].
    - [Pbft], [Agreement]: [consensus_shard/pbft_all/], the replica with its
      relay module.  The consensus is written against its two interfaces as
      classes, its laws are proved of the relay module, and agreement is proved
      from the laws, as an invariant of the replicas and a network that keeps,
      reorders and repeats every packet.
    - [PbftBroker], [Reshard]: the other modules of the replica, for brokered
      transactions and for re-partitions of the accounts, as instances of the same
      interfaces.  [Resharding]: all shards together moving accounts.
    - [Committee]: [supervisor/committee/], [broker/broker.go] and
      [supervisor/signal/]: the four committees that read the data file and inject
      transactions.  [Injection]: what reaches which shard; [Brokering]: transfers
      through a broker; [Rerouting]: the map of accounts over re-partitions.
      [Generator]: the transactions of the proposer,
      [consensus_shard/subMPT/temptool.go].
    - [Measure]: [supervisor/measure/].  [Supervisor], [Stopping]:
      [supervisor/supervisor.go], the committees behind an interface with laws, and
      when the nodes are stopped.  [CommitteeSample] applies the properties of these
      files to concrete inputs.

    ** What the theorems show

    - The sub-MPT protocol: an epoch whose answers follow its allocations ends in a
      block with exactly the executed transactions, and in none when nothing was
      executed; an epoch moves balances as the batch says when no follower
      refuses, and otherwise creates exactly the money of the cross-follower
      transfers the sender refused; no transaction is included twice when answers
      are handled after allocations and no block cuts the pool inside an append, and
      how one is when an answer overtakes them; only injected transactions and those
      of received blocks reach blocks; a join stalls block production.
    - The trie: every operation implements the map operation without error or
      panic; the root hash stands for exactly one map; a committed trie reopens to
      the same map, also after a restart; proofs made of nodes under their hashes are
      sound and complete; the stack trie computes the same root; iterating ends and
      visits the bindings from the start key in order, and failures of the store lose
      none while it descends; the difference and the union of tries are visited
      exactly; the key-hashing trie is a map on plain keys that remembers their names;
      bytes from outside decode to well-typed nodes or an error; an accepted range
      proof is exact when the keys lie in the range (a sample shows that it need not
      be when they do not); a download whose answers have the requested hashes keeps
      the disk closed under children and ends with the whole trie.
    - The chain: executing a block is executing its transactions one by one; a
      mined block is valid and appended; replicas agree; supply; restart; the fork
      rule; what the lookup of a transaction answers.
    - The ring: the skip list refines an ordered map, data keys follow their owner,
      and the migrations are exactly what changes in the records; its lock excludes
      others when it does not expire, and contention for it blocks it for ever.
    - The partition: the incremental counters agree with a recount; a run ends with
      no shard emptied and reports the last move of every vertex it moved.
    - The PBFT shard: replicas at the same height are on the same block.
    - Re-partitions: the program makes chains without a transaction pool, on which
      the primary panics; with pools, each account ends with its balance and nonce and
      its waiting transactions on the shard the new map gives it; the committee and
      the shards keep agreeing on the map, and no round panics, nor any report of
      accounts whose address gives a shard.
    - The committees: each shard is sent the transactions of its senders, in order, up
      to an incomplete last batch of a short file and to addresses with a negative
      remainder; each brokered transfer has one first half, and a second half per
      report of the first.
    - The supervisor: it stops the nodes only after enough empty blocks in a row,
      and after the file has been read it then always does; its floating-point counts
      are exact.

    ** Conventions, fuel and bounds

    A Go slice of bytes is a [list Z]; a string is a [string]; integers are [Z]
    wrapped at their width where the code computes with them; maps are [gmap]s,
    and where the code ranges over a map the order is an argument or a
    permutation.  Pointers are modelled by a heap where they are shared (the hash
    ring, the flush list) and by values elsewhere.  The clock, the random levels
    and the scheduling are arguments.  Functions on fuel are given enough: the
    trie functions the length of the key and more ([fuel_for]), the walks of the
    ring the size of its heap, the database the number of dirty nodes, the fork
    rule the height of the chain, the iterator the number of nodes left to visit (a
    seek the length of its key), the combined iterators the number of elements left,
    a download the number of nodes of the trie and each
    commit the age of its request, the path of a proof the length of its key; the
    theorems show that the result is reached.

    Third-party code enters as classes with its documented laws: the RLP package,
    Keccak (collision-free on the inputs at hand), the key-value store, fastcache,
    bolt, gob, JSON, SHA-256.  Each property with such a law is applied to concrete
    instances in a sample module.

    ** Not modelled

    Sockets, the command line, CSV files, logging and printing, which are input and
    output; the tools that query a stored database.  Methods that a second module
    repeats word for word are modelled once (the account transfer of the broker module,
    the broker methods of the committee for both). *)

From stdpp Require Import base gmap strings list fin_maps sorting.
From Stdlib Require Import ZArith Lia.

Declare Scope go_scope.
Delimit Scope go_scope with go.

(** ** Outcomes of Go code *)

(** A Go call either returns or panics ([log.Panic], an index or slice
    expression out of range, a nil dereference, an explicit [panic]).
    Errors returned as values are part of the returned type. *)
Inductive outcome (A : Type) : Type :=
| Ret (a : A)
| Panic.
Arguments Ret {A} a.
Arguments Panic {A}.

#[export] Instance outcome_ret : MRet outcome := fun A a => Ret a.
#[export] Instance outcome_bind : MBind outcome := fun A B f o =>
  match o with Ret a => f a | Panic => Panic end.
#[export] Instance outcome_fmap : FMap outcome := fun A B f o =>
  match o with Ret a => Ret (f a) | Panic => Panic end.

(** Runs a bind whose first action is known to return. *)
Ltac go_ret :=
  repeat match goal with
  | |- context [@mbind outcome ?i ?A ?B ?f (Ret ?a)] =>
      change (@mbind outcome i A B f (Ret a)) with (f a); cbv beta
  end.

(** An index expression [s[i]] of Go: out of range is a panic. *)
Definition of_option {A} (o : option A) : outcome A :=
  match o with Some a => Ret a | None => Panic end.

Lemma outcome_bind_Ret {A B} (o : outcome A) (f : A -> outcome B) b :
  (o ≫= f) = Ret b <-> exists a, o = Ret a /\ f a = Ret b.
Proof. destruct o; simpl; naive_solver. Qed.

Lemma of_option_Ret {A} (o : option A) a : of_option o = Ret a <-> o = Some a.
Proof. destruct o; simpl; naive_solver. Qed.

(** ** Results of Go functions that return an [error] *)

Inductive res (E A : Type) : Type :=
| Ok (a : A)
| Err (e : E).
Arguments Ok {E A} a.
Arguments Err {E A} e.

#[export] Instance res_ret {E} : MRet (res E) := fun A a => Ok a.
#[export] Instance res_bind {E} : MBind (res E) := fun A B f o =>
  match o with Ok a => f a | Err e => Err e end.

Lemma res_bind_Ok {E A B} (o : res E A) (f : A -> res E B) b :
  (o ≫= f) = Ok b <-> exists a, o = Ok a /\ f a = Ok b.
Proof. destruct o; simpl; naive_solver. Qed.

(** ** Machine integers *)

(** Unsigned and two's complement signed wrap-around at width [w]. *)
Definition wrap_u (w z : Z) : Z := z mod 2 ^ w.
Definition wrap_s (w z : Z) : Z := (z + 2 ^ (w - 1)) mod 2 ^ w - 2 ^ (w - 1).

Abbreviation u8 := (wrap_u 8).
Abbreviation u16 := (wrap_u 16).
Abbreviation u64 := (wrap_u 64).
Abbreviation i32 := (wrap_s 32).
Abbreviation i64 := (wrap_s 64).

Definition is_u (w z : Z) : Prop := (0 <= z < 2 ^ w)%Z.
Definition is_s (w z : Z) : Prop := (- 2 ^ (w - 1) <= z < 2 ^ (w - 1))%Z.

Lemma wrap_u_small w z : is_u w z -> wrap_u w z = z.
Proof. unfold is_u, wrap_u. intros. by apply Z.mod_small. Qed.

Lemma wrap_u_range w z : (0 <= w)%Z -> is_u w (wrap_u w z).
Proof. intros. apply Z.mod_pos_bound. by apply Z.pow_pos_nonneg. Qed.

Lemma wrap_s_small w z : (0 < w)%Z -> is_s w z -> wrap_s w z = z.
Proof.
  unfold is_s, wrap_s. intros Hw Hz.
  assert (2 ^ w = 2 * 2 ^ (w - 1))%Z.
  { rewrite <- Z.pow_succ_r by lia. f_equal; lia. }
  rewrite Z.mod_small; lia.
Qed.

(** ** Bytes and nibbles *)

Definition is_byte (b : Z) : Prop := (0 <= b < 256)%Z.
Definition is_nibble (b : Z) : Prop := (0 <= b < 16)%Z.

(** [b << k] on a Go [byte]. *)
Definition shl8 (b k : Z) : Z := u8 (Z.shiftl b k).

(** The bytes of a Go string, and the string holding some bytes. *)
Fixpoint string_bytes (s : string) : list Z :=
  match s with
  | EmptyString => []
  | String c s => Z.of_nat (Ascii.nat_of_ascii c) :: string_bytes s
  end.

(** ** Generic lemmas on lists *)

Lemma Forall_last {A} (P : A -> Prop) l x : Forall P l -> last l = Some x -> P x.
Proof.
  intros HF Hl. rewrite Forall_forall in HF. apply HF.
  by apply last_Some_elem_of in Hl.
Qed.

Lemma list_pairs_ind {A} (P : list A -> Prop) :
  P [] -> (forall x, P [x]) -> (forall x y l, P l -> P (x :: y :: l)) ->
  forall l, P l.
Proof.
  intros H0 H1 H2. fix IH 1. intros [|x [|y l]]; [done|apply H1|].
  apply H2, IH.
Qed.

(** ** Sums *)

Definition zsum {A} (f : A -> Z) (l : list A) : Z := foldr (fun x s => f x + s)%Z 0%Z l.

#[export] Instance zsum_perm {A} (f : A -> Z) : Proper ((≡ₚ) ==> (=)) (zsum f).
Proof. intros l l' Hp. induction Hp; simpl; lia. Qed.

Lemma zsum_app {A} (f : A -> Z) l l' : zsum f (l ++ l') = (zsum f l + zsum f l')%Z.
Proof. induction l as [|x l IH]; simpl; lia. Qed.

Lemma zsum_ext {A} (f g : A -> Z) l : (forall x, x ∈ l -> f x = g x) -> zsum f l = zsum g l.
Proof.
  induction l as [|x l IH]; intros Hx; [done|]. simpl. rewrite Hx, IH; [done| |left].
  intros y Hy. apply Hx. by right.
Qed.

Lemma zsum_add {A} (f g : A -> Z) l : zsum (fun x => f x + g x)%Z l = (zsum f l + zsum g l)%Z.
Proof. induction l as [|x l IH]; simpl; lia. Qed.

Lemma zsum_zero {A} (f : A -> Z) l : (forall x, x ∈ l -> f x = 0%Z) -> zsum f l = 0%Z.
Proof.
  induction l as [|x l IH]; intros Hx; [done|]. simpl. rewrite Hx, IH; [done| |left].
  intros y Hy. apply Hx. by right.
Qed.

(** Terms that vanish outside a filter. *)
Lemma zsum_filter {A} (P : A -> Prop) `{!forall x, Decision (P x)} (f : A -> Z) l :
  (forall x, x ∈ l -> ~ P x -> f x = 0%Z) -> zsum f (filter P l) = zsum f l.
Proof.
  induction l as [|x l IH]; intros Hx; [done|]. rewrite filter_cons. simpl.
  assert (zsum f (filter P l) = zsum f l) as E by (apply IH; intros; apply Hx; [by right|done]).
  case_decide; simpl; rewrite E; [done|]. rewrite (Hx x); [done|left|done].
Qed.

Lemma zsum_swap {A B} (f : A -> B -> Z) la lb :
  zsum (fun a => zsum (f a) lb) la = zsum (fun b => zsum (fun a => f a b) la) lb.
Proof.
  induction la as [|a la IH]; simpl; [by rewrite zsum_zero|]. by rewrite IH, <- zsum_add.
Qed.

Lemma zsum_pick (n : nat) (d v : Z) :
  (0 <= d < Z.of_nat n)%Z -> zsum (fun k => if (Z.of_nat k =? d)%Z then v else 0%Z) (seq 0 n) = v.
Proof.
  intros Hd. induction n as [|n IH]; [lia|]. rewrite seq_S, zsum_app. simpl.
  destruct (Z.eqb_spec (Z.of_nat n) d) as [<-|Hne]; [|rewrite IH; lia].
  rewrite zsum_zero; [lia|]. intros k Hk%elem_of_seq. by rewrite (proj2 (Z.eqb_neq _ _)) by lia.
Qed.

(** ** Automation *)

Create HintDb go.

(** Case analysis on the scrutinee of a [match] or [if] of the goal or of a
    hypothesis, keeping the equation. *)
Ltac case_on t := let E := fresh "E" in destruct t eqn:E.
Ltac go_cases :=
  repeat match goal with
  | H : Ret _ = Ret _ |- _ => injection H as H
  | H : Ok _ = Ok _ |- _ => injection H as H
  | H : Ret _ = Panic |- _ => discriminate H
  | H : Panic = Ret _ |- _ => discriminate H
  | H : Ok _ = Err _ |- _ => discriminate H
  | H : Err _ = Ok _ |- _ => discriminate H
  | H : context [match ?t with _ => _ end] |- _ =>
      lazymatch t with context [match _ with _ => _ end] => fail | _ => case_on t end
  end; simplify_eq/=.

(** ** Indexed access under a recursive call

    [nth_with f d l i] is [f] applied to entry [i] of [l], [d] out of range; it
    is written so that a function recursive on a tree may call itself through
    it on a child selected by index. *)
Definition nth_with {A B} (f : A -> B) (d : B) : list A -> nat -> B :=
  fix go l i {struct l} :=
    match l, i with
    | x :: _, O => f x
    | _ :: l, S i => go l i
    | [], _ => d
    end.

Lemma nth_with_lookup {A B} (f : A -> B) d l i :
  nth_with f d l i = match l !! i with Some x => f x | None => d end.
Proof. revert i. induction l as [|x l IH]; intros [|i]; simpl; auto. Qed.

(** Index of the only entry satisfying [p]: [-1] if there is none, [-2] if there
    are several; the loop of Go that breaks at the second one. *)
Fixpoint only_index {A} (p : A -> bool) (i : nat) (pos : Z) (l : list A) : Z :=
  match l with
  | [] => pos
  | x :: l =>
      if p x then (if (pos =? -1)%Z then only_index p (S i) (Z.of_nat i) l else -2)
      else only_index p (S i) pos l
  end.

Lemma only_index_ext {A B} (p : A -> bool) (q : B -> bool) l1 l2 i pos :
  length l1 = length l2 ->
  (forall j x y, l1 !! j = Some x -> l2 !! j = Some y -> p x = q y) ->
  only_index p i pos l1 = only_index q i pos l2.
Proof.
  revert l2 i pos. induction l1 as [|x l1 IH]; intros [|y l2] i pos Hl Hpq; try done.
  simpl. rewrite (Hpq 0 x y) by done. simpl in Hl.
  assert (forall i pos, only_index p i pos l1 = only_index q i pos l2) as E.
  { intros. apply IH; [lia|]. intros j. apply (Hpq (S j)). }
  by rewrite !E.
Qed.

Definition count {A} (p : A -> bool) (l : list A) : nat := length (filter (fun x => p x = true) l).

Lemma count_cons {A} (p : A -> bool) x l :
  count p (x :: l) = ((if p x then 1 else 0) + count p l)%nat.
Proof. unfold count. rewrite filter_cons. destruct (p x) eqn:E; case_decide; simpl; congruence. Qed.

Lemma count_0 {A} (p : A -> bool) l : count p l = 0 <-> forall i x, l !! i = Some x -> p x = false.
Proof.
  split.
  - induction l as [|y l IH]; intros Hc i x Hx; [done|].
    rewrite count_cons in Hc. destruct i as [|i]; simpl in Hx.
    + simplify_eq. destruct (p x); [lia|done].
    + destruct (p y); [lia|]. by eapply IH.
  - induction l as [|y l IH]; intros H; [done|]. rewrite count_cons.
    rewrite (H 0 y) by done. simpl. apply IH. intros i x Hx. by apply (H (S i)).
Qed.

Lemma count_insert {A} (p : A -> bool) l i x y :
  l !! i = Some x ->
  (count p (<[i:=y]> l) + (if p x then 1 else 0) = count p l + (if p y then 1 else 0))%nat.
Proof.
  revert i. induction l as [|z l IH]; intros [|i] Hx; simplify_eq/=.
  - rewrite !count_cons. lia.
  - rewrite !count_cons. specialize (IH _ Hx). simpl in IH. lia.
Qed.

Lemma count_pos {A} (p : A -> bool) l i x : l !! i = Some x -> p x = true -> (1 <= count p l)%nat.
Proof.
  intros Hx Hp. pose proof (count_insert p l i x x Hx) as H. rewrite Hp in H.
  destruct (count p l) eqn:E; [|lia]. rewrite count_0 in E. rewrite (E _ _ Hx) in Hp. done.
Qed.

Lemma count_ge_2 {A} (p : A -> bool) l :
  (2 <= count p l)%nat ->
  exists i j x y, i <> j /\ l !! i = Some x /\ l !! j = Some y /\ p x = true /\ p y = true.
Proof.
  induction l as [|z l IH]; intros Hc; [unfold count in Hc; simpl in Hc; lia|].
  rewrite count_cons in Hc. destruct (p z) eqn:Ez.
  - destruct (count p l) eqn:El; [lia|].
    assert (exists j y, l !! j = Some y /\ p y = true) as (j & y & Hj & Hy).
    { clear -El. revert n El. induction l as [|w l IH]; intros n El; [done|].
      rewrite count_cons in El. destruct (p w) eqn:Ew.
      - by exists 0, w.
      - destruct (IH _ El) as (j & y & ? & ?). by exists (S j), y. }
    exists 0, (S j), z, y. naive_solver.
  - destruct IH as (i & j & x & y & ? & ? & ? & ? & ?); [lia|].
    exists (S i), (S j), x, y. naive_solver.
Qed.

Lemma only_index_spec {A} (p : A -> bool) l i pos :
  let r := only_index p i pos l in
  (pos <> -1 -> r = if (count p l =? 0)%nat then pos else (-2))%Z /\
  (pos = -1 ->
     (count p l = 0%nat -> r = -1) /\
     ((2 <= count p l)%nat -> r = -2) /\
     (count p l = 1%nat -> exists j x, l !! j = Some x /\ p x = true /\ r = Z.of_nat (i + j) /\
        forall k y, l !! k = Some y -> p y = true -> k = j))%Z.
Proof.
  revert i pos. induction l as [|z l IH]; intros i pos; cbv zeta.
  - simpl. split; [done|]. intros ->. split; [done|]. split; intros Hc; change (count p []) with 0%nat in Hc; lia.
  - rewrite count_cons. simpl. destruct (p z) eqn:Ez.
    + split.
      * intros Hp. rewrite (proj2 (Z.eqb_neq _ _)) by done. by destruct (count p l).
      * intros ->. rewrite Z.eqb_refl.
        destruct (IH (S i) (Z.of_nat i)) as [H1 _]. specialize (H1 ltac:(lia)). rewrite H1.
        split; [lia|]. split.
        -- intros Hc. destruct (count p l); [lia|done].
        -- intros Hc. assert (count p l = 0%nat) as Hz by lia. rewrite Hz. simpl.
           exists 0%nat, z. split; [done|]. split; [done|]. split; [f_equal; lia|].
           intros [|k] y Hk Hy; [done|]. simpl in Hk.
           rewrite count_0 in Hz. rewrite (Hz _ _ Hk) in Hy. done.
    + destruct (IH (S i) pos) as [H1 H2]. split; [done|].
      intros ->. destruct (H2 eq_refl) as (Ha & Hb & Hc). split; [done|]. split; [done|].
      intros Hcnt. destruct (Hc Hcnt) as (j & x & Hj & Hx & -> & Hu).
      exists (S j), x. split; [done|]. split; [done|]. split; [f_equal; lia|].
      intros [|k] y Hk Hy; simplify_eq/=; [congruence|]. f_equal. by eapply Hu.
Qed.
