(* ===== verification/Encoding.v ===== *)
(** * Trie key encodings ([trie/encoding.go])

    KEYBYTES, HEX and COMPACT encodings of trie keys, the conversions between
    them, the in-place variant of the compact encoder, and their round trips.
    A Go [[]byte] is a [list Z]; buffers that the code writes into are lists
    updated by index, and an index out of range is a [Panic]. *)

From stdpp Require Import base gmap strings list.
From Stdlib Require Import ZArith Lia.
From S2P Require Import Prelude.

Local Open Scope Z_scope.
#[local] Arguments Nat.div : simpl never.
#[local] Arguments Nat.odd : simpl never.
#[local] Arguments Z.div : simpl never.
#[local] Arguments Z.modulo : simpl never.
#[local] Arguments Z.mul : simpl never.

(** ** Definitions *)

Definition hasTerm (s : list Z) : bool := bool_decide (last s = Some 16).

(** [for bi, ni := 0, 0; ni < len(nibbles); bi, ni = bi+1, ni+2]: writes the
    packed nibbles over the front of [bytes]. *)
Fixpoint decodeNibbles (nibbles bytes : list Z) : outcome (list Z) :=
  match nibbles, bytes with
  | [], _ => Ret bytes
  | hi :: lo :: nibbles', _ :: bytes' =>
      rest ← decodeNibbles nibbles' bytes';
      Ret (Z.lor (shl8 hi 4) lo :: rest)
  | _, _ => Panic
  end.

Definition hexToCompact (hex : list Z) : outcome (list Z) :=
  let term := hasTerm hex in
  let terminator := if term then 1 else 0 in
  let hex := if term then take (length hex - 1) hex else hex in
  let flag := shl8 terminator 5 in
  let buf_tl := replicate (length hex / 2) 0 in
  if Nat.odd (length hex) then
    match hex with
    | h0 :: hex' =>
        tl ← decodeNibbles hex' buf_tl;
        Ret (Z.lor (Z.lor flag (shl8 1 4)) h0 :: tl)
    | [] => Panic
    end
  else
    tl ← decodeNibbles hex buf_tl;
    Ret (flag :: tl).

(** The loop [for ; ni < hexLen; bi, ni = bi+1, ni+2] of the in-place encoder:
    reads two entries of the buffer and overwrites one, in the same buffer. *)
Fixpoint compactInPlace_loop (fuel : nat) (hex : list Z) (hexLen bi ni : nat)
  : outcome (list Z) :=
  match fuel with
  | O => Panic
  | S fuel =>
      if (ni <? hexLen)%nat then
        hi ← of_option (hex !! ni);
        lo ← of_option (hex !! S ni);
        _ ← of_option (hex !! bi);
        compactInPlace_loop fuel (<[bi := Z.lor (shl8 hi 4) lo]> hex) hexLen (bi + 1) (ni + 2)
      else Ret hex
  end.

(** Returns the buffer after the call and the length of the compact key. *)
Definition hexToCompactInPlace (hex : list Z) : outcome (list Z * nat) :=
  let term := hasTerm hex in
  let firstByte := if term then shl8 1 5 else 0 in
  let hexLen := if term then (length hex - 1)%nat else length hex in
  let binLen := (hexLen / 2 + 1)%nat in
  fb_ni ← (if Nat.odd hexLen then
             h0 ← of_option (hex !! 0%nat);
             Ret (Z.lor (Z.lor firstByte (shl8 1 4)) h0, 1%nat)
           else Ret (firstByte, 0%nat));
  hex' ← compactInPlace_loop (S hexLen) hex hexLen 1 fb_ni.2;
  _ ← of_option (hex' !! 0%nat);
  Ret (<[0%nat := fb_ni.1]> hex', binLen).

Definition keybytesToHex (str : list Z) : list Z :=
  flat_map (fun b => [b / 16; b mod 16]) str ++ [16].

Definition compactToHex (compact : list Z) : outcome (list Z) :=
  match compact with
  | [] => Ret []
  | _ =>
      let base := keybytesToHex compact in
      b0 ← of_option (base !! 0%nat);
      let base := if b0 <? 2 then take (length base - 1) base else base in
      let chop := Z.to_nat (2 - Z.land b0 1) in
      if (chop <=? length base)%nat then Ret (drop chop base) else Panic
  end.

Definition hexToKeybytes (hex : list Z) : outcome (list Z) :=
  let hex := if hasTerm hex then take (length hex - 1) hex else hex in
  if Nat.odd (length hex) then Panic
  else decodeNibbles hex (replicate (length hex / 2) 0).

Fixpoint prefixLen (a b : list Z) : nat :=
  match a, b with
  | x :: a', y :: b' => if x =? y then S (prefixLen a' b') else 0%nat
  | _, _ => 0%nat
  end.

(** ** Shapes of keys *)

(** HEX encoded keys: nibbles, then an optional terminator. *)
Definition hex_path (h : list Z) : Prop := Forall is_nibble h.
Definition hex_key (h : list Z) : Prop := exists p, hex_path p /\ h = p ++ [16].
Definition hex_ok (h : list Z) : Prop := hex_path h \/ hex_key h.

(** ** Lemmas *)

Lemma last_take_minus_one (p : list Z) x :
  take (length (p ++ [x]) - 1) (p ++ [x]) = p.
Proof. rewrite length_app. simpl. rewrite Nat.add_sub. by rewrite take_app_length. Qed.

Lemma hasTerm_app p : hasTerm (p ++ [16]) = true.
Proof. unfold hasTerm. rewrite last_snoc. by apply bool_decide_eq_true. Qed.

Lemma hasTerm_path h : hex_path h -> hasTerm h = false.
Proof.
  intros Hp. apply bool_decide_eq_false. intros Hl.
  eapply Forall_last in Hl; [|done]. unfold is_nibble in Hl. lia.
Qed.

(** The nibbles, the bytes and the ways to combine two nibbles. *)
Lemma forall_nibbles (P : Z -> bool) x :
  forallb P (seqZ 0 16) = true -> is_nibble x -> P x = true.
Proof.
  intros HP Hx. rewrite forallb_forall in HP. apply HP.
  apply list_elem_of_In, elem_of_seqZ. unfold is_nibble in Hx. lia.
Qed.

Lemma pack_nibbles hi lo :
  is_nibble hi -> is_nibble lo -> Z.lor (shl8 hi 4) lo = 16 * hi + lo.
Proof.
  intros Hhi Hlo. apply Z.eqb_eq.
  apply (forall_nibbles (fun lo => Z.lor (shl8 hi 4) lo =? 16 * hi + lo)); [|done].
  apply (forall_nibbles (fun hi => forallb (fun lo => Z.lor (shl8 hi 4) lo =? 16 * hi + lo)
                                     (seqZ 0 16))); [|done].
  vm_compute. reflexivity.
Qed.

Lemma pack_nibbles_byte hi lo :
  is_nibble hi -> is_nibble lo -> is_byte (Z.lor (shl8 hi 4) lo).
Proof. intros. rewrite pack_nibbles by done. unfold is_nibble, is_byte in *. lia. Qed.

Lemma unpack_byte b :
  is_byte b -> Z.lor (shl8 (b / 16) 4) (b mod 16) = b.
Proof.
  intros Hb. unfold is_byte in Hb.
  assert (0 <= b mod 16 < 16) by (apply Z.mod_pos_bound; lia).
  rewrite pack_nibbles; unfold is_nibble; [pose proof (Z.div_mod b 16); lia| |lia].
  split; [apply Z.div_pos; lia|apply Z.div_lt_upper_bound; lia].
Qed.

Lemma div_mod_pack hi lo :
  is_nibble hi -> is_nibble lo ->
  (16 * hi + lo) / 16 = hi /\ (16 * hi + lo) mod 16 = lo.
Proof.
  unfold is_nibble. intros. split.
  - symmetry. apply Z.div_unique with lo; lia.
  - symmetry. apply Z.mod_unique with hi; lia.
Qed.

(** The even-length packing, as a pure function. *)
Fixpoint pack (h : list Z) : list Z :=
  match h with
  | hi :: lo :: h' => 16 * hi + lo :: pack h'
  | _ => []
  end.

Lemma decodeNibbles_pack h :
  hex_path h -> Nat.Even (length h) ->
  decodeNibbles h (replicate (length h / 2) 0) = Ret (pack h).
Proof.
  induction h as [|x|hi lo h IH] using list_pairs_ind; intros Hp He.
  - done.
  - simpl in He. apply Nat.even_spec in He. done.
  - inversion Hp as [|? ? Hhi Hp']; inversion Hp' as [|? ? Hlo Hp'']; subst.
    change (length (hi :: lo :: h)) with (2 + length h)%nat.
    replace ((2 + length h) / 2)%nat with (S (length h / 2)).
    2: { symmetry. apply (Nat.div_add_l 1 2 (length h)). done. }
    simpl. rewrite IH; [|done|].
    + simpl. by rewrite pack_nibbles.
    + apply Nat.even_spec. apply Nat.even_spec in He. done.
Qed.

Lemma pack_keybytes (k : list Z) :
  Forall is_byte k -> pack (flat_map (fun b => [b / 16; b mod 16]) k) = k.
Proof.
  induction 1 as [|b k Hb Hk IH]; [done|]. simpl. rewrite IH. f_equal.
  rewrite <- pack_nibbles, unpack_byte; auto.
  - unfold is_nibble, is_byte in *. split; [apply Z.div_pos|apply Z.div_lt_upper_bound]; lia.
  - apply Z.mod_pos_bound. lia.
Qed.

Lemma unpack_pack h :
  hex_path h -> Nat.Even (length h) ->
  flat_map (fun b => [b / 16; b mod 16]) (pack h) = h.
Proof.
  induction h as [|x|hi lo h IH] using list_pairs_ind; intros Hp He.
  - done.
  - simpl in He. apply Nat.even_spec in He. done.
  - inversion Hp as [|? ? Hhi Hp']; inversion Hp' as [|? ? Hlo Hp'']; subst.
    simpl. destruct (div_mod_pack hi lo) as [-> ->]; [done..|].
    rewrite IH; [done|done|]. apply Nat.even_spec. apply Nat.even_spec in He. done.
Qed.

Lemma pack_bytes h : hex_path h -> Forall is_byte (pack h).
Proof.
  induction h as [|x|hi lo h IH] using list_pairs_ind; intros Hp; simpl; auto.
  inversion Hp as [|? ? Hhi Hp']; inversion Hp' as [|? ? Hlo Hp'']; subst.
  constructor; [|auto]. unfold is_nibble, is_byte in *. lia.
Qed.

Lemma flat_map_nibbles k :
  Forall is_byte k -> hex_path (flat_map (fun b => [b / 16; b mod 16]) k).
Proof.
  induction 1 as [|b k Hb Hk IH]; simpl; [constructor|].
  constructor; [|constructor]; [| |exact IH].
  - unfold is_nibble, is_byte in *. split; [apply Z.div_pos|apply Z.div_lt_upper_bound]; lia.
  - apply Z.mod_pos_bound. lia.
Qed.

Lemma length_flat_map_nibbles (k : list Z) :
  length (flat_map (fun b => [b / 16; b mod 16]) k) = (2 * length k)%nat.
Proof. induction k; simpl; lia. Qed.

Lemma keybytesToHex_key k : Forall is_byte k -> hex_key (keybytesToHex k).
Proof. intros Hk. eexists. split; [by apply flat_map_nibbles|done]. Qed.

Lemma keybytesToHex_inj k1 k2 :
  Forall is_byte k1 -> Forall is_byte k2 ->
  keybytesToHex k1 = keybytesToHex k2 -> k1 = k2.
Proof.
  unfold keybytesToHex. intros H1 H2 [E _]%app_inj_tail.
  apply (f_equal pack) in E. by rewrite !pack_keybytes in E.
Qed.

(** The compact encoding in closed form: flag byte, then packed nibbles. *)
Definition compact_flag (term : bool) : Z := if term then 32 else 0.
Definition compact_of (term : bool) (p : list Z) : list Z :=
  if Nat.odd (length p) then
    match p with
    | h0 :: p' => compact_flag term + 16 + h0 :: pack p'
    | [] => []
    end
  else compact_flag term :: pack p.

Lemma odd_flag (term : bool) h0 :
  is_nibble h0 ->
  Z.lor (Z.lor (shl8 (if term then 1 else 0) 5) (shl8 1 4)) h0 = compact_flag term + 16 + h0.
Proof.
  intros Hh. apply Z.eqb_eq.
  apply (forall_nibbles (fun h0 => Z.lor (Z.lor (shl8 (if term then 1 else 0) 5) (shl8 1 4)) h0
                                   =? compact_flag term + 16 + h0)); [|done].
  destruct term; vm_compute; reflexivity.
Qed.

Lemma odd_div2_pred n : Nat.odd n = true -> (n / 2 = (n - 1) / 2)%nat.
Proof.
  intros Hn. apply Nat.odd_spec in Hn as [m ->].
  replace (2 * m + 1 - 1)%nat with (m * 2)%nat by lia.
  replace (2 * m + 1)%nat with (m * 2 + 1)%nat by lia.
  rewrite Nat.div_add_l, Nat.div_mul by lia. change (1 / 2)%nat with 0%nat. lia.
Qed.

Lemma hexToCompact_path (term : bool) p :
  hex_path p ->
  hexToCompact (if term then p ++ [16] else p) = Ret (compact_of term p).
Proof.
  intros Hp. unfold hexToCompact, compact_of.
  assert (hasTerm (if term then p ++ [16] else p) = term) as ->.
  { destruct term; [apply hasTerm_app|by apply hasTerm_path]. }
  assert ((if term then take (length (if term then p ++ [16] else p) - 1)
             (if term then p ++ [16] else p) else if term then p ++ [16] else p) = p) as ->.
  { destruct term; [apply last_take_minus_one|done]. }
  destruct (Nat.odd (length p)) eqn:Ho.
  - destruct p as [|h0 p]; [done|]. inversion Hp; subst.
    rewrite (odd_div2_pred _ Ho). simpl length. rewrite Nat.sub_succ, Nat.sub_0_r.
    rewrite decodeNibbles_pack; [|done|].
    + simpl. by rewrite odd_flag.
    + simpl length in Ho. rewrite Nat.odd_succ in Ho. by apply Nat.even_spec.
  - rewrite decodeNibbles_pack; [|done|].
    + simpl. destruct term; done.
    + apply Nat.even_spec. unfold Nat.odd in Ho. by apply negb_false_iff.
Qed.

Lemma compactToHex_compact_of (term : bool) p :
  hex_path p ->
  compactToHex (compact_of term p) = Ret (if term then p ++ [16] else p).
Proof.
  intros Hp. unfold compact_of.
  destruct (Nat.odd (length p)) eqn:Ho.
  - destruct p as [|h0 p]; [done|]. inversion Hp as [|? ? Hh Hp']; subst.
    simpl length in Ho. rewrite Nat.odd_succ in Ho.
    unfold compactToHex, keybytesToHex.
    rewrite <- (unpack_pack p Hp') at 2 by by apply Nat.even_spec.
    set (u := flat_map _ (pack p)).
    assert (flat_map (fun b => [b / 16; b mod 16]) (compact_flag term + 16 + h0 :: pack p)
            = (if term then 3 else 1) :: h0 :: u) as ->.
    { simpl. unfold compact_flag. destruct term.
      - replace (32 + 16 + h0) with (16 * 3 + h0) by lia.
        destruct (div_mod_pack 3 h0) as [-> ->]; try done.
      - replace (0 + 16 + h0) with (16 * 1 + h0) by lia.
        destruct (div_mod_pack 1 h0) as [-> ->]; try done. }
    subst u. rewrite unpack_pack by (done || by apply Nat.even_spec).
    simpl. destruct term; simpl.
    + done.
    + rewrite length_app. simpl. replace (length p + 1)%nat with (S (length p)) by lia.
      simpl. rewrite take_app_length. done.
  - assert (Nat.Even (length p)) as He.
    { apply Nat.even_spec. unfold Nat.odd in Ho. by apply negb_false_iff. }
    unfold compactToHex, keybytesToHex. simpl.
    rewrite unpack_pack by done. unfold compact_flag.
    destruct term; simpl; [done|].
    rewrite length_app. simpl. replace (length p + 1)%nat with (S (length p)) by lia.
    simpl. rewrite take_app_length. done.
Qed.

Lemma length_pack h : Nat.Even (length h) -> (length h = 2 * length (pack h))%nat.
Proof.
  induction h as [|x|hi lo h IH] using list_pairs_ind; intros He; [done| |].
  - apply Nat.even_spec in He. done.
  - simpl. rewrite IH at 1; [lia|]. apply Nat.even_spec. apply Nat.even_spec in He. done.
Qed.

(** The in-place loop leaves the entries below [bi] alone and writes the packed
    nibbles from [bi] on, whatever the rest of the buffer holds. *)
Lemma compactInPlace_loop_spec rest : forall fuel buf bi ni hexLen,
  hex_path rest -> Nat.Even (length rest) -> (length rest < fuel)%nat ->
  (forall i, (i < length rest)%nat -> buf !! (ni + i)%nat = rest !! i) ->
  hexLen = (ni + length rest)%nat -> (bi <= S ni)%nat ->
  exists buf', compactInPlace_loop fuel buf hexLen bi ni = Ret buf' /\
    length buf' = length buf /\
    (forall i, (i < bi)%nat -> buf' !! i = buf !! i) /\
    (forall i, (i < length (pack rest))%nat -> buf' !! (bi + i)%nat = pack rest !! i).
Proof.
  induction rest as [|x|hi lo rest IH] using list_pairs_ind;
    intros fuel buf bi ni hexLen Hp He Hf Hbuf -> Hbi.
  - destruct fuel; [simpl in Hf; lia|]. simpl.
    rewrite (proj2 (Nat.ltb_ge _ _)) by lia. eexists; split; [done|]. simpl.
    repeat split; intros; lia.
  - apply Nat.even_spec in He. done.
  - inversion Hp as [|? ? Hhi Hp']; inversion Hp' as [|? ? Hlo Hp'']; subst.
    destruct fuel as [|fuel]; [simpl in Hf; lia|]. simpl in Hf, Hbuf. simpl.
    rewrite (proj2 (Nat.ltb_lt _ _)) by lia.
    pose proof (Hbuf 0%nat ltac:(lia)) as H0. rewrite Nat.add_0_r in H0.
    pose proof (Hbuf 1%nat ltac:(lia)) as H1. rewrite Nat.add_1_r in H1.
    rewrite H0, H1. simpl.
    assert (bi < length buf)%nat as Hlt.
    { apply lookup_lt_Some in H1. lia. }
    destruct (lookup_lt_is_Some_2 _ _ Hlt) as [old Hold]. rewrite Hold. simpl.
    destruct (IH fuel (<[bi:=Z.lor (shl8 hi 4) lo]> buf) (bi + 1)%nat (ni + 2)%nat
                (ni + S (S (length rest)))%nat) as (buf' & E & Hlen & Hlow & Hpk);
      [done| |lia| |lia|lia|].
    { apply Nat.even_spec. apply Nat.even_spec in He. done. }
    { intros i Hi. rewrite list_lookup_insert_ne by lia.
      replace (ni + 2 + i)%nat with (ni + S (S i))%nat by lia. apply Hbuf. lia. }
    exists buf'. split; [done|]. rewrite length_insert in Hlen. split; [done|]. split.
    + intros i Hi. rewrite Hlow, list_lookup_insert_ne by lia. done.
    + intros [|i] Hi.
      * rewrite Nat.add_0_r, Hlow by lia. rewrite list_lookup_insert_eq by lia.
        simpl. by rewrite pack_nibbles.
      * replace (bi + S i)%nat with (bi + 1 + i)%nat by lia.
        rewrite Hpk by (simpl in Hi; lia). done.
Qed.

Lemma take_flag_pack (buf' : list Z) fb pk :
  (0 < length buf')%nat ->
  (forall i, (i < length pk)%nat -> buf' !! (1 + i)%nat = pk !! i) ->
  take (length pk + 1) (<[0%nat := fb]> buf') = fb :: pk.
Proof.
  intros Hl Hpk. apply list_eq. intros i.
  destruct (decide (i < length pk + 1)%nat) as [Hi|Hi].
  - rewrite lookup_take_lt by lia. destruct i as [|i].
    + by rewrite list_lookup_insert_eq.
    + rewrite list_lookup_insert_ne by lia. apply Hpk. lia.
  - rewrite lookup_take_ge by lia. symmetry. apply lookup_ge_None. simpl. lia.
Qed.

(** ** Properties *)

(** KEYBYTES to HEX and back is the identity on byte strings: no key is
    lost or altered by the traversal encoding of the trie. *)
Theorem keybytes_hex_roundtrip (k : list Z) :
  Forall is_byte k -> hexToKeybytes (keybytesToHex k) = Ret k.
Proof.
  intros Hk. unfold hexToKeybytes, keybytesToHex.
  rewrite hasTerm_app, last_take_minus_one, length_flat_map_nibbles.
  assert (Nat.odd (2 * length k) = false) as ->.
  { unfold Nat.odd. by rewrite Nat.even_mul. }
  rewrite <- length_flat_map_nibbles at 1.
  rewrite decodeNibbles_pack; [by rewrite pack_keybytes|by apply flat_map_nibbles|].
  rewrite length_flat_map_nibbles. by exists (length k).
Qed.

Lemma keybytes_hex_roundtrip_witness :
  hexToKeybytes (keybytesToHex [18; 255; 0]) = Ret [18; 255; 0].
Proof.
  apply keybytes_hex_roundtrip. repeat constructor; unfold is_byte; lia.
Defined.

(** HEX to COMPACT and back is the identity on every well-formed hex key,
    with or without terminator and for odd and even lengths; the compact form
    is a byte string. *)
Theorem hex_compact_roundtrip (h : list Z) :
  hex_ok h ->
  exists c, hexToCompact h = Ret c /\ Forall is_byte c /\ compactToHex c = Ret h.
Proof.
  assert (forall (term : bool) p, hex_path p -> Forall is_byte (compact_of term p)) as Hb.
  { intros term p Hp. unfold compact_of.
    assert (compact_flag term = 32 \/ compact_flag term = 0) as Hfl by (destruct term; auto).
    case_match; [destruct p as [|h0 p]; [constructor|]|].
    - inversion Hp; subst. constructor; [|by apply pack_bytes].
      unfold is_nibble, is_byte in *. lia.
    - constructor; [unfold is_byte; lia|by apply pack_bytes]. }
  intros [Hp|(p & Hp & ->)].
  - exists (compact_of false h).
    split; [apply (hexToCompact_path false h Hp)|].
    split; [by apply Hb|apply (compactToHex_compact_of false h Hp)].
  - exists (compact_of true p).
    split; [apply (hexToCompact_path true p Hp)|].
    split; [by apply Hb|apply (compactToHex_compact_of true p Hp)].
Qed.

Lemma hex_compact_roundtrip_witness :
  exists c, hexToCompact [1; 2; 3; 16] = Ret c /\ Forall is_byte c /\
            compactToHex c = Ret [1; 2; 3; 16].
Proof.
  apply hex_compact_roundtrip. right. exists [1; 2; 3].
  split; [|reflexivity]. repeat constructor; unfold is_nibble; lia.
Defined.

(** The in-place compact encoder computes the same compact key as the
    allocating one: the returned length is the length of the compact key and
    the buffer starts with it, although the loop reads and overwrites the same
    buffer. *)
Theorem hexToCompactInPlace_correct (h : list Z) :
  hex_ok h -> h <> [] ->
  exists buf n c, hexToCompactInPlace h = Ret (buf, n) /\ hexToCompact h = Ret c /\
    n = length c /\ take n buf = c /\ length buf = length h.
Proof.
  intros Hok Hne.
  assert (exists (term : bool) p, hex_path p /\ h = if term then p ++ [16] else p)
    as (term & p & Hp & E).
  { destruct Hok as [Hp|(p & Hp & ->)]; [by exists false, h|by exists true, p]. }
  assert (hexToCompact h = Ret (compact_of term p)) as ->.
  { rewrite E. by apply hexToCompact_path. }
  unfold hexToCompactInPlace.
  assert (hasTerm h = term) as ->.
  { subst h. destruct term; [apply hasTerm_app|by apply hasTerm_path]. }
  assert ((if term then length h - 1 else length h) = length p)%nat as ->.
  { subst h. destruct term; [rewrite length_app; simpl; lia|done]. }
  assert (forall i, (i < length p)%nat -> h !! i = p !! i) as Hh.
  { subst h. destruct term; [|done]. intros i Hi. by apply lookup_app_l. }
  assert (0 < length h)%nat as Hpos by (destruct h; [done|simpl; lia]).
  unfold compact_of. destruct (Nat.odd (length p)) eqn:Ho.
  - destruct p as [|h0 p]; [done|]. rewrite (Hh 0%nat) by (simpl; lia). cbn [lookup list_lookup of_option mbind outcome_bind length snd fst].
    inversion Hp as [|? ? Hh0 Hp']; subst x l.
    simpl length in Ho. rewrite Nat.odd_succ in Ho. apply Nat.even_spec in Ho.
    destruct (compactInPlace_loop_spec p (S (S (length p))) h 1 1 (S (length p)))
      as (buf' & Eb & Hlen & _ & Hpk); [done|done|lia| |done|lia|].
    { intros i Hi. apply (Hh (S i)). simpl. lia. }
    rewrite Eb. simpl.
    destruct (lookup_lt_is_Some_2 buf' 0) as [x Hx]; [lia|]. rewrite Hx. simpl.
    eexists _, _, _. split; [done|]. split; [done|].
    assert (S (length p) / 2 + 1 = length (pack p) + 1)%nat as ->.
    { f_equal. rewrite odd_div2_pred by (rewrite Nat.odd_succ; by apply Nat.even_spec).
      rewrite Nat.sub_succ, Nat.sub_0_r. rewrite (length_pack p Ho) at 1.
      rewrite Nat.mul_comm. by apply Nat.div_mul. }
    split; [simpl; lia|]. rewrite take_flag_pack; [|lia|apply Hpk].
    split; [|by rewrite length_insert].
    f_equal. rewrite <- odd_flag by done. by destruct term.
  - assert (Nat.Even (length p)) as He.
    { apply Nat.even_spec. unfold Nat.odd in Ho. by apply negb_false_iff. }
    destruct (compactInPlace_loop_spec p (S (length p)) h 1 0 (length p))
      as (buf' & Eb & Hlen & _ & Hpk); [done|done|lia|done|done|lia|].
    cbn [mbind outcome_bind snd fst]. rewrite Eb. simpl.
    destruct (lookup_lt_is_Some_2 buf' 0) as [x Hx]; [lia|]. rewrite Hx. simpl.
    eexists _, _, _. split; [done|]. split; [done|].
    assert (length p / 2 + 1 = length (pack p) + 1)%nat as ->.
    { f_equal. rewrite (length_pack p He) at 1. rewrite Nat.mul_comm. by apply Nat.div_mul. }
    split; [simpl; lia|]. rewrite take_flag_pack; [|lia|apply Hpk].
    split; [by destruct term|by rewrite length_insert].
Qed.

Lemma hexToCompactInPlace_correct_witness :
  exists buf n c, hexToCompactInPlace [10; 11; 12; 13; 14; 16] = Ret (buf, n) /\
    hexToCompact [10; 11; 12; 13; 14; 16] = Ret c /\
    n = length c /\ take n buf = c /\ length buf = length [10; 11; 12; 13; 14; 16].
Proof.
  apply hexToCompactInPlace_correct; [|discriminate].
  right. exists [10; 11; 12; 13; 14]. split; [|reflexivity].
  repeat constructor; unfold is_nibble; lia.
Defined.
