(* ===== verification/TrieSpec.v ===== *)
(** * The Merkle Patricia trie as a pure tree

    The reference semantics of the trie: nodes with every child present (no
    unresolved hash node, no cache flags, no tracer) and the three operations
    written exactly along the branches of [trie/trie.go].  Proved here: the
    canonical form is preserved by every operation, the operations implement a
    finite map on keys, and a canonical trie is determined by the map it
    holds. [Trie.v] proves that the modelled code refines this file. *)

From stdpp Require Import base gmap strings list.
From Stdlib Require Import ZArith Lia.
From S2P Require Import Prelude Encoding.

Local Open Scope Z_scope.

(** ** Pure nodes *)

Inductive ptrie : Type :=
| PNil
| PVal (v : list Z)
| PShort (key : list Z) (val : ptrie)
| PFull (children : list ptrie).

Section ptrie_ind.
Context (P : ptrie -> Prop).
Context (Hnil : P PNil) (Hval : forall v, P (PVal v)).
Context (Hshort : forall k t, P t -> P (PShort k t)).
Context (Hfull : forall cs, (forall i c, cs !! i = Some c -> P c) -> P (PFull cs)).

Fixpoint ptrie_nested_ind (t : ptrie) : P t :=
  match t with
  | PNil => Hnil
  | PVal v => Hval v
  | PShort k t => Hshort k t (ptrie_nested_ind t)
  | PFull cs =>
      Hfull cs
        ((fix go (l : list ptrie) : forall i c, l !! i = Some c -> P c :=
            match l with
            | [] => fun i c E => match E in _ = o return match o with Some _ => P c | None => True end with eq_refl => I end
            | x :: l => fun i =>
                match i with
                | O => fun c E => match E in _ = o return match o with Some y => P y | None => True end with eq_refl => ptrie_nested_ind x end
                | S i => fun c E => go l i c E
                end
            end) cs)
  end.
End ptrie_ind.

Definition pnil (t : ptrie) : bool := match t with PNil => true | _ => false end.
Definition nonnil (t : ptrie) : bool := negb (pnil t).

Definition empty_children : list ptrie := replicate 17 PNil.

(** A key hanging below a node: the empty key is the node itself. *)
Definition pleaf (k : list Z) (v : ptrie) : ptrie :=
  match k with [] => v | _ => PShort k v end.

(** ** Operations *)

Fixpoint pget (t : ptrie) (key : list Z) {struct t} : option (list Z) :=
  match t with
  | PNil => None
  | PVal v => Some v
  | PShort k c =>
      if bool_decide (take (length k) key = k) then pget c (drop (length k) key) else None
  | PFull cs =>
      match key with
      | [] => None
      | x :: key' => nth_with (fun c => pget c key') None cs (Z.to_nat x)
      end
  end.

Definition pbranch (k : list Z) (c : ptrie) (key : list Z) (v : ptrie) (m : nat) : ptrie :=
  match drop m k, drop m key with
  | x :: k', y :: key' =>
      PFull (<[Z.to_nat y := pleaf key' v]> (<[Z.to_nat x := pleaf k' c]> empty_children))
  | _, _ => PNil
  end.

Fixpoint pinsert (t : ptrie) (key : list Z) (v : ptrie) {struct t} : bool * ptrie :=
  match key with
  | [] =>
      match t, v with
      | PVal w, PVal u => (bool_decide (w <> u), v)
      | _, _ => (true, v)
      end
  | x :: key' =>
      match t with
      | PShort k c =>
          let m := prefixLen key k in
          if (m =? length k)%nat then
            let r := pinsert c (drop m key) v in
            if r.1 then (true, PShort k r.2) else (false, t)
          else
            let branch := pbranch k c key v m in
            if (m =? 0)%nat then (true, branch) else (true, PShort (take m key) branch)
      | PFull cs =>
          let r := nth_with (fun c => pinsert c key' v) (false, PNil) cs (Z.to_nat x) in
          if r.1 then (true, PFull (<[Z.to_nat x := r.2]> cs)) else (false, t)
      | PNil => (true, PShort key v)
      | PVal _ => (false, t)
      end
  end.

(** What is left of a full node once child [i] became nil. *)
Definition preduce (cs : list ptrie) : ptrie :=
  let pos := only_index nonnil 0 (-1) cs in
  if 0 <=? pos then
    match cs !! Z.to_nat pos with
    | Some (PShort k c) => if pos =? 16 then PShort [pos] (PShort k c) else PShort (pos :: k) c
    | Some c => PShort [pos] c
    | None => PFull cs
    end
  else PFull cs.

Fixpoint pdelete (t : ptrie) (key : list Z) {struct t} : bool * ptrie :=
  match t with
  | PShort k c =>
      let m := prefixLen key k in
      if (m <? length k)%nat then (false, t)
      else if (m =? length key)%nat then (true, PNil)
      else
        let r := pdelete c (drop (length k) key) in
        if r.1 then
          match r.2 with
          | PShort k' c' => (true, PShort (k ++ k') c')
          | child => (true, PShort k child)
          end
        else (false, t)
  | PFull cs =>
      match key with
      | [] => (false, t)
      | x :: key' =>
          let r := nth_with (fun c => pdelete c key') (false, PNil) cs (Z.to_nat x) in
          if r.1 then
            let cs' := <[Z.to_nat x := r.2]> cs in
            if pnil r.2 then (true, preduce cs') else (true, PFull cs')
          else (false, t)
      end
  | PVal _ => (true, PNil)
  | PNil => (false, PNil)
  end.

(** ** Canonical form *)

(** Slot 16 of a full node and the end of a path hold a non-empty value or
    nothing. *)
Definition vslot (t : ptrie) : Prop :=
  match t with PNil => True | PVal v => v <> [] | _ => False end.

(** A trie is canonical when every full node has at least two children; a loose one,
    as it stands while a range of it is being rebuilt, may have fewer. *)
Fixpoint wfl (loose : bool) (t : ptrie) : Prop :=
  match t with
  | PNil => True
  | PVal _ => False
  | PShort k c =>
      match c with
      | PVal v => hex_key k /\ v <> []
      | PFull _ => k <> [] /\ hex_path k /\ wfl loose c
      | _ => False
      end
  | PFull cs =>
      length cs = 17%nat /\ ((if loose then 0 else 2) <= count nonnil cs)%nat /\
      (fix go (i : nat) (l : list ptrie) : Prop :=
         match l with
         | [] => True
         | c :: l => (if (i =? 16)%nat then vslot c else wfl loose c) /\ go (S i) l
         end) 0%nat cs
  end.

(** A position in the trie together with the keys that may reach it: [b] tells
    whether the terminator has been consumed. *)
Definition wfl_at (loose b : bool) (t : ptrie) : Prop := if b then vslot t else wfl loose t.
Definition key_at (b : bool) (k : list Z) : Prop := if b then k = [] else hex_key k.

Section insertion.
Context {loose : bool}.
#[local] Abbreviation wf := (wfl loose).
#[local] Abbreviation wf_at := (wfl_at loose).

Lemma wfl_full cs :
  wf (PFull cs) <->
  length cs = 17%nat /\ ((if loose then 0 else 2) <= count nonnil cs)%nat /\
  forall i c, cs !! i = Some c -> wf_at (i =? 16)%nat c.
Proof.
  simpl. do 2 (apply and_iff_compat_l).
  assert (forall (l : list ptrie) n,
    (fix go (i : nat) (l : list ptrie) : Prop :=
       match l with
       | [] => True
       | c :: l => (if (i =? 16)%nat then vslot c else wfl loose c) /\ go (S i) l
       end) n l <-> forall i c, l !! i = Some c -> wf_at (n + i =? 16)%nat c) as H; [|apply (H cs 0%nat)].
  induction l as [|c l IH]; intros n.
  - split; [done|]. done.
  - split.
    + intros [Hc Hl] [|i] c' E; simplify_eq/=.
      * rewrite Nat.add_0_r. exact Hc.
      * rewrite <- Nat.add_succ_comm. by apply (IH (S n)).
    + intros H. split.
      * specialize (H 0%nat c eq_refl). by rewrite Nat.add_0_r in H.
      * apply IH. intros i c' E. rewrite Nat.add_succ_comm. by apply (H (S i)).
Qed.

Lemma wf_at_nil b : wf_at b PNil.
Proof. by destruct b. Qed.

(** ** Keys *)

Lemma hex_key_cons x k :
  hex_key (x :: k) <-> (x = 16 /\ k = []) \/ (is_nibble x /\ hex_key k).
Proof.
  split.
  - intros ([|y p] & Hp & E); simplify_eq/=; [by left|]. right.
    inversion Hp; subst. split; [done|]. by exists p.
  - intros [[-> ->]|[Hx (p & Hp & ->)]]; [exists []; split; [constructor|done]|].
    exists (x :: p). split; [by constructor|done].
Qed.

Lemma hex_key_nil : ~ hex_key [].
Proof. intros (p & _ & E). by destruct p. Qed.

Lemma hex_key_app p k : hex_path p -> hex_key k -> hex_key (p ++ k).
Proof.
  intros Hp (q & Hq & ->). exists (p ++ q). rewrite app_assoc. split; [|done].
  by apply Forall_app.
Qed.

Lemma hex_key_app_inv p k : hex_path p -> hex_key (p ++ k) -> hex_key k.
Proof.
  induction 1 as [|x p Hx Hp IH]; [done|]. simpl. rewrite hex_key_cons.
  intros [[-> E]|[_ Hk]]; [unfold is_nibble in Hx; lia|auto].
Qed.

Lemma hex_key_app_key k l : hex_key k -> hex_key (k ++ l) -> l = [].
Proof.
  intros (p & Hp & ->). rewrite <- app_assoc. simpl. intros H.
  apply hex_key_app_inv in H; [|done]. rewrite hex_key_cons in H.
  destruct H as [[_ ?]|[H _]]; [done|]. unfold is_nibble in H. lia.
Qed.

Lemma hex_key_path_app k l : hex_path (k ++ l) -> hex_key k -> False.
Proof.
  intros [Hp _]%Forall_app (p & _ & ->). apply Forall_app in Hp as [_ Hp].
  inversion Hp; subst. unfold is_nibble in *. lia.
Qed.

(** The first symbol of a key picks a child; the rest is a key of that child. *)
Lemma hex_key_child x k :
  hex_key (x :: k) -> (Z.to_nat x < 17)%nat /\ 0 <= x /\ key_at (Z.to_nat x =? 16)%nat k.
Proof.
  rewrite hex_key_cons. intros [[-> ->]|[Hx Hk]]; [by vm_compute|].
  unfold is_nibble in Hx. split; [lia|]. split; [lia|].
  assert ((Z.to_nat x =? 16)%nat = false) as -> by (apply Nat.eqb_neq; lia). done.
Qed.

Lemma child_key i k :
  (i < 17)%nat -> key_at (i =? 16)%nat k -> hex_key (Z.of_nat i :: k).
Proof.
  intros Hi Hk. apply hex_key_cons. destruct (i =? 16)%nat eqn:E.
  - apply Nat.eqb_eq in E as ->. left. by simpl in Hk.
  - apply Nat.eqb_neq in E. right. split; [unfold is_nibble; lia|done].
Qed.

Lemma Z_to_nat_inj_nonneg x y : 0 <= x -> 0 <= y -> Z.to_nat x = Z.to_nat y -> x = y.
Proof. lia. Qed.

(** ** Common prefixes *)

Lemma prefixLen_spec a b :
  let m := prefixLen a b in
  (m <= length a)%nat /\ (m <= length b)%nat /\ take m a = take m b /\
  (forall x y, a !! m = Some x -> b !! m = Some y -> x <> y).
Proof.
  revert b. induction a as [|x a IH]; intros [|y b]; cbv zeta; simpl;
    try (split; [lia|]; split; [lia|]; split; [done|]; done).
  destruct (x =? y) eqn:E.
  - apply Z.eqb_eq in E as ->. destruct (IH b) as (H1 & H2 & H3 & H4).
    simpl. split; [lia|]. split; [lia|]. split; [by rewrite H3|]. exact H4.
  - apply Z.eqb_neq in E. simpl. split; [lia|]. split; [lia|]. split; [done|]. naive_solver.
Qed.

Lemma prefixLen_full a b :
  prefixLen a b = length b <-> exists l, a = b ++ l.
Proof.
  split.
  - intros E. destruct (prefixLen_spec a b) as (_ & _ & H & _). rewrite E in H.
    rewrite firstn_all in H. exists (drop (length b) a). rewrite <- H at 1. by rewrite take_drop.
  - intros (l & ->). induction b as [|x b IH]; [by destruct l|]. simpl. by rewrite Z.eqb_refl, IH.
Qed.

Lemma take_length_app_decide (k key : list Z) :
  bool_decide (take (length k) key = k) = true <-> exists l, key = k ++ l.
Proof.
  rewrite bool_decide_eq_true. split.
  - intros E. exists (drop (length k) key). rewrite <- E at 1. by rewrite take_drop.
  - intros (l & ->). by rewrite take_app_length.
Qed.

(** Where two keys part, both have a symbol and the symbols differ. *)
Lemma prefixLen_split a b :
  (prefixLen a b < length a)%nat -> (prefixLen a b < length b)%nat ->
  exists p x y a' b', a = p ++ x :: a' /\ b = p ++ y :: b' /\ x <> y /\
    length p = prefixLen a b.
Proof.
  intros Ha Hb. destruct (prefixLen_spec a b) as (_ & _ & Ht & Hd).
  set (m := prefixLen a b) in *.
  destruct (lookup_lt_is_Some_2 _ _ Ha) as [x Hx].
  destruct (lookup_lt_is_Some_2 _ _ Hb) as [y Hy].
  exists (take m a), x, y, (drop (S m) a), (drop (S m) b).
  split; [symmetry; by apply take_drop_middle|].
  split; [rewrite Ht; symmetry; by apply take_drop_middle|].
  split; [by apply Hd|]. rewrite length_take. lia.
Qed.

(** A key either passes below a short node or leaves its key at some point. *)
Lemma key_short_cases key k (isleaf : bool) :
  hex_key key -> (if isleaf then hex_key k else hex_path k) ->
  (prefixLen key k = length k /\ exists l, key = k ++ l /\ key_at isleaf l) \/
  (exists p x y key' k', key = p ++ x :: key' /\ k = p ++ y :: k' /\ x <> y /\
     length p = prefixLen key k /\ (prefixLen key k < length k)%nat /\ hex_path p /\
     hex_key (x :: key') /\ (if isleaf then hex_key (y :: k') else hex_path (y :: k'))).
Proof.
  intros Hkey Hk. destruct (prefixLen_spec key k) as (H1 & H2 & H3 & _).
  destruct (decide (prefixLen key k = length k)) as [E|E].
  - left. split; [done|]. apply prefixLen_full in E as (l & ->). exists l. split; [done|].
    destruct isleaf; simpl.
    + by apply (hex_key_app_key k).
    + by apply (hex_key_app_inv k).
  - right. assert (prefixLen key k < length key)%nat as Hlt.
    { destruct (decide (prefixLen key k = length key)) as [E'|E']; [|lia]. exfalso.
      rewrite E', firstn_all in H3.
      assert (k = key ++ drop (length key) k) as Ek.
      { rewrite H3 at 1. by rewrite take_drop. }
      destruct isleaf.
      - rewrite Ek in Hk. apply (hex_key_app_key key) in Hk; [|done].
        rewrite Hk, app_nil_r in Ek. congruence.
      - rewrite Ek in Hk. by apply hex_key_path_app in Hk. }
    destruct (prefixLen_split key k) as (p & x & y & key' & k' & -> & -> & Hne & Hl); [lia..|].
    assert (hex_path p) as Hp.
    { destruct isleaf; [|by apply Forall_app in Hk as [? _]].
      destruct Hk as (q & Hq & Eq).
      assert (p = take (length p) q) as ->; [|by apply Forall_take].
      assert (length p <= length q)%nat.
      { apply (f_equal length) in Eq. rewrite !length_app in Eq. simpl in Eq. lia. }
      rewrite <- (take_app_le q [16]) by lia. rewrite <- Eq. by rewrite take_app_length. }
    exists p, x, y, key', k'. split; [done|]. split; [done|]. split; [done|]. split; [done|].
    split; [lia|]. split; [done|]. split; [by apply (hex_key_app_inv p)|].
    destruct isleaf; [by apply (hex_key_app_inv p)|by apply Forall_app in Hk as [_ ?]].
Qed.

(** ** Lookup *)

Lemma pget_short k c key l : key = k ++ l -> pget (PShort k c) key = pget c l.
Proof.
  intros ->. simpl. rewrite take_app_length, drop_app_length.
  by rewrite bool_decide_eq_true_2.
Qed.

Lemma pget_short_miss k c key : (forall l, key <> k ++ l) -> pget (PShort k c) key = None.
Proof.
  intros H. simpl. rewrite bool_decide_eq_false_2; [done|].
  intros E. apply (H (drop (length k) key)). rewrite <- E at 1. by rewrite take_drop.
Qed.

Lemma pget_full cs x key :
  pget (PFull cs) (x :: key) = match cs !! Z.to_nat x with Some c => pget c key | None => None end.
Proof. simpl. apply nth_with_lookup. Qed.

Lemma pget_full_insert cs i c x key :
  (i < length cs)%nat ->
  pget (PFull (<[i:=c]> cs)) (x :: key) =
    if decide (Z.to_nat x = i) then pget c key else pget (PFull cs) (x :: key).
Proof.
  intros Hi. rewrite !pget_full. case_decide as E.
  - by rewrite E, list_lookup_insert_eq.
  - by rewrite list_lookup_insert_ne.
Qed.

Lemma pget_leaf k v key l : key = k ++ l -> pget (pleaf k v) key = pget v l.
Proof. intros ->. destruct k; [done|]. by apply pget_short. Qed.

Lemma pget_leaf_val k v key isl :
  hex_key k \/ k = [] -> key_at isl key -> isl = bool_decide (k = []) ->
  pget (pleaf k (PVal v)) key = if decide (key = k) then Some v else None.
Proof.
  intros Hk Hkey ->. destruct k as [|x k].
  - simpl in Hkey. subst. done.
  - destruct Hk as [Hk|?]; [|done]. simpl in Hkey. unfold pleaf. case_decide as E.
    + subst. erewrite pget_short by (symmetry; apply app_nil_r). done.
    + apply pget_short_miss. intros l El. apply E. rewrite El in Hkey.
      apply hex_key_app_key in Hkey; [|done]. by rewrite El, Hkey, app_nil_r.
Qed.

(** ** Insertion *)

Lemma leaf_child_val y k v :
  hex_key (y :: k) -> v <> [] -> wf_at (Z.to_nat y =? 16)%nat (pleaf k (PVal v)).
Proof.
  intros Hk Hv. apply hex_key_child in Hk as (_ & _ & Hk).
  destruct (Z.to_nat y =? 16)%nat; simpl in Hk; subst; [done|].
  destruct k; [by apply hex_key_nil in Hk|]. done.
Qed.

Lemma leaf_child_full y k cs :
  hex_path (y :: k) -> wf (PFull cs) -> wf_at (Z.to_nat y =? 16)%nat (pleaf k (PFull cs)).
Proof.
  intros Hk Hw. inversion Hk as [|? ? Hy Hk']; subst. unfold is_nibble in Hy.
  assert ((Z.to_nat y =? 16)%nat = false) as -> by (apply Nat.eqb_neq; lia).
  destruct k; [done|]. simpl. split; [done|]. split; [done|]. exact Hw.
Qed.

(** The well-formed short nodes: leaves and extensions. *)
Lemma wf_short_inv k c :
  wf (PShort k c) ->
  exists isleaf : bool, (if isleaf then hex_key k else hex_path k /\ k <> []) /\
    (if isleaf then exists v, c = PVal v /\ v <> [] else exists cs, c = PFull cs /\ wf c) /\
    wf_at isleaf c /\ nonnil c = true.
Proof.
  destruct c as [|v|k' c|cs]; intros Hw; try (by destruct Hw).
  - destruct Hw as [Hk Hv]. exists true. split; [done|]. split; [by exists v|]. done.
  - destruct Hw as (Hne & Hk & Hc). exists false. split; [done|]. split; [by exists cs|]. done.
Qed.

Lemma wf_short_child y k' c (isleaf : bool) :
  (if isleaf then exists v, c = PVal v /\ v <> [] else exists cs, c = PFull cs /\ wf c) ->
  (if isleaf then hex_key (y :: k') else hex_path (y :: k')) ->
  wf_at (Z.to_nat y =? 16)%nat (pleaf k' c) /\ nonnil (pleaf k' c) = true /\
  (0 <= y /\ (Z.to_nat y < 17)%nat).
Proof.
  intros Hc Hk. destruct isleaf.
  - destruct Hc as (v & -> & Hv). split; [by apply leaf_child_val|].
    split; [by destruct k'|]. apply hex_key_child in Hk as (? & ? & _). done.
  - destruct Hc as (cs & -> & Hw). split; [by apply leaf_child_full|].
    split; [by destruct k'|]. inversion Hk; subst. unfold is_nibble in *. lia.
Qed.

Lemma empty_children_lookup i : (i < 17)%nat -> empty_children !! i = Some PNil.
Proof. intros Hi. unfold empty_children. by apply lookup_replicate_2. Qed.

Lemma pbranch_eq p x y key' k' c v :
  pbranch (p ++ y :: k') c (p ++ x :: key') v (length p) =
  PFull (<[Z.to_nat x := pleaf key' v]> (<[Z.to_nat y := pleaf k' c]> empty_children)).
Proof. unfold pbranch. by rewrite !drop_app_length. Qed.

Lemma pbranch_spec p x y key' k' c v :
  wf (PShort (p ++ y :: k') c) -> hex_path p -> x <> y -> hex_key (x :: key') -> v <> [] ->
  let br := pbranch (p ++ y :: k') c (p ++ x :: key') (PVal v) (length p) in
  wf br /\ (exists cs, br = PFull cs) /\
  forall q, hex_key q ->
    pget br q = if decide (q = x :: key') then Some v else pget (PShort (y :: k') c) q.
Proof.
  intros Hw Hp Hxy Hkey Hv. cbv zeta. rewrite pbranch_eq.
  apply wf_short_inv in Hw as (isl & Hk & Hc & _ & _).
  assert (if isl then hex_key (y :: k') else hex_path (y :: k')) as Hyk.
  { destruct isl; [by apply (hex_key_app_inv p)|]. destruct Hk as [Hk _].
    by apply Forall_app in Hk as [_ ?]. }
  destruct (wf_short_child y k' c isl Hc Hyk) as (Hcw & Hcn & Hy0 & Hy).
  destruct (hex_key_child x key' Hkey) as (Hx & Hx0 & Hkx).
  assert (Z.to_nat x <> Z.to_nat y) as Hne by lia.
  set (cs0 := <[Z.to_nat y := pleaf k' c]> empty_children).
  assert (length cs0 = 17%nat) as Hl0 by (unfold cs0; by rewrite length_insert).
  assert (cs0 !! Z.to_nat x = Some PNil) as Hx0'.
  { unfold cs0. rewrite list_lookup_insert_ne by done. by apply empty_children_lookup. }
  split; [|split; [by eexists|]].
  - apply wfl_full. rewrite length_insert. split; [done|]. split.
    + pose proof (count_insert nonnil cs0 (Z.to_nat x) PNil (pleaf key' (PVal v)) Hx0') as Hc1.
      pose proof (count_insert nonnil empty_children (Z.to_nat y) PNil (pleaf k' c)
                    (empty_children_lookup _ Hy)) as Hc2.
      rewrite Hcn in Hc2. assert (nonnil (pleaf key' (PVal v)) = true) as E by by destruct key'.
      rewrite E in Hc1. fold cs0 in Hc2. simpl in Hc1, Hc2.
      change (count nonnil empty_children) with 0%nat in Hc2. destruct loose; lia.
    + intros i d Hi. destruct (decide (i = Z.to_nat x)) as [->|Hix].
      { rewrite list_lookup_insert_eq in Hi by lia. simplify_eq. by apply leaf_child_val. }
      rewrite list_lookup_insert_ne in Hi by done. unfold cs0 in Hi.
      destruct (decide (i = Z.to_nat y)) as [->|Hiy].
      { rewrite list_lookup_insert_eq in Hi by done. by simplify_eq. }
      rewrite list_lookup_insert_ne in Hi by done.
      apply lookup_replicate in Hi as [-> _]. apply wf_at_nil.
  - intros [|z q] Hq; [by apply hex_key_nil in Hq|].
    destruct (hex_key_child z q Hq) as (Hz & Hz0 & Hkz).
    rewrite pget_full_insert by lia. case_decide as Ez.
    + assert (z = x) as -> by lia.
      rewrite (pget_leaf_val key' v q (Z.to_nat x =? 16)%nat); [|destruct key'; [by right|left]|done|].
      * destruct (decide (q = key')) as [->|Hn]; [by rewrite decide_True|].
        rewrite decide_False by congruence. symmetry. apply pget_short_miss. intros l [= ? ?]. congruence.
      * destruct (Z.to_nat x =? 16)%nat; [by simpl in Hkx|done].
      * destruct (Z.to_nat x =? 16)%nat eqn:E16; destruct key' as [|? key']; simpl in Hkx; try done.
        by apply hex_key_nil in Hkx.
    + rewrite decide_False by congruence. unfold cs0. rewrite pget_full_insert by done.
      case_decide as Ey.
      * assert (z = y) as -> by lia. destruct k' as [|k0 k'].
        -- simpl pleaf. symmetry. by apply (pget_short [y] c (y :: q) q).
        -- simpl pleaf. destruct (bool_decide (take (length (k0 :: k')) q = k0 :: k')) eqn:Et.
           ++ apply take_length_app_decide in Et as (l & ->). by rewrite !(pget_short _ _ _ l).
           ++ assert (forall l, q <> (k0 :: k') ++ l) as Hno.
              { intros l ->. rewrite (proj2 (take_length_app_decide _ _)) in Et; [done|by exists l]. }
              rewrite !pget_short_miss; [done| |done]. intros l [= E]. by apply (Hno l).
      * rewrite pget_full, empty_children_lookup by done.
        symmetry. apply pget_short_miss. intros l [= ? ?]. congruence.
Qed.

(** Prefixing every key. *)
Lemma pget_short_app p k c q : pget (PShort (p ++ k) c) (p ++ q) = pget (PShort k c) q.
Proof.
  destruct (bool_decide (take (length k) q = k)) eqn:Et.
  - apply take_length_app_decide in Et as (l & ->). rewrite (pget_short k _ _ l) by done.
    apply pget_short. by rewrite app_assoc.
  - assert (forall l, q <> k ++ l) as Hno.
    { intros l ->. rewrite (proj2 (take_length_app_decide _ _)) in Et; [done|by exists l]. }
    rewrite !pget_short_miss; [done|done|]. intros l E. rewrite <- app_assoc in E.
    apply app_inv_head in E. by apply (Hno l).
Qed.

Lemma pget_ext_branch p t q :
  hex_path p -> hex_key q ->
  pget (pleaf p t) q =
    if bool_decide (take (length p) q = p) then pget t (drop (length p) q) else None.
Proof. intros Hp Hq. destruct p; [|done]. by rewrite drop_0. Qed.

(** What an insertion at a position of kind [b] must give. *)
Record insert_ok (b : bool) (t : ptrie) (key v : list Z) (r : bool * ptrie) : Prop := {
  insert_wf : wf_at b r.2;
  insert_nonnil : nonnil r.2 = true;
  insert_clean : r.1 = false -> r.2 = t;
  insert_full : (exists cs, t = PFull cs) -> exists cs, r.2 = PFull cs;
  insert_dirty : r.1 = true <-> pget t key <> Some v;
  insert_get : forall q, key_at b q ->
    pget r.2 q = if decide (q = key) then Some v else pget t q;
}.

Lemma not_prefix (k q : list Z) :
  bool_decide (take (length k) q = k) = false -> forall l, q <> k ++ l.
Proof.
  intros Et l ->. rewrite (proj2 (take_length_app_decide _ _)) in Et; [done|by exists l].
Qed.

(** Replacing the subtrie below a short node. *)
Lemma pget_short_update k (isl : bool) (f : option (list Z)) c nn l :
  (if isl then hex_key k else hex_path k) ->
  (forall q, key_at isl q -> pget nn q = if decide (q = l) then f else pget c q) ->
  forall q, hex_key q ->
    pget (PShort k nn) q = if decide (q = k ++ l) then f else pget (PShort k c) q.
Proof.
  intros Hk Hn q Hq. destruct (bool_decide (take (length k) q = k)) eqn:Et.
  - apply take_length_app_decide in Et as (l' & ->). rewrite !(pget_short _ _ _ l') by done.
    assert (key_at isl l').
    { destruct isl; simpl; [by apply (hex_key_app_key k)|by apply (hex_key_app_inv k)]. }
    rewrite Hn by done. destruct (decide (l' = l)) as [->|Hne].
    + by rewrite decide_True.
    + rewrite decide_False; [done|]. intros E%app_inv_head. done.
  - pose proof (not_prefix _ _ Et) as Hno.
    rewrite decide_False by apply Hno. by rewrite !pget_short_miss.
Qed.

(** Replacing one child of a full node. *)
Lemma pget_full_update cs x key (f : option (list Z)) c nn :
  hex_key (x :: key) -> (Z.to_nat x < length cs)%nat -> cs !! Z.to_nat x = Some c ->
  (forall q, key_at (Z.to_nat x =? 16)%nat q ->
     pget nn q = if decide (q = key) then f else pget c q) ->
  forall q, hex_key q ->
    pget (PFull (<[Z.to_nat x := nn]> cs)) q = if decide (q = x :: key) then f else pget (PFull cs) q.
Proof.
  intros Hkey Hlen Hc Hn [|z q] Hq; [by apply hex_key_nil in Hq|].
  destruct (hex_key_child z q Hq) as (Hz & Hz0 & Hkz).
  destruct (hex_key_child x key Hkey) as (Hx & Hx0 & Hkx).
  rewrite pget_full_insert by lia. case_decide as E.
  - assert (z = x) as -> by lia. rewrite Hn by done. rewrite pget_full, Hc.
    destruct (decide (q = key)) as [->|Hne]; [by rewrite decide_True|].
    by rewrite decide_False by congruence.
  - by rewrite decide_False by congruence.
Qed.

Lemma wf_full_update cs i c nn :
  wf (PFull cs) -> cs !! i = Some c -> wf_at (i =? 16)%nat nn ->
  ((if loose then 0 else 2) <= count nonnil (<[i:=nn]> cs))%nat -> wf (PFull (<[i:=nn]> cs)).
Proof.
  intros (Hlen & _ & Hch)%wfl_full Hc Hn Hcnt. apply wfl_full.
  rewrite length_insert. split; [done|]. split; [done|].
  intros j d Hj. destruct (decide (j = i)) as [->|Hne].
  - rewrite list_lookup_insert_eq in Hj by (by eapply lookup_lt_Some). by simplify_eq.
  - rewrite list_lookup_insert_ne in Hj by done. by apply Hch.
Qed.

Lemma insert_ok_short_match k c l v (isl : bool) r :
  wf (PShort k c) -> (if isl then hex_key k else hex_path k) ->
  (if isl then exists v, c = PVal v /\ v <> [] else exists cs, c = PFull cs /\ wf c) ->
  insert_ok isl c l v r ->
  insert_ok false (PShort k c) (k ++ l) v
    (if r.1 then (true, PShort k r.2) else (false, PShort k c)).
Proof.
  intros Hw Hk Hc [I1 I2 I3 I4 I5 I6]. destruct r as [d nn]; cbn [fst snd] in *.
  pose proof (pget_short_update k isl (Some v) c nn l Hk I6) as Hget.
  assert (pget (PShort k c) (k ++ l) = pget c l) as Hgc by by apply pget_short.
  destruct d; split; cbn [fst snd wfl_at key_at]; try done; try (by intros [? ?]); try (by rewrite Hgc).
  - destruct isl; [destruct nn; simpl in I1; try done; naive_solver|].
    destruct Hc as (cs & -> & _). destruct I4 as [cs' ->]; [by eexists|].
    simpl in Hw. split; [naive_solver|]. by split.
  - rewrite I3 in Hget by done. exact Hget.
Qed.

Lemma insert_ok_short_branch p x y key' k' c v :
  wf (PShort (p ++ y :: k') c) -> hex_path p -> x <> y -> hex_key (x :: key') -> v <> [] ->
  insert_ok false (PShort (p ++ y :: k') c) (p ++ x :: key') v
    (true, pleaf p (pbranch (p ++ y :: k') c (p ++ x :: key') (PVal v) (length p))).
Proof.
  intros Hw Hp Hxy Hxk Hv.
  destruct (pbranch_spec p x y key' k' c v Hw Hp Hxy Hxk Hv) as (B1 & [cs B2] & B3).
  set (br := pbranch _ _ _ _ _) in *.
  assert (pget (PShort (p ++ y :: k') c) (p ++ x :: key') = None) as Hnone.
  { rewrite pget_short_app. apply pget_short_miss. intros l [= ? ?]. congruence. }
  split; cbn [fst snd]; try (by intros [? ?]).
  - destruct p; [exact B1|]. simpl. rewrite B2. by rewrite B2 in B1.
  - destruct p; [by rewrite B2|done].
  - done.
  - by rewrite Hnone.
  - cbn [key_at]. intros q Hq. rewrite pget_ext_branch by done.
    destruct (bool_decide (take (length p) q = p)) eqn:Et.
    + apply take_length_app_decide in Et as (l & ->). rewrite drop_app_length.
      rewrite B3 by by apply (hex_key_app_inv p). rewrite pget_short_app.
      destruct (decide (l = x :: key')) as [->|Hn]; [by rewrite decide_True|].
      rewrite decide_False; [done|]. intros E%app_inv_head. done.
    + pose proof (not_prefix _ _ Et) as Hno.
      rewrite decide_False by apply Hno. rewrite pget_short_miss; [done|].
      intros l E. apply (Hno ((y :: k') ++ l)). by rewrite E, <- app_assoc.
Qed.

Lemma insert_ok_full cs x key v c r :
  wf (PFull cs) -> hex_key (x :: key) -> cs !! Z.to_nat x = Some c ->
  insert_ok (Z.to_nat x =? 16)%nat c key v r ->
  insert_ok false (PFull cs) (x :: key) v
    (if r.1 then (true, PFull (<[Z.to_nat x := r.2]> cs)) else (false, PFull cs)).
Proof.
  intros Hw Hkey Hc [I1 I2 I3 I4 I5 I6]. destruct r as [d nn]; cbn [fst snd] in *.
  pose proof (lookup_lt_Some _ _ _ Hc) as Hlt.
  pose proof (pget_full_update cs x key (Some v) c nn Hkey Hlt Hc I6) as Hget.
  assert (pget (PFull cs) (x :: key) = pget c key) as Hgc by by rewrite pget_full, Hc.
  destruct d; split; cbn [fst snd wfl_at key_at]; try done; try (by eexists); try (by rewrite Hgc).
  - apply (wf_full_update cs _ c); [done..|].
    apply wfl_full in Hw as (_ & Hcnt & _).
    pose proof (count_insert nonnil cs _ c nn Hc) as Hci. rewrite I2 in Hci.
    destruct loose, (nonnil c); lia.
  - rewrite I3, list_insert_id in Hget by done. exact Hget.
Qed.

Lemma pinsert_spec t : forall b key v,
  wf_at b t -> key_at b key -> v <> [] -> insert_ok b t key v (pinsert t key (PVal v)).
Proof.
  induction t as [|w|k c IH|cs IH] using ptrie_nested_ind; intros b key v Hw Hkey Hv.
  - destruct b; simpl in Hkey.
    + subst. split; try done; [by intros [? ?]|]. intros q ->. done.
    + destruct key as [|x key]; [by apply hex_key_nil in Hkey|].
      split; try done; [by intros [? ?]|].
      intros q Hq. apply (pget_leaf_val (x :: key) v q false); [by left|done|done].
  - destruct b; [|done]. simpl in Hkey. subst. split; simpl; try done.
    + by intros Hd%bool_decide_eq_false; destruct (decide (w = v)); [subst|].
    + by intros [? ?].
    + rewrite bool_decide_eq_true. naive_solver.
    + intros q ->. done.
  - destruct b; [by destruct Hw|]. simpl in Hkey.
    destruct (wf_short_inv k c Hw) as (isl & Hk & Hc & Hwc & Hnc).
    assert (if isl then hex_key k else hex_path k) as Hk' by (destruct isl; naive_solver).
    destruct key as [|x0 key0]; [by apply hex_key_nil in Hkey|].
    cbn [pinsert]. set (key := x0 :: key0) in *.
    destruct (key_short_cases key k isl Hkey Hk')
      as [(Em & l & El & Hl)|(p & x & y & key' & k' & Ekey & Ek & Hxy & Hlp & Hlt & Hp & Hxk & Hyk)].
    + rewrite Em, Nat.eqb_refl, El, drop_app_length.
      apply (insert_ok_short_match k c l v isl); auto.
    + rewrite (proj2 (Nat.eqb_neq _ _)) by lia. rewrite <- Hlp, Ekey, Ek. rewrite Ek in Hw.
      pose proof (insert_ok_short_branch p x y key' k' c v Hw Hp Hxy Hxk Hv) as H.
      rewrite take_app_length. destruct p; exact H.
  - destruct b; [done|]. simpl in Hkey.
    destruct key as [|x key]; [by apply hex_key_nil in Hkey|].
    destruct (hex_key_child x key Hkey) as (Hx & Hx0 & Hkx).
    pose proof (proj1 (wfl_full cs) Hw) as (Hlen & Hcnt & Hch).
    destruct (lookup_lt_is_Some_2 cs (Z.to_nat x)) as [c Hc]; [lia|].
    cbn [pinsert]. rewrite nth_with_lookup, Hc.
    apply (insert_ok_full cs x key v c); eauto.
Qed.

End insertion.

Abbreviation wf := (wfl false).
Abbreviation wf_at := (wfl_at false).

Lemma wf_full cs :
  wf (PFull cs) <->
  length cs = 17%nat /\ (2 <= count nonnil cs)%nat /\
  forall i c, cs !! i = Some c -> wf_at (i =? 16)%nat c.
Proof. exact (wfl_full cs). Qed.

Lemma wfl_weaken b t : wf_at b t -> wfl_at true b t.
Proof.
  revert b. induction t as [|v|k c IH|cs IH] using ptrie_nested_ind; intros [|]; try done.
  - intros Hw. destruct c; try done. destruct Hw as (? & ? & Hw). split; [done|]. split; [done|]. by apply (IH false).
  - intros (Hl & _ & Hch)%wf_full. apply (@wfl_full true). split; [done|]. split; [lia|].
    intros i c Hc. eapply IH; eauto.
Qed.

(** ** Deletion *)

Record delete_ok (b : bool) (t : ptrie) (key : list Z) (r : bool * ptrie) : Prop := {
  delete_wf : wf_at b r.2;
  delete_clean : r.1 = false -> r.2 = t;
  delete_full : (exists cs, t = PFull cs) -> nonnil r.2 = true;
  delete_dirty : r.1 = true <-> pget t key <> None;
  delete_get : forall q, key_at b q ->
    pget r.2 q = if decide (q = key) then None else pget t q;
}.

(** Prefixing a canonical short or full node with a path. *)
Lemma wf_short_prepend p k c : hex_path p -> wf (PShort k c) -> wf (PShort (p ++ k) c).
Proof.
  intros Hp Hw. destruct c as [|v|k' c|cs]; try done.
  - destruct Hw as [Hk Hv]. split; [by apply hex_key_app|done].
  - destruct Hw as (Hne & Hk & Hc). split; [by destruct p|]. split; [by apply Forall_app|done].
Qed.

Lemma pget_reduced j c cs :
  (0 <= j < 17) -> cs !! Z.to_nat j = Some c ->
  (forall i d, cs !! i = Some d -> nonnil d = true -> i = Z.to_nat j) ->
  forall q, hex_key q -> pget (PShort [j] c) q = pget (PFull cs) q.
Proof.
  intros Hj Hc Hu [|z q] Hq; [by apply hex_key_nil in Hq|].
  destruct (hex_key_child z q Hq) as (Hz & Hz0 & _).
  rewrite pget_full. destruct (decide (z = j)) as [->|Hne].
  - rewrite Hc. by apply pget_short.
  - rewrite pget_short_miss by (intros l [= ? ?]; congruence).
    destruct (cs !! Z.to_nat z) as [d|] eqn:Ed; [|done].
    destruct d; [done|..]; exfalso; apply Hne; specialize (Hu _ _ Ed eq_refl); lia.
Qed.

Lemma preduce_spec cs :
  length cs = 17%nat -> (1 <= count nonnil cs)%nat ->
  (forall i c, cs !! i = Some c -> wf_at (i =? 16)%nat c) ->
  wf (preduce cs) /\ nonnil (preduce cs) = true /\
  forall q, hex_key q -> pget (preduce cs) q = pget (PFull cs) q.
Proof.
  intros Hlen Hcnt Hch. unfold preduce.
  destruct (only_index_spec nonnil cs 0 (-1)) as [_ H]. destruct (H eq_refl) as (_ & H2 & H1).
  destruct (decide (count nonnil cs = 1)%nat) as [E1|E1].
  - destruct (H1 E1) as (j & c & Hj & Hn & -> & Hu). rewrite Nat.add_0_l.
    pose proof (lookup_lt_Some _ _ _ Hj) as Hlt. rewrite Hlen in Hlt.
    rewrite (proj2 (Z.leb_le _ _)) by lia. rewrite Nat2Z.id, Hj.
    pose proof (Hch _ _ Hj) as Hw.
    assert (forall q, hex_key q -> pget (PShort [Z.of_nat j] c) q = pget (PFull cs) q) as Hget.
    { apply pget_reduced; [lia|by rewrite Nat2Z.id|]. rewrite Nat2Z.id. exact Hu. }
    destruct (j =? 16)%nat eqn:E16.
    + apply Nat.eqb_eq in E16 as ->. destruct c as [|v|k c|cs']; try done.
      split; [split; [exists []; split; [constructor|done]|done]|]. done.
    + apply Nat.eqb_neq in E16. assert (hex_path [Z.of_nat j]) as Hpj.
      { constructor; [unfold is_nibble; lia|constructor]. }
      destruct c as [|v|k c|cs']; try done.
      * rewrite (proj2 (Z.eqb_neq _ _)) by lia.
        split; [by apply (wf_short_prepend [Z.of_nat j])|]. split; [done|].
        intros q Hq. rewrite <- Hget by done. destruct q as [|z q]; [by apply hex_key_nil in Hq|].
        destruct (decide (z = Z.of_nat j)) as [->|Hne].
        -- rewrite (pget_short_app [Z.of_nat j] k c q : pget (PShort (Z.of_nat j :: k) c) (Z.of_nat j :: q) = _).
           symmetry. by apply pget_short.
        -- rewrite !pget_short_miss; [done|..]; intros l [= ? ?]; congruence.
  - rewrite H2 by lia. simpl. split; [|done]. apply wf_full. split; [done|]. split; [lia|done].
Qed.

Lemma delete_ok_miss k c key :
  wf (PShort k c) -> hex_key key -> (forall l, key <> k ++ l) ->
  delete_ok false (PShort k c) key (false, PShort k c).
Proof.
  intros Hw Hk Hno. pose proof (pget_short_miss k c key Hno) as Hm.
  split; cbn [fst snd wfl_at key_at]; try done; try (by rewrite Hm).
  intros q _. case_decide as E; [by rewrite E|done].
Qed.

Lemma delete_ok_leaf k v :
  wf (PShort k (PVal v)) -> delete_ok false (PShort k (PVal v)) k (true, PNil).
Proof.
  intros [Hk Hv].
  assert (pget (PShort k (PVal v)) k = Some v) as Hg.
  { rewrite (pget_short k (PVal v) k []); [done|by rewrite app_nil_r]. }
  split; cbn [fst snd wfl_at key_at]; try done; try (by intros [? ?]); try (by rewrite Hg).
  intros q Hq. case_decide as E; [done|]. symmetry. apply pget_short_miss. intros l ->.
  apply E. apply hex_key_app_key in Hq; [|done]. by rewrite Hq, app_nil_r.
Qed.

Lemma delete_ok_short k cs l r :
  wf (PShort k (PFull cs)) -> delete_ok false (PFull cs) l r ->
  delete_ok false (PShort k (PFull cs)) (k ++ l)
    (if r.1 then
       match r.2 with
       | PShort k' c' => (true, PShort (k ++ k') c')
       | child => (true, PShort k child)
       end
     else (false, PShort k (PFull cs))).
Proof.
  intros Hw [D1 D2 D3 D4 D5]. pose proof Hw as (Hne & Hk & Hc).
  destruct r as [d nn]; cbn [fst snd] in *.
  specialize (D3 ltac:(by eexists)).
  pose proof (pget_short_update k false None (PFull cs) nn l Hk D5) as Hget.
  assert (pget (PShort k (PFull cs)) (k ++ l) = pget (PFull cs) l) as Hgc by by apply pget_short.
  destruct d.
  - destruct nn as [|v|k' c'|cs']; try done; split; cbn [fst snd wfl_at key_at]; try done;
      try (by rewrite Hgc).
    + by apply wf_short_prepend.
    + intros q Hq. rewrite <- Hget by done.
      destruct (bool_decide (take (length k) q = k)) eqn:Et.
      * apply take_length_app_decide in Et as (l' & ->). rewrite pget_short_app.
        symmetry. by apply pget_short.
      * pose proof (not_prefix _ _ Et) as Hno. rewrite !pget_short_miss; [done|done|].
        intros l' E. apply (Hno (k' ++ l')). by rewrite E, <- app_assoc.
  - rewrite D2 in Hget by done. split; cbn [fst snd wfl_at key_at]; try done. by rewrite Hgc.
Qed.

Lemma delete_ok_full cs x key c r :
  wf (PFull cs) -> hex_key (x :: key) -> cs !! Z.to_nat x = Some c ->
  delete_ok (Z.to_nat x =? 16)%nat c key r ->
  delete_ok false (PFull cs) (x :: key)
    (if r.1 then
       let cs' := <[Z.to_nat x := r.2]> cs in
       if pnil r.2 then (true, preduce cs') else (true, PFull cs')
     else (false, PFull cs)).
Proof.
  intros Hw Hkey Hc [D1 D2 D3 D4 D5]. destruct r as [d nn]; cbn [fst snd] in *.
  pose proof (lookup_lt_Some _ _ _ Hc) as Hlt.
  pose proof (pget_full_update cs x key None c nn Hkey Hlt Hc D5) as Hget.
  assert (pget (PFull cs) (x :: key) = pget c key) as Hgc by by rewrite pget_full, Hc.
  pose proof (proj1 (wf_full cs) Hw) as (Hlen & Hcnt & Hch).
  destruct d; [|rewrite D2, list_insert_id in Hget by done;
                split; cbn [fst snd wfl_at key_at]; try done; by rewrite Hgc].
  assert (nonnil c = true) as Hnc.
  { destruct c; try done. exfalso. by apply (proj1 D4). }
  pose proof (count_insert nonnil cs _ c nn Hc) as Hci. rewrite Hnc in Hci.
  destruct (pnil nn) eqn:Enn; cbv zeta.
  - destruct nn; try done. simpl in Hci.
    destruct (preduce_spec (<[Z.to_nat x:=PNil]> cs)) as (R1 & R2 & R3).
    { by rewrite length_insert. }
    { lia. }
    { intros i e Hi. destruct (decide (i = Z.to_nat x)) as [->|Hne].
      - rewrite list_lookup_insert_eq in Hi by lia. simplify_eq. apply wf_at_nil.
      - rewrite list_lookup_insert_ne in Hi by done. by apply Hch. }
    split; cbn [fst snd wfl_at key_at]; try done; try (by rewrite Hgc).
    intros q Hq. by rewrite R3, Hget.
  - assert (nonnil nn = true) as Hnn by (unfold nonnil; by rewrite Enn).
    rewrite Hnn in Hci. split; cbn [fst snd wfl_at key_at]; try done; [|by rewrite Hgc].
    apply (wf_full_update cs _ c); [done..|lia].
Qed.

Lemma pdelete_spec t : forall b key,
  wf_at b t -> key_at b key -> delete_ok b t key (pdelete t key).
Proof.
  induction t as [|w|k c IH|cs IH] using ptrie_nested_ind; intros b key Hw Hkey.
  - split; cbn [fst snd pdelete]; try done; try apply wf_at_nil;
      try (by intros [? ?]). intros q _. by case_decide.
  - destruct b; [|done]. simpl in Hkey. subst.
    split; cbn [fst snd pdelete wfl_at key_at]; try done; try (by intros [? ?]). intros q ->. done.
  - destruct b; [by destruct Hw|]. simpl in Hkey.
    destruct (wf_short_inv k c Hw) as (isl & Hk & Hc & Hwc & Hnc).
    assert (if isl then hex_key k else hex_path k) as Hk' by (destruct isl; naive_solver).
    cbn [pdelete].
    destruct (key_short_cases key k isl Hkey Hk')
      as [(Em & l & El & Hl)|(p & x & y & key' & k' & Ekey & Ek & Hxy & Hlp & Hlt & Hp & Hxk & Hyk)].
    + rewrite Em, Nat.ltb_irrefl. subst key. destruct isl.
      * simpl in Hl. subst l. rewrite app_nil_r, Nat.eqb_refl.
        destruct Hc as (v & -> & _). by apply delete_ok_leaf.
      * destruct Hc as (cs & -> & Hwcs). rewrite length_app.
        destruct l as [|l0 l]; [by apply hex_key_nil in Hl|].
        rewrite (proj2 (Nat.eqb_neq _ _)) by (simpl; lia). rewrite drop_app_length.
        apply delete_ok_short; auto.
    + rewrite (proj2 (Nat.ltb_lt _ _)) by done. apply delete_ok_miss; [done..|].
      subst. intros l E. rewrite <- app_assoc in E. apply app_inv_head in E.
      injection E as ? ?. congruence.
  - destruct b; [done|]. simpl in Hkey.
    destruct key as [|x key]; [by apply hex_key_nil in Hkey|].
    destruct (hex_key_child x key Hkey) as (Hx & Hx0 & Hkx).
    pose proof (proj1 (wf_full cs) Hw) as (Hlen & Hcnt & Hch).
    destruct (lookup_lt_is_Some_2 cs (Z.to_nat x)) as [c Hc]; [lia|].
    cbn [pdelete]. rewrite nth_with_lookup, Hc.
    apply (delete_ok_full cs x key c); eauto.
Qed.

(** ** A canonical trie is determined by its contents *)

Lemma wf_inhabited t : forall b,
  wf_at b t -> nonnil t = true -> exists q v, key_at b q /\ pget t q = Some v.
Proof.
  induction t as [|w|k c IH|cs IH] using ptrie_nested_ind; intros b Hw Hn; [done|..].
  - destruct b; [|done]. by exists [], w.
  - destruct b; [by destruct Hw|].
    destruct (wf_short_inv k c Hw) as (isl & Hk & Hc & Hwc & Hnc).
    destruct (IH _ Hwc Hnc) as (q & v & Hq & Hg). exists (k ++ q), v.
    split; [|by rewrite (pget_short k c _ q)].
    destruct isl; simpl in *; [by subst; rewrite app_nil_r|]. apply hex_key_app; naive_solver.
  - destruct b; [done|]. pose proof (proj1 (wf_full cs) Hw) as (Hlen & Hcnt & Hch).
    destruct (count_ge_2 _ _ Hcnt) as (i & _ & c & _ & _ & Hi & _ & Hc & _).
    destruct (IH _ _ Hi _ (Hch _ _ Hi) Hc) as (q & v & Hq & Hg).
    pose proof (lookup_lt_Some _ _ _ Hi) as Hlt.
    exists (Z.of_nat i :: q), v. split; [apply child_key; [lia|done]|].
    by rewrite pget_full, Nat2Z.id, Hi.
Qed.

Lemma full_two_keys cs :
  wf (PFull cs) -> exists x q x' q', x <> x' /\ hex_key (x :: q) /\ hex_key (x' :: q') /\
    pget (PFull cs) (x :: q) <> None /\ pget (PFull cs) (x' :: q') <> None.
Proof.
  intros Hw. pose proof (proj1 (wf_full cs) Hw) as (Hlen & Hcnt & Hch).
  destruct (count_ge_2 _ _ Hcnt) as (i & j & c & d & Hij & Hi & Hj & Hc & Hd).
  destruct (wf_inhabited c _ (Hch _ _ Hi) Hc) as (q & v & Hq & Hg).
  destruct (wf_inhabited d _ (Hch _ _ Hj) Hd) as (q' & v' & Hq' & Hg').
  pose proof (lookup_lt_Some _ _ _ Hi). pose proof (lookup_lt_Some _ _ _ Hj).
  exists (Z.of_nat i), q, (Z.of_nat j), q'. split; [lia|].
  split; [by apply child_key; [lia|]|]. split; [by apply child_key; [lia|]|].
  rewrite !pget_full, !Nat2Z.id, Hi, Hj, Hg, Hg'. done.
Qed.

Lemma pget_short_Some k c q : pget (PShort k c) q <> None -> exists l, q = k ++ l.
Proof.
  intros Hg. destruct (bool_decide (take (length k) q = k)) eqn:Et.
  - by apply take_length_app_decide.
  - rewrite pget_short_miss in Hg; [done|]. by apply not_prefix.
Qed.

Lemma prefix_of_two (k k' : list Z) x q x' q' l l' :
  x <> x' -> k ++ x :: q = k' ++ l -> k ++ x' :: q' = k' ++ l' -> exists m, k = k' ++ m.
Proof.
  revert k'. induction k as [|a k IH]; intros k' Hne E E'.
  - destruct k' as [|b k']; [by exists []|]. simplify_eq/=.
  - destruct k' as [|b k']; [by exists (a :: k)|]. simplify_eq/=.
    destruct (IH k' Hne) as [m ->]; [done..|]. by exists m.
Qed.

Lemma short_common_prefix k1 c1 k2 :
  wf (PShort k1 c1) ->
  (forall q, hex_key q -> pget (PShort k1 c1) q <> None -> exists l, q = k2 ++ l) ->
  exists m, k1 = k2 ++ m.
Proof.
  intros Hw H. destruct (wf_short_inv k1 c1 Hw) as (isl & Hk & Hc & Hwc & Hnc).
  destruct isl.
  - destruct Hc as (v & -> & Hv). apply H; [done|].
    rewrite (pget_short k1 (PVal v) k1 []); [done|by rewrite app_nil_r].
  - destruct Hc as (cs & -> & Hcs). destruct Hk as [Hk _].
    destruct (full_two_keys cs Hcs) as (x & q & x' & q' & Hne & Hq & Hq' & Hg & Hg').
    destruct (H (k1 ++ x :: q)) as [l Hl]; [by apply hex_key_app|by rewrite (pget_short k1 _ _ (x :: q))|].
    destruct (H (k1 ++ x' :: q')) as [l' Hl']; [by apply hex_key_app|by rewrite (pget_short k1 _ _ (x' :: q'))|].
    by eapply prefix_of_two.
Qed.

Lemma short_not_full k c cs :
  wf (PShort k c) -> wf (PFull cs) ->
  (forall q, hex_key q -> pget (PShort k c) q = pget (PFull cs) q) -> False.
Proof.
  intros Hw Hf H.
  destruct (full_two_keys cs Hf) as (x & q & x' & q' & Hne & Hq & Hq' & Hg & Hg').
  rewrite <- H in Hg, Hg' by done.
  apply pget_short_Some in Hg as [l Hl]. apply pget_short_Some in Hg' as [l' Hl'].
  assert (k <> []) as Hk.
  { intros ->. destruct (wf_short_inv [] c Hw) as (isl & Hk & _).
    destruct isl; [by apply hex_key_nil in Hk|naive_solver]. }
  destruct k; [done|]. simplify_eq/=.
Qed.

Lemma prefix_antisym (k1 k2 m m' : list Z) : k1 = k2 ++ m -> k2 = k1 ++ m' -> k1 = k2.
Proof.
  intros -> E. rewrite <- app_assoc in E. apply (f_equal length) in E.
  rewrite !length_app in E. destruct m; [by rewrite app_nil_r|]. simpl in E. lia.
Qed.

Theorem canonical_unique t1 : forall b t2,
  wf_at b t1 -> wf_at b t2 -> (forall q, key_at b q -> pget t1 q = pget t2 q) -> t1 = t2.
Proof.
  induction t1 as [|w|k c IH|cs IH] using ptrie_nested_ind; intros b t2 Hw1 Hw2 Hg.
  - destruct (nonnil t2) eqn:En; [|by destruct t2].
    destruct (wf_inhabited t2 b Hw2 En) as (q & v & Hq & Hv). rewrite <- Hg in Hv; done.
  - destruct b; [|done]. specialize (Hg [] eq_refl). destruct t2; try done. simpl in Hg. congruence.
  - destruct b; [by destruct Hw1|]. destruct t2 as [| |k2 c2|cs2]; [|done| |].
    + destruct (wf_inhabited (PShort k c) false Hw1 eq_refl) as (q & v & Hq & Hv).
      rewrite Hg in Hv; done.
    + assert (exists m, k = k2 ++ m) as [m Em].
      { apply (short_common_prefix k c); [done|]. intros q Hq. rewrite Hg by done.
        apply pget_short_Some. }
      assert (exists m, k2 = k ++ m) as [m' Em'].
      { apply (short_common_prefix k2 c2); [done|]. intros q Hq. rewrite <- Hg by done.
        apply pget_short_Some. }
      pose proof (prefix_antisym _ _ _ _ Em Em') as <-. f_equal.
      destruct (wf_short_inv k c Hw1) as (isl & Hk & Hc & Hwc & _).
      destruct (wf_short_inv k c2 Hw2) as (isl2 & Hk2 & Hc2 & Hwc2 & _).
      assert (isl = isl2) as <-.
      { destruct isl, isl2; [done|destruct Hk2 as [Hk2 _]|destruct Hk as [Hk _]|done]; exfalso.
        - by apply (hex_key_path_app k []); [rewrite app_nil_r|].
        - by apply (hex_key_path_app k []); [rewrite app_nil_r|]. }
      apply (IH isl); [done..|]. intros q Hq.
      assert (hex_key (k ++ q)) as Hkq.
      { destruct isl; simpl in Hq; [by subst; rewrite app_nil_r|apply hex_key_app; naive_solver]. }
      specialize (Hg _ Hkq). by rewrite !(pget_short k _ _ q) in Hg by done.
    + exfalso. by apply (short_not_full k c cs2).
  - destruct b; [done|]. destruct t2 as [| |k2 c2|cs2]; [|done| |].
    + destruct (wf_inhabited (PFull cs) false Hw1 eq_refl) as (q & v & Hq & Hv).
      rewrite Hg in Hv; done.
    + exfalso. apply (short_not_full k2 c2 cs); [done..|]. intros q Hq. by rewrite Hg.
    + pose proof (proj1 (wf_full cs) Hw1) as (Hl1 & _ & Hc1).
      pose proof (proj1 (wf_full cs2) Hw2) as (Hl2 & _ & Hc2). f_equal.
      apply list_eq_same_length with 17%nat; [done..|]. intros i c c2 Hi Hci Hci2.
      apply (IH i c Hci (i =? 16)%nat); [by apply Hc1|by apply Hc2|].
      intros q Hq. specialize (Hg (Z.of_nat i :: q) (child_key i q Hi Hq)).
      by rewrite !pget_full, Nat2Z.id, Hci, Hci2 in Hg.
Qed.
