(* ===== verification/Node.v ===== *)
(** * Trie nodes ([trie/node.go], [trie/errors.go], [trie/trie_reader.go], [trie/tracer.go])

    The node types with their cache flags, the decoder of the stored form, the
    reader through which a trie loads nodes, and the tracer that records what
    an operation read, inserted and deleted.  The RLP splitting functions of
    go-ethereum and its hash-sized byte arrays are class parameters. *)

From stdpp Require Import base gmap strings list pretty.
From Stdlib Require Import ZArith Lia.
From S2P Require Import Prelude Encoding.

Local Open Scope Z_scope.

(** ** Nodes *)

Record nodeFlag := mkFlag { hash : option (list Z); dirty : bool }.

(** The Go interface value [nil] is [NilNode]. *)
Inductive node : Type :=
| NilNode
| ValueNode (v : list Z)
| HashNode (h : list Z)
| ShortNode (Key : list Z) (Val : node) (flags : nodeFlag)
| FullNode (Children : list node) (flags : nodeFlag).

Section node_ind.
Context (P : node -> Prop).
Context (Hnil : P NilNode) (Hval : forall v, P (ValueNode v)) (Hhash : forall h, P (HashNode h)).
Context (Hshort : forall k v f, P v -> P (ShortNode k v f)).
Context (Hfull : forall cs f, (forall i c, cs !! i = Some c -> P c) -> P (FullNode cs f)).

Fixpoint node_nested_ind (n : node) : P n :=
  match n with
  | NilNode => Hnil
  | ValueNode v => Hval v
  | HashNode h => Hhash h
  | ShortNode k v f => Hshort k v f (node_nested_ind v)
  | FullNode cs f =>
      Hfull cs f
        ((fix go (l : list node) : forall i c, l !! i = Some c -> P c :=
            match l with
            | [] => fun i c E => match E in _ = o return match o with Some _ => P c | None => True end with eq_refl => I end
            | x :: l => fun i =>
                match i with
                | O => fun c E => match E in _ = o return match o with Some y => P y | None => True end with eq_refl => node_nested_ind x end
                | S i => fun c E => go l i c E
                end
            end) cs)
  end.
End node_ind.

Definition cache (n : node) : option (list Z) * bool :=
  match n with
  | FullNode _ f | ShortNode _ _ f => (hash f, dirty f)
  | _ => (None, true)
  end.

Definition is_nil (n : node) : bool := match n with NilNode => true | _ => false end.
Definition is_inner (n : node) : bool :=
  match n with ShortNode _ _ _ | FullNode _ _ => true | _ => false end.

(** ** go-ethereum's rlp package *)

Inductive rlp_kind := KByte | KString | KList.

Class RLP := {
  rlp_SplitList : list Z -> res string (list Z * list Z);
  rlp_SplitString : list Z -> res string (list Z * list Z);
  rlp_Split : list Z -> res string (rlp_kind * list Z * list Z);
  rlp_CountValues : list Z -> Z;
}.

(** ** Decoding *)

(** [decodeError] wraps an error with the path of contexts it crossed. *)
Inductive decode_err :=
| PlainErr (what : string)
| DecodeError (what : string) (stack : list string)
| DecodePanic.

Definition wrapError {A} (r : res decode_err A) (ctx : string) : res decode_err A :=
  match r with
  | Ok a => Ok a
  | Err (DecodeError what stack) => Err (DecodeError what (stack ++ [ctx]))
  | Err (PlainErr what) => Err (DecodeError what [ctx])
  | Err DecodePanic => Err DecodePanic
  end.

Definition plain {A} (r : res string A) : res decode_err A :=
  match r with Ok a => Ok a | Err e => Err (PlainErr e) end.

Definition hashLen : nat := 32.

Section decode.
Context `{RLP}.

(** One level of the mutual recursion of the decoder, the recursive
    [decodeNode] passed in. *)
Definition decodeRef (decodeNode : option (list Z) -> list Z -> res decode_err node)
  (buf : list Z) : res decode_err (node * list Z) :=
  '(kind, val, rest) ← plain (rlp_Split buf);
  match kind with
  | KList =>
      if (hashLen <? length buf - length rest)%nat then
        Err (PlainErr "oversized embedded node")
      else n ← decodeNode None buf; Ok (n, rest)
  | KString =>
      if (length val =? 0)%nat then Ok (NilNode, rest)
      else if (length val =? 32)%nat then Ok (HashNode val, rest)
      else Err (PlainErr "invalid RLP string size")
  | KByte => Err (PlainErr "invalid RLP string size")
  end.

Definition decodeShort (decodeNode : option (list Z) -> list Z -> res decode_err node)
  (h : option (list Z)) (elems : list Z) : res decode_err node :=
  '(kbuf, rest) ← plain (rlp_SplitString elems);
  let flag := mkFlag h false in
  match compactToHex kbuf with
  | Panic => Err DecodePanic
  | Ret key =>
      if hasTerm key then
        match rlp_SplitString rest with
        | Err e => Err (PlainErr ("invalid value node: " +:+ e))
        | Ok (val, _) => Ok (ShortNode key (ValueNode val) flag)
        end
      else
        '(r, _) ← wrapError (decodeRef decodeNode rest) "val";
        Ok (ShortNode key r flag)
  end.

(** The loop [for i := 0; i < 16; i++] of [decodeFull]. *)
Fixpoint decodeFull_loop (decodeNode : option (list Z) -> list Z -> res decode_err node)
  (n i : nat) (elems : list Z) : res decode_err (list node * list Z) :=
  match n with
  | O => Ok ([], elems)
  | S n =>
      '(cld, rest) ← wrapError (decodeRef decodeNode elems) ("[" +:+ pretty i +:+ "]");
      '(clds, rest) ← decodeFull_loop decodeNode n (S i) rest;
      Ok (cld :: clds, rest)
  end.

Definition decodeFull (decodeNode : option (list Z) -> list Z -> res decode_err node)
  (h : option (list Z)) (elems : list Z) : res decode_err node :=
  '(clds, elems) ← decodeFull_loop decodeNode 16 0 elems;
  '(val, _) ← plain (rlp_SplitString elems);
  Ok (FullNode (clds ++ [if (0 <? length val)%nat then ValueNode val else NilNode])
        (mkFlag h false)).

(** [decodeNode] copies the buffer and calls [decodeNodeUnsafe]; on immutable
    values the two coincide.  The fuel bounds the nesting of embedded nodes. *)
Fixpoint decodeNodeUnsafe (fuel : nat) (h : option (list Z)) (buf : list Z)
  : res decode_err node :=
  match fuel with
  | O => Err DecodePanic
  | S fuel =>
      if (length buf =? 0)%nat then Err (PlainErr "unexpected EOF")
      else
        match rlp_SplitList buf with
        | Err e => Err (PlainErr ("decode error: " +:+ e))
        | Ok (elems, _) =>
            let c := rlp_CountValues elems in
            if c =? 2 then wrapError (decodeShort (decodeNodeUnsafe fuel) h elems) "short"
            else if c =? 17 then wrapError (decodeFull (decodeNodeUnsafe fuel) h elems) "full"
            else Err (PlainErr "invalid number of list elements")
        end
  end.

Definition decodeNode (h : option (list Z)) (buf : list Z) : res decode_err node :=
  decodeNodeUnsafe (S (length buf)) h buf.

Definition mustDecodeNode (h : list Z) (buf : list Z) : outcome node :=
  match decodeNode (Some h) buf with Ok n => Ret n | Err _ => Panic end.

(** The decoder yields a short or a full node, never a bare hash, value or nil,
    and the full nodes it yields have seventeen children. *)
Lemma decodeNodeUnsafe_inner fuel h buf n :
  decodeNodeUnsafe fuel h buf = Ok n -> is_inner n = true.
Proof.
  destruct fuel as [|fuel]; [done|]. simpl. case_match; [done|].
  case_match eqn:E; [|done]. destruct a as [elems rest].
  case_match; [|case_match; [|done]]; unfold wrapError; intros Hn; case_match eqn:Ed; try done.
  - simplify_eq. unfold decodeShort in Ed. apply res_bind_Ok in Ed as ([kbuf r] & _ & Ed).
    case_match; [|done]. case_match.
    + repeat case_match; by simplify_eq.
    + apply res_bind_Ok in Ed as ([? ?] & _ & Ed). by simplify_eq.
  - by case_match.
  - simplify_eq. unfold decodeFull in Ed. apply res_bind_Ok in Ed as ([clds r] & _ & Ed).
    apply res_bind_Ok in Ed as ([? ?] & _ & Ed). by simplify_eq.
  - by case_match.
Qed.
End decode.

(** ** Tracer *)

Record tracer := mkTracer {
  inserts : gset (list Z);
  deletes : gset (list Z);
  accessList : gmap (list Z) (list Z);
}.

Definition newTracer : tracer := mkTracer ∅ ∅ ∅.

Definition onRead (t : tracer) (path val : list Z) : tracer :=
  mkTracer (inserts t) (deletes t) (<[path := val]> (accessList t)).

Definition onInsert (t : tracer) (path : list Z) : tracer :=
  if decide (path ∈ deletes t) then mkTracer (inserts t) (deletes t ∖ {[path]}) (accessList t)
  else mkTracer ({[path]} ∪ inserts t) (deletes t) (accessList t).

Definition onDelete (t : tracer) (path : list Z) : tracer :=
  if decide (path ∈ inserts t) then mkTracer (inserts t ∖ {[path]}) (deletes t) (accessList t)
  else mkTracer (inserts t) ({[path]} ∪ deletes t) (accessList t).

Definition tracer_reset (t : tracer) : tracer := mkTracer ∅ ∅ ∅.

Definition tracer_copy (t : tracer) : tracer :=
  mkTracer (inserts t) (deletes t) (accessList t).

(** ** Reader *)

Record MissingNodeError := mkMissing {
  Owner : list Z;
  NodeHash : list Z;
  Path : list Z;
  underlying : option string;
}.

(** The [Reader] interface of the trie store: a blob of length zero means the
    node is not there. *)
Record Reader := mkReader {
  NodeBlob : list Z -> list Z -> list Z -> res string (list Z);
}.

Record trieReader := mkTrieReader {
  tr_owner : list Z;
  tr_reader : option Reader;
  banned : option (gset (list Z));
}.

Definition newEmptyReader : trieReader := mkTrieReader (replicate 32 0) None None.

Definition is_banned (r : trieReader) (path : list Z) : bool :=
  match banned r with Some b => bool_decide (path ∈ b) | None => false end.

Definition nodeBlob (r : trieReader) (path h : list Z) : res MissingNodeError (list Z) :=
  if is_banned r path then Err (mkMissing (tr_owner r) h path None)
  else
    match tr_reader r with
    | None => Err (mkMissing (tr_owner r) h path None)
    | Some rd =>
        match NodeBlob rd (tr_owner r) path h with
        | Err e => Err (mkMissing (tr_owner r) h path (Some e))
        | Ok blob =>
            if (length blob =? 0)%nat then Err (mkMissing (tr_owner r) h path None) else Ok blob
        end
    end.

(** A resurrected or cancelled path leaves no trace: inserting what was deleted
    and deleting what was inserted are inverse on the tracked sets. *)
Definition tracer_ok (t : tracer) : Prop := inserts t ## deletes t.

Lemma onInsert_ok t p : tracer_ok t -> tracer_ok (onInsert t p).
Proof. unfold tracer_ok, onInsert. case_decide; simpl; set_solver. Qed.

Lemma onDelete_ok t p : tracer_ok t -> tracer_ok (onDelete t p).
Proof. unfold tracer_ok, onDelete. case_decide; simpl; set_solver. Qed.

Lemma onRead_ok t p v : tracer_ok t -> tracer_ok (onRead t p v).
Proof. done. Qed.
#[export] Hint Resolve onInsert_ok onDelete_ok onRead_ok : go.
