(* ===== verification/Trie.v ===== *)
(** * The trie ([trie/trie.go])

    [get], [insert], [delete] and the public operations over them, with lazy
    loading of hash nodes from the reader, the tracer threaded as state,
    [MissingNodeError] as a returned error and [panic] as an outcome.  The
    recursion of the code descends through loaded nodes, so the functions take
    fuel; [fuel_for] is what the public operations pass, and the theorems show
    that it always suffices. *)

From stdpp Require Import base gmap strings list.
From Stdlib Require Import ZArith Lia.
From S2P Require Import Prelude Encoding TrieSpec Node.

Local Open Scope Z_scope.

(** ** The trie monad: tracer state, returned errors, panics *)

Definition TM (A : Type) : Type := tracer -> outcome (res MissingNodeError A * tracer).

#[export] Instance TM_ret : MRet TM := fun A a tr => Ret (Ok a, tr).
#[export] Instance TM_bind : MBind TM := fun A B f m tr =>
  match m tr with
  | Ret (Ok a, tr') => f a tr'
  | Ret (Err e, tr') => Ret (Err e, tr')
  | Panic => Panic
  end.

Definition tm_panic {A} : TM A := fun _ => Panic.
Definition tm_trace (f : tracer -> tracer) : TM unit := fun tr => Ret (Ok (), f tr).
Definition tm_of {A} (o : option A) : TM A :=
  match o with Some a => mret a | None => tm_panic end.

(** go-ethereum's [common.BytesToHash] and [types.EmptyRootHash]. *)
Class EthCommon := {
  BytesToHash : list Z -> list Z;
  EmptyRootHash : list Z;
}.

Definition newFlag : nodeFlag := mkFlag None true.

Definition empty_full : list node := replicate 17 NilNode.

Section trie.
Context `{RLP} `{EthCommon}.
Context (rd : trieReader).

(** ** Loading nodes *)

Definition resolveAndTrack (n : list Z) (prefix : list Z) : TM node := fun tr =>
  match nodeBlob rd prefix (BytesToHash n) with
  | Err e => Ret (Err e, tr)
  | Ok blob =>
      match mustDecodeNode n blob with
      | Ret m => Ret (Ok m, onRead tr prefix blob)
      | Panic => Panic
      end
  end.

Definition resolve (n : node) (prefix : list Z) : TM node :=
  match n with
  | HashNode h => resolveAndTrack h prefix
  | _ => mret n
  end.

(** ** Lookup *)

Fixpoint get (fuel : nat) (origNode : node) (key : list Z) (pos : nat)
  : TM (option (list Z) * node * bool) :=
  match fuel with
  | O => tm_panic
  | S fuel =>
      match origNode with
      | NilNode => mret (None, NilNode, false)
      | ValueNode v => mret (Some v, origNode, false)
      | ShortNode k val f =>
          if (Z.of_nat (length key) - Z.of_nat pos <? Z.of_nat (length k))
             || negb (bool_decide (k = take (length k) (drop pos key)))
          then mret (None, origNode, false)
          else
            '(value, newnode, didResolve) ← get fuel val key (pos + length k);
            mret (value, if (didResolve : bool) then ShortNode k newnode f else origNode, didResolve)
      | FullNode cs f =>
          x ← tm_of (key !! pos);
          child ← tm_of (cs !! Z.to_nat x);
          '(value, newnode, didResolve) ← get fuel child key (pos + 1);
          mret (value,
                if (didResolve : bool) then FullNode (<[Z.to_nat x := newnode]> cs) f else origNode,
                didResolve)
      | HashNode h =>
          child ← resolveAndTrack h (take pos key);
          '(value, newnode, _) ← get fuel child key pos;
          mret (value, newnode, true)
      end
  end.

(** ** Insertion *)

Fixpoint insert (fuel : nat) (n : node) (prefix key : list Z) (value : node)
  : TM (bool * node) :=
  match fuel with
  | O => tm_panic
  | S fuel =>
      match key with
      | [] =>
          match n with
          | ValueNode v =>
              match value with
              | ValueNode w => mret (bool_decide (v <> w), value)
              | _ => tm_panic
              end
          | _ => mret (true, value)
          end
      | key0 :: key_tl =>
          match n with
          | ShortNode k val f =>
              let matchlen := prefixLen key k in
              if (matchlen =? length k)%nat then
                '(d, nn) ← insert fuel val (prefix ++ take matchlen key) (drop matchlen key) value;
                if (d : bool) then mret (true, ShortNode k nn newFlag) else mret (false, n)
              else
                kx ← tm_of (k !! matchlen);
                '(_, c1) ← insert fuel NilNode (prefix ++ take (matchlen + 1) k)
                             (drop (matchlen + 1) k) val;
                ky ← tm_of (key !! matchlen);
                '(_, c2) ← insert fuel NilNode (prefix ++ take (matchlen + 1) key)
                             (drop (matchlen + 1) key) value;
                let branch := FullNode (<[Z.to_nat ky := c2]> (<[Z.to_nat kx := c1]> empty_full)) newFlag in
                if (matchlen =? 0)%nat then mret (true, branch)
                else
                  _ ← tm_trace (fun tr => onInsert tr (prefix ++ take matchlen key));
                  mret (true, ShortNode (take matchlen key) branch newFlag)
          | FullNode cs f =>
              child ← tm_of (cs !! Z.to_nat key0);
              '(d, nn) ← insert fuel child (prefix ++ [key0]) key_tl value;
              if (d : bool) then mret (true, FullNode (<[Z.to_nat key0 := nn]> cs) newFlag)
              else mret (false, n)
          | NilNode =>
              _ ← tm_trace (fun tr => onInsert tr prefix);
              mret (true, ShortNode key value newFlag)
          | HashNode h =>
              rn ← resolveAndTrack h prefix;
              '(d, nn) ← insert fuel rn prefix key value;
              if (d : bool) then mret (true, nn) else mret (false, rn)
          | ValueNode _ => tm_panic
          end
      end
  end.

(** ** Deletion *)

Fixpoint delete (fuel : nat) (n : node) (prefix key : list Z) : TM (bool * node) :=
  match fuel with
  | O => tm_panic
  | S fuel =>
      match n with
      | ShortNode k val f =>
          let matchlen := prefixLen key k in
          if (matchlen <? length k)%nat then mret (false, n)
          else if (matchlen =? length key)%nat then
            _ ← tm_trace (fun tr => onDelete tr prefix);
            mret (true, NilNode)
          else
            '(d, child) ← delete fuel val (prefix ++ take (length k) key) (drop (length k) key);
            if (d : bool) then
              match child with
              | ShortNode k' val' _ =>
                  _ ← tm_trace (fun tr => onDelete tr (prefix ++ k));
                  mret (true, ShortNode (k ++ k') val' newFlag)
              | _ => mret (true, ShortNode k child newFlag)
              end
            else mret (false, n)
      | FullNode cs f =>
          match key with
          | [] => tm_panic
          | key0 :: key_tl =>
              child ← tm_of (cs !! Z.to_nat key0);
              '(d, nn) ← delete fuel child (prefix ++ [key0]) key_tl;
              if (d : bool) then
                let cs' := <[Z.to_nat key0 := nn]> cs in
                if negb (is_nil nn) then mret (true, FullNode cs' newFlag)
                else
                  let pos := only_index (fun c => negb (is_nil c)) 0 (-1) cs' in
                  if 0 <=? pos then
                    last ← tm_of (cs' !! Z.to_nat pos);
                    if negb (pos =? 16) then
                      cnode ← resolve last (prefix ++ [pos]);
                      match cnode with
                      | ShortNode k' val' _ =>
                          _ ← tm_trace (fun tr => onDelete tr (prefix ++ [pos]));
                          mret (true, ShortNode (pos :: k') val' newFlag)
                      | _ => mret (true, ShortNode [pos] last newFlag)
                      end
                    else mret (true, ShortNode [pos] last newFlag)
                  else mret (true, FullNode cs' newFlag)
              else mret (false, n)
          end
      | ValueNode _ => mret (true, NilNode)
      | NilNode => mret (false, NilNode)
      | HashNode h =>
          rn ← resolveAndTrack h prefix;
          '(d, nn) ← delete fuel rn prefix key;
          if (d : bool) then mret (true, nn) else mret (false, rn)
      end
  end.
End trie.

(** ** Public operations *)

Record Trie := mkTrie {
  root : node;
  owner : list Z;
  unhashed : Z;
  reader : trieReader;
  trace : tracer;
}.

(** Two calls per symbol of the key (a hash node and the node it loads) and the
    two at the end of the path. *)
Definition fuel_for (key : list Z) : nat := 2 * length key + 3.

Section ops.
Context `{RLP} `{EthCommon}.

Definition Get (t : Trie) (key : list Z)
  : outcome (res MissingNodeError (option (list Z)) * Trie) :=
  let k := keybytesToHex key in
  match get (reader t) (fuel_for k) (root t) k 0 (trace t) with
  | Panic => Panic
  | Ret (Err e, tr) => Ret (Err e, mkTrie (root t) (owner t) (unhashed t) (reader t) tr)
  | Ret (Ok (value, newroot, didResolve), tr) =>
      Ret (Ok value,
           mkTrie (if (didResolve : bool) then newroot else root t)
             (owner t) (unhashed t) (reader t) tr)
  end.

(** What [update] and [Delete] do with the node their recursion returns. *)
Definition set_root (t : Trie) (r : outcome (res MissingNodeError (bool * node) * tracer))
  : outcome (res MissingNodeError unit * Trie) :=
  match r with
  | Panic => Panic
  | Ret (Err e, tr) => Ret (Err e, mkTrie (root t) (owner t) (unhashed t + 1) (reader t) tr)
  | Ret (Ok (_, n), tr) => Ret (Ok (), mkTrie n (owner t) (unhashed t + 1) (reader t) tr)
  end.

Definition Delete (t : Trie) (key : list Z) : outcome (res MissingNodeError unit * Trie) :=
  let k := keybytesToHex key in
  set_root t (delete (reader t) (fuel_for k) (root t) [] k (trace t)).

Definition update (t : Trie) (key value : list Z) : outcome (res MissingNodeError unit * Trie) :=
  let k := keybytesToHex key in
  if negb (length value =? 0)%nat then
    set_root t (insert (reader t) (fuel_for k) (root t) [] k (ValueNode value) (trace t))
  else
    set_root t (delete (reader t) (fuel_for k) (root t) [] k (trace t)).

Definition Update (t : Trie) (key value : list Z) : outcome (res MissingNodeError unit * Trie) :=
  update t key value.

Definition Copy (t : Trie) : Trie :=
  mkTrie (root t) (owner t) (unhashed t) (reader t) (tracer_copy (trace t)).

Definition Reset (t : Trie) : Trie :=
  mkTrie NilNode (replicate 32 0) 0 (reader t) (tracer_reset (trace t)).

(** The identifier of a standard trie and the creation of a trie on a reader:
    [GetReader] returning nil is the state not being available. *)
Record ID := mkID { StateRoot : list Z; ID_Owner : list Z; ID_Root : list Z }.
Definition TrieID (rt : list Z) : ID := mkID rt (replicate 32 0) rt.

Inductive new_err := StateNotFound | RootMissing (e : MissingNodeError).

Definition New (id : ID) (GetReader : list Z -> option Reader) : outcome (res new_err Trie) :=
  match GetReader (StateRoot id) with
  | None => Ret (Err StateNotFound)
  | Some r =>
      let rdr := mkTrieReader (ID_Owner id) (Some r) None in
      if bool_decide (ID_Root id <> replicate 32 0) && bool_decide (ID_Root id <> EmptyRootHash) then
        match resolveAndTrack rdr (ID_Root id) [] newTracer with
        | Panic => Panic
        | Ret (Err e, _) => Ret (Err (RootMissing e))
        | Ret (Ok rootnode, tr) => Ret (Ok (mkTrie rootnode (ID_Owner id) 0 rdr tr))
        end
      else Ret (Ok (mkTrie NilNode (ID_Owner id) 0 rdr newTracer))
  end.
End ops.

(** ** Refinement of the pure trie *)

(** What the cached hash and the dirty bit of a node at a path promise about the
    subtrie below it ([flag_ok]), and which nodes may go without a cached hash
    below one that has it ([embeds]).  Nodes an operation makes carry [newFlag],
    which promises nothing. *)
Class FlagSpec := {
  flag_ok : list Z -> nodeFlag -> ptrie -> Prop;
  flag_ok_new : forall p t, flag_ok p newFlag t;
  embeds : list Z -> ptrie -> Prop;
}.
#[export] Hint Resolve flag_ok_new : core.

Section refinement.
Context `{RLP} `{EthCommon} `{FlagSpec}.
Context (rd : trieReader).

(** What the reader holds under a path and a hash. *)
Definition load (p h : list Z) : option node :=
  match nodeBlob rd p (BytesToHash h) with
  | Ok blob => match mustDecodeNode h blob with Ret n => Some n | Panic => None end
  | Err _ => None
  end.

Lemma resolveAndTrack_load p h n tr :
  load p h = Some n -> exists tr', resolveAndTrack rd h p tr = Ret (Ok n, tr').
Proof.
  unfold load, resolveAndTrack. destruct (nodeBlob rd p (BytesToHash h)); [|done].
  destruct (mustDecodeNode h a); [|done]. intros [= ->]. by eexists.
Qed.

Lemma load_inner p h n : load p h = Some n -> is_inner n = true.
Proof.
  unfold load, mustDecodeNode, decodeNode. intros Hl. repeat case_match; simplify_eq.
  by eapply decodeNodeUnsafe_inner.
Qed.

(** Every inner node in memory below [n] has its hash cached, or is embedded in
    its parent. *)
Inductive settled : list Z -> node -> ptrie -> Prop :=
| st_nil p : settled p NilNode PNil
| st_val p v : settled p (ValueNode v) (PVal v)
| st_short p k c f t :
    (hash f = None -> embeds p (PShort k t)) ->
    settled (p ++ k) c t -> settled p (ShortNode k c f) (PShort k t)
| st_full p cs f ts :
    (hash f = None -> embeds p (PFull ts)) ->
    length cs = length ts ->
    (forall i c t, cs !! i = Some c -> ts !! i = Some t -> settled (p ++ [Z.of_nat i]) c t) ->
    settled p (FullNode cs f) (PFull ts)
| st_hash p h t : settled p (HashNode h) t.

(** [expands p n t]: the node [n] found at path [p] stands for the pure trie
    [t], every hash node below it being loadable; below a cached hash everything
    is settled. *)
Inductive expands : list Z -> node -> ptrie -> Prop :=
| ex_nil p : expands p NilNode PNil
| ex_val p v : expands p (ValueNode v) (PVal v)
| ex_short p k c f t :
    flag_ok p f (PShort k t) -> (hash f <> None -> settled (p ++ k) c t) ->
    expands (p ++ k) c t -> expands p (ShortNode k c f) (PShort k t)
| ex_full p cs f ts :
    flag_ok p f (PFull ts) ->
    (hash f <> None -> forall i c t, cs !! i = Some c -> ts !! i = Some t ->
       settled (p ++ [Z.of_nat i]) c t) ->
    length cs = length ts ->
    (forall i c t, cs !! i = Some c -> ts !! i = Some t -> expands (p ++ [Z.of_nat i]) c t) ->
    expands p (FullNode cs f) (PFull ts)
| ex_hash p h n t :
    flag_ok p (mkFlag (Some h) false) t -> load p h = Some n -> settled p n t -> expands p n t -> expands p (HashNode h) t.

Lemma expands_nil p n t : expands p n t -> is_nil n = pnil t.
Proof.
  intros He. induction He as [| | | |p h n t Hfl Hl Hst He IH]; try done.
  rewrite <- IH. apply load_inner in Hl. by destruct n.
Qed.

Lemma expands_full_lookup p cs f ts i c :
  expands p (FullNode cs f) (PFull ts) -> cs !! i = Some c ->
  exists t, ts !! i = Some t /\ expands (p ++ [Z.of_nat i]) c t.
Proof.
  intros He Hc. inversion He as [| | |? ? ? ? Hfl Hst Hlen Hch|]; subst.
  destruct (lookup_lt_is_Some_2 ts i) as [t Ht].
  { rewrite <- Hlen. by eapply lookup_lt_Some. }
  exists t. eauto.
Qed.

Lemma expands_full_insert p cs f f' ts i c t :
  expands p (FullNode cs f) (PFull ts) -> (i < length cs)%nat ->
  expands (p ++ [Z.of_nat i]) c t -> flag_ok p f' (PFull (<[i:=t]> ts)) ->
  (hash f' <> None -> hash f <> None /\ settled (p ++ [Z.of_nat i]) c t) ->
  expands p (FullNode (<[i:=c]> cs) f') (PFull (<[i:=t]> ts)).
Proof.
  intros He Hi Hc Hf' Hs'. inversion He as [| | |? ? ? ? Hfl Hst Hlen Hch|]; subst.
  assert (forall (R : nat -> node -> ptrie -> Prop), R i c t ->
    (forall j d e, cs !! j = Some d -> ts !! j = Some e -> R j d e) ->
    forall j d e, <[i:=c]> cs !! j = Some d -> <[i:=t]> ts !! j = Some e -> R j d e) as Hins.
  { intros R Hnew Hold j d e Hd Ht. destruct (decide (j = i)) as [->|Hne].
    - rewrite list_lookup_insert_eq in Hd by done. rewrite list_lookup_insert_eq in Ht by lia.
      by simplify_eq.
    - rewrite list_lookup_insert_ne in Hd by done. rewrite list_lookup_insert_ne in Ht by done. eauto. }
  constructor; [done| |by rewrite !length_insert|].
  - intros Hh. destruct (Hs' Hh) as [Hf Hsc].
    apply (Hins (fun j => settled (p ++ [Z.of_nat j]))); auto.
  - apply (Hins (fun j => expands (p ++ [Z.of_nat j]))); auto.
Qed.

Lemma expands_empty_full p : expands p (FullNode empty_full newFlag) (PFull empty_children).
Proof.
  apply ex_full; [done|done|done|]. intros i c t [-> _]%lookup_replicate [-> _]%lookup_replicate.
  constructor.
Qed.

(** Fuel left when the rest of the key is [rest]. *)
Definition enough (fuel : nat) (n : node) (rest : list Z) : Prop :=
  match n with
  | HashNode _ => 2 * length rest + 3 <= fuel
  | _ => 2 * length rest + 2 <= fuel
  end%nat.

Lemma enough_child fuel n (k l : list Z) :
  (2 * length (k ++ l) + 2 <= S fuel)%nat -> k <> [] -> enough fuel n l.
Proof.
  rewrite length_app. intros. destruct k; [done|]. unfold enough. simpl in *.
  destruct n; lia.
Qed.

Lemma enough_loaded fuel p h n rest :
  load p h = Some n -> enough (S fuel) (HashNode h) rest -> enough fuel n rest.
Proof. intros Hl%load_inner He. destruct n; try done; simpl in *; lia. Qed.

Lemma key_child_idx {loose} (cs : list node) (ts : list ptrie) x key :
  length cs = length ts -> wfl loose (PFull ts) -> hex_key (x :: key) ->
  exists c t, cs !! Z.to_nat x = Some c /\ ts !! Z.to_nat x = Some t /\ Z.of_nat (Z.to_nat x) = x /\
    wfl_at loose (Z.to_nat x =? 16)%nat t /\ key_at (Z.to_nat x =? 16)%nat key /\
    (Z.to_nat x < length cs)%nat.
Proof.
  intros Hlen Hw Hk. destruct (hex_key_child x key Hk) as (Hx & Hx0 & Hkx).
  pose proof (proj1 (wfl_full ts) Hw) as (Hl & _ & Hch).
  destruct (lookup_lt_is_Some_2 cs (Z.to_nat x)) as [c Hc]; [lia|].
  destruct (lookup_lt_is_Some_2 ts (Z.to_nat x)) as [t Ht]; [lia|].
  exists c, t. split; [done|]. split; [done|]. split; [lia|]. split; [by apply Hch|]. split; [done|lia].
Qed.

Lemma wf_short_ne {loose} k t : wfl loose (PShort k t) -> k <> [].
Proof.
  intros Hw ->. destruct (wf_short_inv [] t Hw) as (isl & Hk & _).
  destruct isl; [by apply hex_key_nil in Hk|naive_solver].
Qed.

(** Case split of a key at a short node, with the facts every proof needs. *)
Lemma short_key_cases {loose} key k t :
  wfl loose (PShort k t) -> hex_key key ->
  (exists l isl, key = k ++ l /\ key_at isl l /\ wfl_at loose isl t) \/
  (forall l, key <> k ++ l) /\ (prefixLen key k < length k)%nat /\
    exists p x y key' k', key = p ++ x :: key' /\ k = p ++ y :: k' /\ length p = prefixLen key k /\
      (0 <= x /\ (Z.to_nat x < 17)%nat) /\ (0 <= y /\ (Z.to_nat y < 17)%nat).
Proof.
  intros Hw Hk. destruct (wf_short_inv k t Hw) as (isl & Hkk & Hcc & Hwc & _).
  assert (if isl then hex_key k else hex_path k) as Hkk' by (destruct isl; naive_solver).
  destruct (key_short_cases key k isl Hk Hkk')
    as [(Em & l & El & Hl)|(p & x & y & key' & k' & Ekey & Ek & Hxy & Hlp & Hlt & _ & Hxk & Hyk)].
  - left. by exists l, isl.
  - right. split; [|split; [done|exists p, x, y, key', k'; do 3 (split; [done|]);
      split; [by apply hex_key_child in Hxk as (? & ? & _)|by apply (wf_short_child (loose:=loose) y k' t isl)]]].
    intros l El. subst key k. rewrite <- app_assoc in El. apply app_inv_head in El.
    injection El as ? ?. congruence.
Qed.

(** *** Lookup *)

Lemma settled_full_insert p cs f ts i c t :
  settled p (FullNode cs f) (PFull ts) -> ts !! i = Some t ->
  settled (p ++ [Z.of_nat i]) c t -> settled p (FullNode (<[i:=c]> cs) f) (PFull ts).
Proof.
  intros Hs Ht Hc. inversion Hs as [| | |? ? ? ? Hf Hlen Hch|]; subst.
  constructor; [done|by rewrite length_insert|]. intros j d e Hd He.
  apply list_lookup_insert_Some in Hd as [(<- & <- & _)|[_ Hd]]; [by simplify_eq|eauto].
Qed.

Lemma get_expands p n t :
  expands p n t -> forall fuel b rest tr,
  wf_at b t -> key_at b rest -> enough fuel n rest ->
  exists n' d tr', get rd fuel n (p ++ rest) (length p) tr = Ret (Ok (pget t rest, n', d), tr') /\
    expands p n' t /\ (d = false -> n' = n) /\ (settled p n t -> settled p n' t).
Proof.
  induction 1 as [p|p v|p k c f t Hfl Hst Hc IH|p cs f ts Hfl Hst Hlen Hch IH|p h n t Hfl Hl Hst He IH];
    intros [|fuel] b rest tr Hw Hk Hf; try (simpl in Hf; lia).
  - exists NilNode, false, tr. repeat split; constructor.
  - exists (ValueNode v), false, tr. repeat split; constructor.
  - destruct b; [by destruct Hw|]. simpl in Hw, Hk.
    cbn [get]. rewrite drop_app_length.
    destruct (short_key_cases rest k t Hw Hk) as [(l & isl & -> & Hl & Hwt)|(Hno & _)].
    + rewrite take_app_length, bool_decide_eq_true_2 by done.
      assert (Z.of_nat (length (p ++ k ++ l)) - Z.of_nat (length p) <? Z.of_nat (length k) = false) as ->.
      { rewrite !length_app. apply Z.ltb_ge. lia. }
      simpl orb. rewrite app_assoc. rewrite <- length_app.
      destruct (IH fuel isl l tr Hwt Hl) as (n' & d & tr' & E & He & Hd & Hset).
      { apply (enough_child fuel c k l); [exact Hf|by eapply wf_short_ne]. }
      unfold mbind, TM_bind. cbn [orb negb]. rewrite E. rewrite (pget_short k t (k ++ l) l) by done.
      exists (if d then ShortNode k n' f else ShortNode k c f), d, tr'.
      split; [done|]. destruct d; (split; [constructor; auto|]); (split; [done|]); [|done].
      intros Hs. inversion Hs; subst. constructor; auto.
    + assert ((Z.of_nat (length (p ++ rest)) - Z.of_nat (length p) <? Z.of_nat (length k))
              || negb (bool_decide (k = take (length k) rest)) = true) as ->.
      { apply orb_true_iff. right. apply negb_true_iff, bool_decide_eq_false. intros E.
        apply (Hno (drop (length k) rest)). rewrite E at 1. by rewrite take_drop. }
      rewrite pget_short_miss by done. exists (ShortNode k c f), false, tr.
      split; [done|]. split; [by constructor|done].
  - destruct b; [done|]. cbn [wfl_at key_at] in Hw, Hk. destruct rest as [|x rest]; [by apply hex_key_nil in Hk|].
    destruct (key_child_idx cs ts x rest Hlen Hw Hk) as (c & t & Hcx & Htx & Hxx & Hwt & Hkt & Hlt).
    cbn [get]. rewrite list_lookup_middle by done. cbn [tm_of]. unfold mbind, TM_bind.
    cbn. rewrite Hcx. cbn.
    destruct (IH _ _ _ Hcx Htx fuel _ rest tr Hwt Hkt) as (n' & d & tr' & E & He & Hd & Hset).
    { apply (enough_child fuel c [x] rest); [exact Hf|done]. }
    pose proof He as He0. rewrite Hxx in E, He. rewrite length_app in E. simpl in E.
    rewrite <- app_assoc in E. simpl in E. rewrite E.
    rewrite nth_with_lookup, Htx.
    exists (if d then FullNode (<[Z.to_nat x:=n']> cs) f else FullNode cs f), d, tr'.
    split; [done|]. assert (expands p (FullNode cs f) (PFull ts)) as Hfull by by constructor.
    destruct d; (split; [|split; [done|]]); try done.
    + rewrite <- (list_insert_id ts (Z.to_nat x) t) by done.
      eapply expands_full_insert; [done|done|by rewrite Hxx|by rewrite list_insert_id|].
      intros Hh. split; [done|]. apply Hset. by apply (Hst Hh).
    + intros Hs. eapply settled_full_insert; [done|done|]. apply Hset.
      inversion Hs as [| | |? ? ? ? _ _ Hch'|]; subst. by apply Hch'.
  - cbn [get]. rewrite take_app_length. unfold mbind, TM_bind.
    destruct (resolveAndTrack_load p h n tr Hl) as [tr1 ->].
    destruct (IH fuel b rest tr1 Hw Hk) as (n' & d & tr' & -> & He' & _ & Hset).
    { by eapply enough_loaded. }
    exists n', true, tr'. split; [done|]. split; [done|]. split; [done|]. auto.
Qed.

(** *** Insertion *)

Definition leafnode (k : list Z) (v : node) : node :=
  match k with [] => v | _ => ShortNode k v newFlag end.

Lemma insert_nil fuel prefix k value tr :
  exists tr', insert rd (S fuel) NilNode prefix k value tr = Ret (Ok (true, leafnode k value), tr').
Proof. destruct k; by eexists. Qed.

Lemma expands_leaf p k c t : expands (p ++ k) c t -> expands p (leafnode k c) (pleaf k t).
Proof. destruct k; simpl; [by rewrite app_nil_r|constructor; done]. Qed.

Lemma expands_branch pq x y key' k' v c t :
  0 <= x -> 0 <= y -> (Z.to_nat x < 17)%nat -> (Z.to_nat y < 17)%nat ->
  expands (pq ++ y :: k') c t ->
  expands pq
    (FullNode (<[Z.to_nat x := leafnode key' (ValueNode v)]>
                 (<[Z.to_nat y := leafnode k' c]> empty_full)) newFlag)
    (PFull (<[Z.to_nat x := pleaf key' (PVal v)]> (<[Z.to_nat y := pleaf k' t]> empty_children))).
Proof.
  intros Hx Hy Hx' Hy' Hc.
  apply (expands_full_insert _ _ newFlag); [|by rewrite length_insert| |done|done].
  - apply (expands_full_insert _ _ newFlag); [apply expands_empty_full|done| |done|done].
    rewrite Z2Nat.id by done. apply expands_leaf. by rewrite <- app_assoc.
  - apply expands_leaf. constructor.
Qed.

Lemma drop_middle (pq : list Z) z r : drop (length pq + 1) (pq ++ z :: r) = r.
Proof.
  replace (length pq + 1)%nat with (length (pq ++ [z])) by (rewrite length_app; done).
  replace (pq ++ z :: r) with ((pq ++ [z]) ++ r) by by rewrite <- app_assoc.
  apply drop_app_length.
Qed.

(** Insertion where the key leaves the key of a short node. *)
Lemma insert_branch_expands fuel p c f t pq x y key' k' v tr :
  (0 <= x /\ (Z.to_nat x < 17)%nat) -> (0 <= y /\ (Z.to_nat y < 17)%nat) ->
  length pq = prefixLen (pq ++ x :: key') (pq ++ y :: k') ->
  expands (p ++ pq ++ y :: k') c t ->
  exists n' tr', insert rd (S (S fuel)) (ShortNode (pq ++ y :: k') c f) p (pq ++ x :: key') (ValueNode v) tr
      = Ret (Ok ((pinsert (PShort (pq ++ y :: k') t) (pq ++ x :: key') (PVal v)).1, n'), tr') /\
    expands p n' (pinsert (PShort (pq ++ y :: k') t) (pq ++ x :: key') (PVal v)).2.
Proof.
  intros [Hx0 Hx] [Hy0 Hy] Hlp Hc. rewrite app_assoc in Hc.
  pose proof (expands_branch (p ++ pq) x y key' k' v c t Hx0 Hy0 Hx Hy Hc) as Hbr.
  assert (exists z r, pq ++ x :: key' = z :: r) as (z & r & Ez) by (destruct pq; eauto).
  remember (S fuel) as fuel1 eqn:Ef1. rewrite Ez. cbn [insert pinsert]. rewrite <- Ez, <- Hlp.
  rewrite (proj2 (Nat.eqb_neq _ _)) by (rewrite length_app; simpl; lia).
  rewrite !list_lookup_middle by done. cbn [tm_of]. unfold mbind, TM_bind. cbn [mret TM_ret].
  rewrite !drop_middle, pbranch_eq, take_app_length. subst fuel1.
  destruct (insert_nil fuel (p ++ take (length pq + 1) (pq ++ y :: k')) k' c tr) as [tr1 ->].
  destruct (insert_nil fuel (p ++ take (length pq + 1) (pq ++ x :: key')) key' (ValueNode v) tr1) as [tr2 ->].
  destruct pq as [|q0 pq]; simpl.
  - rewrite app_nil_r in Hbr. eexists _, _. split; [done|exact Hbr].
  - eexists _, _. split; [done|]. by constructor.
Qed.

Lemma insert_expands {loose} p n t :
  expands p n t -> forall fuel b key v tr,
  wfl_at loose b t -> key_at b key -> v <> [] -> enough fuel n key ->
  exists n' tr', insert rd fuel n p key (ValueNode v) tr
      = Ret (Ok ((pinsert t key (PVal v)).1, n'), tr') /\
    expands p n' (pinsert t key (PVal v)).2.
Proof.
  induction 1 as [p|p w|p k c f t Hfl Hst Hc IH|p cs f ts Hfl Hst Hlen Hch IH|p h n t Hfl Hl Hst He IH];
    intros [|fuel] b key v tr Hw Hk Hv Hf; try (simpl in Hf; lia).
  - destruct key; [by exists (ValueNode v), tr; split; [|constructor]|].
    eexists _, _. split; [done|]. apply ex_short; [done|done|constructor].
  - destruct b; [|done]. simpl in Hk. subst.
    exists (ValueNode v), tr. split; [done|constructor].
  - destruct b; [by destruct Hw|]. cbn [wfl_at key_at] in Hw, Hk.
    destruct (short_key_cases _ k t Hw Hk)
      as [(l & isl & El & Hl & Hwt)|(_ & _ & pq & x & y & key' & k' & -> & -> & Hlp & Hx & Hy)].
    + destruct key as [|k0 key]; [by apply hex_key_nil in Hk|]. cbn [insert pinsert].
      rewrite El. rewrite (proj2 (prefixLen_full (k ++ l) k)) by (by exists l).
      rewrite Nat.eqb_refl, take_app_length, drop_app_length. unfold mbind, TM_bind.
      destruct (IH fuel isl l v tr Hwt Hl Hv) as (n' & tr' & -> & He).
      { apply (enough_child fuel c k l); [by rewrite <- El|by eapply wf_short_ne]. }
      destruct (pinsert t l (PVal v)) as [d t'] eqn:Ei. cbn [fst snd] in *.
      destruct d; eexists _, _; (split; [done|by constructor]).
    + destruct fuel as [|fuel]; [simpl in Hf; lia|]. by apply insert_branch_expands.
  - destruct b; [done|]. cbn [wfl_at key_at] in Hw, Hk. destruct key as [|x key]; [by apply hex_key_nil in Hk|].
    destruct (key_child_idx cs ts x key Hlen Hw Hk) as (c & t & Hcx & Htx & Hxx & Hwt & Hkt & Hlt).
    cbn [insert pinsert]. rewrite Hcx. cbn [tm_of]. unfold mbind, TM_bind. cbn [mret TM_ret].
    destruct (IH _ _ _ Hcx Htx fuel _ key v tr Hwt Hkt Hv) as (n' & tr' & E & He).
    { apply (enough_child fuel c [x] key); [exact Hf|done]. }
    rewrite Hxx in E, He. rewrite E, nth_with_lookup, Htx.
    destruct (pinsert t key (PVal v)) as [d t'] eqn:Ei. cbn [fst snd] in *.
    assert (expands p (FullNode cs f) (PFull ts)) as Hfull by by constructor.
    destruct d; eexists _, _; (split; [done|]); [|done].
    eapply expands_full_insert; [done|done|by rewrite Hxx|done|done].
  - pose proof (load_inner _ _ _ Hl) as Hin. destruct key as [|x key].
    + assert (pinsert t [] (PVal v) = (true, PVal v)) as -> by (inversion He; subst; done).
      exists (ValueNode v), tr. split; [done|constructor].
    + cbn [insert]. unfold mbind, TM_bind.
      destruct (resolveAndTrack_load p h n tr Hl) as [tr1 ->].
      destruct (IH fuel b (x :: key) v tr1 Hw Hk Hv) as (n' & tr' & -> & He').
      { by eapply enough_loaded. }
      destruct (pinsert_spec t b (x :: key) v Hw Hk Hv) as [_ _ Hclean _ _ _].
      destruct (pinsert t (x :: key) (PVal v)) as [d t']. cbn [fst snd] in *.
      destruct d; eexists _, _; (split; [done|]); [done|]. by rewrite Hclean.
Qed.

(** *** Deletion *)

Lemma expands_only_index p cs f ts i pos :
  expands p (FullNode cs f) (PFull ts) ->
  only_index (fun c => negb (is_nil c)) i pos cs = only_index nonnil i pos ts.
Proof.
  intros He. inversion He as [| | |? ? ? ? Hfl Hst Hlen Hch|]; subst. apply only_index_ext; [done|].
  intros j x y Hx Hy. unfold nonnil. by rewrite (expands_nil _ _ _ (Hch j x y Hx Hy)).
Qed.

Definition not_hash (n : node) : Prop := match n with HashNode _ => False | _ => True end.

(** A node behind [resolve] is loaded. *)
Lemma resolve_expands p n t tr :
  expands p n t ->
  exists n' tr', resolve rd n p tr = Ret (Ok n', tr') /\ expands p n' t /\ not_hash n'.
Proof.
  intros He. destruct n as [| | |h|v]; try (by eexists _, tr).
  inversion He as [| | | |? ? m ? Hfl Hl Hst Hm]; subst. simpl.
  destruct (resolveAndTrack_load p h m tr Hl) as [tr' ->]. eexists _, tr'.
  split; [done|]. split; [done|]. apply load_inner in Hl. by destruct m.
Qed.

(** Collapsing a full node with a single child left. *)
Definition reduce_node (cs : list node) (p : list Z) : TM (bool * node) :=
  let pos := only_index (fun c => negb (is_nil c)) 0 (-1) cs in
  if 0 <=? pos then
    last ← tm_of (cs !! Z.to_nat pos);
    if negb (pos =? 16) then
      cnode ← resolve rd last (p ++ [pos]);
      match cnode with
      | ShortNode k' val' _ =>
          _ ← tm_trace (fun tr => onDelete tr (p ++ [pos]));
          mret (true, ShortNode (pos :: k') val' newFlag)
      | _ => mret (true, ShortNode [pos] last newFlag)
      end
    else mret (true, ShortNode [pos] last newFlag)
  else mret (true, FullNode cs newFlag).

Lemma reduce_expands p cs ts tr :
  expands p (FullNode cs newFlag) (PFull ts) ->
  exists n' tr', reduce_node cs p tr = Ret (Ok (true, n'), tr') /\ expands p n' (preduce ts) /\ not_hash n'.
Proof.
  intros He. unfold reduce_node, preduce. rewrite (expands_only_index _ _ _ _ 0 (-1) He).
  set (pos := only_index nonnil 0 (-1) ts). destruct (0 <=? pos) eqn:Hp; [|by eexists _, tr].
  apply Z.leb_le in Hp. inversion He as [| | |? ? ? ? Hfl Hst Hlen Hch|]; subst.
  destruct (cs !! Z.to_nat pos) as [last|] eqn:El.
  2: { exfalso. subst pos. destruct (only_index_spec nonnil ts 0 (-1)) as [_ Hs].
       destruct (Hs eq_refl) as (Hc0 & Hc2 & Hc1). clear Hs.
       destruct (count nonnil ts) as [|[|c]] eqn:Ec; [lia| |lia].
       destruct (Hc1 eq_refl) as (j & x & Hj & _ & Ej & _). rewrite Ej in El.
       apply lookup_ge_None in El. apply lookup_lt_Some in Hj. lia. }
  destruct (expands_full_lookup _ _ _ _ _ _ He El) as (t & -> & Ht).
  rewrite Z2Nat.id in Ht by done. cbn [tm_of]. unfold mbind, TM_bind. cbn [mret TM_ret].
  destruct (pos =? 16) eqn:E16; cbn [negb].
  - eexists _, tr. split; [done|]. split; [|done]. destruct t; by constructor.
  - destruct (resolve_expands _ _ _ tr Ht) as (n' & tr' & -> & Hn' & Hnh).
    inversion Hn' as [| |? ? ? ? ? Hfl' Hst' Hc| |]; subst; try done; eexists _, _; (split; [done|]);
      (split; [|done]); constructor; try done. rewrite <- app_assoc in Hc. exact Hc.
Qed.

Lemma delete_expands p n t :
  expands p n t -> forall fuel b key tr,
  wf_at b t -> key_at b key -> enough fuel n key ->
  exists n' tr', delete rd fuel n p key tr = Ret (Ok ((pdelete t key).1, n'), tr') /\
    expands p n' (pdelete t key).2 /\ ((pdelete t key).1 = true -> not_hash n').
Proof.
  induction 1 as [p|p w|p k c f t Hfl Hst Hc IH|p cs f ts Hfl Hst Hlen Hch IH|p h n t Hfl Hl Hst He IH];
    intros [|fuel] b key tr Hw Hk Hf; try (simpl in Hf; lia).
  - exists NilNode, tr. split; [done|]. split; [constructor|done].
  - exists NilNode, tr. split; [done|]. split; [constructor|done].
  - destruct b; [by destruct Hw|]. cbn [wfl_at key_at] in Hw, Hk. cbn [delete pdelete].
    destruct (short_key_cases _ k t Hw Hk) as [(l & isl & -> & Hl & Hwt)|(_ & Hlt & _)].
    2: { rewrite (proj2 (Nat.ltb_lt _ _)) by done. exists (ShortNode k c f), tr.
         split; [done|]. split; [by constructor|done]. }
    rewrite (proj2 (prefixLen_full (k ++ l) k)) by (by exists l).
    rewrite Nat.ltb_irrefl, take_app_length, drop_app_length.
    destruct (length k =? length (k ++ l))%nat; [eexists _, _; split; [done|by split; [constructor|]]|].
    unfold mbind, TM_bind.
    destruct (IH fuel isl l tr Hwt Hl) as (n' & tr' & -> & He & Hnh).
    { apply (enough_child fuel c k l); [done|by eapply wf_short_ne]. }
    destruct (pdelete t l) as [d t'] eqn:Ed. cbn [fst snd] in *.
    destruct d; [|eexists _, _; split; [done|split; [by constructor|done]]].
    specialize (Hnh eq_refl).
    inversion He as [| |? k' c' f' t'' Hfl' Hst' Hc'| |]; subst; try done; eexists _, _;
      (split; [done|]); (split; [constructor; try done|done]).
    by rewrite app_assoc.
  - destruct b; [done|]. cbn [wfl_at key_at] in Hw, Hk. destruct key as [|x key]; [by apply hex_key_nil in Hk|].
    destruct (key_child_idx cs ts x key Hlen Hw Hk) as (c & t & Hcx & Htx & Hxx & Hwt & Hkt & Hlt).
    cbn [delete pdelete]. rewrite Hcx. cbn [tm_of]. unfold mbind at 1 2, TM_bind at 1 2.
    cbn [mret TM_ret].
    destruct (IH _ _ _ Hcx Htx fuel _ key tr Hwt Hkt) as (n' & tr' & E & He & _).
    { apply (enough_child fuel c [x] key); [exact Hf|done]. }
    rewrite Hxx in E, He. rewrite E, nth_with_lookup, Htx. clear E.
    assert (expands p (FullNode cs f) (PFull ts)) as Hfull by by constructor.
    destruct (pdelete t key) as [d t'] eqn:Ed. cbn [fst snd] in *.
    destruct d; [|eexists _, _; split; [done|by split]].
    assert (expands p (FullNode (<[Z.to_nat x:=n']> cs) newFlag) (PFull (<[Z.to_nat x:=t']> ts))) as Hf'.
    { eapply expands_full_insert; [done|done|by rewrite Hxx|done|done]. }
    rewrite (expands_nil _ _ _ He). destruct (pnil t'); cbn [negb fst snd];
      [|eexists _, _; split; [done|by split]].
    destruct (reduce_expands p _ _ tr' Hf') as (n'' & tr'' & E & He'' & Hnh).
    exists n'', tr''. split; [exact E|by split].
  - cbn [delete]. unfold mbind, TM_bind.
    destruct (resolveAndTrack_load p h n tr Hl) as [tr1 ->].
    destruct (IH fuel b key tr1 Hw Hk) as (n' & tr' & -> & He' & Hnh).
    { by eapply enough_loaded. }
    destruct (pdelete_spec t b key Hw Hk) as [_ Hclean _ _ _].
    destruct (pdelete t key) as [d t']. cbn [fst snd] in *.
    destruct d; eexists _, _; (split; [done|]); [by split|]. split; [|done]. by rewrite Hclean.
Qed.
End refinement.

(** ** Weakening what the flags promise *)

Section flag_mono.
Context `{RLP} `{EthCommon} (F1 F2 : FlagSpec) (rd : trieReader) (Q : list Z -> Prop).
Context (HQ : forall p q, Q p -> Q (p ++ q)).
Context (Hok : forall p f t, Q p -> @flag_ok F1 p f t -> @flag_ok F2 p f t).
Context (Hemb : forall p t, @embeds F1 p t -> @embeds F2 p t).

Lemma settled_mono p n t : @settled F1 p n t -> @settled F2 p n t.
Proof. induction 1; constructor; auto. Qed.

Lemma expands_mono p n t : Q p -> @expands _ _ F1 rd p n t -> @expands _ _ F2 rd p n t.
Proof.
  intros Hq He. revert Hq.
  induction He as [p|p v|p k c f t Hf Hs Hc IH|p cs f ts Hf Hs Hlen Hch IH|p h n t Hf Hl Hs He IH]; intros Hq.
  - constructor.
  - constructor.
  - apply ex_short; [by apply Hok|intros Hh; by apply settled_mono, Hs|by apply IH, HQ].
  - apply ex_full; [by apply Hok| |done|].
    + intros Hh i c t Hc Ht. by eapply settled_mono, Hs.
    + intros i c t Hc Ht. by apply IH, HQ.
  - eapply ex_hash; [by apply Hok|done|by apply settled_mono|by apply IH].
Qed.
End flag_mono.
