(* ===== verification/TrieMap.v ===== *)
(** * The trie as a map ([trie/trie.go])

    What the public operations of the trie promise: [trie_rep t m] relates a
    trie, partly in memory and partly behind its reader, to the finite map from
    byte strings to values it stores, and every operation is proved to
    implement the map operation, without error or panic, within the fuel it is
    given.  The errors that remain, on a trie whose reader misses a node, are
    located. *)

From stdpp Require Import base gmap strings list.
From Stdlib Require Import ZArith Lia.
From S2P Require Import Prelude Encoding TrieSpec Node Trie.

Local Open Scope Z_scope.

(** ** Representation *)

Definition bytes (k : list Z) : Prop := Forall is_byte k.

(** A canonical pure trie [pt] holding exactly the map [m]. *)
Record pt_holds (pt : ptrie) (m : gmap (list Z) (list Z)) : Prop := {
  holds_wf : wf pt;
  holds_dom : forall k v, m !! k = Some v -> bytes k /\ v <> [];
  holds_get : forall k, bytes k -> pget pt (keybytesToHex k) = m !! k;
  holds_keys : forall q v, hex_key q -> pget pt q = Some v ->
    exists k, bytes k /\ q = keybytesToHex k;
}.

Lemma pt_holds_empty : pt_holds PNil ∅.
Proof. split; try done. Qed.

Lemma hex_eq_iff k k' : bytes k -> bytes k' -> keybytesToHex k = keybytesToHex k' <-> k = k'.
Proof. intros. split; [by apply keybytesToHex_inj|by intros ->]. Qed.

Lemma pt_holds_insert pt m k v :
  pt_holds pt m -> bytes k -> v <> [] ->
  pt_holds (pinsert pt (keybytesToHex k) (PVal v)).2 (<[k := v]> m).
Proof.
  intros [Hw Hd Hg Hk] Hb Hv.
  destruct (pinsert_spec pt false (keybytesToHex k) v Hw (keybytesToHex_key k Hb) Hv)
    as [Hw' _ _ _ _ Hget]. split; [done|..].
  - intros k' v' [[<- <-]|[_ E]]%lookup_insert_Some; [done|by apply (Hd k')].
  - intros k' Hb'. rewrite Hget by (by apply keybytesToHex_key). case_decide as E.
    + apply hex_eq_iff in E as ->; [|done..]. by rewrite lookup_insert_eq.
    + rewrite Hg, lookup_insert_ne; congruence.
  - intros q v' Hq. rewrite Hget by done. case_decide as E; [|by apply Hk].
    intros _. by exists k.
Qed.

Lemma pt_holds_delete pt m k :
  pt_holds pt m -> bytes k ->
  pt_holds (pdelete pt (keybytesToHex k)).2 (base.delete k m).
Proof.
  intros [Hw Hd Hg Hk] Hb.
  destruct (pdelete_spec pt false (keybytesToHex k) Hw (keybytesToHex_key k Hb))
    as [Hw' _ _ _ Hget]. split; [done|..].
  - intros k' v' [_ E]%lookup_delete_Some. by apply (Hd k').
  - intros k' Hb'. rewrite Hget by (by apply keybytesToHex_key). case_decide as E.
    + apply hex_eq_iff in E as ->; [|done..]. by rewrite lookup_delete_eq.
    + rewrite Hg, lookup_delete_ne; congruence.
  - intros q v' Hq. rewrite Hget by done. case_decide as E; [done|by apply Hk].
Qed.

(** The pure trie is determined by the map. *)
Lemma pt_holds_unique pt1 pt2 m : pt_holds pt1 m -> pt_holds pt2 m -> pt1 = pt2.
Proof.
  intros [Hw1 _ Hg1 Hk1] [Hw2 _ Hg2 Hk2]. apply (canonical_unique pt1 false pt2); [done..|].
  intros q Hq. destruct (pget pt1 q) as [v|] eqn:E1.
  - destruct (Hk1 q v Hq E1) as (k & Hb & ->). rewrite <- E1, Hg1, Hg2; done.
  - destruct (pget pt2 q) as [v|] eqn:E2; [|done].
    destruct (Hk2 q v Hq E2) as (k & Hb & ->). rewrite <- E1, <- E2, Hg1, Hg2; done.
Qed.

Section rep.
Context `{RLP} `{EthCommon} `{FlagSpec}.

Definition trie_rep (t : Trie) (m : gmap (list Z) (list Z)) : Prop :=
  exists pt, expands (reader t) [] (root t) pt /\ pt_holds pt m.

Lemma enough_fuel_for n k : enough (fuel_for k) n k.
Proof. unfold enough, fuel_for. destruct n; lia. Qed.

Lemma delete_rep t m k :
  trie_rep t m -> bytes k ->
  exists t', set_root t (Trie.delete (reader t) (fuel_for (keybytesToHex k)) (root t) []
               (keybytesToHex k) (trace t)) = Ret (Ok (), t') /\
    trie_rep t' (base.delete k m) /\ reader t' = reader t /\ owner t' = owner t.
Proof.
  intros (pt & He & Hh) Hb.
  destruct (delete_expands (reader t) [] (root t) pt He (fuel_for (keybytesToHex k)) false
              (keybytesToHex k) (trace t)) as (n' & tr' & E & He' & _);
    [apply Hh|by apply keybytesToHex_key|apply enough_fuel_for|].
  rewrite E. eexists. split; [done|]. split; [|done].
  exists (pdelete pt (keybytesToHex k)).2. split; [done|by apply pt_holds_delete].
Qed.
End rep.

(** The map a value update leaves: an empty value deletes the key. *)
Definition map_update (m : gmap (list Z) (list Z)) (k v : list Z) : gmap (list Z) (list Z) :=
  match v with [] => base.delete k m | _ => <[k := v]> m end.

(** ** A concrete trie *)

(** A reader's environment with no stored node, and a trie with one binding. *)
Module Sample.
Definition rlp : RLP := {|
  rlp_SplitList := fun _ => Err "rlp";
  rlp_SplitString := fun _ => Err "rlp";
  rlp_Split := fun _ => Err "rlp";
  rlp_CountValues := fun _ => 0;
|}.
Definition eth : EthCommon := {| BytesToHash := fun h => h; EmptyRootHash := 1 :: 128 :: replicate 30 0 |}.
Definition no_flags : FlagSpec :=
  {| flag_ok := fun _ _ _ => True; flag_ok_new := fun _ _ => I; embeds := fun _ _ => True |}.

Definition key : list Z := [18].
Definition val : list Z := [7].
Definition tree : Trie :=
  mkTrie (ShortNode (keybytesToHex key) (ValueNode val) newFlag) [] 0 newEmptyReader newTracer.
Definition stored : gmap (list Z) (list Z) := {[ key := val ]}.

Lemma key_bytes : bytes key.
Proof. repeat constructor; unfold is_byte; lia. Qed.

Lemma tree_rep (F : FlagSpec) : @trie_rep rlp eth F tree stored.
Proof.
  exists (PShort (keybytesToHex key) (PVal val)). split.
  - apply ex_short; [apply flag_ok_new|done|constructor].
  - apply (pt_holds_insert PNil ∅ key val); [apply pt_holds_empty|apply key_bytes|done].
Qed.
End Sample.

(** ** The operations implement the map *)

Section operations.
Context `{RLP} `{EthCommon} `{FlagSpec}.

Lemma trie_Get_spec (t : Trie) (m : gmap (list Z) (list Z)) (k : list Z) :
  trie_rep t m -> bytes k ->
  exists t', Get t k = Ret (Ok (m !! k), t') /\ trie_rep t' m /\ owner t' = owner t.
Proof.
  intros (pt & He & Hh) Hb. unfold Get.
  destruct (get_expands (reader t) [] (root t) pt He (fuel_for (keybytesToHex k)) false
              (keybytesToHex k) (trace t)) as (n' & d & tr' & E & He' & Hd & _);
    [apply Hh|by apply keybytesToHex_key|apply enough_fuel_for|].
  simpl in E. rewrite E, (holds_get pt m Hh k Hb). eexists. split; [done|]. split; [|done].
  exists pt. split; [|done]. simpl. by destruct d.
Qed.

Lemma trie_Update_spec (t : Trie) (m : gmap (list Z) (list Z)) (k v : list Z) :
  trie_rep t m -> bytes k ->
  exists t', Update t k v = Ret (Ok (), t') /\ trie_rep t' (map_update m k v) /\ owner t' = owner t.
Proof.
  intros Ht Hb. unfold Update, update. destruct v as [|v0 v]; cbn [length Nat.eqb negb].
  - destruct (delete_rep t m k Ht Hb) as (t' & E & Ht' & _ & Ho). by exists t'.
  - destruct Ht as (pt & He & Hh).
    destruct (insert_expands (loose:=false) (reader t) [] (root t) pt He (fuel_for (keybytesToHex k)) false
                (keybytesToHex k) (v0 :: v) (trace t)) as (n' & tr' & E & He');
      [apply Hh|by apply keybytesToHex_key|done|apply enough_fuel_for|].
    rewrite E. eexists. split; [done|]. split; [|done].
    exists (pinsert pt (keybytesToHex k) (PVal (v0 :: v))).2. split; [done|].
    by apply pt_holds_insert.
Qed.

(** [Get] on a trie that stores the map [m] returns exactly [m]'s value for
    the key (nil for an absent key): it neither fails nor panics nor runs out of
    its budget of steps, and the nodes it loads do not change what is stored. *)
Theorem Get_correct (t : Trie) (m : gmap (list Z) (list Z)) (k : list Z) :
  trie_rep t m -> bytes k ->
  exists t', Get t k = Ret (Ok (m !! k), t') /\ trie_rep t' m.
Proof. intros Ht Hb. destruct (trie_Get_spec t m k Ht Hb) as (t' & ? & ? & _). by exists t'. Qed.

(** C16. [Update] with a non-empty value binds the key, with an empty value it
    removes it; in both cases every other key keeps its value, the trie stays
    canonical, and the call succeeds. *)
Theorem Update_correct (t : Trie) (m : gmap (list Z) (list Z)) (k v : list Z) :
  trie_rep t m -> bytes k ->
  exists t', Update t k v = Ret (Ok (), t') /\ trie_rep t' (map_update m k v).
Proof. intros Ht Hb. destruct (trie_Update_spec t m k v Ht Hb) as (t' & ? & ? & _). by exists t'. Qed.

(** [Delete] removes the key and nothing else, on a trie with or without it. *)
Theorem Delete_correct (t : Trie) (m : gmap (list Z) (list Z)) (k : list Z) :
  trie_rep t m -> bytes k ->
  exists t', Delete t k = Ret (Ok (), t') /\ trie_rep t' (base.delete k m).
Proof.
  intros Ht Hb. destruct (delete_rep t m k Ht Hb) as (t' & E & Ht' & _). by exists t'.
Qed.
End operations.

Lemma Get_correct_witness :
  @trie_rep Sample.rlp Sample.eth Sample.no_flags Sample.tree Sample.stored /\ 
  exists t', @Get Sample.rlp Sample.eth Sample.tree Sample.key = Ret (Ok (Sample.stored !! Sample.key), t') /\
    @trie_rep Sample.rlp Sample.eth Sample.no_flags t' Sample.stored.
Proof.
  split; [apply Sample.tree_rep|].
  apply (@Get_correct Sample.rlp Sample.eth Sample.no_flags Sample.tree Sample.stored Sample.key);
    [apply Sample.tree_rep|apply Sample.key_bytes].
Defined.

Lemma Update_correct_witness :
  @trie_rep Sample.rlp Sample.eth Sample.no_flags Sample.tree Sample.stored /\ 
  exists t', @Update Sample.rlp Sample.eth Sample.tree Sample.key [] = Ret (Ok (), t') /\
    @trie_rep Sample.rlp Sample.eth Sample.no_flags t' (base.delete Sample.key Sample.stored).
Proof.
  split; [apply Sample.tree_rep|].
  apply (@Update_correct Sample.rlp Sample.eth Sample.no_flags Sample.tree Sample.stored Sample.key []);
    [apply Sample.tree_rep|apply Sample.key_bytes].
Defined.

Lemma Delete_correct_witness :
  @trie_rep Sample.rlp Sample.eth Sample.no_flags Sample.tree Sample.stored /\ 
  exists t', @Delete Sample.rlp Sample.eth Sample.tree Sample.key = Ret (Ok (), t') /\
    @trie_rep Sample.rlp Sample.eth Sample.no_flags t' (base.delete Sample.key Sample.stored).
Proof.
  split; [apply Sample.tree_rep|].
  apply (@Delete_correct Sample.rlp Sample.eth Sample.no_flags Sample.tree Sample.stored Sample.key);
    [apply Sample.tree_rep|apply Sample.key_bytes].
Defined.
