(* ===== verification/Hasher.v ===== *)
(** * Hashing a trie ([trie/hasher.go], [trie/node_enc.go], [trie/trie.go])

    The hasher collapses a trie bottom-up: a node whose encoding is shorter than
    32 bytes is embedded in its parent, any other is replaced by its Keccak
    hash, and the hashes are cached in the node flags.  The reference is the
    root hash [root_hash] of the pure trie.  The RLP encoder and Keccak are
    class parameters. *)

From stdpp Require Import base gmap strings list.
From Stdlib Require Import ZArith Lia.
From S2P Require Import Prelude Encoding TrieSpec Node Trie TrieMap.

Local Open Scope Z_scope.

(** ** Encoder and hash function *)

(** [WriteBytes] and a list around a written payload of go-ethereum's
    [rlp.EncoderBuffer], and Keccak-256. *)
Class HashEnv := {
  rlp_WriteBytes : list Z -> list Z;
  rlp_List : list Z -> list Z;
  keccak256 : list Z -> list Z;
}.

Definition rlp_EmptyString : list Z := [128].

(** What the code relies on: the empty string is written as [rlp.EmptyString],
    a hash has 32 bytes, a node never hashes to the zero hash (which marks a
    deleted node), [types.EmptyRootHash] is the hash of the empty trie, and
    [common.BytesToHash] keeps a hash as it is. *)
Class HashLaws `{HashEnv} `{EthCommon} : Prop := {
  WriteBytes_empty : rlp_WriteBytes [] = rlp_EmptyString;
  EmptyRootHash_keccak : EmptyRootHash = keccak256 (rlp_WriteBytes []);
  keccak256_length : forall b, length (keccak256 b) = 32%nat;
  keccak256_nonzero : forall b, keccak256 b <> replicate 32 0;
  BytesToHash_id : forall h, length h = 32%nat -> BytesToHash h = h;
}.

Section hasher.
Context `{HashEnv}.

Fixpoint encode (n : node) : list Z :=
  match n with
  | NilNode => rlp_EmptyString
  | ValueNode v => rlp_WriteBytes v
  | HashNode h => rlp_WriteBytes h
  | ShortNode k v _ => rlp_List (rlp_WriteBytes k ++ encode v)
  | FullNode cs _ => rlp_List (flat_map encode cs)
  end.

Definition nodeToBytes (n : node) : list Z := encode n.

Definition hashData (data : list Z) : node := HashNode (keccak256 data).

(** [shortnodeToHash] and [fullnodeToHash] have the same body. *)
Definition shortnodeToHash (n : node) (force : bool) : node :=
  let enc := encode n in
  if (length enc <? 32)%nat && negb force then n else hashData enc.
Definition fullnodeToHash (n : node) (force : bool) : node :=
  let enc := encode n in
  if (length enc <? 32)%nat && negb force then n else hashData enc.

(** [cached.flags.hash = hn] or [nil]. *)
Definition set_hash (f : nodeFlag) (hashed : node) : nodeFlag :=
  mkFlag (match hashed with HashNode h => Some h | _ => None end) (dirty f).

(** The children of a node, the recursive [hash] passed in: collapsed and
    cached forms.  The parallel loop writes the same sixteen slots. *)
Definition hashShortNodeChildren (hash : node -> bool -> outcome (node * node))
  (k : list Z) (val : node) (f : nodeFlag) : outcome (node * (list Z * node * nodeFlag)) :=
  ck ← hexToCompact k;
  vs ← (if is_inner val then hash val false else Ret (val, val));
  Ret (ShortNode ck vs.1 f, (k, vs.2, f)).

Definition hashFullNodeChildren (hash : node -> bool -> outcome (node * node))
  : nat -> list node -> outcome (list node * list node) :=
  fix go (i : nat) (cs : list node) : outcome (list node * list node) :=
    match cs with
    | [] => Ret ([], [])
    | c :: cs =>
        p ← (if (i <? 16)%nat then
               match c with NilNode => Ret (ValueNode [], NilNode) | _ => hash c false end
             else Ret (c, c));
        ps ← go (S i) cs;
        Ret (p.1 :: ps.1, p.2 :: ps.2)
    end.

Fixpoint hasher_hash (n : node) (force : bool) {struct n} : outcome (node * node) :=
  match (cache n).1 with
  | Some h => Ret (HashNode h, n)
  | None =>
      match n with
      | ShortNode k val f =>
          cc ← hashShortNodeChildren hasher_hash k val f;
          let hashed := shortnodeToHash cc.1 force in
          let '(k', val', f') := cc.2 in
          Ret (hashed, ShortNode k' val' (set_hash f' hashed))
      | FullNode cs f =>
          cc ← hashFullNodeChildren hasher_hash 0 cs;
          let hashed := fullnodeToHash (FullNode cc.1 f) force in
          Ret (hashed, FullNode cc.2 (set_hash f hashed))
      | _ => Ret (n, n)
      end
  end.

(** [proofHash]: the collapsed node and its reference. *)
Definition proofHash (original : node) : outcome (node * node) :=
  match original with
  | ShortNode k val f =>
      cc ← hashShortNodeChildren hasher_hash k val f;
      Ret (cc.1, shortnodeToHash cc.1 false)
  | FullNode cs f =>
      cc ← hashFullNodeChildren hasher_hash 0 cs;
      Ret (FullNode cc.1 f, fullnodeToHash (FullNode cc.1 f) false)
  | n => Ret (n, n)
  end.

(** ** The trie's root hash *)

Context `{EthCommon}.

Definition hashRoot (t : Trie) : outcome (node * node * Trie) :=
  match root t with
  | NilNode => Ret (HashNode EmptyRootHash, NilNode, t)
  | _ =>
      hc ← hasher_hash (root t) true;
      Ret (hc.1, hc.2, mkTrie (root t) (owner t) 0 (reader t) (trace t))
  end.

Definition Hash (t : Trie) : outcome (list Z * Trie) :=
  '(h, cached, t1) ← hashRoot t;
  match h with
  | HashNode b => Ret (BytesToHash b, mkTrie cached (owner t1) (unhashed t1) (reader t1) (trace t1))
  | _ => Panic
  end.

(** ** Reference: the hash of a pure trie *)

Definition compact (k : list Z) : list Z :=
  match hexToCompact k with Ret c => c | Panic => [] end.

(** How a parent refers to a child with encoding [e]. *)
Definition reference (t : ptrie) (e : list Z) : list Z :=
  match t with
  | PShort _ _ | PFull _ =>
      if (length e <? 32)%nat then e else rlp_WriteBytes (keccak256 e)
  | _ => e
  end.

Fixpoint penc (t : ptrie) : list Z :=
  match t with
  | PNil => rlp_WriteBytes []
  | PVal v => rlp_WriteBytes v
  | PShort k c => rlp_List (rlp_WriteBytes (compact k) ++ reference c (penc c))
  | PFull cs => rlp_List (flat_map (fun c => reference c (penc c)) cs)
  end.

Definition pref (t : ptrie) : list Z := reference t (penc t).

Definition root_hash (t : ptrie) : list Z :=
  match t with PNil => EmptyRootHash | _ => keccak256 (penc t) end.

Lemma penc_full cs : penc (PFull cs) = rlp_List (flat_map pref cs).
Proof. done. Qed.

(** The cached hash of a node is its hash; away from the root it is only set
    when the node is large enough to be stored by hash. *)
Definition hash_flag (p : list Z) (f : nodeFlag) (t : ptrie) : Prop :=
  forall h, hash f = Some h ->
    h = keccak256 (penc t) /\ (p = [] \/ (32 <= length (penc t))%nat).

Lemma hash_flag_new p t : hash_flag p newFlag t.
Proof. by intros h. Qed.

(** The flags of a hashed trie; [clean] is what a cleared dirty bit promises. *)
Definition hash_flags (clean : list Z -> ptrie -> Prop) : FlagSpec := {|
  flag_ok := fun p f t => hash_flag p f t /\ (dirty f = false -> clean p t);
  flag_ok_new := fun p t => conj (hash_flag_new p t) (fun E => False_ind _ (diff_true_false E));
  embeds := fun p t => p <> [] /\ (length (penc t) < 32)%nat;
|}.
End hasher.

(** ** The hasher computes the reference *)

Definition pinner (t : ptrie) : bool :=
  match t with PShort _ _ | PFull _ => true | _ => false end.

Section correct.
Context `{RLP} `{HashLaws} (clean : list Z -> ptrie -> Prop).
#[local] Instance flags_with : FlagSpec := hash_flags clean.

(** One child slot: what hashing it must yield. *)
Definition slot_ok (hash : node -> bool -> outcome (node * node)) (R : nat -> node -> ptrie -> Prop)
  (i : nat) (c : node) (t : ptrie) : Prop :=
  (is_nil c = true \/ (16 <= i)%nat -> R i c t) /\ (is_nil c = true -> t = PNil) /\ ((16 <= i)%nat -> encode c = pref t) /\
  (is_nil c = false -> (i < 16)%nat ->
   exists hd cd, hash c false = Ret (hd, cd) /\ R i cd t /\ encode hd = pref t).

Lemma hashFullNodeChildren_cons hash i c cs :
  hashFullNodeChildren hash i (c :: cs) =
    (p ← (if (i <? 16)%nat then
            match c with NilNode => Ret (ValueNode [], NilNode) | _ => hash c false end
          else Ret (c, c));
     ps ← hashFullNodeChildren hash (S i) cs;
     Ret (p.1 :: ps.1, p.2 :: ps.2)).
Proof. done. Qed.

Lemma hashFullNodeChildren_spec hash R cs : forall ts i,
  length cs = length ts ->
  (forall j c t, cs !! j = Some c -> ts !! j = Some t -> slot_ok hash R (i + j) c t) ->
  exists ccs kcs, hashFullNodeChildren hash i cs = Ret (ccs, kcs) /\
    flat_map encode ccs = flat_map pref ts /\ length kcs = length cs /\
    (forall j c t, kcs !! j = Some c -> ts !! j = Some t -> R (i + j)%nat c t).
Proof.
  induction cs as [|c cs IH]; intros [|t ts] i Hlen Hs; try done; [by exists [], []|].
  destruct (IH ts (S i)) as (ccs & kcs & E & Ef & Hl & HR).
  { simpl in Hlen. lia. }
  { intros j c' t' Hc Ht. replace (S i + j)%nat with (i + S j)%nat by lia. by apply Hs. }
  assert (exists hd cd, (if (i <? 16)%nat
             then match c with NilNode => Ret (ValueNode [], NilNode) | _ => hash c false end
             else Ret (c, c)) = Ret (hd, cd) /\ R i cd t /\ encode hd = pref t)
    as (hd & cd & Eh & HRc & Ehd).
  { destruct (Hs 0%nat c t eq_refl eq_refl) as (HRc & Hnil & H16 & Hrec).
    rewrite Nat.add_0_r in *. destruct (i <? 16)%nat eqn:Ei.
    - apply Nat.ltb_lt in Ei. destruct c; try (by apply Hrec).
      rewrite Hnil in * by done. eexists _, _. split; [done|]. split; [auto|done].
    - apply Nat.ltb_ge in Ei. exists c, c. auto. }
  exists (hd :: ccs), (cd :: kcs). rewrite hashFullNodeChildren_cons. unfold mbind, outcome_bind.
  rewrite Eh, E. split; [done|].
  split; [simpl; congruence|]. split; [simpl; congruence|].
  intros [|j] c' t' Hc Ht; simplify_eq/=; [by rewrite Nat.add_0_r|].
  rewrite Nat.add_succ_r. by apply (HR j).
Qed.

Lemma expands_pinner rd p n t : expands rd p n t -> is_inner n = true -> pinner t = true.
Proof. by destruct 1. Qed.

Lemma expands_settled rd p n t : expands rd p n t -> is_inner n = false -> settled p n t.
Proof. destruct 1; intros Hn; try done; constructor. Qed.

Lemma pref_large t :
  pinner t = true -> (32 <= length (penc t))%nat -> pref t = rlp_WriteBytes (keccak256 (penc t)).
Proof.
  intros Hi Hl. unfold pref, reference. rewrite (proj2 (Nat.ltb_ge _ _)) by done.
  by destruct t.
Qed.

Lemma pref_small t : (length (penc t) < 32)%nat -> pref t = penc t.
Proof.
  intros Hl. unfold pref, reference. rewrite (proj2 (Nat.ltb_lt _ _)) by done.
  by destruct t.
Qed.

(** A child that is not an inner node in memory is already in the form its
    parent encodes. *)
Lemma encode_leaf rd p n t :
  expands rd p n t -> p <> [] -> is_inner n = false -> encode n = pref t.
Proof.
  intros He Hp Hn. destruct He as [| | | |p h n t Hf Hl Hs He]; try done.
  - simpl. by rewrite <- WriteBytes_empty.
  - destruct (proj1 Hf h eq_refl) as [-> [?|Hlen]]; [done|]. simpl.
    rewrite pref_large; [done| |done]. eapply expands_pinner; [done|by eapply load_inner].
Qed.

(** The last step of the hasher, on the collapsed node. *)
Lemma toHash_spec p f t collapsed (force : bool) :
  (force = true -> p = []) -> pinner t = true -> is_inner collapsed = true ->
  encode collapsed = penc t ->
  let hashed := shortnodeToHash collapsed force in
  hash_flag p (set_hash f hashed) t /\
  (hash (set_hash f hashed) = None -> force = false /\ (length (penc t) < 32)%nat) /\
  (force = false -> encode hashed = pref t) /\
  (force = true -> hashed = HashNode (keccak256 (penc t))).
Proof.
  intros Hp Hi Hc Ee. unfold shortnodeToHash. rewrite Ee.
  destruct (length (penc t) <? 32)%nat eqn:El; destruct force; simpl.
  1,3: split; [intros h [= <-]; auto|done].
  - apply Nat.ltb_lt in El. split; [by destruct collapsed|].
    split; [done|]. split; [|done]. intros _. by rewrite pref_small.
  - apply Nat.ltb_ge in El. split; [intros h [= <-]; auto|].
    split; [done|]. split; [|done]. intros _. by rewrite pref_large.
Qed.

Lemma hexToCompact_wf {loose} k t : wfl loose (PShort k t) -> hexToCompact k = Ret (compact k).
Proof.
  intros Hw. destruct (wf_short_inv k t Hw) as (isl & Hk & _). unfold compact.
  assert (exists c, hexToCompact k = Ret c) as [c ->]; [|done].
  destruct isl; [destruct Hk as (p & Hp & ->)|destruct Hk as [Hp _]].
  - eexists. by apply (hexToCompact_path true).
  - eexists. by apply (hexToCompact_path false).
Qed.

(** The statement about one node. *)
Definition hash_post (rd : trieReader) (p : list Z) (n : node) (t : ptrie) (force : bool) : Prop :=
  exists hashed cached, hasher_hash n force = Ret (hashed, cached) /\ expands rd p cached t /\
    settled p cached t /\ (force = false -> encode hashed = pref t) /\
    (force = true -> pinner t = true -> hashed = HashNode (keccak256 (penc t))).

(** A node with a cached hash, or a hash node. *)
Lemma hash_post_cached rd p n t h force :
  expands rd p n t -> settled p n t -> hash_flag p (mkFlag (Some h) false) t -> pinner t = true ->
  (force = false -> p <> []) -> hasher_hash n force = Ret (HashNode h, n) ->
  hash_post rd p n t force.
Proof.
  intros He Hs Hf Hi Hp E. destruct (Hf h eq_refl) as [-> Hl]. eexists _, _.
  do 3 (split; [done|]). split; [|done]. intros Hff.
  destruct Hl as [->|Hl]; [by apply Hp in Hff|]. simpl. by rewrite pref_large.
Qed.

Lemma hash_expands {loose} rd p n t :
  expands rd p n t -> forall b (force : bool),
  wfl_at loose b t -> is_nil n = false -> (force = true -> p = []) -> (force = false -> p <> []) ->
  hash_post rd p n t force.
Proof.
  intros He.
  induction He as [p|p v|p k c f t Hf Hs Hc IH|p cs f ts Hf Hs Hlen Hch IH|p h n t Hf Hl Hs He IH];
    intros b force Hw Hnn Hp1 Hp2; [done|by exists (ValueNode v), (ValueNode v); repeat split; try constructor|..].
  - destruct b; [by destruct Hw|]. simpl in Hw.
    assert (expands rd p (ShortNode k c f) (PShort k t)) as Hself by by constructor.
    destruct f as [[h|] d].
    { apply (hash_post_cached rd p _ _ h); try done; [constructor; [done|..]; auto|apply Hf]. }
    destruct (wf_short_inv k t Hw) as (isl & Hk & _ & Hwt & Hnt).
    assert (p ++ k <> []) as Hpk by (pose proof (wf_short_ne k t Hw); by destruct p, k).
    assert (exists hd cd, (if is_inner c then hasher_hash c false else Ret (c, c)) = Ret (hd, cd) /\
              expands rd (p ++ k) cd t /\ settled (p ++ k) cd t /\ encode hd = pref t)
      as (hd & cd & E & Hcd & Hsd & Ehd).
    { destruct (is_inner c) eqn:Ei.
      - destruct (IH isl false) as (hd & cd & E & Hcd & Hsd & Ehd & _); try done; [by destruct c|].
        exists hd, cd. auto.
      - exists c, c. split; [done|]. split; [done|]. split; [|by eapply encode_leaf].
        by apply (expands_settled rd). }
    destruct (toHash_spec p (mkFlag None d) (PShort k t) (ShortNode (compact k) hd (mkFlag None d)) force)
      as (Hff & Hnone & Hfalse & Htrue); [done..| |].
    { simpl. by rewrite Ehd. }
    eexists _, _. cbn [hasher_hash cache fst hash]. unfold hashShortNodeChildren.
    rewrite (hexToCompact_wf k t Hw). unfold mbind, outcome_bind. rewrite E. split; [done|].
    split; [apply ex_short; [split; [exact Hff|apply Hf]|done|done]|]. split; [apply st_short; [intros Hh%Hnone; naive_solver|done]|].
    split; [exact Hfalse|]. intros. by apply Htrue.
  - destruct b; [done|]. simpl in Hw. pose proof (proj1 (wfl_full ts) Hw) as (Hl17 & _ & Hwc).
    assert (expands rd p (FullNode cs f) (PFull ts)) as Hself by by constructor.
    destruct f as [[h|] d].
    { apply (hash_post_cached rd p _ _ h); try done; [constructor; [done|..]; auto|apply Hf]. }
    destruct (hashFullNodeChildren_spec hasher_hash
                (fun i c t => expands rd (p ++ [Z.of_nat i]) c t /\ settled (p ++ [Z.of_nat i]) c t)
                cs ts 0 Hlen)
      as (ccs & kcs & E & Ef & Hlk & HR).
    { intros j c t Hc Ht. pose proof (Hch _ _ _ Hc Ht) as Hec.
      assert ((16 <= j)%nat -> is_inner c = false) as H16.
      { intros Hj. assert (j = 16)%nat as -> by (apply lookup_lt_Some in Ht; lia).
        pose proof (Hwc _ _ Ht) as Hv. simpl in Hv. destruct Hec; try done. }
      split; [|split; [|split]].
      - intros Hcj. split; [done|]. apply (expands_settled rd); [done|].
        destruct Hcj as [Hcj|Hcj]; [by destruct c|auto].
      - intros Hn. pose proof (expands_nil _ _ _ _ (Hch _ _ _ Hc Ht)) as En.
        rewrite Hn in En. by destruct t.
      - intros Hj. eapply encode_leaf; [by apply Hch|by destruct p|auto].
      - intros Hn Hj. destruct (IH _ _ _ Hc Ht (j =? 16)%nat false) as (hd & cd & E & Hcd & Hsd & Ehd & _);
          try done; [by apply Hwc|by destruct p|]. exists hd, cd. auto. }
    destruct (toHash_spec p (mkFlag None d) (PFull ts) (FullNode ccs (mkFlag None d)) force)
      as (Hff & Hnone & Hfalse & Htrue); [done..| |].
    { simpl. rewrite Ef. done. }
    eexists _, _. cbn [hasher_hash cache fst hash]. rewrite E. unfold mbind, outcome_bind.
    assert (length kcs = length ts) as Hlk' by congruence.
    split; [done|]. split; [apply ex_full; [split; [exact Hff|apply Hf]| |done|]; naive_solver|].
    split; [apply st_full; [intros Hh%Hnone; naive_solver|done|]; naive_solver|].
    split; [exact Hfalse|]. intros. by apply Htrue.
  - assert (expands rd p (HashNode h) t) as Hself by by econstructor.
    assert (pinner t = true) as Hi by (eapply expands_pinner; [exact He|by eapply load_inner]).
    exists (HashNode h), (HashNode h). split; [done|]. split; [done|]. split; [constructor|].
    destruct (proj1 Hf h eq_refl) as [-> Hl']. split; [|done]. intros Hff.
    destruct Hl' as [->|Hl']; [by apply Hp2 in Hff|]. simpl. by rewrite pref_large.
Qed.
End correct.

Section root.
Context `{RLP} `{HashLaws} (clean : list Z -> ptrie -> Prop).
#[local] Instance flags_root : FlagSpec := hash_flags clean.

(** A trie whose cached hashes are right, storing the map [m] as [pt]. *)
Definition hashed_rep (t : Trie) (m : gmap (list Z) (list Z)) (pt : ptrie) : Prop :=
  expands (reader t) [] (root t) pt /\ pt_holds pt m.

Lemma hashed_rep_trie_rep t m pt : hashed_rep t m pt -> trie_rep t m.
Proof. intros [? ?]. by exists pt. Qed.

Lemma wf_pinner {loose} pt : wfl loose pt -> pnil pt = false -> pinner pt = true.
Proof. by destruct pt. Qed.

(** Hashing does not ask the reader, so the hash nodes may stand for what any reader
    would serve. *)
Lemma Hash_expands {loose} rd t pt :
  expands rd [] (root t) pt -> wfl loose pt ->
  exists t', Hash t = Ret (root_hash pt, t') /\ expands rd [] (root t') pt /\ settled [] (root t') pt /\
    reader t' = reader t /\ owner t' = owner t /\ trace t' = trace t.
Proof.
  intros He Hw. pose proof (expands_nil _ _ _ _ He) as En. unfold Hash, hashRoot.
  destruct (is_nil (root t)) eqn:Er.
  - destruct (root t) eqn:Ert; try done. destruct pt; try done. cbn.
    rewrite BytesToHash_id by (rewrite EmptyRootHash_keccak; apply keccak256_length). eexists. split; [done|].
    split; [done|]. split; [constructor|done].
  - destruct (hash_expands (loose:=loose) clean rd [] (root t) pt He false true)
      as (hashed & cached & E & Hc & Hs & _ & Hr); [done..|].
    assert (pinner pt = true) as Hi by (apply (wf_pinner (loose:=loose)); done).
    rewrite Hr in E by done.
    assert (hashRoot t = Ret (HashNode (keccak256 (penc pt)), cached,
                              mkTrie (root t) (owner t) 0 (reader t) (trace t))) as Eh.
    { unfold hashRoot. destruct (root t); try done; by rewrite E. }
    fold (hashRoot t). rewrite Eh. unfold mbind, outcome_bind.
    rewrite BytesToHash_id by apply keccak256_length.
    exists (mkTrie cached (owner t) 0 (reader t) (trace t)). split; [|done].
    by destruct pt.
Qed.

Lemma Hash_spec t m pt :
  hashed_rep t m pt ->
  exists t', Hash t = Ret (root_hash pt, t') /\ hashed_rep t' m pt /\ settled [] (root t') pt /\
    reader t' = reader t /\ owner t' = owner t /\ trace t' = trace t.
Proof.
  intros [He Hh]. destruct (Hash_expands (reader t) t pt He (holds_wf _ _ Hh)) as (t' & E & He' & Hs & Hr & Hot).
  exists t'. split; [done|]. split; [by split; [rewrite Hr|]|]. done.
Qed.

(** The root hash is the hash of the canonical trie of the stored map:
    [Hash] succeeds, returns [root_hash] of it whatever was cached or loaded
    before, and leaves the stored map and the correctness of the caches as they
    were. *)
Theorem Hash_correct (t : Trie) (m : gmap (list Z) (list Z)) :
  trie_rep t m ->
  exists pt t', pt_holds pt m /\ Hash t = Ret (root_hash pt, t') /\ trie_rep t' m.
Proof.
  intros (pt & He & Hh). destruct (Hash_spec t m pt) as (t' & E & [He' _] & _); [by split|].
  exists pt, t'. split; [done|]. split; [done|]. by exists pt.
Qed.

(** The root hash does not depend on history: two tries that store the same
    map, whatever operations produced them and whichever of their nodes are in
    memory, have the same root hash. *)
Theorem Hash_history_independent (t1 t2 : Trie) (m : gmap (list Z) (list Z)) :
  trie_rep t1 m -> trie_rep t2 m ->
  exists h t1' t2', Hash t1 = Ret (h, t1') /\ Hash t2 = Ret (h, t2').
Proof.
  intros (pt1 & He1 & Hh1) (pt2 & He2 & Hh2).
  destruct (Hash_spec t1 m pt1) as (t1' & E1 & _); [by split|].
  destruct (Hash_spec t2 m pt2) as (t2' & E2 & _); [by split|].
  rewrite (pt_holds_unique pt2 pt1 m) in E2 by done. by eexists _, _, _.
Qed.
End root.

(** A concrete encoder and hash: length prefixes, and the first 32 bytes. *)
Module HashSample.
Definition env : HashEnv := {|
  rlp_WriteBytes := fun b => (128 + Z.of_nat (length b)) :: b;
  rlp_List := fun b => (192 + Z.of_nat (length b)) :: b;
  keccak256 := fun b => 1 :: take 31 (b ++ replicate 31 0);
|}.
Lemma laws : @HashLaws env Sample.eth.
Proof.
  split; try done. intros b. unfold env. cbn [keccak256 length]. rewrite length_take, length_app, length_replicate. lia.
Qed.
Definition no_promise : list Z -> ptrie -> Prop := fun _ _ => True.
Definition flags : FlagSpec := @hash_flags env no_promise.
End HashSample.

Lemma Hash_correct_witness :
  @trie_rep Sample.rlp Sample.eth HashSample.flags Sample.tree Sample.stored /\
  exists pt t', pt_holds pt Sample.stored /\
    @Hash HashSample.env Sample.eth Sample.tree = Ret (@root_hash HashSample.env Sample.eth pt, t') /\
    @trie_rep Sample.rlp Sample.eth HashSample.flags t' Sample.stored.
Proof.
  split; [apply Sample.tree_rep|].
  apply (@Hash_correct Sample.rlp HashSample.env Sample.eth HashSample.laws HashSample.no_promise).
  apply Sample.tree_rep.
Defined.

Lemma Hash_history_independent_witness :
  @trie_rep Sample.rlp Sample.eth HashSample.flags Sample.tree Sample.stored /\
  exists h t1' t2', @Hash HashSample.env Sample.eth Sample.tree = Ret (h, t1') /\
    @Hash HashSample.env Sample.eth Sample.tree = Ret (h, t2').
Proof.
  split; [apply Sample.tree_rep|].
  apply (@Hash_history_independent Sample.rlp HashSample.env Sample.eth HashSample.laws
           HashSample.no_promise Sample.tree Sample.tree Sample.stored); apply Sample.tree_rep.
Defined.
