(* ===== verification/Committer.v ===== *)
(** * Committing a trie ([trie/committer.go], [trie/nodeset.go], [trie/tracer.go],
      [trie/trie.go])

    [Commit] hashes the trie, walks its dirty nodes bottom-up and collects each
    node that is stored by hash in a node set keyed by path.  Proved: the root
    returned is the root hash of the stored map, and the node set together with
    what was stored before holds every node of the trie. *)

From stdpp Require Import base gmap strings list.
From Stdlib Require Import ZArith Lia.
From S2P Require Import Prelude Encoding TrieSpec Node Trie TrieMap Hasher.

Local Open Scope Z_scope.

(** ** Node sets *)

Definition zero_hash : list Z := replicate 32 0.

(** A nil [node] of a deleted entry is [NilNode]. *)
Record memoryNode := mkMem { mn_hash : list Z; mn_size : Z; mn_node : node }.

Definition isDeleted (n : memoryNode) : bool := bool_decide (mn_hash n = zero_hash).

Record leaf := mkLeaf { blob : list Z; parent : list Z }.

Record NodeSet := mkSet {
  ns_owner : list Z;
  nodes : gmap (list Z) memoryNode;
  leaves : list leaf;
  updates : Z;
  deletes : Z;
  ns_accessList : gmap (list Z) (list Z);
}.

Definition NewNodeSet (own : list Z) (acc : gmap (list Z) (list Z)) : NodeSet :=
  mkSet own ∅ [] 0 0 acc.

Definition markUpdated (s : NodeSet) (path : list Z) (n : memoryNode) : NodeSet :=
  mkSet (ns_owner s) (<[path := n]> (nodes s)) (leaves s) (updates s + 1) (deletes s) (ns_accessList s).

Definition markDeleted (s : NodeSet) (path : list Z) : NodeSet :=
  mkSet (ns_owner s) (<[path := mkMem zero_hash 0 NilNode]> (nodes s)) (leaves s) (updates s)
    (deletes s + 1) (ns_accessList s).

Definition addLeaf (s : NodeSet) (l : leaf) : NodeSet :=
  mkSet (ns_owner s) (nodes s) (leaves s ++ [l]) (updates s) (deletes s) (ns_accessList s).

(** [markDeletions] visits a set; the result does not depend on the order. *)
Definition markDeletions (t : tracer) (s : NodeSet) : NodeSet :=
  foldl (fun s path => match ns_accessList s !! path with Some _ => markDeleted s path | None => s end)
    s (elements (Node.deletes t)).

Abbreviation MergedNodeSet := (gmap (list Z) NodeSet).

(** [Merge] reports a second set of the same trie. *)
Definition Merge (m : MergedNodeSet) (other : NodeSet) : res string MergedNodeSet :=
  match m !! ns_owner other with
  | Some _ => Err "duplicate trie for owner"
  | None => Ok (<[ns_owner other := other]> m)
  end.

(** A nil node set is dereferenced; the error of [Merge] is dropped. *)
Definition NewWithNodeSet (s : option NodeSet) : outcome MergedNodeSet :=
  match s with
  | None => Panic
  | Some s => Ret (match Merge ∅ s with Ok m => m | Err _ => ∅ end)
  end.

(** ** Collapsed nodes *)

(** [rawShortNode] and [rawFullNode] are short and full nodes without flags. *)
Definition raw_flag : nodeFlag := mkFlag None false.

Definition simplify_list (simplify : node -> outcome node) : list node -> outcome (list node) :=
  fix go (cs : list node) : outcome (list node) :=
    match cs with
    | [] => Ret []
    | c :: cs =>
        c' ← (match c with NilNode => Ret NilNode | _ => simplify c end);
        cs' ← go cs; Ret (c' :: cs')
    end.

Fixpoint simplifyNode (n : node) : outcome node :=
  match n with
  | ShortNode k v _ => v' ← simplifyNode v; Ret (ShortNode k v' raw_flag)
  | FullNode cs _ => cs' ← simplify_list simplifyNode cs; Ret (FullNode cs' raw_flag)
  | ValueNode _ | HashNode _ => Ret n
  | NilNode => Panic
  end.

(** The sizes of the first sixteen children. *)
Definition estimate_list (est : node -> outcome Z) : nat -> list node -> outcome Z :=
  fix go (i : nat) (cs : list node) : outcome Z :=
    match cs with
    | [] => Ret 0
    | c :: cs =>
        s ← (if (i <? 16)%nat then match c with NilNode => Ret 1 | _ => est c end else Ret 0);
        r ← go (S i) cs; Ret (s + r)
    end.

Fixpoint estimateSize (n : node) : outcome Z :=
  match n with
  | ShortNode k v _ => s ← estimateSize v; Ret (3 + Z.of_nat (length k) + s)
  | FullNode cs _ => s ← estimate_list estimateSize 0 cs; Ret (3 + s)
  | ValueNode v => Ret (1 + Z.of_nat (length v))
  | HashNode h => Ret (1 + Z.of_nat (length h))
  | NilNode => Panic
  end.

(** A list's first [n] elements, mapped and joined. *)
Definition flat_map_upto {A B} (f : A -> list B) : nat -> list A -> list B :=
  fix go (n : nat) (l : list A) : list B :=
    match l with
    | [] => []
    | x :: l => match n with O => [] | S n => f x ++ go n l end
    end.

(** The hashes on which [forGatherChildren] calls back, in order. *)
Fixpoint forGatherChildren `{EthCommon} (n : node) : list (list Z) :=
  match n with
  | ShortNode _ v _ => forGatherChildren v
  | FullNode cs _ => flat_map_upto forGatherChildren 16 cs
  | HashNode h => [BytesToHash h]
  | ValueNode _ | NilNode => []
  end.

(** ** The committer *)

Section committer.
Context `{EthCommon}.
Context (collectLeaf : bool).

Definition store (path : list Z) (n : node) (s : NodeSet) : outcome (node * NodeSet) :=
  match (cache n).1 with
  | None =>
      Ret (n, match ns_accessList s !! path with Some _ => markDeleted s path | None => s end)
  | Some h =>
      size ← estimateSize n;
      sn ← simplifyNode n;
      let nhash := BytesToHash h in
      let s := markUpdated s path (mkMem nhash (u16 size) sn) in
      Ret (HashNode h,
           if collectLeaf then
             match n with
             | ShortNode _ (ValueNode v) _ => addLeaf s (mkLeaf v nhash)
             | _ => s
             end
           else s)
  end.

(** [commitChildren], the recursive [commit] passed in, from child [i] on. *)
Definition commitChildren (commit : node -> list Z -> NodeSet -> outcome (node * NodeSet))
  (path : list Z) : nat -> list node -> NodeSet -> outcome (list node * NodeSet) :=
  fix go (i : nat) (cs : list node) (s : NodeSet) : outcome (list node * NodeSet) :=
    match cs with
    | [] => Ret ([], s)
    | c :: cs =>
        p ← (if (i <? 16)%nat then
               match c with
               | NilNode => Ret (NilNode, s)
               | HashNode h => Ret (HashNode h, s)
               | _ => commit c (path ++ [Z.of_nat i]) s
               end
             else Ret (c, s));
        ps ← go (S i) cs p.2;
        Ret (p.1 :: ps.1, ps.2)
    end.

Fixpoint commit (n : node) (path : list Z) (s : NodeSet) {struct n} : outcome (node * NodeSet) :=
  match n with
  | NilNode => Panic
  | _ =>
      match cache n with
      | (Some h, false) => Ret (HashNode h, s)
      | _ =>
          match n with
          | ShortNode k v f =>
              vs ← (match v with FullNode _ _ => commit v (path ++ k) s | _ => Ret (v, s) end);
              ck ← hexToCompact k;
              store path (ShortNode ck vs.1 f) vs.2
          | FullNode cs f =>
              kids ← commitChildren commit path 0 cs s;
              store path (FullNode kids.1 f) kids.2
          | HashNode h => Ret (HashNode h, s)
          | _ => Panic
          end
      end
  end.

(** [committer.Commit] asserts that the root collapses to a hash. *)
Definition committer_Commit (n : node) (s : NodeSet) : outcome (node * NodeSet) :=
  p ← commit n [] s;
  match p.1 with HashNode h => Ret (HashNode h, p.2) | _ => Panic end.
End committer.

(** [Trie.Commit]: the root hash, the node set (nil for a clean trie) and the
    trie left behind, whose root is a hash. *)
Definition Commit `{HashEnv} `{EthCommon} (t : Trie) (collectLeaf : bool)
  : outcome (list Z * option NodeSet * Trie) :=
  let s := markDeletions (trace t) (NewNodeSet (owner t) (accessList (trace t))) in
  match root t with
  | NilNode =>
      Ret (EmptyRootHash, Some s,
           mkTrie NilNode (owner t) (unhashed t) (reader t) (tracer_reset (trace t)))
  | _ =>
      '(rootHash, t1) ← Hash t;
      match cache (root t1) with
      | (h, false) =>
          Ret (rootHash, None,
               mkTrie (match h with Some h => HashNode h | None => HashNode [] end)
                 (owner t1) (unhashed t1) (reader t1) (tracer_reset (trace t1)))
      | (_, true) =>
          p ← committer_Commit collectLeaf (root t1) s;
          Ret (rootHash, Some p.2,
               mkTrie p.1 (owner t1) (unhashed t1) (reader t1) (tracer_reset (trace t1)))
      end
  end.

(** Without [collectLeaf] no leaf is collected. *)
Section no_leaves.
Context `{EthCommon}.

Lemma store_leaves p n s n' s' : store false p n s = Ret (n', s') -> leaves s' = leaves s.
Proof.
  unfold store. destruct (cache n).1; [|intros [= _ <-]; by case_match].
  intros (z & _ & E)%outcome_bind_Ret. apply outcome_bind_Ret in E as (sn & _ & E). by simplify_eq.
Qed.

Lemma commitChildren_leaves (commit : node -> list Z -> NodeSet -> outcome (node * NodeSet)) p cs : forall i s cs' s',
  (forall c q s n' s', c ∈ cs -> commit c q s = Ret (n', s') -> leaves s' = leaves s) ->
  commitChildren commit p i cs s = Ret (cs', s') -> leaves s' = leaves s.
Proof.
  induction cs as [|c cs IH]; intros i s cs' s' Hc E; [by simplify_eq/=|].
  change (commitChildren commit p i (c :: cs) s) with
    (q ← (if (i <? 16)%nat then
            match c with
            | NilNode => Ret (NilNode, s)
            | HashNode h => Ret (HashNode h, s)
            | _ => commit c (p ++ [Z.of_nat i]) s
            end
          else Ret (c, s));
     ps ← commitChildren commit p (S i) cs q.2;
     Ret (q.1 :: ps.1, ps.2)) in E.
  apply outcome_bind_Ret in E as ([n1 s1] & E1 & E). apply outcome_bind_Ret in E as ([cs2 s2] & E2 & E). simplify_eq/=.
  rewrite (IH _ _ _ _ ltac:(intros ? ? ? ? ? Hin; apply Hc; set_solver) E2).
  destruct (i <? 16)%nat; [|by simplify_eq]. destruct c; simplify_eq/=; try done; (eapply Hc; [|done]; set_solver).
Qed.

Lemma commit_leaves n : forall p s n' s', commit false n p s = Ret (n', s') -> leaves s' = leaves s.
Proof.
  induction n as [|v|h|k v f IH|cs f IH] using node_nested_ind; intros p s n' s' E; try done.
  - by simplify_eq/=.
  - cbn [commit cache] in E. destruct f as [[h|] [|]]; cbn [hash dirty] in E; try (by simplify_eq);
      apply outcome_bind_Ret in E as ([v1 s1] & E1 & E); apply outcome_bind_Ret in E as (ck & _ & E);
      apply store_leaves in E; simpl in E; rewrite E; destruct v; simplify_eq; try done; by eapply IH.
  - cbn [commit cache] in E. assert (forall c q s n' s', c ∈ cs -> commit false c q s = Ret (n', s') -> leaves s' = leaves s) as Hc.
    { intros c q s1 n1 s2 Hin. apply list_elem_of_lookup in Hin as (i & Hi). by apply (IH i c Hi). }
    destruct f as [[h|] [|]]; cbn [hash dirty] in E; try (by simplify_eq);
      apply outcome_bind_Ret in E as ([kids s1] & E1 & E); apply store_leaves in E; simpl in E; rewrite E;
      by eapply commitChildren_leaves.
Qed.

Lemma markDeletions_leaves tr s : leaves (markDeletions tr s) = leaves s.
Proof.
  unfold markDeletions. generalize (elements (Node.deletes tr)) as l. intros l. revert s.
  induction l as [|path l IH]; intros s; [done|]. simpl. rewrite IH. by case_match.
Qed.

Lemma Commit_leaves `{HashEnv} t rt s t' : Commit t false = Ret (rt, Some s, t') -> leaves s = [].
Proof.
  unfold Commit. set (s0 := markDeletions _ _).
  assert (leaves s0 = []) as Hs0 by apply markDeletions_leaves.
  assert (forall (t1 : Trie) (rt rt1 : list Z) (t' : Trie), (match cache (root t1) with
      | (h, false) => Ret (rt1, None, mkTrie (match h with Some h => HashNode h | None => HashNode [] end)
             (owner t1) (unhashed t1) (reader t1) (tracer_reset (trace t1)))
      | (_, true) => p ← committer_Commit false (root t1) s0;
          Ret (rt1, Some p.2, mkTrie p.1 (owner t1) (unhashed t1) (reader t1) (tracer_reset (trace t1)))
      end) = Ret (rt, Some s, t') -> leaves s = []) as Hgen.
  { intros t1 rt' rt1 t1' E. destruct (cache (root t1)) as [h [|]]; [|by simplify_eq].
    apply outcome_bind_Ret in E as ([n1 s1] & E1 & E). simplify_eq/=. unfold committer_Commit in E1.
    apply outcome_bind_Ret in E1 as ([n2 s2] & E2 & E1). simpl in E1. destruct n2; simplify_eq.
    apply commit_leaves in E2. congruence. }
  destruct (root t) eqn:Er; [intros [= _ <- _]; done|..];
    intros ([rt1 t1] & _ & E)%outcome_bind_Ret; by eapply Hgen.
Qed.
End no_leaves.

(** ** Collapsed nodes are encodable *)

Fixpoint collapsible (n : node) : Prop :=
  match n with
  | NilNode => False
  | ShortNode _ v _ => collapsible v
  | FullNode cs _ =>
      (fix go (cs : list node) : Prop :=
         match cs with [] => True | c :: cs => (c = NilNode \/ collapsible c) /\ go cs end) cs
  | _ => True
  end.

Lemma flat_map_upto_take {A B} (f : A -> list B) n l : flat_map_upto f n l = flat_map f (take n l).
Proof. revert n. induction l as [|x l IH]; intros [|n]; try done. simpl. by rewrite IH. Qed.

Lemma flat_map_upto_cons {A B} (f : A -> list B) n x l :
  flat_map_upto f (S n) (x :: l) = f x ++ flat_map_upto f n l.
Proof. done. Qed.

Section collapsible.
Context `{HashEnv} `{EthCommon}.

Lemma collapsible_full cs f :
  collapsible (FullNode cs f) <-> Forall (fun c => c = NilNode \/ collapsible c) cs.
Proof.
  simpl. induction cs as [|c cs IH]; [by split; [constructor|]|].
  rewrite IH. split; [intros [? ?]; by constructor|]. intros Hf. by inversion Hf.
Qed.

Lemma simplify_spec (n : node) :
  collapsible n -> exists sn, simplifyNode n = Ret sn /\ encode sn = encode n /\
    forGatherChildren sn = forGatherChildren n.
Proof.
  induction n as [|v|h|k v f IH|cs f IH] using node_nested_ind; intros Hc; try done; try by eexists.
  - destruct (IH Hc) as (sv & E & Ee & Eg). simpl. rewrite E. eexists. split; [done|].
    simpl. by rewrite Ee, Eg.
  - apply collapsible_full in Hc.
    assert (exists scs, simplify_list simplifyNode cs = Ret scs /\
        flat_map encode scs = flat_map encode cs /\
        forall n, flat_map_upto forGatherChildren n scs = flat_map_upto forGatherChildren n cs)
      as (scs & E & Ee & Eg).
    { induction Hc as [|c cs Hc Hcs IHcs]; [by exists []|].
      destruct IHcs as (scs & E & Ee & Eg); [intros i d Hd; by apply (IH (S i))|].
      destruct Hc as [->|Hc].
      - exists (NilNode :: scs). cbn. rewrite E. split; [done|]. simpl. rewrite Ee. split; [done|].
        intros [|n]; [done|]. by rewrite !flat_map_upto_cons, Eg.
      - destruct (IH 0%nat c eq_refl Hc) as (sc & Esc & Eec & Egc). exists (sc :: scs).
        split; [cbn; rewrite E; destruct c; try done; by rewrite Esc|].
        split; [simpl; by rewrite Eec, Ee|]. intros [|n]; [done|]. by rewrite !flat_map_upto_cons, Egc, Eg. }
    cbn [simplifyNode]. rewrite E. eexists. split; [done|]. cbn [encode forGatherChildren].
    by rewrite Ee, Eg.
Qed.

Lemma estimate_list_cons est i c cs :
  estimate_list est i (c :: cs) =
    (s ← (if (i <? 16)%nat then match c with NilNode => Ret 1 | _ => est c end else Ret 0);
     r ← estimate_list est (S i) cs; Ret (s + r)).
Proof. done. Qed.

Lemma estimate_spec (n : node) : collapsible n -> exists z, estimateSize n = Ret z.
Proof.
  induction n as [|v|h|k v f IH|cs f IH] using node_nested_ind; intros Hc; try done; try (by eexists).
  - destruct (IH Hc) as (z & E). simpl. rewrite E. by eexists.
  - apply collapsible_full in Hc.
    assert (forall i, exists z, estimate_list estimateSize i cs = Ret z) as Hl.
    { induction Hc as [|c cs Hc Hcs IHcs]; [intros i; by eexists|]. intros i.
      destruct (IHcs ltac:(intros j d Hd; by apply (IH (S j))) (S i)) as (z & E).
      rewrite estimate_list_cons, E. destruct (i <? 16)%nat; [|by eexists].
      destruct Hc as [->|Hc]; [by eexists|]. destruct (IH 0%nat c eq_refl Hc) as (zc & Ec).
      destruct c; try done; rewrite Ec; by eexists. }
    destruct (Hl 0%nat) as (z & E). simpl. rewrite E. by eexists.
Qed.
End collapsible.

(** ** What is stored *)

(** [D h b]: the blob [b] is available under the hash [h].  A trie is stored
    when each of its nodes that is referred to by hash is. *)
Section stored.
Context `{HashEnv} `{EthCommon}.

Inductive pstored (D : list Z -> list Z -> Prop) : bool -> ptrie -> Prop :=
| ps_nil r : pstored D r PNil
| ps_val r v : pstored D r (PVal v)
| ps_short r k c :
    (r = true \/ (32 <= length (penc (PShort k c)))%nat ->
     D (keccak256 (penc (PShort k c))) (penc (PShort k c))) ->
    pstored D false c -> pstored D r (PShort k c)
| ps_full r cs :
    (r = true \/ (32 <= length (penc (PFull cs)))%nat ->
     D (keccak256 (penc (PFull cs))) (penc (PFull cs))) ->
    (forall i c, cs !! i = Some c -> pstored D false c) -> pstored D r (PFull cs).

Lemma pstored_mono (D1 D2 : list Z -> list Z -> Prop) r t :
  (forall h b, D1 h b -> D2 h b) -> pstored D1 r t -> pstored D2 r t.
Proof. intros Hm. induction 1; constructor; eauto. Qed.

Definition is_root (p : list Z) : bool := bool_decide (p = []).

(** A node collected at a path extending [p]. *)
Definition ns_holds (s : NodeSet) (p : list Z) (h b : list Z) : Prop :=
  exists q m, p `prefix_of` q /\ nodes s !! q = Some m /\ mn_hash m = h /\ encode (mn_node m) = b.

(** The hashes a node refers to, below the children it embeds. *)
Definition href_of (t : ptrie) (e : list Z) (below : list (list Z)) : list (list Z) :=
  match t with
  | PShort _ _ | PFull _ => if (length e <? 32)%nat then below else [keccak256 e]
  | _ => []
  end.

Fixpoint hrefs (t : ptrie) : list (list Z) :=
  match t with
  | PNil | PVal _ => []
  | PShort _ c => href_of c (penc c) (hrefs c)
  | PFull cs => flat_map_upto (fun c => href_of c (penc c) (hrefs c)) 16 cs
  end.

Definition href (t : ptrie) : list (list Z) := href_of t (penc t) (hrefs t).

(** A collapsed node, and a collapsed reference to a child. *)
Definition collapsed (n : node) (t : ptrie) : Prop :=
  encode n = penc t /\ forGatherChildren n = hrefs t.
Definition refers (n : node) (t : ptrie) : Prop :=
  encode n = pref t /\ forGatherChildren n = href t.

(** Every entry is a deletion, or a collapsed node under its hash. *)
Definition entry_ok (m : memoryNode) : Prop :=
  m = mkMem zero_hash 0 NilNode \/
  exists t, wf t /\ pinner t = true /\ mn_hash m = keccak256 (penc t) /\ collapsed (mn_node m) t.
Definition entries_ok (s : NodeSet) : Prop := map_Forall (fun _ m => entry_ok m) (nodes s).

Lemma entries_ok_deleted s path : entries_ok s -> entries_ok (markDeleted s path).
Proof. intros Hs. apply map_Forall_insert_2; [by left|done]. Qed.

(** What was stored before or is collected below [p]. *)
Definition avail (D : list Z -> list Z -> Prop) (s : NodeSet) (p : list Z) (h b : list Z) : Prop :=
  D h b \/ ns_holds s p h b.

Lemma avail_mono D s s' p p' :
  p' `prefix_of` p -> (forall q, p `prefix_of` q -> nodes s' !! q = nodes s !! q) ->
  forall h b, avail D s p h b -> avail D s' p' h b.
Proof.
  intros Hp Hs h b [Hd|(q & m & Hq & E & Hm)]; [by left|]. right. exists q, m.
  split; [by etrans|]. rewrite Hs by done. done.
Qed.
End stored.

(** ** The committer collects what is missing *)

Section commit_correct.
Context `{RLP} `{HashLaws} (D : list Z -> list Z -> Prop).

(** A clear dirty bit means that the subtrie is stored. *)
Definition clean_stored (p : list Z) (t : ptrie) : Prop := pstored D (is_root p) t.
#[local] Instance commit_flags : FlagSpec := hash_flags clean_stored.

(** What committing the node at [p] yields. *)
Record commit_ok (p : list Z) (t : ptrie) (s : NodeSet) (n' : node) (s' : NodeSet) : Prop := {
  co_ref : p <> [] -> refers n' t;
  co_root : p = [] -> n' = HashNode (keccak256 (penc t));
  co_node : collapsible n';
  co_frame : forall q, ~ p `prefix_of` q -> nodes s' !! q = nodes s !! q;
  co_access : ns_accessList s' = ns_accessList s;
  co_owner : ns_owner s' = ns_owner s;
  co_stored : pstored (avail D s' p) (is_root p) t;
  co_entries : entries_ok s -> entries_ok s';
}.

Lemma penc_short k c : penc (PShort k c) = rlp_List (rlp_WriteBytes (compact k) ++ pref c).
Proof. done. Qed.

Lemma is_true_or_false (b : bool) : {b = true} + {b = false}.
Proof. destruct b; auto. Qed.

Lemma refers_hash t :
  pinner t = true -> (32 <= length (penc t))%nat -> refers (HashNode (keccak256 (penc t))) t.
Proof.
  intros Hi Hl. split; [simpl; by rewrite pref_large|]. unfold href, href_of. simpl.
  rewrite BytesToHash_id by apply keccak256_length. rewrite (proj2 (Nat.ltb_ge _ _)) by done.
  by destruct t.
Qed.

Lemma refers_embedded n t :
  pinner t = true -> (length (penc t) < 32)%nat -> collapsed n t -> refers n t.
Proof.
  intros Hi Hl [He Hg]. split; [by rewrite pref_small|]. unfold href, href_of.
  rewrite (proj2 (Nat.ltb_lt _ _)) by done. by destruct t.
Qed.

(** The children of a collapsed full node. *)
Lemma refers_full kids ts f :
  Forall2 refers kids ts -> collapsed (FullNode kids f) (PFull ts).
Proof.
  intros Hf. split.
  - rewrite penc_full. simpl. f_equal. induction Hf as [|n t ns ts [He _] _ IH]; [done|].
    simpl. by rewrite He, IH.
  - cbn [forGatherChildren hrefs]. generalize 16%nat as n. induction Hf as [|c t ns ts [_ Hg] _ IH]; intros [|n]; try done.
    rewrite flat_map_upto_cons, Hg, IH. done.
Qed.

(** The last step: storing the collapsed node. *)
Lemma store_ok p t s s1 f n0 collect :
  pinner t = true -> flag_ok p f t -> (hash f = None -> embeds p t) ->
  wf t -> (cache n0).1 = hash f -> collapsed n0 t -> collapsible n0 ->
  (forall q, ~ p `prefix_of` q -> nodes s1 !! q = nodes s !! q) ->
  ns_accessList s1 = ns_accessList s -> ns_owner s1 = ns_owner s ->
  (entries_ok s -> entries_ok s1) ->
  (forall s2, (forall q, q <> p -> nodes s2 !! q = nodes s1 !! q) ->
     (is_root p = true \/ (32 <= length (penc t))%nat -> avail D s2 p (keccak256 (penc t)) (penc t)) ->
     pstored (avail D s2 p) (is_root p) t) ->
  exists n' s', store collect p n0 s1 = Ret (n', s') /\ commit_ok p t s n' s'.
Proof.
  intros Hi [Hf _] Hemb Hw Hc [He Hg] Hcol Hfr Hacc Hown Hent Hst. unfold store. rewrite Hc.
  assert (forall q m s2, nodes s2 = <[p := m]> (nodes s1) -> q <> p -> nodes s2 !! q = nodes s1 !! q) as Hins.
  { intros q m s2 -> Hq. by rewrite lookup_insert_ne. }
  destruct (hash f) as [h|] eqn:Eh.
  - destruct (Hf h Eh) as [-> Hl]. destruct (estimate_spec n0 Hcol) as (z & ->).
    destruct (simplify_spec n0 Hcol) as (sn & -> & Esn & Egn). go_ret.
    set (m := mkMem (BytesToHash (keccak256 (penc t))) (u16 z) sn).
    set (s2 := if collect then _ else _).
    assert (nodes s2 = <[p := m]> (nodes s1) /\ ns_accessList s2 = ns_accessList s1 /\
            ns_owner s2 = ns_owner s1) as (Hn2 & Ha2 & Ho2).
    { unfold s2. destruct collect; [|done]. destruct n0 as [| | |? [] ?|]; done. }
    eexists _, _. split; [done|]. split; try done; try congruence.
    + intros Hp. apply refers_hash; naive_solver.
    + intros q Hq. rewrite (Hins q m s2 Hn2); [by apply Hfr|]. intros ->. by apply Hq.
    + apply Hst; [intros q; by apply (Hins q m)|]. intros _. right. exists p, m.
      split; [done|]. rewrite Hn2, lookup_insert_eq. split; [done|]. simpl.
      rewrite BytesToHash_id by apply keccak256_length. by rewrite Esn.
    + intros Hs%Hent. unfold entries_ok. rewrite Hn2. apply map_Forall_insert_2; [|done].
      right. exists t. simpl. rewrite BytesToHash_id by apply keccak256_length.
      do 3 (split; [done|]). split; simpl; congruence.
  - destruct (Hemb eq_refl) as [Hp Hsm].
    set (s2 := match ns_accessList s1 !! p with Some _ => _ | None => _ end).
    assert ((forall q, q <> p -> nodes s2 !! q = nodes s1 !! q) /\ ns_accessList s2 = ns_accessList s1 /\
            ns_owner s2 = ns_owner s1) as (Hn2 & Ha2 & Ho2).
    { unfold s2. destruct (ns_accessList s1 !! p); [|done]. split; [|done].
      intros q Hq. by apply (Hins q (mkMem zero_hash 0 NilNode)). }
    eexists _, _. split; [done|]. split; try done; try congruence.
    + intros _. by apply refers_embedded.
    + intros q Hq. rewrite Hn2; [by apply Hfr|]. intros ->. by apply Hq.
    + apply Hst; [done|]. intros [Hr|Hr]; [|lia].
      unfold is_root in Hr. by rewrite bool_decide_false in Hr.
    + intros Hs%Hent. unfold s2. destruct (ns_accessList s1 !! p); [by apply entries_ok_deleted|done].
Qed.

(** A node that is not walked: a hash, or clean with its hash cached. *)
Lemma clean_ok p t s h :
  hash_flag p (mkFlag (Some h) false) t -> clean_stored p t -> pinner t = true ->
  commit_ok p t s (HashNode h) s.
Proof.
  intros Hf Hs Hi. destruct (Hf h eq_refl) as [-> Hl]. split; try done.
  - intros Hp. apply refers_hash; naive_solver.
  - eapply pstored_mono; [|exact Hs]. by left.
Qed.

Definition commit_spec (collect : bool) (n : node) (p : list Z) (t : ptrie) : Prop :=
  forall s, exists n' s', commit collect n p s = Ret (n', s') /\ commit_ok p t s n' s'.

(** The children of a full node. *)
Definition child_ok (collect : bool) (p : list Z) (i : nat) (c : node) (t : ptrie) : Prop :=
  (is_nil c = true -> t = PNil) /\
  (is_inner c = false -> refers c t /\ (c = NilNode \/ collapsible c) /\ pstored D false t) /\
  ((16 <= i)%nat -> is_inner c = false) /\ (forall v, c = ValueNode v -> (16 <= i)%nat) /\
  (is_inner c = true -> commit_spec collect c (p ++ [Z.of_nat i]) t).

Lemma commitChildren_cons commit p i c cs s :
  commitChildren commit p i (c :: cs) s =
    (q ← (if (i <? 16)%nat then
            match c with
            | NilNode => Ret (NilNode, s)
            | HashNode h => Ret (HashNode h, s)
            | _ => commit c (p ++ [Z.of_nat i]) s
            end
          else Ret (c, s));
     ps ← commitChildren commit p (S i) cs q.2;
     Ret (q.1 :: ps.1, ps.2)).
Proof. done. Qed.

Lemma not_prefix_sibling p (i j : nat) q :
  i <> j -> p ++ [Z.of_nat i] `prefix_of` q -> ~ p ++ [Z.of_nat j] `prefix_of` q.
Proof.
  intros Hij [k1 ->] [k2 E]. rewrite <- !app_assoc in E. apply app_inv_head in E. simplify_eq/=.
Qed.

Lemma commitChildren_spec collect p cs : forall ts i s,
  length cs = length ts ->
  (forall j c t, cs !! j = Some c -> ts !! j = Some t -> child_ok collect p (i + j) c t) ->
  exists kids s', commitChildren (commit collect) p i cs s = Ret (kids, s') /\
    Forall2 refers kids ts /\ Forall (fun c => c = NilNode \/ collapsible c) kids /\
    (forall q, (forall j, (i <= j)%nat -> ~ p ++ [Z.of_nat j] `prefix_of` q) -> nodes s' !! q = nodes s !! q) /\
    ns_accessList s' = ns_accessList s /\ ns_owner s' = ns_owner s /\ (entries_ok s -> entries_ok s') /\
    (forall j t, ts !! j = Some t -> pstored (avail D s' (p ++ [Z.of_nat (i + j)])) false t).
Proof.
  induction cs as [|c cs IH]; intros [|t ts] i s Hlen Hok; try done.
  { exists [], s. repeat split; try done. }
  assert (exists n1 s1, (if (i <? 16)%nat then
      match c with NilNode => Ret (NilNode, s) | HashNode h => Ret (HashNode h, s)
              | _ => commit collect c (p ++ [Z.of_nat i]) s end else Ret (c, s)) = Ret (n1, s1) /\
    refers n1 t /\ (n1 = NilNode \/ collapsible n1) /\
    (forall q, ~ p ++ [Z.of_nat i] `prefix_of` q -> nodes s1 !! q = nodes s !! q) /\
    ns_accessList s1 = ns_accessList s /\ ns_owner s1 = ns_owner s /\ (entries_ok s -> entries_ok s1) /\
    pstored (avail D s1 (p ++ [Z.of_nat i])) false t)
    as (n1 & s1 & E1 & Ee1 & Hc1 & Hf1 & Ha1 & Ho1 & Hn1 & Hs1).
  { destruct (Hok 0%nat c t eq_refl eq_refl) as (_ & Hleaf & H16 & Hval & Hin). rewrite Nat.add_0_r in *.
    destruct (is_inner c) eqn:Ei.
    - assert (i < 16)%nat as Hi by (destruct (decide (16 <= i)%nat); [naive_solver congruence|lia]).
      rewrite (proj2 (Nat.ltb_lt _ _)) by done.
      destruct (Hin eq_refl s) as (n1 & s1 & E & [Href _ Hnd Hfr Hac How Hst Hen]).
      exists n1, s1. split; [by destruct c|]. split; [apply Href; by destruct p|].
      split; [by right|]. do 4 (split; [done|]).
      unfold is_root in Hst. by rewrite bool_decide_false in Hst by by destruct p.
    - destruct (Hleaf eq_refl) as (Ee & Hcol & Hst). exists c, s. split.
      + destruct (i <? 16)%nat eqn:Eil; [|done]. apply Nat.ltb_lt in Eil. destruct c; try done.
        pose proof (Hval _ eq_refl). lia.
      + do 6 (split; [done|]). eapply pstored_mono; [|done]. by left. }
  destruct (IH ts (S i) s1) as (kids & s' & E & Ef & Hk & Hfr & Hac & How & Hen & Hst).
  { simpl in Hlen. lia. }
  { intros j c' t' Hc Ht. replace (S i + j)%nat with (i + S j)%nat by lia. by apply Hok. }
  exists (n1 :: kids), s'. rewrite commitChildren_cons, E1. go_ret. cbn [fst snd]. rewrite E. go_ret.
  split; [done|]. split; [by constructor|]. split; [by constructor|].
  split; [|split; [congruence|split; [congruence|split; [auto|]]]].
  - intros q Hq. rewrite Hfr, Hf1; [done|by apply Hq|]. intros j Hj. apply Hq. lia.
  - intros [|j] t' Ht; simplify_eq/=.
    + rewrite Nat.add_0_r. eapply pstored_mono; [|exact Hs1]. apply avail_mono; [done|].
      intros q Hq. apply Hfr. intros j Hj. apply (not_prefix_sibling p i j); [lia|done].
    + rewrite Nat.add_succ_r. by apply (Hst j).
Qed.

(** A value or a hash below a node is stored as it is. *)
Lemma leaf_ok rd p n t :
  expands rd p n t -> p <> [] -> is_inner n = false ->
  refers n t /\ (n = NilNode \/ collapsible n) /\ pstored D false t.
Proof.
  intros He Hp Hn. split.
  { pose proof (encode_leaf clean_stored rd p n t He Hp Hn) as Een. split; [done|].
    destruct He as [| | | |p h n t Hf Hl Hs He]; try done. destruct (proj1 Hf h eq_refl) as [-> [?|Hlen]]; [done|].
    apply refers_hash; [|done]. eapply expands_pinner; [done|by eapply load_inner]. }
  destruct He as [| | | |p h n t Hf Hl Hs He]; try done.
  - split; [by left|constructor].
  - split; [by right|constructor].
  - split; [by right|]. destruct Hf as [_ Hc]. pose proof (Hc eq_refl) as Hst.
    unfold clean_stored, is_root in Hst. by rewrite bool_decide_false in Hst.
Qed.

Lemma commit_short_ok collect rd p k c f t :
  wf (PShort k t) -> flag_ok p f (PShort k t) -> (hash f = None -> embeds p (PShort k t)) ->
  expands rd (p ++ k) c t -> settled (p ++ k) c t ->
  (is_inner c = true -> commit_spec collect c (p ++ k) t) ->
  commit_spec collect (ShortNode k c f) p (PShort k t).
Proof.
  intros Hw Hf Hemb Hc Hs IH s.
  destruct (is_true_or_false (match f with mkFlag (Some _) false => true | _ => false end)) as [Ef|Ef].
  { destruct f as [[h|] [|]]; try done. exists (HashNode h), s. split; [done|].
    apply clean_ok; [apply Hf|by apply Hf|done]. }
  assert (p ++ k <> []) as Hpk by (pose proof (wf_short_ne k t Hw); by destruct p, k).
  assert (exists v1 s1, (match c with FullNode _ _ => commit collect c (p ++ k) s | _ => Ret (c, s) end)
      = Ret (v1, s1) /\ refers v1 t /\ collapsible v1 /\
      (forall q, ~ (p ++ k) `prefix_of` q -> nodes s1 !! q = nodes s !! q) /\
      ns_accessList s1 = ns_accessList s /\ ns_owner s1 = ns_owner s /\ (entries_ok s -> entries_ok s1) /\
      pstored (avail D s1 (p ++ k)) false t) as (v1 & s1 & E1 & Ee & Hcol & Hfr & Hac & How & Hen & Hst).
  { destruct (is_inner c) eqn:Ei.
    - destruct (IH eq_refl s) as (v1 & s1 & E & [Href _ Hnd Hfr Hac How Hst Hen]).
      exists v1, s1. assert (exists cs g, c = FullNode cs g) as (cs & g & ->).
      { destruct c; try done; [|by eexists _, _]. inversion Hc; subst. by destruct Hw. }
      unfold is_root in Hst. rewrite bool_decide_false in Hst by done. eauto 12.
    - destruct (leaf_ok rd (p ++ k) c t Hc Hpk Ei) as (Ee & Hcol & Hst). exists c, s.
      split; [by destruct c|]. split; [done|]. split.
      + destruct Hcol as [->|?]; [|done]. inversion Hc; subst. by destruct Hw.
      + do 4 (split; [done|]). eapply pstored_mono; [|done]. by left. }
  destruct (store_ok p (PShort k t) s s1 f (ShortNode (compact k) v1 f) collect)
    as (n' & s' & E & Hok); try done.
  - destruct Ee as [Ee Eg]. split; simpl; [by rewrite Ee|by rewrite Eg].
  - intros q Hq. apply Hfr. intros Hpre. apply Hq. etrans; [|exact Hpre]. by apply prefix_app_r.
  - intros s2 Hs2 Hself. constructor; [done|]. eapply pstored_mono; [|exact Hst].
    apply avail_mono; [by apply prefix_app_r|]. intros q Hq. apply Hs2. intros ->.
    destruct Hq as [l Eq]. pose proof (wf_short_ne k t Hw).
    apply (f_equal length) in Eq. rewrite !length_app in Eq. destruct k; [done|simpl in Eq; lia].
  - exists n', s'. split; [|done]. rewrite <- E. destruct f as [[h|] [|]]; try done;
      cbn [commit cache hash dirty]; rewrite E1; go_ret; rewrite (hexToCompact_wf k t Hw); done.
Qed.

Lemma commit_full_ok collect rd p cs f ts :
  wf (PFull ts) -> flag_ok p f (PFull ts) -> (hash f = None -> embeds p (PFull ts)) ->
  length cs = length ts ->
  (forall i c t, cs !! i = Some c -> ts !! i = Some t ->
     expands rd (p ++ [Z.of_nat i]) c t /\ settled (p ++ [Z.of_nat i]) c t /\
     (is_inner c = true -> commit_spec collect c (p ++ [Z.of_nat i]) t)) ->
  commit_spec collect (FullNode cs f) p (PFull ts).
Proof.
  intros Hw Hf Hemb Hlen Hch s.
  destruct (is_true_or_false (match f with mkFlag (Some _) false => true | _ => false end)) as [Ef|Ef].
  { destruct f as [[h|] [|]]; try done. exists (HashNode h), s. split; [done|].
    apply clean_ok; [apply Hf|by apply Hf|done]. }
  pose proof (proj1 (wf_full ts) Hw) as (Hl17 & _ & Hwc).
  destruct (commitChildren_spec collect p cs ts 0 s Hlen) as (kids & s1 & E1 & Ef1 & Hk & Hfr & Hac & How & Hen & Hst).
  { intros j c t Hc Ht. destruct (Hch _ _ _ Hc Ht) as (He & Hs & Hcm). simpl.
    assert ((16 <= j)%nat -> is_inner c = false) as H16.
    { intros Hj. assert (j = 16)%nat as -> by (apply lookup_lt_Some in Ht; lia).
      pose proof (Hwc _ _ Ht) as Hv. simpl in Hv. by destruct He. }
    split; [|split; [|split; [done|split; [|done]]]].
    - intros Hn. pose proof (expands_nil _ _ _ _ He) as En. rewrite Hn in En. by destruct t.
    - intros Hn. apply (leaf_ok rd (p ++ [Z.of_nat j])); [done|by destruct p|done].
    - intros v ->. inversion He; subst. pose proof (Hwc _ _ Ht) as Hv.
      destruct (j =? 16)%nat eqn:Ej; [apply Nat.eqb_eq in Ej; lia|done]. }
  destruct (store_ok p (PFull ts) s s1 f (FullNode kids f) collect) as (n' & s' & E & Hok); try done.
  - by apply refers_full.
  - by apply collapsible_full.
  - intros q Hq. apply Hfr. intros j _ Hpre. apply Hq. etrans; [|exact Hpre]. by apply prefix_app_r.
  - intros s2 Hs2 Hself. constructor; [done|]. intros i c Hc. eapply pstored_mono; [|by apply (Hst i)].
    apply avail_mono; [by apply prefix_app_r|]. intros q Hq. apply Hs2. intros ->.
    destruct Hq as [l Eq]. apply (f_equal length) in Eq. rewrite !length_app in Eq. simpl in Eq. lia.
  - exists n', s'. split; [|done]. rewrite <- E. destruct f as [[h|] [|]]; try done;
      cbn [commit cache hash dirty]; rewrite E1; done.
Qed.

Lemma commit_expands collect rd p n t :
  expands rd p n t -> forall b, settled p n t -> wf_at b t -> pinner t = true ->
  commit_spec collect n p t.
Proof.
  induction 1 as [p|p v|p k c f t Hf Hs Hc IH|p cs f ts Hf Hs Hlen Hch IH|p h n t Hf Hl Hs He IH];
    intros b Hset Hw Hi; try done.
  - destruct b; [by destruct Hw|]. destruct (wf_short_inv k t Hw) as (isl & _ & _ & Hwt & _).
    inversion Hset; subst. apply (commit_short_ok collect rd); try done.
    intros Hic. apply (IH isl); [done|done|by eapply expands_pinner].
  - destruct b; [done|]. pose proof (proj1 (wf_full ts) Hw) as (_ & _ & Hwc).
    inversion Hset as [| | |? ? ? ? Hemb _ Hsc|]; subst. apply (commit_full_ok collect rd); try done.
    intros i c t Hc Ht. split; [by apply Hch|]. split; [by apply Hsc|]. intros Hic.
    apply (IH i c t Hc Ht (i =? 16)%nat); [by apply Hsc|by apply Hwc|].
    eapply expands_pinner; [by apply Hch|done].
  - intros s. exists (HashNode h), s. split; [done|]. apply clean_ok; [apply Hf|by apply Hf|done].
Qed.

Lemma markDeletions_entries tr s : entries_ok s -> entries_ok (markDeletions tr s).
Proof.
  unfold markDeletions. generalize (elements (Node.deletes tr)) as l. intros l. revert s.
  induction l as [|path l IH]; intros s Hs; [done|]. simpl. apply IH.
  destruct (ns_accessList s !! path); [by apply entries_ok_deleted|done].
Qed.

Lemma markDeletions_owner tr s : ns_owner (markDeletions tr s) = ns_owner s.
Proof.
  unfold markDeletions. generalize (elements (Node.deletes tr)) as l. intros l. revert s.
  induction l as [|path l IH]; intros s; [done|]. simpl. rewrite IH. by case_match.
Qed.

Lemma new_set_entries own acc : entries_ok (NewNodeSet own acc).
Proof. apply map_Forall_empty. Qed.

(** The outcome of [Trie.Commit] on a trie that holds [pt]. *)
Record commit_result (t : Trie) (pt : ptrie) (ons : option NodeSet) : Prop := {
  cr_stored : pstored (fun h b => D h b \/ exists s, ons = Some s /\ ns_holds s [] h b) true pt;
  cr_entries : forall s, ons = Some s -> entries_ok s /\ ns_owner s = owner t;
}.

Lemma pinner_root_hash pt : pinner pt = true -> root_hash pt = keccak256 (penc pt).
Proof. by destruct pt. Qed.

Lemma Commit_spec t m pt collect :
  expands (reader t) [] (root t) pt -> pt_holds pt m ->
  exists ons t', Commit t collect = Ret (root_hash pt, ons, t') /\ commit_result t pt ons.
Proof.
  intros He Hh. unfold Commit. set (s0 := markDeletions _ _).
  assert (entries_ok s0 /\ ns_owner s0 = owner t) as [Hs0 Ho0].
  { split; [apply markDeletions_entries, new_set_entries|apply markDeletions_owner]. }
  pose proof (expands_nil _ _ _ _ He) as En. destruct (is_nil (root t)) eqn:Er.
  { destruct (root t) eqn:Ert; try done. destruct pt; try done. eexists _, _. split; [done|].
    split; [constructor|]. intros s [= <-]. done. }
  assert (pinner pt = true) as Hi by (apply (wf_pinner (loose:=false)); [apply Hh|done]).
  destruct (Hash_spec clean_stored t m pt) as (t1 & E1 & [He1 _] & Hset & Hrd & Hown & _); [by split|].
  assert (is_nil (root t1) = false) as Er1.
  { rewrite (expands_nil _ _ _ _ He1). by destruct pt. }
  assert (exists ons t', match cache (root t1) with
      | (h, false) => Ret (root_hash pt, None,
           mkTrie (match h with Some h => HashNode h | None => HashNode [] end)
             (owner t1) (unhashed t1) (reader t1) (tracer_reset (trace t1)))
      | (_, true) => p ← committer_Commit collect (root t1) s0;
           Ret (root_hash pt, Some p.2, mkTrie p.1 (owner t1) (unhashed t1) (reader t1) (tracer_reset (trace t1)))
      end = Ret (root_hash pt, ons, t') /\ commit_result t pt ons) as (ons & t' & E & Hr).
  { destruct (cache (root t1)) as [h [|]] eqn:Ec.
    - destruct (commit_expands collect (reader t1) [] (root t1) pt He1 false Hset) with (s := s0)
        as (n' & s' & Ecm & [_ Hroot _ _ _ How Hst Hen]); [apply Hh|done|].
      unfold committer_Commit. rewrite Ecm, Hroot by done. go_ret. eexists _, _. split; [done|].
      split; [|intros s [= <-]; split; [auto|congruence]].
      eapply pstored_mono; [|exact Hst]. intros hh b [?|?]; [by left|right]. by exists s'.
    - eexists _, _. split; [done|]. split; [|done].
      assert (clean_stored [] pt) as Hcl.
      { destruct He1 as [| |? ? ? ? ? Hf|? ? ? ? Hf|]; simplify_eq/=; by apply Hf. }
      eapply pstored_mono; [|exact Hcl]. by left. }
  exists ons, t'. split; [|done]. rewrite <- E. destruct (root t) eqn:Ert; try done; rewrite E1; done.
Qed.
End commit_correct.

(** A commit that collects nothing leaves a trie whose root was never marked
    dirty. *)
Lemma Commit_none `{RLP} `{HashLaws} (clean : list Z -> ptrie -> Prop) t m pt collect rt t' :
  @expands _ _ (hash_flags clean) (reader t) [] (root t) pt -> pt_holds pt m ->
  Commit t collect = Ret (rt, None, t') -> clean [] pt.
Proof.
  intros He Hh E. unfold Commit in E. pose proof (expands_nil _ _ _ _ He) as En.
  destruct (is_nil (root t)) eqn:Er; [by destruct (root t); simplify_eq|].
  destruct (Hash_spec clean t m pt) as (t1 & E1 & [He1 _] & _); [by split|]. rewrite E1 in E.
  assert (is_nil (root t1) = false) as Er1 by (rewrite (expands_nil _ _ _ _ He1); by destruct pt).
  assert ((cache (root t1)).2 = false) as Ec.
  { destruct (cache (root t1)) as [h [|]] eqn:Ecc; [exfalso|done]. destruct (root t); try done;
      unfold mbind, outcome_bind in E; rewrite Ecc in E; destruct (committer_Commit collect (root t1) _); simplify_eq. }
  destruct He1 as [| |? ? ? ? ? Hf|? ? ? ? Hf|]; simplify_eq/=; by apply Hf.
Qed.
