(* ===== verification/Reload.v ===== *)
(** * Reading a stored trie back ([trie/node.go], [trie/trie.go])

    The inverse of committing: from a store that holds every node of a trie,
    decoding the blob of the root and of the nodes it refers to gives the trie
    back.  The RLP package enters through the round-trip laws of its encoder and
    its splitting functions. *)

From stdpp Require Import base gmap strings list.
From Stdlib Require Import ZArith Lia.
From S2P Require Import Prelude Encoding TrieSpec Node Trie TrieMap Hasher Committer.

Local Open Scope Z_scope.

(** ** go-ethereum's rlp package *)

(** One encoded value: a string or a list. *)
Definition rlp_item `{HashEnv} (e : list Z) : Prop :=
  (exists s, e = rlp_WriteBytes s) \/ (exists c, e = rlp_List c).

Class RLPLaws `{RLP} `{HashEnv} : Prop := {
  SplitList_List : forall c r, rlp_SplitList (rlp_List c ++ r) = Ok (c, r);
  SplitString_Bytes : forall s r, rlp_SplitString (rlp_WriteBytes s ++ r) = Ok (s, r);
  Split_List : forall c r, rlp_Split (rlp_List c ++ r) = Ok (KList, c, r);
  Split_Bytes : forall s r, length s <> 1%nat -> rlp_Split (rlp_WriteBytes s ++ r) = Ok (KString, s, r);
  CountValues_items : forall es, Forall rlp_item es -> rlp_CountValues (concat es) = Z.of_nat (length es);
  List_length : forall c, (length c < length (rlp_List c))%nat;
}.

Section reload.
Context `{RLPLaws} `{EthCommon} `{!HashLaws}.
Context (D : list Z -> list Z -> Prop).
Context (rd : trieReader).
(** The reader serves what is stored. *)
Context (Hserve : forall p h b, D h b -> length h = 32%nat -> nodeBlob rd p h = Ok b).
#[local] Instance reload_flags : FlagSpec := hash_flags (clean_stored D).

Lemma pref_item t : rlp_item (pref t).
Proof.
  unfold pref, reference. destruct t; try (by left; eexists); (case_match; [right|left]); by eexists.
Qed.

Lemma concat_pref (ts : list ptrie) : flat_map pref ts = concat (map pref ts).
Proof. apply flat_map_concat_map. Qed.

(** What decoding the encoding of [t] at [p] yields. *)
Definition decodes (t : ptrie) : Prop :=
  forall p fuel ho rest, pstored D (is_root p) t -> wf t -> pinner t = true ->
    (length (penc t) < fuel)%nat ->
    match ho with
    | Some h => h = keccak256 (penc t) /\ (p = [] \/ (32 <= length (penc t))%nat)
    | None => p <> [] /\ (length (penc t) < 32)%nat
    end ->
    exists n, decodeNodeUnsafe fuel ho (penc t ++ rest) = Ok n /\ expands rd p n t /\ settled p n t.

Lemma penc_nonempty t rest : pinner t = true -> length (penc t ++ rest) <> 0%nat.
Proof.
  intros Hi. rewrite length_app. destruct t as [|v|k c|cs]; try done;
    [pose proof (List_length (rlp_WriteBytes (compact k) ++ reference c (penc c)))|
     pose proof (List_length (flat_map (fun c => reference c (penc c)) cs))]; simpl; lia.
Qed.

Lemma pstored_self D' r t :
  pstored D' r t -> pinner t = true -> (r = true \/ (32 <= length (penc t))%nat) ->
  D' (keccak256 (penc t)) (penc t).
Proof. destruct 1; try done; auto. Qed.

Lemma load_stored p t :
  decodes t -> pstored D false t -> wf t -> pinner t = true -> p <> [] ->
  (32 <= length (penc t))%nat ->
  exists n, load rd p (keccak256 (penc t)) = Some n /\ expands rd p n t /\ settled p n t.
Proof.
  intros Hd Hs Hw Hi Hp Hl.
  assert (is_root p = false) as Er by (unfold is_root; by apply bool_decide_false).
  assert (D (keccak256 (penc t)) (penc t)) as Hb by (apply (pstored_self D false t); auto).
  destruct (Hd p (S (length (penc t))) (Some (keccak256 (penc t))) []) as (n & E & He & Hset);
    [by rewrite Er|done|done|lia|auto|].
  exists n. split; [|done]. unfold load. rewrite BytesToHash_id by apply keccak256_length.
  rewrite (Hserve p _ _ Hb) by apply keccak256_length.
  rewrite app_nil_r in E. unfold mustDecodeNode, decodeNode. by rewrite E.
Qed.

(** A reference to a child: nothing, an embedded node or a hash. *)
Lemma decodeRef_spec p t fuel rest :
  decodes t -> pstored D false t -> wf t -> p <> [] -> (length (pref t) < fuel)%nat ->
  exists n, decodeRef (decodeNodeUnsafe fuel) (pref t ++ rest) = Ok (n, rest) /\
    expands rd p n t /\ settled p n t.
Proof.
  intros Hd Hs Hw Hp Hf. unfold decodeRef. destruct (pinner t) eqn:Hi.
  - destruct (decide (length (penc t) < 32)%nat) as [Hl|Hl].
    + rewrite pref_small in * by done.
      assert (exists c, penc t = rlp_List c) as [c Ec] by (destruct t; try done; by eexists).
      destruct (Hd p fuel None rest) as (n & E & He & Hset); try done.
      { unfold is_root. by rewrite bool_decide_false. }
      exists n. split; [|done]. rewrite Ec at 1. rewrite Split_List. cbn [plain mbind res_bind].
      rewrite (proj2 (Nat.ltb_ge _ _)); [by rewrite E|]. unfold hashLen. rewrite length_app. lia.
    + rewrite pref_large in * by (done || lia).
      destruct (load_stored p t Hd Hs Hw Hi Hp ltac:(lia)) as (n & El & He & Hset).
      exists (HashNode (keccak256 (penc t))).
      rewrite Split_Bytes by (rewrite keccak256_length; lia). cbn [plain mbind res_bind].
      rewrite keccak256_length. cbn [Nat.eqb]. split; [done|]. split; [|constructor].
      econstructor; [|done|done|done]. split.
      * intros h [= <-]. split; [done|]. right. lia.
      * intros _. unfold clean_stored, is_root. by rewrite bool_decide_false.
  - destruct t as [|v|k c|cs]; try done. exists NilNode.
    unfold pref, reference. simpl penc. rewrite Split_Bytes by done. cbn. split; [done|]. split; constructor.
Qed.

Lemma compactToHex_wf {loose} k t : wfl loose (PShort k t) -> compactToHex (compact k) = Ret k.
Proof.
  intros Hw. destruct (wf_short_inv k t Hw) as (isl & Hk & _). unfold compact.
  destruct isl; [destruct Hk as (p & Hp & ->)|destruct Hk as [Hp _]].
  - rewrite (hexToCompact_path true) by done. by apply (compactToHex_compact_of true).
  - rewrite (hexToCompact_path false) by done. by apply (compactToHex_compact_of false).
Qed.

(** The flags of a decoded node. *)
Lemma decoded_flag p ho t :
  pstored D (is_root p) t ->
  match ho with
  | Some h => h = keccak256 (penc t) /\ (p = [] \/ (32 <= length (penc t))%nat)
  | None => p <> [] /\ (length (penc t) < 32)%nat
  end ->
  flag_ok p (mkFlag ho false) t /\ (hash (mkFlag ho false) = None -> embeds p t).
Proof.
  intros Hs Hho. split; [split|].
  - intros h [= ->]. done.
  - done.
  - simpl. intros ->. done.
Qed.

Lemma decodes_short k c : decodes c -> decodes (PShort k c).
Proof.
  intros IH p fuel ho rest Hs Hw _ Hf Hho.
  destruct fuel as [|fuel]; [lia|]. cbn [decodeNodeUnsafe].
  rewrite (proj2 (Nat.eqb_neq _ _)) by (by apply penc_nonempty).
  rewrite (penc_short k c), SplitList_List. rewrite penc_short in Hf.
  pose proof (List_length (rlp_WriteBytes (compact k) ++ pref c)) as Hll. rewrite length_app in Hll.
  assert (rlp_CountValues (rlp_WriteBytes (compact k) ++ pref c) = 2) as ->.
  { rewrite <- (app_nil_r (pref c)). apply (CountValues_items [_; _]).
    apply Forall_cons; split; [left; by eexists|]. apply Forall_cons; split; [apply pref_item|constructor]. }
  destruct (decoded_flag p ho (PShort k c) Hs Hho) as [Hfl Hemb].
  destruct (wf_short_inv k c Hw) as (isl & Hk & Hc & Hwc & _).
  assert (exists n, decodeShort (decodeNodeUnsafe fuel) ho (rlp_WriteBytes (compact k) ++ pref c)
            = Ok (ShortNode k n (mkFlag ho false)) /\ expands rd (p ++ k) n c /\ settled (p ++ k) n c)
    as (n & E & He & Hset).
  { unfold decodeShort. rewrite SplitString_Bytes. cbn [plain mbind res_bind].
    rewrite (compactToHex_wf k c Hw). destruct isl.
    - destruct Hk as (q & Hq & ->). destruct Hc as (v & -> & _). rewrite hasTerm_app.
      change (pref (PVal v)) with (rlp_WriteBytes v).
      rewrite <- (app_nil_r (rlp_WriteBytes v)), SplitString_Bytes. exists (ValueNode v). repeat constructor.
    - destruct Hk as [Hk Hne]. rewrite hasTerm_path by done. rewrite <- (app_nil_r (pref c)).
      destruct (decodeRef_spec (p ++ k) c fuel []) as (n & -> & ? & ?); try done.
      + by inversion Hs.
      + by destruct p, k.
      + lia.
      + by exists n. }
  cbn [Z.eqb Pos.eqb]. rewrite E. eexists. split; [done|].
  split; [apply ex_short|apply st_short]; auto.
Qed.

Lemma decodeFull_loop_spec fuel p ts : forall n i rest,
  n = length ts -> (forall j t, ts !! j = Some t ->
    decodes t /\ pstored D false t /\ wf t /\ (length (pref t) < fuel)%nat) ->
  exists ns, decodeFull_loop (decodeNodeUnsafe fuel) n i (flat_map pref ts ++ rest) = Ok (ns, rest) /\
    length ns = length ts /\
    (forall j m t, ns !! j = Some m -> ts !! j = Some t ->
       expands rd (p ++ [Z.of_nat (i + j)]) m t /\ settled (p ++ [Z.of_nat (i + j)]) m t).
Proof.
  induction ts as [|t ts IH]; intros n i rest -> Hts; [by exists []|]. cbn [length decodeFull_loop flat_map].
  destruct (Hts 0%nat t eq_refl) as (Hd & Hs & Hw & Hl).
  rewrite <- app_assoc.
  destruct (decodeRef_spec (p ++ [Z.of_nat i]) t fuel (flat_map pref ts ++ rest)) as (m & E & He & Hset);
    try done; [by destruct p|].
  destruct (IH (length ts) (S i) rest eq_refl) as (ns & E' & Hlen & Hns).
  { intros j t' Ht'. by apply (Hts (S j)). }
  rewrite E. cbn [wrapError mbind res_bind]. rewrite E'. cbn [mbind res_bind].
  exists (m :: ns). split; [done|]. split; [simpl; lia|].
  intros [|j] m' t' Hm Ht; simplify_eq/=; [by rewrite Nat.add_0_r|].
  rewrite Nat.add_succ_r. by apply Hns.
Qed.

Lemma length_flat_map_pref ts i t : ts !! i = Some t -> (length (pref t) <= length (flat_map pref ts))%nat.
Proof.
  revert i. induction ts as [|t' ts IH]; intros [|i] Hi; simplify_eq/=; rewrite length_app; [lia|].
  apply IH in Hi. lia.
Qed.

Lemma decodes_full ts :
  (forall i t, ts !! i = Some t -> decodes t) -> decodes (PFull ts).
Proof.
  intros IH p fuel ho rest Hs Hw _ Hf Hho.
  destruct fuel as [|fuel]; [lia|]. cbn [decodeNodeUnsafe].
  rewrite (proj2 (Nat.eqb_neq _ _)) by (by apply penc_nonempty).
  rewrite penc_full, SplitList_List. rewrite penc_full in Hf.
  pose proof (List_length (flat_map pref ts)) as Hll.
  destruct (proj1 (wf_full ts) Hw) as (H17 & _ & Hwc).
  rewrite concat_pref, CountValues_items, <- concat_pref
    by (apply Forall_forall; intros e (t & -> & _)%list_elem_of_fmap; apply pref_item).
  rewrite length_map, H17. cbn [Z.of_nat Z.eqb Pos.eqb].
  destruct (decoded_flag p ho (PFull ts) Hs Hho) as [Hfl Hemb].
  assert (forall i t, ts !! i = Some t -> pstored D false t) as Hsc by (by inversion Hs).
  destruct (lookup_lt_is_Some_2 ts 16) as [v Hv]; [lia|].
  assert (ts = take 16 ts ++ [v]) as Ets.
  { rewrite <- (take_drop_middle _ _ _ Hv) at 1. f_equal. rewrite drop_ge; [done|lia]. }
  destruct (decodeFull_loop_spec fuel p (take 16 ts) 16 0 (pref v)) as (ns & E & Hlen & Hns).
  { rewrite length_take. lia. }
  { intros j t Ht. assert (j < 16)%nat as Hj by (apply lookup_lt_Some in Ht; rewrite length_take in Ht; lia).
    rewrite lookup_take_lt in Ht by done. pose proof (Hwc j t Ht) as Hwt.
    rewrite (proj2 (Nat.eqb_neq _ _)) in Hwt by lia. pose proof (length_flat_map_pref ts j t Ht).
    split; [eauto|]. split; [eauto|]. split; [done|lia]. }
  assert (exists vn, decodeFull (decodeNodeUnsafe fuel) ho (flat_map pref ts)
            = Ok (FullNode (ns ++ [vn]) (mkFlag ho false)) /\
            expands rd (p ++ [16]) vn v /\ settled (p ++ [16]) vn v) as (vn & Ed & Hev & Hsv).
  { unfold decodeFull. rewrite Ets, flat_map_app. change (flat_map pref [v]) with (pref v ++ []).
    rewrite app_nil_r, E. cbn [mbind res_bind].
    pose proof (Hwc _ _ Hv) as Hvs. simpl in Hvs. destruct v as [|w| |]; try done.
    - change (pref PNil) with (rlp_WriteBytes []). rewrite <- (app_nil_r (rlp_WriteBytes [])), SplitString_Bytes.
      exists NilNode. repeat constructor.
    - change (pref (PVal w)) with (rlp_WriteBytes w). rewrite <- (app_nil_r (rlp_WriteBytes w)), SplitString_Bytes.
      exists (ValueNode w). destruct w; [done|]. repeat constructor. }
  rewrite Ed. eexists. split; [done|]. rewrite length_take in Hlen.
  assert (forall i c t, (ns ++ [vn]) !! i = Some c -> ts !! i = Some t ->
    expands rd (p ++ [Z.of_nat i]) c t /\ settled (p ++ [Z.of_nat i]) c t) as Hall.
  { intros i c t Hc Ht. destruct (decide (i < 16)%nat) as [Hi|Hi].
    - rewrite lookup_app_l in Hc by lia. apply (Hns i); [done|]. by rewrite lookup_take_lt.
    - assert (i = 16)%nat as -> by (apply lookup_lt_Some in Ht; lia).
      rewrite lookup_app_r in Hc by lia. replace (16 - length ns)%nat with 0%nat in Hc by lia.
      simplify_eq/=. done. }
  assert (length (ns ++ [vn]) = length ts) by (rewrite length_app; simpl; lia).
  split; [apply ex_full|apply st_full]; naive_solver.
Qed.

Lemma decodes_all t : decodes t.
Proof.
  induction t as [|v|k t IH|ts IH] using ptrie_nested_ind.
  1,2: by intros ? ? ? ? ? ? ?.
  - by apply decodes_short.
  - by apply decodes_full.
Qed.

(** The node stored under the root hash. *)
Lemma load_root t :
  pstored D true t -> wf t -> pinner t = true ->
  exists n, load rd [] (keccak256 (penc t)) = Some n /\ expands rd [] n t.
Proof.
  intros Hs Hw Hi.
  assert (D (keccak256 (penc t)) (penc t)) as Hb by (apply (pstored_self D true t); auto).
  destruct (decodes_all t [] (S (length (penc t))) (Some (keccak256 (penc t))) []) as (n & E & He & _);
    [done|done|done|lia|auto|].
  exists n. split; [|done]. unfold load. rewrite BytesToHash_id by apply keccak256_length.
  rewrite (Hserve [] _ _ Hb) by apply keccak256_length.
  rewrite app_nil_r in E. unfold mustDecodeNode, decodeNode. by rewrite E.
Qed.
End reload.

(** ** Hash references determine the trie *)

(** Keccak-256 without collisions, the usual idealisation. *)
Class CollisionFree `{HashEnv} : Prop :=
  keccak256_inj : forall a b, keccak256 a = keccak256 b -> a = b.

Section penc_inj.
Context `{RLPLaws} `{EthCommon} `{!HashLaws} `{!CollisionFree}.

Lemma List_inj c1 c2 r1 r2 : rlp_List c1 ++ r1 = rlp_List c2 ++ r2 -> c1 = c2 /\ r1 = r2.
Proof. intros E. pose proof (SplitList_List c1 r1) as E1. rewrite E, SplitList_List in E1. by simplify_eq. Qed.

Lemma Bytes_inj s1 s2 r1 r2 : rlp_WriteBytes s1 ++ r1 = rlp_WriteBytes s2 ++ r2 -> s1 = s2 /\ r1 = r2.
Proof. intros E. pose proof (SplitString_Bytes s1 r1) as E1. rewrite E, SplitString_Bytes in E1. by simplify_eq. Qed.

Lemma Bytes_not_List s c r1 r2 : length s <> 1%nat -> rlp_WriteBytes s ++ r1 <> rlp_List c ++ r2.
Proof. intros Hl E. pose proof (Split_Bytes s r1 Hl) as E1. rewrite E, Split_List in E1. done. Qed.

Lemma penc_List t : pinner t = true -> exists c, penc t = rlp_List c.
Proof. destruct t; try done; by eexists. Qed.

Definition penc_inj_at {loose} (t1 : ptrie) : Prop :=
  forall t2, wfl loose t1 -> wfl loose t2 -> pinner t1 = true -> pinner t2 = true -> penc t1 = penc t2 -> t1 = t2.

(** How a child is referred to: nothing, in place, or by hash. *)
Inductive pref_view (t : ptrie) : list Z -> Prop :=
| pv_nil : t = PNil -> pref_view t (rlp_WriteBytes [])
| pv_small c : pinner t = true -> penc t = rlp_List c -> pref_view t (rlp_List c)
| pv_large : pinner t = true -> pref_view t (rlp_WriteBytes (keccak256 (penc t))).

Lemma pref_view_of {loose} t : wfl loose t -> pref_view t (pref t).
Proof.
  intros Hw. destruct (pinner t) eqn:Hi; [|destruct t; try done; by constructor].
  destruct (decide (length (penc t) < 32)%nat) as [Hl|Hl].
  - rewrite pref_small by done. destruct (penc_List t Hi) as [c Ec]. rewrite Ec. by constructor.
  - rewrite pref_large by (done || lia). by constructor.
Qed.

Lemma pref_app_inj {loose} t1 t2 b r1 r2 :
  penc_inj_at (loose:=loose) t1 -> wfl_at loose b t1 -> wfl_at loose b t2 -> pref t1 ++ r1 = pref t2 ++ r2 -> t1 = t2 /\ r1 = r2.
Proof.
  intros IH Hw1 Hw2 E. destruct b; simpl in *.
  { destruct t1, t2; try done; apply Bytes_inj in E as [? ?]; by simplify_eq. }
  pose proof (keccak256_length (penc t1)) as Hk1. pose proof (keccak256_length (penc t2)) as Hk2.
  revert E. destruct (pref_view_of t1 Hw1) as [->|c1 Hi1 E1|Hi1], (pref_view_of t2 Hw2) as [->|c2 Hi2 E2|Hi2];
    intros E; try (by apply Bytes_not_List in E; [|rewrite ?Hk1; simpl; lia]);
    try (by symmetry in E; apply Bytes_not_List in E; [|rewrite ?Hk2; simpl; lia]).
  - by apply Bytes_inj in E as [_ ->].
  - apply Bytes_inj in E as [E _]. by rewrite <- E in Hk2.
  - apply List_inj in E as [-> ->]. split; [|done]. apply IH; congruence.
  - apply Bytes_inj in E as [E _]. by rewrite E in Hk1.
  - apply Bytes_inj in E as [E%keccak256_inj ->]. split; [|done]. by apply IH.
Qed.

Lemma flat_map_pref_inj {loose} ts1 : forall ts2 (b : nat -> bool),
  length ts1 = length ts2 ->
  (forall i t, ts1 !! i = Some t -> penc_inj_at (loose:=loose) t /\ wfl_at loose (b i) t) ->
  (forall i t, ts2 !! i = Some t -> wfl_at loose (b i) t) ->
  flat_map pref ts1 = flat_map pref ts2 -> ts1 = ts2.
Proof.
  induction ts1 as [|t1 ts1 IH]; intros [|t2 ts2] b Hl Ht1 Ht2 E; try done. simpl in E.
  destruct (Ht1 0%nat t1 eq_refl) as [Hp Hw].
  destruct (pref_app_inj _ _ _ _ _ Hp Hw (Ht2 0%nat t2 eq_refl) E) as [-> E']. f_equal.
  apply (IH ts2 (fun i => b (S i))); [simpl in Hl; lia| | |done]; intros i t Hi.
  - by apply (Ht1 (S i)).
  - by apply (Ht2 (S i)).
Qed.

Lemma short_full_enc k c ts : length ts = 17%nat -> penc (PShort k c) <> penc (PFull ts).
Proof.
  intros Hl E. rewrite penc_short, penc_full, <- (app_nil_r (rlp_List _)) in E.
  rewrite <- (app_nil_r (rlp_List (flat_map _ _))) in E. apply List_inj in E as [E _].
  assert (rlp_CountValues (flat_map pref ts) = 17) as E1.
  { rewrite concat_pref, CountValues_items, length_map, Hl; [done|].
    apply Forall_forall. intros e (t & -> & _)%list_elem_of_fmap. apply pref_item. }
  pose proof (CountValues_items [rlp_WriteBytes (compact k); pref c]) as E2. cbn [concat] in E2.
  rewrite app_nil_r, E, E1 in E2. discriminate E2.
  apply Forall_cons; split; [left; by eexists|]. apply Forall_cons; split; [apply pref_item|constructor].
Qed.

Lemma penc_inj {loose} t : penc_inj_at (loose:=loose) t.
Proof.
  induction t as [|v|k c IH|ts IH] using ptrie_nested_ind; [done|done|..];
    intros t2 Hw1 Hw2 _ Hi2 E; destruct t2 as [| |k2 c2|ts2]; try done.
  - rewrite !penc_short, <- (app_nil_r (rlp_List _)), <- (app_nil_r (rlp_List (_ ++ pref c2))) in E.
    apply List_inj in E as [E _]. apply Bytes_inj in E as [Ek Ec].
    assert (k = k2) as <-.
    { pose proof (compactToHex_wf k c Hw1) as E1. rewrite Ek, (compactToHex_wf k2 c2 Hw2) in E1. by simplify_eq. }
    f_equal. destruct (wf_short_inv k c Hw1) as (isl & Hk1 & _ & Hc1 & _).
    destruct (wf_short_inv k c2 Hw2) as (isl2 & Hk2 & _ & Hc2 & _).
    assert (isl2 = isl) as ->.
    { destruct isl, isl2; try done; exfalso; destruct Hk1, Hk2; simplify_eq;
        eapply (hex_key_path_app k []); rewrite ?app_nil_r; done || by eexists. }
    apply (pref_app_inj (loose:=loose) c c2 isl [] []); [done..|]. by rewrite !app_nil_r.
  - by apply short_full_enc in E; [|apply wfl_full in Hw2 as [? _]].
  - symmetry in E. by apply short_full_enc in E; [|apply wfl_full in Hw1 as [? _]].
  - rewrite !penc_full, <- (app_nil_r (rlp_List _)), <- (app_nil_r (rlp_List (flat_map pref ts2))) in E.
    apply List_inj in E as [E _]. apply wfl_full in Hw1 as (Hl1 & _ & Ht1). apply wfl_full in Hw2 as (Hl2 & _ & Ht2).
    f_equal. apply (flat_map_pref_inj (loose:=loose) ts ts2 (fun i => (i =? 16)%nat)); [congruence| |done|done].
    intros i t Hi. split; [by apply (IH i)|by apply Ht1].
Qed.
End penc_inj.

(** ** Opening a trie *)

Section open.
Context `{RLPLaws} `{EthCommon} `{!HashLaws}.

(** A reader that serves the (non-empty) blobs of [D]. *)
Definition serves (r : Reader) (D : list Z -> list Z -> Prop) : Prop :=
  forall o p h b, D h b -> b <> [] -> h <> zero_hash -> length h = 32%nat -> NodeBlob r o p h = Ok b.

Definition solid (D : list Z -> list Z -> Prop) (h b : list Z) : Prop :=
  D h b /\ b <> [] /\ h <> zero_hash.

Lemma pstored_solid D r t : pstored D r t -> pstored (solid D) r t.
Proof.
  induction 1 as [| |r k c Hd Hs IH|r cs Hd Hs IH]; constructor; auto; intros Hr;
    (split; [by apply Hd|]); (split; [|apply keccak256_nonzero]); intros E; eapply (penc_nonempty _ []); rewrite ?E; done.
Qed.

(** A root hash that stands for the stored map: it is not the hash of the empty
    trie by accident. *)
Definition proper_root (h : list Z) (m : gmap (list Z) (list Z)) : Prop :=
  h = EmptyRootHash -> m = ∅.

Lemma New_spec D h m pt GetReader r :
  pstored D true pt -> pt_holds pt m -> h = root_hash pt -> proper_root h m ->
  GetReader h = Some r -> serves r D ->
  exists t, New (TrieID h) GetReader = Ret (Ok t) /\ owner t = zero_hash /\
    @trie_rep _ _ (hash_flags (clean_stored (solid D))) t m.
Proof.
  intros Hs Hh -> Hempty Hg Hr. unfold New. cbn [StateRoot TrieID ID_Owner ID_Root]. rewrite Hg.
  destruct (pinner pt) eqn:Hi.
  - assert (root_hash pt <> EmptyRootHash) as Hne.
    { intros E. rewrite (pt_holds_unique pt PNil m) in Hi; [done|done|].
      rewrite (Hempty E). apply pt_holds_empty. }
    rewrite pinner_root_hash in * by done.
    rewrite !bool_decide_true by (done || apply keccak256_nonzero). cbn [andb].
    set (rdr := mkTrieReader zero_hash (Some r) None).
    destruct (load_root (solid D) rdr) with (t := pt) as (n & El & He);
      [|by apply pstored_solid|apply Hh|done|].
    { intros p h b (Hd & Hb & Hz) Hl. unfold nodeBlob, is_banned. cbn [banned tr_reader tr_owner rdr].
      rewrite (Hr _ _ _ _ Hd Hb Hz Hl). by destruct b. }
    destruct (resolveAndTrack_load rdr [] _ n newTracer El) as (tr & E).
    change (replicate 32 0) with zero_hash. fold rdr. rewrite E. eexists. split; [done|]. split; [done|].
    exists pt. done.
  - destruct pt; try done; [|by destruct Hh]. cbn [root_hash].
    rewrite (bool_decide_false (EmptyRootHash <> EmptyRootHash)) by naive_solver.
    rewrite andb_false_r. eexists. split; [done|]. split; [done|]. exists PNil. split; [constructor|done].
Qed.
End open.

(** ** A concrete encoder *)

(** Length-prefixed strings and lists, and an injective hash. *)
Module RLPSample.
Definition write (s : list Z) : list Z :=
  match s with [] => [128] | _ => 129 :: Z.of_nat (length s) :: s end.
Definition wrap (c : list Z) : list Z := 192 :: Z.of_nat (length c) :: c.

Definition env : HashEnv := {|
  rlp_WriteBytes := write;
  rlp_List := wrap;
  keccak256 := fun b => Z.pos (countable.encode b) :: replicate 31 0;
|}.

Definition split (buf : list Z) : res string (rlp_kind * list Z * list Z) :=
  match buf with
  | 128 :: r => Ok (KString, [], r)
  | 129 :: n :: r => Ok (KString, take (Z.to_nat n) r, drop (Z.to_nat n) r)
  | 192 :: n :: r => Ok (KList, take (Z.to_nat n) r, drop (Z.to_nat n) r)
  | _ => Err "rlp"
  end.

Fixpoint count_values (fuel : nat) (buf : list Z) : Z :=
  match fuel, buf with
  | S fuel, _ :: _ => match split buf with Ok (_, _, r) => 1 + count_values fuel r | Err _ => 0 end
  | _, _ => 0
  end.

Definition rlp : RLP := {|
  rlp_SplitList := fun b => match split b with Ok (KList, c, r) => Ok (c, r) | _ => Err "rlp" end;
  rlp_SplitString := fun b => match split b with Ok (KString, c, r) => Ok (c, r) | _ => Err "rlp" end;
  rlp_Split := split;
  rlp_CountValues := fun b => count_values (length b) b;
|}.

Definition eth : EthCommon :=
  {| BytesToHash := fun h => h; EmptyRootHash := @keccak256 env [128] |}.

Lemma split_write s r : split (write s ++ r) = Ok (KString, s, r).
Proof.
  destruct s as [|x s]; [done|]. simpl write.
  change (Ok (KString, take (Z.to_nat (Z.of_nat (length (x :: s)))) ((x :: s) ++ r),
                       drop (Z.to_nat (Z.of_nat (length (x :: s)))) ((x :: s) ++ r)) = Ok (E := string) (KString, x :: s, r)).
  by rewrite Nat2Z.id, take_app_length, drop_app_length.
Qed.

Lemma split_wrap c r : split (wrap c ++ r) = Ok (KList, c, r).
Proof.
  change (Ok (KList, take (Z.to_nat (Z.of_nat (length c))) (c ++ r),
                     drop (Z.to_nat (Z.of_nat (length c))) (c ++ r)) = Ok (E := string) (KList, c, r)).
  by rewrite Nat2Z.id, take_app_length, drop_app_length.
Qed.

Lemma split_item e r : @rlp_item env e -> e <> [] /\ exists k c, split (e ++ r) = Ok (k, c, r).
Proof.
  intros [[s ->]|[c ->]].
  - split; [by destruct s|]. eexists _, _. apply split_write.
  - split; [done|]. eexists _, _. apply split_wrap.
Qed.

Lemma count_items es : Forall (@rlp_item env) es -> forall fuel, (length (concat es) <= fuel)%nat ->
  count_values fuel (concat es) = Z.of_nat (length es).
Proof.
  induction 1 as [|e es He Hes IH]; intros fuel Hf; [by destruct fuel|].
  destruct (split_item e (concat es) He) as (Hne & k & c & E). simpl concat in *.
  rewrite length_app in Hf. destruct e as [|x e]; [done|]. destruct fuel as [|fuel]; [simpl in Hf; lia|].
  cbn [count_values app]. cbn [app] in E. rewrite E, IH; [cbn [length]; lia|]. simpl in Hf. lia.
Qed.

Lemma rlp_laws : @RLPLaws rlp env.
Proof.
  split; cbn [rlp_SplitList rlp_SplitString rlp_Split rlp_CountValues rlp_WriteBytes rlp_List rlp env].
  - intros c r. by rewrite split_wrap.
  - intros s r. by rewrite split_write.
  - apply split_wrap.
  - intros s r _. apply split_write.
  - intros es Hes. by apply count_items.
  - intros c. simpl. lia.
Qed.

Lemma hash_laws : @HashLaws env eth.
Proof. split; try done. Qed.

Lemma keccak_inj a b : @keccak256 env a = @keccak256 env b -> a = b.
Proof. cbn [keccak256 env]. intros [= E]. by apply (inj countable.encode) in E. Qed.
End RLPSample.

(** ** Commit, then open *)

(** What is available once a commit's node set has been stored. *)
Definition committed `{HashEnv} (D : list Z -> list Z -> Prop) (ons : option NodeSet) (h b : list Z) : Prop :=
  D h b \/ exists s, ons = Some s /\ ns_holds s [] h b.

Section reopen.
Context `{RLPLaws} `{EthCommon} `{!HashLaws}.

(** C23. Committing and opening again loses nothing: [Commit] succeeds on a trie
    that stores [m], and [New] on the root it returns, over any reader that serves
    the old blobs and the collected node set, yields a trie that stores [m]. *)
Theorem Commit_New_roundtrip (D : list Z -> list Z -> Prop) (t : Trie)
  (m : gmap (list Z) (list Z)) (collectLeaf : bool) :
  @trie_rep _ _ (hash_flags (clean_stored D)) t m ->
  exists h ons t', Commit t collectLeaf = Ret (h, ons, t') /\
    forall GetReader r, proper_root h m -> GetReader h = Some r -> serves r (committed D ons) ->
    exists t2, New (TrieID h) GetReader = Ret (Ok t2) /\
      @trie_rep _ _ (hash_flags (clean_stored (solid (committed D ons)))) t2 m.
Proof.
  intros (pt & He & Hh). destruct (Commit_spec D t m pt collectLeaf He Hh) as (ons & t' & E & [Hs _]).
  exists (root_hash pt), ons, t'. split; [done|]. intros GetReader r Hp Hg Hr.
  destruct (New_spec (committed D ons) (root_hash pt) m pt GetReader r) as (t2 & E2 & _ & Ht2); try done.
  by exists t2.
Qed.
End reopen.

Lemma Commit_New_roundtrip_witness :
  @trie_rep RLPSample.rlp RLPSample.eth
    (@hash_flags RLPSample.env (@clean_stored RLPSample.env (fun _ _ => False))) Sample.tree Sample.stored /\
  exists h s t', @Commit RLPSample.env RLPSample.eth Sample.tree false = Ret (h, Some s, t') /\
    exists r t2, @New RLPSample.rlp RLPSample.eth (TrieID h) (fun _ => Some r) = Ret (Ok t2) /\
      @trie_rep RLPSample.rlp RLPSample.eth
        (@hash_flags RLPSample.env (@clean_stored RLPSample.env
           (solid (@committed RLPSample.env (fun _ _ => False) (Some s))))) t2 Sample.stored.
Proof.
  assert (@trie_rep RLPSample.rlp RLPSample.eth
    (@hash_flags RLPSample.env (@clean_stored RLPSample.env (fun _ _ => False))) Sample.tree Sample.stored) as Hrep.
  { exists (PShort (keybytesToHex Sample.key) (PVal Sample.val)). split.
    - apply ex_short; [apply flag_ok_new|done|constructor].
    - apply (pt_holds_insert PNil ∅ Sample.key Sample.val); [apply pt_holds_empty|apply Sample.key_bytes|done]. }
  split; [exact Hrep|].
  destruct (@Commit_New_roundtrip RLPSample.rlp RLPSample.env RLPSample.rlp_laws RLPSample.eth
              RLPSample.hash_laws (fun _ _ => False) Sample.tree Sample.stored false Hrep)
    as (h & ons & t' & E & Hnew).
  assert (exists s0, ons = Some s0 /\ h <> @EmptyRootHash RLPSample.eth /\
    map_to_list (nodes s0) = [([], mkMem h (mn_size (from_option id (mkMem [] 0 NilNode) (nodes s0 !! []))) 
        (mn_node (from_option id (mkMem [] 0 NilNode) (nodes s0 !! []))))])
    as (s & -> & He & Hl).
  { revert E. vm_compute. intros [= <- <- _]. eexists. split; [done|]. split; [done|]. done. }
  exists h, s, t'. split; [exact E|].
  exists (mkReader (fun _ _ _ => Ok (@encode RLPSample.env (mn_node (from_option id (mkMem [] 0 NilNode) (nodes s !! [])))))).
  eapply Hnew; [by intros ?|done|].
  intros o p hh b [[]|(s' & [= <-] & q & mn & _ & Hq & <- & <-)] _ _ _. cbn [NodeBlob].
  apply elem_of_map_to_list in Hq. rewrite Hl in Hq. apply list_elem_of_singleton in Hq as [= -> Em].
  rewrite Em. done.
Defined.
