(* ===== verification/Database.v ===== *)
(** * The trie database ([trie/database.go], [trie/preimages.go], [trie/nodeset.go])

    The write layer between tries and the disk: dirty nodes by hash with their
    reference counts, threaded on a doubly linked flush list by hash, a clean
    cache, and the disk store behind batches.  Every state-changing operation is
    modelled: [insert], [Update], [reference], [dereference], [Cap], [Commit]
    with its recursive write-out and the batch replay that uncaches.  The key
    value store, the clean cache and the account decoder of go-ethereum are class
    parameters. *)

From stdpp Require Import base gmap strings list sorting.
From Stdlib Require Import ZArith Lia.
From S2P Require Import Prelude Encoding TrieSpec Node Trie TrieMap Hasher Committer Reload.

Local Open Scope Z_scope.

(** ** Libraries below the database *)

Definition batch := list (list Z * list Z).

(** [ethdb.Database]: point reads and atomic batch writes, which may fail;
    [rawdb]'s key of a preimage. *)
Class EthDB := {
  disk : Type;
  disk_Get : disk -> list Z -> option (list Z);
  disk_Write : disk -> batch -> res string disk;
  ValueSize : batch -> Z;
  IdealBatchSize : Z;
  preimageKey : list Z -> list Z;
}.

(** What a batch leaves under a key: its last write. *)
Fixpoint batch_get (ops : batch) (k : list Z) : option (list Z) :=
  match ops with
  | [] => None
  | (k', v) :: ops =>
      match batch_get ops k with
      | Some w => Some w
      | None => if bool_decide (k' = k) then Some v else None
      end
  end.

(** A written batch is read back over what was there; preimages do not live
    under hash-sized keys. *)
Class EthDBLaws `{EthDB} : Prop := {
  disk_Write_Get : forall d ops d', disk_Write d ops = Ok d' ->
    forall k, disk_Get d' k = match batch_get ops k with Some v => Some v | None => disk_Get d k end;
  preimageKey_length : forall h, length (preimageKey h) <> 32%nat;
}.

(** [fastcache]: lookups may miss what was set. *)
Class FastCache := {
  Cache : Type;
  cache_New : Z -> Cache;
  cache_LoadFromFileOrNew : string -> Z -> Cache;
  cache_Get : Cache -> list Z -> option (list Z);
  cache_Set : Cache -> list Z -> list Z -> Cache;
}.

(** The storage root of an RLP-encoded [types.StateAccount]. *)
Class StateAccountRLP := { DecodeAccountRoot : list Z -> res string (list Z) }.

(** ** State *)

Record cachedNode := mkCached {
  cn_node : node;
  cn_size : Z;
  parents : Z;
  children : option (gmap (list Z) Z);
  flushPrev : list Z;
  flushNext : list Z;
}.

Definition set_parents (e : cachedNode) (p : Z) : cachedNode :=
  mkCached (cn_node e) (cn_size e) p (children e) (flushPrev e) (flushNext e).
Definition set_children (e : cachedNode) (c : option (gmap (list Z) Z)) : cachedNode :=
  mkCached (cn_node e) (cn_size e) (parents e) c (flushPrev e) (flushNext e).
Definition set_flushPrev (e : cachedNode) (h : list Z) : cachedNode :=
  mkCached (cn_node e) (cn_size e) (parents e) (children e) h (flushNext e).
Definition set_flushNext (e : cachedNode) (h : list Z) : cachedNode :=
  mkCached (cn_node e) (cn_size e) (parents e) (children e) (flushPrev e) h.

Definition cachedNodeSize : Z := 96.
Definition cachedNodeChildrenSize : Z := 48.
Definition HashLength : Z := 32.

Record preimageStore := mkPreimages {
  preimages : gmap (list Z) (list Z);
  preimagesSize : Z;
}.

(** The sizes are [common.StorageSize], a float; every summand is an integer,
    and sums stay exact below [2 ^ 53].  The timers and meters are left out. *)
Record Database `{EthDB} `{FastCache} := mkDB {
  diskdb : disk;
  cleans : option Cache;
  dirties : gmap (list Z) cachedNode;
  oldest : list Z;
  newest : list Z;
  gcnodes : Z;
  gcsize : Z;
  flushnodes : Z;
  flushsize : Z;
  dirtiesSize : Z;
  childrenSize : Z;
  db_preimages : option preimageStore;
}.

(** [fold] over actions that may panic. *)
Fixpoint ofold {A B} (f : A -> B -> outcome A) (a : A) (l : list B) : outcome A :=
  match l with [] => Ret a | x :: l => a' ← f a x; ofold f a' l end.

Section database.
Context `{EthDB} `{FastCache} `{HashEnv} `{EthCommon} `{RLP} `{StateAccountRLP}.

Definition set_diskdb (db : Database) (d : disk) : Database :=
  mkDB _ _ d (cleans db) (dirties db) (oldest db) (newest db) (gcnodes db) (gcsize db) (flushnodes db)
    (flushsize db) (dirtiesSize db) (childrenSize db) (db_preimages db).
Definition set_cleans (db : Database) (c : option Cache) : Database :=
  mkDB _ _ (diskdb db) c (dirties db) (oldest db) (newest db) (gcnodes db) (gcsize db) (flushnodes db)
    (flushsize db) (dirtiesSize db) (childrenSize db) (db_preimages db).
Definition set_dirties (db : Database) (d : gmap (list Z) cachedNode) : Database :=
  mkDB _ _ (diskdb db) (cleans db) d (oldest db) (newest db) (gcnodes db) (gcsize db) (flushnodes db)
    (flushsize db) (dirtiesSize db) (childrenSize db) (db_preimages db).
Definition set_ends (db : Database) (o n : list Z) : Database :=
  mkDB _ _ (diskdb db) (cleans db) (dirties db) o n (gcnodes db) (gcsize db) (flushnodes db)
    (flushsize db) (dirtiesSize db) (childrenSize db) (db_preimages db).
Definition set_sizes (db : Database) (ds cs : Z) : Database :=
  mkDB _ _ (diskdb db) (cleans db) (dirties db) (oldest db) (newest db) (gcnodes db) (gcsize db)
    (flushnodes db) (flushsize db) ds cs (db_preimages db).
Definition set_stats (db : Database) (gn gs fn fs : Z) : Database :=
  mkDB _ _ (diskdb db) (cleans db) (dirties db) (oldest db) (newest db) gn gs fn fs (dirtiesSize db)
    (childrenSize db) (db_preimages db).
Definition set_preimages (db : Database) (p : option preimageStore) : Database :=
  mkDB _ _ (diskdb db) (cleans db) (dirties db) (oldest db) (newest db) (gcnodes db) (gcsize db)
    (flushnodes db) (flushsize db) (dirtiesSize db) (childrenSize db) p.

(** Writing a field of [db.dirties[h]]: a nil pointer panics. *)
Definition upd (db : Database) (h : list Z) (f : cachedNode -> cachedNode) : outcome Database :=
  match dirties db !! h with
  | None => Panic
  | Some e => Ret (set_dirties db (<[h := f e]> (dirties db)))
  end.

(** ** Cached nodes *)

(** The nodes of this program are never [rawNode]s. *)
Definition cn_rlp (n : cachedNode) : list Z := nodeToBytes (cn_node n).

Definition expand_list (expand : node -> outcome node) : list node -> outcome (list node) :=
  fix go (cs : list node) : outcome (list node) :=
    match cs with
    | [] => Ret []
    | c :: cs =>
        c' ← (match c with NilNode => Ret NilNode | _ => expand c end);
        cs' ← go cs; Ret (c' :: cs')
    end.

Fixpoint expandNode (hash : option (list Z)) (n : node) {struct n} : outcome node :=
  match n with
  | ShortNode k v _ =>
      key ← compactToHex k;
      v' ← expandNode None v;
      Ret (ShortNode key v' (mkFlag hash false))
  | FullNode cs _ => cs' ← expand_list (expandNode None) cs; Ret (FullNode cs' (mkFlag hash false))
  | ValueNode _ | HashNode _ => Ret n
  | NilNode => Panic
  end.

Definition obj (n : cachedNode) (hash : list Z) : outcome node := expandNode (Some hash) (cn_node n).

(** The children on which [forChilds] calls back: the external ones, in the
    order of the map, then those inside the node. *)
Definition forChilds (n : cachedNode) : list (list Z) :=
  match children n with Some c => (map_to_list c).*1 | None => [] end ++ forGatherChildren (cn_node n).

(** ** Construction *)

Record Config := mkConfig { cfg_Cache : Z; Journal : string; Preimages : bool }.

Definition NewDatabaseWithConfig (d : disk) (config : option Config) : Database :=
  let cl := match config with
            | Some c => if 0 <? cfg_Cache c then
                          Some (if bool_decide (Journal c = "") then cache_New (cfg_Cache c * 1024 * 1024)
                                else cache_LoadFromFileOrNew (Journal c) (cfg_Cache c * 1024 * 1024))
                        else None
            | None => None
            end in
  let pre := match config with
             | Some c => if Preimages c then Some (mkPreimages ∅ 0) else None
             | None => None
             end in
  mkDB _ _ d cl {[ zero_hash := mkCached NilNode 0 0 (Some ∅) zero_hash zero_hash ]}
    zero_hash zero_hash 0 0 0 0 0 0 pre.

Definition NewDatabase (d : disk) : Database := NewDatabaseWithConfig d None.

(** ** Insertion *)

(** [HashLength + entry.size] is computed at the width of [entry.size]. *)
Definition db_insert (db : Database) (hash : list Z) (size : Z) (n : node) : outcome Database :=
  match dirties db !! hash with
  | Some _ => Ret db
  | None =>
      let entry := mkCached n (u16 size) 0 None (newest db) zero_hash in
      let d1 := foldl (fun d child => match d !! child with
                                      | Some c => <[child := set_parents c (wrap_u 32 (parents c + 1))]> d
                                      | None => d
                                      end) (dirties db) (forChilds entry) in
      let db1 := set_dirties db (<[hash := entry]> d1) in
      db2 ← (if bool_decide (oldest db1 = zero_hash) then Ret (set_ends db1 hash hash)
             else db' ← upd db1 (newest db1) (fun e => set_flushNext e hash);
                  Ret (set_ends db' (oldest db') hash));
      Ret (set_sizes db2 (dirtiesSize db2 + u16 (HashLength + cn_size entry)) (childrenSize db2))
  end.

(** ** Reading *)

(** [db.node]: the expanded node or nil, from the clean cache, the dirty nodes
    or the disk. *)
Definition db_node (db : Database) (hash : list Z) : outcome (node * Database) :=
  match cleans db ≫= (fun c => cache_Get c hash) with
  | Some enc => n ← mustDecodeNode hash enc; Ret (n, db)
  | None =>
      match dirties db !! hash with
      | Some dirty => n ← obj dirty hash; Ret (n, db)
      | None =>
          match disk_Get (diskdb db) hash with
          | None => Ret (NilNode, db)
          | Some enc =>
              n ← mustDecodeNode hash enc;
              Ret (n, match cleans db with Some c => set_cleans db (Some (cache_Set c hash enc)) | None => db end)
          end
      end
  end.

Definition Node (db : Database) (hash : list Z) : res string (list Z) * Database :=
  if bool_decide (hash = zero_hash) then (Err "not found", db)
  else
    match cleans db ≫= (fun c => cache_Get c hash) with
    | Some enc => (Ok enc, db)
    | None =>
        match dirties db !! hash with
        | Some dirty => (Ok (cn_rlp dirty), db)
        | None =>
            let enc := default [] (disk_Get (diskdb db) hash) in
            if negb (length enc =? 0)%nat then
              (Ok enc, match cleans db with Some c => set_cleans db (Some (cache_Set c hash enc)) | None => db end)
            else (Err "not found", db)
        end
    end.

Definition Nodes (db : Database) : gset (list Z) := dom (dirties db) ∖ {[ zero_hash ]}.

(** A reader on the database as it is: no error, an empty blob for a missing
    node. *)
Definition GetReader (db : Database) (root : list Z) : option Reader :=
  Some (mkReader (fun _ _ hash => Ok (match (Node db hash).1 with Ok b => b | Err _ => [] end))).

(** ** References *)

Definition reference_ (db : Database) (child parent : list Z) : outcome Database :=
  match dirties db !! child with
  | None => Ret db
  | Some node =>
      match dirties db !! parent with
      | None => Panic
      | Some pn =>
          let link (db : Database) (ch : gmap (list Z) Z) : outcome Database :=
            let cnt := u16 (default 0 (ch !! child) + 1) in
            db1 ← upd db child (fun e => set_parents e (wrap_u 32 (parents e + 1)));
            db2 ← upd db1 parent (fun e => set_children e (Some (<[child := cnt]> ch)));
            Ret (if cnt =? 1 then set_sizes db2 (dirtiesSize db2) (childrenSize db2 + (HashLength + 2)) else db2) in
          match children pn with
          | None => link (set_sizes db (dirtiesSize db) (childrenSize db + cachedNodeChildrenSize)) ∅
          | Some ch =>
              if bool_decide (is_Some (ch !! child)) && bool_decide (parent <> zero_hash) then Ret db
              else link db ch
          end
      end
  end.

Definition Reference (db : Database) (child parent : list Z) : outcome Database := reference_ db child parent.

(** Taking a node out of the flush list. *)
Definition unlink (db : Database) (h : list Z) (e : cachedNode) : outcome Database :=
  if bool_decide (h = oldest db) then
    upd (set_ends db (flushNext e) (newest db)) (flushNext e) (fun e' => set_flushPrev e' zero_hash)
  else if bool_decide (h = newest db) then
    upd (set_ends db (oldest db) (flushPrev e)) (flushPrev e) (fun e' => set_flushNext e' zero_hash)
  else
    db1 ← upd db (flushPrev e) (fun e' => set_flushNext e' (flushNext e));
    upd db1 (flushNext e) (fun e' => set_flushPrev e' (flushPrev e)).

Fixpoint dereference_ (fuel : nat) (db : Database) (child parent : list Z) : outcome Database :=
  match fuel with
  | O => Panic
  | S fuel =>
      pn ← of_option (dirties db !! parent);
      db1 ← (match children pn ≫= (fun ch => c ← ch !! child; Some (ch, c)) with
             | Some (ch, c) =>
                 if 0 <? c then
                   db' ← upd db parent (fun e => set_children e
                           (Some (if c - 1 =? 0 then base.delete child ch else <[child := c - 1]> ch)));
                   Ret (if c - 1 =? 0 then set_sizes db' (dirtiesSize db') (childrenSize db' - (HashLength + 2)) else db')
                 else Ret db
             | None => Ret db
             end);
      match dirties db1 !! child with
      | None => Ret db1
      | Some nd =>
          let nd' := if 0 <? parents nd then set_parents nd (parents nd - 1) else nd in
          db2 ← upd db1 child (fun _ => nd');
          if parents nd' =? 0 then
            db3 ← unlink db2 child nd';
            db4 ← ofold (fun db h => dereference_ fuel db h child) db3 (forChilds nd');
            let db5 := set_dirties db4 (base.delete child (dirties db4)) in
            Ret (set_sizes db5 (dirtiesSize db5 - (HashLength + cn_size nd'))
                   (match children nd' with
                    | Some _ => childrenSize db5 - cachedNodeChildrenSize
                    | None => childrenSize db5
                    end))
          else Ret db2
      end
  end.

Definition ndirties (db : Database) : Z := Z.of_nat (size (dirties db)).

Definition Dereference (db : Database) (root : list Z) : outcome Database :=
  if bool_decide (root = zero_hash) then Ret db
  else
    db' ← dereference_ (S (size (dirties db))) db root zero_hash;
    Ret (set_stats db' (u64 (gcnodes db' + (ndirties db - ndirties db')))
           (gcsize db' + (dirtiesSize db - dirtiesSize db')) (flushnodes db') (flushsize db')).

(** ** Preimages *)

Definition insertPreimage (st : preimageStore) (ps : list (list Z * list Z)) : preimageStore :=
  foldl (fun st hp => match preimages st !! hp.1 with
                      | Some _ => st
                      | None => mkPreimages (<[hp.1 := hp.2]> (preimages st))
                                  (preimagesSize st + (HashLength + Z.of_nat (length hp.2)))
                      end) st ps.

Definition preimage (db : Database) (st : preimageStore) (hash : list Z) : option (list Z) :=
  match preimages st !! hash with
  | Some p => Some p
  | None => disk_Get (diskdb db) (preimageKey hash)
  end.

Definition preimage_commit (db : Database) (st : preimageStore) (force : bool) : option string * Database :=
  if (preimagesSize st <=? 4 * 1024 * 1024) && negb force then (None, db)
  else
    match disk_Write (diskdb db) (map (fun hp => (preimageKey hp.1, hp.2)) (map_to_list (preimages st))) with
    | Err e => (Some e, db)
    | Ok d => (None, set_preimages (set_diskdb db d) (Some (mkPreimages ∅ 0)))
    end.

Definition CommitPreimages (db : Database) : option string * Database :=
  match db_preimages db with
  | None => (None, db)
  | Some st => preimage_commit db st true
  end.

(** ** Writing out *)

(** [cleaner.Put]: a written node leaves the dirty nodes. *)
Definition cleaner_Put (db : Database) (kv : list Z * list Z) : outcome Database :=
  let hash := BytesToHash kv.1 in
  match dirties db !! hash with
  | None => Ret db
  | Some e =>
      db1 ← unlink db hash e;
      let db2 := set_dirties db1 (base.delete hash (dirties db1)) in
      let db3 := set_sizes db2 (dirtiesSize db2 - (HashLength + cn_size e))
                   (match children e with
                    | Some ch => childrenSize db2 - (cachedNodeChildrenSize + Z.of_nat (size ch) * (HashLength + 2))
                    | None => childrenSize db2
                    end) in
      Ret (match cleans db3 with
           | Some c => set_cleans db3 (Some (cache_Set c hash kv.2))
           | None => db3
           end)
  end.

(** [batch.Write] and then [batch.Replay] of the cleaner. *)
Definition flush (db : Database) (b : batch) : outcome (option string * Database) :=
  match disk_Write (diskdb db) b with
  | Err e => Ret (Some e, db)
  | Ok d => db' ← ofold cleaner_Put (set_diskdb db d) b; Ret (None, db')
  end.

(** [db.commit]: the error, the database and the pending batch. *)
Definition commit_state : Type := option string * Database * batch.

Fixpoint db_commit (fuel : nat) (db : Database) (hash : list Z) (b : batch) : outcome commit_state :=
  match fuel with
  | O => Panic
  | S fuel =>
      match dirties db !! hash with
      | None => Ret (None, db, b)
      | Some nd =>
          '(err, db1, b1) ← ofold (fun (st : commit_state) child =>
              match st.1.1 with
              | None => db_commit fuel st.1.2 child st.2
              | Some _ => Ret st
              end) (None, db, b) (forChilds nd);
          match err with
          | Some e => Ret (Some e, db1, b1)
          | None =>
              let b2 := b1 ++ [(hash, cn_rlp nd)] in
              if IdealBatchSize <=? ValueSize b2 then
                '(err, db2) ← flush db1 b2;
                Ret (err, db2, match err with None => [] | Some _ => b2 end)
              else Ret (None, db1, b2)
          end
      end
  end.

Definition db_Commit (db : Database) (node : list Z) (report : bool) : outcome (option string * Database) :=
  let '(err, db0) := match db_preimages db with
                     | Some st => preimage_commit db st true
                     | None => (None, db)
                     end in
  match err with
  | Some e => Ret (Some e, db0)
  | None =>
      '(err, db1, b) ← db_commit (S (size (dirties db0))) db0 node [];
      match err with
      | Some e => Ret (Some e, db1)
      | None =>
          '(err, db2) ← flush db1 b;
          match err with
          | Some e => Ret (Some e, db2)
          | None => Ret (None, set_stats db2 0 0 0 0)
          end
      end
  end.

(** The first loop of [Cap]: the batch grows along the flush list until the
    size is below the limit; full batches are written at once. *)
Fixpoint cap_loop (fuel : nat) (db : Database) (limit size_ : Z) (old : list Z) (b : batch)
  : outcome (option string * Database * (list Z * batch)) :=
  match fuel with
  | O => Panic
  | S fuel =>
      if (limit <? size_) && bool_decide (old <> zero_hash) then
        nd ← of_option (dirties db !! old);
        let b := b ++ [(old, cn_rlp nd)] in
        let '(err, db, b) :=
          if IdealBatchSize <=? ValueSize b then
            match disk_Write (diskdb db) b with
            | Err e => (Some e, db, b)
            | Ok d => (None, set_diskdb db d, [])
            end
          else (None, db, b) in
        match err with
        | Some e => Ret (Some e, db, (old, b))
        | None =>
            let size_ := size_ - (HashLength + cn_size nd + cachedNodeSize) in
            let size_ := match children nd with
                         | Some ch => size_ - (cachedNodeChildrenSize + Z.of_nat (size ch) * (HashLength + 2))
                         | None => size_
                         end in
            cap_loop fuel db limit size_ (flushNext nd) b
        end
      else Ret (None, db, (old, b))
  end.

(** The second loop of [Cap]: dropping what was flushed. *)
Fixpoint cap_drop (fuel : nat) (db : Database) (old : list Z) : outcome Database :=
  match fuel with
  | O => Panic
  | S fuel =>
      if bool_decide (oldest db = old) then Ret db
      else
        nd ← of_option (dirties db !! oldest db);
        let db1 := set_dirties db (base.delete (oldest db) (dirties db)) in
        let db2 := set_ends db1 (flushNext nd) (newest db1) in
        cap_drop fuel
          (set_sizes db2 (dirtiesSize db2 - (HashLength + cn_size nd))
             (match children nd with
              | Some ch => childrenSize db2 - (cachedNodeChildrenSize + Z.of_nat (size ch) * (HashLength + 2))
              | None => childrenSize db2
              end)) old
  end.

Definition meta_refs (db : Database) : outcome Z :=
  meta ← of_option (dirties db !! zero_hash);
  Ret (Z.of_nat (size (default ∅ (children meta))) * (HashLength + 2)).

Definition Cap (db : Database) (limit : Z) : outcome (option string * Database) :=
  refs ← meta_refs db;
  let size_ := dirtiesSize db + (ndirties db - 1) * cachedNodeSize + (childrenSize db - refs) in
  let '(err, db0) := match db_preimages db with
                     | Some st => preimage_commit db st false
                     | None => (None, db)
                     end in
  match err with
  | Some e => Ret (Some e, db0)
  | None =>
      '(err, db1, (old, b)) ← cap_loop (S (size (dirties db0))) db0 limit size_ (oldest db0) [];
      match err with
      | Some e => Ret (Some e, db1)
      | None =>
          match disk_Write (diskdb db1) b with
          | Err e => Ret (Some e, db1)
          | Ok d =>
              db2 ← cap_drop (S (size (dirties db1))) (set_diskdb db1 d) old;
              db3 ← (if bool_decide (oldest db2 <> zero_hash) then
                       upd db2 (oldest db2) (fun e => set_flushPrev e zero_hash)
                     else Ret db2);
              Ret (None, set_stats db3 (gcnodes db3) (gcsize db3)
                           (u64 (flushnodes db3 + (ndirties db - ndirties db3)))
                           (flushsize db3 + (dirtiesSize db - dirtiesSize db3)))
          end
      end
  end.

Definition Size (db : Database) : outcome (Z * Z) :=
  refs ← meta_refs db;
  Ret (dirtiesSize db + childrenSize db + (ndirties db - 1) * cachedNodeSize - refs,
       match db_preimages db with Some st => preimagesSize st | None => 0 end).

(** ** Taking in a commit *)

(** Go's order on strings, bytewise. *)
Fixpoint path_leb (a b : list Z) : bool :=
  match a, b with
  | [], _ => true
  | _ :: _, [] => false
  | x :: a, y :: b => if x =? y then path_leb a b else x <? y
  end.

Definition path_le (a b : list Z) : Prop := path_leb a b = true.
#[local] Instance path_le_dec a b : Decision (path_le a b) := decide (path_leb a b = true).

(** Bottom-up, from right to left: the paths in reverse order. *)
Definition forEachWithOrder (s : NodeSet) : list memoryNode :=
  omap (fun p => nodes s !! p) (reverse (merge_sort path_le (map_to_list (nodes s)).*1)).

(** One set: deletions are ignored. *)
Definition insert_set (db : Database) (s : NodeSet) : outcome Database :=
  ofold (fun db n => if isDeleted n then Ret db else db_insert db (mn_hash n) (mn_size n) (mn_node n))
    db (forEachWithOrder s).

(** The leaves link the account trie to storage tries. *)
Fixpoint link_leaves (db : Database) (ls : list leaf) : outcome (option string * Database) :=
  match ls with
  | [] => Ret (None, db)
  | l :: ls =>
      match DecodeAccountRoot (blob l) with
      | Err e => Ret (Some e, db)
      | Ok r =>
          db' ← (if bool_decide (r <> EmptyRootHash) then reference_ db r (parent l) else Ret db);
          link_leaves db' ls
      end
  end.

(** [range_order] is the order in which the sets are visited; the account trie,
    whose owner is the zero hash, goes last. *)
Definition Update (db : Database) (sets : MergedNodeSet) (range_order : list (list Z))
  : outcome (option string * Database) :=
  let order := filter (fun o => o <> zero_hash) range_order ++
               (if bool_decide (is_Some (sets !! zero_hash)) then [zero_hash] else []) in
  db1 ← ofold (fun db o => match sets !! o with Some s => insert_set db s | None => Ret db end) db order;
  match sets !! zero_hash with
  | Some s => link_leaves db1 (leaves s)
  | None => Ret (None, db1)
  end.
End database.

(** ** The flush list *)

(** The list [L] threaded by [nx] and [pv]; the first node's [pv] is not used. *)
Fixpoint chain (nx pv : list Z -> list Z) (L : list (list Z)) : Prop :=
  match L with
  | [] => True
  | a :: l => match l with [] => nx a = zero_hash | b :: _ => nx a = b /\ pv b = a end /\ chain nx pv l
  end.

Lemma chain_ext nx pv nx' pv' L :
  (forall x, x ∈ L -> nx' x = nx x) -> (forall x, x ∈ tail L -> pv' x = pv x) ->
  chain nx pv L -> chain nx' pv' L.
Proof.
  induction L as [|a [|b l] IH]; intros Hn Hp Hc; [done|..].
  - destruct Hc as [Ha _]. split; [|done]. rewrite Hn; [done|set_solver].
  - destruct Hc as [[Hna Hpb] Hc]. split.
    + rewrite Hn, Hp by set_solver. done.
    + apply IH; [| |done]; intros x Hx; [apply Hn|apply Hp]; set_solver.
Qed.

Lemma chain_next nx pv l1 h l2 : chain nx pv (l1 ++ h :: l2) -> nx h = default zero_hash (head l2).
Proof.
  induction l1 as [|a l1 IH]; intros Hc; [destruct l2; simpl in *; naive_solver|].
  apply IH. by destruct Hc.
Qed.

Lemma chain_prev nx pv l1 z h l2 : chain nx pv (l1 ++ z :: h :: l2) -> pv h = z.
Proof. induction l1 as [|a l1 IH]; intros Hc; [simpl in *; naive_solver|]. apply IH. by destruct Hc. Qed.

Lemma chain_snoc nx pv nx' pv' L h :
  chain nx pv L -> h ∉ L ->
  (forall x, x ∈ L -> last L <> Some x -> nx' x = nx x) -> (forall x, x ∈ L -> pv' x = pv x) ->
  nx' h = zero_hash -> (forall z, last L = Some z -> nx' z = h /\ pv' h = z) -> NoDup L ->
  chain nx' pv' (L ++ [h]).
Proof.
  intros Hc Hni Hn Hp Hh Hz. revert Hc Hni Hn Hp Hz.
  induction L as [|a l IH]; intros Hc Hni Hn Hp Hz Hnd; [done|].
  inversion Hnd as [|? ? Hni' Hnd']; subst. destruct l as [|b l].
  - destruct (Hz a eq_refl) as [? ?]. simpl. done.
  - destruct Hc as [[Hna Hpb] Hc]. split.
    + simpl. rewrite Hn, Hp; [done|set_solver|set_solver|].
      intros E. change (last (b :: l) = Some a) in E. apply last_Some_elem_of in E. done.
    + apply (IH Hc); [set_solver| | |done|done].
      * intros x Hx Hl. apply Hn; [set_solver|done].
      * intros x Hx. apply Hp. set_solver.
Qed.

Lemma chain_remove nx pv nx' pv' l1 h l2 :
  chain nx pv (l1 ++ h :: l2) -> NoDup (l1 ++ h :: l2) ->
  (forall x, x ∈ l1 ++ l2 -> last l1 <> Some x -> nx' x = nx x) ->
  (forall z, last l1 = Some z -> nx' z = nx h) ->
  (forall x, x ∈ l1 ++ l2 -> head l2 <> Some x -> pv' x = pv x) ->
  (forall y, head l2 = Some y -> l1 <> [] -> pv' y = pv h) ->
  chain nx' pv' (l1 ++ l2).
Proof.
  revert h. induction l1 as [|a l1 IH]; intros h Hc Hnd Hn Hz Hp Hy.
  - simpl in Hc. destruct Hc as [_ Hc]. apply (chain_ext nx pv); [| |done].
    + intros x Hx. by apply Hn.
    + intros x Hx. simpl in Hnd. inversion Hnd as [|? ? _ Hnd']; subst. apply Hp; [simpl; destruct l2; set_solver|].
      destruct l2 as [|y l2]; [set_solver|]. simpl in Hx |- *. inversion Hnd'; subst. intros [= ->]. done.
  - destruct Hc as [Ha Hc]. simpl in Hnd. inversion Hnd as [|? ? Hni Hnd']; subst.
    destruct l1 as [|b l1].
    + simpl in Ha, Hc |- *. destruct Ha as [Hna Hph]. destruct l2 as [|y l2].
      * split; [|done]. rewrite (Hz a eq_refl). by destruct Hc.
      * destruct Hc as [[Hnh Hpy] Hc]. split.
        -- rewrite (Hz a eq_refl). split; [done|]. rewrite (Hy y eq_refl) by done. done.
        -- apply (chain_ext nx pv); [| |done].
           ++ intros x Hx. apply Hn; [set_solver|]. intros [= ->]. set_solver.
           ++ intros x Hx. apply Hp; [simpl in *; set_solver|]. simpl in Hx. intros [= ->].
              inversion Hnd' as [|? ? _ Hnd'']; subst. inversion Hnd''; subst. done.
    + change ((a :: b :: l1) ++ l2) with (a :: b :: (l1 ++ l2)). destruct Ha as [Hna Hpb].
      split; [split|].
      * rewrite Hn; [done|set_solver|]. intros E. change (last (b :: l1) = Some a) in E.
        apply last_Some_elem_of in E. set_solver.
      * rewrite Hp; [done|set_solver|]. intros E.
        assert (b ∈ l2) by (destruct l2; simplify_eq/=; set_solver).
        simpl in Hnd'. inversion Hnd'; subst. set_solver.
      * apply (IH h); [done|done| |done| |].
        -- intros x Hx Hl. apply Hn; [set_solver|done].
        -- intros x Hx Hl. apply Hp; [set_solver|done].
        -- intros y E _. by apply Hy.
Qed.

(** The links stored in the dirty nodes. *)
Definition nxm (m : gmap (list Z) cachedNode) (h : list Z) : list Z := from_option flushNext zero_hash (m !! h).
Definition pvm (m : gmap (list Z) cachedNode) (h : list Z) : list Z := from_option flushPrev zero_hash (m !! h).

(** What relinking leaves alone. *)
Definition core_of (e : cachedNode) : node * option (gmap (list Z) Z) := (cn_node e, children e).
Definition same_core (m m' : gmap (list Z) cachedNode) : Prop :=
  forall x, core_of <$> m' !! x = core_of <$> m !! x.

Section links.
Implicit Types (m : gmap (list Z) cachedNode) (h k x z : list Z) (e : cachedNode).

Lemma nxm_set_prev m k e z x : m !! k = Some e -> nxm (<[k := set_flushPrev e z]> m) x = nxm m x.
Proof.
  intros E. unfold nxm. destruct (decide (k = x)) as [<-|]; [by rewrite lookup_insert_eq, E|].
  by rewrite lookup_insert_ne.
Qed.
Lemma pvm_set_next m k e z x : m !! k = Some e -> pvm (<[k := set_flushNext e z]> m) x = pvm m x.
Proof.
  intros E. unfold pvm. destruct (decide (k = x)) as [<-|]; [by rewrite lookup_insert_eq, E|].
  by rewrite lookup_insert_ne.
Qed.
Lemma nxm_set_next m k e z x : nxm (<[k := set_flushNext e z]> m) x = if decide (x = k) then z else nxm m x.
Proof. unfold nxm. case_decide; [subst; by rewrite lookup_insert_eq|by rewrite lookup_insert_ne]. Qed.
Lemma pvm_set_prev m k e z x : pvm (<[k := set_flushPrev e z]> m) x = if decide (x = k) then z else pvm m x.
Proof. unfold pvm. case_decide; [subst; by rewrite lookup_insert_eq|by rewrite lookup_insert_ne]. Qed.
Lemma nxm_delete m h x : x <> h -> nxm (base.delete h m) x = nxm m x.
Proof. intros. unfold nxm. by rewrite lookup_delete_ne. Qed.
Lemma pvm_delete m h x : x <> h -> pvm (base.delete h m) x = pvm m x.
Proof. intros. unfold pvm. by rewrite lookup_delete_ne. Qed.

Lemma same_core_refl m : same_core m m.
Proof. done. Qed.
Lemma same_core_trans m1 m2 m3 : same_core m1 m2 -> same_core m2 m3 -> same_core m1 m3.
Proof. intros H1 H2 x. by rewrite H2, H1. Qed.
Lemma same_core_insert m k e e' : m !! k = Some e -> core_of e' = core_of e -> same_core m (<[k := e']> m).
Proof.
  intros E Ec x. destruct (decide (k = x)) as [<-|]; [|by rewrite lookup_insert_ne].
  rewrite lookup_insert_eq, E. simpl. by rewrite Ec.
Qed.
Lemma same_core_dom m m' x : same_core m m' -> is_Some (m' !! x) <-> is_Some (m !! x).
Proof. intros Hs. rewrite <- !(fmap_is_Some core_of). by rewrite (Hs x). Qed.
Lemma same_core_lookup m m' x e' :
  same_core m m' -> m' !! x = Some e' -> exists e, m !! x = Some e /\ core_of e = core_of e'.
Proof.
  intros Hs E. specialize (Hs x). rewrite E in Hs. destruct (m !! x) as [e|]; [|done].
  exists e. split; [done|]. simpl in Hs. congruence.
Qed.
End links.
#[export] Hint Resolve same_core_refl : core.

Section flush_list.
Context `{EthDB} `{FastCache}.
Implicit Types (db : Database).

Record list_ok db (L : list (list Z)) : Prop := {
  lo_meta : is_Some (dirties db !! zero_hash);
  lo_dom : forall h, h <> zero_hash -> is_Some (dirties db !! h) <-> h ∈ L;
  lo_nodup : NoDup (zero_hash :: L);
  lo_chain : chain (nxm (dirties db)) (pvm (dirties db)) L;
  lo_oldest : oldest db = default zero_hash (head L);
  lo_newest : forall z, last L = Some z -> newest db = z;
}.

(** The parts of the database that relinking does not touch. *)
Record relinked db db' : Prop := {
  rl_disk : diskdb db' = diskdb db;
  rl_cleans : cleans db' = cleans db;
  rl_pre : db_preimages db' = db_preimages db;
}.

Lemma list_ok_nodup db L : list_ok db L -> NoDup L /\ zero_hash ∉ L.
Proof. intros [_ _ Hnd _ _ _]. inversion Hnd; subst. done. Qed.

Lemma upd_Some db h f e :
  dirties db !! h = Some e -> upd db h f = Ret (set_dirties db (<[h := f e]> (dirties db))).
Proof. intros E. unfold upd. by rewrite E. Qed.

Lemma list_ok_in db L h : list_ok db L -> h ∈ zero_hash :: L -> exists e, dirties db !! h = Some e.
Proof.
  intros Hl [->|Hh]%elem_of_cons; [by apply Hl|]. apply Hl; [|done]. intros ->.
  by apply (list_ok_nodup db L Hl).
Qed.

(** The map after a node was taken out: its keys, and that the result is a flush
    list again once its links are. *)
Lemma removed_dom db m' l1 h l2 :
  list_ok db (l1 ++ h :: l2) -> same_core (dirties db) m' ->
  forall x, x <> zero_hash -> is_Some (base.delete h m' !! x) <-> x ∈ l1 ++ l2.
Proof.
  intros Hl Hs x Hx. rewrite lookup_delete_is_Some, (same_core_dom _ _ x Hs), (lo_dom _ _ Hl x Hx).
  destruct (list_ok_nodup _ _ Hl) as [Hnd _]. apply NoDup_app in Hnd as (_ & Hd & Hnd).
  inversion Hnd; subst. set_solver.
Qed.

Lemma removed_ok db db' l1 h l2 :
  list_ok db (l1 ++ h :: l2) -> same_core (dirties db) (dirties db') ->
  chain (nxm (base.delete h (dirties db'))) (pvm (base.delete h (dirties db'))) (l1 ++ l2) ->
  oldest db' = default zero_hash (head (l1 ++ l2)) ->
  (forall z, last (l1 ++ l2) = Some z -> newest db' = z) ->
  list_ok (set_dirties db' (base.delete h (dirties db'))) (l1 ++ l2).
Proof.
  intros Hl Hs Hc Ho Hn. pose proof (list_ok_nodup _ _ Hl) as [Hnd Hz]. split; try done.
  - cbn [dirties set_dirties]. rewrite lookup_delete_ne by set_solver.
    rewrite (same_core_dom _ _ _ Hs). apply Hl.
  - by apply (removed_dom db (dirties db') l1 h l2).
  - apply NoDup_cons. split; [set_solver|]. apply NoDup_app in Hnd as (Hn1 & Hd & Hn2).
    inversion Hn2; subst. apply NoDup_app. split; [done|]. split; [set_solver|done].
Qed.

(** What [unlink] must achieve. *)
Definition unlinked db (h : list Z) (e : cachedNode) (L : list (list Z)) : Prop :=
  exists db', unlink db h e = Ret db' /\ list_ok (set_dirties db' (base.delete h (dirties db'))) L /\
    same_core (dirties db) (dirties db') /\ relinked db db'.

Lemma unlink_first db h l2 e :
  list_ok db (h :: l2) -> dirties db !! h = Some e -> unlinked db h e l2.
Proof.
  intros Hl Eh. pose proof (list_ok_nodup _ _ Hl) as [Hnd Hz].
  pose proof (chain_next _ _ [] _ _ (lo_chain _ _ Hl)) as Enx. unfold nxm in Enx. rewrite Eh in Enx. simpl in Enx.
  unfold unlinked, unlink. rewrite (lo_oldest _ _ Hl). rewrite bool_decide_true by done.
  destruct (list_ok_in db (h :: l2) (flushNext e) Hl) as [en En].
  { rewrite Enx. destruct l2; set_solver. }
  assert (h ∉ l2) as Hni by (by inversion Hnd).
  rewrite (upd_Some _ _ _ en) by done. eexists. split; [done|].
  assert (same_core (dirties db) (<[flushNext e := set_flushPrev en zero_hash]> (dirties db))) as Hs
    by (by eapply same_core_insert).
  split; [|by split]. apply (removed_ok db _ [] h l2); [done|done| |done|].
  - apply (chain_remove (nxm (dirties db)) (pvm (dirties db)) _ _ [] h l2); [apply Hl|done|..]; [|done| |done].
    + intros x Hx _. rewrite nxm_delete by set_solver. by apply nxm_set_prev.
    + intros x Hx Hh. rewrite pvm_delete by set_solver. cbn [dirties set_dirties set_ends].
      rewrite pvm_set_prev. case_decide as Ex; [|done].
      subst x. rewrite Enx in Hx, Hh. destruct l2; simpl in *; [set_solver|done].
  - intros z Ez. apply Hl. rewrite last_cons. simpl in Ez. by rewrite Ez.
Qed.

(** A node after another one. *)
Lemma unlink_after db l z h l2 e :
  list_ok db ((l ++ [z]) ++ h :: l2) -> dirties db !! h = Some e ->
  flushPrev e = z /\ h <> oldest db /\ z <> h /\ flushNext e = default zero_hash (head l2) /\
  h ∉ (l ++ [z]) ++ l2.
Proof.
  intros Hl Eh. pose proof (list_ok_nodup _ _ Hl) as [Hnd Hz].
  assert (h ∉ (l ++ [z]) ++ l2) as Hni.
  { apply NoDup_app in Hnd as (_ & Hd & Hnd'). inversion Hnd'; subst. set_solver. }
  pose proof (chain_next _ _ _ _ _ (lo_chain _ _ Hl)) as Enx. unfold nxm in Enx. rewrite Eh in Enx.
  split; [|split; [|split; [set_solver|done]]].
  - pose proof (lo_chain _ _ Hl) as Hc. rewrite <- app_assoc in Hc. apply chain_prev in Hc.
    unfold pvm in Hc. by rewrite Eh in Hc.
  - rewrite (lo_oldest _ _ Hl), <- app_assoc. destruct l; simpl; set_solver.
Qed.

Lemma unlink_last db l z h e :
  list_ok db ((l ++ [z]) ++ [h]) -> dirties db !! h = Some e -> unlinked db h e ((l ++ [z]) ++ []).
Proof.
  intros Hl Eh. destruct (unlink_after _ _ _ _ _ _ Hl Eh) as (Ezp & Hold & Hzh & Enx & Hni).
  pose proof (list_ok_nodup _ _ Hl) as [Hnd Hz].
  destruct (list_ok_in db ((l ++ [z]) ++ [h]) z Hl) as [ez Ez]; [set_solver|].
  unfold unlinked, unlink. rewrite (bool_decide_false (h = oldest db)) by done.
  rewrite bool_decide_true by (symmetry; apply Hl; by rewrite last_snoc).
  subst z. rewrite (upd_Some _ _ _ ez) by done. eexists. split; [done|].
  assert (same_core (dirties db) (<[flushPrev e := set_flushNext ez zero_hash]> (dirties db))) as Hs
    by (by eapply same_core_insert).
  split; [|by split]. apply (removed_ok db _ (l ++ [flushPrev e]) h []); [done|done| | |].
  - cbn [dirties set_dirties set_ends].
    apply (chain_remove (nxm (dirties db)) (pvm (dirties db)) _ _ (l ++ [flushPrev e]) h []); [apply Hl|done|..]; [| | |done].
    + intros x Hx Hlx. rewrite nxm_delete by set_solver. rewrite nxm_set_next. case_decide; [|done].
      subst. by rewrite last_snoc in Hlx.
    + intros x Hlx. rewrite last_snoc in Hlx. simplify_eq. rewrite nxm_delete by set_solver.
      rewrite nxm_set_next, decide_True by done. unfold nxm. rewrite Eh. done.
    + intros x Hx _. rewrite pvm_delete by set_solver. by apply pvm_set_next.
  - simpl. rewrite (lo_oldest _ _ Hl), app_nil_r. by destruct l.
  - intros x Hx. rewrite app_nil_r, last_snoc in Hx. simpl. congruence.
Qed.

Lemma unlink_middle db l z h y l2 e :
  list_ok db ((l ++ [z]) ++ h :: y :: l2) -> dirties db !! h = Some e ->
  unlinked db h e ((l ++ [z]) ++ y :: l2).
Proof.
  intros Hl Eh. destruct (unlink_after _ _ _ _ _ _ Hl Eh) as (Ezp & Hold & Hzh & Enx & Hni).
  pose proof (list_ok_nodup _ _ Hl) as [Hnd Hz]. simpl in Enx.
  destruct (list_ok_in db ((l ++ [z]) ++ h :: y :: l2) z Hl) as [ez Ez]; [set_solver|].
  destruct (list_ok_in db ((l ++ [z]) ++ h :: y :: l2) y Hl) as [ey Ey]; [set_solver|].
  assert (y <> z /\ y <> h) as [Hyz Hyh].
  { split; [|set_solver]. intros ->. apply NoDup_app in Hnd as (_ & Hd & _). apply (Hd z); set_solver. }
  unfold unlinked, unlink. rewrite (bool_decide_false (h = oldest db)) by done.
  rewrite (bool_decide_false (h = newest db)).
  2:{ destruct (last (y :: l2)) as [w|] eqn:Ew; [|by apply last_None in Ew].
      rewrite (lo_newest _ _ Hl w). { apply last_Some_elem_of in Ew. set_solver. }
      rewrite last_app. change (last (h :: y :: l2)) with (last (y :: l2)). by rewrite Ew. }
  rewrite Ezp, Enx. rewrite (upd_Some _ _ _ ez) by done. go_ret.
  rewrite (upd_Some _ _ _ ey) by (simpl; by rewrite lookup_insert_ne). eexists. split; [done|].
  cbn [dirties set_dirties]. set (m1 := <[z := _]> _). set (m2 := <[y := _]> m1).
  assert (m1 !! y = Some ey) as Ey1 by (unfold m1; by rewrite lookup_insert_ne).
  assert (same_core (dirties db) m2) as Hs by (apply (same_core_trans _ m1); by eapply same_core_insert).
  split; [|by split].
  change (base.delete h m2) with (base.delete h (dirties (set_dirties db m2))).
  apply (removed_ok db (set_dirties db m2) (l ++ [z]) h (y :: l2)); [done|done| | |].
  - cbn [dirties set_dirties].
    apply (chain_remove (nxm (dirties db)) (pvm (dirties db)) _ _ (l ++ [z]) h (y :: l2)); [apply Hl|done|..].
    + intros x Hx Hlx. rewrite nxm_delete by set_solver. unfold m2. rewrite nxm_set_prev by done.
      unfold m1. rewrite nxm_set_next. case_decide; [|done]. subst. by rewrite last_snoc in Hlx.
    + intros x Hlx. rewrite last_snoc in Hlx. simplify_eq. rewrite nxm_delete by set_solver.
      unfold m2. rewrite nxm_set_prev by done. unfold m1. rewrite nxm_set_next, decide_True by done.
      unfold nxm. rewrite Eh. done.
    + intros x Hx Hh. rewrite pvm_delete by set_solver. unfold m2. rewrite pvm_set_prev.
      case_decide; [simplify_eq/=|]. unfold m1. by apply pvm_set_next.
    + intros x [= <-] _. rewrite pvm_delete by done. unfold m2. rewrite pvm_set_prev, decide_True by done.
      unfold pvm. rewrite Eh. simpl. congruence.
  - simpl. rewrite (lo_oldest _ _ Hl). by destruct l.
  - intros w Ew. apply Hl. rewrite last_app in Ew |- *.
    change (last (h :: y :: l2)) with (last (y :: l2)). exact Ew.
Qed.

Lemma unlink_spec db l1 h l2 e :
  list_ok db (l1 ++ h :: l2) -> dirties db !! h = Some e -> unlinked db h e (l1 ++ l2).
Proof.
  intros Hl Eh. destruct l1 as [|z l _] using rev_ind; [by apply unlink_first|].
  destruct l2; [by apply unlink_last|by apply unlink_middle].
Qed.
End flush_list.

(** ** The database invariant *)

Section invariant.
Context `{EthDB} `{FastCache} `{RLPLaws} `{EthCommon} `{!HashLaws} `{!CollisionFree}.
Context `{!EthDBLaws} `{StateAccountRLP}.
Implicit Types (db : Database) (L : list (list Z)).

Definition on_disk db (h b : list Z) : Prop := disk_Get (diskdb db) h = Some b.

(** What the database serves. *)
Definition held db (h b : list Z) : Prop := (Node db h).1 = Ok b.

(** A set of blobs with every node that a node in it refers to. *)
Definition closed (S : list Z -> list Z -> Prop) : Prop :=
  forall t, wf t -> pinner t = true -> S (keccak256 (penc t)) (penc t) -> pstored S true t.

Definition dirty_trie (h : list Z) (n : node) (t : ptrie) : Prop :=
  wf t /\ pinner t = true /\ h = keccak256 (penc t) /\ collapsed n t.

(** Dirty nodes are collapsed trie nodes under their hashes, without external
    children; the disk is content-addressed and closed under references. The
    program runs without a clean cache. *)
Record db_ok db L : Prop := {
  ok_list : list_ok db L;
  ok_cleans : cleans db = None;
  ok_dirty : forall h e, h <> zero_hash -> dirties db !! h = Some e ->
    children e = None /\ exists t, dirty_trie h (cn_node e) t;
  ok_disk : forall h b, length h = 32%nat -> on_disk db h b -> h = keccak256 b /\ b <> [];
  ok_closed : closed (on_disk db);
}.

Lemma pstored_mono_keccak (D1 D2 : list Z -> list Z -> Prop) r t :
  (forall b, D1 (keccak256 b) b -> D2 (keccak256 b) b) -> pstored D1 r t -> pstored D2 r t.
Proof. intros Hm. induction 1; constructor; eauto. Qed.

Lemma closed_ext (S S' : list Z -> list Z -> Prop) :
  (forall b, S (keccak256 b) b <-> S' (keccak256 b) b) -> closed S -> closed S'.
Proof.
  intros Hs Hc t Hw Hi Ht. apply (pstored_mono_keccak S); [intros b; apply Hs|]. apply Hc; [done|done|]. by apply Hs.
Qed.

Lemma held_dirty db L h e :
  db_ok db L -> dirties db !! h = Some e -> h <> zero_hash -> held db h (cn_rlp e).
Proof.
  intros Hok E Hz. unfold held, Node. rewrite bool_decide_false by done.
  by rewrite (ok_cleans _ _ Hok), E.
Qed.

Lemma held_disk db L h b :
  db_ok db L -> length h = 32%nat -> h <> zero_hash -> on_disk db h b -> held db h b.
Proof.
  intros Hok Hl Hz Hd. destruct (ok_disk _ _ Hok h b Hl Hd) as [Eh Hb].
  destruct (dirties db !! h) as [e|] eqn:E.
  - pose proof (held_dirty db L h e Hok E Hz) as Hh.
    destruct (ok_dirty _ _ Hok h e Hz E) as (_ & t & _ & _ & Et & [Ee _]).
    rewrite Eh in Et. apply keccak256_inj in Et. subst b. by rewrite <- Ee.
  - unfold held, Node. rewrite bool_decide_false by done. rewrite (ok_cleans _ _ Hok), E. unfold on_disk in Hd.
    rewrite Hd. by destruct b.
Qed.

Lemma held_inv db L h b :
  db_ok db L -> held db h b -> h <> zero_hash /\
    ((exists e, dirties db !! h = Some e /\ b = cn_rlp e) \/ on_disk db h b).
Proof.
  intros Hok. unfold held, Node. case_bool_decide; [done|]. rewrite (ok_cleans _ _ Hok). simpl.
  destruct (dirties db !! h) as [e|]; simpl.
  - intros [= <-]. split; [done|]. left. by exists e.
  - unfold on_disk. destruct (disk_Get (diskdb db) h) as [[|x b']|]; try done. simpl. intros [= <-].
    split; [done|]. by right.
Qed.

(** Moving from [db] to [db'] loses nothing. *)
Definition keeps db db' : Prop := forall h b, length h = 32%nat -> held db h b -> held db' h b.

Lemma keeps_refl db : keeps db db.
Proof. by intros ? ? ?. Qed.

Lemma keeps_trans db1 db2 db3 : keeps db1 db2 -> keeps db2 db3 -> keeps db1 db3.
Proof. unfold keeps. eauto. Qed.

(** *** Insertion *)

Definition bump (d : gmap (list Z) cachedNode) (child : list Z) : gmap (list Z) cachedNode :=
  match d !! child with
  | Some c => <[child := set_parents c (wrap_u 32 (parents c + 1))]> d
  | None => d
  end.

Definition linked_of (e : cachedNode) := (core_of e, flushPrev e, flushNext e).

Lemma bump_linked l : forall d x, linked_of <$> foldl bump d l !! x = linked_of <$> d !! x.
Proof.
  induction l as [|c l IH]; intros d x; [done|]. simpl. rewrite IH. unfold bump.
  destruct (d !! c) as [e|] eqn:E; [|done].
  destruct (decide (c = x)) as [<-|]; [by rewrite lookup_insert_eq, E|by rewrite lookup_insert_ne].
Qed.

Lemma linked_lookup (d d' : gmap (list Z) cachedNode) x e :
  linked_of <$> d' !! x = linked_of <$> d !! x -> d' !! x = Some e ->
  exists e0, d !! x = Some e0 /\ cn_node e0 = cn_node e /\ children e0 = children e /\
    flushPrev e0 = flushPrev e /\ flushNext e0 = flushNext e.
Proof.
  intros Hl E. rewrite E in Hl. destruct (d !! x) as [e0|]; [|done]. exists e0.
  destruct e, e0. unfold linked_of, core_of in Hl. simpl in *. split; [done|]. naive_solver.
Qed.

Lemma linked_nx (d d' : gmap (list Z) cachedNode) x :
  linked_of <$> d' !! x = linked_of <$> d !! x -> nxm d' x = nxm d x /\ pvm d' x = pvm d x.
Proof.
  unfold nxm, pvm. destruct (d' !! x) as [e|], (d !! x) as [e'|]; try done. unfold linked_of. simpl. naive_solver.
Qed.

Lemma linked_core (o o' : option cachedNode) :
  linked_of <$> o' = linked_of <$> o -> core_of <$> o' = core_of <$> o.
Proof.
  intros E. apply (f_equal (fmap (fun x => x.1.1))) in E. rewrite <- !option_fmap_compose in E. exact E.
Qed.

(** The flush list with a new node at its end. *)
Lemma list_ok_push db L h entry m1 :
  list_ok db L -> h <> zero_hash -> dirties db !! h = None ->
  (forall x, linked_of <$> m1 !! x = linked_of <$> dirties db !! x) ->
  flushPrev entry = newest db -> flushNext entry = zero_hash ->
  exists m2 o, (if bool_decide (oldest db = zero_hash) then Ret (set_ends (set_dirties db (<[h := entry]> m1)) h h)
     else db' ← upd (set_dirties db (<[h := entry]> m1)) (newest db) (fun e => set_flushNext e h);
          Ret (set_ends db' (oldest db') h)) = Ret (set_ends (set_dirties db m2) o h) /\
    list_ok (set_ends (set_dirties db m2) o h) (L ++ [h]) /\
    (forall x, core_of <$> m2 !! x = core_of <$> (<[h := entry]> m1) !! x).
Proof.
  intros Hl Hz Eh Hm1 Hp Hn. pose proof (list_ok_nodup _ _ Hl) as [Hnd Hzl].
  assert (h ∉ L) as Hni.
  { intros Hin. apply (lo_dom _ _ Hl h Hz) in Hin as [? ?]. congruence. }
  assert (forall x, is_Some (m1 !! x) <-> is_Some (dirties db !! x)) as Hd1.
  { intros x. rewrite <- (fmap_is_Some linked_of), Hm1. by rewrite fmap_is_Some. }
  assert (forall m2 o, (forall x, core_of <$> m2 !! x = core_of <$> (<[h := entry]> m1) !! x) ->
    chain (nxm m2) (pvm m2) (L ++ [h]) -> o = default zero_hash (head (L ++ [h])) ->
    list_ok (set_ends (set_dirties db m2) o h) (L ++ [h])) as Hmk.
  { intros m2 o Hc Hch Ho.
    assert (forall x, is_Some (m2 !! x) <-> x = h \/ is_Some (dirties db !! x)) as Hd2.
    { intros x. rewrite <- (fmap_is_Some core_of), Hc, fmap_is_Some, lookup_insert_is_Some, Hd1.
      destruct (decide (h = x)); naive_solver. }
    split; try done; cbn [dirties set_ends set_dirties newest].
    - rewrite Hd2. right. apply Hl.
    - intros x Hx. rewrite Hd2, (lo_dom _ _ Hl x Hx). set_solver.
    - apply NoDup_cons. split; [set_solver|]. apply NoDup_app. split; [done|]. split; [set_solver|apply NoDup_singleton].
    - intros z. rewrite last_snoc. congruence. }
  destruct (last L) as [z|] eqn:Ez.
  - assert (z ∈ L) as HzL by (by apply last_Some_elem_of). rewrite bool_decide_false.
    2:{ rewrite (lo_oldest _ _ Hl). destruct L as [|a L']; simpl in *; [done|]. set_solver. }
    rewrite (lo_newest _ _ Hl z Ez) in *. assert (z <> h) as Hzh by (intros ->; done).
    destruct (list_ok_in db L z Hl) as [e0 E0]; [set_solver|].
    destruct (m1 !! z) as [ez|] eqn:Emz.
    2:{ pose proof (proj2 (Hd1 z) ltac:(by eexists)) as [? ?]. congruence. }
    assert ((<[h := entry]> m1) !! z = Some ez) as E1 by (by rewrite lookup_insert_ne).
    rewrite (upd_Some _ _ _ ez) by done. go_ret. eexists _, _. split; [done|].
    assert (same_core (<[h := entry]> m1) (<[z := set_flushNext ez h]> (<[h := entry]> m1))) as Hs
      by (by eapply same_core_insert).
    split; [|exact Hs]. apply Hmk; [exact Hs| |].
    + cbn [dirties set_dirties]. apply (chain_snoc (nxm (dirties db)) (pvm (dirties db))); [apply Hl|done|..].
      * intros x Hx Hlx. rewrite nxm_set_next, decide_False by congruence. unfold nxm at 1.
        rewrite lookup_insert_ne by set_solver. apply (linked_nx (dirties db) m1), Hm1.
      * intros x Hx. rewrite pvm_set_next by done. unfold pvm at 1.
        rewrite lookup_insert_ne by set_solver. apply (linked_nx (dirties db) m1), Hm1.
      * rewrite nxm_set_next, decide_False by done. unfold nxm. by rewrite lookup_insert_eq.
      * intros w Ew. assert (w = z) as -> by congruence. rewrite nxm_set_next, decide_True by done.
        rewrite pvm_set_next by done. unfold pvm. rewrite lookup_insert_eq. done.
      * done.
    + simpl. rewrite (lo_oldest _ _ Hl). by destruct L.
  - apply last_None in Ez. subst L. rewrite bool_decide_true by (by rewrite (lo_oldest _ _ Hl)).
    eexists _, _. split; [done|]. split; [|done]. apply Hmk; [done| |done].
    split; [|done]. unfold nxm. by rewrite lookup_insert_eq.
Qed.
Lemma keccak_not_zero b : keccak256 b <> zero_hash.
Proof. apply keccak256_nonzero. Qed.

(** A new map of dirty nodes over the same disk. *)
Lemma db_ok_dirties db L db' L' :
  db_ok db L -> list_ok db' L' -> cleans db' = cleans db -> diskdb db' = diskdb db ->
  (forall h e, h <> zero_hash -> dirties db' !! h = Some e ->
     children e = None /\ exists t, dirty_trie h (cn_node e) t) ->
  db_ok db' L'.
Proof.
  intros Hok Hl Hc Hd Hdirty. split; [done|by rewrite Hc; apply Hok|done|..];
    unfold on_disk; rewrite Hd; apply Hok.
Qed.

(** Entries that keep their nodes keep being dirty trie nodes. *)
Lemma dirty_core db L (m' : gmap (list Z) cachedNode) h e :
  db_ok db L -> core_of <$> m' !! h = core_of <$> dirties db !! h -> h <> zero_hash -> m' !! h = Some e ->
  children e = None /\ exists t, dirty_trie h (cn_node e) t.
Proof.
  intros Hok Hs Hz E. rewrite E in Hs. destruct (dirties db !! h) as [e0|] eqn:E0; [|done].
  destruct (ok_dirty _ _ Hok h e0 Hz E0) as (Hch & t & Ht). destruct e, e0. simpl in *.
  unfold core_of in Hs. simplify_eq/=. eauto.
Qed.

Lemma db_insert_spec db L t h size n :
  db_ok db L -> dirty_trie h n t ->
  exists db' L', db_insert db h size n = Ret db' /\ db_ok db' L' /\ keeps db db' /\ held db' h (penc t) /\
    diskdb db' = diskdb db /\ db_preimages db' = db_preimages db.
Proof.
  intros Hok Ht. pose proof Ht as (Hw & Hi & Eh & Hcol).
  assert (h <> zero_hash) as Hz by (rewrite Eh; apply keccak_not_zero). unfold db_insert.
  destruct (dirties db !! h) as [e|] eqn:E.
  { exists db, L. split; [done|]. split; [done|]. split; [by intros ? ? ?|]. split; [|done].
    pose proof (held_dirty _ _ _ _ Hok E Hz) as Hh.
    destruct (ok_dirty _ _ Hok h e Hz E) as (_ & t' & _ & _ & Et & [Ee _]).
    rewrite Eh in Et. apply keccak256_inj in Et. rewrite Et, <- Ee. done. }
  set (entry := mkCached n (u16 size) 0 None (newest db) zero_hash).
  fold bump. set (m1 := foldl _ (dirties db) _).
  assert (forall x, linked_of <$> m1 !! x = linked_of <$> dirties db !! x) as Hm1 by (intros x; apply bump_linked).
  destruct (list_ok_push db L h entry m1 (ok_list _ _ Hok) Hz E Hm1 eq_refl eq_refl) as (m2 & o & E2 & Hl2 & Hc2).
  cbn [oldest newest set_dirties]. rewrite E2. go_ret. eexists _, (L ++ [h]). split; [done|].
  set (db' := set_sizes _ _ _).
  assert (db_ok db' (L ++ [h])) as Hok'.
  { apply (db_ok_dirties db L); [done| |done|done|].
    - destruct Hl2. by split.
    - intros x e Hx Ex. cbn in Ex. destruct (decide (x = h)) as [->|Hxh].
      + pose proof (Hc2 h) as Hc. rewrite Ex, lookup_insert_eq in Hc. destruct e. unfold core_of in Hc.
        simplify_eq/=. split; [done|]. by exists t.
      + apply (dirty_core db L m2 x e Hok); [|done|done].
        rewrite Hc2, lookup_insert_ne by done. apply linked_core, Hm1. }
  assert (exists e, dirties db' !! h = Some e /\ cn_node e = n) as (e & Ee & En).
  { pose proof (Hc2 h) as Hc. rewrite lookup_insert_eq in Hc. cbn. destruct (m2 !! h) as [e|]; [|done].
    exists e. split; [done|]. destruct e. unfold core_of in Hc. simpl in *. naive_solver. }
  split; [done|]. split; [|split; [|done]].
  - intros x b Hlx Hx. destruct (held_inv _ _ _ _ Hok Hx) as (Hxz & [(e0 & Ex & ->)|Hd]).
    + assert (x <> h) as Hxh by congruence.
      assert (core_of <$> dirties db' !! x = core_of <$> dirties db !! x) as Hcx.
      { cbn. rewrite Hc2, lookup_insert_ne by done. apply linked_core, Hm1. }
      rewrite Ex in Hcx. destruct (dirties db' !! x) as [e1|] eqn:E1; [|done].
      pose proof (held_dirty _ _ _ _ Hok' E1 Hxz) as Hh. unfold cn_rlp in *. unfold core_of in Hcx. simpl in Hcx.
      replace (cn_node e0) with (cn_node e1) by congruence. done.
    + by apply (held_disk db' (L ++ [h])).
  - pose proof (held_dirty _ _ _ _ Hok' Ee Hz) as Hh. unfold cn_rlp, nodeToBytes in Hh. rewrite En in Hh.
    by rewrite <- (proj1 Hcol).
Qed.

(** *** Uncaching what was written *)

Lemma cleaner_Put_spec db L h b :
  db_ok db L -> h = keccak256 b -> on_disk db h b ->
  exists db' L', cleaner_Put db (h, b) = Ret db' /\ db_ok db' L' /\ keeps db db' /\
    diskdb db' = diskdb db /\ db_preimages db' = db_preimages db /\ dom (dirties db') ⊆ dom (dirties db).
Proof.
  intros Hok Eh Hd. assert (h <> zero_hash) as Hz by (rewrite Eh; apply keccak_not_zero).
  unfold cleaner_Put. cbn [fst snd]. rewrite Eh, BytesToHash_id, <- Eh by apply keccak256_length.
  destruct (dirties db !! h) as [e|] eqn:E.
  2:{ exists db, L. split; [done|]. split; [done|]. split; [apply keeps_refl|done]. }
  destruct (list_elem_of_split L h) as (l1 & l2 & EL).
  { apply (lo_dom _ _ (ok_list _ _ Hok) h Hz). by eexists. }
  destruct (unlink_spec db l1 h l2 e) as (db1 & E1 & Hl1 & Hs1 & [Hd1 Hc1 Hp1]); [rewrite <- EL; apply Hok|done|].
  rewrite E1. go_ret. cbn [cleans set_sizes set_dirties]. rewrite Hc1, (ok_cleans _ _ Hok).
  eexists _, (l1 ++ l2). split; [done|]. set (db' := set_sizes _ _ _).
  assert (db_ok db' (l1 ++ l2)) as Hok'.
  { apply (db_ok_dirties db L); [done| |done|done|].
    - destruct Hl1. by split.
    - intros x e' Hx Ex. cbn in Ex. apply lookup_delete_Some in Ex as [Hxh Ex].
      apply (dirty_core db L (dirties db1)); [done|apply Hs1|done|done]. }
  split; [done|]. split; [|split; [done|split; [done|]]].
  - intros x b' Hlx Hx. destruct (held_inv _ _ _ _ Hok Hx) as (Hxz & [(e0 & Ex & ->)|Hdx]).
    + destruct (decide (x = h)) as [->|Hxh].
      * replace e0 with e in * by congruence.
        destruct (ok_dirty _ _ Hok h e Hz E) as (_ & t & _ & _ & Et & [Ee _]).
        assert (cn_rlp e = b) as ->.
        { unfold cn_rlp, nodeToBytes. rewrite Ee. rewrite Eh in Et. by apply keccak256_inj in Et. }
        apply (held_disk db' (l1 ++ l2)); try done. unfold on_disk. simpl. by rewrite Hd1.
      * destruct (dirties db1 !! x) as [e1|] eqn:Ex1.
        2:{ pose proof (Hs1 x) as Hcx. by rewrite Ex, Ex1 in Hcx. }
        assert (dirties db' !! x = Some e1) as Ex'. { cbn. by rewrite lookup_delete_ne. }
        pose proof (held_dirty _ _ _ _ Hok' Ex' Hxz) as Hh. pose proof (Hs1 x) as Hcx.
        rewrite Ex, Ex1 in Hcx. unfold core_of in Hcx. simpl in Hcx. unfold cn_rlp in *.
        replace (cn_node e0) with (cn_node e1) by congruence. done.
    + apply (held_disk db' (l1 ++ l2)); try done. unfold on_disk. simpl. by rewrite Hd1.
  - intros x Hx. apply elem_of_dom in Hx. apply elem_of_dom. cbn in Hx.
    apply lookup_delete_is_Some in Hx as [_ Hx]. by apply (same_core_dom _ _ x Hs1).
Qed.

Lemma cleaner_replay_spec b : forall db L,
  db_ok db L -> Forall (fun kv => kv.1 = keccak256 kv.2 /\ on_disk db kv.1 kv.2) b ->
  exists db' L', ofold cleaner_Put db b = Ret db' /\ db_ok db' L' /\ keeps db db' /\
    diskdb db' = diskdb db /\ db_preimages db' = db_preimages db /\ dom (dirties db') ⊆ dom (dirties db).
Proof.
  induction b as [|[h x] b IH]; intros db L Hok Hb.
  { exists db, L. split; [done|]. split; [done|]. split; [apply keeps_refl|done]. }
  apply Forall_cons_1 in Hb as [[Eh Hd] Hb].
  destruct (cleaner_Put_spec db L h x Hok Eh Hd) as (db1 & L1 & E1 & Hok1 & Hk1 & Hd1 & Hp1 & Hs1).
  destruct (IH db1 L1 Hok1) as (db' & L' & E' & Hok' & Hk' & Hd' & Hp' & Hs').
  { eapply Forall_impl; [exact Hb|]. intros kv [? ?]. split; [done|]. unfold on_disk. by rewrite Hd1. }
  exists db', L'. cbn [ofold]. rewrite E1. go_ret. split; [done|]. split; [done|].
  split; [by eapply keeps_trans|]. split; [congruence|]. split; [congruence|]. set_solver.
Qed.
(** *** Writing a batch *)

Definition batch_ok (b : batch) : Prop := Forall (fun kv => kv.1 = keccak256 kv.2 /\ kv.2 <> []) b.

(** On disk, or about to be. *)
Definition stored db (b : batch) (h x : list Z) : Prop := on_disk db h x \/ (h, x) ∈ b.

Lemma batch_get_Some b k v : batch_get b k = Some v -> (k, v) ∈ b.
Proof.
  induction b as [|[k' v'] b IH]; [done|]. simpl. destruct (batch_get b k) as [w|].
  - intros [= ->]. set_solver.
  - case_bool_decide; [|done]. intros [= ->]. subst. set_solver.
Qed.

Lemma batch_get_None b k v : batch_get b k = None -> (k, v) ∉ b.
Proof.
  induction b as [|[k' v'] b IH]; [set_solver|]. simpl. destruct (batch_get b k) as [w|]; [done|].
  case_bool_decide as E; [done|]. intros _ [Heq|Hin]%elem_of_cons; [simplify_eq|by apply IH].
Qed.

Lemma written_stored db L b d k v :
  db_ok db L -> batch_ok b -> disk_Write (diskdb db) b = Ok d -> length k = 32%nat ->
  disk_Get d k = Some v <-> stored db b k v.
Proof.
  intros Hok Hb Hw Hk. rewrite (disk_Write_Get _ _ _ Hw k). unfold stored, on_disk, batch_ok in *.
  rewrite Forall_forall in Hb. destruct (batch_get b k) as [w|] eqn:E.
  - apply batch_get_Some in E. destruct (Hb _ E) as [Ek _]. simpl in Ek. split; [intros [= ->]; by right|].
    intros [Hd|Hin].
    + destruct (ok_disk _ _ Hok k v Hk Hd) as [Ek' _]. rewrite Ek in Ek'. apply keccak256_inj in Ek'. congruence.
    + destruct (Hb _ Hin) as [Ek' _]. simpl in Ek'. rewrite Ek in Ek'. apply keccak256_inj in Ek'. congruence.
  - split; [by left|]. intros [?|Hin]; [done|]. by apply (batch_get_None _ _ v) in E.
Qed.

Lemma written_ok db L b d :
  db_ok db L -> batch_ok b -> closed (stored db b) -> disk_Write (diskdb db) b = Ok d ->
  db_ok (set_diskdb db d) L.
Proof.
  intros Hok Hb Hc Hw. pose proof (written_stored db L b d) as Hws. split.
  - destruct (ok_list _ _ Hok). by split.
  - apply Hok.
  - apply Hok.
  - intros h x Hl Hd. apply (Hws h x Hok Hb Hw Hl) in Hd as [Hd|Hin]; [by apply Hok|].
    unfold batch_ok in Hb. rewrite Forall_forall in Hb. by apply (Hb (h, x)).
  - apply (closed_ext (stored db b)); [|done]. intros x. symmetry. apply Hws; [done..|apply keccak256_length].
Qed.

Record flush_ok db (b : batch) (err : option string) db' : Prop := {
  fl_inv : exists L', db_ok db' L';
  fl_keeps : keeps db db';
  fl_dom : dom (dirties db') ⊆ dom (dirties db);
  fl_done : err = None -> forall x, stored db b (keccak256 x) x <-> on_disk db' (keccak256 x) x;
  fl_failed : err <> None -> db' = db;
}.

Lemma flush_spec db L b :
  db_ok db L -> batch_ok b -> closed (stored db b) ->
  exists err db', flush db b = Ret (err, db') /\ flush_ok db b err db'.
Proof.
  intros Hok Hb Hc. unfold flush. destruct (disk_Write (diskdb db) b) as [d|e] eqn:Hw.
  2:{ eexists _, _. split; [done|]. split; try done; [by exists L|apply keeps_refl]. }
  pose proof (written_ok db L b d Hok Hb Hc Hw) as Hok1.
  pose proof (written_stored db L b d) as Hws.
  assert (forall x, stored db b (keccak256 x) x -> on_disk (set_diskdb db d) (keccak256 x) x) as Hto.
  { intros x Hx. apply Hws; [done..|apply keccak256_length|done]. }
  destruct (cleaner_replay_spec b (set_diskdb db d) L Hok1) as (db' & L' & E & Hok' & Hk & Hd & Hp & Hs).
  { apply Forall_forall. intros [k v] Hin. unfold batch_ok in Hb. rewrite Forall_forall in Hb.
    destruct (Hb _ Hin) as [Ek _]. simpl in *. split; [done|]. subst k. apply Hto. by right. }
  rewrite E. go_ret. eexists _, _. split; [done|]. split; [by exists L'| |done| |done].
  - apply (keeps_trans _ (set_diskdb db d)); [|done]. intros h x Hl Hx.
    destruct (held_inv _ _ _ _ Hok Hx) as (Hz & [(e & Ee & ->)|Hdx]); [by apply (held_dirty _ L)|].
    apply (held_disk _ L); [done..|]. apply Hws; [done..|]. by left.
  - intros _ x. unfold on_disk at 1. rewrite Hd. symmetry. apply Hws; [done..|apply keccak256_length].
Qed.
End invariant.

(** *** The nodes a node refers to by hash *)

Section subtries.
Context `{RLPLaws} `{EthCommon} `{!HashLaws}.

Definition hsub_of (t : ptrie) (below : list ptrie) : list ptrie :=
  match t with
  | PShort _ _ | PFull _ => if (length (penc t) <? 32)%nat then below else [t]
  | _ => []
  end.

Fixpoint hsubs (t : ptrie) : list ptrie :=
  match t with
  | PNil | PVal _ => []
  | PShort _ c => hsub_of c (hsubs c)
  | PFull cs => flat_map_upto (fun c => hsub_of c (hsubs c)) 16 cs
  end.

Definition hsub (t : ptrie) : list ptrie := hsub_of t (hsubs t).

Fixpoint tsize (t : ptrie) : nat :=
  match t with
  | PNil | PVal _ => 0
  | PShort _ c => S (tsize c)
  | PFull cs => S (list_sum (map tsize cs))
  end.

Lemma href_of_hsub t below hbelow :
  hbelow = map (fun t => keccak256 (penc t)) below ->
  href_of t (penc t) hbelow = map (fun t => keccak256 (penc t)) (hsub_of t below).
Proof. intros ->. unfold href_of, hsub_of. destruct t; try done; by case_match. Qed.

Lemma hrefs_hsubs t : hrefs t = map (fun t => keccak256 (penc t)) (hsubs t).
Proof.
  induction t as [|v|k c IH|cs IH] using ptrie_nested_ind; try done.
  - by apply href_of_hsub.
  - cbn [hrefs hsubs]. generalize 16%nat as n. induction cs as [|c cs IHcs]; intros [|n]; try done.
    rewrite !flat_map_upto_cons, map_app. f_equal; [apply href_of_hsub, (IH 0%nat c eq_refl)|].
    apply IHcs. intros i. apply (IH (S i)).
Qed.

(** Each of them is a smaller well-formed trie. *)
Lemma hsub_small t :
  (forall t', t' ∈ hsubs t -> wf t' /\ pinner t' = true /\ (tsize t' < tsize t)%nat) -> wf t ->
  forall t', t' ∈ hsub t -> wf t' /\ pinner t' = true /\ (tsize t' <= tsize t)%nat.
Proof.
  intros Hs Hw t' Ht'. unfold hsub, hsub_of in Ht'. destruct t; try set_solver; case_match;
    try (destruct (Hs t' Ht') as (? & ? & ?); split; [done|split; [done|lia]]);
    apply list_elem_of_singleton in Ht' as ->; (split; [done|split; [done|lia]]).
Qed.

Lemma tsize_child cs i c : cs !! i = Some c -> (tsize c < tsize (PFull cs))%nat.
Proof.
  simpl. revert i. induction cs as [|d cs IH]; intros [|i] Hi; simplify_eq/=; [lia|]. apply IH in Hi. lia.
Qed.

Lemma hsubs_full cs t' :
  t' ∈ hsubs (PFull cs) -> exists i c, (i < 16)%nat /\ cs !! i = Some c /\ t' ∈ hsub c.
Proof.
  cbn [hsubs]. fold hsub. rewrite flat_map_upto_take. intros Hin.
  apply list_elem_of_In, in_flat_map in Hin as (c & Hc & Hin).
  apply list_elem_of_In, list_elem_of_lookup in Hc as (i & Hi). apply list_elem_of_In in Hin.
  apply lookup_take_Some in Hi as [Hi Hlt]. by exists i, c.
Qed.

Lemma hsubs_small t :
  wf t -> forall t', t' ∈ hsubs t -> wf t' /\ pinner t' = true /\ (tsize t' < tsize t)%nat.
Proof.
  induction t as [|v|k c IH|cs IH] using ptrie_nested_ind; intros Hw t' Ht'; try (simpl in Ht'; set_solver).
  - destruct (wf_short_inv k c Hw) as (isl & _ & Hc & _). destruct isl.
    + destruct Hc as (v & -> & _). simpl in Ht'. set_solver.
    + destruct Hc as (cs & -> & Hwc). destruct (hsub_small (PFull cs)) with (t' := t') as (? & ? & ?);
        [by apply IH|done|done|]. cbn [tsize] in *. split; [done|split; [done|lia]].
  - destruct (hsubs_full cs t' Ht') as (i & c & Hi & Hc & Hin).
    apply wf_full in Hw as (_ & _ & Hwc). pose proof (Hwc i c Hc) as Hw.
    rewrite (proj2 (Nat.eqb_neq _ _)) in Hw by lia.
    destruct (hsub_small c) with (t' := t') as (? & ? & ?); [intros; by apply (IH i c Hc)|done|done|].
    pose proof (tsize_child cs i c Hc). split; [done|split; [done|lia]].
Qed.

(** A trie is stored when its node and the tries it refers to are. *)
Lemma pstored_weaken (S : list Z -> list Z -> Prop) t : pstored S true t -> pstored S false t.
Proof. inversion 1; subst; constructor; auto. Qed.

Lemma hsubs_child cs i c t' : (i < 16)%nat -> cs !! i = Some c -> t' ∈ hsub c -> t' ∈ hsubs (PFull cs).
Proof.
  intros Hi Hc Ht'. cbn [hsubs]. fold hsub. rewrite flat_map_upto_take. apply list_elem_of_In, in_flat_map.
  exists c. split; [|by apply list_elem_of_In]. apply list_elem_of_In, (list_elem_of_lookup_2 _ i).
  by rewrite lookup_take_lt.
Qed.

Lemma vslot_stored (S : list Z -> list Z -> Prop) r t : vslot t -> pstored S r t.
Proof. destruct t; try done; intros _; constructor. Qed.

(** The subtries below a node, from those it refers to. *)
Lemma pstored_inner (S : list Z -> list Z -> Prop) t r :
  (forall c, wf c -> (forall t', t' ∈ hsub c -> pstored S true t') ->
     (tsize c < tsize t)%nat -> pstored S false c) ->
  wf t -> pinner t = true ->
  (r = true \/ (32 <= length (penc t))%nat -> S (keccak256 (penc t)) (penc t)) ->
  (forall t', t' ∈ hsubs t -> pstored S true t') -> pstored S r t.
Proof.
  intros IH Hw Hi Hself Hs. destruct t as [| |k c|cs]; try done.
  - constructor; [done|]. destruct (wf_short_inv k c Hw) as (isl & _ & Hc & Hwc & _). destruct isl.
    + by apply vslot_stored.
    + apply IH; [done|done|simpl; lia].
  - constructor; [done|]. intros i c Hc. apply wf_full in Hw as (Hl & _ & Hwc).
    pose proof (Hwc i c Hc) as Hw. destruct (i =? 16)%nat eqn:Ei; [by apply vslot_stored|].
    apply Nat.eqb_neq in Ei. apply lookup_lt_Some in Hc as Hlt. apply IH; [done| |by apply (tsize_child cs i)].
    intros t' Ht'. apply Hs, (hsubs_child cs i c); [lia|done|done].
Qed.

Lemma pstored_hsub (S : list Z -> list Z -> Prop) n : forall t, (tsize t < n)%nat -> wf t ->
  (forall t', t' ∈ hsub t -> pstored S true t') -> pstored S false t.
Proof.
  induction n as [|n IH]; intros t Hn Hw Hs; [lia|]. destruct (pinner t) eqn:Hi; [|destruct t; try done; constructor].
  destruct (decide (length (penc t) < 32)%nat) as [Hl|Hl].
  - apply pstored_inner; [|done|done|intros [?|?]; [done|lia]|].
    + intros c Hwc Hsc Hc. apply IH; [lia|done|done].
    + intros t' Ht'. apply Hs. unfold hsub, hsub_of. rewrite (proj2 (Nat.ltb_lt _ _)) by done. by destruct t.
  - apply pstored_weaken, Hs. unfold hsub, hsub_of. rewrite (proj2 (Nat.ltb_ge _ _)) by lia.
    destruct t; try done; set_solver.
Qed.

Lemma pstored_hsubs (S : list Z -> list Z -> Prop) t :
  wf t -> pinner t = true -> S (keccak256 (penc t)) (penc t) ->
  (forall t', t' ∈ hsubs t -> pstored S true t') -> pstored S true t.
Proof.
  intros Hw Hi Hself Hs. apply pstored_inner; try done.
  intros c Hwc Hsc Hc. by apply (pstored_hsub S (Datatypes.S (tsize c))); [lia|..].
Qed.

(** And the other way round. *)
Lemma pstored_hsubs_inv (S : list Z -> list Z -> Prop) t :
  wf t -> forall r, pstored S r t ->
  (forall t', t' ∈ hsubs t -> pstored S true t') /\
  ((r = false -> forall t', t' ∈ hsub t -> pstored S true t')).
Proof.
  induction t as [|v|k c IH|cs IH] using ptrie_nested_ind; intros Hw r Hp; try (simpl; set_solver).
  - assert (forall t', t' ∈ hsubs (PShort k c) -> pstored S true t') as Hbelow.
    { intros t' Ht'. destruct (wf_short_inv k c Hw) as (isl & _ & Hc & Hwc & _). destruct isl.
      - destruct Hc as (v & -> & _). simpl in Ht'. set_solver.
      - inversion Hp; subst. by apply (IH Hwc false). }
    split; [done|]. intros -> t' Ht'. unfold hsub, hsub_of in Ht'. case_match eqn:El; [by apply Hbelow|].
    apply list_elem_of_singleton in Ht' as ->. apply Nat.ltb_ge in El. inversion Hp; subst. constructor; auto.
  - assert (forall t', t' ∈ hsubs (PFull cs) -> pstored S true t') as Hbelow.
    { intros t' Ht'. destruct (hsubs_full cs t' Ht') as (i & c & Hi & Hc & Hin).
      apply wf_full in Hw as (_ & _ & Hwc). pose proof (Hwc i c Hc) as Hw.
      rewrite (proj2 (Nat.eqb_neq _ _)) in Hw by lia. inversion Hp; subst.
      apply (IH i c Hc Hw false); eauto. }
    split; [done|]. intros -> t' Ht'. unfold hsub, hsub_of in Ht'. case_match eqn:El; [by apply Hbelow|].
    apply list_elem_of_singleton in Ht' as ->. apply Nat.ltb_ge in El. inversion Hp; subst. constructor; auto.
Qed.
End subtries.

(** *** Writing out a trie *)

Section write_out.
Context `{EthDB} `{FastCache} `{RLPLaws} `{EthCommon} `{!HashLaws} `{!CollisionFree}.
Context `{!EthDBLaws} `{StateAccountRLP}.
Implicit Types (db : Database) (L : list (list Z)).

Record commit_inv db (b : batch) : Prop := {
  ci_db : exists L, db_ok db L;
  ci_batch : batch_ok b;
  ci_closed : closed (stored db b);
}.

(** From one state of the commit to a later one. *)
Record progress db (b : batch) db' (b' : batch) : Prop := {
  pg_inv : commit_inv db' b';
  pg_keeps : keeps db db';
  pg_dom : dom (dirties db') ⊆ dom (dirties db);
  pg_stored : forall x, stored db b (keccak256 x) x -> stored db' b' (keccak256 x) x;
}.

Lemma progress_refl db b : commit_inv db b -> progress db b db b.
Proof. intros. split; try done. apply keeps_refl. Qed.

Lemma progress_trans db1 b1 db2 b2 db3 b3 :
  progress db1 b1 db2 b2 -> progress db2 b2 db3 b3 -> progress db1 b1 db3 b3.
Proof.
  intros [_ Hk1 Hd1 Hs1] [Hi Hk2 Hd2 Hs2]. split; [done|by eapply keeps_trans|set_solver|auto].
Qed.

Lemma held_mono db db' r t : keeps db db' -> pstored (held db) r t -> pstored (held db') r t.
Proof. intros Hk. apply pstored_mono_keccak. intros b. apply Hk, keccak256_length. Qed.

(** A node and everything it refers to reached the batch or the disk. *)
Definition out_ok (t : ptrie) (r : outcome commit_state) db b : Prop :=
  exists err db' b', r = Ret (err, db', b') /\ progress db b db' b' /\
    (err = None -> pstored (stored db' b') true t).

(** The children, one after the other until an error. *)
Lemma commit_children_spec (commit : Database -> list Z -> batch -> outcome commit_state) ts : forall db b,
  commit_inv db b -> (forall t, t ∈ ts -> pstored (held db) true t) ->
  (forall t db' b', t ∈ ts -> progress db b db' b' -> pstored (held db') true t ->
     out_ok t (commit db' (keccak256 (penc t)) b') db' b') ->
  exists err db' b', ofold (fun (st : commit_state) child =>
      match st.1.1 with None => commit st.1.2 child st.2 | Some _ => Ret st end)
      (None, db, b) (map (fun t => keccak256 (penc t)) ts) = Ret (err, db', b') /\
    progress db b db' b' /\ (err = None -> forall t, t ∈ ts -> pstored (stored db' b') true t).
Proof.
  induction ts as [|t ts IH]; intros db b Hinv Hh Hc.
  { exists None, db, b. split; [done|]. split; [by apply progress_refl|set_solver]. }
  destruct (Hc t db b ltac:(set_solver) (progress_refl _ _ Hinv) (Hh t ltac:(set_solver)))
    as (err & db1 & b1 & E1 & Hp1 & Hs1). cbn [map ofold]. cbn [fst snd]. rewrite E1. go_ret.
  destruct err as [e|].
  { exists (Some e), db1, b1. split; [|by split]. clear. induction ts as [|t ts IH]; [done|]. exact IH. }
  destruct (IH db1 b1 (pg_inv _ _ _ _ Hp1)) as (err & db2 & b2 & E2 & Hp2 & Hs2).
  { intros t' Ht'. apply (held_mono db); [apply Hp1|apply Hh; set_solver]. }
  { intros t' db' b' Ht' Hp'. apply Hc; [set_solver|by eapply progress_trans]. }
  exists err, db2, b2. split; [done|]. split; [by eapply progress_trans|].
  intros Herr t' [->|Ht']%elem_of_cons; [|by apply Hs2].
  apply (pstored_mono_keccak (stored db1 b1)); [apply Hp2|by apply Hs1].
Qed.

(** Writing the node itself, once its children are stored. *)
Lemma commit_self_spec db b t nd :
  commit_inv db b -> wf t -> pinner t = true -> cn_rlp nd = penc t ->
  (forall t', t' ∈ hsubs t -> pstored (stored db b) true t') ->
  out_ok t (let b2 := b ++ [(keccak256 (penc t), cn_rlp nd)] in
    if IdealBatchSize <=? ValueSize b2 then
      '(err, db2) ← flush db b2;
      Ret (err, db2, match err with None => [] | Some _ => b2 end)
    else Ret (None, db, b2)) db b.
Proof.
  intros [[L Hok] Hb Hc] Hw Hi -> Hs. cbv zeta. set (b2 := b ++ [_]).
  assert (forall x, stored db b (keccak256 x) x -> stored db b2 (keccak256 x) x) as Hmono.
  { intros x [?|?]; [by left|right; set_solver]. }
  assert (pstored (stored db b2) true t) as Ht.
  { apply pstored_hsubs; [done|done|right; set_solver|]. intros t' Ht'.
    apply (pstored_mono_keccak (stored db b)); [done|by apply Hs]. }
  assert (commit_inv db b2) as Hinv2.
  { split; [by exists L| |].
    - apply Forall_app. split; [done|]. apply Forall_singleton. split; [done|]. simpl. intros E.
      by apply (penc_nonempty t [] Hi); rewrite E.
    - intros t' Hw' Hi' [Hd|Hin].
      + apply (pstored_mono_keccak (stored db b)); [done|]. apply Hc; [done|done|by left].
      + apply elem_of_app in Hin as [Hin|Hin].
        * apply (pstored_mono_keccak (stored db b)); [done|]. apply Hc; [done|done|by right].
        * apply list_elem_of_singleton in Hin as [= _ E]. by apply (penc_inj (loose:=false)) in E as ->. }
  case_match.
  2:{ eexists None, db, b2. split; [done|]. split; [|done]. split; [done|apply keeps_refl|done|done]. }
  destruct (flush_spec db L b2 Hok (ci_batch _ _ Hinv2) (ci_closed _ _ Hinv2)) as (err & db2 & E & [Hin Hk Hd Hdone Hfail]).
  rewrite E. go_ret. destruct err as [e|].
  - rewrite Hfail in * by done. eexists _, _, _. split; [done|]. split; [|done]. split; try done.
  - eexists _, _, _. split; [done|].
    assert (forall x, stored db b2 (keccak256 x) x <-> stored db2 [] (keccak256 x) x) as Hiff.
    { intros x. rewrite (Hdone eq_refl). unfold stored. split; [by left|]. intros [?|?]; [done|set_solver]. }
    split; [|intros _; apply (pstored_mono_keccak (stored db b2)); [intros x; apply Hiff|done]].
    split; [split; [done|constructor|]|done|done|].
    + apply (closed_ext (stored db b2)); [done|apply Hinv2].
    + intros x Hx. by apply Hiff, Hmono.
Qed.

(** The ancestors of the node at hand, all different and dirty at the start. *)
Definition above (X : gset (list Z)) (vis : list (list Z)) (t : ptrie) : Prop :=
  NoDup vis /\ (forall v, v ∈ vis -> v ∈ X) /\
  (forall v, v ∈ vis -> exists tv, wf tv /\ pinner tv = true /\ v = keccak256 (penc tv) /\ (tsize t < tsize tv)%nat).

Lemma above_size X vis t : above X vis t -> (length vis <= size X)%nat.
Proof.
  intros (Hnd & Hsub & _). rewrite <- (size_list_to_set (C := gset (list Z))) by done.
  apply subseteq_size. intros v Hv. apply elem_of_list_to_set in Hv. auto.
Qed.

Lemma above_child X vis t t' :
  above X vis t -> wf t -> pinner t = true -> keccak256 (penc t) ∈ X -> (tsize t' < tsize t)%nat ->
  above X (keccak256 (penc t) :: vis) t'.
Proof.
  intros (Hnd & Hsub & Hv) Hw Hi Hx Hlt. split; [|split].
  - apply NoDup_cons. split; [|done]. intros Hin. destruct (Hv _ Hin) as (tv & Hwv & Hiv & E & Hs).
    assert (t = tv) as -> by (apply (penc_inj (loose:=false)); [done..|by apply keccak256_inj]). lia.
  - intros v [->|?]%elem_of_cons; auto.
  - intros v [->|Hin]%elem_of_cons; [by exists t|]. destruct (Hv _ Hin) as (tv & ? & ? & ? & ?).
    exists tv. repeat (split; [done|]). lia.
Qed.

Lemma db_commit_spec (X : gset (list Z)) fuel : forall t db b vis,
  commit_inv db b -> wf t -> pinner t = true -> pstored (held db) true t ->
  dom (dirties db) ⊆ X -> above X vis t -> (size X < fuel + length vis)%nat ->
  out_ok t (db_commit fuel db (keccak256 (penc t)) b) db b.
Proof.
  induction fuel as [|fuel IH]; intros t db b vis Hinv Hw Hi Hh HX Hab Hf.
  { pose proof (above_size _ _ _ Hab). lia. }
  cbn [db_commit]. pose proof (ci_db _ _ Hinv) as [L Hok].
  pose proof (pstored_self _ _ _ Hh Hi (or_introl eq_refl)) as Hself.
  destruct (dirties db !! keccak256 (penc t)) as [nd|] eqn:E.
  2:{ exists None, db, b. split; [done|]. split; [by apply progress_refl|]. intros _.
      destruct (held_inv _ _ _ _ Hok Hself) as (_ & [(e & Ee & _)|Hd]); [congruence|].
      apply (pstored_mono_keccak (on_disk db)); [by left|]. by apply (ok_closed _ _ Hok). }
  destruct (ok_dirty _ _ Hok _ _ (keccak_not_zero _) E) as (Hch & t' & Hw' & Hi' & Et & [Ee Eg]).
  assert (t = t') as <- by (apply (penc_inj (loose:=false)); [done..|by apply keccak256_inj]).
  assert (keccak256 (penc t) ∈ X) as HinX by (apply HX, elem_of_dom; by eexists).
  unfold forChilds. rewrite Hch, Eg, hrefs_hsubs. cbn [app].
  destruct (commit_children_spec (db_commit fuel) (hsubs t) db b Hinv) as (err & db1 & b1 & E1 & Hp1 & Hs1).
  { exact (proj1 (pstored_hsubs_inv (held db) t Hw true Hh)). }
  { intros t' db' b' Ht' Hp' Hh'. destruct (hsubs_small t Hw t' Ht') as (Hwt & Hit & Hlt).
    apply (IH t' db' b' (keccak256 (penc t) :: vis)); [apply Hp'|done|done|done| | |].
    - etrans; [apply Hp'|done].
    - by apply above_child.
    - simpl. lia. }
  rewrite E1. go_ret. destruct err as [e|]; [by exists (Some e), db1, b1|].
  destruct (commit_self_spec db1 b1 t nd (pg_inv _ _ _ _ Hp1) Hw Hi Ee (Hs1 eq_refl)) as (err & db2 & b2 & E2 & Hp2 & Hs2).
  exists err, db2, b2. split; [exact E2|]. split; [by eapply progress_trans|done].
Qed.
End write_out.

(** ** What the database promises to the tries above it *)

Section promises.
Context `{EthDB} `{FastCache} `{RLPLaws} `{EthCommon} `{!HashLaws} `{!CollisionFree}.
Context `{!EthDBLaws} `{StateAccountRLP}.
Implicit Types (db : Database) (L : list (list Z)).

Definition db_inv db : Prop := exists L, db_ok db L.

(** The database holds, under the root [r], a trie that stores [m]. *)
Definition state_at db (r : list Z) (m : gmap (list Z) (list Z)) : Prop :=
  exists pt, pt_holds pt m /\ r = root_hash pt /\ pstored (held db) true pt.

(** The same on disk: what a restarted database finds. *)
Definition durable_at db (r : list Z) (m : gmap (list Z) (list Z)) : Prop :=
  exists pt, pt_holds pt m /\ r = root_hash pt /\ pstored (on_disk db) true pt.

Lemma state_at_keeps db db' r m : keeps db db' -> state_at db r m -> state_at db' r m.
Proof. intros Hk (pt & Hh & Hr & Hs). exists pt. do 2 (split; [done|]). by eapply held_mono. Qed.

Lemma List_not_empty pt : pinner pt = true -> keccak256 (penc pt) <> EmptyRootHash.
Proof.
  intros Hi E. rewrite EmptyRootHash_keccak in E. apply keccak256_inj in E.
  destruct (penc_List pt Hi) as [c Ec]. rewrite Ec in E.
  apply (Bytes_not_List [] c [] []); [done|]. by rewrite !app_nil_r.
Qed.

(** A root hash stands for one map. *)
Lemma root_hash_inj pt pt' m m' :
  pt_holds pt m -> pt_holds pt' m' -> root_hash pt = root_hash pt' -> m = m'.
Proof.
  intros Hh Hh' Er. assert (pt = pt') as ->.
  { destruct (pinner pt) eqn:Hi, (pinner pt') eqn:Hi'.
    - rewrite !pinner_root_hash in Er by done. apply (penc_inj (loose:=false)); [apply Hh|apply Hh'|done|done|by apply keccak256_inj].
    - destruct pt'; try done; [|by destruct Hh']. rewrite pinner_root_hash in Er by done. by apply List_not_empty in Er.
    - destruct pt; try done; [|by destruct Hh]. rewrite (pinner_root_hash pt') in Er by done.
      symmetry in Er. by apply List_not_empty in Er.
    - destruct pt, pt'; try done; by destruct Hh, Hh'. }
  apply map_eq. intros k. destruct (decide (bytes k)) as [Hb|Hb].
  - by rewrite <- (holds_get _ _ Hh k Hb), <- (holds_get _ _ Hh' k Hb).
  - destruct (m !! k) as [v|] eqn:E; [by destruct (holds_dom _ _ Hh k v E)|].
    destruct (m' !! k) as [v|] eqn:E'; [by destruct (holds_dom _ _ Hh' k v E')|done].
Qed.

Lemma state_at_unique db db' r m m' : state_at db r m -> state_at db' r m' -> m = m'.
Proof. intros (pt & Hh & -> & _) (pt' & Hh' & Er & _). by apply (root_hash_inj pt pt'). Qed.

Lemma pt_holds_nil m : pt_holds PNil m -> m = ∅.
Proof.
  intros Hh. apply map_eq. intros k. rewrite lookup_empty. destruct (m !! k) as [v|] eqn:E; [|done].
  destruct (holds_dom _ _ Hh k v E) as [Hb _]. pose proof (holds_get _ _ Hh k Hb) as Hg. by rewrite E in Hg.
Qed.

Lemma state_at_empty db : state_at db EmptyRootHash ∅.
Proof. exists PNil. split; [apply pt_holds_empty|]. split; [done|constructor]. Qed.

(** The flags of a trie opened at a root: a clean root is that of the opened
    trie. *)
Definition opened db (pt0 : ptrie) (p : list Z) (t : ptrie) : Prop :=
  clean_stored (solid (held db)) p t /\ (p = [] -> t = pt0).

Definition open_flags db (pt0 : ptrie) : FlagSpec := hash_flags (opened db pt0).

(** A trie over the database, opened on [pt0]. *)
Record trie_on db (pt0 : ptrie) (t : Trie) (m : gmap (list Z) (list Z)) : Prop := {
  on_rep : @trie_rep _ _ (open_flags db pt0) t m;
  on_owner : owner t = zero_hash;
}.

Lemma open_flag_ok db pt0 p f t :
  (p = [] -> t = pt0) -> @flag_ok (hash_flags (clean_stored (solid (held db)))) p f t ->
  @flag_ok (open_flags db pt0) p f t.
Proof. intros Hp [Hh Hc]. split; [done|]. intros Hd. split; [by apply Hc|done]. Qed.

Lemma opened_below db pt0 q n t rd :
  q <> [] -> @expands _ _ (hash_flags (clean_stored (solid (held db)))) rd q n t ->
  @expands _ _ (open_flags db pt0) rd q n t.
Proof.
  intros Hq. apply (expands_mono _ _ rd (fun q => q <> [])); [| |done|done].
  2:{ intros p f t' Hp Hf. apply open_flag_ok; [by intros ->|done]. }
  intros p q' Hp. by destruct p.
Qed.

Lemma opened_root db pt0 n rd :
  wf pt0 -> @expands _ _ (hash_flags (clean_stored (solid (held db)))) rd [] n pt0 ->
  @expands _ _ (open_flags db pt0) rd [] n pt0.
Proof.
  intros Hw He.
  assert (forall n, is_inner n = true -> @expands _ _ (hash_flags (clean_stored (solid (held db)))) rd [] n pt0 ->
     @expands _ _ (open_flags db pt0) rd [] n pt0) as Hin.
  { clear n He. intros n Hi He. inversion He as [| |? k c f t Hfl Hs Hc|? cs f ts Hfl Hs Hlen Hch|]; subst; try done.
    - apply ex_short; [by apply open_flag_ok|intros Hh; by eapply settled_mono, Hs|].
      apply opened_below; [|done]. by apply (wf_short_ne (loose:=false) k t).
    - apply ex_full; [by apply open_flag_ok| |done|].
      + intros Hh i c t Hc Ht. by eapply settled_mono, Hs.
      + intros i c t Hc Ht. by apply opened_below, Hch. }
  destruct (is_inner n) eqn:Hi; [by apply Hin|].
  inversion He as [| | | |? h n' t Hfl Hl Hs He']; subst; try constructor; try done.
  eapply ex_hash; [by apply open_flag_ok|done| |].
  { by apply (settled_mono (hash_flags (clean_stored (solid (held db))))). }
  apply Hin; [by eapply load_inner|done].
Qed.

Lemma New_at_spec db r m :
  db_inv db -> state_at db r m ->
  exists pt t, New (TrieID r) (GetReader db) = Ret (Ok t) /\ trie_on db pt t m /\
    pt_holds pt m /\ r = root_hash pt.
Proof.
  intros [L Hok] (pt & Hh & Hr & Hs).
  assert (proper_root r m) as Hp.
  { intros Er. apply (state_at_unique db db r); [by exists pt|]. rewrite Er. apply state_at_empty. }
  destruct (New_spec (held db) r m pt (GetReader db)
              (mkReader (fun _ _ hash => Ok (match (Node db hash).1 with Ok b => b | Err _ => [] end))))
    as (t & E & Ho & Ht); try done.
  { intros o p h b Hd _ _ _. simpl. unfold held in Hd. by rewrite Hd. }
  exists pt, t. split; [done|]. split; [|done]. split; [|done].
  destruct Ht as (pt' & He & Hh'). rewrite (pt_holds_unique pt' pt m Hh' Hh) in He.
  exists pt. split; [|done]. apply opened_root; [apply Hh|done].
Qed.

(** Opening a trie at a root the database holds: [New] succeeds and the trie
    stores exactly the map committed under that root. *)
Theorem New_at_root db r m :
  db_inv db -> state_at db r m ->
  exists pt t, New (TrieID r) (GetReader db) = Ret (Ok t) /\ trie_on db pt t m /\
    pt_holds pt m /\ r = root_hash pt.
Proof. apply New_at_spec. Qed.

(** *** Update *)

Lemma forEachWithOrder_elem s n : n ∈ forEachWithOrder s <-> exists p, nodes s !! p = Some n.
Proof.
  unfold forEachWithOrder. rewrite list_elem_of_omap. split.
  - intros (p & _ & E). by exists p.
  - intros (p & E). exists p. split; [|done]. apply elem_of_reverse.
    rewrite merge_sort_Permutation. apply list_elem_of_fmap. exists (p, n). split; [done|].
    by apply elem_of_map_to_list.
Qed.

Lemma insert_list_spec ns : forall db L,
  db_ok db L -> Forall entry_ok ns ->
  exists db' L', ofold (fun db n => if isDeleted n then Ret db else db_insert db (mn_hash n) (mn_size n) (mn_node n))
      db ns = Ret db' /\ db_ok db' L' /\ keeps db db' /\ diskdb db' = diskdb db /\
    forall n, n ∈ ns -> isDeleted n = false -> held db' (mn_hash n) (encode (mn_node n)).
Proof.
  induction ns as [|n ns IH]; intros db L Hok Hns.
  { exists db, L. split; [done|]. split; [done|]. split; [apply keeps_refl|]. split; [done|set_solver]. }
  apply Forall_cons_1 in Hns as [Hn Hns]. cbn [ofold].
  assert (exists db1 L1, (if isDeleted n then Ret db else db_insert db (mn_hash n) (mn_size n) (mn_node n)) = Ret db1 /\
    db_ok db1 L1 /\ keeps db db1 /\ diskdb db1 = diskdb db /\
    (isDeleted n = false -> length (mn_hash n) = 32%nat /\ held db1 (mn_hash n) (encode (mn_node n))))
    as (db1 & L1 & E1 & Hok1 & Hk1 & Hd1 & Hh1).
  { destruct (isDeleted n) eqn:Ed.
    { exists db, L. split; [done|]. split; [done|]. split; [apply keeps_refl|done]. }
    destruct Hn as [->|(t & Hw & Hi & Eh & Hcol)].
    { unfold isDeleted in Ed. by apply bool_decide_eq_false in Ed. }
    destruct (db_insert_spec db L t (mn_hash n) (mn_size n) (mn_node n) Hok) as (db1 & L1 & E & Hok1 & Hk & Hh & Hd & _);
      [done|]. exists db1, L1. do 4 (split; [done|]). intros _. rewrite (proj1 Hcol). split; [|done].
    rewrite Eh. apply keccak256_length. }
  rewrite E1. go_ret. destruct (IH db1 L1 Hok1 Hns) as (db' & L' & E' & Hok' & Hk' & Hd' & Hh').
  exists db', L'. split; [done|]. split; [done|]. split; [by eapply keeps_trans|]. split; [congruence|].
  intros n' [->|Hin]%elem_of_cons Hdel; [|by apply Hh']. destruct (Hh1 Hdel) as [Hl Hh]. by apply Hk'.
Qed.

Lemma Update_spec db L s order :
  db_ok db L -> entries_ok s -> leaves s = [] ->
  exists db' L', Update db {[ zero_hash := s ]} order = Ret (None, db') /\ db_ok db' L' /\ keeps db db' /\
    diskdb db' = diskdb db /\
    forall p n, nodes s !! p = Some n -> isDeleted n = false -> held db' (mn_hash n) (encode (mn_node n)).
Proof.
  intros Hok Hs Hlv. unfold Update. rewrite lookup_singleton_eq. rewrite bool_decide_true by (by eexists).
  assert (forall l, Forall (fun o => o <> zero_hash) l -> ofold (fun db o => match ({[zero_hash := s]} : MergedNodeSet) !! o with
      | Some s => insert_set db s | None => Ret db end) db (l ++ [zero_hash]) = insert_set db s) as Hf.
  { induction 1 as [|o l Ho Hl IH]; cbn [app ofold].
    - rewrite lookup_singleton_eq. by destruct (insert_set db s).
    - rewrite lookup_singleton_ne by done. exact IH. }
  rewrite Hf by (apply Forall_forall; intros o Ho; by apply list_elem_of_filter in Ho as [? _]).
  destruct (insert_list_spec (forEachWithOrder s) db L Hok) as (db' & L' & E & Hok' & Hk & Hd & Hh).
  { apply Forall_forall. intros n (p & Hp)%forEachWithOrder_elem. by apply (Hs p). }
  unfold insert_set. rewrite E. go_ret. rewrite Hlv. exists db', L'. do 4 (split; [done|]).
  intros p n Hp. apply Hh, forEachWithOrder_elem. by exists p.
Qed.

(** *** Commit *)

Lemma preimage_commit_spec db L st force :
  db_ok db L -> exists err db', preimage_commit db st force = (err, db') /\ db_ok db' L /\ keeps db db' /\
    dirties db' = dirties db.
Proof.
  intros Hok. unfold preimage_commit. case_match.
  { exists None, db. do 2 (split; [done|]). split; [apply keeps_refl|done]. }
  set (ops := map _ _). destruct (disk_Write (diskdb db) ops) as [d|e] eqn:E.
  2:{ exists (Some e), db. do 2 (split; [done|]). split; [apply keeps_refl|done]. }
  assert (forall k, length k = 32%nat -> disk_Get d k = disk_Get (diskdb db) k) as Hd.
  { intros k Hk. rewrite (disk_Write_Get _ _ _ E k). destruct (batch_get ops k) as [v|] eqn:Eb; [|done].
    apply batch_get_Some, list_elem_of_fmap in Eb as ([h w] & [= -> _] & _). by apply preimageKey_length in Hk. }
  eexists _, _. split; [done|]. set (db' := set_preimages _ _).
  assert (db_ok db' L) as Hok'.
  { split; [by destruct (ok_list _ _ Hok)|apply Hok|apply Hok| |].
    - intros h b Hl Hdb. unfold on_disk in Hdb. simpl in Hdb. rewrite Hd in Hdb by done. by apply Hok.
    - apply (closed_ext (on_disk db)); [|apply Hok]. intros b. unfold on_disk. simpl. by rewrite Hd by apply keccak256_length. }
  split; [done|]. split; [|done]. intros h b Hl Hh.
  destruct (held_inv _ _ _ _ Hok Hh) as (Hz & [(e & Ee & ->)|Hdb]); [by apply (held_dirty _ L)|].
  apply (held_disk _ L); [done..|]. unfold on_disk. simpl. by rewrite Hd.
Qed.

Lemma keeps_stats db a b c d : keeps db (set_stats db a b c d).
Proof.
  intros h x _. unfold held, Node. cbn [cleans dirties diskdb set_stats].
  case_bool_decide; [done|]. destruct (cleans db ≫= _); [done|]. destruct (dirties db !! h); [done|].
  destruct (negb _); done.
Qed.

Lemma Commit_db_spec db pt report :
  db_inv db -> wf pt -> pstored (held db) true pt ->
  exists err db', db_Commit db (root_hash pt) report = Ret (err, db') /\ db_inv db' /\ keeps db db' /\
    (err = None -> pstored (on_disk db') true pt).
Proof.
  intros [L Hok] Hw Hst. unfold db_Commit.
  assert (exists err db0, (match db_preimages db with Some st => preimage_commit db st true | None => (None, db) end)
     = (err, db0) /\ db_ok db0 L /\ keeps db db0) as (err0 & db0 & E0 & Hok0 & Hk0).
  { destruct (db_preimages db) as [st|].
    - destruct (preimage_commit_spec db L st true Hok) as (err & db0 & E & ? & ? & _). by exists err, db0.
    - exists None, db. do 2 (split; [done|]). apply keeps_refl. }
  rewrite E0. destruct err0 as [e|].
  { exists (Some e), db0. split; [done|]. split; [by exists L|]. split; [done|discriminate]. }
  assert (commit_inv db0 []) as Hinv.
  { split; [by exists L|constructor|]. apply (closed_ext (on_disk db0)); [|apply Hok0].
    intros b. unfold stored. split; [by left|]. intros [?|?]; [done|set_solver]. }
  assert (out_ok pt (db_commit (S (size (dirties db0))) db0 (root_hash pt) []) db0 []) as (err & db1 & b & E1 & Hp1 & Hs1).
  { destruct (pinner pt) eqn:Hi.
    - rewrite pinner_root_hash by done.
      apply (db_commit_spec (dom (dirties db0)) _ pt db0 [] []); [done|done|done|by apply (held_mono db)|done| |].
      + split; [constructor|]. split; set_solver.
      + rewrite size_dom. simpl. lia.
    - destruct pt; try done. exists None, db0, []. split; [|split; [by apply progress_refl|constructor]].
      cbn [db_commit root_hash]. destruct (dirties db0 !! EmptyRootHash) as [e|] eqn:Ee; [|done]. exfalso.
      rewrite EmptyRootHash_keccak in Ee. destruct (ok_dirty _ _ Hok0 _ _ (keccak_not_zero _) Ee) as (_ & t & _ & Hi' & Et & _).
      apply keccak256_inj in Et. destruct (penc_List t Hi') as [c Ec]. rewrite Ec in Et.
      apply (Bytes_not_List [] c [] []); [done|]. by rewrite !app_nil_r. }
  rewrite E1. go_ret. pose proof Hp1 as [[[L1 Hok1] Hb1 Hc1] Hk1 _ _]. destruct err as [e|].
  { exists (Some e), db1. split; [done|]. split; [by exists L1|]. split; [by eapply keeps_trans|discriminate]. }
  destruct (flush_spec db1 L1 b Hok1 Hb1 Hc1) as (err & db2 & E2 & [[L2 Hok2] Hk2 _ Hdone _]).
  rewrite E2. go_ret. destruct err as [e|].
  { exists (Some e), db2. split; [done|]. split; [by exists L2|].
    split; [by eapply keeps_trans; [|eapply keeps_trans]|discriminate]. }
  exists None, (set_stats db2 0 0 0 0). split; [done|].
  split; [exists L2; destruct Hok2 as [[? ? ? ? ? ?] ? ? ? ?]; split; [by split|done..]|].
  split; [eapply keeps_trans; [exact Hk0|]; eapply keeps_trans; [exact Hk1|];
          eapply keeps_trans; [exact Hk2|apply keeps_stats]|].
  intros _. apply (pstored_mono_keccak (stored db1 b)); [|by apply Hs1]. intros x. by apply Hdone.
Qed.
Lemma trie_on_stored db pt0 t pt :
  @expands _ _ (open_flags db pt0) (reader t) [] (root t) pt ->
  @expands _ _ (hash_flags (clean_stored (solid (held db)))) (reader t) [] (root t) pt.
Proof.
  apply (expands_mono _ _ _ (fun _ => True)); [done| |done|done].
  intros p f t' _ [Hh Hc]. split; [done|]. intros Hd. by apply Hc.
Qed.

(** What storing a committed trie must achieve. *)
Record stored_as db (rt : list Z) (m : gmap (list Z) (list Z)) (err : option string) db2 : Prop := {
  sa_inv : db_inv db2;
  sa_state : state_at db2 rt m;
  sa_keeps : keeps db db2;
  sa_durable : err = None -> durable_at db2 rt m;
}.

(** Taking a committed trie in. *)
Lemma update_trie_spec db pt0 t m :
  db_inv db -> trie_on db pt0 t m ->
  exists rt ons t', Commit t false = Ret (rt, ons, t') /\
    match ons with
    | None => pt_holds pt0 m
    | Some s => exists sets, NewWithNodeSet (Some s) = Ret sets /\
        forall order, exists db1, Update db sets order = Ret (None, db1) /\
          db_inv db1 /\ state_at db1 rt m /\ keeps db db1
    end.
Proof.
  intros [L Hok] [(pt & He & Hh) Hown].
  destruct (Commit_spec (solid (held db)) t m pt false) as (ons & t' & E & [Hst Hent]);
    [by apply (trie_on_stored db pt0 t)|done|].
  exists (root_hash pt), ons, t'. split; [done|]. destruct ons as [s|].
  2:{ destruct (Commit_none (opened db pt0) t m pt false (root_hash pt) t' He Hh E) as [_ Heq].
      by rewrite <- (Heq eq_refl). }
  destruct (Hent s eq_refl) as [Hes Hos]. pose proof (Commit_leaves t _ s t' E) as Hlv.
  unfold NewWithNodeSet, Merge. rewrite lookup_empty, Hos, Hown, insert_empty.
  eexists. split; [done|]. intros order.
  destruct (Update_spec db L s order Hok Hes Hlv) as (db1 & L1 & E1 & Hok1 & Hk1 & _ & Hh1).
  exists db1. split; [done|]. split; [by exists L1|]. split; [|done]. exists pt. do 2 (split; [done|]).
  eapply pstored_mono_keccak; [|exact Hst]. intros b [(Hb & _)|(s' & [= <-] & q & n & _ & Hq & En & <-)].
  - by apply Hk1; [apply keccak256_length|].
  - rewrite <- En. apply (Hh1 q n Hq). unfold isDeleted. apply bool_decide_false. rewrite En. apply keccak_not_zero.
Qed.

(** Writing out a root the database holds. *)
Lemma commit_root_spec db r m report :
  db_inv db -> state_at db r m ->
  exists err db', db_Commit db r report = Ret (err, db') /\ db_inv db' /\ keeps db db' /\
    (err = None -> durable_at db' r m).
Proof.
  intros Hi (pt & Hh & -> & Hs).
  destruct (Commit_db_spec db pt report Hi) as (err & db' & E & Hi' & Hk & Hd); [apply Hh|done|].
  exists err, db'. do 3 (split; [done|]). intros He. exists pt. auto.
Qed.

Lemma store_trie_spec db pt0 t m report :
  db_inv db -> trie_on db pt0 t m ->
  exists rt ons t', Commit t false = Ret (rt, ons, t') /\
    match ons with
    | None => pt_holds pt0 m
    | Some s => exists sets, NewWithNodeSet (Some s) = Ret sets /\
        forall order, exists db1 err db2, Update db sets order = Ret (None, db1) /\
          db_Commit db1 rt report = Ret (err, db2) /\ stored_as db rt m err db2
    end.
Proof.
  intros Hi Ht. destruct (update_trie_spec db pt0 t m Hi Ht) as (rt & ons & t' & E & Hm).
  exists rt, ons, t'. split; [done|]. destruct ons as [s|]; [|done]. destruct Hm as (sets & Es & Hm).
  exists sets. split; [done|]. intros order. destruct (Hm order) as (db1 & E1 & Hi1 & Ha1 & Hk1).
  destruct (commit_root_spec db1 rt m report Hi1 Ha1) as (err & db2 & E2 & Hi2 & Hk2 & Hd2).
  exists db1, err, db2. do 2 (split; [done|]). split; [done|by eapply state_at_keeps|by eapply keeps_trans|done].
Qed.

(** C19. Committing a trie into the database: [Commit] of the trie, [Update] of
    the database with its node set and [Commit] of the database never panic; after
    them the database holds the stored map under the returned root (and every
    root it held before), and if the disk writes succeeded the map is on disk.
    Without a node set, the trie stores what it stored when it was opened. *)
Theorem store_trie_correct db pt0 t m report :
  db_inv db -> trie_on db pt0 t m ->
  exists rt ons t', Commit t false = Ret (rt, ons, t') /\
    match ons with
    | None => pt_holds pt0 m
    | Some s => exists sets, NewWithNodeSet (Some s) = Ret sets /\
        forall order, exists db1 err db2, Update db sets order = Ret (None, db1) /\
          db_Commit db1 rt report = Ret (err, db2) /\ stored_as db rt m err db2
    end.
Proof. apply store_trie_spec. Qed.

(** Without disk failures nothing fails. *)
Section no_failure.
Context (Hw : forall d ops, exists d', disk_Write d ops = Ok d').

Lemma flush_no_err db b err db' : flush db b = Ret (err, db') -> err = None.
Proof using Hw.
  unfold flush. destruct (Hw (diskdb db) b) as [d ->]. intros (db1 & _ & E)%outcome_bind_Ret. by simplify_eq.
Qed.

Lemma db_commit_no_err fuel : forall db h b err db' b', db_commit fuel db h b = Ret (err, db', b') -> err = None.
Proof using Hw.
  induction fuel as [|fuel IH]; intros db h b err db' b' E; [done|]. cbn [db_commit] in E.
  destruct (dirties db !! h) as [nd|]; [|by simplify_eq].
  apply outcome_bind_Ret in E as ([[err1 db1] b1] & E1 & E).
  assert (err1 = None) as ->.
  { revert E1. generalize (forChilds nd) as l. clear E. intros l.
    assert (forall (st : commit_state), st.1.1 = None -> ofold (fun (st : commit_state) child =>
        match st.1.1 with None => db_commit fuel st.1.2 child st.2 | Some _ => Ret st end) st l = Ret (err1, db1, b1) ->
        err1 = None) as Hg; [|by apply Hg].
    induction l as [|c l IHl]; intros st Hst E; cbn [ofold] in E; [by simplify_eq/=|].
    rewrite Hst in E. apply outcome_bind_Ret in E as (st1 & E1 & E). destruct st1 as [[e d] bb].
    apply (IHl (e, d, bb)); [|done]. by eapply IH. }
  simpl in E. case_match; [|by simplify_eq].
  apply outcome_bind_Ret in E as ([err2 db2] & E2 & E). apply flush_no_err in E2. by simplify_eq.
Qed.

Lemma db_Commit_no_err db h report err db' : db_Commit db h report = Ret (err, db') -> err = None.
Proof using Hw.
  unfold db_Commit.
  assert (forall st, (preimage_commit db st true).1 = None) as Hp.
  { intros st. unfold preimage_commit. case_match; [done|]. destruct (Hw (diskdb db) (map (fun hp => (preimageKey hp.1, hp.2)) (map_to_list (preimages st)))) as [d ->]. done. }
  destruct (match db_preimages db with Some st => preimage_commit db st true | None => (None, db) end) as [err0 db0] eqn:E0.
  assert (err0 = None) as ->.
  { destruct (db_preimages db) as [st|]; [specialize (Hp st); rewrite E0 in Hp; done|by simplify_eq]. }
  intros ([[err1 db1] b1] & E1 & E)%outcome_bind_Ret. apply db_commit_no_err in E1. subst err1.
  apply outcome_bind_Ret in E as ([err2 db2] & E2 & E). apply flush_no_err in E2. subst err2. by simplify_eq.
Qed.
End no_failure.

(** *** Restarting on the same disk *)

Lemma restarted_ok (db : Database) (L : list (list Z)) config :
  db_ok db L -> match config with Some c => cfg_Cache c <= 0 | None => True end ->
  db_ok (NewDatabaseWithConfig (diskdb db) config) [].
Proof.
  intros Hok Hcfg. split.
  - split.
    + by eexists.
    + intros h Hz. unfold NewDatabaseWithConfig. cbn [dirties]. rewrite lookup_singleton_ne by done.
      split; [by intros [? ?]|set_solver].
    + apply NoDup_singleton.
    + done.
    + done.
    + done.
  - destruct config as [c|]; [|done]. simpl. by rewrite (proj2 (Z.ltb_ge _ _)).
  - intros h e Hz E. unfold NewDatabaseWithConfig in E. cbn [dirties] in E. by rewrite lookup_singleton_ne in E.
  - apply Hok.
  - apply Hok.
Qed.

(** C20. A committed state survives a restart: a new database over the disk that a
    commit left holds the committed map under its root. *)
Theorem restart_keeps_committed db r m config :
  db_inv db -> durable_at db r m ->
  match config with Some c => cfg_Cache c <= 0 | None => True end ->
  let db' := NewDatabaseWithConfig (diskdb db) config in
  db_inv db' /\ state_at db' r m /\ durable_at db' r m.
Proof.
  intros [L Hok] (pt & Hh & Hr & Hs) Hcfg. cbv zeta.
  pose proof (restarted_ok db L config Hok Hcfg) as Hok'. split; [by exists []|]. split.
  - exists pt. do 2 (split; [done|]). eapply pstored_mono_keccak; [|exact Hs]. intros b Hb.
    by apply (held_disk _ [] _ _ Hok'); [apply keccak256_length|apply keccak_not_zero|].
  - by exists pt.
Qed.
End promises.

(** ** What a root hash says *)

Section commits.
Context `{RLPLaws} `{EthCommon} `{!HashLaws} `{!CollisionFree} (clean : list Z -> ptrie -> Prop).
#[local] Instance flags_commits : FlagSpec := hash_flags clean.

(** C17. The root hash stands for the stored map: two tries, whatever operations
    produced them and whichever of their nodes are in memory, have the same root hash
    exactly when they store the same map; and hashing succeeds and leaves both maps
    as they were. *)
Theorem Hash_commits (t1 t2 : Trie) (m1 m2 : gmap (list Z) (list Z)) :
  trie_rep t1 m1 -> trie_rep t2 m2 ->
  exists h1 h2 t1' t2', Hash t1 = Ret (h1, t1') /\ Hash t2 = Ret (h2, t2') /\ trie_rep t1' m1 /\ trie_rep t2' m2 /\
    (h1 = h2 <-> m1 = m2).
Proof.
  intros (pt1 & He1 & Hh1) (pt2 & He2 & Hh2).
  destruct (Hash_spec clean t1 m1 pt1) as (t1' & E1 & [He1' _] & _); [by split|].
  destruct (Hash_spec clean t2 m2 pt2) as (t2' & E2 & [He2' _] & _); [by split|].
  exists (root_hash pt1), (root_hash pt2), t1', t2'. do 2 (split; [done|]). split; [by exists pt1|]. split; [by exists pt2|].
  split; [by apply root_hash_inj|]. intros ->. by rewrite (pt_holds_unique pt1 pt2 m2).
Qed.
End commits.

(** ** A concrete database *)

Module DBSample.
Definition ethdb : EthDB := {|
  disk := gmap (list Z) (list Z);
  disk_Get := fun d k => d !! k;
  disk_Write := fun d ops => Ok (foldl (fun d kv => <[kv.1 := kv.2]> d) d ops);
  ValueSize := fun b => Z.of_nat (length b);
  IdealBatchSize := 2;
  preimageKey := fun h => replicate 11 115 ++ take 32 (h ++ replicate 32 0);
|}.

Definition fastcache : FastCache := {|
  Cache := gmap (list Z) (list Z);
  cache_New := fun _ => ∅;
  cache_LoadFromFileOrNew := fun _ _ => ∅;
  cache_Get := fun c k => c !! k;
  cache_Set := fun c k v => <[k := v]> c;
|}.

Definition account : StateAccountRLP := {| DecodeAccountRoot := fun _ => Err "rlp" |}.

Lemma ethdb_laws : @EthDBLaws ethdb.
Proof.
  split.
  - intros d ops d' [= <-] k. cbn [disk_Get ethdb]. revert d.
    induction ops as [|[k' v] ops IH]; intros d; [done|]. simpl. rewrite IH.
    destruct (batch_get ops k); [done|]. case_bool_decide as E; [subst; by rewrite lookup_insert_eq|].
    by rewrite lookup_insert_ne.
  - intros h. cbn [preimageKey ethdb]. rewrite length_app, length_replicate, length_take, length_app, length_replicate. lia.
Qed.

#[local] Instance inst_eth : EthDB := ethdb.
#[local] Instance inst_cache : FastCache := fastcache.
#[local] Instance inst_env : HashEnv := RLPSample.env.
#[local] Instance inst_rlp : RLP := RLPSample.rlp.
#[local] Instance inst_common : EthCommon := RLPSample.eth.

Definition db0 : @Database ethdb fastcache := @NewDatabase ethdb fastcache ∅.

Lemma db0_inv : db_inv db0.
Proof.
  exists []. split; [split|done|..].
  - by eexists.
  - intros h Hz. unfold db0, NewDatabase, NewDatabaseWithConfig. cbn [dirties]. rewrite lookup_singleton_ne by done.
    split; [by intros [? ?]|set_solver].
  - apply NoDup_singleton.
  - done.
  - done.
  - done.
  - intros h e Hz E. unfold db0, NewDatabase, NewDatabaseWithConfig in E. cbn [dirties] in E.
    by rewrite lookup_singleton_ne in E.
  - intros h b _ E. change ((∅ : gmap (list Z) (list Z)) !! h = Some b) in E. by rewrite lookup_empty in E.
  - intros t Hw Hi E. change ((∅ : gmap (list Z) (list Z)) !! @keccak256 RLPSample.env (penc t) = Some (penc t)) in E.
    by rewrite lookup_empty in E.
Qed.

(** The empty trie of the database with one binding. *)
Definition tree : Trie :=
  mkTrie (ShortNode (keybytesToHex Sample.key) (ValueNode Sample.val) newFlag) zero_hash 1
    (mkTrieReader zero_hash (@GetReader ethdb fastcache RLPSample.env db0 (@EmptyRootHash RLPSample.eth)) None) newTracer.

Lemma tree_on : trie_on db0 PNil tree Sample.stored.
Proof.
  split; [|done]. exists (PShort (keybytesToHex Sample.key) (PVal Sample.val)). split.
  - apply ex_short; [apply flag_ok_new|done|constructor].
  - apply (pt_holds_insert PNil ∅ Sample.key Sample.val); [apply pt_holds_empty|apply Sample.key_bytes|done].
Qed.

#[local] Instance inst_rlp_laws : RLPLaws := RLPSample.rlp_laws.
#[local] Instance inst_hash_laws : HashLaws := RLPSample.hash_laws.
#[local] Instance inst_free : CollisionFree := RLPSample.keccak_inj.
#[local] Instance inst_disk_laws : EthDBLaws := ethdb_laws.
#[local] Instance inst_account : StateAccountRLP := account.

(** The tree committed into the empty database. *)
Definition stored_db : outcome (list Z * Database) :=
  '(rt, ons, _) ← Commit tree false;
  sets ← NewWithNodeSet ons;
  '(_, db1) ← Update db0 sets [];
  '(err, db2) ← db_Commit db1 rt false;
  match err with None => Ret (rt, db2) | Some _ => Panic end.

(** Two tries filled in opposite orders, and one of them with one key less. *)
#[local] Instance inst_flags : FlagSpec := hash_flags (fun _ _ => True).
Definition put_in (k v : list Z) (t : Trie) : Trie := match Trie.Update t k v with Ret (_, t') => t' | Panic => t end.
Definition nothing : Trie := mkTrie NilNode [] 0 newEmptyReader newTracer.
Lemma nothing_rep : trie_rep nothing ∅.
Proof. exists PNil. split; [constructor|apply pt_holds_empty]. Qed.
Lemma put_in_rep t m k v : trie_rep t m -> bytes k -> trie_rep (put_in k v t) (map_update m k v).
Proof. intros Ht Hb. destruct (trie_Update_spec t m k v Ht Hb) as (t' & E & Ht' & _). unfold put_in. by rewrite E. Qed.

Lemma Hash_commits_witness :
  let one := put_in [33] [9] (put_in [18] [7] nothing) in
  let two := put_in [18] [7] (put_in [33] [9] nothing) in
  exists h t1 t2 h' t3, Hash one = Ret (h, t1) /\ Hash two = Ret (h, t2) /\ Hash (put_in [33] [] two) = Ret (h', t3) /\ h' <> h.
Proof.
  assert (forall b, (b = 18 \/ b = 33) -> bytes [b]) as Hb by (intros b Hb; repeat constructor; unfold is_byte; lia).
  pose proof (put_in_rep _ _ [33] [9] (put_in_rep _ _ [18] [7] nothing_rep (Hb 18 ltac:(lia))) (Hb 33 ltac:(lia))) as H1'.
  pose proof (put_in_rep _ _ [18] [7] (put_in_rep _ _ [33] [9] nothing_rep (Hb 33 ltac:(lia))) (Hb 18 ltac:(lia))) as H2'.
  pose proof (put_in_rep _ _ [33] [] H2' (Hb 33 ltac:(lia))) as H3'.
  destruct (Hash_commits (fun _ _ => True) _ _ _ _ H1' H2') as (h1 & h2 & t1 & t2 & E1 & E2 & _ & _ & Hiff).
  destruct (Hash_commits (fun _ _ => True) _ _ _ _ H3' H1') as (h3 & h1' & t3 & t1' & E3 & E1' & _ & _ & Hiff').
  rewrite E1 in E1'. assert (h1' = h1) as -> by congruence.
  assert (h1 = h2) as <- by (apply Hiff; vm_compute; reflexivity).
  exists h1, t1, t2, h3, t3. split; [exact E1|]. split; [exact E2|]. split; [exact E3|]. intros Eh. apply Hiff' in Eh.
  apply (f_equal (fun m : gmap (list Z) (list Z) => m !! [33])) in Eh. vm_compute in Eh. discriminate Eh.
Defined.

Lemma store_trie_correct_witness :
  db_inv db0 /\ trie_on db0 PNil tree Sample.stored /\
  exists rt ons t', Commit tree false = Ret (rt, ons, t') /\
    match ons with
    | None => pt_holds PNil Sample.stored
    | Some s => exists sets, NewWithNodeSet (Some s) = Ret sets /\
        forall order, exists db1 err db2, Update db0 sets order = Ret (None, db1) /\
          db_Commit db1 rt false = Ret (err, db2) /\ stored_as db0 rt Sample.stored err db2
    end.
Proof.
  split; [apply db0_inv|]. split; [apply tree_on|].
  apply (store_trie_correct db0 PNil tree Sample.stored false db0_inv tree_on).
Defined.

Lemma stored_db_durable :
  exists rt db2, stored_db = Ret (rt, db2) /\ db_inv db2 /\ durable_at db2 rt Sample.stored /\ state_at db2 rt Sample.stored.
Proof.
  assert ((match stored_db with Ret _ => true | Panic => false end) = true) as Hs by (vm_compute; reflexivity).
  unfold stored_db in *.
  destruct (store_trie_spec db0 PNil tree Sample.stored false db0_inv tree_on) as (rt & ons & t' & E & Hm).
  rewrite E in Hs |- *. unfold mbind, outcome_bind in *. destruct ons as [s|]; [|done].
  destruct Hm as (sets & E1 & Hm). destruct (Hm []) as (db1 & err & db2 & E2 & E3 & [Hinv Hst Hk Hd]).
  rewrite E1, E2, E3 in Hs |- *.
  destruct err; [done|]. exists rt, db2. auto.
Qed.

Lemma New_at_root_witness :
  exists rt db2, stored_db = Ret (rt, db2) /\
    exists pt t, New (TrieID rt) (GetReader db2) = Ret (Ok t) /\ trie_on db2 pt t Sample.stored /\
      pt_holds pt Sample.stored /\ rt = root_hash pt.
Proof.
  destruct stored_db_durable as (rt & db2 & E & Hinv & _ & Hst). exists rt, db2. split; [exact E|].
  apply (New_at_root db2 rt Sample.stored Hinv Hst).
Defined.

Lemma restart_keeps_committed_witness :
  exists rt db2, stored_db = Ret (rt, db2) /\
    let db' := NewDatabaseWithConfig (diskdb db2) (Some (mkConfig 0 "" true)) in
    db_inv db' /\ state_at db' rt Sample.stored /\ durable_at db' rt Sample.stored.
Proof.
  destruct stored_db_durable as (rt & db2 & E & Hinv & Hd & _). exists rt, db2. split; [exact E|].
  apply (restart_keeps_committed db2 rt Sample.stored (Some (mkConfig 0 "" true)) Hinv Hd). simpl. lia.
Defined.
End DBSample.
