(* ===== verification/Core.v ===== *)
(** * Accounts, transactions, blocks and the transaction pool ([core/])

    The data of the chain with the gob encodings behind a codec class, the
    balance operations on account states, and the transaction pool: a FIFO
    queue and a relay pool per shard behind a mutex. *)

From stdpp Require Import base gmap strings list countable.
From Stdlib Require Import ZArith Lia.
From S2P Require Import Prelude.

Local Open Scope Z_scope.

(** ** Encodings *)

(** [encoding/gob] on one type: what is encoded decodes to itself, and an
    encoding is never empty (it starts with the type's description). *)
Class Gob (A : Type) := {
  gob_enc : A -> list Z;
  gob_dec : list Z -> option A;
  gob_roundtrip : forall a, gob_dec (gob_enc a) = Some a;
  gob_nonempty : forall a, gob_enc a <> [];
}.

(** [crypto/sha256]. *)
Class Sha256 := { Sum256 : list Z -> list Z }.

(** A decoder that calls [log.Panic] on an error. *)
Definition must_dec {A} `{Gob A} (b : list Z) : outcome A := of_option (gob_dec b).

Lemma must_dec_enc {A} `{Gob A} (a : A) : must_dec (gob_enc a) = Ret a.
Proof. unfold must_dec. by rewrite gob_roundtrip. Qed.

(** ** Accounts ([core/account.go]) *)

Definition Address := string.

Record AccountState := mkAS {
  AcAddress : Address;
  as_Nonce : Z;
  Balance : Z;
  StorageRoot : list Z;
  CodeHash : list Z;
}.

Definition set_balance (s : AccountState) (b : Z) : AccountState :=
  mkAS (AcAddress s) (as_Nonce s) b (StorageRoot s) (CodeHash s).

(** The boolean result and the account after the call. *)
Definition Deduct (s : AccountState) (val : Z) : bool * AccountState :=
  if Balance s <? val then (false, s) else (true, set_balance s (Balance s - val)).

Definition Deposit (s : AccountState) (value : Z) : AccountState :=
  set_balance s (Balance s + value).

Definition AS_Encode `{Gob AccountState} (s : AccountState) : list Z := gob_enc s.
Definition DecodeAS `{Gob AccountState} (b : list Z) : outcome AccountState := must_dec b.
Definition AS_Hash `{Gob AccountState} `{Sha256} (s : AccountState) : list Z := Sum256 (AS_Encode s).

(** ** Transactions ([core/transaction.go]) *)

(** Times are nanoseconds after Go's zero time. *)
Definition time := Z.
Definition IsZero (t : time) : bool := t =? 0.

Record Transaction := mkTx {
  Id : Z;
  Sender : Address;
  Recipient : Address;
  Nonce : Z;
  Signature : list Z;
  Value : Z;
  TxHash : list Z;
  Time : time;
  AllocateTime : time;
  ExecutionTime : time;
  Relayed : bool;
  HasBroker : bool;
  SenderIsBroker : bool;
  OriginalSender : Address;
  FinalRecipient : Address;
  RawTxHash : list Z;
}.

Definition set_Time (tx : Transaction) (t : time) : Transaction :=
  mkTx (Id tx) (Sender tx) (Recipient tx) (Nonce tx) (Signature tx) (Value tx) (TxHash tx)
    t (AllocateTime tx) (ExecutionTime tx) (Relayed tx) (HasBroker tx) (SenderIsBroker tx)
    (OriginalSender tx) (FinalRecipient tx) (RawTxHash tx).

Definition set_TxHash (tx : Transaction) (h : list Z) : Transaction :=
  mkTx (Id tx) (Sender tx) (Recipient tx) (Nonce tx) (Signature tx) (Value tx) h
    (Time tx) (AllocateTime tx) (ExecutionTime tx) (Relayed tx) (HasBroker tx) (SenderIsBroker tx)
    (OriginalSender tx) (FinalRecipient tx) (RawTxHash tx).

Definition Tx_Encode `{Gob Transaction} (tx : Transaction) : list Z := gob_enc tx.
Definition DecodeTx `{Gob Transaction} (b : list Z) : outcome Transaction := must_dec b.

(** The hash covers the transaction with its hash field still empty. *)
Definition NewTransaction4 `{Gob Transaction} `{Sha256} (sender recipient : Address)
  (value nonce : Z) (proposeTime : time) : Transaction :=
  let tx := mkTx 0 sender recipient nonce [] value [] proposeTime 0 0 false false false "" "" [] in
  set_TxHash tx (Sum256 (Tx_Encode tx)).

Definition NewTransaction `{Gob Transaction} `{Sha256} (sender recipient : Address)
  (value nonce : Z) (now : time) : Transaction :=
  let tx := mkTx 0 sender recipient nonce [] value [] now 0 0 false false false "" "" [] in
  set_TxHash tx (Sum256 (Tx_Encode tx)).

(** ** Blocks ([core/block.go]) *)

(** The bloom filter is the set of its bits. *)
Record BlockHeader := mkBH {
  ParentBlockHash : list Z;
  bh_StateRoot : list Z;
  TxRoot : list Z;
  BloomFilter : gset Z;
  Number : Z;
  bh_Time : time;
  Miner : Z;
}.

Record Block := mkBlock {
  Header : BlockHeader;
  Body : list Transaction;
  b_Hash : list Z;
}.

Definition BH_Encode `{Gob BlockHeader} (bh : BlockHeader) : list Z := gob_enc bh.
Definition DecodeBH `{Gob BlockHeader} (b : list Z) : outcome BlockHeader := must_dec b.
Definition BH_Hash `{Gob BlockHeader} `{Sha256} (bh : BlockHeader) : list Z := Sum256 (BH_Encode bh).
Definition NewBlock (bh : BlockHeader) (bb : list Transaction) : Block := mkBlock bh bb [].
Definition B_Encode `{Gob Block} (b : Block) : list Z := gob_enc b.
Definition DecodeB `{Gob Block} (b : list Z) : outcome Block := must_dec b.

(** ** The transaction pool ([core/txpool.go]) *)

(** A nil [RelayPool] is [None]: reading it finds nothing, writing panics. *)
Record TxPool := mkPool {
  TxQueue : list Transaction;
  RelayPool : option (gmap Z (list Transaction));
  lock : bool;
}.

(** A call on a mutex-protected object returns, waits for a mutex that is held,
    or dies (a write to a nil map, [Unlock] of an unlocked mutex). *)
Inductive sync (A : Type) : Type :=
| Done (a : A)
| Blocked
| Fatal.
Arguments Done {A} a.
Arguments Blocked {A}.
Arguments Fatal {A}.

(** [lock.Lock(); defer lock.Unlock()] around a body. *)
Definition locked {A} (p : TxPool) (body : sync A) : sync A :=
  if lock p then Blocked else body.

Definition NewTxPool : TxPool := mkPool [] (Some ∅) false.

Definition with_queue (p : TxPool) (q : list Transaction) : TxPool := mkPool q (RelayPool p) (lock p).
Definition with_relay (p : TxPool) (r : option (gmap Z (list Transaction))) : TxPool :=
  mkPool (TxQueue p) r (lock p).

Definition AddTx2Pool (p : TxPool) (tx : Transaction) (now : time) : sync TxPool :=
  locked p (Done (with_queue p (TxQueue p ++ [if IsZero (Time tx) then set_Time tx now else tx]))).

(** [nows] are the readings of the clock, one per transaction. *)
Definition AddTxs2Pool (p : TxPool) (txs : list Transaction) (nows : nat -> time) : sync TxPool :=
  locked p (Done (with_queue p (TxQueue p ++ imap (fun i tx => set_Time tx (nows i)) txs))).

Definition AddTxs2Pool_Head (p : TxPool) (txs : list Transaction) : sync TxPool :=
  locked p (Done (with_queue p (txs ++ TxQueue p))).

Definition PackTxs (p : TxPool) (max_txs : Z) : sync (list Transaction * TxPool) :=
  locked p
    (let len := Z.of_nat (length (TxQueue p)) in
     let txNum := Z.to_nat (if len <? max_txs then len else max_txs) in
     Done (take txNum (TxQueue p), with_queue p (drop txNum (TxQueue p)))).

Definition AddRelayTx (p : TxPool) (tx : Transaction) (shardID : Z) : sync TxPool :=
  locked p
    match RelayPool p with
    | None => Fatal
    | Some rp => Done (with_relay p (Some (<[shardID := default [] (rp !! shardID) ++ [tx]]> rp)))
    end.

Definition GetLocked (p : TxPool) : sync TxPool :=
  if lock p then Blocked else Done (mkPool (TxQueue p) (RelayPool p) true).
Definition GetUnlocked (p : TxPool) : sync TxPool :=
  if lock p then Done (mkPool (TxQueue p) (RelayPool p) false) else Fatal.

Definition GetTxQueueLen (p : TxPool) : sync Z := locked p (Done (Z.of_nat (length (TxQueue p)))).

Definition ClearRelayPool (p : TxPool) : sync TxPool := locked p (Done (with_relay p None)).

(** [int(minRelaySize)] reinterprets the 64 bits as signed. *)
Definition PackRelayTxs (p : TxPool) (shardID minRelaySize maxRelaySize : Z)
  : sync (option (list Transaction) * TxPool) :=
  locked p
    match RelayPool p ≫= lookup shardID with
    | None => Done (None, p)
    | Some txs =>
        let len := Z.of_nat (length txs) in
        if len <? i64 minRelaySize then Done (None, p)
        else
          let txNum := Z.to_nat (if len <? maxRelaySize then len else maxRelaySize) in
          Done (Some (take txNum txs),
                with_relay p (fmap (<[shardID := drop txNum txs]>) (RelayPool p)))
    end.

(** The inner loop of [TransferTxs] over one shard's pool. *)
Definition transfer_shard (addr : Address) (shardID : Z) (pool : list Transaction)
  (acc : list Transaction * gmap Z (list Transaction))
  : list Transaction * gmap Z (list Transaction) :=
  foldl (fun acc tx =>
    if bool_decide (Sender tx = addr) then (acc.1 ++ [tx], acc.2)
    else (acc.1, <[shardID := default [] (acc.2 !! shardID) ++ [tx]]> acc.2)) acc pool.

(** [order] is the order in which [range txpool.RelayPool] visits the shards. *)
Definition TransferTxs (p : TxPool) (addr : Address) (order : list Z)
  : sync (list Transaction * TxPool) :=
  locked p
    (let moved := filter (fun tx => Sender tx = addr) (TxQueue p) in
     let queue := filter (fun tx => Sender tx <> addr) (TxQueue p) in
     let rp := default ∅ (RelayPool p) in
     let '(moved', rp') :=
       foldl (fun acc sid => transfer_shard addr sid (default [] (rp !! sid)) acc) (moved, ∅) order in
     Done (moved', mkPool queue (Some rp') (lock p))).

(** ** FIFO order of the queue *)

Inductive pool_op :=
| OpAdd (tx : Transaction) (now : time)
| OpAdds (txs : list Transaction) (nows : nat -> time)
| OpPack (max_txs : Z).

Definition pool_step (p : TxPool) (op : pool_op) : sync (list Transaction * TxPool) :=
  match op with
  | OpAdd tx now =>
      match AddTx2Pool p tx now with Done p' => Done ([], p') | Blocked => Blocked | Fatal => Fatal end
  | OpAdds txs nows =>
      match AddTxs2Pool p txs nows with Done p' => Done ([], p') | Blocked => Blocked | Fatal => Fatal end
  | OpPack n => PackTxs p n
  end.

(** The batches a sequence of calls returns, and the pool it leaves. *)
Fixpoint pool_run (p : TxPool) (ops : list pool_op) : sync (list (list Transaction) * TxPool) :=
  match ops with
  | [] => Done ([], p)
  | op :: ops =>
      match pool_step p op with
      | Done (out, p') =>
          match pool_run p' ops with
          | Done (outs, p'') => Done (out :: outs, p'')
          | Blocked => Blocked
          | Fatal => Fatal
          end
      | Blocked => Blocked
      | Fatal => Fatal
      end
  end.

(** What an operation puts into the queue: the transactions with their times set. *)
Definition op_added (op : pool_op) : list Transaction :=
  match op with
  | OpAdd tx now => [if IsZero (Time tx) then set_Time tx now else tx]
  | OpAdds txs nows => imap (fun i tx => set_Time tx (nows i)) txs
  | OpPack _ => []
  end.

Definition op_bound (op : pool_op) : Z := match op with OpPack n => n | _ => 0 end.

Lemma pool_step_spec p op :
  lock p = false -> 0 <= op_bound op ->
  exists out p', pool_step p op = Done (out, p') /\ lock p' = false /\
    out ++ TxQueue p' = TxQueue p ++ op_added op /\ Z.of_nat (length out) <= op_bound op.
Proof.
  intros Hl Hb. destruct op as [tx now|txs nows|n];
    unfold pool_step, AddTx2Pool, AddTxs2Pool, PackTxs, locked; rewrite Hl;
    (eexists _, _; split; [done|]; split; [done|]); simpl in *.
  - done.
  - done.
  - rewrite app_nil_r, take_drop. split; [done|]. rewrite length_take.
    destruct (_ <? _) eqn:E; [apply Z.ltb_lt in E|]; lia.
Qed.

Lemma pool_run_spec ops : forall p,
  lock p = false -> Forall (fun op => 0 <= op_bound op) ops ->
  exists outs p', pool_run p ops = Done (outs, p') /\
    concat outs ++ TxQueue p' = TxQueue p ++ concat (map op_added ops) /\
    Forall2 (fun out op => Z.of_nat (length out) <= op_bound op) outs ops.
Proof.
  induction ops as [|op ops IH]; intros p Hl Hb.
  - exists [], p. split; [done|]. simpl. rewrite app_nil_r. split; [done|constructor].
  - apply Forall_cons_1 in Hb as [Hop Hb].
    destruct (pool_step_spec p op Hl Hop) as (out & p1 & E & Hl1 & Ho & Hlen).
    destruct (IH p1 Hl1 Hb) as (outs & p' & E' & Hs & Hf).
    exists (out :: outs), p'. simpl. rewrite E, E'. split; [done|]. split; [|by constructor].
    rewrite <- app_assoc, Hs, app_assoc, Ho. by rewrite <- app_assoc.
Qed.

(** The pool is a FIFO queue: whatever sequence of additions and packings is
    run, no call blocks or dies, the batches packed so far followed by what is
    left in the queue are exactly the transactions added, each once and in order
    of arrival, and no batch exceeds the size it was asked for. *)
Theorem TxPool_fifo (ops : list pool_op) :
  Forall (fun op => 0 <= op_bound op) ops ->
  exists outs p', pool_run NewTxPool ops = Done (outs, p') /\
    concat outs ++ TxQueue p' = concat (map op_added ops) /\
    Forall2 (fun out op => Z.of_nat (length out) <= op_bound op) outs ops.
Proof. intros Hb. by apply (pool_run_spec ops NewTxPool). Qed.

(** ** Account migration *)

Lemma transfer_shard_spec addr sid pool : forall m rp,
  transfer_shard addr sid pool (m, rp) =
    (m ++ filter (fun tx => Sender tx = addr) pool,
     match filter (fun tx => Sender tx <> addr) pool with
     | [] => rp
     | kept => <[sid := default [] (rp !! sid) ++ kept]> rp
     end).
Proof.
  induction pool as [|tx pool IH]; intros m rp; [by rewrite app_nil_r|].
  unfold transfer_shard in *. simpl. rewrite !filter_cons.
  destruct (decide (Sender tx = addr)) as [E|E].
  - rewrite bool_decide_true, decide_False by naive_solver. rewrite IH.
    by rewrite <- app_assoc.
  - rewrite bool_decide_false, decide_True by done. rewrite IH. f_equal.
    rewrite lookup_insert_eq. simpl. destruct (filter (fun tx => Sender tx <> addr) pool); [done|].
    rewrite insert_insert_eq. by rewrite <- app_assoc.
Qed.

(** The relay transactions of the shards in a list. *)
Definition relay_of (rp : gmap Z (list Transaction)) (order : list Z) : list Transaction :=
  concat (map (fun sid => default [] (rp !! sid)) order).

Lemma transfer_fold_spec addr (rp : gmap Z (list Transaction)) order : forall m acc,
  NoDup order -> (forall sid, sid ∈ order -> acc !! sid = None) ->
  exists acc',
    foldl (fun acc sid => transfer_shard addr sid (default [] (rp !! sid)) acc) (m, acc) order
      = (m ++ filter (fun tx => Sender tx = addr) (relay_of rp order), acc') /\
    (forall sid, sid ∈ order ->
       default [] (acc' !! sid) = filter (fun tx => Sender tx <> addr) (default [] (rp !! sid))) /\
    (forall sid, sid ∉ order -> acc' !! sid = acc !! sid).
Proof.
  induction order as [|sid order IH]; intros m acc Hnd Hacc.
  - exists acc. unfold relay_of. simpl. rewrite app_nil_r. split; [done|].
    split; [intros sid Hs; set_solver|done].
  - inversion Hnd as [|? ? Hni Hnd']; subst. simpl. rewrite transfer_shard_spec.
    rewrite (Hacc sid) by set_solver. simpl.
    set (kept := filter (fun tx => Sender tx <> addr) (default [] (rp !! sid))).
    set (acc1 := match kept with [] => acc | t :: l => <[sid := t :: l]> acc end).
    assert (default [] (acc1 !! sid) = kept /\ forall s, s <> sid -> acc1 !! s = acc !! s) as [H1 H2].
    { unfold acc1. destruct kept as [|t kept'].
      - rewrite Hacc by set_solver; done.
      - rewrite lookup_insert_eq. split; [done|]. intros s Hs. by rewrite lookup_insert_ne. }
    destruct (IH (m ++ filter (fun tx => Sender tx = addr) (default [] (rp !! sid))) acc1 Hnd')
      as (acc' & E & Hin & Hout).
    { intros s Hs. rewrite H2 by set_solver. apply Hacc. set_solver. }
    exists acc'. rewrite E. unfold relay_of. simpl. rewrite list.filter_app, app_assoc.
    split; [done|]. split.
    + intros s [->|Hs]%elem_of_cons; [|by apply Hin]. by rewrite Hout.
    + intros s Hs. rewrite Hout, H2; set_solver.
Qed.

(** Every transaction of a pool, the shards of the relay pool in [order]. *)
Definition pool_txs (p : TxPool) (order : list Z) : list Transaction :=
  TxQueue p ++ relay_of (default ∅ (RelayPool p)) order.

(** Moving an account out of the pool: whatever order the relay pool is
    visited in, exactly the transactions of that sender are handed over; in the
    queue and in every shard's relay list exactly the others remain, in their
    order. *)
Theorem TransferTxs_correct (p : TxPool) (addr : Address) (order : list Z) :
  lock p = false -> NoDup order ->
  (forall sid, sid ∈ order <-> is_Some (default ∅ (RelayPool p) !! sid)) ->
  exists moved p', TransferTxs p addr order = Done (moved, p') /\
    moved = filter (fun tx => Sender tx = addr) (pool_txs p order) /\
    TxQueue p' = filter (fun tx => Sender tx <> addr) (TxQueue p) /\
    forall sid, default [] (default ∅ (RelayPool p') !! sid) =
      filter (fun tx => Sender tx <> addr) (default [] (default ∅ (RelayPool p) !! sid)).
Proof.
  intros Hl Hnd Hord. unfold TransferTxs, locked. rewrite Hl.
  destruct (transfer_fold_spec addr (default ∅ (RelayPool p)) order
              (filter (fun tx => Sender tx = addr) (TxQueue p)) ∅ Hnd) as (rp' & E & Hin & Hout).
  { intros. apply lookup_empty. }
  rewrite E. eexists _, _. split; [done|]. split; [unfold pool_txs; by rewrite list.filter_app|].
  split; [done|]. intros sid. simpl. destruct (decide (sid ∈ order)) as [Hs|Hs]; [by apply Hin|].
  rewrite Hout, lookup_empty by done. rewrite Hord in Hs.
  destruct (_ !! sid) eqn:Es; [|done]. exfalso. apply Hs. by eexists.
Qed.

(** ** Concrete runs *)

Module PoolSample.
Definition tx (id : Z) (s r : Address) (v : Z) : Transaction :=
  mkTx id s r 0 [] v [id] 0 0 0 false false false "" "" [].
Definition ops : list pool_op :=
  [OpAdd (tx 1 "a" "b" 5) 10; OpAdds [tx 2 "b" "c" 6; tx 3 "a" "c" 7] (fun i => 20 + Z.of_nat i); OpPack 2].
Definition relays : gmap Z (list Transaction) := {[ 1 := [tx 4 "a" "d" 1; tx 5 "e" "f" 2] ]}.
Definition pool : TxPool := mkPool [tx 1 "a" "b" 5; tx 2 "b" "c" 6] (Some relays) false.
End PoolSample.

Lemma TxPool_fifo_witness :
  Forall (fun op => 0 <= op_bound op) PoolSample.ops /\
  exists outs p', pool_run NewTxPool PoolSample.ops = Done (outs, p') /\
    concat outs ++ TxQueue p' = concat (map op_added PoolSample.ops) /\
    Forall2 (fun out op => Z.of_nat (length out) <= op_bound op) outs PoolSample.ops.
Proof.
  assert (Forall (fun op => 0 <= op_bound op) PoolSample.ops) as Hb by (repeat constructor; simpl; lia).
  split; [exact Hb|]. exact (TxPool_fifo PoolSample.ops Hb).
Defined.

Lemma TransferTxs_correct_witness :
  exists moved p', TransferTxs PoolSample.pool "a" [1] = Done (moved, p') /\
    moved = filter (fun tx => Sender tx = "a"%string) (pool_txs PoolSample.pool [1]) /\
    TxQueue p' = filter (fun tx => Sender tx <> "a"%string) (TxQueue PoolSample.pool) /\
    forall sid, default [] (default ∅ (RelayPool p') !! sid) =
      filter (fun tx => Sender tx <> "a"%string) (default [] (default ∅ (RelayPool PoolSample.pool) !! sid)).
Proof.
  apply (TransferTxs_correct PoolSample.pool "a" [1]); [reflexivity|..].
  - constructor; [set_solver|constructor].
  - intros sid. simpl. unfold PoolSample.relays. rewrite lookup_singleton_is_Some. set_solver.
Defined.
