(* ===== verification/Storage.v ===== *)
(** * Block storage ([storage/storage.go])

    The bolt database of a node: blocks and block headers by hash and the hash of
    the newest block, in three buckets.  Bolt is a class parameter. *)

From stdpp Require Import base gmap strings list pretty.
From Stdlib Require Import ZArith Lia.
From S2P Require Import Prelude Core.

Local Open Scope Z_scope.

(** ** [params/static_config.go] *)

Record ChainConfig := mkCC {
  ChainID : Z;
  NodeID : Z;
  ShardID : Z;
  Nodes_perShard : Z;
  ShardNums : Z;
  BlockSize : Z;
  BlockInterval : Z;
  InjectSpeed : Z;
  MaxRelayBlockSize : Z;
}.

(** ** Bolt *)

(** One [Put] in a read-write transaction, a [Get] in a read-only one, and the
    calls around them, with the errors they report. *)
Class Bolt := {
  bolt_db : Type;
  bolt_Open : string -> res string bolt_db;
  bolt_CreateBucket : bolt_db -> string -> res string bolt_db;
  bolt_Put : bolt_db -> string -> list Z -> list Z -> res string bolt_db;
  bolt_Get : bolt_db -> string -> list Z -> option (list Z);
  bolt_Sync : bolt_db -> option string;
}.

(** Keys that bolt accepts. *)
Definition bolt_key (k : list Z) : Prop := k <> [] /\ Z.of_nat (length k) <= 32768.

(** What is put is what is got; creating a bucket works and keeps every pair; without
    input/output failures an acceptable key can be written and synced; the empty
    key has no value. *)
Class BoltLaws `{Bolt} : Prop := {
  bolt_Get_Put : forall d b k v d', bolt_Put d b k v = Ok d' ->
    forall b' k', bolt_Get d' b' k' = if decide (b' = b /\ k' = k) then Some v else bolt_Get d b' k';
  bolt_Get_Create : forall d b d', bolt_CreateBucket d b = Ok d' ->
    forall b' k', bolt_Get d' b' k' = bolt_Get d b' k';
  bolt_Create_total : forall d b, exists d', bolt_CreateBucket d b = Ok d';
  bolt_Put_total : forall d b k v, bolt_key k -> exists d', bolt_Put d b k v = Ok d';
  bolt_Sync_total : forall d, bolt_Sync d = None;
  bolt_Get_nil : forall d b, bolt_Get d b [] = None;
}.

(** ** The storage *)

Record Storage `{Bolt} := mkStorage {
  dbFilePath : string;
  blockBucket : string;
  blockHeaderBucket : string;
  newestBlockHashBucket : string;
  DataBase : bolt_db;
}.

(** What [os.Stat] says of the record directory, with the outcome of [os.Mkdir]
    when it is missing. *)
Inductive dir_stat := DirExists | DirMissing (mkdir_err : option string) | DirError.

Section storage.
Context `{Bolt} `{Gob Block} `{Gob BlockHeader}.

Definition set_DataBase (s : Storage) (d : bolt_db) : Storage :=
  mkStorage _ (dbFilePath s) (blockBucket s) (blockHeaderBucket s) (newestBlockHashBucket s) d.

(** [log.Panic] on an error. *)
Definition must {A} (r : res string A) : outcome A := match r with Ok a => Ret a | Err _ => Panic end.

Definition dbPath (cc : ChainConfig) : string :=
  "./expTest/record/S" +:+ pretty (Z.to_N (ShardID cc)) +:+ "N" +:+ pretty (Z.to_N (NodeID cc)) +:+ "_database".

Definition NewStorage (stat : dir_stat) (cc : ChainConfig) : outcome Storage :=
  match stat with
  | DirMissing (Some _) | DirError => Panic
  | DirExists | DirMissing None =>
      let path := dbPath cc in
      db ← must (bolt_Open path);
      db ← must (bolt_CreateBucket db "block");
      db ← must (bolt_CreateBucket db "blockHeader");
      db ← must (bolt_CreateBucket db "newestBlockHash");
      Ret (mkStorage _ path "block" "blockHeader" "newestBlockHash" db)
  end.

Definition only_key : list Z := string_bytes "OnlyNewestBlock".

Definition UpdateNewestBlock (s : Storage) (newestbhash : list Z) : outcome Storage :=
  d ← must (bolt_Put (DataBase s) (newestBlockHashBucket s) only_key newestbhash);
  Ret (set_DataBase s d).

Definition AddBlockHeader (s : Storage) (blockhash : list Z) (bh : BlockHeader) : outcome Storage :=
  d ← must (bolt_Put (DataBase s) (blockHeaderBucket s) blockhash (BH_Encode bh));
  Ret (set_DataBase s d).

Definition Storage_AddBlock (s : Storage) (b : Block) : outcome Storage :=
  d ← must (bolt_Put (DataBase s) (blockBucket s) (b_Hash b) (B_Encode b));
  s ← AddBlockHeader (set_DataBase s d) (b_Hash b) (Header b);
  s ← UpdateNewestBlock s (b_Hash b);
  match bolt_Sync (DataBase s) with Some _ => Panic | None => Ret s end.

Definition GetBlockHeader (s : Storage) (bhash : list Z) : outcome (res string BlockHeader) :=
  match bolt_Get (DataBase s) (blockHeaderBucket s) bhash with
  | None => Ret (Err "the block is not existed")
  | Some e => bh ← DecodeBH e; Ret (Ok bh)
  end.

Definition GetBlock (s : Storage) (bhash : list Z) : outcome (res string Block) :=
  match bolt_Get (DataBase s) (blockBucket s) bhash with
  | None => Ret (Err "the block is not existed")
  | Some e => b ← DecodeB e; Ret (Ok b)
  end.

Definition GetNewestBlockHash (s : Storage) : res string (list Z) :=
  match bolt_Get (DataBase s) (newestBlockHashBucket s) only_key with
  | None => Err "cannot find the newest block hash"
  | Some h => Ok h
  end.
End storage.

(** ** Blocks are found again *)

(** The three buckets are different. *)
Definition storage_ok `{Bolt} (s : Storage) : Prop :=
  blockBucket s = "block"%string /\ blockHeaderBucket s = "blockHeader"%string /\
  newestBlockHashBucket s = "newestBlockHash"%string.

Section correct.
Context `{BoltLaws} `{Gob Block} `{Gob BlockHeader}.

Lemma only_key_ok : bolt_key only_key.
Proof. split; [done|]. vm_compute. discriminate. Qed.

Lemma must_Put d b k v :
  bolt_key k -> exists d', must (bolt_Put d b k v) = Ret d' /\
    forall b' k', bolt_Get d' b' k' = if decide (b' = b /\ k' = k) then Some v else bolt_Get d b' k'.
Proof.
  intros Hk. destruct (bolt_Put_total d b k v Hk) as [d' E]. exists d'. rewrite E. split; [done|].
  by apply bolt_Get_Put.
Qed.

Lemma NewStorage_spec cc d :
  bolt_Open (dbPath cc) = Ok d ->
  exists s, NewStorage DirExists cc = Ret s /\ storage_ok s /\
    forall b k, bolt_Get (DataBase s) b k = bolt_Get d b k.
Proof.
  intros E. unfold NewStorage, must. fold (dbPath cc). rewrite E. go_ret.
  destruct (bolt_Create_total d "block") as [d1 E1]. rewrite E1. go_ret.
  destruct (bolt_Create_total d1 "blockHeader") as [d2 E2]. rewrite E2. go_ret.
  destruct (bolt_Create_total d2 "newestBlockHash") as [d3 E3]. rewrite E3. go_ret.
  eexists. split; [done|]. split; [done|]. intros b k. simpl.
  by rewrite (bolt_Get_Create _ _ _ E3), (bolt_Get_Create _ _ _ E2), (bolt_Get_Create _ _ _ E1).
Qed.

(** What adding a block leaves in the three buckets. *)
Record block_added (s : Storage) (b : Block) (s' : Storage) : Prop := {
  ba_ok : storage_ok s';
  ba_block : GetBlock s' (b_Hash b) = Ret (Ok b);
  ba_header : GetBlockHeader s' (b_Hash b) = Ret (Ok (Header b));
  ba_newest : GetNewestBlockHash s' = Ok (b_Hash b);
  ba_others : forall h, h <> b_Hash b -> GetBlock s' h = GetBlock s h /\ GetBlockHeader s' h = GetBlockHeader s h;
}.

Lemma Storage_AddBlock_spec s b :
  storage_ok s -> bolt_key (b_Hash b) ->
  exists s', Storage_AddBlock s b = Ret s' /\ block_added s b s'.
Proof.
  intros (Eb & Eh & En) Hk. unfold Storage_AddBlock, AddBlockHeader, UpdateNewestBlock.
  destruct (must_Put (DataBase s) (blockBucket s) _ (B_Encode b) Hk) as (d1 & -> & H1'). go_ret.
  cbn [set_DataBase DataBase blockHeaderBucket newestBlockHashBucket].
  destruct (must_Put d1 (blockHeaderBucket s) _ (BH_Encode (Header b)) Hk) as (d2 & -> & H2'). go_ret.
  cbn [set_DataBase DataBase blockHeaderBucket newestBlockHashBucket].
  destruct (must_Put d2 (newestBlockHashBucket s) _ (b_Hash b) only_key_ok) as (d3 & -> & H3'). go_ret.
  cbn [DataBase set_DataBase]. rewrite bolt_Sync_total. eexists. split; [done|].
  rewrite Eb, Eh, En in *. split; [done|..]; unfold GetBlock, GetBlockHeader, GetNewestBlockHash; cbn;
    rewrite ?Eb, ?Eh, ?En.
  - rewrite H3', decide_False, H2', decide_False, H1', decide_True by naive_solver.
    unfold DecodeB, B_Encode. by rewrite must_dec_enc.
  - rewrite H3', decide_False, H2', decide_True by naive_solver.
    unfold DecodeBH, BH_Encode. by rewrite must_dec_enc.
  - by rewrite H3', decide_True by naive_solver.
  - intros h Hh. rewrite !H3', !decide_False, !H2', !decide_False, !H1', !decide_False by naive_solver. done.
Qed.

(** A block that was added is found again, by hash and as the newest one,
    with its header; every other block stays as it was. *)
Theorem Storage_roundtrip (s : Storage) (b : Block) :
  storage_ok s -> bolt_key (b_Hash b) ->
  exists s', Storage_AddBlock s b = Ret s' /\
    GetBlock s' (b_Hash b) = Ret (Ok b) /\ GetBlockHeader s' (b_Hash b) = Ret (Ok (Header b)) /\
    GetNewestBlockHash s' = Ok (b_Hash b) /\
    forall h, h <> b_Hash b -> GetBlock s' h = GetBlock s h /\ GetBlockHeader s' h = GetBlockHeader s h.
Proof.
  intros Hs Hk. destruct (Storage_AddBlock_spec s b Hs Hk) as (s' & E & [_ ? ? ? ?]). by exists s'.
Qed.
End correct.

(** ** A concrete bolt and concrete codecs *)

Module StorageSample.
Definition bolt_at (d0 : gmap (string * list Z) (list Z)) : Bolt := {|
  bolt_db := gmap (string * list Z) (list Z);
  bolt_Open := fun _ => Ok d0;
  bolt_CreateBucket := fun d _ => Ok d;
  bolt_Put := fun d b k v => if decide (k = []) then Err "key required" else Ok (<[(b, k) := v]> d);
  bolt_Get := fun d b k => if decide (k = []) then None else d !! (b, k);
  bolt_Sync := fun _ => None;
|}.

Lemma bolt_at_laws d0 : @BoltLaws (bolt_at d0).
Proof.
  split; cbn [bolt_db bolt_Put bolt_Get bolt_CreateBucket bolt_Sync bolt_at].
  - intros d b k v d' E b' k'. destruct (decide (k = [])) as [->|Hk]; [done|]. injection E as <-.
    destruct (decide (b' = b /\ k' = k)) as [[-> ->]|Hne].
    + by rewrite decide_False, lookup_insert_eq by done.
    + destruct (decide (k' = [])); [done|]. rewrite lookup_insert_ne by naive_solver. done.
  - intros d b d' [= <-]. done.
  - intros d b. by eexists.
  - intros d b k v [Hk _]. rewrite decide_False by done. by eexists.
  - done.
  - intros d b. by rewrite decide_True.
Qed.

Definition bolt : Bolt := bolt_at ∅.
Lemma bolt_laws : @BoltLaws bolt.
Proof. apply bolt_at_laws. Qed.

(** A codec for a countable type: one number that codes the value. *)
Definition code_gob {A} `{Countable A} : Gob A := {|
  gob_enc := fun a => [Z.pos (countable.encode a)];
  gob_dec := fun b => match b with [Z.pos p] => countable.decode p : option A | _ => None end;
  gob_roundtrip := fun a => decode_encode a;
  gob_nonempty := fun a E => ltac:(discriminate E);
|}.

#[export] Instance as_eq_dec : EqDecision AccountState.
Proof. solve_decision. Defined.
#[export] Program Instance as_countable : Countable AccountState :=
  inj_countable' (fun s => (AcAddress s, as_Nonce s, Balance s, StorageRoot s, CodeHash s))
    (fun '(a, n, b, r, c) => mkAS a n b r c) _.
Next Obligation. by intros []. Qed.

#[export] Instance tx_eq_dec : EqDecision Transaction.
Proof. solve_decision. Defined.
#[export] Program Instance tx_countable : Countable Transaction :=
  inj_countable' (fun t => (Id t, Sender t, Recipient t, Nonce t, Signature t, Value t, TxHash t,
      (Time t, AllocateTime t, ExecutionTime t), (Relayed t, HasBroker t, SenderIsBroker t),
      (OriginalSender t, FinalRecipient t, RawTxHash t)))
    (fun '(i, s, r, n, sg, v, h, (t1, t2, t3), (b1, b2, b3), (o, f, w)) =>
       mkTx i s r n sg v h t1 t2 t3 b1 b2 b3 o f w) _.
Next Obligation. by intros []. Qed.

#[export] Instance bh_eq_dec : EqDecision BlockHeader.
Proof. solve_decision. Defined.
#[export] Program Instance bh_countable : Countable BlockHeader :=
  inj_countable' (fun h => (ParentBlockHash h, bh_StateRoot h, TxRoot h, BloomFilter h, Number h, bh_Time h, Miner h))
    (fun '(p, s, t, b, n, tm, m) => mkBH p s t b n tm m) _.
Next Obligation. by intros []. Qed.

#[export] Instance block_eq_dec : EqDecision Block.
Proof. solve_decision. Defined.
#[export] Program Instance block_countable : Countable Block :=
  inj_countable' (fun b => (Header b, Body b, b_Hash b)) (fun '(h, b, x) => mkBlock h b x) _.
Next Obligation. by intros []. Qed.

Definition as_gob : Gob AccountState := code_gob.
Definition tx_gob : Gob Transaction := code_gob.
Definition bh_gob : Gob BlockHeader := code_gob.
Definition block_gob : Gob Block := code_gob.

Definition store : @Storage bolt := mkStorage bolt "" "block" "blockHeader" "newestBlockHash" ∅.
Definition block : Block := mkBlock (mkBH [] [] [] ∅ 0 0 0) [] [7].
End StorageSample.

Lemma Storage_roundtrip_witness :
  exists s', @Storage_AddBlock StorageSample.bolt StorageSample.block_gob StorageSample.bh_gob
      StorageSample.store StorageSample.block = Ret s' /\
    @GetBlock _ StorageSample.block_gob s' [7] = Ret (Ok StorageSample.block) /\
    @GetBlockHeader _ StorageSample.bh_gob s' [7] = Ret (Ok (Header StorageSample.block)) /\
    GetNewestBlockHash s' = Ok [7] /\
    forall h, h <> [7] -> @GetBlock _ StorageSample.block_gob s' h = @GetBlock _ StorageSample.block_gob StorageSample.store h /\
      @GetBlockHeader _ StorageSample.bh_gob s' h = @GetBlockHeader _ StorageSample.bh_gob StorageSample.store h.
Proof.
  apply (@Storage_roundtrip StorageSample.bolt StorageSample.bolt_laws StorageSample.block_gob StorageSample.bh_gob
           StorageSample.store StorageSample.block).
  - done.
  - split; [done|vm_compute; discriminate].
Defined.
