(* ===== verification/Chain.v ===== *)
(** * The disk-backed chain of a node ([chain/blockchain.go], [utils/utils.go])

    A node's chain: the state trie over the trie database, the block storage, the
    transaction pool and the account partition.  Every operation of
    [BlockChain_dbMPT] is modelled on the trie, the trie database and the storage
    as they are modelled in their own files; the proof query [TxOnChainVerify] is
    in [OnChain.v].  The clock is an argument, and calls on the
    pool may block on its mutex. *)

From stdpp Require Import base gmap strings list.
From Stdlib Require Import ZArith Lia.
From S2P Require Import Prelude Encoding TrieSpec Node Trie TrieMap Hasher Committer Reload Database Core Storage.

Local Open Scope Z_scope.

(** ** Calls that may block *)

#[export] Instance sync_bind : MBind sync := fun A B f m =>
  match m with Done a => f a | Blocked => Blocked | Fatal => Fatal end.

(** A panic ends the process. *)
Definition run {A} (o : outcome A) : sync A := match o with Ret a => Done a | Panic => Fatal end.

(** ** [utils/utils.go] *)

(** [params.ShardNum] and [params.Init_Balance]. *)
Class Params := { ShardNum : Z }.
Definition Init_Balance : Z := 10 ^ 44.

Definition hex_digit (c : Z) : option Z :=
  if (48 <=? c) && (c <=? 57) then Some (c - 48)
  else if (97 <=? c) && (c <=? 102) then Some (c - 87)
  else if (65 <=? c) && (c <=? 70) then Some (c - 55)
  else None.

(** [strconv.ParseUint(s, 16, 64)]. *)
Fixpoint parse_hex (acc : Z) (s : list Z) : option Z :=
  match s with
  | [] => Some acc
  | c :: s =>
      match hex_digit c with
      | None => None
      | Some d => if 2 ^ 64 <=? acc * 16 + d then None else parse_hex (acc * 16 + d) s
      end
  end.
Definition ParseUint16 (s : list Z) : option Z := match s with [] => None | _ => parse_hex 0 s end.

(** The conversion [int(num)] keeps the bits, and [%] keeps the sign. *)
Definition Addr2Shard `{Params} (addr : Address) : outcome Z :=
  let b := string_bytes addr in
  let last16_addr := if (16 <? length b)%nat then drop (length b - 16) b else b in
  match ParseUint16 last16_addr with
  | None => Panic
  | Some num => if ShardNum =? 0 then Panic else Ret (Z.rem (i64 num) ShardNum)
  end.

Definition big_endian (data : list Z) : Z := foldl (fun acc b => acc * 256 + b) 0 data.
Definition ModBytes (data : list Z) (mod_ : Z) : outcome Z :=
  if mod_ =? 0 then Panic else Ret (big_endian data mod mod_).

(** ** The chain *)

(** An in-memory key-value store starts empty. *)
Class MemoryDB `{EthDB} := {
  NewMemoryDatabase : disk;
  NewMemoryDatabase_empty : forall k, disk_Get NewMemoryDatabase k = None;
}.

Section chain.
Context `{EthDB} `{FastCache} `{HashEnv} `{EthCommon} `{RLP} `{StateAccountRLP} `{!MemoryDB}.
Context `{Bolt} `{Gob AccountState} `{Gob Transaction} `{Gob Block} `{Gob BlockHeader}.
Context `{Sha256} `{Params}.

(** The handle [db] of the struct is the disk below [triedb]. *)
Record BlockChain_dbMPT := mkBC {
  triedb : Database;
  ChainConfig_ : ChainConfig;
  CurrentBlock : Block;
  Storage_ : Storage;
  Txpool : TxPool;
  PartitionMap : gmap Address Z;
}.

Definition with_triedb (bc : BlockChain_dbMPT) (db : Database) : BlockChain_dbMPT :=
  mkBC db (ChainConfig_ bc) (CurrentBlock bc) (Storage_ bc) (Txpool bc) (PartitionMap bc).
Definition with_block (bc : BlockChain_dbMPT) (b : Block) (s : Storage) : BlockChain_dbMPT :=
  mkBC (triedb bc) (ChainConfig_ bc) b s (Txpool bc) (PartitionMap bc).
Definition with_pool (bc : BlockChain_dbMPT) (p : TxPool) : BlockChain_dbMPT :=
  mkBC (triedb bc) (ChainConfig_ bc) (CurrentBlock bc) (Storage_ bc) p (PartitionMap bc).

(** [trie.NewEmpty]: its error is dropped, a nil trie is dereferenced later. *)
Definition NewEmpty (db : Database) : outcome Trie :=
  r ← New (TrieID zero_hash) (GetReader db);
  match r with Ok t => Ret t | Err _ => Panic end.

(** An update whose error is dropped. *)
Definition put (st : Trie) (key value : list Z) : outcome Trie :=
  '(_, st') ← Trie.Update st key value; Ret st'.

(** A lookup whose error is dropped: nil. *)
Definition look (st : Trie) (key : list Z) : outcome (option (list Z) * Trie) :=
  '(r, st') ← Get st key; Ret (match r with Ok v => v | Err _ => None end, st').

Definition GetTxTreeRoot (txs : list Transaction) : outcome (list Z) :=
  transactionTree ← NewEmpty (NewDatabase NewMemoryDatabase);
  transactionTree ← ofold (fun st tx => put st (TxHash tx) (Tx_Encode tx)) transactionTree txs;
  '(h, _) ← Hash transactionTree; Ret h.

Definition GetBloomFilter (txs : list Transaction) : outcome (gset Z) :=
  ofold (fun bs tx => i ← ModBytes (TxHash tx) 2048; Ret ({[ i ]} ∪ bs)) ∅ txs.

Definition Update_PartitionMap (bc : BlockChain_dbMPT) (key : Address) (val : Z) : BlockChain_dbMPT :=
  mkBC (triedb bc) (ChainConfig_ bc) (CurrentBlock bc) (Storage_ bc) (Txpool bc)
    (<[key := val]> (PartitionMap bc)).

Definition Get_PartitionMap (bc : BlockChain_dbMPT) (key : Address) : outcome Z :=
  match PartitionMap bc !! key with
  | None => s ← Addr2Shard key; Ret (u64 s)
  | Some v => Ret v
  end.

Definition SendTx2Pool (bc : BlockChain_dbMPT) (txs : list Transaction) (nows : nat -> time) : sync BlockChain_dbMPT :=
  p ← AddTxs2Pool (Txpool bc) txs nows; Done (with_pool bc p).

(** ** The state transition *)

(** The guards of the two halves of a transaction. *)
Definition sender_here (bc : BlockChain_dbMPT) (tx : Transaction) : outcome bool :=
  if Relayed tx then Ret false
  else s ← Get_PartitionMap bc (Sender tx); Ret ((s =? ShardID (ChainConfig_ bc)) || HasBroker tx).
Definition recipient_here (bc : BlockChain_dbMPT) (tx : Transaction) : outcome bool :=
  s ← Get_PartitionMap bc (Recipient tx); Ret ((s =? ShardID (ChainConfig_ bc)) || HasBroker tx).

(** A fresh account in the [i]-th transaction. *)
Definition new_account (i : nat) : AccountState := mkAS "" (u64 (Z.of_nat i)) Init_Balance [] [].

Definition read_account (st : Trie) (addr : Address) (i : nat) : outcome (AccountState * Trie) :=
  '(enc, st) ← look st (string_bytes addr);
  s ← match enc with None => Ret (new_account i) | Some e => DecodeAS e end;
  Ret (s, st).

(** The first loop: the accounts of the block's transactions. *)
Fixpoint read_loop (bc : BlockChain_dbMPT) (i : nat) (txs : list Transaction) (st : Trie)
  (a2s : gmap Address AccountState) : outcome (Trie * gmap Address AccountState) :=
  match txs with
  | [] => Ret (st, a2s)
  | tx :: txs =>
      sh ← sender_here bc tx;
      '(st, a2s) ← (if (sh : bool) then
          '(s, st) ← read_account st (Sender tx) i; Ret (st, <[Sender tx := s]> a2s)
        else Ret (st, a2s) : outcome (Trie * gmap Address AccountState));
      rh ← recipient_here bc tx;
      '(st, a2s) ← (if (rh : bool) then
          '(s, st) ← read_account st (Recipient tx) i; Ret (st, <[Recipient tx := s]> a2s)
        else Ret (st, a2s) : outcome (Trie * gmap Address AccountState));
      read_loop bc (S i) txs st a2s
  end.

(** The second loop: the accounts are objects shared through the map, so a
    change is seen by the later transactions.  [Deduct] refuses an overdraft, and
    its result is dropped. *)
Definition deduct_step (i : nat) (tx : Transaction) (st : Trie) (a2s : gmap Address AccountState)
  : outcome (Trie * gmap Address AccountState) :=
  let '(s, a2s') := match a2s !! Sender tx with
                    | Some s => let s' := (Deduct s (Value tx)).2 in (s', <[Sender tx := s']> a2s)
                    | None => ((Deduct (new_account i) (Value tx)).2, a2s)
                    end in
  st ← put st (string_bytes (Sender tx)) (AS_Encode s); Ret (st, a2s').

Definition deposit_step (i : nat) (tx : Transaction) (st : Trie) (a2s : gmap Address AccountState)
  : outcome (Trie * gmap Address AccountState) :=
  let '(s, a2s') := match a2s !! Recipient tx with
                    | Some s => let s' := Deposit s (Value tx) in (s', <[Recipient tx := s']> a2s)
                    | None => (Deposit (new_account i) (Value tx), a2s)
                    end in
  st ← put st (string_bytes (Recipient tx)) (AS_Encode s); Ret (st, a2s').

Fixpoint write_loop (bc : BlockChain_dbMPT) (i : nat) (txs : list Transaction) (st : Trie)
  (a2s : gmap Address AccountState) (cnt : Z) : outcome (Trie * Z) :=
  match txs with
  | [] => Ret (st, cnt)
  | tx :: txs =>
      sh ← sender_here bc tx;
      '(st, a2s) ← (if (sh : bool) then deduct_step i tx st a2s else Ret (st, a2s));
      let cnt := if (sh : bool) then cnt + 1 else cnt in
      rh ← recipient_here bc tx;
      '(st, a2s) ← (if (rh : bool) then deposit_step i tx st a2s else Ret (st, a2s));
      let cnt := if (rh : bool) then cnt + 1 else cnt in
      write_loop bc (S i) txs st a2s cnt
  end.

Definition state_root (bc : BlockChain_dbMPT) : list Z := BytesToHash (bh_StateRoot (Header (CurrentBlock bc))).

(** [st.Commit], [triedb.Update] and [triedb.Commit] with the root to write out. *)
Definition store_trie (db : Database) (st : Trie) (write_root : list Z -> list Z) : outcome (list Z * Database) :=
  '(rt, ns, _) ← Commit st false;
  sets ← NewWithNodeSet ns;
  '(err, db1) ← Update db sets (map_to_list sets).*1;
  match err with
  | Some _ => Panic
  | None =>
      '(err, db2) ← db_Commit db1 (write_root rt) false;
      match err with Some _ => Panic | None => Ret (rt, db2) end
  end.

(** [log.Panic] when the trie cannot be opened. *)
Definition open_trie (db : Database) (root : list Z) : outcome Trie :=
  r ← New (TrieID root) (GetReader db); match r with Ok t => Ret t | Err _ => Panic end.

Definition GetUpdateStatusTrie (bc : BlockChain_dbMPT) (txs : list Transaction)
  : outcome (list Z * BlockChain_dbMPT) :=
  match txs with
  | [] => Ret (state_root bc, bc)
  | _ =>
      st ← open_trie (triedb bc) (state_root bc);
      '(st, a2s) ← read_loop bc 0 txs st ∅;
      '(st, cnt) ← write_loop bc 0 txs st a2s 0;
      if cnt =? 0 then Ret (state_root bc, bc)
      else '(rt, db) ← store_trie (triedb bc) st (fun rt => rt); Ret (rt, with_triedb bc db)
  end.

(** ** Blocks *)

(** A sealed block: header fields, body, miner, and the header's hash. *)
Definition seal (parent_ root_ : list Z) (number : Z) (now : time) (miner : Z) (txs : list Transaction)
  : outcome Block :=
  txroot ← GetTxTreeRoot txs;
  bloom ← GetBloomFilter txs;
  let bh := mkBH parent_ root_ txroot bloom number now miner in
  Ret (mkBlock bh txs (BH_Hash bh)).

Definition next_number (b : Block) : Z := u64 (Number (Header b) + 1).

Definition GenerateBlock (bc : BlockChain_dbMPT) (miner : Z) (now : time) : sync (Block * BlockChain_dbMPT) :=
  '(txs, p) ← PackTxs (Txpool bc) (BlockSize (ChainConfig_ bc));
  let bc := with_pool bc p in
  '(rt, bc) ← run (GetUpdateStatusTrie bc txs);
  b ← run (seal (b_Hash (CurrentBlock bc)) rt (next_number (CurrentBlock bc)) now (u64 miner) txs);
  Done (b, bc).

(** The genesis block over a new trie database on [db]. *)
Definition NewGenisisBlock (db : disk) : outcome (Block * Database) :=
  let tdb := NewDatabaseWithConfig db (Some (mkConfig 0 "" true)) in
  statusTrie ← NewEmpty tdb;
  '(rt, _) ← Hash statusTrie;
  b ← seal [] rt 0 0 0 [];
  Ret (b, tdb).

(** The storage with the block, and the block read back from it. *)
Definition AddGenisisBlock (s : Storage) (gb : Block) : outcome (Block * Storage) :=
  s ← Storage_AddBlock s gb;
  match GetNewestBlockHash s with
  | Err _ => Panic
  | Ok h => r ← GetBlock s h; match r with Err _ => Panic | Ok curb => Ret (curb, s) end
  end.

Definition AddBlock (bc : BlockChain_dbMPT) (b : option Block) : outcome (bool * BlockChain_dbMPT) :=
  match b with
  | None => Ret (false, bc)
  | Some b =>
      if negb (Number (Header b) =? next_number (CurrentBlock bc)) then Ret (false, bc)
      else if negb (bool_decide (ParentBlockHash (Header b) = b_Hash (CurrentBlock bc))) then Ret (false, bc)
      else
        r ← New (TrieID (BytesToHash (bh_StateRoot (Header b)))) (GetReader (triedb bc));
        bc ← (match r with
              | Err _ => '(_, bc) ← GetUpdateStatusTrie bc (Body b); Ret bc
              | Ok _ => Ret bc
              end);
        s ← Storage_AddBlock (Storage_ bc) b;
        Ret (true, with_block bc b s)
  end.

Definition NewBlockChain_dbMPT (cc : ChainConfig) (db : disk) (stat : dir_stat) : outcome BlockChain_dbMPT :=
  s ← NewStorage stat cc;
  match GetNewestBlockHash s with
  | Err e =>
      if bool_decide (e = "cannot find the newest block hash"%string) then
        '(gb, tdb) ← NewGenisisBlock db;
        '(curb, s) ← AddGenisisBlock s gb;
        Ret (mkBC tdb cc curb s NewTxPool ∅)
      else Panic
  | Ok curHash =>
      r ← GetBlock s curHash;
      match r with
      | Err _ => Panic
      | Ok curb =>
          let tdb := NewDatabaseWithConfig db (Some (mkConfig 0 "" true)) in
          _ ← open_trie tdb (BytesToHash (bh_StateRoot (Header curb)));
          Ret (mkBC tdb cc curb s NewTxPool ∅)
      end
  end.

(** The error of an invalid block, if any. *)
Definition IsValidBlock (bc : BlockChain_dbMPT) (b : Block) : outcome (option string) :=
  if negb (bool_decide (ParentBlockHash (Header b) = b_Hash (CurrentBlock bc))) then
    Ret (Some "the parentblock hash is not equal to the current block hash"%string)
  else
    r ← GetTxTreeRoot (Body b);
    if negb (bool_decide (r = TxRoot (Header b))) then Ret (Some "the transaction root is wrong"%string)
    else Ret None.

(** The loop of [AddAccounts]; [as[i]] out of range panics. *)
Fixpoint add_loop (bc : BlockChain_dbMPT) (ac : list Address) (accs : list AccountState) (st : Trie) : outcome Trie :=
  match ac with
  | [] => Ret st
  | addr :: ac =>
      sid ← Get_PartitionMap bc addr;
      st ← (if sid =? ShardID (ChainConfig_ bc) then
              s ← of_option (head accs);
              put st (string_bytes addr) (AS_Encode (mkAS "" (as_Nonce s) (Balance s) [] []))
            else Ret st);
      add_loop bc ac (tail accs) st
  end.

(** The trie database is told to write out the old root. *)
Definition AddAccounts (bc : BlockChain_dbMPT) (ac : list Address) (accs : list AccountState) : outcome BlockChain_dbMPT :=
  let rt := state_root bc in
  '(rt, db) ← (match ac with
               | [] => Ret (rt, triedb bc)
               | _ =>
                   st ← open_trie (triedb bc) rt;
                   st ← add_loop bc ac accs st;
                   store_trie (triedb bc) st (fun _ => rt)
               end);
  b ← seal (b_Hash (CurrentBlock bc)) rt (next_number (CurrentBlock bc)) 0 0 [];
  s ← Storage_AddBlock (Storage_ bc) b;
  Ret (with_block (with_triedb bc db) b s).

Fixpoint fetch_loop (st : Trie) (addrs : list Address) : outcome (list AccountState) :=
  match addrs with
  | [] => Ret []
  | addr :: addrs => '(s, st) ← read_account st addr 0; l ← fetch_loop st addrs; Ret (s :: l)
  end.

Definition FetchAccounts (bc : BlockChain_dbMPT) (addrs : list Address)
  : outcome (list AccountState * Z * Z * list Z * list Z) :=
  st ← open_trie (triedb bc) (state_root bc);
  l ← fetch_loop st addrs;
  Ret (l, i64 (ShardID (ChainConfig_ bc)), i64 (Number (Header (CurrentBlock bc))),
       b_Hash (CurrentBlock bc), bh_StateRoot (Header (CurrentBlock bc))).
End chain.

(** ** Ledgers *)

Lemma string_bytes_bytes s : bytes (string_bytes s).
Proof.
  induction s as [|c s IH]; [constructor|]. constructor; [|done]. unfold is_byte.
  pose proof (Ascii.nat_ascii_bounded c). lia.
Qed.

Lemma string_bytes_inj s1 s2 : string_bytes s1 = string_bytes s2 -> s1 = s2.
Proof.
  revert s2. induction s1 as [|c s1 IH]; intros [|c2 s2] E; try done. cbn [string_bytes] in E.
  injection E as Ec Es. f_equal; [|by apply IH]. apply Nat2Z.inj in Ec.
  apply (f_equal Ascii.ascii_of_nat) in Ec. by rewrite !Ascii.ascii_nat_embedding in Ec.
Qed.

Section ledger.
Context `{Gob AccountState}.

(** A state map whose values are encoded accounts, and the balances it gives. *)
Definition ledger (m : gmap (list Z) (list Z)) : Prop :=
  forall k v, m !! k = Some v -> exists a, v = AS_Encode a.

Definition balance (m : gmap (list Z) (list Z)) (addr : Address) : Z :=
  match m !! string_bytes addr with
  | Some v => match gob_dec v with Some a => Balance a | None => 0 end
  | None => Init_Balance
  end.

(** The account read for an address. *)
Definition account_at (m : gmap (list Z) (list Z)) (addr : Address) (i : nat) : AccountState :=
  match m !! string_bytes addr with
  | Some v => default (new_account i) (gob_dec v)
  | None => new_account i
  end.

(** The ledger a block leaves, as a function of the ledger before it: the
    accounts are read first, then changed and written one by one. *)
Section block_ledger.
Context (sh rh : Transaction -> bool).

Fixpoint read_map (m : gmap (list Z) (list Z)) (i : nat) (txs : list Transaction)
  (a2s : gmap Address AccountState) : gmap Address AccountState :=
  match txs with
  | [] => a2s
  | tx :: txs =>
      let a2s := if sh tx then <[Sender tx := account_at m (Sender tx) i]> a2s else a2s in
      let a2s := if rh tx then <[Recipient tx := account_at m (Recipient tx) i]> a2s else a2s in
      read_map m (S i) txs a2s
  end.

(** One account, changed by [f]. *)
Definition change (f : AccountState -> AccountState) (addr : Address) (i : nat)
  (st : gmap (list Z) (list Z) * gmap Address AccountState) : gmap (list Z) (list Z) * gmap Address AccountState :=
  let s := f (default (new_account i) (st.2 !! addr)) in
  (map_update st.1 (string_bytes addr) (AS_Encode s),
   match st.2 !! addr with Some _ => <[addr := s]> st.2 | None => st.2 end).

Fixpoint write_map (i : nat) (txs : list Transaction)
  (st : gmap (list Z) (list Z) * gmap Address AccountState) : gmap (list Z) (list Z) :=
  match txs with
  | [] => st.1
  | tx :: txs =>
      let st := if sh tx then change (fun s => (Deduct s (Value tx)).2) (Sender tx) i st else st in
      let st := if rh tx then change (fun s => Deposit s (Value tx)) (Recipient tx) i st else st in
      write_map (S i) txs st
  end.

Definition block_ledger (txs : list Transaction) (m : gmap (list Z) (list Z)) : gmap (list Z) (list Z) :=
  write_map 0 txs (m, read_map m 0 txs ∅).
End block_ledger.

Lemma ledger_put m addr a : ledger m -> ledger (map_update m (string_bytes addr) (AS_Encode a)).
Proof.
  intros Hm k v. unfold map_update. unfold AS_Encode. destruct (gob_enc a) as [|x l] eqn:E.
  { exfalso. by eapply gob_nonempty. }
  rewrite lookup_insert_Some. intros [[_ <-]|[_ Hk]]; [exists a; by unfold AS_Encode|by apply (Hm k)].
Qed.

Lemma balance_put m addr a x :
  balance (map_update m (string_bytes addr) (AS_Encode a)) x = if decide (x = addr) then Balance a else balance m x.
Proof.
  unfold balance, map_update, AS_Encode. destruct (gob_enc a) as [|y l] eqn:E.
  { exfalso. by eapply gob_nonempty. }
  case_decide as Hx.
  - subst x. rewrite lookup_insert_eq, <- E, gob_roundtrip. done.
  - rewrite lookup_insert_ne; [done|]. intros Eb%string_bytes_inj. done.
Qed.
End ledger.

(** ** Reference semantics of a block *)

Definition set_bal (B : Address -> Z) (a : Address) (v : Z) : Address -> Z :=
  fun x => if decide (x = a) then v else B x.

Section effects.
Context (sh rh : Transaction -> bool).

(** The sender's half: nothing happens to an account that cannot pay. *)
Definition debit (tx : Transaction) (B : Address -> Z) : Address -> Z :=
  if sh tx && negb (B (Sender tx) <? Value tx) then set_bal B (Sender tx) (B (Sender tx) - Value tx) else B.
Definition credit (tx : Transaction) (B : Address -> Z) : Address -> Z :=
  if rh tx then set_bal B (Recipient tx) (B (Recipient tx) + Value tx) else B.
Definition run_txs (txs : list Transaction) (B : Address -> Z) : Address -> Z :=
  foldl (fun B tx => credit tx (debit tx B)) B txs.

Lemma run_txs_ext txs : forall B B', (forall a, B a = B' a) -> forall a, run_txs txs B a = run_txs txs B' a.
Proof.
  induction txs as [|tx txs IH]; intros B B' HB a; [apply HB|]. apply IH. intros x.
  unfold credit, debit, set_bal. rewrite !(HB (Sender tx)).
  repeat (case_match || case_decide); subst; rewrite ?HB; done.
Qed.

(** The sum of balances over some accounts. *)
Definition total (X : list Address) (B : Address -> Z) : Z := foldr (fun a s => B a + s) 0 X.

Lemma total_set X B a v : NoDup X -> a ∈ X -> total X (set_bal B a v) = total X B + (v - B a).
Proof.
  induction X as [|x X IH]; intros Hnd Ha; [set_solver|]. inversion Hnd as [|? ? Hni Hnd']; subst. simpl.
  assert (forall Y, a ∉ Y -> total Y (set_bal B a v) = total Y B) as Hout.
  { induction Y as [|y Y IHY]; intros Hy; [done|]. simpl. rewrite IHY by set_solver.
    unfold set_bal at 1. rewrite decide_False by set_solver. done. }
  destruct (decide (x = a)) as [->|Hxa].
  - rewrite Hout by done. unfold set_bal. rewrite decide_True by done. lia.
  - rewrite IH by set_solver. unfold set_bal at 1. rewrite decide_False by done. lia.
Qed.

(** What a block adds to the supply: the value of each transfer whose sender
    could not pay it. *)
Fixpoint minted (txs : list Transaction) (B : Address -> Z) : Z :=
  match txs with
  | [] => 0
  | tx :: txs => (if B (Sender tx) <? Value tx then Value tx else 0) + minted txs (credit tx (debit tx B))
  end.

Lemma run_txs_total X txs : NoDup X -> forall B,
  (forall tx, tx ∈ txs -> Sender tx ∈ X /\ Recipient tx ∈ X /\ sh tx = true /\ rh tx = true) ->
  total X (run_txs txs B) = total X B + minted txs B.
Proof.
  intros Hnd. induction txs as [|tx txs IH]; intros B Hin; [simpl; lia|].
  destruct (Hin tx ltac:(set_solver)) as (Hs & Hr & Esh & Erh). cbn [run_txs foldl minted].
  change (foldl _ ?b txs) with (run_txs txs b).
  rewrite IH by (intros; apply Hin; set_solver). unfold credit, debit. rewrite Esh, Erh. simpl.
  destruct (B (Sender tx) <? Value tx); simpl; rewrite !total_set by done; lia.
Qed.
End effects.

(** ** The state transition is correct *)

Section correct.
Context `{EthDB} `{FastCache} `{RLPLaws} `{EthCommon} `{!HashLaws} `{!CollisionFree}.
Context `{!EthDBLaws} `{StateAccountRLP} `{!MemoryDB} `{Bolt}.
Context `{Gob AccountState} `{Gob Transaction} `{Gob Block} `{Gob BlockHeader} `{Sha256} `{Params}.

Lemma look_spec db pt0 st m addr :
  trie_on db pt0 st m ->
  exists st', look st (string_bytes addr) = Ret (m !! string_bytes addr, st') /\ trie_on db pt0 st' m.
Proof.
  intros [Hr Ho]. destruct (trie_Get_spec st m (string_bytes addr) Hr (string_bytes_bytes addr)) as (st' & E & Hr' & Ho').
  unfold look. rewrite E. exists st'. split; [done|]. split; [done|congruence].
Qed.

Lemma put_spec db pt0 st m k v :
  trie_on db pt0 st m -> bytes k ->
  exists st', put st k v = Ret st' /\ trie_on db pt0 st' (map_update m k v).
Proof.
  intros [Hr Ho] Hk. destruct (trie_Update_spec st m k v Hr Hk) as (st' & E & Hr' & Ho').
  unfold put. rewrite E. exists st'. split; [done|]. split; [done|congruence].
Qed.

Lemma read_account_spec db pt0 st m addr i :
  trie_on db pt0 st m -> ledger m ->
  exists st', read_account st addr i = Ret (account_at m addr i, st') /\ trie_on db pt0 st' m.
Proof.
  intros Ht Hm. destruct (look_spec db pt0 st m addr Ht) as (st' & E & Ht').
  unfold read_account. rewrite E. go_ret. exists st'. split; [|done]. unfold account_at.
  destruct (m !! string_bytes addr) as [v|] eqn:Ev; [|done].
  destruct (Hm _ _ Ev) as [a ->]. unfold DecodeAS, AS_Encode. by rewrite must_dec_enc, gob_roundtrip.
Qed.

Lemma account_at_balance m addr i : ledger m -> Balance (account_at m addr i) = balance m addr.
Proof.
  intros Hm. unfold account_at, balance. destruct (m !! string_bytes addr) as [v|] eqn:Ev; [|done].
  destruct (Hm _ _ Ev) as [a ->]. unfold AS_Encode. by rewrite gob_roundtrip.
Qed.

(** Both addresses of a transaction have a shard. *)
Definition routable (bc : BlockChain_dbMPT) (tx : Transaction) : Prop :=
  (exists s, Get_PartitionMap bc (Sender tx) = Ret s) /\ (exists r, Get_PartitionMap bc (Recipient tx) = Ret r).

Definition pays_here (bc : BlockChain_dbMPT) (tx : Transaction) : bool :=
  match sender_here bc tx with Ret b => b | Panic => false end.
Definition gets_here (bc : BlockChain_dbMPT) (tx : Transaction) : bool :=
  match recipient_here bc tx with Ret b => b | Panic => false end.

Lemma here_spec bc tx :
  routable bc tx -> sender_here bc tx = Ret (pays_here bc tx) /\ recipient_here bc tx = Ret (gets_here bc tx).
Proof.
  intros [[s Es] [r Er]]. unfold pays_here, gets_here, sender_here, recipient_here. rewrite Es, Er.
  by destruct (Relayed tx).
Qed.

(** The map of accounts agrees with the balances. *)
Definition accounts_ok (B : Address -> Z) (a2s : gmap Address AccountState) : Prop :=
  forall a s, a2s !! a = Some s -> Balance s = B a.

(** The accounts a list of transactions will look up. *)
Definition covered (bc : BlockChain_dbMPT) (txs : list Transaction) (a2s : gmap Address AccountState) : Prop :=
  forall tx, tx ∈ txs ->
    (pays_here bc tx = true -> is_Some (a2s !! Sender tx)) /\
    (gets_here bc tx = true -> is_Some (a2s !! Recipient tx)).

(** One lookup of the first loop. *)
Lemma read_step_spec db pt0 m st a2s addr i (b : bool) :
  trie_on db pt0 st m -> ledger m -> accounts_ok (balance m) a2s ->
  exists st' a2s', (if b then '(s, st) ← read_account st addr i; Ret (st, <[addr := s]> a2s) else Ret (st, a2s))
      = Ret (st', a2s') /\ trie_on db pt0 st' m /\ accounts_ok (balance m) a2s' /\ dom a2s ⊆ dom a2s' /\
    (b = true -> is_Some (a2s' !! addr)) /\ a2s' = if b then <[addr := account_at m addr i]> a2s else a2s.
Proof.
  intros Ht Hm Ha. destruct b; [|by exists st, a2s].
  destruct (read_account_spec db pt0 st m addr i Ht Hm) as (st' & E & Ht'). rewrite E. go_ret.
  eexists _, _. split; [done|]. split; [done|]. split; [|split; [set_solver|split; [by rewrite lookup_insert_eq|done]]].
  intros a s [[<- <-]|[_ Hs]]%lookup_insert_Some; [by apply account_at_balance|by apply Ha].
Qed.

Lemma read_loop_spec bc db pt0 m txs : forall i st a2s,
  trie_on db pt0 st m -> ledger m -> accounts_ok (balance m) a2s -> Forall (routable bc) txs ->
  exists st' a2s', read_loop bc i txs st a2s = Ret (st', a2s') /\ trie_on db pt0 st' m /\
    accounts_ok (balance m) a2s' /\ dom a2s ⊆ dom a2s' /\ covered bc txs a2s' /\
    a2s' = read_map (pays_here bc) (gets_here bc) m i txs a2s.
Proof.
  induction txs as [|tx txs IH]; intros i st a2s Ht Hm Ha Hr.
  { exists st, a2s. do 4 (split; [done|]). split; [intros tx Htx; set_solver|done]. }
  apply Forall_cons_1 in Hr as [Hr Hrs]. destruct (here_spec bc tx Hr) as [Es Er]. cbn [read_loop].
  rewrite Es. go_ret.
  destruct (read_step_spec db pt0 m st a2s (Sender tx) i (pays_here bc tx) Ht Hm Ha)
    as (st1 & a1 & E1 & Ht1 & Ha1 & Hd1 & Hs1 & Hm1). rewrite E1. go_ret. rewrite Er. go_ret.
  destruct (read_step_spec db pt0 m st1 a1 (Recipient tx) i (gets_here bc tx) Ht1 Hm Ha1)
    as (st2 & a2 & E2 & Ht2 & Ha2 & Hd2 & Hs2 & Hm2). rewrite E2. go_ret.
  destruct (IH (S i) st2 a2 Ht2 Hm Ha2 Hrs) as (st' & a' & E & Ht' & Ha' & Hd' & Hc' & Hm').
  exists st', a'. split; [done|]. split; [done|]. split; [done|]. split; [set_solver|].
  split; [|rewrite Hm', Hm2, Hm1; done].
  intros tx' [->|Hin]%elem_of_cons; [|by apply Hc'].
  split; intros Hb; apply elem_of_dom; [apply Hd', Hd2, elem_of_dom; auto|apply Hd', elem_of_dom; auto].
Qed.

(** One write of the second loop: the account [s'] of [addr]. *)
Lemma write_step_spec db pt0 m st a2s B addr s' :
  trie_on db pt0 st m -> ledger m -> accounts_ok B a2s -> (forall a, balance m a = B a) ->
  exists st', put st (string_bytes addr) (AS_Encode s') = Ret st' /\
    trie_on db pt0 st' (map_update m (string_bytes addr) (AS_Encode s')) /\
    ledger (map_update m (string_bytes addr) (AS_Encode s')) /\
    accounts_ok (set_bal B addr (Balance s')) (<[addr := s']> a2s) /\
    (forall a, balance (map_update m (string_bytes addr) (AS_Encode s')) a = set_bal B addr (Balance s') a).
Proof.
  intros Ht Hm Ha HB. destruct (put_spec db pt0 st m (string_bytes addr) (AS_Encode s') Ht (string_bytes_bytes addr))
    as (st' & E & Ht'). exists st'. do 2 (split; [done|]). split; [by apply ledger_put|]. split.
  - intros a s. unfold set_bal. rewrite lookup_insert_Some. intros [[<- <-]|[Hne Hs]].
    + by rewrite decide_True.
    + rewrite decide_False by done. by apply Ha.
  - intros a. rewrite balance_put. unfold set_bal. by case_decide.
Qed.
Lemma set_bal_same B a v x : v = B a -> set_bal B a v x = B x.
Proof. intros ->. unfold set_bal. by case_decide; subst. Qed.

Lemma Deduct_balance s v : Balance (Deduct s v).2 = if Balance s <? v then Balance s else Balance s - v.
Proof. unfold Deduct. by case_match. Qed.

(** The two halves of a transaction on the trie. *)
Record half_done (db : Database) (pt0 : ptrie) (m : gmap (list Z) (list Z)) (a2s : gmap Address AccountState) (B : Address -> Z)
  (b : bool) (next : gmap (list Z) (list Z) * gmap Address AccountState)
  (r : outcome (Trie * gmap Address AccountState)) : Prop := {
  hd_run : exists st' a2s' m', r = Ret (st', a2s') /\ trie_on db pt0 st' m' /\ ledger m' /\
    accounts_ok B a2s' /\ (forall a, balance m' a = B a) /\ dom a2s ⊆ dom a2s' /\ (b = false -> m' = m) /\
    (m', a2s') = if b then next else (m, a2s);
}.

Lemma accounts_ok_ext B B' a2s : (forall a, B a = B' a) -> accounts_ok B a2s -> accounts_ok B' a2s.
Proof. intros HB Ha a s Hs. rewrite <- HB. by apply Ha. Qed.

Lemma deduct_half bc db pt0 m st a2s B i tx :
  trie_on db pt0 st m -> ledger m -> accounts_ok B a2s -> (forall a, balance m a = B a) ->
  (pays_here bc tx = true -> is_Some (a2s !! Sender tx)) ->
  half_done db pt0 m a2s (debit (pays_here bc) tx B) (pays_here bc tx)
    (change (fun s => (Deduct s (Value tx)).2) (Sender tx) i (m, a2s))
    (if pays_here bc tx then deduct_step i tx st a2s else Ret (st, a2s)).
Proof.
  intros Ht Hm Ha HB Hc. split. unfold debit. destruct (pays_here bc tx); [|by exists st, a2s, m].
  destruct (Hc eq_refl) as [s Es]. unfold deduct_step. rewrite Es.
  destruct (write_step_spec db pt0 m st a2s B (Sender tx) (Deduct s (Value tx)).2 Ht Hm Ha HB)
    as (st' & E & Ht' & Hm' & Ha' & HB'). rewrite E. go_ret. eexists _, _, _. split; [done|].
  split; [done|]. split; [done|].
  assert (forall a, set_bal B (Sender tx) (Balance (Deduct s (Value tx)).2) a =
    (if true && negb (B (Sender tx) <? Value tx) then set_bal B (Sender tx) (B (Sender tx) - Value tx) else B) a) as Hext.
  { intros a. rewrite Deduct_balance, (Ha _ _ Es). simpl. case_match; [|done]. by apply set_bal_same. }
  split; [by eapply accounts_ok_ext|]. split; [intros a; by rewrite HB', Hext|]. split; [set_solver|].
  split; [done|]. unfold change. cbn [snd fst]. by rewrite Es.
Qed.

Lemma deposit_half bc db pt0 m st a2s B i tx :
  trie_on db pt0 st m -> ledger m -> accounts_ok B a2s -> (forall a, balance m a = B a) ->
  (gets_here bc tx = true -> is_Some (a2s !! Recipient tx)) ->
  half_done db pt0 m a2s (credit (gets_here bc) tx B) (gets_here bc tx)
    (change (fun s => Deposit s (Value tx)) (Recipient tx) i (m, a2s))
    (if gets_here bc tx then deposit_step i tx st a2s else Ret (st, a2s)).
Proof.
  intros Ht Hm Ha HB Hc. split. unfold credit. destruct (gets_here bc tx); [|by exists st, a2s, m].
  destruct (Hc eq_refl) as [s Es]. unfold deposit_step. rewrite Es.
  destruct (write_step_spec db pt0 m st a2s B (Recipient tx) (Deposit s (Value tx)) Ht Hm Ha HB)
    as (st' & E & Ht' & Hm' & Ha' & HB'). rewrite E. go_ret. eexists _, _, _. split; [done|].
  split; [done|]. split; [done|]. simpl in Ha', HB'. rewrite (Ha _ _ Es) in *.
  split; [done|]. split; [done|]. split; [set_solver|].
  split; [done|]. unfold change. cbn [snd fst]. by rewrite Es.
Qed.

Lemma write_loop_spec bc db pt0 txs : forall i st a2s m B cnt,
  trie_on db pt0 st m -> ledger m -> accounts_ok B a2s -> (forall a, balance m a = B a) ->
  Forall (routable bc) txs -> covered bc txs a2s ->
  exists st' cnt' m', write_loop bc i txs st a2s cnt = Ret (st', cnt') /\ trie_on db pt0 st' m' /\ ledger m' /\
    (forall a, balance m' a = run_txs (pays_here bc) (gets_here bc) txs B a) /\ cnt <= cnt' /\
    (cnt' = cnt -> m' = m) /\ m' = write_map (pays_here bc) (gets_here bc) i txs (m, a2s).
Proof.
  induction txs as [|tx txs IH]; intros i st a2s m B cnt Ht Hm Ha HB Hr Hc.
  { exists st, cnt, m. do 4 (split; [done|]). split; [lia|done]. }
  apply Forall_cons_1 in Hr as [Hr Hrs]. destruct (here_spec bc tx Hr) as [Es Er].
  destruct (Hc tx ltac:(set_solver)) as [Hcs Hcr]. cbn [write_loop]. rewrite Es. go_ret.
  destruct (deduct_half bc db pt0 m st a2s B i tx Ht Hm Ha HB Hcs) as [(st1 & a1 & m1 & E1 & Ht1 & Hm1 & Ha1 & HB1 & Hd1 & Hn1 & Hp1)].
  rewrite E1. go_ret. rewrite Er. go_ret.
  destruct (deposit_half bc db pt0 m1 st1 a1 (debit (pays_here bc) tx B) i tx Ht1 Hm1 Ha1 HB1)
    as [(st2 & a2 & m2 & E2 & Ht2 & Hm2 & Ha2 & HB2 & Hd2 & Hn2 & Hp2)].
  { intros Hb. apply elem_of_dom, Hd1, elem_of_dom. auto. }
  rewrite E2. go_ret.
  set (cnt2 := if gets_here bc tx then _ else _).
  destruct (IH (S i) st2 a2 m2 _ cnt2 Ht2 Hm2 Ha2 HB2 Hrs) as (st' & cnt' & m' & E & Ht' & Hm' & HB' & Hle & Hsame & Hw').
  { intros tx' Hin. destruct (Hc tx' ltac:(set_solver)) as [Hs' Hr'].
    split; intros Hb; apply elem_of_dom, Hd2, Hd1, elem_of_dom; auto. }
  exists st', cnt', m'. split; [done|]. split; [done|]. split; [done|]. split; [done|].
  assert (m' = write_map (pays_here bc) (gets_here bc) i (tx :: txs) (m, a2s)) as Hall.
  { cbn [write_map]. rewrite <- Hp1, <- Hp2. done. }
  unfold cnt2 in *. destruct (pays_here bc tx), (gets_here bc tx); (split; [lia|]); (split; [|done]); intros Heq; try lia.
  rewrite Hsame, Hn2, Hn1 by (done || lia). done.
Qed.

(** ** The chain's state *)

(** The chain's database holds the ledger [m] under the root of the current
    block. *)
Record chain_state (bc : BlockChain_dbMPT) (m : gmap (list Z) (list Z)) : Prop := {
  cs_inv : db_inv (triedb bc);
  cs_at : state_at (triedb bc) (state_root bc) m;
  cs_ledger : ledger m;
}.

Definition disk_works : Prop := forall (d : disk) (ops : batch), exists d', disk_Write d ops = Ok d'.

(** What the new root must stand for. *)
Record moved_to (db db' : Database) (rt : list Z) (m' : gmap (list Z) (list Z)) : Prop := {
  mv_inv : db_inv db';
  mv_at : state_at db' rt m';
  mv_keeps : keeps db db';
}.

Lemma open_trie_spec db r m :
  db_inv db -> state_at db r m -> exists pt t, open_trie db r = Ret t /\ trie_on db pt t m /\ pt_holds pt m.
Proof.
  intros Hi Hs. destruct (New_at_spec db r m Hi Hs) as (pt & t & E & Ht & Hh & _).
  exists pt, t. unfold open_trie. rewrite E. done.
Qed.

Lemma pt_holds_fun pt m m' : pt_holds pt m -> pt_holds pt m' -> m = m'.
Proof.
  intros Hh Hh'. apply map_eq. intros k. destruct (decide (bytes k)) as [Hb|Hb].
  - by rewrite <- (holds_get _ _ Hh k Hb), <- (holds_get _ _ Hh' k Hb).
  - destruct (m !! k) as [v|] eqn:E; [by destruct (holds_dom _ _ Hh k v E)|].
    destruct (m' !! k) as [v|] eqn:E'; [by destruct (holds_dom _ _ Hh' k v E')|done].
Qed.

(** Storing the trie, when the write-out is of the new root. *)
Lemma store_new_root db pt0 t m0 m :
  disk_works -> db_inv db -> trie_on db pt0 t m -> pt_holds pt0 m0 ->
  (exists rt db', store_trie db t (fun rt => rt) = Ret (rt, db') /\ moved_to db db' rt m /\ durable_at db' rt m) \/
  (store_trie db t (fun rt => rt) = Panic /\ m = m0).
Proof.
  intros Hw Hi Ht Hh0. unfold store_trie.
  destruct (store_trie_spec db pt0 t m false Hi Ht) as (rt & ons & t' & E & Hm).
  rewrite E. unfold mbind, outcome_bind. destruct ons as [s|].
  - left. destruct Hm as (sets & E1 & Hm). destruct (Hm (map_to_list sets).*1) as (db1 & err & db2 & E2 & E3 & [Hinv Hst Hk Hd]).
    rewrite E1, E2, E3. rewrite (db_Commit_no_err Hw _ _ _ _ _ E3) in *.
    exists rt, db2. split; [done|]. split; [done|auto].
  - right. split; [done|]. by apply (pt_holds_fun pt0).
Qed.
Lemma with_triedb_same bc : with_triedb bc (triedb bc) = bc.
Proof. by destruct bc. Qed.

(** The outcome of the state transition: a root for the new ledger, or, when the
    ledger does not change, possibly a panic. *)
Definition transition (bc : BlockChain_dbMPT) (txs : list Transaction) (m m' : gmap (list Z) (list Z)) : Prop :=
  (exists rt db', GetUpdateStatusTrie bc txs = Ret (rt, with_triedb bc db') /\ moved_to (triedb bc) db' rt m' /\
     (durable_at (triedb bc) (state_root bc) m -> durable_at db' rt m')) \/
  (GetUpdateStatusTrie bc txs = Panic /\ m' = m).

Lemma GetUpdateStatusTrie_spec bc m txs :
  disk_works -> chain_state bc m -> Forall (routable bc) txs ->
  let m' := block_ledger (pays_here bc) (gets_here bc) txs m in
  ledger m' /\ (forall a, balance m' a = run_txs (pays_here bc) (gets_here bc) txs (balance m) a) /\
  transition bc txs m m'.
Proof.
  intros Hw [Hi Hs Hm] Hr. cbv zeta. unfold transition.
  assert (GetUpdateStatusTrie bc txs = Ret (state_root bc, with_triedb bc (triedb bc)) ->
    exists rt db', GetUpdateStatusTrie bc txs = Ret (rt, with_triedb bc db') /\ moved_to (triedb bc) db' rt m /\
     (durable_at (triedb bc) (state_root bc) m -> durable_at db' rt m)) as Hstay.
  { intros E. exists (state_root bc), (triedb bc). split; [done|]. split; [|done]. split; [done|done|apply keeps_refl]. }
  destruct txs as [|tx txs0] eqn:Etxs.
  { split; [done|]. split; [done|]. left. apply Hstay. by rewrite with_triedb_same. }
  rewrite <- Etxs in *. clear tx txs0 Etxs.
  destruct (open_trie_spec (triedb bc) (state_root bc) m Hi Hs) as (pt & t & Eo & Ht & Hh).
  destruct (read_loop_spec bc (triedb bc) pt m txs 0 t ∅ Ht Hm) as (t1 & a1 & E1 & Ht1 & Ha1 & _ & Hc1 & Hm1); [by intros ? ?|done|].
  destruct (write_loop_spec bc (triedb bc) pt txs 0 t1 a1 m (balance m) 0 Ht1 Hm Ha1) as (t2 & cnt & m' & E2 & Ht2 & Hm2 & HB2 & Hle & Hsame & Hbl);
    [done|done|done|].
  unfold block_ledger. rewrite <- Hm1, <- Hbl. split; [done|]. split; [done|].
  assert (txs = [] \/ GetUpdateStatusTrie bc txs = if cnt =? 0 then Ret (state_root bc, bc)
      else '(rt, db) ← store_trie (triedb bc) t2 (fun rt => rt); Ret (rt, with_triedb bc db)) as [->|E].
  { destruct txs; [by left|right]. unfold GetUpdateStatusTrie. rewrite Eo. go_ret. rewrite E1. go_ret. cbv beta iota. rewrite E2. done. }
  { simpl in E2. simplify_eq. left. rewrite Hsame by done. apply Hstay. by rewrite with_triedb_same. }
  rewrite E in *. destruct (cnt =? 0) eqn:Ec.
  { apply Z.eqb_eq in Ec. left. rewrite Hsame by done. apply Hstay. by rewrite with_triedb_same. }
  destruct (store_new_root (triedb bc) pt t2 m m' Hw Hi Ht2 Hh) as [(rt & db' & Es & Hmv & Hd)|[Es ->]]; rewrite Es.
  - left. exists rt, db'. done.
  - right. done.
Qed.

(** C21. Executing a block's transactions: the returned root stands for the ledger
    in which every account has the balance that applying the transactions one by
    one gives it, and the database still holds everything it held.  The only
    case without a result is a block that changes nothing. *)
Theorem GetUpdateStatusTrie_correct (bc : BlockChain_dbMPT) (m : gmap (list Z) (list Z)) (txs : list Transaction) :
  disk_works -> chain_state bc m -> Forall (routable bc) txs ->
  exists m', m' = block_ledger (pays_here bc) (gets_here bc) txs m /\ ledger m' /\
    (forall a, balance m' a = run_txs (pays_here bc) (gets_here bc) txs (balance m) a) /\
    ((exists rt db', GetUpdateStatusTrie bc txs = Ret (rt, with_triedb bc db') /\ moved_to (triedb bc) db' rt m' /\
       (durable_at (triedb bc) (state_root bc) m -> durable_at db' rt m')) \/
     (GetUpdateStatusTrie bc txs = Panic /\ m' = m)).
Proof. intros Hw Hs Hr. eexists. split; [done|]. by apply GetUpdateStatusTrie_spec. Qed.

(** The supply: over a block whose transactions all have both accounts in
    this shard, the sum of the balances grows by exactly the values of the
    transfers that their senders could not pay. *)
Theorem block_supply (bc : BlockChain_dbMPT) (m : gmap (list Z) (list Z)) (txs : list Transaction) (X : list Address) :
  disk_works -> chain_state bc m -> Forall (routable bc) txs -> NoDup X ->
  (forall tx, tx ∈ txs -> Sender tx ∈ X /\ Recipient tx ∈ X /\ pays_here bc tx = true /\ gets_here bc tx = true) ->
  exists m', transition bc txs m m' /\
    total X (balance m') = total X (balance m) + minted (pays_here bc) (gets_here bc) txs (balance m).
Proof.
  intros Hw Hcs Hr Hnd HX. destruct (GetUpdateStatusTrie_spec bc m txs Hw Hcs Hr) as (_ & HB & Ht).
  eexists. split; [exact Ht|]. rewrite <- (run_txs_total _ _ X txs Hnd _ HX).
  revert HB. generalize (block_ledger (pays_here bc) (gets_here bc) txs m) as m'. clear. intros m' HB.
  induction X as [|a X IH]; [done|]. simpl. by rewrite HB, IH.
Qed.

(** [FetchAccounts] returns, for each address in order, the account stored
    under the current root, and a fresh account with the initial balance for an
    address that has none. *)
Theorem FetchAccounts_correct (bc : BlockChain_dbMPT) (m : gmap (list Z) (list Z)) (addrs : list Address) :
  chain_state bc m ->
  FetchAccounts bc addrs =
    Ret (map (fun a => account_at m a 0) addrs, i64 (ShardID (ChainConfig_ bc)), i64 (Number (Header (CurrentBlock bc))),
         b_Hash (CurrentBlock bc), bh_StateRoot (Header (CurrentBlock bc))).
Proof.
  intros [Hi Hs Hm]. unfold FetchAccounts.
  destruct (open_trie_spec (triedb bc) (state_root bc) m Hi Hs) as (pt & t & Eo & Ht & _). rewrite Eo. go_ret.
  assert (forall st, trie_on (triedb bc) pt st m -> fetch_loop st addrs = Ret (map (fun a => account_at m a 0) addrs)) as Hf.
  { clear Ht Eo t. induction addrs as [|a addrs IH]; intros st Ht; [done|]. cbn [fetch_loop map].
    destruct (read_account_spec (triedb bc) pt st m a 0 Ht Hm) as (st' & E & Ht'). rewrite E. go_ret.
    cbv beta iota. by rewrite (IH st' Ht'). }
  rewrite (Hf t Ht). done.
Qed.

(** ** The transaction root *)

(** The map from transaction hash to encoding, later duplicates winning. *)
Definition tx_map (txs : list Transaction) : gmap (list Z) (list Z) :=
  foldl (fun m tx => map_update m (TxHash tx) (Tx_Encode tx)) ∅ txs.

Lemma NewEmpty_spec db : exists t, NewEmpty db = Ret t /\ trie_on db PNil t ∅.
Proof.
  unfold NewEmpty, New. cbn. eexists. split; [done|]. split; [|done].
  exists PNil. split; [constructor|apply pt_holds_empty].
Qed.

Lemma put_all_spec db pt0 txs : forall st m,
  Forall (fun tx => bytes (TxHash tx)) txs -> trie_on db pt0 st m ->
  exists st', ofold (fun st tx => put st (TxHash tx) (Tx_Encode tx)) st txs = Ret st' /\
    trie_on db pt0 st' (foldl (fun m tx => map_update m (TxHash tx) (Tx_Encode tx)) m txs).
Proof.
  induction txs as [|tx txs IH]; intros st m Hb Ht; [by exists st|]. apply Forall_cons_1 in Hb as [Hb Hbs].
  destruct (put_spec db pt0 st m (TxHash tx) (Tx_Encode tx) Ht Hb) as (st1 & E1 & Ht1).
  destruct (IH st1 _ Hbs Ht1) as (st' & E & Ht'). exists st'. split; [|done].
  cbn [ofold]. rewrite E1. go_ret. done.
Qed.

Lemma GetTxTreeRoot_spec txs :
  Forall (fun tx => bytes (TxHash tx)) txs ->
  exists pt, pt_holds pt (tx_map txs) /\ GetTxTreeRoot txs = Ret (root_hash pt).
Proof.
  intros Hb. unfold GetTxTreeRoot. set (db := NewDatabase NewMemoryDatabase).
  destruct (NewEmpty_spec db) as (t & E & Ht).
  rewrite E. go_ret. destruct (put_all_spec db PNil txs t ∅ Hb Ht) as (t1 & E1 & [Ht1 _]). rewrite E1. go_ret.
  destruct Ht1 as (pt & He & Hh). destruct (Hash_spec (opened db PNil) t1 (tx_map txs) pt) as (t2 & Eh & _); [by split|].
  rewrite Eh. exists pt. done.
Qed.

(** The transaction root binds the transactions: it is computed for every
    list, and two lists have the same root exactly when they map the same
    transaction hashes to the same encodings.  In particular the root of a list
    with distinct hashes does not depend on their order. *)
Theorem GetTxTreeRoot_binding (txs1 txs2 : list Transaction) :
  Forall (fun tx => bytes (TxHash tx)) txs1 -> Forall (fun tx => bytes (TxHash tx)) txs2 ->
  exists r1 r2, GetTxTreeRoot txs1 = Ret r1 /\ GetTxTreeRoot txs2 = Ret r2 /\
    (r1 = r2 <-> tx_map txs1 = tx_map txs2).
Proof.
  intros H1' H2'. destruct (GetTxTreeRoot_spec txs1 H1') as (pt1 & Hh1 & E1).
  destruct (GetTxTreeRoot_spec txs2 H2') as (pt2 & Hh2 & E2).
  exists (root_hash pt1), (root_hash pt2). do 2 (split; [done|]). split.
  - intros E. apply (root_hash_inj pt1 pt2); done.
  - intros E. rewrite E in Hh1. by rewrite (pt_holds_unique pt1 pt2 _ Hh1 Hh2).
Qed.
(** ** Replicas *)

Lemma read_map_ext sh rh sh' rh' m txs : (forall tx, tx ∈ txs -> sh tx = sh' tx /\ rh tx = rh' tx) ->
  forall i a2s, read_map sh rh m i txs a2s = read_map sh' rh' m i txs a2s.
Proof.
  induction txs as [|tx txs IH]; intros Hx i a2s; [done|]. cbn [read_map].
  destruct (Hx tx ltac:(set_solver)) as [-> ->]. apply IH. intros. apply Hx. set_solver.
Qed.

Lemma write_map_ext sh rh sh' rh' txs : (forall tx, tx ∈ txs -> sh tx = sh' tx /\ rh tx = rh' tx) ->
  forall i st, write_map sh rh i txs st = write_map sh' rh' i txs st.
Proof.
  induction txs as [|tx txs IH]; intros Hx i st; [done|]. cbn [write_map].
  destruct (Hx tx ltac:(set_solver)) as [-> ->]. apply IH. intros. apply Hx. set_solver.
Qed.

Lemma state_at_root db db' r r' m : state_at db r m -> state_at db' r' m -> r = r'.
Proof. intros (pt & Hh & -> & _) (pt' & Hh' & -> & _). by rewrite (pt_holds_unique pt pt' m). Qed.

Lemma block_ledger_ext sh rh sh' rh' m txs : (forall tx, tx ∈ txs -> sh tx = sh' tx /\ rh tx = rh' tx) ->
  block_ledger sh rh txs m = block_ledger sh' rh' txs m.
Proof. intros Hx. unfold block_ledger. rewrite (read_map_ext _ _ sh' rh') by done. by apply write_map_ext. Qed.

(** Replicas agree: two nodes whose ledgers are equal, whatever their
    databases and tries look like, never compute different roots for the same
    transactions when they place the accounts alike, and if the transactions
    change the ledger both do compute the root. *)
Theorem replicas_agree (bc1 bc2 : BlockChain_dbMPT) (m : gmap (list Z) (list Z)) (txs : list Transaction) :
  disk_works -> chain_state bc1 m -> chain_state bc2 m ->
  Forall (routable bc1) txs -> Forall (routable bc2) txs ->
  (forall tx, tx ∈ txs -> pays_here bc1 tx = pays_here bc2 tx /\ gets_here bc1 tx = gets_here bc2 tx) ->
  (forall r1 r2 bc1' bc2', GetUpdateStatusTrie bc1 txs = Ret (r1, bc1') ->
     GetUpdateStatusTrie bc2 txs = Ret (r2, bc2') -> r1 = r2) /\
  (block_ledger (pays_here bc1) (gets_here bc1) txs m <> m ->
   exists r bc1' bc2', GetUpdateStatusTrie bc1 txs = Ret (r, bc1') /\ GetUpdateStatusTrie bc2 txs = Ret (r, bc2')).
Proof.
  intros Hw Hs1 Hs2 Hr1 Hr2 Hx. pose proof (block_ledger_ext _ _ _ _ m txs Hx) as Eb.
  destruct (GetUpdateStatusTrie_spec bc1 m txs Hw Hs1 Hr1) as (_ & _ & [(rt1 & db1 & -> & [_ Ha1 _] & _)|[-> Hm1]]);
    (destruct (GetUpdateStatusTrie_spec bc2 m txs Hw Hs2 Hr2) as (_ & _ & [(rt2 & db2 & -> & [_ Ha2 _] & _)|[-> Hm2]]));
    try (split; [done|congruence]).
  rewrite Eb in Ha1. rewrite (state_at_root db1 db2 _ _ _ Ha1 Ha2). split; [congruence|]. intros _. by do 3 eexists.
Qed.

Lemma root_length db r m : state_at db r m -> length r = 32%nat.
Proof.
  intros (pt & _ & -> & _). unfold root_hash. destruct pt; rewrite ?EmptyRootHash_keccak; apply keccak256_length.
Qed.

Lemma Hash_empty db t : trie_on db PNil t ∅ -> exists t', Hash t = Ret (EmptyRootHash, t').
Proof.
  intros [(pt & He & Hh) _]. destruct (Hash_spec (opened db PNil) t ∅ pt) as (t' & E & _); [by split|].
  rewrite (pt_holds_unique pt PNil ∅ Hh pt_holds_empty) in E. by exists t'.
Qed.

(** ** Blocks *)

Context `{!BoltLaws} (Sum256_length : forall b, length (Sum256 b) = 32%nat).

Lemma GetBloomFilter_total txs : exists bs, GetBloomFilter txs = Ret bs.
Proof using.
  unfold GetBloomFilter. generalize (∅ : gset Z) as bs. induction txs as [|tx txs IH]; intros bs; [by eexists|].
  cbn [ofold]. unfold ModBytes. cbn [Z.eqb Pos.eqb]. go_ret. apply IH.
Qed.

(** A sealed block carries the root of its body and hashes its header. *)
Lemma seal_spec parent_ root_ number now miner txs :
  Forall (fun tx => bytes (TxHash tx)) txs ->
  exists b, seal parent_ root_ number now miner txs = Ret b /\ Body b = txs /\ b_Hash b = BH_Hash (Header b) /\
    GetTxTreeRoot txs = Ret (TxRoot (Header b)) /\ ParentBlockHash (Header b) = parent_ /\
    bh_StateRoot (Header b) = root_ /\ Number (Header b) = number.
Proof using All.
  intros Hb. destruct (GetTxTreeRoot_spec txs Hb) as (pt & _ & E). destruct (GetBloomFilter_total txs) as [bs Eb].
  unfold seal. rewrite E. go_ret. rewrite Eb. go_ret. eexists. split; [done|]. done.
Qed.

Lemma hash_key bh : bolt_key (BH_Hash bh).
Proof using Sum256_length.
  unfold BH_Hash. split; [|rewrite Sum256_length; lia].
  intros E. pose proof (Sum256_length (BH_Encode bh)) as Hlen. by rewrite E in Hlen.
Qed.

(** What appending the block must leave. *)
Record appended (bc : BlockChain_dbMPT) (b : Block) (m' : gmap (list Z) (list Z)) : Prop := {
  ap_current : CurrentBlock bc = b;
  ap_state : chain_state bc m';
  ap_storage : storage_ok (Storage_ bc);
  ap_block : GetBlock (Storage_ bc) (b_Hash b) = Ret (Ok b);
  ap_newest : GetNewestBlockHash (Storage_ bc) = Ok (b_Hash b);
}.

(** Appending a block whose state the database already holds. *)
Lemma AddBlock_known bc b m :
  storage_ok (Storage_ bc) -> Number (Header b) = next_number (CurrentBlock bc) ->
  ParentBlockHash (Header b) = b_Hash (CurrentBlock bc) -> bolt_key (b_Hash b) ->
  db_inv (triedb bc) -> state_at (triedb bc) (bh_StateRoot (Header b)) m -> ledger m ->
  exists s', AddBlock bc (Some b) = Ret (true, with_block bc b s') /\ appended (with_block bc b s') b m.
Proof using All.
  intros Hst Hn Hp Hk Hi Ha Hm. unfold AddBlock. rewrite Hn, Z.eqb_refl. simpl negb. cbv iota.
  rewrite Hp, bool_decide_true by done. simpl negb. cbv iota.
  rewrite BytesToHash_id by (by eapply root_length).
  destruct (New_at_spec (triedb bc) _ m Hi Ha) as (pt & t & E & _). rewrite E. go_ret. cbv beta iota. go_ret.
  destruct (Storage_AddBlock_spec (Storage_ bc) b Hst Hk) as (s' & Es & [Hok Hb Hh Hnew _]). rewrite Es. go_ret.
  exists s'. split; [done|]. split; try done. split; try done.
  unfold state_root. simpl. rewrite BytesToHash_id by (by eapply root_length). done.
Qed.

(** The transactions of the next block. *)
Definition packed (bc : BlockChain_dbMPT) : list Transaction :=
  take (Z.to_nat (BlockSize (ChainConfig_ bc))) (TxQueue (Txpool bc)).

Lemma PackTxs_packed bc :
  lock (Txpool bc) = false -> 0 <= BlockSize (ChainConfig_ bc) ->
  exists p, PackTxs (Txpool bc) (BlockSize (ChainConfig_ bc)) = Done (packed bc, p) /\
    TxQueue p = drop (Z.to_nat (BlockSize (ChainConfig_ bc))) (TxQueue (Txpool bc)).
Proof using.
  intros Hl Hb. unfold PackTxs, locked. rewrite Hl. eexists. split.
  - f_equal. f_equal. unfold packed. destruct (_ <? _) eqn:E; [|done]. apply Z.ltb_lt in E.
    rewrite !take_ge by lia. done.
  - simpl. destruct (_ <? _) eqn:E; [|done]. apply Z.ltb_lt in E. rewrite !drop_ge by lia. done.
Qed.

Lemma guards_pool bc p tx :
  pays_here (with_pool bc p) tx = pays_here bc tx /\ gets_here (with_pool bc p) tx = gets_here bc tx /\
  (routable bc tx -> routable (with_pool bc p) tx).
Proof using. done. Qed.

(** C22. Mining and appending: a block generated from the head of the pool passes
    the validity check, is accepted by [AddBlock] on the same chain, becomes the
    current block, is found in the storage, and leaves the chain on the ledger
    after its transactions; the mined transactions leave the pool.  The only
    failure is the panic of a block that changes no account. *)
Theorem mine_then_append (bc : BlockChain_dbMPT) (m : gmap (list Z) (list Z)) (miner : Z) (now : time) :
  disk_works -> chain_state bc m -> storage_ok (Storage_ bc) -> lock (Txpool bc) = false ->
  0 <= BlockSize (ChainConfig_ bc) -> Forall (routable bc) (packed bc) ->
  Forall (fun tx => bytes (TxHash tx)) (packed bc) ->
  let m' := block_ledger (pays_here bc) (gets_here bc) (packed bc) m in
  (exists b bc1 bc2, GenerateBlock bc miner now = Done (b, bc1) /\ Body b = packed bc /\
     IsValidBlock bc1 b = Ret None /\ AddBlock bc1 (Some b) = Ret (true, bc2) /\ appended bc2 b m' /\
     TxQueue (Txpool bc2) = drop (Z.to_nat (BlockSize (ChainConfig_ bc))) (TxQueue (Txpool bc))) \/
  (GenerateBlock bc miner now = Fatal /\ m' = m).
Proof using All.
  intros Hw Hs Hst Hl Hbs Hr Hb. cbv zeta. unfold GenerateBlock.
  destruct (PackTxs_packed bc Hl Hbs) as (p & Ep & Hq). rewrite Ep. unfold mbind, sync_bind. cbn [Txpool].
  destruct (GetUpdateStatusTrie_spec (with_pool bc p) m (packed bc) Hw) as (Hm' & _ & Ht).
  { destruct Hs. by split. } { done. }
  destruct Ht as [(rt & db' & Et & [Hi' Ha' Hk'] & _)|[Et Hsame]]; rewrite Et; [left|right; by split].
  cbn [run].
  destruct (seal_spec (b_Hash (CurrentBlock bc)) rt (next_number (CurrentBlock bc)) now (u64 miner) (packed bc) Hb)
    as (b & Eb & Hbody & Hhash & Htx & Hpar & Hroot & Hnum).
  assert (run (seal (b_Hash (CurrentBlock (with_triedb (with_pool bc p) db'))) rt
     (next_number (CurrentBlock (with_triedb (with_pool bc p) db'))) now (u64 miner) (packed bc)) = Done b) as ->
    by (simpl; by rewrite Eb).
  set (bc1 := with_triedb (with_pool bc p) db').
  destruct (AddBlock_known bc1 b (block_ledger (pays_here bc) (gets_here bc) (packed bc) m)) as (s' & Ea & Hap).
  - done.
  - done.
  - done.
  - rewrite Hhash. apply hash_key.
  - done.
  - by rewrite Hroot.
  - done.
  - eexists b, bc1, _. split; [done|]. split; [done|]. split; [|split; [exact Ea|split; [done|done]]].
    unfold IsValidBlock. rewrite Hpar, bool_decide_true by done. simpl negb. cbv iota.
    rewrite Hbody, Htx. go_ret. rewrite bool_decide_true by done. done.
Qed.

(** [AddBlock] refuses a block that does not extend the current one: a nil
    block, a wrong height or a wrong parent leave the chain as it was. *)
Theorem AddBlock_refuses (bc : BlockChain_dbMPT) (ob : option Block) :
  (forall b, ob = Some b -> Number (Header b) <> next_number (CurrentBlock bc) \/
     ParentBlockHash (Header b) <> b_Hash (CurrentBlock bc)) ->
  AddBlock bc ob = Ret (false, bc).
Proof using.
  intros Hb. destruct ob as [b|]; [|done]. unfold AddBlock.
  destruct (Number (Header b) =? next_number (CurrentBlock bc)) eqn:En; [|done]. apply Z.eqb_eq in En. simpl negb. cbv iota.
  destruct (Hb b eq_refl) as [?|Hp]; [done|]. by rewrite bool_decide_false.
Qed.
(** ** Starting a node *)

(** A first start: on an empty block storage, and a disk in order, the node
    makes the genesis block, stores it, and starts on the empty ledger. *)
Theorem first_start (cc : ChainConfig) (db : Database) (d : bolt_db) :
  db_inv db -> bolt_Open (dbPath cc) = Ok d -> bolt_Get d "newestBlockHash" only_key = None ->
  exists bc, NewBlockChain_dbMPT cc (diskdb db) DirExists = Ret bc /\ Number (Header (CurrentBlock bc)) = 0 /\
    appended bc (CurrentBlock bc) ∅.
Proof using All.
  intros [L Hok] Ho Hn. unfold NewBlockChain_dbMPT.
  destruct (NewStorage_spec cc d Ho) as (s & Es & Hs & Hget). rewrite Es. go_ret.
  unfold GetNewestBlockHash. rewrite (proj2 (proj2 Hs)), Hget, Hn. rewrite bool_decide_true by done.
  unfold NewGenisisBlock. set (tdb := NewDatabaseWithConfig _ _).
  assert (db_inv tdb) as Hi by (exists []; apply (restarted_ok db L); [done|simpl; lia]).
  destruct (NewEmpty_spec tdb) as (t & Et & Ht). rewrite Et. go_ret.
  destruct (Hash_empty tdb t Ht) as (t' & Eh). rewrite Eh. go_ret.
  destruct (seal_spec [] EmptyRootHash 0 0 0 [] ltac:(constructor)) as (b & Eb & Hbody & Hhash & _ & _ & Hroot & Hnum).
  rewrite Eb. go_ret. unfold AddGenisisBlock.
  assert (bolt_key (b_Hash b)) as Hk by (rewrite Hhash; apply hash_key).
  destruct (Storage_AddBlock_spec s b Hs Hk) as (s' & Ea & [Hok' Hb _ Hnew _]). rewrite Ea. go_ret.
  rewrite Hnew, Hb. go_ret. eexists. split; [done|]. split; [done|]. split; try done. split; try done.
  unfold state_root. cbn [CurrentBlock triedb]. rewrite Hroot.
  rewrite BytesToHash_id by (rewrite EmptyRootHash_keccak; apply keccak256_length). apply state_at_empty.
Qed.

(** A restart: when the newest stored block's state is on disk, the node
    resumes at that block with exactly that ledger. *)
Theorem restart_resumes (cc : ChainConfig) (db : Database) (d : bolt_db) (b : Block) (m : gmap (list Z) (list Z)) :
  db_inv db -> durable_at db (bh_StateRoot (Header b)) m -> ledger m ->
  bolt_Open (dbPath cc) = Ok d -> bolt_Get d "newestBlockHash" only_key = Some (b_Hash b) ->
  bolt_Get d "block" (b_Hash b) = Some (B_Encode b) ->
  exists bc, NewBlockChain_dbMPT cc (diskdb db) DirExists = Ret bc /\ CurrentBlock bc = b /\ chain_state bc m.
Proof using All.
  intros [L Hok] Hd Hm Ho Hn Hb. unfold NewBlockChain_dbMPT.
  destruct (NewStorage_spec cc d Ho) as (s & Es & Hs & Hget). rewrite Es. go_ret.
  unfold GetNewestBlockHash. rewrite (proj2 (proj2 Hs)), Hget, Hn. unfold GetBlock.
  rewrite (proj1 Hs), Hget, Hb. unfold DecodeB, B_Encode. rewrite must_dec_enc. go_ret. cbv beta iota.
  set (tdb := NewDatabaseWithConfig _ _).
  pose proof (restarted_ok db L (Some (mkConfig 0 "" true)) Hok ltac:(simpl; lia)) as Hok'. fold tdb in Hok'.
  assert (state_at tdb (bh_StateRoot (Header b)) m) as Hat.
  { destruct Hd as (pt & Hh & Hr & Hp). exists pt. do 2 (split; [done|]). eapply pstored_mono_keccak; [|exact Hp].
    intros x Hx. by apply (held_disk _ [] _ _ Hok'); [apply keccak256_length|apply keccak_not_zero|]. }
  rewrite BytesToHash_id by (by eapply root_length).
  destruct (open_trie_spec tdb _ m (ex_intro _ [] Hok') Hat) as (pt & t & Et & _). rewrite Et. go_ret.
  eexists. split; [done|]. split; [done|]. split; [by exists []| |done].
  unfold state_root. cbn [CurrentBlock triedb]. rewrite BytesToHash_id by (by eapply root_length). done.
Qed.

(** ** Adding accounts *)

(** The ledger after the accounts of this shard were added. *)
Fixpoint add_map (here : Address -> bool) (ac : list Address) (accs : list AccountState)
  (m : gmap (list Z) (list Z)) : gmap (list Z) (list Z) :=
  match ac with
  | [] => m
  | addr :: ac =>
      add_map here ac (tail accs)
        (match head accs with
         | Some s => if here addr then map_update m (string_bytes addr) (AS_Encode (mkAS "" (as_Nonce s) (Balance s) [] [])) else m
         | None => m
         end)
  end.

Definition lives_here (bc : BlockChain_dbMPT) (addr : Address) : bool :=
  match Get_PartitionMap bc addr with Ret s => s =? ShardID (ChainConfig_ bc) | Panic => false end.

Lemma add_accounts_spec bc db pt0 ac : forall accs st m,
  Forall (fun a => exists s, Get_PartitionMap bc a = Ret s) ac -> (length ac <= length accs)%nat ->
  trie_on db pt0 st m -> ledger m ->
  exists st', add_loop bc ac accs st = Ret st' /\ trie_on db pt0 st' (add_map (lives_here bc) ac accs m) /\
    ledger (add_map (lives_here bc) ac accs m).
Proof using.
  induction ac as [|addr ac IH]; intros accs st m Hr Hl Ht Hm; [by exists st|].
  apply Forall_cons_1 in Hr as [[s Es] Hr]. destruct accs as [|a accs]; [simpl in Hl; lia|].
  cbn [add_loop add_map head tail]. rewrite Es. go_ret. unfold lives_here at 2 4. rewrite Es.
  assert (exists st1, (if s =? ShardID (ChainConfig_ bc) then
      s0 ← of_option (Some a); put st (string_bytes addr) (AS_Encode (mkAS "" (as_Nonce s0) (Balance s0) [] []))
      else Ret st) = Ret st1 /\
    trie_on db pt0 st1 (if s =? ShardID (ChainConfig_ bc) then map_update m (string_bytes addr)
        (AS_Encode (mkAS "" (as_Nonce a) (Balance a) [] [])) else m)) as (st1 & E1 & Ht1).
  { destruct (s =? ShardID (ChainConfig_ bc)); [|by exists st]. simpl of_option. go_ret.
    apply put_spec; [done|apply string_bytes_bytes]. }
  rewrite E1. go_ret. apply IH; [done|simpl in Hl; lia|done|].
  destruct (s =? ShardID (ChainConfig_ bc)); [by apply ledger_put|done].
Qed.
(** Storing the trie, when the write-out is of a root the database already had. *)
Lemma store_old_root db pt0 t m0 m r0 :
  disk_works -> db_inv db -> trie_on db pt0 t m -> pt_holds pt0 m0 -> state_at db r0 m0 ->
  (exists rt db', store_trie db t (fun _ => r0) = Ret (rt, db') /\ moved_to db db' rt m) \/
  (store_trie db t (fun _ => r0) = Panic /\ m = m0).
Proof using All.
  intros Hw Hi Ht Hh0 Ha0. unfold store_trie.
  destruct (update_trie_spec db pt0 t m Hi Ht) as (rt & ons & t' & E & Hm).
  rewrite E. unfold mbind, outcome_bind. destruct ons as [s|].
  - left. destruct Hm as (sets & E1 & Hm). destruct (Hm (map_to_list sets).*1) as (db1 & E2 & Hi1 & Ha1 & Hk1).
    destruct (commit_root_spec db1 r0 m0 false Hi1) as (err & db2 & E3 & Hi2 & Hk2 & _); [by eapply state_at_keeps|].
    rewrite E1, E2, E3. rewrite (db_Commit_no_err Hw _ _ _ _ _ E3).
    exists rt, db2. split; [done|]. split; [done|by eapply state_at_keeps|by eapply keeps_trans].
  - right. split; [done|]. by apply (pt_holds_fun pt0).
Qed.

(** Adding accounts appends an empty block whose root stands for the ledger
    with the accounts of this shard added; as for transactions, adding nothing
    new is a panic. *)
Theorem AddAccounts_correct (bc : BlockChain_dbMPT) (m : gmap (list Z) (list Z)) (ac : list Address) (accs : list AccountState) :
  disk_works -> chain_state bc m -> storage_ok (Storage_ bc) ->
  Forall (fun a => exists s, Get_PartitionMap bc a = Ret s) ac -> (length ac <= length accs)%nat ->
  let m' := add_map (lives_here bc) ac accs m in
  (exists bc', AddAccounts bc ac accs = Ret bc' /\ appended bc' (CurrentBlock bc') m' /\
     Body (CurrentBlock bc') = [] /\ ParentBlockHash (Header (CurrentBlock bc')) = b_Hash (CurrentBlock bc)) \/
  (AddAccounts bc ac accs = Panic /\ ac <> [] /\ m' = m).
Proof using All.
  intros Hw [Hi Ha Hm] Hst Hr Hl. cbv zeta. unfold AddAccounts.
  assert (ledger (add_map (lives_here bc) ac accs m) /\
    ((exists rt db', (match ac with
               | [] => Ret (state_root bc, triedb bc)
               | _ => st ← open_trie (triedb bc) (state_root bc); st ← add_loop bc ac accs st;
                      store_trie (triedb bc) st (fun _ => state_root bc)
               end) = Ret (rt, db') /\ moved_to (triedb bc) db' rt (add_map (lives_here bc) ac accs m)) \/
     ((match ac with
               | [] => Ret (state_root bc, triedb bc)
               | _ => st ← open_trie (triedb bc) (state_root bc); st ← add_loop bc ac accs st;
                      store_trie (triedb bc) st (fun _ => state_root bc)
               end) = Panic /\ ac <> [] /\ add_map (lives_here bc) ac accs m = m))) as [Hm' [(rt & db' & E & [Hi' Ha' Hk'])|(E & Hne & Hsame)]].
  { destruct (open_trie_spec (triedb bc) (state_root bc) m Hi Ha) as (pt & t & Eo & Ht & Hh).
    destruct (add_accounts_spec bc (triedb bc) pt ac accs t m Hr Hl Ht Hm) as (t' & El & Ht' & Hm').
    split; [done|]. destruct ac as [|a ac]; [left; eexists _, _; split; [done|]; split; [done|done|apply keeps_refl]|].
    rewrite Eo. go_ret. rewrite El. go_ret.
    destruct (store_old_root (triedb bc) pt t' m _ (state_root bc) Hw Hi Ht' Hh Ha) as [(rt & db' & Es & Hmv)|[Es Hsame]];
      rewrite Es; [left; by exists rt, db'|by right]. }
  2:{ right. rewrite E. done. }
  left. rewrite E. go_ret. cbv beta iota.
  destruct (seal_spec (b_Hash (CurrentBlock bc)) rt (next_number (CurrentBlock bc)) 0 0 [] ltac:(constructor))
    as (b & Eb & Hbody & Hhash & _ & Hpar & Hroot & _). rewrite Eb. go_ret.
  assert (bolt_key (b_Hash b)) as Hk by (rewrite Hhash; apply hash_key).
  destruct (Storage_AddBlock_spec (Storage_ bc) b Hst Hk) as (s' & Es & [Hok' Hb _ Hnew _]). rewrite Es. go_ret.
  eexists. split; [done|]. split; [|by split]. split; try done. split; try done.
  unfold state_root. cbn [CurrentBlock triedb with_block with_triedb]. rewrite Hroot.
  rewrite BytesToHash_id by (by eapply root_length). done.
Qed.
End correct.

(** ** A concrete node *)

Module ChainSample.
#[local] Existing Instance DBSample.ethdb.
#[local] Existing Instance DBSample.fastcache.
#[local] Existing Instance RLPSample.env.
#[local] Existing Instance RLPSample.rlp.
#[local] Existing Instance RLPSample.eth.
#[local] Existing Instance DBSample.account.
#[local] Existing Instance StorageSample.bolt.
#[local] Existing Instance StorageSample.as_gob.
#[local] Existing Instance StorageSample.tx_gob.
#[local] Existing Instance StorageSample.block_gob.
#[local] Existing Instance StorageSample.bh_gob.
#[local] Existing Instance RLPSample.rlp_laws.
#[local] Existing Instance RLPSample.hash_laws.
#[local] Existing Instance DBSample.ethdb_laws.
#[local] Existing Instance StorageSample.bolt_laws.
#[local] Instance free : CollisionFree := RLPSample.keccak_inj.
#[local] Instance sha : Sha256 := {| Sum256 := fun b => Z.pos (countable.encode b) :: replicate 31 0 |}.
#[local] Instance params : Params := {| ShardNum := 2 |}.
#[local] Program Instance memory : MemoryDB := {| NewMemoryDatabase := (∅ : gmap (list Z) (list Z)) |}.
Next Obligation. intros k. apply lookup_empty. Qed.

Definition cc : ChainConfig := mkCC 1 0 0 4 2 10 5000 2000 100.
Definition genesis : Block := mkBlock (mkBH [] EmptyRootHash [] ∅ 0 0 0) [] [9].
Definition txs : list Transaction := [PoolSample.tx 1 "a0" "b0" 5; PoolSample.tx 2 "b0" "c1" 7].
Definition node : BlockChain_dbMPT :=
  mkBC DBSample.db0 cc genesis StorageSample.store (mkPool txs (Some ∅) false) ∅.

Lemma node_state : chain_state node ∅.
Proof. split; [apply DBSample.db0_inv|apply state_at_empty|by intros k v E]. Qed.

Lemma works : disk_works.
Proof. intros d ops. by eexists. Qed.

Lemma sha_length b : length (Sum256 b) = 32%nat.
Proof. done. Qed.

Lemma txs_routable : Forall (routable node) txs.
Proof. repeat constructor; eexists; reflexivity. Qed.

Lemma txs_bytes : Forall (fun tx => bytes (TxHash tx)) txs.
Proof. repeat constructor; unfold is_byte; simpl; lia. Qed.

Lemma GetUpdateStatusTrie_correct_witness :
  exists m', m' = block_ledger (pays_here node) (gets_here node) txs ∅ /\ ledger m' /\
    (forall a, balance m' a = run_txs (pays_here node) (gets_here node) txs (balance ∅) a) /\
    ((exists rt db', GetUpdateStatusTrie node txs = Ret (rt, with_triedb node db') /\ moved_to (triedb node) db' rt m' /\
       (durable_at (triedb node) (state_root node) ∅ -> durable_at db' rt m')) \/
     (GetUpdateStatusTrie node txs = Panic /\ m' = ∅)).
Proof. exact (GetUpdateStatusTrie_correct node ∅ txs works node_state txs_routable). Defined.

Lemma block_supply_witness :
  exists m', transition node [PoolSample.tx 1 "a0" "b0" 5] ∅ m' /\
    total ["a0"; "b0"]%string (balance m') = total ["a0"; "b0"]%string (balance ∅) + 0.
Proof.
  apply (block_supply node ∅ [PoolSample.tx 1 "a0" "b0" 5] ["a0"; "b0"]%string works node_state).
  - repeat constructor; eexists; reflexivity.
  - repeat constructor; set_solver.
  - intros tx ->%list_elem_of_singleton. repeat split; set_solver.
Defined.

Lemma FetchAccounts_correct_witness :
  FetchAccounts node ["a0"%string] =
    Ret ([account_at ∅ "a0" 0], 0, 0, [9], EmptyRootHash).
Proof. exact (FetchAccounts_correct node ∅ ["a0"%string] node_state). Defined.

Lemma GetTxTreeRoot_binding_witness :
  exists r1 r2, GetTxTreeRoot txs = Ret r1 /\ GetTxTreeRoot (reverse txs) = Ret r2 /\
    (r1 = r2 <-> tx_map txs = tx_map (reverse txs)).
Proof. apply (GetTxTreeRoot_binding txs (reverse txs) txs_bytes). apply Forall_reverse, txs_bytes. Defined.

(** Another node with the same ledger and another history. *)
Definition node2 : BlockChain_dbMPT := Update_PartitionMap node "d1" 5.

Lemma txs_change : block_ledger (pays_here node) (gets_here node) txs ∅ <> ∅.
Proof.
  intros E. assert (bool_decide (block_ledger (pays_here node) (gets_here node) txs ∅ = ∅) = false) as Hf by (vm_compute; reflexivity).
  by apply bool_decide_eq_false in Hf.
Qed.

Lemma replicas_agree_witness :
  exists r bc1' bc2', GetUpdateStatusTrie node txs = Ret (r, bc1') /\ GetUpdateStatusTrie node2 txs = Ret (r, bc2').
Proof.
  apply (replicas_agree node node2 ∅ txs works node_state); [| | | |exact txs_change].
  - destruct node_state. by split.
  - apply txs_routable.
  - repeat constructor; eexists; reflexivity.
  - apply Forall_forall. do 2 (constructor; [split; vm_compute; reflexivity|]). constructor.
Defined.

Lemma mine_then_append_witness :
  let m' := block_ledger (pays_here node) (gets_here node) txs ∅ in
  (exists b bc1 bc2, GenerateBlock node 0 77 = Done (b, bc1) /\ Body b = txs /\
     IsValidBlock bc1 b = Ret None /\ AddBlock bc1 (Some b) = Ret (true, bc2) /\ appended bc2 b m' /\
     TxQueue (Txpool bc2) = []) \/
  (GenerateBlock node 0 77 = Fatal /\ m' = ∅).
Proof.
  apply (mine_then_append sha_length node ∅ 0 77 works node_state); try done.
  - apply txs_routable.
  - apply txs_bytes.
Defined.

Lemma AddBlock_refuses_witness : AddBlock node (Some genesis) = Ret (false, node).
Proof. apply (AddBlock_refuses node (Some genesis)). intros b [= <-]. left. discriminate. Defined.

Lemma first_start_witness :
  exists bc, NewBlockChain_dbMPT cc (diskdb DBSample.db0) DirExists = Ret bc /\ Number (Header (CurrentBlock bc)) = 0 /\
    appended bc (CurrentBlock bc) ∅.
Proof. apply (first_start sha_length cc DBSample.db0 ∅ DBSample.db0_inv); reflexivity. Defined.

Lemma AddAccounts_correct_witness :
  let m' := add_map (lives_here node) ["a0"%string] [mkAS "" 3 50 [] []] ∅ in
  (exists bc', AddAccounts node ["a0"%string] [mkAS "" 3 50 [] []] = Ret bc' /\ appended bc' (CurrentBlock bc') m' /\
     Body (CurrentBlock bc') = [] /\ ParentBlockHash (Header (CurrentBlock bc')) = [9]) \/
  (AddAccounts node ["a0"%string] [mkAS "" 3 50 [] []] = Panic /\ ["a0"%string] <> [] /\ m' = ∅).
Proof.
  apply (AddAccounts_correct sha_length node ∅ ["a0"%string] [mkAS "" 3 50 [] []] works node_state); [done| |simpl; lia].
  repeat constructor. eexists. reflexivity.
Defined.

(** A storage whose newest block is the genesis block. *)
Definition old_pairs : gmap (string * list Z) (list Z) :=
  {[ ("newestBlockHash"%string, only_key) := [9]; ("block"%string, [9]) := B_Encode genesis ]}.
#[local] Instance old_bolt : Bolt | 0 := StorageSample.bolt_at old_pairs.
#[local] Instance old_bolt_laws : @BoltLaws old_bolt | 0 := StorageSample.bolt_at_laws old_pairs.

Lemma old_newest : bolt_Get (old_pairs : bolt_db) "newestBlockHash" only_key = Some [9].
Proof. reflexivity. Qed.
Lemma old_block : bolt_Get (old_pairs : bolt_db) "block" [9] = Some (B_Encode genesis).
Proof. reflexivity. Qed.

Lemma restart_resumes_witness :
  exists bc : @BlockChain_dbMPT _ _ old_bolt, NewBlockChain_dbMPT cc (diskdb DBSample.db0) DirExists = Ret bc /\
    CurrentBlock bc = genesis /\ chain_state bc ∅.
Proof.
  apply (restart_resumes sha_length cc DBSample.db0 (old_pairs : @bolt_db old_bolt) genesis ∅).
  - apply DBSample.db0_inv.
  - exists PNil. split; [apply pt_holds_empty|]. split; [reflexivity|constructor].
  - intros k v E. by rewrite lookup_empty in E.
  - reflexivity.
  - apply old_newest.
  - apply old_block.
Defined.
End ChainSample.
