(* ===== verification/ChainMem.v ===== *)
(** * The in-memory chain and its fork choice ([chain/blockchain_MemoryMPT.go],
      [chain/blockchain_rollback.go])

    [BlockChain] keeps its state trie in a memory database and lets followers
    execute the transactions; blocks are stored as in the disk-backed chain.
    Proved here: which root its blocks carry, that appending keeps the stored
    blocks linked down to the genesis block, and what the fork rule does. *)

From stdpp Require Import base gmap strings list.
From Stdlib Require Import ZArith Lia.
From S2P Require Import Prelude Encoding TrieSpec Node Trie TrieMap Hasher Committer Reload Database Core Storage Chain.

Local Open Scope Z_scope.

Section chain_mem.
Context `{EthDB} `{FastCache} `{HashEnv} `{EthCommon} `{RLP} `{StateAccountRLP} `{!MemoryDB}.
Context `{Bolt} `{Gob AccountState} `{Gob Transaction} `{Gob Block} `{Gob BlockHeader}.
Context `{Sha256} `{Params}.

(** The second pool of the struct is never set here. *)
Record BlockChain := mkMBC {
  mb_triedb : Database;
  mb_Config : ChainConfig;
  mb_CurrentBlock : Block;
  mb_Storage : Storage;
  PrecessedTxpool : TxPool;
  mb_PartitionMap : gmap Address Z;
  mb_Txpool : option TxPool;
}.

Definition mb_with_block (bc : BlockChain) (b : Block) (s : Storage) : BlockChain :=
  mkMBC (mb_triedb bc) (mb_Config bc) b s (PrecessedTxpool bc) (mb_PartitionMap bc) (mb_Txpool bc).
Definition mb_with_triedb (bc : BlockChain) (db : Database) : BlockChain :=
  mkMBC db (mb_Config bc) (mb_CurrentBlock bc) (mb_Storage bc) (PrecessedTxpool bc) (mb_PartitionMap bc) (mb_Txpool bc).
Definition mb_with_pool (bc : BlockChain) (p : TxPool) : BlockChain :=
  mkMBC (mb_triedb bc) (mb_Config bc) (mb_CurrentBlock bc) (mb_Storage bc) p (mb_PartitionMap bc) (mb_Txpool bc).

Definition Update_PartitionMap (bc : BlockChain) (key : Address) (val : Z) : BlockChain :=
  mkMBC (mb_triedb bc) (mb_Config bc) (mb_CurrentBlock bc) (mb_Storage bc) (PrecessedTxpool bc)
    (<[key := val]> (mb_PartitionMap bc)) (mb_Txpool bc).

Definition Get_PartitionMap (bc : BlockChain) (key : Address) : outcome Z :=
  match mb_PartitionMap bc !! key with
  | None => s ← Addr2Shard key; Ret (u64 s)
  | Some v => Ret v
  end.

Definition SendTx2Pool (bc : BlockChain) (txs : list Transaction) (nows : nat -> time) : sync BlockChain :=
  p ← AddTxs2Pool (PrecessedTxpool bc) txs nows; Done (mb_with_pool bc p).

(** ** The state transition *)

Definition mb_sender_here (bc : BlockChain) (tx : Transaction) : outcome bool :=
  if Relayed tx then Ret false
  else s ← Get_PartitionMap bc (Sender tx); Ret ((s =? ShardID (mb_Config bc)) || HasBroker tx).
Definition mb_recipient_here (bc : BlockChain) (tx : Transaction) : outcome bool :=
  s ← Get_PartitionMap bc (Recipient tx); Ret ((s =? ShardID (mb_Config bc)) || HasBroker tx).

(** The loop over the transactions: an overdraft skips the whole transaction. *)
Fixpoint tx_loop (bc : BlockChain) (i : nat) (txs : list Transaction) (st : Trie) : outcome Trie :=
  match txs with
  | [] => Ret st
  | tx :: txs =>
      sh ← mb_sender_here bc tx;
      '(skip, st) ← (if (sh : bool) then
          '(s, st) ← read_account st (Sender tx) i;
          if Balance s <? Value tx then Ret (true, st)
          else st ← put st (string_bytes (Sender tx)) (AS_Encode (Deduct s (Value tx)).2); Ret (false, st)
        else Ret (false, st) : outcome (bool * Trie));
      if (skip : bool) then tx_loop bc (S i) txs st
      else
        rh ← mb_recipient_here bc tx;
        st ← (if (rh : bool) then
          '(s, st) ← read_account st (Recipient tx) i;
          put st (string_bytes (Recipient tx)) (AS_Encode (Deposit s (Value tx)))
        else Ret st);
        tx_loop bc (S i) txs st
  end.

Definition mb_state_root (bc : BlockChain) : list Z := BytesToHash (bh_StateRoot (Header (mb_CurrentBlock bc))).

(** The counter [cnt] is declared and never changed. *)
Definition GetUpdateStatusTrie (bc : BlockChain) (txs : list Transaction) : outcome (list Z * BlockChain) :=
  match txs with
  | [] => Ret (mb_state_root bc, bc)
  | _ =>
      st ← open_trie (mb_triedb bc) (mb_state_root bc);
      let cnt := 0 in
      st ← tx_loop bc 0 txs st;
      if cnt =? 0 then Ret (mb_state_root bc, bc)
      else '(rt, db) ← store_trie (mb_triedb bc) st (fun rt => rt); Ret (rt, mb_with_triedb bc db)
  end.

(** ** Blocks *)

Definition GenerateBlock (bc : BlockChain) (miner : Z) (now : time) : sync (Block * BlockChain) :=
  '(txs, p) ← PackTxs (PrecessedTxpool bc) (BlockSize (mb_Config bc));
  let bc := mb_with_pool bc p in
  '(rt, bc) ← run (GetUpdateStatusTrie bc txs);
  b ← run (seal (b_Hash (mb_CurrentBlock bc)) rt (next_number (mb_CurrentBlock bc)) now (u64 miner) txs);
  Done (b, bc).

(** The block and what is left of the processed transactions; no state root. *)
Definition GenerateBlock2 (bc : BlockChain) (miner : Z) (processed : list Transaction) (now : time)
  : outcome (Block * list Transaction) :=
  let len := Z.of_nat (length processed) in
  let txNum := Z.to_nat (if len <? BlockSize (mb_Config bc) then len else BlockSize (mb_Config bc)) in
  b ← seal (b_Hash (mb_CurrentBlock bc)) [] (next_number (mb_CurrentBlock bc)) now (u64 miner) (take txNum processed);
  Ret (b, drop txNum processed).

Definition NewGenisisBlock : outcome (Block * Database) :=
  let tdb := NewDatabase NewMemoryDatabase in
  statusTrie ← NewEmpty tdb;
  '(rt, _) ← Hash statusTrie;
  b ← seal [] rt 0 0 0 [];
  Ret (b, tdb).

Definition AddGenisisBlock (s : Storage) (gb : Block) : outcome (Block * Storage) :=
  s ← Storage_AddBlock s gb;
  match GetNewestBlockHash s with
  | Err _ => Panic
  | Ok h => r ← GetBlock s h; match r with Err _ => Panic | Ok curb => Ret (curb, s) end
  end.

Definition AddBlock (bc : BlockChain) (b : option Block) : outcome (bool * BlockChain) :=
  match b with
  | None => Ret (false, bc)
  | Some b =>
      if negb (Number (Header b) =? next_number (mb_CurrentBlock bc)) then Ret (false, bc)
      else if negb (bool_decide (ParentBlockHash (Header b) = b_Hash (mb_CurrentBlock bc))) then Ret (false, bc)
      else s ← Storage_AddBlock (mb_Storage bc) b; Ret (true, mb_with_block bc b s)
  end.

(** The state trie of a restarted node starts in an empty memory database. *)
Definition NewBlockChain (cc : ChainConfig) (stat : dir_stat) : outcome BlockChain :=
  s ← NewStorage stat cc;
  match GetNewestBlockHash s with
  | Err e =>
      if bool_decide (e = "cannot find the newest block hash"%string) then
        '(gb, tdb) ← NewGenisisBlock;
        '(curb, s) ← AddGenisisBlock s gb;
        Ret (mkMBC tdb cc curb s NewTxPool ∅ None)
      else Panic
  | Ok curHash =>
      r ← GetBlock s curHash;
      match r with
      | Err _ => Panic
      | Ok curb =>
          let tdb := NewDatabase NewMemoryDatabase in
          _ ← open_trie tdb (BytesToHash (bh_StateRoot (Header curb)));
          Ret (mkMBC tdb cc curb s NewTxPool ∅ None)
      end
  end.

Definition IsValidBlock (bc : BlockChain) (b : Block) : outcome (option string) :=
  if negb (bool_decide (ParentBlockHash (Header b) = b_Hash (mb_CurrentBlock bc))) then
    Ret (Some "the parentblock hash is not equal to the current block hash"%string)
  else
    r ← GetTxTreeRoot (Body b);
    if negb (bool_decide (r = TxRoot (Header b))) then Ret (Some "the transaction root is wrong"%string)
    else Ret None.

Fixpoint mb_add_loop (bc : BlockChain) (ac : list Address) (accs : list AccountState) (st : Trie) : outcome Trie :=
  match ac with
  | [] => Ret st
  | addr :: ac =>
      sid ← Get_PartitionMap bc addr;
      st ← (if sid =? ShardID (mb_Config bc) then
              s ← of_option (head accs);
              put st (string_bytes addr) (AS_Encode (mkAS "" (as_Nonce s) (Balance s) [] []))
            else Ret st);
      mb_add_loop bc ac (tail accs) st
  end.

Definition AddAccounts (bc : BlockChain) (ac : list Address) (accs : list AccountState) : outcome BlockChain :=
  let rt := mb_state_root bc in
  '(rt, db) ← (match ac with
               | [] => Ret (rt, mb_triedb bc)
               | _ =>
                   st ← open_trie (mb_triedb bc) rt;
                   st ← mb_add_loop bc ac accs st;
                   store_trie (mb_triedb bc) st (fun _ => rt)
               end);
  b ← seal (b_Hash (mb_CurrentBlock bc)) rt (next_number (mb_CurrentBlock bc)) 0 0 [];
  s ← Storage_AddBlock (mb_Storage bc) b;
  Ret (mb_with_block (mb_with_triedb bc db) b s).

Definition FetchAccounts (bc : BlockChain) (addrs : list Address)
  : outcome (list AccountState * Z * Z * list Z * list Z) :=
  st ← open_trie (mb_triedb bc) (mb_state_root bc);
  l ← fetch_loop st addrs;
  Ret (l, i64 (ShardID (mb_Config bc)), i64 (Number (Header (mb_CurrentBlock bc))),
       b_Hash (mb_CurrentBlock bc), bh_StateRoot (Header (mb_CurrentBlock bc))).

(** ** Fork choice *)

(** [bytes.Compare(a, b) <= 0]. *)
Definition bytes_le (a b : list Z) : bool := path_leb a b.

(** The loop down to the height of the new block: [None] when a block is missing
    (the function returns false), otherwise the block found at that height.  The
    height is unsigned, so below zero it wraps. *)
Fixpoint fork_loop (fuel : nat) (s : Storage) (nowheight target : Z) (query : list Z) (found : option Block)
  : outcome (option (option Block)) :=
  match fuel with
  | O => Panic
  | S fuel =>
      if target <=? nowheight then
        r ← GetBlock s query;
        match r with
        | Err _ => Ret None
        | Ok block =>
            fork_loop fuel s (u64 (nowheight - 1)) target (ParentBlockHash (Header block))
              (if nowheight =? target then Some block else found)
        end
      else Ret (Some found)
  end.

(** Enough for a chain whose blocks are linked down to the genesis block, whose
    parent is missing. *)
Definition fork_fuel (bc : BlockChain) (b : Block) : nat :=
  Z.to_nat (Number (Header (mb_CurrentBlock bc)) - Number (Header b)) + 3.

Definition JudgeForkValid_RollBack (bc : BlockChain) (b : Block) : outcome (bool * BlockChain) :=
  if Number (Header (mb_CurrentBlock bc)) <? Number (Header b) then Ret (false, bc)
  else
    r ← fork_loop (fork_fuel bc b) (mb_Storage bc) (Number (Header (mb_CurrentBlock bc))) (Number (Header b))
          (b_Hash (mb_CurrentBlock bc)) None;
    match r with
    | None => Ret (false, bc)
    | Some None => Panic
    | Some (Some cur) =>
        if negb (bool_decide (ParentBlockHash (Header b) = ParentBlockHash (Header cur))) then Ret (false, bc)
        else if bytes_le (b_Hash cur) (b_Hash b) then Ret (false, bc)
        else
          r ← GetBlock (mb_Storage bc) (ParentBlockHash (Header b));
          match r with
          | Err _ => Ret (false, bc)
          | Ok parent_ => '(_, bc) ← AddBlock (mb_with_block bc parent_ (mb_Storage bc)) (Some b); Ret (true, bc)
          end
    end.

Definition JudgeForkValid_RollBack_withMap (bc : BlockChain) (b : Block)
  (chainHeight2Hash : gmap Z (list Z)) (hashToBlock : gmap (list Z) Block)
  : outcome (bool * BlockChain * gmap Z (list Z)) :=
  if Number (Header (mb_CurrentBlock bc)) <? Number (Header b) then Ret (false, bc, chainHeight2Hash)
  else
    match chainHeight2Hash !! Number (Header b) ≫= (fun h => hashToBlock !! h) with
    | None => Ret (false, bc, chainHeight2Hash)
    | Some cur =>
        if negb (bool_decide (ParentBlockHash (Header b) = ParentBlockHash (Header cur))) then
          Ret (false, bc, chainHeight2Hash)
        else if bytes_le (b_Hash cur) (b_Hash b) then Ret (false, bc, chainHeight2Hash)
        else
          match hashToBlock !! ParentBlockHash (Header b) with
          | None => Ret (false, bc, chainHeight2Hash)
          | Some parent_ =>
              '(_, bc) ← AddBlock (mb_with_block bc parent_ (mb_Storage bc)) (Some b);
              Ret (true, bc, <[Number (Header b) := b_Hash b]> chainHeight2Hash)
          end
    end.
End chain_mem.

Section correct.
Context `{EthDB} `{FastCache} `{RLPLaws} `{EthCommon} `{!HashLaws} `{!CollisionFree}.
Context `{!EthDBLaws} `{StateAccountRLP} `{!MemoryDB} `{BoltLaws}.
Context `{Gob AccountState} `{Gob Transaction} `{Gob Block} `{Gob BlockHeader} `{Sha256} `{Params}.

(** ** The state root never moves *)

Definition mb_routable (bc : BlockChain) (tx : Transaction) : Prop :=
  (exists s, Get_PartitionMap bc (Sender tx) = Ret s) /\ (exists r, Get_PartitionMap bc (Recipient tx) = Ret r).

Lemma mb_here bc tx :
  mb_routable bc tx -> (exists b, mb_sender_here bc tx = Ret b) /\ (exists b, mb_recipient_here bc tx = Ret b).
Proof.
  intros [[s Es] [r Er]]. unfold mb_sender_here, mb_recipient_here. rewrite Es, Er.
  split; [|by eexists]. destruct (Relayed tx); by eexists.
Qed.

Lemma tx_loop_spec bc db pt0 txs : forall i st m,
  Forall (mb_routable bc) txs -> trie_on db pt0 st m -> ledger m ->
  exists st' m', tx_loop bc i txs st = Ret st' /\ trie_on db pt0 st' m' /\ ledger m'.
Proof.
  induction txs as [|tx txs IH]; intros i st m Hr Ht Hm; [by exists st, m|].
  apply Forall_cons_1 in Hr as [Hr Hrs]. destruct (mb_here bc tx Hr) as [[sh Es] [rh Er]].
  cbn [tx_loop]. rewrite Es. go_ret.
  assert (exists skip st1 m1, (if sh then
          '(s, st) ← read_account st (Sender tx) i;
          if Balance s <? Value tx then Ret (true, st)
          else st ← put st (string_bytes (Sender tx)) (AS_Encode (Deduct s (Value tx)).2); Ret (false, st)
        else Ret (false, st)) = Ret (skip, st1) /\ trie_on db pt0 st1 m1 /\ ledger m1) as (skip & st1 & m1 & E1 & Ht1 & Hm1).
  { destruct sh; [|by exists false, st, m].
    destruct (read_account_spec db pt0 st m (Sender tx) i Ht Hm) as (st1 & E1 & Ht1). rewrite E1. go_ret. cbv beta iota.
    case_match; [by exists true, st1, m|].
    destruct (put_spec db pt0 st1 m (string_bytes (Sender tx)) (AS_Encode (Deduct (account_at m (Sender tx) i) (Value tx)).2)
                Ht1 (string_bytes_bytes _)) as (st2 & E2 & Ht2). rewrite E2. go_ret.
    eexists false, st2, _. split; [done|]. split; [done|by apply ledger_put]. }
  rewrite E1. go_ret. cbv beta iota. destruct skip; [by apply (IH (S i) st1 m1)|]. rewrite Er. go_ret.
  assert (exists st2 m2, (if rh then
          '(s, st) ← read_account st1 (Recipient tx) i;
          put st (string_bytes (Recipient tx)) (AS_Encode (Deposit s (Value tx)))
        else Ret st1) = Ret st2 /\ trie_on db pt0 st2 m2 /\ ledger m2) as (st2 & m2 & E2 & Ht2 & Hm2).
  { destruct rh; [|by exists st1, m1].
    destruct (read_account_spec db pt0 st1 m1 (Recipient tx) i Ht1 Hm1) as (st2 & E2 & Ht2). rewrite E2. go_ret. cbv beta iota.
    destruct (put_spec db pt0 st2 m1 (string_bytes (Recipient tx)) (AS_Encode (Deposit (account_at m1 (Recipient tx) i) (Value tx)))
                Ht2 (string_bytes_bytes _)) as (st3 & E3 & Ht3).
    exists st3. eexists. split; [done|]. split; [done|by apply ledger_put]. }
  rewrite E2. go_ret. by apply (IH (S i) st2 m2).
Qed.

(** The in-memory chain drops what it computed: whatever transactions are
    executed, the root returned is the old one and the chain is unchanged, since
    the counter that guards the commit is never incremented. *)
Theorem memory_root_never_moves (bc : BlockChain) (m : gmap (list Z) (list Z)) (txs : list Transaction) :
  db_inv (mb_triedb bc) -> state_at (mb_triedb bc) (mb_state_root bc) m -> ledger m -> Forall (mb_routable bc) txs ->
  GetUpdateStatusTrie bc txs = Ret (mb_state_root bc, bc).
Proof.
  intros Hi Ha Hm Hr. destruct txs as [|tx txs]; [done|]. unfold GetUpdateStatusTrie.
  destruct (open_trie_spec (mb_triedb bc) (mb_state_root bc) m Hi Ha) as (pt & t & Eo & Ht & _). rewrite Eo. go_ret.
  destruct (tx_loop_spec bc (mb_triedb bc) pt (tx :: txs) 0 t m Hr Ht Hm) as (t' & m' & E & _ & _).
  rewrite E. go_ret. done.
Qed.

(** ** Linked blocks *)

(** The stored blocks from [b] down to the genesis block. *)
Inductive linked (s : Storage) : Block -> list Block -> Prop :=
| linked_genesis b :
    GetBlock s (b_Hash b) = Ret (Ok b) -> Number (Header b) = 0 -> ParentBlockHash (Header b) = [] ->
    linked s b [b]
| linked_next b p l :
    GetBlock s (b_Hash b) = Ret (Ok b) -> ParentBlockHash (Header b) = b_Hash p ->
    Number (Header b) = Number (Header p) + 1 -> Number (Header b) < 2 ^ 64 ->
    linked s p l -> linked s b (b :: l).

Lemma linked_get s b l : linked s b l -> GetBlock s (b_Hash b) = Ret (Ok b).
Proof. by destruct 1. Qed.

Lemma linked_number s b l : linked s b l -> Z.of_nat (length l) = Number (Header b) + 1 /\ 0 <= Number (Header b) < 2 ^ 64.
Proof. induction 1 as [b _ Hn _|b p l _ _ Hn Hlt Hl [IH1 IH2]]; cbn [length]; lia. Qed.

Lemma linked_frame s s' b l h :
  linked s b l -> GetBlock s h = Ret (Err "the block is not existed"%string) ->
  (forall k, k <> h -> GetBlock s' k = GetBlock s k) -> linked s' b l.
Proof.
  intros Hl Hf Hk.
  assert (forall x, GetBlock s (b_Hash x) = Ret (Ok x) -> GetBlock s' (b_Hash x) = Ret (Ok x)) as Hget.
  { intros x Hx. rewrite Hk; [done|]. intros E. rewrite E in Hx. congruence. }
  induction Hl as [b Hb Hn Hp|b p l Hb Hp Hn Hlt Hl IH]; [apply linked_genesis|eapply linked_next]; eauto.
Qed.

(** A new block on top. *)
Lemma AddBlock_spec bc b l :
  storage_ok (mb_Storage bc) -> linked (mb_Storage bc) (mb_CurrentBlock bc) l ->
  bolt_key (b_Hash b) -> GetBlock (mb_Storage bc) (b_Hash b) = Ret (Err "the block is not existed"%string) ->
  Number (Header b) = Number (Header (mb_CurrentBlock bc)) + 1 -> Number (Header b) < 2 ^ 64 ->
  ParentBlockHash (Header b) = b_Hash (mb_CurrentBlock bc) ->
  exists s', AddBlock bc (Some b) = Ret (true, mb_with_block bc b s') /\ storage_ok s' /\ linked s' b (b :: l).
Proof.
  intros Hs Hl Hk Hf Hn Hlt Hp. unfold AddBlock, next_number. pose proof (linked_number _ _ _ Hl).
  rewrite wrap_u_small by (unfold is_u; lia). rewrite Hn, Z.eqb_refl. simpl negb. cbv iota.
  rewrite Hp, bool_decide_true by done. simpl negb. cbv iota.
  destruct (Storage_AddBlock_spec (mb_Storage bc) b Hs Hk) as (s' & Es & [Hok Hb _ _ Hoth]). rewrite Es. go_ret.
  exists s'. split; [done|]. split; [done|]. eapply linked_next; try done.
  eapply linked_frame; [done|exact Hf|]. intros k Hne. by apply Hoth.
Qed.

(** Appending keeps the chain linked: a new block that names the current one
    as its parent and the next height is accepted, and the stored blocks form a
    chain from it through all earlier blocks to the genesis block. *)
Theorem AddBlock_keeps_linked (bc : BlockChain) (b : Block) (l : list Block) :
  storage_ok (mb_Storage bc) -> linked (mb_Storage bc) (mb_CurrentBlock bc) l ->
  bolt_key (b_Hash b) -> GetBlock (mb_Storage bc) (b_Hash b) = Ret (Err "the block is not existed"%string) ->
  Number (Header b) = Number (Header (mb_CurrentBlock bc)) + 1 -> Number (Header b) < 2 ^ 64 ->
  ParentBlockHash (Header b) = b_Hash (mb_CurrentBlock bc) ->
  exists bc', AddBlock bc (Some b) = Ret (true, bc') /\ mb_CurrentBlock bc' = b /\
    storage_ok (mb_Storage bc') /\ linked (mb_Storage bc') b (b :: l).
Proof.
  intros Hs Hl Hk Hf Hn Hlt Hp. destruct (AddBlock_spec bc b l Hs Hl Hk Hf Hn Hlt Hp) as (s' & E & ? & ?).
  eexists. split; [done|]. done.
Qed.

(** ** The fork rule *)

Lemma fork_loop_found s target : 1 <= target -> forall cur l, linked s cur l -> forall fuel found,
  target <= Number (Header cur) -> (Z.to_nat (Number (Header cur) - target) + 2 <= fuel)%nat ->
  exists c l', drop (Z.to_nat (Number (Header cur) - target)) l = c :: l' /\ Number (Header c) = target /\
    linked s c (c :: l') /\
    fork_loop fuel s (Number (Header cur)) target (b_Hash cur) found = Ret (Some (Some c)).
Proof.
  intros Ht cur l Hl. induction Hl as [b Hb Hn Hp|b p l Hb Hp Hn Hlt Hl IH]; intros fuel found Hle Hf; [lia|].
  pose proof (linked_number _ _ _ Hl) as [_ Hpn]. destruct fuel as [|fuel]; [lia|]. cbn [fork_loop].
  rewrite (proj2 (Z.leb_le _ _)) by lia. rewrite Hb. go_ret. cbv beta iota.
  rewrite wrap_u_small by (unfold is_u; lia).
  destruct (Number (Header b) =? target) eqn:E.
  - apply Z.eqb_eq in E. exists b, l. rewrite E, Z.sub_diag. split; [done|]. split; [done|].
    split; [by eapply linked_next|]. destruct fuel as [|fuel]; [lia|]. cbn [fork_loop].
    rewrite (proj2 (Z.leb_gt _ _)) by lia. done.
  - apply Z.eqb_neq in E. replace (Number (Header b) - 1) with (Number (Header p)) by lia. rewrite Hp.
    destruct (IH fuel found) as (c & l' & Ed & Hc & Hcl & Ef); [lia|lia|].
    exists c, l'. replace (Z.to_nat (Number (Header b) - target)) with (S (Z.to_nat (Number (Header p) - target))) by lia.
    done.
Qed.

(** At height zero the unsigned counter wraps, and the missing parent of the
    genesis block ends the loop. *)
Lemma fork_loop_genesis s cur l : storage_ok s -> linked s cur l -> forall fuel found,
  (Z.to_nat (Number (Header cur)) + 2 <= fuel)%nat ->
  fork_loop fuel s (Number (Header cur)) 0 (b_Hash cur) found = Ret None.
Proof.
  intros Hs Hl. induction Hl as [b Hb Hn Hp|b p l Hb Hp Hn Hlt Hl IH]; intros fuel found Hf;
    (destruct fuel as [|fuel]; [lia|]); cbn [fork_loop].
  - rewrite Hn. cbn [Z.leb Z.compare]. rewrite Hb. go_ret. cbv beta iota. destruct fuel as [|fuel]; [lia|].
    cbn [fork_loop]. rewrite Hp. change (u64 (0 - 1)) with (2 ^ 64 - 1). cbn [Z.leb Z.compare Z.sub].
    rewrite (proj2 (Z.leb_le 0 (2 ^ 64 - 1))) by lia.
    unfold GetBlock. rewrite bolt_Get_nil. done.
  - pose proof (linked_number _ _ _ Hl) as [_ Hpn]. rewrite (proj2 (Z.leb_le _ _)) by lia.
    rewrite Hb. go_ret. cbv beta iota. rewrite wrap_u_small by (unfold is_u; lia).
    replace (Number (Header b) - 1) with (Number (Header p)) by lia. rewrite Hp. apply IH. lia.
Qed.

(** The rule: same parent, smaller hash. *)
Definition beats (b c : Block) : bool :=
  bool_decide (ParentBlockHash (Header b) = ParentBlockHash (Header c)) && negb (bytes_le (b_Hash c) (b_Hash b)).

(** The fork rule, on a linked chain: a block at a height below or at the
    current one replaces the block [c] stored at that height exactly when it has
    the same parent and a smaller hash.  Then it becomes the current block, linked
    through the blocks below [c], and otherwise the chain does not change; a block
    at height zero or above the current height is refused. *)
Theorem JudgeForkValid_RollBack_correct (bc : BlockChain) (b : Block) (l : list Block) :
  storage_ok (mb_Storage bc) -> linked (mb_Storage bc) (mb_CurrentBlock bc) l ->
  bolt_key (b_Hash b) -> GetBlock (mb_Storage bc) (b_Hash b) = Ret (Err "the block is not existed"%string) ->
  0 <= Number (Header b) ->
  (1 <= Number (Header b) <= Number (Header (mb_CurrentBlock bc)) ->
     exists c l', drop (Z.to_nat (Number (Header (mb_CurrentBlock bc)) - Number (Header b))) l = c :: l' /\
       if beats b c then
         exists s', JudgeForkValid_RollBack bc b = Ret (true, mb_with_block bc b s') /\ linked s' b (b :: l')
       else JudgeForkValid_RollBack bc b = Ret (false, bc)) /\
  (Number (Header b) = 0 \/ Number (Header (mb_CurrentBlock bc)) < Number (Header b) ->
     JudgeForkValid_RollBack bc b = Ret (false, bc)).
Proof.
  intros Hs Hl Hk Hf Hn0. pose proof (linked_number _ _ _ Hl) as [_ Hcur]. split.
  - intros [Hn1 Hn]. unfold JudgeForkValid_RollBack. rewrite (proj2 (Z.ltb_ge _ _)) by lia.
    destruct (fork_loop_found (mb_Storage bc) (Number (Header b)) Hn1 _ l Hl (fork_fuel bc b) None)
      as (c & l' & Ed & Hc & Hcl & Ef); [done|unfold fork_fuel; lia|].
    exists c, l'. split; [done|]. rewrite Ef. go_ret. unfold beats.
    case_bool_decide as Ep; simpl negb; cbv iota; [|done]. simpl andb.
    destruct (bytes_le (b_Hash c) (b_Hash b)); [done|]. simpl negb.
    inversion Hcl as [? ? Hz _|? p ? Hcb Hcp Hcn _ Hp]; subst; [lia|].
    rewrite Ep, Hcp, (linked_get _ _ _ Hp). go_ret. cbv beta iota.
    destruct (AddBlock_spec (mb_with_block bc p (mb_Storage bc)) b l') as (s' & Ea & _ & Hl');
      [done|done|done|done|cbn; lia|cbn; lia|cbn; congruence|].
    rewrite Ea. go_ret. exists s'. done.
  - intros [Hz|Hgt]; unfold JudgeForkValid_RollBack; [|by rewrite (proj2 (Z.ltb_lt _ _))].
    rewrite (proj2 (Z.ltb_ge _ _)) by lia. rewrite Hz, (fork_loop_genesis _ _ l); [done|done|done|].
    unfold fork_fuel. lia.
Qed.
End correct.

Module MemSample.
#[local] Existing Instance DBSample.ethdb.
#[local] Existing Instance DBSample.fastcache.
#[local] Existing Instance RLPSample.env.
#[local] Existing Instance RLPSample.rlp.
#[local] Existing Instance RLPSample.eth.
#[local] Existing Instance DBSample.account.
#[local] Existing Instance StorageSample.bolt.
#[local] Existing Instance StorageSample.as_gob.
#[local] Existing Instance StorageSample.tx_gob.
#[local] Existing Instance StorageSample.block_gob.
#[local] Existing Instance StorageSample.bh_gob.
#[local] Existing Instance RLPSample.rlp_laws.
#[local] Existing Instance RLPSample.hash_laws.
#[local] Existing Instance DBSample.ethdb_laws.
#[local] Existing Instance StorageSample.bolt_laws.
#[local] Existing Instance ChainSample.free.
#[local] Existing Instance ChainSample.sha.
#[local] Existing Instance ChainSample.params.
#[local] Existing Instance ChainSample.memory.

Definition child (h : Z) : Block := mkBlock (mkBH [9] EmptyRootHash [] ∅ 1 0 0) [] [h].
Definition pairs : gmap (string * list Z) (list Z) :=
  {[ ("block"%string, [9]) := B_Encode ChainSample.genesis; ("block"%string, [8]) := B_Encode (child 8) ]}.
Definition store : Storage := mkStorage StorageSample.bolt "" "block" "blockHeader" "newestBlockHash" pairs.
Definition pool : TxPool := mkPool ChainSample.txs (Some ∅) false.
Definition node : BlockChain := mkMBC DBSample.db0 ChainSample.cc (child 8) store pool ∅ None.
Definition next : Block := mkBlock (mkBH [8] EmptyRootHash [] ∅ 2 0 0) [] [3].

Lemma get_genesis : GetBlock store [9] = Ret (Ok ChainSample.genesis).
Proof. vm_compute. reflexivity. Qed.
Lemma get_child : GetBlock store [8] = Ret (Ok (child 8)).
Proof. vm_compute. reflexivity. Qed.
Lemma node_linked : linked store (child 8) [child 8; ChainSample.genesis].
Proof.
  refine (linked_next store (child 8) ChainSample.genesis _ get_child eq_refl eq_refl eq_refl _).
  exact (linked_genesis store ChainSample.genesis get_genesis eq_refl eq_refl).
Qed.
Lemma small_key z : bolt_key [z].
Proof. split; [done|vm_compute; discriminate]. Qed.
Lemma fresh_5 : GetBlock store [5] = Ret (Err "the block is not existed"%string).
Proof. vm_compute. reflexivity. Qed.
Lemma fresh_3 : GetBlock store [3] = Ret (Err "the block is not existed"%string).
Proof. vm_compute. reflexivity. Qed.

Lemma memory_root_never_moves_witness :
  GetUpdateStatusTrie node ChainSample.txs = Ret (EmptyRootHash, node).
Proof.
  apply (memory_root_never_moves node ∅ ChainSample.txs DBSample.db0_inv).
  - apply state_at_empty.
  - by intros k v E.
  - repeat constructor; eexists; reflexivity.
Defined.

Lemma AddBlock_keeps_linked_witness :
  exists bc', AddBlock node (Some next) = Ret (true, bc') /\ mb_CurrentBlock bc' = next /\
    storage_ok (mb_Storage bc') /\ linked (mb_Storage bc') next [next; child 8; ChainSample.genesis].
Proof.
  exact (AddBlock_keeps_linked node next _ ltac:(done) node_linked (small_key 3) fresh_3 eq_refl eq_refl eq_refl).
Defined.

Lemma JudgeForkValid_RollBack_correct_witness :
  exists s', JudgeForkValid_RollBack node (child 5) = Ret (true, mb_with_block node (child 5) s') /\
    linked s' (child 5) [child 5; ChainSample.genesis].
Proof.
  destruct (JudgeForkValid_RollBack_correct node (child 5) _ ltac:(done) node_linked (small_key 5) fresh_5)
    as [Hin _]; [simpl; lia|].
  destruct Hin as (c & l' & [= <- <-] & Hb); [simpl; lia|]. exact Hb.
Defined.
End MemSample.
