(* ===== verification/HashRing.v ===== *)
(** * The skip-list hash ring ([local/hash_ring.go])

    The ring of virtual nodes, ordered by score, as the skip list the code
    keeps: nodes in a heap linked by pointers at several levels.  The loops run
    on fuel (the size of the heap, which bounds every walk), and the random
    level of an insertion is read from a stream.  Proved: every operation keeps
    the skip-list invariant and implements the ordered map from scores to node
    identifiers. *)

From stdpp Require Import base gmap strings list.
From Stdlib Require Import ZArith Lia Sorted.
From S2P Require Import Prelude.

Local Open Scope Z_scope.

(** ** Data *)

Record virtualNode := mkVN {
  score : Z;
  nodeIDs : list string;
  nexts : list (option nat);
}.

Notation heap := (gmap nat virtualNode).

(** The root is the node at address 0; [r_fresh] is the next free address and
    [r_rolls] the results of future calls of [roll]. *)
Record SkiplistHashRing := mkRing {
  r_heap : heap;
  r_fresh : nat;
  r_rolls : nat -> nat;
  nodeToReplicas : gmap string Z;
  nodeToDataKey : gmap string (gset string);
}.

Definition root_ptr : nat := 0.

Definition NewSkiplistHashRing (rolls : nat -> nat) : SkiplistHashRing :=
  mkRing {[ root_ptr := mkVN 0 [] [] ]} 1 rolls ∅ ∅.

Definition with_heap (s : SkiplistHashRing) (h : heap) : SkiplistHashRing :=
  mkRing h (r_fresh s) (r_rolls s) (nodeToReplicas s) (nodeToDataKey s).

(** ** Walking *)

Definition next_of (h : heap) (p level : nat) : outcome (option nat) :=
  n ← of_option (h !! p); of_option (nexts n !! level).

Definition score_of (h : heap) (p : nat) : outcome Z :=
  n ← of_option (h !! p); Ret (score n).

Definition levels_of (h : heap) : outcome nat :=
  n ← of_option (h !! root_ptr); Ret (length (nexts n)).

(** [for move.nexts[level] != nil && below(move.nexts[level].score) { move = ... }] *)
Fixpoint forward (fuel : nat) (h : heap) (below : Z -> bool) (move level : nat) : outcome nat :=
  match fuel with
  | O => Panic
  | S fuel =>
      nx ← next_of h move level;
      match nx with
      | None => Ret move
      | Some p =>
          sc ← score_of h p;
          if below sc then forward fuel h below p level else Ret move
      end
  end.

(** The walk of [ceiling], [floor] and [last] over the levels [n-1, ..., 0]. *)
Fixpoint descend (n : nat) (h : heap) (below : Z -> bool) (move : nat) : outcome nat :=
  match n with
  | O => Ret move
  | S level =>
      move ← forward (size h) h below move level;
      descend level h below move
  end.

Fixpoint get_loop (n : nat) (h : heap) (sc : Z) (move : nat) : outcome (option nat) :=
  match n with
  | O => Ret None
  | S level =>
      move ← forward (size h) h (fun x => x <? sc) move level;
      nx ← next_of h move level;
      match nx with
      | None => get_loop level h sc move
      | Some p =>
          psc ← score_of h p;
          if psc =? sc then Ret (Some p) else get_loop level h sc move
      end
  end.

Definition get (s : SkiplistHashRing) (sc : Z) : outcome (option nat) :=
  n ← levels_of (r_heap s); get_loop n (r_heap s) sc root_ptr.

Definition ceiling (s : SkiplistHashRing) (sc : Z) : outcome (Z * bool) :=
  let h := r_heap s in
  n ← levels_of h;
  if (n =? 0)%nat then Ret (-1, false)
  else
    move ← descend n h (fun x => x <? sc) root_ptr;
    nx ← next_of h move 0;
    match nx with
    | None => Ret (-1, false)
    | Some p => psc ← score_of h p; Ret (psc, true)
    end.

Definition first (s : SkiplistHashRing) : outcome (Z * bool) :=
  let h := r_heap s in
  n ← levels_of h;
  if (n =? 0)%nat then Ret (-1, false)
  else
    nx ← next_of h root_ptr 0;
    match nx with
    | None => Panic
    | Some p => psc ← score_of h p; Ret (psc, true)
    end.

Definition floor (s : SkiplistHashRing) (sc : Z) : outcome (Z * bool) :=
  let h := r_heap s in
  n ← levels_of h;
  if (n =? 0)%nat then Ret (-1, false)
  else
    move ← descend n h (fun x => x <? sc) root_ptr;
    nx ← next_of h move 0;
    hit ← (match nx with
           | None => Ret false
           | Some p => psc ← score_of h p; Ret (psc =? sc)
           end);
    if (hit : bool) then Ret (sc, true)
    else if (move =? root_ptr)%nat then Ret (-1, false)
    else msc ← score_of h move; Ret (msc, true).

Definition last (s : SkiplistHashRing) : outcome (Z * bool) :=
  let h := r_heap s in
  n ← levels_of h;
  move ← descend n h (fun _ => true) root_ptr;
  if (move =? root_ptr)%nat then Ret (-1, false)
  else msc ← score_of h move; Ret (msc, true).

(** ** Operations *)

Definition Ceiling (s : SkiplistHashRing) (sc : Z) : outcome Z :=
  '(target, ok) ← ceiling s sc;
  if (ok : bool) then Ret target else '(fst, _) ← first s; Ret fst.

Definition Floor (s : SkiplistHashRing) (sc : Z) : outcome Z :=
  '(target, ok) ← floor s sc;
  if (ok : bool) then Ret target else '(lst, _) ← last s; Ret lst.

Definition Node (s : SkiplistHashRing) (sc : Z) : outcome (res string (list string)) :=
  p ← get s sc;
  match p with
  | None => Ret (Err "score not exist")
  | Some p => n ← of_option (r_heap s !! p); Ret (Ok (nodeIDs n))
  end.

(** [p.nexts[level] = v] *)
Definition set_next (h : heap) (p level : nat) (v : option nat) : outcome heap :=
  n ← of_option (h !! p);
  if (level <? length (nexts n))%nat
  then Ret (<[p := mkVN (score n) (nodeIDs n) (<[level := v]> (nexts n))]> h)
  else Panic.

(** The loop of [Add] over the levels [n-1, ..., 0]. *)
Fixpoint add_loop (n : nat) (h : heap) (sc : Z) (newp move : nat) : outcome heap :=
  match n with
  | O => Ret h
  | S level =>
      move ← forward (size h) h (fun x => x <? sc) move level;
      nx ← next_of h move level;
      h ← set_next h newp level nx;
      h ← set_next h move level (Some newp);
      add_loop level h sc newp move
  end.

(** [s.root.nexts = append(s.root.nexts, difs...)] when the new level is higher. *)
Definition grow_root (h : heap) (n : nat) : outcome heap :=
  r ← of_option (h !! root_ptr);
  Ret (if (length (nexts r) <? n)%nat
       then <[root_ptr := mkVN (score r) (nodeIDs r)
               (nexts r ++ replicate (n - length (nexts r)) None)]> h
       else h).

Definition Add (s : SkiplistHashRing) (sc : Z) (nodeID : string) : outcome SkiplistHashRing :=
  target ← get s sc;
  match target with
  | Some p =>
      n ← of_option (r_heap s !! p);
      if bool_decide (nodeID ∈ nodeIDs n) then Ret s
      else Ret (with_heap s (<[p := mkVN (score n) (nodeIDs n ++ [nodeID]) (nexts n)]> (r_heap s)))
  | None =>
      let rLevel := r_rolls s 0%nat in
      h ← grow_root (r_heap s) (rLevel + 1);
      let newp := r_fresh s in
      let h := <[newp := mkVN sc [nodeID] (replicate (rLevel + 1) None)]> h in
      h ← add_loop (rLevel + 1) h sc newp root_ptr;
      Ret (mkRing h (S newp) (fun i => r_rolls s (S i)) (nodeToReplicas s) (nodeToDataKey s))
  end.

(** The unlinking loop of [Rem] over the levels [n-1, ..., 0]. *)
Fixpoint rem_loop (n : nat) (h : heap) (sc : Z) (move : nat) : outcome heap :=
  match n with
  | O => Ret h
  | S level =>
      move ← forward (size h) h (fun x => x <? sc) move level;
      nx ← next_of h move level;
      match nx with
      | None => rem_loop level h sc move
      | Some p =>
          psc ← score_of h p;
          if sc <? psc then rem_loop level h sc move
          else
            nx' ← next_of h p level;
            h ← set_next h move level nx';
            rem_loop level h sc move
      end
  end.

(** The levels of the root up to the first nil one. *)
Fixpoint cut_levels (nx : list (option nat)) : list (option nat) :=
  match nx with
  | Some p :: nx => Some p :: cut_levels nx
  | _ => []
  end.

Definition shrink_root (h : heap) : outcome heap :=
  r ← of_option (h !! root_ptr);
  Ret (<[root_ptr := mkVN (score r) (nodeIDs r) (cut_levels (nexts r))]> h).

(** Index of the first occurrence, [-1] being [None]. *)
Definition index_of (nodeID : string) (ids : list string) : option nat :=
  fst <$> list_find (fun x => x = nodeID) ids.

Definition del_data_key (s : SkiplistHashRing) (nodeID : string) : SkiplistHashRing :=
  mkRing (r_heap s) (r_fresh s) (r_rolls s) (nodeToReplicas s) (delete nodeID (nodeToDataKey s)).

Definition Rem (s : SkiplistHashRing) (sc : Z) (nodeID : string)
  : outcome (res string unit * SkiplistHashRing) :=
  target ← get s sc;
  match target with
  | None => Ret (Err "score not exist", s)
  | Some p =>
      n ← of_option (r_heap s !! p);
      match index_of nodeID (nodeIDs n) with
      | None => Ret (Err "node not exist in score", s)
      | Some index =>
          let s := del_data_key s nodeID in
          if (1 <? length (nodeIDs n))%nat then
            let ids := take index (nodeIDs n) ++ drop (S index) (nodeIDs n) in
            Ret (Ok (), with_heap s (<[p := mkVN (score n) ids (nexts n)]> (r_heap s)))
          else
            lv ← levels_of (r_heap s);
            h ← rem_loop lv (r_heap s) sc root_ptr;
            h ← shrink_root h;
            Ret (Ok (), with_heap s h)
      end
  end.

Definition Nodes (s : SkiplistHashRing) : gmap string Z := nodeToReplicas s.

Definition AddNodeToReplica (s : SkiplistHashRing) (nodeID : string) (replicas : Z) : SkiplistHashRing :=
  mkRing (r_heap s) (r_fresh s) (r_rolls s) (<[nodeID := replicas]> (nodeToReplicas s)) (nodeToDataKey s).

Definition DeleteNodeToReplica (s : SkiplistHashRing) (nodeID : string) : SkiplistHashRing :=
  mkRing (r_heap s) (r_fresh s) (r_rolls s) (delete nodeID (nodeToReplicas s)) (nodeToDataKey s).

Definition DataKeys (s : SkiplistHashRing) (nodeID : string) : gset string :=
  default ∅ (nodeToDataKey s !! nodeID).

Definition AddNodeToDataKeys (s : SkiplistHashRing) (nodeID : string) (dataKeys : gset string)
  : SkiplistHashRing :=
  let oldDataKeys := default ∅ (nodeToDataKey s !! nodeID) in
  mkRing (r_heap s) (r_fresh s) (r_rolls s) (nodeToReplicas s)
    (<[nodeID := oldDataKeys ∪ dataKeys]> (nodeToDataKey s)).

Definition DeleteNodeToDataKeys (s : SkiplistHashRing) (nodeID : string) (dataKeys : gset string)
  : SkiplistHashRing :=
  match nodeToDataKey s !! nodeID with
  | None => s
  | Some old =>
      let rest := old ∖ dataKeys in
      mkRing (r_heap s) (r_fresh s) (r_rolls s) (nodeToReplicas s)
        (if decide (rest = ∅) then delete nodeID (nodeToDataKey s)
         else <[nodeID := rest]> (nodeToDataKey s))
  end.

(** ** The skip-list invariant *)

(** A linked node as the proofs see it. *)
Record cell := mkCell { c_ptr : nat; c_score : Z; c_ids : list string; c_height : nat }.

Definition cell_in (h : heap) (c : cell) : Prop :=
  exists nx, h !! c_ptr c = Some (mkVN (c_score c) (c_ids c) nx) /\ length nx = c_height c.

Definition link (h : heap) (l : nat) (c : cell) : option (option nat) :=
  n ← h !! c_ptr c; nexts n !! l.

(** The first cell that reaches above level [l]. *)
Definition above (l : nat) (C : list cell) : option nat :=
  c_ptr <$> head (filter (fun c => (l < c_height c)%nat) C).

(** Level [l] links the cells that reach it, in order. *)
Definition level_ok (h : heap) (C : list cell) (l : nat) : Prop :=
  forall C1 c C2, C = C1 ++ c :: C2 -> (l < c_height c)%nat -> link h l c = Some (above l C2).

Definition max_height (L : list cell) : nat := max_list (c_height <$> L).
Definition root_cell (height : nat) : cell := mkCell root_ptr 0 [] height.

(** Everything about a chain except which levels are linked. *)
Record cells_ok (h : heap) (C : list cell) : Prop := {
  cells_in : forall c, c ∈ C -> cell_in h c;
  cells_nodup : NoDup (c_ptr <$> C);
}.

Record chain_ok (h : heap) (fresh : nat) (L : list cell) : Prop := {
  chain_cells : cells_ok h (root_cell (max_height L) :: L);
  chain_levels : forall l, level_ok h (root_cell (max_height L) :: L) l;
  chain_heights : forall c, c ∈ L -> (1 <= c_height c)%nat;
  chain_sorted : StronglySorted Z.lt (c_score <$> L);
  chain_ids : forall c, c ∈ L -> c_ids c <> [];
  chain_fresh : forall p, (fresh <= p)%nat -> h !! p = None;
}.

(** *** Lists of cells *)

Lemma above_app_low l A B :
  Forall (fun c => (c_height c <= l)%nat) A -> above l (A ++ B) = above l B.
Proof.
  intros HA. unfold above. rewrite list.filter_app.
  assert (filter (fun c => (l < c_height c)%nat) A = []) as ->; [|done].
  induction HA as [|c A Hc HA IH]; [done|]. rewrite filter_cons, decide_False by lia. done.
Qed.

Lemma above_cons_hit l c B : (l < c_height c)%nat -> above l (c :: B) = Some (c_ptr c).
Proof. intros Hc. unfold above. by rewrite filter_cons, decide_True. Qed.

(** Either nothing reaches the level, or there is a first cell that does. *)
Lemma above_cases l (A : list cell) :
  Forall (fun c => (c_height c <= l)%nat) A \/
  exists A1 x A2, A = A1 ++ x :: A2 /\ Forall (fun c => (c_height c <= l)%nat) A1 /\ (l < c_height x)%nat.
Proof.
  induction A as [|c A IH]; [by left|].
  destruct (decide (l < c_height c)%nat) as [Hc|Hc].
  - right. by exists [], c, A.
  - destruct IH as [IH|(A1 & x & A2 & -> & H1 & H2)].
    + left. constructor; [lia|done].
    + right. exists (c :: A1), x, A2. split; [done|]. split; [|done]. constructor; [lia|done].
Qed.

Lemma above_None l A : Forall (fun c => (c_height c <= l)%nat) A -> above l A = None.
Proof. intros HA. rewrite <- (app_nil_r A), above_app_low; done. Qed.

Lemma above_Some_in l A p : above l A = Some p -> exists y, p = c_ptr y /\ y ∈ A.
Proof.
  unfold above. destruct (filter _ A) as [|y A'] eqn:Ef; [done|]. intros [= <-].
  exists y. split; [done|].
  assert (y ∈ filter (fun c => (l < c_height c)%nat) A) as Hy by (rewrite Ef; set_solver).
  by apply list_elem_of_filter in Hy as [_ ?].
Qed.

Lemma max_height_bound (L : list cell) c : c ∈ L -> (c_height c <= max_height L)%nat.
Proof.
  intros Hc. apply max_list_elem_of_le. by apply list_elem_of_fmap_2.
Qed.

Lemma above_max L l : above l L = None <-> (max_height L <= l)%nat.
Proof.
  split.
  - intros Ha. unfold max_height. destruct (above_cases l L) as [HL|(A1 & x & A2 & -> & H1 & H2)].
    + clear Ha. induction HL as [|c A Hc HA IH]; [simpl; lia|].
      rewrite fmap_cons. cbn [max_list_with]. unfold id at 1. lia.
    + rewrite above_app_low, above_cons_hit in Ha; done.
  - intros Hl. apply above_None, Forall_forall. intros c Hc. apply max_height_bound in Hc. lia.
Qed.

(** *** Heap facts *)

Lemma cells_size h C : cells_ok h C -> (length C <= size h)%nat.
Proof.
  intros [Hin Hnd]. rewrite <- (length_fmap c_ptr C), <- (size_dom (D := gset nat) h).
  rewrite <- (size_list_to_set (C := gset nat) (c_ptr <$> C)) by done. apply subseteq_size.
  intros p Hp. apply elem_of_list_to_set, list_elem_of_fmap in Hp as (c & -> & Hc).
  destruct (Hin c Hc) as (nx & E & _). apply elem_of_dom. by eexists.
Qed.

Lemma next_of_link h l c v : link h l c = Some v -> next_of h (c_ptr c) l = Ret v.
Proof.
  unfold link, next_of. destruct (h !! c_ptr c) as [n|]; [|done]. simpl. by intros ->.
Qed.

Lemma score_of_cell h c : cell_in h c -> score_of h (c_ptr c) = Ret (c_score c).
Proof. intros (nx & E & _). unfold score_of. by rewrite E. Qed.

Lemma levels_of_root h H C : cells_ok h (root_cell H :: C) -> levels_of h = Ret H.
Proof.
  intros [Hin _]. destruct (Hin (root_cell H)) as (nx & E & Hl); [set_solver|].
  unfold levels_of. simpl in E. rewrite E. simpl. by rewrite Hl.
Qed.

(** *** One level of a search *)

(** [P] is the part of the chain the search passes over, [S] the part it does
    not; the search stops at the last cell of [P] that reaches the level. *)
Lemma forward_spec h below l P S : forall fuel P1 c P2,
  cells_ok h (P ++ S) -> level_ok h (P ++ S) l ->
  (forall d, d ∈ S -> below (c_score d) = false) ->
  (forall d, d ∈ P2 -> below (c_score d) = true) ->
  P = P1 ++ c :: P2 -> (l < c_height c)%nat -> (length P2 < fuel)%nat ->
  exists Q1 d Q2, forward fuel h below (c_ptr c) l = Ret (c_ptr d) /\
    P = Q1 ++ d :: Q2 /\ (l < c_height d)%nat /\ Forall (fun c => (c_height c <= l)%nat) Q2 /\
    (exists R, c :: P2 = R ++ d :: Q2).
Proof.
  induction fuel as [|fuel IH]; intros P1 c P2 Hc Hl HS HP EP Hcl Hf; [lia|].
  pose proof (Hl P1 c (P2 ++ S)) as Hlc. rewrite EP, <- app_assoc in Hlc.
  specialize (Hlc eq_refl Hcl). cbn [forward]. rewrite (next_of_link _ _ _ _ Hlc).
  destruct (above_cases l P2) as [Hlow|(A1 & x & A2 & E2 & Hlow & Hx)].
  - exists P1, c, P2. split; [|split; [done|]; split; [done|]; split; [done|by exists []]].
    rewrite above_app_low by done. destruct (above l S) as [p|] eqn:Ea; [|done].
    destruct (above_Some_in _ _ _ Ea) as (d & -> & Hd). simpl. rewrite score_of_cell by (apply (cells_in _ _ Hc); set_solver). simpl.
    by rewrite HS.
  - subst P2. rewrite <- app_assoc, above_app_low, <- app_comm_cons, above_cons_hit by done.
    simpl. rewrite score_of_cell by (apply (cells_in _ _ Hc); set_solver). simpl.
    rewrite HP by set_solver.
    destruct (IH (P1 ++ c :: A1) x A2) as (Q1 & d & Q2 & E & EQ & Hd & HQ & R & ER); try done.
    + intros d Hd. apply HP. set_solver.
    + rewrite EP, <- app_assoc. done.
    + rewrite length_app in Hf. simpl in Hf. lia.
    + exists Q1, d, Q2. split; [done|]. split; [done|]. split; [done|]. split; [done|].
      exists (c :: A1 ++ R). simpl. by rewrite ER, <- app_assoc.
Qed.

(** The cell a search stands at when the levels [n] and above are done. *)
Definition cursor (H : nat) (P : list cell) (n : nat) (c : cell) : Prop :=
  exists P1 P2, root_cell H :: P = P1 ++ c :: P2 /\ (n <= c_height c)%nat /\
    Forall (fun d => (c_height d <= n)%nat) P2.

(** A cell at which a search may start a level. *)
Definition standing (H : nat) (P : list cell) (n : nat) (c : cell) : Prop :=
  exists P1 P2, root_cell H :: P = P1 ++ c :: P2 /\ (n <= c_height c)%nat.

Lemma cursor_standing H P n c : cursor H P n c -> standing H P n c.
Proof. intros (P1 & P2 & ? & ? & _). by exists P1, P2. Qed.

Section search.
Context (h : heap) (below : Z -> bool) (H : nat) (P S : list cell).
Context (Hcells : cells_ok h (root_cell H :: P ++ S)).
Context (HS : forall d, d ∈ S -> below (c_score d) = false).
Context (HP : forall d, d ∈ P -> below (c_score d) = true).

Lemma cursor_step n c :
  level_ok h (root_cell H :: P ++ S) n -> standing H P (Datatypes.S n) c ->
  exists d, forward (size h) h below (c_ptr c) n = Ret (c_ptr d) /\ cursor H P n d /\
    (n < c_height d)%nat /\ link h n d = Some (above n S).
Proof.
  intros Hl (P1 & P2 & EP & Hc).
  destruct (forward_spec h below n (root_cell H :: P) S (size h) P1 c P2)
    as (Q1 & d & Q2 & E & EQ & Hd & HQ & _); try done.
  - intros d Hd. apply HP. destruct P1 as [|r P1]; simplify_eq/=; set_solver.
  - apply cells_size in Hcells. rewrite app_comm_cons, EP, !length_app in Hcells. simpl in Hcells. lia.
  - exists d. split; [done|]. split; [exists Q1, Q2; split; [done|]; split; [lia|done]|].
    split; [done|]. rewrite (Hl Q1 d (Q2 ++ S)).
    + by rewrite above_app_low.
    + rewrite app_comm_cons, EQ, <- app_assoc. done.
    + done.
Qed.

Context (Hheights : forall c, c ∈ P -> (1 <= c_height c)%nat).

(** Below level 0 the cursor is the last cell before [S]. *)
Lemma cursor_last c : cursor H P 0 c -> exists P1, root_cell H :: P = P1 ++ [c].
Proof.
  intros (P1 & P2 & EP & _ & HP2). destruct P2 as [|d P2]; [by exists P1|]. exfalso.
  apply Forall_cons_1 in HP2 as [Hd _].
  assert (d ∈ P) as HdP by (destruct P1; simplify_eq/=; set_solver).
  apply Hheights in HdP. lia.
Qed.

Lemma cursor_start : (forall d, d ∈ P -> (c_height d <= H)%nat) -> cursor H P H (root_cell H).
Proof.
  intros Hb. exists [], P. split; [done|]. split; [done|]. by apply Forall_forall.
Qed.

Lemma descend_spec n : forall c,
  (forall l, level_ok h (root_cell H :: P ++ S) l) -> cursor H P n c ->
  exists d P1, descend n h below (c_ptr c) = Ret (c_ptr d) /\ root_cell H :: P = P1 ++ [d] /\
    cursor H P 0 d.
Proof.
  induction n as [|n IH]; intros c Hl Hc.
  - destruct (cursor_last c Hc) as [P1 EP]. by exists c, P1.
  - destruct (cursor_step n c (Hl n) (cursor_standing _ _ _ _ Hc)) as (d & E & Hd & _).
    simpl. rewrite E. simpl. by apply IH.
Qed.

(** The search of [get]: [S] starts with the score looked for, or does not. *)
Lemma get_loop_spec sc n : forall c,
  (forall l, level_ok h (root_cell H :: P ++ S) l) -> cursor H P n c ->
  below = (fun x => x <? sc) ->
  (forall d, d ∈ tail S -> c_score d <> sc) ->
  get_loop n h sc (c_ptr c) =
    Ret (match head S with
         | Some x => if (c_score x =? sc) && (0 <? Nat.min n (c_height x))%nat then Some (c_ptr x) else None
         | None => None
         end).
Proof.
  intros c Hl Hc Eb Ht. revert c Hc. induction n as [|n IH]; intros c Hc.
  - simpl. destruct (head S); [|done]. by rewrite andb_false_r.
  - destruct (cursor_step n c (Hl n) (cursor_standing _ _ _ _ Hc)) as (d & E & Hd & Hdh & Hlk). cbn [get_loop].
    rewrite <- Eb, E. go_ret. rewrite (next_of_link _ _ _ _ Hlk). go_ret. specialize (IH d Hd).
    destruct S as [|x S']; [exact IH|]. cbn [head tail] in *.
    destruct (decide (n < c_height x)%nat) as [Hx|Hx].
    + rewrite above_cons_hit by done. rewrite score_of_cell by (apply (cells_in _ _ Hcells); set_solver).
      go_ret. destruct (c_score x =? sc) eqn:Ex; [|exact IH]. clear IH.
      destruct (c_height x); [lia|]. done.
    + assert (above n (x :: S') = above n S') as ->.
      { apply (above_app_low n [x] S'). constructor; [lia|done]. }
      assert ((0 <? Nat.min (Datatypes.S n) (c_height x))%nat = (0 <? Nat.min n (c_height x))%nat) as ->.
      { destruct n; [|by rewrite !Nat.min_r by lia]. by replace (c_height x) with 0%nat by lia. }
      destruct (above n S') as [p|] eqn:Ea; [|exact IH].
      destruct (above_Some_in _ _ _ Ea) as (y & -> & Hyin).
      rewrite score_of_cell by (apply (cells_in _ _ Hcells); set_solver). go_ret.
      rewrite (proj2 (Z.eqb_neq _ _)) by (by apply Ht). exact IH.
Qed.
End search.

(** ** Splitting the ring at a score *)

Lemma split_at (L : list cell) t :
  StronglySorted Z.lt (c_score <$> L) ->
  exists P S, L = P ++ S /\ (forall d, d ∈ P -> c_score d < t) /\ (forall d, d ∈ S -> t <= c_score d) /\
    (forall d, d ∈ tail S -> t < c_score d).
Proof.
  induction L as [|c L IH]; intros Hs.
  - exists [], []. repeat split; try done; set_solver.
  - inversion Hs as [|? ? Hs' Hall]; subst. rewrite Forall_fmap in Hall.
    rewrite Forall_forall in Hall. destruct (decide (c_score c < t)) as [Hc|Hc].
    + destruct (IH Hs') as (P & S & -> & H1 & H2 & H3). exists (c :: P), S.
      split; [done|]. split; [|done]. intros d [->|Hd]%elem_of_cons; auto.
    + exists [], (c :: L). split; [done|]. split; [set_solver|]. split.
      * intros d [->|Hd]%elem_of_cons; [lia|]. apply Hall in Hd. simpl in Hd. lia.
      * intros d Hd. apply Hall in Hd. simpl in Hd. lia.
Qed.

(** ** The ordered map a ring implements *)

Definition entries (L : list cell) : list (Z * list string) := (fun c => (c_score c, c_ids c)) <$> L.

Definition ring_rep (s : SkiplistHashRing) (M : gmap Z (list string)) : Prop :=
  exists L, chain_ok (r_heap s) (r_fresh s) L /\ M = list_to_map (entries L).

(** The score that owns [t]: the least one at or after it, around the ring. *)
Definition ceiling_of (M : gmap Z (list string)) (t r : Z) : Prop :=
  (is_Some (M !! r) /\ t <= r /\ forall k, is_Some (M !! k) -> t <= k -> r <= k) \/
  ((forall k, is_Some (M !! k) -> k < t) /\ is_Some (M !! r) /\ forall k, is_Some (M !! k) -> r <= k) \/
  (M = ∅ /\ r = -1).

(** The greatest score at or before [t], around the ring. *)
Definition floor_of (M : gmap Z (list string)) (t r : Z) : Prop :=
  (is_Some (M !! r) /\ r <= t /\ forall k, is_Some (M !! k) -> k <= t -> k <= r) \/
  ((forall k, is_Some (M !! k) -> t < k) /\ is_Some (M !! r) /\ forall k, is_Some (M !! k) -> k <= r) \/
  (M = ∅ /\ r = -1).

Lemma sorted_nodup (l : list Z) : StronglySorted Z.lt l -> NoDup l.
Proof.
  induction 1 as [|x l Hs IH Hall]; constructor; [|done].
  intros Hx. rewrite Forall_forall in Hall. apply Hall in Hx. lia.
Qed.

Lemma entries_fst L : (entries L).*1 = c_score <$> L.
Proof. unfold entries. by rewrite <- list_fmap_compose. Qed.

Lemma entries_lookup L k ids :
  StronglySorted Z.lt (c_score <$> L) ->
  (list_to_map (entries L) : gmap Z (list string)) !! k = Some ids <->
  exists c, c ∈ L /\ c_score c = k /\ c_ids c = ids.
Proof.
  intros Hs. rewrite <- elem_of_list_to_map by (rewrite entries_fst; by apply sorted_nodup).
  unfold entries. rewrite list_elem_of_fmap. naive_solver.
Qed.

Lemma entries_key L k :
  StronglySorted Z.lt (c_score <$> L) ->
  is_Some ((list_to_map (entries L) : gmap Z (list string)) !! k) <-> exists c, c ∈ L /\ c_score c = k.
Proof.
  intros Hs. unfold is_Some. setoid_rewrite (entries_lookup L k _ Hs). naive_solver.
Qed.

Lemma chain_bounds h fresh L : chain_ok h fresh L -> forall d, d ∈ L -> (c_height d <= max_height L)%nat.
Proof. intros _ d Hd. by apply max_height_bound. Qed.

Lemma get_spec s L sc :
  chain_ok (r_heap s) (r_fresh s) L ->
  exists P S, L = P ++ S /\ (forall d, d ∈ P -> c_score d < sc) /\ (forall d, d ∈ S -> sc <= c_score d) /\
    (forall d, d ∈ tail S -> sc < c_score d) /\
    get s sc = Ret (match head S with
                    | Some x => if c_score x =? sc then Some (c_ptr x) else None
                    | None => None
                    end).
Proof.
  intros [Hc Hl Hh Hs Hi Hf]. destruct (split_at L sc Hs) as (P & S & EL & HP & HS & Ht).
  exists P, S. do 4 (split; [done|]). unfold get. rewrite (levels_of_root _ _ _ Hc). go_ret.
  assert (cells_ok (r_heap s) (root_cell (max_height L) :: P ++ S)) as Hc' by by rewrite <- EL.
  assert (forall l, level_ok (r_heap s) (root_cell (max_height L) :: P ++ S) l) as Hl'
    by (intros l; rewrite <- EL; apply Hl).
  change root_ptr with (c_ptr (root_cell (max_height L))).
  rewrite (get_loop_spec (r_heap s) (fun x => x <? sc) (max_height L) P S Hc'); try done.
  - destruct S as [|x S]; [done|]. simpl.
    assert (x ∈ L) as Hx by (rewrite EL; set_solver).
    pose proof (Hh x Hx). pose proof (max_height_bound L x Hx).
    assert ((0 <? Nat.min (max_height L) (c_height x))%nat = true) as -> by (apply Nat.ltb_lt; lia).
    by rewrite andb_true_r.
  - intros d Hd. apply Z.ltb_ge, HS, Hd.
  - intros d Hd. apply Z.ltb_lt, HP, Hd.
  - intros c HcP. apply Hh. rewrite EL. set_solver.
  - apply cursor_start. intros d Hd. apply max_height_bound. rewrite EL. set_solver.
  - intros d Hd E. apply Ht in Hd. lia.
Qed.

(** What [ceiling], [floor] and [last] find after their walk. *)
Lemma walk_spec s L below P S :
  chain_ok (r_heap s) (r_fresh s) L -> L = P ++ S ->
  (forall d, d ∈ P -> below (c_score d) = true) -> (forall d, d ∈ S -> below (c_score d) = false) ->
  L <> [] ->
  exists d P1, descend (max_height L) (r_heap s) below root_ptr = Ret (c_ptr d) /\
    root_cell (max_height L) :: P = P1 ++ [d] /\
    next_of (r_heap s) (c_ptr d) 0 = Ret (c_ptr <$> head S).
Proof.
  intros [Hc Hl Hh Hs Hi Hf] EL HP HS Hne.
  assert (cells_ok (r_heap s) (root_cell (max_height L) :: P ++ S)) as Hc' by by rewrite <- EL.
  assert (forall l, level_ok (r_heap s) (root_cell (max_height L) :: P ++ S) l) as Hl'
    by (intros l; rewrite <- EL; apply Hl).
  destruct (descend_spec (r_heap s) below (max_height L) P S Hc' HS HP) with
    (n := max_height L) (c := root_cell (max_height L)) as (d & P1 & E & EP & Hcur); try done.
  - intros c HcP. apply Hh. rewrite EL. set_solver.
  - apply cursor_start. intros d Hd. apply max_height_bound. rewrite EL. set_solver.
  - exists d, P1. split; [done|]. split; [done|]. apply next_of_link.
    rewrite (Hl' 0%nat P1 d S).
    + f_equal. destruct S as [|x S]; [done|]. apply above_cons_hit.
      assert (x ∈ L) as Hx by (rewrite EL; set_solver). apply Hh in Hx. lia.
    + rewrite app_comm_cons, EP, <- app_assoc. done.
    + assert (d ∈ root_cell (max_height L) :: P) as [->|Hd]%elem_of_cons by (rewrite EP; set_solver).
      * simpl. destruct L as [|x L]; [done|]. pose proof (max_height_bound (x :: L) x ltac:(set_solver)).
        pose proof (Hh x ltac:(set_solver)). lia.
      * assert (d ∈ L) as HdL by (rewrite EL; set_solver). apply Hh in HdL. lia.
Qed.

(** ** Queries *)

Lemma chain_nil_levels h fresh L :
  chain_ok h fresh L -> (max_height L =? 0)%nat = bool_decide (L = []).
Proof.
  intros [_ _ Hh _ _ _]. destruct L as [|x L]; [done|].
  rewrite bool_decide_false by done. apply Nat.eqb_neq.
  pose proof (max_height_bound (x :: L) x ltac:(set_solver)). pose proof (Hh x ltac:(set_solver)). lia.
Qed.

Lemma sorted_app_lt (P S : list cell) p q :
  StronglySorted Z.lt (c_score <$> (P ++ S)) -> p ∈ P -> q ∈ S -> c_score p < c_score q.
Proof.
  induction P as [|c P IH]; intros Hs Hp Hq; [set_solver|].
  inversion Hs as [|? ? Hs' Hall]; subst. apply elem_of_cons in Hp as [->|Hp]; [|by apply IH].
  rewrite Forall_fmap, Forall_forall in Hall. apply (Hall q). set_solver.
Qed.

Lemma sorted_head (x : cell) (S : list cell) q :
  StronglySorted Z.lt (c_score <$> (x :: S)) -> q ∈ x :: S -> c_score x <= c_score q.
Proof.
  intros Hs [->|Hq]%elem_of_cons; [lia|].
  pose proof (sorted_app_lt [x] S x q Hs ltac:(set_solver) Hq). lia.
Qed.

Lemma sorted_app_r (P S : list cell) :
  StronglySorted Z.lt (c_score <$> (P ++ S)) -> StronglySorted Z.lt (c_score <$> S).
Proof.
  induction P as [|c P IH]; [done|]. intros Hs. inversion Hs; subst. by apply IH.
Qed.

Lemma first_spec s L :
  chain_ok (r_heap s) (r_fresh s) L ->
  first s = Ret (match L with [] => (-1, false) | x :: _ => (c_score x, true) end).
Proof.
  intros Hok. pose proof (chain_nil_levels _ _ _ Hok) as Hn. pose proof Hok as [Hc Hl Hh Hs _ _].
  unfold first. rewrite (levels_of_root _ _ _ Hc). go_ret. rewrite Hn.
  destruct L as [|x L]; [done|]. rewrite bool_decide_false by done.
  pose proof (Hh x ltac:(set_solver)) as Hx.
  pose proof (Hl 0%nat [] (root_cell (max_height (x :: L))) (x :: L) eq_refl) as Hlk.
  pose proof (max_height_bound (x :: L) x ltac:(set_solver)).
  specialize (Hlk ltac:(simpl; lia)). apply next_of_link in Hlk.
  change root_ptr with (c_ptr (root_cell (max_height (x :: L)))). rewrite Hlk. go_ret.
  rewrite above_cons_hit by lia. rewrite score_of_cell by (apply (cells_in _ _ Hc); set_solver). done.
Qed.

Lemma last_spec s L :
  chain_ok (r_heap s) (r_fresh s) L ->
  last s = Ret (match list.last L with None => (-1, false) | Some x => (c_score x, true) end).
Proof.
  intros Hok. pose proof Hok as [Hc Hl Hh Hs _ _]. unfold last.
  rewrite (levels_of_root _ _ _ Hc). go_ret.
  destruct (decide (L = [])) as [->|Hne]; [done|].
  destruct (walk_spec s L (fun _ => true) L [] Hok) as (d & P1 & E & EP & _);
    [by rewrite app_nil_r|done|set_solver|done|].
  rewrite E. go_ret. destruct P1 as [|r P1]; simplify_eq/=.
  rewrite last_snoc. assert (c_ptr d <> root_ptr) as Hd.
  { pose proof (cells_nodup _ _ Hc) as Hnd. simpl in Hnd. inversion Hnd as [|? ? Hni _]; subst.
    intros E'. apply Hni. rewrite <- E'. apply list_elem_of_fmap_2. set_solver. }
  rewrite (proj2 (Nat.eqb_neq _ _)) by done.
  rewrite score_of_cell by (apply (cells_in _ _ Hc); set_solver). done.
Qed.

Lemma Ceiling_spec (s : SkiplistHashRing) (M : gmap Z (list string)) (t : Z) :
  ring_rep s M -> exists r, Ceiling s t = Ret r /\ ceiling_of M t r.
Proof.
  intros (L & Hok & ->). pose proof Hok as [Hc Hl Hh Hs _ _]. unfold Ceiling, ceiling.
  rewrite (levels_of_root _ _ _ Hc). go_ret. rewrite (chain_nil_levels _ _ _ Hok).
  destruct (decide (L = [])) as [->|Hne].
  { rewrite bool_decide_true by done. go_ret. rewrite (first_spec _ _ Hok). exists (-1).
    split; [done|]. right. right. done. }
  rewrite bool_decide_false by done.
  destruct (split_at L t Hs) as (P & S & EL & HP & HS & Ht).
  destruct (walk_spec s L (fun x => x <? t) P S Hok EL) as (d & P1 & E & EP & En); [..|done|].
  { intros d Hd. by apply Z.ltb_lt, HP. }
  { intros d Hd. by apply Z.ltb_ge, HS. }
  rewrite E. go_ret. rewrite En. go_ret. destruct S as [|x S]; cbn [head fmap option_fmap option_map].
  - go_ret. rewrite (first_spec _ _ Hok). rewrite app_nil_r in EL. destruct L as [|x L]; [done|].
    exists (c_score x). split; [done|]. right. left. setoid_rewrite entries_key; [|done..].
    split; [intros k (c & Hc' & <-); apply HP; set_solver|]. split; [exists x; set_solver|].
    intros k (c & Hc' & <-). by apply (sorted_head x L).
  - rewrite score_of_cell by (apply (cells_in _ _ Hc); set_solver). go_ret.
    exists (c_score x). split; [done|]. left. setoid_rewrite entries_key; [|done..].
    split; [exists x; set_solver|]. split; [apply HS; set_solver|].
    intros k (c & Hc' & <-) Hk. subst L. apply elem_of_app in Hc' as [Hc'|Hc']; [apply HP in Hc'; lia|].
    apply (sorted_head x S); [|done]. by apply (sorted_app_r P).
Qed.

Lemma ptr_not_root h fresh L d : chain_ok h fresh L -> d ∈ L -> c_ptr d <> root_ptr.
Proof.
  intros [Hc _ _ _ _ _] Hd E. pose proof (cells_nodup _ _ Hc) as Hnd. simpl in Hnd.
  inversion Hnd as [|? ? Hni _]; subst. apply Hni. rewrite <- E. by apply list_elem_of_fmap_2.
Qed.

Lemma sorted_last (P : list cell) x q :
  StronglySorted Z.lt (c_score <$> (P ++ [x])) -> q ∈ P ++ [x] -> c_score q <= c_score x.
Proof.
  intros Hs [Hq|Hq]%elem_of_app; [|assert (q = x) as -> by set_solver; lia].
  pose proof (sorted_app_lt P [x] q x Hs Hq ltac:(set_solver)). lia.
Qed.

Lemma head_score_dec (S : list cell) t :
  {exists x, head S = Some x /\ c_score x = t} + {~ exists x, head S = Some x /\ c_score x = t}.
Proof.
  destruct S as [|x S]; [right; naive_solver|].
  destruct (decide (c_score x = t)); [left; by exists x|right; naive_solver].
Qed.

Lemma Floor_spec (s : SkiplistHashRing) (M : gmap Z (list string)) (t : Z) :
  ring_rep s M -> exists r, Floor s t = Ret r /\ floor_of M t r.
Proof.
  intros (L & Hok & ->). pose proof Hok as [Hc Hl Hh Hs _ _]. unfold Floor, floor.
  rewrite (levels_of_root _ _ _ Hc). go_ret. rewrite (chain_nil_levels _ _ _ Hok).
  destruct (decide (L = [])) as [->|Hne].
  { rewrite bool_decide_true by done. go_ret. rewrite (last_spec _ _ Hok). exists (-1).
    split; [done|]. right. right. done. }
  rewrite bool_decide_false by done.
  destruct (split_at L t Hs) as (P & S & EL & HP & HS & Ht).
  destruct (walk_spec s L (fun x => x <? t) P S Hok EL) as (d & P1 & E & EP & En); [..|done|].
  { intros d Hd. by apply Z.ltb_lt, HP. }
  { intros d Hd. by apply Z.ltb_ge, HS. }
  rewrite E. go_ret. rewrite En. go_ret.
  assert (match head S with
          | None => Ret false
          | Some x => Ret (c_score x =? t)
          end = (match c_ptr <$> head S with
                 | None => Ret false
                 | Some p => psc ← score_of (r_heap s) p; Ret (psc =? t)
                 end)) as <-.
  { destruct S as [|x S]; [done|]. simpl.
    rewrite score_of_cell by (apply (cells_in _ _ Hc); set_solver). done. }
  destruct (head_score_dec S t) as [(x & Ex & Hx)|Hno].
  { rewrite Ex, Hx, Z.eqb_refl. go_ret. exists t. split; [done|]. left.
    setoid_rewrite entries_key; [|done..]. split; [|split; [lia|auto]].
    exists x. split; [|done]. destruct S; simplify_eq/=. set_solver. }
  assert (match head S with None => Ret false | Some x => Ret (c_score x =? t) end = Ret false) as ->.
  { destruct S as [|x S]; [done|]. simpl. rewrite (proj2 (Z.eqb_neq _ _)); [done|].
    intros Ex. apply Hno. by exists x. }
  go_ret. assert (forall q, q ∈ S -> t < c_score q) as HS'.
  { intros q Hq. destruct S as [|x S]; [set_solver|]. apply elem_of_cons in Hq as [->|Hq]; [|by apply Ht].
    pose proof (HS x ltac:(set_solver)). assert (c_score x <> t) by naive_solver. lia. }
  destruct P1 as [|r P1]; simplify_eq/=.
  - go_ret. rewrite (last_spec _ _ Hok). destruct (list.last S) as [x|] eqn:Ex.
    2: { apply last_None in Ex. naive_solver. }
    apply last_Some in Ex as [S' ->]. exists (c_score x). split; [done|]. right. left.
    setoid_rewrite entries_key; [|done..].
    split; [intros k (c & Hc' & <-); by apply HS'|]. split; [exists x; set_solver|].
    intros k (c & Hc' & <-). by apply (sorted_last S' x).
  - rewrite (proj2 (Nat.eqb_neq _ _)) by (apply (ptr_not_root _ _ _ _ Hok); set_solver).
    rewrite score_of_cell by (apply (cells_in _ _ Hc); set_solver). go_ret.
    exists (c_score d). split; [done|]. left. setoid_rewrite entries_key; [|done..].
    split; [exists d; set_solver|]. split; [pose proof (HP d ltac:(set_solver)); lia|].
    intros k (c & [Hc'|Hc']%elem_of_app & <-) Hk; [|apply HS' in Hc'; lia].
    apply (sorted_last P1 d); [|done]. clear - Hs.
    induction (P1 ++ [d]) as [|y l IH]; [constructor|]. simpl in Hs.
    inversion Hs as [|? ? Hs' Hall]; subst. simpl. constructor; [by apply IH|].
    rewrite fmap_app in Hall. by apply Forall_app in Hall as [? _].
Qed.

(** The cell with a score, if the map has it. *)
Lemma get_lookup s L sc :
  chain_ok (r_heap s) (r_fresh s) L ->
  (get s sc = Ret None /\ (list_to_map (entries L) : gmap Z (list string)) !! sc = None /\
     exists P S, L = P ++ S /\ (forall d, d ∈ P -> c_score d < sc) /\ (forall d, d ∈ S -> sc < c_score d)) \/
  (exists P x S, L = P ++ x :: S /\ c_score x = sc /\ get s sc = Ret (Some (c_ptr x)) /\
     (list_to_map (entries L) : gmap Z (list string)) !! sc = Some (c_ids x) /\
     (forall d, d ∈ P -> c_score d < sc) /\ (forall d, d ∈ S -> sc < c_score d)).
Proof.
  intros Hok. pose proof (chain_sorted _ _ _ Hok) as Hs.
  destruct (get_spec s L sc Hok) as (P & S & EL & HP & HS & Ht & E).
  destruct (head_score_dec S sc) as [(x & Ex & Hx)|Hno].
  - right. destruct S as [|y S]; simplify_eq/=. exists P, x, S. split; [done|]. split; [done|].
    rewrite E, Z.eqb_refl. split; [done|]. split; [|done].
    apply (entries_lookup _ _ _ Hs). exists x. set_solver.
  - left. assert (forall d, d ∈ S -> sc < c_score d) as HS'.
    { intros q Hq. destruct S as [|x S]; [set_solver|]. apply elem_of_cons in Hq as [->|Hq]; [|by apply Ht].
      pose proof (HS x ltac:(set_solver)). assert (c_score x <> sc) by naive_solver. lia. }
    split; [|split; [|by exists P, S]].
    + rewrite E. destruct S as [|x S]; [done|]. simpl. rewrite (proj2 (Z.eqb_neq _ _)); [done|].
      pose proof (HS' x ltac:(set_solver)). lia.
    + destruct (_ !! sc) eqn:El; [|done]. apply (entries_lookup _ _ _ Hs) in El as (c & Hc & Esc & _).
      subst L. apply elem_of_app in Hc as [Hc|Hc]; [apply HP in Hc|apply HS' in Hc]; lia.
Qed.

Lemma Node_spec s M sc :
  ring_rep s M ->
  Node s sc = Ret (match M !! sc with Some ids => Ok ids | None => Err "score not exist" end).
Proof.
  intros (L & Hok & ->). unfold Node.
  destruct (get_lookup s L sc Hok) as [(-> & -> & _)|(P & x & S & EL & Hx & -> & -> & _)]; [done|].
  go_ret. destruct (cells_in _ _ (chain_cells _ _ _ Hok) x) as (nx & -> & _); [set_solver|done].
Qed.

(** ** Relinking *)

Lemma level_ok_suffix h A B l : level_ok h (A ++ B) l -> level_ok h B l.
Proof. intros Hl C1 c C2 -> Hc. apply (Hl (A ++ C1)); [by rewrite <- app_assoc|done]. Qed.

Lemma level_ok_cons h c C l :
  level_ok h (c :: C) l <-> ((l < c_height c)%nat -> link h l c = Some (above l C)) /\ level_ok h C l.
Proof.
  split.
  - intros Hl. split; [intros; by apply (Hl [])|by apply (level_ok_suffix h [c])].
  - intros [Hc Hl] [|d C1] c' C2 E Hlt; simplify_eq/=; [by apply Hc|by apply (Hl C1)].
Qed.

Lemma level_ok_low h A B l :
  Forall (fun c => (c_height c <= l)%nat) A -> level_ok h (A ++ B) l <-> level_ok h B l.
Proof.
  induction 1 as [|c A Hc HA IH]; [done|]. simpl. rewrite level_ok_cons, IH.
  split; [naive_solver|]. intros. split; [lia|done].
Qed.

(** A cell that does not reach the level is invisible there. *)
Lemma level_ok_skip h A x B l :
  (c_height x <= l)%nat -> level_ok h (A ++ x :: B) l <-> level_ok h (A ++ B) l.
Proof.
  intros Hx. induction A as [|c A IH]; simpl.
  - rewrite level_ok_cons. split; [naive_solver|]. intros. split; [lia|done].
  - rewrite !level_ok_cons, IH. assert (above l (A ++ x :: B) = above l (A ++ B)) as ->; [|done].
    unfold above. rewrite !list.filter_app, filter_cons, decide_False by lia. done.
Qed.

Lemma level_ok_ext h h' C l :
  (forall c, c ∈ C -> link h' l c = link h l c) -> level_ok h C l -> level_ok h' C l.
Proof.
  intros He Hl C1 c C2 -> Hc. rewrite He by set_solver. by apply Hl with C1.
Qed.

Lemma above_hit_indep l A d X Y : (l < c_height d)%nat -> above l (A ++ d :: X) = above l (A ++ d :: Y).
Proof.
  intros Hd. unfold above. rewrite !list.filter_app, !filter_cons, !decide_True by done.
  by destruct (filter _ A).
Qed.

(** Replacing what follows a cell that reaches the level. *)
Lemma level_ok_change h h' A d X Y l :
  (l < c_height d)%nat -> level_ok h (A ++ d :: X) l ->
  (forall c, c ∈ A -> link h' l c = link h l c) ->
  link h' l d = Some (above l Y) -> level_ok h' Y l -> level_ok h' (A ++ d :: Y) l.
Proof.
  intros Hd. induction A as [|c A IH]; simpl; intros Hl He Hld HY.
  - rewrite level_ok_cons. done.
  - rewrite level_ok_cons in Hl |- *. destruct Hl as [Hc Hl]. split.
    + intros Hlt. rewrite He by set_solver. rewrite (above_hit_indep l A d Y X) by done. auto.
    + apply IH; [done| |done..]. intros. apply He. set_solver.
Qed.

(** Writing one pointer. *)
Lemma set_next_spec h c l v :
  cell_in h c -> (l < c_height c)%nat ->
  exists h', set_next h (c_ptr c) l v = Ret h' /\ link h' l c = Some v /\
    (forall l' d, l' <> l \/ c_ptr d <> c_ptr c -> link h' l' d = link h l' d) /\
    (forall d, cell_in h d -> cell_in h' d) /\ (forall p, h' !! p = None <-> h !! p = None).
Proof.
  intros (nx & E & Hlen) Hl. unfold set_next. rewrite E. cbn [of_option]. go_ret. cbn [nexts score nodeIDs].
  rewrite (proj2 (Nat.ltb_lt _ _)) by lia. exists (<[c_ptr c := mkVN (c_score c) (c_ids c) (<[l := v]> nx)]> h). split; [done|].
  split; [|split; [|split]].
  - unfold link. rewrite lookup_insert_eq. simpl. rewrite list_lookup_insert_eq by lia. done.
  - intros l' d Hd. unfold link. destruct (decide (c_ptr d = c_ptr c)) as [Ep|Ep].
    + rewrite Ep, lookup_insert_eq, E. simpl. rewrite list_lookup_insert_ne by naive_solver. done.
    + by rewrite lookup_insert_ne.
  - intros d (nx' & E' & Hlen'). destruct (decide (c_ptr d = c_ptr c)) as [Ep|Ep].
    + rewrite Ep in E'. rewrite E in E'. simplify_eq. exists (<[l:=v]> nx').
      rewrite Ep, lookup_insert_eq, length_insert. split; [|done]. congruence.
    + exists nx'. rewrite lookup_insert_ne by done. done.
  - intros p. destruct (decide (p = c_ptr c)) as [->|Hp].
    + rewrite lookup_insert_eq, E. done.
    + by rewrite lookup_insert_ne.
Qed.

Lemma nodup_ptr_ne c C q : NoDup (c_ptr <$> (c :: C)) -> q ∈ C -> c_ptr q <> c_ptr c.
Proof.
  rewrite fmap_cons. intros Hnd Hq E. inversion Hnd as [|? ? Hni _]; subst.
  apply Hni. rewrite <- E. by apply list_elem_of_fmap_2.
Qed.

(** *** Linking a new node *)

Section add.
Context (H : nat) (P S : list cell) (x : cell).
Context (HP : forall d, d ∈ P -> c_score d < c_score x).
Context (HS : forall d, d ∈ S -> c_score x <= c_score d).
Context (Hnd : NoDup (c_ptr <$> (x :: root_cell H :: P ++ S))).

Lemma add_loop_spec n : forall h c,
  (n <= c_height x)%nat -> standing H P n c ->
  cells_ok h (x :: root_cell H :: P ++ S) ->
  (forall l, (l < n)%nat -> level_ok h (root_cell H :: P ++ S) l) ->
  (forall l, (n <= l)%nat -> level_ok h (root_cell H :: P ++ x :: S) l) ->
  exists h', add_loop n h (c_score x) (c_ptr x) (c_ptr c) = Ret h' /\
    cells_ok h' (x :: root_cell H :: P ++ S) /\
    (forall l, level_ok h' (root_cell H :: P ++ x :: S) l) /\
    (forall p, h' !! p = None <-> h !! p = None).
Proof.
  induction n as [|n IH]; intros h c Hx Hc Hok Hlo Hhi.
  - exists h. split; [done|]. split; [done|]. split; [|done]. intros l. apply Hhi. lia.
  - assert (cells_ok h (root_cell H :: P ++ S)) as Hok'.
    { destruct Hok as [Hin _]. split; [intros d Hd; apply Hin; set_solver|].
      by inversion Hnd. }
    destruct (cursor_step h (fun y => y <? c_score x) H P S Hok') with (n := n) (c := c)
      as (d & E & (Q1 & Q2 & EQ & Hdn & HQ2) & Hdh & Hlk); try done.
    { intros d Hd. by apply Z.ltb_ge, HS. }
    { intros d Hd. by apply Z.ltb_lt, HP. }
    { apply Hlo. lia. }
    assert (d ∈ root_cell H :: P) as HdP by (rewrite EQ; set_solver).
    assert (forall q, q ∈ root_cell H :: P ++ S -> c_ptr q <> c_ptr x) as Hnx.
    { intros q Hq. by apply (nodup_ptr_ne _ _ _ Hnd). }
    destruct (set_next_spec h x n (above n S)) as (h1 & E1 & L1 & F1 & C1 & N1);
      [apply (cells_in _ _ Hok); set_solver|lia|].
    destruct (set_next_spec h1 d n (Some (c_ptr x))) as (h2 & E2 & L2 & F2 & C2 & N2);
      [apply C1, (cells_in _ _ Hok); set_solver|done|].
    assert (forall l q, q ∈ x :: root_cell H :: P ++ S -> l <> n -> link h2 l q = link h l q) as Fl.
    { intros l q Hq Hln. rewrite F2, F1 by auto. done. }
    assert (forall q, q ∈ root_cell H :: P ++ S -> c_ptr q <> c_ptr d -> link h2 n q = link h n q) as Fn.
    { intros q Hq Hqd. rewrite F2, F1 by (by auto). done. }
    assert (forall q, q ∈ Q1 ++ Q2 ++ S -> c_ptr q <> c_ptr d) as Hnd'.
    { assert (NoDup (c_ptr <$> (Q1 ++ d :: Q2 ++ S))) as Hndq.
      { replace (Q1 ++ d :: Q2 ++ S) with ((Q1 ++ d :: Q2) ++ S) by by rewrite <- app_assoc.
        rewrite <- EQ. by inversion Hnd. }
      rewrite fmap_app, fmap_cons in Hndq. apply NoDup_app in Hndq as (_ & Hd1 & Hd2).
      inversion Hd2 as [|? ? Hd3 _]; subst. intros q [Hq|Hq]%elem_of_app Eq.
      - apply (Hd1 (c_ptr q)); [by apply list_elem_of_fmap_2|rewrite Eq; set_solver].
      - apply Hd3. rewrite <- Eq. by apply list_elem_of_fmap_2. }
    cbn [add_loop]. rewrite E. go_ret. rewrite (next_of_link _ _ _ _ Hlk). go_ret.
    rewrite E1. go_ret. rewrite E2. go_ret.
    destruct (IH h2 d) as (h' & E' & Hok2 & Hl2 & N'); try done.
    + lia.
    + by exists Q1, Q2.
    + split; [|done]. intros q Hq. apply C2, C1, (cells_in _ _ Hok), Hq.
    + intros l Hl. apply (level_ok_ext h); [|apply Hlo; lia]. intros q Hq. apply Fl; [set_solver|lia].
    + intros l Hl. destruct (decide (l = n)) as [->|Hln].
      * rewrite app_comm_cons, EQ, <- app_assoc. simpl.
        apply (level_ok_change h h2 Q1 d (Q2 ++ S)); [done|..].
        -- pose proof (Hlo n ltac:(lia)) as Hn. rewrite app_comm_cons, EQ, <- app_assoc in Hn. done.
        -- intros q Hq. apply Fn; [|apply Hnd'; set_solver].
           rewrite app_comm_cons, EQ. set_solver.
        -- rewrite L2. rewrite above_app_low, above_cons_hit by (done || lia). done.
        -- apply level_ok_low; [done|]. apply level_ok_cons. split.
           ++ intros _. rewrite F2 by (right; apply not_eq_sym, Hnx; set_solver). done.
           ++ apply (level_ok_ext h).
              ** intros q Hq. apply Fn; [set_solver|apply Hnd'; set_solver].
              ** pose proof (Hlo n ltac:(lia)) as Hn. rewrite app_comm_cons in Hn.
                 by apply level_ok_suffix in Hn.
      * apply (level_ok_ext h); [|apply Hhi; lia]. intros q Hq. apply Fl; [set_solver|done].
    + exists h'. split; [done|]. split; [done|]. split; [done|]. intros p. by rewrite N', N2, N1.
Qed.
End add.

(** ** Changing the map *)

Lemma entries_mid P x S :
  StronglySorted Z.lt (c_score <$> (P ++ x :: S)) ->
  (list_to_map (entries (P ++ x :: S)) : gmap Z (list string)) =
    <[c_score x := c_ids x]> (list_to_map (entries (P ++ S))) /\
  (list_to_map (entries (P ++ S)) : gmap Z (list string)) !! c_score x = None.
Proof.
  intros Hs. pose proof (sorted_nodup _ Hs) as Hnd.
  assert (entries (P ++ x :: S) ≡ₚ (c_score x, c_ids x) :: entries (P ++ S)) as Hp.
  { unfold entries. rewrite !fmap_app, fmap_cons. by rewrite <- Permutation_middle. }
  rewrite (list_to_map_proper _ _ ltac:(rewrite entries_fst; done) Hp). split; [done|].
  apply not_elem_of_list_to_map_1. rewrite entries_fst.
  assert (NoDup (c_score <$> (x :: P ++ S))) as Hnd'.
  { rewrite fmap_cons, fmap_app. rewrite fmap_app, fmap_cons, <- Permutation_middle in Hnd. done. }
  rewrite fmap_cons in Hnd'. by inversion Hnd'.
Qed.

Lemma sorted_mid P x S :
  StronglySorted Z.lt (c_score <$> (P ++ S)) ->
  (forall d, d ∈ P -> c_score d < c_score x) -> (forall d, d ∈ S -> c_score x < c_score d) ->
  StronglySorted Z.lt (c_score <$> (P ++ x :: S)).
Proof.
  induction P as [|c P IH]; simpl; intros Hs HP HS.
  - constructor; [done|]. rewrite Forall_fmap, Forall_forall. intros d Hd. by apply HS.
  - inversion Hs as [|? ? Hs' Hall]; subst. constructor; [apply IH; [done| |done]; set_solver|].
    rewrite Forall_fmap, Forall_forall in Hall |- *. intros d Hd. simpl.
    assert (d = x \/ d ∈ P ++ S) as [->|Hd'] by set_solver; [apply HP; set_solver|by apply Hall].
Qed.

Lemma sorted_remove P x S :
  StronglySorted Z.lt (c_score <$> (P ++ x :: S)) -> StronglySorted Z.lt (c_score <$> (P ++ S)).
Proof.
  induction P as [|c P IH]; simpl; intros Hs; inversion Hs as [|? ? Hs' Hall]; subst; [done|].
  constructor; [by apply IH|]. rewrite Forall_fmap, Forall_forall in Hall |- *.
  intros d Hd. apply Hall. set_solver.
Qed.

Lemma nodup_ptr_mid (r : cell) P x S :
  NoDup (c_ptr <$> (r :: P ++ x :: S)) -> NoDup (c_ptr <$> (x :: r :: P ++ S)).
Proof.
  assert (r :: P ++ x :: S ≡ₚ x :: r :: P ++ S) as Hp.
  { by rewrite <- Permutation_middle, Permutation_swap. }
  by rewrite Hp.
Qed.

(** Replacing the identifiers of a cell. *)
Definition set_ids (x : cell) (ids : list string) : cell := mkCell (c_ptr x) (c_score x) ids (c_height x).

Lemma above_set_ids l A x ids B : above l (A ++ set_ids x ids :: B) = above l (A ++ x :: B).
Proof.
  unfold above. rewrite !list.filter_app, !filter_cons. simpl.
  destruct (decide (l < c_height x)%nat); [|done]. by destruct (filter _ A).
Qed.

Lemma max_height_app A B : max_height (A ++ B) = Nat.max (max_height A) (max_height B).
Proof.
  unfold max_height. rewrite fmap_app. induction A as [|c A IH]; [done|].
  rewrite fmap_cons. cbn [app max_list_with]. rewrite IH. lia.
Qed.

Lemma max_height_cons c A : max_height (c :: A) = Nat.max (c_height c) (max_height A).
Proof. done. Qed.

Lemma set_ids_chain h fresh P x S ids n :
  chain_ok h fresh (P ++ x :: S) -> ids <> [] -> h !! c_ptr x = Some n ->
  chain_ok (<[c_ptr x := mkVN (score n) ids (nexts n)]> h) fresh (P ++ set_ids x ids :: S).
Proof.
  intros [Hc Hl Hh Hs Hi Hf] Hne En.
  assert (max_height (P ++ set_ids x ids :: S) = max_height (P ++ x :: S)) as Em
    by by rewrite !max_height_app, !max_height_cons.
  assert (forall l c, link (<[c_ptr x := mkVN (score n) ids (nexts n)]> h) l c = link h l c) as Hlk.
  { intros l c. unfold link. destruct (decide (c_ptr c = c_ptr x)) as [->|Hp].
    - by rewrite lookup_insert_eq, En.
    - by rewrite lookup_insert_ne. }
  assert (forall c, c ∈ root_cell (max_height (P ++ x :: S)) :: P ++ S -> c_ptr c <> c_ptr x) as Hpx.
  { intros c Hcin. pose proof (cells_nodup _ _ Hc) as Hnd%nodup_ptr_mid.
    by apply (nodup_ptr_ne _ _ _ Hnd). }
  split; [rewrite Em; split|..].
  - intros c Hcin. assert (c = set_ids x ids \/ c ∈ root_cell (max_height (P ++ x :: S)) :: P ++ S)
      as [->|Hcin'] by set_solver.
    + destruct (cells_in _ _ Hc x) as (nx & E & Hlen); [set_solver|]. rewrite E in En.
      simplify_eq/=. exists nx. simpl. by rewrite lookup_insert_eq.
    + destruct (cells_in _ _ Hc c) as (nx & E & Hlen); [set_solver|]. exists nx.
      rewrite lookup_insert_ne by (by apply not_eq_sym, Hpx). done.
  - pose proof (cells_nodup _ _ Hc) as Hnd. rewrite !fmap_cons, !fmap_app, !fmap_cons in *. done.
  - rewrite Em. intros l. specialize (Hl l). revert Hl. rewrite !app_comm_cons.
    generalize (root_cell (max_height (P ++ x :: S)) :: P) as A. intros A. induction A as [|c A IH]; simpl.
    + rewrite !level_ok_cons, Hlk. intros [H1 H2]. split; [exact H1|].
      apply (level_ok_ext h); [done|exact H2].
    + rewrite !level_ok_cons, Hlk, above_set_ids. intros [H1 H2]. auto.
  - intros c Hcin. assert (c = set_ids x ids \/ c ∈ P ++ x :: S) as [->|Hcin'] by set_solver;
      [apply (Hh x); set_solver|by apply Hh].
  - rewrite fmap_app, fmap_cons in *. done.
  - intros c Hcin. assert (c = set_ids x ids \/ c ∈ P ++ x :: S) as [->|Hcin'] by set_solver;
      [done|by apply Hi].
  - intros p Hp. rewrite lookup_insert_ne; [by apply Hf|]. intros <-. rewrite Hf in En; done.
Qed.

(** Changing the number of levels of the root. *)
Lemma root_resize h H H' L nx :
  cells_ok h (root_cell H :: L) -> (forall l, level_ok h (root_cell H :: L) l) ->
  length nx = H' -> (forall l, (l < H')%nat -> nx !! l = Some (above l L)) ->
  cells_ok (<[root_ptr := mkVN 0 [] nx]> h) (root_cell H' :: L) /\
  (forall l, level_ok (<[root_ptr := mkVN 0 [] nx]> h) (root_cell H' :: L) l).
Proof.
  intros [Hin Hnd] Hl Hlen Hnx.
  assert (forall c, c ∈ L -> c_ptr c <> root_ptr) as Hne by (intros c; by apply (nodup_ptr_ne _ _ _ Hnd)).
  split; [split; [|done]|].
  - intros c [->|Hc]%elem_of_cons.
    + exists nx. simpl. by rewrite lookup_insert_eq.
    + destruct (Hin c) as (nx' & E & Hn); [set_solver|]. exists nx'.
      rewrite lookup_insert_ne by (by apply not_eq_sym, Hne). done.
  - intros l. apply level_ok_cons. split.
    + simpl. intros Hlt. unfold link. simpl. rewrite lookup_insert_eq. simpl. by apply Hnx.
    + apply (level_ok_ext h); [|by apply (level_ok_suffix h [root_cell H])].
      intros c Hc. unfold link. rewrite lookup_insert_ne by (by apply not_eq_sym, Hne). done.
Qed.

Definition add_map (M : gmap Z (list string)) (sc : Z) (id : string) : gmap Z (list string) :=
  match M !! sc with
  | None => <[sc := [id]]> M
  | Some ids => if bool_decide (id ∈ ids) then M else <[sc := ids ++ [id]]> M
  end.

(** The heap of [Add] before the linking loop. *)
Lemma grow_spec h fresh P S x :
  chain_ok h fresh (P ++ S) -> c_ptr x = fresh -> (1 <= c_height x)%nat ->
  let H := max_height (P ++ x :: S) in
  exists h0, grow_root h (c_height x) = Ret h0 /\
    let h1 := <[fresh := mkVN (c_score x) (c_ids x) (replicate (c_height x) None)]> h0 in
    cells_ok h1 (x :: root_cell H :: P ++ S) /\
    (forall l, level_ok h1 (root_cell H :: P ++ S) l) /\
    (forall p, (Datatypes.S fresh <= p)%nat -> h1 !! p = None).
Proof.
  intros [Hc Hl Hh Hs Hi Hf] Hx Hx1 H.
  assert (H = Nat.max (max_height (P ++ S)) (c_height x)) as EH.
  { unfold H. rewrite !max_height_app, max_height_cons. lia. }
  destruct (cells_in _ _ Hc (root_cell (max_height (P ++ S)))) as (nx & E & Hlen); [set_solver|].
  simpl in E, Hlen. unfold grow_root. rewrite E. cbn [of_option]. go_ret. cbn [nexts score nodeIDs].
  eexists. split; [done|]. cbv zeta.
  set (h0 := if (length nx <? c_height x)%nat then _ else _).
  assert (cells_ok h0 (root_cell H :: P ++ S) /\ (forall l, level_ok h0 (root_cell H :: P ++ S) l) /\
          (forall p, (fresh <= p)%nat -> h0 !! p = None)) as (Hc0 & Hl0 & Hf0).
  { unfold h0. destruct (Nat.ltb_spec (length nx) (c_height x)) as [Hlt|Hge].
    - destruct (root_resize h (max_height (P ++ S)) H (P ++ S)
                  (nx ++ replicate (c_height x - length nx) None)) as [Hc0 Hl0]; try done.
      + rewrite length_app, length_replicate. lia.
      + intros l Hlt'. destruct (decide (l < length nx)%nat) as [Hln|Hln].
        * rewrite lookup_app_l by done.
          pose proof (Hl l [] (root_cell (max_height (P ++ S))) (P ++ S) eq_refl) as Hr.
          unfold link in Hr. simpl in Hr. rewrite E in Hr. apply Hr. lia.
        * rewrite lookup_app_r, lookup_replicate_2 by lia. f_equal. symmetry. apply above_max. lia.
      + split; [done|]. split; [done|]. intros p Hp. rewrite lookup_insert_ne; [by apply Hf|].
        intros <-. rewrite Hf in E; done.
    - assert (H = max_height (P ++ S)) as -> by lia. done. }
  assert (forall q, q ∈ root_cell H :: P ++ S -> c_ptr q <> fresh) as Hne.
  { intros q Hq Eq. destruct (cells_in _ _ Hc0 q Hq) as (nx' & E' & _). rewrite Eq, Hf0 in E'; done. }
  split; [split|split].
  - intros c [->|Hcin]%elem_of_cons.
    + eexists. rewrite Hx, lookup_insert_eq. split; [done|]. by rewrite length_replicate.
    + destruct (cells_in _ _ Hc0 c Hcin) as (nx' & E' & Hn'). exists nx'.
      rewrite lookup_insert_ne by (by apply not_eq_sym, Hne). done.
  - rewrite fmap_cons. constructor; [|apply Hc0]. intros (q & Eq & Hq)%list_elem_of_fmap.
    apply (Hne q Hq). congruence.
  - intros l. apply (level_ok_ext h0); [|done]. intros c Hcin. unfold link.
    rewrite lookup_insert_ne by (by apply not_eq_sym, Hne). done.
  - intros p Hp. rewrite lookup_insert_ne by lia. apply Hf0. lia.
Qed.

Lemma Add_new s P S sc id :
  chain_ok (r_heap s) (r_fresh s) (P ++ S) -> get s sc = Ret None ->
  (forall d, d ∈ P -> c_score d < sc) -> (forall d, d ∈ S -> sc < c_score d) ->
  exists s', Add s sc id = Ret s' /\
    chain_ok (r_heap s') (r_fresh s') (P ++ mkCell (r_fresh s) sc [id] (r_rolls s 0 + 1) :: S) /\
    nodeToReplicas s' = nodeToReplicas s /\ nodeToDataKey s' = nodeToDataKey s.
Proof.
  intros Hok Eg HP HS. set (x := mkCell (r_fresh s) sc [id] (r_rolls s 0 + 1)).
  assert (1 <= c_height x)%nat as Hx1 by (simpl; lia).
  destruct (grow_spec (r_heap s) (r_fresh s) P S x Hok eq_refl Hx1) as (h0 & Eh & Hc1 & Hl1 & Hf1).
  pose proof (cells_nodup _ _ Hc1) as Hnd. set (H := max_height (P ++ x :: S)) in *.
  assert (forall d, d ∈ P ++ x :: S -> (c_height d <= H)%nat) as HH by apply max_height_bound.
  set (h1 := <[r_fresh s := mkVN (c_score x) (c_ids x) (replicate (c_height x) None)]> h0) in *.
  destruct (add_loop_spec H P S x) with (n := c_height x) (h := h1) (c := root_cell H)
    as (h2 & E2 & Hc2 & Hl2 & N2); try done.
  - intros d Hd. apply HS in Hd. simpl. lia.
  - exists [], P. split; [done|]. apply (HH x). set_solver.
  - intros l Hl. rewrite app_comm_cons. apply level_ok_skip; [done|apply Hl1].
  - unfold Add. rewrite Eg. go_ret. change (r_rolls s 0 + 1)%nat with (c_height x). rewrite Eh. go_ret.
    assert (add_loop (c_height x) (<[r_fresh s := mkVN sc [id] (replicate (c_height x) None)]> h0)
              sc (r_fresh s) root_ptr = Ret h2) as -> by exact E2.
    go_ret. eexists. split; [done|]. split; [|done]. cbn [r_heap r_fresh].
    destruct Hok as [_ _ Hh Hs Hi _]. split; fold H.
    + split.
      * intros c Hcin. apply (cells_in _ _ Hc2). set_solver.
      * rewrite app_comm_cons. pose proof (cells_nodup _ _ Hc2) as Hnd2.
        assert (x :: root_cell H :: P ++ S ≡ₚ (root_cell H :: P) ++ x :: S) as <-; [|done].
        by rewrite <- Permutation_middle.
    + exact Hl2.
    + intros c Hcin. assert (c = x \/ c ∈ P ++ S) as [->|Hc'] by set_solver; [done|by apply Hh].
    + by apply sorted_mid.
    + intros c Hcin. assert (c = x \/ c ∈ P ++ S) as [->|Hc'] by set_solver; [done|by apply Hi].
    + intros p Hp. apply N2. by apply Hf1.
Qed.

Lemma Add_spec s M sc id :
  ring_rep s M ->
  exists s', Add s sc id = Ret s' /\ ring_rep s' (add_map M sc id) /\
    nodeToReplicas s' = nodeToReplicas s /\ nodeToDataKey s' = nodeToDataKey s.
Proof.
  intros (L & Hok & ->). pose proof (chain_sorted _ _ _ Hok) as Hs. unfold add_map.
  destruct (get_lookup s L sc Hok)
    as [(Eg & -> & P & S & -> & HP & HS)|(P & x & S & -> & Hx & Eg & -> & HP & HS)].
  - destruct (Add_new s P S sc id Hok Eg HP HS) as (s' & E & Hok' & Hr & Hd).
    exists s'. split; [done|]. split; [|done]. eexists. split; [done|].
    by destruct (entries_mid P (mkCell (r_fresh s) sc [id] (r_rolls s 0 + 1)) S (chain_sorted _ _ _ Hok'))
      as [-> _].
  - destruct (cells_in _ _ (chain_cells _ _ _ Hok) x) as (nx & En & _); [set_solver|].
    unfold Add. rewrite Eg. go_ret. cbv beta iota. rewrite En. cbn [of_option]. go_ret. cbn [nodeIDs score nexts].
    case_bool_decide as Hin; [exists s; split; [done|]; split; [by eexists|done]|].
    eexists. split; [done|]. split; [|done].
    assert (c_ids x ++ [id] <> []) as Hne by (by destruct (c_ids x)).
    pose proof (set_ids_chain _ _ P x S (c_ids x ++ [id]) _ Hok Hne En) as Hok'.
    eexists. split; [exact Hok'|].
    destruct (entries_mid P x S Hs) as [-> _].
    destruct (entries_mid P (set_ids x (c_ids x ++ [id])) S (chain_sorted _ _ _ Hok')) as [-> _].
    simpl. rewrite Hx. by rewrite insert_insert_eq.
Qed.

(** *** Unlinking a node *)

Section rem.
Context (H : nat) (P S : list cell) (x : cell).
Context (HP : forall d, d ∈ P -> c_score d < c_score x).
Context (HS : forall d, d ∈ S -> c_score x < c_score d).
Context (Hnd : NoDup (c_ptr <$> (root_cell H :: P ++ x :: S))).

Lemma ptr_ne_split Q1 d Q2 :
  root_cell H :: P = Q1 ++ d :: Q2 -> forall q, q ∈ Q1 ++ Q2 ++ x :: S -> c_ptr q <> c_ptr d.
Proof.
  intros EQ q Hq. assert (NoDup (c_ptr <$> (d :: Q1 ++ Q2 ++ x :: S))) as Hndq.
  { assert (d :: Q1 ++ Q2 ++ x :: S ≡ₚ root_cell H :: P ++ x :: S) as ->; [|done].
    rewrite (app_comm_cons P), EQ, <- app_assoc. simpl. apply Permutation_middle. }
  by apply (nodup_ptr_ne _ _ _ Hndq).
Qed.

Lemma rem_loop_spec n : forall h c,
  standing H P n c -> cells_ok h (root_cell H :: P ++ x :: S) ->
  (forall l, (l < n)%nat -> level_ok h (root_cell H :: P ++ x :: S) l) ->
  (forall l, (n <= l)%nat -> level_ok h (root_cell H :: P ++ S) l) ->
  exists h', rem_loop n h (c_score x) (c_ptr c) = Ret h' /\
    cells_ok h' (root_cell H :: P ++ x :: S) /\
    (forall l, level_ok h' (root_cell H :: P ++ S) l) /\
    (forall p, h' !! p = None <-> h !! p = None).
Proof.
  induction n as [|n IH]; intros h c Hc Hok Hlo Hhi.
  - exists h. split; [done|]. split; [done|]. split; [|done]. intros l. apply Hhi. lia.
  - destruct (cursor_step h (fun y => y <? c_score x) H P (x :: S) Hok) with (n := n) (c := c)
      as (d & E & (Q1 & Q2 & EQ & Hdn & HQ2) & Hdh & Hlk); try done.
    { intros d [->|Hd]%elem_of_cons; apply Z.ltb_ge; [lia|apply HS in Hd; lia]. }
    { intros d Hd. by apply Z.ltb_lt, HP. }
    { apply Hlo. lia. }
    pose proof (ptr_ne_split Q1 d Q2 EQ) as Hne.
    assert (standing H P n d) as Hst by (by exists Q1, Q2).
    cbn [rem_loop]. rewrite E. go_ret. rewrite (next_of_link _ _ _ _ Hlk). go_ret.
    pose proof (Hlo n ltac:(lia)) as Hn.
    destruct (decide (n < c_height x)%nat) as [Hx|Hx].
    + rewrite above_cons_hit by done. cbv beta iota.
      rewrite score_of_cell by (apply (cells_in _ _ Hok); set_solver). go_ret.
      rewrite Z.ltb_irrefl.
      assert (link h n x = Some (above n S)) as Hlx.
      { apply (Hn (root_cell H :: P) x S); done. }
      rewrite (next_of_link _ _ _ _ Hlx). go_ret.
      destruct (set_next_spec h d n (above n S)) as (h1 & E1 & L1 & F1 & C1 & N1);
        [apply (cells_in _ _ Hok); rewrite app_comm_cons, EQ; set_solver|done|].
      rewrite E1. go_ret. destruct (IH h1 d Hst) as (h' & E' & Hok' & Hl' & N').
      * split; [|done]. intros q Hq. apply C1, (cells_in _ _ Hok), Hq.
      * intros l Hl. apply (level_ok_ext h); [|apply Hlo; lia]. intros q Hq. apply F1. left. lia.
      * intros l Hl. destruct (decide (l = n)) as [->|Hln].
        -- rewrite app_comm_cons, EQ, <- app_assoc in Hn |- *. simpl in Hn |- *.
           apply (level_ok_change h h1 Q1 d (Q2 ++ x :: S)); [done|done|..].
           ++ intros q Hq. apply F1. right. apply Hne. set_solver.
           ++ rewrite L1. by rewrite above_app_low.
           ++ apply level_ok_low; [done|]. apply (level_ok_ext h).
              ** intros q Hq. apply F1. right. apply Hne. set_solver.
              ** apply (level_ok_suffix h (Q1 ++ d :: Q2 ++ [x])).
                 by rewrite <- app_assoc, <- app_comm_cons, <- app_assoc.
        -- apply (level_ok_ext h); [|apply Hhi; lia]. intros q Hq. apply F1. by left.
      * exists h'. split; [done|]. split; [done|]. split; [done|]. intros p. by rewrite N', N1.
    + assert (above n (x :: S) = above n S) as ->.
      { apply (above_app_low n [x] S). constructor; [lia|done]. }
      destruct (IH h d Hst Hok) as (h' & E' & Hrest).
      * intros l Hl. apply Hlo. lia.
      * intros l Hl. destruct (decide (l = n)) as [->|Hln]; [|apply Hhi; lia].
        rewrite app_comm_cons in Hn |- *. apply level_ok_skip in Hn; [done|lia].
      * exists h'. split; [|done].
        destruct (above n S) as [p|] eqn:Ea; [|done].
        destruct (above_Some_in _ _ _ Ea) as (y & -> & Hyin).
        rewrite score_of_cell by (apply (cells_in _ _ Hok); set_solver). go_ret.
        rewrite (proj2 (Z.ltb_lt _ _)) by (by apply HS). done.
Qed.
End rem.

Lemma cut_levels_spec nx m (f : nat -> option nat) :
  (forall l, (l < length nx)%nat -> nx !! l = Some (f l)) -> (forall l, f l = None <-> (m <= l)%nat) ->
  (m <= length nx)%nat -> cut_levels nx = take m nx.
Proof.
  revert m f. induction nx as [|v nx IH]; intros m f Hf Hm Hl; [by rewrite take_nil|].
  pose proof (Hf 0%nat ltac:(simpl; lia)) as H0. simpl in H0. injection H0 as ->.
  destruct m as [|m]; simpl.
  - by rewrite (proj2 (Hm 0%nat)).
  - destruct (f 0%nat) eqn:E0; [|by apply Hm in E0; lia]. f_equal.
    apply (IH m (fun l => f (S l))); [|intros l; rewrite Hm; lia|simpl in Hl; lia].
    intros l Hlt. apply (Hf (S l)). simpl. lia.
Qed.

Lemma Rem_unlink s P x S :
  chain_ok (r_heap s) (r_fresh s) (P ++ x :: S) ->
  (forall d, d ∈ P -> c_score d < c_score x) -> (forall d, d ∈ S -> c_score x < c_score d) ->
  exists h1 h2, rem_loop (max_height (P ++ x :: S)) (r_heap s) (c_score x) root_ptr = Ret h1 /\
    shrink_root h1 = Ret h2 /\ chain_ok h2 (r_fresh s) (P ++ S).
Proof.
  intros [Hc Hl Hh Hs Hi Hf] HP HS. set (H := max_height (P ++ x :: S)) in *.
  pose proof (cells_nodup _ _ Hc) as Hnd.
  destruct (rem_loop_spec H P S x HP HS Hnd H (r_heap s) (root_cell H))
    as (h1 & E1 & Hc1 & Hl1 & N1); try done.
  - by exists [], P.
  - intros l Hlh. specialize (Hl l). rewrite app_comm_cons in Hl |- *.
    apply level_ok_skip in Hl; [done|]. etrans; [apply (max_height_bound (P ++ x :: S)); set_solver|done].
  - change (c_ptr (root_cell H)) with root_ptr in E1. exists h1.
    destruct (cells_in _ _ Hc1 (root_cell H)) as (nx & E & Hlen); [set_solver|]. simpl in E, Hlen.
    assert (max_height (P ++ S) <= H)%nat as HmH.
    { unfold H. rewrite !max_height_app, max_height_cons. lia. }
    assert (forall l, (l < length nx)%nat -> nx !! l = Some (above l (P ++ S))) as Hnx.
    { intros l Hlt. pose proof (Hl1 l [] (root_cell H) (P ++ S) eq_refl) as Hr.
      unfold link in Hr. simpl in Hr. rewrite E in Hr. apply Hr. lia. }
    assert (cells_ok h1 (root_cell H :: P ++ S)) as Hc1'.
    { split; [intros q Hq; apply (cells_in _ _ Hc1); set_solver|].
      apply nodup_ptr_mid in Hnd. rewrite fmap_cons in Hnd. by inversion Hnd. }
    unfold shrink_root. rewrite E. cbn [of_option]. go_ret. cbn [score nodeIDs nexts].
    rewrite (cut_levels_spec nx (max_height (P ++ S)) (fun l => above l (P ++ S)));
      [|done|intros l; apply above_max|lia].
    destruct (root_resize h1 H (max_height (P ++ S)) (P ++ S) (take (max_height (P ++ S)) nx))
      as [Hc2 Hl2]; [done|done| | |].
    + rewrite length_take. lia.
    + intros l Hlt. rewrite lookup_take_lt by done. apply Hnx. lia.
    + eexists. split; [done|]. split; [done|]. split; [done|done| | | |].
      * intros c Hcin. apply Hh. set_solver.
      * by eapply sorted_remove.
      * intros c Hcin. apply Hi. set_solver.
      * intros p Hp. rewrite lookup_insert_ne; [apply N1, Hf, Hp|].
        intros <-. rewrite (proj2 (N1 _) (Hf _ Hp)) in E. done.
Qed.

Definition remove_at (i : nat) (ids : list string) : list string := take i ids ++ drop (S i) ids.

Definition rem_map (M : gmap Z (list string)) (sc : Z) (ids' : list string) : gmap Z (list string) :=
  match ids' with [] => delete sc M | _ => <[sc := ids']> M end.

Lemma remove_at_length i ids : (i < length ids)%nat -> length (remove_at i ids) = (length ids - 1)%nat.
Proof. intros Hi. unfold remove_at. rewrite length_app, length_take, length_drop. lia. Qed.

Lemma index_of_lt id ids i : index_of id ids = Some i -> (i < length ids)%nat.
Proof.
  unfold index_of. destruct (list_find _ ids) as [[j y]|] eqn:E; [|done]. intros [= <-].
  apply list_find_Some in E as (E & _). by eapply lookup_lt_Some.
Qed.

Lemma Rem_spec s M sc id :
  ring_rep s M ->
  match M !! sc with
  | None => Rem s sc id = Ret (Err "score not exist", s)
  | Some ids =>
      match index_of id ids with
      | None => Rem s sc id = Ret (Err "node not exist in score", s)
      | Some i =>
          exists s', Rem s sc id = Ret (Ok (), s') /\ ring_rep s' (rem_map M sc (remove_at i ids)) /\
            nodeToReplicas s' = nodeToReplicas s /\ nodeToDataKey s' = delete id (nodeToDataKey s)
      end
  end.
Proof.
  intros (L & Hok & ->). pose proof (chain_sorted _ _ _ Hok) as Hs. unfold Rem.
  destruct (get_lookup s L sc Hok)
    as [(-> & -> & _)|(P & x & S & -> & Hx & -> & -> & HP & HS)]; [done|].
  destruct (cells_in _ _ (chain_cells _ _ _ Hok) x) as (nx & En & _); [set_solver|].
  go_ret. cbv beta iota. rewrite En. cbn [of_option]. go_ret. cbn [nodeIDs score nexts].
  destruct (index_of id (c_ids x)) as [i|] eqn:Ei; [|done].
  pose proof (index_of_lt _ _ _ Ei) as Hi. pose proof (remove_at_length i (c_ids x) Hi) as Hlen.
  destruct (entries_mid P x S Hs) as [EM Hno].
  destruct (1 <? length (c_ids x))%nat eqn:E1.
  - apply Nat.ltb_lt in E1. eexists. split; [done|]. split; [|done].
    assert (remove_at i (c_ids x) <> []) as Hne by (intros E; rewrite E in Hlen; simpl in Hlen; lia).
    pose proof (set_ids_chain _ _ P x S _ _ Hok Hne En) as Hok'. eexists. split; [exact Hok'|].
    destruct (entries_mid P (set_ids x (remove_at i (c_ids x))) S (chain_sorted _ _ _ Hok')) as [-> _].
    unfold rem_map. rewrite EM. simpl. rewrite Hx.
    destruct (remove_at i (c_ids x)); [done|]. by rewrite insert_insert_eq.
  - apply Nat.ltb_ge in E1. cbn [r_heap del_data_key].
    rewrite (levels_of_root _ _ _ (chain_cells _ _ _ Hok)). go_ret. rewrite <- Hx in *.
    destruct (Rem_unlink s P x S Hok HP HS) as (h1 & h2 & -> & E2 & Hok2). go_ret.
    rewrite E2. go_ret. eexists. split; [done|]. split; [|done]. exists (P ++ S). split; [done|].
    destruct (remove_at i (c_ids x)) eqn:Er; [|rewrite ?Er in Hlen; simpl in Hlen; lia].
    unfold rem_map. rewrite EM. by rewrite delete_insert_id.
Qed.

Lemma NewSkiplistHashRing_spec rolls : ring_rep (NewSkiplistHashRing rolls) ∅.
Proof.
  exists []. split; [|done]. split; simpl.
  - split; [|constructor; [set_solver|constructor]]. intros c [->|Hc]%elem_of_cons; [|set_solver].
    exists []. split; [|done]. simpl. by rewrite lookup_singleton_eq.
  - intros l C1 c C2 E Hlt. destruct C1 as [|? [|]]; simplify_eq/=. unfold max_height in Hlt. simpl in Hlt. lia.
  - set_solver.
  - constructor.
  - set_solver.
  - intros p Hp. rewrite lookup_singleton_ne by (unfold root_ptr; lia). done.
Qed.

(** The owner of a score: [Ceiling] returns the least score of the ring at
    or after it, wrapping around to the least one of all, and [-1] on an empty
    ring. *)
Theorem Ceiling_correct (s : SkiplistHashRing) (M : gmap Z (list string)) (t : Z) :
  ring_rep s M -> exists r, Ceiling s t = Ret r /\ ceiling_of M t r.
Proof. apply Ceiling_spec. Qed.

(** [Floor] returns the greatest score of the ring at or before the given
    one, wrapping around to the greatest one of all, and [-1] on an empty ring. *)
Theorem Floor_correct (s : SkiplistHashRing) (M : gmap Z (list string)) (t : Z) :
  ring_rep s M -> exists r, Floor s t = Ret r /\ floor_of M t r.
Proof. apply Floor_spec. Qed.

(** C24. [Add] keeps the skip list well formed and binds the identifier to the
    score, whatever level the new node gets: a new score gets a new node, a
    known score gets the identifier appended unless it is there already, and no
    other score changes. *)
Theorem Add_correct (s : SkiplistHashRing) (M : gmap Z (list string)) (sc : Z) (id : string) :
  ring_rep s M ->
  exists s', Add s sc id = Ret s' /\ ring_rep s' (add_map M sc id) /\
    nodeToReplicas s' = nodeToReplicas s /\ nodeToDataKey s' = nodeToDataKey s.
Proof. apply Add_spec. Qed.

(** [Rem] keeps the skip list well formed: it removes exactly the given
    identifier from the score, unlinks the node at every level when it was the
    only one, and reports a missing score or identifier without changing
    anything. *)
Theorem Rem_correct (s : SkiplistHashRing) (M : gmap Z (list string)) (sc : Z) (id : string) :
  ring_rep s M ->
  match M !! sc with
  | None => Rem s sc id = Ret (Err "score not exist", s)
  | Some ids =>
      match index_of id ids with
      | None => Rem s sc id = Ret (Err "node not exist in score", s)
      | Some i =>
          exists s', Rem s sc id = Ret (Ok (), s') /\ ring_rep s' (rem_map M sc (remove_at i ids)) /\
            nodeToReplicas s' = nodeToReplicas s /\ nodeToDataKey s' = delete id (nodeToDataKey s)
      end
  end.
Proof. apply Rem_spec. Qed.

(** ** Concrete rings *)

Module RingSample.
Definition rolls (i : nat) : nat := if (i =? 1)%nat then 2 else 0.
Definition add (s : SkiplistHashRing) (sc : Z) (id : string) : SkiplistHashRing :=
  match Add s sc id with Ret s' => s' | Panic => s end.
Definition ring : SkiplistHashRing :=
  add (add (add (NewSkiplistHashRing rolls) 10 "a_0") 30 "b_0") 20 "a_1".
Definition contents : gmap Z (list string) :=
  add_map (add_map (add_map ∅ 10 "a_0") 30 "b_0") 20 "a_1".

Lemma add_rep s M sc id : ring_rep s M -> ring_rep (add s sc id) (add_map M sc id).
Proof.
  intros Hr. destruct (Add_spec s M sc id Hr) as (s' & E & Hr' & _). unfold add. by rewrite E.
Qed.

Lemma ring_ok : ring_rep ring contents.
Proof. do 3 apply add_rep. apply NewSkiplistHashRing_spec. Qed.
End RingSample.

Lemma Ceiling_correct_witness :
  ring_rep RingSample.ring RingSample.contents /\
  exists r, Ceiling RingSample.ring 15 = Ret r /\ ceiling_of RingSample.contents 15 r.
Proof. split; [exact RingSample.ring_ok|exact (Ceiling_correct _ _ 15 RingSample.ring_ok)]. Defined.

Lemma Floor_correct_witness :
  ring_rep RingSample.ring RingSample.contents /\
  exists r, Floor RingSample.ring 5 = Ret r /\ floor_of RingSample.contents 5 r.
Proof. split; [exact RingSample.ring_ok|exact (Floor_correct _ _ 5 RingSample.ring_ok)]. Defined.

Lemma Add_correct_witness :
  ring_rep RingSample.ring RingSample.contents /\
  exists s', Add RingSample.ring 20 "b_1" = Ret s' /\
    ring_rep s' (add_map RingSample.contents 20 "b_1") /\
    nodeToReplicas s' = nodeToReplicas RingSample.ring /\
    nodeToDataKey s' = nodeToDataKey RingSample.ring.
Proof. split; [exact RingSample.ring_ok|exact (Add_correct _ _ 20 "b_1" RingSample.ring_ok)]. Defined.

Lemma Rem_correct_witness :
  ring_rep RingSample.ring RingSample.contents /\
  exists s', Rem RingSample.ring 30 "b_0" = Ret (Ok (), s') /\
    ring_rep s' (rem_map RingSample.contents 30 []) /\
    nodeToReplicas s' = nodeToReplicas RingSample.ring /\
    nodeToDataKey s' = delete "b_0"%string (nodeToDataKey RingSample.ring).
Proof. split; [exact RingSample.ring_ok|exact (Rem_correct _ _ 30 "b_0" RingSample.ring_ok)]. Defined.
