(* ===== verification/ConsistentHash.v ===== *)
(** * Consistent hashing with data migration ([local/consistent_hash.go],
    [local/migration.go], [local/option.go], [local/encryptor.go])

    The client of the hash ring, written against the [HashRing] interface of the
    source as a type class.  Proved against the laws of the interface: every
    recorded data key belongs to the node that owns its score, and looking a key
    up and adding a node keep it so; and the migrations of an added node are exactly
    what changes in the records.  The skip-list ring is an instance. *)

From stdpp Require Import base gmap strings list pretty.
From Stdlib Require Import Ascii ZArith Lia.
From S2P Require Import Prelude HashRing.

Local Open Scope Z_scope.

(** ** The interfaces *)

(** The [HashRing] interface, the methods the code calls. *)
Class HashRingOps (R : Type) := {
  hr_Add : R -> Z -> string -> outcome (res string unit * R);
  hr_Ceiling : R -> Z -> outcome (res string Z);
  hr_Floor : R -> Z -> outcome (res string Z);
  hr_Rem : R -> Z -> string -> outcome (res string unit * R);
  hr_Nodes : R -> outcome (res string (gmap string Z));
  hr_AddNodeToReplica : R -> string -> Z -> outcome (res string unit * R);
  hr_DeleteNodeToReplica : R -> string -> outcome (res string unit * R);
  hr_Node : R -> Z -> outcome (res string (list string));
  hr_DataKeys : R -> string -> outcome (res string (gset string));
  hr_AddNodeToDataKeys : R -> string -> gset string -> outcome (res string unit * R);
  hr_DeleteNodeToDataKeys : R -> string -> gset string -> outcome (res string unit * R);
}.

(** The [Encryptor] interface. *)
Class Encryptor := { Encrypt : string -> Z }.

Definition MaxInt32 : Z := 2147483647.

(** [MurmurHasher.Encrypt], murmur3's 32-bit sum being a parameter. *)
Definition MurmurHasher_Encrypt (Sum32 : string -> Z) (origin : string) : Z :=
  i32 (Sum32 origin mod MaxInt32).

(** ** Options *)

Record ConsistentHashOptions := mkOpts { lockExpireSeconds : Z; replicas : Z }.

Definition WithLockExpireSeconds (seconds : Z) (o : ConsistentHashOptions) : ConsistentHashOptions :=
  mkOpts seconds (replicas o).
Definition WithReplicas (n : Z) (o : ConsistentHashOptions) : ConsistentHashOptions :=
  mkOpts (lockExpireSeconds o) n.

Definition repair (o : ConsistentHashOptions) : ConsistentHashOptions :=
  mkOpts (if lockExpireSeconds o <=? 0 then 15 else lockExpireSeconds o)
         (if replicas o <=? 0 then 5 else replicas o).

Record ConsistentHash (R : Type) := mkCH {
  hashRing : R;
  migrator : bool;
  opts : ConsistentHashOptions;
}.
Arguments mkCH {R}.
Arguments hashRing {R}.
Arguments migrator {R}.
Arguments opts {R}.

Definition NewConsistentHash {R} (ring : R) (has_migrator : bool)
  (os : list (ConsistentHashOptions -> ConsistentHashOptions)) : ConsistentHash R :=
  mkCH ring has_migrator (repair (foldl (fun o f => f o) (mkOpts 0 0) os)).

(** ** Node keys *)

(** [strings.LastIndex(s, sep)] and [s[:i]] for a one-byte separator: the part
    before the last separator, [None] when there is none. *)
Fixpoint before_last (c : Ascii.ascii) (s : string) : option string :=
  match s with
  | EmptyString => None
  | String a s' =>
      match before_last c s' with
      | Some p => Some (String a p)
      | None => if bool_decide (a = c) then Some EmptyString else None
      end
  end.

(** [strings.Split(s, sep)[0]] *)
Fixpoint before_first (c : Ascii.ascii) (s : string) : string :=
  match s with
  | EmptyString => EmptyString
  | String a s' => if bool_decide (a = c) then EmptyString else String a (before_first c s')
  end.

Definition underscore : Ascii.ascii := "_"%char.

Definition getRawNodeKey (nodeID : string) (index : Z) : string :=
  nodeID +:+ "_" +:+ pretty index.

Definition getNodeID (rawNodeKey : string) : outcome string :=
  of_option (before_last underscore rawNodeKey).

Definition getValidWeight (weight : Z) : Z :=
  if weight <=? 0 then 1 else if 10 <=? weight then 10 else weight.

Definition incrScore (sc : Z) : Z := if sc =? MaxInt32 - 1 then 0 else i32 (sc + 1).
Definition decrScore (sc : Z) : Z := if sc =? 0 then MaxInt32 - 1 else i32 (sc - 1).

(** ** Calls on the ring: returned errors and the ring as state *)

Definition CH (R A : Type) : Type := R -> outcome (res string A * R).

#[export] Instance CH_ret {R} : MRet (CH R) := fun A a r => Ret (Ok a, r).
#[export] Instance CH_bind {R} : MBind (CH R) := fun A B f m r =>
  match m r with
  | Ret (Ok a, r') => f a r'
  | Ret (Err e, r') => Ret (Err e, r')
  | Panic => Panic
  end.

Definition ch_err {R A} (e : string) : CH R A := fun r => Ret (Err e, r).
Definition ch_of {R A} (o : outcome A) : CH R A :=
  fun r => match o with Ret a => Ret (Ok a, r) | Panic => Panic end.
Definition ch_read {R A} (f : R -> outcome (res string A)) : CH R A :=
  fun r => match f r with Ret x => Ret (x, r) | Panic => Panic end.
Definition ch_write {R} (f : R -> outcome (res string unit * R)) : CH R unit := f.

Section ops.
Context {R : Type} `{HashRingOps R} `{Encryptor}.
Context (has_migrator : bool).

(** ** Migration *)

(** The test of [migrateIn] on one data key, with [lastScore] and
    [virtualScore] already shifted. *)
Definition in_range_in (patternOne patternTwo : bool) (lastScore virtualScore dataScore : Z) : bool :=
  let d := if patternOne && (i32 (lastScore + MaxInt32) <? dataScore)
           then i32 (dataScore - MaxInt32) else dataScore in
  let d := if patternTwo then i32 (d - MaxInt32) else d in
  negb ((d <=? lastScore) || (virtualScore <? d)).

(** The data keys a new virtual node takes over: from, to and the keys. *)
Definition migrateIn (virtualScore : Z) (nodeID : string)
  : CH R (string * string * gset string) :=
  if negb has_migrator then mret (""%string, ""%string, ∅)
  else
    nodes ← ch_read (fun r => hr_Node r virtualScore);
    if (1 <? length nodes)%nat then mret (""%string, ""%string, ∅)
    else
      lastScore ← ch_read (fun r => hr_Floor r (decrScore virtualScore));
      if (lastScore =? -1) || (lastScore =? virtualScore) then mret (""%string, ""%string, ∅)
      else
        nextScore ← ch_read (fun r => hr_Ceiling r (incrScore virtualScore));
        if (nextScore =? -1) || (nextScore =? virtualScore) then mret (""%string, ""%string, ∅)
        else
          let patternOne := virtualScore <? lastScore in
          let patternTwo := nextScore <? virtualScore in
          let last1 := if patternOne then i32 (lastScore - MaxInt32) else lastScore in
          let virt2 := if patternTwo then i32 (virtualScore - MaxInt32) else virtualScore in
          let last2 := if patternTwo then i32 (last1 - MaxInt32) else last1 in
          nextNodes ← ch_read (fun r => hr_Node r nextScore);
          match nextNodes with
          | [] => mret (""%string, ""%string, ∅)
          | next0 :: _ =>
              from ← ch_of (getNodeID next0);
              dataKeys ← ch_read (fun r => hr_DataKeys r from);
              let datas := filter (fun k => in_range_in patternOne patternTwo last2 virt2 (Encrypt k) = true)
                             dataKeys in
              _ ← ch_write (fun r => hr_DeleteNodeToDataKeys r from datas);
              _ ← ch_write (fun r => hr_AddNodeToDataKeys r nodeID datas);
              mret (from, nodeID, datas)
          end.

(** The next node around the ring that is not [nodeID]. *)
Fixpoint getValidNextNode (fuel : nat) (sc : Z) (nodeID : string) (ranged : gset Z)
  : CH R string :=
  match fuel with
  | O => fun _ => Panic
  | S fuel =>
      nextScore ← ch_read (fun r => hr_Ceiling r (incrScore sc));
      if nextScore =? -1 then mret ""%string
      else if bool_decide (nextScore ∈ ranged) then mret ""%string
      else
        nextNodes ← ch_read (fun r => hr_Node r nextScore);
        match nextNodes with
        | [] => ch_err "next node empty"
        | next0 :: nexts =>
            nextNode ← ch_of (getNodeID next0);
            if bool_decide (nextNode <> nodeID) then mret nextNode
            else
              match nexts with
              | next1 :: _ => ch_of (getNodeID next1)
              | [] => getValidNextNode fuel nextScore nodeID ({[sc]} ∪ ranged)
              end
        end
  end.

(** The test of [migrateOut] on one data key. *)
Definition in_range_out (pattern : bool) (lastScore virtualScore dataScore : Z) : bool :=
  let d := if pattern && (i32 (lastScore + MaxInt32) <? dataScore)
           then i32 (dataScore - MaxInt32) else dataScore in
  negb ((d <=? lastScore) || (virtualScore <? d)).

(** The body of [migrateOut] up to its deferred function.  An error of
    [getValidNextNode] is replaced by the nil [_err]. *)
Definition migrateOut_body (fuel : nat) (virtualScore : Z) (nodeID : string)
  : CH R (string * gset string) :=
  nodes ← ch_read (fun r => hr_Node r virtualScore);
  match nodes with
  | [] => mret (""%string, ∅)
  | node0 :: nodes' =>
      id0 ← ch_of (getNodeID node0);
      if bool_decide (id0 <> nodeID) then mret (""%string, ∅)
      else
        allDatas ← ch_read (fun r => hr_DataKeys r nodeID);
        if bool_decide (allDatas = ∅) then mret (""%string, ∅)
        else
          lastScore ← ch_read (fun r => hr_Floor r (decrScore virtualScore));
          let onlyScore := (lastScore =? -1) || (lastScore =? virtualScore) in
          if onlyScore && (length nodes =? 1)%nat then ch_err "no other no"
          else
            let pattern := virtualScore <? lastScore in
            let last1 := if pattern then i32 (lastScore - MaxInt32) else lastScore in
            let datas := filter (fun k =>
                (onlyScore || in_range_out pattern last1 virtualScore (Encrypt k)) = true) allDatas in
            match nodes' with
            | node1 :: _ => to ← ch_of (getNodeID node1); mret (to, datas)
            | [] =>
                fun r =>
                  match getValidNextNode fuel virtualScore nodeID ∅ r with
                  | Panic => Panic
                  | Ret (Err _, r') => Ret (Ok (""%string, datas), r')
                  | Ret (Ok to, r') =>
                      if bool_decide (to = ""%string) then Ret (Err "no other node"%string, r')
                      else Ret (Ok (to, datas), r')
                  end
            end
  end.

Definition migrateOut (fuel : nat) (virtualScore : Z) (nodeID : string)
  : CH R (string * string * gset string) :=
  if negb has_migrator then mret (""%string, ""%string, ∅)
  else
    '(to, datas) ← migrateOut_body fuel virtualScore nodeID;
    if bool_decide (to = ""%string) || bool_decide (datas = ∅) then mret (nodeID, to, datas)
    else
      _ ← ch_write (fun r => hr_DeleteNodeToDataKeys r nodeID datas);
      _ ← ch_write (fun r => hr_AddNodeToDataKeys r to datas);
      mret (nodeID, to, datas).

(** ** Nodes *)

(** A migration: the keys, from and to. *)
Definition task : Type := gset string * string * string.

(** The loop over the virtual nodes of [AddNode]: [n] are left, [i] is next. *)
Fixpoint add_replicas (n : nat) (i : Z) (nodeID : string) : CH R (list task) :=
  match n with
  | O => mret []
  | S n =>
      let nodeKey := getRawNodeKey nodeID i in
      let virtualScore := Encrypt nodeKey in
      _ ← ch_write (fun r => hr_Add r virtualScore nodeKey);
      '(from, to, datas) ← migrateIn virtualScore nodeID;
      rest ← add_replicas n (i + 1) nodeID;
      mret (if bool_decide (datas = ∅) then rest else (datas, from, to) :: rest)
  end.

(** Returns the migrations that are run, in the order they are collected. *)
Definition AddNode (o : ConsistentHashOptions) (nodeID : string) (weight : Z) : CH R (list task) :=
  nodes ← ch_read hr_Nodes;
  if bool_decide (is_Some (nodes !! nodeID)) then ch_err "repeat node"
  else
    let n := i64 (getValidWeight weight * replicas o) in
    _ ← ch_write (fun r => hr_AddNodeToReplica r nodeID n);
    add_replicas (Z.to_nat n) 0 nodeID.

(** [AddNode2] takes a follower id besides, which it does not use. *)
Definition AddNode2 (o : ConsistentHashOptions) (nodeID : string) (weight fid : Z) : CH R (list task) :=
  AddNode o nodeID weight.

Fixpoint remove_replicas (fuel n : nat) (i : Z) (nodeID : string) : CH R (list task) :=
  match n with
  | O => mret []
  | S n =>
      let virtualScore := Encrypt (getRawNodeKey nodeID i) in
      '(from, to, datas) ← migrateOut fuel virtualScore nodeID;
      let nodeKey := getRawNodeKey nodeID i in
      _ ← ch_write (fun r => hr_Rem r virtualScore nodeKey);
      rest ← remove_replicas fuel n (i + 1) nodeID;
      mret (if bool_decide (datas = ∅) then rest else (datas, from, to) :: rest)
  end.

Definition RemoveNode (fuel : nat) (nodeID : string) : CH R (list task) :=
  nodes ← ch_read hr_Nodes;
  match nodes !! nodeID with
  | None => ch_err "invalid node id"
  | Some n =>
      _ ← ch_write (fun r => hr_DeleteNodeToReplica r nodeID);
      remove_replicas fuel (Z.to_nat n) 0 nodeID
  end.

Definition GetNode (dataKey : string) : CH R string :=
  let dataScore := Encrypt dataKey in
  ceilingScore ← ch_read (fun r => hr_Ceiling r dataScore);
  if ceilingScore =? -1 then ch_err "no node available"
  else
    nodes ← ch_read (fun r => hr_Node r ceilingScore);
    match nodes with
    | [] => ch_err "no node available with empty score"
    | node0 :: _ =>
        id ← ch_of (getNodeID node0);
        _ ← ch_write (fun r => hr_AddNodeToDataKeys r id {[dataKey]});
        mret (before_first underscore node0)
    end.
End ops.

(** ** What a ring promises *)

(** The scores with their node keys, the registered nodes with their number of
    virtual nodes, and the data keys recorded for each node. *)
Record view := mkView {
  v_scores : gmap Z (list string);
  v_replicas : gmap string Z;
  v_data : string -> gset string;
}.

Definition upd (f : string -> gset string) (id : string) (d : gset string) : string -> gset string :=
  fun x => if bool_decide (x = id) then d else f x.

Definition removed (ids : list string) (id : string) : option (list string) :=
  i ← index_of id ids; Some (remove_at i ids).

Class HashRingLaws (R : Type) `{HashRingOps R} := {
  hr_view : R -> view -> Prop;
  law_Add : forall r v sc id, hr_view r v ->
    exists r', hr_Add r sc id = Ret (Ok (), r') /\
      hr_view r' (mkView (add_map (v_scores v) sc id) (v_replicas v) (v_data v));
  law_Ceiling : forall r v t, hr_view r v ->
    exists x, hr_Ceiling r t = Ret (Ok x) /\ ceiling_of (v_scores v) t x;
  law_Floor : forall r v t, hr_view r v ->
    exists x, hr_Floor r t = Ret (Ok x) /\ floor_of (v_scores v) t x;
  law_Rem : forall r v sc id ids ids', hr_view r v ->
    v_scores v !! sc = Some ids -> removed ids id = Some ids' ->
    exists r', hr_Rem r sc id = Ret (Ok (), r') /\
      hr_view r' (mkView (rem_map (v_scores v) sc ids') (v_replicas v) (upd (v_data v) id ∅));
  law_Node : forall r v sc ids, hr_view r v -> v_scores v !! sc = Some ids ->
    hr_Node r sc = Ret (Ok ids);
  law_Nodes : forall r v, hr_view r v -> hr_Nodes r = Ret (Ok (v_replicas v));
  law_AddNodeToReplica : forall r v id n, hr_view r v ->
    exists r', hr_AddNodeToReplica r id n = Ret (Ok (), r') /\
      hr_view r' (mkView (v_scores v) (<[id := n]> (v_replicas v)) (v_data v));
  law_DeleteNodeToReplica : forall r v id, hr_view r v ->
    exists r', hr_DeleteNodeToReplica r id = Ret (Ok (), r') /\
      hr_view r' (mkView (v_scores v) (delete id (v_replicas v)) (v_data v));
  law_DataKeys : forall r v id, hr_view r v -> hr_DataKeys r id = Ret (Ok (v_data v id));
  law_AddNodeToDataKeys : forall r v id d, hr_view r v ->
    exists r', hr_AddNodeToDataKeys r id d = Ret (Ok (), r') /\
      hr_view r' (mkView (v_scores v) (v_replicas v) (upd (v_data v) id (v_data v id ∪ d)));
  law_DeleteNodeToDataKeys : forall r v id d, hr_view r v ->
    exists r', hr_DeleteNodeToDataKeys r id d = Ret (Ok (), r') /\
      hr_view r' (mkView (v_scores v) (v_replicas v) (upd (v_data v) id (v_data v id ∖ d)));
}.

(** *** The skip list keeps the promise *)

Definition ok_unit {A} (o : outcome A) : outcome (res string unit * A) :=
  match o with Ret a => Ret (Ok (), a) | Panic => Panic end.

#[export] Instance skiplist_ops : HashRingOps SkiplistHashRing := {|
  hr_Add := fun r sc id => ok_unit (HashRing.Add r sc id);
  hr_Ceiling := fun r t => x ← HashRing.Ceiling r t; Ret (Ok x);
  hr_Floor := fun r t => x ← HashRing.Floor r t; Ret (Ok x);
  hr_Rem := HashRing.Rem;
  hr_Nodes := fun r => Ret (Ok (HashRing.Nodes r));
  hr_AddNodeToReplica := fun r id n => ok_unit (Ret (HashRing.AddNodeToReplica r id n));
  hr_DeleteNodeToReplica := fun r id => ok_unit (Ret (HashRing.DeleteNodeToReplica r id));
  hr_Node := HashRing.Node;
  hr_DataKeys := fun r id => Ret (Ok (HashRing.DataKeys r id));
  hr_AddNodeToDataKeys := fun r id d => ok_unit (Ret (HashRing.AddNodeToDataKeys r id d));
  hr_DeleteNodeToDataKeys := fun r id d => ok_unit (Ret (HashRing.DeleteNodeToDataKeys r id d));
|}.

Definition skiplist_view (s : SkiplistHashRing) (v : view) : Prop :=
  ring_rep s (v_scores v) /\ nodeToReplicas s = v_replicas v /\
  forall id, HashRing.DataKeys s id = v_data v id.

Lemma ring_rep_heap s s' M :
  r_heap s' = r_heap s -> r_fresh s' = r_fresh s -> ring_rep s M -> ring_rep s' M.
Proof. intros Eh Ef (L & Hok & ->). exists L. by rewrite Eh, Ef. Qed.

Lemma skiplist_AddNodeToDataKeys s v id d :
  skiplist_view s v ->
  skiplist_view (HashRing.AddNodeToDataKeys s id d)
    (mkView (v_scores v) (v_replicas v) (upd (v_data v) id (v_data v id ∪ d))).
Proof.
  intros (Hr & Hn & Hd). split; [by apply (ring_rep_heap s)|]. split; [done|].
  intros x. unfold HashRing.DataKeys, upd. simpl. case_bool_decide as E.
  - subst. rewrite lookup_insert_eq. simpl. by rewrite <- Hd.
  - rewrite lookup_insert_ne by done. apply Hd.
Qed.

Lemma skiplist_DeleteNodeToDataKeys s v id d :
  skiplist_view s v ->
  skiplist_view (HashRing.DeleteNodeToDataKeys s id d)
    (mkView (v_scores v) (v_replicas v) (upd (v_data v) id (v_data v id ∖ d))).
Proof.
  intros (Hr & Hn & Hd). unfold HashRing.DeleteNodeToDataKeys.
  destruct (nodeToDataKey s !! id) as [old|] eqn:E.
  - split; [by apply (ring_rep_heap s)|]. split; [done|].
    intros x. unfold HashRing.DataKeys, upd in *. simpl. case_bool_decide as Ex.
    + subst. rewrite <- Hd, E. simpl. case_decide as Er.
      * by rewrite lookup_delete_eq.
      * by rewrite lookup_insert_eq.
    + rewrite <- Hd. case_decide; [by rewrite lookup_delete_ne|by rewrite lookup_insert_ne].
  - split; [done|]. split; [done|]. intros x. unfold upd. simpl. case_bool_decide as Ex; [|apply Hd].
    subst. rewrite <- Hd. unfold HashRing.DataKeys. rewrite E. simpl. set_solver.
Qed.

#[export] Instance skiplist_laws : HashRingLaws SkiplistHashRing.
Proof.
  refine {| hr_view := skiplist_view |}.
  - intros r v sc id (Hr & Hn & Hd). destruct (Add_spec r _ sc id Hr) as (r' & E & Hr' & Hn' & Hd').
    exists r'. simpl. rewrite E. split; [done|]. split; [done|]. simpl. split; [congruence|].
    intros x. rewrite <- Hd. unfold HashRing.DataKeys. by rewrite Hd'.
  - intros r v t (Hr & _). destruct (Ceiling_spec r _ t Hr) as (x & E & Hx). exists x. simpl. by rewrite E.
  - intros r v t (Hr & _). destruct (Floor_spec r _ t Hr) as (x & E & Hx). exists x. simpl. by rewrite E.
  - intros r v sc id ids ids' (Hr & Hn & Hd) Es Er. pose proof (Rem_spec r _ sc id Hr) as HR.
    rewrite Es in HR. unfold removed in Er. destruct (index_of id ids) as [i|]; simplify_eq/=.
    destruct HR as (r' & E & Hr' & Hn' & Hd'). exists r'. split; [done|]. split; [done|].
    split; [simpl; congruence|]. intros x. unfold HashRing.DataKeys, upd. rewrite Hd'. simpl.
    case_bool_decide; [subst; by rewrite lookup_delete_eq|]. rewrite lookup_delete_ne by done. apply Hd.
  - intros r v sc ids (Hr & _) E. simpl. rewrite (Node_spec r _ sc Hr), E. done.
  - intros r v (_ & Hn & _). simpl. unfold HashRing.Nodes. by rewrite Hn.
  - intros r v id n (Hr & Hn & Hd). eexists. split; [done|]. split; [by apply (ring_rep_heap r)|].
    split; [simpl; congruence|done].
  - intros r v id (Hr & Hn & Hd). eexists. split; [done|]. split; [by apply (ring_rep_heap r)|].
    split; [simpl; congruence|done].
  - intros r v id (_ & _ & Hd). simpl. by rewrite Hd.
  - intros r v id d Hv. eexists. split; [done|]. by apply skiplist_AddNodeToDataKeys.
  - intros r v id d Hv. eexists. split; [done|]. by apply skiplist_DeleteNodeToDataKeys.
Defined.

(** ** Node keys and node identifiers *)

Fixpoint no_char (c : ascii) (s : string) : bool :=
  match s with
  | EmptyString => true
  | String a s => negb (bool_decide (a = c)) && no_char c s
  end.

Lemma before_last_none c s : no_char c s = true -> before_last c s = None.
Proof.
  induction s as [|a s IH]; [done|]. simpl. intros [Ha Hs]%andb_true_iff.
  rewrite IH by done. by destruct (bool_decide (a = c)).
Qed.

Lemma before_last_app c s1 s2 :
  no_char c s2 = true -> before_last c (s1 +:+ String c s2) = Some s1.
Proof.
  intros Hs. induction s1 as [|a s1 IH]; simpl.
  - rewrite before_last_none by done. by rewrite bool_decide_true.
  - change (String.append s1 (String c s2)) with (s1 +:+ String c s2). by rewrite IH.
Qed.

Lemma before_first_app c s1 s2 :
  no_char c s1 = true -> before_first c (s1 +:+ String c s2) = s1.
Proof.
  induction s1 as [|a s1 IH]; simpl; [by rewrite bool_decide_true|].
  intros [Ha Hs]%andb_true_iff. destruct (bool_decide (a = c)); [done|].
  change (String.append s1 (String c s2)) with (s1 +:+ String c s2). by rewrite IH.
Qed.

Lemma pretty_N_go_no_char x s :
  no_char underscore s = true -> no_char underscore (pretty_N_go x s) = true.
Proof.
  revert s. induction (N.lt_wf_0 x) as [x _ IH]; intros s Hs.
  assert (x = 0 \/ 0 < x)%N as [->|Hx] by lia; [by rewrite pretty_N_go_0|].
  rewrite pretty_N_go_step by done. apply IH; [by apply N.div_lt|].
  simpl. rewrite Hs, andb_true_r. unfold pretty_N_char. by repeat case_match.
Qed.

Lemma pretty_index_no_char i : 0 <= i -> no_char underscore (pretty i) = true.
Proof.
  intros Hi. destruct i as [|p|p]; [done| |lia]. unfold pretty, pretty_Z, pretty, pretty_N.
  by apply pretty_N_go_no_char.
Qed.

Lemma getNodeID_raw id i : 0 <= i -> getNodeID (getRawNodeKey id i) = Ret id.
Proof.
  intros Hi. unfold getNodeID, getRawNodeKey, underscore.
  change ("_" +:+ pretty i) with (String "_" (pretty i)).
  rewrite before_last_app by (by apply pretty_index_no_char). done.
Qed.

Lemma before_first_raw id i :
  no_char underscore id = true -> before_first underscore (getRawNodeKey id i) = id.
Proof. intros Hid. apply (before_first_app underscore id (pretty i) Hid). Qed.

Lemma getRawNodeKey_inj id i j : getRawNodeKey id i = getRawNodeKey id j -> i = j.
Proof. unfold getRawNodeKey. by intros E%(inj (String.append id))%(inj (String.append "_"))%(inj pretty). Qed.

(** ** Ownership of scores *)

(** What the code relies on of an [Encryptor]. *)
Class EncryptorLaws `{Encryptor} : Prop := {
  Encrypt_range : forall s, 0 <= Encrypt s < MaxInt32;
}.

Definition owns (M : gmap Z (list string)) (t : Z) (id : string) : Prop :=
  exists r raw rest, ceiling_of M t r /\ M !! r = Some (raw :: rest) /\ getNodeID raw = Ret id.

Definition keys_ok (M : gmap Z (list string)) : Prop :=
  forall k ids, M !! k = Some ids ->
    0 <= k < MaxInt32 /\ ids <> [] /\
    forall raw, raw ∈ ids -> exists id i, 0 <= i /\ raw = getRawNodeKey id i.

Lemma ceiling_unique M t r1 r2 : ceiling_of M t r1 -> ceiling_of M t r2 -> r1 = r2.
Proof.
  intros [(K1 & L1 & H1)|[(A1 & K1 & H1)|[-> ->]]] [(K2 & L2 & H2)|[(A2 & K2 & H2)|[E2 ->]]];
    try (subst; by destruct K1 as [? ?%lookup_empty_Some]);
    try (by destruct K2 as [? ?%lookup_empty_Some]); try done.
  - pose proof (H1 _ K2 L2). pose proof (H2 _ K1 L1). lia.
  - pose proof (A2 _ K1). lia.
  - pose proof (A1 _ K2). lia.
  - pose proof (H1 _ K2). pose proof (H2 _ K1). lia.
Qed.

Lemma owns_unique M t id1 id2 : owns M t id1 -> owns M t id2 -> id1 = id2.
Proof.
  intros (r1 & raw1 & l1 & C1 & E1 & G1) (r2 & raw2 & l2 & C2 & E2 & G2).
  rewrite (ceiling_unique _ _ _ _ C1 C2) in E1. congruence.
Qed.

Lemma i32_id z : - 2147483648 <= z < 2147483648 -> i32 z = z.
Proof. intros Hz. apply wrap_s_small; [lia|]. unfold is_s. simpl. lia. Qed.

Section new_score.
Context (M : gmap Z (list string)) (ids0 : list string) (sc last next : Z).
Context (Hne : exists k, is_Some (M !! k)) (Hkeys : keys_ok M) (Hsc : 0 <= sc < MaxInt32).
Context (Hnew : M !! sc = None).
Context (Hlast : floor_of (<[sc := ids0]> M) (decrScore sc) last).
Context (Hnext : ceiling_of (<[sc := ids0]> M) (incrScore sc) next).

Lemma key_range k : is_Some (M !! k) -> 0 <= k < MaxInt32 /\ k <> sc.
Proof.
  intros [ids E]. destruct (Hkeys _ _ E) as [Hr _]. split; [done|]. intros ->. congruence.
Qed.

Lemma key_new k : is_Some (<[sc := ids0]> M !! k) <-> k = sc \/ is_Some (M !! k).
Proof. rewrite lookup_insert_is_Some'. naive_solver. Qed.

Lemma last_facts :
  is_Some (M !! last) /\
  (last < sc /\ (forall k, is_Some (M !! k) -> k < sc -> k <= last) \/
   sc < last /\ (forall k, is_Some (M !! k) -> sc < k /\ k <= last)).
Proof using All.
  destruct Hne as [k0 K0]. pose proof (key_range _ K0) as [R0 N0]. unfold floor_of in Hlast.
  setoid_rewrite key_new in Hlast. unfold decrScore in Hlast.
  assert (i32 (sc - 1) = sc - 1) as Ei by (apply i32_id; unfold MaxInt32 in *; lia).
  rewrite Ei in Hlast. clear Ei.
  destruct Hlast as [(Kl & Ll & Hl)|[(Al & Kl & Hl)|[E _]]].
  3: { exfalso. assert (<[sc := ids0]> M !! sc = None) as Es by (rewrite E; apply lookup_empty).
       by rewrite lookup_insert_eq in Es. }
  - destruct (sc =? 0) eqn:E0; [apply Z.eqb_eq in E0|apply Z.eqb_neq in E0].
    + pose proof (Hl k0 (or_intror K0) ltac:(lia)). destruct Kl as [->|Kl]; [lia|].
      split; [done|]. right. split; [lia|]. intros k Kk. pose proof (key_range _ Kk) as [Rk Nk].
      split; [lia|]. apply Hl; [by right|lia].
    + destruct Kl as [->|Kl]; [lia|]. split; [done|]. left. split; [lia|].
      intros k Kk Hk. apply Hl; [by right|lia].
  - destruct (sc =? 0) eqn:E0; [apply Z.eqb_eq in E0; pose proof (Al k0 (or_intror K0)); lia|].
    assert (sc < k0) as Hk0 by (pose proof (Al k0 (or_intror K0)); lia).
    pose proof (Hl k0 (or_intror K0)). destruct Kl as [->|Kl]; [lia|]. split; [done|]. right.
    split; [lia|]. intros k Kk. pose proof (key_range _ Kk) as [Rk Nk].
    pose proof (Al k (or_intror Kk)). pose proof (Hl k (or_intror Kk)). lia.
Qed.

Lemma next_facts :
  is_Some (M !! next) /\
  (sc < next /\ (forall k, is_Some (M !! k) -> sc < k -> next <= k) \/
   next < sc /\ (forall k, is_Some (M !! k) -> k < sc /\ next <= k)).
Proof using All.
  destruct Hne as [k0 K0]. pose proof (key_range _ K0) as [R0 N0]. unfold ceiling_of in Hnext.
  setoid_rewrite key_new in Hnext. unfold incrScore in Hnext.
  destruct (sc =? MaxInt32 - 1) eqn:E0; [apply Z.eqb_eq in E0|apply Z.eqb_neq in E0].
  - destruct Hnext as [(Kn & Ln & Hn)|[(An & Kn & Hn)|[E _]]].
    3: { exfalso. assert (<[sc := ids0]> M !! sc = None) as Es by (rewrite E; apply lookup_empty).
         by rewrite lookup_insert_eq in Es. }
    + pose proof (Hn k0 (or_intror K0) ltac:(lia)). destruct Kn as [->|Kn]; [lia|].
      split; [done|]. right. split; [lia|]. intros k Kk. pose proof (key_range _ Kk) as [Rk Nk].
      split; [lia|]. apply Hn; [by right|lia].
    + pose proof (An k0 (or_intror K0)). lia.
  - assert (i32 (sc + 1) = sc + 1) as Ei by (apply i32_id; unfold MaxInt32 in *; lia).
    rewrite Ei in Hnext. clear Ei.
    destruct Hnext as [(Kn & Ln & Hn)|[(An & Kn & Hn)|[E _]]].
    3: { exfalso. assert (<[sc := ids0]> M !! sc = None) as Es by (rewrite E; apply lookup_empty).
         by rewrite lookup_insert_eq in Es. }
    + destruct Kn as [->|Kn]; [lia|]. split; [done|]. left. split; [lia|].
      intros k Kk Hk. apply Hn; [by right|lia].
    + assert (k0 < sc) by (pose proof (An k0 (or_intror K0)); lia).
      pose proof (Hn k0 (or_intror K0)). destruct Kn as [->|Kn]; [lia|]. split; [done|]. right.
      split; [lia|]. intros k Kk. pose proof (key_range _ Kk) as [Rk Nk].
      pose proof (An k (or_intror Kk)). pose proof (Hn k (or_intror Kk)). lia.
Qed.

(** The scores the new virtual node takes over. *)
Definition taken (t : Z) : Prop := if sc <? last then last < t \/ t <= sc else last < t <= sc.

#[local] Instance taken_dec t : Decision (taken t).
Proof. unfold taken. destruct (sc <? last); apply _. Defined.

Lemma taken_owner t :
  taken t -> ceiling_of (<[sc := ids0]> M) t sc /\ ceiling_of M t next.
Proof using All.
  intros Ht. destruct last_facts as (Kl & Hl). destruct next_facts as (Kn & Hn).
  pose proof (key_range _ Kl) as [Rl Nl]. pose proof (key_range _ Kn) as [Rn Nn].
  unfold taken in Ht. unfold ceiling_of. setoid_rewrite key_new.
  destruct Hl as [[Hlt Hl]|[Hlt Hl]].
  - rewrite (proj2 (Z.ltb_ge _ _)) in Ht by lia. split.
    + left. split; [by left|]. split; [lia|]. intros k [->|Kk] Hk; [lia|].
      pose proof (Hl k Kk). pose proof (key_range _ Kk). lia.
    + destruct Hn as [[Hgt Hn]|[Hgt Hn]].
      * left. split; [done|]. split; [lia|]. intros k Kk Hk. apply Hn; [done|].
        pose proof (Hl k Kk). pose proof (key_range _ Kk). lia.
      * right. left. split; [|split; [done|]]; intros k Kk; [|by apply Hn].
        pose proof (Hn k Kk). pose proof (Hl k Kk). lia.
  - rewrite (proj2 (Z.ltb_lt _ _)) in Ht by lia.
    assert (sc < next /\ forall k, is_Some (M !! k) -> next <= k) as [Hgt Hmin].
    { pose proof (Hl _ Kn). destruct Hn as [[Hgt Hn]|[Hgt Hn]]; [|lia]. split; [done|].
      intros k Kk. apply Hn; [done|by apply Hl]. }
    destruct (decide (t <= sc)) as [Hts|Hts].
    + split; left.
      * split; [by left|]. split; [lia|]. intros k [->|Kk] Hk; [lia|]. pose proof (Hl k Kk). lia.
      * split; [done|]. split; [lia|]. auto.
    + split; right; left.
      * split; [|split; [by left|]]; intros k [->|Kk]; try lia; pose proof (Hl k Kk); lia.
      * split; [|split; [done|auto]]. intros k Kk. pose proof (Hl k Kk). lia.
Qed.

Lemma kept_owner t r : ~ taken t -> ceiling_of M t r -> ceiling_of (<[sc := ids0]> M) t r /\ r <> sc.
Proof using All.
  intros Ht Hr. destruct last_facts as (Kl & Hl). unfold taken in Ht. unfold ceiling_of.
  setoid_rewrite key_new. destruct Hne as [k0 K0].
  destruct Hr as [(Kr & Lr & Hr)|[(Ar & Kr & Hr)|[-> _]]]; [| |by apply lookup_empty_is_Some in K0].
  - pose proof (key_range _ Kr) as [Rr Nr]. split; [|done]. left. split; [by right|]. split; [done|].
    intros k [->|Kk] Hk; [|by apply Hr]. destruct Hl as [[Hlt Hl]|[Hlt Hl]].
    + rewrite (proj2 (Z.ltb_ge _ _)) in Ht by lia. pose proof (Hr _ Kl). lia.
    + rewrite (proj2 (Z.ltb_lt _ _)) in Ht by lia. lia.
  - pose proof (key_range _ Kr) as [Rr Nr]. split; [|done]. right. left.
    pose proof (Ar _ Kl). pose proof (Hr _ Kl). destruct Hl as [[Hlt Hl]|[Hlt Hl]].
    + rewrite (proj2 (Z.ltb_ge _ _)) in Ht by lia.
      split; [|split; [by right|]]; intros k [->|Kk]; try lia; auto.
    + rewrite (proj2 (Z.ltb_lt _ _)) in Ht by lia. lia.
Qed.

(** The comparison the code makes on shifted 32-bit scores. *)
Lemma in_range_taken t :
  0 <= t < MaxInt32 ->
  let patternOne := sc <? last in
  let patternTwo := next <? sc in
  let last1 := if patternOne then i32 (last - MaxInt32) else last in
  in_range_in patternOne patternTwo (if patternTwo then i32 (last1 - MaxInt32) else last1)
    (if patternTwo then i32 (sc - MaxInt32) else sc) t = true <-> taken t.
Proof using All.
  intros Ht. destruct last_facts as (Kl & Hl). destruct next_facts as (Kn & Hn).
  pose proof (key_range _ Kl) as [Rl Nl]. pose proof (key_range _ Kn) as [Rn Nn].
  unfold taken, in_range_in, MaxInt32 in *. cbv zeta.
  rewrite negb_true_iff, orb_false_iff, Z.leb_gt, Z.ltb_ge.
  destruct (sc <? last) eqn:E1; [apply Z.ltb_lt in E1|apply Z.ltb_ge in E1];
    (destruct (next <? sc) eqn:E2; [apply Z.ltb_lt in E2|apply Z.ltb_ge in E2]); cbn [andb].
  - exfalso. destruct Hl as [[? ?]|[? Hl]]; [lia|]. pose proof (Hl _ Kn). lia.
  - rewrite !i32_id by lia. replace (last - 2147483647 + 2147483647) with last by lia.
    destruct (last <? t) eqn:E3; [apply Z.ltb_lt in E3|apply Z.ltb_ge in E3]; lia.
  - rewrite !i32_id by lia. lia.
  - lia.
Qed.
End new_score.

(** ** Adding a node *)

Definition data_ok `{Encryptor} (v : view) : Prop :=
  forall id k, k ∈ v_data v id -> owns (v_scores v) (Encrypt k) id.

(** The data keys recorded for some node. *)
Definition recorded (v : view) (k : string) : Prop := exists id, k ∈ v_data v id.

Definition fresh_key (M : gmap Z (list string)) (raw : string) : Prop :=
  forall k ids, M !! k = Some ids -> raw ∉ ids.

Lemma keys_ok_add M sc nodeID i :
  keys_ok M -> 0 <= sc < MaxInt32 -> 0 <= i -> keys_ok (add_map M sc (getRawNodeKey nodeID i)).
Proof.
  intros HM Hsc Hi k ids. unfold add_map. destruct (M !! sc) as [ids0|] eqn:E.
  - case_bool_decide; [by apply HM|]. intros [[<- <-]|[_ Ek]]%lookup_insert_Some; [|by apply (HM k)].
    destruct (HM _ _ E) as (Hr & Hne & Hraw). split; [done|]. split; [by destruct ids0|].
    intros raw [Hin|Hin]%elem_of_app; [by apply Hraw|].
    exists nodeID, i. split; [done|]. set_solver.
  - intros [[<- <-]|[_ Ek]]%lookup_insert_Some; [|by apply (HM k)].
    split; [done|]. split; [done|]. intros raw Hin. exists nodeID, i. split; [done|]. set_solver.
Qed.

(** Appending to a known score changes no owner. *)
Lemma owns_append M sc ids raw t id :
  M !! sc = Some ids -> ids <> [] -> owns M t id -> owns (<[sc := ids ++ [raw]]> M) t id.
Proof.
  intros E Hne (r & raw0 & rest & Hc & Er & Hg).
  assert (forall k, is_Some (<[sc := ids ++ [raw]]> M !! k) <-> is_Some (M !! k)) as Hk.
  { intros k. rewrite lookup_insert_is_Some'. split; [|naive_solver]. intros [<-|?]; [by eexists|done]. }
  assert (ceiling_of (<[sc := ids ++ [raw]]> M) t r) as Hc'.
  { unfold ceiling_of in *. setoid_rewrite Hk.
    destruct Hc as [Hc|[Hc|[-> _]]]; [by left|by right; left|]. by rewrite lookup_empty in E. }
  destruct (decide (r = sc)) as [->|Hrs].
  - rewrite E in Er. simplify_eq. exists sc, raw0, (rest ++ [raw]).
    split; [done|]. rewrite lookup_insert_eq. done.
  - exists r, raw0, rest. split; [done|]. rewrite lookup_insert_ne by done. done.
Qed.

Lemma fresh_key_add M sc raw raw' :
  fresh_key M raw' -> raw' <> raw -> fresh_key (add_map M sc raw) raw'.
Proof.
  intros Hf Hne k ids. unfold add_map. destruct (M !! sc) as [ids0|] eqn:E.
  - case_bool_decide; [by apply Hf|]. intros [[<- <-]|[_ Ek]]%lookup_insert_Some; [|by apply (Hf k)].
    pose proof (Hf _ _ E). set_solver.
  - intros [[<- <-]|[_ Ek]]%lookup_insert_Some; [set_solver|by apply (Hf k)].
Qed.

Section add_node.
Context {R : Type} `{HashRingLaws R} `{EncryptorLaws}.

Lemma ch_bind_ret {A B} (m : CH R A) (f : A -> CH R B) a r r' :
  m r = Ret (Ok a, r') -> (m ≫= f) r = f a r'.
Proof. intros E. unfold mbind, CH_bind. by rewrite E. Qed.

(** Nothing is recorded while the ring is empty. *)
Lemma data_ok_empty v : data_ok v -> (forall k, v_scores v !! k = None) -> forall id, v_data v id = ∅.
Proof.
  intros Hd He id. apply set_eq. intros k. split; [|set_solver]. intros Hk.
  destruct (Hd id k Hk) as (r & raw & rest & _ & Er & _). by rewrite He in Er.
Qed.

Definition add_view (v : view) (sc : Z) (raw : string) : view :=
  mkView (add_map (v_scores v) sc raw) (v_replicas v) (v_data v).

(** ** The migrations *)

(** The keys that migrations take from a node, and those they take in all. *)
Definition handed_by (tasks : list task) (id : string) : gset string :=
  ⋃ ((fun t : task => if bool_decide (t.1.2 = id) then t.1.1 else ∅) <$> tasks).
Definition handed_over (tasks : list task) : gset string := ⋃ ((fun t : task => t.1.1) <$> tasks).

(** The migrations account for what has changed between two views: each hands some
    keys to the new node, from a node that had them; the nodes lose what they hand
    over, and the new one has all of it.  A migration from the new node to itself
    moves keys it got before. *)
Record migrates (nodeID : string) (v : view) (tasks : list task) (v' : view) : Prop := {
  mg_tasks : Forall (fun t : task => t.2 = nodeID /\ t.1.1 <> ∅) tasks;
  mg_from : forall id, id <> nodeID -> handed_by tasks id ⊆ v_data v id /\ v_data v' id = v_data v id ∖ handed_by tasks id;
  mg_to : v_data v' nodeID = v_data v nodeID ∪ handed_over tasks;
}.

Lemma migrates_none nodeID v v' : (forall id, v_data v' id = v_data v id) -> migrates nodeID v [] v'.
Proof. intros E. split; [constructor| |]; intros; rewrite E; unfold handed_by, handed_over; simpl; set_solver. Qed.

Lemma migrates_cons nodeID v v1 v2 datas from tasks :
  datas <> ∅ -> datas ⊆ v_data v from ->
  (forall id, v_data v1 id = if bool_decide (id = nodeID) then v_data v id ∪ datas
                             else if bool_decide (id = from) then v_data v id ∖ datas else v_data v id) ->
  migrates nodeID v1 tasks v2 -> migrates nodeID v ((datas, from, nodeID) :: tasks) v2.
Proof.
  intros Hne Hsub E [Ht Hf Hto]. split.
  - by constructor.
  - intros id Hid. destruct (Hf id Hid) as [Hin Eid]. rewrite E, bool_decide_false in Hin, Eid by done.
    unfold handed_by in *. cbn [fmap list_fmap union_list foldr fst snd]. rewrite Eid.
    destruct (decide (id = from)) as [->|Hn]; repeat case_bool_decide; try congruence; split; set_solver.
  - rewrite Hto, E, bool_decide_true by done. unfold handed_over. cbn [fmap list_fmap union_list foldr fst snd]. set_solver.
Qed.

(** What one round of the loop guarantees. *)
Definition step_post (v : view) (sc : Z) (raw nodeID : string) (r1 : R) : Prop :=
  exists datas from to r2 v', migrateIn true sc nodeID r1 = Ret (Ok (from, to, datas), r2) /\ hr_view r2 v' /\
    v_scores v' = add_map (v_scores v) sc raw /\ v_replicas v' = v_replicas v /\ data_ok v' /\
    (datas <> ∅ -> to = nodeID) /\ datas ⊆ v_data v from /\
    (forall id, v_data v' id = if bool_decide (id = nodeID) then v_data v id ∪ datas
                               else if bool_decide (id = from) then v_data v id ∖ datas else v_data v id).

Lemma no_move (f : string -> gset string) nodeID from : forall id : string, f id =
  if bool_decide (id = nodeID) then f id ∪ ∅ else if bool_decide (id = from) then f id ∖ ∅ else f id.
Proof. intros id. repeat case_bool_decide; set_solver. Qed.

(** The virtual node joins a score that has nodes already. *)
Lemma migrateIn_known v sc raw nodeID ids r1 :
  hr_view r1 (add_view v sc raw) -> v_scores v !! sc = Some ids -> ids <> [] -> raw ∉ ids ->
  data_ok v -> step_post v sc raw nodeID r1.
Proof.
  intros Hr Es Hne Hni Hd. assert (add_map (v_scores v) sc raw = <[sc := ids ++ [raw]]> (v_scores v)) as Ea.
  { unfold add_map. by rewrite Es, bool_decide_false. }
  exists ∅, ""%string, ""%string, r1, (add_view v sc raw).
  split; [|do 3 (split; [done|]); split; [|split; [done|]; split; [set_solver|apply no_move]]].
  - unfold migrateIn. cbn [negb]. erewrite ch_bind_ret.
    2: { unfold ch_read. rewrite (law_Node _ _ sc (ids ++ [raw]) Hr); [done|].
         simpl. by rewrite Ea, lookup_insert_eq. }
    rewrite length_app. simpl. rewrite (proj2 (Nat.ltb_lt _ _)); [done|]. destruct ids; [done|simpl; lia].
  - intros id k Hk. simpl. rewrite Ea. apply owns_append; [done|done|]. by apply Hd.
Qed.

(** The virtual node opens a new score on a ring with other scores. *)
Lemma migrateIn_new v sc raw nodeID r1 :
  hr_view r1 (add_view v sc raw) -> v_scores v !! sc = None -> 0 <= sc < MaxInt32 ->
  (exists k, is_Some (v_scores v !! k)) -> keys_ok (v_scores v) -> getNodeID raw = Ret nodeID ->
  data_ok v -> step_post v sc raw nodeID r1.
Proof.
  intros Hr Es Hsc Hne Hkeys Hraw Hd. set (M := v_scores v) in *.
  assert (add_map M sc raw = <[sc := [raw]]> M) as Ea by (unfold add_map; by rewrite Es).
  destruct (law_Floor _ _ (decrScore sc) Hr) as (last & El & Hl).
  destruct (law_Ceiling _ _ (incrScore sc) Hr) as (next & En & Hn).
  simpl in Hl, Hn. fold M in Hl, Hn. rewrite Ea in Hl, Hn.
  pose proof (last_facts M [raw] sc last next Hne Hkeys Hsc Es Hl Hn) as (Kl & Hlc).
  pose proof (next_facts M [raw] sc last next Hne Hkeys Hsc Es Hl Hn) as (Kn & Hnc).
  pose proof (key_range M sc Hkeys Es _ Kl) as [Rl Nl].
  pose proof (key_range M sc Hkeys Es _ Kn) as [Rn Nn].
  destruct Kn as [idsn Eidsn]. destruct (Hkeys _ _ Eidsn) as (_ & Hnen & Hrawn).
  destruct idsn as [|raw' restn]; [done|].
  destruct (Hrawn raw') as (from & i' & Hi' & Eraw'); [set_solver|].
  assert (getNodeID raw' = Ret from) as Hfrom by (rewrite Eraw'; by apply getNodeID_raw).
  set (tk := taken sc last). pose proof (taken_dec sc last : forall t, Decision (tk t)) as Htk.
  assert (forall t id, owns M t id -> tk t -> id = from) as Hown_taken.
  { intros t id Ho Ht. destruct (taken_owner M [raw] sc last next Hne Hkeys Hsc Es Hl Hn t Ht) as [_ Hc].
    apply (owns_unique M t); [done|]. by exists next, raw', restn. }
  assert (forall t, tk t -> owns (<[sc := [raw]]> M) t nodeID) as Hnew_owner.
  { intros t Ht. destruct (taken_owner M [raw] sc last next Hne Hkeys Hsc Es Hl Hn t Ht) as [Hc _].
    exists sc, raw, []. split; [done|]. by rewrite lookup_insert_eq. }
  assert (forall t id, owns M t id -> ~ tk t -> owns (<[sc := [raw]]> M) t id) as Hkept.
  { intros t id (r & rw & rs & Hc & Er & Hg) Ht.
    destruct (kept_owner M [raw] sc last next Hne Hkeys Hsc Es Hl Hn t r Ht Hc) as [Hc' Hrs].
    exists r, rw, rs. split; [done|]. by rewrite lookup_insert_ne. }
  set (p1 := sc <? last). set (p2 := next <? sc).
  set (last1 := if p1 then i32 (last - MaxInt32) else last).
  set (datas := filter (fun k => in_range_in p1 p2 (if p2 then i32 (last1 - MaxInt32) else last1)
                                   (if p2 then i32 (sc - MaxInt32) else sc) (Encrypt k) = true)
                  (v_data v from)).
  assert (forall k, k ∈ datas <-> k ∈ v_data v from /\ tk (Encrypt k)) as Hdatas.
  { intros k. unfold datas. rewrite elem_of_filter.
    pose proof (in_range_taken M [raw] sc last next Hne Hkeys Hsc Es Hl Hn (Encrypt k) (Encrypt_range k)) as Hir.
    cbv zeta in Hir. fold p1 p2 last1 in Hir. rewrite Hir. fold tk. tauto. }
  destruct (law_DeleteNodeToDataKeys _ _ from datas Hr) as (r2 & E2 & Hr2).
  destruct (law_AddNodeToDataKeys _ _ nodeID datas Hr2) as (r3 & E3 & Hr3). simpl in Hr3.
  eexists datas, from, nodeID, r3, _. split; [|split; [exact Hr3|]].
  - unfold migrateIn. cbn [negb].
    erewrite ch_bind_ret by (unfold ch_read; rewrite (law_Node _ _ sc [raw] Hr);
      [done|simpl; fold M; by rewrite Ea, lookup_insert_eq]).
    cbn [length Nat.ltb Nat.leb].
    erewrite ch_bind_ret by (unfold ch_read; rewrite El; done).
    rewrite (proj2 (Z.eqb_neq last (-1))), (proj2 (Z.eqb_neq last sc)) by lia. cbn [orb].
    erewrite ch_bind_ret by (unfold ch_read; rewrite En; done).
    rewrite (proj2 (Z.eqb_neq next (-1))), (proj2 (Z.eqb_neq next sc)) by lia. cbn [orb].
    erewrite ch_bind_ret by (unfold ch_read; rewrite (law_Node _ _ next (raw' :: restn) Hr);
      [done|simpl; fold M; by rewrite Ea, lookup_insert_ne]).
    cbv beta iota. erewrite ch_bind_ret by (unfold ch_of; rewrite Hfrom; done).
    erewrite ch_bind_ret by (unfold ch_read; rewrite (law_DataKeys _ _ from Hr); done).
    simpl v_data. fold p1 p2. fold last1. fold datas.
    erewrite ch_bind_ret by (unfold ch_write; exact E2).
    erewrite ch_bind_ret by (unfold ch_write; exact E3). done.
  - cbn [v_scores v_replicas v_data]. split; [done|]. split; [done|]. split.
    + intros id k Hk. cbn [v_scores v_data] in *. fold M. rewrite Ea. unfold upd in Hk.
      assert (k ∈ datas /\ id = nodeID \/ k ∈ v_data v id /\ (id = from -> id <> nodeID -> k ∉ datas)) as Hk'.
      { case_bool_decide as Ei; case_bool_decide as Ej; set_solver. }
      destruct Hk' as [[Hk1 ->]|[Hk1 Hk2]].
      * apply Hnew_owner. by apply Hdatas in Hk1 as [_ ?].
      * destruct (decide (tk (Encrypt k))) as [Ht|Ht]; [|apply Hkept; [by apply Hd|done]].
        pose proof (Hown_taken _ _ (Hd _ _ Hk1) Ht) as ->.
        destruct (decide (from = nodeID)) as [->|Hfn]; [by apply Hnew_owner|].
        exfalso. apply Hk2; [done|done|]. by apply Hdatas.
    + split; [done|]. split; [intros k Hk; by apply Hdatas in Hk as [? _]|]. intros id. unfold upd.
      repeat case_bool_decide; try congruence. subst. apply set_eq. intros k. rewrite !elem_of_union, elem_of_difference.
      destruct (decide (k ∈ datas)); tauto.
Qed.

(** The first virtual node of the ring. *)
Lemma migrateIn_first v sc raw nodeID r1 :
  hr_view r1 (add_view v sc raw) -> (forall k, v_scores v !! k = None) -> data_ok v ->
  step_post v sc raw nodeID r1.
Proof.
  intros Hr He Hd. pose proof (data_ok_empty v Hd He) as Hno.
  assert (v_scores v = ∅) as EM by (apply map_empty; exact He).
  assert (add_map (v_scores v) sc raw = {[ sc := [raw] ]}) as Ea.
  { unfold add_map. rewrite He, EM. done. }
  destruct (law_Floor _ _ (decrScore sc) Hr) as (last & El & Hl). simpl in Hl. rewrite Ea in Hl.
  assert (last = sc) as ->.
  { destruct Hl as [(Kl & _)|[(_ & Kl & _)|[E _]]].
    1,2: by apply lookup_singleton_is_Some in Kl.
    by apply map_non_empty_singleton in E. }
  exists ∅, ""%string, ""%string, r1, (add_view v sc raw).
  split; [|do 3 (split; [done|]); split; [|split; [done|]; split; [set_solver|apply no_move]]].
  - unfold migrateIn. cbn [negb].
    erewrite ch_bind_ret by (unfold ch_read; rewrite (law_Node _ _ sc [raw] Hr);
      [done|simpl; by rewrite Ea, lookup_singleton_eq]).
    cbn [length Nat.ltb Nat.leb]. erewrite ch_bind_ret by (unfold ch_read; rewrite El; done).
    by rewrite Z.eqb_refl, orb_true_r.
  - intros id k Hk. simpl in Hk. rewrite Hno in Hk. set_solver.
Qed.

Lemma add_virtual_step v r nodeID i :
  let raw := getRawNodeKey nodeID i in
  hr_view r v -> keys_ok (v_scores v) -> data_ok v -> fresh_key (v_scores v) raw -> 0 <= i ->
  exists r1, hr_Add r (Encrypt raw) raw = Ret (Ok (), r1) /\ step_post v (Encrypt raw) raw nodeID r1.
Proof.
  intros raw Hr Hkeys Hd Hfresh Hi.
  destruct (law_Add r v (Encrypt raw) raw Hr) as (r1 & E1 & Hr1). exists r1. split; [done|].
  destruct (v_scores v !! Encrypt raw) as [ids|] eqn:Es.
  - apply (migrateIn_known v _ raw nodeID ids); [done|done|by apply (Hkeys _ _ Es)| |done].
    by apply (Hfresh _ _ Es).
  - destruct (decide (v_scores v = ∅)) as [E0|E0].
    + apply migrateIn_first; [done| |done]. intros k. rewrite E0. apply lookup_empty.
    + apply map_choose in E0 as (k & ids & Ek).
      apply migrateIn_new; try done; [apply Encrypt_range|by exists k, ids|by apply getNodeID_raw].
Qed.

(** The scores with [n] more virtual nodes, from the [i]-th. *)
Fixpoint virtual_scores (n : nat) (i : Z) (nodeID : string) (M : gmap Z (list string)) : gmap Z (list string) :=
  match n with
  | O => M
  | S n => let raw := getRawNodeKey nodeID i in virtual_scores n (i + 1) nodeID (add_map M (Encrypt raw) raw)
  end.

Lemma add_replicas_spec n : forall v r nodeID i,
  hr_view r v -> keys_ok (v_scores v) -> data_ok v ->
  (forall j, i <= j -> fresh_key (v_scores v) (getRawNodeKey nodeID j)) -> 0 <= i ->
  exists tasks r' v', add_replicas true n i nodeID r = Ret (Ok tasks, r') /\ hr_view r' v' /\
    keys_ok (v_scores v') /\ v_replicas v' = v_replicas v /\ data_ok v' /\
    v_scores v' = virtual_scores n i nodeID (v_scores v) /\ migrates nodeID v tasks v'.
Proof.
  induction n as [|n IH]; intros v r nodeID i Hr Hkeys Hd Hf Hi.
  - exists [], r, v. do 6 (split; [done|]). by apply migrates_none.
  - destruct (add_virtual_step v r nodeID i Hr Hkeys Hd (Hf i ltac:(lia)) Hi)
      as (r1 & E1 & datas & from & to & r2 & v2 & E2 & Hr2 & Hs2 & Hn2 & Hd2 & Hto & Hsub & Hk2).
    destruct (IH v2 r2 nodeID (i + 1)) as (tasks & r' & v' & E' & Hr' & Hkeys' & Hn' & Hd' & Hs' & Hm'); try done.
    + rewrite Hs2. apply keys_ok_add; [done|apply Encrypt_range|done].
    + intros j Hj. rewrite Hs2. apply fresh_key_add; [apply Hf; lia|].
      intros E%getRawNodeKey_inj. lia.
    + lia.
    + exists (if bool_decide (datas = ∅) then tasks else (datas, from, to) :: tasks), r', v'.
      split; [|split; [done|]; split; [done|]; split; [congruence|]; split; [done|]; split; [by rewrite Hs', Hs2|]].
      * cbn [add_replicas]. erewrite ch_bind_ret by (unfold ch_write; exact E1).
        erewrite ch_bind_ret by exact E2. cbv beta iota. erewrite ch_bind_ret by exact E'. done.
      * case_bool_decide as Ed; [|rewrite (Hto Ed); by eapply migrates_cons].
        subst datas. destruct Hm' as [Ht Hfr Hnew]. split; [done| |].
        -- intros id Hid. destruct (Hfr id Hid) as [? ->]. by rewrite Hk2, <- no_move in *.
        -- by rewrite Hnew, Hk2, <- no_move.
Qed.

(** C26. Adding a node to the ring, with all its virtual nodes and the migrations
    they cause, succeeds and keeps every recorded data key at the node that owns
    its score, including across the wrap-around of the ring.  The ring gets exactly
    the virtual nodes, the node is registered with their number, and the tasks given
    to the migrator are what changes in the records: every task hands a non-empty
    set of keys to the new node, from a node that had them; every other node loses
    exactly the keys handed over from it, and the new node has exactly those besides
    its own. *)
Theorem AddNode_correct (o : ConsistentHashOptions) (r : R) (v : view) (nodeID : string) (weight : Z) :
  hr_view r v -> keys_ok (v_scores v) -> data_ok v -> v_replicas v !! nodeID = None ->
  (forall i, 0 <= i -> fresh_key (v_scores v) (getRawNodeKey nodeID i)) ->
  let n := i64 (getValidWeight weight * replicas o) in
  exists tasks r' v', AddNode true o nodeID weight r = Ret (Ok tasks, r') /\ hr_view r' v' /\
    keys_ok (v_scores v') /\ data_ok v' /\ v_scores v' = virtual_scores (Z.to_nat n) 0 nodeID (v_scores v) /\
    v_replicas v' = <[nodeID := n]> (v_replicas v) /\ migrates nodeID v tasks v'.
Proof.
  intros Hr Hkeys Hd Hnew Hf n.
  destruct (law_AddNodeToReplica r v nodeID n Hr) as (r1 & E1 & Hr1).
  destruct (add_replicas_spec (Z.to_nat n) _ r1 nodeID 0 Hr1 Hkeys Hd) as
    (tasks & r' & v' & E' & Hr' & Hkeys' & Hn' & Hd' & Hs' & Hm'); [auto|done|].
  exists tasks, r', v'. split; [|do 4 (split; [done|]); split; [done|]; by destruct Hm'].
  unfold AddNode. erewrite ch_bind_ret by (unfold ch_read; rewrite (law_Nodes r v Hr); done).
  rewrite bool_decide_false by (rewrite Hnew; by intros [? ?]).
  erewrite ch_bind_ret by (unfold ch_write; exact E1). exact E'.
Qed.

(** Looking a data key up on a non-empty ring returns the name of the node
    that owns the key's score (the part of its identifier before the first
    underscore, hence the identifier itself when it has none) and records the
    key there, so that recorded keys stay with their owners; on an empty ring it
    reports that no node is available. *)
Theorem GetNode_correct (r : R) (v : view) (dataKey : string) :
  hr_view r v -> keys_ok (v_scores v) -> data_ok v ->
  (v_scores v = ∅ /\ GetNode dataKey r = Ret (Err "no node available"%string, r)) \/
  exists id name r' v', GetNode dataKey r = Ret (Ok name, r') /\ hr_view r' v' /\
    owns (v_scores v) (Encrypt dataKey) id /\ (no_char underscore id = true -> name = id) /\
    v_scores v' = v_scores v /\ v_data v' id = v_data v id ∪ {[dataKey]} /\ data_ok v'.
Proof.
  intros Hr Hkeys Hd. destruct (law_Ceiling r v (Encrypt dataKey) Hr) as (c & Ec & Hc).
  unfold GetNode. erewrite ch_bind_ret by (unfold ch_read; rewrite Ec; done).
  assert (v_scores v = ∅ /\ c = -1 \/ is_Some (v_scores v !! c)) as [[E0 ->]|[ids Eids]].
  { destruct Hc as [(K & _)|[(_ & K & _)|[? ?]]]; auto. }
  { left. done. }
  right. destruct (Hkeys _ _ Eids) as (Hrange & Hne & Hraw). destruct ids as [|raw rest]; [done|].
  destruct (Hraw raw) as (id & i & Hi & Eraw); [set_solver|].
  assert (owns (v_scores v) (Encrypt dataKey) id) as Hown.
  { exists c, raw, rest. split; [done|]. split; [done|]. rewrite Eraw. by apply getNodeID_raw. }
  destruct (law_AddNodeToDataKeys r v id {[dataKey]} Hr) as (r' & E' & Hr').
  eexists id, (before_first underscore raw), r', _. split; [|split; [exact Hr'|]].
  - rewrite (proj2 (Z.eqb_neq c (-1))) by lia.
    erewrite ch_bind_ret by (unfold ch_read; rewrite (law_Node r v c (raw :: rest) Hr Eids); done).
    cbv beta iota. erewrite ch_bind_ret by (unfold ch_of; rewrite Eraw, getNodeID_raw by done; done).
    erewrite ch_bind_ret by (unfold ch_write; exact E'). done.
  - cbn [v_scores v_data]. split; [done|]. split; [intros; rewrite Eraw; by apply before_first_raw|].
    split; [done|]. unfold upd. rewrite bool_decide_true by done. split; [done|].
    intros id' k Hk. cbn [v_scores v_data] in *. case_bool_decide as Ei; [|by apply Hd].
    subst id'. apply elem_of_union in Hk as [Hk| ->%elem_of_singleton]; [by apply Hd|done].
Qed.
End add_node.

(** The murmur hasher yields scores of the ring. *)
Lemma MurmurHasher_range (Sum32 : string -> Z) (s : string) :
  0 <= MurmurHasher_Encrypt Sum32 s < MaxInt32.
Proof.
  unfold MurmurHasher_Encrypt. pose proof (Z.mod_pos_bound (Sum32 s) MaxInt32 ltac:(done)).
  rewrite i32_id; unfold MaxInt32 in *; lia.
Qed.

(** ** A concrete ring *)

Module CHSample.
(** Scores from the length of the key. *)
Definition enc : Encryptor := {| Encrypt := fun s => (7 * Z.of_nat (String.length s)) mod MaxInt32 |}.
Lemma enc_laws : @EncryptorLaws enc.
Proof. split. intros s. apply Z.mod_pos_bound. done. Qed.

Definition empty_view : view := mkView ∅ ∅ (fun _ => ∅).
Definition ring : SkiplistHashRing := NewSkiplistHashRing (fun i => i).
Lemma ring_view : hr_view ring empty_view.
Proof. split; [apply NewSkiplistHashRing_spec|done]. Qed.
Lemma empty_keys : keys_ok (v_scores empty_view).
Proof. intros k ids E. simpl in E. by apply lookup_empty_Some in E. Qed.
Lemma empty_data : @data_ok enc empty_view.
Proof. intros id k Hk. set_solver. Qed.

(** The ring of [RingSample], nodes a and b with three virtual nodes. *)
Definition full_view : view := mkView RingSample.contents ∅ (fun _ => ∅).
Lemma full_ring_view : hr_view RingSample.ring full_view.
Proof. split; [apply RingSample.ring_ok|]. split; [by vm_compute|]. intros id. by vm_compute. Qed.
Lemma full_keys : keys_ok (v_scores full_view).
Proof.
  apply (keys_ok_add _ 20 "a" 1); [|done|done]. apply (keys_ok_add _ 30 "b" 0); [|done|done].
  apply (keys_ok_add _ 10 "a" 0); [|done|done]. apply empty_keys.
Qed.
Lemma full_data : @data_ok enc full_view.
Proof. intros id k Hk. set_solver. Qed.

(** The same ring with the data key [key] recorded at its owner, node b. *)
Definition data_ring : SkiplistHashRing :=
  match hr_AddNodeToDataKeys RingSample.ring "b" {["key"%string]} with Ret (_, r) => r | Panic => RingSample.ring end.
Definition data_view : view := mkView RingSample.contents ∅ (upd (fun _ => ∅) "b" (∅ ∪ {["key"%string]})).
Lemma data_ring_view : hr_view data_ring data_view.
Proof.
  destruct (law_AddNodeToDataKeys _ _ "b" {["key"%string]} full_ring_view) as (r & E & Hr). unfold data_ring. rewrite E. exact Hr.
Qed.
Lemma data_data : @data_ok enc data_view.
Proof.
  intros id k Hk. cbn [data_view v_data] in Hk. unfold upd in Hk. case_bool_decide; [subst id|set_solver].
  assert (k = "key"%string) as -> by set_solver. exists 30, "b_0"%string, []. split; [|done].
  left. split; [by eexists|]. split; [vm_compute; discriminate|]. intros k' [ids Ek] Hk'. cbn [data_view v_scores] in Ek.
  unfold RingSample.contents in Ek. change (add_map (add_map (add_map ∅ 10 "a_0") 30 "b_0") 20 "a_1") with
    (<[20 := ["a_1"%string]]> (<[30 := ["b_0"%string]]> (<[10 := ["a_0"%string]]> (∅ : gmap Z (list string))))) in Ek.
  change (@Encrypt enc "key") with 21 in Hk'.
  apply lookup_insert_Some in Ek as [[<- _]|[_ Ek]]; [lia|]. apply lookup_insert_Some in Ek as [[<- _]|[_ Ek]]; [lia|].
  apply lookup_insert_Some in Ek as [[<- _]|[_ Ek]]; [lia|]. by rewrite lookup_empty in Ek.
Qed.
Lemma ab_fresh i : fresh_key (v_scores data_view) (getRawNodeKey "ab" i).
Proof.
  intros k ids Ek. cbn [data_view v_scores] in Ek.
  unfold RingSample.contents in Ek. change (add_map (add_map (add_map ∅ 10 "a_0") 30 "b_0") 20 "a_1") with
    (<[20 := ["a_1"%string]]> (<[30 := ["b_0"%string]]> (<[10 := ["a_0"%string]]> (∅ : gmap Z (list string))))) in Ek.
  unfold getRawNodeKey.
  apply lookup_insert_Some in Ek as [[_ <-]|[_ Ek]]; [by intros ?%list_elem_of_singleton|].
  apply lookup_insert_Some in Ek as [[_ <-]|[_ Ek]]; [by intros ?%list_elem_of_singleton|].
  apply lookup_insert_Some in Ek as [[_ <-]|[_ Ek]]; [by intros ?%list_elem_of_singleton|]. by rewrite lookup_empty in Ek.
Qed.
End CHSample.

(** A node whose one virtual node gets score 28, between 20 and 30, takes the key
    with score 21 over from node b. *)
Lemma AddNode_correct_witness :
  exists r' v',
    @AddNode _ _ CHSample.enc true (mkOpts 15 1) "ab" 1 CHSample.data_ring =
      Ret (Ok [({["key"%string]}, "b"%string, "ab"%string)], r') /\
    hr_view r' v' /\ @data_ok CHSample.enc v' /\ v_data v' "b" = ∅ /\ v_data v' "ab" = {["key"%string]} /\
    v_replicas v' = <["ab"%string := 1]> ∅.
Proof.
  destruct (@AddNode_correct _ _ _ CHSample.enc CHSample.enc_laws (mkOpts 15 1) CHSample.data_ring
           CHSample.data_view "ab" 1) as (tasks & r' & v' & E & Hr & _ & Hd & _ & Hn & [_ Hf Hto]).
  - exact CHSample.data_ring_view.
  - exact CHSample.full_keys.
  - exact CHSample.data_data.
  - reflexivity.
  - intros i _. apply CHSample.ab_fresh.
  - assert (match @AddNode _ _ CHSample.enc true (mkOpts 15 1) "ab" 1 CHSample.data_ring with
            | Ret (Ok l, _) => l | _ => [] end = [({["key"%string]}, "b"%string, "ab"%string)]) as El by (vm_compute; reflexivity).
    rewrite E in El. cbv iota in El. subst tasks. exists r', v'. split; [exact E|]. split; [exact Hr|]. split; [exact Hd|].
    destruct (Hf "b"%string) as [_ Eb]; [discriminate|]. rewrite Eb, Hto. split; [vm_compute; reflexivity|].
    split; [vm_compute; reflexivity|exact Hn].
Defined.

Lemma GetNode_correct_witness :
  (v_scores CHSample.full_view = ∅ /\
   @GetNode _ _ CHSample.enc "key" RingSample.ring = Ret (Err "no node available"%string, RingSample.ring)) \/
  exists id name r' v', @GetNode _ _ CHSample.enc "key" RingSample.ring = Ret (Ok name, r') /\
    hr_view r' v' /\ owns (v_scores CHSample.full_view) (@Encrypt CHSample.enc "key") id /\
    (no_char underscore id = true -> name = id) /\
    v_scores v' = v_scores CHSample.full_view /\
    v_data v' id = v_data CHSample.full_view id ∪ {["key"%string]} /\ @data_ok CHSample.enc v'.
Proof.
  exact (@GetNode_correct _ _ _ CHSample.enc CHSample.enc_laws RingSample.ring CHSample.full_view "key"
           CHSample.full_ring_view CHSample.full_keys CHSample.full_data).
Defined.
