(* ===== verification/Message.v ===== *)
(** * The wire format of messages ([message/])

    A message is a type name padded with zero bytes to a fixed prefix, followed
    by its content.  Proved: splitting is the inverse of merging, and the message
    types of the program fit the prefix and are told apart by it. *)

From stdpp Require Import base gmap strings list.
From Stdlib Require Import ZArith Lia.
From S2P Require Import Prelude.

Local Open Scope Z_scope.

Definition prefixMSGtypeLen : nat := 30.

(** [for i, v := range []byte(msgType) { b[i] = v }] on the rest of the buffer. *)
Fixpoint copy_type (t : list Z) (b : list Z) : outcome (list Z) :=
  match t, b with
  | [], _ => Ret b
  | v :: t, _ :: b => b' ← copy_type t b; Ret (v :: b')
  | _ :: _, [] => Panic
  end.

Definition MergeMessage (msgType content : list Z) : outcome (list Z) :=
  b ← copy_type msgType (replicate prefixMSGtypeLen 0);
  Ret (b ++ content).

Definition SplitMessage (message : list Z) : outcome (list Z * list Z) :=
  if (length message <? prefixMSGtypeLen)%nat then Panic
  else Ret (filter (fun v => v <> 0) (take prefixMSGtypeLen message), drop prefixMSGtypeLen message).

(** The message types of the program. *)
Definition message_types : list string :=
  [ "preprepare"; "prepare"; "commit"; "requestOldrequest"; "sendOldrequest"; "stop"; "relay";
    "inject"; "BlockInfo"; "SequenceID" ]%string.
Definition message_types_CLPA : list string :=
  [ "AccountState&txs"; "PartitionModifiedMap"; "ready for partition" ]%string.
Definition message_types_broker : list string :=
  [ "brokerRawTx"; "brokerConfirm1"; "brokerConfirm2"; "brokerType1"; "brokerType2";
    "InjectTx_Broker"; "BrokerTxMap"; "BrokerAS_transfer"; "innerShardTx_be_crossShard" ]%string.
Definition message_types_client : list string :=
  [ "ClientTxSend"; "ClientRequestTxProof"; "RequestAccountState"; "TxOnChainProof";
    "AccountStateForClient" ]%string.
Definition message_types_lightweight : list string :=
  [ "lightWeight_block_Broadcast"; "lightWeight_sign_Broadcast" ]%string.
Definition message_types_subMPT : list string :=
  [ "Proposer_Tx_Inject"; "Proposer_block_Broadcast"; "Proposer_Tx_Allocate";
    "Follower_Tx_Allocated"; "Follower_Tx_Verfied"; "Follower_Precessed"; "Follower_Join";
    "Proposer_RequestData"; "Proposer_AllocateData"; "Follower_ResponseData"; "Follower_Ready";
    "P_AllocFId"; "ExecuteTimeMsg" ]%string.
Definition all_types : list string :=
  message_types ++ message_types_CLPA ++ message_types_broker ++ message_types_client ++
  message_types_lightweight ++ message_types_subMPT.

Lemma copy_type_spec t : forall n,
  (length t <= n)%nat -> copy_type t (replicate n 0) = Ret (t ++ replicate (n - length t) 0).
Proof.
  induction t as [|v t IH]; intros [|n] Hn; simpl in *; try lia; try done.
  rewrite IH by lia. done.
Qed.

Lemma copy_type_long t : forall n, (n < length t)%nat -> copy_type t (replicate n 0) = Panic.
Proof.
  induction t as [|v t IH]; intros [|n] Hn; simpl in *; try lia; try done. by rewrite IH by lia.
Qed.

Lemma filter_nonzero t n :
  Forall (fun v => v <> 0) t -> filter (fun v => v <> 0) (t ++ replicate n 0) = t.
Proof.
  induction 1 as [|v t Hv Ht IH]; simpl.
  - by induction n as [|n IH]; simpl.
  - rewrite filter_cons, decide_True by done. by rewrite IH.
Qed.

Lemma merge_split t c :
  (length t <= prefixMSGtypeLen)%nat -> Forall (fun v => v <> 0) t ->
  exists m, MergeMessage t c = Ret m /\ SplitMessage m = Ret (t, c).
Proof.
  intros Ht Hz. unfold MergeMessage. rewrite copy_type_spec by done. eexists. split; [done|].
  set (b := t ++ replicate (prefixMSGtypeLen - length t) 0).
  assert (length b = prefixMSGtypeLen) as Hb.
  { unfold b. rewrite length_app, length_replicate. lia. }
  unfold SplitMessage. rewrite (proj2 (Nat.ltb_ge _ _)) by (rewrite length_app; lia).
  rewrite <- Hb. rewrite take_app_length, drop_app_length. unfold b. by rewrite filter_nonzero.
Qed.

(** Splitting a merged message gives the type and the content back, for
    every type name without zero bytes that fits the prefix; a longer name makes
    [MergeMessage] panic. *)
Theorem MergeMessage_roundtrip (t c : list Z) :
  Forall (fun v => v <> 0) t ->
  if (length t <=? prefixMSGtypeLen)%nat
  then exists m, MergeMessage t c = Ret m /\ SplitMessage m = Ret (t, c)
  else MergeMessage t c = Panic.
Proof.
  intros Hz. destruct (Nat.leb_spec (length t) prefixMSGtypeLen) as [Hle|Hgt].
  - by apply merge_split.
  - unfold MergeMessage. by rewrite copy_type_long.
Qed.

Lemma MergeMessage_roundtrip_witness :
  exists m, MergeMessage (string_bytes "inject") [1; 0; 2] = Ret m /\
    SplitMessage m = Ret (string_bytes "inject", [1; 0; 2]).
Proof.
  exact (MergeMessage_roundtrip (string_bytes "inject") [1; 0; 2] ltac:(repeat constructor; done)).
Defined.

Definition type_fits (t : string) : bool :=
  (length (string_bytes t) <=? prefixMSGtypeLen)%nat && forallb (fun v => negb (v =? 0)) (string_bytes t).

Lemma all_types_fit : forallb type_fits all_types = true.
Proof. by vm_compute. Qed.

Lemma known_type t : t ∈ all_types ->
  (length (string_bytes t) <= prefixMSGtypeLen)%nat /\ Forall (fun v => v <> 0) (string_bytes t).
Proof.
  intros Ht. pose proof all_types_fit as Hf. rewrite forallb_forall in Hf.
  assert (type_fits t = true) as [Hl Hz]%andb_true_iff by (by apply Hf, list_elem_of_In).
  split; [by apply Nat.leb_le|]. apply Forall_forall. intros v Hv.
  rewrite forallb_forall in Hz. apply list_elem_of_In, Hz in Hv. lia.
Qed.

(** Every message type the program declares survives the wire with any
    content, and no two of them are the same name, so that a receiver's dispatch
    on the split type is unambiguous. *)
Theorem message_types_dispatch (c : list Z) :
  Forall (fun t => exists m, MergeMessage (string_bytes t) c = Ret m /\
                             SplitMessage m = Ret (string_bytes t, c)) all_types /\
  NoDup all_types.
Proof.
  split.
  - apply Forall_forall. intros t [Hl Hz]%known_type. by apply merge_split.
  - apply (bool_decide_unpack _). by vm_compute.
Qed.
