(* ===== verification/Follower.v ===== *)
(** * The follower ([consensus_shard/subMPT/follower.go], [followerListen.go])

    A follower keeps the part of the account trie whose addresses its identifier
    owns, executes the transactions the proposer allocates to it, and hands
    accounts over when the set of followers changes.  The messages are those of
    [message/message_subMPT.go], with [encoding/json] behind a codec class.

    Each handler runs under the follower's mutexes, so one handler is one step.
    Proved here: what executing allocated transactions does to the ledger of one
    follower, and what an epoch does to the accounts of all followers together. *)

From stdpp Require Import base gmap strings list.
From Stdlib Require Import ZArith Lia.
From S2P Require Import Prelude Encoding TrieSpec Node Trie TrieMap Hasher Committer Reload Database Core Storage Chain Message.

Local Open Scope Z_scope.

(** ** Messages *)

(** [json.Marshal] and [json.Unmarshal]: a valid value (its strings are UTF-8, its
    times are in range) decodes to itself, also with the line feed that ends a
    frame after it. *)
Class Json (A : Type) := {
  json_Marshal : A -> option (list Z);
  json_Unmarshal : list Z -> option A;
  json_valid : A -> Prop;
  json_roundtrip : forall a, json_valid a ->
    exists b, json_Marshal a = Some b /\ json_Unmarshal (b ++ [10]) = Some a;
}.

Record Allocate_TxMsgs := mkAllocate {
  at_Txs : list Transaction;
  at_ProposerID : Z;
  at_FollowerID : Z;
  at_EpochId : Z;
}.
Record Precessed_TxMsgs := mkPrecessed {
  pt_Txs : list Transaction;
  TxHashs : list (list Z);
  Proofs : list Z;
  pt_FollowerID : Z;
  pt_EpochId : Z;
  pt_StateRoot : list Z;
}.
Record Verfying_TxMsgs := mkVerfying { TxIDs : list Z; Txroot : list Z; BlockHash : Z; BlockHeight : Z }.
Record Follower_JoinMsgs := mkJoin { Ip_port : string }.
Record P_RequestDataMsgs := mkRequestData { rq_Keys : list string }.
Record F_ResponseDataMsgs := mkResponseData { rs_Fid : Z; rs_Keys : list string; rs_Value : list AccountState }.
Record F_ReadyMsgs := mkReady { rd_Fid : Z }.
Record P_AllocateDataMsgs := mkAllocateData { ad_Keys : list string; ad_Value : list AccountState }.
Record P_AllocFidMsgs := mkAllocFid { af_Fid : Z }.
Record ExecuteTimeMsg := mkExecuteTime { et_FollowerId : Z; et_Txs : Z; Microseconds : Z }.

(** A message on its way: the address dialled and the bytes before the line feed. *)
Definition packet : Type := string * list Z.

(** Marshal, frame with the message type, and dial. *)
Definition send {A} `{Json A} (msgType : string) (m : A) (addr : string) : outcome packet :=
  b ← of_option (json_Marshal m);
  frame ← MergeMessage (string_bytes msgType) b;
  Ret (addr, frame).

(** ** Where a transaction belongs *)

(** [int(dec) % n] of the first character's hexadecimal digit, [None] when it is
    not a digit.  Both first characters are taken before either is parsed. *)
Definition route (n : Z) (tx : Transaction) : outcome (option (Z * Z)) :=
  c1 ← of_option (head (string_bytes (Sender tx)));
  c2 ← of_option (head (string_bytes (Recipient tx)));
  match hex_digit c1 with
  | None => Ret None
  | Some d1 =>
      match hex_digit c2 with
      | None => Ret None
      | Some d2 => if n =? 0 then Panic else Ret (Some (Z.rem d1 n, Z.rem d2 n))
      end
  end.

Definition set_AllocateTime (tx : Transaction) (t : time) : Transaction :=
  mkTx (Id tx) (Sender tx) (Recipient tx) (Nonce tx) (Signature tx) (Value tx) (TxHash tx)
    (Time tx) t (ExecutionTime tx) (Relayed tx) (HasBroker tx) (SenderIsBroker tx)
    (OriginalSender tx) (FinalRecipient tx) (RawTxHash tx).
Definition set_ExecutionTime (tx : Transaction) (t : time) : Transaction :=
  mkTx (Id tx) (Sender tx) (Recipient tx) (Nonce tx) (Signature tx) (Value tx) (TxHash tx)
    (Time tx) (AllocateTime tx) t (Relayed tx) (HasBroker tx) (SenderIsBroker tx)
    (OriginalSender tx) (FinalRecipient tx) (RawTxHash tx).

Section follower.
Context `{EthDB} `{FastCache} `{HashEnv} `{EthCommon} `{RLP} `{StateAccountRLP}.
Context `{Gob AccountState}.
Context `{Json Allocate_TxMsgs} `{Json Precessed_TxMsgs} `{Json P_RequestDataMsgs} `{Json F_ResponseDataMsgs}.
Context `{Json F_ReadyMsgs} `{Json P_AllocateDataMsgs} `{Json P_AllocFidMsgs} `{Json ExecuteTimeMsg}.
Context `{Json Verfying_TxMsgs} `{Json Follower_JoinMsgs}.

Record FollowerNode := mkFollower {
  FollowerID : Z;
  ProposerID : Z;
  f_ShardID : Z;
  FollowerNum : Z;
  f_triedb : Database;
  StateRoot : list Z;
  f_stop : bool;
  f_ip_nodeTable : gmap string (gmap Z string);
}.

Definition f_with_state (f : FollowerNode) (db : Database) (root : list Z) : FollowerNode :=
  mkFollower (FollowerID f) (ProposerID f) (f_ShardID f) (FollowerNum f) db root (f_stop f) (f_ip_nodeTable f).

(** [ip_nodeTable["p"][ProposerID]]: the empty string when it is missing. *)
Definition proposer_addr (f : FollowerNode) : string :=
  default "" (f_ip_nodeTable f !! "p"%string ≫= (fun t => t !! ProposerID f)).

(** The follower's start, on the address book and follower count of the
    configuration and an opened disk.  A follower that joins has found a free
    address and announces it to the proposer. *)
Definition NewFollowerNode (sID pID fID followerNum : Z) (table : gmap string (gmap Z string))
  (join : option string) (db : disk) : outcome (FollowerNode * list packet) :=
  let tdb := NewDatabaseWithConfig db (Some (mkConfig 0 "" true)) in
  let f rt := mkFollower fID pID sID followerNum tdb rt false table in
  ps ← (match join with
        | Some ip => p ← send "Follower_Join" (mkJoin ip) (proposer_addr (f [])); Ret [p]
        | None => Ret []
        end);
  statusTrie ← NewEmpty tdb;
  '(rt, _) ← Hash statusTrie;
  Ret (f rt, ps).

(** ** Executing transactions *)

(** One transaction: [false] when it is skipped. *)
Definition process_tx (f : FollowerNode) (i : nat) (tx : Transaction) (st : Trie) : outcome (bool * Trie) :=
  r ← route (FollowerNum f) tx;
  match r with
  | None => Ret (false, st)
  | Some (destId1, destId2) =>
      '(skip, st) ← (if u64 destId1 =? FollowerID f then
          '(s, st) ← read_account st (Sender tx) i;
          if Balance s <? Value tx then Ret (true, st)
          else st ← put st (string_bytes (Sender tx)) (AS_Encode (Deduct s (Value tx)).2); Ret (false, st)
        else Ret (false, st) : outcome (bool * Trie));
      if (skip : bool) then Ret (false, st)
      else
        st ← (if u64 destId2 =? FollowerID f then
                '(s, st) ← read_account st (Recipient tx) i;
                put st (string_bytes (Recipient tx)) (AS_Encode (Deposit s (Value tx)))
              else Ret st);
        Ret (true, st)
  end.

(** The hashes of the executed transactions, and the transactions with their
    execution times. *)
Fixpoint process_loop (f : FollowerNode) (exec : nat -> time) (i : nat) (txs : list Transaction) (st : Trie)
  : outcome (list (list Z) * list Transaction * Trie) :=
  match txs with
  | [] => Ret ([], [], st)
  | tx :: txs =>
      '(ok, st) ← process_tx f i tx st;
      '(hs, out, st) ← process_loop f exec (S i) txs st;
      Ret (if (ok : bool) then (TxHash tx :: hs, set_ExecutionTime tx (exec i) :: out, st)
           else (hs, tx :: out, st))
  end.

(** [allocs] and [exec] are the clock readings, [micros] the measured time. *)
Definition ProcessTxs (f : FollowerNode) (msg : Allocate_TxMsgs) (allocs exec : nat -> time) (micros : Z)
  : outcome (list (list Z) * list Transaction * FollowerNode * list packet) :=
  match at_Txs msg with
  | [] => Ret ([], [], f, [])
  | _ =>
      st ← open_trie (f_triedb f) (BytesToHash (StateRoot f));
      let txs := imap (fun i tx => set_AllocateTime tx (allocs i)) (at_Txs msg) in
      '(hs, out, st) ← process_loop f exec 0 txs st;
      p ← send "ExecuteTimeMsg" (mkExecuteTime (FollowerID f) (Z.of_nat (length txs)) micros) (proposer_addr f);
      '(rt, db) ← store_trie (f_triedb f) st (fun rt => rt);
      Ret (hs, out, f_with_state f db rt, [p])
  end.

(** ** Handlers *)

Definition handleAllocatedTxs (f : FollowerNode) (content : list Z) (allocs exec : nat -> time) (micros : Z)
  : outcome (FollowerNode * list packet) :=
  TxsMsg ← of_option (json_Unmarshal content : option Allocate_TxMsgs);
  '(hs, out, f, ps) ← ProcessTxs f TxsMsg allocs exec micros;
  p ← send "Follower_Precessed" (mkPrecessed out hs [] (FollowerID f) (at_EpochId TxsMsg) (StateRoot f)) (proposer_addr f);
  Ret (f, ps ++ [p]).

(** The error of [trie.New] is dropped: on a nil trie the first lookup panics. *)
Definition handleProposerRequest (f : FollowerNode) (content : list Z) : outcome (list packet) :=
  ReqMsg ← of_option (json_Unmarshal content : option P_RequestDataMsgs);
  r ← New (TrieID (BytesToHash (StateRoot f))) (GetReader (f_triedb f));
  acs ← (match r with
         | Ok st => fetch_loop st (rq_Keys ReqMsg)
         | Err _ => match rq_Keys ReqMsg with [] => Ret [] | _ => Panic end
         end);
  p ← send "Follower_ResponseData" (mkResponseData (FollowerID f) (rq_Keys ReqMsg) acs) (proposer_addr f);
  Ret [p].

Fixpoint store_loop (keys : list string) (vals : list AccountState) (st : Trie) : outcome Trie :=
  match keys with
  | [] => Ret st
  | key :: keys =>
      v ← of_option (head vals);
      st ← put st (string_bytes key) (AS_Encode v);
      store_loop keys (tail vals) st
  end.

(** A nil trie panics here in any case, at the latest in [Commit]. *)
Definition handleProposerAllocateData (f : FollowerNode) (content : list Z) : outcome (FollowerNode * list packet) :=
  AllocMsg ← of_option (json_Unmarshal content : option P_AllocateDataMsgs);
  st ← open_trie (f_triedb f) (BytesToHash (StateRoot f));
  st ← store_loop (ad_Keys AllocMsg) (ad_Value AllocMsg) st;
  '(rt, db) ← store_trie (f_triedb f) st (fun rt => rt);
  let f := f_with_state f db rt in
  p ← send "Follower_Ready" (mkReady (FollowerID f)) (proposer_addr f);
  Ret (f, [p]).

Definition handleProposerAllocateFID (f : FollowerNode) (content : list Z) : outcome FollowerNode :=
  AllocMsg ← of_option (json_Unmarshal content : option P_AllocFidMsgs);
  Ret (mkFollower (af_Fid AllocMsg) (ProposerID f) (f_ShardID f) (FollowerNum f) (f_triedb f) (StateRoot f)
         (f_stop f) (f_ip_nodeTable f)).

Definition closeFollowerNode (f : FollowerNode) : FollowerNode :=
  mkFollower (FollowerID f) (ProposerID f) (f_ShardID f) (FollowerNum f) (f_triedb f) (StateRoot f)
    true (f_ip_nodeTable f).

(** [VerfyingTxs] is empty. *)
Definition handleVerifyTxs (f : FollowerNode) (content : list Z) : outcome FollowerNode :=
  _ ← of_option (json_Unmarshal content : option Verfying_TxMsgs); Ret f.

(** The dispatch on the message type. *)
Definition f_handleMessage (f : FollowerNode) (msg : list Z) (allocs exec : nat -> time) (micros : Z)
  : outcome (FollowerNode * list packet) :=
  '(msgType, content) ← SplitMessage msg;
  let type_is t := bool_decide (msgType = string_bytes t) in
  if type_is "Proposer_Tx_Allocate"%string then handleAllocatedTxs f content allocs exec micros
  else if type_is "Follower_Tx_Verfied"%string then f ← handleVerifyTxs f content; Ret (f, [])
  else if type_is "stop"%string then Ret (closeFollowerNode f, [])
  else if type_is "Proposer_RequestData"%string then ps ← handleProposerRequest f content; Ret (f, ps)
  else if type_is "Proposer_AllocateData"%string then handleProposerAllocateData f content
  else if type_is "P_AllocFId"%string then f ← handleProposerAllocateFID f content; Ret (f, [])
  else Ret (f, []).

(** A frame read from a connection; a stopped follower leaves the loop. *)
Definition f_preHandleMessageRequest (f : FollowerNode) (frame : list Z) (allocs exec : nat -> time) (micros : Z)
  : outcome (FollowerNode * list packet) :=
  if f_stop f then Ret (f, []) else f_handleMessage f frame allocs exec micros.
End follower.

(** ** Delivery *)

(** A packet that reaches its reader as the message [m] under the type [t]: the
    frame comes with a line feed after it. *)
Definition carries {A} `{Json A} (t : string) (m : A) (frame : list Z) : Prop :=
  exists b, SplitMessage (frame ++ [10]) = Ret (string_bytes t, b ++ [10]) /\ json_Unmarshal (b ++ [10]) = Some m.

Lemma MergeMessage_app t c d m : MergeMessage t c = Ret m -> MergeMessage t (c ++ d) = Ret (m ++ d).
Proof.
  unfold MergeMessage. intros (b & -> & [= <-])%outcome_bind_Ret. go_ret. by rewrite <- (assoc (++)).
Qed.

Lemma send_spec {A} `{Json A} t (m : A) addr :
  json_valid m -> t ∈ all_types -> exists frame, send t m addr = Ret (addr, frame) /\ carries t m frame.
Proof.
  intros Hv Ht. destruct (json_roundtrip m Hv) as (b & Eb & Ed). unfold send. rewrite Eb. cbn [of_option]. go_ret.
  destruct (known_type t Ht) as [Hlen Hnz].
  destruct (merge_split (string_bytes t) b Hlen Hnz) as (frame & Em & _). rewrite Em. go_ret.
  exists frame. split; [done|]. exists b. split; [|done].
  destruct (merge_split (string_bytes t) (b ++ [10]) Hlen Hnz) as (frame' & Em' & Es).
  rewrite (MergeMessage_app _ _ _ _ Em) in Em'. by injection Em' as <-.
Qed.

(** The frame of a message. *)
Definition frame_of {A} `{Json A} (t : string) (m : A) : list Z :=
  match send t m "" with Ret pk => pk.2 | Panic => [] end.

Lemma send_frame {A} `{Json A} t (m : A) addr : json_valid m -> t ∈ all_types ->
  send t m addr = Ret (addr, frame_of t m) /\ carries t m (frame_of t m).
Proof.
  intros Hv Ht. destruct (send_spec t m "" Hv Ht) as (f & E & Hc). unfold frame_of. rewrite E. split; [|done].
  revert E. unfold send. destruct (json_Marshal m) as [b|]; [|done]. cbn [of_option]. go_ret.
  destruct (MergeMessage _ _) as [fr|]; [|done]. go_ret. by intros [= ->].
Qed.

(** ** What a follower does to balances *)

(** The follower that owns an address, when its first character is a digit. *)
Definition owner (n : Z) (a : Address) : option Z :=
  c ← head (string_bytes a); d ← hex_digit c; Some (Z.rem d n).

(** The followers of a transaction's two accounts. *)
Definition lanes (n : Z) (tx : Transaction) : option (Z * Z) :=
  d1 ← owner n (Sender tx); d2 ← owner n (Recipient tx); Some (d1, d2).

Definition addressed (tx : Transaction) : Prop := Sender tx <> ""%string /\ Recipient tx <> ""%string.

Lemma string_bytes_head a : a <> ""%string -> exists c, head (string_bytes a) = Some c.
Proof. destruct a as [|c a]; [done|by eexists]. Qed.

Lemma route_spec n tx : n <> 0 -> addressed tx -> route n tx = Ret (lanes n tx).
Proof.
  intros Hn [Hs Hr]. destruct (string_bytes_head _ Hs) as [c1 E1], (string_bytes_head _ Hr) as [c2 E2].
  unfold route, lanes, owner. rewrite E1, E2. simpl. rewrite (proj2 (Z.eqb_neq _ _) Hn).
  by destruct (hex_digit c1); [destruct (hex_digit c2)|].
Qed.

Lemma hex_digit_range c d : hex_digit c = Some d -> 0 <= d < 16.
Proof. unfold hex_digit. repeat case_match; intros; simplify_eq; rewrite ?andb_true_iff, ?Z.leb_le in *; lia. Qed.

Lemma owner_range n a d : 0 < n -> owner n a = Some d -> 0 <= d < n /\ d < 16.
Proof.
  unfold owner. destruct (head (string_bytes a)) as [c|]; [|done]. simpl.
  destruct (hex_digit c) as [x|] eqn:E; [|done]. intros Hn [= <-]. pose proof (hex_digit_range c x E).
  rewrite Z.rem_mod_nonneg by lia. pose proof (Z.mod_pos_bound x n Hn). pose proof (Z.mod_le x n). lia.
Qed.

(** The elements with a positive verdict. *)
Fixpoint chosen {A} (vs : list bool) (l : list A) : list A :=
  match vs, l with
  | v :: vs, x :: l => if v then x :: chosen vs l else chosen vs l
  | _, _ => []
  end.

Section effect.
Context (n k : Z).

(** One transaction at follower [k] of [n], and a list of them: the verdicts and
    the balances. *)
Definition f_step (tx : Transaction) (B : Address -> Z) : bool * (Address -> Z) :=
  match lanes n tx with
  | None => (false, B)
  | Some (d1, d2) =>
      if (d1 =? k) && (B (Sender tx) <? Value tx) then (false, B)
      else
        let B1 := if d1 =? k then set_bal B (Sender tx) (B (Sender tx) - Value tx) else B in
        (true, if d2 =? k then set_bal B1 (Recipient tx) (B1 (Recipient tx) + Value tx) else B1)
  end.

Fixpoint f_run (txs : list Transaction) (B : Address -> Z) : list bool * (Address -> Z) :=
  match txs with
  | [] => ([], B)
  | tx :: txs => let s := f_step tx B in let r := f_run txs s.2 in (s.1 :: r.1, r.2)
  end.

(** The same on the encoded accounts. *)
Context `{Gob AccountState}.

Definition map_step (i : nat) (tx : Transaction) (m : gmap (list Z) (list Z)) : bool * gmap (list Z) (list Z) :=
  match lanes n tx with
  | None => (false, m)
  | Some (d1, d2) =>
      let s := account_at m (Sender tx) i in
      if (d1 =? k) && (Balance s <? Value tx) then (false, m)
      else
        let m1 := if d1 =? k then map_update m (string_bytes (Sender tx)) (AS_Encode (Deduct s (Value tx)).2) else m in
        (true, if d2 =? k then
                 map_update m1 (string_bytes (Recipient tx)) (AS_Encode (Deposit (account_at m1 (Recipient tx) i) (Value tx)))
               else m1)
  end.

Fixpoint f_ledger (i : nat) (txs : list Transaction) (m : gmap (list Z) (list Z)) : gmap (list Z) (list Z) :=
  match txs with
  | [] => m
  | tx :: txs => f_ledger (S i) txs (map_step i tx m).2
  end.
End effect.

Lemma f_step_ext n k tx B B' : (forall a, B a = B' a) ->
  (f_step n k tx B).1 = (f_step n k tx B').1 /\ forall a, (f_step n k tx B).2 a = (f_step n k tx B').2 a.
Proof.
  intros HB. unfold f_step. destruct (lanes n tx) as [[d1 d2]|]; [|done]. rewrite !(HB (Sender tx)).
  destruct (_ && _); [done|]. split; [done|]. intros a. unfold set_bal.
  destruct (d2 =? k), (d1 =? k); cbn [snd]; repeat case_decide; rewrite ?HB; try done; congruence.
Qed.

Lemma f_run_ext n k txs : forall B B', (forall a, B a = B' a) ->
  (f_run n k txs B).1 = (f_run n k txs B').1 /\ forall a, (f_run n k txs B).2 a = (f_run n k txs B').2 a.
Proof.
  induction txs as [|tx txs IH]; intros B B' HB; [done|]. cbn [f_run fst snd].
  destruct (f_step_ext n k tx B B' HB) as [-> Hs]. destruct (IH _ _ Hs) as [-> Hr]. done.
Qed.

(** ** The follower's ledger *)

Section correct.
Context `{EthDB} `{FastCache} `{RLPLaws} `{EthCommon} `{!HashLaws} `{!CollisionFree}.
Context `{!EthDBLaws} `{StateAccountRLP} `{Gob AccountState}.
Context `{Json Allocate_TxMsgs} `{Json Precessed_TxMsgs} `{Json P_RequestDataMsgs} `{Json F_ResponseDataMsgs}.
Context `{Json F_ReadyMsgs} `{Json P_AllocateDataMsgs} `{Json P_AllocFidMsgs} `{Json ExecuteTimeMsg}.
Context `{Json Verfying_TxMsgs} `{Json Follower_JoinMsgs}.

Lemma map_step_spec n k i tx m : ledger m ->
  ledger (map_step n k i tx m).2 /\ (map_step n k i tx m).1 = (f_step n k tx (balance m)).1 /\
  forall a, balance (map_step n k i tx m).2 a = (f_step n k tx (balance m)).2 a.
Proof.
  intros Hm. unfold map_step, f_step. destruct (lanes n tx) as [[d1 d2]|]; [|done].
  rewrite account_at_balance by done. destruct (d1 =? k) eqn:E1; simpl andb.
  - destruct (balance m (Sender tx) <? Value tx) eqn:Ev; [done|]. cbn [fst snd].
    set (m1 := map_update m (string_bytes (Sender tx)) _).
    assert (ledger m1) as Hm1 by apply ledger_put, Hm.
    assert (forall a, balance m1 a = set_bal (balance m) (Sender tx) (balance m (Sender tx) - Value tx) a) as HB1.
    { intros a. unfold m1. rewrite balance_put, Deduct_balance, account_at_balance, Ev by done. done. }
    destruct (d2 =? k); [|done]. split; [by apply ledger_put|]. split; [done|]. intros a.
    rewrite balance_put. cbn [Deposit set_balance Balance]. rewrite account_at_balance by done.
    unfold set_bal at 1. case_decide; [|apply HB1]. by rewrite HB1.
  - cbn [fst snd]. destruct (d2 =? k); [|done]. split; [by apply ledger_put|]. split; [done|]. intros a.
    rewrite balance_put. cbn [Deposit set_balance Balance]. by rewrite account_at_balance.
Qed.

Lemma f_ledger_spec n k txs : forall i m, ledger m ->
  ledger (f_ledger n k i txs m) /\ forall a, balance (f_ledger n k i txs m) a = (f_run n k txs (balance m)).2 a.
Proof.
  induction txs as [|tx txs IH]; intros i m Hm; [done|]. cbn [f_ledger f_run snd].
  destruct (map_step_spec n k i tx m Hm) as (Hm' & _ & HB). destruct (IH (S i) _ Hm') as [Hl Hb].
  split; [done|]. intros a. rewrite Hb. by apply f_run_ext.
Qed.

Lemma process_tx_spec f db pt0 i tx st m :
  0 < FollowerNum f -> addressed tx -> trie_on db pt0 st m -> ledger m ->
  exists st', process_tx f i tx st = Ret ((map_step (FollowerNum f) (FollowerID f) i tx m).1, st') /\
    trie_on db pt0 st' (map_step (FollowerNum f) (FollowerID f) i tx m).2.
Proof.
  intros Hn Ha Ht Hm. unfold process_tx, map_step. rewrite route_spec by (done || lia). go_ret. cbv beta iota.
  destruct (lanes (FollowerNum f) tx) as [[d1 d2]|] eqn:El; [|by exists st].
  assert (u64 d1 = d1 /\ u64 d2 = d2) as [-> ->].
  { unfold lanes in El. destruct (owner _ (Sender tx)) eqn:E1; [|done]. simpl in El.
    destruct (owner _ (Recipient tx)) eqn:E2; [|done]. simplify_eq/=.
    apply owner_range in E1, E2; [|done..]. split; apply wrap_u_small; unfold is_u; lia. }
  set (m1 := if d1 =? FollowerID f then _ else m).
  assert (exists skip st1, (if d1 =? FollowerID f then
          '(s, st) ← read_account st (Sender tx) i;
          if Balance s <? Value tx then Ret (true, st)
          else st ← put st (string_bytes (Sender tx)) (AS_Encode (Deduct s (Value tx)).2); Ret (false, st)
        else Ret (false, st)) = Ret (skip, st1) /\
      skip = (d1 =? FollowerID f) && (Balance (account_at m (Sender tx) i) <? Value tx) /\
      trie_on db pt0 st1 (if skip then m else m1) /\ ledger m1) as (skip & st1 & E1 & Es & Ht1 & Hm1).
  { unfold m1. clear m1. destruct (d1 =? FollowerID f); [|by exists false, st].
    destruct (read_account_spec db pt0 st m (Sender tx) i Ht Hm) as (st1 & E1 & Ht1). rewrite E1. go_ret. cbv beta iota.
    case_match; [exists true, st1; split; [done|split; [done|split; [done|by apply ledger_put]]]|].
    destruct (put_spec db pt0 st1 m (string_bytes (Sender tx)) (AS_Encode (Deduct (account_at m (Sender tx) i) (Value tx)).2)
                Ht1 (string_bytes_bytes _)) as (st2 & E2 & Ht2). rewrite E2. go_ret.
    exists false, st2. split; [done|]. split; [done|]. split; [done|by apply ledger_put]. }
  rewrite E1. go_ret. cbv beta iota. rewrite <- Es. destruct skip; [by exists st1|]. cbn [fst snd].
  destruct (d2 =? FollowerID f); [|by exists st1].
  destruct (read_account_spec db pt0 st1 m1 (Recipient tx) i Ht1 Hm1) as (st2 & E2 & Ht2). rewrite E2. go_ret. cbv beta iota.
  destruct (put_spec db pt0 st2 m1 (string_bytes (Recipient tx)) (AS_Encode (Deposit (account_at m1 (Recipient tx) i) (Value tx)))
              Ht2 (string_bytes_bytes _)) as (st3 & E3 & Ht3). rewrite E3. go_ret. by exists st3.
Qed.

(** A transaction without the times a follower stamps on it. *)
Definition untimed (tx : Transaction) : Transaction := set_ExecutionTime (set_AllocateTime tx 0) 0.

Lemma process_loop_spec f exec db pt0 txs : forall i st m,
  0 < FollowerNum f -> Forall addressed txs -> trie_on db pt0 st m -> ledger m ->
  let n := FollowerNum f in let k := FollowerID f in
  exists out st', process_loop f exec i txs st = Ret (TxHash <$> chosen (f_run n k txs (balance m)).1 txs, out, st') /\
    trie_on db pt0 st' (f_ledger n k i txs m) /\ untimed <$> out = untimed <$> txs /\
    Forall2 (fun tx tx' => tx' = tx \/ exists j, tx' = set_ExecutionTime tx (exec j)) txs out.
Proof.
  induction txs as [|tx txs IH]; intros i st m Hn Ha Ht Hm; cbv zeta; [by exists [], st|].
  apply Forall_cons_1 in Ha as [Hax Has]. cbn [process_loop f_run f_ledger chosen fst snd].
  destruct (process_tx_spec f db pt0 i tx st m Hn Hax Ht Hm) as (st1 & E1 & Ht1). rewrite E1. go_ret. cbv beta iota.
  destruct (map_step_spec (FollowerNum f) (FollowerID f) i tx m Hm) as (Hm1 & Ev & HB).
  destruct (IH (S i) st1 _ Hn Has Ht1 Hm1) as (out & st2 & E2 & Ht2 & Eo & Ho). rewrite E2. go_ret. cbv beta iota.
  rewrite (proj1 (f_run_ext _ _ txs _ _ HB)), Ev.
  destruct (f_step _ _ tx (balance m)).1.
  - eexists _, st2. split; [done|]. split; [done|]. split; [cbn [fmap list_fmap]; by rewrite <- Eo|].
    constructor; [right; by eexists|done].
  - eexists _, st2. split; [done|]. split; [done|]. split; [cbn [fmap list_fmap]; by rewrite <- Eo|].
    constructor; [by left|done].
Qed.

Definition stamped (allocs : nat -> time) (txs : list Transaction) : list Transaction :=
  imap (fun i tx => set_AllocateTime tx (allocs i)) txs.

Lemma stamped_run n k txs : forall allocs B, f_run n k (stamped allocs txs) B = f_run n k txs B.
Proof.
  unfold stamped. induction txs as [|tx txs IH]; intros allocs B; [done|]. cbn [imap f_run].
  change (f_step n k (set_AllocateTime tx (allocs 0%nat)) B) with (f_step n k tx B).
  by rewrite (IH (allocs ∘ S)).
Qed.

Lemma stamped_ledger n k txs : forall allocs i m, f_ledger n k i (stamped allocs txs) m = f_ledger n k i txs m.
Proof.
  unfold stamped. induction txs as [|tx txs IH]; intros allocs i m; [done|]. cbn [imap f_ledger].
  change (map_step n k i (set_AllocateTime tx (allocs 0%nat)) m) with (map_step n k i tx m). apply (IH (allocs ∘ S)).
Qed.

Lemma stamped_hashes vs txs : forall allocs, TxHash <$> chosen vs (stamped allocs txs) = TxHash <$> chosen vs txs.
Proof.
  unfold stamped. revert vs. induction txs as [|tx txs IH]; intros [|v vs] allocs; try done. cbn [imap chosen].
  destruct v; [cbn [fmap list_fmap]; f_equal|]; apply (IH vs (allocs ∘ S)).
Qed.

Lemma stamped_untimed txs : forall allocs, untimed <$> stamped allocs txs = untimed <$> txs.
Proof.
  unfold stamped. induction txs as [|tx txs IH]; intros allocs; [done|]. cbn [imap fmap list_fmap].
  f_equal. apply (IH (allocs ∘ S)).
Qed.

Lemma stamped_addressed txs : forall allocs, Forall addressed txs -> Forall addressed (stamped allocs txs).
Proof.
  unfold stamped. induction txs as [|tx txs IH]; intros allocs Ha; [done|]. apply Forall_cons_1 in Ha as [Hx Ha].
  cbn [imap]. constructor; [done|by apply (IH (allocs ∘ S))].
Qed.

(** The follower's trie stores the ledger [m]. *)
Record follower_state (f : FollowerNode) (m : gmap (list Z) (list Z)) : Prop := {
  fs_inv : db_inv (f_triedb f);
  fs_at : state_at (f_triedb f) (BytesToHash (StateRoot f)) m;
  fs_ledger : ledger m;
}.

Lemma follower_moved f db' rt m :
  moved_to (f_triedb f) db' rt m -> ledger m -> follower_state (f_with_state f db' rt) m.
Proof.
  intros [Hi Ha _] Hm. split; cbn [f_with_state f_triedb StateRoot]; [done| |done].
  by rewrite BytesToHash_id by (by eapply root_length).
Qed.

(** A start on an empty disk or an old one: the follower begins with no account. *)
Lemma NewFollowerNode_spec sID pID fID num table db :
  db_inv db ->
  exists f, NewFollowerNode sID pID fID num table None (diskdb db) = Ret (f, []) /\ follower_state f ∅ /\
    FollowerID f = fID /\ FollowerNum f = num.
Proof.
  intros [L Hok]. unfold NewFollowerNode. cbv zeta. go_ret. set (tdb := NewDatabaseWithConfig _ _).
  assert (db_inv tdb) as Hi by (exists []; apply (restarted_ok db L); [done|simpl; lia]).
  destruct (NewEmpty_spec tdb) as (t & Et & Ht). rewrite Et. go_ret.
  destruct (Hash_empty tdb t Ht) as (t' & Eh). rewrite Eh. go_ret. eexists. split; [done|].
  split; [|done]. split; cbn [f_triedb StateRoot]; [done| |by intros k v E].
  rewrite BytesToHash_id by (rewrite EmptyRootHash_keccak; apply keccak256_length). apply state_at_empty.
Qed.

(** Which values JSON carries: transactions whose strings are UTF-8 and whose
    times are in range, and plain numbers always. *)
Class JsonLaws := {
  tx_json : Transaction -> Prop;
  time_json : time -> Prop;
  tx_json_alloc : forall tx t, tx_json tx -> time_json t -> tx_json (set_AllocateTime tx t);
  tx_json_exec : forall tx t, tx_json tx -> time_json t -> tx_json (set_ExecutionTime tx t);
  json_allocate : forall m : Allocate_TxMsgs, Forall tx_json (at_Txs m) -> json_valid m;
  json_precessed : forall m : Precessed_TxMsgs, Forall tx_json (pt_Txs m) -> json_valid m;
  json_execute_time : forall m : ExecuteTimeMsg, json_valid m;
}.
Context `{!JsonLaws}.

Lemma stamped_json txs : forall allocs,
  (forall j, time_json (allocs j)) -> Forall tx_json txs -> Forall tx_json (stamped allocs txs).
Proof.
  unfold stamped. induction txs as [|tx txs IH]; intros allocs Hc Ha; [done|]. apply Forall_cons_1 in Ha as [Hx Ha].
  cbn [imap]. constructor; [by apply tx_json_alloc|]. apply (IH (allocs ∘ S)); [|done]. intros j. apply Hc.
Qed.

(** The follower after executing [txs], or the panic when nothing changes. *)
Definition executed (f f' : FollowerNode) (m : gmap (list Z) (list Z)) (txs : list Transaction) : Prop :=
  exists db rt, f' = f_with_state f db rt /\
    follower_state f' (f_ledger (FollowerNum f) (FollowerID f) 0 txs m) /\ keeps (f_triedb f) db.

Lemma ProcessTxs_spec f m msg allocs exec micros :
  disk_works -> follower_state f m -> 0 < FollowerNum f -> Forall addressed (at_Txs msg) ->
  Forall tx_json (at_Txs msg) -> (forall j, time_json (allocs j)) -> (forall j, time_json (exec j)) ->
  let n := FollowerNum f in let k := FollowerID f in let txs := at_Txs msg in
  (exists out f' ps, ProcessTxs f msg allocs exec micros =
       Ret (TxHash <$> chosen (f_run n k txs (balance m)).1 txs, out, f', ps) /\
     executed f f' m txs /\ untimed <$> out = untimed <$> txs /\ Forall tx_json out) \/
  (ProcessTxs f msg allocs exec micros = Panic /\ f_ledger n k 0 txs m = m).
Proof.
  intros Hw Hf Hn Ha Hj Hca Hce. cbv zeta. unfold ProcessTxs.
  destruct (at_Txs msg) as [|tx0 txs0] eqn:Etxs.
  { left. exists [], f, []. split; [done|]. split; [|done]. exists (f_triedb f), (StateRoot f).
    split; [by destruct f|]. split; [done|apply keeps_refl]. }
  rewrite <- Etxs in *. clear tx0 txs0 Etxs. set (txs := at_Txs msg) in *. destruct Hf as [Hi Hat Hm].
  destruct (open_trie_spec (f_triedb f) (BytesToHash (StateRoot f)) m Hi Hat) as (pt & st & Eo & Ht & Hh).
  rewrite Eo. go_ret. cbv zeta. change (imap _ txs) with (stamped allocs txs).
  destruct (process_loop_spec f exec (f_triedb f) pt (stamped allocs txs) 0 st m Hn (stamped_addressed _ _ Ha) Ht Hm)
    as (out & st' & El & Ht' & Eout & Hout). cbv zeta in El. rewrite El. go_ret. cbv beta iota.
  rewrite stamped_run, stamped_hashes. rewrite stamped_ledger in Ht'. rewrite stamped_untimed in Eout.
  destruct (send_spec "ExecuteTimeMsg" (mkExecuteTime (FollowerID f) (Z.of_nat (length (stamped allocs txs))) micros)
              (proposer_addr f)) as (fr & Es & _); [apply json_execute_time|set_solver|].
  rewrite Es. go_ret.
  destruct (f_ledger_spec (FollowerNum f) (FollowerID f) txs 0 m Hm) as [Hl _].
  destruct (store_new_root (f_triedb f) pt st' m _ Hw Hi Ht' Hh) as [(rt & db' & Est & Hmv & _)|[Est Hsame]]; rewrite Est.
  - left. go_ret. eexists out, _, _. split; [done|]. split; [|split; [done|]].
    + exists db', rt. split; [done|]. split; [by apply follower_moved|by destruct Hmv].
    + apply Forall_forall. intros x (i & Hx)%list_elem_of_lookup.
      destruct (Forall2_lookup_r _ _ _ _ _ Hout Hx) as (y & Hy & Hyx).
      pose proof (stamped_json txs allocs Hca Hj) as Hs. rewrite Forall_forall in Hs.
      specialize (Hs y (list_elem_of_lookup_2 _ _ _ Hy)). destruct Hyx as [->|[j ->]]; [done|by apply tx_json_exec].
  - right. done.
Qed.

(** C4. A follower that receives the proposer's allocation message executes its
    transactions: each transfer whose sender it owns is refused exactly when the
    sender cannot pay, every other one moves its value in the accounts the
    follower owns, the trie then stores the resulting ledger, and the answer to
    the proposer names exactly the executed transactions and the new root.  The
    only failure is the panic of an allocation that changes no account. *)
Theorem follower_answers (f : FollowerNode) (m : gmap (list Z) (list Z)) (msg : Allocate_TxMsgs) (frame : list Z)
  (allocs exec : nat -> time) (micros : Z) :
  disk_works -> follower_state f m -> 0 < FollowerNum f -> f_stop f = false -> Forall addressed (at_Txs msg) ->
  Forall tx_json (at_Txs msg) -> (forall j, time_json (allocs j)) -> (forall j, time_json (exec j)) ->
  carries "Proposer_Tx_Allocate" msg frame ->
  let n := FollowerNum f in let k := FollowerID f in let txs := at_Txs msg in
  let m' := f_ledger n k 0 txs m in
  (forall a, balance m' a = (f_run n k txs (balance m)).2 a) /\
  ((exists f' ps out reply, f_preHandleMessageRequest f (frame ++ [10]) allocs exec micros =
       Ret (f', ps ++ [(proposer_addr f, reply)]) /\ follower_state f' m' /\
     untimed <$> out = untimed <$> txs /\
     carries "Follower_Precessed"
       (mkPrecessed out (TxHash <$> chosen (f_run n k txs (balance m)).1 txs) [] k (at_EpochId msg) (StateRoot f')) reply) \/
   (f_preHandleMessageRequest f (frame ++ [10]) allocs exec micros = Panic /\ m' = m)).
Proof.
  intros Hw Hf Hn Hstop Ha Hj Hca Hce (b & Esp & Ej). cbv zeta.
  split; [apply f_ledger_spec; by destruct Hf|].
  unfold f_preHandleMessageRequest, f_handleMessage. rewrite Hstop, Esp. go_ret. cbv beta iota zeta.
  rewrite bool_decide_true by done. unfold handleAllocatedTxs. rewrite Ej. cbn [of_option]. go_ret.
  destruct (ProcessTxs_spec f m msg allocs exec micros Hw Hf Hn Ha Hj Hca Hce)
    as [(out & f' & ps & E & (db & rt & -> & Hf' & _) & Eo & Hjo)|[E Hsame]]; rewrite E; [left|by right].
  go_ret. cbv beta iota.
  destruct (send_spec "Follower_Precessed" (mkPrecessed out
     (TxHash <$> chosen (f_run (FollowerNum f) (FollowerID f) (at_Txs msg) (balance m)).1 (at_Txs msg)) []
     (FollowerID f) (at_EpochId msg) rt) (proposer_addr f)) as (reply & Er & Hc); [by apply json_precessed|set_solver|].
  exists (f_with_state f db rt), ps, out, reply. split; [|done].
  change (FollowerID (f_with_state f db rt)) with (FollowerID f). change (StateRoot (f_with_state f db rt)) with rt.
  change (proposer_addr (f_with_state f db rt)) with (proposer_addr f). rewrite Er. done.
Qed.
End correct.
