(* ===== verification/Proposer.v ===== *)
(** * The proposer ([consensus_shard/subMPT/proposer.go], [proposerListen.go])

    The proposer takes batches of pending transactions, allocates each of them to
    the followers of its two accounts, gathers the executed ones and puts them
    into blocks of the in-memory chain.  Followers may join, which moves the data
    keys of the consistent-hash ring.

    Goroutines are split where another handler may run in between: [SchedulingTxs]
    hands out one task per follower, and a task first sends its message
    ([TxAllocate_send]) and then enters the transactions into the pool of
    allocated ones ([TxAllocate_insert]). *)

From stdpp Require Import base gmap strings list pretty.
From Stdlib Require Import Ascii ZArith Lia.
From S2P Require Import Prelude Encoding TrieSpec Node Trie TrieMap Hasher Committer Reload Database Core Storage Chain.
From S2P Require Import ChainMem HashRing ConsistentHash Message Follower.

Local Open Scope Z_scope.

(** ** Messages and numbers *)

Record BlockMsg := mkBlockMsg { EncodedBlock : list Z; bm_ProposerID : Z }.

(** [strconv.Atoi] with its error dropped: 0 for a malformed number, the nearest
    limit for one out of range. *)
Fixpoint dec_digits (acc : Z) (s : list Z) : option Z :=
  match s with
  | [] => Some acc
  | c :: s => if (48 <=? c) && (c <=? 57) then dec_digits (acc * 10 + (c - 48)) s else None
  end.
Definition clamp (z : Z) : Z := Z.max (- 2 ^ 63) (Z.min (2 ^ 63 - 1) z).
Definition Atoi (s : string) : Z :=
  let unsigned l := match l with [] => None | _ => dec_digits 0 l end in
  match string_bytes s with
  | 45 :: l => match unsigned l with Some v => clamp (- v) | None => 0 end
  | 43 :: l => match unsigned l with Some v => clamp v | None => 0 end
  | l => match unsigned l with Some v => clamp v | None => 0 end
  end.

Section proposer.
Context `{EthDB} `{FastCache} `{HashEnv} `{EthCommon} `{RLP} `{StateAccountRLP} `{!MemoryDB}.
Context `{Bolt} `{Gob AccountState} `{Gob Transaction} `{Gob Block} `{Gob BlockHeader}.
Context `{Sha256} `{Params}.
Context {R : Type} `{HashRingOps R} `{Encryptor}.
Context `{Json Allocate_TxMsgs} `{Json Precessed_TxMsgs} `{Json P_RequestDataMsgs} `{Json F_ResponseDataMsgs}.
Context `{Json F_ReadyMsgs} `{Json P_AllocateDataMsgs} `{Json P_AllocFidMsgs} `{Json Follower_JoinMsgs} `{Json BlockMsg}.
Context `{Json ExecuteTimeMsg}.

(** The pools hold the transactions of the shared objects the code points to;
    their times are only read when a block is recorded.  [ph_FollowerNum] is
    [params.FollowerNum], and a held [VerifyLock] is [VerifyLocked]. *)
Record ProposerNode := mkProposer {
  NodeID : Z;
  p_ShardID : Z;
  NeighborIDs : list Z;
  FollowerIDs : list Z;
  p_ip_nodeTable : gmap string (gmap Z string);
  CurChain : BlockChain;
  chainHeight2Hash : gmap Z (list Z);
  blockHashGenDone : gset (list Z);
  PendingTxpool : list Transaction;
  AllocatedTxpool : gmap (list Z) Transaction;
  ProcessedTxpool : list Transaction;
  EpochId : Z;
  GatherMap : gmap Z (gmap Z (list Z));
  VerifyBlock : option Block;
  VerifyLocked : bool;
  ConsistentHash_ : ConsistentHash R;
  ReceiveRequestDataMap : gmap Z F_ResponseDataMsgs;
  ReadyMap : gset Z;
  p_stop : bool;
  txcount : Z;
  ph_FollowerNum : Z;
  poollencount : Z;
}.

Definition p_with_pools (p : ProposerNode) (pending : list Transaction) (allocated : gmap (list Z) Transaction)
  (processed : list Transaction) : ProposerNode :=
  mkProposer (NodeID p) (p_ShardID p) (NeighborIDs p) (FollowerIDs p) (p_ip_nodeTable p) (CurChain p)
    (chainHeight2Hash p) (blockHashGenDone p) pending allocated processed (EpochId p) (GatherMap p) (VerifyBlock p)
    (VerifyLocked p) (ConsistentHash_ p) (ReceiveRequestDataMap p) (ReadyMap p) (p_stop p) (txcount p)
    (ph_FollowerNum p) (poollencount p).
Definition p_with_epoch (p : ProposerNode) (epoch : Z) (gather : gmap Z (gmap Z (list Z))) : ProposerNode :=
  mkProposer (NodeID p) (p_ShardID p) (NeighborIDs p) (FollowerIDs p) (p_ip_nodeTable p) (CurChain p)
    (chainHeight2Hash p) (blockHashGenDone p) (PendingTxpool p) (AllocatedTxpool p) (ProcessedTxpool p) epoch gather
    (VerifyBlock p) (VerifyLocked p) (ConsistentHash_ p) (ReceiveRequestDataMap p) (ReadyMap p) (p_stop p) (txcount p)
    (ph_FollowerNum p) (poollencount p).
Definition p_with_chain (p : ProposerNode) (bc : BlockChain) (done : gset (list Z)) (count : Z) : ProposerNode :=
  mkProposer (NodeID p) (p_ShardID p) (NeighborIDs p) (FollowerIDs p) (p_ip_nodeTable p) bc
    (chainHeight2Hash p) done (PendingTxpool p) (AllocatedTxpool p) (ProcessedTxpool p) (EpochId p) (GatherMap p)
    (VerifyBlock p) (VerifyLocked p) (ConsistentHash_ p) (ReceiveRequestDataMap p) (ReadyMap p) (p_stop p) count
    (ph_FollowerNum p) (poollencount p).
Definition p_with_verify (p : ProposerNode) (b : Block) : ProposerNode :=
  mkProposer (NodeID p) (p_ShardID p) (NeighborIDs p) (FollowerIDs p) (p_ip_nodeTable p) (CurChain p)
    (chainHeight2Hash p) (blockHashGenDone p) (PendingTxpool p) (AllocatedTxpool p) (ProcessedTxpool p) (EpochId p)
    (GatherMap p) (Some b) true (ConsistentHash_ p) (ReceiveRequestDataMap p) (ReadyMap p) (p_stop p) (txcount p)
    (ph_FollowerNum p) (poollencount p).
Definition p_with_followers (p : ProposerNode) (ids : list Z) (table : gmap string (gmap Z string))
  (ring : ConsistentHash R) (num : Z) : ProposerNode :=
  mkProposer (NodeID p) (p_ShardID p) (NeighborIDs p) ids table (CurChain p)
    (chainHeight2Hash p) (blockHashGenDone p) (PendingTxpool p) (AllocatedTxpool p) (ProcessedTxpool p) (EpochId p)
    (GatherMap p) (VerifyBlock p) (VerifyLocked p) ring (ReceiveRequestDataMap p) (ReadyMap p) (p_stop p) (txcount p)
    num (poollencount p).
Definition p_with_data (p : ProposerNode) (data : gmap Z F_ResponseDataMsgs) (ready : gset Z) : ProposerNode :=
  mkProposer (NodeID p) (p_ShardID p) (NeighborIDs p) (FollowerIDs p) (p_ip_nodeTable p) (CurChain p)
    (chainHeight2Hash p) (blockHashGenDone p) (PendingTxpool p) (AllocatedTxpool p) (ProcessedTxpool p) (EpochId p)
    (GatherMap p) (VerifyBlock p) (VerifyLocked p) (ConsistentHash_ p) data ready (p_stop p) (txcount p)
    (ph_FollowerNum p) (poollencount p).
Definition p_with_idle (p : ProposerNode) (stop : bool) (count : Z) : ProposerNode :=
  mkProposer (NodeID p) (p_ShardID p) (NeighborIDs p) (FollowerIDs p) (p_ip_nodeTable p) (CurChain p)
    (chainHeight2Hash p) (blockHashGenDone p) (PendingTxpool p) (AllocatedTxpool p) (ProcessedTxpool p) (EpochId p)
    (GatherMap p) (VerifyBlock p) (VerifyLocked p) (ConsistentHash_ p) (ReceiveRequestDataMap p) (ReadyMap p) stop
    (txcount p) (ph_FollowerNum p) count.

(** ["f" + strconv.Itoa(int(p.NodeID))] and an entry of that table. *)
Definition f_key (p : ProposerNode) : string := "f" +:+ pretty (i64 (NodeID p)).
Definition follower_addr (p : ProposerNode) (fid : Z) : string :=
  default "" (p_ip_nodeTable p !! f_key p ≫= (fun t => t !! fid)).

(** ** Start *)

Fixpoint init_ring (o : ConsistentHashOptions) (n : nat) (i : Z) (r : R) : outcome R :=
  match n with
  | O => Ret r
  | S n =>
      '(err, r) ← AddNode true o (pretty i) 1 r;
      match err with Err _ => Panic | Ok _ => init_ring o n (i + 1) r end
  end.

(** [ring] is a new skip list, [bc] the opened chain. *)
Definition NewProposerNode (sID nID : Z) (fIDs pIDs : list Z) (table : gmap string (gmap Z string)) (bc : BlockChain)
  (ring : R) (followerNum : Z) : outcome ProposerNode :=
  let ch := NewConsistentHash ring true [WithReplicas 2; WithLockExpireSeconds 5] in
  r ← init_ring (opts ch) (length fIDs) 0 (hashRing ch);
  Ret (mkProposer nID sID pIDs fIDs table bc
         {[Number (Header (mb_CurrentBlock bc)) := b_Hash (mb_CurrentBlock bc)]} ∅ [] ∅ [] 1 ∅ None false
         (mkCH r (migrator ch) (opts ch)) ∅ (list_to_set fIDs) false 0 followerNum 0).

(** One round of the injecting goroutine: what is left to inject, and the node. *)
Definition inject (p : ProposerNode) (injectSpeed : Z) (txs : list Transaction) (nows : nat -> time)
  : list Transaction * ProposerNode :=
  if p_stop p then (txs, p)
  else
    let selectTxs := Z.to_nat (if Z.of_nat (length txs) <? injectSpeed then Z.of_nat (length txs) else injectSpeed) in
    (drop selectTxs txs,
     p_with_pools p (PendingTxpool p ++ imap (fun i tx => set_Time tx (nows i)) (take selectTxs txs))
       (AllocatedTxpool p) (ProcessedTxpool p)).

(** ** Scheduling *)

(** One goroutine of the sorting loop: the transaction goes to the followers of
    its two accounts, once when they are the same. *)
Definition allocate (n : Z) (tx : Transaction) (allocMap : gmap Z (list Transaction))
  : outcome (gmap Z (list Transaction)) :=
  r ← route n tx;
  match r with
  | None => Ret allocMap
  | Some (destId1, destId2) =>
      let add d m := <[d := default [] (m !! d) ++ [tx]]> m in
      Ret (if destId1 =? destId2 then add destId1 allocMap else add destId2 (add destId1 allocMap))
  end.

(** The goroutines take the mutex of the map in the order [txs]. *)
Definition alloc_all (p : ProposerNode) (txs : list Transaction) : outcome (gmap Z (list Transaction)) :=
  ofold (fun m tx => allocate (Z.of_nat (length (FollowerIDs p))) tx m)
    (list_to_map ((fun fid => (fid, [])) <$> FollowerIDs p)) txs.

(** A started [TxAllocate]: follower, address, transactions, epoch. *)
Record alloc_task := mkTask { tk_fid : Z; tk_addr : string; tk_txs : list Transaction; tk_epoch : Z }.

Definition alloc_tasks (p : ProposerNode) (m : gmap Z (list Transaction)) (epoch : Z) : list alloc_task :=
  (fun fid => mkTask fid (follower_addr p fid) (default [] (m !! fid)) epoch) <$> remove_dups (FollowerIDs p).

(** The result of a round: nothing was pending and the signal is sent again, or
    the tasks of an epoch. *)
Inductive round := Idle | Tasks (l : list alloc_task).

(** [order] permutes the batch: the order in which the goroutines run.  After ten
    empty rounds the node is closed and sends on [stopchan], whose only receiver
    is the goroutine that runs this function. *)
Definition SchedulingTxs (p : ProposerNode) (maxBlockSize : Z) (order : list nat) : sync (ProposerNode * round) :=
  match PendingTxpool p with
  | [] =>
      let count := wrap_s 32 (poollencount p + 1) in
      if 10 <=? count then Blocked else Done (p_with_idle p (p_stop p) count, Idle)
  | pending =>
      let len := Z.of_nat (length pending) in
      let txSize := if len <? maxBlockSize then len else maxBlockSize in
      if txSize <? 0 then Fatal
      else
        let localTxpool := take (Z.to_nat txSize) pending in
        let p := p_with_idle (p_with_pools p (drop (Z.to_nat txSize) pending) (AllocatedTxpool p) (ProcessedTxpool p))
                   (p_stop p) 0 in
        m ← run (alloc_all p (omap (fun i => localTxpool !! i) order));
        let epochId := wrap_u 32 (EpochId p + 1) in
        Done (p_with_epoch p epochId (GatherMap p), Tasks (alloc_tasks p m epochId))
  end.

Definition TxAllocate_send (p : ProposerNode) (t : alloc_task) : outcome (option packet) :=
  if decide (tk_fid t ∈ ReadyMap p) then
    pk ← send "Proposer_Tx_Allocate" (mkAllocate (tk_txs t) (p_ShardID p) (tk_fid t) (tk_epoch t)) (tk_addr t);
    Ret (Some pk)
  else Ret None.

Definition TxAllocate_insert (p : ProposerNode) (t : alloc_task) : ProposerNode :=
  p_with_pools p (PendingTxpool p) (foldl (fun m tx => <[TxHash tx := tx]> m) (AllocatedTxpool p) (tk_txs t))
    (ProcessedTxpool p).

Definition TxAllocate (p : ProposerNode) (t : alloc_task) : outcome (list packet * ProposerNode) :=
  o ← TxAllocate_send p t;
  match o with
  | None => Ret ([], p)
  | Some pk => Ret ([pk], TxAllocate_insert p t)
  end.

(** ** Gathering *)

(** The hashes with their indices; the times come from the entry of [Txs] at the
    same index. *)
Fixpoint gather_loop (i : nat) (hs : list (list Z)) (txs : list Transaction)
  (allocated : gmap (list Z) Transaction) (processed : list Transaction)
  : outcome (gmap (list Z) Transaction * list Transaction) :=
  match hs with
  | [] => Ret (allocated, processed)
  | h :: hs =>
      processed ← (match allocated !! h with
                   | None => Ret processed
                   | Some tx =>
                       t ← of_option (txs !! i);
                       Ret (processed ++ [set_ExecutionTime (set_AllocateTime tx (AllocateTime t)) (ExecutionTime t)])
                   end);
      gather_loop (S i) hs txs (base.delete h allocated) processed
  end.

Definition GatherTxs (p : ProposerNode) (msg : Precessed_TxMsgs) : outcome ProposerNode :=
  '(allocated, processed) ← gather_loop 0 (TxHashs msg) (pt_Txs msg) (AllocatedTxpool p) (ProcessedTxpool p);
  Ret (p_with_pools p (PendingTxpool p) allocated processed).

(** The node, and whether [blockGenerate] is started. *)
Definition note_reply (p : ProposerNode) (msg : Precessed_TxMsgs) : ProposerNode * bool :=
  let g := <[pt_FollowerID msg := pt_StateRoot msg]> (default ∅ (GatherMap p !! pt_EpochId msg)) in
  (p_with_epoch p (EpochId p) (<[pt_EpochId msg := g]> (GatherMap p)),
   (Z.of_nat (size g) =? ph_FollowerNum p) && (p_ShardID p =? 0)).

Definition handleProcessedTxs (p : ProposerNode) (content : list Z) : outcome (ProposerNode * bool) :=
  TxsMsg ← of_option (json_Unmarshal content : option Precessed_TxMsgs);
  p ← GatherTxs p TxsMsg;
  Ret (note_reply p TxsMsg).

(** ** Blocks *)

(** [[]byte("123")], written for both roots. *)
Definition fixed_root : list Z := string_bytes "123".

(** The block made, if any, and the node; [Some] also means that the next
    scheduling signal is sent. *)
Definition blockGenerate (p : ProposerNode) (now : time) : outcome (option Block * ProposerNode) :=
  let cur := mb_CurrentBlock (CurChain p) in
  if decide (b_Hash cur ∈ blockHashGenDone p) then Ret (None, p)
  else
    match ProcessedTxpool p with
    | [] => Ret (None, p)
    | txs1 =>
        let p := p_with_pools p (PendingTxpool p) (AllocatedTxpool p) [] in
        bloom ← GetBloomFilter txs1;
        let bh := mkBH (b_Hash cur) fixed_root fixed_root bloom (next_number cur) now 0 in
        let b := mkBlock bh txs1 (BH_Hash bh) in
        '(_, bc) ← AddBlock (CurChain p) (Some b);
        Ret (Some b, p_with_chain p bc ({[b_Hash cur]} ∪ blockHashGenDone p) (i64 (txcount p + 10000)))
    end.

(** The transactions of a received block are allocated like a batch. *)
Definition VerifyingBlock (p : ProposerNode) (b : Block) (order : list nat) : outcome (ProposerNode * list alloc_task) :=
  m ← alloc_all p (omap (fun i => Body b !! i) order);
  let epochId := wrap_u 32 (EpochId p + 1) in
  let addr fid := default "" (p_ip_nodeTable p !! ("f" +:+ pretty (i64 (p_ShardID p))) ≫= (fun t => t !! fid)) in
  Ret (p_with_epoch p epochId (GatherMap p),
       (fun fid => mkTask fid (addr fid) (default [] (m !! fid)) epochId) <$> remove_dups (FollowerIDs p)).

(** [VerifyLock] is taken and never released. *)
Definition handleBlockMsg (p : ProposerNode) (content : list Z) (order : list nat)
  : sync (ProposerNode * list alloc_task) :=
  if VerifyLocked p then Blocked
  else
    blk ← run (of_option (json_Unmarshal content : option BlockMsg));
    pBlock ← run (DecodeB (EncodedBlock blk));
    run (VerifyingBlock (p_with_verify p pBlock) pBlock order).

Definition blockBroadcast (p : ProposerNode) (b : option Block) : outcome (list packet) :=
  match b with
  | None => Ret []
  | Some b =>
      ofold (fun l i => pk ← send "Proposer_block_Broadcast" (mkBlockMsg (B_Encode b) (p_ShardID p))
                          (default "" (p_ip_nodeTable p !! "p"%string ≫= (fun t => t !! i)));
                        Ret (l ++ [pk])) [] (NeighborIDs p)
  end.

(** ** Followers that join *)

(** Up to the migrations: the identifier, the messages and the migrations to run.
    A missing inner table is a write to a nil map.  The error of [AddNode] is
    dropped. *)
Definition join_begin (p : ProposerNode) (content : list Z) : outcome (Z * list packet * list task * ProposerNode) :=
  JoinMsg ← of_option (json_Unmarshal content : option Follower_JoinMsgs);
  let newNodeId := Z.of_nat (length (FollowerIDs p)) in
  inner ← of_option (p_ip_nodeTable p !! f_key p);
  let table := <[f_key p := <[newNodeId := Ip_port JoinMsg]> inner]> (p_ip_nodeTable p) in
  pk ← send "P_AllocFId" (mkAllocFid newNodeId) (Ip_port JoinMsg);
  let ch := ConsistentHash_ p in
  '(tasks, r) ← AddNode (migrator ch) (opts ch) (pretty newNodeId) 1 (hashRing ch);
  Ret (newNodeId, [pk], match tasks with Ok l => l | Err _ => [] end,
       p_with_followers p (FollowerIDs p) table (mkCH r (migrator ch) (opts ch)) (ph_FollowerNum p)).

(** A migration: the request for the keys, and, once the answer is there, the
    message that hands the data over. *)
Definition migrate_request (p : ProposerNode) (t : task) : outcome packet :=
  let '(keys, from, _) := t in
  send "Proposer_RequestData" (mkRequestData (elements keys)) (follower_addr p (u64 (Atoi from))).

Definition migrate_forward (p : ProposerNode) (t : task) : outcome (option packet * ProposerNode) :=
  let '(_, from, to) := t in
  match ReceiveRequestDataMap p !! u64 (Atoi from) with
  | None => Ret (None, p)
  | Some msgs =>
      pk ← send "Proposer_AllocateData" (mkAllocateData (rs_Keys msgs) (rs_Value msgs)) (follower_addr p (u64 (Atoi to)));
      Ret (Some pk, p_with_data p (base.delete (u64 (Atoi from)) (ReceiveRequestDataMap p)) (ReadyMap p))
  end.

(** After the migrations. *)
Definition join_end (p : ProposerNode) (newNodeId : Z) : ProposerNode :=
  p_with_followers p (FollowerIDs p ++ [newNodeId]) (p_ip_nodeTable p) (ConsistentHash_ p) (i64 (ph_FollowerNum p + 1)).

Definition handleFollowerResponse (p : ProposerNode) (content : list Z) : outcome ProposerNode :=
  Msg ← of_option (json_Unmarshal content : option F_ResponseDataMsgs);
  Ret (p_with_data p (<[rs_Fid Msg := Msg]> (ReceiveRequestDataMap p)) (ReadyMap p)).

Definition handleFollowerReady (p : ProposerNode) (content : list Z) : outcome ProposerNode :=
  Msg ← of_option (json_Unmarshal content : option F_ReadyMsgs);
  Ret (p_with_data p (ReceiveRequestDataMap p) ({[rd_Fid Msg]} ∪ ReadyMap p)).

Definition closeProposerNode (p : ProposerNode) : ProposerNode := p_with_idle p true (poollencount p).

(** ** Dispatch *)

(** What a handler starts besides changing the node: nothing, [blockGenerate],
    the tasks of an epoch, or the migrations of a join. *)
Inductive started :=
| Nothing
| StartBlock
| StartTasks (l : list alloc_task)
| StartJoin (newNodeId : Z) (sent : list packet) (l : list task).

(** A measurement is only written to a file. *)
Definition handleExecuteTimeMsg (p : ProposerNode) (content : list Z) : outcome ProposerNode :=
  _ ← of_option (json_Unmarshal content : option ExecuteTimeMsg); Ret p.

Definition p_handleMessage (p : ProposerNode) (msg : list Z) (order : list nat) : sync (ProposerNode * started) :=
  '(msgType, content) ← run (SplitMessage msg);
  let type_is t := bool_decide (msgType = string_bytes t) in
  if type_is "Proposer_block_Broadcast"%string then
    '(p, l) ← handleBlockMsg p content order; Done (p, StartTasks l)
  else if type_is "Follower_Precessed"%string then
    '(p, b) ← run (handleProcessedTxs p content); Done (p, if (b : bool) then StartBlock else Nothing)
  else if type_is "Follower_Join"%string then
    '(id, pks, l, p) ← run (join_begin p content); Done (p, StartJoin id pks l)
  else if type_is "Follower_ResponseData"%string then
    p ← run (handleFollowerResponse p content); Done (p, Nothing)
  else if type_is "Follower_Ready"%string then
    p ← run (handleFollowerReady p content); Done (p, Nothing)
  else if type_is "ExecuteTimeMsg"%string then
    p ← run (handleExecuteTimeMsg p content); Done (p, Nothing)
  else Done (p, Nothing).

Definition p_preHandleMessageRequest (p : ProposerNode) (frame : list Z) (order : list nat)
  : sync (ProposerNode * started) :=
  if p_stop p then Done (p, Nothing) else p_handleMessage p frame order.
End proposer.
Arguments ProposerNode {_ _ _} R.
