(* ===== verification/Epoch.v ===== *)
(** * An epoch: the proposer and its followers together

    The proposer's allocation sends every transaction of a batch to the followers
    of its two accounts, and each follower executes its share against the part of
    the accounts it owns.  Proved here: what the shares are, what an epoch does to
    the balances over all followers, and that the gathered transactions make up
    the next block. *)

From stdpp Require Import base gmap strings list pretty.
From Stdlib Require Import ZArith Lia.
From S2P Require Import Prelude Encoding TrieSpec Node Trie TrieMap Hasher Committer Reload Database Core Storage Chain.
From S2P Require Import ChainMem HashRing ConsistentHash Message Follower Proposer.

Local Open Scope Z_scope.

(** ** Flows between followers *)

(** A transaction has an account at follower [k]. *)
Definition touches (n k : Z) (tx : Transaction) : bool :=
  match lanes n tx with Some (d1, d2) => (d1 =? k) || (d2 =? k) | None => false end.

(** What a transaction brings to and takes from follower [k], across followers. *)
Definition inflow (n k : Z) (tx : Transaction) : Z :=
  match lanes n tx with Some (d1, d2) => if (d2 =? k) && negb (d1 =? k) then Value tx else 0 | None => 0 end.
Definition outflow (n k : Z) (tx : Transaction) : Z :=
  match lanes n tx with Some (d1, d2) => if (d1 =? k) && negb (d2 =? k) then Value tx else 0 | None => 0 end.

(** The value of the transfers to other followers that follower [k] refuses, and
    that the other followers credit all the same. *)
Fixpoint f_minted (n k : Z) (txs : list Transaction) (B : Address -> Z) : Z :=
  match txs with
  | [] => 0
  | tx :: txs => (if (f_step n k tx B).1 then 0 else outflow n k tx) + f_minted n k txs (f_step n k tx B).2
  end.

(** The accounts a batch moves. *)
Definition moves_in (X : list Address) (n : Z) (tx : Transaction) : Prop :=
  lanes n tx <> None -> Sender tx ∈ X /\ Recipient tx ∈ X.

Lemma lanes_owners n tx d1 d2 :
  lanes n tx = Some (d1, d2) -> owner n (Sender tx) = Some d1 /\ owner n (Recipient tx) = Some d2.
Proof.
  unfold lanes. destruct (owner n (Sender tx)) as [x|]; [|done]. simpl.
  destruct (owner n (Recipient tx)) as [y|]; [|done]. by intros [= -> ->].
Qed.

Definition owned (n k : Z) (X : list Address) : list Address := filter (fun a => owner n a = Some k) X.

Lemma f_step_total n k X tx B :
  NoDup X -> moves_in X n tx ->
  total (owned n k X) (f_step n k tx B).2 =
    total (owned n k X) B + inflow n k tx - outflow n k tx + (if (f_step n k tx B).1 then 0 else outflow n k tx).
Proof.
  intros Hnd Hin. unfold f_step, inflow, outflow. unfold moves_in in Hin.
  destruct (lanes n tx) as [[d1 d2]|] eqn:El; [|simpl; lia]. destruct (Hin ltac:(done)) as [Hs Hr].
  destruct (lanes_owners n tx d1 d2 El) as [Es Er].
  assert (NoDup (owned n k X)) as Hnd' by apply NoDup_filter, Hnd.
  assert (d1 =? k = true -> Sender tx ∈ owned n k X) as Hso.
  { intros ->%Z.eqb_eq. by apply list_elem_of_filter. }
  assert (d2 =? k = true -> Recipient tx ∈ owned n k X) as Hro.
  { intros ->%Z.eqb_eq. by apply list_elem_of_filter. }
  destruct (d1 =? k) eqn:E1; simpl andb.
  - destruct (B (Sender tx) <? Value tx); cbn [fst snd].
    + destruct (d2 =? k); simpl; lia.
    + destruct (d2 =? k); cbn [negb andb]; rewrite !total_set by auto; lia.
  - cbn [fst snd]. destruct (d2 =? k); cbn [negb andb]; rewrite ?total_set by auto; lia.
Qed.

Lemma f_run_total n k X txs : NoDup X -> forall B, Forall (moves_in X n) txs ->
  total (owned n k X) (f_run n k txs B).2 =
    total (owned n k X) B + zsum (inflow n k) txs - zsum (outflow n k) txs + f_minted n k txs B.
Proof.
  intros Hnd. induction txs as [|tx txs IH]; intros B Hin; [simpl; lia|].
  apply Forall_cons_1 in Hin as [Hx Hin]. cbn [f_run snd f_minted zsum foldr].
  change (foldr _ 0 txs) with (zsum (inflow n k) txs) at 1. change (foldr _ 0 txs) with (zsum (outflow n k) txs).
  rewrite IH, f_step_total by done. lia.
Qed.

(** Every transfer that leaves a follower arrives at another. *)
Lemma flows_balance (n : nat) txs : (0 < n)%nat ->
  zsum (fun k => zsum (inflow (Z.of_nat n) (Z.of_nat k)) txs) (seq 0 n) =
  zsum (fun k => zsum (outflow (Z.of_nat n) (Z.of_nat k)) txs) (seq 0 n).
Proof.
  intros Hn. rewrite !(zsum_swap (fun k => _ (Z.of_nat n) (Z.of_nat k))). apply zsum_ext. intros tx _.
  unfold inflow, outflow. destruct (lanes (Z.of_nat n) tx) as [[d1 d2]|] eqn:El; [|done].
  destruct (lanes_owners _ _ _ _ El) as [Es Er].
  apply owner_range in Es, Er; [|lia..].
  destruct (decide (d1 = d2)) as [->|Hne].
  - apply zsum_ext. intros k _. destruct (d2 =? Z.of_nat k); done.
  - rewrite (zsum_ext _ (fun k => if Z.of_nat k =? d2 then Value tx else 0)).
    2:{ intros k _. destruct (Z.eqb_spec d2 (Z.of_nat k)), (Z.eqb_spec d1 (Z.of_nat k)), (Z.eqb_spec (Z.of_nat k) d2); simpl; lia. }
    rewrite zsum_pick by lia.
    rewrite (zsum_ext _ (fun k => if Z.of_nat k =? d1 then Value tx else 0)).
    2:{ intros k _. destruct (Z.eqb_spec d2 (Z.of_nat k)), (Z.eqb_spec d1 (Z.of_nat k)), (Z.eqb_spec (Z.of_nat k) d1); simpl; lia. }
    rewrite zsum_pick by lia. done.
Qed.

(** A share contributes what the whole batch would. *)
Lemma share_flow n k f share batch :
  share ≡ₚ filter (fun tx => touches n k tx = true) batch ->
  (forall tx, touches n k tx = false -> f tx = 0) -> zsum f share = zsum f batch.
Proof.
  intros Hp Hz. rewrite Hp. apply zsum_filter. intros tx _ Ht. apply Hz. by destruct (touches n k tx).
Qed.

Lemma inflow_untouched n k tx : touches n k tx = false -> inflow n k tx = 0.
Proof. unfold touches, inflow. destruct (lanes n tx) as [[d1 d2]|]; [|done]. destruct (d1 =? k), (d2 =? k); simpl; congruence. Qed.
Lemma outflow_untouched n k tx : touches n k tx = false -> outflow n k tx = 0.
Proof. unfold touches, outflow. destruct (lanes n tx) as [[d1 d2]|]; [|done]. destruct (d1 =? k), (d2 =? k); simpl; congruence. Qed.

(** ** Settling *)

(** The value a transaction moves into and out of an account. *)
Definition gain (n : Z) (a : Address) (tx : Transaction) : Z :=
  match lanes n tx with
  | Some _ => (if decide (Recipient tx = a) then Value tx else 0) - (if decide (Sender tx = a) then Value tx else 0)
  | None => 0
  end.

Lemma f_step_gain n k a tx B :
  owner n a = Some k -> ((f_step n k tx B).1 = false -> lanes n tx = None) ->
  (f_step n k tx B).2 a = B a + gain n a tx.
Proof.
  intros Ha Hok. unfold f_step in *. unfold gain. destruct (lanes n tx) as [[d1 d2]|] eqn:El; [|simpl; lia].
  destruct (lanes_owners n tx d1 d2 El) as [Es Er].
  destruct ((d1 =? k) && (B (Sender tx) <? Value tx)) eqn:Erej; [discriminate (Hok eq_refl)|]. cbn [snd fst].
  assert (d1 =? k = false -> Sender tx <> a) as Hs by (intros Hd%Z.eqb_neq Ea; rewrite Ea in Es; congruence).
  assert (d2 =? k = false -> Recipient tx <> a) as Hr by (intros Hd%Z.eqb_neq Ea; rewrite Ea in Er; congruence).
  unfold set_bal. destruct (d1 =? k), (d2 =? k);
    repeat match goal with |- context [decide ?P] => destruct (decide P) end;
    solve [lia | congruence | by destruct (Hs eq_refl) | by destruct (Hr eq_refl) | repeat match goal with E : _ tx = _ |- _ => rewrite E in * end; lia].
Qed.

Lemma f_run_gain n k a txs : owner n a = Some k -> forall B,
  Forall2 (fun v tx => v = false -> lanes n tx = None) (f_run n k txs B).1 txs ->
  (f_run n k txs B).2 a = B a + zsum (gain n a) txs.
Proof.
  intros Ha. induction txs as [|tx txs IH]; intros B Hok; [simpl; lia|]. cbn [f_run fst snd] in *.
  inversion Hok as [|? ? ? ? Hx Hrest]; subst. simpl. rewrite IH by done. rewrite f_step_gain by done. lia.
Qed.

(** ** The proposer's shares *)

Lemma allocate_spec n tx m :
  n <> 0 -> addressed tx ->
  exists m', allocate n tx m = Ret m' /\
    forall d, default [] (m' !! d) = default [] (m !! d) ++ (if touches n d tx then [tx] else []).
Proof.
  intros Hn Ha. unfold allocate, touches. rewrite route_spec by done. go_ret. cbv beta iota.
  destruct (lanes n tx) as [[d1 d2]|]; [|eexists; split; [done|]; intros d; by rewrite app_nil_r].
  eexists. split; [done|]. intros d.
  destruct (Z.eqb_spec d1 d2) as [<-|Hne].
  - rewrite orb_diag. destruct (Z.eqb_spec d1 d) as [->|Hd].
    + by rewrite lookup_insert_eq.
    + rewrite lookup_insert_ne by done. by rewrite app_nil_r.
  - destruct (Z.eqb_spec d2 d) as [->|Hd2].
    + rewrite orb_true_r, lookup_insert_eq. simpl. rewrite lookup_insert_ne by done. done.
    + rewrite orb_false_r, lookup_insert_ne by done. destruct (Z.eqb_spec d1 d) as [->|Hd1].
      * by rewrite lookup_insert_eq.
      * rewrite lookup_insert_ne by done. by rewrite app_nil_r.
Qed.

Lemma allocate_all_spec n txs : n <> 0 -> Forall addressed txs -> forall m,
  exists m', ofold (fun m tx => allocate n tx m) m txs = Ret m' /\
    forall d, default [] (m' !! d) = default [] (m !! d) ++ filter (fun tx => touches n d tx = true) txs.
Proof.
  intros Hn Ha. induction Ha as [|tx txs Hx Ha IH]; intros m.
  { exists m. split; [done|]. intros d. by rewrite app_nil_r. }
  cbn [ofold]. destruct (allocate_spec n tx m Hn Hx) as (m1 & E1 & Hd1). rewrite E1. go_ret.
  destruct (IH m1) as (m2 & E2 & Hd2). exists m2. split; [done|]. intros d.
  rewrite Hd2, Hd1, <- (assoc (++)). f_equal. rewrite filter_cons.
  destruct (touches n d tx) eqn:E; case_decide; congruence || done.
Qed.

(** The followers [0 .. n-1]. *)
Definition ids (n : nat) : list Z := Z.of_nat <$> seq 0 n.

Lemma ids_nodup n : NoDup (ids n).
Proof. apply NoDup_fmap_2; [intros ? ? ?; lia|apply NoDup_ListNoDup, seq_NoDup]. Qed.

Lemma ids_length n : length (ids n) = n.
Proof. unfold ids. by rewrite length_fmap, length_seq. Qed.

Lemma remove_dups_nodup {A} `{EqDecision A} (l : list A) : NoDup l -> remove_dups l = l.
Proof.
  induction 1 as [|x l Hx Hl IH]; [done|]. simpl.
  destruct (decide_rel _ x l); [done|]. by rewrite IH.
Qed.

Lemma omap_seq_id {A} (l : list A) : omap (fun i => l !! i) (seq 0 (length l)) = l.
Proof.
  induction l as [|x l IH] using rev_ind; [done|]. rewrite length_app, Nat.add_1_r, seq_S, omap_app.
  f_equal.
  - rewrite <- IH at 2. apply list_omap_ext, Forall_Forall2_diag, Forall_forall. intros i Hi%elem_of_seq.
    by rewrite lookup_app_l by lia.
  - simpl. by rewrite lookup_app_r, Nat.sub_diag by lia.
Qed.

Lemma Forall_filtered {A} (P Q : A -> Prop) `{!forall x, Decision (Q x)} (l : list A) : Forall P l -> Forall P (filter Q l).
Proof. rewrite !Forall_forall. intros HP x [_ Hx]%list_elem_of_filter. by apply HP. Qed.

(** The goroutines run in some order: the batch, permuted. *)
Lemma reordered_perm {A} (l : list A) order :
  order ≡ₚ seq 0 (length l) -> omap (fun i => l !! i) order ≡ₚ l.
Proof. intros ->. by rewrite omap_seq_id. Qed.

Section correct.
Context `{EthDB} `{FastCache} `{RLPLaws} `{EthCommon} `{!HashLaws} `{!CollisionFree}.
Context `{!EthDBLaws} `{StateAccountRLP} `{!MemoryDB} `{Bolt}.
Context `{Gob AccountState} `{Gob Transaction} `{Gob Block} `{Gob BlockHeader} `{Sha256} `{Params}.
Context {R : Type} `{HashRingOps R} `{Encryptor}.
Context `{Json Allocate_TxMsgs} `{Json Precessed_TxMsgs} `{Json P_RequestDataMsgs} `{Json F_ResponseDataMsgs}.
Context `{Json F_ReadyMsgs} `{Json P_AllocateDataMsgs} `{Json P_AllocFidMsgs} `{Json Follower_JoinMsgs} `{Json BlockMsg}.
Context `{Json ExecuteTimeMsg} `{Json Verfying_TxMsgs} `{!JsonLaws}.

(** The transactions of the next round. *)
Definition batch (p : ProposerNode R) (max : Z) : list Transaction := take (Z.to_nat max) (PendingTxpool p).

Lemma batch_size (l : list Transaction) max : 0 <= max ->
  let size := if Z.of_nat (length l) <? max then Z.of_nat (length l) else max in
  0 <= size /\ take (Z.to_nat size) l = take (Z.to_nat max) l /\ drop (Z.to_nat size) l = drop (Z.to_nat max) l.
Proof.
  intros Hm. cbv zeta. destruct (Z.ltb_spec (Z.of_nat (length l)) max); [|done].
  rewrite Nat2Z.id, !take_ge, !drop_ge by lia. split; [lia|done].
Qed.

(** A round takes the batch off the pending transactions and makes one task per
    follower, whose share is the part of the batch with an account there. *)
Record scheduled (p : ProposerNode R) (n : nat) (max : Z) (p' : ProposerNode R) (tasks : list alloc_task) : Prop := {
  sc_pending : PendingTxpool p' = drop (Z.to_nat max) (PendingTxpool p);
  sc_rest : p' = p_with_idle (p_with_epoch (p_with_pools p (PendingTxpool p') (AllocatedTxpool p) (ProcessedTxpool p))
                   (wrap_u 32 (EpochId p + 1)) (GatherMap p)) (p_stop p) 0;
  sc_length : length tasks = n;
  sc_share : forall k t, tasks !! k = Some t ->
    tk_fid t = Z.of_nat k /\ tk_addr t = follower_addr p (Z.of_nat k) /\ tk_epoch t = wrap_u 32 (EpochId p + 1) /\
    tk_txs t ≡ₚ filter (fun tx => touches (Z.of_nat n) (Z.of_nat k) tx = true) (batch p max);
}.

Lemma SchedulingTxs_spec (p : ProposerNode R) n max order :
  FollowerIDs p = ids n -> (0 < n)%nat -> 0 <= max -> PendingTxpool p <> [] -> Forall addressed (batch p max) ->
  order ≡ₚ seq 0 (length (batch p max)) ->
  exists p' tasks, SchedulingTxs p max order = Done (p', Tasks tasks) /\ scheduled p n max p' tasks.
Proof.
  intros Hids Hn Hmax Hne Ha Ho. unfold SchedulingTxs.
  destruct (PendingTxpool p) as [|tx0 rest] eqn:Ep; [done|]. rewrite <- Ep in *. clear tx0 rest Ep Hne.
  destruct (batch_size (PendingTxpool p) max Hmax) as (Hsz & Et & Ed).
  set (sz := if Z.of_nat _ <? max then _ else max) in *. cbv zeta.
  rewrite (proj2 (Z.ltb_ge sz 0)) by done. rewrite Et. fold (batch p max).
  set (p1 := p_with_idle _ _ _).
  destruct (allocate_all_spec (Z.of_nat (length (FollowerIDs p1))) (omap (fun i => batch p max !! i) order)
              ltac:(simpl; rewrite Hids, ids_length; lia)
              ltac:(by rewrite (reordered_perm _ _ Ho)) (list_to_map ((fun fid => (fid, [])) <$> FollowerIDs p1)))
    as (m & Em & Hd).
  unfold alloc_all. rewrite Em. simpl run. unfold mbind, sync_bind. eexists _, _. split; [done|].
  split.
  - exact Ed.
  - reflexivity.
  - unfold alloc_tasks. rewrite length_fmap. change (FollowerIDs _) with (FollowerIDs p) at 1.
    rewrite Hids, remove_dups_nodup, ids_length by apply ids_nodup. done.
  - intros k t Hk. unfold alloc_tasks in Hk. change (FollowerIDs _) with (FollowerIDs p) in Hk at 1.
    rewrite Hids, remove_dups_nodup in Hk by apply ids_nodup. unfold ids in Hk.
    rewrite !list_lookup_fmap in Hk. destruct (seq 0 n !! k) as [j|] eqn:Ej; [|done].
    apply lookup_seq in Ej as [-> Hlt]. simpl in Hk. injection Hk as <-.
    split; [done|]. split; [done|]. split; [done|]. cbn [tk_txs]. rewrite Hd.
    assert (default [] (list_to_map ((fun fid => (fid, [])) <$> FollowerIDs p1) !! Z.of_nat k : option (list Transaction)) = []) as ->.
    { destruct (_ !! _) as [l|] eqn:El; [|done]. apply elem_of_list_to_map_2, list_elem_of_fmap in El as (? & [= _ <-] & _). done. }
    rewrite app_nil_l. change (FollowerIDs p1) with (FollowerIDs p). rewrite Hids, ids_length.
    by rewrite (reordered_perm _ _ Ho).
Qed.

(** A round of scheduling, whatever order the sorting goroutines run in:
    exactly the first [max] pending transactions are taken, and each follower's
    task carries, each once, exactly the transactions of the batch one of whose
    accounts the follower owns. *)
Theorem SchedulingTxs_correct (p : ProposerNode R) (n : nat) (max : Z) (order : list nat) :
  FollowerIDs p = ids n -> (0 < n)%nat -> 0 <= max -> PendingTxpool p <> [] -> Forall addressed (batch p max) ->
  order ≡ₚ seq 0 (length (batch p max)) ->
  exists p' tasks, SchedulingTxs p max order = Done (p', Tasks tasks) /\
    batch p max ++ PendingTxpool p' = PendingTxpool p /\ AllocatedTxpool p' = AllocatedTxpool p /\
    ProcessedTxpool p' = ProcessedTxpool p /\ length tasks = n /\
    forall k t, tasks !! k = Some t -> tk_fid t = Z.of_nat k /\ tk_addr t = follower_addr p (Z.of_nat k) /\
      tk_txs t ≡ₚ filter (fun tx => touches (Z.of_nat n) (Z.of_nat k) tx = true) (batch p max).
Proof.
  intros Hids Hn Hmax Hne Ha Ho.
  destruct (SchedulingTxs_spec p n max order Hids Hn Hmax Hne Ha Ho) as (p' & tasks & E & [Hp Hr Hl Hs]).
  exists p', tasks. split; [done|]. split; [rewrite Hp; apply take_drop|].
  split; [by rewrite Hr|]. split; [by rewrite Hr|]. split; [done|].
  intros k t Hk. destruct (Hs k t Hk) as (? & ? & _ & ?). done.
Qed.

(** ** The followers' ledgers over an epoch *)

(** A follower that executes [txs]: it ends on the ledger [m'], or the call
    panics and the ledger was not to change. *)
Definition answers (f : FollowerNode) (m : gmap (list Z) (list Z)) (txs : list Transaction)
  (m' : gmap (list Z) (list Z)) : Prop :=
  forall msg allocs exec micros, at_Txs msg = txs -> (forall j, time_json (allocs j)) -> (forall j, time_json (exec j)) ->
  (exists hs out f' ps, ProcessTxs f msg allocs exec micros = Ret (hs, out, f', ps) /\ follower_state f' m') \/
  (ProcessTxs f msg allocs exec micros = Panic /\ m' = m).

Lemma answers_spec f m txs :
  disk_works -> follower_state f m -> 0 < FollowerNum f -> Forall addressed txs -> Forall tx_json txs ->
  answers f m txs (f_ledger (FollowerNum f) (FollowerID f) 0 txs m).
Proof.
  intros Hw Hf Hn Ha Hj msg allocs exec micros <- Hca Hce.
  destruct (ProcessTxs_spec f m msg allocs exec micros Hw Hf Hn Ha Hj Hca Hce)
    as [(out & f' & ps & E & (db & rt & -> & Hf' & _) & _ & _)|[E Hs]]; [left|by right].
  by eexists _, _, _, _.
Qed.

(** The followers [0 .. n-1] with their ledgers. *)
Definition fleet (n : nat) (fs : nat -> FollowerNode) (ms : nat -> gmap (list Z) (list Z)) : Prop :=
  forall k, (k < n)%nat -> follower_state (fs k) (ms k) /\ FollowerID (fs k) = Z.of_nat k /\
    FollowerNum (fs k) = Z.of_nat n.

(** The sum of the balances of [X], each account at the follower that owns it. *)
Definition supply (n : nat) (X : list Address) (ms : nat -> gmap (list Z) (list Z)) : Z :=
  zsum (fun k => total (owned (Z.of_nat n) (Z.of_nat k) X) (balance (ms k))) (seq 0 n).

Definition share (tasks : list alloc_task) (k : nat) : list Transaction := default [] (tk_txs <$> tasks !! k).

(** The ledgers after an epoch. *)
Definition after (n : nat) (tasks : list alloc_task) (ms : nat -> gmap (list Z) (list Z)) (k : nat)
  : gmap (list Z) (list Z) := f_ledger (Z.of_nat n) (Z.of_nat k) 0 (share tasks k) (ms k).

Lemma epoch_spec (p : ProposerNode R) n max order fs ms :
  disk_works -> FollowerIDs p = ids n -> (0 < n)%nat -> 0 <= max -> PendingTxpool p <> [] ->
  Forall addressed (batch p max) -> Forall tx_json (batch p max) -> order ≡ₚ seq 0 (length (batch p max)) ->
  fleet n fs ms ->
  exists p' tasks, SchedulingTxs p max order = Done (p', Tasks tasks) /\ scheduled p n max p' tasks /\
    (forall k, (k < n)%nat -> share tasks k ≡ₚ filter (fun tx => touches (Z.of_nat n) (Z.of_nat k) tx = true) (batch p max)) /\
    forall k, (k < n)%nat -> answers (fs k) (ms k) (share tasks k) (after n tasks ms k) /\
      forall a, balance (after n tasks ms k) a = (f_run (Z.of_nat n) (Z.of_nat k) (share tasks k) (balance (ms k))).2 a.
Proof.
  intros Hw Hids Hn Hmax Hne Ha Hj Ho Hfl.
  destruct (SchedulingTxs_spec p n max order Hids Hn Hmax Hne Ha Ho) as (p' & tasks & E & Hsc).
  exists p', tasks. split; [done|]. split; [done|]. destruct Hsc as [_ _ Hl Hs].
  assert (forall k, (k < n)%nat -> share tasks k ≡ₚ filter (fun tx => touches (Z.of_nat n) (Z.of_nat k) tx = true) (batch p max)) as Hsh.
  { intros k Hk. rewrite <- Hl in Hk. destruct (lookup_lt_is_Some_2 _ _ Hk) as [t Et]. unfold share. rewrite Et. simpl.
    by destruct (Hs k t Et) as (_ & _ & _ & ?). }
  split; [done|]. intros k Hk. destruct (Hfl k Hk) as (Hf & Hid & Hnum).
  assert (forall P : Transaction -> Prop, Forall P (batch p max) -> Forall P (share tasks k)) as Hall.
  { intros P HP. rewrite (Hsh k Hk). by apply Forall_filtered. }
  split.
  - unfold after. rewrite <- Hid, <- Hnum. apply answers_spec; auto. lia.
  - apply f_ledger_spec. by destruct Hf.
Qed.

(** C3. The supply over an epoch: when the followers execute the shares of a
    batch, the sum of all balances grows by exactly the value of the transfers to
    another follower that the sender's follower refused: those are credited at
    the recipient's follower all the same. *)
Theorem epoch_supply (p : ProposerNode R) (n : nat) (max : Z) (order : list nat)
  (fs : nat -> FollowerNode) (ms : nat -> gmap (list Z) (list Z)) (X : list Address) :
  disk_works -> FollowerIDs p = ids n -> (0 < n)%nat -> 0 <= max -> PendingTxpool p <> [] ->
  Forall addressed (batch p max) -> Forall tx_json (batch p max) -> order ≡ₚ seq 0 (length (batch p max)) ->
  fleet n fs ms -> NoDup X -> Forall (moves_in X (Z.of_nat n)) (batch p max) ->
  exists p' tasks ms', SchedulingTxs p max order = Done (p', Tasks tasks) /\
    (forall k, (k < n)%nat -> answers (fs k) (ms k) (share tasks k) (ms' k)) /\
    supply n X ms' = supply n X ms +
      zsum (fun k => f_minted (Z.of_nat n) (Z.of_nat k) (share tasks k) (balance (ms k))) (seq 0 n).
Proof.
  intros Hw Hids Hn Hmax Hne Ha Hj Ho Hfl Hnd Hin.
  destruct (epoch_spec p n max order fs ms Hw Hids Hn Hmax Hne Ha Hj Ho Hfl) as (p' & tasks & E & _ & Hsh & Hk).
  exists p', tasks, (after n tasks ms). split; [done|]. split; [intros k Hlt; by apply Hk|].
  unfold supply.
  rewrite (zsum_ext _ (fun k => (total (owned (Z.of_nat n) (Z.of_nat k) X) (balance (ms k)) +
      (zsum (inflow (Z.of_nat n) (Z.of_nat k)) (batch p max) - zsum (outflow (Z.of_nat n) (Z.of_nat k)) (batch p max))) +
      f_minted (Z.of_nat n) (Z.of_nat k) (share tasks k) (balance (ms k)))).
  - rewrite !zsum_add. pose proof (flows_balance n (batch p max) Hn) as Hfb.
    assert (forall f g : nat -> Z, zsum (fun k => f k - g k) (seq 0 n) = zsum f (seq 0 n) - zsum g (seq 0 n)) as Hsub.
    { intros f g. clear. induction (seq 0 n) as [|k l IH]; simpl; lia. }
    rewrite Hsub, Hfb. lia.
  - intros k Hlt%elem_of_seq. destruct (Hk k ltac:(lia)) as [_ HB].
    change (total ?Y ?B) with (zsum B Y).
    rewrite (zsum_ext (balance (after n tasks ms k)) (f_run (Z.of_nat n) (Z.of_nat k) (share tasks k) (balance (ms k))).2)
      by (intros; apply HB).
    change (zsum (f_run ?x ?y ?t ?b).2 ?Y) with (total Y (f_run x y t b).2).
    rewrite f_run_total; [|done|rewrite (Hsh k ltac:(lia)); by apply Forall_filtered].
    rewrite !(share_flow _ _ _ _ _ (Hsh k ltac:(lia))) by (apply inflow_untouched || apply outflow_untouched).
    change (zsum (balance (ms k)) ?Y) with (total Y (balance (ms k))). lia.
Qed.

(** C2. Settling: when no follower refuses a transfer, every account ends with
    its balance plus what the batch pays it minus what it pays, whatever order the
    transactions reached the followers in. *)
Theorem epoch_settles (p : ProposerNode R) (n : nat) (max : Z) (order : list nat)
  (fs : nat -> FollowerNode) (ms : nat -> gmap (list Z) (list Z)) :
  disk_works -> FollowerIDs p = ids n -> (0 < n)%nat -> 0 <= max -> PendingTxpool p <> [] ->
  Forall addressed (batch p max) -> Forall tx_json (batch p max) -> order ≡ₚ seq 0 (length (batch p max)) ->
  fleet n fs ms ->
  exists p' tasks ms', SchedulingTxs p max order = Done (p', Tasks tasks) /\
    (forall k, (k < n)%nat -> answers (fs k) (ms k) (share tasks k) (ms' k)) /\
    ((forall k, (k < n)%nat -> Forall2 (fun v tx => v = false -> lanes (Z.of_nat n) tx = None)
        (f_run (Z.of_nat n) (Z.of_nat k) (share tasks k) (balance (ms k))).1 (share tasks k)) ->
     forall a k, owner (Z.of_nat n) a = Some (Z.of_nat k) ->
       balance (ms' k) a = balance (ms k) a + zsum (gain (Z.of_nat n) a) (batch p max)).
Proof.
  intros Hw Hids Hn Hmax Hne Ha Hj Ho Hfl.
  destruct (epoch_spec p n max order fs ms Hw Hids Hn Hmax Hne Ha Hj Ho Hfl) as (p' & tasks & E & _ & Hsh & Hk).
  exists p', tasks, (after n tasks ms). split; [done|]. split; [intros k Hlt; by apply Hk|].
  intros Hacc a k Hown. pose proof (owner_range (Z.of_nat n) a (Z.of_nat k) ltac:(lia) Hown) as Hlt.
  destruct (Hk k ltac:(lia)) as [_ HB]. rewrite HB, f_run_gain; [|done|apply Hacc; lia]. f_equal.
  apply (share_flow (Z.of_nat n) (Z.of_nat k)); [apply Hsh; lia|]. intros tx Ht. unfold touches in Ht. unfold gain.
  destruct (lanes (Z.of_nat n) tx) as [[d1 d2]|] eqn:El; [|done]. destruct (lanes_owners _ _ _ _ El) as [Es Er].
  apply orb_false_iff in Ht as [Hd1%Z.eqb_neq Hd2%Z.eqb_neq].
  rewrite !decide_False; [done|intros Ea; rewrite Ea in Es; congruence|intros Ea; rewrite Ea in Er; congruence].
Qed.
End correct.
