(* ===== verification/Pools.v ===== *)
(** * The proposer's pools under concurrency

    The handlers of the proposer run in goroutines that interleave.  The pools and
    the messages in flight form a state machine: [step] lets any started
    allocation, answer, received block or block generation go next, one access to
    the pool of processed transactions at a time, since gathering and block
    generation guard it with different locks.  Proved here: what gathering does;
    that only injected transactions and those of received blocks reach a block;
    that no transaction is included twice as long as it is gathered after its
    allocations and no cut of the pool falls into an append; and a run in which an
    answer overtakes an allocation and a transaction is included twice. *)

From stdpp Require Import base gmap strings list pretty.
From Stdlib Require Import ZArith Lia.
From S2P Require Import Prelude Encoding TrieSpec Node Trie TrieMap Hasher Committer Reload Database Core Storage Chain.
From S2P Require Import ChainMem ConsistentHash Message Follower Proposer Epoch.

Local Open Scope Z_scope.

(** ** Gathering *)

(** The pool of allocated transactions is keyed by their hashes. *)
Definition keyed (m : gmap (list Z) Transaction) : Prop := forall h tx, m !! h = Some tx -> TxHash tx = h.

Abbreviation hashes := (fmap (M := list) TxHash).

(** [new] are the transactions [m] holds for the hashes [hs], each once. *)
Record gathered (m : gmap (list Z) Transaction) (hs : list (list Z)) (new : list Transaction) : Prop := {
  ga_nodup : NoDup (hashes new);
  ga_from : forall tx, tx ∈ new -> exists tx0, m !! TxHash tx = Some tx0 /\ untimed tx = untimed tx0;
  ga_all : forall h, h ∈ hashes new <-> h ∈ hs /\ is_Some (m !! h);
}.

Definition without (hs : list (list Z)) (m : gmap (list Z) Transaction) : gmap (list Z) Transaction :=
  foldl (fun m h => base.delete h m) m hs.

Lemma without_lookup hs : forall m h, without hs m !! h = if decide (h ∈ hs) then None else m !! h.
Proof.
  unfold without. induction hs as [|x hs IH]; intros m h; simpl; [done|]. rewrite IH.
  destruct (decide (h ∈ hs)) as [Hin|Hni]; [by rewrite decide_True by (by right)|].
  destruct (decide (h = x)) as [->|Hne].
  - by rewrite decide_True, lookup_delete_eq by left.
  - rewrite decide_False, lookup_delete_ne by (done || intros [?|?]%elem_of_cons; done). done.
Qed.

Lemma keyed_delete m h : keyed m -> keyed (base.delete h m).
Proof. intros Hk h' tx [_ E]%lookup_delete_Some. by apply Hk. Qed.

Lemma gather_loop_spec hs : forall i txs m processed,
  keyed m -> (i + length hs <= length txs)%nat ->
  exists new, gather_loop i hs txs m processed = Ret (without hs m, processed ++ new) /\ gathered m hs new.
Proof.
  induction hs as [|h hs IH]; intros i txs m processed Hk Hlen.
  { exists []. split; [simpl; by rewrite app_nil_r|]. split; [constructor|set_solver|set_solver]. }
  simpl in Hlen. cbn [gather_loop].
  destruct (m !! h) as [tx|] eqn:Em.
  - destruct (lookup_lt_is_Some_2 txs i ltac:(lia)) as [t Et]. rewrite Et. cbn [of_option]. go_ret.
    set (tx' := set_ExecutionTime _ _).
    assert (TxHash tx' = h) as Etx by exact (Hk h tx Em).
    destruct (IH (S i) txs (base.delete h m) (processed ++ [tx']) (keyed_delete m h Hk) ltac:(lia))
      as (new & E & [Hnd Hfrom Hall]). exists (tx' :: new).
    split; [rewrite E, <- (assoc (++)); done|]. split.
    + cbn [fmap list_fmap]. constructor; [|done]. rewrite Etx. intros [_ Hs]%Hall.
      rewrite lookup_delete_eq in Hs. by destruct Hs.
    + intros x [->|Hx]%elem_of_cons; [exists tx; by rewrite Etx|].
      destruct (Hfrom x Hx) as (x0 & [_ E0]%lookup_delete_Some & Eu). by exists x0.
    + intros h'. cbn [fmap list_fmap]. rewrite !elem_of_cons, Hall, Etx.
      destruct (decide (h' = h)) as [->|Hne]; [naive_solver|]. rewrite lookup_delete_ne by done. naive_solver.
  - go_ret. destruct (IH (S i) txs (base.delete h m) processed (keyed_delete m h Hk) ltac:(lia))
      as (new & E & [Hnd Hfrom Hall]). exists new. split; [done|].
    rewrite delete_id in Hfrom, Hall by done. split; [done|done|].
    intros h'. rewrite Hall, elem_of_cons. split; [naive_solver|]. intros [[->|?] Hs]; [|done].
    rewrite Em in Hs. by destruct Hs.
Qed.

Section pools.
Context `{EthDB} `{FastCache} `{HashEnv} `{EthCommon} `{RLP} `{StateAccountRLP} `{!MemoryDB}.
Context `{Bolt} `{Gob AccountState} `{Gob Transaction} `{Gob Block} `{Gob BlockHeader}.
Context `{Sha256} `{Params}.
Context {R : Type} `{HashRingOps R} `{Encryptor}.
Context `{Json Allocate_TxMsgs} `{Json Precessed_TxMsgs} `{Json P_RequestDataMsgs} `{Json F_ResponseDataMsgs}.
Context `{Json F_ReadyMsgs} `{Json P_AllocateDataMsgs} `{Json P_AllocFidMsgs} `{Json Follower_JoinMsgs} `{Json BlockMsg}.
Context `{Json ExecuteTimeMsg}.

Lemma GatherTxs_spec (p : ProposerNode R) msg :
  keyed (AllocatedTxpool p) -> (length (TxHashs msg) <= length (pt_Txs msg))%nat ->
  exists new, GatherTxs p msg = Ret (p_with_pools p (PendingTxpool p) (without (TxHashs msg) (AllocatedTxpool p))
      (ProcessedTxpool p ++ new)) /\ gathered (AllocatedTxpool p) (TxHashs msg) new.
Proof.
  intros Hk Hl. destruct (gather_loop_spec (TxHashs msg) 0 (pt_Txs msg) _ (ProcessedTxpool p) Hk Hl) as (new & E & Hg).
  exists new. unfold GatherTxs. rewrite E. done.
Qed.

Lemma put_lookup (txs : list Transaction) : forall (m : gmap (list Z) Transaction) h,
  foldl (fun m tx => <[TxHash tx := tx]> m) m txs !! h =
    match last (filter (fun tx => TxHash tx = h) txs) with Some tx => Some tx | None => m !! h end.
Proof.
  induction txs as [|tx txs IH]; intros m h; [done|]. cbn [foldl]. rewrite IH, filter_cons.
  destruct (decide (TxHash tx = h)) as [<-|Hne].
  - rewrite last_cons. destruct (last _); [done|]. by rewrite lookup_insert_eq.
  - destruct (last _); [done|]. by rewrite lookup_insert_ne.
Qed.

Lemma put_Some (txs : list Transaction) (m : gmap (list Z) Transaction) h tx :
  foldl (fun m tx => <[TxHash tx := tx]> m) m txs !! h = Some tx -> (tx ∈ txs /\ TxHash tx = h) \/ m !! h = Some tx.
Proof.
  rewrite put_lookup. destruct (last _) as [x|] eqn:E; [|by right]. intros [= ->].
  apply last_Some_elem_of, list_elem_of_filter in E as [<- Hin]. by left.
Qed.

Lemma put_is_Some (txs : list Transaction) (m : gmap (list Z) Transaction) h :
  is_Some (foldl (fun m tx => <[TxHash tx := tx]> m) m txs !! h) <-> h ∈ hashes txs \/ is_Some (m !! h).
Proof.
  split.
  - intros [tx [[Hin <-]|E]%put_Some]; [left|right; by eexists]. by apply list_elem_of_fmap_2.
  - intros [(tx & -> & Hin)%list_elem_of_fmap|Hs]; rewrite put_lookup.
    + destruct (last _) as [x|] eqn:E; [by eexists|]. apply last_None in E.
      assert (tx ∈ filter (fun y => TxHash y = TxHash tx) txs) as Hf by (by apply list_elem_of_filter).
      rewrite E in Hf. by apply not_elem_of_nil in Hf.
    + by destruct (last _).
Qed.

(** ** The state machine *)

(** A [GatherTxs] that holds [AllocatedTxpoolLock]: the answer, the index of the
    loop, and the pool of processed transactions as [append] has read it. *)
Record gathering := mkGathering { g_msg : Precessed_TxMsgs; g_index : nat; g_read : option (list Transaction) }.

(** A [blockGenerate] that holds [chainLock]: the transactions it took, and the
    pool as it has read it to cut them off. *)
Record generation := mkGeneration { gn_txs : list Transaction; gn_read : option (list Transaction) }.

(** The node; tasks not yet sent; tasks sent whose transactions are not yet in
    the pool of allocated ones; messages on their way to followers; answers on
    their way back; the gathering under way, and the answers gathered but not yet
    noted; started block generations, the one under way and the blocks made; the
    transactions injected so far and those of received blocks. *)
Record world := mkWorld {
  w_node : ProposerNode R;
  w_unsent : list alloc_task;
  w_unput : list alloc_task;
  w_messages : list Allocate_TxMsgs;
  w_replies : list Precessed_TxMsgs;
  w_gather : option gathering;
  w_gathered : list Precessed_TxMsgs;
  w_generating : nat;
  w_generation : option generation;
  w_blocks : list Block;
  w_injected : list Transaction;
  w_received : list Transaction;
}.

Definition start (p : ProposerNode R) : world := mkWorld p [] [] [] [] None [] 0 None [] [] [].

Definition w_with_node (w : world) (p : ProposerNode R) : world :=
  mkWorld p (w_unsent w) (w_unput w) (w_messages w) (w_replies w) (w_gather w) (w_gathered w) (w_generating w)
    (w_generation w) (w_blocks w) (w_injected w) (w_received w).
Definition w_with_tasks (w : world) (unsent unput : list alloc_task) : world :=
  mkWorld (w_node w) unsent unput (w_messages w) (w_replies w) (w_gather w) (w_gathered w) (w_generating w)
    (w_generation w) (w_blocks w) (w_injected w) (w_received w).
Definition w_with_net (w : world) (messages : list Allocate_TxMsgs) (replies : list Precessed_TxMsgs) : world :=
  mkWorld (w_node w) (w_unsent w) (w_unput w) messages replies (w_gather w) (w_gathered w) (w_generating w)
    (w_generation w) (w_blocks w) (w_injected w) (w_received w).
Definition w_with_gather (w : world) (g : option gathering) (gathered : list Precessed_TxMsgs) : world :=
  mkWorld (w_node w) (w_unsent w) (w_unput w) (w_messages w) (w_replies w) g gathered (w_generating w)
    (w_generation w) (w_blocks w) (w_injected w) (w_received w).
Definition w_with_blocks (w : world) (n : nat) (g : option generation) (blocks : list Block) : world :=
  mkWorld (w_node w) (w_unsent w) (w_unput w) (w_messages w) (w_replies w) (w_gather w) (w_gathered w) n g blocks
    (w_injected w) (w_received w).
Definition w_with_arrived (w : world) (injected received : list Transaction) : world :=
  mkWorld (w_node w) (w_unsent w) (w_unput w) (w_messages w) (w_replies w) (w_gather w) (w_gathered w)
    (w_generating w) (w_generation w) (w_blocks w) injected received.

(** An answer a follower may give. *)
Definition answer_to (m : Allocate_TxMsgs) (r : Precessed_TxMsgs) : Prop :=
  pt_EpochId r = at_EpochId m /\ pt_FollowerID r = at_FollowerID m /\
  untimed <$> pt_Txs r = untimed <$> at_Txs m /\
  exists vs, TxHashs r = hashes (chosen vs (at_Txs m)).

(** The transactions of the tasks that still have to enter them into the pool. *)
Definition w_tasked (w : world) : list Transaction := concat (tk_txs <$> w_unsent w ++ w_unput w).

Definition p_with_processed (p : ProposerNode R) (processed : list Transaction) : ProposerNode R :=
  p_with_pools p (PendingTxpool p) (AllocatedTxpool p) processed.

(** The handlers that leave the pools alone: a follower that joins, its
    migrations, its readiness, and a measurement. *)
Inductive aside : ProposerNode R -> ProposerNode R -> Prop :=
| aside_join p content id pks l p' : join_begin p content = Ret (id, pks, l, p') -> aside p p'
| aside_migrate p t pk p' : migrate_forward p t = Ret (pk, p') -> aside p p'
| aside_joined p id : aside p (join_end p id)
| aside_response p content p' : handleFollowerResponse p content = Ret p' -> aside p p'
| aside_ready p content p' : handleFollowerReady p content = Ret p' -> aside p p'
| aside_time p content p' : handleExecuteTimeMsg p content = Ret p' -> aside p p'.

(** One step of the proposer or of a follower.  [PendingTxpool] is only touched
    under its lock, and [AllocatedTxpool] under [AllocatedTxpoolLock], which a
    gathering keeps from its first iteration to its last.  [ProcessedTxpool] is
    read and written by gatherings under that lock and by block generations under
    two others, so each read and each write of it is a step.

    When [strict], two orders hold that no lock enforces: a transaction is
    gathered only when no task has still to enter it, and a block does not cut
    the pool while an [append] is between its read and its write. *)
Inductive step (strict : bool) : world -> world -> Prop :=
| step_inject w speed txs nows rest p :
    inject (w_node w) speed txs nows = (rest, p) ->
    step strict w (w_with_arrived (w_with_node w p)
      (w_injected w ++ drop (length (PendingTxpool (w_node w))) (PendingTxpool p)) (w_received w))
| step_schedule w max order p tasks :
    SchedulingTxs (w_node w) max order = Done (p, Tasks tasks) ->
    step strict w (w_with_tasks (w_with_node w p) (w_unsent w ++ tasks) (w_unput w))
| step_idle w max order p :
    SchedulingTxs (w_node w) max order = Done (p, Idle) -> step strict w (w_with_node w p)
| step_receive w content order p tasks b :
    handleBlockMsg (w_node w) content order = Done (p, tasks) -> VerifyBlock p = Some b ->
    step strict w (w_with_arrived (w_with_tasks (w_with_node w p) (w_unsent w ++ tasks) (w_unput w))
      (w_injected w) (w_received w ++ Body b))
| step_aside w p : aside (w_node w) p -> step strict w (w_with_node w p)
| step_send w l1 t l2 pk :
    w_unsent w = l1 ++ t :: l2 -> TxAllocate_send (w_node w) t = Ret (Some pk) ->
    step strict w (w_with_net (w_with_tasks w (l1 ++ l2) (w_unput w ++ [t]))
      (w_messages w ++ [mkAllocate (tk_txs t) (p_ShardID (w_node w)) (tk_fid t) (tk_epoch t)]) (w_replies w))
| step_skip w l1 t l2 :
    w_unsent w = l1 ++ t :: l2 -> TxAllocate_send (w_node w) t = Ret None ->
    step strict w (w_with_tasks w (l1 ++ l2) (w_unput w))
| step_insert w l1 t l2 :
    w_unput w = l1 ++ t :: l2 -> w_gather w = None ->
    step strict w (w_with_tasks (w_with_node w (TxAllocate_insert (w_node w) t)) (w_unsent w) (l1 ++ l2))
| step_answer w l1 m l2 r :
    w_messages w = l1 ++ m :: l2 -> answer_to m r ->
    step strict w (w_with_net w (l1 ++ l2) (w_replies w ++ [r]))
| step_lock w l1 r l2 :
    w_replies w = l1 ++ r :: l2 -> w_gather w = None ->
    step strict w (w_with_gather (w_with_net w (w_messages w) (l1 ++ l2)) (Some (mkGathering r 0 None)) (w_gathered w))
| step_read w r i h :
    w_gather w = Some (mkGathering r i None) -> TxHashs r !! i = Some h -> is_Some (AllocatedTxpool (w_node w) !! h) ->
    step strict w (w_with_gather w (Some (mkGathering r i (Some (ProcessedTxpool (w_node w))))) (w_gathered w))
| step_append w r i h l allocated processed :
    w_gather w = Some (mkGathering r i (Some l)) -> TxHashs r !! i = Some h ->
    gather_loop i [h] (pt_Txs r) (AllocatedTxpool (w_node w)) l = Ret (allocated, processed) ->
    (strict = true -> h ∉ hashes (w_tasked w)) ->
    step strict w (w_with_gather (w_with_node w (p_with_pools (w_node w) (PendingTxpool (w_node w)) allocated processed))
      (Some (mkGathering r (S i) None)) (w_gathered w))
| step_miss w r i h :
    w_gather w = Some (mkGathering r i None) -> TxHashs r !! i = Some h -> AllocatedTxpool (w_node w) !! h = None ->
    step strict w (w_with_gather w (Some (mkGathering r (S i) None)) (w_gathered w))
| step_unlock w r :
    w_gather w = Some (mkGathering r (length (TxHashs r)) None) ->
    step strict w (w_with_gather w None (w_gathered w ++ [r]))
| step_note w l1 r l2 p b :
    w_gathered w = l1 ++ r :: l2 -> note_reply (w_node w) r = (p, b) ->
    step strict w (w_with_blocks (w_with_gather (w_with_node w p) (w_gather w) (l1 ++ l2))
      (if b then S (w_generating w) else w_generating w) (w_generation w) (w_blocks w))
| step_take w n :
    w_generating w = S n -> w_generation w = None ->
    step strict w (w_with_blocks w n (Some (mkGeneration (ProcessedTxpool (w_node w)) None)) (w_blocks w))
| step_cut w txs :
    w_generation w = Some (mkGeneration txs None) ->
    step strict w (w_with_blocks w (w_generating w) (Some (mkGeneration txs (Some (ProcessedTxpool (w_node w))))) (w_blocks w))
| step_block w txs l now b p :
    w_generation w = Some (mkGeneration txs (Some l)) ->
    blockGenerate (p_with_processed (w_node w) txs) now = Ret (Some b, p) ->
    (strict = true -> forall g, w_gather w = Some g -> g_read g = None) ->
    step strict w (w_with_blocks (w_with_node w (p_with_processed p (drop (length txs) l))) (w_generating w) None
      (w_blocks w ++ [b]))
| step_no_block w txs now p :
    w_generation w = Some (mkGeneration txs None) ->
    blockGenerate (p_with_processed (w_node w) txs) now = Ret (None, p) ->
    step strict w (w_with_blocks w (w_generating w) None (w_blocks w)).

Definition reachable (strict : bool) (p : ProposerNode R) (w : world) : Prop := rtc (step strict) (start p) w.

(** ** What the steps do to the pools *)

Definition same_pools (p p' : ProposerNode R) : Prop :=
  PendingTxpool p' = PendingTxpool p /\ AllocatedTxpool p' = AllocatedTxpool p /\
  ProcessedTxpool p' = ProcessedTxpool p /\ VerifyLocked p' = VerifyLocked p.

Lemma inject_pools (p : ProposerNode R) speed txs nows rest p' :
  inject p speed txs nows = (rest, p') ->
  exists new, PendingTxpool p' = PendingTxpool p ++ new /\ AllocatedTxpool p' = AllocatedTxpool p /\
    ProcessedTxpool p' = ProcessedTxpool p /\ VerifyLocked p' = VerifyLocked p /\
    drop (length (PendingTxpool p)) (PendingTxpool p') = new.
Proof.
  unfold inject. destruct (p_stop p); intros [= <- <-].
  - exists []. rewrite app_nil_r, drop_all. done.
  - eexists. do 4 (split; [done|]). cbn [PendingTxpool p_with_pools]. by rewrite drop_app_length.
Qed.

Lemma allocate_elem n txs : forall m m', ofold (fun m tx => allocate n tx m) m txs = Ret m' ->
  forall d tx, tx ∈ default [] (m' !! d) -> tx ∈ txs \/ tx ∈ default [] (m !! d).
Proof.
  induction txs as [|x txs IH]; intros m m' E d tx Hin; [injection E as <-; by right|]. cbn [ofold] in E.
  apply outcome_bind_Ret in E as (m1 & E1 & E). destruct (IH _ _ E d tx Hin) as [?|Hin1]; [left; by right|].
  unfold allocate in E1. apply outcome_bind_Ret in E1 as (o & _ & E1). destruct o as [[d1 d2]|]; [|injection E1 as <-; by right].
  assert (forall k (m : gmap Z (list Transaction)), tx ∈ default [] (<[k := default [] (m !! k) ++ [x]]> m !! d) -> tx = x \/ tx ∈ default [] (m !! d)) as Hadd.
  { intros k m0 Hk. destruct (decide (k = d)) as [->|Hne].
    - rewrite lookup_insert_eq in Hk. simpl in Hk. apply elem_of_app in Hk as [?|Hx%list_elem_of_singleton]; auto.
    - rewrite lookup_insert_ne in Hk by done. by right. }
  injection E1 as <-. destruct (d1 =? d2).
  - destruct (Hadd _ _ Hin1) as [->|?]; [left; left|by right].
  - destruct (Hadd _ _ Hin1) as [->|Hin2]; [left; left|]. destruct (Hadd _ _ Hin2) as [->|?]; [left; left|by right].
Qed.

(** What is sorted for a follower is from the batch, in whatever order it is sorted. *)
Lemma alloc_all_elem (p : ProposerNode R) (l : list Transaction) (order : list nat) m d tx :
  alloc_all p (omap (fun i => l !! i) order) = Ret m -> tx ∈ default [] (m !! d) -> tx ∈ l.
Proof.
  intros Em Hin. destruct (allocate_elem _ _ _ _ Em d tx Hin) as [(i & _ & Hi)%list_elem_of_omap|Hin0].
  - by apply list_elem_of_lookup_2 in Hi.
  - destruct (_ !! d) as [l0|] eqn:El in Hin0; [|by apply not_elem_of_nil in Hin0].
    apply elem_of_list_to_map_2, list_elem_of_fmap in El as (? & [= _ ->] & _). by apply not_elem_of_nil in Hin0.
Qed.

(** A round moves a prefix of the pending transactions into tasks. *)
Lemma SchedulingTxs_pools (p : ProposerNode R) max order p' tasks :
  SchedulingTxs p max order = Done (p', Tasks tasks) ->
  AllocatedTxpool p' = AllocatedTxpool p /\ ProcessedTxpool p' = ProcessedTxpool p /\ VerifyLocked p' = VerifyLocked p /\
  exists taken, PendingTxpool p = taken ++ PendingTxpool p' /\
    forall t tx, t ∈ tasks -> tx ∈ tk_txs t -> tx ∈ taken.
Proof.
  unfold SchedulingTxs. destruct (PendingTxpool p) as [|x rest] eqn:Ep; [case_match; done|].
  rewrite <- Ep. clear x rest Ep. cbv zeta. set (sz := if _ <? max then _ else max). destruct (sz <? 0); [done|].
  set (p1 := p_with_idle _ _ _). destruct (alloc_all p1 _) as [m|] eqn:Em; [|done]. simpl.
  intros [= <- <-]. do 3 (split; [done|]). exists (take (Z.to_nat sz) (PendingTxpool p)).
  split; [symmetry; apply take_drop|]. intros t tx Ht Hin. unfold alloc_tasks in Ht.
  apply list_elem_of_fmap in Ht as (fid & -> & _). by eapply alloc_all_elem.
Qed.

Lemma SchedulingTxs_idle (p : ProposerNode R) max order p' :
  SchedulingTxs p max order = Done (p', Idle) -> same_pools p p'.
Proof.
  unfold SchedulingTxs, same_pools. destruct (PendingTxpool p) as [|x rest] eqn:Ep.
  - case_match; [done|]. intros [= <-]. cbn [p_with_idle PendingTxpool]. by rewrite Ep.
  - cbv zeta. case_match; [done|]. destruct (alloc_all _ _); simpl; [|done]. intros [= ].
Qed.

(** A received block becomes tasks; [VerifyLock] stays held. *)
Lemma handleBlockMsg_pools (p : ProposerNode R) content order p' tasks b :
  handleBlockMsg p content order = Done (p', tasks) -> VerifyBlock p' = Some b ->
  PendingTxpool p' = PendingTxpool p /\ AllocatedTxpool p' = AllocatedTxpool p /\ ProcessedTxpool p' = ProcessedTxpool p /\
  VerifyLocked p = false /\ VerifyLocked p' = true /\ forall t tx, t ∈ tasks -> tx ∈ tk_txs t -> tx ∈ Body b.
Proof.
  unfold handleBlockMsg. destruct (VerifyLocked p); [done|]. destruct (json_Unmarshal content) as [blk|]; [|done].
  simpl. unfold mbind, sync_bind. simpl. destruct (DecodeB (EncodedBlock blk)) as [pb|]; [|done]. simpl.
  unfold VerifyingBlock. set (p1 := p_with_verify p pb). destruct (alloc_all p1 _) as [m|] eqn:Em; [|done]. simpl.
  intros [= <- <-] [= <-]. do 5 (split; [done|]). intros t tx (fid & -> & _)%list_elem_of_fmap Hin.
  by eapply alloc_all_elem.
Qed.

Lemma aside_pools p p' : aside p p' -> same_pools p p'.
Proof.
  intros [? ? ? ? ? ? E|? t ? ? E|? ?|? ? ? E|? ? ? E|? ? ? E].
  - unfold join_begin in E. apply outcome_bind_Ret in E as (j & _ & E). cbv zeta in E.
    apply outcome_bind_Ret in E as (inner & _ & E). apply outcome_bind_Ret in E as (q & _ & E).
    apply outcome_bind_Ret in E as ([tk r] & _ & E). by injection E as _ _ _ <-.
  - destruct t as [[? from] to]. unfold migrate_forward in E. destruct (_ !! u64 _) as [msgs|]; [|by injection E as _ <-].
    apply outcome_bind_Ret in E as (q & _ & E). by injection E as _ <-.
  - done.
  - unfold handleFollowerResponse in E. apply outcome_bind_Ret in E as (j & _ & E). by injection E as <-.
  - unfold handleFollowerReady in E. apply outcome_bind_Ret in E as (j & _ & E). by injection E as <-.
  - unfold handleExecuteTimeMsg in E. apply outcome_bind_Ret in E as (j & _ & E). by injection E as <-.
Qed.

(** A block holds the transactions it took. *)
Lemma blockGenerate_pools (p : ProposerNode R) now b p' :
  blockGenerate p now = Ret (Some b, p') ->
  PendingTxpool p' = PendingTxpool p /\ AllocatedTxpool p' = AllocatedTxpool p /\ VerifyLocked p' = VerifyLocked p /\
  Body b = ProcessedTxpool p.
Proof.
  unfold blockGenerate. destruct (decide _); [done|].
  destruct (ProcessedTxpool p) as [|tx l] eqn:Ep; [done|].
  intros (bloom & _ & E)%outcome_bind_Ret. cbv zeta in E. apply outcome_bind_Ret in E as ([b0 bc] & _ & E).
  injection E as <- <-. done.
Qed.

(** One iteration of a gathering that finds its transaction. *)
Lemma gather_one_spec i h txs m l m' l' :
  keyed m -> gather_loop i [h] txs m l = Ret (m', l') ->
  m' = base.delete h m /\
  ((m !! h = None /\ l' = l) \/ exists tx tx', m !! h = Some tx /\ untimed tx' = untimed tx /\ TxHash tx' = h /\ l' = l ++ [tx']).
Proof.
  intros Hk. cbn [gather_loop]. destruct (m !! h) as [tx|] eqn:Em.
  - destruct (txs !! i) as [t|]; [|done]. simpl. intros [= <- <-]. split; [done|]. right.
    exists tx, (set_ExecutionTime (set_AllocateTime tx (AllocateTime t)) (ExecutionTime t)).
    do 2 (split; [done|]). split; [exact (Hk h tx Em)|done].
  - intros [= <- <-]. split; [done|]. by left.
Qed.

(** ** The pools alone *)

(** What the steps do to the pools, without nodes and messages: pending
    transactions, those in tasks, the pool of allocated ones and of processed
    ones, that pool as read by an [append] or by a block under way, those in
    blocks, those injected and those of received blocks. *)
Record pools := mkPools {
  pending : list Transaction;
  tasked : list Transaction;
  allocated : gmap (list Z) Transaction;
  processed : list Transaction;
  reading : option (list Transaction);
  generated : option generation;
  included : list Transaction;
  injected : list Transaction;
  received : list Transaction;
}.

Definition out (P : pools) : list Transaction := included P ++ processed P.
Definition arrived (P : pools) : list Transaction := injected P ++ received P.

Definition pools_of (w : world) : pools :=
  mkPools (PendingTxpool (w_node w)) (w_tasked w) (AllocatedTxpool (w_node w)) (ProcessedTxpool (w_node w))
    (w_gather w ≫= g_read) (w_generation w) (concat (Body <$> w_blocks w)) (w_injected w) (w_received w).

Inductive move (strict : bool) : pools -> pools -> Prop :=
| move_inject P new :
    move strict P (mkPools (pending P ++ new) (tasked P) (allocated P) (processed P) (reading P) (generated P)
      (included P) (injected P ++ new) (received P))
| move_schedule P taken pending' tasked' :
    pending P = taken ++ pending' -> tasked' ⊆ tasked P ++ taken ->
    move strict P (mkPools pending' tasked' (allocated P) (processed P) (reading P) (generated P)
      (included P) (injected P) (received P))
| move_receive P new tasked' :
    tasked' ⊆ tasked P ++ new ->
    move strict P (mkPools (pending P) tasked' (allocated P) (processed P) (reading P) (generated P)
      (included P) (injected P) (received P ++ new))
| move_insert P txs tasked' :
    txs ⊆ tasked P -> tasked' ⊆ tasked P ->
    move strict P (mkPools (pending P) tasked' (foldl (fun m tx => <[TxHash tx := tx]> m) (allocated P) txs)
      (processed P) (reading P) (generated P) (included P) (injected P) (received P))
| move_read P o :
    o = None \/ o = Some (processed P) ->
    move strict P (mkPools (pending P) (tasked P) (allocated P) (processed P) o (generated P)
      (included P) (injected P) (received P))
| move_append P l tx tx' :
    reading P = Some l -> allocated P !! TxHash tx' = Some tx -> untimed tx' = untimed tx ->
    (strict = true -> TxHash tx' ∉ hashes (tasked P)) ->
    move strict P (mkPools (pending P) (tasked P) (base.delete (TxHash tx') (allocated P)) (l ++ [tx']) None
      (generated P) (included P) (injected P) (received P))
| move_reset P l :
    reading P = Some l ->
    move strict P (mkPools (pending P) (tasked P) (allocated P) l None (generated P)
      (included P) (injected P) (received P))
| move_take P :
    move strict P (mkPools (pending P) (tasked P) (allocated P) (processed P) (reading P)
      (Some (mkGeneration (processed P) None)) (included P) (injected P) (received P))
| move_cut P txs :
    generated P = Some (mkGeneration txs None) ->
    move strict P (mkPools (pending P) (tasked P) (allocated P) (processed P) (reading P)
      (Some (mkGeneration txs (Some (processed P)))) (included P) (injected P) (received P))
| move_block P txs l :
    generated P = Some (mkGeneration txs (Some l)) -> (strict = true -> reading P = None) ->
    move strict P (mkPools (pending P) (tasked P) (allocated P) (drop (length txs) l) (reading P) None
      (included P ++ txs) (injected P) (received P))
| move_no_block P :
    move strict P (mkPools (pending P) (tasked P) (allocated P) (processed P) (reading P) None
      (included P) (injected P) (received P)).

Lemma keyed_put txs m : keyed m -> keyed (foldl (fun m tx => <[TxHash tx := tx]> m) m txs).
Proof. intros Hk h tx [[_ E]|E]%put_Some; [done|by apply Hk]. Qed.

Lemma keyed_without hs m : keyed m -> keyed (without hs m).
Proof. intros Hk h tx. rewrite without_lookup. case_decide; [done|]. apply Hk. Qed.

Lemma chosen_length {A} vs : forall l : list A, (length (chosen vs l) <= length l)%nat.
Proof. induction vs as [|[] vs IH]; intros [|x l]; simpl; try lia; specialize (IH l); lia. Qed.

Lemma answer_to_length m r : answer_to m r -> (length (TxHashs r) <= length (pt_Txs r))%nat.
Proof.
  intros (_ & _ & Eu & vs & ->). apply (f_equal length) in Eu. rewrite !length_fmap in Eu.
  rewrite length_fmap, Eu. apply chosen_length.
Qed.

Lemma elem_of_concat_fmap {A B} (f : A -> list B) (l : list A) y : y ∈ concat (f <$> l) <-> exists x, x ∈ l /\ y ∈ f x.
Proof.
  induction l as [|x l IH]; simpl.
  - split; [by intros ?%not_elem_of_nil|]. by intros (? & ?%not_elem_of_nil & _).
  - rewrite elem_of_app, IH. setoid_rewrite elem_of_cons. naive_solver.
Qed.

(** The pool of allocated transactions is keyed by hash. *)
Definition world_ok (w : world) : Prop := keyed (AllocatedTxpool (w_node w)).

(** Only a held [VerifyLock] has let a block in. *)
Definition verify_ok (w : world) : Prop := VerifyLocked (w_node w) = false -> w_received w = [].

Lemma tasked_split (l1 l2 l3 : list alloc_task) t :
  concat (tk_txs <$> (l1 ++ l2) ++ l3) ⊆ concat (tk_txs <$> (l1 ++ t :: l2) ++ l3).
Proof. rewrite !fmap_app, !concat_app. simpl. set_solver. Qed.

(** Every step of the world is a move of the pools, or leaves them alone. *)
Lemma step_move strict w w' :
  world_ok w -> verify_ok w -> step strict w w' ->
  world_ok w' /\ verify_ok w' /\ (pools_of w' = pools_of w \/ move strict (pools_of w) (pools_of w')).
Proof.
  unfold world_ok, verify_ok. intros Hk Hv Hs.
  destruct Hs as [w speed txs nows rest p Hi|w max order p tasks Hs|w max order p Hs|w content order p tasks b Hb Eb|w p Ha|
    w l1 t l2 pk Hu _|w l1 t l2 Hu _|w l1 t l2 Hu _|w l1 m l2 r Hm Ha|w l1 r l2 Hr Hg|w r i h Hg Eh [tx Htx]|
    w r i h l al pr Hg Eh El Hst|w r i h Hg Eh Hn|w r Hg|w l1 r l2 p b Hr Hn|w n _ Hg|w txs Hg|w txs l now b p Hg Hb Hst|w txs now p Hg _].
  - destruct (inject_pools _ _ _ _ _ _ Hi) as (new & Ep & Ea & Er & Ev & En). simpl. rewrite Ea, Ev. do 2 (split; [done|]). right.
    unfold pools_of. simpl. rewrite En, Ep, Ea, Er. apply (move_inject strict (pools_of w)).
  - destruct (SchedulingTxs_pools _ _ _ _ _ Hs) as (Ea & Er & Ev & taken & Ep & Hin). simpl. rewrite Ea, Ev.
    do 2 (split; [done|]). right. unfold pools_of. simpl. rewrite Ea, Er. eapply (move_schedule strict (pools_of w)); [done|].
    intros x Hx. simpl. unfold w_tasked in *. simpl in Hx. rewrite !fmap_app, !concat_app in *.
    rewrite !elem_of_app in *. destruct Hx as [[?|Hx]|?]; auto. right.
    apply elem_of_concat_fmap in Hx as (t & Ht & Hx). by eapply Hin.
  - destruct (SchedulingTxs_idle _ _ _ _ Hs) as (Ep & Ea & Er & Ev). simpl. rewrite Ea, Ev. do 2 (split; [done|]). left.
    unfold pools_of. simpl. by rewrite Ep, Ea, Er.
  - destruct (handleBlockMsg_pools _ _ _ _ _ _ Hb Eb) as (Ep & Ea & Er & _ & Ev & Hin). simpl. rewrite Ea, Ev.
    do 2 (split; [done|]). right. unfold pools_of. simpl. rewrite Ep, Ea, Er. apply (move_receive strict (pools_of w)).
    intros x Hx. simpl. unfold w_tasked in *. simpl in Hx. rewrite !fmap_app, !concat_app in *.
    rewrite !elem_of_app in *. destruct Hx as [[?|Hx]|?]; auto. right.
    apply elem_of_concat_fmap in Hx as (t & Ht & Hx). by eapply Hin.
  - destruct (aside_pools _ _ Ha) as (Ep & Ea & Er & Ev). simpl. rewrite Ea, Ev. do 2 (split; [done|]). left.
    unfold pools_of. simpl. by rewrite Ep, Ea, Er.
  - do 2 (split; [done|]). right. apply (move_insert strict (pools_of w) []); [set_solver|]. simpl. unfold w_tasked. simpl.
    rewrite Hu, !fmap_app, !concat_app. simpl. set_solver.
  - do 2 (split; [done|]). right. apply (move_insert strict (pools_of w) []); [set_solver|]. simpl. unfold w_tasked. simpl.
    rewrite Hu. apply tasked_split.
  - split; [by apply keyed_put|]. split; [done|]. right. apply (move_insert strict (pools_of w)); simpl; unfold w_tasked; simpl;
      rewrite Hu, !fmap_app, !concat_app; simpl; set_solver.
  - do 2 (split; [done|]). by left.
  - do 2 (split; [done|]). left. unfold pools_of. simpl. by rewrite Hg.
  - do 2 (split; [done|]). right. apply (move_read strict (pools_of w)). by right.
  - simpl. destruct (gather_one_spec _ _ _ _ _ _ _ Hk El) as [-> [[En ->]|(tx & tx' & Ex & Eu & <- & ->)]].
    + split; [by apply keyed_delete|]. split; [done|]. right. unfold pools_of. simpl. rewrite delete_id by done.
      eapply (move_reset strict (pools_of w)). simpl. by rewrite Hg.
    + split; [by apply keyed_delete|]. split; [done|]. right. eapply (move_append strict (pools_of w)); [|done..].
      simpl. by rewrite Hg.
  - do 2 (split; [done|]). left. unfold pools_of. simpl. by rewrite Hg.
  - do 2 (split; [done|]). left. unfold pools_of. simpl. by rewrite Hg.
  - injection Hn as <- _. do 2 (split; [done|]). by left.
  - do 2 (split; [done|]). right. apply (move_take strict (pools_of w)).
  - do 2 (split; [done|]). right. by apply (move_cut strict (pools_of w)).
  - destruct (blockGenerate_pools _ _ _ _ Hb) as (Ep & Ea & Ev & Ey). simpl. rewrite Ea, Ev. do 2 (split; [done|]). right.
    unfold pools_of. simpl. rewrite Ep, Ea, fmap_app, concat_app. simpl. rewrite Ey, app_nil_r.
    apply (move_block strict (pools_of w)); [done|]. intros Hstrict. simpl.
    destruct (w_gather w) as [g|]; [|done]. simpl. by apply Hst.
  - do 2 (split; [done|]). right. apply (move_no_block strict (pools_of w)).
Qed.

(** ** Where transactions come from *)

(** All of [l] arrived, up to the times stamped by followers. *)
Definition from_arrived (P : pools) (l : list Transaction) : Prop :=
  forall tx, tx ∈ l -> untimed tx ∈ untimed <$> arrived P.

Record traced (P : pools) : Prop := {
  tr_pending : pending P ⊆ arrived P;
  tr_tasked : tasked P ⊆ arrived P;
  tr_allocated : forall h tx, allocated P !! h = Some tx -> tx ∈ arrived P /\ TxHash tx = h;
  tr_processed : from_arrived P (processed P);
  tr_reading : forall l, reading P = Some l -> from_arrived P l;
  tr_generated : forall g, generated P = Some g -> from_arrived P (gn_txs g) /\ forall l, gn_read g = Some l -> from_arrived P l;
  tr_included : from_arrived P (included P);
}.

Lemma hashes_untimed (l : list Transaction) tx : untimed tx ∈ untimed <$> l -> TxHash tx ∈ hashes l.
Proof.
  intros (tx' & E & Hin)%list_elem_of_fmap. apply list_elem_of_fmap. exists tx'. split; [|done].
  by apply (f_equal TxHash) in E.
Qed.

Lemma from_arrived_app P l1 l2 : from_arrived P (l1 ++ l2) <-> from_arrived P l1 /\ from_arrived P l2.
Proof. unfold from_arrived. setoid_rewrite elem_of_app. naive_solver. Qed.

Lemma from_arrived_subset P l1 l2 : l1 ⊆ l2 -> from_arrived P l2 -> from_arrived P l1.
Proof. intros Hs Hf tx Hin. by apply Hf, Hs. Qed.

(** More arrivals, and no other change to what has been taken so far. *)
Lemma traced_arrive P P' :
  arrived P ⊆ arrived P' -> pending P' ⊆ arrived P' -> tasked P' ⊆ arrived P' -> allocated P' = allocated P ->
  processed P' = processed P -> reading P' = reading P -> generated P' = generated P -> included P' = included P ->
  traced P -> traced P'.
Proof.
  intros Hs Hp' Ht' Ea Er Ed Eg Ei [Hp Ht Ha Hr Hd Hg Hi].
  assert (forall l, from_arrived P l -> from_arrived P' l) as Hup.
  { intros l Hl tx Hin. destruct (proj1 (list_elem_of_fmap _ _ _) (Hl tx Hin)) as (tx0 & -> & Hin0).
    apply list_elem_of_fmap_2. by apply Hs. }
  split; rewrite ?Ea, ?Er, ?Ed, ?Eg, ?Ei; auto.
  - intros h tx E. destruct (Ha h tx E). auto.
  - intros g E. destruct (Hg g E). auto.
Qed.

Lemma move_traced strict P P' : move strict P P' -> traced P -> traced P'.
Proof.
  intros Hm Htr. pose proof Htr as [Hp Ht Ha Hr Hd Hg Hi].
  destruct Hm as [P new|P taken pd tk Ep Hs|P new tk Hs|P txs tk Hs1 Hs2|P o Ho|P l tx tx' Ed Ex Eu _|P l Ed|P|P txs Eg|P txs l Eg _|P].
  - eapply traced_arrive; [..|exact Htr]; unfold arrived in *; simpl; try done; set_solver.
  - rewrite Ep in Hp. eapply traced_arrive; [..|exact Htr]; unfold arrived in *; simpl; try done; set_solver.
  - eapply traced_arrive; [..|exact Htr]; unfold arrived in *; simpl; try done; set_solver.
  - split; simpl; try done; [set_solver|].
    intros h tx [[Hin <-]|E]%put_Some; [split; [by apply Ht, Hs1|done]|by apply Ha].
  - split; simpl; try done. intros l ->. destruct Ho as [|[= ->]]; done.
  - split; simpl; try done.
    + intros h t [_ E]%lookup_delete_Some. by apply Ha.
    + apply from_arrived_app. split; [by apply Hd|]. intros t ->%list_elem_of_singleton. rewrite Eu.
      apply list_elem_of_fmap_2. by eapply Ha.
  - split; simpl; try done. by apply Hd.
  - split; simpl; try done. by intros g [= <-].
  - split; simpl; try done. intros g [= <-]. destruct (Hg _ Eg). split; [done|]. by intros l [= <-].
  - destruct (Hg _ Eg) as [Hx Hl]. split; simpl; try done.
    + eapply from_arrived_subset; [|by apply Hl]. apply subseteq_drop.
    + by apply from_arrived_app.
  - split; simpl; done.
Qed.

(** ** Each transaction once *)

(** With the arriving hashes distinct and the two orders kept, a transaction is in
    one place at a time; what is read of the pool of processed ones is a prefix of
    it. *)
Record separate (P : pools) : Prop := {
  se_pending : NoDup (hashes (pending P));
  se_out : NoDup (hashes (out P));
  se_pending_tasked : forall h, h ∈ hashes (pending P) -> h ∉ hashes (tasked P);
  se_pending_allocated : forall h, h ∈ hashes (pending P) -> allocated P !! h = None;
  se_pending_out : forall h, h ∈ hashes (pending P) -> h ∉ hashes (out P);
  se_tasked_out : forall h, h ∈ hashes (tasked P) -> h ∉ hashes (out P);
  se_allocated_out : forall h, is_Some (allocated P !! h) -> h ∉ hashes (out P);
  se_reading : forall l, reading P = Some l -> l = processed P;
  se_generated : forall g, generated P = Some g ->
    exists m, default (processed P) (gn_read g) = gn_txs g ++ m /\ default (processed P) (gn_read g) `prefix_of` processed P;
}.

Lemma hashes_subset (l l' : list Transaction) : l ⊆ l' -> hashes l ⊆ hashes l'.
Proof. intros Hs h (tx & -> & Hin)%list_elem_of_fmap. by apply list_elem_of_fmap_2, Hs. Qed.

(** Hashes that arrive for the first time are nowhere yet. *)
Lemma arrive_fresh P h :
  traced P -> h ∉ hashes (arrived P) ->
  h ∉ hashes (pending P) /\ h ∉ hashes (tasked P) /\ allocated P !! h = None /\ h ∉ hashes (out P).
Proof.
  intros [Hp Ht Ha Hr _ _ Hi] Hh. split; [|split; [|split]].
  - intros ?. by apply Hh, (hashes_subset _ _ Hp).
  - intros ?. by apply Hh, (hashes_subset _ _ Ht).
  - destruct (allocated P !! h) as [tx|] eqn:E; [|done]. destruct (Ha h tx E) as [Hin <-]. exfalso.
    by apply Hh, list_elem_of_fmap_2.
  - intros (tx & -> & Hin)%list_elem_of_fmap. apply Hh, hashes_untimed.
    unfold out in Hin. apply elem_of_app in Hin as [Hin|Hin]; [by apply Hi|by apply Hr].
Qed.

Lemma inject_separate P new :
  traced P -> NoDup (hashes ((injected P ++ new) ++ received P)) -> separate P ->
  separate (mkPools (pending P ++ new) (tasked P) (allocated P) (processed P) (reading P) (generated P)
    (included P) (injected P ++ new) (received P)).
Proof.
  intros Htr Hnd [Sp So S1 S2 S3 S4 S5 S6 S7].
  assert (NoDup (hashes new) /\ forall h, h ∈ hashes new -> h ∉ hashes (arrived P)) as [Hnew Hfresh].
  { unfold arrived. rewrite !fmap_app in *. apply NoDup_app in Hnd as (Hnd & Hd2 & _).
    apply NoDup_app in Hnd as (_ & Hd1 & Hn). split; [done|]. set_solver. }
  split; simpl; try done.
  - rewrite fmap_app. apply NoDup_app. split; [done|]. split; [|done]. intros h Hh Hn. by destruct (arrive_fresh P h Htr (Hfresh h Hn)) as (? & ? & ? & ?).
  - intros h. rewrite fmap_app. intros [Hh|Hh]%elem_of_app; [by apply S1|]. by destruct (arrive_fresh P h Htr (Hfresh h Hh)) as (? & ? & ? & ?).
  - intros h. rewrite fmap_app. intros [Hh|Hh]%elem_of_app; [by apply S2|]. by destruct (arrive_fresh P h Htr (Hfresh h Hh)) as (? & ? & ? & ?).
  - intros h. rewrite fmap_app. intros [Hh|Hh]%elem_of_app; [by apply S3|]. by destruct (arrive_fresh P h Htr (Hfresh h Hh)) as (? & ? & ? & ?).
Qed.

Lemma schedule_separate P taken pending' tasked' :
  pending P = taken ++ pending' -> tasked' ⊆ tasked P ++ taken -> separate P ->
  separate (mkPools pending' tasked' (allocated P) (processed P) (reading P) (generated P)
    (included P) (injected P) (received P)).
Proof.
  intros Ep Hs [Sp So S1 S2 S3 S4 S5 S6 S7]. apply hashes_subset in Hs. rewrite fmap_app in Hs.
  rewrite Ep, fmap_app in *. apply NoDup_app in Sp as (_ & Hdis & Hnd).
  split; simpl; try done.
  - intros h Hh [Ht|Ht]%Hs%elem_of_app; [by eapply S1; [apply elem_of_app; right|]|by eapply Hdis].
  - intros h Hh. apply S2, elem_of_app. by right.
  - intros h Hh. apply S3, elem_of_app. by right.
  - intros h [Ht|Ht]%Hs%elem_of_app; [by apply S4|]. apply S3, elem_of_app. by left.
Qed.

Lemma receive_separate P new tasked' :
  traced P -> NoDup (hashes (injected P ++ received P ++ new)) -> tasked' ⊆ tasked P ++ new -> separate P ->
  separate (mkPools (pending P) tasked' (allocated P) (processed P) (reading P) (generated P)
    (included P) (injected P) (received P ++ new)).
Proof.
  intros Htr Hnd Hs [Sp So S1 S2 S3 S4 S5 S6 S7]. apply hashes_subset in Hs. rewrite fmap_app in Hs.
  assert (forall h, h ∈ hashes new -> h ∉ hashes (arrived P)) as Hfresh.
  { rewrite (assoc (++)), fmap_app in Hnd. apply NoDup_app in Hnd as (_ & Hd & _). unfold arrived. set_solver. }
  split; simpl; try done.
  - intros h Hh [Ht|Ht]%Hs%elem_of_app; [by eapply S1|]. by destruct (arrive_fresh P h Htr (Hfresh h Ht)) as (? & ? & ? & ?).
  - intros h [Ht|Ht]%Hs%elem_of_app; [by apply S4|]. by destruct (arrive_fresh P h Htr (Hfresh h Ht)) as (? & ? & ? & ?).
Qed.

Lemma insert_separate P txs tasked' :
  txs ⊆ tasked P -> tasked' ⊆ tasked P -> separate P ->
  separate (mkPools (pending P) tasked' (foldl (fun m tx => <[TxHash tx := tx]> m) (allocated P) txs)
    (processed P) (reading P) (generated P) (included P) (injected P) (received P)).
Proof.
  intros Hs1%hashes_subset Hs2%hashes_subset [Sp So S1 S2 S3 S4 S5 S6 S7]. split; simpl; try done.
  - set_solver.
  - intros h Hh. rewrite eq_None_not_Some, put_is_Some. intros [Hi|Hi]; [by eapply S1; [|apply Hs1]|].
    rewrite S2 in Hi by done. by destruct Hi.
  - intros h Hh. by apply S4, Hs2.
  - intros h [Hi|Hi]%put_is_Some; [by apply S4, Hs1|by apply S5].
Qed.

Lemma append_separate P l tx tx' :
  reading P = Some l -> allocated P !! TxHash tx' = Some tx -> TxHash tx' ∉ hashes (tasked P) -> separate P ->
  separate (mkPools (pending P) (tasked P) (base.delete (TxHash tx') (allocated P)) (l ++ [tx']) None
    (generated P) (included P) (injected P) (received P)).
Proof.
  intros Er Ex Ht [Sp So S1 S2 S3 S4 S5 S6 S7]. apply S6 in Er as ->.
  assert (forall h, h ∈ hashes (included P ++ processed P ++ [tx']) -> h ∈ hashes (out P) \/ h = TxHash tx') as Hout.
  { intros h. rewrite (assoc (++)), fmap_app. intros [?|?%list_elem_of_singleton]%elem_of_app; auto. }
  split; simpl; try done.
  - unfold out. simpl. rewrite (assoc (++)), fmap_app. apply NoDup_app. split; [done|]. split; [|repeat constructor; set_solver].
    intros h Ho ->%list_elem_of_singleton. eapply S5; [by eexists|exact Ho].
  - intros h Hh. apply lookup_delete_None. right. by apply S2.
  - intros h Hh [?| ->]%Hout; [by eapply S3|]. by rewrite S2 in Ex.
  - intros h Hh [?| ->]%Hout; [by eapply S4|done].
  - intros h [x [Hne E]%lookup_delete_Some] [?| ->]%Hout; [|done]. eapply S5; [by eexists|done].
  - intros g Eg. destruct (S7 g Eg) as (m & Em & Hp). destruct (gn_read g) as [r|]; simpl in *.
    + exists m. split; [done|]. by apply prefix_app_r.
    + exists (m ++ [tx']). split; [|done]. by rewrite Em, (assoc (++)).
Qed.

Lemma block_separate P txs l :
  generated P = Some (mkGeneration txs (Some l)) -> reading P = None -> separate P ->
  separate (mkPools (pending P) (tasked P) (allocated P) (drop (length txs) l) (reading P) None
    (included P ++ txs) (injected P) (received P)).
Proof.
  intros Eg Er [Sp So S1 S2 S3 S4 S5 S6 S7]. destruct (S7 _ Eg) as (m & Em & [k Ek]). simpl in Em, Ek. subst l.
  rewrite drop_app_length.
  assert (hashes (out P) = hashes ((included P ++ txs) ++ m) ++ hashes k) as Eo.
  { unfold out. rewrite Ek, <- fmap_app. f_equal. by rewrite !(assoc (++)). }
  rewrite Eo in So. setoid_rewrite Eo in S3. setoid_rewrite Eo in S4. setoid_rewrite Eo in S5.
  setoid_rewrite not_elem_of_app in S3. setoid_rewrite not_elem_of_app in S4. setoid_rewrite not_elem_of_app in S5.
  apply NoDup_app in So as [So _].
  split; simpl; try done; try naive_solver.
Qed.

Lemma move_separate P P' : move true P P' -> NoDup (hashes (arrived P')) -> traced P -> separate P -> separate P'.
Proof.
  intros Hm Hnd Htr Hse. pose proof Hse as [Sp So S1 S2 S3 S4 S5 S6 S7].
  destruct Hm as [P new|P taken pd tk Ep Hs|P new tk Hs|P txs tk Hs1 Hs2|P o Ho|P l tx tx' Ed Ex _ Ht|P l Ed|P|P txs Eg|P txs l Eg Hd|P].
  - by apply inject_separate.
  - by eapply schedule_separate.
  - by apply receive_separate.
  - by apply insert_separate.
  - split; simpl; try done. intros l ->. destruct Ho as [|[= ->]]; done.
  - by eapply append_separate; [..|apply Ht|].
  - rewrite (S6 l Ed). by split.
  - split; simpl; try done. intros g [= <-]. simpl. exists []. by rewrite app_nil_r.
  - split; simpl; try done. intros g [= <-]. simpl. destruct (S7 _ Eg) as (m & Em & _). by exists m.
  - by apply block_separate; [|apply Hd|].
  - by split.
Qed.

Lemma move_arrived strict P P' : move strict P P' -> NoDup (hashes (arrived P')) -> NoDup (hashes (arrived P)).
Proof.
  intros []; unfold arrived; simpl; try done; rewrite !fmap_app.
  - intros ([? _]%NoDup_app & Hd & ?)%NoDup_app. apply NoDup_app. split; [done|]. split; [|done]. set_solver.
  - rewrite (assoc (++)). by intros [? _]%NoDup_app.
Qed.

(** A node as it is started. *)
Definition fresh (p : ProposerNode R) : Prop := PendingTxpool p = [] /\ AllocatedTxpool p = ∅ /\ ProcessedTxpool p = [].

Lemma start_pools p : fresh p -> world_ok (start p) /\ verify_ok (start p) /\ pools_of (start p) = mkPools [] [] ∅ [] None None [] [] [].
Proof.
  intros (E1 & E2 & E3). unfold pools_of, world_ok, verify_ok. simpl. rewrite E1, E2, E3. split; [|done].
  intros h tx E. by rewrite lookup_empty in E.
Qed.

Lemma reachable_traced strict p w : fresh p -> reachable strict p w -> world_ok w /\ verify_ok w /\ traced (pools_of w).
Proof.
  intros Hf. revert w. apply rtc_ind_r; [|intros w w' _ Hs (Hw & Hv & Htr)].
  - destruct (start_pools p Hf) as (Hw & Hv & ->). do 2 (split; [done|]). split; simpl; try done.
    + by intros tx ?%not_elem_of_nil.
    + by intros tx ?%not_elem_of_nil.
  - destruct (step_move strict w w' Hw Hv Hs) as (Hw' & Hv' & [->|Hm]); [done|]. do 2 (split; [done|]). by eapply move_traced.
Qed.

Lemma reachable_separate p w :
  fresh p -> reachable true p w -> NoDup (hashes (arrived (pools_of w))) -> separate (pools_of w).
Proof.
  intros Hf. revert w. refine (rtc_ind_r (fun w => NoDup (hashes (arrived (pools_of w))) -> separate (pools_of w)) _ _ _);
    [intros Hnd|intros w w' Hr Hs IH Hnd].
  - destruct (start_pools p Hf) as (_ & _ & ->). split; simpl; try done; try constructor; set_solver.
  - destruct (reachable_traced true p w Hf Hr) as (Hw & Hv & Htr).
    destruct (step_move true w w' Hw Hv Hs) as (_ & _ & [E|Hm]); [rewrite E in *; by apply IH|].
    eapply move_separate; [done|done|done|]. by eapply IH, move_arrived.
Qed.

(** C6. Provenance: however the handlers of the proposer and its followers
    interleave, also when an answer is handled before the allocations and when
    gathering and block generation race on the pool of processed transactions,
    every transaction of every block, and every one gathered for the next block,
    is one that was injected or one of a received block, unchanged but for the
    two times a follower stamps.  Until the proposer holds [VerifyLock], that is
    until its first received block, all of them were injected. *)
Theorem only_arrived (strict : bool) (p : ProposerNode R) (w : world) :
  fresh p -> reachable strict p w ->
  (forall tx, (tx ∈ ProcessedTxpool (w_node w) \/ exists b, b ∈ w_blocks w /\ tx ∈ Body b) ->
    untimed tx ∈ untimed <$> w_injected w ++ w_received w) /\
  (VerifyLocked (w_node w) = false -> w_received w = []).
Proof.
  intros Hf Hr. destruct (reachable_traced strict p w Hf Hr) as (_ & Hv & Htr). split; [|done].
  intros tx [Hin|(b & Hb & Hx)]; [by apply (tr_processed _ Htr)|].
  apply (tr_included _ Htr). apply elem_of_concat_fmap. by exists b.
Qed.

(** C5. No double inclusion: when the hashes of the injected transactions and of
    those of received blocks are distinct, and the two orders hold that the code
    leaves open (a transaction is gathered only after every task that carries it
    has entered it into the pool of allocated ones; a block does not cut the pool
    of processed ones while an [append] to it is between its read and its write),
    no hash occurs twice over all blocks and the transactions gathered for the
    next one, although two followers execute and report every transfer between
    them.  A gathering that loses its append to a cut is allowed. *)
Theorem no_double_inclusion (p : ProposerNode R) (w : world) :
  fresh p -> reachable true p w -> NoDup (hashes (w_injected w ++ w_received w)) ->
  NoDup (hashes (concat (Body <$> w_blocks w) ++ ProcessedTxpool (w_node w))).
Proof. intros Hf Hr Hnd. exact (se_out _ (reachable_separate p w Hf Hr Hnd)). Qed.


(** ** Runs *)

(** The stamped copy that an answer with one transaction leaves. *)
Definition stamped (tx t : Transaction) : Transaction :=
  set_ExecutionTime (set_AllocateTime tx (AllocateTime t)) (ExecutionTime t).

(** An answer with one hash, gathered without interruption. *)
Lemma gather_run strict w l1 r l2 tx t :
  w_replies w = l1 ++ r :: l2 -> w_gather w = None -> TxHashs r = [TxHash tx] -> pt_Txs r = [t] ->
  AllocatedTxpool (w_node w) !! TxHash tx = Some tx -> (strict = true -> TxHash tx ∉ hashes (w_tasked w)) ->
  rtc (step strict) w (w_with_gather (w_with_net (w_with_node w (p_with_pools (w_node w) (PendingTxpool (w_node w))
    (base.delete (TxHash tx) (AllocatedTxpool (w_node w))) (ProcessedTxpool (w_node w) ++ [stamped tx t])))
    (w_messages w) (l1 ++ l2)) None (w_gathered w ++ [r])).
Proof.
  intros Er Eg Eh Et Ex Hst.
  eapply rtc_l; [by eapply step_lock|]. eapply rtc_l; [eapply step_read; [reflexivity|by rewrite Eh|by eexists]|].
  eapply rtc_l; [eapply step_append; [reflexivity|by rewrite Eh| |exact Hst]|].
  { cbn [w_node w_with_gather w_with_net gather_loop]. rewrite Ex, Et. done. }
  eapply rtc_l; [eapply step_unlock; simpl; by rewrite Eh|]. apply rtc_refl.
Qed.

(** The same for a hash that is no longer allocated. *)
Lemma gather_nothing_run strict w l1 r l2 h :
  w_replies w = l1 ++ r :: l2 -> w_gather w = None -> TxHashs r = [h] -> AllocatedTxpool (w_node w) !! h = None ->
  rtc (step strict) w (w_with_gather (w_with_net w (w_messages w) (l1 ++ l2)) None (w_gathered w ++ [r])).
Proof.
  intros Er Eg Eh Ex. eapply rtc_l; [by eapply step_lock|].
  eapply rtc_l; [eapply step_miss; [reflexivity|by rewrite Eh|done]|].
  eapply rtc_l; [eapply step_unlock; simpl; by rewrite Eh|]. apply rtc_refl.
Qed.
End pools.

(** ** An answer that overtakes an allocation *)

Section overtaking.
Context `{EthDB} `{FastCache} `{RLPLaws} `{EthCommon} `{!HashLaws} `{!CollisionFree}.
Context `{!EthDBLaws} `{StateAccountRLP} `{!MemoryDB} `{Bolt}.
Context `{Gob AccountState} `{Gob Transaction} `{Gob Block} `{Gob BlockHeader} `{Sha256} `{Params}.
Context {R : Type} `{HashRingOps R} `{Encryptor}.
Context `{Json Allocate_TxMsgs} `{Json Precessed_TxMsgs} `{Json P_RequestDataMsgs} `{Json F_ResponseDataMsgs}.
Context `{Json F_ReadyMsgs} `{Json P_AllocateDataMsgs} `{Json P_AllocFidMsgs} `{Json Follower_JoinMsgs} `{Json BlockMsg}.
Context `{Json ExecuteTimeMsg} `{Json Verfying_TxMsgs} `{!JsonLaws}.

Lemma TxAllocate_send_spec (p : ProposerNode R) t :
  tk_fid t ∈ ReadyMap p -> Forall tx_json (tk_txs t) ->
  exists frame, TxAllocate_send p t = Ret (Some (tk_addr t, frame)) /\
    carries "Proposer_Tx_Allocate" (mkAllocate (tk_txs t) (p_ShardID p) (tk_fid t) (tk_epoch t)) frame.
Proof.
  intros Hr Hj. unfold TxAllocate_send. rewrite decide_True by done.
  destruct (send_spec "Proposer_Tx_Allocate" (mkAllocate (tk_txs t) (p_ShardID p) (tk_fid t) (tk_epoch t)) (tk_addr t))
    as (frame & E & Hc); [by apply json_allocate|set_solver|]. rewrite E. by exists frame.
Qed.

(** The whole batch of one transfer between followers 0 and 1 goes to both. *)
Lemma schedule_transfer (p : ProposerNode R) tx :
  FollowerIDs p = [0; 1] -> PendingTxpool p = [tx] -> addressed tx -> lanes 2 tx = Some (0, 1) ->
  exists t0 t1, SchedulingTxs p 1 [0%nat] = Done (p_with_idle (p_with_epoch
      (p_with_pools p [] (AllocatedTxpool p) (ProcessedTxpool p)) (wrap_u 32 (EpochId p + 1)) (GatherMap p)) (p_stop p) 0,
      Tasks [t0; t1]) /\ tk_fid t0 = 0 /\ tk_fid t1 = 1 /\ tk_txs t0 = [tx] /\ tk_txs t1 = [tx] /\
      tk_epoch t0 = wrap_u 32 (EpochId p + 1) /\ tk_epoch t1 = wrap_u 32 (EpochId p + 1).
Proof.
  intros Hids Hp Ha Hl. assert (batch p 1 = [tx]) as Eb by (unfold batch; by rewrite Hp).
  destruct (SchedulingTxs_spec p 2 1 [0%nat]) as (p' & tasks & E & [Hpd Hr Hlen Hsh]);
    [exact Hids|lia|lia|by rewrite Hp|rewrite Eb; by constructor|by rewrite Eb|].
  destruct tasks as [|t0 [|t1 [|]]]; try done. exists t0, t1.
  assert (forall k t, [t0; t1] !! k = Some t -> tk_fid t = Z.of_nat k /\ tk_txs t = [tx] /\ tk_epoch t = wrap_u 32 (EpochId p + 1)) as Hshare.
  { intros k t Hk. destruct (Hsh k t Hk) as (Hf & _ & He & Hx). split; [done|]. split; [|done]. rewrite Eb in Hx.
    assert (touches (Z.of_nat 2) (Z.of_nat k) tx = true) as Ht.
    { unfold touches. change (Z.of_nat 2) with 2. rewrite Hl. by destruct k as [|[|k]]. }
    rewrite filter_cons_True in Hx by done. by apply Permutation_singleton_r in Hx. }
  destruct (Hshare 0%nat t0 eq_refl) as (F0 & X0 & P0), (Hshare 1%nat t1 eq_refl) as (F1 & X1 & P1).
  split; [|done]. rewrite E, Hr. rewrite Hp in Hpd. rewrite Hpd. done.
Qed.

(** The next step of a run, then the world it leads to. *)
Local Tactic Notation "run_step" tactic3(tac) := eapply rtc_l; [tac|]; cbn [w_with_node w_with_tasks w_with_net w_with_gather
  w_with_blocks w_with_arrived w_node w_unsent w_unput w_messages w_replies w_gather w_gathered w_generating w_generation
  w_blocks w_injected w_received app].

(** The answer of the follower of a task that executed its one transaction. *)
Definition reply_to (tx : Transaction) (t : alloc_task) : Precessed_TxMsgs :=
  mkPrecessed [tx] [TxHash tx] [] (tk_fid t) (tk_epoch t) [].

Lemma reply_to_answers (p : ProposerNode R) tx t :
  tk_txs t = [tx] -> answer_to (mkAllocate (tk_txs t) (p_ShardID p) (tk_fid t) (tk_epoch t)) (reply_to tx t).
Proof. intros Et. do 2 (split; [done|]). cbn [at_Txs]. rewrite Et. split; [done|]. by exists [true]. Qed.

(** The node after a round with one transfer. *)
Definition scheduled_node (p : ProposerNode R) : ProposerNode R :=
  p_with_idle (p_with_epoch (p_with_pools p [] ∅ []) (wrap_u 32 (EpochId p + 1)) (GatherMap p)) (p_stop p) 0.

(** A transfer between followers 0 and 1 is injected and scheduled, and both messages are sent. *)
Lemma transfer_sent strict (p : ProposerNode R) (tx : Transaction) :
  fresh p -> p_stop p = false -> FollowerIDs p = [0; 1] -> ReadyMap p = {[0; 1]} ->
  addressed tx -> tx_json tx -> lanes 2 tx = Some (0, 1) ->
  exists t0 t1, reachable strict p (mkWorld (scheduled_node p) [] [t0; t1]
    [mkAllocate (tk_txs t0) (p_ShardID p) (tk_fid t0) (tk_epoch t0); mkAllocate (tk_txs t1) (p_ShardID p) (tk_fid t1) (tk_epoch t1)]
    [] None [] 0 None [] [tx] []) /\ tk_fid t0 = 0 /\ tk_fid t1 = 1 /\ tk_txs t0 = [tx] /\ tk_txs t1 = [tx] /\
    tk_epoch t0 = wrap_u 32 (EpochId p + 1) /\ tk_epoch t1 = wrap_u 32 (EpochId p + 1).
Proof.
  intros (E1 & E2 & E3) Hst Hids Hrdy Ha Hj Hl. set (p1 := p_with_pools p [tx] ∅ []).
  assert (inject p 1 [tx] (fun _ => Time tx) = ([], p1)) as Ei.
  { unfold inject. rewrite Hst, E1, E2, E3. simpl. unfold set_Time. by destruct tx. }
  destruct (schedule_transfer p1 tx Hids eq_refl Ha Hl) as (t0 & t1 & Es & F0 & F1 & X0 & X1 & P0 & P1).
  destruct (TxAllocate_send_spec (scheduled_node p) t0) as (fr0 & S0 & _);
    [rewrite F0; cbn; rewrite Hrdy; set_solver|rewrite X0; by constructor|].
  destruct (TxAllocate_send_spec (scheduled_node p) t1) as (fr1 & S1 & _);
    [rewrite F1; cbn; rewrite Hrdy; set_solver|rewrite X1; by constructor|].
  exists t0, t1. split; [|done]. unfold reachable, start.
  run_step (eapply step_inject, Ei).
  run_step (eapply step_schedule; exact Es).
  run_step (eapply (step_send strict _ [] t0 [t1]); [done|exact S0]).
  run_step (eapply (step_send strict _ [] t1 []); [done|exact S1]). rewrite E1. apply rtc_refl.
Qed.

Lemma answer_overtakes_spec (p : ProposerNode R) (tx : Transaction) :
  fresh p -> p_stop p = false -> FollowerIDs p = [0; 1] -> ReadyMap p = {[0; 1]} ->
  addressed tx -> tx_json tx -> lanes 2 tx = Some (0, 1) ->
  exists w, reachable false p w /\ w_injected w = [tx] /\ hashes (ProcessedTxpool (w_node w)) = [TxHash tx; TxHash tx].
Proof.
  intros Hf Hst Hids Hrdy Ha Hj Hl.
  destruct (transfer_sent false p tx Hf Hst Hids Hrdy Ha Hj Hl) as (t0 & t1 & Hr & F0 & F1 & X0 & X1 & _).
  eexists. split; [unfold reachable in *; etrans; [exact Hr|]|].
  { run_step (eapply (step_insert false _ [] t0 [t1]); done).
    run_step (eapply (step_answer false _ []); [reflexivity|by apply (reply_to_answers p tx)]).
    etrans; [eapply (gather_run false _ [] _ [] tx tx); try done; simpl; rewrite X0; apply lookup_insert_eq|].
    run_step (eapply (step_insert false _ [] t1 []); done).
    run_step (eapply (step_answer false _ []); [reflexivity|by apply (reply_to_answers p tx)]).
    eapply (gather_run false _ [] _ [] tx tx); try done; simpl; rewrite X1; apply lookup_insert_eq. }
  done.
Qed.

(** C7. Overtaking: a task sends its message before it enters the transactions
    into the pool of allocated ones.  When the answer of one follower is handled
    between the two tasks of a transfer, the second task enters the transfer
    again, and the answer of the other follower gathers it a second time: one
    injected transaction is then twice in the next block. *)
Theorem answer_overtakes_allocation (p : ProposerNode R) (tx : Transaction) :
  fresh p -> p_stop p = false -> FollowerIDs p = [0; 1] -> ReadyMap p = {[0; 1]} ->
  addressed tx -> tx_json tx -> lanes 2 tx = Some (0, 1) ->
  exists w, reachable false p w /\ w_injected w = [tx] /\ hashes (ProcessedTxpool (w_node w)) = [TxHash tx; TxHash tx].
Proof. apply answer_overtakes_spec. Qed.
End overtaking.
