(* ===== verification/Liveness.v ===== *)
(** * Progress of an epoch

    One epoch from the pending pool to the stored block, over the frames that the
    followers send back, once all its tasks have run: the answers may arrive in any
    order, exactly the last one starts the block, and the block holds exactly the
    transactions the followers named.  A follower that joins changes the count of answers the proposer waits
    for before it can answer: until it has reported ready no block is started. *)

From stdpp Require Import base gmap strings list pretty.
From Stdlib Require Import ZArith Lia.
From S2P Require Import Prelude Encoding TrieSpec Node Trie TrieMap Hasher Committer Reload Database Core Storage Chain.
From S2P Require Import ChainMem ConsistentHash Message Follower Proposer Epoch Pools.

Local Open Scope Z_scope.

Section liveness.
Context `{EthDB} `{FastCache} `{RLPLaws} `{EthCommon} `{!HashLaws} `{!CollisionFree}.
Context `{!EthDBLaws} `{StateAccountRLP} `{!MemoryDB} `{BoltLaws}.
Context `{Gob AccountState} `{Gob Transaction} `{Gob Block} `{Gob BlockHeader} `{Sha256} `{Params}.
Context {R : Type} `{HashRingOps R} `{Encryptor}.
Context `{Json Allocate_TxMsgs} `{Json Precessed_TxMsgs} `{Json P_RequestDataMsgs} `{Json F_ResponseDataMsgs}.
Context `{Json F_ReadyMsgs} `{Json P_AllocateDataMsgs} `{Json P_AllocFidMsgs} `{Json Follower_JoinMsgs} `{Json BlockMsg}.
Context `{Json ExecuteTimeMsg} `{Json Verfying_TxMsgs} `{!JsonLaws}.

(** ** Runs *)

(** The tasks of a round, one after the other in some order. *)
Fixpoint allocate_tasks (p : ProposerNode R) (ts : list alloc_task) : outcome (list packet * ProposerNode R) :=
  match ts with
  | [] => Ret ([], p)
  | t :: ts =>
      '(pks, p) ← TxAllocate p t;
      '(more, p) ← allocate_tasks p ts;
      Ret (pks ++ more, p)
  end.

(** Frames read one after the other, and what each of them starts. *)
Fixpoint deliver (p : ProposerNode R) (frames : list (list Z)) : sync (ProposerNode R * list started) :=
  match frames with
  | [] => Done (p, [])
  | f :: frames =>
      '(p, s) ← p_preHandleMessageRequest p (f ++ [10]) [];
      '(p, l) ← deliver p frames;
      Done (p, s :: l)
  end.

Definition message_of (p : ProposerNode R) (t : alloc_task) : Allocate_TxMsgs :=
  mkAllocate (tk_txs t) (p_ShardID p) (tk_fid t) (tk_epoch t).

Lemma allocate_tasks_spec ts : forall p : ProposerNode R,
  Forall (fun t => tk_fid t ∈ ReadyMap p) ts -> Forall (fun t => Forall tx_json (tk_txs t)) ts ->
  exists pks, allocate_tasks p ts = Ret (pks, p_with_pools p (PendingTxpool p)
      (foldl (fun m t => foldl (fun m tx => <[TxHash tx := tx]> m) m (tk_txs t)) (AllocatedTxpool p) ts) (ProcessedTxpool p)) /\
    Forall2 (fun t pk => pk.1 = tk_addr t /\ carries "Proposer_Tx_Allocate" (message_of p t) pk.2) ts pks.
Proof.
  induction ts as [|t ts IH]; intros p Hr Hj; [exists []; split; [by destruct p|constructor]|].
  apply Forall_cons_1 in Hr as [Hr Hrs], Hj as [Hj Hjs]. cbn [allocate_tasks foldl].
  destruct (TxAllocate_send_spec p t Hr Hj) as (fr & E & Hc). unfold TxAllocate. rewrite E. go_ret. cbv beta iota. go_ret.
  cbv beta iota. destruct (IH (TxAllocate_insert p t) Hrs Hjs) as (pks & Ea & Hp). rewrite Ea. go_ret. cbv beta iota.
  exists ((tk_addr t, fr) :: pks). split; [done|]. by constructor.
Qed.

Lemma foldl_put ts : forall m : gmap (list Z) Transaction,
  foldl (fun m t => foldl (fun m tx => <[TxHash tx := tx]> m) m (tk_txs t)) m ts =
  foldl (fun m tx => <[TxHash tx := tx]> m) m (concat (tk_txs <$> ts)).
Proof. induction ts as [|t ts IH]; intros m; simpl; [done|]. by rewrite foldl_app, IH. Qed.

(** ** Answers *)

Lemma precessed_delivered (p : ProposerNode R) r frame :
  p_stop p = false -> carries "Follower_Precessed" r frame ->
  p_preHandleMessageRequest p (frame ++ [10]) [] =
    (p1 ← run (GatherTxs p r); Done ((note_reply p1 r).1, if (note_reply p1 r).2 then StartBlock else Nothing)).
Proof.
  intros Hst (b & Es & Ej). unfold p_preHandleMessageRequest, p_handleMessage. rewrite Hst, Es. simpl run.
  cbv beta iota zeta. unfold mbind at 1, sync_bind at 1. cbv beta iota.
  rewrite bool_decide_false, bool_decide_true by done. unfold handleProcessedTxs. rewrite Ej.
  cbn [of_option]. go_ret. destruct (GatherTxs p r) as [p1|]; [|done]. go_ret. simpl run.
  unfold mbind, sync_bind. by destruct (note_reply p1 r).
Qed.

Lemma gathered_app m hs1 new1 hs2 new2 :
  keyed m -> gathered m hs1 new1 -> gathered (without hs1 m) hs2 new2 -> gathered m (hs1 ++ hs2) (new1 ++ new2).
Proof.
  intros Hk [Hn1 Hf1 Ha1] [Hn2 Hf2 Ha2].
  assert (forall h, is_Some (without hs1 m !! h) <-> h ∉ hs1 /\ is_Some (m !! h)) as Hw.
  { intros h. rewrite without_lookup. case_decide; [|naive_solver]. split; [by intros []|naive_solver]. }
  split.
  - rewrite fmap_app. apply NoDup_app. split; [done|]. split; [|done].
    intros h [H1h _]%Ha1 [_ [Hni _]%Hw]%Ha2. done.
  - intros tx [Hin|Hin]%elem_of_app; [by apply Hf1|]. destruct (Hf2 tx Hin) as (tx0 & E & Eu).
    exists tx0. split; [|done]. rewrite without_lookup in E. by case_decide.
  - intros h. rewrite fmap_app, !elem_of_app, Ha1, Ha2, Hw. destruct (decide (h ∈ hs1)); naive_solver.
Qed.

Lemma without_app hs1 hs2 m : without (hs1 ++ hs2) m = without hs2 (without hs1 m).
Proof. unfold without. apply foldl_app. Qed.

(** What the [i]-th of the answers starts when [got] were there before. *)
Definition starts (p : ProposerNode R) (got i : nat) : started :=
  if (Z.of_nat (got + i + 1) =? ph_FollowerNum p) && (p_ShardID p =? 0) then StartBlock else Nothing.

(** The answers of one epoch from distinct followers. *)
Lemma deliver_spec e rs : forall frames (p : ProposerNode R),
  p_stop p = false -> keyed (AllocatedTxpool p) ->
  Forall (fun r => pt_EpochId r = e /\ (length (TxHashs r) <= length (pt_Txs r))%nat) rs ->
  NoDup (pt_FollowerID <$> rs) ->
  (forall r, r ∈ rs -> default ∅ (GatherMap p !! e) !! pt_FollowerID r = None) ->
  Forall2 (carries "Follower_Precessed") rs frames ->
  exists new g, gathered (AllocatedTxpool p) (concat (TxHashs <$> rs)) new /\
    deliver p frames = Done (p_with_epoch (p_with_pools p (PendingTxpool p)
        (without (concat (TxHashs <$> rs)) (AllocatedTxpool p)) (ProcessedTxpool p ++ new)) (EpochId p) g,
      starts p (size (default ∅ (GatherMap p !! e))) <$> seq 0 (length rs)).
Proof.
  induction rs as [|r rs IH]; intros frames p Hst Hk Hrs Hnd Hnew Hc.
  { inversion Hc; subst. exists [], (GatherMap p). split; [split; [constructor|set_solver|set_solver]|].
    simpl. rewrite app_nil_r. by destruct p. }
  apply Forall2_cons_inv_l in Hc as (f & fs & Hcr & Hc & ->). apply Forall_cons_1 in Hrs as [[He Hl] Hrs].
  cbn [fmap list_fmap] in Hnd. apply NoDup_cons in Hnd as [Hni Hnd].
  cbn [deliver]. rewrite (precessed_delivered p r f Hst Hcr).
  destruct (GatherTxs_spec p r Hk Hl) as (new1 & Eg & Hg1). rewrite Eg. simpl run. unfold mbind, sync_bind. cbv beta iota.
  set (p1 := p_with_pools p _ _ _). set (p2 := (note_reply p1 r).1).
  assert (GatherMap p2 !! e = Some (<[pt_FollowerID r := pt_StateRoot r]> (default ∅ (GatherMap p !! e)))) as Eg2.
  { unfold p2, note_reply. cbn [fst p_with_epoch GatherMap]. by rewrite He, lookup_insert_eq. }
  assert (size (<[pt_FollowerID r := pt_StateRoot r]> (default ∅ (GatherMap p !! e))) =
          S (size (default ∅ (GatherMap p !! e)))) as Esz by (apply map_size_insert_None, Hnew; left).
  destruct (IH fs p2) as (new2 & g & Hg2 & Ed); [done|by apply keyed_without|done|done| |done|].
  { intros r' Hr'. rewrite Eg2. cbn [from_option id]. rewrite lookup_insert_ne; [apply Hnew; by right|].
    intros E. apply Hni. rewrite E. by apply list_elem_of_fmap_2. }
  exists (new1 ++ new2), g. split; [by apply gathered_app|].
  rewrite Ed. cbv beta iota. rewrite Eg2. cbn [from_option id].
  f_equal. f_equal.
  - unfold p2, p1, note_reply. cbn [fst]. unfold p_with_epoch, p_with_pools. simpl. by rewrite <- (assoc (++)), without_app.
  - cbn [length seq fmap list_fmap]. f_equal.
    + unfold starts, note_reply. cbn [snd p_with_pools GatherMap ph_FollowerNum p_ShardID p1]. rewrite He, Esz.
      by rewrite Nat.add_0_r, Nat.add_1_r.
    + rewrite <- fmap_S_seq, <- list_fmap_compose. apply list_fmap_ext. intros i x _. cbn [compose]. unfold starts.
      change (ph_FollowerNum p2) with (ph_FollowerNum p). change (p_ShardID p2) with (p_ShardID p).
      rewrite Esz. by replace (S (size (default ∅ (GatherMap p !! e))) + x + 1)%nat with (size (default ∅ (GatherMap p !! e)) + S x + 1)%nat by lia.
Qed.

(** ** A follower joins *)

(** Answers were only noted for followers in [X]. *)
Definition noted_in (X : gset Z) (p : ProposerNode R) : Prop :=
  forall e g, GatherMap p !! e = Some g -> dom g ⊆ X.

Lemma deliver_quiet X rs : forall frames (p : ProposerNode R),
  p_stop p = false -> keyed (AllocatedTxpool p) -> noted_in X p -> Z.of_nat (size X) < ph_FollowerNum p ->
  Forall (fun r => pt_FollowerID r ∈ X /\ (length (TxHashs r) <= length (pt_Txs r))%nat) rs ->
  Forall2 (carries "Follower_Precessed") rs frames ->
  exists p', deliver p frames = Done (p', replicate (length rs) Nothing).
Proof.
  induction rs as [|r rs IH]; intros frames p Hst Hk Hin Hlt Hrs Hc.
  { inversion Hc; subst. by exists p. }
  apply Forall2_cons_inv_l in Hc as (f & fs & Hcr & Hc & ->). apply Forall_cons_1 in Hrs as [[Hr Hl] Hrs].
  cbn [deliver]. rewrite (precessed_delivered p r f Hst Hcr).
  destruct (GatherTxs_spec p r Hk Hl) as (new & Eg & _). rewrite Eg. simpl run. unfold mbind, sync_bind. cbv beta iota.
  set (p1 := p_with_pools p _ _ _). set (p2 := (note_reply p1 r).1).
  assert (noted_in X p2) as Hin2.
  { intros e g. unfold p2, note_reply. cbn [fst p_with_epoch GatherMap p1 p_with_pools].
    intros [[<- <-]|[_ E]]%lookup_insert_Some; [|by eapply Hin]. rewrite dom_insert.
    assert (dom (default ∅ (GatherMap p !! pt_EpochId r)) ⊆ X); [|set_solver].
    destruct (GatherMap p !! pt_EpochId r) as [g0|] eqn:E; [by eapply Hin|set_solver]. }
  assert ((note_reply p1 r).2 = false) as ->.
  { unfold note_reply. cbn [snd]. rewrite (proj2 (Z.eqb_neq _ _)); [done|]. cbn [p1 p_with_pools ph_FollowerNum GatherMap].
    assert (size (<[pt_FollowerID r := pt_StateRoot r]> (default ∅ (GatherMap p !! pt_EpochId r))) <= size X)%nat; [|lia].
    rewrite <- size_dom. apply subseteq_size. apply (Hin2 (pt_EpochId r)). unfold p2, note_reply. apply lookup_insert_eq. }
  destruct (IH fs p2 Hst (keyed_without _ _ Hk) Hin2 Hlt Hrs Hc) as (p' & Ed). rewrite Ed. by exists p'.
Qed.

(** C15. A join stalls the blocks: once a follower has joined, the proposer waits
    for one more answer, but sends the newcomer nothing before it has reported
    ready; whatever the other followers answer, no answer starts a block. *)
Theorem join_stalls (p p1 : ProposerNode R) (n : nat) (content : list Z) (id : Z) (pks : list packet)
  (tasks : list task) (rs : list Precessed_TxMsgs) (frames : list (list Z)) :
  FollowerIDs p = ids n -> ph_FollowerNum p = Z.of_nat n -> Z.of_nat n < 2 ^ 63 - 1 ->
  ReadyMap p = list_to_set (ids n) -> p_stop p = false -> keyed (AllocatedTxpool p) -> noted_in (ReadyMap p) p ->
  join_begin p content = Ret (id, pks, tasks, p1) ->
  Forall (fun r => pt_FollowerID r ∈ ReadyMap p /\ (length (TxHashs r) <= length (pt_Txs r))%nat) rs ->
  Forall2 (carries "Follower_Precessed") rs frames ->
  let p2 := join_end p1 id in
  FollowerIDs p2 = ids (S n) /\
  (forall t, tk_fid t = id -> TxAllocate p2 t = Ret ([], p2)) /\
  exists p3, deliver p2 frames = Done (p3, replicate (length rs) Nothing).
Proof.
  intros Hids Hnum Hbig Hrdy Hst Hk Hin Hj Hrs Hc. cbv zeta. unfold join_begin in Hj.
  apply outcome_bind_Ret in Hj as (jm & _ & Hj). cbv zeta in Hj. apply outcome_bind_Ret in Hj as (inner & _ & Hj).
  apply outcome_bind_Ret in Hj as (pk & _ & Hj). apply outcome_bind_Ret in Hj as ([ts r] & _ & Hj).
  injection Hj as <- _ _ <-. rewrite Hids, ids_length. unfold join_end.
  cbn [p_with_followers FollowerIDs ph_FollowerNum p_ip_nodeTable ConsistentHash_]. split; [|split].
  - unfold ids. by rewrite seq_S, fmap_app.
  - intros t Ht. unfold TxAllocate, TxAllocate_send. cbn [p_with_followers ReadyMap]. rewrite Hrdy, Ht, decide_False; [done|].
    rewrite elem_of_list_to_set. unfold ids. intros (k & E & Hlt%elem_of_seq)%list_elem_of_fmap. lia.
  - apply (deliver_quiet (ReadyMap p)); try done. cbn [p_with_followers ph_FollowerNum].
    rewrite Hrdy, size_list_to_set, ids_length, Hnum by apply ids_nodup. rewrite wrap_s_small by (unfold is_s; lia). lia.
Qed.
(** ** The block *)

Context (Sum256_length : forall b, length (Sum256 b) = 32%nat).

Lemma blockGenerate_spec (p : ProposerNode R) now :
  storage_ok (mb_Storage (CurChain p)) -> b_Hash (mb_CurrentBlock (CurChain p)) ∉ blockHashGenDone p ->
  ProcessedTxpool p <> [] ->
  exists b p', blockGenerate p now = Ret (Some b, p') /\ Body b = ProcessedTxpool p /\
    mb_CurrentBlock (CurChain p') = b /\ ParentBlockHash (Header b) = b_Hash (mb_CurrentBlock (CurChain p)) /\
    Number (Header b) = next_number (mb_CurrentBlock (CurChain p)) /\
    block_added (mb_Storage (CurChain p)) b (mb_Storage (CurChain p')) /\ ProcessedTxpool p' = [].
Proof.
  intros Hs Hnd Hne. unfold blockGenerate. rewrite decide_False by done.
  destruct (ProcessedTxpool p) as [|tx txs] eqn:Ep; [done|].
  destruct (GetBloomFilter_total (tx :: txs)) as [bl Eb]. rewrite Eb. go_ret. cbv zeta.
  set (bh := mkBH _ _ _ _ _ _ _). set (b := mkBlock bh _ _).
  destruct (Storage_AddBlock_spec (mb_Storage (CurChain p)) b Hs (hash_key Sum256_length bh)) as (s' & Es & Hadd).
  assert (AddBlock (CurChain p) (Some b) = Ret (true, mb_with_block (CurChain p) b s')) as Ea.
  { unfold AddBlock. cbn [Header b bh Number ParentBlockHash]. rewrite Z.eqb_refl, bool_decide_true by done.
    simpl negb. cbv iota. by rewrite Es. }
  cbn [p_with_pools CurChain]. rewrite Ea. go_ret. cbv beta iota. by eexists b, _.
Qed.

(** Everything an epoch needs: the followers [0 .. n-1] are known, ready and
    counted, the last epoch is over, and the chain can take a block. *)
Record idle (p : ProposerNode R) (n : nat) (max : Z) : Prop := {
  id_followers : FollowerIDs p = ids n;
  id_some : (0 < n)%nat;
  id_count : ph_FollowerNum p = Z.of_nat n;
  id_ready : ReadyMap p = list_to_set (ids n);
  id_shard : p_ShardID p = 0;
  id_running : p_stop p = false;
  id_max : 0 <= max;
  id_pending : PendingTxpool p <> [];
  id_addressed : Forall addressed (batch p max);
  id_json : Forall tx_json (batch p max);
  id_allocated : AllocatedTxpool p = ∅;
  id_processed : ProcessedTxpool p = [];
  id_epoch : GatherMap p !! wrap_u 32 (EpochId p + 1) = None;
  id_storage : storage_ok (mb_Storage (CurChain p));
  id_block : b_Hash (mb_CurrentBlock (CurChain p)) ∉ blockHashGenDone p;
}.

(** The tasks of a round, by what they carry. *)
Lemma scheduled_tasks p n max p1 tasks :
  idle p n max -> scheduled p n max p1 tasks ->
  tk_fid <$> tasks = ids n /\ Forall (fun t => tk_epoch t = wrap_u 32 (EpochId p + 1)) tasks /\
  Forall (fun t => tk_txs t ⊆ batch p max) tasks.
Proof.
  intros Hi [_ _ Hl Hs]. split; [|split].
  - apply list_eq. intros k. unfold ids. rewrite !list_lookup_fmap. destruct (tasks !! k) as [t|] eqn:E.
    + pose proof (lookup_lt_Some _ _ _ E). destruct (Hs k t E) as [Hk _]. rewrite lookup_seq_lt by lia. simpl. by rewrite Hk.
    + apply lookup_ge_None in E. by rewrite lookup_seq_ge by lia.
  - apply Forall_lookup. intros k t E. by destruct (Hs k t E) as (_ & _ & ? & _).
  - apply Forall_lookup. intros k t E. destruct (Hs k t E) as (_ & _ & _ & Hp). intros tx Hin. rewrite Hp in Hin.
    by apply list_elem_of_filter in Hin as [_ ?].
Qed.

Lemma answers_match (p1 : ProposerNode R) tasks rs :
  Forall2 (fun t r => answer_to (message_of p1 t) r) tasks rs ->
  pt_FollowerID <$> rs = tk_fid <$> tasks /\ pt_EpochId <$> rs = tk_epoch <$> tasks /\
  forall r h, r ∈ rs -> h ∈ TxHashs r -> h ∈ hashes (concat (tk_txs <$> tasks)).
Proof.
  induction 1 as [|t r tasks rs Ha _ (IH1 & IH2 & IH3)]; [split; [done|]; split; [done|]; set_solver|].
  destruct Ha as (E1 & E2 & _ & vs & Eh). cbn [fmap list_fmap]. rewrite IH1, IH2. cbn in E1, E2. rewrite E1, E2.
  split; [done|]. split; [done|]. cbn [concat]. rewrite fmap_app. intros r' h [->|Hr]%elem_of_cons Hh.
  - apply elem_of_app. left. rewrite Eh in Hh. apply list_elem_of_fmap in Hh as (tx & -> & Hin).
    apply list_elem_of_fmap_2. revert Hin. cbn [message_of at_Txs]. clear. revert vs.
    induction (tk_txs t) as [|x l IH]; intros [|[] vs]; cbn [chosen]; set_solver.
  - apply elem_of_app. right. by eapply IH3.
Qed.

Lemma starts_last (p : ProposerNode R) n :
  (0 < n)%nat -> ph_FollowerNum p = Z.of_nat n -> p_ShardID p = 0 ->
  starts p 0 <$> seq 0 n = replicate (n - 1) Nothing ++ [StartBlock].
Proof.
  intros Hn Hc Hs. destruct n as [|n]; [lia|]. rewrite seq_S, fmap_app. replace (S n - 1)%nat with n by lia. f_equal.
  - rewrite <- (length_seq n 0) at 2. generalize (seq 0 n) (fun i => proj1 (elem_of_seq 0 n i)). intros l Hl.
    induction l as [|i l IH]; [done|]. cbn [fmap list_fmap length replicate]. f_equal.
    + unfold starts. rewrite Hc. rewrite (proj2 (Z.eqb_neq _ _)); [done|]. specialize (Hl i ltac:(left)). lia.
    + apply IH. intros j Hj. apply Hl. by right.
  - simpl. unfold starts. rewrite Hc, Hs, (proj2 (Z.eqb_eq _ _)) by lia. done.
Qed.

(** The node when all transactions [txs] of epoch [e] are with the followers. *)
Record waiting (p : ProposerNode R) (n : nat) (e : Z) (txs : list Transaction) : Prop := {
  wa_some : (0 < n)%nat;
  wa_count : ph_FollowerNum p = Z.of_nat n;
  wa_shard : p_ShardID p = 0;
  wa_running : p_stop p = false;
  wa_allocated : AllocatedTxpool p = foldl (fun m tx => <[TxHash tx := tx]> m) ∅ txs;
  wa_processed : ProcessedTxpool p = [];
  wa_epoch : GatherMap p !! e = None;
  wa_storage : storage_ok (mb_Storage (CurChain p));
  wa_block : b_Hash (mb_CurrentBlock (CurChain p)) ∉ blockHashGenDone p;
}.

Lemma idle_allocates p n max order :
  idle p n max -> order ≡ₚ seq 0 (length (batch p max)) ->
  exists p1 tasks, SchedulingTxs p max order = Done (p1, Tasks tasks) /\ scheduled p n max p1 tasks /\
  forall tasks', tasks' ≡ₚ tasks -> exists pks p2, allocate_tasks p1 tasks' = Ret (pks, p2) /\ length pks = n /\
    waiting p2 n (wrap_u 32 (EpochId p + 1)) (concat (tk_txs <$> tasks')) /\ CurChain p2 = CurChain p.
Proof.
  intros Hi Ho. pose proof Hi as [Hids Hn Hcnt Hrdy Hsh Hrun Hmax Hpd Hadd Hj Hal Hpr Hep Hst Hbl].
  destruct (SchedulingTxs_spec p n max order Hids Hn Hmax Hpd Hadd Ho) as (p1 & tasks & E & Hsc).
  destruct (scheduled_tasks p n max p1 tasks Hi Hsc) as (Hfid & _ & Htx).
  exists p1, tasks. split; [done|]. split; [done|]. intros tasks' Hperm. destruct Hsc as [_ Hp1 Hlen _].
  destruct (allocate_tasks_spec tasks' p1) as (pks & Ea & Hpk).
  { rewrite Hperm, Hp1. cbn [p_with_idle p_with_epoch p_with_pools ReadyMap]. rewrite Hrdy.
    apply Forall_forall. intros t Ht. apply elem_of_list_to_set. rewrite <- Hfid. by apply list_elem_of_fmap_2. }
  { rewrite Hperm. eapply Forall_impl; [exact Htx|]. intros t Hs. apply Forall_forall. intros tx Hin.
    rewrite Forall_forall in Hj. by apply Hj, Hs. }
  rewrite foldl_put in Ea. eexists pks, _. split; [exact Ea|].
  split; [transitivity (length tasks'); [symmetry; exact (Forall2_length _ _ _ Hpk)|by rewrite Hperm]|]. rewrite Hp1. split; [|done].
  split; cbn [p_with_idle p_with_epoch p_with_pools ph_FollowerNum p_ShardID p_stop AllocatedTxpool ProcessedTxpool
    GatherMap CurChain blockHashGenDone]; try done. by rewrite Hal.
Qed.

Lemma answers_make_block p n e txs rs frames now :
  waiting p n e txs -> pt_FollowerID <$> rs ≡ₚ ids n ->
  Forall (fun r => pt_EpochId r = e /\ (length (TxHashs r) <= length (pt_Txs r))%nat) rs ->
  (forall h, h ∈ concat (TxHashs <$> rs) -> h ∈ hashes txs) ->
  Forall2 (carries "Follower_Precessed") rs frames ->
  exists p3, deliver p frames = Done (p3, replicate (n - 1) Nothing ++ [StartBlock]) /\
  (concat (TxHashs <$> rs) = [] -> blockGenerate p3 now = Ret (None, p3)) /\
  (concat (TxHashs <$> rs) <> [] -> exists b p4, blockGenerate p3 now = Ret (Some b, p4) /\
    mb_CurrentBlock (CurChain p4) = b /\ block_added (mb_Storage (CurChain p)) b (mb_Storage (CurChain p4)) /\
    ParentBlockHash (Header b) = b_Hash (mb_CurrentBlock (CurChain p)) /\
    NoDup (hashes (Body b)) /\ (forall h, h ∈ hashes (Body b) <-> h ∈ concat (TxHashs <$> rs)) /\
    forall tx, tx ∈ Body b -> untimed tx ∈ untimed <$> txs).
Proof.
  intros [Hn Hc Hsh Hrun Hal Hpr Hep Hst Hbl] Hf Hrs Hh Hfr.
  assert (keyed (AllocatedTxpool p)) as Hk by (rewrite Hal; apply keyed_put; intros h tx E; by rewrite lookup_empty in E).
  destruct (deliver_spec e rs frames p Hrun Hk Hrs) as (new & g & [Hnd Hfrom Hall] & Ed); [|by rewrite Hep|done|].
  { rewrite Hf. apply ids_nodup. }
  assert (forall h, h ∈ hashes new <-> h ∈ concat (TxHashs <$> rs)) as Hnew.
  { intros h. rewrite Hall, Hal, put_is_Some. split; [by intros []|]. auto. }
  rewrite Hep, Hpr in Ed. change (size (default ∅ None)) with 0%nat in Ed.
  replace (length rs) with n in Ed by (by rewrite <- (length_fmap pt_FollowerID), Hf, ids_length).
  rewrite starts_last in Ed by done. eexists. split; [exact Ed|]. split.
  { intros E0. rewrite E0 in Hnew. destruct new as [|x new]; [|destruct (Hnew (TxHash x)) as [Hx _]; by specialize (Hx ltac:(left)) as ?%not_elem_of_nil].
    unfold blockGenerate. by rewrite decide_False. }
  intros Hsome.
  assert (new <> []) as Hne.
  { destruct (concat (TxHashs <$> rs)) as [|h l] eqn:El; [done|]. intros ->. specialize (Hnew h).
    destruct Hnew as [_ Hx]. by specialize (Hx ltac:(left)) as ?%not_elem_of_nil. }
  edestruct (blockGenerate_spec (p_with_epoch (p_with_pools p (PendingTxpool p)
     (without (concat (TxHashs <$> rs)) (AllocatedTxpool p)) ([] ++ new)) (EpochId p) g) now)
    as (b & p4 & Eb & Hbody & Hcur & Hpar & _ & Hba & _); [done|done|done|].
  exists b, p4. split; [exact Eb|]. split; [done|]. split; [done|]. split; [done|].
  cbn [p_with_epoch p_with_pools ProcessedTxpool app] in Hbody. rewrite Hbody. split; [done|]. split; [done|].
  intros tx Hin. destruct (Hfrom tx Hin) as (tx0 & El & ->). apply list_elem_of_fmap_2.
  rewrite Hal in El. apply put_Some in El as [[? _]|El]; [done|by rewrite lookup_empty in El].
Qed.

(** C1. Progress of an epoch, in three phases: the sorting goroutines of a round in
    any order, then its tasks in any order, each sending its message and entering
    its transactions, then the answers in any order.  All tasks go out; exactly
    the last of the [n] answers starts a block; and if some follower executed a
    transaction the block is made: it holds each transaction that some follower
    executed once, and nothing else, extends the current block, is stored and
    becomes the current block.  If none executed any, no block is made and nothing
    changes, so no next round is signalled.  Answers handled between two tasks are
    not covered: there a transaction can be included twice. *)
Theorem epoch_makes_block (p : ProposerNode R) (n : nat) (max : Z) (order : list nat) (now : time) :
  idle p n max -> order ≡ₚ seq 0 (length (batch p max)) ->
  exists p1 tasks, SchedulingTxs p max order = Done (p1, Tasks tasks) /\ length tasks = n /\
  forall tasks', tasks' ≡ₚ tasks ->
  exists pks p2, allocate_tasks p1 tasks' = Ret (pks, p2) /\ length pks = n /\
  forall rs rs' frames, Forall2 (fun t r => answer_to (message_of p1 t) r) tasks rs -> rs' ≡ₚ rs ->
  Forall2 (carries "Follower_Precessed") rs' frames ->
  exists p3, deliver p2 frames = Done (p3, replicate (n - 1) Nothing ++ [StartBlock]) /\
  (concat (TxHashs <$> rs) = [] -> blockGenerate p3 now = Ret (None, p3)) /\
  (concat (TxHashs <$> rs) <> [] -> exists b p4, blockGenerate p3 now = Ret (Some b, p4) /\
    mb_CurrentBlock (CurChain p4) = b /\ block_added (mb_Storage (CurChain p)) b (mb_Storage (CurChain p4)) /\
    ParentBlockHash (Header b) = b_Hash (mb_CurrentBlock (CurChain p)) /\
    NoDup (hashes (Body b)) /\ (forall h, h ∈ hashes (Body b) <-> exists r, r ∈ rs /\ h ∈ TxHashs r) /\
    forall tx, tx ∈ Body b -> untimed tx ∈ untimed <$> batch p max).
Proof.
  intros Hi Ho. destruct (idle_allocates p n max order Hi Ho) as (p1 & tasks & E & Hsc & Hal).
  destruct (scheduled_tasks p n max p1 tasks Hi Hsc) as (Hfid & Hepo & Htx).
  exists p1, tasks. split; [done|]. split; [by destruct Hsc|]. intros tasks' Hperm.
  destruct (Hal tasks' Hperm) as (pks & p2 & Ea & Hpk & Hw & Hch). exists pks, p2. split; [done|]. split; [done|].
  intros rs rs' frames Hans Hprs Hfr. destruct (answers_match p1 tasks rs Hans) as (Hf & He & Hh).
  destruct (answers_make_block p2 n _ _ rs' frames now Hw) as (p3 & Ed & Hno & Hyes).
  - by rewrite Hprs, Hf, Hfid.
  - rewrite Hprs. apply Forall_forall. intros r Hr. split.
    + apply (list_elem_of_fmap_2 pt_EpochId) in Hr. rewrite He in Hr. apply list_elem_of_fmap in Hr as (t & -> & Ht).
      rewrite Forall_forall in Hepo. by apply Hepo.
    + apply list_elem_of_lookup in Hr as (i & Hr). destruct (Forall2_lookup_r _ _ _ _ _ Hans Hr) as (t & _ & Hat).
      by eapply answer_to_length.
  - intros h (r & Hr & Hin)%elem_of_concat_fmap. rewrite Hprs in Hr. pose proof (Hh r h Hr Hin) as Hx.
    apply list_elem_of_fmap in Hx as (tx & -> & Hx). apply list_elem_of_fmap_2.
    apply elem_of_concat_fmap in Hx as (t & Ht & Hx). apply elem_of_concat_fmap. exists t. by rewrite Hperm.
  - done.
  - assert (concat (TxHashs <$> rs) ≡ₚ concat (TxHashs <$> rs')) as Hc by (by rewrite Hprs).
    exists p3. split; [done|]. split; [intros E0; apply Hno, Permutation_nil_r; by rewrite <- Hc, E0|]. intros Hsome.
    destruct Hyes as (b & p4 & Eb & Hcur & Hba & Hpar & Hnd & Hall & Hfrom);
      [intros E0; apply Hsome, Permutation_nil_r; by rewrite Hc, E0|].
    exists b, p4. rewrite <- Hch. do 5 (split; [done|]). split.
    + intros h. rewrite Hall, elem_of_concat_fmap. by setoid_rewrite Hprs.
    + intros tx Hin. apply Hfrom in Hin. apply list_elem_of_fmap in Hin as (tx0 & -> & Hx).
      apply list_elem_of_fmap_2. apply elem_of_concat_fmap in Hx as (t & Ht & Hx). rewrite Hperm in Ht.
      rewrite Forall_forall in Htx. by eapply Htx.
Qed.

(** ** A run to a block *)

(** The next step of a run, then the world it leads to. *)
Local Tactic Notation "run_step" tactic3(tac) := eapply rtc_l; [tac|]; cbn [w_with_node w_with_tasks w_with_net w_with_gather
  w_with_blocks w_with_arrived w_node w_unsent w_unput w_messages w_replies w_gather w_gathered w_generating w_generation
  w_blocks w_injected w_received app].

(** A transfer between followers 0 and 1 is injected, sent to both, entered,
    answered and gathered, and a block is made of it. *)
Lemma transfer_included (p : ProposerNode R) (tx : Transaction) (now : time) :
  fresh p -> p_stop p = false -> FollowerIDs p = [0; 1] -> ReadyMap p = {[0; 1]} ->
  p_ShardID p = 0 -> ph_FollowerNum p = 2 -> GatherMap p !! wrap_u 32 (EpochId p + 1) = None ->
  storage_ok (mb_Storage (CurChain p)) -> b_Hash (mb_CurrentBlock (CurChain p)) ∉ blockHashGenDone p ->
  addressed tx -> tx_json tx -> lanes 2 tx = Some (0, 1) ->
  exists w b, reachable true p w /\ w_injected w = [tx] /\ w_received w = [] /\ w_blocks w = [b] /\
    hashes (Body b) = [TxHash tx] /\ VerifyLocked (w_node w) = VerifyLocked p.
Proof.
  intros Hf Hst Hids Hrdy Hsh Hnum Hep Hs Hbl Ha Hj Hl.
  destruct (transfer_sent true p tx Hf Hst Hids Hrdy Ha Hj Hl) as (t0 & t1 & Hr & F0 & F1 & X0 & X1 & P0 & P1).
  destruct Hf as (E1 & E2 & E3).
  set (q := p_with_pools (scheduled_node p) [] ∅ [stamped tx tx]).
  set (s := TxAllocate_insert (TxAllocate_insert (scheduled_node p) t0) t1).
  assert (p_with_pools s (PendingTxpool s) (base.delete (TxHash tx) (AllocatedTxpool s)) (ProcessedTxpool s ++ [stamped tx tx]) = q) as Eq.
  { unfold s, q, TxAllocate_insert. simpl. rewrite X0, X1. simpl. by rewrite insert_insert_eq, delete_insert_id. }
  destruct (note_reply q (reply_to tx t0)) as [q0 b0] eqn:N0. destruct (note_reply q0 (reply_to tx t1)) as [q1 b1] eqn:N1.
  assert (b0 = false /\ b1 = true) as [-> ->].
  { unfold note_reply in N0. simpl in N0. rewrite P0, Hep, F0, Hnum in N0. injection N0 as <- <-.
    unfold note_reply in N1. simpl in N1. rewrite P1, lookup_insert_eq, F1, Hnum, Hsh in N1. injection N1 as <- <-. done. }
  destruct (blockGenerate_spec (p_with_processed q1 [stamped tx tx]) now) as (b & p' & Eb & Hbody & _);
    [by injection N0 as <-; injection N1 as <-..|].
  assert (ProcessedTxpool q1 = [stamped tx tx] /\ VerifyLocked q1 = VerifyLocked p) as [Epr Evl]
    by (by injection N0 as <-; injection N1 as <-).
  destruct (blockGenerate_pools _ _ _ _ Eb) as (_ & _ & Ev & _).
  eexists _, b. split; [unfold reachable in *; etrans; [exact Hr|]|].
  { run_step (eapply (step_insert true _ [] t0 [t1]); done).
    run_step (eapply (step_insert true _ [] t1 []); done).
    run_step (eapply (step_answer true _ []); [reflexivity|by apply (reply_to_answers p tx)]).
    run_step (eapply (step_answer true _ []); [reflexivity|by apply (reply_to_answers p tx)]).
    etrans; [eapply (gather_run true _ [] _ _ tx tx); try done; [simpl; rewrite X1; apply lookup_insert_eq|set_solver]|].
    etrans; [eapply (gather_nothing_run true _ [] _ []); try done; apply lookup_delete_eq|].
    cbv beta iota delta [w_with_node w_with_tasks w_with_net w_with_gather w_node w_unsent w_unput w_messages w_replies
      w_gather w_gathered w_generating w_generation w_blocks w_injected w_received]. fold s. rewrite Eq.
    run_step (eapply (step_note true _ []); [reflexivity|exact N0]).
    run_step (eapply (step_note true _ []); [reflexivity|exact N1]).
    run_step (eapply (step_take true); reflexivity).
    run_step (eapply (step_cut true); reflexivity).
    run_step (eapply (step_block true); [reflexivity|cbn [w_node]; rewrite Epr; exact Eb|done]). apply rtc_refl. }
  do 3 (split; [done|]). split; [by rewrite Hbody|]. by rewrite <- Evl.
Qed.
End liveness.
