(* ===== verification/Fleet.v ===== *)
(** * A concrete proposer with two followers

    Instances of the codec classes and a proposer with two followers on which the
    properties of [Follower], [Epoch], [Pools] and [Liveness] are applied. *)

From stdpp Require Import base gmap strings list pretty countable.
From Stdlib Require Import ZArith Lia.
From S2P Require Import Prelude Encoding TrieSpec Node Trie TrieMap Hasher Committer Reload Database Core Storage Chain.
From S2P Require Import ChainMem ConsistentHash Message Follower Proposer Epoch Pools Liveness.
From S2P Require HashRing.

Local Open Scope Z_scope.

(** A codec that writes one number, and reads it with the line feed of the frame. *)
Definition code_json {A} `{Countable A} : Json A.
Proof.
  refine {| json_Marshal := fun a => Some [Z.pos (countable.encode a)];
            json_Unmarshal := fun b => match b with [Z.pos p; 10] => countable.decode p : option A | _ => None end;
            json_valid := fun _ => True |}.
  intros a _. eexists. split; [done|]. apply decode_encode.
Defined.

#[local] Existing Instance StorageSample.tx_eq_dec.
#[local] Existing Instance StorageSample.tx_countable.
#[local] Instance alloc_eq_dec : EqDecision Allocate_TxMsgs.
Proof. solve_decision. Defined.
#[local] Program Instance alloc_countable : Countable Allocate_TxMsgs :=
  inj_countable' (fun m => (at_Txs m, at_ProposerID m, at_FollowerID m, at_EpochId m))
    (fun '(t, p, f, e) => mkAllocate t p f e) _.
Next Obligation. by intros []. Qed.

#[local] Instance precessed_eq_dec : EqDecision Precessed_TxMsgs.
Proof. solve_decision. Defined.
#[local] Program Instance precessed_countable : Countable Precessed_TxMsgs :=
  inj_countable' (fun m => (pt_Txs m, TxHashs m, Proofs m, pt_FollowerID m, pt_EpochId m, pt_StateRoot m))
    (fun '(t, h, p, f, e, r) => mkPrecessed t h p f e r) _.
Next Obligation. by intros []. Qed.

#[local] Instance time_eq_dec : EqDecision ExecuteTimeMsg.
Proof. solve_decision. Defined.
#[local] Program Instance time_countable : Countable ExecuteTimeMsg :=
  inj_countable' (fun m => (et_FollowerId m, et_Txs m, Microseconds m)) (fun '(f, t, u) => mkExecuteTime f t u) _.
Next Obligation. by intros []. Qed.

#[local] Instance join_eq_dec : EqDecision Follower_JoinMsgs.
Proof. solve_decision. Defined.
#[local] Program Instance join_countable : Countable Follower_JoinMsgs := inj_countable' Ip_port mkJoin _.
Next Obligation. by intros []. Qed.

#[local] Instance fid_eq_dec : EqDecision P_AllocFidMsgs.
Proof. solve_decision. Defined.
#[local] Program Instance fid_countable : Countable P_AllocFidMsgs := inj_countable' af_Fid mkAllocFid _.
Next Obligation. by intros []. Qed.

(** A codec for the messages not sent here. *)
Definition no_json {A} : Json A.
Proof.
  refine {| json_Marshal := fun _ => None; json_Unmarshal := fun _ => None; json_valid := fun _ => False |}. done.
Defined.

Module FleetSample.
#[local] Existing Instance DBSample.ethdb.
#[local] Existing Instance DBSample.fastcache.
#[local] Existing Instance RLPSample.env.
#[local] Existing Instance RLPSample.rlp.
#[local] Existing Instance RLPSample.eth.
#[local] Existing Instance DBSample.account.
#[local] Existing Instance StorageSample.bolt.
#[local] Existing Instance StorageSample.as_gob.
#[local] Existing Instance StorageSample.tx_gob.
#[local] Existing Instance StorageSample.block_gob.
#[local] Existing Instance StorageSample.bh_gob.
#[local] Existing Instance RLPSample.rlp_laws.
#[local] Existing Instance RLPSample.hash_laws.
#[local] Existing Instance DBSample.ethdb_laws.
#[local] Existing Instance StorageSample.bolt_laws.
#[local] Existing Instance ChainSample.free.
#[local] Existing Instance ChainSample.sha.
#[local] Existing Instance ChainSample.params.
#[local] Existing Instance ChainSample.memory.
#[local] Existing Instance CHSample.enc.
#[local] Instance json1 : Json Allocate_TxMsgs := code_json.
#[local] Instance json2 : Json Precessed_TxMsgs := code_json.
#[local] Instance json3 : Json ExecuteTimeMsg := code_json.
#[local] Instance json4 : Json Follower_JoinMsgs := code_json.
#[local] Instance json5 : Json P_AllocFidMsgs := code_json.
#[local] Instance json6 : Json P_RequestDataMsgs := no_json.
#[local] Instance json7 : Json F_ResponseDataMsgs := no_json.
#[local] Instance json8 : Json F_ReadyMsgs := no_json.
#[local] Instance json9 : Json P_AllocateDataMsgs := no_json.
#[local] Instance json10 : Json BlockMsg := no_json.
#[local] Instance json11 : Json Verfying_TxMsgs := no_json.
#[local] Instance json_laws : JsonLaws.
Proof. refine {| tx_json := fun _ => True; time_json := fun _ => True |}; done. Defined.

(** A transfer from an account of follower 0 to one of follower 1. *)
Definition transfer : Transaction := PoolSample.tx 1 "a0" "b0" 5.

Definition table : gmap string (gmap Z string) := {[ "f0"%string := {[ 0 := "h0"%string; 1 := "h1"%string ]} ]}.
Definition node_with (pending : list Transaction) : ProposerNode HashRing.SkiplistHashRing :=
  mkProposer 0 0 [] [0; 1] table MemSample.node ∅ ∅ pending ∅ [] 1 ∅ None false
    (NewConsistentHash CHSample.ring true [WithReplicas 2; WithLockExpireSeconds 5]) ∅ {[0; 1]} false 0 2 0.
Definition node := node_with [transfer].

Definition follower (k : nat) : FollowerNode :=
  mkFollower (Z.of_nat k) 0 0 2 DBSample.db0 EmptyRootHash false ∅.

Lemma follower_ok k : follower_state (follower k) ∅.
Proof.
  split; [apply DBSample.db0_inv| |by intros a v E].
  change (StateRoot (follower k)) with EmptyRootHash.
  rewrite BytesToHash_id by (rewrite EmptyRootHash_keccak; apply keccak256_length). apply state_at_empty.
Qed.

Lemma two_followers : fleet 2 follower (fun _ => ∅).
Proof. intros k _. split; [apply follower_ok|done]. Qed.

Lemma addressed_transfer : addressed transfer.
Proof. done. Qed.

Lemma follower_answers_witness :
  exists frame, carries "Proposer_Tx_Allocate" (mkAllocate [transfer] 0 0 2) frame /\
  let m' := f_ledger 2 0 0 [transfer] ∅ in
  (forall a, balance m' a = (f_run 2 0 [transfer] (balance ∅)).2 a) /\
  ((exists f' ps out reply, f_preHandleMessageRequest (follower 0) (frame ++ [10]) (fun _ => 7) (fun _ => 8) 3 =
       Ret (f', ps ++ [(proposer_addr (follower 0), reply)]) /\ follower_state f' m' /\
     untimed <$> out = untimed <$> [transfer] /\
     carries "Follower_Precessed"
       (mkPrecessed out (TxHash <$> chosen (f_run 2 0 [transfer] (balance ∅)).1 [transfer]) [] 0 2 (StateRoot f')) reply) \/
   (f_preHandleMessageRequest (follower 0) (frame ++ [10]) (fun _ => 7) (fun _ => 8) 3 = Panic /\ m' = ∅)).
Proof.
  destruct (send_spec "Proposer_Tx_Allocate" (mkAllocate [transfer] 0 0 2) "") as (frame & _ & Hc); [done|set_solver|].
  exists frame. split; [exact Hc|].
  apply (follower_answers (follower 0) ∅ (mkAllocate [transfer] 0 0 2) frame (fun _ => 7) (fun _ => 8) 3
           ChainSample.works (follower_ok 0)); try done; repeat constructor; done.
Defined.

Lemma SchedulingTxs_correct_witness :
  exists p' tasks, SchedulingTxs node 10 [0%nat] = Done (p', Tasks tasks) /\
    [transfer] ++ PendingTxpool p' = [transfer] /\ AllocatedTxpool p' = ∅ /\ ProcessedTxpool p' = [] /\ length tasks = 2%nat /\
    forall k t, tasks !! k = Some t -> tk_fid t = Z.of_nat k /\ tk_addr t = follower_addr node (Z.of_nat k) /\
      tk_txs t ≡ₚ filter (fun tx => touches 2 (Z.of_nat k) tx = true) [transfer].
Proof. apply (SchedulingTxs_correct node 2 10 [0%nat]); try done; try lia. repeat constructor; done. Defined.

Lemma transfer_moves : Forall (moves_in ["a0"; "b0"]%string 2) [transfer].
Proof. repeat constructor; intros _; split; set_solver. Qed.

Lemma epoch_supply_witness :
  exists p' tasks ms', SchedulingTxs node 10 [0%nat] = Done (p', Tasks tasks) /\
    (forall k, (k < 2)%nat -> answers (follower k) ∅ (share tasks k) (ms' k)) /\
    supply 2 ["a0"; "b0"]%string ms' = supply 2 ["a0"; "b0"]%string (fun _ => ∅) +
      zsum (fun k => f_minted 2 (Z.of_nat k) (share tasks k) (balance ∅)) (seq 0 2).
Proof.
  apply (epoch_supply node 2 10 [0%nat] follower (fun _ => ∅) ["a0"; "b0"]%string ChainSample.works); try done; try lia.
  - repeat constructor; done.
  - repeat constructor; done.
  - apply two_followers.
  - repeat constructor; set_solver.
  - apply transfer_moves.
Defined.

Lemma epoch_settles_witness :
  exists p' tasks ms', SchedulingTxs node 10 [0%nat] = Done (p', Tasks tasks) /\
    (forall k, (k < 2)%nat -> answers (follower k) ∅ (share tasks k) (ms' k)) /\
    ((forall k, (k < 2)%nat -> Forall2 (fun v tx => v = false -> lanes 2 tx = None)
        (f_run 2 (Z.of_nat k) (share tasks k) (balance ∅)).1 (share tasks k)) ->
     forall a k, owner 2 a = Some (Z.of_nat k) ->
       balance (ms' k) a = balance ∅ a + zsum (gain 2 a) [transfer]).
Proof.
  apply (epoch_settles node 2 10 [0%nat] follower (fun _ => ∅) ChainSample.works); try done; try lia.
  - repeat constructor; done.
  - repeat constructor; done.
  - apply two_followers.
Defined.

(** A node just started, and the world after one injection. *)
Definition empty_node := node_with [].
Lemma empty_fresh : fresh empty_node.
Proof. done. Qed.

(** A run of it to a block with the transfer. *)
Lemma transfer_run : exists w b, reachable true empty_node w /\ w_injected w = [transfer] /\ w_received w = [] /\
  w_blocks w = [b] /\ hashes (Body b) = [TxHash transfer] /\ VerifyLocked (w_node w) = false.
Proof. apply (transfer_included ChainSample.sha_length empty_node transfer 77 empty_fresh); try done. Qed.

Lemma only_arrived_witness :
  exists w b tx, reachable true empty_node w /\ w_blocks w = [b] /\ tx ∈ Body b /\
    untimed tx ∈ untimed <$> w_injected w ++ w_received w /\ w_received w = [].
Proof.
  destruct transfer_run as (w & b & Hr & _ & _ & Eb & Eh & Ev).
  destruct (only_arrived true empty_node w empty_fresh Hr) as [Hin Hre].
  destruct (Body b) as [|tx l] eqn:El; [discriminate|]. exists w, b, tx. rewrite El. split; [exact Hr|]. split; [exact Eb|].
  split; [left|]. split; [|exact (Hre Ev)]. apply Hin. right. exists b. rewrite Eb, El. split; left.
Defined.

Lemma no_double_inclusion_witness :
  exists w b, reachable true empty_node w /\ w_blocks w = [b] /\ hashes (Body b) = [TxHash transfer] /\
    NoDup (hashes (concat (Body <$> w_blocks w) ++ ProcessedTxpool (w_node w))).
Proof.
  destruct transfer_run as (w & b & Hr & Ei & Ere & Eb & Eh & _). exists w, b. split; [exact Hr|]. split; [exact Eb|].
  split; [exact Eh|]. apply (no_double_inclusion empty_node w empty_fresh Hr). rewrite Ei, Ere. repeat constructor. set_solver.
Defined.

Lemma answer_overtakes_allocation_witness :
  exists w, reachable false empty_node w /\ w_injected w = [transfer] /\
    hashes (ProcessedTxpool (w_node w)) = [TxHash transfer; TxHash transfer].
Proof. apply (answer_overtakes_allocation empty_node transfer empty_fresh); done. Defined.

Lemma node_idle : idle node 2 10.
Proof. split; try done; try lia; repeat constructor; done. Qed.

Lemma epoch_makes_block_witness :
  exists p1 tasks, SchedulingTxs node 10 [0%nat] = Done (p1, Tasks tasks) /\ length tasks = 2%nat /\
  forall tasks', tasks' ≡ₚ tasks ->
  exists pks p2, allocate_tasks p1 tasks' = Ret (pks, p2) /\ length pks = 2%nat /\
  forall rs rs' frames, Forall2 (fun t r => answer_to (message_of p1 t) r) tasks rs -> rs' ≡ₚ rs ->
  Forall2 (carries "Follower_Precessed") rs' frames ->
  exists p3, deliver p2 frames = Done (p3, [Nothing; StartBlock]) /\
  (concat (TxHashs <$> rs) = [] -> blockGenerate p3 77 = Ret (None, p3)) /\
  (concat (TxHashs <$> rs) <> [] -> exists b p4, blockGenerate p3 77 = Ret (Some b, p4) /\
    mb_CurrentBlock (CurChain p4) = b /\ block_added (mb_Storage (CurChain node)) b (mb_Storage (CurChain p4)) /\
    ParentBlockHash (Header b) = b_Hash (mb_CurrentBlock (CurChain node)) /\
    NoDup (hashes (Body b)) /\ (forall h, h ∈ hashes (Body b) <-> exists r, r ∈ rs /\ h ∈ TxHashs r) /\
    forall tx, tx ∈ Body b -> untimed tx ∈ untimed <$> batch node 10).
Proof. exact (epoch_makes_block ChainSample.sha_length node 2 10 [0%nat] 77 node_idle (reflexivity _)). Defined.

(** The two followers' answers to the transfer, and a newcomer's message. *)
Definition reply (k : Z) : Precessed_TxMsgs := mkPrecessed [transfer] [TxHash transfer] [] k 2 [].
Definition join_content : list Z := [Z.pos (countable.encode (mkJoin "h2")); 10].

Lemma join_begins : exists x, join_begin node join_content = Ret x.
Proof.
  assert (match join_begin node join_content with Ret _ => true | Panic => false end = true) as Hb by (vm_compute; reflexivity).
  destruct (join_begin node join_content) as [x|]; [by exists x|discriminate].
Qed.

Lemma join_stalls_witness :
  exists id pks tasks p1 frames, join_begin node join_content = Ret (id, pks, tasks, p1) /\
  Forall2 (carries "Follower_Precessed") [reply 0; reply 1] frames /\
  let p2 := join_end p1 id in
  FollowerIDs p2 = ids 3 /\ (forall t, tk_fid t = id -> TxAllocate p2 t = Ret ([], p2)) /\
  exists p3, deliver p2 frames = Done (p3, [Nothing; Nothing]).
Proof.
  destruct join_begins as [[[[id pks] tasks] p1] Ej].
  destruct (send_spec "Follower_Precessed" (reply 0) "") as (f0 & _ & C0); [done|set_solver|].
  destruct (send_spec "Follower_Precessed" (reply 1) "") as (f1 & _ & C1); [done|set_solver|].
  exists id, pks, tasks, p1, [f0; f1]. split; [exact Ej|]. split; [by repeat constructor|].
  apply (join_stalls node p1 2 join_content id pks tasks [reply 0; reply 1] [f0; f1]); try done.
  - repeat constructor; set_solver.
  - by repeat constructor.
Defined.
End FleetSample.
