(* ===== verification/Partition.v ===== *)
(** * Account partition by constrained label propagation ([partition/graph.go],
      [partition/partition_CLPA.go])

    The graph of accounts with one edge per transaction, and the algorithm that
    moves accounts between shards so that fewer edges cross.  Scores are binary64
    numbers, as in the source.

    Proved here: what the counters of a partition mean, that the incremental
    update after one move computes what a full recount would, and that a run of
    the algorithm ends, stays within the shards, empties none of them, and reports
    the last move of every account it moved. *)

From stdpp Require Import base gmap strings list countable.
From Stdlib Require Import ZArith Lia SpecFloat.
From S2P Require Import Prelude Database Core Chain.

Local Open Scope Z_scope.

(** ** Numbers *)

(** [float64]: IEEE 754 binary64, round to nearest even. *)
Definition float64 : Type := spec_float.
Definition f_of_int (z : Z) : float64 := binary_normalize 53 1024 z 0 false.
Definition f_mul : float64 -> float64 -> float64 := SFmul 53 1024.
Definition f_div : float64 -> float64 -> float64 := SFdiv 53 1024.
Definition f_sub : float64 -> float64 -> float64 := SFsub 53 1024.

(** [strconv.ParseInt(s, 16, 64)]. *)
Definition ParseInt16 (s : list Z) : option Z :=
  match s with
  | 45 :: s => v ← ParseUint16 s; if 2 ^ 63 <? v then None else Some (- v)
  | 43 :: s => v ← ParseUint16 s; if 2 ^ 63 <=? v then None else Some v
  | s => v ← ParseUint16 s; if 2 ^ 63 <=? v then None else Some v
  end.

(** An element of a slice, and [l[i] += d]; out of range panics. *)
Definition at_ {A} (l : list A) (i : Z) : outcome A :=
  if i <? 0 then Panic else of_option (l !! Z.to_nat i).
Definition add_at (l : list Z) (i d : Z) : outcome (list Z) :=
  x ← at_ l i; Ret (<[Z.to_nat i := x + d]> l).

(** [make([]int, n)]. *)
Definition make_ints (n : Z) : outcome (list Z) := if n <? 0 then Panic else Ret (replicate (Z.to_nat n) 0).

(** ** The graph *)

Record Vertex := mkVertex { Addr : string }.

#[export] Instance Vertex_eq_dec : EqDecision Vertex.
Proof. solve_decision. Defined.
#[export] Program Instance Vertex_countable : Countable Vertex := inj_countable' Addr mkVertex _.
Next Obligation. by intros []. Qed.

Definition ConstructVertex (v : Vertex) (s : string) : Vertex := mkVertex s.

(** A nil edge map is [None]. *)
Record Graph := mkGraph { VertexSet : gset Vertex; EdgeSet : option (gmap Vertex (list Vertex)) }.

(** [g.EdgeSet[v]]. *)
Definition edges (g : Graph) (v : Vertex) : list Vertex := default [] (default ∅ (EdgeSet g) !! v).

Definition g_AddVertex (g : Graph) (v : Vertex) : Graph := mkGraph ({[v]} ∪ VertexSet g) (EdgeSet g).

Definition g_AddEdge (g : Graph) (u v : Vertex) : Graph :=
  let g := if decide (u ∈ VertexSet g) then g else g_AddVertex g u in
  let g := if decide (v ∈ VertexSet g) then g else g_AddVertex g v in
  let es := default ∅ (EdgeSet g) in
  let es := <[u := default [] (es !! u) ++ [v]]> es in
  let es := <[v := default [] (es !! v) ++ [u]]> es in
  mkGraph (VertexSet g) (Some es).

Definition CopyGraph (dst src : Graph) : Graph :=
  mkGraph (VertexSet src)
    (match EdgeSet src with
     | None => EdgeSet dst
     | Some _ => Some (set_to_map (fun v => (v, edges src v)) (VertexSet src))
     end).

(** ** The state *)

(** The maps are those of an initialised state.  [GraphHash] is never used. *)
Record CLPAState := mkCLPA {
  NetGraph : Graph;
  PartitionMap : gmap Vertex Z;
  Edges2Shard : list Z;
  VertexsNumInShard : list Z;
  WeightPenalty : float64;
  MinEdges2Shard : Z;
  MaxIterations : Z;
  CrossShardEdgeNum : Z;
  cs_ShardNum : Z;
}.

(** [cs.PartitionMap[v]]. *)
Definition shard_of (cs : CLPAState) (v : Vertex) : Z := default 0 (PartitionMap cs !! v).

Definition cs_with_graph (cs : CLPAState) (g : Graph) : CLPAState :=
  mkCLPA g (PartitionMap cs) (Edges2Shard cs) (VertexsNumInShard cs) (WeightPenalty cs) (MinEdges2Shard cs)
    (MaxIterations cs) (CrossShardEdgeNum cs) (cs_ShardNum cs).
Definition cs_with_partition (cs : CLPAState) (m : gmap Vertex Z) (nums : list Z) : CLPAState :=
  mkCLPA (NetGraph cs) m (Edges2Shard cs) nums (WeightPenalty cs) (MinEdges2Shard cs)
    (MaxIterations cs) (CrossShardEdgeNum cs) (cs_ShardNum cs).
Definition cs_with_counts (cs : CLPAState) (e : list Z) (min cross : Z) : CLPAState :=
  mkCLPA (NetGraph cs) (PartitionMap cs) e (VertexsNumInShard cs) (WeightPenalty cs) min
    (MaxIterations cs) cross (cs_ShardNum cs).

Definition AddVertex `{Params} (cs : CLPAState) (v : Vertex) : outcome CLPAState :=
  let cs := cs_with_graph cs (g_AddVertex (NetGraph cs) v) in
  s ← (match PartitionMap cs !! v with None => Addr2Shard (Addr v) | Some val => Ret val end);
  nums ← add_at (VertexsNumInShard cs) s 1;
  Ret (cs_with_partition cs (<[v := s]> (PartitionMap cs)) nums).

Definition AddEdge `{Params} (cs : CLPAState) (u v : Vertex) : outcome CLPAState :=
  cs ← (if decide (u ∈ VertexSet (NetGraph cs)) then Ret cs else AddVertex cs u);
  cs ← (if decide (v ∈ VertexSet (NetGraph cs)) then Ret cs else AddVertex cs v);
  Ret (cs_with_graph cs (g_AddEdge (NetGraph cs) u v)).

Definition EraseEdges (cs : CLPAState) : CLPAState :=
  cs_with_graph cs (mkGraph (VertexSet (NetGraph cs)) (Some ∅)).

(** ** Counting edges *)

(** The least element, starting from a bound. *)
Definition min_from (bound : Z) (l : list Z) : Z := foldl (fun m v => if v <? m then v else m) bound l.

(** One neighbour [u] of a vertex in shard [vShard]. *)
Definition count_edge (cs : CLPAState) (vShard : Z) (st : list Z * list Z) (u : Vertex) : outcome (list Z * list Z) :=
  let '(e, inter) := st in
  let uShard := shard_of cs u in
  if negb (vShard =? uShard) then e ← add_at e uShard 1; Ret (e, inter)
  else inter ← add_at inter uShard 1; Ret (e, inter).

(** The edge map is visited in some order; the sums do not depend on it. *)
Definition ComputeEdges2Shard (cs : CLPAState) : outcome CLPAState :=
  zeros ← make_ints (cs_ShardNum cs);
  '(e, inter) ← ofold (fun st '(v, lst) => ofold (count_edge cs (shard_of cs v)) st lst) (zeros, zeros)
                  (map_to_list (default ∅ (EdgeSet (NetGraph cs))));
  let cross := Z.quot (foldr Z.add 0 e) 2 in
  let e := zip_with (fun a b => a + Z.quot b 2) e inter in
  Ret (cs_with_counts cs e (min_from 2147483647 e) cross).

(** One neighbour of the moved vertex. *)
Definition change_edge (cs : CLPAState) (new old : Z) (st : list Z * Z) (u : Vertex) : outcome (list Z * Z) :=
  let '(e, cross) := st in
  let neighborShard := shard_of cs u in
  if negb (neighborShard =? new) && negb (neighborShard =? old) then
    e ← add_at e new 1; e ← add_at e old (-1); Ret (e, cross)
  else if neighborShard =? new then e ← add_at e old (-1); Ret (e, cross - 1)
  else e ← add_at e new 1; Ret (e, cross + 1).

Definition changeShardRecompute (cs : CLPAState) (v : Vertex) (old : Z) : outcome CLPAState :=
  let new := shard_of cs v in
  '(e, cross) ← ofold (change_edge cs new old) (Edges2Shard cs, CrossShardEdgeNum cs) (edges (NetGraph cs) v);
  Ret (cs_with_counts cs e (min_from 34359738367 e) cross).

(** ** Initial partitions *)

Definition Init_CLPAState (cs : CLPAState) (wp : float64) (mIter sn : Z) : outcome CLPAState :=
  nums ← make_ints sn;
  Ret (mkCLPA (NetGraph cs) ∅ (Edges2Shard cs) nums wp (MinEdges2Shard cs) mIter (CrossShardEdgeNum cs) sn).

(** One vertex of the loop: its shard is computed by [f]. *)
Definition init_vertex (v : Vertex) (shard : outcome Z) (st : gmap Vertex Z * list Z) : outcome (gmap Vertex Z * list Z) :=
  s ← shard; nums ← add_at st.2 s 1; Ret (<[v := s]> st.1, nums).

(** [int(num) % cs.ShardNum] of the last eight hexadecimal digits. *)
Definition suffix_shard (sn : Z) (v : Vertex) : outcome Z :=
  let b := string_bytes (Addr v) in
  if (length b <? 8)%nat then Panic
  else num ← of_option (ParseInt16 (drop (length b - 8) b)); if sn =? 0 then Panic else Ret (Z.rem num sn).

(** [order] is the order in which the vertex set is visited. *)
Definition Init_Partition (cs : CLPAState) (order : list Vertex) : outcome CLPAState :=
  zeros ← make_ints (cs_ShardNum cs);
  '(m, nums) ← ofold (fun st v => init_vertex v (suffix_shard (cs_ShardNum cs) v) st) (∅, zeros) order;
  ComputeEdges2Shard (cs_with_partition cs m nums).

Definition Stable_Init_Partition (cs : CLPAState) (order : list Vertex) : outcome (res string CLPAState) :=
  if Z.of_nat (size (VertexSet (NetGraph cs))) <? cs_ShardNum cs then
    Ret (Err "too many shards, number of shards should be less than nodes. "%string)
  else
    zeros ← make_ints (cs_ShardNum cs);
    '(m, nums, _) ← ofold (fun '(m, nums, cnt) v =>
        '(m, nums) ← init_vertex v (if cs_ShardNum cs =? 0 then Panic else Ret (Z.rem cnt (cs_ShardNum cs))) (m, nums);
        Ret (m, nums, cnt + 1)) (∅, zeros, 0) order;
    cs ← ComputeEdges2Shard (cs_with_partition cs m nums);
    Ret (Ok cs).

(** ** The algorithm *)

Definition getShard_score (cs : CLPAState) (v : Vertex) (uShard : Z) : outcome float64 :=
  let v_outdegree := Z.of_nat (length (edges (NetGraph cs) v)) in
  let Edgesto_uShard := Z.of_nat (length (filter (fun item => shard_of cs item = uShard) (edges (NetGraph cs) v))) in
  e ← at_ (Edges2Shard cs) uShard;
  Ret (f_mul (f_div (f_of_int Edgesto_uShard) (f_of_int v_outdegree))
         (f_sub (f_of_int 1) (f_div (f_mul (WeightPenalty cs) (f_of_int e)) (f_of_int (MinEdges2Shard cs))))).

(** The scores already computed, the best one and its shard. *)
Definition score_edge (cs : CLPAState) (v : Vertex) (st : gmap Z float64 * float64 * Z) (u : Vertex)
  : outcome (gmap Z float64 * float64 * Z) :=
  let '(scores, max_score, max_scoreShard) := st in
  let uShard := shard_of cs u in
  match scores !! uShard with
  | Some _ => Ret st
  | None =>
      s ← getShard_score cs v uShard;
      let scores := <[uShard := s]> scores in
      Ret (if SFltb max_score s then (scores, s, uShard) else (scores, max_score, max_scoreShard))
  end.

(** The state, the moved addresses and how often each was moved. *)
Definition relabel (st : CLPAState * gmap string Z * gmap string Z) (v : Vertex)
  : outcome (CLPAState * gmap string Z * gmap string Z) :=
  let '(cs, res, updateTreshold) := st in
  let moves := default 0 (updateTreshold !! Addr v) in
  if 50 <=? moves then Ret st
  else
    let vNowShard := shard_of cs v in
    '(_, _, max_scoreShard) ← ofold (score_edge cs v) (∅, f_of_int (-9999), vNowShard) (edges (NetGraph cs) v);
    if vNowShard =? max_scoreShard then Ret st
    else
      n ← at_ (VertexsNumInShard cs) vNowShard;
      if n <=? 1 then Ret st
      else
        nums ← add_at (VertexsNumInShard cs) vNowShard (-1);
        nums ← add_at nums max_scoreShard 1;
        cs ← changeShardRecompute (cs_with_partition cs (<[v := max_scoreShard]> (PartitionMap cs)) nums) v vNowShard;
        Ret (cs, <[Addr v := u64 max_scoreShard]> res, <[Addr v := moves + 1]> updateTreshold).

(** [orders i] is the order in which the [i]-th iteration visits the vertices. *)
Definition CLPA_Partition (cs : CLPAState) (orders : nat -> list Vertex) : outcome (gmap string Z * Z * CLPAState) :=
  cs ← ComputeEdges2Shard cs;
  '(cs, res, _) ← ofold (fun st iter => ofold relabel st (orders iter)) (cs, ∅, ∅)
                    (seq 0 (Z.to_nat (MaxIterations cs)));
  cs ← ComputeEdges2Shard cs;
  Ret (res, CrossShardEdgeNum cs, cs).

(** ** Slices of counters *)

(** The [k]-th counter, 0 out of range. *)
Definition nth_z (l : list Z) (k : Z) : Z := if k <? 0 then 0 else default 0 (l !! Z.to_nat k).

Definition in_range (l : list Z) (i : Z) : Prop := 0 <= i < Z.of_nat (length l).

Lemma at_spec l i : in_range l i -> at_ l i = Ret (nth_z l i).
Proof.
  intros [Hi Hl]. unfold at_, nth_z. rewrite (proj2 (Z.ltb_ge _ _)) by lia.
  destruct (lookup_lt_is_Some_2 l (Z.to_nat i)) as [x ->]; [lia|done].
Qed.

Lemma add_at_spec l i d : in_range l i ->
  exists l', add_at l i d = Ret l' /\ length l' = length l /\
    forall k, nth_z l' k = nth_z l k + (if k =? i then d else 0).
Proof.
  intros Hi. unfold add_at. rewrite (at_spec l i Hi). go_ret. eexists. split; [done|].
  split; [apply length_insert|]. intros k. destruct Hi as [Hi Hl]. unfold nth_z at 1 3.
  destruct (Z.ltb_spec k 0); [rewrite (proj2 (Z.eqb_neq _ _)) by lia; lia|].
  destruct (Z.eqb_spec k i) as [->|Hne].
  - rewrite list_lookup_insert_eq by lia. cbn [from_option id]. unfold nth_z.
    rewrite (proj2 (Z.ltb_ge _ _)) by lia. done.
  - rewrite list_lookup_insert_ne by lia. lia.
Qed.

Lemma nth_z_ext l l' :
  length l = length l' -> (forall k, in_range l k -> nth_z l k = nth_z l' k) -> l = l'.
Proof.
  intros Hl Hk. apply list_eq. intros i. destruct (decide (i < length l)%nat) as [Hi|Hi].
  - specialize (Hk (Z.of_nat i) ltac:(unfold in_range; lia)). unfold nth_z in Hk.
    rewrite (proj2 (Z.ltb_ge _ _)), Nat2Z.id in Hk by lia.
    destruct (lookup_lt_is_Some_2 l i Hi) as [x Ex], (lookup_lt_is_Some_2 l' i ltac:(lia)) as [y Ey].
    rewrite Ex, Ey in *. simpl in Hk. congruence.
  - rewrite !lookup_ge_None_2 by lia. done.
Qed.

Lemma nth_z_zeros n k : nth_z (replicate n 0) k = 0.
Proof.
  unfold nth_z. destruct (k <? 0); [done|]. destruct (_ !! _) as [x|] eqn:E; [|done].
  apply lookup_replicate in E as [-> _]. done.
Qed.

(** A loop whose every step adds to counters adds the sums to them. *)
Lemma ofold_adds {S B K} (step : S -> B -> outcome S) (good : S -> Prop) (okb : B -> Prop)
  (meas : S -> K -> Z) (delta : B -> K -> Z) :
  (forall s b, good s -> okb b -> exists s', step s b = Ret s' /\ good s' /\
     forall k, meas s' k = meas s k + delta b k) ->
  forall l s, (forall b, b ∈ l -> okb b) -> good s ->
  exists s', ofold step s l = Ret s' /\ good s' /\ forall k, meas s' k = meas s k + zsum (fun b => delta b k) l.
Proof.
  intros Hstep l. induction l as [|b l IH]; intros s Hb Hs.
  { exists s. split; [done|]. split; [done|]. intros k. simpl. lia. }
  cbn [ofold]. destruct (Hstep s b Hs (Hb b ltac:(left))) as (s1 & E1 & Hs1 & Hm1). rewrite E1. go_ret.
  destruct (IH s1) as (s2 & E2 & Hs2 & Hm2); [intros x Hx; apply Hb; by right|done|].
  exists s2. split; [done|]. split; [done|]. intros k. rewrite Hm2, Hm1. simpl. lia.
Qed.

(** ** What the counters count *)

(** The sum of [f] over the ordered pairs of adjacent vertices. *)
Definition pairs (g : Graph) (f : Vertex -> Vertex -> Z) : Z :=
  zsum (fun '(v, lst) => zsum (f v) lst) (map_to_list (default ∅ (EdgeSet g))).

(** Under the partition [P]: an edge into shard [k] from another one, an edge
    within shard [k], an edge between shards. *)
Definition into (P : Vertex -> Z) (k : Z) (v u : Vertex) : Z := if (P u =? k) && negb (P v =? P u) then 1 else 0.
Definition within (P : Vertex -> Z) (k : Z) (v u : Vertex) : Z := if (P u =? k) && (P v =? P u) then 1 else 0.
Definition across (P : Vertex -> Z) (v u : Vertex) : Z := if P v =? P u then 0 else 1.

(** The edges with an end in shard [k], and the edges between shards. *)
Definition weight (g : Graph) (P : Vertex -> Z) (k : Z) : Z := pairs g (into P k) + pairs g (within P k) / 2.
Definition cut (g : Graph) (P : Vertex -> Z) : Z := pairs g (across P) / 2.

Definition shards_in_range (cs : CLPAState) : Prop :=
  forall v u, u ∈ edges (NetGraph cs) v -> 0 <= shard_of cs u < cs_ShardNum cs.

Lemma edges_lookup g v lst : (v, lst) ∈ map_to_list (default ∅ (EdgeSet g)) -> edges g v = lst.
Proof. intros E%elem_of_map_to_list. unfold edges. by rewrite E. Qed.

Lemma zsum_nonneg {A} (f : A -> Z) l : (forall x, 0 <= f x) -> 0 <= zsum f l.
Proof. intros Hf. induction l as [|x l IH]; simpl; [lia|]. specialize (Hf x). lia. Qed.

Lemma pairs_nonneg g f : (forall v u, 0 <= f v u) -> 0 <= pairs g f.
Proof. intros Hf. apply zsum_nonneg. intros [v lst]. apply zsum_nonneg. apply Hf. Qed.

Lemma pairs_zsum {A} g (f : A -> Vertex -> Vertex -> Z) l :
  zsum (fun k => pairs g (f k)) l = pairs g (fun v u => zsum (fun k => f k v u) l).
Proof.
  unfold pairs. rewrite zsum_swap. apply zsum_ext. intros [v lst] _. by rewrite zsum_swap.
Qed.

Lemma pairs_ext g f f' : (forall v u, u ∈ edges g v -> f v u = f' v u) -> pairs g f = pairs g f'.
Proof.
  intros Hf. apply zsum_ext. intros [v lst] Hin. apply zsum_ext. intros u Hu. apply Hf.
  by rewrite (edges_lookup g v lst Hin).
Qed.

(** The two slices of the count. *)
Definition counters (n : nat) (st : list Z * list Z) : Prop := length st.1 = n /\ length st.2 = n.
Definition counter (st : list Z * list Z) (bk : bool * Z) : Z := nth_z (if bk.1 then st.1 else st.2) bk.2.

Lemma count_edge_spec cs s n st u :
  counters n st -> 0 <= shard_of cs u < Z.of_nat n ->
  exists st', count_edge cs s st u = Ret st' /\ counters n st' /\
    forall bk, counter st' bk = counter st bk +
      (if (shard_of cs u =? bk.2) && eqb bk.1 (negb (s =? shard_of cs u)) then 1 else 0).
Proof.
  intros [H1 H2] Hu. destruct st as [e inter]. unfold count_edge, counter. simpl in H1, H2.
  destruct (s =? shard_of cs u) eqn:E; cbn [negb].
  - destruct (add_at_spec inter (shard_of cs u) 1) as (l' & -> & Hl & Hn); [unfold in_range; lia|]. go_ret.
    exists (e, l'). split; [done|]. split; [split; simpl; congruence|]. intros [[] k]; cbn [fst snd eqb].
    + rewrite andb_false_r. lia.
    + rewrite Hn, andb_true_r, (Z.eqb_sym k). done.
  - destruct (add_at_spec e (shard_of cs u) 1) as (l' & -> & Hl & Hn); [unfold in_range; lia|]. go_ret.
    exists (l', inter). split; [done|]. split; [split; simpl; congruence|]. intros [[] k]; cbn [fst snd eqb].
    + rewrite Hn, andb_true_r, (Z.eqb_sym k). done.
    + rewrite andb_false_r. lia.
Qed.

Lemma count_all_spec cs n st :
  cs_ShardNum cs = Z.of_nat n -> shards_in_range cs -> counters n st ->
  exists st', ofold (fun st '(v, lst) => ofold (count_edge cs (shard_of cs v)) st lst) st
      (map_to_list (default ∅ (EdgeSet (NetGraph cs)))) = Ret st' /\ counters n st' /\
    forall k, counter st' (true, k) = counter st (true, k) + pairs (NetGraph cs) (into (shard_of cs) k) /\
      counter st' (false, k) = counter st (false, k) + pairs (NetGraph cs) (within (shard_of cs) k).
Proof.
  intros Hn Hr Hc.
  edestruct (ofold_adds (fun st '(v, lst) => ofold (count_edge cs (shard_of cs v)) st lst) (counters n)
    (fun '(v, lst) => forall u, u ∈ lst -> 0 <= shard_of cs u < Z.of_nat n) counter
    (fun '(v, lst) bk => zsum (fun u => if (shard_of cs u =? bk.2) && eqb bk.1 (negb (shard_of cs v =? shard_of cs u)) then 1 else 0) lst))
    as (st' & E & Hc' & Hm); [| |exact Hc|].
  - intros st0 [v lst] Hst Hlst.
    exact (ofold_adds _ (counters n) (fun u => 0 <= shard_of cs u < Z.of_nat n) counter
      (fun u bk => if (shard_of cs u =? bk.2) && eqb bk.1 (negb (shard_of cs v =? shard_of cs u)) then 1 else 0)
      (fun s u Hs Hu => count_edge_spec cs (shard_of cs v) n s u Hs Hu) lst st0 Hlst Hst).
  - intros [v lst] Hin u Hu. rewrite <- Hn. apply (Hr v). by rewrite (edges_lookup _ _ _ Hin).
  - exists st'. split; [exact E|]. split; [done|]. intros k. rewrite !Hm. split; f_equal; apply zsum_ext; intros [v lst] _;
      apply zsum_ext; intros u _; unfold into, within; cbn [fst snd];
      destruct (shard_of cs u =? k), (shard_of cs v =? shard_of cs u); done.
Qed.

Lemma sum_nth_z l : foldr Z.add 0 l = zsum (fun k => nth_z l (Z.of_nat k)) (seq 0 (length l)).
Proof.
  induction l as [|x l IH] using rev_ind; [done|]. rewrite foldr_app, length_app, Nat.add_1_r, seq_S, zsum_app.
  simpl foldr. assert (forall y, foldr Z.add y l = foldr Z.add 0 l + y) as Hf by (clear; induction l; intros; simpl; [lia|]; rewrite IHl; lia).
  rewrite Hf, IH. simpl. rewrite !Z.add_0_r. f_equal.
  - apply zsum_ext. intros k Hk%elem_of_seq. unfold nth_z. destruct (Z.of_nat k <? 0); [done|].
    rewrite Nat2Z.id, lookup_app_l by lia. done.
  - unfold nth_z. rewrite (proj2 (Z.ltb_ge _ _)), Nat2Z.id by lia.
    by rewrite lookup_app_r, Nat.sub_diag by lia.
Qed.

Lemma nth_z_zip f l l' k : in_range l k -> length l = length l' ->
  nth_z (zip_with f l l') k = f (nth_z l k) (nth_z l' k).
Proof.
  intros [Hk Hl] Hlen. unfold nth_z. rewrite (proj2 (Z.ltb_ge _ _)) by lia. rewrite lookup_zip_with.
  destruct (lookup_lt_is_Some_2 l (Z.to_nat k)) as [x ->]; [lia|].
  by destruct (lookup_lt_is_Some_2 l' (Z.to_nat k)) as [y ->]; [lia|].
Qed.

Lemma into_across g P n :
  (forall v u, u ∈ edges g v -> 0 <= P u < Z.of_nat n) ->
  zsum (fun k => pairs g (into P (Z.of_nat k))) (seq 0 n) = pairs g (across P).
Proof.
  intros Hr. rewrite (pairs_zsum g (fun k => into P (Z.of_nat k))). apply pairs_ext. intros v u Hu.
  unfold into, across. destruct (P v =? P u).
  - apply zsum_zero. intros k _. by rewrite andb_false_r.
  - rewrite (zsum_ext _ (fun k => if Z.of_nat k =? P u then 1 else 0)); [by apply zsum_pick, (Hr v)|].
    intros k _. by rewrite andb_true_r, Z.eqb_sym.
Qed.

(** The counters of [ComputeEdges2Shard]. *)
Lemma ComputeEdges2Shard_spec cs n :
  cs_ShardNum cs = Z.of_nat n -> shards_in_range cs ->
  exists e, ComputeEdges2Shard cs = Ret (cs_with_counts cs e (min_from 2147483647 e) (cut (NetGraph cs) (shard_of cs))) /\
    length e = n /\ forall k, in_range e k -> nth_z e k = weight (NetGraph cs) (shard_of cs) k.
Proof.
  intros Hn Hr. unfold ComputeEdges2Shard, make_ints. rewrite (proj2 (Z.ltb_ge _ _)) by lia. go_ret.
  rewrite Hn, Nat2Z.id.
  destruct (count_all_spec cs n (replicate n 0, replicate n 0) Hn Hr) as ([e inter] & E & [He Hi] & Hc).
  { split; apply length_replicate. }
  rewrite E. go_ret. cbv beta iota zeta.
  assert (forall k, nth_z e k = pairs (NetGraph cs) (into (shard_of cs) k) /\
                    nth_z inter k = pairs (NetGraph cs) (within (shard_of cs) k)) as Hk.
  { intros k. destruct (Hc k) as [Ht Hf]. unfold counter in Ht, Hf. cbn [fst snd] in Ht, Hf.
    rewrite Ht, Hf, !nth_z_zeros. lia. }
  simpl in He, Hi. eexists. split; [|split].
  - f_equal. f_equal. rewrite sum_nth_z, He. unfold cut.
    rewrite (zsum_ext _ (fun k => pairs (NetGraph cs) (into (shard_of cs) (Z.of_nat k)))) by (intros; apply Hk).
    rewrite into_across by (intros v u Hu; rewrite <- Hn; by apply (Hr v)).
    apply Z.quot_div_nonneg; [|lia]. apply pairs_nonneg. intros v u. unfold across. destruct (_ =? _); lia.
  - rewrite length_zip_with, He, Hi. lia.
  - intros k Hin. unfold in_range in Hin. rewrite length_zip_with in Hin.
    rewrite nth_z_zip by (unfold in_range; lia). destruct (Hk k) as [-> ->]. unfold weight. f_equal.
    apply Z.quot_div_nonneg; [|lia]. apply pairs_nonneg. intros v u. unfold within. destruct (_ && _); lia.
Qed.

Lemma min_from_min b l : min_from b l = foldr Z.min b l.
Proof.
  unfold min_from. revert b. induction l as [|x l IH]; intros b; [done|]. cbn [foldl foldr]. rewrite IH.
  assert (forall y z, foldr Z.min (Z.min y z) l = Z.min y (foldr Z.min z l)) as Hm.
  { clear. induction l as [|x l IH]; intros y z; simpl; [done|]. rewrite IH. lia. }
  destruct (Z.ltb_spec x b).
  - rewrite <- Hm. f_equal. lia.
  - rewrite <- Hm. f_equal. lia.
Qed.

Lemma min_from_cap b b' l : b <= b' -> min_from b l = Z.min b (min_from b' l).
Proof.
  intros Hb. rewrite !min_from_min. induction l as [|x l IH]; simpl; [lia|]. rewrite IH. lia.
Qed.

(** ** Moving one vertex *)

(** How often [x] occurs. *)
Definition occurs (x : Vertex) (l : list Vertex) : Z := zsum (fun y => if decide (y = x) then 1 else 0) l.

(** An undirected multigraph: both directions of every edge are there. *)
Definition symmetric (g : Graph) : Prop := forall u v, occurs u (edges g v) = occurs v (edges g u).
Definition loopless (g : Graph) : Prop := forall v, v ∉ edges g v.

Lemma occurs_pos x l : x ∈ l -> 0 < occurs x l.
Proof.
  intros Hin. unfold occurs. induction Hin as [x l|x y l _ IH]; simpl.
  - rewrite decide_True by done. assert (0 <= zsum (fun y => if decide (y = x) then 1 else 0) l); [|lia].
    apply zsum_nonneg. intros y. case_decide; lia.
  - case_decide; lia.
Qed.

Lemma occurs_zero x l : x ∉ l -> occurs x l = 0.
Proof. intros Hni. apply zsum_zero. intros y Hy. rewrite decide_False; [done|]. by intros ->. Qed.

Lemma symmetric_in g u v : symmetric g -> u ∈ edges g v -> v ∈ edges g u.
Proof.
  intros Hs Hu. destruct (decide (v ∈ edges g u)) as [|Hni]; [done|].
  pose proof (occurs_pos _ _ Hu) as Hp. rewrite Hs, (occurs_zero _ _ Hni) in Hp. lia.
Qed.

(** One row of the edge map. *)
Lemma zsum_row (es : gmap Vertex (list Vertex)) (h : Vertex -> list Vertex -> Z) w :
  h w [] = 0 -> zsum (fun '(v, l) => if decide (v = w) then h v l else 0) (map_to_list es) = h w (default [] (es !! w)).
Proof.
  intros H0. destruct (es !! w) as [l|] eqn:E.
  - rewrite <- (insert_delete_id es w l E), map_to_list_insert by apply lookup_delete_eq.
    simpl. rewrite decide_True by done. rewrite zsum_zero; [lia|]. intros [v l'] Hin%elem_of_map_to_list.
    rewrite decide_False; [done|]. intros ->. by rewrite lookup_delete_eq in Hin.
  - simpl. rewrite H0. apply zsum_zero. intros [v l'] Hin%elem_of_map_to_list. rewrite decide_False; [done|]. congruence.
Qed.

(** The pairs without [w]. *)
Definition rest (g : Graph) (w : Vertex) (f : Vertex -> Vertex -> Z) : Z :=
  pairs g (fun v u => if decide (v = w) then 0 else if decide (u = w) then 0 else f v u).

Lemma pairs_add g f f' : pairs g (fun v u => f v u + f' v u) = pairs g f + pairs g f'.
Proof. unfold pairs. rewrite <- zsum_add. apply zsum_ext. intros [v l] _. apply zsum_add. Qed.

(** Every pair has [w] first, or second, or not at all. *)
Lemma pairs_at g w f : symmetric g -> loopless g ->
  pairs g f = zsum (fun u => f w u + f u w) (edges g w) + rest g w f.
Proof.
  intros Hs Hl.
  rewrite (pairs_ext g f (fun v u => (if decide (v = w) then f v u else 0) +
     ((if decide (u = w) then f v w else 0) + (if decide (v = w) then 0 else if decide (u = w) then 0 else f v u)))).
  2:{ intros v u Hu. destruct (decide (v = w)) as [->|]; [rewrite decide_False; [lia|by intros ->; apply (Hl w)]|].
      destruct (decide (u = w)) as [->|]; lia. }
  rewrite !pairs_add, zsum_add. fold (rest g w f). rewrite Z.add_assoc. f_equal. f_equal.
  - unfold pairs. rewrite (zsum_ext _ (fun '(v, l) => if decide (v = w) then zsum (f v) l else 0)); [by apply zsum_row|].
    intros [v l] _. destruct (decide (v = w)); [done|]. by apply zsum_zero.
  - unfold pairs.
    rewrite (zsum_ext _ (fun '(v, l) => zsum (fun u => if decide (u = v) then f v w else 0) (edges g w))).
    2:{ intros [v l] Hin. rewrite <- (edges_lookup g v l Hin).
        assert (forall x l, zsum (fun u => if decide (u = x) then f v w else 0) l = occurs x l * f v w) as Ho.
        { intros x l'. unfold occurs. induction l' as [|y l' IH]; simpl; [done|]. rewrite IH. case_decide; lia. }
        by rewrite !Ho, Hs. }
    rewrite (zsum_ext _ (fun p => zsum (fun u => if decide (p.1 = u) then f u w else 0) (edges g w))).
    2:{ intros [v l] _. apply zsum_ext. intros u _. simpl. repeat case_decide; congruence. }
    rewrite zsum_swap. apply zsum_ext. intros u Hu.
    pose proof (zsum_row (default ∅ (EdgeSet g)) (fun _ l => if decide (l = []) then 0 else f u w) u eq_refl) as Hrow.
    cbv beta in Hrow. fold (edges g u) in Hrow. rewrite (decide_False (P := edges g u = [])) in Hrow.
    + rewrite <- Hrow. apply zsum_ext. intros [v l] Hin. simpl. case_decide as Ev; [|done]. subst v.
      rewrite decide_False; [done|]. rewrite <- (edges_lookup g u l Hin). intros E.
      apply (symmetric_in g u w Hs) in Hu. rewrite E in Hu. by apply not_elem_of_nil in Hu.
    + intros E. apply (symmetric_in g u w Hs) in Hu. rewrite E in Hu. by apply not_elem_of_nil in Hu.
Qed.

(** What moving [w] from shard [P w] to [new] does to a sum over pairs. *)
Definition moved (P : Vertex -> Z) (w : Vertex) (new : Z) (v : Vertex) : Z := if decide (v = w) then new else P v.

Lemma pairs_moved g w f f' : symmetric g -> loopless g ->
  (forall v u, v <> w -> u <> w -> f' v u = f v u) ->
  pairs g f' = pairs g f + zsum (fun u => (f' w u + f' u w) - (f w u + f u w)) (edges g w).
Proof.
  intros Hs Hl Hf. rewrite (pairs_at g w f'), (pairs_at g w f) by done.
  assert (rest g w f' = rest g w f) as ->.
  { apply pairs_ext. intros v u _. repeat case_decide; try done. by apply Hf. }
  assert (forall (a b : Vertex -> Z) l, zsum a l = zsum b l + zsum (fun u => a u - b u) l) as Hab.
  { intros a b l. induction l as [|x l IH]; simpl; lia. }
  rewrite (Hab (fun u => f' w u + f' u w) (fun u => f w u + f u w)). lia.
Qed.

Section move_one.
Context (g : Graph) (P : Vertex -> Z) (w : Vertex) (new : Z).
Context (Hsym : symmetric g) (Hloop : loopless g) (Hnew : new <> P w).

(** The code's changes for one neighbour. *)
Definition change_weight (k : Z) (u : Vertex) : Z :=
  (if k =? new then (if P u =? new then 0 else 1) else 0) - (if k =? P w then (if P u =? P w then 0 else 1) else 0).
Definition change_cut (u : Vertex) : Z := if P u =? new then -1 else if P u =? P w then 1 else 0.

Local Ltac by_neighbour u Hu :=
  assert (u <> w) by (intros ->; by apply (Hloop w));
  unfold moved; rewrite ?(decide_True (P := w = w)), ?(decide_False (P := u = w)) by done;
  repeat match goal with |- context [?a =? ?b] => destruct (Z.eqb_spec a b) end; simpl; try lia; congruence.

Lemma weight_moved k : weight g (moved P w new) k = weight g P k + zsum (change_weight k) (edges g w).
Proof using All.
  unfold weight.
  rewrite (pairs_moved g w (into P k) (into (moved P w new) k)), (pairs_moved g w (within P k) (within (moved P w new) k)); try done;
    try (intros v u Hv Hu; unfold into, within, moved; by rewrite !decide_False).
  set (half u := (if (k =? new) && (P u =? new) then 1 else 0) - (if (k =? P w) && (P u =? P w) then 1 else 0)).
  rewrite (zsum_ext (fun u => within (moved P w new) k w u + within (moved P w new) k u w - _) (fun u => half u + half u)).
  2:{ intros u Hu. unfold half, within. by_neighbour u Hu. }
  rewrite zsum_add. replace (pairs g (within P k) + (zsum half (edges g w) + zsum half (edges g w)))
    with (pairs g (within P k) + zsum half (edges g w) * 2) by lia.
  rewrite Z.div_add by lia.
  rewrite (zsum_ext (change_weight k) (fun u => (into (moved P w new) k w u + into (moved P w new) k u w - (into P k w u + into P k u w)) + half u)).
  2:{ intros u Hu. unfold half, change_weight, into. by_neighbour u Hu. }
  rewrite zsum_add. lia.
Qed.

Lemma cut_moved : cut g (moved P w new) = cut g P + zsum change_cut (edges g w).
Proof using All.
  unfold cut. rewrite (pairs_moved g w (across P) (across (moved P w new))); try done;
    try (intros v u Hv Hu; unfold across, moved; by rewrite !decide_False).
  rewrite (zsum_ext _ (fun u => change_cut u + change_cut u)).
  2:{ intros u Hu. unfold change_cut, across. by_neighbour u Hu. }
  rewrite zsum_add. replace (pairs g (across P) + (zsum change_cut (edges g w) + zsum change_cut (edges g w)))
    with (pairs g (across P) + zsum change_cut (edges g w) * 2) by lia.
  by rewrite Z.div_add by lia.
Qed.
End move_one.

Lemma weight_ext g P P' : (forall u, P u = P' u) -> forall k, weight g P k = weight g P' k.
Proof. intros HP k. unfold weight, into, within. f_equal; [|f_equal]; apply pairs_ext; intros v u _; by rewrite !HP. Qed.

Lemma cut_ext g P P' : (forall u, P u = P' u) -> cut g P = cut g P'.
Proof. intros HP. unfold cut, across. f_equal. apply pairs_ext. intros v u _. by rewrite !HP. Qed.

(** ** The incremental update *)

Lemma change_edge_spec cs new old n st u :
  length st.1 = n -> new <> old -> 0 <= new < Z.of_nat n -> 0 <= old < Z.of_nat n ->
  exists st', change_edge cs new old st u = Ret st' /\ length st'.1 = n /\
    (forall k, nth_z st'.1 k = nth_z st.1 k + ((if k =? new then (if shard_of cs u =? new then 0 else 1) else 0) -
       (if k =? old then (if shard_of cs u =? old then 0 else 1) else 0))) /\
    st'.2 = st.2 + (if shard_of cs u =? new then -1 else if shard_of cs u =? old then 1 else 0).
Proof.
  intros Hl Hne Hn Ho. destruct st as [e cross]. simpl in Hl. unfold change_edge. set (s := shard_of cs u).
  destruct (Z.eqb_spec s new) as [Es|Es]; cbn [negb andb].
  - destruct (add_at_spec e old (-1)) as (e' & -> & Hl' & He'); [unfold in_range; lia|]. go_ret.
    exists (e', cross - 1). split; [done|]. split; [simpl; congruence|]. split; [|simpl; lia]. intros k. cbn [fst].
    rewrite He'. destruct (Z.eqb_spec k new), (Z.eqb_spec k old), (Z.eqb_spec s old); lia.
  - destruct (Z.eqb_spec s old) as [Eo|Eo]; cbn [negb andb].
    + destruct (add_at_spec e new 1) as (e' & -> & Hl' & He'); [unfold in_range; lia|]. go_ret.
      exists (e', cross + 1). split; [done|]. split; [simpl; congruence|]. split; [|simpl; lia]. intros k. cbn [fst].
      rewrite He'. destruct (Z.eqb_spec k new), (Z.eqb_spec k old); lia.
    + destruct (add_at_spec e new 1) as (e' & -> & Hl' & He'); [unfold in_range; lia|]. go_ret.
      destruct (add_at_spec e' old (-1)) as (e'' & -> & Hl'' & He''); [unfold in_range; lia|]. go_ret.
      exists (e'', cross). split; [done|]. split; [simpl; congruence|]. split; [|simpl; lia]. intros k. cbn [fst].
      rewrite He'', He'. destruct (Z.eqb_spec k new), (Z.eqb_spec k old); lia.
Qed.

Lemma changeShardRecompute_total cs v old n :
  length (Edges2Shard cs) = n -> shard_of cs v <> old -> 0 <= shard_of cs v < Z.of_nat n -> 0 <= old < Z.of_nat n ->
  exists e cross, changeShardRecompute cs v old = Ret (cs_with_counts cs e (min_from 34359738367 e) cross) /\ length e = n /\
    (forall k, nth_z e k = nth_z (Edges2Shard cs) k + zsum (fun u =>
       (if k =? shard_of cs v then (if shard_of cs u =? shard_of cs v then 0 else 1) else 0) -
       (if k =? old then (if shard_of cs u =? old then 0 else 1) else 0)) (edges (NetGraph cs) v)) /\
    cross = CrossShardEdgeNum cs + zsum (fun u => if shard_of cs u =? shard_of cs v then -1 else
       if shard_of cs u =? old then 1 else 0) (edges (NetGraph cs) v).
Proof.
  intros Hl Hne Hn Ho. unfold changeShardRecompute. set (new := shard_of cs v) in *.
  pose (meas (st : list Z * Z) (k : option Z) := match k with Some k => nth_z st.1 k | None => st.2 end).
  pose (delta u (k : option Z) := match k with
    | Some k => (if k =? new then (if shard_of cs u =? new then 0 else 1) else 0) - (if k =? old then (if shard_of cs u =? old then 0 else 1) else 0)
    | None => if shard_of cs u =? new then -1 else if shard_of cs u =? old then 1 else 0 end).
  destruct (ofold_adds (change_edge cs new old) (fun st => length st.1 = n) (fun _ => True) meas delta)
    with (l := edges (NetGraph cs) v) (s := (Edges2Shard cs, CrossShardEdgeNum cs)) as ([e cross] & E & Hlen & Hm); [|done|done|].
  { intros st u Hst _. destruct (change_edge_spec cs new old n st u Hst Hne Hn Ho) as (st' & E & Hst' & Hk & Hc).
    exists st'. split; [done|]. split; [done|]. intros [k|]; [apply Hk|apply Hc]. }
  rewrite E. go_ret. exists e, cross. split; [done|]. split; [done|]. split; [intros k; exact (Hm (Some k))|exact (Hm None)].
Qed.

(** C40. The incremental update agrees with a recount: on an undirected graph
    without loops whose counters are up to date, after one vertex has moved to
    another shard, [changeShardRecompute] leaves exactly the counters that
    [ComputeEdges2Shard] computes from scratch; the least counter differs only in
    its cap, since one function starts from 0x7fffffff and the other from
    0x7ffffffff. *)
Theorem changeShardRecompute_correct (cs cs1 : CLPAState) (v : Vertex) (new m : Z) (nums : list Z) :
  symmetric (NetGraph cs) -> loopless (NetGraph cs) -> 0 <= cs_ShardNum cs -> shards_in_range cs ->
  ComputeEdges2Shard cs = Ret (cs_with_counts cs (Edges2Shard cs) m (CrossShardEdgeNum cs)) ->
  0 <= shard_of cs v < cs_ShardNum cs -> 0 <= new < cs_ShardNum cs -> new <> shard_of cs v ->
  cs1 = cs_with_partition cs (<[v := new]> (PartitionMap cs)) nums ->
  exists cs2 cs3, changeShardRecompute cs1 v (shard_of cs v) = Ret cs2 /\ ComputeEdges2Shard cs1 = Ret cs3 /\
    cs3 = cs_with_counts cs2 (Edges2Shard cs2) (Z.min 2147483647 (MinEdges2Shard cs2)) (CrossShardEdgeNum cs2).
Proof.
  intros Hsym Hloop Hsn Hr Hcount Hold Hnew Hne ->. set (cs1 := cs_with_partition _ _ _).
  destruct (Z_of_nat_complete (cs_ShardNum cs) Hsn) as [n Hn].
  assert (forall u, shard_of cs1 u = moved (shard_of cs) v new u) as HP.
  { intros u. unfold moved, shard_of, cs1. cbn [cs_with_partition PartitionMap]. case_decide as E.
    - subst u. by rewrite lookup_insert_eq.
    - by rewrite lookup_insert_ne by done. }
  assert (shards_in_range cs1) as Hr1.
  { intros x u Hu. rewrite HP. unfold moved. case_decide; [done|]. by apply (Hr x). }
  destruct (ComputeEdges2Shard_spec cs n Hn Hr) as (e0 & E0 & Hl0 & Hk0). rewrite E0 in Hcount. injection Hcount as He0 _ Hc0.
  destruct (ComputeEdges2Shard_spec cs1 n Hn Hr1) as (e1 & E1 & Hl1 & Hk1).
  assert (shard_of cs1 v = new) as Hv by (rewrite HP; unfold moved; by rewrite decide_True).
  destruct (changeShardRecompute_total cs1 v (shard_of cs v) n) as (e2 & c2 & E2 & Hl2 & Hk2 & Hc2);
    [cbn; congruence|congruence|rewrite Hv; lia|lia|].
  assert (forall u, u ∈ edges (NetGraph cs) v -> shard_of cs1 u = shard_of cs u) as Hnb.
  { intros u Hu. rewrite HP. unfold moved. rewrite decide_False; [done|]. intros ->. by apply (Hloop v). }
  assert (e2 = e1) as ->.
  { apply nth_z_ext; [congruence|]. intros k Hk. rewrite Hk2, (Hk1 k) by (unfold in_range in *; lia).
    rewrite (weight_ext _ _ _ HP k), weight_moved by done. cbn [cs1 cs_with_partition Edges2Shard NetGraph].
    rewrite <- He0, (Hk0 k) by (unfold in_range in *; lia). f_equal. apply zsum_ext. intros u Hu.
    unfold change_weight. by rewrite Hv, Hnb. }
  assert (c2 = cut (NetGraph cs) (shard_of cs1)) as ->.
  { rewrite Hc2, (cut_ext _ _ _ HP), cut_moved by done. cbn [cs1 cs_with_partition CrossShardEdgeNum NetGraph].
    rewrite <- Hc0. f_equal. apply zsum_ext. intros u Hu. unfold change_cut. by rewrite Hv, Hnb. }
  eexists _, _. split; [exact E2|]. split; [exact E1|]. cbn [cs_with_counts Edges2Shard MinEdges2Shard CrossShardEdgeNum].
  rewrite (min_from_cap 2147483647 34359738367) by lia. done.
Qed.

(** ** Building the graph *)

(** Every neighbour is a vertex. *)
Definition closed (g : Graph) : Prop := forall v u, u ∈ edges g v -> v ∈ VertexSet g /\ u ∈ VertexSet g.

Lemma g_AddEdge_edges g u v x :
  edges (g_AddEdge g u v) x =
    edges g x ++ (if decide (x = u) then [v] else []) ++ (if decide (x = v) then [u] else []).
Proof.
  assert (forall y, EdgeSet (if decide (y ∈ VertexSet g) then g else g_AddVertex g y) = EdgeSet g) as H1 by (intros; by case_decide).
  unfold g_AddEdge, edges. cbn [EdgeSet from_option id].
  set (g1 := if decide (u ∈ VertexSet g) then g else g_AddVertex g u).
  assert (EdgeSet (if decide (v ∈ VertexSet g1) then g1 else g_AddVertex g1 v) = EdgeSet g) as ->
    by (case_decide; apply H1).
  set (es := default ∅ (EdgeSet g)).
  destruct (decide (x = v)) as [->|Hv].
  - rewrite lookup_insert_eq. cbn [from_option id]. destruct (decide (v = u)) as [->|Hu].
    + rewrite lookup_insert_eq. cbn [from_option id]. by rewrite <- (assoc (++)).
    + rewrite lookup_insert_ne by congruence. done.
  - rewrite lookup_insert_ne by congruence. destruct (decide (x = u)) as [->|Hu].
    + rewrite lookup_insert_eq. done.
    + rewrite lookup_insert_ne by congruence. by rewrite app_nil_r.
Qed.

Lemma occurs_app x l l' : occurs x (l ++ l') = occurs x l + occurs x l'.
Proof. apply zsum_app. Qed.

Lemma g_AddEdge_symmetric g u v : symmetric g -> symmetric (g_AddEdge g u v).
Proof.
  intros Hs x y. rewrite !g_AddEdge_edges, !occurs_app, (Hs x y).
  repeat case_decide; subst; unfold occurs; simpl; repeat case_decide; subst; try done; lia.
Qed.

Lemma g_AddEdge_loopless g u v : u <> v -> loopless g -> loopless (g_AddEdge g u v).
Proof.
  intros Huv Hl x. rewrite g_AddEdge_edges, !elem_of_app. intros [?|[Hx|Hx]]; [by apply (Hl x)|..];
    case_decide; subst; by (apply list_elem_of_singleton in Hx || apply not_elem_of_nil in Hx).
Qed.

Lemma g_AddEdge_closed g u v : closed g -> closed (g_AddEdge g u v).
Proof.
  intros Hc x y. rewrite g_AddEdge_edges, !elem_of_app.
  assert (VertexSet (g_AddEdge g u v) = VertexSet g ∪ {[u; v]}) as ->.
  { unfold g_AddEdge. simpl. repeat case_decide; unfold g_AddVertex in *; simpl in *; set_solver. }
  intros [Hy|[Hy|Hy]]; [destruct (Hc x y Hy); set_solver|..]; case_decide; subst; set_solver.
Qed.

(** ** A run of the algorithm *)

(** The vertices of a shard. *)
Definition members (cs : CLPAState) (k : Z) : gset Vertex := filter (fun v => shard_of cs v = k) (VertexSet (NetGraph cs)).

(** The shards cover the vertices, and the counts of vertices are right. *)
Record clpa_ok (cs : CLPAState) : Prop := {
  co_shards : 0 < cs_ShardNum cs < 2 ^ 63;
  co_closed : closed (NetGraph cs);
  co_placed : forall v, v ∈ VertexSet (NetGraph cs) -> exists s, PartitionMap cs !! v = Some s /\ 0 <= s < cs_ShardNum cs;
  co_nums : Z.of_nat (length (VertexsNumInShard cs)) = cs_ShardNum cs;
  co_count : forall k, in_range (VertexsNumInShard cs) k -> nth_z (VertexsNumInShard cs) k = Z.of_nat (size (members cs k));
  co_edges : Z.of_nat (length (Edges2Shard cs)) = cs_ShardNum cs;
}.

Lemma placed_shard cs v : clpa_ok cs -> v ∈ VertexSet (NetGraph cs) -> 0 <= shard_of cs v < cs_ShardNum cs.
Proof. intros Hok Hv. destruct (co_placed _ Hok v Hv) as (s & E & Hs). unfold shard_of. by rewrite E. Qed.

(** The best shard is the present one or that of a neighbour. *)
Lemma score_spec cs v l : forall st,
  clpa_ok cs -> (forall u, u ∈ l -> u ∈ VertexSet (NetGraph cs)) -> 0 <= st.2 < cs_ShardNum cs ->
  exists st', ofold (score_edge cs v) st l = Ret st' /\ 0 <= st'.2 < cs_ShardNum cs.
Proof.
  induction l as [|u l IH]; intros [[scores mx] best] Hok Hl Hb; [by eexists|]. cbn [ofold score_edge]. simpl in Hb.
  pose proof (placed_shard cs u Hok (Hl u ltac:(left))) as Hu.
  destruct (scores !! shard_of cs u).
  - go_ret. apply (IH (scores, mx, best)); [done|set_solver|done].
  - unfold getShard_score. rewrite at_spec by (unfold in_range; rewrite (co_edges _ Hok); lia). go_ret.
    cbv zeta. case_match; apply IH; try done; set_solver.
Qed.

Lemma members_moved cs cs' v new k :
  NetGraph cs' = NetGraph cs -> (forall u, shard_of cs' u = moved (shard_of cs) v new u) ->
  v ∈ VertexSet (NetGraph cs) -> new <> shard_of cs v ->
  Z.of_nat (size (members cs' k)) =
    Z.of_nat (size (members cs k)) + (if k =? new then 1 else 0) - (if k =? shard_of cs v then 1 else 0).
Proof.
  intros Hg HP Hv Hne. unfold members. rewrite Hg.
  assert (forall (X : gset Vertex), v ∉ X ->
    filter (fun u => shard_of cs' u = k) X = filter (fun u => shard_of cs u = k) X) as Hout.
  { intros X Hx. apply set_eq. intros u. rewrite !elem_of_filter, HP. unfold moved.
    case_decide as E; [subst u; naive_solver|done]. }
  rewrite (union_difference_singleton_L v (VertexSet (NetGraph cs)) Hv), !filter_union_L.
  rewrite (Hout (_ ∖ _)) by set_solver.
  set (X := filter (fun u => shard_of cs u = k) (_ ∖ _)).
  assert (v ∉ X) as Hx by (unfold X; set_solver).
  assert (shard_of cs' v = new) as Hv' by (rewrite HP; unfold moved; by rewrite decide_True).
  rewrite !filter_singleton_L, Hv'.
  assert (forall Q (d : Decision Q) (b : bool), (Q <-> b = true) ->
    Z.of_nat (size ((if d then {[v]} else ∅ : gset Vertex) ∪ X)) = Z.of_nat (size X) + (if b then 1 else 0)) as Hsize.
  { intros Q d b Hb. destruct d as [HQ|HQ].
    - rewrite (proj1 Hb HQ), size_union, size_singleton by set_solver. lia.
    - destruct b; [naive_solver|]. rewrite (left_id_L ∅ (∪)). lia. }
  rewrite (Hsize (new = k) _ (k =? new)), (Hsize (shard_of cs v = k) _ (k =? shard_of cs v))
    by (rewrite Z.eqb_eq; split; congruence).
  lia. all: apply _.
Qed.

(** ** The moves of a run *)

(** Moves of vertices to shards, one after the other: each to another shard, the
    shards afterwards, the last move of each address, and how often a vertex moves. *)
Fixpoint real_moves (P : Vertex -> Z) (trace : list (Vertex * Z)) : Prop :=
  match trace with
  | [] => True
  | (v, s) :: trace => P v <> s /\ real_moves (moved P v s) trace
  end.
Definition after (P : Vertex -> Z) (trace : list (Vertex * Z)) : Vertex -> Z := foldl (fun P vs => moved P vs.1 vs.2) P trace.
Definition last_moves (trace : list (Vertex * Z)) : gmap string Z := foldl (fun r vs => <[Addr vs.1 := vs.2]> r) ∅ trace.
Definition times (v : Vertex) (trace : list (Vertex * Z)) : Z := Z.of_nat (length (filter (fun vs => vs.1 = v) trace)).

Lemma real_moves_snoc trace v s : forall P, real_moves P (trace ++ [(v, s)]) <-> real_moves P trace /\ after P trace v <> s.
Proof. induction trace as [|[u x] trace IH]; intros P; simpl; [tauto|]. rewrite IH. tauto. Qed.

Lemma times_snoc v u s trace : times v (trace ++ [(u, s)]) = times v trace + (if decide (u = v) then 1 else 0).
Proof. unfold times. rewrite list.filter_app, length_app, filter_cons. simpl. case_decide; simpl; lia. Qed.

Record traced (cs0 cs : CLPAState) (res updates : gmap string Z) (trace : list (Vertex * Z)) : Prop := {
  tc_real : real_moves (shard_of cs0) trace;
  tc_after : forall u, shard_of cs u = after (shard_of cs0) trace u;
  tc_result : res = last_moves trace;
  tc_times : forall v, times v trace = default 0 (updates !! Addr v);
}.

Lemma traced_move cs0 cs cs' res upd trace v new :
  traced cs0 cs res upd trace -> (forall u, shard_of cs' u = moved (shard_of cs) v new u) -> shard_of cs v <> new ->
  traced cs0 cs' (<[Addr v := new]> res) (<[Addr v := default 0 (upd !! Addr v) + 1]> upd) (trace ++ [(v, new)]).
Proof.
  intros [Hr Ha -> Ht] HP Hne. split.
  - apply real_moves_snoc. by rewrite <- Ha.
  - intros u. rewrite HP. unfold after. rewrite foldl_app. cbn. unfold moved. case_decide; [done|apply Ha].
  - unfold last_moves. by rewrite foldl_app.
  - intros u. rewrite times_snoc, Ht. case_decide as E.
    + subst u. by rewrite lookup_insert_eq.
    + rewrite lookup_insert_ne; [lia|]. intros Ea. apply E. destruct u, v. simpl in Ea. congruence.
Qed.

(** A run from [cs0]: the graph and the parameters stay, the result names the
    moved vertices with their shards, and no shard has lost its last vertex. *)
Record running (cs0 cs : CLPAState) (res : gmap string Z) (updates : gmap string Z) : Prop := {
  ru_ok : clpa_ok cs;
  ru_graph : NetGraph cs = NetGraph cs0;
  ru_shards : cs_ShardNum cs = cs_ShardNum cs0;
  ru_iterations : MaxIterations cs = MaxIterations cs0;
  ru_result : forall v, v ∈ VertexSet (NetGraph cs0) ->
    shard_of cs v = default (shard_of cs0 v) (res !! Addr v);
  ru_names : forall a, is_Some (res !! a) -> mkVertex a ∈ VertexSet (NetGraph cs0);
  ru_nonempty : forall k, members cs0 k <> ∅ -> members cs k <> ∅;
  ru_updates : forall a, 0 <= default 0 (updates !! a) <= 50;
  ru_trace : exists trace, traced cs0 cs res updates trace;
}.

Lemma nonempty_size (X : gset Vertex) : X <> ∅ <-> (0 < size X)%nat.
Proof.
  split.
  - intros HX. destruct (decide (size X = 0)%nat) as [E|]; [|lia]. apply size_empty_inv in E. by apply leibniz_equiv in E.
  - intros Hs ->. rewrite size_empty in Hs. lia.
Qed.

Lemma move_vertex cs v new nums nums1 :
  clpa_ok cs -> v ∈ VertexSet (NetGraph cs) -> 0 <= new < cs_ShardNum cs -> new <> shard_of cs v ->
  add_at (VertexsNumInShard cs) (shard_of cs v) (-1) = Ret nums1 -> add_at nums1 new 1 = Ret nums ->
  exists cs', changeShardRecompute (cs_with_partition cs (<[v := new]> (PartitionMap cs)) nums) v (shard_of cs v) = Ret cs' /\
    clpa_ok cs' /\ NetGraph cs' = NetGraph cs /\ cs_ShardNum cs' = cs_ShardNum cs /\ MaxIterations cs' = MaxIterations cs /\
    (forall u, shard_of cs' u = moved (shard_of cs) v new u).
Proof.
  intros Hok Hv Hnew Hne E1 E2. set (cs1 := cs_with_partition _ _ _).
  pose proof (placed_shard cs v Hok Hv) as Hold.
  assert (forall u, shard_of cs1 u = moved (shard_of cs) v new u) as HP.
  { intros u. unfold moved, shard_of, cs1. cbn [cs_with_partition PartitionMap]. case_decide as E.
    - subst u. by rewrite lookup_insert_eq.
    - by rewrite lookup_insert_ne by done. }
  assert (shard_of cs1 v = new) as Hv1 by (rewrite HP; unfold moved; by rewrite decide_True).
  destruct Hok as [Hs Hc Hp Hn Hcnt He].
  destruct (changeShardRecompute_total cs1 v (shard_of cs v) (length (Edges2Shard cs)) eq_refl) as (e & c & E & Hle & _ & _);
    [congruence|rewrite Hv1; lia|lia|].
  eexists. split; [exact E|]. split; [|done]. 
  destruct (add_at_spec (VertexsNumInShard cs) (shard_of cs v) (-1)) as (l1 & E1' & Hl1 & Hk1); [unfold in_range; lia|].
  rewrite E1 in E1'. injection E1' as <-.
  destruct (add_at_spec nums1 new 1) as (l2 & E2' & Hl2 & Hk2); [unfold in_range; lia|].
  rewrite E2 in E2'. injection E2' as <-.
  split; cbn [cs_with_counts cs1 cs_with_partition cs_ShardNum NetGraph PartitionMap VertexsNumInShard Edges2Shard]; try done.
  - intros u Hu. destruct (decide (u = v)) as [->|Huv]; [exists new; by rewrite lookup_insert_eq|].
    rewrite lookup_insert_ne by done. by apply Hp.
  - by rewrite Hl2, Hl1.
  - intros k Hk. rewrite Hk2, Hk1, Hcnt by (unfold in_range in *; lia).
    etransitivity; [|symmetry; exact (members_moved cs (cs_with_counts cs1 e (min_from 34359738367 e) c) v new k eq_refl HP Hv Hne)].
    destruct (k =? new), (k =? shard_of cs v); lia.
  - by rewrite Hle.
Qed.

Lemma relabel_spec cs0 cs res upd v :
  running cs0 cs res upd -> v ∈ VertexSet (NetGraph cs0) ->
  exists cs' res' upd', relabel (cs, res, upd) v = Ret (cs', res', upd') /\ running cs0 cs' res' upd'.
Proof.
  intros Hrun Hv. pose proof Hrun as [Hok Hg Hsn Hit Hres Hnm Hne Hup [trace Htr]]. unfold relabel.
  destruct (Z.leb_spec 50 (default 0 (upd !! Addr v))) as [_|Hlt]; [by eexists _, _, _|].
  rewrite <- Hg in Hv. pose proof (placed_shard cs v Hok Hv) as Hold.
  destruct (score_spec cs v (edges (NetGraph cs) v) (∅, f_of_int (-9999), shard_of cs v) Hok) as ([[sc mx] new] & E & Hnew);
    [intros u Hu; by apply (co_closed _ Hok v)|done|].
  rewrite E. go_ret. cbv beta iota. simpl in Hnew.
  destruct (Z.eqb_spec (shard_of cs v) new) as [_|Hdiff]; [by eexists _, _, _|].
  assert (in_range (VertexsNumInShard cs) (shard_of cs v)) as Hin by (unfold in_range; rewrite (co_nums _ Hok); lia).
  rewrite at_spec by done. go_ret. destruct (Z.leb_spec (nth_z (VertexsNumInShard cs) (shard_of cs v)) 1) as [_|Hmany]; [by eexists _, _, _|].
  destruct (add_at_spec (VertexsNumInShard cs) (shard_of cs v) (-1) Hin) as (n1 & E1 & Hl1 & Hk1). rewrite E1. go_ret.
  destruct (add_at_spec n1 new 1) as (n2 & E2 & Hl2 & Hk2); [unfold in_range; rewrite Hl1, (co_nums _ Hok); lia|]. rewrite E2. go_ret.
  destruct (move_vertex cs v new n2 n1 Hok Hv Hnew ltac:(congruence) E1 E2) as (cs' & Ec & Hok' & Hg' & Hsn' & Hit' & HP).
  rewrite Ec. go_ret. eexists _, _, _. split; [done|].
  split; try congruence.
  - intros u Hu. rewrite HP. unfold moved. case_decide as Eu.
    + subst u. rewrite lookup_insert_eq. cbn [from_option id]. symmetry. apply wrap_u_small. unfold is_u.
      pose proof (co_shards _ Hok). lia.
    + rewrite lookup_insert_ne; [by apply Hres|]. intros Ea. apply Eu. destruct u, v. simpl in Ea. congruence.
  - intros a [b Hb]. destruct (decide (a = Addr v)) as [->|Ha].
    + rewrite <- Hg. by destruct v.
    + rewrite lookup_insert_ne in Hb by done. apply Hnm. by eexists.
  - intros k Hk. specialize (Hne k Hk). rewrite nonempty_size in *.
    pose proof (members_moved cs cs' v new k Hg' HP Hv ltac:(congruence)) as Hsz.
    destruct (Z.eqb_spec k (shard_of cs v)) as [->|]; [|destruct (k =? new); lia].
    rewrite (co_count _ Hok) in Hmany by done. destruct (shard_of cs v =? new); lia.
  - intros a. destruct (decide (a = Addr v)) as [->|Ha].
    + rewrite lookup_insert_eq. cbn [from_option id]. specialize (Hup (Addr v)). lia.
    + rewrite lookup_insert_ne by done. apply Hup.
  - exists (trace ++ [(v, new)]). rewrite wrap_u_small by (unfold is_u; pose proof (co_shards _ Hok); lia).
    by eapply traced_move.
Qed.

Lemma relabel_all cs0 vs : forall cs res upd,
  running cs0 cs res upd -> (forall v, v ∈ vs -> v ∈ VertexSet (NetGraph cs0)) ->
  exists cs' res' upd', ofold relabel (cs, res, upd) vs = Ret (cs', res', upd') /\ running cs0 cs' res' upd'.
Proof.
  induction vs as [|v vs IH]; intros cs res upd Hrun Hvs; [by eexists _, _, _|]. cbn [ofold].
  destruct (relabel_spec cs0 cs res upd v Hrun (Hvs v ltac:(left))) as (cs1 & res1 & upd1 & E1 & Hr1). rewrite E1. go_ret.
  apply IH; [done|]. intros u Hu. apply Hvs. by right.
Qed.

Lemma relabel_rounds cs0 orders is_ : forall cs res upd,
  running cs0 cs res upd -> (forall i v, v ∈ orders i -> v ∈ VertexSet (NetGraph cs0)) ->
  exists cs' res' upd', ofold (fun st (iter : nat) => ofold relabel st (orders iter)) (cs, res, upd) is_ =
    Ret (cs', res', upd') /\ running cs0 cs' res' upd'.
Proof.
  induction is_ as [|i is_ IH]; intros cs res upd Hrun Hvs; [by eexists _, _, _|]. cbn [ofold].
  destruct (relabel_all cs0 (orders i) cs res upd Hrun (Hvs i)) as (cs1 & res1 & upd1 & E1 & Hr1). rewrite E1. go_ret.
  by apply IH.
Qed.

(** The state [ComputeEdges2Shard] leaves is as good as the one it got. *)
Lemma recount_ok cs : 0 < cs_ShardNum cs < 2 ^ 63 -> closed (NetGraph cs) ->
  (forall v, v ∈ VertexSet (NetGraph cs) -> exists s, PartitionMap cs !! v = Some s /\ 0 <= s < cs_ShardNum cs) ->
  Z.of_nat (length (VertexsNumInShard cs)) = cs_ShardNum cs ->
  (forall k, in_range (VertexsNumInShard cs) k -> nth_z (VertexsNumInShard cs) k = Z.of_nat (size (members cs k))) ->
  exists e, let cs' := cs_with_counts cs e (min_from 2147483647 e) (cut (NetGraph cs) (shard_of cs)) in
    ComputeEdges2Shard cs = Ret cs' /\ clpa_ok cs' /\
    forall k, in_range e k -> nth_z e k = weight (NetGraph cs) (shard_of cs) k.
Proof.
  intros Hs Hc Hp Hn Hcnt. destruct (Z_of_nat_complete (cs_ShardNum cs) ltac:(lia)) as [n En].
  destruct (ComputeEdges2Shard_spec cs n En) as (e & E & Hl & Hk).
  { intros v u Hu. destruct (Hc v u Hu) as [_ Hu']. destruct (Hp u Hu') as (s & Es & Hr). unfold shard_of. by rewrite Es. }
  exists e. split; [exact E|]. split; [|done]. split; try done. cbn. lia.
Qed.

(** The partition before its first run has no edge counters yet. *)
Record clpa_placed (cs : CLPAState) : Prop := {
  cp_shards : 0 < cs_ShardNum cs < 2 ^ 63;
  cp_closed : closed (NetGraph cs);
  cp_placed : forall v, v ∈ VertexSet (NetGraph cs) -> exists s, PartitionMap cs !! v = Some s /\ 0 <= s < cs_ShardNum cs;
  cp_nums : Z.of_nat (length (VertexsNumInShard cs)) = cs_ShardNum cs;
  cp_count : forall k, in_range (VertexsNumInShard cs) k -> nth_z (VertexsNumInShard cs) k = Z.of_nat (size (members cs k));
}.

Lemma CLPA_Partition_run (cs : CLPAState) (orders : nat -> list Vertex) :
  clpa_placed cs -> (forall i v, v ∈ orders i -> v ∈ VertexSet (NetGraph cs)) ->
  exists res cs', CLPA_Partition cs orders = Ret (res, cut (NetGraph cs) (shard_of cs'), cs') /\
    clpa_ok cs' /\ NetGraph cs' = NetGraph cs /\ cs_ShardNum cs' = cs_ShardNum cs /\
    (forall v, v ∈ VertexSet (NetGraph cs) -> shard_of cs' v = default (shard_of cs v) (res !! Addr v)) /\
    (forall a, is_Some (res !! a) -> mkVertex a ∈ VertexSet (NetGraph cs)) /\
    (forall k, members cs k <> ∅ -> members cs' k <> ∅) /\
    (forall k, in_range (Edges2Shard cs') k -> nth_z (Edges2Shard cs') k = weight (NetGraph cs) (shard_of cs') k) /\
    exists trace, real_moves (shard_of cs) trace /\ (forall v, shard_of cs' v = after (shard_of cs) trace v) /\
      res = last_moves trace /\ forall v, times v trace <= 50.
Proof.
  intros [Hs Hc Hp Hn Hcnt] Hord. unfold CLPA_Partition.
  destruct (recount_ok cs Hs Hc Hp Hn Hcnt) as (e & E & Hok & _). rewrite E. go_ret.
  set (cs1 := cs_with_counts cs e _ _) in *.
  destruct (relabel_rounds cs1 orders (seq 0 (Z.to_nat (MaxIterations cs1))) cs1 ∅ ∅) as (cs2 & res & upd & E2 & Hrun); [|done|].
  { split; try done; [by intros a [x Hx]|]. by exists []. }
  rewrite E2. go_ret. cbv beta iota. destruct Hrun as [[Hs2 Hc2 Hp2 Hn2 Hcnt2 He2] Hg Hsn _ Hres Hnm Hne Hup [trace [Hr Ha Hl Ht]]].
  destruct (recount_ok cs2 Hs2 Hc2 Hp2 Hn2 Hcnt2) as (e2 & E3 & Hok3 & Hw). rewrite E3. go_ret.
  exists res, (cs_with_counts cs2 e2 (min_from 2147483647 e2) (cut (NetGraph cs2) (shard_of cs2))). split; [change (NetGraph cs) with (NetGraph cs1); rewrite <- Hg; reflexivity|]. split; [exact Hok3|]. split; [exact Hg|]. split; [exact Hsn|].
  split; [exact Hres|]. split; [exact Hnm|]. split; [exact Hne|]. split.
  - intros k Hk. change (NetGraph cs) with (NetGraph cs1). rewrite <- Hg. exact (Hw k Hk).
  - exists trace. split; [exact Hr|]. split; [exact Ha|]. split; [exact Hl|]. intros v. rewrite Ht. apply Hup.
Qed.


(** ** A concrete graph *)

Module ClpaSample.
Definition va : Vertex := mkVertex "00000001".
Definition vb : Vertex := mkVertex "00000002".
Definition vc : Vertex := mkVertex "00000003".
Definition graph : Graph := g_AddEdge (g_AddEdge (mkGraph ∅ None) va vb) vb vc.
Definition start_state : CLPAState :=
  mkCLPA graph {[ va := 0; vb := 0; vc := 1 ]} [2; 1] [2; 1] (f_of_int 0) 1 10 1 2.
Definition orders (i : nat) : list Vertex := [va; vb; vc].

Lemma graph_vertices v : v ∈ VertexSet graph -> v = va \/ v = vb \/ v = vc.
Proof. unfold graph, g_AddEdge. simpl. unfold g_AddVertex. simpl. set_solver. Qed.

Lemma graph_symmetric : symmetric graph.
Proof. apply g_AddEdge_symmetric, g_AddEdge_symmetric. by intros u v. Qed.

Lemma graph_closed : closed graph.
Proof. apply g_AddEdge_closed, g_AddEdge_closed. intros v u Hu. by apply not_elem_of_nil in Hu. Qed.

Lemma graph_loopless : loopless graph.
Proof. do 2 (apply g_AddEdge_loopless; [done|]). intros v. apply not_elem_of_nil. Qed.

Lemma start_placed v : v ∈ VertexSet graph -> exists s, PartitionMap start_state !! v = Some s /\ 0 <= s < 2.
Proof. intros Hv. apply graph_vertices in Hv as [Ev|[Ev|Ev]]; subst v; eexists; (split; [reflexivity|lia]). Qed.

Lemma start_ok : clpa_ok start_state.
Proof.
  split; [cbn; lia|exact graph_closed|exact start_placed|reflexivity| |reflexivity].
  intros k [Hk1 Hk2]. simpl in Hk2. assert (k = 0 \/ k = 1) as [-> | ->] by lia; vm_compute; reflexivity.
Qed.

Lemma changeShardRecompute_correct_witness :
  exists cs2 cs3,
    changeShardRecompute (cs_with_partition start_state (<[vc := 0]> (PartitionMap start_state)) [3; 0]) vc 1 = Ret cs2 /\
    ComputeEdges2Shard (cs_with_partition start_state (<[vc := 0]> (PartitionMap start_state)) [3; 0]) = Ret cs3 /\
    cs3 = cs_with_counts cs2 (Edges2Shard cs2) (Z.min 2147483647 (MinEdges2Shard cs2)) (CrossShardEdgeNum cs2).
Proof.
  apply (changeShardRecompute_correct start_state _ vc 0 1 [3; 0] graph_symmetric graph_loopless); try (cbn; lia).
  - intros v u Hu. apply (placed_shard start_state u start_ok). by apply (graph_closed v).
  - vm_compute. reflexivity.
  - vm_compute. done.
  - vm_compute. done.
  - reflexivity.
Defined.

(** A path of four vertices as it is before its first run: the third one moves. *)
Definition vd : Vertex := mkVertex "00000004".
Definition path_graph : Graph := g_AddEdge graph vc vd.
Definition first_state : CLPAState :=
  mkCLPA path_graph {[ va := 0; vb := 0; vc := 1; vd := 1 ]} [] [2; 2] (f_of_int 0) 0 100 0 2.
Definition path_orders (i : nat) : list Vertex := [va; vb; vc; vd].

Lemma path_vertices v : v ∈ VertexSet path_graph -> v = va \/ v = vb \/ v = vc \/ v = vd.
Proof.
  intros Hv. assert (forall g x, v ∈ VertexSet (if decide (x ∈ VertexSet g) then g else g_AddVertex g x) -> v = x \/ v ∈ VertexSet g) as Hadd.
  { intros g x. destruct (decide (x ∈ VertexSet g)); [by right|]. unfold g_AddVertex. cbn [VertexSet].
    by rewrite elem_of_union, elem_of_singleton. }
  apply Hadd in Hv as [->|[->|Hv%graph_vertices]%Hadd]; tauto.
Qed.

Lemma first_placed : clpa_placed first_state.
Proof.
  split; [cbn; lia|apply g_AddEdge_closed, graph_closed| |reflexivity|].
  - intros v Hv. apply path_vertices in Hv as [Ev|[Ev|[Ev|Ev]]]; subst v; eexists; (split; [reflexivity|cbn; lia]).
  - intros k [Hk1 Hk2]. simpl in Hk2. assert (k = 0 \/ k = 1) as [-> | ->] by lia; vm_compute; reflexivity.
Qed.

End ClpaSample.
