(* ===== verification/MerkleProof.v ===== *)
(** * Merkle proofs ([trie/proof.go])

    [Prove] collects the encoded nodes on the path of a key, [VerifyProof]
    follows them down from a root hash.  The node store of a proof is a finite
    map.  Proved here: a proof made from a trie verifies to exactly the value the
    trie stores, or to its absence, and no proof whose nodes are stored under
    their hashes can verify to anything else. *)

From stdpp Require Import base gmap strings list.
From Stdlib Require Import ZArith Lia.
From S2P Require Import Prelude Encoding TrieSpec Node Trie TrieMap Hasher Committer Reload.

Local Open Scope Z_scope.

(** The nodes of a proof: [ethdb.KeyValueWriter] and [KeyValueReader]. *)
Abbreviation proofDb := (gmap (list Z) (list Z)).

Section proof.
Context `{RLP} `{HashEnv} `{EthCommon}.

(** ** Proving *)

(** [trieReader.node]; [Node] is the method of that name of the [Reader] inside. *)
Definition reader_node (r : trieReader) (Node : list Z -> list Z -> list Z -> outcome (res string node))
  (path h : list Z) : outcome (res MissingNodeError node) :=
  if is_banned r path then Ret (Err (mkMissing (tr_owner r) h path None))
  else
    match tr_reader r with
    | None => Ret (Err (mkMissing (tr_owner r) h path None))
    | Some _ =>
        n ← Node (tr_owner r) path h;
        Ret (match n with
             | Err e => Err (mkMissing (tr_owner r) h path (Some e))
             | Ok NilNode => Err (mkMissing (tr_owner r) h path None)
             | Ok n => Ok n
             end)
    end.

(** The loop that collects the nodes; [readNode] is [t.reader.node].  Two calls
    per symbol of the key, as in [get]. *)
Fixpoint prove_path (readNode : list Z -> list Z -> outcome (res MissingNodeError node)) (fuel : nat)
  (tn : node) (prefix key : list Z) (nodes : list node) : outcome (res MissingNodeError (list node)) :=
  match fuel with
  | O => Panic
  | S fuel =>
      match key, tn with
      | [], _ | _, NilNode => Ret (Ok nodes)
      | _ :: _, ShortNode k val f =>
          if (length key <? length k)%nat || negb (bool_decide (k = take (length k) key))
          then Ret (Ok (nodes ++ [tn]))
          else prove_path readNode fuel val (prefix ++ k) (drop (length k) key) (nodes ++ [tn])
      | key0 :: key_tl, FullNode cs f =>
          child ← of_option (cs !! Z.to_nat key0);
          prove_path readNode fuel child (prefix ++ [key0]) key_tl (nodes ++ [tn])
      | _ :: _, HashNode h =>
          r ← readNode prefix (BytesToHash h);
          match r with
          | Err e => Ret (Err e)
          | Ok n => prove_path readNode fuel n prefix key nodes
          end
      | _ :: _, ValueNode _ => Panic
      end
  end.

(** The nodes as proof elements: those that are referred to by hash, and the
    first one.  An error of [Put] is dropped. *)
Fixpoint prove_nodes (i : nat) (fromLevel : Z) (nodes : list node) (db : proofDb) : outcome proofDb :=
  match nodes with
  | [] => Ret db
  | n :: nodes =>
      if 0 <? fromLevel then prove_nodes (S i) (fromLevel - 1) nodes db
      else
        '(n, hn) ← proofHash n;
        let enc := nodeToBytes n in
        let db := match hn with
                  | HashNode hash => <[hash := enc]> db
                  | _ => if (i =? 0)%nat then <[keccak256 enc := enc]> db else db
                  end in
        prove_nodes (S i) fromLevel nodes db
  end.

Definition Prove (Node : list Z -> list Z -> list Z -> outcome (res string node)) (t : Trie) (key : list Z)
  (fromLevel : Z) (db : proofDb) : outcome (res MissingNodeError proofDb) :=
  let key := keybytesToHex key in
  r ← prove_path (reader_node (reader t) Node) (fuel_for key) (root t) [] key [];
  match r with
  | Err e => Ret (Err e)
  | Ok nodes => db ← prove_nodes 0 fromLevel nodes db; Ret (Ok db)
  end.

(** ** Verifying *)

(** [get] of this file: the rest of the key and the child found. *)
Fixpoint proof_get (tn : node) (key : list Z) (skipResolved : bool) {struct tn} : outcome (list Z * node) :=
  match tn with
  | ShortNode k val _ =>
      if (length key <? length k)%nat || negb (bool_decide (k = take (length k) key)) then Ret ([], NilNode)
      else if skipResolved then proof_get val (drop (length k) key) skipResolved
      else Ret (drop (length k) key, val)
  | FullNode cs _ =>
      match key with
      | [] => Panic
      | x :: key =>
          nth_with (fun c => if skipResolved then proof_get c key skipResolved else Ret (key, c)) Panic cs (Z.to_nat x)
      end
  | HashNode _ => Ret (key, tn)
  | NilNode => Ret (key, NilNode)
  | ValueNode _ => Ret ([], tn)
  end.

Inductive proof_err :=
| ProofNodeMissing (i : nat) (hash : list Z)
| BadProofNode (i : nat) (e : decode_err).

(** [copy(wantHash[:], h)]. *)
Definition copy_hash (wantHash h : list Z) : list Z := take 32 h ++ drop (length h) wantHash.

(** The loop has no bound in the code; a found child that is none of the three
    cases would repeat it with the same key. *)
Fixpoint verify_loop (fuel i : nat) (wantHash key : list Z) (db : proofDb) : outcome (res proof_err (option (list Z))) :=
  match fuel with
  | O => Panic
  | S fuel =>
      match db !! wantHash with
      | None => Ret (Err (ProofNodeMissing i wantHash))
      | Some buf =>
          match decodeNode (Some wantHash) buf with
          | Err DecodePanic => Panic
          | Err e => Ret (Err (BadProofNode i e))
          | Ok n =>
              '(keyrest, cld) ← proof_get n key true;
              match cld with
              | NilNode => Ret (Ok None)
              | HashNode h => verify_loop fuel (S i) (copy_hash wantHash h) keyrest db
              | ValueNode v => Ret (Ok (Some v))
              | _ => verify_loop fuel (S i) wantHash key db
              end
          end
      end
  end.

(** One round per symbol of the key is enough. *)
Definition VerifyProof (rootHash key : list Z) (db : proofDb) : outcome (res proof_err (option (list Z))) :=
  let key := keybytesToHex key in verify_loop (S (length key)) 0 rootHash key db.
End proof.

(** ** The path of a key *)

(** The inner nodes a lookup of [key] visits. *)
Fixpoint ppath (t : ptrie) (key : list Z) {struct t} : list ptrie :=
  match t with
  | PNil | PVal _ => []
  | PShort k c => t :: (if bool_decide (take (length k) key = k) then ppath c (drop (length k) key) else [])
  | PFull cs =>
      match key with
      | [] => [t]
      | x :: key' => t :: nth_with (fun c => ppath c key') [] cs (Z.to_nat x)
      end
  end.

Lemma ppath_inner t key s : s ∈ ppath t key -> pinner s = true.
Proof.
  revert key. induction t as [|v|k c IH|cs IH] using ptrie_nested_ind; intros key; cbn [ppath].
  1,2: by intros ?%not_elem_of_nil.
  - intros [->|Hs]%elem_of_cons; [done|]. case_match; [by eapply IH|by apply not_elem_of_nil in Hs].
  - destruct key as [|x key]; [by intros ->%list_elem_of_singleton|].
    intros [->|Hs]%elem_of_cons; [done|]. rewrite nth_with_lookup in Hs.
    case_match; [by eapply IH|by apply not_elem_of_nil in Hs].
Qed.

(** ** Decoding a node by itself *)

Section verify.
Context `{RLPLaws} `{EthCommon} `{!HashLaws} `{!CollisionFree}.

(** The inner nodes of a trie, and a store of their encodings. *)
Fixpoint inner_nodes (t : ptrie) : list ptrie :=
  match t with
  | PNil | PVal _ => []
  | PShort k c => t :: inner_nodes c
  | PFull cs => t :: flat_map inner_nodes cs
  end.

Definition ideal_store (t : ptrie) : gmap (list Z) (list Z) :=
  list_to_map ((fun s => (keccak256 (penc s), penc s)) <$> inner_nodes t).

Lemma ideal_lookup t s : s ∈ inner_nodes t -> ideal_store t !! keccak256 (penc s) = Some (penc s).
Proof.
  intros Hs. apply elem_of_list_to_map'; [|by apply list_elem_of_fmap; exists s].
  intros b _ (s' & [= Ek ->] & _)%list_elem_of_fmap. by apply keccak256_inj in Ek.
Qed.

Definition ideal (t : ptrie) (h b : list Z) : Prop := ideal_store t !! h = Some b.

Lemma ideal_stored t s r : inner_nodes s ⊆ inner_nodes t -> pstored (ideal t) r s.
Proof.
  revert r. induction s as [|v|k c IH|cs IH] using ptrie_nested_ind; intros r Hs; constructor.
  - intros _. apply ideal_lookup, Hs. left.
  - apply IH. intros x Hx. apply Hs. by right.
  - intros _. apply ideal_lookup, Hs. left.
  - intros i c Hc. apply (IH i); [done|]. intros x Hx. apply Hs. right.
    apply list_elem_of_In, in_flat_map. exists c. split; apply list_elem_of_In; [by eapply list_elem_of_lookup_2|done].
Qed.

(** A reader of that store. *)
Definition ideal_reader (t : ptrie) : trieReader :=
  mkTrieReader [] (Some (mkReader (fun _ _ h => Ok (default [] (ideal_store t !! h))))) None.

Lemma ideal_serves t p h b : solid (ideal t) h b -> length h = 32%nat -> nodeBlob (ideal_reader t) p h = Ok b.
Proof.
  intros (Hb & Hne & _) _. unfold nodeBlob, is_banned. cbn [banned ideal_reader tr_reader NodeBlob].
  unfold ideal in Hb. rewrite Hb. cbn [from_option id]. by destruct b.
Qed.

(** Decoding the encoding of a canonical trie gives a node that stands for it,
    whatever the store of the proof holds. *)
Lemma decode_penc t : wf t -> pinner t = true ->
  exists n, decodeNode (Some (keccak256 (penc t))) (penc t) = Ok n /\ is_inner n = true /\
    @expands _ _ (hash_flags (clean_stored (solid (ideal t)))) (ideal_reader t) [] n t.
Proof.
  intros Hw Hi.
  destruct (decodes_all (solid (ideal t)) (ideal_reader t) (ideal_serves t) t [] (S (length (penc t)))
              (Some (keccak256 (penc t))) []) as (n & E & He & _); try done; [|lia|auto|].
  - apply pstored_solid. by apply ideal_stored.
  - rewrite app_nil_r in E. exists n. split; [exact E|]. split; [|done].
    unfold decodeNode in E. by eapply decodeNodeUnsafe_inner.
Qed.

(** ** One step of the verifier *)

(** The child found below [t]: nothing, the value, or the hash of a node further
    down the path. *)
Inductive found (t : ptrie) (key : list Z) : list Z -> node -> Prop :=
| found_nil rest : pget t key = None -> found t key rest NilNode
| found_value v rest : pget t key = Some v -> found t key rest (ValueNode v)
| found_hash s rest :
    wf s -> pinner s = true -> hex_key rest -> pget t key = pget s rest ->
    ppath s rest ⊆ ppath t key ->
    (32 <= length (penc s))%nat -> s ∈ ppath t key ->
    found t key rest (HashNode (keccak256 (penc s))).

Lemma found_down t key t' key' rest cld :
  pget t key = pget t' key' -> ppath t' key' ⊆ ppath t key -> found t' key' rest cld -> found t key rest cld.
Proof.
  intros Eg Hp [r En|v r Ev|s r Hw Hi Hk Es Hs Hlen Hin].
  - constructor. by rewrite Eg.
  - constructor. by rewrite Eg.
  - apply found_hash; try done; [by rewrite Eg|set_solver|set_solver].
Qed.

Lemma key_test (key k l : list Z) : key = k ++ l ->
  (length key <? length k)%nat || negb (bool_decide (k = take (length k) key)) = false /\ drop (length k) key = l.
Proof.
  intros ->. rewrite length_app, (proj2 (Nat.ltb_ge _ _)) by lia. rewrite take_app_length, bool_decide_true by done.
  by rewrite drop_app_length.
Qed.

Lemma key_test_miss (key k : list Z) : (forall l, key <> k ++ l) ->
  (length key <? length k)%nat || negb (bool_decide (k = take (length k) key)) = true.
Proof.
  intros Hm. case_bool_decide as E; [|by rewrite orb_true_r].
  exfalso. apply (Hm (drop (length k) key)). rewrite E at 1. by rewrite take_drop.
Qed.

Lemma ppath_short k c key l : key = k ++ l -> ppath (PShort k c) key = PShort k c :: ppath c l.
Proof. intros ->. cbn [ppath]. rewrite take_app_length, bool_decide_true, drop_app_length by done. done. Qed.

Lemma ppath_self t key : pinner t = true -> t ∈ ppath t key.
Proof. destruct t, key; try done; intros _; left. Qed.

Lemma proof_get_spec clean rd p n t :
  @expands _ _ (hash_flags clean) rd p n t -> forall b key,
  wf_at b t -> key_at b key -> (is_inner n = false -> p <> []) ->
  exists rest cld, proof_get n key true = Ret (rest, cld) /\ found t key rest cld /\
    (length rest <= length key)%nat /\ (is_inner n = true -> (length rest < length key)%nat).
Proof.
  intros He. induction He as [p|p v|p k c f t Hf Hs Hc IH|p cs f ts Hf Hs Hlen Hch IH|p h n t Hf Hl Hs He IH];
    intros b key Hw Hk Hp.
  - exists key, NilNode. split; [done|]. split; [by constructor|done].
  - exists [], (ValueNode v). split; [done|]. split; [by constructor|]. split; [simpl; lia|done].
  - destruct b; [by destruct Hw|]. simpl in Hw, Hk. cbn [proof_get].
    pose proof (wf_short_ne k t Hw) as Hne.
    destruct (short_key_cases key k t Hw Hk) as [(l & isl & Ek & Hl & Hwl)|(Hm & _)].
    + destruct (key_test key k l Ek) as [-> ->].
      destruct (IH isl l Hwl Hl) as (rest & cld & E & Hfd & Hr & _); [intros _; by destruct p, k|].
      exists rest, cld. split; [exact E|]. split.
      * eapply found_down; [| |exact Hfd]; [by apply pget_short|]. rewrite (ppath_short k t key l Ek). set_solver.
      * rewrite Ek, length_app. assert (0 < length k)%nat by (destruct k; simpl; [done|lia]). lia.
    + rewrite (key_test_miss key k Hm). exists [], NilNode. split; [done|].
      split; [constructor; by apply pget_short_miss|]. destruct key; [by apply hex_key_nil in Hk|]. simpl. lia.
  - destruct b; [done|]. cbn [wfl_at key_at] in Hw, Hk. destruct key as [|x key]; [by apply hex_key_nil in Hk|].
    destruct (key_child_idx cs ts x key Hlen Hw Hk) as (c & t & Ec & Et & Ex & Hwt & Hkt & _).
    cbn [proof_get]. rewrite nth_with_lookup, Ec.
    destruct (IH _ _ _ Ec Et _ key Hwt Hkt) as (rest & cld & E & Hfd & Hr & _); [intros _; by destruct p|].
    exists rest, cld. split; [exact E|]. split; [|simpl; lia]. eapply found_down; [| |exact Hfd].
    + rewrite pget_full, Et. done.
    + cbn [ppath]. rewrite nth_with_lookup, Et. set_solver.
  - assert (pinner t = true) as Hi by (eapply expands_pinner; [exact He|by eapply load_inner]).
    destruct b; [by destruct t|]. simpl in Hw, Hk.
    exists key, (HashNode h). split; [done|]. destruct (proj1 Hf h eq_refl) as [-> [Hp0|Hlen]]; [by destruct (Hp eq_refl)|].
    split; [|done]. apply found_hash; try done. by apply ppath_self.
Qed.

(** ** The verifier *)

(** Nodes are stored under their hashes. *)
Definition hashed_db (db : proofDb) : Prop := forall h b, db !! h = Some b -> h = keccak256 b.

Lemma copy_hash_full w h : length w = 32%nat -> length h = 32%nat -> copy_hash w h = h.
Proof. intros Hw Hh. unfold copy_hash. rewrite take_ge, drop_ge, app_nil_r by lia. done. Qed.

(** The verifier on the hash of a canonical trie: the stored value, or the report
    of a node of the path that is missing. *)
Lemma verify_loop_spec db : hashed_db db -> forall fuel i t key,
  wf t -> pinner t = true -> hex_key key -> (length key < fuel)%nat ->
  verify_loop fuel i (keccak256 (penc t)) key db = Ret (Ok (pget t key)) \/
  exists j s, verify_loop fuel i (keccak256 (penc t)) key db = Ret (Err (ProofNodeMissing j (keccak256 (penc s)))) /\
    (s = t \/ s ∈ ppath t key /\ (32 <= length (penc s))%nat) /\ db !! keccak256 (penc s) = None.
Proof.
  intros Hdb fuel. induction fuel as [|fuel IH]; intros i t key Hw Hi Hk Hf; [lia|]. cbn [verify_loop].
  destruct (db !! keccak256 (penc t)) as [b|] eqn:Eb; [|right; exists i, t; auto].
  pose proof (Hdb _ _ Eb) as Ek. apply keccak256_inj in Ek as <-.
  destruct (decode_penc t Hw Hi) as (n & En & Hn & He). rewrite En.
  destruct (proof_get_spec _ _ _ _ _ He false key Hw Hk) as (rest & cld & Eg & Hfd & _ & Hr); [by rewrite Hn|].
  specialize (Hr Hn).
  rewrite Eg. go_ret. cbv beta iota.
  destruct Hfd as [r E0|v r E0|s r Hws His Hks Es Hs Hlen Hin]; [left; by rewrite E0|left; by rewrite E0|].
  rewrite copy_hash_full by apply keccak256_length.
  destruct (IH (S i) s r Hws His Hks ltac:(lia)) as [E|(j & s' & E & Hs' & Hno)]; [left; by rewrite E, Es|right].
  exists j, s'. split; [exact E|]. split; [|done]. right. destruct Hs' as [->|[Hp Hl]]; [done|]. split; [set_solver|done].
Qed.
End verify.

(** ** The prover *)

Section prover.
Context `{RLPLaws} `{EthCommon} `{!HashLaws} `{!CollisionFree} (clean : list Z -> ptrie -> Prop).
#[local] Instance flags_proof : FlagSpec := hash_flags clean.

Lemma toHash_reference c t : is_inner c = true -> encode c = penc t ->
  (forall h, shortnodeToHash c false = HashNode h -> h = keccak256 (penc t)) /\
  ((32 <= length (penc t))%nat -> shortnodeToHash c false = HashNode (keccak256 (penc t))).
Proof.
  intros Hi E. unfold shortnodeToHash. rewrite E. destruct (Nat.ltb_spec (length (penc t)) 32); simpl.
  - split; [intros h ->; done|lia].
  - split; [by intros h [= <-]|done].
Qed.

Lemma full_children_hash rd p cs f ts :
  expands rd p (FullNode cs f) (PFull ts) -> wf (PFull ts) ->
  exists ccs kcs, hashFullNodeChildren hasher_hash 0 cs = Ret (ccs, kcs) /\ flat_map encode ccs = flat_map pref ts.
Proof.
  intros He Hw. inversion He as [| | |? ? ? ? Hf Hs Hlen Hch|]; subst.
  pose proof (proj1 (wf_full ts) Hw) as (Hl17 & _ & Hwc).
  destruct (hashFullNodeChildren_spec hasher_hash (fun _ _ _ => True) cs ts 0 Hlen) as (ccs & kcs & E & Ef & _);
    [|by exists ccs, kcs].
  intros j c t Hc Ht. pose proof (Hch _ _ _ Hc Ht) as Hec. split; [done|]. split; [|split].
  - intros Hn. pose proof (expands_nil _ _ _ _ Hec) as En. rewrite Hn in En. by destruct t.
  - intros Hj. eapply (encode_leaf clean); [exact Hec|by destruct p|].
    assert (j = 16)%nat as -> by (apply lookup_lt_Some in Ht; lia).
    pose proof (Hwc _ _ Ht) as Hv. simpl in Hv. by destruct Hec.
  - intros Hn Hj.
    destruct (hash_expands (loose:=false) clean rd _ c t Hec (j =? 16)%nat false) as (hd & cd & Eh & _ & _ & Ehd & _); try done;
      [by apply Hwc|by destruct p|]. exists hd, cd. auto.
Qed.

(** The collapsed form of a node on the path, and its reference. *)
Lemma proofHash_spec rd p n t :
  expands rd p n t -> wf t -> is_inner n = true ->
  exists c hn, proofHash n = Ret (c, hn) /\ encode c = penc t /\
    (forall h, hn = HashNode h -> h = keccak256 (penc t)) /\
    ((32 <= length (penc t))%nat -> hn = HashNode (keccak256 (penc t))).
Proof.
  intros He Hw Hn. inversion He as [| |? k c f t' Hf Hs Hc|? cs f ts Hf Hs Hlen Hch|]; subst; try done.
  - destruct (wf_short_inv k t' Hw) as (isl & Hk & _ & Hwt & Hnt).
    assert (p ++ k <> []) as Hpk by (pose proof (wf_short_ne k t' Hw); by destruct p, k).
    assert (exists hd cd, (if is_inner c then hasher_hash c false else Ret (c, c)) = Ret (hd, cd) /\ encode hd = pref t')
      as (hd & cd & E & Ehd).
    { destruct (is_inner c) eqn:Ei; [|exists c, c; split; [done|by eapply (encode_leaf clean)]].
      destruct (hash_expands (loose:=false) clean rd (p ++ k) c t' Hc isl false) as (hd & cd & E & _ & _ & Ehd & _); try done; [by destruct c|].
      exists hd, cd. auto. }
    unfold proofHash, hashShortNodeChildren. rewrite (hexToCompact_wf k t' Hw). go_ret. rewrite E. go_ret.
    eexists _, _. split; [done|]. cbn [fst]. assert (encode (ShortNode (compact k) hd f) = penc (PShort k t')) as Een by (simpl; by rewrite Ehd).
    split; [done|]. by apply toHash_reference.
  - destruct (full_children_hash rd p cs f ts He Hw) as (ccs & kcs & E & Ef).
    unfold proofHash. rewrite E. go_ret. eexists _, _. split; [done|]. cbn [fst].
    assert (encode (FullNode ccs f) = penc (PFull ts)) as Een by (simpl; by rewrite Ef).
    split; [done|]. by apply toHash_reference.
Qed.

(** The nodes collected stand for the tries on the path. *)
Definition on_path (rd : trieReader) (n : node) (t : ptrie) : Prop :=
  is_inner n = true /\ wf t /\ exists p, expands rd p n t.

(** The reader's [Node] serves the node that a hash node stands for. *)
Definition serves_nodes (rd : trieReader) (Node : list Z -> list Z -> list Z -> outcome (res string node)) : Prop :=
  forall p h t, expands rd p (HashNode h) t ->
  exists n, Node (tr_owner rd) p (BytesToHash h) = Ret (Ok n) /\ is_inner n = true /\ expands rd p n t.

Lemma serves_reader_node rd Node p h t : serves_nodes rd Node -> expands rd p (HashNode h) t ->
  exists n, reader_node rd Node p (BytesToHash h) = Ret (Ok n) /\ is_inner n = true /\ expands rd p n t.
Proof.
  intros Hs He. destruct (Hs p h t He) as (n & E & Hi & Hn). exists n. split; [|done]. unfold reader_node.
  inversion He as [| | | |? ? n0 ? _ Hl _ _]; subst. unfold load, nodeBlob in Hl.
  destruct (is_banned rd p); [done|]. destruct (tr_reader rd); [|done]. rewrite E. go_ret. by destruct n.
Qed.

Context (rd : trieReader) (Node : list Z -> list Z -> list Z -> outcome (res string node)).
Context (Hread : serves_nodes rd Node).

Lemma prove_path_spec fuel : forall p n t b key acc,
  expands rd p n t -> wf_at b t -> key_at b key -> enough fuel n key ->
  exists ns, prove_path (reader_node rd Node) fuel n p key acc = Ret (Ok (acc ++ ns)) /\ Forall2 (on_path rd) ns (ppath t key).
Proof.
  induction fuel as [|fuel IH]; intros p n t b key acc He Hw Hk Hf; [destruct n; simpl in Hf; lia|].
  cbn [prove_path]. destruct key as [|x key].
  { exists []. rewrite app_nil_r. split; [done|]. destruct b; [|by apply hex_key_nil in Hk]. destruct t; try done; constructor. }
  destruct b; [done|]. simpl in Hw, Hk. destruct n as [|v|h|k c f|cs f].
  - inversion He; subst. exists []. by rewrite app_nil_r.
  - inversion He; subst. done.
  - destruct (serves_reader_node rd Node p h t Hread He) as (n & -> & Hi & Hn). go_ret. cbv beta iota.
    destruct (IH p n t false (x :: key) acc Hn Hw Hk) as (ns & E & Hns); [simpl in Hf; destruct n; try done; simpl; lia|].
    by exists ns.
  - assert (on_path rd (ShortNode k c f) t) as Hself by (split; [done|]; split; [done|]; by exists p).
    inversion He as [| |? ? ? ? t' Hfl Hs Hc| |]; subst.
    destruct (short_key_cases (x :: key) k t' Hw Hk) as [(l & isl & Ek & Hl & Hwl)|(Hm & _)].
    + destruct (key_test (x :: key) k l Ek) as [-> ->]. rewrite (ppath_short k t' (x :: key) l Ek).
      destruct (IH (p ++ k) c t' isl l (acc ++ [ShortNode k c f]) Hc Hwl Hl) as (ns & E & Hns).
      { eapply enough_child; [|by eapply wf_short_ne]. by rewrite <- Ek. }
      exists (ShortNode k c f :: ns). rewrite E, <- (assoc (++)). split; [done|]. by constructor.
    + rewrite (key_test_miss _ _ Hm). exists [ShortNode k c f]. split; [done|]. cbn [ppath].
      rewrite bool_decide_false; [constructor; [done|constructor]|]. intros E. apply (Hm (drop (length k) (x :: key))).
      rewrite <- E at 1. by rewrite take_drop.
  - assert (on_path rd (FullNode cs f) t) as Hself by (split; [done|]; split; [done|]; by exists p).
    inversion He as [| | |? ? ? ts Hfl Hs Hlen Hch|]; subst.
    destruct (key_child_idx cs ts x key Hlen Hw Hk) as (c & t & Ec & Et & Ex & Hwt & Hkt & _).
    rewrite Ec. cbn [of_option]. go_ret. cbn [ppath]. rewrite nth_with_lookup, Et.
    destruct (IH (p ++ [x]) c t _ key (acc ++ [FullNode cs f]) ltac:(rewrite <- Ex at 1; by eapply Hch) Hwt Hkt) as (ns & E & Hns).
    { by apply (enough_child fuel c [x] key). }
    exists (FullNode cs f :: ns). rewrite E, <- (assoc (++)). split; [done|]. by constructor.
Qed.

(** What the elements of a proof contain. *)
Record proves (db db' : proofDb) (first : bool) (ts : list ptrie) : Prop := {
  pr_hashed : hashed_db db';
  pr_keeps : forall h b, db !! h = Some b -> db' !! h = Some b;
  pr_large : forall t, t ∈ ts -> (32 <= length (penc t))%nat -> db' !! keccak256 (penc t) = Some (penc t);
  pr_first : first = true -> forall t ts', ts = t :: ts' -> db' !! keccak256 (penc t) = Some (penc t);
}.

Lemma hashed_insert db b : hashed_db db -> hashed_db (<[keccak256 b := b]> db).
Proof. intros Hdb h b' [[<- <-]|[_ E]]%lookup_insert_Some; [done|by apply Hdb]. Qed.

Lemma hashed_keeps db b h b' : hashed_db db -> db !! h = Some b' -> <[keccak256 b := b]> db !! h = Some b'.
Proof.
  intros Hdb E. destruct (decide (h = keccak256 b)) as [->|Hne]; [|by rewrite lookup_insert_ne].
  rewrite lookup_insert_eq. f_equal. apply Hdb in E. by apply keccak256_inj in E.
Qed.

Lemma prove_nodes_spec ns ts : Forall2 (on_path rd) ns ts -> forall i db, hashed_db db ->
  exists db', prove_nodes i 0 ns db = Ret db' /\ proves db db' (i =? 0)%nat ts.
Proof.
  induction 1 as [|n t ns ts (Hi & Hw & p & He) _ IH]; intros i db Hdb.
  { exists db. split; [done|]. split; try done. by intros t ?%not_elem_of_nil. }
  cbn [prove_nodes Z.ltb Z.compare]. destruct (proofHash_spec rd p n t He Hw Hi) as (c & hn & E & Ec & Hh & Hl). rewrite E. go_ret.
  cbv beta iota zeta. unfold nodeToBytes. rewrite Ec.
  set (db1 := match hn with HashNode h => _ | _ => _ end).
  assert (db1 = <[keccak256 (penc t) := penc t]> db \/ (db1 = db /\ (length (penc t) < 32)%nat /\ (i =? 0)%nat = false)) as Hdb1.
  { unfold db1. destruct hn as [|v|h| |]; try (destruct (i =? 0)%nat; [by left|right; split; [done|]; split; [|done]];
      destruct (decide (32 <= length (penc t))%nat) as [H32|]; [by apply Hl in H32|lia]).
    left. by rewrite (Hh h eq_refl). }
  assert (hashed_db db1 /\ (forall h b, db !! h = Some b -> db1 !! h = Some b)) as [Hdb1' Hkeep].
  { destruct Hdb1 as [->|[-> _]]; [|done]. split; [by apply hashed_insert|]. intros h b. by apply hashed_keeps. }
  destruct (IH (S i) db1 Hdb1') as (db' & E' & [Hh' Hk' Hl' _]). exists db'. split; [exact E'|]. split; [done| | |].
  - intros h b Eb. by apply Hk', Hkeep.
  - intros s [->|Hs]%elem_of_cons Hlen; [|by apply Hl'].
    apply Hk'. destruct Hdb1 as [->|(_ & ? & _)]; [apply lookup_insert_eq|lia].
  - intros Hfirst s ts' [= <- _]. apply Hk'. destruct Hdb1 as [->|(_ & _ & ?)]; [apply lookup_insert_eq|congruence].
Qed.

Lemma Prove_spec t pt key db :
  reader t = rd -> expands rd [] (root t) pt -> wf pt -> pinner pt = true -> bytes key -> hashed_db db ->
  exists db', Prove Node t key 0 db = Ret (Ok db') /\ proves db db' true (ppath pt (keybytesToHex key)).
Proof.
  intros Hrd He Hw Hi Hb Hdb. unfold Prove. rewrite Hrd.
  destruct (prove_path_spec (fuel_for (keybytesToHex key)) [] (root t) pt false (keybytesToHex key) [] He Hw
              (keybytesToHex_key key Hb) (enough_fuel_for _ _)) as (ns & E & Hns).
  rewrite E. go_ret. cbv beta iota. rewrite app_nil_l.
  destruct (prove_nodes_spec ns _ Hns 0 db Hdb) as (db' & E' & Hp). rewrite E'. go_ret. by exists db'.
Qed.
End prover.

Section correct.
Context `{RLPLaws} `{EthCommon} `{!HashLaws} `{!CollisionFree} (clean : list Z -> ptrie -> Prop).
#[local] Instance flags_proofs : FlagSpec := hash_flags clean.

Lemma pinner_nonempty pt m : pt_holds pt m -> m <> ∅ -> pinner pt = true.
Proof.
  intros Hh Hm. destruct pt; try done; [|by destruct Hh]. exfalso. apply Hm, map_eq. intros k.
  rewrite lookup_empty. destruct (m !! k) as [v|] eqn:E; [|done]. destruct (holds_dom _ _ Hh k v E) as [Hb _].
  pose proof (holds_get _ _ Hh k Hb) as Hg. rewrite E in Hg. done.
Qed.

(** C36. Soundness of proofs: against the root hash of a non-empty trie, a proof
    whose nodes are stored under their hashes, whoever made it, verifies to
    exactly the stored value of the key, or to its absence when the trie does not
    hold it; all the verifier can say otherwise is that a node is missing, and it
    never loops or panics. *)
Theorem VerifyProof_sound (pt : ptrie) (m : gmap (list Z) (list Z)) (key : list Z)
  (db : proofDb) :
  pt_holds pt m -> m <> ∅ -> bytes key -> hashed_db db ->
  VerifyProof (root_hash pt) key db = Ret (Ok (m !! key)) \/
  exists i h, VerifyProof (root_hash pt) key db = Ret (Err (ProofNodeMissing i h)).
Proof.
  intros Hh Hm Hb Hdb. pose proof (pinner_nonempty pt m Hh Hm) as Hi. unfold VerifyProof.
  rewrite pinner_root_hash by done. pose proof (holds_get _ _ Hh key Hb) as Hg.
  destruct (verify_loop_spec db Hdb (S (length (keybytesToHex key))) 0 pt (keybytesToHex key) (holds_wf _ _ Hh) Hi
              (keybytesToHex_key key Hb) ltac:(lia)) as [E|(j & s & E & _)].
  - left. rewrite E. by rewrite Hg.
  - right. by eexists _, _.
Qed.

Lemma prove_then_verify Node t m pt key db :
  hashed_rep clean t m pt -> m <> ∅ -> bytes key -> hashed_db db -> serves_nodes clean (reader t) Node ->
  exists db', Prove Node t key 0 db = Ret (Ok db') /\ hashed_db db' /\
    VerifyProof (root_hash pt) key db' = Ret (Ok (m !! key)).
Proof.
  intros [He Hh] Hm Hb Hdb Hread. pose proof (pinner_nonempty pt m Hh Hm) as Hi.
  destruct (Prove_spec clean (reader t) Node Hread t pt key db eq_refl He (holds_wf _ _ Hh) Hi Hb Hdb)
    as (db' & Ep & [Hh' _ Hl Hf]). exists db'. split; [done|]. split; [done|].
  unfold VerifyProof. rewrite pinner_root_hash by done. pose proof (holds_get _ _ Hh key Hb) as Hg.
  destruct (verify_loop_spec db' Hh' (S (length (keybytesToHex key))) 0 pt (keybytesToHex key) (holds_wf _ _ Hh) Hi
              (keybytesToHex_key key Hb) ltac:(lia)) as [E|(j & s & E & Hs & Hno)].
  - rewrite E. by rewrite Hg.
  - exfalso. destruct Hs as [->|[Hs Hlen]].
    + destruct (ppath pt (keybytesToHex key)) as [|t0 ts] eqn:Epp.
      { pose proof (ppath_self pt (keybytesToHex key) Hi) as Hx. rewrite Epp in Hx. by apply not_elem_of_nil in Hx. }
      assert (t0 = pt) as -> by (destruct pt, (keybytesToHex key); simplify_eq/=; done).
      rewrite (Hf eq_refl pt ts eq_refl) in Hno. done.
    + rewrite (Hl s Hs Hlen) in Hno. done.
Qed.

(** C37. Completeness of proofs: the proof that [Prove] makes from a non-empty
    trie, partly in memory and partly behind its reader, verifies against the
    trie's root hash to the value stored for the key, or to its absence. *)
Theorem Prove_verifies (Node : list Z -> list Z -> list Z -> outcome (res string node)) (t : Trie)
  (m : gmap (list Z) (list Z)) (key : list Z) (db : proofDb) :
  trie_rep t m -> m <> ∅ -> bytes key -> hashed_db db ->
  serves_nodes clean (reader t) Node ->
  exists h t' db', Hash t = Ret (h, t') /\ Prove Node t key 0 db = Ret (Ok db') /\ hashed_db db' /\
    VerifyProof h key db' = Ret (Ok (m !! key)).
Proof.
  intros (pt & He & Hh) Hm Hb Hdb Hread.
  destruct (Hash_spec clean t m pt) as (t' & Eh & _); [by split|].
  destruct (prove_then_verify Node t m pt key db (conj He Hh) Hm Hb Hdb Hread) as (db' & Ep & Hd & Ev).
  by exists (root_hash pt), t', db'.
Qed.
End correct.

(** A reader that holds nothing, for a trie that is all in memory. *)
Definition no_node (o p h : list Z) : outcome (res string node) := Ret (Ok NilNode).

Lemma sample_memory p h s :
  ~ @expands RLPSample.rlp RLPSample.eth (@hash_flags RLPSample.env (fun _ _ => True)) newEmptyReader p (HashNode h) s.
Proof. intros He. inversion He as [| | | |? ? n ? _ Hl _ _]; subst. discriminate Hl. Qed.

Lemma VerifyProof_sound_witness :
  exists pt db, pt_holds pt Sample.stored /\ @hashed_db RLPSample.env db /\
    @VerifyProof RLPSample.rlp (@root_hash RLPSample.env RLPSample.eth pt) Sample.key db = Ret (Ok (Some Sample.val)) /\
    exists i h, @VerifyProof RLPSample.rlp (@root_hash RLPSample.env RLPSample.eth pt) Sample.key ∅ = Ret (Err (ProofNodeMissing i h)).
Proof.
  set (pt := PShort (keybytesToHex Sample.key) (PVal Sample.val)).
  assert (pt_holds pt Sample.stored) as Hh
    by (apply (pt_holds_insert PNil ∅ Sample.key Sample.val); [apply pt_holds_empty|apply Sample.key_bytes|done]).
  destruct (@prove_then_verify RLPSample.rlp RLPSample.env RLPSample.rlp_laws RLPSample.eth RLPSample.hash_laws
           RLPSample.keccak_inj (fun _ _ => True) no_node Sample.tree Sample.stored pt Sample.key ∅) as (db & _ & Hdb & Ev).
  - split; [apply ex_short; [apply flag_ok_new|done|constructor]|exact Hh].
  - done.
  - exact Sample.key_bytes.
  - intros h b E. by rewrite lookup_empty in E.
  - intros p h s He. by destruct (sample_memory p h s).
  - assert (forall db, @hashed_db RLPSample.env db ->
      @VerifyProof RLPSample.rlp (@root_hash RLPSample.env RLPSample.eth pt) Sample.key db = Ret (Ok (Sample.stored !! Sample.key)) \/
      exists i h, @VerifyProof RLPSample.rlp (@root_hash RLPSample.env RLPSample.eth pt) Sample.key db =
        Ret (Err (ProofNodeMissing i h))) as Hs.
    { intros d Hd. exact (@VerifyProof_sound RLPSample.rlp RLPSample.env RLPSample.rlp_laws RLPSample.eth RLPSample.hash_laws
           RLPSample.keccak_inj pt Sample.stored Sample.key d Hh ltac:(done) Sample.key_bytes Hd). }
    exists pt, db. split; [exact Hh|]. split; [exact Hdb|]. split.
    + destruct (Hs db Hdb) as [E|(i & h & E)]; [exact E|]. rewrite Ev in E. discriminate E.
    + destruct (Hs ∅) as [E|E]; [intros h b Eb; by rewrite lookup_empty in Eb| |exact E]. vm_compute in E. discriminate E.
Defined.

Lemma Prove_verifies_witness :
  exists h t' db', @Hash RLPSample.env RLPSample.eth Sample.tree = Ret (h, t') /\
    @Prove RLPSample.env RLPSample.eth no_node Sample.tree Sample.key 0 ∅ = Ret (Ok db') /\
    @hashed_db RLPSample.env db' /\
    @VerifyProof RLPSample.rlp h Sample.key db' = Ret (Ok (Sample.stored !! Sample.key)).
Proof.
  apply (@Prove_verifies RLPSample.rlp RLPSample.env RLPSample.rlp_laws RLPSample.eth RLPSample.hash_laws
           RLPSample.keccak_inj (fun _ _ => True) no_node Sample.tree Sample.stored Sample.key ∅).
  - exists (PShort (keybytesToHex Sample.key) (PVal Sample.val)). split.
    + apply ex_short; [apply flag_ok_new|done|constructor].
    + apply (pt_holds_insert PNil ∅ Sample.key Sample.val); [apply pt_holds_empty|apply Sample.key_bytes|done].
  - done.
  - exact Sample.key_bytes.
  - intros h b E. by rewrite lookup_empty in E.
  - intros p h s He. by destruct (sample_memory p h s).
Defined.
