(* ===== verification/Iterator.v ===== *)
(** * The trie iterator ([trie/iterator.go])

    The node iterator keeps the path from the root to the current node as a stack,
    each entry with the child to visit next, and loads nodes on the way; the key-value
    iterator stops at the values.  [Iteration] proves what they visit. *)

From stdpp Require Import base gmap strings list.
From Stdlib Require Import ZArith Lia.
From S2P Require Import Prelude Encoding Node Trie Hasher MerkleProof.

Local Open Scope Z_scope.

(** ** Byte strings ([bytes] of the standard library) *)

Fixpoint bytes_Compare (a b : list Z) : Z :=
  match a, b with
  | [], [] => 0
  | [], _ :: _ => -1
  | _ :: _, [] => 1
  | x :: a, y :: b => if x <? y then -1 else if y <? x then 1 else bytes_Compare a b
  end.

Definition bytes_HasPrefix (s prefix : list Z) : bool := bool_decide (take (length prefix) s = prefix).

(** ** State *)

Record nodeIteratorState := mkNIS {
  st_hash : list Z;
  st_node : node;
  st_parent : list Z;
  st_index : Z;
  st_pathlen : nat;
}.

Inductive iter_err :=
| errIteratorEnd
| SeekError (key : list Z) (err : MissingNodeError)
| NodeError (err : MissingNodeError).

Abbreviation NodeResolver := (list Z -> list Z -> list Z -> list Z).

(** The stack with its last element, the current node, first. *)
Record nodeIterator := mkNodeIt {
  it_trie : Trie;
  it_stack : list nodeIteratorState;
  it_path : list Z;
  it_err : option iter_err;
  it_resolver : option NodeResolver;
}.

Definition it_at (it : nodeIterator) (stack : list nodeIteratorState) (path : list Z) : nodeIterator :=
  mkNodeIt (it_trie it) stack path (it_err it) (it_resolver it).
Definition it_fail (it : nodeIterator) (err : option iter_err) : nodeIterator :=
  mkNodeIt (it_trie it) (it_stack it) (it_path it) err (it_resolver it).
Definition st_at (st : nodeIteratorState) (index : Z) : nodeIteratorState :=
  mkNIS (st_hash st) (st_node st) (st_parent st) index (st_pathlen st).

Definition zero_hash : list Z := replicate 32 0.

Section iterator.
Context `{RLP} `{EthCommon} `{HashEnv}.
(** The method [Node] of the trie's reader. *)
Context (Node : list Z -> list Z -> list Z -> outcome (res string node)).

(** ** Resolving *)

Definition resolveHash (it : nodeIterator) (hash path : list Z) : outcome (res MissingNodeError node) :=
  let from_reader := reader_node (reader (it_trie it)) Node path (BytesToHash hash) in
  match it_resolver it with
  | None => from_reader
  | Some resolver =>
      let blob := resolver (owner (it_trie it)) path (BytesToHash hash) in
      if (0 <? length blob)%nat then
        match decodeNode (Some hash) blob with
        | Ok resolved => Ret (Ok resolved)
        | Err DecodePanic => Panic
        | Err _ => from_reader
        end
      else from_reader
  end.

Definition resolveBlob (it : nodeIterator) (hash path : list Z) : res MissingNodeError (list Z) :=
  let from_reader := nodeBlob (reader (it_trie it)) path (BytesToHash hash) in
  match it_resolver it with
  | None => from_reader
  | Some resolver =>
      let blob := resolver (owner (it_trie it)) path (BytesToHash hash) in
      if (0 <? length blob)%nat then Ok blob else from_reader
  end.

Definition st_resolve (it : nodeIterator) (st : nodeIteratorState) (path : list Z)
  : outcome (res MissingNodeError nodeIteratorState) :=
  match st_node st with
  | HashNode hash =>
      r ← resolveHash it hash path;
      Ret (match r with
           | Err e => Err e
           | Ok resolved => Ok (mkNIS (BytesToHash hash) resolved (st_parent st) (st_index st) (st_pathlen st))
           end)
  | _ => Ret (Ok st)
  end.

(** ** Children *)

(** The state of a child; a missing cached hash is the zero hash. *)
Definition child_state (child : node) (ancestor path : list Z) : nodeIteratorState :=
  mkNIS (BytesToHash (default [] (cache child).1)) child ancestor (-1) (length path).

(** The loop of [findChild] at [index], with the children from there on. *)
Fixpoint findChild_loop (cs : list node) (index : nat) (path ancestor : list Z) : option (nodeIteratorState * list Z * nat) :=
  match cs with
  | [] => None
  | NilNode :: cs => findChild_loop cs (S index) path ancestor
  | child :: _ => Some (child_state child ancestor path, path ++ [Z.of_nat index], index)
  end.
Definition findChild (cs : list node) (index : nat) (path ancestor : list Z) : option (nodeIteratorState * list Z * nat) :=
  findChild_loop (drop index cs) index path ancestor.

(** A child of [parent], its path, and the parent with its new index. *)
Definition nextChild (parent : nodeIteratorState) (ancestor path : list Z)
  : option (nodeIteratorState * list Z * nodeIteratorState) :=
  match st_node parent with
  | FullNode cs _ =>
      match findChild cs (Z.to_nat (st_index parent + 1)) path ancestor with
      | Some (state, cpath, index) => Some (state, cpath, st_at parent (Z.of_nat index - 1))
      | None => None
      end
  | ShortNode key val _ =>
      if st_index parent <? 0 then Some (child_state val ancestor path, path ++ key, parent) else None
  | _ => None
  end.

(** The loop of [nextChildAt] over the siblings before [key]: it ends when the
    children do, so the number of children bounds it. *)
Fixpoint advance (fuel : nat) (cs : list node) (path ancestor key : list Z) (cur : nodeIteratorState * list Z * nat)
  : outcome (nodeIteratorState * list Z * nat) :=
  match fuel with
  | O => Panic
  | S fuel =>
      match findChild cs (S cur.2) path ancestor with
      | None => Ret cur
      | Some next => if 0 <=? bytes_Compare next.1.2 key then Ret cur else advance fuel cs path ancestor key next
      end
  end.

Definition nextChildAt (key : list Z) (parent : nodeIteratorState) (ancestor path : list Z)
  : outcome (option (nodeIteratorState * list Z * nodeIteratorState)) :=
  match st_node parent with
  | FullNode cs _ =>
      match findChild cs (Z.to_nat (st_index parent + 1)) path ancestor with
      | None => Ret None
      | Some cur =>
          '(state, cpath, index) ← (if 0 <=? bytes_Compare cur.1.2 key then Ret cur
                                    else advance (S (length cs)) cs path ancestor key cur);
          Ret (Some (state, cpath, st_at parent (Z.of_nat index - 1)))
      end
  | _ => Ret (nextChild parent ancestor path)
  end.

(** ** Moving *)

Definition push (it : nodeIterator) (state : nodeIteratorState) (has_parent : bool) (path : list Z) : nodeIterator :=
  let stack := match it_stack it with
               | parent :: stack => if has_parent then st_at parent (st_index parent + 1) :: stack else it_stack it
               | [] => []
               end in
  it_at it (state :: stack) path.

(** [it.path[:pathlen]] never reaches past the path. *)
Definition pop (it : nodeIterator) : nodeIterator :=
  match it_stack it with
  | last :: stack => it_at it stack (take (st_pathlen last) (it_path it))
  | [] => it
  end.

Definition init (it : nodeIterator) : outcome (res MissingNodeError nodeIteratorState * nodeIterator) :=
  '(root_, t) ← Hash (it_trie it);
  let it := mkNodeIt t (it_stack it) (it_path it) (it_err it) (it_resolver it) in
  let state := mkNIS (if bool_decide (root_ = EmptyRootHash) then zero_hash else root_) (root t) zero_hash (-1) 0 in
  r ← st_resolve it state [];
  Ret (r, it).

(** What [peek] and [peekSeek] return: the next state, whether it has a parent on
    the stack, and its path. *)
Abbreviation peeked := (res iter_err (nodeIteratorState * bool * list Z)).

(** Their loop: the first child of the current node, or of an ancestor. *)
Fixpoint peek_loop (next : nodeIteratorState -> list Z -> list Z -> outcome (option (nodeIteratorState * list Z * nodeIteratorState)))
    (it : nodeIterator) (stack : list nodeIteratorState) (path : list Z) : outcome (peeked * nodeIterator) :=
  match stack with
  | [] => Ret (Err errIteratorEnd, it_at it [] path)
  | parent :: rest =>
      let ancestor := if bool_decide (st_hash parent = zero_hash) then st_parent parent else st_hash parent in
      o ← next parent ancestor path;
      match o with
      | Some (state, cpath, parent) =>
          r ← st_resolve it state cpath;
          Ret (match r with Err e => Err (NodeError e) | Ok state => Ok (state, true, cpath) end, it_at it (parent :: rest) path)
      | None => peek_loop next it rest (take (st_pathlen parent) path)
      end
  end.

Definition peek_init (it : nodeIterator) : outcome (peeked * nodeIterator) :=
  '(r, it) ← init it;
  Ret (match r with Err e => Err (NodeError e) | Ok state => Ok (state, false, []) end, it).

Definition peek (it : nodeIterator) (descend : bool) : outcome (peeked * nodeIterator) :=
  match it_stack it with
  | [] => peek_init it
  | _ =>
      let it := if descend then it else pop it in
      peek_loop (fun parent ancestor path => Ret (nextChild parent ancestor path)) it (it_stack it) (it_path it)
  end.

Definition peekSeek (it : nodeIterator) (key : list Z) : outcome (peeked * nodeIterator) :=
  match it_stack it with
  | [] => peek_init it
  | _ =>
      let it := if bytes_HasPrefix key (it_path it) then it else pop it in
      peek_loop (nextChildAt key) it (it_stack it) (it_path it)
  end.

(** The loop of [seek]: every round but two goes one node further down towards the
    key. *)
Fixpoint seek_loop (fuel : nat) (it : nodeIterator) (prefix key : list Z) : outcome (option iter_err * nodeIterator) :=
  match fuel with
  | O => Panic
  | S fuel =>
      '(r, it) ← peekSeek it key;
      match r with
      | Err errIteratorEnd => Ret (Some errIteratorEnd, it)
      | Err (NodeError e) => Ret (Some (SeekError prefix e), it)
      | Err (SeekError _ e) => Ret (Some (SeekError prefix e), it)
      | Ok (state, has_parent, path) =>
          if 0 <=? bytes_Compare path key then Ret (None, it)
          else seek_loop fuel (push it state has_parent path) prefix key
      end
  end.

Definition seek (it : nodeIterator) (prefix : list Z) : outcome (option iter_err * nodeIterator) :=
  let key := removelast (keybytesToHex prefix) in
  seek_loop (length key + 3) it prefix key.

Definition newNodeIterator (t : Trie) (start : list Z) : outcome nodeIterator :=
  '(h, t) ← Hash t;
  if bool_decide (h = EmptyRootHash) then Ret (mkNodeIt t [] [] (Some errIteratorEnd) None)
  else
    '(err, it) ← seek (mkNodeIt t [] [] None None) start;
    Ret (it_fail it err).

Definition AddResolver (it : nodeIterator) (resolver : NodeResolver) : nodeIterator :=
  mkNodeIt (it_trie it) (it_stack it) (it_path it) (it_err it) (Some resolver).

Definition step (it : nodeIterator) (descend : bool) : outcome (bool * nodeIterator) :=
  '(r, it) ← peek it descend;
  match r with
  | Err e => Ret (false, it_fail it (Some e))
  | Ok (state, has_parent, path) => Ret (true, push (it_fail it None) state has_parent path)
  end.

Definition Next (it : nodeIterator) (descend : bool) : outcome (bool * nodeIterator) :=
  match it_err it with
  | Some errIteratorEnd => Ret (false, it)
  | Some (SeekError key _) =>
      '(err, it) ← seek it key;
      let it := it_fail it err in
      match err with Some _ => Ret (false, it) | None => step it descend end
  | _ => step it descend
  end.

(** ** Looking *)

Definition it_Hash (it : nodeIterator) : list Z := match it_stack it with [] => zero_hash | st :: _ => st_hash st end.
Definition it_Parent (it : nodeIterator) : list Z := match it_stack it with [] => zero_hash | st :: _ => st_parent st end.
Definition Leaf (it : nodeIterator) : bool := hasTerm (it_path it).
Definition LeafKey (it : nodeIterator) : outcome (list Z) :=
  match it_stack it with
  | st :: _ => match st_node st with ValueNode _ => hexToKeybytes (it_path it) | _ => Panic end
  | [] => Panic
  end.
Definition LeafBlob (it : nodeIterator) : outcome (list Z) :=
  match it_stack it with
  | st :: _ => match st_node st with ValueNode v => Ret v | _ => Panic end
  | [] => Panic
  end.

(** The nodes above the leaf, from the root on: those referred to by hash, and the
    first. *)
Fixpoint leaf_proofs (i : nat) (nodes : list node) : outcome (list (list Z)) :=
  match nodes with
  | [] => Ret []
  | n :: nodes =>
      '(n, hashed) ← proofHash n;
      rest ← leaf_proofs (S i) nodes;
      Ret (match hashed with
           | HashNode _ => nodeToBytes n :: rest
           | _ => if (i =? 0)%nat then nodeToBytes n :: rest else rest
           end)
  end.
Definition LeafProof (it : nodeIterator) : outcome (list (list Z)) :=
  match it_stack it with
  | st :: stack => match st_node st with ValueNode _ => leaf_proofs 0 (rev (st_node <$> stack)) | _ => Panic end
  | [] => Panic
  end.

Definition it_NodeBlob (it : nodeIterator) : list Z * nodeIterator :=
  if bool_decide (it_Hash it = zero_hash) then ([], it)
  else
    match resolveBlob it (it_Hash it) (it_path it) with
    | Err e => ([], it_fail it (Some (NodeError e)))
    | Ok blob => (blob, it)
    end.

Definition it_Error (it : nodeIterator) : option MissingNodeError :=
  match it_err it with
  | None | Some errIteratorEnd => None
  | Some (SeekError _ e) | Some (NodeError e) => Some e
  end.

(** ** Keys and values *)

Record Iterator := mkIterator {
  nodeIt : nodeIterator;
  Key : list Z;
  Value : list Z;
  it_Err : option MissingNodeError;
}.
Definition NewIterator (it : nodeIterator) : Iterator := mkIterator it [] [] None.

(** The loop of [Next]: the nodes above the next value bound it. *)
Fixpoint Iterator_Next (fuel : nat) (it : Iterator) : outcome (bool * Iterator) :=
  match fuel with
  | O => Panic
  | S fuel =>
      '(ok, n) ← Next (nodeIt it) true;
      if (ok : bool) then
        if Leaf n then
          k ← LeafKey n;
          v ← LeafBlob n;
          Ret (true, mkIterator n k v (it_Err it))
        else Iterator_Next fuel (mkIterator n (Key it) (Value it) (it_Err it))
      else Ret (false, mkIterator n [] [] (it_Error n))
  end.

Definition Iterator_Prove (it : Iterator) : outcome (list (list Z)) := LeafProof (nodeIt it).
End iterator.
