(* ===== verification/Iteration.v ===== *)
(** * What iterating a trie visits ([trie/iterator.go])

    The nodes of a trie in preorder are sorted by their paths; an iterator stands for
    the part of that list it has still to visit.  Proved here: iterating from a start
    key ends, and visits exactly the bindings at or after it, once each and in order;
    a store that fails now and then makes it neither skip nor repeat a node. *)

From stdpp Require Import base gmap strings list sorting.
From Stdlib Require Import ZArith Lia.
From S2P Require Import Prelude Encoding TrieSpec Node Trie TrieMap Hasher Committer Reload Database MerkleProof Iterator.

Local Open Scope Z_scope.

(** The method [Node] of a trie reader. *)
Abbreviation node_source := (list Z -> list Z -> list Z -> outcome (res string node)).

(** ** The order of paths *)

Definition before (a b : list Z) : Prop := bytes_Compare a b = -1.

Lemma compare_cases a b : bytes_Compare a b = -1 \/ bytes_Compare a b = 0 \/ bytes_Compare a b = 1.
Proof.
  revert b. induction a as [|x a IH]; intros [|y b]; cbn; [tauto..|]. destruct (x <? y); [tauto|]. destruct (y <? x); [tauto|apply IH].
Qed.

Lemma compare_ge a b : (0 <=? bytes_Compare a b) = true <-> ~ before a b.
Proof. unfold before. rewrite Z.leb_le. destruct (compare_cases a b) as [ -> | [ -> | -> ]]; lia. Qed.
Lemma compare_lt a b : (0 <=? bytes_Compare a b) = false <-> before a b.
Proof. unfold before. rewrite Z.leb_gt. destruct (compare_cases a b) as [ -> | [ -> | -> ]]; lia. Qed.

Lemma before_cons x a y b : before (x :: a) (y :: b) <-> x < y \/ x = y /\ before a b.
Proof.
  unfold before. cbn. destruct (Z.ltb_spec x y); [lia|]. destruct (Z.ltb_spec y x).
  - split; [done|]. lia.
  - split; [right; split; [lia|done]|]. intros [?|[_ ?]]; [lia|done].
Qed.

Lemma before_app p a b : before (p ++ a) (p ++ b) <-> before a b.
Proof. induction p as [|x p IH]; [done|]. cbn [app]. rewrite before_cons, IH. split; [intros [?|[_ ?]]; [lia|done]|tauto]. Qed.

#[export] Instance before_dec a b : Decision (before a b).
Proof. unfold before. apply _. Defined.

#[export] Instance before_strict : StrictOrder before.
Proof.
  split.
  - intros a. induction a as [|x a IH]; [done|]. intros [?|[_ ?]]%before_cons; [lia|done].
  - intros a b c. revert b c. induction a as [|x a IH]; intros [|y b] [|z c]; try done.
    rewrite !before_cons. intros [?|[ -> Hab]] [?|[ -> Hbc]]; [left; lia|left; lia|left; lia|right]. split; [done|by eapply IH].
Qed.

Lemma before_ext p x : x <> [] -> before p (p ++ x).
Proof. intros Hx. rewrite <- (app_nil_r p) at 1. apply before_app. by destruct x. Qed.

Lemma before_sibling p i j a b : i < j -> before (p ++ i :: a) (p ++ j :: b).
Proof. intros Hij. apply before_app, before_cons. by left. Qed.

(** What extends a path that is not before the key is not before it either. *)
Lemma past_ext key p x : ~ before p key -> ~ before (p ++ x) key.
Proof.
  intros Hp Hx. apply Hp. clear Hp. revert p Hx. induction key as [|y key IH]; intros p Hx; [destruct p; [by destruct x|done]|].
  destruct p as [|z p]; [done|]. cbn [app] in Hx. apply before_cons in Hx as [?|[ -> Hx]]; apply before_cons; [by left|].
  right. split; [done|by apply IH].
Qed.

(** What extends a path before the key that does not lead to the key is before it. *)
Lemma before_off key p x : before p key -> bytes_HasPrefix key p = false -> before (p ++ x) key.
Proof.
  unfold bytes_HasPrefix. rewrite bool_decide_eq_false. revert key. induction p as [|z p IH]; intros key Hp Hpre; [done|].
  destruct key as [|y key]; [done|]. cbn [app]. apply before_cons in Hp as [?|[ -> Hp]]; apply before_cons; [by left|].
  right. split; [done|]. apply IH; [done|]. intros E. apply Hpre. cbn. by rewrite E.
Qed.

Lemma prefix_split key p : bytes_HasPrefix key p = true -> exists x, key = p ++ x.
Proof. unfold bytes_HasPrefix. intros E. by apply take_length_app_decide in E. Qed.

(** ** The nodes of a trie in preorder *)

Section kids.
Context {A : Type} (f : nat -> ptrie -> list A).
Fixpoint kids (i : nat) (cs : list ptrie) : list A :=
  match cs with [] => [] | c :: cs => f i c ++ kids (S i) cs end.

Lemma elem_of_kids x i cs : x ∈ kids i cs <-> exists j c, cs !! j = Some c /\ x ∈ f (i + j)%nat c.
Proof.
  revert i. induction cs as [|c cs IH]; intros i; cbn [kids].
  - rewrite elem_of_nil. split; [done|]. intros (j & c & E & _). done.
  - rewrite elem_of_app, IH. split.
    + intros [Hx|(j & c' & E & Hx)]; [exists 0%nat, c; rewrite Nat.add_0_r; done|].
      exists (S j), c'. rewrite Nat.add_succ_r. done.
    + intros ([|j] & c' & E & Hx); [injection E as <-; rewrite Nat.add_0_r in Hx; by left|right].
      exists j, c'. rewrite Nat.add_succ_r in Hx. done.
Qed.

Lemma kids_drop i cs j c : cs !! j = Some c -> kids i (drop j cs) = f i c ++ kids (S i) (drop (S j) cs).
Proof. intros E. by rewrite (drop_S _ _ _ E). Qed.
End kids.

Fixpoint pre (p : list Z) (t : ptrie) : list (list Z * ptrie) :=
  match t with
  | PNil => []
  | PVal _ => [(p, t)]
  | PShort k c => (p, t) :: pre (p ++ k) c
  | PFull cs => (p, t) :: kids (fun i c => pre (p ++ [Z.of_nat i]) c) 0 cs
  end.

(** The nodes below a node that are still to be visited when its index is [idx]. *)
Definition below (p : list Z) (t : ptrie) (idx : Z) : list (list Z * ptrie) :=
  match t with
  | PShort k c => if idx <? 0 then pre (p ++ k) c else []
  | PFull cs => kids (fun i c => pre (p ++ [Z.of_nat i]) c) (Z.to_nat (idx + 1)) (drop (Z.to_nat (idx + 1)) cs)
  | _ => []
  end.

Lemma pre_below p t : t <> PNil -> pre p t = (p, t) :: below p t (-1).
Proof. destruct t; done. Qed.

#[export] Instance ptrie_nil_dec (t : ptrie) : Decision (t = PNil).
Proof. destruct t; (by left) || (by right). Defined.

(** A node at its place: canonical, with a path of its kind. *)
Definition spot (p : list Z) (t : ptrie) : Prop :=
  exists b, wf_at b t /\ (if b then hex_key p else hex_path p) /\ t <> PNil.

Lemma spot_short p k c : spot p (PShort k c) -> spot (p ++ k) c /\ k <> [].
Proof.
  intros ([] & Hw & Hp & _); [done|]. split; [|by eapply wf_short_ne].
  destruct (wf_short_inv k c Hw) as (isl & Hk & _ & Hc & Hn). exists isl. split; [done|]. split; [|by destruct c].
  destruct isl; [by apply hex_key_app|apply Forall_app; split; [done|apply Hk]].
Qed.

Lemma spot_full p cs i c : spot p (PFull cs) -> cs !! i = Some c -> c <> PNil -> spot (p ++ [Z.of_nat i]) c.
Proof.
  intros ([] & Hw & Hp & _) E Hc; [done|]. apply wf_full in Hw as (Hlen & _ & Hw). exists (i =? 16)%nat. split; [by apply Hw|]. split; [|done].
  pose proof (lookup_lt_Some _ _ _ E) as Hi. destruct (Nat.eqb_spec i 16) as [->|Hne].
  - by exists p.
  - apply Forall_app. split; [done|]. apply Forall_singleton. unfold is_nibble. lia.
Qed.

Lemma spot_full_some p cs : spot p (PFull cs) -> exists i c, cs !! i = Some c /\ c <> PNil.
Proof.
  intros ([] & Hw & _); [done|]. apply wf_full in Hw as (_ & Hc & _).
  assert (forall l, (0 < count nonnil l)%nat -> exists i c, l !! i = Some c /\ c <> PNil) as Hl; [|by apply Hl; lia].
  clear. induction l as [|c l IH]; [cbn; lia|]. intros Hc. destruct (decide (c = PNil)) as [->|Hn]; [|by exists 0%nat, c].
  destruct IH as (i & c' & ? & ?); [done|]. by exists (S i), c'.
Qed.

(** Every node below is at its place, and its path extends the one above. *)
Lemma pre_spots t : forall p, spot p t -> Forall (fun x => spot x.1 x.2 /\ exists y, x.1 = p ++ y) (pre p t).
Proof.
  induction t as [|v|k c IH|cs IH] using ptrie_nested_ind; intros p Hs; cbn [pre].
  - constructor.
  - apply Forall_singleton. split; [done|]. exists []. by rewrite app_nil_r.
  - constructor; [split; [done|exists []; by rewrite app_nil_r]|]. destruct (spot_short p k c Hs) as [Hc _].
    eapply Forall_impl; [by apply IH|]. intros x [Hx [y Ey]]. split; [done|]. exists (k ++ y). by rewrite Ey, (assoc (++)).
  - constructor; [split; [done|exists []; by rewrite app_nil_r]|]. apply Forall_forall. intros x (i & c & E & Hx)%elem_of_kids.
    cbn [Nat.add] in Hx. destruct (decide (c = PNil)) as [->|Hc]; [by apply elem_of_nil in Hx|].
    pose proof (IH i c E _ (spot_full p cs i c Hs E Hc)) as Hf. rewrite Forall_forall in Hf. destruct (Hf x Hx) as [Hxs [y Ey]].
    split; [done|]. exists (Z.of_nat i :: y). by rewrite Ey, <- (assoc (++)).
Qed.

Lemma pre_ext t p x : spot p t -> x ∈ pre p t -> exists y, x.1 = p ++ y.
Proof. intros Hs Hx. pose proof (pre_spots t p Hs) as Hf. rewrite Forall_forall in Hf. by destruct (Hf x Hx). Qed.

(** A child slot, filled or not. *)
Lemma slot_ext p cs i c x : spot p (PFull cs) -> cs !! i = Some c -> x ∈ pre (p ++ [Z.of_nat i]) c ->
  exists y, x.1 = p ++ Z.of_nat i :: y.
Proof.
  intros Hs E Hx. destruct (decide (c = PNil)) as [->|Hc]; [by apply elem_of_nil in Hx|].
  destruct (pre_ext _ _ _ (spot_full p cs i c Hs E Hc) Hx) as [y ->]. exists y. by rewrite <- (assoc (++)).
Qed.

Lemma pre_sorted t : forall p, spot p t -> StronglySorted (fun a b => before a.1 b.1) (pre p t).
Proof.
  induction t as [|v|k c IH|cs IH] using ptrie_nested_ind; intros p Hs; cbn [pre].
  - constructor.
  - constructor; [constructor|constructor].
  - destruct (spot_short p k c Hs) as [Hc Hk]. constructor; [by apply IH|]. apply Forall_forall. intros x Hx.
    destruct (pre_ext _ _ _ Hc Hx) as [y ->]. cbn. rewrite <- (assoc (++)). apply before_ext. by destruct k.
  - constructor.
    + assert (forall l i0, (forall j c, l !! j = Some c -> cs !! (i0 + j)%nat = Some c) ->
        StronglySorted (fun a b => before a.1 b.1) (kids (fun i c => pre (p ++ [Z.of_nat i]) c) i0 l)) as Hk; [|by apply Hk].
      induction l as [|c l IHl]; intros i0 Hl; cbn [kids]; [constructor|].
      assert (cs !! i0 = Some c) as E by (rewrite <- (Nat.add_0_r i0); by apply Hl).
      apply StronglySorted_app. split; [|split].
      * intros x y Hx (j & c' & Ej & Hy)%elem_of_kids.
        assert (cs !! (S i0 + j)%nat = Some c') as Ej' by (replace (S i0 + j)%nat with (i0 + S j)%nat by lia; by apply Hl).
        destruct (slot_ext _ _ _ _ _ Hs E Hx) as [a ->], (slot_ext _ _ _ _ _ Hs Ej' Hy) as [b ->]. apply before_sibling. lia.
      * destruct (decide (c = PNil)) as [->|Hc]; [constructor|]. apply (IH i0 c E). by eapply spot_full.
      * apply IHl. intros j c' Ej. replace (S i0 + j)%nat with (i0 + S j)%nat by lia. by apply Hl.
    + apply Forall_forall. intros x (i & c & E & Hx)%elem_of_kids. destruct (slot_ext _ _ _ _ _ Hs E Hx) as [y ->].
      by apply before_ext.
Qed.

Lemma wf_at_spot p b t : wf_at b t -> (if b then hex_key p else hex_path p) -> t <> PNil -> spot p t.
Proof. intros. by exists b. Qed.

(** The values of the preorder are the bindings. *)
Lemma pre_leaf t : forall p b k v, wf_at b t -> (if b then hex_key p else hex_path p) -> key_at b k ->
  (p ++ k, PVal v) ∈ pre p t <-> pget t k = Some v.
Proof.
  induction t as [|w|kk c IH|cs IH] using ptrie_nested_ind; intros p b k v Hw Hp Hk; cbn [pre].
  - rewrite elem_of_nil. done.
  - destruct b; [|done]. cbn in Hk. subst k. rewrite app_nil_r, list_elem_of_singleton. cbn. split; [by intros [= ->]|by intros [= ->]].
  - destruct b; [done|]. cbn [wfl_at key_at] in *. assert (spot p (PShort kk c)) as Hs by (by apply (wf_at_spot p false)).
    rewrite elem_of_cons. destruct (spot_short _ _ _ Hs) as [Hc _].
    destruct (short_key_cases k kk c Hw Hk) as [(l & isl & -> & Hl & Hwl)|(Hm & _)].
    + rewrite (pget_short kk c (kk ++ l) l), (assoc (++)) by done. rewrite <- (IH (p ++ kk) isl l v).
      * split; [by intros [?|?]|by right].
      * done.
      * destruct (wf_short_inv kk c Hw) as (isl' & Hkk & Hcc & Hwc & _). destruct isl, isl'; try done.
        -- by apply hex_key_app.
        -- by destruct Hcc as (? & -> & _).
        -- by destruct Hcc as (? & -> & _).
        -- apply Forall_app. split; [done|apply Hkk].
      * done.
    + rewrite (pget_short_miss kk c k Hm). split; [|done]. intros [?|Hin]; [done|].
      destruct (pre_ext _ _ _ Hc Hin) as [y Ey]. cbn in Ey. rewrite <- (assoc (++)) in Ey. apply app_inv_head in Ey. by destruct (Hm y).
  - destruct b; [done|]. cbn [wfl_at key_at] in *. assert (spot p (PFull cs)) as Hs by (by apply (wf_at_spot p false)).
    destruct k as [|x k]; [by apply hex_key_nil in Hk|]. destruct (hex_key_child x k Hk) as (Hx & Hx0 & Hkx).
    rewrite pget_full, elem_of_cons, elem_of_kids.
    assert (forall c, cs !! Z.to_nat x = Some c -> (p ++ x :: k, PVal v) ∈ pre (p ++ [Z.of_nat (Z.to_nat x)]) c <-> pget c k = Some v) as Hc.
    { intros c E. rewrite Z2Nat.id by done. replace (p ++ x :: k) with ((p ++ [x]) ++ k) by (by rewrite <- (assoc (++))).
      apply (IH _ _ E _ (Z.to_nat x =? 16)%nat); [by apply wf_full in Hw as (_ & _ & Hw); apply Hw| |done].
      destruct (Nat.eqb_spec (Z.to_nat x) 16).
      - replace x with 16 by lia. by exists p.
      - apply Forall_app. split; [done|]. apply Forall_singleton. unfold is_nibble. lia. }
    split.
    + intros [?|(j & c & E & Hin)]; [done|]. cbn [Nat.add] in Hin. destruct (slot_ext _ _ _ _ _ Hs E Hin) as [y Ey].
      cbn in Ey. apply app_inv_head in Ey. injection Ey as -> ->. rewrite Nat2Z.id in *. rewrite E. by apply (Hc c E).
    + destruct (cs !! Z.to_nat x) as [c|] eqn:E; [|done]. intros Hg%(Hc c eq_refl). right. by exists (Z.to_nat x), c.
Qed.

Lemma spot_value q v : spot q (PVal v) -> hex_key q.
Proof. by intros ([] & Hw & Hq & _). Qed.
Lemma spot_inner q t : spot q t -> pinner t = true -> hex_path q.
Proof. intros ([] & Hw & Hq & _) Hi; [|done]. by destruct t. Qed.

(** ** The stack *)

Section rep.
Context `{RLPLaws} `{EthCommon} `{!HashLaws} (clean : list Z -> ptrie -> Prop).
#[local] Instance flags_iter : FlagSpec := hash_flags clean.
Context (Node : node_source) (rd : trieReader).
Hypothesis Hread : serves_nodes clean rd Node.

Definition resolved (n : node) : bool := match n with HashNode _ => false | _ => true end.

(** The stack at a path, with the nodes that are still to be visited. *)
Inductive stack_rep : list nodeIteratorState -> list Z -> list (list Z * ptrie) -> Prop :=
| sr_nil path : stack_rep [] path []
| sr_cons st rest path t todo :
    expands rd path (st_node st) t -> resolved (st_node st) = true -> spot path t ->
    (st_pathlen st <= length path)%nat -> -1 <= st_index st ->
    stack_rep rest (take (st_pathlen st) path) todo ->
    stack_rep (st :: rest) path (below path t (st_index st) ++ todo).

(** Leaving the current node leaves out the nodes below it. *)
Lemma stack_rep_pop st rest path todo : stack_rep (st :: rest) path todo ->
  exists k, stack_rep rest (take (st_pathlen st) path) (drop k todo).
Proof. inversion 1; subst. exists (length (below path t (st_index st))). by rewrite drop_app_length. Qed.

(** A state for the trie [t] at [path], not yet descended into. *)
Record fresh (st : nodeIteratorState) (path : list Z) (t : ptrie) : Prop := {
  fr_expands : expands rd path (st_node st) t;
  fr_spot : spot path t;
  fr_index : st_index st = -1;
}.

(** A reader like this one, except that it may fail. *)
Definition flaky (Node' : node_source) : Prop :=
  forall o p h, Node' o p h = Node o p h \/ (exists e, Node' o p h = Ret (Err e)) \/ Node' o p h = Ret (Ok NilNode).

Lemma resolve_flaky Node' it st path t : flaky Node' -> reader (it_trie it) = rd -> it_resolver it = None -> fresh st path t ->
  (exists st', st_resolve Node' it st path = Ret (Ok st') /\ fresh st' path t /\ resolved (st_node st') = true /\
    st_pathlen st' = st_pathlen st) \/
  (exists e, st_resolve Node' it st path = Ret (Err e) /\ ~ serves_nodes clean rd Node').
Proof.
  intros Hfl Hr Hn [He Hs Hi]. unfold st_resolve. destruct (st_node st) as [|v|h|k c f|cs f] eqn:En;
    try (left; exists st; split; [done|]; split; [split; [by rewrite En|done|done]|by rewrite En]).
  destruct (serves_reader_node clean rd Node path h t Hread He) as (n & E & Hin & Hn'). unfold resolveHash. rewrite Hn, Hr.
  assert (reader_node rd Node' path (BytesToHash h) = Ret (Ok n) \/
    exists e, reader_node rd Node' path (BytesToHash h) = Ret (Err e)) as [->|[e Ee]].
  { unfold reader_node in *. destruct (is_banned rd path); [done|]. destruct (tr_reader rd); [|done].
    destruct (Hfl (tr_owner rd) path (BytesToHash h)) as [->|[[e ->]| ->]]; [by left|right..]; go_ret; by eexists. }
  - left. go_ret. eexists. split; [done|]. cbn. split; [|split; [by destruct n|done]]. split; [done|done|by cbn].
  - right. rewrite Ee. go_ret. eexists. split; [done|]. intros Hs'.
    destruct (serves_reader_node clean rd Node' path h t Hs' He) as (n' & E' & _). by rewrite E' in Ee.
Qed.

Lemma flaky_self : flaky Node.
Proof. intros o p h. by left. Qed.

Lemma resolve_fresh it st path t : reader (it_trie it) = rd -> it_resolver it = None -> fresh st path t ->
  exists st', st_resolve Node it st path = Ret (Ok st') /\ fresh st' path t /\ resolved (st_node st') = true /\
    st_pathlen st' = st_pathlen st.
Proof. intros Hr Hn Hf. by destruct (resolve_flaky Node it st path t flaky_self Hr Hn Hf) as [?|(e & _ & ?)]. Qed.

(** What a child must be for the stack. *)
Record child_of (parent parent' st : nodeIteratorState) (path q : list Z) (t s : ptrie) : Prop := {
  co_fresh : fresh st q s;
  co_path : exists y, q = path ++ y;
  co_pathlen : st_pathlen st = length path;
  co_parent : parent' = st_at parent (st_index parent');
  co_index : -1 <= st_index parent';
  co_left : below path t (st_index parent') = pre q s ++ below path t (st_index parent' + 1);
}.

Lemma findChild_spec cs f ts path anc i : expands rd path (FullNode cs f) (PFull ts) -> spot path (PFull ts) ->
  match findChild cs i path anc with
  | None => kids (fun i c => pre (path ++ [Z.of_nat i]) c) i (drop i ts) = []
  | Some (st, q, j) => exists s, (i <= j < length cs)%nat /\ ts !! j = Some s /\ q = path ++ [Z.of_nat j] /\ fresh st q s /\
      st_pathlen st = length path /\
      kids (fun i c => pre (path ++ [Z.of_nat i]) c) i (drop i ts) = kids (fun i c => pre (path ++ [Z.of_nat i]) c) j (drop j ts)
  end.
Proof.
  intros He Hs. inversion He as [| | |? ? ? ? _ _ Hlen Hch|]; subst. unfold findChild.
  assert (forall n i, (n = length cs - i)%nat ->
    match findChild_loop (drop i cs) i path anc with
    | None => kids (fun i c => pre (path ++ [Z.of_nat i]) c) i (drop i ts) = []
    | Some (st, q, j) => exists s, (i <= j < length cs)%nat /\ ts !! j = Some s /\ q = path ++ [Z.of_nat j] /\ fresh st q s /\
        st_pathlen st = length path /\
        kids (fun i c => pre (path ++ [Z.of_nat i]) c) i (drop i ts) = kids (fun i c => pre (path ++ [Z.of_nat i]) c) j (drop j ts)
    end) as Hl; [|by eapply Hl]. clear i.
  induction n as [|n IH]; intros i Hn.
  { rewrite !drop_ge by lia. done. }
  destruct (lookup_lt_is_Some_2 cs i) as [c Ec]; [lia|]. destruct (lookup_lt_is_Some_2 ts i) as [s Es]; [lia|].
  pose proof (Hch i c s Ec Es) as Hc. rewrite (drop_S _ _ _ Ec), (kids_drop _ i ts i s Es). cbn [findChild_loop].
  destruct (is_nil c) eqn:Enil.
  - destruct c; try done. inversion Hc; subst. cbn [pre app]. specialize (IH (S i) ltac:(lia)).
    destruct (findChild_loop (drop (S i) cs) (S i) path anc) as [[[st q] j]|]; [|done].
    destruct IH as (s & Hj & ? & ? & ? & ? & Ek). exists s. rewrite Ek. split; [lia|done].
  - assert (s <> PNil) as Hns by (rewrite (expands_nil _ _ _ _ Hc) in Enil; by destruct s).
    assert (exists st, findChild_loop (c :: drop (S i) cs) i path anc = Some (st, path ++ [Z.of_nat i], i) /\ st = child_state c anc path)
      as (st & E & ->) by (destruct c; try done; by eexists). cbn [findChild_loop] in E. rewrite E.
    exists s. split; [lia|]. split; [done|]. split; [done|]. split; [|split; [done|by rewrite (kids_drop _ i ts i s Es)]].
    split; [done|by eapply spot_full|done].
Qed.

Lemma below_full path ts j s : ts !! j = Some s -> forall i, i = Z.of_nat j - 1 ->
  below path (PFull ts) i = kids (fun i c => pre (path ++ [Z.of_nat i]) c) j (drop j ts) /\
  below path (PFull ts) i = pre (path ++ [Z.of_nat j]) s ++ below path (PFull ts) (i + 1).
Proof.
  intros E i ->. cbn [below]. replace (Z.to_nat (Z.of_nat j - 1 + 1)) with j by lia.
  replace (Z.to_nat (Z.of_nat j - 1 + 1 + 1)) with (S j) by lia. split; [done|exact (kids_drop (fun i c => pre (path ++ [Z.of_nat i]) c) j ts j s E)].
Qed.

Lemma nextChild_spec parent anc path t : expands rd path (st_node parent) t -> resolved (st_node parent) = true -> spot path t ->
  -1 <= st_index parent ->
  match nextChild parent anc path with
  | None => below path t (st_index parent) = []
  | Some (st, q, parent') => exists s, child_of parent parent' st path q t s /\
      below path t (st_index parent') = below path t (st_index parent)
  end.
Proof.
  intros He Hr Hs Hi. unfold nextChild. destruct (st_node parent) as [|v|h|k c f|cs f] eqn:En; try done.
  - inversion He; subst. by destruct Hs as (b & _ & _ & ?).
  - by inversion He; subst.
  - inversion He as [| |? ? ? ? t' _ _ Hc| |]; subst. destruct (spot_short _ _ _ Hs) as [Hsc _].
    destruct (Z.ltb_spec (st_index parent) 0); [|cbn; destruct (Z.ltb_spec (st_index parent) 0); [lia|done]]. exists t'. split; [|done]. split; cbn.
    + split; [done|done|done].
    + by eexists.
    + done.
    + by destruct parent.
    + done.
    + destruct (Z.ltb_spec (st_index parent) 0); [|lia]. destruct (Z.ltb_spec (st_index parent + 1) 0); [lia|]. by rewrite app_nil_r.
  - inversion He as [| | |? ? ? ts _ _ Hlen Hch|]; subst.
    pose proof (findChild_spec cs f ts path anc (Z.to_nat (st_index parent + 1)) He Hs) as Hf.
    destruct (findChild cs _ path anc) as [[[st q] j]|]; [|done].
    destruct Hf as (s & Hj & Es & -> & Hfr & Hpl & Ek). exists s.
    destruct (below_full path ts j s Es (Z.of_nat j - 1) eq_refl) as [Eb Eb']. split; [|cbn [st_index st_at]; rewrite Eb; by cbn [below]].
    split; cbn [st_index st_at]; [done|by eexists|done|done|lia|exact Eb'].
Qed.

(** ** Moving to the next node *)

Definition it_ready (it : nodeIterator) : Prop := reader (it_trie it) = rd /\ it_resolver it = None.

Lemma child_of_rep parent parent' st path q t s rest todo :
  stack_rep (parent :: rest) path (below path t (st_index parent) ++ todo) -> expands rd path (st_node parent) t ->
  resolved (st_node parent) = true -> spot path t -> stack_rep rest (take (st_pathlen parent) path) todo ->
  child_of parent parent' st path q t s -> resolved (st_node st) = true ->
  stack_rep (parent' :: rest) path (below path t (st_index parent') ++ todo) /\
  stack_rep (st :: st_at parent' (st_index parent' + 1) :: rest) q (below q s (-1) ++ below path t (st_index parent' + 1) ++ todo).
Proof.
  intros Hrep He Hr Hs Hrest [[Hes Hss Hi] [y ->] Hpl Hp Hidx Hleft] Hres.
  inversion Hrep as [|? ? ? ? ? _ _ _ Hle _ _]; subst.
  assert (st_node parent' = st_node parent /\ st_pathlen parent' = st_pathlen parent) as [En Epl] by (rewrite Hp; done).
  split.
  - constructor; rewrite ?En, ?Epl; done.
  - rewrite <- Hi. constructor; [done|done|done|rewrite Hpl, length_app; lia|lia|].
    rewrite Hpl, take_app_length. change (st_index parent' + 1) with (st_index (st_at parent' (st_index parent' + 1))) at 2.
    constructor; cbn; rewrite ?En, ?Epl; try done. lia.
Qed.

(** The next node to visit; when its node cannot be loaded, it stays the next one. *)
Lemma peek_loop_flaky Node' it : flaky Node' -> it_ready it -> forall stack path todo, stack_rep stack path todo ->
  exists path' stack',
  match todo with
  | [] => stack' = [] /\
      peek_loop Node' (fun parent ancestor path => Ret (nextChild parent ancestor path)) it stack path = Ret (Err errIteratorEnd, it_at it [] path')
  | (q, s) :: todo' => exists parent, stack' !! 0%nat = Some parent /\ stack_rep stack' path' todo /\
      ((exists st, peek_loop Node' (fun parent ancestor path => Ret (nextChild parent ancestor path)) it stack path =
          Ret (Ok (st, true, q), it_at it stack' path') /\
        fresh st q s /\ resolved (st_node st) = true /\ stack_rep (st :: st_at parent (st_index parent + 1) :: tail stack') q todo') \/
       (exists e, peek_loop Node' (fun parent ancestor path => Ret (nextChild parent ancestor path)) it stack path =
          Ret (Err (NodeError e), it_at it stack' path') /\ ~ serves_nodes clean rd Node'))
  end.
Proof.
  intros Hfl [Hrd Hno]. induction 1 as [path|parent rest path t todo He Hr Hs Hl Hi Hrest IH].
  { by exists path, []. }
  cbn [peek_loop]. set (anc := if bool_decide _ then _ else _). go_ret.
  pose proof (nextChild_spec parent anc path t He Hr Hs Hi) as Hn.
  destruct (nextChild parent anc path) as [[[st q] parent']|]; [|rewrite Hn; cbn [app]; exact IH].
  destruct Hn as (s & Hc & Eb). pose proof (co_fresh _ _ _ _ _ _ _ Hc) as Hfr.
  assert (s <> PNil) as Hne by (by destruct (fr_spot _ _ _ Hfr) as (? & _ & _ & ?)).
  pose proof (co_left _ _ _ _ _ _ _ Hc) as Hleft. rewrite Eb in Hleft.
  assert (stack_rep (parent' :: rest) path (below path t (st_index parent) ++ todo)) as Hrep.
  { rewrite <- Eb. destruct Hc as [_ _ _ Hp Hpi _].
    assert (st_node parent' = st_node parent /\ st_pathlen parent' = st_pathlen parent) as [En Epl] by (rewrite Hp; done).
    constructor; rewrite ?En, ?Epl; done. }
  exists path, (parent' :: rest). rewrite Hleft, (pre_below q s Hne) in *. exists parent'. split; [done|]. split; [exact Hrep|].
  destruct (resolve_flaky Node' it st q s Hfl Hrd Hno Hfr) as [(st' & E & Hfr' & Hres & Epl)|(e & E & Hnot)]; rewrite E; go_ret; [left|right; by exists e].
  assert (child_of parent parent' st' path q t s) as Hc' by (destruct Hc; split; try done; congruence).
  destruct (child_of_rep parent parent' st' path q t s rest todo) as [_ H2']; [by constructor|done..|].
  exists st'. split; [done|]. split; [done|]. split; [done|]. by rewrite <- (assoc (++)).
Qed.

Lemma peek_loop_spec it : it_ready it -> forall stack path todo, stack_rep stack path todo ->
  exists path' stack',
  match todo with
  | [] => stack' = [] /\
      peek_loop Node (fun parent ancestor path => Ret (nextChild parent ancestor path)) it stack path = Ret (Err errIteratorEnd, it_at it [] path')
  | (q, s) :: todo' => exists parent st, stack' !! 0%nat = Some parent /\ stack_rep stack' path' todo /\
      peek_loop Node (fun parent ancestor path => Ret (nextChild parent ancestor path)) it stack path =
        Ret (Ok (st, true, q), it_at it stack' path')
  end.
Proof.
  intros Hrd stack path todo Hst. destruct (peek_loop_flaky Node it flaky_self Hrd stack path todo Hst) as (path' & stack' & Hp).
  exists path', stack'. destruct todo as [|[q s] todo']; [done|].
  destruct Hp as (parent & Hpar & Hrep & [(st & E & _)|(e & _ & ?)]); [|done]. by exists parent, st.
Qed.

(** The iterator with the nodes it has still to visit in the trie [pt]. *)
Record it_rep (pt : ptrie) (it : nodeIterator) (todo : list (list Z * ptrie)) : Prop := {
  ir_ready : it_ready it;
  ir_trie : expands rd [] (root (it_trie it)) pt /\ (exists m, pt_holds pt m) /\ spot [] pt;
  ir_err : it_err it = None;
  ir_stack : (it_stack it = [] /\ it_path it = [] /\ todo = pre [] pt) \/ (it_stack it <> [] /\ stack_rep (it_stack it) (it_path it) todo);
}.

(** The current node. *)
Definition current (it : nodeIterator) (q : list Z) (s : ptrie) : Prop :=
  it_path it = q /\ exists st, head (it_stack it) = Some st /\ fresh st q s /\ resolved (st_node st) = true.

Lemma init_flaky Node' pt it : flaky Node' -> it_ready it -> expands rd [] (root (it_trie it)) pt -> (exists m, pt_holds pt m) -> spot [] pt ->
  exists r t', init Node' it = Ret (r, mkNodeIt t' (it_stack it) (it_path it) (it_err it) (it_resolver it)) /\
    reader t' = rd /\ expands rd [] (root t') pt /\
    match r with
    | Ok st => fresh st [] pt /\ resolved (st_node st) = true /\ st_pathlen st = 0%nat
    | Err _ => ~ serves_nodes clean rd Node'
    end.
Proof.
  intros Hfl [Hr Hn] He [m Hh] Hs. unfold init.
  destruct (Hash_spec clean (it_trie it) m pt) as (t' & E & [He' _] & _ & Er & _); [split; [by rewrite Hr|done]|].
  rewrite E. go_ret. cbv beta iota zeta. rewrite Er, Hr in He'.
  set (it' := mkNodeIt t' _ _ _ _). set (st0 := mkNIS _ _ _ _ _).
  destruct (resolve_flaky Node' it' st0 [] pt Hfl) as [(st & Es & Hf & Hres & Hpl)|(e & Es & Hnot)]; [cbn; congruence|done|by split| |];
    rewrite Es; go_ret; eexists _, t'; (split; [done|]); (split; [congruence|done]).
Qed.

Lemma init_spec pt it : it_ready it -> expands rd [] (root (it_trie it)) pt -> (exists m, pt_holds pt m) -> spot [] pt ->
  exists st t', init Node it = Ret (Ok st, mkNodeIt t' (it_stack it) (it_path it) (it_err it) (it_resolver it)) /\
    fresh st [] pt /\ resolved (st_node st) = true /\ st_pathlen st = 0%nat /\
    reader t' = rd /\ expands rd [] (root t') pt.
Proof.
  intros Hrd He Hh Hs. destruct (init_flaky Node pt it flaky_self Hrd He Hh Hs) as ([st|e] & t' & E & Hr & He' & Hst); [|done].
  exists st, t'. split; [done|]. destruct Hst as (? & ? & ?). done.
Qed.

(** A step that cannot load the next node changes nothing but the error. *)
Lemma step_flaky Node' pt it todo : flaky Node' -> it_rep pt (it_fail it None) todo ->
  match todo with
  | [] => exists it', step Node' it true = Ret (false, it') /\ it_err it' = Some errIteratorEnd
  | (q, s) :: todo' =>
      (exists it', step Node' it true = Ret (true, it') /\ it_rep pt it' todo' /\ current it' q s) \/
      (exists it' e, step Node' it true = Ret (false, it') /\ it_err it' = Some (NodeError e) /\ it_rep pt (it_fail it' None) todo /\
         ~ serves_nodes clean rd Node')
  end.
Proof.
  intros Hfl [Hrd (He & Hh & Hs) _ [(Est & Ep & ->)|[Hne Hst]]]; unfold step, peek; cbn [it_stack it_path it_fail it_trie] in *.
  - rewrite Est. unfold peek_init. destruct (init_flaky Node' pt it Hfl Hrd He Hh Hs) as (r & t' & E & Hr' & He' & Hst).
    rewrite E. go_ret. assert (pt <> PNil) as Hpt by (by destruct Hs as (? & _ & _ & ?)).
    rewrite (pre_below [] pt Hpt). destruct r as [st|e]; go_ret; cbv beta iota; [left|right].
    + destruct Hst as (Hf & Hres & Hpl). eexists. split; [done|]. unfold push. cbn [it_stack it_fail it_at it_path]. rewrite Est. split.
      * split; cbn; [split; [done|apply Hrd]|done|done|]. right. split; [done|].
        rewrite <- (app_nil_r (below [] pt (-1))), <- (fr_index _ _ _ Hf). constructor; [apply Hf|done|done|lia|rewrite (fr_index _ _ _ Hf); lia|constructor].
      * split; [done|]. by exists st.
    + eexists _, e. split; [done|]. split; [done|]. split; [|done]. split; cbn; [split; [done|apply Hrd]|done|done|]. left. by rewrite (pre_below [] pt Hpt).
  - destruct (it_stack it) as [|top rest] eqn:Est; [done|]. cbv beta iota zeta.
    destruct (peek_loop_flaky Node' it Hfl Hrd (top :: rest) (it_path it) todo Hst) as (path' & stack' & Hp).
    destruct todo as [|[q s] todo'].
    + destruct Hp as [_ E]. rewrite E. go_ret. by eexists.
    + destruct Hp as (parent & Hpar & Hrep & [(st & E & Hf & Hres & Hpush)|(e & E & Hnot)]); rewrite E; go_ret; cbv beta iota;
        (destruct stack' as [|parent0 rest']; [done|]); injection Hpar as ->; [left|right].
      * eexists. split; [done|]. unfold push. cbn [it_stack it_fail it_at]. split; [|split; [done|by exists st]].
        split; cbn; [apply Hrd|done|done|]. by right.
      * eexists _, e. split; [done|]. split; [done|]. split; [|done]. split; cbn; [apply Hrd|done|done|]. by right.
Qed.

Lemma step_spec pt it todo : it_rep pt it todo ->
  match todo with
  | [] => exists it', step Node it true = Ret (false, it') /\ it_err it' = Some errIteratorEnd
  | (q, s) :: todo' => exists it', step Node it true = Ret (true, it') /\ it_rep pt it' todo' /\ current it' q s
  end.
Proof.
  intros Hrep. assert (it_fail it None = it) as Ei by (pose proof (ir_err _ _ _ Hrep) as E; destruct it; cbn in E; by subst).
  pose proof (step_flaky Node pt it todo flaky_self ltac:(by rewrite Ei)) as Hst. destruct todo as [|[q s] todo']; [done|].
  by destruct Hst as [?|(it' & e & _ & _ & _ & ?)].
Qed.

(** ** Seeking *)

Abbreviation slots path := (fun (i : nat) (c : ptrie) => pre (path ++ [Z.of_nat i]) c).
Definition past (key : list Z) (x : list Z * ptrie) : Prop := ~ before x.1 key.
Definition ahead (key : list Z) (x : list Z * ptrie) : Prop := before x.1 key.

Lemma kids_app {A} (f : nat -> ptrie -> list A) l1 l2 : forall i, kids f i (l1 ++ l2) = kids f i l1 ++ kids f (i + length l1) l2.
Proof.
  induction l1 as [|c l1 IH]; intros i; cbn [kids app length]; [by rewrite Nat.add_0_r|]. rewrite IH, <- (assoc (++)).
  by rewrite Nat.add_succ_r.
Qed.

Lemma kids_split path ts j : (j <= length ts)%nat ->
  kids (slots path) 0 ts = kids (slots path) 0 (take j ts) ++ kids (slots path) j (drop j ts).
Proof. intros Hj. rewrite <- (take_drop j ts) at 1. rewrite kids_app, length_take. by replace (0 + j `min` length ts)%nat with j by lia. Qed.

Lemma kids_past key path ts j : spot path (PFull ts) -> ~ before (path ++ [Z.of_nat j]) key ->
  Forall (past key) (kids (slots path) j (drop j ts)).
Proof.
  intros Hs Hp. apply Forall_forall. intros x (i & c & E & Hx)%elem_of_kids. rewrite lookup_drop in E.
  destruct (slot_ext _ _ _ _ _ Hs E Hx) as [y Ey]. unfold past. rewrite Ey. destruct i as [|i].
  - rewrite Nat.add_0_r. replace (path ++ Z.of_nat j :: y) with ((path ++ [Z.of_nat j]) ++ y) by (by rewrite <- (assoc (++))). by apply past_ext.
  - intros Hb. apply Hp. transitivity (path ++ Z.of_nat (j + S i) :: y); [|done]. apply before_sibling. lia.
Qed.

Lemma kids_ahead key path ts j : spot path (PFull ts) -> before (path ++ [Z.of_nat j]) key ->
  Forall (ahead key) (kids (slots path) 0 (take j ts)).
Proof.
  intros Hs Hp. apply Forall_forall. intros x (i & c & E & Hx)%elem_of_kids. apply lookup_take_Some in E as [E Hi].
  destruct (slot_ext _ _ _ _ _ Hs E Hx) as [y Ey]. unfold ahead. rewrite Ey. transitivity (path ++ [Z.of_nat j]); [|done].
  apply before_sibling. lia.
Qed.

Lemma advance_spec key cs f ts path anc : expands rd path (FullNode cs f) (PFull ts) -> spot path (PFull ts) ->
  forall fuel st s j, (length cs - j < fuel)%nat -> (j < length cs)%nat -> ts !! j = Some s -> fresh st (path ++ [Z.of_nat j]) s ->
    st_pathlen st = length path -> before (path ++ [Z.of_nat j]) key ->
  exists st' s' j', advance fuel cs path anc key (st, path ++ [Z.of_nat j], j) = Ret (st', path ++ [Z.of_nat j'], j') /\
    (j' < length cs)%nat /\ ts !! j' = Some s' /\ fresh st' (path ++ [Z.of_nat j']) s' /\ st_pathlen st' = length path /\
    before (path ++ [Z.of_nat j']) key /\ Forall (past key) (kids (slots path) (S j') (drop (S j') ts)).
Proof.
  intros He Hs. induction fuel as [|fuel IH]; intros st s j Hf Hj Es Hfr Hpl Hb; [lia|]. cbn [advance snd fst].
  pose proof (findChild_spec cs f ts path anc (S j) He Hs) as Hfc.
  destruct (findChild cs (S j) path anc) as [[[st1 q1] j1]|].
  - destruct Hfc as (s1 & Hj1 & Es1 & -> & Hfr1 & Hpl1 & Ek). cbn [snd fst].
    destruct (0 <=? bytes_Compare (path ++ [Z.of_nat j1]) key) eqn:Ec.
    + exists st, s, j. split; [done|]. do 5 (split; [done|]). rewrite Ek. apply kids_past; [done|]. by apply compare_ge.
    + apply compare_lt in Ec. by apply (IH st1 s1 j1); [lia|lia|..].
  - exists st, s, j. split; [done|]. do 5 (split; [done|]). by rewrite Hfc.
Qed.

(** One round towards the key. *)
Lemma nextChildAt_down key top anc path t : hex_path key -> expands rd path (st_node top) t -> resolved (st_node top) = true ->
  spot path t -> st_index top = -1 -> bytes_HasPrefix key path = true ->
  exists st q top' s A, nextChildAt key top anc path = Ret (Some (st, q, top')) /\ child_of top top' st path q t s /\
    (length path < length q)%nat /\ below path t (-1) = A ++ below path t (st_index top') /\ Forall (ahead key) A /\
    (before q key /\ Forall (past key) (below path t (st_index top' + 1)) \/
     ~ before q key /\ Forall (past key) (below path t (st_index top'))).
Proof.
  intros Hk He Hr Hs Hi Hpre. unfold nextChildAt.
  destruct (st_node top) as [|v|h|k c f|cs f] eqn:En; try done.
  - inversion He; subst. by destruct Hs as (b & _ & _ & ?).
  - inversion He; subst. exfalso. apply prefix_split in Hpre as [x ->]. by apply (hex_key_path_app path x), (spot_value path v).
  - rewrite <- En in He, Hr. pose proof (nextChild_spec top anc path t He Hr Hs ltac:(lia)) as Hn.
    unfold nextChild in *. rewrite En, Hi in *. cbn [Z.ltb Z.compare] in *. destruct Hn as (s & Hc & Eb).
    eexists _, _, top, s, []. split; [done|]. split; [done|]. inversion He as [| |? ? ? ? t' _ _ Hc'| |]; subst.
    destruct (spot_short _ _ _ Hs) as [Hsc Hkne]. split; [rewrite length_app; destruct k; [done|cbn; lia]|].
    rewrite Hi. cbn [below Z.ltb Z.compare Z.add app]. split; [done|]. split; [constructor|].
    destruct (decide (before (path ++ k) key)) as [Hb|Hb]; [left; split; [done|constructor]|right].
    split; [done|]. apply Forall_forall. intros x Hx. destruct (pre_ext _ _ _ Hsc Hx) as [y Ey]. unfold past. rewrite Ey. by apply past_ext.
  - inversion He as [| | |? ? ? ts _ _ Hlen Hch|]; subst. rewrite Hi. change (Z.to_nat (-1 + 1)) with 0%nat.
    pose proof (findChild_spec cs f ts path anc 0 He Hs) as Hf. rewrite drop_0 in Hf.
    destruct (findChild cs 0 path anc) as [[[st q] j]|].
    2: { exfalso. destruct (spot_full_some _ _ Hs) as (i & c & Ei & Hc).
         assert ((path ++ [Z.of_nat i], c) ∈ kids (slots path) 0 ts) as Hin; [|rewrite Hf in Hin; by apply elem_of_nil in Hin].
         apply elem_of_kids. exists i, c. split; [done|]. cbn [Nat.add]. rewrite pre_below by done. by left. }
    destruct Hf as (s & Hj & Es & -> & Hfr & Hpl & Ek). cbn [fst snd].
    assert (exists st' s' j' A, (if 0 <=? bytes_Compare (path ++ [Z.of_nat j]) key then Ret (st, path ++ [Z.of_nat j], j)
        else advance (S (length cs)) cs path anc key (st, path ++ [Z.of_nat j], j)) = Ret (st', path ++ [Z.of_nat j'], j') /\
      (j' < length cs)%nat /\ ts !! j' = Some s' /\ fresh st' (path ++ [Z.of_nat j']) s' /\ st_pathlen st' = length path /\
      kids (slots path) 0 ts = A ++ kids (slots path) j' (drop j' ts) /\ Forall (ahead key) A /\
      (before (path ++ [Z.of_nat j']) key /\ Forall (past key) (kids (slots path) (S j') (drop (S j') ts)) \/
       ~ before (path ++ [Z.of_nat j']) key /\ Forall (past key) (kids (slots path) j' (drop j' ts)))) as
      (st' & s' & j' & A & E & Hj' & Es' & Hfr' & Hpl' & EA & HA & Hcase).
    { destruct (0 <=? bytes_Compare (path ++ [Z.of_nat j]) key) eqn:Ec.
      - apply compare_ge in Ec. exists st, s, j, []. split; [done|]. split; [lia|]. do 3 (split; [done|]). split; [done|]. split; [constructor|].
        right. split; [done|]. by apply kids_past.
      - apply compare_lt in Ec. destruct (advance_spec key cs f ts path anc He Hs (S (length cs)) st s j) as (st' & s' & j' & E & Hj' & ? & ? & ? & Hb & Hp);
          [lia|lia|done..|]. exists st', s', j', (kids (slots path) 0 (take j' ts)). split; [done|]. do 4 (split; [done|]).
        split; [apply kids_split; lia|]. split; [by apply kids_ahead|]. by left. }
    rewrite E. go_ret. cbv beta iota. exists st', (path ++ [Z.of_nat j']), (st_at top (Z.of_nat j' - 1)), s', A. split; [done|].
    destruct (below_full path ts j' s' Es' (Z.of_nat j' - 1) eq_refl) as [Eb Eb'].
    split; [split; cbn [st_at st_index]; [done|by eexists|done|done|lia|exact Eb']|].
    split; [rewrite length_app; cbn; lia|]. cbn [st_at st_index]. rewrite Eb. split; [exact EA|]. split; [done|].
    destruct Hcase as [[Hb Hp]|[Hb Hp]]; [left|right; done]. split; [done|].
    cbn [below]. by replace (Z.to_nat (Z.of_nat j' - 1 + 1 + 1)) with (S j') by lia.
Qed.

(** When all that is left is at or after the key, seeking moves like [Next]. *)
Lemma peek_loop_past key it : forall stack path todo, stack_rep stack path todo -> Forall (past key) todo ->
  peek_loop Node (nextChildAt key) it stack path =
  peek_loop Node (fun parent ancestor path => Ret (nextChild parent ancestor path)) it stack path.
Proof.
  induction 1 as [path|parent rest path t todo He Hr Hs Hl Hi Hrest IH]; intros Hp; [done|]. apply Forall_app in Hp as [Hb Hp].
  cbn [peek_loop]. set (anc := if bool_decide _ then _ else _).
  pose proof (nextChild_spec parent anc path t He Hr Hs Hi) as Hn.
  assert (nextChildAt key parent anc path = Ret (nextChild parent anc path)) as ->; [|rewrite (IH Hp); done].
  unfold nextChildAt. destruct (st_node parent) as [| | | |cs f] eqn:En; try done. unfold nextChild in *. rewrite En in *.
  destruct (findChild cs _ path anc) as [[[st q] j]|]; [|done]. destruct Hn as (s & Hc & Eb). cbn [fst snd].
  assert (~ before q key) as Hq.
  { assert (s <> PNil) as Hne by (by destruct (fr_spot _ _ _ (co_fresh _ _ _ _ _ _ _ Hc)) as (? & _ & _ & ?)).
    rewrite <- Eb, (co_left _ _ _ _ _ _ _ Hc), (pre_below q s Hne) in Hb. by apply Forall_cons in Hb as [? _]. }
  rewrite (proj2 (compare_ge _ _) Hq). done.
Qed.

(** What seeking must reach: everything before the key has been passed, and the rest
    is to be visited. *)
Definition sought (pt : ptrie) (key : list Z) (err : option iter_err) (it : nodeIterator) : Prop :=
  match err with
  | None => exists passed todo, pre [] pt = passed ++ todo /\ Forall (ahead key) passed /\ Forall (past key) todo /\
      it_rep pt (it_fail it None) todo
  | Some errIteratorEnd => Forall (ahead key) (pre [] pt)
  | Some _ => False
  end.

(** The state between rounds, on a node before the key. *)
Record seeking (pt : ptrie) (key : list Z) (it : nodeIterator) (fuel : nat) : Prop := {
  sk_ready : it_ready it;
  sk_trie : expands rd [] (root (it_trie it)) pt /\ (exists m, pt_holds pt m) /\ spot [] pt;
  sk_fuel : ((if bytes_HasPrefix key (it_path it) then length key - length (it_path it) + 2 else 1) <= fuel)%nat;
  sk_stack : exists top rest t passed todo, it_stack it = top :: rest /\ st_index top = -1 /\
    expands rd (it_path it) (st_node top) t /\ resolved (st_node top) = true /\ spot (it_path it) t /\
    (st_pathlen top <= length (it_path it))%nat /\ stack_rep rest (take (st_pathlen top) (it_path it)) todo /\
    pre [] pt = passed ++ below (it_path it) t (-1) ++ todo /\
    Forall (ahead key) passed /\ before (it_path it) key /\ Forall (past key) todo;
}.

Lemma below_ahead key path t : spot path t -> before path key -> bytes_HasPrefix key path = false ->
  Forall (ahead key) (below path t (-1)).
Proof.
  intros Hs Hb Hp. assert (t <> PNil) as Hne by (by destruct Hs as (? & _ & _ & ?)).
  pose proof (pre_below path t Hne) as E. apply Forall_forall. intros x Hx.
  destruct (pre_ext t path x Hs) as [y Ey]; [rewrite E; by right|]. unfold ahead. rewrite Ey. by apply before_off.
Qed.

(** Off the path to the key: one more round. *)
Lemma seek_off pt key prefix it fuel : seeking pt key it (S fuel) -> bytes_HasPrefix key (it_path it) = false ->
  exists err it', seek_loop Node (S fuel) it prefix key = Ret (err, it') /\ sought pt key err it'.
Proof.
  intros [Hrd Htr Hf (top & rest & t & passed & todo & Est & Hi & He & Hr & Hs & Hl & Hrest & Hfull & Hpas & Hb & Hto)] Hp.
  cbn [seek_loop]. unfold peekSeek. rewrite Est, Hp. cbn [pop]. unfold pop. rewrite Est. cbn [it_stack it_path it_at].
  rewrite (peek_loop_past key _ _ _ _ Hrest Hto).
  pose proof (below_ahead key _ _ Hs Hb Hp) as Hbel.
  set (it1 := it_at it rest _). assert (it_ready it1) as Hrd1 by exact Hrd.
  destruct (peek_loop_spec it1 Hrd1 _ _ _ Hrest) as (path' & stack' & Hpk). destruct todo as [|[q s] todo'].
  - destruct Hpk as [_ E]. rewrite E. go_ret. cbv beta iota. eexists _, _. split; [done|]. cbn. rewrite Hfull, app_nil_r.
    apply Forall_app. by split.
  - destruct Hpk as (parent & st & Hpar & Hst & E). rewrite E. go_ret. cbv beta iota.
    pose proof Hto as [Hq _]%Forall_cons. rewrite (proj2 (compare_ge q key) Hq). eexists _, _. split; [done|].
    cbn. exists (passed ++ below (it_path it) t (-1)), ((q, s) :: todo'). split; [by rewrite <- (assoc (++))|].
    split; [by apply Forall_app|]. split; [done|]. split; cbn; [apply Hrd|done|done|]. right. by destruct stack'.
Qed.

Lemma seek_rounds pt key prefix : hex_path key -> forall fuel it, seeking pt key it fuel ->
  exists err it', seek_loop Node fuel it prefix key = Ret (err, it') /\ sought pt key err it'.
Proof.
  intros Hk. induction fuel as [|fuel IH]; intros it Hsk.
  { destruct Hsk as [_ _ Hf _]. destruct (bytes_HasPrefix key (it_path it)); lia. }
  destruct (bytes_HasPrefix key (it_path it)) eqn:Hp; [|by apply (seek_off pt key prefix it fuel)].
  destruct Hsk as [Hrd Htr Hf (top & rest & t & passed & todo & Est & Hi & He & Hr & Hs & Hl & Hrest & Hfull & Hpas & Hb & Hto)].
  rewrite Hp in Hf. cbn [seek_loop]. unfold peekSeek. rewrite Est, Hp. cbn [it_stack it_path it_at]. rewrite Est. cbn [peek_loop].
  set (anc := if bool_decide _ then _ else _).
  destruct (nextChildAt_down key top anc (it_path it) t Hk He Hr Hs Hi Hp) as (st & q & top' & s & A & E & Hc & Hlen & EA & HA & Hcase).
  rewrite E. go_ret. cbv beta iota. pose proof (co_fresh _ _ _ _ _ _ _ Hc) as Hfr.
  destruct (resolve_fresh it st q s (proj1 Hrd) (proj2 Hrd) Hfr) as (st' & Er & Hfr' & Hres & Epl). rewrite Er. go_ret. cbv beta iota.
  assert (child_of top top' st' (it_path it) q t s) as Hc' by (destruct Hc; split; try done; congruence).
  assert (s <> PNil) as Hne by (by destruct (fr_spot _ _ _ Hfr) as (? & _ & _ & ?)).
  destruct (child_of_rep top top' st' (it_path it) q t s rest todo) as [H1' H2'];
    [constructor; try done; rewrite Hi; lia|done..|].
  destruct Hcase as [[Hbq Hpast]|[Hbq Hpast]].
  - rewrite (proj2 (compare_lt q key) Hbq). apply IH. unfold push. cbn [it_stack it_at it_path]. split; cbn [it_trie it_stack it_path it_at].
    + apply Hrd.
    + done.
    + assert (length (it_path it) < length key)%nat as Hlk.
      { apply prefix_split in Hp as [[|x y] Ek]; [|rewrite Ek, length_app; cbn; lia]. rewrite app_nil_r in Ek.
        rewrite <- Ek in Hb. by apply irreflexivity in Hb; [|apply before_strict]. }
      destruct (bytes_HasPrefix key q) eqn:Hpq; [|lia]. apply prefix_split in Hpq as [y Ek].
      assert (length q <= length key)%nat by (rewrite Ek, length_app; lia). lia.
    + inversion H2' as [|? ? ? ? todo2 _ _ _ Hl2 _ Hrest2]; subst.
      exists st', (st_at top' (st_index top' + 1) :: rest), s, (passed ++ A ++ [(q, s)]), (below (it_path it) t (st_index top' + 1) ++ todo).
      split; [done|]. split; [apply Hfr'|]. split; [apply Hfr'|]. split; [done|]. split; [apply Hfr'|].
      assert (st_pathlen st' = length (it_path it)) as Epl' by (rewrite (co_pathlen _ _ _ _ _ _ _ Hc'); done).
      split; [lia|]. split.
      { pose proof (co_path _ _ _ _ _ _ _ Hc') as [y Ey]. rewrite Epl', Ey, take_app_length.
        change (st_index top' + 1) with (st_index (st_at top' (st_index top' + 1))) at 2.
        pose proof (co_parent _ _ _ _ _ _ _ Hc') as Hpp. pose proof (co_index _ _ _ _ _ _ _ Hc') as Hpi.
        assert (st_node top' = st_node top /\ st_pathlen top' = st_pathlen top) as [En Ep'] by (rewrite Hpp; done).
        constructor; cbn; rewrite ?En, ?Ep'; try done. lia. }
      split; [|split; [|split; [done|by apply Forall_app]]].
      * rewrite Hfull, EA, (co_left _ _ _ _ _ _ _ Hc'), (pre_below q s Hne). rewrite <- !(assoc (++)). done.
      * apply Forall_app. split; [done|]. apply Forall_app. split; [done|]. by apply Forall_singleton.
  - rewrite (proj2 (compare_ge q key) Hbq). eexists _, _. split; [done|]. cbn.
    exists (passed ++ A), (below (it_path it) t (st_index top') ++ todo). split; [by rewrite Hfull, EA, <- !(assoc (++))|].
    split; [by apply Forall_app|]. split; [by apply Forall_app|]. split; cbn; [apply Hrd|done|done|]. by right.
Qed.

Lemma seek_spec pt it prefix : bytes prefix -> it_ready it -> expands rd [] (root (it_trie it)) pt -> (exists m, pt_holds pt m) -> spot [] pt ->
  it_stack it = [] -> it_path it = [] ->
  let key := removelast (keybytesToHex prefix) in
  exists err it', seek Node it prefix = Ret (err, it') /\ sought pt key err it'.
Proof.
  intros Hb Hrd He Hh Hs Est Ep key. assert (hex_path key) as Hk.
  { destruct (keybytesToHex_key prefix Hb) as (p & Hp & E). unfold key. by rewrite E, removelast_last. }
  unfold seek. fold key. clearbody key. replace (length key + 3)%nat with (S (length key + 2)) by lia. cbn [seek_loop]. unfold peekSeek. rewrite Est.
  unfold peek_init. destruct (init_spec pt it Hrd He Hh Hs) as (st & t' & E & Hf & Hres & Hpl & Hr' & He'). rewrite E. go_ret. cbv beta iota. go_ret. cbv beta iota.
  assert (pt <> PNil) as Hpt by (by destruct Hs as (? & _ & _ & ?)).
  set (it1 := mkNodeIt t' _ _ _ _). assert (it_ready it1) as Hrd1 by (split; [done|apply Hrd]).
  destruct (0 <=? bytes_Compare [] key) eqn:Ec.
  - apply compare_ge in Ec. assert (key = []) as -> by (destruct key; [done|by destruct Ec]).
    eexists _, _. split; [done|]. cbn. exists [], (pre [] pt). split; [done|]. split; [constructor|]. split.
    + apply Forall_forall. intros [[|x q] s] _; by unfold past.
    + split; cbn; [done|done|done|]. by left.
  - apply compare_lt in Ec. apply (seek_rounds pt key prefix Hk). unfold push. cbn [it_stack it1]. rewrite Est.
    split; cbn [it_trie it_stack it_path it_at].
    + done.
    + done.
    + assert (bytes_HasPrefix key [] = true) as -> by (unfold bytes_HasPrefix; by rewrite bool_decide_true). cbn [length]. lia.
    + exists st, [], pt, [([], pt)], []. split; [done|]. split; [apply Hf|]. split; [apply Hf|]. split; [done|]. split; [done|].
      split; [rewrite Hpl; lia|]. split; [constructor|]. split; [by rewrite app_nil_r, (pre_below [] pt Hpt)|].
      split; [by apply Forall_singleton|]. split; [done|constructor].
Qed.
End rep.

(** ** Keys and values *)

Definition leaf_of (x : list Z * ptrie) : option (list Z * list Z) := match x.2 with PVal v => Some (x.1, v) | _ => None end.
Definition leaves (todo : list (list Z * ptrie)) : list (list Z * list Z) := omap leaf_of todo.

Lemma elem_of_leaves q v todo : (q, v) ∈ leaves todo <-> (q, PVal v) ∈ todo.
Proof.
  unfold leaves. rewrite list_elem_of_omap. split.
  - intros ([q' []] & Hin & E); try done. by injection E as -> ->.
  - intros Hin. by exists (q, PVal v).
Qed.

Lemma leaves_sorted todo : StronglySorted (fun a b => before a.1 b.1) todo -> StronglySorted (fun a b => before a.1 b.1) (leaves todo).
Proof.
  unfold leaves. induction 1 as [|x todo _ IH Hx]; [constructor|]. cbn. destruct x as [q [|v| |]]; cbn; try done.
  constructor; [done|]. apply Forall_forall. intros y (x' & Hin & E)%list_elem_of_omap. rewrite Forall_forall in Hx. specialize (Hx x' Hin).
  destruct x' as [q' []]; try done. by injection E as <-.
Qed.

(** Pairs with their keys as paths. *)
Definition hexed (kvs : list (list Z * list Z)) : list (list Z * list Z) := (fun kv => (keybytesToHex kv.1, kv.2)) <$> kvs.

Lemma hexed_inj kvs kvs' : Forall (fun kv => bytes kv.1) kvs -> Forall (fun kv => bytes kv.1) kvs' -> hexed kvs = hexed kvs' -> kvs = kvs'.
Proof.
  intros Hb. revert kvs'. induction Hb as [|[k v] kvs Hk _ IH]; intros [|[k' v'] kvs'] Hb' E; try done.
  apply Forall_cons in Hb' as [Hk' Hb']. cbn in E, Hk, Hk'. injection E as Ek -> E. rewrite (proj1 (hex_eq_iff k k' Hk Hk') Ek). f_equal. by apply IH.
Qed.

Lemma hexed_sorted kvs : StronglySorted (fun a b => before a.1 b.1) (hexed kvs) ->
  StronglySorted (fun a b => before (keybytesToHex a.1) (keybytesToHex b.1)) kvs.
Proof.
  induction kvs as [|kv kvs IH]; [constructor|]. intros [Hs Hx]%StronglySorted_inv. constructor; [by apply IH|].
  rewrite Forall_forall in *. intros y Hy. apply (Hx (keybytesToHex y.1, y.2)). apply list_elem_of_fmap. by exists y.
Qed.

Lemma elem_of_hexed k v kvs : bytes k -> Forall (fun kv => bytes kv.1) kvs -> (keybytesToHex k, v) ∈ hexed kvs <-> (k, v) ∈ kvs.
Proof.
  intros Hk Hb. unfold hexed. rewrite list_elem_of_fmap. split; [|intros Hkv; by exists (k, v)].
  intros ([k' v'] & [= Ek ->] & Hkv). rewrite Forall_forall in Hb. pose proof (Hb _ Hkv) as Hk'. cbn in Hk'.
  by rewrite (proj1 (hex_eq_iff k k' Hk Hk') Ek).
Qed.

(** The loop of a client: [for it.Next() { ... }] with the pairs it sees. *)
Fixpoint drain `{RLP} `{EthCommon} `{HashEnv} (Node : node_source) (n fuel : nat) (it : Iterator)
  : outcome (list (list Z * list Z) * Iterator) :=
  match n with
  | O => Panic
  | S n =>
      '(ok, it) ← Iterator_Next Node fuel it;
      if (ok : bool) then '(kvs, last) ← drain Node n fuel it; Ret ((Key it, Value it) :: kvs, last) else Ret ([], it)
  end.

Section entries.
Context `{RLPLaws} `{EthCommon} `{!HashLaws} (clean : list Z -> ptrie -> Prop).
#[local] Instance flags_entries : FlagSpec := hash_flags clean.
Context (Node : node_source) (rd : trieReader).
Hypothesis Hread : serves_nodes clean rd Node.

(** The nodes to visit are at their places, and values have the paths of keys. *)
Definition placed (x : list Z * ptrie) : Prop :=
  spot x.1 x.2 /\ forall v, x.2 = PVal v -> exists k, bytes k /\ x.1 = keybytesToHex k.

Lemma Next_step it : it_err it = None -> Next Node it true = step Node it true.
Proof. intros E. unfold Next. by rewrite E. Qed.

Lemma current_value it q v : current clean rd it q (PVal v) -> it_path it = q /\ exists st rest, it_stack it = st :: rest /\ st_node st = ValueNode v.
Proof.
  intros (Ep & st & Hst & [He _ _] & Hres). split; [done|]. destruct (it_stack it) as [|st0 rest]; [done|]. injection Hst as ->.
  exists st, rest. split; [done|]. destruct (st_node st); by inversion He.
Qed.

Lemma Iterator_Next_spec pt fuel : forall it todo, it_rep clean rd pt (nodeIt it) todo -> Forall placed todo -> (length todo < fuel)%nat ->
  match leaves todo with
  | [] => exists it', Iterator_Next Node fuel it = Ret (false, it') /\ it_Err it' = None
  | (q, v) :: ls => exists it' todo', Iterator_Next Node fuel it = Ret (true, it') /\ it_rep clean rd pt (nodeIt it') todo' /\
      leaves todo' = ls /\ Forall placed todo' /\ (length todo' < length todo)%nat /\
      bytes (Key it') /\ q = keybytesToHex (Key it') /\ v = Value it'
  end.
Proof.
  induction fuel as [|fuel IH]; intros it todo Hrep Hpl Hf; [lia|]. cbn [Iterator_Next].
  rewrite Next_step by apply (ir_err _ _ _ _ _ Hrep). pose proof (step_spec clean Node rd Hread pt (nodeIt it) todo Hrep) as Hst.
  destruct todo as [|[q s] todo].
  { cbn. destruct Hst as (n & E & He). rewrite E. go_ret. cbv beta iota. eexists. split; [done|]. unfold it_Error. cbn. by rewrite He. }
  destruct Hst as (n & E & Hrep' & Hcur). rewrite E. go_ret. cbv beta iota. apply Forall_cons in Hpl as [[Hs Hk] Hpl].
  cbn [length fst snd] in *. assert (it_path n = q) as Ep by apply Hcur. unfold Leaf. rewrite Ep.
  destruct s as [|v|k c|cs].
  - by destruct Hs as (? & _ & _ & ?).
  - destruct (Hk v eq_refl) as (k & Hb & Eq). cbn [leaves omap list_omap leaf_of fst snd].
    assert (hasTerm q = true) as Ht by (destruct (keybytesToHex_key k Hb) as (p & _ & Ep'); rewrite Eq, Ep'; apply hasTerm_app).
    rewrite Ht. destruct (current_value n q v Hcur) as (_ & st & rest & Est & En).
    unfold LeafKey, LeafBlob. rewrite Est, En, Ep, Eq, keybytes_hex_roundtrip by done. go_ret. go_ret.
    eexists _, todo. split; [done|]. cbn. split; [done|]. split; [done|]. split; [done|]. split; [lia|done].
  - rewrite hasTerm_path by (by eapply spot_inner). specialize (IH (mkIterator n (Key it) (Value it) (it_Err it)) todo Hrep' Hpl ltac:(lia)).
    change (leaves ((q, PShort k c) :: todo)) with (leaves todo). destruct (leaves todo) as [|[q' v'] ls]; [done|].
    destruct IH as (it' & todo' & ? & ? & ? & ? & ? & ?). exists it', todo'. do 4 (split; [done|]). split; [lia|done].
  - rewrite hasTerm_path by (by eapply spot_inner). specialize (IH (mkIterator n (Key it) (Value it) (it_Err it)) todo Hrep' Hpl ltac:(lia)).
    change (leaves ((q, PFull cs) :: todo)) with (leaves todo). destruct (leaves todo) as [|[q' v'] ls]; [done|].
    destruct IH as (it' & todo' & ? & ? & ? & ? & ? & ?). exists it', todo'. do 4 (split; [done|]). split; [lia|done].
Qed.

Lemma drain_spec pt fuel n : forall it todo, it_rep clean rd pt (nodeIt it) todo -> Forall placed todo ->
  (length todo < fuel)%nat -> (length todo < n)%nat ->
  exists kvs it', drain Node n fuel it = Ret (kvs, it') /\ it_Err it' = None /\ Forall (fun kv => bytes kv.1) kvs /\
    leaves todo = hexed kvs.
Proof.
  induction n as [|n IH]; intros it todo Hrep Hpl Hf Hn; [lia|]. cbn [drain].
  pose proof (Iterator_Next_spec pt fuel it todo Hrep Hpl Hf) as Hnx. destruct (leaves todo) as [|[q v] ls].
  - destruct Hnx as (it' & E & He). rewrite E. go_ret. by exists [], it'.
  - destruct Hnx as (it1 & todo' & E & Hrep' & El & Hpl' & Hlt & Hb & -> & ->). rewrite E. go_ret. cbv beta iota.
    destruct (IH it1 todo' Hrep' Hpl') as (kvs & it' & Ed & He & Hbs & Hls); [lia|lia|]. rewrite Ed. go_ret. cbv beta iota.
    eexists _, it'. split; [done|]. split; [done|]. split; [by constructor|]. unfold hexed in *. cbn. by rewrite <- Hls, El.
Qed.

(** An iterator at its end. *)
Lemma drain_ended n fuel it : it_err (nodeIt it) = Some errIteratorEnd -> (0 < n)%nat -> (0 < fuel)%nat ->
  exists it', drain Node n fuel it = Ret ([], it') /\ it_Err it' = None.
Proof.
  intros E Hn Hf. destruct n as [|n]; [lia|]. destruct fuel as [|fuel]; [lia|]. cbn [drain Iterator_Next]. unfold Next. rewrite E. go_ret.
  cbv beta iota. go_ret. eexists. split; [done|]. cbn. unfold it_Error. by rewrite E.
Qed.
End entries.

(** ** Retrying *)

(** A run of calls of [Next], each with the reader as it is at that time and with
    its argument [descend]: the path each call moved to, or [None] when it returned
    false. *)
Fixpoint attempts `{RLP} `{EthCommon} `{HashEnv} (calls : list (node_source * bool)) (it : nodeIterator)
  : outcome (list (option (list Z)) * nodeIterator) :=
  match calls with
  | [] => Ret ([], it)
  | (Node, descend) :: calls =>
      '(ok, it) ← Next Node it descend;
      '(seen, last) ← attempts calls it;
      Ret ((if (ok : bool) then Some (it_path it) else None) :: seen, last)
  end.

(** Calls that all descend. *)
Definition descending (calls : list node_source) : list (node_source * bool) := (fun Node => (Node, true)) <$> calls.

Lemma attempts_nil `{RLP} `{EthCommon} `{HashEnv} calls it last_ : attempts calls it = Ret ([], last_) -> last_ = it.
Proof.
  destruct calls as [|[Node d] calls]; [by intros [= ->]|]. cbn [attempts]. destruct (Next Node it d) as [[ok it']|]; [|done].
  cbn. by destruct (attempts calls it') as [[seen l]|].
Qed.

Section retry.
Context `{RLPLaws} `{EthCommon} `{!HashLaws} (clean : list Z -> ptrie -> Prop).
#[local] Instance flags_retry : FlagSpec := hash_flags clean.
Context (Node : node_source) (rd : trieReader).
Hypothesis Hread : serves_nodes clean rd Node.

(** An iterator that has met no error but those of nodes that could not be loaded. *)
Definition retrying (pt : ptrie) (it : nodeIterator) (todo : list (list Z * ptrie)) : Prop :=
  match it_err it with
  | None | Some (NodeError _) => it_rep clean rd pt (it_fail it None) todo
  | Some errIteratorEnd => todo = []
  | Some (SeekError _ _) => False
  end.

Lemma retrying_rep pt it todo : it_rep clean rd pt it todo -> retrying pt it todo.
Proof. intros Hrep. unfold retrying. rewrite (ir_err _ _ _ _ _ Hrep). by destruct Hrep; split. Qed.

Lemma Next_flaky Node' pt it todo : flaky Node Node' -> retrying pt it todo ->
  (exists q s todo' it', todo = (q, s) :: todo' /\ Next Node' it true = Ret (true, it') /\ retrying pt it' todo' /\ it_path it' = q) \/
  (exists it', Next Node' it true = Ret (false, it') /\ retrying pt it' todo /\
     (todo <> [] -> is_Some (it_Error it') /\ ~ serves_nodes clean rd Node')).
Proof.
  intros Hfl Hre. assert (it_err it = Some errIteratorEnd \/ it_err it <> Some errIteratorEnd) as [Ee|Ee] by (destruct (it_err it) as [[]|]; auto).
  { right. exists it. unfold Next. rewrite Ee. split; [done|]. split; [done|]. unfold retrying in Hre. by rewrite Ee in Hre. }
  assert (it_rep clean rd pt (it_fail it None) todo /\ Next Node' it true = step Node' it true) as [Hrep ->].
  { unfold retrying, Next in *. by destruct (it_err it) as [[]|]. }
  pose proof (step_flaky clean Node rd Hread Node' pt it todo Hfl Hrep) as Hst. destruct todo as [|[q s] todo'].
  - destruct Hst as (it' & E & Ei). right. exists it'. split; [done|]. split; [|done]. unfold retrying. by rewrite Ei.
  - destruct Hst as [(it' & E & Hr' & Hc)|(it' & e & E & Ei & Hr' & Hn)].
    + left. exists q, s, todo', it'. do 2 (split; [done|]). split; [by apply retrying_rep|]. apply Hc.
    + right. exists it'. split; [done|]. split; [unfold retrying; by rewrite Ei|]. intros _. split; [|done].
      unfold it_Error. rewrite Ei. by eexists.
Qed.

(** Without descending: the nodes below the current one are left out, and a call
    that fails has left them out already. *)
Lemma Next_skip Node' pt it todo : flaky Node Node' -> retrying pt it todo ->
  exists k, (exists q s todo' it', drop k todo = (q, s) :: todo' /\ Next Node' it false = Ret (true, it') /\
               retrying pt it' todo' /\ it_path it' = q) \/
            (exists it', Next Node' it false = Ret (false, it') /\ retrying pt it' (drop k todo)).
Proof.
  intros Hfl Hre. assert (it_err it = Some errIteratorEnd \/ it_err it <> Some errIteratorEnd) as [Ee|Ee] by (destruct (it_err it) as [[]|]; auto).
  { exists 0%nat. right. exists it. unfold Next. by rewrite Ee. }
  assert (it_rep clean rd pt (it_fail it None) todo /\ Next Node' it false = step Node' it false) as [Hrep ->].
  { unfold retrying, Next in *. by destruct (it_err it) as [[]|]. }
  pose proof Hrep as [Hrd Htr _ Hst]. cbn [it_stack it_path it_fail] in Hst. destruct Hst as [(Est & Ep & Et)|[Hne Hst]].
  - exists 0%nat. rewrite drop_0. assert (step Node' it false = step Node' it true) as -> by (unfold step, peek; by rewrite Est).
    pose proof (step_flaky clean Node rd Hread Node' pt it todo Hfl Hrep) as Hs. destruct todo as [|[q s] todo'].
    + right. destruct Hs as (it' & E & Ei). exists it'. split; [done|]. unfold retrying. by rewrite Ei.
    + destruct Hs as [(it' & E & Hr' & Hc)|(it' & e & E & Ei & Hr' & _)]; [left|right].
      * exists q, s, todo', it'. do 2 (split; [done|]). split; [by apply retrying_rep|]. apply Hc.
      * exists it'. split; [done|]. unfold retrying. by rewrite Ei.
  - destruct (it_stack it) as [|top rest] eqn:Est; [done|]. destruct (stack_rep_pop _ _ _ _ _ _ Hst) as (k & Hk). exists k.
    destruct rest as [|top' rest].
    + right. inversion Hk as [E0|]; subst. eexists. split; [unfold step, peek, pop; rewrite Est; cbn [it_stack it_at peek_loop]; go_ret; done|].
      unfold retrying. cbn. done.
    + assert (step Node' it false = step Node' (pop it) true) as ->.
      { unfold step, peek, pop. rewrite Est. cbn [it_stack it_at]. done. }
      assert (it_rep clean rd pt (it_fail (pop it) None) (drop k todo)) as Hrep'.
      { unfold pop. rewrite Est. split; cbn; [exact Hrd|exact Htr|done|]. right. split; [done|]. exact Hk. }
      pose proof (step_flaky clean Node rd Hread Node' pt (pop it) (drop k todo) Hfl Hrep') as Hs.
      destruct (drop k todo) as [|[q s] todo'].
      * right. destruct Hs as (it' & E & Ei). exists it'. split; [done|]. unfold retrying. by rewrite Ei.
      * destruct Hs as [(it' & E & Hr' & Hc)|(it' & e & E & Ei & Hr' & _)]; [left|right].
        -- exists q, s, todo', it'. do 2 (split; [done|]). split; [by apply retrying_rep|]. apply Hc.
        -- exists it'. split; [done|]. unfold retrying. by rewrite Ei.
Qed.

(** Any calls: in order, and no node twice. *)
Lemma attempts_sublist pt calls : Forall (fun c => flaky Node c.1) calls -> forall it todo, retrying pt it todo ->
  exists seen last_, attempts calls it = Ret (seen, last_) /\ omap id seen `sublist_of` (fst <$> todo).
Proof.
  induction 1 as [|[Node' d] calls Hf _ IH]; intros it todo Hre; cbn [attempts].
  { exists [], it. split; [done|]. apply sublist_nil_l. }
  assert (exists k, (exists q s todo' it', drop k todo = (q, s) :: todo' /\ Next Node' it d = Ret (true, it') /\
               retrying pt it' todo' /\ it_path it' = q) \/
            (exists it', Next Node' it d = Ret (false, it') /\ retrying pt it' (drop k todo))) as (k & Hk).
  { destruct d; [|by apply Next_skip]. exists 0%nat. rewrite drop_0.
    destruct (Next_flaky Node' pt it todo Hf Hre) as [?|(it' & ? & ? & _)]; [by left|right; by exists it']. }
  assert ((fst <$> drop k todo) `sublist_of` (fst <$> todo)) as Hsub by (rewrite fmap_drop; apply sublist_drop).
  destruct Hk as [(q & s & todo' & it' & Ed & -> & Hre' & Eq)|(it' & -> & Hre')]; go_ret; cbv beta iota.
  - destruct (IH it' todo' Hre') as (seen & last_ & -> & Es). go_ret. eexists _, last_. split; [done|].
    cbn. rewrite Eq. rewrite Ed in Hsub. etrans; [|exact Hsub]. by apply sublist_skip.
  - destruct (IH it' _ Hre') as (seen & last_ & -> & Es). go_ret. eexists _, last_. split; [done|]. cbn. by etrans.
Qed.

Lemma attempts_spec pt calls : Forall (flaky Node) calls -> forall it todo, retrying pt it todo ->
  exists seen last_ k, attempts (descending calls) it = Ret (seen, last_) /\ retrying pt last_ (drop k todo) /\
    omap id seen = take k (fst <$> todo) /\
    (forall n, replicate n Node `sublist_of` calls -> (n <= k \/ length todo <= k)%nat) /\
    ((k < length todo)%nat -> last seen = Some None -> is_Some (it_Error last_)).
Proof.
  induction 1 as [|Node' calls Hf _ IH]; intros it todo Hre;
    [|change (descending (Node' :: calls)) with ((Node', true) :: descending calls); cbn [attempts]].
  { exists [], it, 0%nat. do 3 (split; [done|]). split; [|done].
    intros [|n] Hs; [lia|]. by apply sublist_nil_r in Hs. }
  destruct (Next_flaky Node' pt it todo Hf Hre) as [(q & s & todo' & it' & -> & -> & Hre' & Eq)|(it' & -> & Hre' & Herr)].
  - go_ret. cbv beta iota. destruct (IH it' todo' Hre') as (seen & last_ & k & -> & Hl & Es & Hn & He). go_ret. cbv beta iota.
    eexists _, last_, (S k). split; [done|]. split; [done|]. split; [cbn; rewrite Eq; by f_equal|]. split.
    + intros [|n] Hs; [lia|]. cbn [replicate length] in *.
      destruct (Hn n) as [?|?]; [|lia..]. apply sublist_cons_l in Hs as (k1 & k2 & E & Hs).
      destruct k1 as [|x k1]; injection E as -> ->; [done|].
      transitivity k2; [done|]. apply sublist_inserts_l. by apply sublist_cons.
    + intros Hk. cbn [length] in Hk. destruct seen as [|o seen]; [done|]. rewrite last_cons_cons. apply He. lia.
  - go_ret. cbv beta iota. destruct (IH it' todo Hre') as (seen & last_ & k & E & Hl & Es & Hn & He). rewrite E. go_ret. cbv beta iota.
    eexists _, last_, k. split; [done|]. split; [done|]. split; [done|]. split.
    + intros n Hs. destruct todo as [|x todo]; [right; cbn; lia|]. destruct n as [|n]; [lia|].
      destruct (Herr ltac:(done)) as [_ Hbad]. apply Hn. cbn [replicate] in *.
      apply sublist_cons_l in Hs as (k1 & k2 & Ec & Hs). destruct k1 as [|y k1]; injection Ec as -> ->; [by destruct Hbad|].
      apply sublist_inserts_l. by apply sublist_skip.
    + intros Hk. destruct seen as [|o seen]; [|rewrite last_cons_cons; by apply He]. intros _.
      rewrite (attempts_nil _ _ _ E). apply Herr. by destruct todo; [cbn in Hk; lia|].
Qed.
End retry.

Section correct.
Context `{RLPLaws} `{EthCommon} `{!HashLaws} `{!CollisionFree} (clean : list Z -> ptrie -> Prop).
#[local] Instance flags_iterate : FlagSpec := hash_flags clean.

Lemma pre_placed pt m : pt_holds pt m -> pt <> PNil -> spot [] pt /\ Forall placed (pre [] pt).
Proof.
  intros Hh Hne. assert (spot [] pt) as Hs by (exists false; split; [apply Hh|]; split; [constructor|done]). split; [done|].
  pose proof (pre_spots pt [] Hs) as Hf. rewrite Forall_forall in *. intros [q s] Hx. destruct (Hf _ Hx) as [Hq _]. split; [done|].
  cbn [fst snd]. intros v ->. pose proof (spot_value q v Hq) as Hqk. apply (holds_keys _ _ Hh q v Hqk).
  apply (pre_leaf pt [] false q v); [apply Hh|constructor|done|done].
Qed.

Lemma pre_bindings pt m k v : pt_holds pt m -> bytes k -> (keybytesToHex k, PVal v) ∈ pre [] pt <-> m !! k = Some v.
Proof.
  intros Hh Hb. rewrite <- (holds_get _ _ Hh k Hb). apply (pre_leaf pt [] false); [apply Hh|constructor|by apply keybytesToHex_key].
Qed.

(** The iterator that opening at a start key returns. *)
Lemma newNodeIterator_spec Node t m start : trie_rep t m -> bytes start -> serves_nodes clean (reader t) Node ->
  let key := removelast (keybytesToHex start) in
  exists it pt passed todo, newNodeIterator Node t start = Ret it /\ pt_holds pt m /\ pre [] pt = passed ++ todo /\
    Forall (ahead key) passed /\ Forall (past key) todo /\ Forall placed todo /\ StronglySorted (fun a b => before a.1 b.1) todo /\
    (it_err it = Some errIteratorEnd /\ todo = [] \/ it_rep clean (reader t) pt it todo).
Proof.
  intros (pt & He & Hh) Hb Hread key. unfold newNodeIterator.
  destruct (Hash_spec clean t m pt) as (t' & E & [He' _] & _ & Er & _); [by split|]. rewrite E. go_ret. cbv beta iota.
  destruct (decide (pt = PNil)) as [->|Hne].
  { rewrite bool_decide_true by done. eexists _, PNil, [], []. do 3 (split; [done|]). do 4 (split; [constructor|]). by left. }
  assert (pinner pt = true) as Hpi by (apply (wf_pinner (loose:=false)); [apply Hh|by destruct pt]).
  rewrite bool_decide_false by (destruct pt; try done; by apply List_not_empty).
  destruct (pre_placed pt m Hh Hne) as [Hs Hpl]. pose proof (pre_sorted pt [] Hs) as Hsort. rewrite <- Er in *.
  destruct (seek_spec clean Node (reader t') Hread pt (mkNodeIt t' [] [] None None) start Hb) as (err & it & Es & Hso);
    [by split|done|by exists m|done|done|done|].
  rewrite Es. go_ret. cbv beta iota. exists (it_fail it err), pt. fold key in Hso. destruct err as [[| |]|]; try done; cbn in Hso.
  - exists (pre [] pt), []. rewrite app_nil_r. do 4 (split; [done|]). do 3 (split; [constructor|]). by left.
  - destruct Hso as (passed & todo & Efull & Hpas & Hto & Hrep). exists passed, todo. do 5 (split; [done|]).
    rewrite Efull in Hpl, Hsort. apply Forall_app in Hpl as [_ Hpl]. apply StronglySorted_app in Hsort as (_ & _ & Hsort).
    split; [done|]. split; [done|]. by right.
Qed.

Lemma drain_all Node t pt it todo : serves_nodes clean (reader t) Node -> Forall placed todo ->
  (it_err it = Some errIteratorEnd /\ todo = [] \/ it_rep clean (reader t) pt it todo) ->
  exists kvs, Forall (fun kv => bytes kv.1) kvs /\ leaves todo = hexed kvs /\
    exists N, forall fuel, (N <= fuel)%nat -> exists it', drain Node fuel fuel (NewIterator it) = Ret (kvs, it') /\ it_Err it' = None.
Proof.
  intros Hread Hpl [[Hend ->]|Hrep].
  - exists []. split; [constructor|]. split; [done|]. exists 1%nat. intros fuel Hf. by apply drain_ended; [|lia|lia].
  - pose proof (fun fuel => drain_spec clean Node (reader t) Hread pt fuel fuel (NewIterator it) todo Hrep Hpl) as Hd.
    destruct (Hd (S (length todo))) as (kvs & it0 & _ & _ & Hbs & Hls); [lia|lia|]. exists kvs. do 2 (split; [done|]).
    exists (S (length todo)). intros fuel Hf. destruct (Hd fuel) as (kvs' & it1 & Ed & He1 & Hbs' & Hls'); [lia|lia|].
    exists it1. split; [|done]. rewrite Ed, (hexed_inj kvs' kvs); [done..|]. by rewrite <- Hls, <- Hls'.
Qed.

(** Of the bindings, those left to visit are those at or after the key. *)
Lemma todo_bindings pt m key passed todo k v : pt_holds pt m -> pre [] pt = passed ++ todo -> Forall (ahead key) passed ->
  Forall (past key) todo -> bytes k ->
  (keybytesToHex k, PVal v) ∈ todo <-> m !! k = Some v /\ ~ before (keybytesToHex k) key.
Proof.
  intros Hh Efull Hpas Hto Hk. rewrite <- (pre_bindings pt m k v Hh Hk), Efull, elem_of_app.
  rewrite Forall_forall in Hpas, Hto. split.
  - intros Ht. split; [by right|]. by apply (Hto _ Ht).
  - intros [[Hp|?] Hnb]; [|done]. by destruct Hnb; apply (Hpas _ Hp).
Qed.

(** C28. Iterating a trie from a start key, on any mixture of loaded and stored nodes:
    with enough fuel the loop ends, without an error, and it has visited exactly the
    bindings whose key is at or after the start, each once and in ascending order.
    Keys compare as nibbles with the terminator, the greatest symbol, at the end, so a
    key comes after the keys that extend it. *)
Theorem iterate_correct (Node : node_source) (t : Trie) (m : gmap (list Z) (list Z)) (start : list Z) :
  trie_rep t m -> bytes start -> serves_nodes clean (reader t) Node ->
  exists it kvs, newNodeIterator Node t start = Ret it /\
    (exists N, forall fuel, (N <= fuel)%nat -> exists it', drain Node fuel fuel (NewIterator it) = Ret (kvs, it') /\ it_Err it' = None) /\
    StronglySorted (fun a b => before (keybytesToHex a.1) (keybytesToHex b.1)) kvs /\
    forall k v, (k, v) ∈ kvs <-> m !! k = Some v /\ ~ before (keybytesToHex k) (removelast (keybytesToHex start)).
Proof.
  intros Ht Hb Hread. destruct (newNodeIterator_spec Node t m start Ht Hb Hread) as (it & pt & passed & todo & E & Hh & Efull & Hpas & Hto & Hpl & Hsort & Hit).
  destruct (drain_all Node t pt it todo Hread Hpl Hit) as (kvs & Hbs & Hls & Hdr). exists it, kvs. do 2 (split; [done|]). split.
  - apply leaves_sorted in Hsort. rewrite Hls in Hsort. by apply hexed_sorted.
  - assert (forall k v, bytes k -> (k, v) ∈ kvs <-> m !! k = Some v /\ ~ before (keybytesToHex k) (removelast (keybytesToHex start))) as Hiff.
    { intros k v Hk. rewrite <- (elem_of_hexed k v kvs Hk Hbs), <- Hls, elem_of_leaves. by eapply todo_bindings. }
    intros k v. split.
    + intros Hkv. rewrite Forall_forall in Hbs. apply Hiff; [by apply (Hbs (k, v))|done].
    + intros [Hm Hnb]. apply Hiff; [by destruct (holds_dom _ _ Hh k v Hm)|done].
Qed.

(** C29. An iterator over a store that fails now and then: there is one list of paths,
    ascending and with the key of every binding at or after the start, such that any
    run of calls of [Next], each with a reader that answers like the store or fails,
    moves through that list in order and to no node twice.  When all calls descend,
    failed ones make it skip no node either: it moves to a prefix of the list, every
    call with the store itself moves on until the list is exhausted, and a call that
    does not move before that reports the missing node.  (A failed [Next(false)] has
    already left the current node, so to repeat it leaves out nodes.) *)
Theorem Next_retry (Node : node_source) (t : Trie) (m : gmap (list Z) (list Z)) (start : list Z) :
  trie_rep t m -> bytes start -> serves_nodes clean (reader t) Node ->
  exists it all, newNodeIterator Node t start = Ret it /\ StronglySorted before all /\
    (forall k v, m !! k = Some v -> ~ before (keybytesToHex k) (removelast (keybytesToHex start)) -> keybytesToHex k ∈ all) /\
    (forall calls, Forall (fun c => flaky Node c.1) calls ->
      exists seen last_, attempts calls it = Ret (seen, last_) /\ omap id seen `sublist_of` all) /\
    forall calls, Forall (flaky Node) calls ->
    exists seen last_ k, attempts (descending calls) it = Ret (seen, last_) /\ omap id seen = take k all /\
      (forall n, replicate n Node `sublist_of` calls -> (n <= k \/ length all <= k)%nat) /\
      ((k < length all)%nat -> last seen = Some None -> is_Some (it_Error last_)).
Proof.
  intros Ht Hb Hread. destruct (newNodeIterator_spec Node t m start Ht Hb Hread) as (it & pt & passed & todo & E & Hh & Efull & Hpas & Hto & Hpl & Hsort & Hit).
  exists it, (fst <$> todo). split; [done|]. split.
  { clear -Hsort. induction Hsort as [|x l _ IH Hx]; [constructor|]. cbn. constructor; [done|]. by apply Forall_fmap. }
  split.
  { intros k v Hm Hnb. apply list_elem_of_fmap. exists (keybytesToHex k, PVal v). split; [done|].
    eapply todo_bindings; [done..|by destruct (holds_dom _ _ Hh k v Hm)|done]. }
  assert (retrying clean (reader t) pt it todo) as Hre.
  { destruct Hit as [[Hend ->]|Hrep]; [unfold retrying; by rewrite Hend|by apply retrying_rep]. }
  split; [intros calls Hcalls; by apply (attempts_sublist clean Node (reader t) Hread pt calls Hcalls it todo)|]. intros calls Hcalls.
  destruct (attempts_spec clean Node (reader t) Hread pt calls Hcalls it todo Hre) as (seen & last_ & k & Ea & _ & Es & Hn & He).
  exists seen, last_, k. rewrite length_fmap. done.
Qed.
End correct.

(** ** A concrete iteration *)

Module IterSample.
#[local] Existing Instance RLPSample.rlp.
#[local] Existing Instance RLPSample.env.
#[local] Existing Instance RLPSample.eth.
#[local] Existing Instance RLPSample.rlp_laws.
#[local] Existing Instance RLPSample.hash_laws.
#[local] Instance free : CollisionFree := RLPSample.keccak_inj.
#[local] Instance flags : FlagSpec := hash_flags (fun _ _ => True).

(** Three keys, one of which extends another. *)
Definition tree : Trie := mkTrie NilNode [] 0 newEmptyReader newTracer.
Definition grown : Trie :=
  match Trie.Update tree [18] [7] with
  | Ret (_, t) => match Trie.Update t [18; 5] [8] with
                  | Ret (_, t) => match Trie.Update t [33] [9] with Ret (_, t) => t | Panic => tree end
                  | Panic => tree
                  end
  | Panic => tree
  end.
Definition stored : gmap (list Z) (list Z) := <[ [33] := [9] ]> (<[ [18; 5] := [8] ]> (<[ [18] := [7] ]> ∅)).

Lemma grown_rep : trie_rep grown stored.
Proof.
  assert (trie_rep tree ∅) as H0 by (exists PNil; split; [constructor|apply pt_holds_empty]).
  destruct (trie_Update_spec tree ∅ [18] [7] H0) as (t1 & E1 & H1 & _); [repeat constructor; unfold is_byte; lia|].
  destruct (trie_Update_spec t1 _ [18; 5] [8] H1) as (t2 & E2 & H2 & _); [repeat constructor; unfold is_byte; lia|].
  destruct (trie_Update_spec t2 _ [33] [9] H2) as (t3 & E3 & H3 & _); [repeat constructor; unfold is_byte; lia|].
  unfold grown. rewrite E1. cbn beta iota. rewrite E2. cbn beta iota. rewrite E3. exact H3.
Qed.

Lemma grown_reader : reader grown = newEmptyReader.
Proof. vm_compute. reflexivity. Qed.

Lemma iterate_correct_witness : exists it kvs, newNodeIterator no_node grown [18; 0] = Ret it /\
  (exists N, forall fuel, (N <= fuel)%nat -> exists it', drain no_node fuel fuel (NewIterator it) = Ret (kvs, it') /\ it_Err it' = None) /\
  ([18; 5], [8]) ∈ kvs /\ ([33], [9]) ∈ kvs.
Proof.
  destruct (iterate_correct (fun _ _ => True) no_node grown stored [18; 0]) as (it & kvs & E & Hd & _ & Hin).
  - exact grown_rep.
  - repeat constructor; unfold is_byte; lia.
  - intros p h s He. rewrite grown_reader in He. by destruct (sample_memory p h s).
  - exists it, kvs. split; [exact E|]. split; [exact Hd|]. split; apply Hin; (split; [by vm_compute|by vm_compute]).
Defined.
(** A trie with one binding whose root is in the store, and the store as it is and
    when it fails. *)
Definition leaf_node (f : nodeFlag) : node := ShortNode (keybytesToHex Sample.key) (ValueNode Sample.val) f.
Definition leaf_ptrie : ptrie := PShort (keybytesToHex Sample.key) (PVal Sample.val).
Definition root_key : list Z := keccak256 (penc leaf_ptrie).
Definition kept_reader : trieReader := mkTrieReader [] (Some (mkReader (fun _ _ _ => Ok (penc leaf_ptrie)))) None.
Definition kept : Trie := mkTrie (HashNode root_key) [] 0 kept_reader newTracer.
Definition store (o p h : list Z) : outcome (res string node) :=
  Ret (Ok (match load kept_reader p h with Some n => n | None => NilNode end)).
Definition failing (o p h : list Z) : outcome (res string node) := Ret (Err "disk"%string).

Lemma store_serves : serves_nodes (fun _ _ => True) kept_reader store.
Proof.
  intros p h s He. inversion He as [| | | |? ? n ? _ Hl _ Hn]; subst. exists n. unfold store.
  change (BytesToHash h) with h. rewrite Hl. split; [done|]. split; [by apply load_inner in Hl|done].
Qed.

Lemma kept_rep : trie_rep kept Sample.stored.
Proof.
  exists leaf_ptrie. split; [|apply (pt_holds_insert PNil ∅ Sample.key Sample.val); [apply pt_holds_empty|apply Sample.key_bytes|done]].
  assert (load kept_reader [] root_key = Some (leaf_node (mkFlag (Some root_key) false))) as Hl by (vm_compute; reflexivity).
  assert (flag_ok [] (mkFlag (Some root_key) false) leaf_ptrie) as Hf by (split; [intros h [= <-]; by split; [|left]|done]).
  eapply ex_hash; [exact Hf|exact Hl|by constructor; [|constructor]|by constructor; [|intros _; constructor|constructor]].
Qed.

Lemma Next_retry_witness : exists it all, newNodeIterator store kept [] = Ret it /\ keybytesToHex Sample.key ∈ all /\
  exists seen last_ k, attempts (descending [failing; store; failing; failing; store]) it = Ret (seen, last_) /\ omap id seen = take k all /\
    (2 <= k \/ length all <= k)%nat.
Proof.
  destruct (Next_retry (fun _ _ => True) store kept Sample.stored []) as (it & all & E & _ & Hin & _ & Hcalls).
  - exact kept_rep.
  - constructor.
  - exact store_serves.
  - exists it, all. split; [exact E|]. split; [apply (Hin _ Sample.val); by vm_compute|].
    destruct (Hcalls [failing; store; failing; failing; store]) as (seen & last_ & k & Ea & Es & Hn & _).
    { assert (flaky store failing) by (intros o p h; right; left; by eexists). assert (flaky store store) by (intros o p h; by left).
      do 5 (apply List.Forall_cons; [assumption|]). apply List.Forall_nil. }
    exists seen, last_, k. split; [exact Ea|]. split; [exact Es|]. apply Hn. cbn. apply sublist_cons, sublist_skip. do 2 apply sublist_cons. done.
Defined.
End IterSample.
