(* ===== verification/StackTrie.v ===== *)
(** * The stack trie ([trie/stacktrie.go])

    A trie that is built in one pass: keys come in ascending order, and a subtree
    that can no longer change is replaced by its hash at once.  With a writer,
    every node that is large enough is handed to it when it is hashed.  The nodes
    of the pool are the nodes of the model: a returned node is reset and no
    longer reachable.  The writer is called with values, so it must not keep the
    path slice.

    Proved here: for ascending keys, none a prefix of another, the hash is the
    root hash of the ordinary trie with the same contents, the nodes written are
    those of that trie, at their paths, and a serialized stack trie is read back
    as it was. *)

From stdpp Require Import base gmap strings list.
From Stdlib Require Import ZArith Lia.
From S2P Require Import Prelude Encoding TrieSpec Node Trie TrieMap Hasher Committer Reload.

Local Open Scope Z_scope.

(** ** Data *)

Definition emptyNode : Z := 0.
Definition branchNode : Z := 1.
Definition extNode : Z := 2.
Definition leafNode : Z := 3.
Definition hashedNode : Z := 4.

(** Owner, node type, value, key, children, and whether there is a writer. *)
Inductive StackTrie : Type :=
| ST (owner : list Z) (nodeType : Z) (val key : list Z) (children : list (option StackTrie)) (writeFn : bool).

Definition st_owner (st : StackTrie) : list Z := let 'ST o _ _ _ _ _ := st in o.
Definition st_nodeType (st : StackTrie) : Z := let 'ST _ t _ _ _ _ := st in t.
Definition st_val (st : StackTrie) : list Z := let 'ST _ _ v _ _ _ := st in v.
Definition st_key (st : StackTrie) : list Z := let 'ST _ _ _ k _ _ := st in k.
Definition st_children (st : StackTrie) : list (option StackTrie) := let 'ST _ _ _ _ c _ := st in c.
Definition st_writeFn (st : StackTrie) : bool := let 'ST _ _ _ _ _ w := st in w.

Definition no_children : list (option StackTrie) := replicate 16 None.
Definition zero_owner : list Z := replicate 32 0.

Definition NewStackTrieWithOwner (writeFn : bool) (owner : list Z) : StackTrie :=
  ST owner emptyNode [] [] no_children writeFn.
Definition NewStackTrie (writeFn : bool) : StackTrie := NewStackTrieWithOwner writeFn zero_owner.
Definition newLeaf (owner key val : list Z) (writeFn : bool) : StackTrie :=
  ST owner leafNode val key no_children writeFn.
Definition newExt (owner key : list Z) (child : StackTrie) (writeFn : bool) : StackTrie :=
  ST owner extNode [] key (<[0%nat := Some child]> no_children) writeFn.
Definition Reset (st : StackTrie) : StackTrie := ST zero_owner emptyNode [] [] no_children false.

Fixpoint setWriter (st : StackTrie) (writeFn : bool) : StackTrie :=
  let 'ST o t v k cs _ := st in
  ST o t v k (map (fun c => match c with Some c => Some (setWriter c writeFn) | None => None end) cs) writeFn.

(** A call of the writer: owner, path, hash, blob. *)
Definition write : Type := list Z * list Z * list Z * list Z.

Section stack_trie.
Context `{HashEnv} `{EthCommon}.

(** ** Hashing *)

(** [rawNode] below 32 bytes, [hashNode] otherwise, encoded. *)
Definition raw_child (val : list Z) : list Z :=
  if (length val <? 32)%nat then val else rlp_WriteBytes val.

(** [rawShortNode.encode] and [rawFullNode.encode], the children already encoded. *)
Definition raw_short (key val : list Z) : list Z := rlp_List (rlp_WriteBytes key ++ val).
Definition raw_full (children : list (list Z)) : list Z := rlp_List (concat children ++ rlp_EmptyString).

(** The end of [hashRec], for a node with the encoding [encodedNode]. *)
Definition hash_end (owner : list Z) (children : list (option StackTrie)) (writeFn : bool) (path encodedNode : list Z)
  : StackTrie * list write :=
  if (length encodedNode <? 32)%nat then (ST owner hashedNode encodedNode [] children writeFn, [])
  else
    let val := keccak256 encodedNode in
    (ST owner hashedNode val [] children writeFn,
     if writeFn then [(owner, path, BytesToHash val, encodedNode)] else []).

(** The children of a branch, the recursive [hashRec] passed in: their encoded
    references. *)
Definition hash_children (rec : StackTrie -> list Z -> outcome (StackTrie * list write)) (path : list Z)
  : nat -> list (option StackTrie) -> outcome (list (list Z) * list write) :=
  fix go (i : nat) (cs : list (option StackTrie)) : outcome (list (list Z) * list write) :=
    match cs with
    | [] => Ret ([], [])
    | None :: cs => '(es, ws) ← go (S i) cs; Ret (rlp_WriteBytes [] :: es, ws)
    | Some child :: cs =>
        '(child, w) ← rec child (path ++ [Z.of_nat i]);
        '(es, ws) ← go (S i) cs;
        Ret (raw_child (st_val child) :: es, w ++ ws)
    end.

Fixpoint hashRec (st : StackTrie) (path : list Z) {struct st} : outcome (StackTrie * list write) :=
  let 'ST owner nodeType val key children writeFn := st in
  if nodeType =? hashedNode then Ret (st, [])
  else if nodeType =? emptyNode then Ret (ST owner hashedNode EmptyRootHash [] children writeFn, [])
  else if nodeType =? branchNode then
    '(encs, ws) ← hash_children hashRec path 0 children;
    let '(st', w) := hash_end owner no_children writeFn path (raw_full encs) in Ret (st', ws ++ w)
  else if nodeType =? extNode then
    match children with
    | Some child :: _ =>
        '(child, ws) ← hashRec child (path ++ key);
        ck ← hexToCompact key;
        let '(st', w) := hash_end owner (<[0%nat := None]> children) writeFn path (raw_short ck (raw_child (st_val child))) in
        Ret (st', ws ++ w)
    | _ => Panic
    end
  else if nodeType =? leafNode then
    ck ← hexToCompact (key ++ [16]);
    Ret (hash_end owner children writeFn path (raw_short ck (rlp_WriteBytes val)))
  else Panic.

Definition hash (st : StackTrie) (path : list Z) : outcome (StackTrie * list write) := hashRec st path.

(** [hasher.sha] over the short value of a small root. *)
Definition Hash (st : StackTrie) : outcome (list Z * StackTrie * list write) :=
  '(st, ws) ← hashRec st [];
  if (length (st_val st) =? 32)%nat then Ret (st_val st, st, ws) else Ret (keccak256 (st_val st), st, ws).

Definition Commit (st : StackTrie) : outcome (res string (list Z) * StackTrie * list write) :=
  if negb (st_writeFn st) then Ret (Err "no database for committing"%string, st, [])
  else
    '(st, ws) ← hashRec st [];
    if (length (st_val st) =? 32)%nat then Ret (Ok (st_val st), st, ws)
    else
      let h := keccak256 (st_val st) in
      Ret (Ok h, st, ws ++ [(st_owner st, [], h, st_val st)]).

(** ** Insertion *)

Fixpoint diff_from (idx : nat) (sk key : list Z) : outcome nat :=
  match sk with
  | [] => Ret idx
  | nibble :: sk =>
      x ← of_option (key !! idx);
      if nibble =? x then diff_from (S idx) sk key else Ret idx
  end.
Definition getDiffIndex (stkey key : list Z) : outcome nat := diff_from 0 stkey key.

(** The nearest elder sibling below [idx] is hashed. *)
Fixpoint unresolve (cs : list (option StackTrie)) (prefix : list Z) (idx : nat)
  : outcome (list (option StackTrie) * list write) :=
  match idx with
  | O => Ret (cs, [])
  | S i =>
      oc ← of_option (cs !! i);
      match oc with
      | None => unresolve cs prefix i
      | Some c =>
          if st_nodeType c =? hashedNode then Ret (cs, [])
          else '(c, ws) ← hash c (prefix ++ [Z.of_nat i]); Ret (<[i := Some c]> cs, ws)
      end
  end.

(** [p.children[i] = c], a panic out of range. *)
Definition set_child (cs : list (option StackTrie)) (i : Z) (c : StackTrie) : outcome (list (option StackTrie)) :=
  if (Z.to_nat i <? length cs)%nat then Ret (<[Z.to_nat i := Some c]> cs) else Panic.

(** The end of a split at [diffidx], of a node with the key [stkey]: [n] is the
    hashed original part and [o] the new leaf.  Without a common prefix the node
    itself becomes the branch, otherwise an extension above a new one. *)
Definition split (owner val stkey : list Z) (children : list (option StackTrie)) (writeFn : bool)
  (diffidx : nat) (origIdx newIdx : Z) (n o : StackTrie) : outcome StackTrie :=
  if (diffidx =? 0)%nat then
    cs ← set_child (<[0%nat := None]> children) origIdx n;
    cs ← set_child cs newIdx o;
    Ret (ST owner branchNode val (take diffidx stkey) cs writeFn)
  else
    cs ← set_child no_children origIdx n;
    cs ← set_child cs newIdx o;
    Ret (ST owner extNode val (take diffidx stkey)
           (<[0%nat := Some (ST owner branchNode [] [] cs writeFn)]> children) writeFn).

Fixpoint insert (st : StackTrie) (key value prefix : list Z) {struct st} : outcome (StackTrie * list write) :=
  let 'ST owner nodeType val stkey children writeFn := st in
  if nodeType =? branchNode then
    x ← of_option (key !! 0%nat);
    '(cs, ws1) ← unresolve children prefix (Z.to_nat x);
    '(c, ws2) ← nth_with (fun oc =>
        match oc with
        | None => Ret (newLeaf owner (drop 1 key) value writeFn, [])
        | Some c => insert c (drop 1 key) value (prefix ++ [x])
        end) Panic children (Z.to_nat x);
    Ret (ST owner nodeType val stkey (<[Z.to_nat x := Some c]> cs) writeFn, ws1 ++ ws2)
  else if nodeType =? extNode then
    diffidx ← getDiffIndex stkey key;
    match children with
    | Some child :: _ =>
        if (diffidx =? length stkey)%nat then
          '(c, ws) ← insert child (drop diffidx key) value (prefix ++ take diffidx key);
          Ret (ST owner nodeType val stkey (<[0%nat := Some c]> children) writeFn, ws)
        else
          '(n, ws) ← (if (diffidx <? length stkey - 1)%nat then
                        hash (newExt owner (drop (diffidx + 1) stkey) child writeFn) (prefix ++ take (diffidx + 1) stkey)
                      else hash child (prefix ++ stkey));
          origIdx ← of_option (stkey !! diffidx);
          newIdx ← of_option (key !! diffidx);
          st' ← split owner val stkey children writeFn diffidx origIdx newIdx n
                  (newLeaf owner (drop (diffidx + 1) key) value writeFn);
          Ret (st', ws)
    | _ => Panic
    end
  else if nodeType =? leafNode then
    diffidx ← getDiffIndex stkey key;
    if (length stkey <=? diffidx)%nat then Panic
    else
      origIdx ← of_option (stkey !! diffidx);
      '(n, ws) ← hash (newLeaf owner (drop (diffidx + 1) stkey) val writeFn) (prefix ++ take (diffidx + 1) stkey);
      newIdx ← of_option (key !! diffidx);
      st' ← split owner [] stkey children writeFn diffidx origIdx newIdx n
              (newLeaf owner (drop (diffidx + 1) key) value writeFn);
      Ret (st', ws)
  else if nodeType =? emptyNode then Ret (ST owner leafNode value key children writeFn, [])
  else Panic.

Definition Update (st : StackTrie) (key value : list Z) : outcome (StackTrie * list write) :=
  let k := keybytesToHex key in
  match value with
  | [] => Panic
  | _ => insert st (take (length k - 1) k) value []
  end.

(** ** Serialization *)

(** The header of a node, in gob. *)
Definition header : Type := list Z * Z * list Z * list Z.
End stack_trie.

(** [gob] on the anonymous header struct: the encoder's bytes, and the decoder on
    a byte reader, which leaves what follows the value. *)
Class HeaderGob := {
  header_enc : header -> list Z;
  header_dec : list Z -> option (header * list Z);
}.

Section serialize.
Context `{HeaderGob}.

Fixpoint MarshalBinary (st : StackTrie) : list Z :=
  let 'ST owner nodeType val key children _ := st in
  header_enc (owner, nodeType, val, key) ++
  flat_map (fun child => match child with None => [0] | Some child => 1 :: MarshalBinary child end) children.

(** The loop over the sixteen children. *)
Fixpoint read_children (read : list Z -> option (StackTrie * list Z)) (n : nat) (r : list Z)
  : option (list (option StackTrie) * list Z) :=
  match n with
  | O => Some ([], r)
  | S n =>
      match r with
      | [] => None
      | hasChild :: r =>
          if hasChild =? 0 then
            '(cs, r) ← read_children read n r; Some (None :: cs, r)
          else
            '(child, r) ← read r; '(cs, r) ← read_children read n r; Some (Some child :: cs, r)
      end
  end.

(** Every level reads at least one byte, so the length of the data bounds the
    depth. *)
Fixpoint unmarshalBinary (fuel : nat) (r : list Z) : option (StackTrie * list Z) :=
  match fuel with
  | O => None
  | S fuel =>
      '(owner, nodeType, val, key, r) ← header_dec r;
      '(cs, r) ← read_children (unmarshalBinary fuel) 16 r;
      Some (ST owner nodeType val key cs false, r)
  end.

Definition UnmarshalBinary (data : list Z) : option StackTrie :=
  '(st, _) ← unmarshalBinary (S (length data)) data; Some st.

Definition NewFromBinary (data : list Z) (writeFn : bool) : option StackTrie :=
  st ← UnmarshalBinary data;
  Some (if writeFn then setWriter st writeFn else st).
End serialize.

(** ** What a stack trie stands for *)

Section rep.
Context `{HashLaws} (o : list Z) (w : bool).

(** The writes so far; without a writer nothing is asked of them. *)
Definition logged (L : list write) (p h b : list Z) : Prop := w = false \/ (o, p, h, b) ∈ L.

(** Every node of [t], found at path [p], that is large enough is written. *)
Inductive pwritten (L : list write) : list Z -> ptrie -> Prop :=
| pw_nil p : pwritten L p PNil
| pw_val p v : pwritten L p (PVal v)
| pw_short p k c :
    ((32 <= length (penc (PShort k c)))%nat -> logged L p (keccak256 (penc (PShort k c))) (penc (PShort k c))) ->
    pwritten L (p ++ k) c -> pwritten L p (PShort k c)
| pw_full p cs :
    ((32 <= length (penc (PFull cs)))%nat -> logged L p (keccak256 (penc (PFull cs))) (penc (PFull cs))) ->
    (forall i c, cs !! i = Some c -> pwritten L (p ++ [Z.of_nat i]) c) -> pwritten L p (PFull cs).

Lemma logged_mono L L' p h b : L ⊆ L' -> logged L p h b -> logged L' p h b.
Proof. intros Hs [Hw|Hl]; [by left|right; by apply Hs]. Qed.

Lemma pwritten_mono L L' p t : L ⊆ L' -> pwritten L p t -> pwritten L' p t.
Proof.
  intros Hs Hp. induction Hp; constructor; auto; intros Hlen; eapply logged_mono; eauto.
Qed.

Definition short_val (t : ptrie) : list Z := if (length (penc t) <? 32)%nat then penc t else keccak256 (penc t).
Definition hashed (t : ptrie) : StackTrie := ST o hashedNode (short_val t) [] no_children w.

(** A node at path [p] that stands for [t]; with [b] it can still be inserted
    into: it and the youngest child of every branch below it are not hashed. *)
Inductive rep (L : list write) : list Z -> bool -> StackTrie -> ptrie -> Prop :=
| rep_leaf p b k v : rep L p b (ST o leafNode v k no_children w) (PShort (k ++ [16]) (PVal v))
| rep_ext p b k c ts :
    rep L (p ++ k) b c (PFull ts) ->
    rep L p b (ST o extNode [] k (<[0%nat := Some c]> no_children) w) (PShort k (PFull ts))
| rep_branch p b cs ts j :
    length cs = 16%nat -> length ts = 17%nat -> ts !! 16%nat = Some PNil ->
    (forall i c t, cs !! i = Some (Some c) -> ts !! i = Some t -> rep L (p ++ [Z.of_nat i]) (b && bool_decide (i = j)) c t) ->
    (forall i c t, cs !! i = Some (Some c) -> ts !! i = Some t -> nonnil t = true) ->
    (forall i, cs !! i = Some None -> ts !! i = Some PNil) ->
    (exists c, cs !! j = Some (Some c)) -> (forall i, (j < i < 16)%nat -> cs !! i = Some None) ->
    rep L p b (ST o branchNode [] [] cs w) (PFull ts)
| rep_hashed p t : pinner t = true -> pwritten L p t -> rep L p false (hashed t) t.

Lemma rep_mono L L' p b st t : L ⊆ L' -> rep L p b st t -> rep L' p b st t.
Proof.
  intros Hs Hr. induction Hr; econstructor; eauto. by eapply pwritten_mono.
Qed.

Lemma rep_closed L p b st t : rep L p b st t -> rep L p false st t.
Proof.
  intros Hr. induction Hr; econstructor; eauto.
Qed.

Lemma rep_inner L p b st t : rep L p b st t -> pinner t = true.
Proof. by destruct 1. Qed.

(** ** Hashing *)

Lemma raw_child_short t : pinner t = true -> raw_child (short_val t) = pref t.
Proof.
  intros Hi. unfold raw_child, short_val, pref, reference. destruct (length (penc t) <? 32)%nat eqn:E.
  - rewrite E. by destruct t.
  - rewrite keccak256_length. by destruct t.
Qed.

Lemma hash_end_spec p t :
  exists ws, hash_end o no_children w p (penc t) = (hashed t, ws) /\
    ((32 <= length (penc t))%nat -> logged ws p (keccak256 (penc t)) (penc t)).
Proof.
  unfold hash_end, hashed, short_val. destruct (length (penc t) <? 32)%nat eqn:E.
  - apply Nat.ltb_lt in E. eexists. split; [done|lia].
  - rewrite BytesToHash_id by apply keccak256_length. eexists. split; [done|]. intros _. unfold logged.
    destruct w; [right; left|by left].
Qed.

Lemma hash_children_spec rec L p cs : forall ts i,
  length cs = length ts ->
  (forall j, cs !! j = Some None -> ts !! j = Some PNil) ->
  (forall j c t, cs !! j = Some (Some c) -> ts !! j = Some t -> pinner t = true /\
     exists ws, rec c (p ++ [Z.of_nat (i + j)]) = Ret (hashed t, ws) /\ pwritten (L ++ ws) (p ++ [Z.of_nat (i + j)]) t) ->
  exists es ws, hash_children rec p i cs = Ret (es, ws) /\ concat es = flat_map pref ts /\
    forall j t, ts !! j = Some t -> pwritten (L ++ ws) (p ++ [Z.of_nat (i + j)]) t.
Proof.
  induction cs as [|oc cs IH]; intros [|t ts] i Hlen Hnil Hrec; try done; [by exists [], []|].
  destruct (IH ts (S i)) as (es & ws & E & Ec & Hw).
  { by injection Hlen. }
  { intros j Hj. by apply (Hnil (S j)). }
  { intros j c t' Hc Ht. replace (S i + j)%nat with (i + S j)%nat by lia. by apply Hrec. }
  assert (forall j t', ts !! j = Some t' -> pwritten (L ++ ws) (p ++ [Z.of_nat (i + S j)]) t') as Hw'.
  { intros j t' Ht. replace (i + S j)%nat with (S i + j)%nat by lia. by apply Hw. }
  destruct oc as [c|].
  - destruct (Hrec 0%nat c t eq_refl eq_refl) as (Hi & ws1 & E1 & Hw1). rewrite Nat.add_0_r in *.
    exists (pref t :: es), (ws1 ++ ws). split; [|split; [by cbn; rewrite Ec|]].
    + change (hash_children rec p i (Some c :: cs)) with
        ('(child, w) ← rec c (p ++ [Z.of_nat i]); '(es, ws) ← hash_children rec p (S i) cs;
         Ret (raw_child (st_val child) :: es, w ++ ws)).
      rewrite E1. go_ret. rewrite E. go_ret. cbn [st_val hashed]. by rewrite raw_child_short.
    + intros [|j] t' Ht; [injection Ht as <-; rewrite Nat.add_0_r|apply Hw' in Ht];
        (eapply pwritten_mono; [|eassumption]); set_solver.
  - specialize (Hnil 0%nat eq_refl). injection Hnil as ->.
    exists (rlp_WriteBytes [] :: es), ws. split; [|split; [by cbn; rewrite Ec|]].
    + change (hash_children rec p i (None :: cs)) with
        ('(es, ws) ← hash_children rec p (S i) cs; Ret (rlp_WriteBytes [] :: es, ws)).
      rewrite E. by go_ret.
    + intros [|j] t' Ht; [injection Ht as <-; constructor|by apply Hw'].
Qed.

Lemma penc_branch ts : length ts = 17%nat -> ts !! 16%nat = Some PNil ->
  penc (PFull ts) = rlp_List (flat_map pref (take 16 ts) ++ rlp_EmptyString).
Proof.
  intros Hlen H16. rewrite penc_full. rewrite <- (take_drop_middle ts 16 PNil H16) at 1.
  rewrite flat_map_app. rewrite (drop_ge ts) by lia. cbn. by rewrite <- WriteBytes_empty, app_nil_r.
Qed.

Lemma wf_child ts i t : wf (PFull ts) -> ts !! i = Some t -> (i < 16)%nat -> wf t.
Proof.
  intros Hw Ht Hi. apply wf_full in Hw as (_ & _ & Hc). specialize (Hc i t Ht).
  replace (i =? 16)%nat with false in Hc by (symmetry; apply Nat.eqb_neq; lia). done.
Qed.

Lemma hashRec_spec L p b st t : rep L p b st t -> wf t ->
  exists ws, hashRec st p = Ret (hashed t, ws) /\ pwritten (L ++ ws) p t.
Proof.
  intros Hr. induction Hr as [p b k v|p b k c ts Hc IH|p b cs ts j Hlc Hlt H16 Hch IH Hnn Hnil Hj Hgt|p t Hi Hw];
    intros Hwf.
  - destruct (hash_end_spec p (PShort (k ++ [16]) (PVal v))) as (ws & E & Hl).
    exists ws. split.
    + cbn [hashRec]. cbn [Z.eqb Pos.eqb leafNode hashedNode emptyNode branchNode extNode].
      rewrite (hexToCompact_wf _ _ Hwf). go_ret. change (raw_short _ _) with (penc (PShort (k ++ [16]) (PVal v))).
      by rewrite E.
    + constructor; [|constructor]. intros Hlen. eapply logged_mono; [|by apply Hl]. set_solver.
  - destruct IH as (ws & E & Hw); [apply Hwf|].
    destruct (hash_end_spec p (PShort k (PFull ts))) as (ws' & E' & Hl).
    exists (ws ++ ws'). split.
    + cbn -[penc hashed]. rewrite E. go_ret. rewrite (hexToCompact_wf _ _ Hwf). go_ret. cbn [st_val hashed].
      rewrite raw_child_short by done. change (raw_short _ _) with (penc (PShort k (PFull ts))).
      fold no_children. change [None; None; None; None; None; None; None; None; None; None; None; None; None; None; None; None]
        with no_children. by rewrite E'.
    + constructor.
      * intros Hlen. eapply logged_mono; [|by apply Hl]. set_solver.
      * eapply pwritten_mono; [|exact Hw]. set_solver.
  - destruct (hash_children_spec hashRec L p cs (take 16 ts) 0) as (es & ws & E & Ec & Hw).
    { rewrite length_take. lia. }
    { intros i Hi. apply lookup_lt_Some in Hi as Hlt'. rewrite lookup_take_lt by lia. by apply Hnil. }
    { intros i c t Hc Ht. apply lookup_lt_Some in Hc as Hlt'. rewrite lookup_take_lt in Ht by lia. split.
      - by eapply rep_inner, Hch.
      - apply (IH i c t Hc Ht). eapply wf_child; [done|done|lia]. }
    destruct (hash_end_spec p (PFull ts)) as (ws' & E' & Hl).
    exists (ws ++ ws'). split.
    + cbn [hashRec]. cbn [Z.eqb Pos.eqb leafNode hashedNode emptyNode branchNode extNode].
      rewrite E. go_ret. unfold raw_full. rewrite Ec, <- penc_branch by done. by rewrite E'.
    + constructor.
      * intros Hlen. eapply logged_mono; [|by apply Hl]. set_solver.
      * intros i c Hc. destruct (decide (i < 16)%nat).
        -- eapply pwritten_mono; [|apply (Hw i)]; [set_solver|]. by rewrite lookup_take_lt.
        -- apply lookup_lt_Some in Hc as Hlt'. replace i with 16%nat in * by lia.
           rewrite H16 in Hc. injection Hc as <-. constructor.
  - exists []. split; [done|]. by rewrite app_nil_r.
Qed.

(** ** Keys in ascending order *)

(** The first difference of [a] and [b] is upwards. *)
Definition below (a b : list Z) : Prop := exists p x y a' b', a = p ++ x :: a' /\ b = p ++ y :: b' /\ x < y.

(** A key, without its terminator, that comes after every key of [t]. *)
Definition above (key : list Z) (t : ptrie) : Prop := forall q v, hex_key q -> pget t q = Some v -> below q key.

Lemma below_cons x a y b : below (x :: a) (y :: b) -> x < y \/ (x = y /\ below a b).
Proof.
  intros ([|z p] & x' & y' & a' & b' & Ea & Eb & Hlt); simplify_eq/=; [by left|right]. split; [done|].
  by exists p, x', y', a', b'.
Qed.

Lemma below_app p a b : below (p ++ a) (p ++ b) -> below a b.
Proof.
  induction p as [|x p IH]; [done|]. cbn. intros [?|[_ Hb]]%below_cons; [lia|by apply IH].
Qed.

Lemma below_prefix a b : ~ below (a ++ b) a.
Proof.
  intros (p & x & y & a' & b' & Ea & -> & Hlt). rewrite <- app_assoc in Ea.
  apply app_inv_head in Ea. cbn in Ea. injection Ea. lia.
Qed.

Lemma below_leaf a b : hex_path (a ++ b) -> ~ below (a ++ [16]) (a ++ b).
Proof.
  intros Hp Hb%below_app. apply Forall_app in Hp as [_ Hp]. destruct b as [|y b].
  - destruct Hb as ([|? ?] & ? & ? & ? & ? & ? & ? & ?); simplify_eq/=.
  - apply Forall_cons in Hp as [Hy _]. unfold is_nibble in Hy. apply below_cons in Hb as [Hb|[Hb _]]; lia.
Qed.

(** A new key is not stored yet, and the insertion changes the trie. *)
Lemma above_fresh key t v : above key t -> hex_path key -> pget t (key ++ [16]) <> Some v.
Proof.
  intros Ha Hp E. apply (below_prefix key [16]). apply (Ha _ v); [|done]. by exists key.
Qed.

Lemma above_dirty key t v : wf t -> above key t -> hex_path key -> v <> [] ->
  (pinsert t (key ++ [16]) (PVal v)).1 = true.
Proof.
  intros Hw Ha Hp Hv. apply (insert_dirty _ _ _ _ _ (pinsert_spec t false (key ++ [16]) v Hw (ex_intro _ key (conj Hp eq_refl)) Hv)).
  by apply above_fresh.
Qed.

(** A key after a branch: its first nibble is at or after the last child. *)
Lemma above_full ts key : wf (PFull ts) -> above key (PFull ts) ->
  exists x key', key = x :: key' /\ (forall i t, ts !! i = Some t -> x < Z.of_nat i -> t = PNil) /\
    (forall t, 0 <= x < 16 -> ts !! Z.to_nat x = Some t -> above key' t).
Proof.
  intros Hw Ha. destruct (wf_inhabited (PFull ts) false Hw eq_refl) as (q & v & Hq & Hg).
  destruct key as [|x key'].
  { destruct (Ha q v Hq Hg) as ([|? ?] & ? & ? & ? & ? & ? & ? & ?); simplify_eq/=. }
  exists x, key'. split; [done|]. pose proof (proj1 (wf_full ts) Hw) as (Hlen & _ & Hc). split.
  - intros i t Ht Hlt. destruct (nonnil t) eqn:En; [|by destruct t]. exfalso.
    destruct (wf_inhabited t (i =? 16)%nat (Hc i t Ht) En) as (q' & v' & Hq' & Hg').
    assert (below (Z.of_nat i :: q') (x :: key')) as Hb.
    { apply (Ha _ v'); [apply child_key; [apply lookup_lt_Some in Ht; lia|done]|].
      by rewrite pget_full, Nat2Z.id, Ht. }
    apply below_cons in Hb as [?|[? _]]; lia.
  - intros t Hx Ht q' v' Hq' Hg'.
    assert (below (x :: q') (x :: key')) as Hb.
    { apply (Ha _ v'); [|by rewrite pget_full, Ht].
      rewrite <- (Z2Nat.id x) by lia. apply child_key; [lia|].
      destruct (Nat.eqb_spec (Z.to_nat x) 16); [lia|done]. }
    apply below_cons in Hb as [?|[_ Hb]]; [lia|done].
Qed.

(** A key after a short node: it goes on below an extension, or parts from its
    key upwards. *)
Lemma parts (k key : list Z) :
  (exists l, key = k ++ l) \/ (exists x l, k = key ++ x :: l) \/
  exists p x y k' key', k = p ++ x :: k' /\ key = p ++ y :: key' /\ x <> y.
Proof.
  revert key. induction k as [|x k IH]; intros [|y key].
  - left. by exists [].
  - left. by exists (y :: key).
  - right. left. by exists x, k.
  - destruct (decide (x = y)) as [->|Hne].
    + destruct (IH key) as [[l ->]|[(z & l & ->)|(p & a & b & k' & key' & -> & -> & Hne)]].
      * left. by exists l.
      * right. left. by exists z, l.
      * right. right. by exists (y :: p), a, b, k', key'.
    + right. right. by exists [], x, y, k, key.
Qed.

Lemma below_parts p x y k' key' q : below (p ++ x :: k' ++ q) (p ++ y :: key') -> x <> y -> x < y.
Proof. intros Hb%below_app Hne. apply below_cons in Hb as [?|[? _]]; done. Qed.

Lemma above_ext k ts key : wf (PShort k (PFull ts)) -> above key (PShort k (PFull ts)) ->
  (exists l, key = k ++ l /\ above l (PFull ts)) \/
  exists p x y k' key', k = p ++ x :: k' /\ key = p ++ y :: key' /\ x < y.
Proof.
  intros Hw Ha. destruct Hw as (Hk & Hp & Hw).
  assert (forall q v, hex_key q -> pget (PFull ts) q = Some v -> below (k ++ q) key) as Ha'.
  { intros q v Hq Hg. apply (Ha _ v); [by apply hex_key_app|by rewrite (pget_short k _ _ q)]. }
  destruct (wf_inhabited (PFull ts) false Hw eq_refl) as (q & v & Hq & Hg).
  destruct (parts k key) as [[l ->]|[(x & l & ->)|(p & x & y & k' & key' & -> & -> & Hne)]].
  - left. exists l. split; [done|]. intros q' v' Hq' Hg'. eapply below_app. by apply (Ha' q' v').
  - exfalso. apply (below_prefix key ((x :: l) ++ q)). rewrite app_assoc. by apply (Ha' q v).
  - right. exists p, x, y, k', key'. split; [done|]. split; [done|]. specialize (Ha' q v Hq Hg).
    rewrite <- app_assoc in Ha'. by eapply below_parts.
Qed.

Lemma above_leaf k v key : hex_path k -> hex_path key -> v <> [] -> above key (PShort (k ++ [16]) (PVal v)) ->
  exists p x y k' key', k = p ++ x :: k' /\ key = p ++ y :: key' /\ x < y.
Proof.
  intros Hp Hpk Hv Ha.
  assert (below (k ++ [16]) key) as Hb.
  { apply (Ha _ v); [by exists k|]. rewrite (pget_short (k ++ [16]) _ _ []); [done|]. by rewrite app_nil_r. }
  destruct (parts k key) as [[l ->]|[(x & l & ->)|(p & x & y & k' & key' & -> & -> & Hne)]].
  - exfalso. by eapply below_leaf.
  - exfalso. apply (below_prefix key ((x :: l) ++ [16])). by rewrite app_assoc.
  - exists p, x, y, k', key'. split; [done|]. split; [done|]. rewrite <- app_assoc in Hb. by eapply below_parts.
Qed.

(** ** Insertion *)

Lemma diff_from_common idx pre p sk key : length pre = idx ->
  diff_from idx (p ++ sk) (pre ++ p ++ key) = diff_from (idx + length p) sk (pre ++ p ++ key).
Proof.
  revert idx pre. induction p as [|x p IH]; intros idx pre Hl; [cbn; by rewrite Nat.add_0_r|].
  cbn [app diff_from length]. rewrite lookup_app_r by lia. rewrite Hl, Nat.sub_diag. cbn [lookup list_lookup of_option].
  go_ret. rewrite Z.eqb_refl. specialize (IH (S idx) (pre ++ [x])). rewrite <- !app_assoc in IH. cbn [app] in IH.
  rewrite IH by (rewrite length_app; cbn; lia). f_equal. lia.
Qed.

Lemma getDiffIndex_match k l : getDiffIndex k (k ++ l) = Ret (length k).
Proof.
  unfold getDiffIndex. pose proof (diff_from_common 0 [] k [] l eq_refl) as E. cbn [app] in E.
  rewrite app_nil_r in E. by rewrite E.
Qed.

Lemma getDiffIndex_part p x y k' key' : x <> y -> getDiffIndex (p ++ x :: k') (p ++ y :: key') = Ret (length p).
Proof.
  intros Hne. unfold getDiffIndex. pose proof (diff_from_common 0 [] p (x :: k') (y :: key') eq_refl) as E.
  cbn [app] in E. rewrite E. cbn [diff_from Nat.add]. rewrite lookup_app_r, Nat.sub_diag by lia. cbn [lookup list_lookup of_option]. go_ret.
  by destruct (Z.eqb_spec x y).
Qed.

Lemma unresolve_spec L p cs (ts : list ptrie) idx :
  (idx <= length cs)%nat ->
  (forall i c, cs !! i = Some (Some c) -> exists t, ts !! i = Some t /\ wf t /\ rep L (p ++ [Z.of_nat i]) false c t) ->
  exists cs' ws, unresolve cs p idx = Ret (cs', ws) /\ length cs' = length cs /\
    forall i, cs' !! i = cs !! i \/
      ((i < idx)%nat /\ exists c c' t, cs !! i = Some (Some c) /\ cs' !! i = Some (Some c') /\ ts !! i = Some t /\
       rep (L ++ ws) (p ++ [Z.of_nat i]) false c' t).
Proof.
  intros Hle Hr. induction idx as [|idx IH]; [exists cs, []; auto|]. cbn [unresolve].
  destruct (lookup_lt_is_Some_2 cs idx ltac:(lia)) as [oc Eoc]. rewrite Eoc. cbn [of_option]. go_ret.
  destruct oc as [c|].
  - destruct (st_nodeType c =? hashedNode); [exists cs, []; auto|].
    destruct (Hr idx c Eoc) as (t & Et & Hw & Hrep).
    destruct (hashRec_spec L _ _ c t Hrep Hw) as (ws & E & Hpw). unfold hash. rewrite E. go_ret.
    eexists _, ws. split; [done|]. split; [by rewrite length_insert|]. intros i.
    destruct (decide (i = idx)) as [->|Hne]; [right|left; by rewrite list_lookup_insert_ne].
    split; [lia|]. exists c, (hashed t), t. rewrite list_lookup_insert_eq by (by eapply lookup_lt_Some).
    do 3 (split; [done|]). constructor; [by eapply rep_inner|done].
  - destruct IH as (cs' & ws & E & Hl & Hi); [lia|]. exists cs', ws. do 2 (split; [done|]). intros i.
    destruct (Hi i) as [?|[? ?]]; [by left|right; split; [lia|done]].
Qed.

Lemma no_children_lookup i : (i < 16)%nat -> no_children !! i = Some None.
Proof. intros Hi. unfold no_children. by apply lookup_replicate_2. Qed.

(** A branch of two children. *)
Lemma branch_rep L q x y n tn key' v : 0 <= x < y -> y < 16 ->
  rep L (q ++ [x]) false n tn ->
  rep L q true
    (ST o branchNode [] [] (<[Z.to_nat y := Some (newLeaf o key' v w)]> (<[Z.to_nat x := Some n]> no_children)) w)
    (PFull (<[Z.to_nat y := pleaf (key' ++ [16]) (PVal v)]> (<[Z.to_nat x := tn]> empty_children))).
Proof.
  intros Hx Hy Hn.
  assert (forall (A : Type) (l : list A) a b i, length l <> 0%nat -> (15 < length l)%nat ->
    (<[Z.to_nat y := a]> (<[Z.to_nat x := b]> l) !! i = if decide (i = Z.to_nat y) then Some a
       else if decide (i = Z.to_nat x) then Some b else l !! i)) as Hl.
  { intros A l a b i _ Hlen. repeat case_decide; subst.
    - rewrite list_lookup_insert_eq; [done|rewrite length_insert; lia].
    - rewrite list_lookup_insert_ne, list_lookup_insert_eq by lia. done.
    - by rewrite !list_lookup_insert_ne by lia. }
  assert (pleaf (key' ++ [16]) (PVal v) = PShort (key' ++ [16]) (PVal v)) as Hpl by (by destruct key').
  assert (length no_children = 16%nat /\ length empty_children = 17%nat) as [Hlc Hle] by done.
  apply (rep_branch L q true _ _ (Z.to_nat y)).
  - by rewrite !length_insert.
  - by rewrite !length_insert.
  - rewrite Hl by lia. rewrite !decide_False by lia. done.
  - intros i c t. rewrite !Hl by lia. case_decide as E1; [|case_decide as E2].
    + intros [= <-] [= <-]. rewrite Hpl, bool_decide_true by done. apply rep_leaf.
    + intros [= <-] [= <-]. subst i. rewrite bool_decide_false by done. rewrite Z2Nat.id by lia. exact Hn.
    + intros Hc. apply lookup_lt_Some in Hc as Hlt. rewrite no_children_lookup in Hc by lia. done.
  - intros i c t. rewrite !Hl by lia. case_decide as E1; [|case_decide as E2].
    + intros _ [= <-]. by rewrite Hpl.
    + intros _ [= <-]. apply rep_inner in Hn. by destruct tn.
    + intros Hc. apply lookup_lt_Some in Hc as Hlt. rewrite no_children_lookup in Hc by lia. done.
  - intros i. rewrite !Hl by lia. case_decide as E1; [done|]. case_decide as E2; [done|].
    intros Hc. apply lookup_lt_Some in Hc as Hlt. rewrite empty_children_lookup by lia. done.
  - eexists. rewrite Hl by lia. by rewrite decide_True.
  - intros i Hi. rewrite Hl by lia. rewrite !decide_False by lia. apply no_children_lookup. lia.
Qed.

Lemma pinsert_part p x y k' key' c v : x <> y ->
  (pinsert (PShort (p ++ x :: k') c) (p ++ y :: key') v).2 =
    pleaf p (PFull (<[Z.to_nat y := pleaf key' v]> (<[Z.to_nat x := pleaf k' c]> empty_children))).
Proof.
  intros Hne.
  assert (prefixLen (p ++ y :: key') (p ++ x :: k') = length p) as Hm.
  { clear c v. induction p as [|z p IH]; cbn; [by destruct (Z.eqb_spec y x)|by rewrite Z.eqb_refl, IH]. }
  pose proof (pbranch_eq p y x key' k' c v) as Hb.
  destruct p as [|z p].
  - cbn [app] in *. cbn [pinsert]. rewrite Hm. cbn [length Nat.eqb snd pleaf]. exact Hb.
  - cbn [app] in *. cbn [pinsert]. rewrite Hm. rewrite Hb.
    destruct (Nat.eqb_spec (length (z :: p)) (length (z :: p ++ x :: k'))) as [E|_].
    { cbn in E. rewrite length_app in E. cbn in E. lia. }
    cbn [length Nat.eqb snd pleaf]. f_equal. cbn [take]. f_equal. by rewrite take_app_length.
Qed.

Lemma pinsert_below k c l v : k <> [] ->
  pinsert (PShort k c) (k ++ l) v = if (pinsert c l v).1 then (true, PShort k (pinsert c l v).2) else (false, PShort k c).
Proof.
  intros Hk. assert (prefixLen (k ++ l) k = length k) as Hm by (apply prefixLen_full; by exists l).
  pose proof (drop_app_length k l) as Hd. destruct k as [|z k]; [done|]. cbn [app] in *. cbn [pinsert].
  rewrite Hm, Nat.eqb_refl, Hd. done.
Qed.

Lemma split_spec L pre p x y k0 key' children n tn v : 0 <= x < y -> y < 16 ->
  <[0%nat := None]> children = no_children -> rep L (pre ++ p ++ [x]) false n tn ->
  exists st', split o [] (p ++ x :: k0) children w (length p) x y n (newLeaf o key' v w) = Ret st' /\
    rep L pre true st'
      (pleaf p (PFull (<[Z.to_nat y := pleaf (key' ++ [16]) (PVal v)]> (<[Z.to_nat x := tn]> empty_children)))).
Proof.
  intros Hx Hy Hch Hn. unfold split. rewrite take_app_length.
  assert (length no_children = 16%nat) as Hlc by done.
  assert ((cs ← set_child no_children x n; set_child cs y (newLeaf o key' v w)) =
    Ret (<[Z.to_nat y := Some (newLeaf o key' v w)]> (<[Z.to_nat x := Some n]> no_children))) as Hset.
  { unfold set_child. rewrite Hlc. destruct (Nat.ltb_spec (Z.to_nat x) 16); [|lia]. go_ret.
    rewrite length_insert, Hlc. destruct (Nat.ltb_spec (Z.to_nat y) 16); [done|lia]. }
  rewrite app_assoc in Hn. pose proof (branch_rep L (pre ++ p) x y n tn key' v Hx Hy Hn) as Hb.
  destruct p as [|z p].
  - cbn [length Nat.eqb]. rewrite Hch. apply outcome_bind_Ret in Hset as (cs1 & E1 & E2). rewrite E1. go_ret.
    rewrite E2. go_ret. eexists. split; [done|]. rewrite app_nil_r in Hb. exact Hb.
  - cbn [length Nat.eqb]. apply outcome_bind_Ret in Hset as (cs1 & E1 & E2). rewrite E1. go_ret.
    rewrite E2. go_ret. eexists. split; [done|]. cbn [pleaf].
    assert (<[0%nat := Some (ST o branchNode [] [] (<[Z.to_nat y := Some (newLeaf o key' v w)]>
              (<[Z.to_nat x := Some n]> no_children)) w)]> children =
            <[0%nat := Some (ST o branchNode [] [] (<[Z.to_nat y := Some (newLeaf o key' v w)]>
              (<[Z.to_nat x := Some n]> no_children)) w)]> no_children) as ->.
    { rewrite <- Hch. by rewrite list_insert_insert_eq. }
    by apply rep_ext.
Qed.

Lemma cut_at (p : list Z) z l :
  drop (length p + 1) (p ++ z :: l) = l /\ take (length p + 1) (p ++ z :: l) = p ++ [z].
Proof.
  rewrite (cons_middle z p l), app_assoc. replace (length p + 1)%nat with (length (p ++ [z])) by (rewrite length_app; done).
  by rewrite drop_app_length, take_app_length.
Qed.

(** What inserting a key after all keys of [t] must give. *)
Definition inserted (L : list write) (st : StackTrie) (t : ptrie) (pre key v : list Z) : Prop :=
  exists st' ws, insert st key v pre = Ret (st', ws) /\
    rep (L ++ ws) pre true st' (pinsert t (key ++ [16]) (PVal v)).2.

Lemma insert_leaf L pre k u key v : hex_path k -> hex_path key -> u <> [] ->
  above key (PShort (k ++ [16]) (PVal u)) ->
  inserted L (ST o leafNode u k no_children w) (PShort (k ++ [16]) (PVal u)) pre key v.
Proof.
  intros Hk Hp Hu Ha. destruct (above_leaf k u key Hk Hp Hu Ha) as (p & x & y & k' & key' & -> & -> & Hlt).
  apply Forall_app in Hk as Hk2. destruct Hk2 as [_ [Hx Hk']%Forall_cons].
  apply Forall_app in Hp as Hp2. destruct Hp2 as [_ [Hy Hkey']%Forall_cons]. unfold is_nibble in *.
  unfold inserted. cbn [insert]. cbn [Z.eqb Pos.eqb leafNode branchNode extNode].
  rewrite getDiffIndex_part by lia. go_ret.
  destruct (Nat.leb_spec (length (p ++ x :: k')) (length p)) as [Hle|_]; [rewrite length_app in Hle; cbn in Hle; lia|].
  rewrite lookup_app_r, Nat.sub_diag by lia. cbn [lookup list_lookup of_option]. go_ret.
  destruct (cut_at p x k') as [-> ->].
  destruct (hashRec_spec L (pre ++ p ++ [x]) true (newLeaf o k' u w) (PShort (k' ++ [16]) (PVal u)))
    as (ws & E & Hw); [apply rep_leaf|by split; [exists k'|]|].
  unfold hash. rewrite E. go_ret. rewrite lookup_app_r, Nat.sub_diag by lia. cbn [lookup list_lookup of_option]. go_ret.
  destruct (cut_at p y key') as [-> _].
  destruct (split_spec (L ++ ws) pre p x y k' key' no_children (hashed (PShort (k' ++ [16]) (PVal u)))
              (PShort (k' ++ [16]) (PVal u)) v) as (st' & Es & Hr); [lia|lia|done|by constructor|].
  go_ret. rewrite Es. go_ret. eexists _, _. split; [done|].
  rewrite <- !app_assoc. cbn [app]. rewrite pinsert_part by lia. by destruct k'.
Qed.

Lemma insert_ext L pre k c ts key v : wf (PShort k (PFull ts)) -> hex_path key -> v <> [] ->
  above key (PShort k (PFull ts)) -> rep L (pre ++ k) true c (PFull ts) ->
  (forall l, hex_path l -> above l (PFull ts) -> inserted L c (PFull ts) (pre ++ k) l v) ->
  inserted L (ST o extNode [] k (<[0%nat := Some c]> no_children) w) (PShort k (PFull ts)) pre key v.
Proof.
  intros Hwf Hp Hv Ha Hc IH. pose proof Hwf as (Hne & Hk & Hwc).
  destruct (above_ext k ts key Hwf Ha) as [(l & -> & Hl)|(p & x & y & k' & key' & -> & -> & Hlt)].
  - apply Forall_app in Hp as [_ Hp]. destruct (IH l Hp Hl) as (c' & ws & E & Hr).
    unfold inserted. cbn [insert]. cbn [Z.eqb Pos.eqb extNode branchNode]. rewrite getDiffIndex_match. go_ret.
    change (<[0%nat := Some c]> no_children) with (Some c :: replicate 15 None). cbv iota.
    rewrite Nat.eqb_refl, drop_app_length, take_app_length, E. go_ret.
    eexists _, _. split; [done|]. rewrite <- app_assoc.
    assert (exists ts', (pinsert (PFull ts) (l ++ [16]) (PVal v)).2 = PFull ts') as [ts' Ets].
    { apply (insert_full (loose:=false) false (PFull ts) (l ++ [16]) v); [|by eexists].
      apply pinsert_spec; [done|by exists l|done]. }
    assert ((pinsert (PShort k (PFull ts)) (k ++ l ++ [16]) (PVal v)).2 = PShort k (PFull ts')) as ->.
    { rewrite pinsert_below by done. rewrite (above_dirty l (PFull ts) v) by done. cbn [snd]. by rewrite Ets. }
    rewrite Ets in Hr. by apply (rep_ext _ pre true k c' ts').
  - apply Forall_app in Hk as Hk2. destruct Hk2 as [_ [Hx Hk']%Forall_cons].
    apply Forall_app in Hp as Hp2. destruct Hp2 as [_ [Hy Hkey']%Forall_cons]. unfold is_nibble in *.
    unfold inserted. cbn [insert]. cbn [Z.eqb Pos.eqb extNode branchNode]. rewrite getDiffIndex_part by lia. go_ret.
    change (<[0%nat := Some c]> no_children) with (Some c :: replicate 15 None). cbv iota.
    assert (length (p ++ x :: k') = S (length p + length k')) as Hlen by (rewrite length_app; cbn; lia).
    rewrite Hlen. destruct (Nat.eqb_spec (length p) (S (length p + length k'))) as [?|_]; [lia|].
    destruct (cut_at p x k') as [-> ->]. destruct (cut_at p y key') as [-> _].
    assert (exists ws, (if (length p <? S (length p + length k') - 1)%nat
              then hash (newExt o k' c w) (pre ++ p ++ [x]) else hash c (pre ++ p ++ x :: k')) =
            Ret (hashed (pleaf k' (PFull ts)), ws) /\ pwritten (L ++ ws) (pre ++ p ++ [x]) (pleaf k' (PFull ts)))
      as (ws & E & Hw).
    { unfold hash. destruct k' as [|z k'].
      - cbn [length]. destruct (Nat.ltb_spec (length p) (S (length p + 0) - 1)); [lia|]. by eapply hashRec_spec.
      - destruct (Nat.ltb_spec (length p) (S (length p + length (z :: k')) - 1)) as [_|Hge]; [|cbn in Hge; lia].
        apply (hashRec_spec L _ true).
        + apply rep_ext. by rewrite <- !app_assoc.
        + done. }
    rewrite E. go_ret. rewrite !lookup_app_r, !Nat.sub_diag by lia. cbn [lookup list_lookup of_option]. go_ret.
    destruct (split_spec (L ++ ws) pre p x y k' key' (Some c :: replicate 15 None) (hashed (pleaf k' (PFull ts)))
                (pleaf k' (PFull ts)) v) as (st' & Es & Hr); [lia|lia|done|constructor; [by destruct k'|done]|].
    rewrite Es. go_ret. eexists _, _. split; [done|]. rewrite <- !app_assoc. cbn [app]. by rewrite pinsert_part by lia.
Qed.

(** The child below the first nibble after the insertion, with its subtree. *)
Lemma insert_child L pre (cs : list (option StackTrie)) (ts : list ptrie) j x key' v t oc :
  0 <= x < 16 -> hex_path key' -> v <> [] -> above key' t ->
  cs !! Z.to_nat x = Some oc -> ts !! Z.to_nat x = Some t ->
  (oc = None -> t = PNil) ->
  (forall c, oc = Some c -> Z.to_nat x = j /\ wf t) ->
  (forall c, cs !! j = Some (Some c) -> ts !! j = Some t -> wf t -> above key' t ->
     inserted L c t (pre ++ [Z.of_nat j]) key' v) ->
  exists c' ws, match oc with
      | None => Ret (newLeaf o key' v w, [])
      | Some c => insert c key' v (pre ++ [x])
      end = Ret (c', ws) /\ rep (L ++ ws) (pre ++ [x]) true c' (pinsert t (key' ++ [16]) (PVal v)).2.
Proof.
  intros Hx Hp Hv Ha Hoc Ht Hnone Hsome IH. destruct oc as [c|].
  - destruct (Hsome c eq_refl) as [<- Hw]. rewrite Z2Nat.id in IH by lia. by apply IH.
  - rewrite Hnone by done. eexists _, _. split; [done|]. rewrite app_nil_r.
    assert ((pinsert PNil (key' ++ [16]) (PVal v)).2 = PShort (key' ++ [16]) (PVal v)) as -> by (by destruct key').
    apply rep_leaf.
Qed.

Lemma pinsert_full_at ts x key v t : ts !! Z.to_nat x = Some t -> (pinsert t key v).1 = true ->
  (pinsert (PFull ts) (x :: key) v).2 = PFull (<[Z.to_nat x := (pinsert t key v).2]> ts).
Proof. intros Ht Hd. cbn [pinsert]. rewrite nth_with_lookup, Ht, Hd. done. Qed.

Lemma insert_branch L pre cs ts j key v :
  wf (PFull ts) -> hex_path key -> v <> [] -> above key (PFull ts) ->
  length cs = 16%nat -> length ts = 17%nat -> ts !! 16%nat = Some PNil ->
  (forall i c t, cs !! i = Some (Some c) -> ts !! i = Some t -> rep L (pre ++ [Z.of_nat i]) (true && bool_decide (i = j)) c t) ->
  (forall i c t, cs !! i = Some (Some c) -> ts !! i = Some t -> nonnil t = true) ->
  (forall i, cs !! i = Some None -> ts !! i = Some PNil) ->
  (exists c, cs !! j = Some (Some c)) -> (forall i, (j < i < 16)%nat -> cs !! i = Some None) ->
  (forall c t key', cs !! j = Some (Some c) -> ts !! j = Some t -> wf t -> hex_path key' -> above key' t ->
     inserted L c t (pre ++ [Z.of_nat j]) key' v) ->
  inserted L (ST o branchNode [] [] cs w) (PFull ts) pre key v.
Proof.
  intros Hwf Hp Hv Ha Hlc Hlt H16 Hch Hnn Hnil [cj Hj] Hgt IH.
  destruct (above_full ts key Hwf Ha) as (x & key' & -> & Hlast & Hchild).
  apply Forall_cons in Hp as [Hx Hp]. unfold is_nibble in Hx.
  assert (forall i oc, cs !! i = Some oc -> exists t, ts !! i = Some t) as Hts.
  { intros i oc Hi. apply lookup_lt_is_Some_2. apply lookup_lt_Some in Hi. lia. }
  assert (forall i c, cs !! i = Some (Some c) -> Z.of_nat i <= x) as Hyoung.
  { intros i c Hi. destruct (Hts i _ Hi) as [t Ht]. destruct (Z.le_gt_cases (Z.of_nat i) x) as [?|Hlt']; [done|].
    pose proof (Hnn i c t Hi Ht) as Hn. by rewrite (Hlast i t Ht) in Hn by lia. }
  pose proof (Hyoung j cj Hj) as Hjx.
  destruct (lookup_lt_is_Some_2 cs (Z.to_nat x) ltac:(lia)) as [oc Hoc]. destruct (Hts _ _ Hoc) as [t Ht].
  assert (wf t) as Hwt by (eapply wf_child; [done..|lia]).
  destruct (insert_child L pre cs ts j x key' v t oc) as (c' & ws2 & E2 & Hr2); try done.
  { by apply Hchild. }
  { intros ->. specialize (Hnil _ Hoc). congruence. }
  { intros c ->. split; [|done]. destruct (decide (Z.to_nat x = j)) as [?|Hne]; [done|].
    rewrite Hgt in Hoc by lia. done. }
  { intros c Hc Htj Hwtj Hat. by apply IH. }
  destruct (unresolve_spec L pre cs ts (Z.to_nat x)) as (cs' & ws1 & E1 & Hl1 & Hcs'); [lia| |].
  { intros i c Hi. destruct (Hts i _ Hi) as [ti Hti]. exists ti. split; [done|].
    split; [eapply wf_child; [done..|]; apply lookup_lt_Some in Hi; lia|]. by eapply rep_closed, Hch. }
  unfold inserted. cbn [insert]. cbn [Z.eqb Pos.eqb branchNode lookup list_lookup of_option]. go_ret.
  rewrite E1. go_ret. rewrite nth_with_lookup, Hoc. cbn [drop]. rewrite !drop_0. rewrite E2. go_ret.
  eexists _, _. split; [done|]. cbn [app].
  rewrite (pinsert_full_at ts x (key' ++ [16]) (PVal v) t) by (done || apply above_dirty; try done; by apply Hchild).
  apply (rep_branch _ pre true _ _ (Z.to_nat x)).
  - by rewrite length_insert, Hl1.
  - by rewrite length_insert.
  - by rewrite list_lookup_insert_ne by lia.
  - intros i c ti. destruct (decide (i = Z.to_nat x)) as [->|Hne].
    + rewrite !list_lookup_insert_eq by lia. intros [= <-] [= <-]. rewrite bool_decide_true by done.
      rewrite Z2Nat.id by lia. eapply rep_mono; [|exact Hr2]. set_solver.
    + rewrite !list_lookup_insert_ne by done. rewrite bool_decide_false by done. cbn [andb]. intros Hc Hti.
      destruct (Hcs' i) as [E|(_ & c0 & c1 & t1 & _ & Hc1 & Ht1 & Hr1)].
      * rewrite E in Hc. eapply rep_mono; [|by eapply rep_closed, Hch]. set_solver.
      * rewrite Hc1 in Hc. injection Hc as <-. rewrite Ht1 in Hti. injection Hti as <-.
        eapply rep_mono; [|exact Hr1]. set_solver.
  - intros i c ti. destruct (decide (i = Z.to_nat x)) as [->|Hne].
    + rewrite !list_lookup_insert_eq by lia. intros _ [= <-]. apply rep_inner in Hr2.
      by destruct (pinsert t (key' ++ [16]) (PVal v)).2.
    + rewrite !list_lookup_insert_ne by done. intros Hc Hti.
      destruct (Hcs' i) as [E|(_ & c0 & _ & t1 & Hc0 & _)]; [rewrite E in Hc|]; by eapply Hnn.
  - intros i. destruct (decide (i = Z.to_nat x)) as [->|Hne].
    + by rewrite list_lookup_insert_eq by lia.
    + rewrite !list_lookup_insert_ne by done. intros Hc.
      destruct (Hcs' i) as [E|(_ & c0 & c1 & t1 & _ & Hc1 & _)]; [rewrite E in Hc; by apply Hnil|congruence].
  - exists c'. apply list_lookup_insert_eq. lia.
  - intros i Hi. rewrite list_lookup_insert_ne by lia.
    destruct (Hcs' i) as [->|[? _]]; [|lia]. destruct (cs !! i) as [[c|]|] eqn:E; [|done|].
    + apply Hyoung in E. lia.
    + apply lookup_ge_None in E. lia.
Qed.

Lemma insert_spec L pre b st t : rep L pre b st t -> b = true -> forall key v,
  wf t -> hex_path key -> v <> [] -> above key t -> inserted L st t pre key v.
Proof.
  intros Hr. induction Hr as [p b k u|p b k c ts Hc IH|p b cs ts j Hlc Hlt H16 Hch IH Hnn Hnil Hj Hgt|p t Hi Hw];
    intros Hb key v Hwf Hp Hv Ha; [..|done].
  - destruct Hwf as [(k0 & Hk & [<- _]%app_inj_tail) Hu]. by apply insert_leaf.
  - subst b. apply insert_ext; try done. intros l Hl Hal. apply IH; try done. apply Hwf.
  - subst b. eapply insert_branch; try done. intros c t key' Hc Ht Hwt Hp' Ha'. apply (IH j); try done.
    by rewrite bool_decide_true.
Qed.
End rep.

(** ** From byte keys to nibbles *)

Definition nibbles (k : list Z) : list Z := flat_map (fun b => [b / 16; b mod 16]) k.

Lemma below_nibbles a b : bytes a -> bytes b -> below a b -> below (nibbles a ++ [16]) (nibbles b).
Proof.
  intros Ha Hb (p & x & y & a' & b' & -> & -> & Hlt).
  apply Forall_app in Ha as [_ [Hx _]%Forall_cons]. apply Forall_app in Hb as [_ [Hy _]%Forall_cons].
  unfold is_byte in *. unfold nibbles. rewrite !flat_map_app. cbn [flat_map app]. rewrite <- !app_assoc. cbn [app].
  destruct (decide (x / 16 = y / 16)) as [E|Hne].
  - exists (flat_map (fun b => [b / 16; b mod 16]) p ++ [x / 16]), (x mod 16), (y mod 16). rewrite E. do 2 eexists.
    rewrite <- !app_assoc. cbn [app]. do 2 (split; [done|]).
    pose proof (Z.div_mod x 16 ltac:(lia)). pose proof (Z.div_mod y 16 ltac:(lia)). lia.
  - exists (flat_map (fun b => [b / 16; b mod 16]) p), (x / 16), (y / 16). do 2 eexists. do 2 (split; [done|]).
    pose proof (Z.div_le_mono x y 16 ltac:(lia) ltac:(lia)). lia.
Qed.

(** ** Building a trie *)

(** Bindings in ascending order, no key a prefix of another. *)
Record ascending (kvs : list (list Z * list Z)) : Prop := {
  asc_bytes : Forall (fun kv => bytes kv.1 /\ kv.2 <> []) kvs;
  asc_sorted : forall i j a b, (i < j)%nat -> kvs.*1 !! i = Some a -> kvs.*1 !! j = Some b -> below a b;
}.

Section build.
Context `{RLPLaws} `{EthCommon} `{!HashLaws} (w : bool).

(** A sequence of updates, with all their writes. *)
Fixpoint Updates (st : StackTrie) (kvs : list (list Z * list Z)) : outcome (StackTrie * list write) :=
  match kvs with
  | [] => Ret (st, [])
  | (k, v) :: kvs => '(st, ws) ← Update st k v; '(st, ws') ← Updates st kvs; Ret (st, ws ++ ws')
  end.

(** The stack trie stands for [t]: it is new, or a node that is still open. *)
Definition stands (L : list write) (st : StackTrie) (t : ptrie) : Prop :=
  (t = PNil /\ st = NewStackTrie w) \/ rep zero_owner w L [] true st t.

Lemma st_Update_spec L st t m k v :
  stands L st t -> pt_holds t m -> bytes k -> v <> [] -> (forall k' v', m !! k' = Some v' -> below k' k) ->
  exists st' ws t', Update st k v = Ret (st', ws) /\ stands (L ++ ws) st' t' /\ pt_holds t' (<[k := v]> m).
Proof.
  intros Hst Hh Hb Hv Hab. pose proof (pt_holds_insert t m k v Hh Hb Hv) as Hh'.
  assert (take (length (keybytesToHex k) - 1) (keybytesToHex k) = nibbles k) as Hk by apply last_take_minus_one.
  assert (hex_path (nibbles k)) as Hp by (by apply flat_map_nibbles).
  change (keybytesToHex k) with (nibbles k ++ [16]) in Hh'.
  unfold Update. rewrite Hk. destruct v as [|v0 v]; [done|]. destruct Hst as [[-> ->]|Hr].
  - eexists _, [], _. split; [done|]. split; [|exact Hh']. right.
    assert ((pinsert PNil (nibbles k ++ [16]) (PVal (v0 :: v))).2 = PShort (nibbles k ++ [16]) (PVal (v0 :: v))) as ->
      by (by destruct (nibbles k)). apply rep_leaf.
  - destruct (insert_spec zero_owner w L [] true st t Hr eq_refl (nibbles k) (v0 :: v)) as (st' & ws & E & Hr');
      [apply Hh|done|done| |].
    + intros q u Hq Hg. destruct (holds_keys t m Hh q u Hq Hg) as (k' & Hb' & ->).
      apply (below_nibbles k' k); [done..|]. apply (Hab _ u). by rewrite <- (holds_get t m Hh k').
    + eexists _, _, _. split; [exact E|]. split; [by right|done].
Qed.

Lemma Updates_spec kvs : forall L st t m,
  stands L st t -> pt_holds t m -> ascending kvs ->
  (forall k v k' v', (k, v) ∈ kvs -> m !! k' = Some v' -> below k' k) ->
  exists st' ws t', Updates st kvs = Ret (st', ws) /\ stands (L ++ ws) st' t' /\ pt_holds t' (list_to_map kvs ∪ m).
Proof.
  induction kvs as [|[k v] kvs IH]; intros L st t m Hst Hh [Hb Hs] Hab.
  - exists st, [], t. rewrite app_nil_r, list_to_map_nil, (left_id_L ∅ (∪)). done.
  - apply Forall_cons in Hb as [[Hk Hv] Hb]. cbn [fst snd] in *.
    destruct (st_Update_spec L st t m k v) as (st1 & ws1 & t1 & E1 & Hst1 & Hh1); try done.
    { intros k' v' Hm. apply (Hab k v k' v'); [left|done]. }
    assert (forall b u, (b, u) ∈ kvs -> below k b) as Hkb.
    { intros b u Hin. apply (list_elem_of_fmap_2 fst) in Hin. cbn in Hin. apply list_elem_of_lookup in Hin as [i Hi].
      by apply (Hs 0%nat (S i)); [lia| |]. }
    destruct (IH (L ++ ws1) st1 t1 (<[k := v]> m) Hst1 Hh1) as (st2 & ws2 & t2 & E2 & Hst2 & Hh2).
    { split; [done|]. intros i j a b Hij Ha Hbj. apply (Hs (S i) (S j)); [lia|done..]. }
    { intros b u k' v' Hin [[<- _]|[_ Hm]]%lookup_insert_Some; [by apply (Hkb b u)|].
      apply (Hab b u k' v'); [by right|done]. }
    exists st2, (ws1 ++ ws2), t2. cbn [Updates]. rewrite E1. go_ret. cbv iota. rewrite E2. go_ret. rewrite app_assoc.
    split; [done|]. split; [done|]. rewrite list_to_map_cons, <- insert_union_l. 
    assert ((list_to_map kvs : gmap (list Z) (list Z)) !! k = None) as Hnone.
    { apply not_elem_of_list_to_map. intros ([b u] & -> & Hin)%list_elem_of_fmap. cbn [fst] in *.
      apply (below_prefix b []). rewrite app_nil_r. by apply (Hkb b u). }
    by rewrite insert_union_r.
Qed.

Lemma stands_hash L st t : stands L st t -> wf t ->
  exists ws, hashRec st [] = Ret (match t with PNil => ST zero_owner hashedNode EmptyRootHash [] no_children w
                                  | _ => hashed zero_owner w t end, ws) /\ pwritten zero_owner w (L ++ ws) [] t.
Proof.
  intros [[-> ->]|Hr] Hw; [exists []; split; [done|constructor]|].
  destruct (hashRec_spec zero_owner w L [] true st t Hr Hw) as (ws & E & Hp). exists ws. split; [|done].
  apply rep_inner in Hr. by destruct t.
Qed.

Lemma root_of_hashed t : wf t -> t <> PNil ->
  (if (length (short_val t) =? 32)%nat then short_val t else keccak256 (short_val t)) = root_hash t.
Proof.
  intros Hw Hn. unfold short_val, root_hash. destruct (Nat.ltb_spec (length (penc t)) 32) as [Hlt|Hge].
  - destruct (Nat.eqb_spec (length (penc t)) 32); [lia|]. by destruct t.
  - rewrite keccak256_length. by destruct t.
Qed.

Lemma EmptyRootHash_length : length EmptyRootHash = 32%nat.
Proof. rewrite EmptyRootHash_keccak. apply keccak256_length. Qed.

Lemma Hash_stands L st t : stands L st t -> wf t ->
  exists st' ws, Hash st = Ret (root_hash t, st', ws).
Proof.
  intros Hs Hw. destruct (stands_hash L st t Hs Hw) as (ws & E & _). unfold Hash. rewrite E. go_ret.
  destruct (pnil t) eqn:En.
  - destruct t; try done. cbn [st_val]. rewrite EmptyRootHash_length. by eexists _, _.
  - assert (match t with PNil => ST zero_owner hashedNode EmptyRootHash [] no_children w
            | _ => hashed zero_owner w t end = hashed zero_owner w t) as -> by (by destruct t).
    cbn [st_val hashed]. rewrite <- (root_of_hashed t); [|done|by intros ->].
    destruct (length (short_val t) =? 32)%nat; by eexists _, _.
Qed.

(** The nodes written, by hash. *)
Definition written (W : list write) (h b : list Z) : Prop := exists p, (zero_owner, p, h, b) ∈ W.

Lemma pwritten_stored W p t r : w = true -> pwritten zero_owner w W p t ->
  (r = true -> pinner t = true -> written W (keccak256 (penc t)) (penc t)) -> pstored (written W) r t.
Proof.
  intros Hw Hp. revert r. induction Hp as [p|p v|p k c Hd _ IH|p cs Hd _ IH]; intros r Hroot; constructor.
  - intros [->|Hlen]; [by apply Hroot|]. destruct (Hd Hlen) as [?|Hin]; [congruence|]. by exists p.
  - by apply IH.
  - intros [->|Hlen]; [by apply Hroot|]. destruct (Hd Hlen) as [?|Hin]; [congruence|]. by exists p.
  - intros i c Hc. by apply (IH i).
Qed.

Lemma Commit_stands L st t : w = true -> stands L st t -> wf t ->
  exists st' ws, Commit st = Ret (Ok (root_hash t), st', ws) /\ pwritten zero_owner w (L ++ ws) [] t /\
    (t <> PNil -> (zero_owner, [], root_hash t, penc t) ∈ L ++ ws).
Proof.
  intros Hwr Hs Hw. destruct (stands_hash L st t Hs Hw) as (ws & E & Hp). unfold Commit.
  assert (st_writeFn st = true) as ->.
  { destruct Hs as [[_ ->]|Hr]; [done|]. by inversion Hr. }
  cbn [negb]. rewrite E. go_ret. destruct (pnil t) eqn:En.
  - destruct t; try done. cbn [st_val]. rewrite EmptyRootHash_length. cbn [Nat.eqb]. by eexists _, _.
  - assert (match t with PNil => ST zero_owner hashedNode EmptyRootHash [] no_children w
            | _ => hashed zero_owner w t end = hashed zero_owner w t) as -> by (by destruct t).
    cbn [st_val st_owner hashed]. rewrite <- (root_of_hashed t); [|done|by intros ->].
    assert (pinner t = true) as Hi by (by destruct t).
    destruct (Nat.eqb_spec (length (short_val t)) 32) as [El|Hne].
    + eexists _, ws. split; [done|]. split; [done|]. intros _.
      assert (32 <= length (penc t))%nat as Hlen.
      { revert El. unfold short_val. destruct (Nat.ltb_spec (length (penc t)) 32); lia. }
      assert (short_val t = keccak256 (penc t)) as ->.
      { unfold short_val. by destruct (Nat.ltb_spec (length (penc t)) 32); [lia|]. }
      assert (logged zero_owner w (L ++ ws) [] (keccak256 (penc t)) (penc t)) as [?|?] by (inversion Hp; subst; auto; done);
        [congruence|done].
    + assert (short_val t = penc t) as ->.
      { revert Hne. unfold short_val. destruct (Nat.ltb_spec (length (penc t)) 32); [done|]. by rewrite keccak256_length. }
      eexists _, _. split; [done|]. split; [|set_solver]. eapply pwritten_mono; [|exact Hp]. set_solver.
Qed.
End build.

Section theorems.
Context `{RLPLaws} `{EthCommon} `{!HashLaws} (clean : list Z -> ptrie -> Prop).
#[local] Instance flags_stack : FlagSpec := hash_flags clean.

(** C27. The stack trie agrees with the trie: after updates with keys in ascending
    order, none a prefix of another, none of which panics, [Hash] returns the
    root hash that the ordinary trie returns for the same bindings, with or
    without a writer. *)
Theorem StackTrie_agrees (kvs : list (list Z * list Z)) (w : bool) :
  ascending kvs ->
  exists st ws h st' ws', Updates (NewStackTrie w) kvs = Ret (st, ws) /\ Hash st = Ret (h, st', ws') /\
    forall t, trie_rep t (list_to_map kvs) -> exists t', Hasher.Hash t = Ret (h, t').
Proof.
  intros Ha. destruct (Updates_spec w kvs [] (NewStackTrie w) PNil ∅) as (st & ws & t & E & Hs & Hh);
    [by left|apply pt_holds_empty|done|by intros ? ? ? ? _ Hm%lookup_empty_Some|].
  rewrite (right_id_L ∅ (∪)) in Hh. destruct (Hash_stands w _ st t Hs (holds_wf _ _ Hh)) as (st' & ws' & E').
  exists st, ws, (root_hash t), st', ws'. do 2 (split; [done|]). intros tr (pt & He & Hpt).
  destruct (Hash_spec clean tr _ pt (conj He Hpt)) as (tr' & Et & _).
  rewrite (pt_holds_unique t pt _ Hh Hpt). by exists tr'.
Qed.

(** Committing a stack trie stores a trie: the nodes handed to the writer
    during the updates and by [Commit] are those of the trie with the same
    bindings, each at its path, and [New] on the returned root over a reader that
    serves them yields a trie with exactly these bindings. *)
Theorem StackTrie_commit (kvs : list (list Z * list Z)) :
  ascending kvs ->
  exists st ws h st' ws', Updates (NewStackTrie true) kvs = Ret (st, ws) /\ Commit st = Ret (Ok h, st', ws') /\
    (exists pt, pt_holds pt (list_to_map kvs) /\ h = root_hash pt /\ pwritten zero_owner true (ws ++ ws') [] pt) /\
    forall GetReader r, proper_root h (list_to_map kvs) -> GetReader h = Some r -> serves r (written (ws ++ ws')) ->
    exists t, New (TrieID h) GetReader = Ret (Ok t) /\
      @trie_rep _ _ (hash_flags (clean_stored (solid (written (ws ++ ws'))))) t (list_to_map kvs).
Proof.
  intros Ha. destruct (Updates_spec true kvs [] (NewStackTrie true) PNil ∅) as (st & ws & t & E & Hs & Hh);
    [by left|apply pt_holds_empty|done|by intros ? ? ? ? _ Hm%lookup_empty_Some|].
  rewrite (right_id_L ∅ (∪)) in Hh. cbn [app] in Hs.
  destruct (Commit_stands true _ st t eq_refl Hs (holds_wf _ _ Hh)) as (st' & ws' & E' & Hp & Hroot).
  exists st, ws, (root_hash t), st', ws'. do 2 (split; [done|]). split; [by exists t|]. intros GetReader r Hpr Hg Hr.
  destruct (New_spec (written (ws ++ ws')) (root_hash t) (list_to_map kvs) t GetReader r) as (tr & En & _ & Ht); try done.
  - apply (pwritten_stored true _ [] t true eq_refl Hp). intros _ Hi. exists []. rewrite <- pinner_root_hash by done.
    apply Hroot. by intros ->.
  - by exists tr.
Qed.
End theorems.

(** ** Serialization *)

Section stack_ind.
Context (P : StackTrie -> Prop).
Context (Hst : forall o t v k cs w, (forall i c, cs !! i = Some (Some c) -> P c) -> P (ST o t v k cs w)).

Fixpoint stack_nested_ind (st : StackTrie) : P st :=
  let 'ST o t v k cs w := st in
  Hst o t v k cs w
    ((fix go (l : list (option StackTrie)) : forall i c, l !! i = Some (Some c) -> P c :=
        match l with
        | [] => fun i c E => match E in _ = x return match x with Some _ => P c | None => True end with eq_refl => I end
        | x :: l => fun i =>
            match i with
            | O => match x with
                   | Some y => fun c E => match E in _ = z return match z with Some (Some u) => P u | _ => True end with
                                          eq_refl => stack_nested_ind y end
                   | None => fun c E => False_ind _ (eq_ind (Some None) (fun z => match z with Some None => True | _ => False end) I _ E)
                   end
            | S i => fun c E => go l i c E
            end
        end) cs).
End stack_ind.

(** The children are an array of sixteen pointers. *)
Inductive shaped : StackTrie -> Prop :=
| shaped_node o t v k cs w :
    length cs = 16%nat -> (forall i c, cs !! i = Some (Some c) -> shaped c) -> shaped (ST o t v k cs w).

(** The decoder reads back what the encoder wrote, and leaves the rest. *)
Class HeaderGobLaws `{HeaderGob} : Prop := {
  header_roundtrip : forall h r, header_dec (header_enc h ++ r) = Some (h, r);
}.

Section roundtrip.
Context `{HeaderGobLaws}.

Definition child_bytes (child : option StackTrie) : list Z :=
  match child with None => [0] | Some child => 1 :: MarshalBinary child end.

Lemma read_children_spec read cs r :
  (forall i c r, cs !! i = Some (Some c) -> read (MarshalBinary c ++ r) = Some (setWriter c false, r)) ->
  read_children read (length cs) (flat_map child_bytes cs ++ r) =
    Some (map (fun c => match c with Some c => Some (setWriter c false) | None => None end) cs, r).
Proof.
  induction cs as [|oc cs IH]; intros Hr; [done|]. cbn [length read_children flat_map].
  assert (forall i c r, cs !! i = Some (Some c) -> read (MarshalBinary c ++ r) = Some (setWriter c false, r)) as Hr'.
  { intros i c r' Hc. by apply (Hr (S i)). }
  destruct oc as [c|]; cbn [child_bytes app].
  - cbn [Z.eqb]. rewrite <- app_assoc, (Hr 0%nat c _ eq_refl). cbn [mbind option_bind]. by rewrite (IH Hr').
  - cbn [Z.eqb]. by rewrite (IH Hr').
Qed.

Lemma child_bytes_length cs i c : cs !! i = Some (Some c) ->
  (length (MarshalBinary c) < length (flat_map child_bytes cs))%nat.
Proof.
  revert i. induction cs as [|oc cs IH]; intros [|i] E; [done..| |].
  - injection E as ->. cbn [flat_map child_bytes]. rewrite length_app. cbn. lia.
  - cbn [flat_map]. rewrite length_app. specialize (IH i E). lia.
Qed.

Lemma unmarshal_spec st : shaped st -> forall fuel r, (length (MarshalBinary st) < fuel)%nat ->
  unmarshalBinary fuel (MarshalBinary st ++ r) = Some (setWriter st false, r).
Proof.
  induction st as [o t v k cs w IH] using stack_nested_ind. intros Hsh [|fuel] r Hf; [lia|].
  inversion Hsh as [? ? ? ? ? ? Hlen Hc]; subst. cbn [unmarshalBinary MarshalBinary setWriter].
  change (flat_map _ cs) with (flat_map child_bytes cs). rewrite <- app_assoc, header_roundtrip.
  cbn [mbind option_bind]. rewrite <- Hlen.
  cbn [MarshalBinary] in Hf. change (flat_map _ cs) with (flat_map child_bytes cs) in Hf. rewrite length_app in Hf.
  rewrite read_children_spec; [done|]. intros i c r' Hi. apply (IH i c Hi (Hc i c Hi)).
  pose proof (child_bytes_length cs i c Hi). lia.
Qed.

Lemma setWriter_twice st : forall a b, setWriter (setWriter st a) b = setWriter st b.
Proof.
  induction st as [o t v k cs w IH] using stack_nested_ind. intros a b. cbn [setWriter]. f_equal.
  rewrite map_map. apply list_eq. intros i. rewrite !list_lookup_fmap. destruct (cs !! i) as [[c|]|] eqn:E; [|done..].
  cbn. do 2 f_equal. by apply (IH i).
Qed.

(** A serialized stack trie is read back: for every stack trie, whatever is
    built, hashed or still open in it, reading the bytes of [MarshalBinary] gives
    the same trie, with the given writer in every node. *)
Theorem NewFromBinary_roundtrip (st : StackTrie) (w : bool) :
  shaped st -> NewFromBinary (MarshalBinary st) w = Some (setWriter st w).
Proof.
  intros Hs. unfold NewFromBinary, UnmarshalBinary.
  pose proof (unmarshal_spec st Hs (S (length (MarshalBinary st))) [] ltac:(lia)) as E. rewrite app_nil_r in E.
  rewrite E. cbn [mbind option_bind]. destruct w; [|done]. by rewrite setWriter_twice.
Qed.
End roundtrip.

(** ** A concrete stack trie *)

Module StackSample.
#[local] Existing Instance RLPSample.rlp.
#[local] Existing Instance RLPSample.env.
#[local] Existing Instance RLPSample.eth.
#[local] Existing Instance RLPSample.rlp_laws.
#[local] Existing Instance RLPSample.hash_laws.

(** Three keys that share nibbles, so that a leaf, an extension and a branch are
    split. *)
Definition kvs : list (list Z * list Z) := [([18; 52], [1]); ([18; 53], [2]); ([18; 80], [3]); ([33; 1], [4])].

Lemma kvs_ascending : ascending kvs.
Proof.
  split; [repeat constructor; unfold is_byte; cbn; done || lia|].
  intros i j a b Hij Ha Hb.
  destruct i as [|[|[|[|i]]]], j as [|[|[|[|j]]]]; try lia; cbn in Ha, Hb; try discriminate;
    injection Ha as <-; injection Hb as <-;
    first [exists [], 18, 33; do 2 eexists; split; [reflexivity|]; split; [reflexivity|lia]
          |exists [18]; do 4 eexists; split; [reflexivity|]; split; [reflexivity|lia]].
Qed.

Lemma StackTrie_agrees_witness :
  exists st ws h st' ws', Updates (NewStackTrie false) kvs = Ret (st, ws) /\ Hash st = Ret (h, st', ws') /\
    forall t, @trie_rep _ _ (hash_flags (fun _ _ => True)) t (list_to_map kvs) -> exists t', Hasher.Hash t = Ret (h, t').
Proof. exact (StackTrie_agrees (fun _ _ => True) kvs false kvs_ascending). Defined.

Lemma StackTrie_commit_witness :
  exists st ws h st' ws', Updates (NewStackTrie true) kvs = Ret (st, ws) /\ Commit st = Ret (Ok h, st', ws') /\
    exists pt, pt_holds pt (list_to_map kvs) /\ h = root_hash pt /\ pwritten zero_owner true (ws ++ ws') [] pt.
Proof.
  destruct (StackTrie_commit kvs kvs_ascending) as (st & ws & h & st' & ws' & E & E' & Hp & _).
  exists st, ws, h, st', ws'. split; [exact E|]. split; [exact E'|exact Hp].
Defined.

(** A header codec: each list behind its length. *)
Definition put_list (l : list Z) : list Z := Z.of_nat (length l) :: l.
Definition get_list (r : list Z) : option (list Z * list Z) :=
  match r with n :: r => Some (take (Z.to_nat n) r, drop (Z.to_nat n) r) | [] => None end.

Lemma get_put l r : get_list (put_list l ++ r) = Some (l, r).
Proof. cbn. by rewrite Nat2Z.id, take_app_length, drop_app_length. Qed.

#[local] Instance header_gob : HeaderGob := {|
  header_enc := fun '(o, t, v, k) => put_list o ++ t :: put_list v ++ put_list k;
  header_dec := fun r =>
    '(o, r) ← get_list r;
    match r with
    | [] => None
    | t :: r => '(v, r) ← get_list r; '(k, r) ← get_list r; Some (o, t, v, k, r)
    end;
|}.

#[local] Instance header_gob_laws : HeaderGobLaws.
Proof.
  constructor. intros [[[o t] v] k] r. unfold header_dec, header_enc, header_gob. rewrite <- app_assoc, get_put.
  cbn [mbind option_bind]. rewrite <- app_comm_cons. cbv iota. rewrite <- app_assoc, get_put. cbn [mbind option_bind].
  rewrite get_put. done.
Qed.

Definition open_trie : StackTrie := match Updates (NewStackTrie false) kvs with Ret (st, _) => st | Panic => NewStackTrie false end.

Fixpoint is_shaped (st : StackTrie) : bool :=
  let 'ST _ _ _ _ cs _ := st in
  (length cs =? 16)%nat && forallb (fun c => match c with Some c => is_shaped c | None => true end) cs.

Lemma is_shaped_spec st : is_shaped st = true -> shaped st.
Proof.
  induction st as [o t v k cs w IH] using stack_nested_ind. cbn [is_shaped].
  intros [Hl Hf]%andb_true_iff. constructor; [by apply Nat.eqb_eq|]. intros i c Hi. apply (IH i c Hi).
  rewrite forallb_forall in Hf. apply (Hf (Some c)). apply list_elem_of_In. by eapply list_elem_of_lookup_2.
Qed.

Lemma NewFromBinary_roundtrip_witness :
  NewFromBinary (MarshalBinary open_trie) true = Some (setWriter open_trie true).
Proof. apply NewFromBinary_roundtrip. apply is_shaped_spec. vm_compute. reflexivity. Defined.
End StackSample.
