(* ===== verification/OnChain.v ===== *)
(** * Looking a transaction up on the chain ([TxOnChainVerify] of
      [chain/blockchain.go] and [chain/blockchain_MemoryMPT.go])

    The two functions have the same body: they walk down from the current block,
    skip blocks whose Bloom filter has no bit for the transaction, rebuild the
    transaction trie of any other block and return a Merkle proof from it.  Proved
    here: which block they stop at.  That is the first one with the bit set, since
    a proof of absence is taken for a proof of presence. *)

From stdpp Require Import base gmap strings list sorting.
From Stdlib Require Import ZArith Lia.
From S2P Require Import Prelude Encoding TrieSpec Node Trie TrieMap Hasher Committer Reload Database Core Storage Chain.
From S2P Require Import ChainMem MerkleProof.

Local Open Scope Z_scope.

(** The entries of a memory database in the order of its iterator. *)
Definition entry_le (a b : list Z * list Z) : Prop := path_leb a.1 b.1 = true.
#[local] Instance entry_le_dec a b : Decision (entry_le a b) := decide (path_leb a.1 b.1 = true).
Definition entries (db : proofDb) : list (list Z * list Z) := merge_sort entry_le (map_to_list db).

Section on_chain.
Context `{EthDB} `{FastCache} `{HashEnv} `{EthCommon} `{RLP} `{StateAccountRLP} `{!MemoryDB}.
Context `{Bolt} `{Gob AccountState} `{Gob Transaction} `{Gob Block} `{Gob BlockHeader}.
Context `{Sha256} `{Params}.

(** [hashReader.Node]: a missing node is nil, without an error. *)
Definition hashReader_Node (db : Database) (o p h : list Z) : outcome (res string node) :=
  '(n, _) ← db_node db h; Ret (Ok n).

(** Found; a message or the block hash; transaction root; height; keys; values. *)
Definition verify_result : Type := bool * list Z * option (list Z) * Z * list (list Z) * list (list Z).

(** [common.Hash(b)] of a slice. *)
Definition to_hash (b : list Z) : outcome (list Z) := if (length b <? 32)%nat then Panic else Ret (take 32 b).

(** One block whose Bloom filter has the bit: the answer, or [None] to go on with
    the parent. *)
Definition check_block (block : Block) (nowblockHash txhash : list Z) (height : Z) : outcome (option verify_result) :=
  let db := NewDatabase NewMemoryDatabase in
  transactionTree ← NewEmpty db;
  transactionTree ← ofold (fun st tx => put st (TxHash tx) (Tx_Encode tx)) transactionTree (Body block);
  '(h, transactionTree) ← Hash transactionTree;
  if negb (bool_decide (h = TxRoot (Header block))) then
    Ret (Some (false, string_bytes "err Tx root", None, 0, [], []))
  else
    r ← Prove (hashReader_Node db) transactionTree txhash 0 ∅;
    match r with
    | Err _ => Ret None
    | Ok proof =>
        let l := entries proof in
        rootHash ← to_hash (TxRoot (Header block));
        v ← VerifyProof rootHash txhash (foldl (fun m e => <[e.1 := e.2]> m) (∅ : proofDb) l);
        match v with
        | Err _ => Ret (Some (false, string_bytes "err verify", None, 0, l.*1, l.*2))
        | Ok _ => Ret (Some (true, nowblockHash, Some (TxRoot (Header block)), height, l.*1, l.*2))
        end
    end.

(** From the block with hash [nowblockHash] at height [n] downwards. *)
Fixpoint on_chain_loop (n : nat) (s : Storage) (nowblockHash txhash : list Z) (bit : Z) : outcome verify_result :=
  match n with
  | O => Ret (false, string_bytes "no block has this tx", None, 0, [], [])
  | S n' =>
      r ← GetBlock s nowblockHash;
      match r with
      | Err e => Ret (false, string_bytes e, None, 0, [], [])
      | Ok block =>
          if negb (bool_decide (bit ∈ BloomFilter (Header block))) then
            on_chain_loop n' s (ParentBlockHash (Header block)) txhash bit
          else
            o ← check_block block nowblockHash txhash (Z.of_nat n);
            match o with
            | Some res => Ret res
            | None => on_chain_loop n' s (ParentBlockHash (Header block)) txhash bit
            end
      end
  end.

Definition on_chain_verify (s : Storage) (cur : Block) (txhash : list Z) : outcome verify_result :=
  bitMapIdxofTx ← ModBytes txhash 2048;
  on_chain_loop (Z.to_nat (Number (Header cur))) s (b_Hash cur) txhash bitMapIdxofTx.

Definition TxOnChainVerify (bc : BlockChain_dbMPT) (txhash : list Z) : outcome verify_result :=
  on_chain_verify (Storage_ bc) (CurrentBlock bc) txhash.
Definition mb_TxOnChainVerify (bc : BlockChain) (txhash : list Z) : outcome verify_result :=
  on_chain_verify (mb_Storage bc) (mb_CurrentBlock bc) txhash.
End on_chain.

(** Writing the entries back gives the database. *)
Lemma put_entries (l : list (list Z * list Z)) : NoDup l.*1 -> forall m : proofDb,
  foldl (fun m e => <[e.1 := e.2]> m) m l = list_to_map l ∪ m.
Proof.
  induction l as [|[k v] l IH]; intros Hnd m; [cbn [foldl]; rewrite list_to_map_nil; by rewrite (left_id_L ∅ (∪))|].
  cbn [fmap list_fmap fst] in Hnd. apply NoDup_cons in Hnd as [Hk Hnd]. cbn [foldl fst snd list_to_map].
  rewrite IH by done. change (list_to_map ((k, v) :: l)) with (<[k := v]> (list_to_map l : proofDb)).
  rewrite <- insert_union_l, insert_union_r; [done|]. by apply not_elem_of_list_to_map_1.
Qed.

Lemma entries_back (db : proofDb) : foldl (fun m e => <[e.1 := e.2]> m) (∅ : proofDb) (entries db) = db.
Proof.
  assert (entries db ≡ₚ map_to_list db) as Hp by apply merge_sort_Permutation.
  assert (NoDup (entries db).*1) as Hnd by (rewrite Hp; apply NoDup_fst_map_to_list).
  rewrite (put_entries _ Hnd), (right_id_L ∅ (∪)). etrans; [|apply list_to_map_to_list]. by apply list_to_map_proper.
Qed.

Section correct.
Context `{EthDB} `{FastCache} `{RLPLaws} `{EthCommon} `{!HashLaws} `{!CollisionFree}.
Context `{!EthDBLaws} `{StateAccountRLP} `{!MemoryDB} `{Bolt}.
Context `{Gob AccountState} `{Gob Transaction} `{Gob Block} `{Gob BlockHeader} `{Sha256} `{Params}.

(** A trie on a fresh memory database never has a hash node to load. *)
Lemma put_reader st k v st' : put st k v = Ret st' -> reader st' = reader st.
Proof.
  unfold put, Trie.Update, update. intros ([r t] & E & [= <-])%outcome_bind_Ret. revert E.
  case_match; unfold set_root; repeat case_match; by intros [= _ <-].
Qed.

Lemma put_all_reader txs : forall st st',
  ofold (fun st tx => put st (TxHash tx) (Tx_Encode tx)) st txs = Ret st' -> reader st' = reader st.
Proof.
  induction txs as [|tx txs IH]; intros st st'; [by intros [= <-]|]. cbn [ofold].
  intros (st1 & E1 & E)%outcome_bind_Ret. rewrite (IH _ _ E). by eapply put_reader.
Qed.

Lemma memory_load p h :
  load (mkTrieReader zero_hash (GetReader (NewDatabase NewMemoryDatabase) zero_hash) None) p h = None.
Proof.
  unfold load, nodeBlob, is_banned, GetReader. cbn [banned tr_reader NodeBlob tr_owner].
  assert ((Database.Node (NewDatabase NewMemoryDatabase) (BytesToHash h)).1 = Err "not found"%string) as ->; [|done].
  unfold Database.Node, NewDatabase, NewDatabaseWithConfig. case_bool_decide as Ez; [done|].
  cbn [cleans dirties diskdb mbind option_bind].
  rewrite lookup_singleton_ne by congruence. by rewrite NewMemoryDatabase_empty.
Qed.

(** ** Sealed blocks *)

(** The header commits to the body: its transaction root and its Bloom filter. *)
Record sealed (b : Block) : Prop := {
  sealed_bytes : Forall (fun tx => bytes (TxHash tx)) (Body b);
  sealed_root : GetTxTreeRoot (Body b) = Ret (TxRoot (Header b));
  sealed_bloom : GetBloomFilter (Body b) = Ret (BloomFilter (Header b));
}.

Definition bloom_bit (h : list Z) : Z := big_endian h mod 2048.

Lemma bloom_fold txs : forall bs : gset Z,
  ofold (fun bs tx => i ← ModBytes (TxHash tx) 2048; Ret ({[ i ]} ∪ bs)) bs txs =
    Ret (list_to_set ((fun tx => bloom_bit (TxHash tx)) <$> reverse txs) ∪ bs).
Proof.
  induction txs as [|tx txs IH]; intros bs; [cbn; by rewrite (left_id_L ∅ (∪))|]. cbn [ofold]. unfold ModBytes.
  cbn [Z.eqb Pos.eqb]. go_ret. rewrite IH. f_equal. rewrite reverse_cons, fmap_app, list_to_set_app_L. cbn.
  unfold bloom_bit. set_solver.
Qed.

Lemma bloom_elem b bit : sealed b ->
  bit ∈ BloomFilter (Header b) <-> exists tx, tx ∈ Body b /\ bloom_bit (TxHash tx) = bit.
Proof.
  intros [_ _ E]. unfold GetBloomFilter in E. rewrite bloom_fold in E. injection E as <-.
  rewrite (right_id_L ∅ (∪)), elem_of_list_to_set, list_elem_of_fmap. split.
  - intros (tx & -> & Hin). exists tx. by rewrite elem_of_reverse in Hin.
  - intros (tx & Hin & <-). exists tx. by rewrite elem_of_reverse.
Qed.

Lemma map_update_ne (m : gmap (list Z) (list Z)) k v : v <> [] -> map_update m k v <> ∅.
Proof. unfold map_update. destruct v; [done|]. intros _. apply insert_non_empty. Qed.

Lemma tx_map_ne txs tx : tx ∈ txs -> tx_map txs <> ∅.
Proof.
  intros Hin. destruct txs as [|tx' txs _] using rev_ind; [by apply not_elem_of_nil in Hin|].
  unfold tx_map. rewrite foldl_app. apply map_update_ne, gob_nonempty.
Qed.

(** ** One block *)

(** What is returned for the block [b], with a proof. *)
Definition found_in (b : Block) (txhash : list Z) (o : verify_result) : Prop :=
  exists proof, o = (true, b_Hash b, Some (TxRoot (Header b)), Number (Header b), (entries proof).*1, (entries proof).*2) /\
    hashed_db proof /\ VerifyProof (TxRoot (Header b)) txhash proof = Ret (Ok (tx_map (Body b) !! txhash)).

Lemma check_block_spec b txhash :
  sealed b -> bloom_bit txhash ∈ BloomFilter (Header b) -> bytes txhash ->
  exists o, check_block b (b_Hash b) txhash (Number (Header b)) = Ret (Some o) /\ found_in b txhash o.
Proof.
  intros Hs Hbit Hb. destruct (proj1 (bloom_elem b _ Hs) Hbit) as (tx & Htx & _).
  destruct Hs as [Hbs Hr _]. unfold check_block. set (db := NewDatabase NewMemoryDatabase).
  destruct (NewEmpty_spec db) as (t & E & Ht). unfold GetTxTreeRoot in Hr. fold db in Hr. rewrite E in *. revert Hr. go_ret.
  destruct (put_all_spec db PNil (Body b) t ∅ Hbs Ht) as (t1 & E1 & [Ht1 _]). rewrite E1. go_ret.
  destruct Ht1 as (pt & He & Hh).
  destruct (Hash_spec (opened db PNil) t1 (tx_map (Body b)) pt) as (t2 & Eh & Hrep & _ & Hrd & _); [by split|].
  rewrite Eh. go_ret. unfold found_in. intros [= <-]. rewrite bool_decide_true by done. cbn [negb].
  assert (reader t2 = mkTrieReader zero_hash (GetReader db zero_hash) None) as Hread.
  { rewrite Hrd, (put_all_reader _ _ _ E1). revert E. unfold NewEmpty, New. cbn. by intros [= <-]. }
  destruct (prove_then_verify (opened db PNil) (hashReader_Node db) t2 _ pt txhash ∅ Hrep) as (proof & Ep & Hd & Ev).
  - by eapply tx_map_ne.
  - done.
  - by intros h v Hx%lookup_empty_Some.
  - rewrite Hread. intros p h s Hx. inversion Hx as [| | | |? ? n ? _ Hl _ _]; subst.
    by rewrite memory_load in Hl.
  - rewrite Ep. unfold to_hash.
    assert (length (root_hash pt) = 32%nat) as Hlen.
    { unfold root_hash. destruct pt; rewrite ?EmptyRootHash_keccak; apply keccak256_length. }
    rewrite Hlen. cbn [Nat.ltb Nat.leb]. rewrite take_ge by lia.  go_ret. cbv iota. go_ret. rewrite entries_back, Ev. go_ret.
    eexists. split; [done|]. by exists proof.
Qed.

(** ** The walk *)

(** The first block above the genesis block with the bit in its filter. *)
Fixpoint bloom_hit (bit : Z) (l : list Block) : option Block :=
  match l with
  | [] => None
  | b :: l =>
      if bool_decide (0 < Number (Header b) /\ bit ∈ BloomFilter (Header b)) then Some b else bloom_hit bit l
  end.

Lemma bloom_hit_none bit l b : bloom_hit bit l = None -> b ∈ l -> 0 < Number (Header b) -> bit ∉ BloomFilter (Header b).
Proof.
  induction l as [|c l IH]; intros E Hin Hn; [by apply not_elem_of_nil in Hin|]. cbn in E.
  case_bool_decide as Hc; [done|]. apply elem_of_cons in Hin as [->|Hin]; [|by apply IH]. intros Hb. by apply Hc.
Qed.

Definition not_found : verify_result := (false, string_bytes "no block has this tx", None, 0, [], []).

Lemma on_chain_loop_spec s txhash b l :
  linked s b l -> Forall sealed l -> bytes txhash ->
  exists o, on_chain_loop (Z.to_nat (Number (Header b))) s (b_Hash b) txhash (bloom_bit txhash) = Ret o /\
    match bloom_hit (bloom_bit txhash) l with
    | Some c => found_in c txhash o
    | None => o = not_found
    end.
Proof.
  intros Hl Hs Hb. induction Hl as [b Hg Hn Hp|b p l Hg Hp Hn Hlt Hl IH].
  - rewrite Hn. exists not_found. split; [done|]. cbn. rewrite bool_decide_false; [done|]. intros [? _]. lia.
  - apply Forall_cons in Hs as [Hsb Hs]. pose proof (linked_number _ _ _ Hl).
    replace (Z.to_nat (Number (Header b))) with (S (Z.to_nat (Number (Header p)))) by lia.
    cbn [on_chain_loop bloom_hit]. rewrite Hg. go_ret.
    destruct (decide (bloom_bit txhash ∈ BloomFilter (Header b))) as [Hbit|Hbit].
    + rewrite (bool_decide_true (_ ∈ _)), bool_decide_true by (try split; done || lia). cbn [negb].
      replace (Z.of_nat (S (Z.to_nat (Number (Header p))))) with (Number (Header b)) by lia.
      destruct (check_block_spec b txhash Hsb Hbit Hb) as (o & -> & Ho). go_ret. by exists o.
    + rewrite (bool_decide_false (_ ∈ _)), bool_decide_false by tauto. cbn [negb]. rewrite Hp. by apply IH.
Qed.

(** C38. A transaction is looked up by its Bloom bit: on a chain of stored blocks
    whose headers commit to their bodies, [TxOnChainVerify] reports the
    topmost block above the genesis block whose filter has the bit of the
    hash, with a proof that verifies against its transaction root; when no
    block has the bit it reports that no block has the transaction, and then
    none has.  The proof may be one of absence: the function answers true for
    a hash that merely shares its bit with a transaction of the block. *)
Theorem TxOnChainVerify_correct (bc : BlockChain_dbMPT) (l : list Block) (txhash : list Z) :
  linked (Storage_ bc) (CurrentBlock bc) l -> Forall sealed l -> bytes txhash ->
  exists o, TxOnChainVerify bc txhash = Ret o /\
    match bloom_hit (bloom_bit txhash) l with
    | Some b => found_in b txhash o
    | None => o = not_found /\
        forall b tx, b ∈ l -> 0 < Number (Header b) -> tx ∈ Body b -> TxHash tx <> txhash
    end.
Proof.
  intros Hl Hs Hb. destruct (on_chain_loop_spec _ txhash _ l Hl Hs Hb) as (o & E & Ho).
  exists o. split; [exact E|]. destruct (bloom_hit _ l) eqn:Eh; [done|]. split; [done|].
  intros b tx Hin Hn Htx <-. apply (bloom_hit_none _ _ b Eh Hin Hn).
  rewrite Forall_forall in Hs. apply bloom_elem; [by apply Hs|]. by exists tx.
Qed.
End correct.

Module OnChainSample.
#[local] Existing Instance DBSample.ethdb.
#[local] Existing Instance DBSample.fastcache.
#[local] Existing Instance RLPSample.env.
#[local] Existing Instance RLPSample.rlp.
#[local] Existing Instance RLPSample.eth.
#[local] Existing Instance DBSample.account.
#[local] Existing Instance StorageSample.bolt.
#[local] Existing Instance StorageSample.as_gob.
#[local] Existing Instance StorageSample.tx_gob.
#[local] Existing Instance StorageSample.block_gob.
#[local] Existing Instance StorageSample.bh_gob.
#[local] Existing Instance RLPSample.rlp_laws.
#[local] Existing Instance RLPSample.hash_laws.
#[local] Existing Instance DBSample.ethdb_laws.
#[local] Existing Instance ChainSample.free.
#[local] Existing Instance ChainSample.sha.
#[local] Existing Instance ChainSample.params.
#[local] Existing Instance ChainSample.memory.

(** A block with one transaction, of hash 1, on the genesis block. *)
Definition body : list Transaction := [PoolSample.tx 1 "a0" "b0" 5].
Definition root : list Z := match GetTxTreeRoot body with Ret r => r | Panic => [] end.
Definition genesis : Block :=
  mkBlock (mkBH [] EmptyRootHash (match GetTxTreeRoot [] with Ret r => r | Panic => [] end) ∅ 0 0 0) [] [9].
Definition top : Block := mkBlock (mkBH [9] EmptyRootHash root {[ 1 ]} 1 0 0) body [8].
Definition pairs : gmap (string * list Z) (list Z) :=
  {[ ("block"%string, [9]) := B_Encode genesis; ("block"%string, [8]) := B_Encode top ]}.
Definition store : Storage := mkStorage StorageSample.bolt "" "block" "blockHeader" "newestBlockHash" pairs.
Definition node : BlockChain_dbMPT := mkBC DBSample.db0 ChainSample.cc top store (mkPool [] (Some ∅) false) ∅.

Lemma top_linked : linked store top [top; genesis].
Proof.
  assert (GetBlock store [8] = Ret (Ok top)) as Ht by (vm_compute; reflexivity).
  assert (GetBlock store [9] = Ret (Ok genesis)) as Hg by (vm_compute; reflexivity).
  exact (linked_next store top genesis _ Ht eq_refl eq_refl eq_refl (linked_genesis store genesis Hg eq_refl eq_refl)).
Qed.

Lemma all_sealed : Forall sealed [top; genesis].
Proof.
  repeat constructor; try (unfold is_byte; simpl; lia); vm_compute; reflexivity.
Qed.

(** The hash 2049 is of no transaction, yet it has the Bloom bit of the hash 1. *)
Lemma TxOnChainVerify_correct_witness :
  exists o, TxOnChainVerify node [8; 1] = Ret o /\ found_in top [8; 1] o /\ tx_map (Body top) !! [8; 1] = None.
Proof.
  destruct (TxOnChainVerify_correct node [top; genesis] [8; 1] top_linked all_sealed) as (o & E & Ho).
  - repeat constructor; unfold is_byte; simpl; lia.
  - exists o. split; [exact E|]. split; [exact Ho|]. vm_compute. reflexivity.
Defined.
End OnChainSample.
