(* ===== verification/Pbft.v ===== *)
(** * The PBFT replica ([consensus_shard/pbft_all/], [shard/nodes.go])

    A replica of a shard: the three phases on a request, the catch-up of a replica
    that was left behind, the client messages, and the relay module that decides
    what a request is (a block of the in-memory chain).  The module is an
    interface in the source and a class here; the consensus is written against it.

    A handler runs under the lock of the connection pool, so one handler is one
    step; [Propose] is a goroutine of its own.  Confirmations are counted in maps
    whose keys are pointers, and every decoded message has a pointer of its own.

    The state of the modules that re-partition accounts ([dataSupport/]) is part of
    the replica, as is the point at which a proposal waits for other shards.  The
    modules are in [PbftBroker] and [Reshard], agreement is in [Agreement]. *)

From stdpp Require Import base gmap strings list pretty.
From Stdlib Require Import ZArith Lia.
From S2P Require Import Prelude Encoding TrieSpec Node Trie TrieMap Hasher Committer Reload Database Core Storage Chain.
From S2P Require Import ChainMem MerkleProof OnChain Message Follower.

Local Open Scope Z_scope.

(** ** Messages *)

Record Node := mkNode { nd_NodeID : Z; nd_ShardID : Z; nd_IPaddr : string }.

Record Request := mkRequest { RequestType : string; Content : list Z; ReqTime : time }.
Definition BlockRequest : string := "Block".

(** Pointers in a message are nil or point to a fresh object. *)
Record PrePrepare := mkPrePrepare { pp_Request : option Request; pp_Digest : list Z; pp_SeqID : Z }.
Record Prepare := mkPrepare { pr_Digest : list Z; pr_SeqID : Z; pr_Sender : option Node }.
Record Commit := mkCommit { cm_Digest : list Z; cm_SeqID : Z; cm_Sender : option Node }.
Record RequestOldMessage := mkRequestOld { ro_Start : Z; ro_End : Z; ro_Server : option Node; ro_Sender : option Node }.
Record SendOldMessage := mkSendOld { so_Start : Z; so_End : Z; so_Requests : list (option Request); so_Sender : option Node }.

Record Relay := mkRelay { rl_Txs : list Transaction; rl_SenderShardID : Z; rl_SenderSeq : Z }.
Record InjectTxs := mkInject { it_Txs : list Transaction; it_ToShardID : Z }.
Record BlockInfoMsg := mkBlockInfo {
  BlockBodyLength : Z;
  ExcutedTxs : list Transaction;
  bi_Epoch : Z;
  ProposeTime : time;
  CommitTime : time;
  bi_SenderShardID : Z;
  Relay1TxNum : Z;
  Relay1Txs : list Transaction;
  Broker1TxNum : Z;
  Broker1Txs : list Transaction;
  Broker2TxNum : Z;
  Broker2Txs : list Transaction;
}.
Record SeqIDinfo := mkSeqID { si_SenderShardID : Z; si_SenderSeq : Z }.

(** Messages of a re-partition of the accounts. *)
Record PartitionModifiedMap := mkModified { PartitionModified : gmap Address Z }.
Record AccountTransferMsg := mkTransfer {
  tm_ModifiedMap : gmap Address Z;
  tm_Addrs : list Address;
  tm_AccountState : list AccountState;
  ATid : Z;
}.
Record PartitionReadyMsg := mkReady { pr_FromShard : Z; NowSeqID : Z }.
Record AccountStateAndTx := mkAccounts {
  at_Addrs : list Address;
  at_AccountState : list AccountState;
  at_Txs : list Transaction;
  at_FromShard : Z;
}.
Record InnerTx2CrossTx := mkInner2Cross { ic_Txs : list Transaction }.

(** What a shard knows of the re-partition in progress.  The maps to [bool] hold
    [true] only and are sets. *)
Record Data_supportCLPA := mkCdm {
  ModifiedMap : list (gmap Address Z);
  AccountTransferRound : Z;
  ReceivedNewAccountState : gmap Address AccountState;
  ReceivedNewTx : list Transaction;
  AccountStateTx : gmap Z AccountStateAndTx;
  PartitionOn : bool;
  PartitionReady : gset Z;
  ReadySeq : gmap Z Z;
  CollectOver : bool;
}.

Definition NewCLPADataSupport : Data_supportCLPA := mkCdm [] 0 ∅ [] ∅ false ∅ ∅ false.

(** Where [HandleinPropose] is: not called, or waiting in one of its two loops. *)
Inductive propose_at := AtStart | AwaitReady | AwaitCollect.
#[export] Instance propose_at_dec : EqDecision propose_at.
Proof. solve_decision. Defined.

Record ClientTxSend := mkClientTx { ct_Tx : option Transaction; ct_ClientIp : string }.
Record ClientRequestTxProof := mkProofRequest { cr_TxHash : list Z; cr_ClientIp : string }.
Record ClientRequestAccountState := mkAccountRequest { ca_AccountAddr : string; ca_ClientIp : string }.
(** Strings made of raw bytes are byte lists. *)
Record TxOnChainProof := mkTxProof {
  tp_IsExist : bool;
  tp_TxRoot : option (list Z);
  tp_Txhash : list Z;
  tp_BlockHash : list Z;
  tp_ShardId : Z;
  tp_BlockHeight : Z;
  tp_KeyList : list (list Z);
  tp_ValueList : list (list Z);
}.
Record AccountStateForClient := mkAccountAnswer {
  aa_AccountAddr : string;
  aa_ShardID : Z;
  aa_BlockHeight : Z;
  aa_BlockHash : list Z;
  aa_StateTrieRoot : list Z;
  aa_AccountState : AccountState;
}.

Definition set_Relayed (tx : Transaction) : Transaction :=
  mkTx (Id tx) (Sender tx) (Recipient tx) (Nonce tx) (Signature tx) (Value tx) (TxHash tx)
    (Time tx) (AllocateTime tx) (ExecutionTime tx) true (HasBroker tx) (SenderIsBroker tx)
    (OriginalSender tx) (FinalRecipient tx) (RawTxHash tx).

Definition DeciderShard : Z := 4294967295.

Section pbft.
Context `{EthDB} `{FastCache} `{HashEnv} `{EthCommon} `{RLP} `{StateAccountRLP} `{!MemoryDB}.
Context `{Bolt} `{Gob AccountState} `{Gob Transaction} `{Gob Block} `{Gob BlockHeader}.
Context `{Sha256} `{Params}.
Context `{Json (option Request)} `{Json PrePrepare} `{Json Prepare} `{Json Commit} `{Json RequestOldMessage}.
Context `{Json SendOldMessage} `{Json Relay} `{Json InjectTxs} `{Json BlockInfoMsg} `{Json ClientTxSend}.
Context `{Json ClientRequestTxProof} `{Json ClientRequestAccountState} `{Json TxOnChainProof}.
Context `{Json AccountStateForClient}.

(** ** The replica *)

(** The maps to [bool] only ever hold [true] and are sets; [sequenceLock] and
    [askForLock] tell whether the mutex is held; [next_ptr] numbers the nodes
    decoded from messages. *)
Record PbftNode := mkPbft {
  RunningNode : Node;
  pn_ShardID : Z;
  pn_NodeID : Z;
  CurChain : BlockChain;
  txRequest2Client : gmap (list Z) string;
  ip_nodeTable : gmap Z (gmap Z string);
  node_nums : Z;
  malicious_nums : Z;
  view : Z;
  sequenceID : Z;
  pn_stop : bool;
  requestPool : gmap (list Z) (option Request);
  cntPrepareConfirm : gmap (list Z) (gset (option nat));
  cntCommitConfirm : gmap (list Z) (gset (option nat));
  isCommitBordcast : gset (list Z);
  isReply : gset (list Z);
  height2Digest : gmap Z (list Z);
  sequenceLock : bool;
  askForLock : bool;
  seqIDMap : gmap Z Z;
  next_ptr : nat;
  cdm : Data_supportCLPA;
  pn_at : propose_at;
}.

Definition pn_with_chain (p : PbftNode) (bc : BlockChain) : PbftNode :=
  mkPbft (RunningNode p) (pn_ShardID p) (pn_NodeID p) bc (txRequest2Client p) (ip_nodeTable p) (node_nums p)
    (malicious_nums p) (view p) (sequenceID p) (pn_stop p) (requestPool p) (cntPrepareConfirm p)
    (cntCommitConfirm p) (isCommitBordcast p) (isReply p) (height2Digest p) (sequenceLock p) (askForLock p)
    (seqIDMap p) (next_ptr p) (cdm p) (pn_at p).

Definition pn_with_clients (p : PbftNode) (m : gmap (list Z) string) : PbftNode :=
  mkPbft (RunningNode p) (pn_ShardID p) (pn_NodeID p) (CurChain p) m (ip_nodeTable p) (node_nums p)
    (malicious_nums p) (view p) (sequenceID p) (pn_stop p) (requestPool p) (cntPrepareConfirm p)
    (cntCommitConfirm p) (isCommitBordcast p) (isReply p) (height2Digest p) (sequenceLock p) (askForLock p)
    (seqIDMap p) (next_ptr p) (cdm p) (pn_at p).

Definition pn_with_requests (p : PbftNode) (rp : gmap (list Z) (option Request)) (h : gmap Z (list Z)) : PbftNode :=
  mkPbft (RunningNode p) (pn_ShardID p) (pn_NodeID p) (CurChain p) (txRequest2Client p) (ip_nodeTable p)
    (node_nums p) (malicious_nums p) (view p) (sequenceID p) (pn_stop p) rp (cntPrepareConfirm p)
    (cntCommitConfirm p) (isCommitBordcast p) (isReply p) h (sequenceLock p) (askForLock p) (seqIDMap p)
    (next_ptr p) (cdm p) (pn_at p).

Definition pn_with_counts (p : PbftNode) (pc cc : gmap (list Z) (gset (option nat))) (n : nat) : PbftNode :=
  mkPbft (RunningNode p) (pn_ShardID p) (pn_NodeID p) (CurChain p) (txRequest2Client p) (ip_nodeTable p)
    (node_nums p) (malicious_nums p) (view p) (sequenceID p) (pn_stop p) (requestPool p) pc cc
    (isCommitBordcast p) (isReply p) (height2Digest p) (sequenceLock p) (askForLock p) (seqIDMap p) n (cdm p) (pn_at p).

Definition pn_with_flags (p : PbftNode) (cb rep : gset (list Z)) : PbftNode :=
  mkPbft (RunningNode p) (pn_ShardID p) (pn_NodeID p) (CurChain p) (txRequest2Client p) (ip_nodeTable p)
    (node_nums p) (malicious_nums p) (view p) (sequenceID p) (pn_stop p) (requestPool p) (cntPrepareConfirm p)
    (cntCommitConfirm p) cb rep (height2Digest p) (sequenceLock p) (askForLock p) (seqIDMap p) (next_ptr p) (cdm p) (pn_at p).

Definition pn_with_sequence (p : PbftNode) (s : Z) : PbftNode :=
  mkPbft (RunningNode p) (pn_ShardID p) (pn_NodeID p) (CurChain p) (txRequest2Client p) (ip_nodeTable p)
    (node_nums p) (malicious_nums p) (view p) s (pn_stop p) (requestPool p) (cntPrepareConfirm p)
    (cntCommitConfirm p) (isCommitBordcast p) (isReply p) (height2Digest p) (sequenceLock p) (askForLock p)
    (seqIDMap p) (next_ptr p) (cdm p) (pn_at p).

Definition pn_with_locks (p : PbftNode) (sl al : bool) : PbftNode :=
  mkPbft (RunningNode p) (pn_ShardID p) (pn_NodeID p) (CurChain p) (txRequest2Client p) (ip_nodeTable p)
    (node_nums p) (malicious_nums p) (view p) (sequenceID p) (pn_stop p) (requestPool p) (cntPrepareConfirm p)
    (cntCommitConfirm p) (isCommitBordcast p) (isReply p) (height2Digest p) sl al (seqIDMap p) (next_ptr p) (cdm p) (pn_at p).

Definition pn_with_stop (p : PbftNode) (b : bool) : PbftNode :=
  mkPbft (RunningNode p) (pn_ShardID p) (pn_NodeID p) (CurChain p) (txRequest2Client p) (ip_nodeTable p)
    (node_nums p) (malicious_nums p) (view p) (sequenceID p) b (requestPool p) (cntPrepareConfirm p)
    (cntCommitConfirm p) (isCommitBordcast p) (isReply p) (height2Digest p) (sequenceLock p) (askForLock p)
    (seqIDMap p) (next_ptr p) (cdm p) (pn_at p).

Definition pn_with_seqIDMap (p : PbftNode) (m : gmap Z Z) : PbftNode :=
  mkPbft (RunningNode p) (pn_ShardID p) (pn_NodeID p) (CurChain p) (txRequest2Client p) (ip_nodeTable p)
    (node_nums p) (malicious_nums p) (view p) (sequenceID p) (pn_stop p) (requestPool p) (cntPrepareConfirm p)
    (cntCommitConfirm p) (isCommitBordcast p) (isReply p) (height2Digest p) (sequenceLock p) (askForLock p) m
    (next_ptr p) (cdm p) (pn_at p).

Definition pn_with_cdm (p : PbftNode) (c : Data_supportCLPA) (at_ : propose_at) : PbftNode :=
  mkPbft (RunningNode p) (pn_ShardID p) (pn_NodeID p) (CurChain p) (txRequest2Client p) (ip_nodeTable p)
    (node_nums p) (malicious_nums p) (view p) (sequenceID p) (pn_stop p) (requestPool p) (cntPrepareConfirm p)
    (cntCommitConfirm p) (isCommitBordcast p) (isReply p) (height2Digest p) (sequenceLock p) (askForLock p)
    (seqIDMap p) (next_ptr p) c at_.

(** The address book is not filled in: the line that does it is a comment. *)
Definition NewPbftNode (shardID nodeID : Z) (pcc : ChainConfig) (stat : dir_stat) : outcome PbftNode :=
  bc ← NewBlockChain pcc stat;
  Ret (mkPbft (mkNode nodeID shardID "") shardID nodeID bc ∅ ∅ (Nodes_perShard pcc)
         (u64 (Nodes_perShard pcc - 1) / 3) 0 (next_number (mb_CurrentBlock bc)) false ∅ ∅ ∅ ∅ ∅ ∅ false false ∅ 0
         NewCLPADataSupport AtStart).

Definition address (p : PbftNode) (sid nid : Z) : string :=
  default "" (default ∅ (ip_nodeTable p !! sid) !! nid).

(** In the order of the map. *)
Definition getNeighborNodes (p : PbftNode) : list string :=
  (map_to_list (default ∅ (ip_nodeTable p !! pn_ShardID p))).*2.

Definition getDigest (r : option Request) : outcome (list Z) :=
  b ← of_option (json_Marshal r); Ret (Sum256 b).

(** [networks.Broadcast]: every address of the shard, the sender's own included. *)
Definition broadcast {A} `{Json A} (p : PbftNode) (msgType : string) (m : A) : outcome (list packet) :=
  '(_, frame) ← send msgType m "";
  Ret ((fun ip => (ip, frame)) <$> getNeighborNodes p).

(** The pointer that decoding gives to a sender. *)
Definition decoded_ptr (p : PbftNode) (n : option Node) : option nat := (fun _ => next_ptr p) <$> n.

Definition set2DMap (p : PbftNode) (isPrePareConfirm : bool) (key : list Z) (val : option nat) : PbftNode :=
  let put (m : gmap (list Z) (gset (option nat))) := <[key := {[val]} ∪ default ∅ (m !! key)]> m in
  if isPrePareConfirm then pn_with_counts p (put (cntPrepareConfirm p)) (cntCommitConfirm p) (S (next_ptr p))
  else pn_with_counts p (cntPrepareConfirm p) (put (cntCommitConfirm p)) (S (next_ptr p)).

(** ** The interfaces of the consensus *)

(** What the consensus calls at each phase: a request to propose, the check of a
    proposed one, and what committing does; and the messages of other shards.
    [HandleinPropose] runs up to the next point at which it sleeps and gives what it
    has sent, and the request once it has one. *)
Class ExtraOpInConsensus := {
  HandleinPropose : PbftNode -> (nat -> time) -> sync (list packet * option (option Request) * PbftNode);
  HandleinPrePrepare : PbftNode -> PrePrepare -> outcome (bool * PbftNode);
  HandleinPrepare : PbftNode -> Prepare -> outcome PbftNode;
  HandleinCommit : PbftNode -> Commit -> time -> sync (list packet * PbftNode);
  HandleReqestforOldSeq : PbftNode -> RequestOldMessage -> outcome PbftNode;
  HandleforSequentialRequest : PbftNode -> SendOldMessage -> outcome PbftNode;
}.
Class OpInterShards := {
  HandleMessageOutsidePBFT : PbftNode -> list Z -> list Z -> (nat -> time) -> sync PbftNode;
}.

Section consensus.
Context `{!ExtraOpInConsensus}.

(** One round of the loop, up to the broadcast; the lock stays taken.  A round that
    waits in [HandleinPropose] is resumed there. *)
Definition propose_round (p : PbftNode) (nows : nat -> time) : sync (option (option Request) * list packet * PbftNode) :=
  p ← (if bool_decide (pn_at p = AtStart) then
         if sequenceLock p then Blocked else Done (pn_with_locks p true (askForLock p))
       else Done p);
  '(sent, o, p) ← HandleinPropose p nows;
  match o with
  | None => Done (None, sent, p)
  | Some r =>
      digest ← run (getDigest r);
      let p := pn_with_requests p (<[digest := r]> (requestPool p)) (<[sequenceID p := digest]> (height2Digest p)) in
      pks ← run (broadcast p "preprepare" (mkPrePrepare r digest (sequenceID p)));
      Done (Some r, sent ++ pks, p)
  end.

(** The loop; only the primary runs it. *)
Definition Propose (p : PbftNode) (nows : nat -> time)
  : sync (option (option (option Request) * list packet * PbftNode)) :=
  if negb (view p =? pn_NodeID p) then Done None else o ← propose_round p nows; Done (Some o).

(** A prepare message to all. *)
Definition prepare (p : PbftNode) (digest : list Z) (seq : Z) : outcome (list packet) :=
  broadcast p "prepare" (mkPrepare digest seq (Some (RunningNode p))).

Definition handlePrePrepare (p : PbftNode) (ppmsg : PrePrepare) : outcome (list packet * PbftNode) :=
  digest ← getDigest (pp_Request ppmsg);
  if negb (bool_decide (digest = pp_Digest ppmsg)) then Ret ([], p)
  else
    let note p := pn_with_requests p (<[digest := pp_Request ppmsg]> (requestPool p))
                    (<[pp_SeqID ppmsg := digest]> (height2Digest p)) in
    if sequenceID p <? pp_SeqID ppmsg then Ret ([], note p)
    else
      '(flag, p) ← HandleinPrePrepare p ppmsg;
      let p := note p in
      if (flag : bool) then pks ← prepare p (pp_Digest ppmsg) (pp_SeqID ppmsg); Ret (pks, p) else Ret ([], p).

Definition handlePrepare (p : PbftNode) (pmsg : Prepare) : outcome (list packet * PbftNode) :=
  match requestPool p !! pr_Digest pmsg with
  | None => Ret ([], p)
  | Some _ =>
      if sequenceID p <? pr_SeqID pmsg then Ret ([], p)
      else
        p ← HandleinPrepare p pmsg;
        let p := set2DMap p true (pr_Digest pmsg) (decoded_ptr p (pr_Sender pmsg)) in
        let cnt := Z.of_nat (size (default ∅ (cntPrepareConfirm p !! pr_Digest pmsg))) in
        let specifiedcnt := i64 (u64 (2 * malicious_nums p)) - (if pn_NodeID p =? view p then 0 else 1) in
        if (specifiedcnt <=? cnt) && negb (bool_decide (pr_Digest pmsg ∈ isCommitBordcast p)) then
          pks ← broadcast p "commit" (mkCommit (pr_Digest pmsg) (pr_SeqID pmsg) (Some (RunningNode p)));
          Ret (pks, pn_with_flags p ({[pr_Digest pmsg]} ∪ isCommitBordcast p) (isReply p))
        else Ret ([], p)
  end.

(** [Unlock] of a mutex that is not held ends the process. *)
Definition unlock_sequence (p : PbftNode) : sync PbftNode :=
  if sequenceLock p then Done (pn_with_locks p false (askForLock p)) else Fatal.

(** The request for the blocks a replica has missed. *)
Definition ask_old (p : PbftNode) (seq : Z) : outcome packet :=
  let sn := mkNode (view p) (pn_ShardID p) (address p (pn_ShardID p) (view p)) in
  send "requestOldrequest" (mkRequestOld (u64 (sequenceID p + 1)) seq (Some sn) (Some (RunningNode p))) (nd_IPaddr sn).

Definition handleCommit (p : PbftNode) (cmsg : Commit) (now : time) : sync (list packet * PbftNode) :=
  _ ← run (of_option (cm_Sender cmsg));
  let d := cm_Digest cmsg in
  let p := set2DMap p false d (decoded_ptr p (cm_Sender cmsg)) in
  let cnt := Z.of_nat (size (default ∅ (cntCommitConfirm p !! d))) in
  let required_cnt := i64 (u64 (2 * malicious_nums p)) in
  if (required_cnt <=? cnt) && negb (bool_decide (d ∈ isReply p)) then
    '(pks, p) ← (match requestPool p !! d with
                 | None =>
                     let p := pn_with_flags p (isCommitBordcast p) ({[d]} ∪ isReply p) in
                     if askForLock p then Blocked
                     else
                       let p := pn_with_locks p (sequenceLock p) true in
                       pk ← run (ask_old p (cm_SeqID cmsg)); Done ([pk], p)
                 | Some _ =>
                     '(pks, p) ← HandleinCommit p cmsg now;
                     Done (pks, pn_with_sequence (pn_with_flags p (isCommitBordcast p) ({[d]} ∪ isReply p))
                                  (u64 (sequenceID p + 1)))
                 end);
    p ← (if pn_NodeID p =? view p then unlock_sequence p else Done p);
    Done (pks, p)
  else Done ([], p).

(** The loop over the heights asked for; [n] bounds it by the requests known, one
    per height, and one more. *)
Fixpoint collect_old (n : nat) (p : PbftNode) (height last : Z) : list (option Request) :=
  match n with
  | O => []
  | S n =>
      if height <=? last then
        match height2Digest p !! height ≫= (fun d => requestPool p !! d) with
        | None => []
        | Some r => r :: collect_old n p (u64 (height + 1)) last
        end
      else []
  end.

Definition handleRequestOldSeq (p : PbftNode) (rom : RequestOldMessage) : outcome (list packet * PbftNode) :=
  if negb (view p =? pn_NodeID p) then Ret ([], p)
  else
    sender ← of_option (ro_Sender rom);
    let oldR := collect_old (S (size (height2Digest p))) p (ro_Start rom) (ro_End rom) in
    p ← HandleReqestforOldSeq p rom;
    pk ← send "sendOldrequest" (mkSendOld (ro_Start rom) (ro_End rom) oldR (Some (RunningNode p))) (nd_IPaddr sender);
    Ret ([pk], p).

(** The requests are entered with their heights and count as replied. *)
Fixpoint enter_old (p : PbftNode) (height : Z) (rs : list (option Request)) : outcome PbftNode :=
  match rs with
  | [] => Ret p
  | r :: rs =>
      d ← getDigest r;
      let p := pn_with_requests p (<[d := r]> (requestPool p)) (<[height := d]> (height2Digest p)) in
      enter_old (pn_with_flags p (isCommitBordcast p) ({[d]} ∪ isReply p)) (u64 (height + 1)) rs
  end.

Definition handleSendOldSeq (p : PbftNode) (som : SendOldMessage) : sync (list packet * PbftNode) :=
  p ← run (HandleforSequentialRequest p som);
  p ← run (enter_old p (so_Start som) (so_Requests som));
  let p := pn_with_sequence p (u64 (so_End som + 1)) in
  '(pks, p) ← run (match height2Digest p !! sequenceID p ≫= (fun d => requestPool p !! d) with
                   | None => Ret ([], p)
                   | Some r =>
                       d ← getDigest r;
                       let ppmsg := mkPrePrepare r d (sequenceID p) in
                       '(flag, p) ← HandleinPrePrepare p ppmsg;
                       if (flag : bool) then pks ← prepare p (pp_Digest ppmsg) (pp_SeqID ppmsg); Ret (pks, p)
                       else Ret ([], p)
                   end);
  if askForLock p then Done (pks, pn_with_locks p (sequenceLock p) false) else Fatal.

(** Stopping: the primary hands the signal to its [Propose] loop, which cannot
    take it while it waits for the sequence lock or for other shards. *)
Definition WaitToStop (p : PbftNode) (propose_waits : bool) : sync PbftNode :=
  if (pn_NodeID p =? view p) && (propose_waits && sequenceLock p || bool_decide (pn_at p <> AtStart)) then Blocked
  else Done (pn_with_stop p true).
End consensus.

(** ** The relay module *)

Definition relay_Propose (p : PbftNode) (nows : nat -> time)
  : sync (list packet * option (option Request) * PbftNode) :=
  '(block, bc) ← GenerateBlock (CurChain p) 0 (nows 0%nat);
  Done ([], Some (Some (mkRequest BlockRequest (B_Encode block) (nows 1%nat))), pn_with_chain p bc).

Definition relay_PrePrepare (p : PbftNode) (ppmsg : PrePrepare) : outcome (bool * PbftNode) :=
  r ← of_option (pp_Request ppmsg);
  b ← DecodeB (Content r);
  v ← IsValidBlock (CurChain p) b;
  match v with
  | Some _ => Ret (false, p)
  | None => Ret (true, pn_with_requests p (<[pp_Digest ppmsg := Some r]> (requestPool p)) (height2Digest p))
  end.

Definition mb_with_txpool (bc : BlockChain) (pool : TxPool) : BlockChain :=
  mkMBC (mb_triedb bc) (mb_Config bc) (mb_CurrentBlock bc) (mb_Storage bc) (PrecessedTxpool bc) (mb_PartitionMap bc)
    (Some pool).

(** [SendProofMsg] *)
Definition SendProofMsg (p : PbftNode) (o : verify_result) (txhash : list Z) (clientIp : string) : outcome packet :=
  let '(isExist, blockHash, txroot, blockHeight, keylist, valuelist) := o in
  send "TxOnChainProof" (mkTxProof isExist txroot txhash blockHash (pn_ShardID p) blockHeight keylist valuelist) clientIp.

(** One transaction of a committed block at the primary: what it adds to the
    executed and to the relayed ones, the transaction (marked in place when it is
    relayed), and the proof sent to a client that waits for it. *)
Definition relay_tx (p : PbftNode) (pool : TxPool) (tx : Transaction)
  : sync (PbftNode * TxPool * Transaction * bool * list packet) :=
  rsid ← run (Get_PartitionMap (CurChain p) (Recipient tx));
  '(pool, tx, relayed) ← (if negb (rsid =? pn_ShardID p) then
                            pool ← AddRelayTx pool (set_Relayed tx) rsid; Done (pool, set_Relayed tx, true)
                          else Done (pool, tx, false));
  '(p, pks) ← (match txRequest2Client p !! TxHash tx with
               | None => Done (p, [])
               | Some clientID =>
                   o ← run (mb_TxOnChainVerify (CurChain p) (TxHash tx));
                   pk ← run (SendProofMsg p o (TxHash tx) clientID);
                   Done (pn_with_clients p (base.delete (TxHash tx) (txRequest2Client p)), [pk])
               end);
  Done (p, pool, tx, (relayed : bool), pks).

Fixpoint relay_loop (p : PbftNode) (pool : TxPool) (txs : list Transaction)
  : sync (PbftNode * TxPool * list (Transaction * bool) * list packet) :=
  match txs with
  | [] => Done (p, pool, [], [])
  | tx :: txs =>
      '(p, pool, tx, relayed, pks) ← relay_tx p pool tx;
      '(p, pool, l, pks') ← relay_loop p pool txs;
      Done (p, pool, (tx, relayed) :: l, pks ++ pks')
  end.

(** The shards are counted up to [ShardNums]. *)
Definition relay_sends (p : PbftNode) (pool : TxPool) : outcome (list packet) :=
  ofold (fun acc sid =>
      pk ← send "relay" (mkRelay (default [] (default ∅ (RelayPool pool) !! sid)) (pn_ShardID p) (sequenceID p))
             (address p sid 0);
      Ret (acc ++ [pk])) []
    (filter (fun sid => sid <> pn_ShardID p) (Z.of_nat <$> seq 0 (Z.to_nat (ShardNums (mb_Config (CurChain p)))))).

(** The primary's part of a commit: relays, proofs and the block information.  The
    chain's current block is the decoded one, so the marks show in it. *)
Definition relay_primary (p : PbftNode) (r : Request) (block : Block) (added : bool) (now : time)
  : sync (list packet * PbftNode) :=
  pool ← run (of_option (mb_Txpool (CurChain p)));
  '(p, pool, l, pks) ← relay_loop p (with_relay pool (Some ∅)) (Body block);
  let txs := l.*1 in
  pks' ← run (relay_sends p pool);
  pool ← ClearRelayPool pool;
  let relay1 := (filter (fun e => e.2 = true) l).*1 in
  let excuted := (filter (fun e => e.2 = false) l).*1 in
  info ← run (send "BlockInfo" (mkBlockInfo (Z.of_nat (length txs)) excuted 0 (ReqTime r) now (pn_ShardID p)
                (Z.of_nat (length relay1)) relay1 0 [] 0 []) (address p DeciderShard 0));
  pool ← GetLocked pool;
  pool ← GetUnlocked pool;
  let bc := CurChain p in
  let bc := if added then mb_with_block bc (mkBlock (Header block) txs (b_Hash block)) (mb_Storage bc) else bc in
  Done (pks ++ pks' ++ [info], pn_with_chain p (mb_with_txpool bc pool)).

Definition relay_Commit (p : PbftNode) (cmsg : Commit) (now : time) : sync (list packet * PbftNode) :=
  r ← run (of_option (default None (requestPool p !! cm_Digest cmsg)));
  block ← run (DecodeB (Content r));
  '(added, bc) ← run (AddBlock (CurChain p) (Some block));
  let p := pn_with_chain p bc in
  if pn_NodeID p =? view p then relay_primary p r block added now else Done ([], p).

(** The loop over the heights from [height] to [last], on the requests for them; an
    index out of range panics, also after the height has wrapped around. *)
Fixpoint sequential_loop {A} (f : A -> option Request -> outcome A) (a : A) (rs : list (option Request))
    (height last : Z) : outcome A :=
  if height <=? last then
    match rs with
    | [] => Panic
    | r :: rs => a ← f a r; sequential_loop f a rs (u64 (height + 1)) last
    end
  else Ret a.

Definition relay_add (bc : BlockChain) (r : option Request) : outcome BlockChain :=
  r ← of_option r;
  if bool_decide (RequestType r = BlockRequest) then
    b ← DecodeB (Content r); '(_, bc) ← AddBlock bc (Some b); Ret bc
  else Ret bc.

Definition relay_Sequential (p : PbftNode) (som : SendOldMessage) : outcome PbftNode :=
  if negb (i64 (u64 (so_End som - so_Start som + 1)) =? Z.of_nat (length (so_Requests som))) then Ret p
  else
    bc ← sequential_loop relay_add (CurChain p) (so_Requests som) (so_Start som) (so_End som);
    Ret (pn_with_sequence (pn_with_chain p bc) (u64 (so_End som + 1))).

#[export] Instance RawRelayPbftExtraHandleMod : ExtraOpInConsensus := {|
  HandleinPropose := relay_Propose;
  HandleinPrePrepare := relay_PrePrepare;
  HandleinPrepare := fun p _ => Ret p;
  HandleinCommit := relay_Commit;
  HandleReqestforOldSeq := fun p _ => Ret p;
  HandleforSequentialRequest := relay_Sequential;
|}.

(** ** Messages from other shards and from clients *)

Definition to_txpool (p : PbftNode) (f : TxPool -> sync TxPool) : sync PbftNode :=
  pool ← run (of_option (mb_Txpool (CurChain p)));
  pool ← f pool;
  Done (pn_with_chain p (mb_with_txpool (CurChain p) pool)).

Definition handleRelay (p : PbftNode) (content : list Z) (nows : nat -> time) : sync PbftNode :=
  relay ← run (of_option (json_Unmarshal content : option Relay));
  p ← to_txpool p (fun pool => AddTxs2Pool pool (rl_Txs relay) nows);
  Done (pn_with_seqIDMap p (<[rl_SenderShardID relay := rl_SenderSeq relay]> (seqIDMap p))).

Definition handleInjectTx (p : PbftNode) (content : list Z) (nows : nat -> time) : sync PbftNode :=
  it ← run (of_option (json_Unmarshal content : option InjectTxs));
  to_txpool p (fun pool => AddTxs2Pool pool (it_Txs it) nows).

#[export] Instance RawRelayOutsideModule : OpInterShards := {|
  HandleMessageOutsidePBFT := fun p msgType content nows =>
    if bool_decide (msgType = string_bytes "relay") then handleRelay p content nows
    else if bool_decide (msgType = string_bytes "inject") then handleInjectTx p content nows
    else Done p;
|}.

Definition handleClientTxSend (p : PbftNode) (content : list Z) (now : time) : sync PbftNode :=
  cts ← run (of_option (json_Unmarshal content : option ClientTxSend));
  tx ← run (of_option (ct_Tx cts));
  let p := pn_with_clients p (<[TxHash tx := ct_ClientIp cts]> (txRequest2Client p)) in
  to_txpool p (fun pool => AddTx2Pool pool tx now).

Definition handleClientRequestTxProof (p : PbftNode) (content : list Z) : outcome (list packet) :=
  crtxp ← of_option (json_Unmarshal content : option ClientRequestTxProof);
  o ← mb_TxOnChainVerify (CurChain p) (cr_TxHash crtxp);
  pk ← SendProofMsg p o (cr_TxHash crtxp) (cr_ClientIp crtxp);
  Ret [pk].

Definition handleRequestAccountState (p : PbftNode) (content : list Z) : outcome (list packet) :=
  cras ← of_option (json_Unmarshal content : option ClientRequestAccountState);
  '(as_, shardId, blockHeight, blockHash, stroot) ← FetchAccounts (CurChain p) [ca_AccountAddr cras];
  a ← of_option (as_ !! 0%nat);
  pk ← send "AccountStateForClient"
         (mkAccountAnswer (ca_AccountAddr cras) shardId blockHeight blockHash stroot a) (ca_ClientIp cras);
  Ret [pk].

(** ** Dispatch *)

Section dispatch.
Context `{!ExtraOpInConsensus} `{!OpInterShards}.

(** [log.Panic] when the content does not decode. *)
Definition decoded {A B} `{Json A} (content : list Z) (f : A -> sync B) : sync B :=
  m ← run (of_option (json_Unmarshal content : option A)); f m.

(** [nows] are readings of the clock, [waits] whether [Propose] waits for the
    sequence lock. *)
Definition handleMessage (p : PbftNode) (msg : list Z) (nows : nat -> time) (waits : bool)
  : sync (list packet * PbftNode) :=
  '(t, content) ← run (SplitMessage msg);
  let of_type s := bool_decide (t = string_bytes s) in
  if of_type "preprepare" then decoded content (fun m => run (handlePrePrepare p m))
  else if of_type "prepare" then decoded content (fun m => run (handlePrepare p m))
  else if of_type "commit" then decoded content (fun m => handleCommit p m (nows 0%nat))
  else if of_type "requestOldrequest" then
    (if negb (view p =? pn_NodeID p) then Done ([], p)
     else decoded content (fun m => run (handleRequestOldSeq p m)))
  else if of_type "sendOldrequest" then decoded content (fun m => handleSendOldSeq p m)
  else if of_type "stop" then p ← WaitToStop p waits; Done ([], p)
  else if of_type "ClientTxSend" then p ← handleClientTxSend p content (nows 0%nat); Done ([], p)
  else if of_type "ClientRequestTxProof" then pks ← run (handleClientRequestTxProof p content); Done (pks, p)
  else if of_type "RequestAccountState" then pks ← run (handleRequestAccountState p content); Done (pks, p)
  else p ← HandleMessageOutsidePBFT p t content nows; Done ([], p).
End dispatch.
End pbft.

(** ** What the consensus relies on *)

Lemma sync_bind_Done {A B} (o : sync A) (f : A -> sync B) b :
  (o ≫= f) = Done b <-> exists a, o = Done a /\ f a = Done b.
Proof. destruct o; simpl; naive_solver. Qed.

Lemma run_Done {A} (o : outcome A) a : run o = Done a <-> o = Ret a.
Proof. destruct o; simpl; naive_solver. Qed.

(** Marshalled bytes decode to nothing but the value. *)
Class JsonExact (A : Type) `{Json A} : Prop :=
  json_exact : forall (a : A) b a', json_Marshal a = Some b -> json_Unmarshal (b ++ [10]) = Some a' -> a' = a.

(** Blocks up to the marks on their transactions. *)
Definition same_block (a b : Block) : Prop := Header a = Header b /\ b_Hash a = b_Hash b.

#[export] Instance same_block_equiv : Equivalence same_block.
Proof. split; unfold same_block; [done|intros ? ? []; done|intros ? ? ? [] []; split; congruence]. Qed.

(** The messages that carry requests or confirm them. *)
Definition phases : list (list Z) := string_bytes <$> ["preprepare"; "commit"; "sendOldrequest"]%string.
Definition quiet (frame : list Z) : Prop := forall t c, SplitMessage (frame ++ [10]) = Ret (t, c) -> t ∉ phases.

Lemma send_split {A} `{Json A} t (m : A) addr pk :
  t ∈ all_types -> send t m addr = Ret pk ->
  exists b frame, json_Marshal m = Some b /\ pk = (addr, frame) /\
    SplitMessage (frame ++ [10]) = Ret (string_bytes t, b ++ [10]).
Proof.
  intros Ht. unfold send. intros (b & Eb%of_option_Ret & (frame & Em & [= <-])%outcome_bind_Ret)%outcome_bind_Ret.
  exists b, frame. split; [done|]. split; [done|]. destruct (known_type t Ht) as [Hlen Hnz].
  destruct (merge_split (string_bytes t) (b ++ [10]) Hlen Hnz) as (frame' & Em' & Es).
  rewrite (MergeMessage_app _ _ _ _ Em) in Em'. by injection Em' as <-.
Qed.

Lemma send_quiet {A} `{Json A} t (m : A) addr pk :
  t ∈ all_types -> string_bytes t ∉ phases -> send t m addr = Ret pk -> quiet pk.2.
Proof.
  intros Ht Hp E. destruct (send_split t m addr pk Ht E) as (b & frame & _ & -> & Es).
  intros t' c Es'. cbn [snd] in *. rewrite Es in Es'. by injection Es' as <- _.
Qed.
