(* ===== verification/Agreement.v ===== *)
(** * Agreement of the replicas

    What the consensus of [Pbft] relies on in its module, as laws of the interface,
    that the relay module obeys them, and agreement: replicas run over a network
    that reorders, duplicates and loses what they send, other shards and clients
    send what they like, and replicas at the same height are on the same block.
    It rests on the one primary, which proposes a block only after its last one is
    committed. *)

From stdpp Require Import base gmap strings list pretty.
From Stdlib Require Import ZArith Lia.
From S2P Require Import Prelude Encoding TrieSpec Node Trie TrieMap Hasher Committer Reload Database Core Storage Chain.
From S2P Require Import ChainMem MerkleProof OnChain Message Follower Pbft.

Local Open Scope Z_scope.

(** A message type of the program; one that is not a phase. *)
Ltac known := apply list_elem_of_In; vm_compute; tauto.
Ltac not_phase := refine (bool_decide_unpack _ _); vm_compute; exact I.

Section laws.
Context `{EthDB} `{FastCache} `{HashEnv} `{EthCommon} `{RLP} `{StateAccountRLP} `{!MemoryDB}.
Context `{Bolt} `{Gob AccountState} `{Gob Transaction} `{Gob Block} `{Gob BlockHeader}.
Context `{Sha256} `{Params}.
Context `{Json (option Request)} `{Json PrePrepare} `{Json Prepare} `{Json Pbft.Commit} `{Json RequestOldMessage}.
Context `{Json SendOldMessage} `{Json Relay} `{Json InjectTxs} `{Json BlockInfoMsg} `{Json ClientTxSend}.
Context `{Json ClientRequestTxProof} `{Json ClientRequestAccountState} `{Json TxOnChainProof}.
Context `{Json AccountStateForClient}.

Definition tip (p : PbftNode) : Block := mb_CurrentBlock (CurChain p).

(** A request for the block [b]. *)
Definition holds_block (r : option Request) (b : Block) : Prop :=
  exists rq, r = Some rq /\ gob_dec (Content rq) = Some b.

Definition extends (t b : Block) : Prop :=
  Number (Header b) = next_number t /\ ParentBlockHash (Header b) = b_Hash t.

(** The state of the consensus is left alone. *)
Record framed (p p' : PbftNode) : Prop := {
  fr_id : pn_NodeID p' = pn_NodeID p;
  fr_view : view p' = view p;
  fr_pool : requestPool p' = requestPool p;
  fr_reply : isReply p' = isReply p;
  fr_seq : sequenceLock p' = sequenceLock p;
  fr_ask : askForLock p' = askForLock p;
  fr_at : pn_at p' = pn_at p;
}.

Lemma framed_refl p : framed p p.
Proof. done. Qed.
Lemma framed_trans p q r : framed p q -> framed q r -> framed p r.
Proof. intros [] []. split; congruence. Qed.

Class ExtraOpLaws `{!ExtraOpInConsensus} : Prop := {
  law_propose p now pks o p' : HandleinPropose p now = Done (pks, o, p') ->
    framed p p' /\ tip p' = tip p /\ pks = [] /\ exists r b, o = Some r /\ holds_block r b /\ extends (tip p) b;
  law_preprepare p m flag p' : HandleinPrePrepare p m = Ret (flag, p') ->
    tip p' = tip p /\
    (p' = p \/ p' = pn_with_requests p (<[pp_Digest m := pp_Request m]> (requestPool p)) (height2Digest p));
  law_prepare p m p' : HandleinPrepare p m = Ret p' -> p' = p;
  law_old p m p' : HandleReqestforOldSeq p m = Ret p' -> p' = p;
  law_commit p m now pks p' : HandleinCommit p m now = Done (pks, p') ->
    framed p p' /\ Forall (fun pk => quiet pk.2) pks /\
    exists r b, requestPool p !! cm_Digest m = Some r /\ holds_block r b /\
      (extends (tip p) b -> same_block (tip p') b) /\ (~ extends (tip p) b -> same_block (tip p') (tip p));
  law_sequential p m p' : HandleforSequentialRequest p m = Ret p' ->
    framed p p' /\
    (same_block (tip p') (tip p) \/ exists r b, r ∈ so_Requests m /\ holds_block r b /\ same_block (tip p') b);
}.

(** ** The relay module obeys them *)

Lemma AddBlock_tip bc b ok bc' : AddBlock bc (Some b) = Ret (ok, bc') ->
  (extends (mb_CurrentBlock bc) b /\ ok = true /\ mb_CurrentBlock bc' = b) \/
  (~ extends (mb_CurrentBlock bc) b /\ ok = false /\ bc' = bc).
Proof.
  unfold AddBlock, extends. destruct (Z.eqb_spec (Number (Header b)) (next_number (mb_CurrentBlock bc))) as [En|Hn]; cbn [negb].
  - case_bool_decide as Ep; cbn [negb].
    + intros (s & _ & [= <- <-])%outcome_bind_Ret. left. done.
    + intros [= <- <-]. right. split; [|done]. by intros [_ ?].
  - intros [= <- <-]. right. split; [|done]. by intros [? _].
Qed.

Lemma relay_Propose_law p now pks o p' : relay_Propose p now = Done (pks, o, p') ->
  framed p p' /\ tip p' = tip p /\ pks = [] /\ exists r b, o = Some r /\ holds_block r b /\ extends (tip p) b.
Proof.
  unfold relay_Propose, GenerateBlock.
  intros ([b bc] & ([txs pool] & _ & ([rt bc1] & Eu%run_Done & (b' & Es%run_Done & [= <- <-])%sync_bind_Done)%sync_bind_Done)%sync_bind_Done
          & [= <- <- <-])%sync_bind_Done.
  assert (mb_CurrentBlock bc1 = tip p) as Hcur.
  { revert Eu. unfold GetUpdateStatusTrie. destruct txs; [by intros [= _ <-]|].
    intros (st & _ & (st' & _ & E)%outcome_bind_Ret)%outcome_bind_Ret. revert E. cbn [Z.eqb]. by intros [= _ <-]. }
  split; [done|]. split; [exact Hcur|]. split; [done|]. eexists _, b'. split; [done|]. split.
  - eexists. split; [done|]. apply gob_roundtrip.
  - revert Es. unfold seal. intros (r1 & _ & (bl & _ & [= <-])%outcome_bind_Ret)%outcome_bind_Ret.
    unfold extends. cbn. by rewrite Hcur.
Qed.

Lemma relay_PrePrepare_law p m flag p' : relay_PrePrepare p m = Ret (flag, p') ->
  tip p' = tip p /\
  (p' = p \/ p' = pn_with_requests p (<[pp_Digest m := pp_Request m]> (requestPool p)) (height2Digest p)).
Proof.
  unfold relay_PrePrepare.
  intros (r & Er%of_option_Ret & (b & _ & (v & _ & E)%outcome_bind_Ret)%outcome_bind_Ret)%outcome_bind_Ret.
  rewrite Er. destruct v; injection E as _ <-; (split; [done|]); [by left|by right].
Qed.

Lemma relay_tx_law p pool tx p' pool' tx' f pks :
  relay_tx p pool tx = Done (p', pool', tx', f, pks) ->
  framed p p' /\ CurChain p' = CurChain p /\ Forall (fun pk => quiet pk.2) pks.
Proof.
  unfold relay_tx.
  intros (rsid & _ & ([[pool1 tx1] f1] & _ & ([p1 pks1] & E & [= <- <- <- <- <-])%sync_bind_Done)%sync_bind_Done)%sync_bind_Done.
  revert E. destruct (txRequest2Client p !! TxHash tx1) as [cl|]; [|by intros [= <- <-]].
  intros (o & _ & (pk & E%run_Done & [= <- <-])%sync_bind_Done)%sync_bind_Done.
  split; [done|]. split; [done|]. apply Forall_singleton. unfold SendProofMsg in E.
  destruct o as [[[[[e bh] tr] ht] kl] vl]. refine (send_quiet _ _ _ _ _ _ E); [known|not_phase].
Qed.

Lemma relay_loop_law txs : forall p pool p' pool' l pks,
  relay_loop p pool txs = Done (p', pool', l, pks) ->
  framed p p' /\ CurChain p' = CurChain p /\ Forall (fun pk => quiet pk.2) pks.
Proof.
  induction txs as [|tx txs IH]; intros p pool p' pool' l pks; cbn [relay_loop]; [by intros [= <- _ _ <-]|].
  intros ([[[[p1 pool1] tx1] f1] pks1] & E1 & ([[[p2 pool2] l2] pks2] & E2 & [= <- _ _ <-])%sync_bind_Done)%sync_bind_Done.
  destruct (relay_tx_law _ _ _ _ _ _ _ _ E1) as (F1 & C1 & Q1). destruct (IH _ _ _ _ _ _ E2) as (F2 & C2 & Q2).
  split; [by eapply framed_trans|]. split; [congruence|]. by apply Forall_app.
Qed.

Lemma relay_sends_law p pool pks : relay_sends p pool = Ret pks -> Forall (fun pk => quiet pk.2) pks.
Proof.
  unfold relay_sends. generalize (filter (fun sid => sid <> pn_ShardID p)
    (Z.of_nat <$> seq 0 (Z.to_nat (ShardNums (mb_Config (CurChain p)))))) as sids.
  assert (forall sids acc, Forall (fun pk : packet => quiet pk.2) acc ->
    ofold (fun acc sid => pk ← send "relay" (mkRelay (default [] (default ∅ (RelayPool pool) !! sid)) (pn_ShardID p) (sequenceID p))
             (address p sid 0); Ret (acc ++ [pk])) acc sids = Ret pks -> Forall (fun pk => quiet pk.2) pks) as Hg; [|eauto].
  induction sids as [|sid sids IH]; intros acc Hacc; cbn [ofold]; [by intros [= <-]|].
  intros (acc1 & (pk & E & [= <-])%outcome_bind_Ret & E')%outcome_bind_Ret. eapply IH; [|exact E'].
  apply Forall_app. split; [done|]. apply Forall_singleton. refine (send_quiet _ _ _ _ _ _ E); [known|not_phase].
Qed.

Lemma relay_primary_law p r block added now pks p' : relay_primary p r block added now = Done (pks, p') ->
  (added = true -> tip p = block) ->
  framed p p' /\ Forall (fun pk => quiet pk.2) pks /\ same_block (tip p') (tip p).
Proof.
  unfold relay_primary.
  intros (pool & _ & ([[[p1 pool1] l] pks1] & E1 & (pks2 & E2%run_Done & (pool2 & _ & (info & E3%run_Done &
    (pool3 & _ & (pool4 & _ & [= <- <-])%sync_bind_Done)%sync_bind_Done)%sync_bind_Done)%sync_bind_Done)%sync_bind_Done)%sync_bind_Done)%sync_bind_Done Hadd.
  destruct (relay_loop_law _ _ _ _ _ _ _ E1) as (F1 & C1 & Q1). pose proof (relay_sends_law _ _ _ E2) as Q2.
  split; [eapply framed_trans; [exact F1|done]|]. split.
  - rewrite !Forall_app. split; [done|]. split; [done|]. apply Forall_singleton.
    refine (send_quiet _ _ _ _ _ _ E3); [known|not_phase].
  - unfold tip in *. destruct added; cbn; [by rewrite Hadd|by rewrite C1].
Qed.

Lemma relay_Commit_law p m now pks p' : relay_Commit p m now = Done (pks, p') ->
  framed p p' /\ Forall (fun pk => quiet pk.2) pks /\
  exists r b, requestPool p !! cm_Digest m = Some r /\ holds_block r b /\
    (extends (tip p) b -> same_block (tip p') b) /\ (~ extends (tip p) b -> same_block (tip p') (tip p)).
Proof.
  unfold relay_Commit. intros (r & Er%run_Done%of_option_Ret & (b & Eb%run_Done & ([ok bc] & Ea%run_Done & E)%sync_bind_Done)%sync_bind_Done)%sync_bind_Done.
  assert (requestPool p !! cm_Digest m = Some (Some r)) as Hr by (destruct (requestPool p !! cm_Digest m); cbn in Er; congruence).
  assert (holds_block (Some r) b) as Hb.
  { exists r. split; [done|]. by apply of_option_Ret. }
  assert (framed p p' /\ Forall (fun pk => quiet pk.2) pks /\ same_block (tip p') (mb_CurrentBlock bc)) as (HF & HQ & HT).
  { revert E. destruct (_ =? _).
    - intros E. destruct (relay_primary_law _ _ _ _ _ _ _ E) as (F & Q & T).
      { intros ->. by destruct (AddBlock_tip _ _ _ _ Ea) as [(_ & _ & ?)|(_ & ? & _)]. }
      split; [eapply framed_trans; [|exact F]; done|]. split; [done|exact T].
    - intros [= <- <-]. split; [done|]. split; [done|]. reflexivity. }
  split; [done|]. split; [done|]. exists (Some r), b. split; [done|]. split; [done|].
  destruct (AddBlock_tip _ _ _ _ Ea) as [(Hx & _ & <-)|(Hx & _ & ->)]; by split.
Qed.

(** What holds of each request added holds of the whole loop. *)
Lemma sequential_loop_ind {A} (f : A -> option Request -> outcome A) (P : A -> Prop) rs0 :
  (forall a r a', P a -> r ∈ rs0 -> f a r = Ret a' -> P a') ->
  forall rs a h last a', rs ⊆ rs0 -> P a -> sequential_loop f a rs h last = Ret a' -> P a'.
Proof.
  intros Hf. induction rs as [|r rs IH]; intros a h last a' Hs Ha; cbn [sequential_loop]; destruct (h <=? last); try done;
    try by intros [= <-].
  intros (a1 & E1 & E)%outcome_bind_Ret. eapply IH; [|eapply Hf; [exact Ha| |exact E1]|exact E]; set_solver.
Qed.

Lemma relay_add_loop rs bc h last bc' : sequential_loop relay_add bc rs h last = Ret bc' ->
  mb_CurrentBlock bc' = mb_CurrentBlock bc \/ exists r b, r ∈ rs /\ holds_block r b /\ mb_CurrentBlock bc' = b.
Proof.
  apply (sequential_loop_ind relay_add (fun bc' => mb_CurrentBlock bc' = mb_CurrentBlock bc \/
    exists r b, r ∈ rs /\ holds_block r b /\ mb_CurrentBlock bc' = b) rs); [|done|by left].
  intros bc1 r bc2 H1' Hr. unfold relay_add. intros (rq & ->%of_option_Ret & E1)%outcome_bind_Ret. revert E1.
  case_bool_decide; [|by intros [= <-]].
  intros (b & Eb & ([ok bc3] & Ea & [= <-])%outcome_bind_Ret)%outcome_bind_Ret.
  destruct (AddBlock_tip _ _ _ _ Ea) as [(_ & _ & Ht)|(_ & _ & ->)]; [|done].
  right. exists (Some rq), b. split; [done|]. split; [|done]. exists rq. split; [done|]. by apply of_option_Ret.
Qed.

(** Adding received blocks leaves the tip or moves it to one of them. *)
Lemma relay_added_law p rs h last bc s : sequential_loop relay_add (CurChain p) rs h last = Ret bc ->
  framed p (pn_with_sequence (pn_with_chain p bc) s) /\
  (same_block (tip (pn_with_sequence (pn_with_chain p bc) s)) (tip p) \/
   exists r b, r ∈ rs /\ holds_block r b /\ same_block (tip (pn_with_sequence (pn_with_chain p bc) s)) b).
Proof.
  intros E. split; [done|]. change (tip (pn_with_sequence (pn_with_chain p bc) s)) with (mb_CurrentBlock bc).
  destruct (relay_add_loop _ _ _ _ _ E) as [->|(r & b & Hin & Hb & ->)]; [left; reflexivity|].
  right. exists r, b. split; [done|]. split; [done|]. reflexivity.
Qed.

Lemma relay_Sequential_law p m p' : relay_Sequential p m = Ret p' ->
  framed p p' /\
  (same_block (tip p') (tip p) \/ exists r b, r ∈ so_Requests m /\ holds_block r b /\ same_block (tip p') b).
Proof.
  unfold relay_Sequential. destruct (negb _); [intros [= <-]; split; [done|left; reflexivity]|].
  intros (bc & Ebc & [= <-])%outcome_bind_Ret. by eapply relay_added_law.
Qed.

#[export] Instance relay_laws : ExtraOpLaws.
Proof.
  split.
  - exact relay_Propose_law.
  - exact relay_PrePrepare_law.
  - by intros p m p' [= ->].
  - by intros p m p' [= ->].
  - exact relay_Commit_law.
  - exact relay_Sequential_law.
Qed.

(** Messages of other shards change the pool of transactions at most. *)
Class OpInterShardsLaws `{!OpInterShards} : Prop := {
  law_outside p t c nows p' : HandleMessageOutsidePBFT p t c nows = Done p' -> framed p p' /\ tip p' = tip p;
}.

Lemma to_txpool_law p f p' : to_txpool p f = Done p' -> framed p p' /\ tip p' = tip p.
Proof. unfold to_txpool. by intros (pool & _ & (pool' & _ & [= <-])%sync_bind_Done)%sync_bind_Done. Qed.

#[export] Instance relay_outside_laws : OpInterShardsLaws.
Proof.
  split. intros p t c nows p'. unfold HandleMessageOutsidePBFT, RawRelayOutsideModule. repeat case_bool_decide.
  - unfold handleRelay. intros (m & _ & (p1 & E & [= <-])%sync_bind_Done)%sync_bind_Done.
    destruct (to_txpool_law _ _ _ E) as [F T]. split; [|exact T]. eapply framed_trans; [exact F|done].
  - unfold handleInjectTx. intros (m & _ & E)%sync_bind_Done. by eapply to_txpool_law.
  - by intros [= <-].
Qed.
End laws.

(** ** Replicas and their network *)

Section cluster.
Context `{EthDB} `{FastCache} `{HashEnv} `{EthCommon} `{RLP} `{StateAccountRLP} `{!MemoryDB}.
Context `{Bolt} `{Gob AccountState} `{Gob Transaction} `{Gob Block} `{Gob BlockHeader}.
Context `{Sha256} `{Params}.
Context `{Json (option Request)} `{Json PrePrepare} `{Json Prepare} `{Json Pbft.Commit} `{Json RequestOldMessage}.
Context `{Json SendOldMessage} `{Json Relay} `{Json InjectTxs} `{Json BlockInfoMsg} `{Json ClientTxSend}.
Context `{Json ClientRequestTxProof} `{Json ClientRequestAccountState} `{Json TxOnChainProof}.
Context `{Json AccountStateForClient}.
Context `{!ExtraOpInConsensus} `{!ExtraOpLaws} `{!OpInterShards} `{!OpInterShardsLaws}.

(** The replicas by identifier, every packet sent so far, and the requests the
    primary has proposed, in order. *)
Record cluster := mkCluster { replicas : gmap Z PbftNode; net : list packet; proposed : list (option Request) }.

(** The primary proposes; a packet sent at some time arrives at a replica with its
    address, any number of times and in any order; or a message comes from outside,
    anything but the three kinds that carry or confirm requests. *)
Inductive pstep (c : cluster) : cluster -> Prop :=
| ps_propose i p now o pks p' :
    replicas c !! i = Some p -> Propose p now = Done (Some (o, pks, p')) ->
    pstep c (mkCluster (<[i := p']> (replicas c)) (net c ++ pks) (proposed c ++ option_list o))
| ps_deliver i p frame nows waits pks p' :
    replicas c !! i = Some p -> (nd_IPaddr (RunningNode p), frame) ∈ net c ->
    handleMessage p (frame ++ [10]) nows waits = Done (pks, p') ->
    pstep c (mkCluster (<[i := p']> (replicas c)) (net c ++ pks) (proposed c))
| ps_outside i p frame nows waits pks p' :
    replicas c !! i = Some p -> quiet frame -> handleMessage p (frame ++ [10]) nows waits = Done (pks, p') ->
    pstep c (mkCluster (<[i := p']> (replicas c)) (net c ++ pks) (proposed c)).

(** Replicas that start on the block [g], with the primary [pi]. *)
Record started_on (g : Block) (pi i : Z) (p : PbftNode) : Prop := {
  so_id : pn_NodeID p = i;
  so_view : view p = pi;
  so_tip : same_block (tip p) g;
  so_pool : requestPool p = ∅;
  so_reply : isReply p = ∅;
  so_seq : sequenceLock p = false;
  so_ask : askForLock p = false;
  so_at : pn_at p = AtStart;
}.

Inductive run_from (g : Block) (pi : Z) : cluster -> Prop :=
| run_start rs : (forall i p, rs !! i = Some p -> started_on g pi i p) -> run_from g pi (mkCluster rs [] [])
| run_step c c' : run_from g pi c -> pstep c c' -> run_from g pi c'.

(** ** The chain of the proposed blocks *)

Inductive chained (g : Block) : list (option Request) -> Block -> Prop :=
| chained_nil : chained g [] g
| chained_snoc l r t b : chained g l t -> holds_block r b -> extends t b -> chained g (l ++ [r]) b.

Definition proposed_block (g : Block) (l : list (option Request)) (b : Block) : Prop :=
  b = g \/ exists r, r ∈ l /\ holds_block r b.

Lemma holds_block_fun r a b : holds_block r a -> holds_block r b -> a = b.
Proof. intros (q & -> & Ha) (q' & [= <-] & Hb). congruence. Qed.

Lemma extends_same t t' b : same_block t t' -> extends t b -> extends t' b.
Proof. intros [Hh Hx]. unfold extends, next_number. by rewrite Hh, Hx. Qed.

Lemma chained_snoc_inv g l r b : chained g (l ++ [r]) b -> exists t, chained g l t /\ holds_block r b /\ extends t b.
Proof.
  inversion 1 as [E|l' r' t b' Hc Hb He E].
  - by destruct l.
  - apply app_inj_tail in E as [-> ->]. by exists t.
Qed.

Lemma chained_numbers g l b : chained g l b -> 0 <= Number (Header g) -> Number (Header g) + Z.of_nat (length l) < 2 ^ 64 ->
  Number (Header b) = Number (Header g) + Z.of_nat (length l) /\
  (forall x, proposed_block g l x -> Number (Header x) <= Number (Header b)) /\
  (forall x y, proposed_block g l x -> proposed_block g l y -> Number (Header x) = Number (Header y) -> x = y).
Proof.
  intros Hc. induction Hc as [|l r t b Hc IH Hb [Hn _]]; intros Hg Hlt.
  - split; [cbn; lia|]. split.
    + intros x [->|(r & Hin & _)]; [lia|by apply not_elem_of_nil in Hin].
    + intros x y [->|(r & Hin & _)] [->|(r' & Hin' & _)] _; try done; by apply not_elem_of_nil in Hin || apply not_elem_of_nil in Hin'.
  - rewrite length_app in Hlt. cbn [length] in Hlt. destruct IH as (IHn & IHle & IHu); [done|lia|].
    unfold next_number in Hn. rewrite wrap_u_small in Hn by (unfold is_u; lia).
    assert (forall x, proposed_block g (l ++ [r]) x -> proposed_block g l x \/ x = b) as Hsplit.
    { intros x [->|(r' & [Hin| ->%list_elem_of_singleton]%elem_of_app & Hx)]; [left; by left|left; right; by exists r'|].
      right. by eapply holds_block_fun. }
    split; [rewrite length_app; cbn [length]; lia|]. split.
    + intros x [Hx%IHle| ->]%Hsplit; lia.
    + intros x y [Hx| ->]%Hsplit [Hy| ->]%Hsplit Hxy; [by apply IHu| | |done].
      * apply IHle in Hx. lia.
      * apply IHle in Hy. lia.
Qed.

(** ** The invariant *)

Record node_ok (g : Block) (pi : Z) (l : list (option Request)) (i : Z) (p : PbftNode) : Prop := {
  no_id : pn_NodeID p = i;
  no_view : view p = pi;
  no_pool : forall d r, requestPool p !! d = Some r -> r ∈ l /\ getDigest r = Ret d;
  no_tip : exists b, proposed_block g l b /\ same_block (tip p) b;
}.

(** All proposed requests but possibly the last one are replied; the lock tells. *)
Definition replied (p : PbftNode) (l : list (option Request)) : Prop :=
  forall r d, r ∈ l -> getDigest r = Ret d -> d ∈ isReply p.

Record primary_ok (g : Block) (l : list (option Request)) (p : PbftNode) : Prop := {
  po_ask : askForLock p = false;
  po_at : pn_at p = AtStart;
  po_all : forall r d, r ∈ l -> getDigest r = Ret d -> is_Some (requestPool p !! d);
  po_reply : forall d, d ∈ isReply p -> exists r, r ∈ l /\ getDigest r = Ret d;
  po_free : sequenceLock p = false -> replied p l /\ exists b, chained g l b /\ same_block (tip p) b;
  po_busy : sequenceLock p = true -> exists l0 r d t b, l = l0 ++ [r] /\ chained g l0 t /\ same_block (tip p) t /\
    holds_block r b /\ extends t b /\ getDigest r = Ret d /\ d ∉ isReply p /\ replied p l0;
}.

(** What a packet of an honest replica may say. *)
Definition sound (l : list (option Request)) (frame : list Z) : Prop :=
  forall t c, SplitMessage (frame ++ [10]) = Ret (t, c) ->
    (t = string_bytes "preprepare" -> forall m : PrePrepare, json_Unmarshal c = Some m -> pp_Request m ∈ l) /\
    (t = string_bytes "commit" -> forall m : Pbft.Commit, json_Unmarshal c = Some m ->
       exists r, r ∈ l /\ getDigest r = Ret (cm_Digest m)) /\
    (t = string_bytes "sendOldrequest" -> forall m : SendOldMessage, json_Unmarshal c = Some m ->
       forall r, r ∈ so_Requests m -> r ∈ l).

Lemma sound_quiet l frame : quiet frame -> sound l frame.
Proof.
  intros Hq t c E. specialize (Hq t c E). repeat split; intros ->; exfalso; apply Hq; unfold phases; set_solver.
Qed.

Lemma sound_mono l l' frame : l ⊆ l' -> sound l frame -> sound l' frame.
Proof.
  intros Hs Hf t c E. destruct (Hf t c E) as (H1' & H2' & H3'). repeat split; intros Ht m Em.
  - by apply Hs, H1'.
  - destruct (H2' Ht m Em) as (r & Hr & Hd). exists r. split; [by apply Hs|done].
  - intros r Hr. by apply Hs, (H3' Ht m Em).
Qed.

Context `{!JsonExact PrePrepare} `{!JsonExact Pbft.Commit} `{!JsonExact SendOldMessage}.
Context (digest_inj : forall r r' d, getDigest r = Ret d -> getDigest r' = Ret d -> r = r').

(** ** What is sent *)

Lemma broadcast_split {A} `{Json A} (p : PbftNode) t (m : A) pks :
  t ∈ all_types -> broadcast p t m = Ret pks ->
  exists b, json_Marshal m = Some b /\
    Forall (fun pk => SplitMessage (pk.2 ++ [10]) = Ret (string_bytes t, b ++ [10])) pks.
Proof.
  intros Ht. unfold broadcast. intros ([ip frame] & E & [= <-])%outcome_bind_Ret.
  destruct (send_split t m "" (ip, frame) Ht E) as (b & f & Eb & [= -> ->] & Es). exists b. split; [done|].
  apply Forall_fmap, Forall_forall. by intros ip' _.
Qed.

Lemma prepare_quiet p d seq pks : prepare p d seq = Ret pks -> Forall (fun pk => quiet pk.2) pks.
Proof.
  intros E. destruct (broadcast_split p "prepare" (mkPrepare d seq (Some (RunningNode p))) pks ltac:(known) E) as (b & _ & Hf).
  eapply Forall_impl; [exact Hf|]. intros pk Es t c Es'. cbn beta in Es. rewrite Es in Es'. injection Es' as <- _. not_phase.
Qed.

Ltac type_differs := exfalso; match goal with Ht : string_bytes _ = string_bytes _ |- _ => revert Ht; vm_compute; discriminate end.

Lemma sound_split l frame t c : SplitMessage (frame ++ [10]) = Ret (t, c) ->
  (t = string_bytes "preprepare" -> forall m : PrePrepare, json_Unmarshal c = Some m -> pp_Request m ∈ l) ->
  (t = string_bytes "commit" -> forall m : Pbft.Commit, json_Unmarshal c = Some m ->
     exists r, r ∈ l /\ getDigest r = Ret (cm_Digest m)) ->
  (t = string_bytes "sendOldrequest" -> forall m : SendOldMessage, json_Unmarshal c = Some m ->
     forall r, r ∈ so_Requests m -> r ∈ l) -> sound l frame.
Proof. intros Es P1 P2 P3 t' c' Es'. rewrite Es in Es'. by injection Es' as <- <-. Qed.

Lemma preprepare_sound p l r d seq pks : r ∈ l -> broadcast p "preprepare" (mkPrePrepare r d seq) = Ret pks ->
  Forall (fun pk => sound l pk.2) pks.
Proof.
  intros Hr E. destruct (broadcast_split p "preprepare" (mkPrePrepare r d seq) pks ltac:(known) E) as (b & Eb & Hf).
  eapply Forall_impl; [exact Hf|]. intros pk Es. eapply sound_split; [exact Es|..]; intros Ht m Em; [|type_differs..].
  by rewrite (json_exact _ _ _ Eb Em).
Qed.

Lemma commit_sound p l r d seq n pks : r ∈ l -> getDigest r = Ret d -> broadcast p "commit" (mkCommit d seq n) = Ret pks ->
  Forall (fun pk => sound l pk.2) pks.
Proof.
  intros Hr Hd E. destruct (broadcast_split p "commit" (mkCommit d seq n) pks ltac:(known) E) as (b & Eb & Hf).
  eapply Forall_impl; [exact Hf|]. intros pk Es. eapply sound_split; [exact Es|..]; intros Ht m Em; [type_differs| |type_differs].
  rewrite (json_exact _ _ _ Eb Em). by exists r.
Qed.

Lemma sendOld_sound l m addr pk : (forall r, r ∈ so_Requests m -> r ∈ l) -> send "sendOldrequest" m addr = Ret pk ->
  sound l pk.2.
Proof.
  intros Hr E. destruct (send_split "sendOldrequest" m addr pk ltac:(known) E) as (b & frame & Eb & -> & Es).
  eapply sound_split; [exact Es|..]; intros Ht m' Em; [type_differs..|]. by rewrite (json_exact _ _ _ Eb Em).
Qed.

(** ** Handlers that commit nothing *)

(** The node keeps its block, its replies and its locks, and learns only proposed
    requests. *)
Record kept (l : list (option Request)) (p p' : PbftNode) : Prop := {
  k_id : pn_NodeID p' = pn_NodeID p;
  k_view : view p' = view p;
  k_pool : forall d r, requestPool p' !! d = Some r -> requestPool p !! d = Some r \/ (r ∈ l /\ getDigest r = Ret d);
  k_dom : forall d, is_Some (requestPool p !! d) -> is_Some (requestPool p' !! d);
  k_reply : isReply p' = isReply p;
  k_seq : sequenceLock p' = sequenceLock p;
  k_ask : askForLock p' = askForLock p;
  k_at : pn_at p' = pn_at p;
  k_tip : same_block (tip p') (tip p);
}.

Lemma kept_framed l p p' : framed p p' -> same_block (tip p') (tip p) -> kept l p p'.
Proof. intros [] Ht. split; try done; intros; [left|]; congruence. Qed.

Lemma kept_note l p d r h : r ∈ l -> getDigest r = Ret d -> kept l p (pn_with_requests p (<[d := r]> (requestPool p)) h).
Proof.
  intros Hr Hd. split; try done; cbn.
  - intros d' r' [[<- <-]|[_ E]]%lookup_insert_Some; auto.
  - intros d' Hd'. destruct (decide (d = d')) as [->|Hne]; [rewrite lookup_insert_eq; by eexists|by rewrite lookup_insert_ne].
Qed.

Lemma kept_trans l p q r : kept l p q -> kept l q r -> kept l p r.
Proof.
  intros [A1 A2 A3 A4 A5 A6 A7 A8 A9] [B1 B2 B3 B4 B5 B6 B7 B8 B9]. split; try congruence.
  - intros d x E. destruct (B3 d x E) as [E'|?]; [by apply A3|by right].
  - auto.
  - by etrans.
Qed.

Lemma kept_node g pi l i p p' : kept l p p' -> node_ok g pi l i p -> node_ok g pi l i p'.
Proof.
  intros [A1 A2 A3 A4 A5 A6 A7 A8 A9] [B1 B2 B3 (b & Hb & Ht)]. split; try congruence.
  - intros d r E. destruct (A3 d r E) as [E'|?]; [by apply B3|done].
  - exists b. split; [done|]. by etrans.
Qed.

Lemma kept_primary g l p p' : kept l p p' -> primary_ok g l p -> primary_ok g l p'.
Proof.
  intros [A1 A2 A3 A4 A5 A6 A7 A8 A9] [B1 B2 B3 B4 B5 B6]. split; unfold replied in *; rewrite ?A5, ?A6, ?A7, ?A8; try done.
  - intros r d Hr Hd. by eapply A4, B3.
  - intros Hs. destruct (B5 Hs) as (Hrep & b & Hc & Ht). split; [done|]. exists b. split; [done|]. by etrans.
  - intros Hs. destruct (B6 Hs) as (l0 & r & d & t & b & -> & Hc & Ht & ?). exists l0, r, d, t, b.
    split; [done|]. split; [done|]. split; [by etrans|done].
Qed.

Lemma handlePrePrepare_kept l p m pks p' : handlePrePrepare p m = Ret (pks, p') -> pp_Request m ∈ l ->
  kept l p p' /\ Forall (fun pk => quiet pk.2) pks.
Proof.
  unfold handlePrePrepare. intros (d & Ed & E)%outcome_bind_Ret Hin. revert E.
  case_bool_decide as Hd; cbn [negb]; [|intros [= <- <-]; split; [by apply kept_framed|done]].
  destruct (_ <? _); [intros [= <- <-]; split; [by apply kept_note|done]|].
  intros ([flag p1] & E1 & E)%outcome_bind_Ret. destruct (law_preprepare _ _ _ _ E1) as [_ Hp1].
  assert (kept l p p1) as K1.
  { destruct Hp1 as [->|Hp1]; [by apply kept_framed|]. rewrite Hp1. apply kept_note; [done|congruence]. }
  assert (kept l p (pn_with_requests p1 (<[d := pp_Request m]> (requestPool p1)) (<[pp_SeqID m := d]> (height2Digest p1)))) as K2.
  { eapply kept_trans; [exact K1|]. by apply kept_note. }
  revert E. destruct flag; [|by intros [= <- <-]].
  intros (pks1 & E2 & [= <- <-])%outcome_bind_Ret. split; [done|]. by eapply prepare_quiet.
Qed.

Lemma handlePrepare_kept g pi l i p m pks p' : handlePrepare p m = Ret (pks, p') -> node_ok g pi l i p ->
  kept l p p' /\ Forall (fun pk => sound l pk.2) pks.
Proof.
  unfold handlePrepare. intros E Hn. destruct (requestPool p !! pr_Digest m) as [r|] eqn:Er;
    [|injection E as <- <-; split; [by apply kept_framed|done]].
  revert E. destruct (_ <? _); [intros [= <- <-]; split; [by apply kept_framed|done]|].
  intros (p1 & E1 & E)%outcome_bind_Ret. apply law_prepare in E1 as ->. revert E.
  destruct (_ && _); [|intros [= <- <-]; split; [by apply kept_framed|done]].
  intros (pks1 & E2 & [= <- <-])%outcome_bind_Ret. split; [by apply kept_framed|].
  destruct (no_pool _ _ _ _ _ Hn _ _ Er) as [Hr Hd]. by eapply commit_sound.
Qed.

Lemma collect_old_pool n : forall p h e r, r ∈ collect_old n p h e -> exists d, requestPool p !! d = Some r.
Proof.
  induction n as [|n IH]; intros p h e r Hin; cbn in Hin; [by apply not_elem_of_nil in Hin|].
  destruct (h <=? e); [|by apply not_elem_of_nil in Hin].
  destruct (height2Digest p !! h) as [d|]; cbn in Hin; [|by apply not_elem_of_nil in Hin].
  destruct (requestPool p !! d) as [r'|] eqn:E; [|by apply not_elem_of_nil in Hin].
  apply elem_of_cons in Hin as [->|Hin]; [by exists d|by eapply IH].
Qed.

Lemma handleRequestOldSeq_kept g pi l i p m pks p' : handleRequestOldSeq p m = Ret (pks, p') -> node_ok g pi l i p ->
  kept l p p' /\ Forall (fun pk => sound l pk.2) pks.
Proof.
  unfold handleRequestOldSeq. intros E Hn. revert E.
  destruct (negb _); [intros [= <- <-]; split; [by apply kept_framed|done]|].
  intros (sender & _ & (p1 & E1 & (pk & E2 & [= <- <-])%outcome_bind_Ret)%outcome_bind_Ret)%outcome_bind_Ret.
  apply law_old in E1 as ->. split; [by apply kept_framed|]. apply Forall_singleton.
  eapply sendOld_sound; [|exact E2]. cbn [so_Requests]. intros r Hr. destruct (collect_old_pool _ _ _ _ _ Hr) as [d Ed].
  by apply (no_pool _ _ _ _ _ Hn d r).
Qed.

(** ** Committing *)

Lemma proposed_mono g l l' b : l ⊆ l' -> proposed_block g l b -> proposed_block g l' b.
Proof. intros Hs [->|(r & Hr & Hb)]; [by left|right]. exists r. split; [by apply Hs|done]. Qed.

(** A commit keeps the node on proposed blocks. *)
Lemma HandleinCommit_node g pi l i p m now pks p' : HandleinCommit p m now = Done (pks, p') ->
  node_ok g pi l i p -> node_ok g pi l i p' /\ Forall (fun pk => sound l pk.2) pks.
Proof.
  intros E [N1 N2 N3 (b0 & Hb0 & Ht0)].
  destruct (law_commit _ _ _ _ _ E) as ([F1 F2 F3 F4 F5 F6 F7] & Hq & r & b & Hr & Hb & Hyes & Hno).
  split; [|eapply Forall_impl; [exact Hq|]; intros pk; apply sound_quiet].
  split; rewrite ?F1, ?F2, ?F3; try done.
  destruct (decide (Number (Header b) = next_number (tip p) /\ ParentBlockHash (Header b) = b_Hash (tip p))) as [Hx|Hx].
  - exists b. split; [|by apply Hyes]. right. exists r. split; [by apply (N3 _ _ Hr)|done].
  - exists b0. split; [done|]. etrans; [by apply Hno|done].
Qed.

Lemma handleCommit_node g pi l i p m now pks p' : handleCommit p m now = Done (pks, p') ->
  node_ok g pi l i p -> node_ok g pi l i p' /\ Forall (fun pk => sound l pk.2) pks.
Proof.
  unfold handleCommit. intros (n & _ & E)%sync_bind_Done Hn.
  set (q := set2DMap p false (cm_Digest m) (decoded_ptr p (cm_Sender m))) in *.
  assert (node_ok g pi l i q) as Hq by (eapply kept_node; [|exact Hn]; by apply kept_framed).
  revert E. destruct (_ && _); [|by intros [= <- <-]].
  intros ([pks1 p1] & E1 & (p2 & E2 & [= <- <-])%sync_bind_Done)%sync_bind_Done.
  assert (node_ok g pi l i p1 /\ Forall (fun pk => sound l pk.2) pks1) as [Hp1 Hs].
  { revert E1. destruct (requestPool q !! cm_Digest m) as [r|].
    - intros ([pks2 p3] & E3 & [= <- <-])%sync_bind_Done. destruct (HandleinCommit_node _ _ _ _ _ _ _ _ _ E3 Hq) as [[] ?].
      split; [|done]. by split.
    - cbn [askForLock pn_with_flags]. destruct (askForLock q); [done|].
      intros (pk & E3%run_Done & [= <- <-])%sync_bind_Done. split; [destruct Hq; by split|].
      apply Forall_singleton, sound_quiet. unfold ask_old in E3. refine (send_quiet _ _ _ _ _ _ E3); [known|not_phase]. }
  split; [|done]. revert E2. destruct (_ =? _); [|by intros [= <-]].
  unfold unlock_sequence. destruct (sequenceLock p1); [|done]. intros [= <-]. destruct Hp1. by split.
Qed.

(** The primary commits exactly its pending request. *)
Lemma handleCommit_primary g pi l p m now pks p' : handleCommit p m now = Done (pks, p') ->
  node_ok g pi l pi p -> primary_ok g l p -> (exists r, r ∈ l /\ getDigest r = Ret (cm_Digest m)) -> primary_ok g l p'.
Proof.
  unfold handleCommit. intros (n & _ & E)%sync_bind_Done Hn0 Hpo0 (r0 & Hr0 & Hd0).
  set (q := set2DMap p false (cm_Digest m) (decoded_ptr p (cm_Sender m))) in *.
  assert (kept l p q) as Kq by (by apply kept_framed).
  pose proof (kept_node _ _ _ _ _ _ Kq Hn0) as Hn. pose proof (kept_primary _ _ _ _ Kq Hpo0) as Hpo.
  revert E. clearbody q. clear Kq Hn0 Hpo0. destruct (_ && negb _) eqn:Eth; [|by intros [= <- <-]].
  apply andb_true_iff in Eth as [_ Hnr%negb_true_iff%bool_decide_eq_false].
  intros ([pks1 p1] & E1 & (p2 & E2 & [= _ <-])%sync_bind_Done)%sync_bind_Done.
  destruct Hpo as [P1 P0 P2 P3 P4 P5].
  destruct (P2 _ _ Hr0 Hd0) as [r' Er']. rewrite Er' in E1.
  assert (r' = r0) as ->.
  { destruct (no_pool _ _ _ _ _ Hn _ _ Er') as [_ Hd']. by eapply digest_inj. }
  assert (sequenceLock q = true) as Hlk.
  { destruct (sequenceLock q); [done|]. destruct (P4 eq_refl) as [Hrep _]. exfalso. by eapply Hnr, Hrep. }
  destruct (P5 Hlk) as (l0 & r & d & t & b & El & Hc & Ht & Hb & Hx & Hd & Hdn & Hrep).
  assert (r0 = r) as ->.
  { rewrite El in Hr0. apply elem_of_app in Hr0 as [Hr0| ->%list_elem_of_singleton]; [|done].
    exfalso. by eapply Hnr, Hrep. }
  revert E1. intros ([pks2 p3] & E3 & [= <- <-])%sync_bind_Done.
  destruct (law_commit _ _ _ _ _ E3) as ([F1 F2 F3 F4 F5 F6 F7] & _ & r'' & b' & Er'' & Hb' & Hyes & _).
  assert (r'' = r) as -> by congruence. assert (b' = b) as -> by (by eapply holds_block_fun).
  assert (same_block (tip p3) b) as Ht3 by (apply Hyes; eapply extends_same; [|done]; by symmetry).
  revert E2. cbn [pn_NodeID view pn_with_sequence pn_with_flags]. rewrite F1, F2, (no_id _ _ _ _ _ Hn), (no_view _ _ _ _ _ Hn), Z.eqb_refl.
  unfold unlock_sequence. cbn [sequenceLock pn_with_sequence pn_with_flags]. rewrite F5, Hlk. intros [= <-].
  split; cbn; rewrite ?F3, ?F4, ?F6, ?F7; try done.
  - intros d' [Hd'|Hd']%elem_of_union; [|by apply P3]. apply elem_of_singleton in Hd' as ->. by exists r.
  - intros _. split.
    + intros r1 d1 Hr1 Hd1. cbn. rewrite El in Hr1. apply elem_of_app in Hr1 as [Hr1|Hr1].
      * apply elem_of_union_r. by eapply Hrep.
      * apply list_elem_of_singleton in Hr1 as ->. apply elem_of_union_l, elem_of_singleton. congruence.
    + exists b. split; [|done]. rewrite El. by eapply chained_snoc.
Qed.

(** ** Catching up and proposing *)

Lemma enter_old_node g pi l i rs : forall p h p', enter_old p h rs = Ret p' -> (forall r, r ∈ rs -> r ∈ l) ->
  node_ok g pi l i p -> node_ok g pi l i p' /\ askForLock p' = askForLock p.
Proof.
  induction rs as [|r rs IH]; intros p h p'; cbn [enter_old]; [by intros [= <-]|].
  intros (d & Ed & E)%outcome_bind_Ret Hl Hn.
  destruct (IH _ _ _ E) as [? Ha]; [by intros r' Hr'; apply Hl; right| |].
  - assert (node_ok g pi l i (pn_with_requests p (<[d := r]> (requestPool p)) (<[h := d]> (height2Digest p)))) as [].
    { eapply kept_node; [|exact Hn]. apply kept_note; [apply Hl; left|done]. }
    by split.
  - split; [done|]. by rewrite Ha.
Qed.

Lemma handleSendOldSeq_node g pi l i p m pks p' : handleSendOldSeq p m = Done (pks, p') ->
  node_ok g pi l i p -> (forall r, r ∈ so_Requests m -> r ∈ l) ->
  node_ok g pi l i p' /\ Forall (fun pk => sound l pk.2) pks /\ askForLock p = true.
Proof.
  unfold handleSendOldSeq. intros (p1 & E1%run_Done & (p2 & E2%run_Done & ([pks3 p3] & E3%run_Done & E)%sync_bind_Done)%sync_bind_Done)%sync_bind_Done Hn Hl.
  assert (node_ok g pi l i p1 /\ askForLock p1 = askForLock p) as [Hn1 Ha1].
  { destruct (law_sequential _ _ _ E1) as ([F1 F2 F3 F4 F5 F6 F7] & Ht). split; [|done].
    destruct Hn as [N1 N2 N3 (b & Hb & Htb)]. split; rewrite ?F1, ?F2, ?F3; try done.
    destruct Ht as [Ht|(r & b' & Hr & Hb' & Ht)]; [exists b; split; [done|by etrans]|].
    exists b'. split; [right; exists r; split; [by apply Hl|done]|done]. }
  destruct (enter_old_node _ _ _ _ _ _ _ _ E2 Hl Hn1) as [Hn2 Ha2].
  set (q := pn_with_sequence p2 (u64 (so_End m + 1))) in *.
  assert (node_ok g pi l i q) as Hq by (eapply kept_node; [|exact Hn2]; by apply kept_framed).
  assert (kept l q p3 /\ Forall (fun pk => sound l pk.2) pks3) as [K3 Hs].
  { revert E3. destruct (height2Digest q !! sequenceID q) as [d|]; cbn [mbind option_bind];
      [|intros [= <- <-]; split; [by apply kept_framed|done]].
    destruct (requestPool q !! d) as [r|] eqn:Er; [|intros [= <- <-]; split; [by apply kept_framed|done]].
    intros (d' & Ed' & ([flag p4] & E4 & E5)%outcome_bind_Ret)%outcome_bind_Ret.
    destruct (no_pool _ _ _ _ _ Hq _ _ Er) as [Hr _].
    assert (kept l q p4) as K4.
    { destruct (law_preprepare _ _ _ _ E4) as [_ [->| ->]]; [by apply kept_framed|by apply kept_note]. }
    revert E5. destruct flag; [|by intros [= <- <-]].
    intros (pks5 & E6 & [= <- <-])%outcome_bind_Ret. split; [done|].
    eapply Forall_impl; [by eapply prepare_quiet|]. intros pk. apply sound_quiet. }
  revert E. destruct (askForLock p3) eqn:Ea; [|done]. intros [= <- <-].
  assert (node_ok g pi l i p3) as [] by (by eapply kept_node).
  split; [by split|]. split; [done|]. rewrite <- Ha1, <- Ha2. change (askForLock p2) with (askForLock q).
  by rewrite <- (k_ask _ _ _ K3).
Qed.

Lemma node_ok_mono g pi l l' i p : l ⊆ l' -> node_ok g pi l i p -> node_ok g pi l' i p.
Proof.
  intros Hs [N1 N2 N3 (b & Hb & Ht)]. split; try done.
  - intros d r E. destruct (N3 d r E). split; [by apply Hs|done].
  - exists b. split; [by eapply proposed_mono|done].
Qed.

Lemma propose_round_ok g pi l p now o pks p' : propose_round p now = Done (o, pks, p') ->
  0 <= Number (Header g) -> Number (Header g) + Z.of_nat (length (l ++ option_list o)) < 2 ^ 64 ->
  node_ok g pi l pi p -> primary_ok g l p ->
  exists r, o = Some r /\
  node_ok g pi (l ++ [r]) pi p' /\ primary_ok g (l ++ [r]) p' /\ Forall (fun pk => sound (l ++ [r]) pk.2) pks /\
  exists b, chained g (l ++ [r]) b.
Proof.
  unfold propose_round. intros E Hg Hlt Hn [P1 P0 P2 P3 P4 _]. revert E. rewrite bool_decide_true by done.
  destruct (sequenceLock p) eqn:Elk; [done|].
  intros (p0 & [= <-] & ([[sent o1] p1] & E1 & E)%sync_bind_Done)%sync_bind_Done.
  destruct (law_propose _ _ _ _ _ E1) as ([F1 F2 F3 F4 F5 F6 F7] & Ht1 & -> & r & b & -> & Hb & Hx). cbn in F1, F2, F3, F4, F5, F6, F7. change (tip (pn_with_locks _ _ _)) with (tip p) in Ht1, Hx.
  apply sync_bind_Done in E as (d & Ed%run_Done & (pks1 & E2%run_Done & [= <- <- <-])%sync_bind_Done).
  rewrite length_app in Hlt. cbn in Hlt. exists r. split; [done|]. cbn [app].
  destruct (P4 eq_refl) as (Hrep & t & Hc & Ht).
  assert (chained g (l ++ [r]) b) as Hc'.
  { eapply chained_snoc; [exact Hc|done|]. eapply extends_same; [exact Ht|exact Hx]. }
  assert (r ∉ l) as Hfresh.
  { intros Hin. destruct (chained_numbers g l t Hc Hg ltac:(lia)) as (Hnt & Hle & _).
    assert (Number (Header b) <= Number (Header t)) as Hbt by (apply Hle; right; by exists r).
    destruct (chained_numbers g (l ++ [r]) b Hc' Hg) as (Hnb & _); [rewrite length_app; cbn; lia|].
    rewrite length_app in Hnb. cbn in Hnb. lia. }
  split; [|split; [|split]].
  - destruct Hn as [N1 N2 N3 (b0 & Hb0 & Ht0)]. split; cbn; rewrite ?F1, ?F2; try done.
    + intros d' r' [[<- <-]|[_ E']]%lookup_insert_Some; [split; [set_solver|done]|].
      rewrite F3 in E'. destruct (N3 d' r' E'). split; [set_solver|done].
    + exists b0. split; [eapply proposed_mono; [|done]; set_solver|]. change (tip (pn_with_requests p1 _ _)) with (tip p1).
      rewrite Ht1. exact Ht0.
  - split; cbn; rewrite ?F4, ?F6, ?F7; try done.
    + intros r' d' [Hr'| ->%list_elem_of_singleton]%elem_of_app Hd'.
      * destruct (decide (d = d')) as [->|Hne]; [rewrite lookup_insert_eq; by eexists|].
        rewrite lookup_insert_ne, F3 by done. by eapply P2.
      * assert (d' = d) as -> by congruence. rewrite lookup_insert_eq. by eexists.
    + intros d' Hd'. destruct (P3 d' Hd') as (r' & Hr' & Hd''). exists r'. split; [set_solver|done].
    + rewrite F5. done.
    + intros _. exists l, r, d, t, b. split; [done|]. split; [done|].
      split; [change (tip (pn_with_requests p1 _ _)) with (tip p1); rewrite Ht1; exact Ht|]. split; [done|].
      split; [eapply extends_same; [exact Ht|exact Hx]|]. split; [done|]. split; [|intros r' d' Hr' Hd'; cbn; rewrite ?F4; by eapply Hrep].
      intros Hin. destruct (P3 d Hin) as (r' & Hr' & Hd'). apply Hfresh. by rewrite (digest_inj r r' d).
  - eapply preprepare_sound; [|exact E2]. set_solver.
  - by exists b.
Qed.

(** ** Every message *)

Lemma decoded_Done {A B} `{Json A} c (f : A -> sync B) b : decoded c f = Done b ->
  exists m, json_Unmarshal c = Some m /\ f m = Done b.
Proof. unfold decoded. intros (m & E%run_Done%of_option_Ret & Ef)%sync_bind_Done. by exists m. Qed.

(** A sound message keeps both parts of the invariant. *)
Lemma handleMessage_ok g pi l i p frame nows waits pks p' :
  handleMessage p (frame ++ [10]) nows waits = Done (pks, p') -> sound l frame ->
  node_ok g pi l i p -> (i = pi -> primary_ok g l p) ->
  node_ok g pi l i p' /\ (i = pi -> primary_ok g l p') /\ Forall (fun pk => sound l pk.2) pks.
Proof.
  unfold handleMessage. intros ([t c] & Es%run_Done & E)%sync_bind_Done Hs Hn Hp.
  destruct (Hs t c Es) as (Spp & Scm & Sso). revert E.
  assert (forall q, kept l p q -> Forall (fun pk => sound l pk.2) pks -> p' = q ->
    node_ok g pi l i p' /\ (i = pi -> primary_ok g l p') /\ Forall (fun pk => sound l pk.2) pks) as Hk.
  { intros q K Hq ->. split; [by eapply kept_node|]. split; [|done]. intros Hi. eapply kept_primary; [done|by apply Hp]. }
  assert (forall pks0, Forall (fun pk : packet => quiet pk.2) pks0 -> Forall (fun pk => sound l pk.2) pks0) as Hqs.
  { intros pks0 Hf. eapply Forall_impl; [exact Hf|]. intros pk. apply sound_quiet. }
  case_bool_decide as T1.
  { intros (m & Em & E%run_Done)%decoded_Done. destruct (handlePrePrepare_kept l _ _ _ _ E (Spp T1 m Em)) as [K Q].
    by eapply Hk; [exact K|apply Hqs|]. }
  case_bool_decide as T2.
  { intros (m & Em & E%run_Done)%decoded_Done. destruct (handlePrepare_kept _ _ _ _ _ _ _ _ E Hn) as [K Q]. by eapply Hk. }
  case_bool_decide as T3.
  { intros (m & Em & E)%decoded_Done. destruct (handleCommit_node _ _ _ _ _ _ _ _ _ E Hn) as [Hn' Q].
    split; [done|]. split; [|done]. intros ->. eapply handleCommit_primary; [exact E|done|by apply Hp|by apply Scm]. }
  case_bool_decide as T4.
  { destruct (negb _); [intros [= <- <-]; eapply Hk; [| |reflexivity]; [by apply kept_framed|done]|].
    intros (m & Em & E%run_Done)%decoded_Done. destruct (handleRequestOldSeq_kept _ _ _ _ _ _ _ _ E Hn) as [K Q]. by eapply Hk. }
  case_bool_decide as T5.
  { intros (m & Em & E)%decoded_Done. destruct (handleSendOldSeq_node _ _ _ _ _ _ _ _ E Hn (Sso T5 m Em)) as (Hn' & Q & Ha).
    split; [done|]. split; [|done]. intros Hi. by rewrite (po_ask _ _ _ (Hp Hi)) in Ha. }
  case_bool_decide as T6.
  { intros (q & E & [= <- <-])%sync_bind_Done. revert E. unfold WaitToStop. destruct (_ && (_ || _)); [done|].
    intros [= <-]. eapply Hk; [| |reflexivity]; [by apply kept_framed|done]. }
  case_bool_decide as T7.
  { intros (q & E & [= <- <-])%sync_bind_Done. revert E. unfold handleClientTxSend.
    intros (m & _ & (tx & _ & E)%sync_bind_Done)%sync_bind_Done. destruct (to_txpool_law _ _ _ E) as [[] T].
    eapply Hk; [|done|reflexivity]. apply kept_framed; [by split|]. by rewrite T. }
  case_bool_decide as T8.
  { intros (pks' & E%run_Done & [= <- <-])%sync_bind_Done. eapply Hk; [| |reflexivity]; [by apply kept_framed|apply Hqs].
    revert E. unfold handleClientRequestTxProof, SendProofMsg.
    intros (m & _ & ([[[[[e bh] tr] ht] kl] vl] & _ & (pk & E & [= <-])%outcome_bind_Ret)%outcome_bind_Ret)%outcome_bind_Ret.
    apply Forall_singleton. refine (send_quiet _ _ _ _ _ _ E); [known|not_phase]. }
  case_bool_decide as T9.
  { intros (pks' & E%run_Done & [= <- <-])%sync_bind_Done. eapply Hk; [| |reflexivity]; [by apply kept_framed|apply Hqs].
    revert E. unfold handleRequestAccountState.
    intros (m & _ & ([[[[as_ sid] bh] hh] sr] & _ & (a & _ & (pk & E & [= <-])%outcome_bind_Ret)%outcome_bind_Ret)%outcome_bind_Ret)%outcome_bind_Ret.
    apply Forall_singleton. refine (send_quiet _ _ _ _ _ _ E); [known|not_phase]. }
  intros (q & E & [= <- <-])%sync_bind_Done. destruct (law_outside _ _ _ _ _ E) as [F T].
  eapply Hk; [|done|reflexivity]. apply kept_framed; [done|]. by rewrite T.
Qed.

(** ** Agreement *)

Record inv (g : Block) (pi : Z) (c : cluster) : Prop := {
  inv_node : forall i p, replicas c !! i = Some p -> node_ok g pi (proposed c) i p;
  inv_primary : forall p, replicas c !! pi = Some p -> primary_ok g (proposed c) p;
  inv_net : Forall (fun pk => sound (proposed c) pk.2) (net c);
  inv_chain : exists b, chained g (proposed c) b;
}.

Lemma inv_step g pi c c' : 0 <= Number (Header g) -> Number (Header g) + Z.of_nat (length (proposed c')) < 2 ^ 64 ->
  inv g pi c -> pstep c c' -> inv g pi c'.
Proof.
  intros Hg Hlt [In Ip Inet Ic] Hs.
  assert (forall i p frame nows waits pks p', replicas c !! i = Some p -> sound (proposed c) frame ->
    handleMessage p (frame ++ [10]) nows waits = Done (pks, p') ->
    inv g pi (mkCluster (<[i := p']> (replicas c)) (net c ++ pks) (proposed c))) as Hmsg.
  { intros i p frame nows waits pks p' Hi Hf E.
    destruct (handleMessage_ok g pi (proposed c) i p frame nows waits pks p' E Hf (In i p Hi)) as (Hn' & Hp' & Hq).
    { intros ->. by apply Ip. }
    split; cbn; [| |by apply Forall_app|done].
    - intros j q [[<- <-]|[_ Hq']]%lookup_insert_Some; [done|by apply In].
    - intros q [[-> <-]|[_ Hq']]%lookup_insert_Some; [by apply Hp'|by apply Ip]. }
  destruct Hs as [i p now o pks p' Hi E|i p frame nows waits pks p' Hi Hf E|i p frame nows waits pks p' Hi Hf E].
  - unfold Propose in E. cbn [proposed] in Hlt.
    destruct (view p =? pn_NodeID p) eqn:Ev; cbn [negb] in E; [|done]. apply Z.eqb_eq in Ev.
    apply sync_bind_Done in E as (o' & E & [= ->]).
    assert (i = pi) as -> by (rewrite <- (no_id _ _ _ _ _ (In i p Hi)), <- (no_view _ _ _ _ _ (In i p Hi)); done).
    destruct (propose_round_ok g pi (proposed c) p now o pks p' E Hg Hlt (In pi p Hi) (Ip p Hi))
      as (r & -> & Hn' & Hp' & Hq & b & Hb).
    split; cbn; [| |apply Forall_app; split; [|done]|by exists b].
    + intros j q [[<- <-]|[_ Hq']]%lookup_insert_Some; [done|]. eapply node_ok_mono; [|by apply In]. set_solver.
    + intros q [[_ <-]|[Hne _]]%lookup_insert_Some; [done|by destruct Hne].
    + eapply Forall_impl; [exact Inet|]. intros pk. apply sound_mono. set_solver.
  - eapply Hmsg; [done| |exact E]. rewrite Forall_forall in Inet. exact (Inet _ Hf).
  - eapply Hmsg; [done| |exact E]. by apply sound_quiet.
Qed.

Lemma proposed_grows c c' : pstep c c' -> (length (proposed c) <= length (proposed c'))%nat.
Proof. destruct 1; cbn; rewrite ?length_app; lia. Qed.

Lemma inv_run g pi c : 0 <= Number (Header g) -> run_from g pi c ->
  Number (Header g) + Z.of_nat (length (proposed c)) < 2 ^ 64 -> inv g pi c.
Proof.
  intros Hg Hr. induction Hr as [rs Hrs|c c' Hr IH Hs]; intros Hlt.
  - split; cbn; [| |constructor|exists g; constructor].
    + intros i p Hi. destruct (Hrs i p Hi) as [S1 S2 S3 S4 S5 S6 S7]. split; try done.
      * intros d r. by rewrite S4, lookup_empty.
      * exists g. split; [by left|done].
    + intros p Hi. destruct (Hrs pi p Hi) as [S1 S2 S3 S4 S5 S6 S7]. split; try done.
      * intros r d Hin. by apply not_elem_of_nil in Hin.
      * intros d. rewrite S5. set_solver.
      * intros _. split; [intros r d Hin; by apply not_elem_of_nil in Hin|]. exists g. split; [constructor|done].
      * by rewrite S6.
  - eapply inv_step; [done|exact Hlt| |exact Hs]. apply IH. apply proposed_grows in Hs. lia.
Qed.

(** C8. Agreement: however the network reorders, duplicates and loses messages and
    whatever other shards and clients send, two replicas of a shard that are at the
    same height are on the same block, as long as the primary and the replicas
    follow the code and the height stays below 2^64. *)
Theorem replicas_same_block (g : Block) (pi : Z) (c : cluster) (i j : Z) (p q : PbftNode) :
  0 <= Number (Header g) -> run_from g pi c -> Number (Header g) + Z.of_nat (length (proposed c)) < 2 ^ 64 ->
  replicas c !! i = Some p -> replicas c !! j = Some q ->
  Number (Header (tip p)) = Number (Header (tip q)) ->
  Header (tip p) = Header (tip q) /\ b_Hash (tip p) = b_Hash (tip q).
Proof.
  intros Hg Hr Hlt Hi Hj Hn. destruct (inv_run g pi c Hg Hr Hlt) as [In _ _ (t & Hc)].
  destruct (no_tip _ _ _ _ _ (In i p Hi)) as (b & Hb & Hpb). destruct (no_tip _ _ _ _ _ (In j q Hj)) as (b' & Hb' & Hqb).
  destruct (chained_numbers g _ t Hc Hg Hlt) as (_ & _ & Hu).
  assert (b = b') as <-.
  { apply Hu; [done..|]. destruct Hpb as [<- _], Hqb as [<- _]. done. }
  change (same_block (tip p) (tip q)). etrans; [exact Hpb|by symmetry].
Qed.
End cluster.

(** ** A concrete shard *)

(** A codec for messages that nobody decodes here. *)
Definition mute_json {A} : Json A.
Proof.
  refine {| json_Marshal := fun _ => Some []; json_Unmarshal := fun _ => None; json_valid := fun _ => False |}. done.
Defined.

(** Codecs that write a value in front of a list and read it back. *)
Class Stream (A : Type) := {
  s_put : A -> list Z;
  s_get : list Z -> option (A * list Z);
  s_back : forall a r, s_get (s_put a ++ r) = Some (a, r);
}.

#[local] Instance z_stream : Stream Z.
Proof.
  by refine {| s_put := fun z => [z]; s_get := fun r => match r with z :: r => Some (z, r) | [] => None end |}.
Defined.
#[local] Instance prod_stream {A B} `{Stream A} `{Stream B} : Stream (A * B).
Proof.
  refine {| s_put := fun ab => s_put ab.1 ++ s_put ab.2;
            s_get := fun r => '(a, r) ← s_get r; '(b, r) ← s_get r; Some ((a, b), r) |}.
  intros [a b] r. cbn [fst snd]. rewrite <- app_assoc, s_back. cbn [mbind option_bind]. by rewrite s_back.
Defined.
#[local] Instance option_stream {A} `{Stream A} : Stream (option A).
Proof.
  refine {| s_put := fun o => match o with None => [0] | Some a => 1 :: s_put a end;
            s_get := fun r => match r with 0 :: r => Some (None, r) | 1 :: r => '(a, r) ← s_get r; Some (Some a, r)
                              | _ => None end |}.
  intros [a|] r; [|done]. rewrite <- app_comm_cons. cbv beta iota. by rewrite s_back.
Defined.
Fixpoint get_n {A} `{Stream A} (n : nat) (r : list Z) : option (list A * list Z) :=
  match n with O => Some ([], r) | S n => '(a, r) ← s_get r; '(l, r) ← get_n n r; Some (a :: l, r) end.
Lemma get_n_back {A} `{Stream A} (l : list A) r : get_n (length l) (flat_map s_put l ++ r) = Some (l, r).
Proof.
  induction l as [|a l IH]; [done|]. cbn [length get_n flat_map]. rewrite <- app_assoc, s_back. cbn [mbind option_bind].
  by rewrite IH.
Qed.
#[local] Instance list_stream {A} `{Stream A} : Stream (list A).
Proof.
  refine {| s_put := fun l => Z.of_nat (length l) :: flat_map s_put l;
            s_get := fun r => match r with n :: r => get_n (Z.to_nat n) r | [] => None end |}.
  intros l r. rewrite <- app_comm_cons. cbv beta iota. rewrite Nat2Z.id. apply get_n_back.
Defined.
Definition code_stream {A} `{Countable A} : Stream A.
Proof.
  refine {| s_put := fun a => [Z.pos (countable.encode a)];
            s_get := fun r => match r with Z.pos p :: r => a ← countable.decode p; Some (a, r) | _ => None end |}.
  intros a r. cbn [app]. by rewrite decode_encode.
Defined.
#[local] Instance string_stream : Stream string := code_stream.

Definition iso_stream {A B} `{Stream B} (f : A -> B) (g : B -> A) (fg : forall a, g (f a) = a) : Stream A.
Proof.
  refine {| s_put := fun a => s_put (f a); s_get := fun r => '(b, r) ← s_get r; Some (g b, r) |}.
  intros a r. rewrite s_back. cbn. by rewrite fg.
Defined.

Definition stream_json {A} `{Stream A} : Json A.
Proof.
  refine {| json_Marshal := fun a => Some (s_put a);
            json_Unmarshal := fun b => '(a, r) ← s_get b; if decide (r = [10]) then Some a else None;
            json_valid := fun _ => True |}.
  intros a _. eexists. split; [done|]. by rewrite s_back.
Defined.

Lemma stream_json_exact {A} `{Stream A} : @JsonExact A stream_json.
Proof. intros a b a' [= <-] E. cbn in E. rewrite s_back in E. by injection E as <-. Qed.

Definition stream_gob {A} `{Stream A} : Gob A.
Proof.
  refine {| gob_enc := fun a => 0 :: s_put a;
            gob_dec := fun b => match b with
                                | _ :: b => '(a, r) ← s_get b; if decide (r = []) then Some a else None
                                | [] => None
                                end |}; [|done].
  intros a. pose proof (s_back a []) as E. rewrite app_nil_r in E. by rewrite E.
Defined.

#[local] Instance header_stream : Stream BlockHeader.
Proof.
  pose (sb := code_stream : Stream (gset Z)).
  refine (iso_stream (fun h => (ParentBlockHash h, bh_StateRoot h, TxRoot h, BloomFilter h, Number h, bh_Time h, Miner h))
                     (fun '(p, s, t, b, n, tm, m) => mkBH p s t b n tm m) _).
  by intros [].
Defined.
#[local] Instance block_stream : Stream Block.
Proof.
  pose (sb := @code_stream (list Transaction) _ (@list_countable _ _ StorageSample.tx_countable)).
  refine (iso_stream (fun b => (Header b, Body b, b_Hash b)) (fun '(h, b, x) => mkBlock h b x) _). by intros [].
Defined.
#[local] Instance node_stream : Stream Pbft.Node.
Proof. refine (iso_stream (fun n => (nd_NodeID n, nd_ShardID n, nd_IPaddr n)) (fun '(a, b, c) => mkNode a b c) _). by intros []. Defined.
#[local] Instance request_stream : Stream Request.
Proof. refine (iso_stream (fun r => (RequestType r, Content r, ReqTime r)) (fun '(a, b, c) => mkRequest a b c) _). by intros []. Defined.
#[local] Instance preprepare_stream : Stream PrePrepare.
Proof. refine (iso_stream (fun m => (pp_Request m, pp_Digest m, pp_SeqID m)) (fun '(a, b, c) => mkPrePrepare a b c) _). by intros []. Defined.
#[local] Instance prepare_stream : Stream Prepare.
Proof. refine (iso_stream (fun m => (pr_Digest m, pr_SeqID m, pr_Sender m)) (fun '(a, b, c) => mkPrepare a b c) _). by intros []. Defined.
#[local] Instance commit_stream : Stream Pbft.Commit.
Proof. refine (iso_stream (fun m => (cm_Digest m, cm_SeqID m, cm_Sender m)) (fun '(a, b, c) => mkCommit a b c) _). by intros []. Defined.
#[local] Instance request_old_stream : Stream RequestOldMessage.
Proof. refine (iso_stream (fun m => (ro_Start m, ro_End m, ro_Server m, ro_Sender m)) (fun '(a, b, c, d) => mkRequestOld a b c d) _). by intros []. Defined.
#[local] Instance send_old_stream : Stream SendOldMessage.
Proof. refine (iso_stream (fun m => (so_Start m, so_End m, so_Requests m, so_Sender m)) (fun '(a, b, c, d) => mkSendOld a b c d) _). by intros []. Defined.

Module PbftSample.
#[local] Existing Instance DBSample.ethdb.
#[local] Existing Instance DBSample.fastcache.
#[local] Existing Instance RLPSample.env.
#[local] Existing Instance RLPSample.rlp.
#[local] Existing Instance RLPSample.eth.
#[local] Existing Instance DBSample.account.
#[local] Existing Instance StorageSample.bolt.
#[local] Existing Instance StorageSample.as_gob.
#[local] Existing Instance StorageSample.tx_gob.
#[local] Existing Instance ChainSample.params.
#[local] Existing Instance ChainSample.memory.
#[local] Instance block_gob : Gob Block := stream_gob.
#[local] Instance bh_gob : Gob BlockHeader := stream_gob.
(** A hash that keeps short lists as they are. *)
#[local] Instance sha : Sha256 := {|
  Sum256 := fun b => if (length b <=? 31)%nat then Z.of_nat (length b) :: b ++ replicate (31 - length b) 0
                     else -1 :: Z.pos (countable.encode b) :: replicate 30 0;
|}.
#[local] Instance json1 : Json (option Request) := stream_json.
#[local] Instance json2 : Json PrePrepare := stream_json.
#[local] Instance json3 : Json Prepare := stream_json.
#[local] Instance json4 : Json Pbft.Commit := stream_json.
#[local] Instance json5 : Json RequestOldMessage := stream_json.
#[local] Instance json6 : Json SendOldMessage := stream_json.
#[local] Instance json7 : Json Relay := mute_json.
#[local] Instance json8 : Json InjectTxs := mute_json.
#[local] Instance json9 : Json BlockInfoMsg := mute_json.
#[local] Instance json10 : Json ClientTxSend := mute_json.
#[local] Instance json11 : Json ClientRequestTxProof := mute_json.
#[local] Instance json12 : Json ClientRequestAccountState := mute_json.
#[local] Instance json13 : Json TxOnChainProof := mute_json.
#[local] Instance json14 : Json AccountStateForClient := mute_json.
#[local] Instance exact2 : JsonExact PrePrepare := stream_json_exact.
#[local] Instance exact4 : JsonExact Pbft.Commit := stream_json_exact.
#[local] Instance exact6 : JsonExact SendOldMessage := stream_json_exact.

Lemma sum_inj a b : Sum256 a = Sum256 b -> a = b.
Proof.
  unfold Sum256, sha. destruct (length a <=? 31)%nat, (length b <=? 31)%nat; intros E; injection E; try lia.
  - intros E2 E1%Nat2Z.inj. by apply (app_inj_1 a b) in E2 as [-> _].
  - intros E2. by apply (inj countable.encode) in E2.
Qed.

Lemma digest_inj r r' d : getDigest r = Ret d -> getDigest r' = Ret d -> r = r'.
Proof.
  unfold getDigest, json_Marshal, json1, stream_json. cbn [of_option]. intros E E'. revert E E'. go_ret.
  intros [= <-] [= E%sum_inj]. pose proof (s_back r []) as Hr. pose proof (s_back r' []) as Hr'.
  change (s_put r' = s_put r) in E. rewrite E in Hr'. rewrite Hr in Hr'. by injection Hr'.
Qed.

(** Two replicas on the genesis block; no node may fail, so one confirmation is
    enough. *)
Definition table : gmap Z (gmap Z string) := {[ 0 := {[ 0 := "h0"%string; 1 := "h1"%string ]} ]}.
Definition chain : BlockChain :=
  mkMBC DBSample.db0 ChainSample.cc ChainSample.genesis MemSample.store (mkPool [] (Some ∅) false) ∅ (Some NewTxPool).
Definition replica (i : Z) (ip : string) : PbftNode :=
  mkPbft (mkNode i 0 ip) 0 i chain ∅ table 2 0 0 1 false ∅ ∅ ∅ ∅ ∅ ∅ false false ∅ 0
    NewCLPADataSupport AtStart.
Definition start : cluster := mkCluster {[ 0 := replica 0 "h0"; 1 := replica 1 "h1" ]} [] [].

(** The primary proposes; the packet [k] arrives at replica [i]. *)
Definition propose (c : cluster) : option cluster :=
  p ← replicas c !! 0;
  match Propose p (fun _ => 0) with
  | Done (Some (o, pks, p')) => Some (mkCluster (<[0 := p']> (replicas c)) (net c ++ pks) (proposed c ++ option_list o))
  | _ => None
  end.
Definition deliver (i : Z) (k : nat) (c : cluster) : option cluster :=
  p ← replicas c !! i;
  pk ← net c !! k;
  if decide (pk.1 = nd_IPaddr (RunningNode p)) then
    match handleMessage p (pk.2 ++ [10]) (fun _ => 0) false with
    | Done (pks, p') => Some (mkCluster (<[i := p']> (replicas c)) (net c ++ pks) (proposed c))
    | _ => None
    end
  else None.

Lemma propose_step c c' : propose c = Some c' -> pstep c c'.
Proof.
  unfold propose. destruct (replicas c !! 0) as [p|] eqn:E; [|done]. cbn [mbind option_bind].
  destruct (Propose p (fun _ => 0)) as [[[[o pks] p']|]| |] eqn:Ep; try done. intros [= <-]. by eapply ps_propose.
Qed.

Lemma deliver_step i k c c' : deliver i k c = Some c' -> pstep c c'.
Proof.
  unfold deliver. destruct (replicas c !! i) as [p|] eqn:E; [|done]. cbn [mbind option_bind].
  destruct (net c !! k) as [[ip frame]|] eqn:Ek; [|done]. cbn [mbind option_bind fst snd].
  destruct (decide (ip = nd_IPaddr (RunningNode p))) as [->|_]; [|done].
  destruct (handleMessage _ _ _ _) as [[pks p']| |] eqn:Eh; try done. intros [= <-].
  eapply ps_deliver; [done| |exact Eh]. by eapply list_elem_of_lookup_2.
Qed.

Definition scenario : option cluster :=
  c ← propose start; c ← deliver 1 0 c; c ← deliver 1 2 c; c ← deliver 1 4 c; deliver 0 5 c.

Lemma start_run : run_from ChainSample.genesis 0 start.
Proof.
  apply run_start. intros i p [[<- <-]|[_ [<- <-]%lookup_singleton_Some]]%lookup_insert_Some; by split.
Qed.

Lemma scenario_run c : scenario = Some c -> run_from ChainSample.genesis 0 c.
Proof.
  unfold scenario. intros (c1 & E1 & (c2 & E2 & (c3 & E3 & (c4 & E4 & E5)%bind_Some)%bind_Some)%bind_Some)%bind_Some.
  apply propose_step in E1. apply deliver_step in E2, E3, E4, E5.
  do 5 (eapply run_step; [|eassumption]). apply start_run.
Qed.

(** Both replicas have added the one block that was proposed. *)
Definition grown (c : cluster) : bool :=
  match replicas c !! 0, replicas c !! 1 with
  | Some p, Some q =>
      (Number (Header (tip p)) =? 1) && (Number (Header (tip q)) =? 1) && (length (proposed c) =? 1)%nat
  | _, _ => false
  end.

Lemma scenario_grows : (grown <$> scenario) = Some true.
Proof. vm_compute. reflexivity. Qed.

Lemma replicas_same_block_witness : exists c p q,
  scenario = Some c /\ replicas c !! 0 = Some p /\ replicas c !! 1 = Some q /\ Number (Header (tip p)) = 1 /\
  Header (tip p) = Header (tip q) /\ b_Hash (tip p) = b_Hash (tip q).
Proof.
  pose proof scenario_grows as Hg. destruct scenario as [c|] eqn:E; [|discriminate Hg].
  apply scenario_run in E as Hr. injection Hg as Hg. unfold grown in Hg.
  destruct (replicas c !! 0) as [p|] eqn:Ep; [|discriminate Hg].
  destruct (replicas c !! 1) as [q|] eqn:Eq; [|discriminate Hg].
  apply andb_prop in Hg as [[H1 H2]%andb_prop H3]. apply Z.eqb_eq in H1, H2. apply Nat.eqb_eq in H3.
  exists c, p, q. repeat (split; [assumption || reflexivity|]).
  apply (replicas_same_block digest_inj ChainSample.genesis 0 c 0 1 p q); try assumption.
  - discriminate.
  - rewrite H3. reflexivity.
  - by rewrite H1, H2.
Defined.
End PbftSample.
