(* ===== verification/PbftBroker.v ===== *)
(** * The broker module of the PBFT replica ([pbftInside_moduleBroker.go],
      [pbftOutside_moduleBroker.go])

    Cross-shard transfers go through a broker account in two halves, so the module
    relays nothing: a committed block is sorted into the first halves, the second
    halves and the rest, which the supervisor is told.  Proposing and checking are
    those of the relay module.  It obeys the laws of the interface, so that replicas
    that run it agree as well. *)

From stdpp Require Import base gmap strings list pretty.
From Stdlib Require Import ZArith Lia.
From S2P Require Import Prelude Encoding TrieSpec Node Trie TrieMap Hasher Committer Reload Database Core Storage Chain.
From S2P Require Import ChainMem MerkleProof OnChain Message Follower Pbft Agreement.

Local Open Scope Z_scope.

(** ** Sorting a block *)

Inductive tx_class := Executed | Broker1 | Broker2.
#[export] Instance tx_class_dec : EqDecision tx_class.
Proof. solve_decision. Defined.

(** A transaction without a raw hash is not part of a brokered transfer. *)
Definition broker_class (tx : Transaction) : tx_class :=
  let isInnerShardTx := bool_decide (RawTxHash tx = []) in
  let isBroker1Tx := negb isInnerShardTx && bool_decide (Sender tx = OriginalSender tx) in
  let isBroker2Tx := negb isInnerShardTx && bool_decide (Recipient tx = FinalRecipient tx) in
  if isBroker2Tx then Broker2 else if isBroker1Tx then Broker1 else Executed.

Definition of_class (f : Transaction -> tx_class) (c : tx_class) (txs : list Transaction) : list Transaction :=
  filter (fun tx => f tx = c) txs.

Section broker.
Context `{EthDB} `{FastCache} `{HashEnv} `{EthCommon} `{RLP} `{StateAccountRLP} `{!MemoryDB}.
Context `{Bolt} `{Gob AccountState} `{Gob Transaction} `{Gob Block} `{Gob BlockHeader}.
Context `{Sha256} `{Params}.
Context `{Json (option Request)} `{Json PrePrepare} `{Json Prepare} `{Json Commit} `{Json RequestOldMessage}.
Context `{Json SendOldMessage} `{Json SeqIDinfo} `{Json InjectTxs} `{Json BlockInfoMsg} `{Json ClientTxSend}.
Context `{Json ClientRequestTxProof} `{Json ClientRequestAccountState} `{Json TxOnChainProof}.
Context `{Json AccountStateForClient}.

(** The shards of the configuration other than this one. *)
Definition other_shards (p : PbftNode) : list Z :=
  filter (fun sid => sid <> pn_ShardID p) (Z.of_nat <$> seq 0 (Z.to_nat (ShardNums (mb_Config (CurChain p))))).

Definition send_seqID (p : PbftNode) : outcome (list packet) :=
  ofold (fun acc sid =>
      pk ← send "SequenceID" (mkSeqID (pn_ShardID p) (sequenceID p)) (address p sid 0); Ret (acc ++ [pk]))
    [] (other_shards p).

(** The primary's part of a commit: the sequence number for the other shards and
    the sorted block for the supervisor. *)
Definition broker_info (p : PbftNode) (r : Request) (f : Transaction -> tx_class) (epoch : Z) (txs : list Transaction)
    (now : time) : outcome packet :=
  let b1 := of_class f Broker1 txs in
  let b2 := of_class f Broker2 txs in
  send "BlockInfo" (mkBlockInfo (Z.of_nat (length txs)) (of_class f Executed txs) epoch (ReqTime r) now (pn_ShardID p)
      0 [] (Z.of_nat (length b1)) b1 (Z.of_nat (length b2)) b2) (address p DeciderShard 0).

Definition broker_primary (p : PbftNode) (r : Request) (txs : list Transaction) (now : time)
  : sync (list packet * PbftNode) :=
  pks ← run (send_seqID p);
  info ← run (broker_info p r broker_class 0 txs now);
  pool ← run (of_option (mb_Txpool (CurChain p)));
  pool ← GetLocked pool;
  pool ← GetUnlocked pool;
  Done (pks ++ [info], pn_with_chain p (mb_with_txpool (CurChain p) pool)).

Definition broker_Commit (p : PbftNode) (cmsg : Commit) (now : time) : sync (list packet * PbftNode) :=
  r ← run (of_option (default None (requestPool p !! cm_Digest cmsg)));
  block ← run (DecodeB (Content r));
  '(_, bc) ← run (AddBlock (CurChain p) (Some block));
  let p := pn_with_chain p bc in
  if pn_NodeID p =? view p then broker_primary p r (Body block) now else Done ([], p).

(** The guard subtracts the end from the start. *)
Definition broker_Sequential (p : PbftNode) (som : SendOldMessage) : outcome PbftNode :=
  if negb (i64 (u64 (so_Start som - so_End som)) =? Z.of_nat (length (so_Requests som))) then Ret p
  else
    bc ← sequential_loop relay_add (CurChain p) (so_Requests som) (so_Start som) (so_End som);
    Ret (pn_with_sequence (pn_with_chain p bc) (u64 (so_End som + 1))).

Definition RawBrokerPbftExtraHandleMod : ExtraOpInConsensus := {|
  HandleinPropose := relay_Propose;
  HandleinPrePrepare := relay_PrePrepare;
  HandleinPrepare := fun p _ => Ret p;
  HandleinCommit := broker_Commit;
  HandleReqestforOldSeq := fun p _ => Ret p;
  HandleforSequentialRequest := broker_Sequential;
|}.

Definition handleSeqIDinfos (p : PbftNode) (content : list Z) : sync PbftNode :=
  sii ← run (of_option (json_Unmarshal content : option SeqIDinfo));
  Done (pn_with_seqIDMap p (<[si_SenderShardID sii := si_SenderSeq sii]> (seqIDMap p))).

Definition RawBrokerOutsideModule : OpInterShards := {|
  HandleMessageOutsidePBFT := fun p msgType content nows =>
    if bool_decide (msgType = string_bytes "SequenceID") then handleSeqIDinfos p content
    else if bool_decide (msgType = string_bytes "inject") then handleInjectTx p content nows
    else Done p;
|}.

(** ** The laws *)

(** A loop that sends one message of a fixed type per shard. *)
Lemma sends_quiet {A} `{Json A} (t : string) (f : Z -> A) (addr : Z -> string) sids pks :
  t ∈ all_types -> string_bytes t ∉ phases ->
  ofold (fun acc sid => pk ← send t (f sid) (addr sid); Ret (acc ++ [pk])) [] sids = Ret pks ->
  Forall (fun pk : packet => quiet pk.2) pks.
Proof.
  intros Ht Hp.
  assert (forall sids acc, Forall (fun pk : packet => quiet pk.2) acc ->
    ofold (fun acc sid => pk ← send t (f sid) (addr sid); Ret (acc ++ [pk])) acc sids = Ret pks ->
    Forall (fun pk : packet => quiet pk.2) pks) as Hg; [|by apply Hg].
  clear sids. induction sids as [|sid sids IH]; intros acc Hacc; cbn [ofold]; [by intros [= <-]|].
  intros (acc1 & (pk & E & [= <-])%outcome_bind_Ret & E')%outcome_bind_Ret. eapply IH; [|exact E'].
  apply Forall_app. split; [done|]. apply Forall_singleton. by refine (send_quiet _ _ _ _ _ _ E).
Qed.

Lemma broker_Commit_law p m now pks p' : broker_Commit p m now = Done (pks, p') ->
  framed p p' /\ Forall (fun pk => quiet pk.2) pks /\
  exists r b, requestPool p !! cm_Digest m = Some r /\ holds_block r b /\
    (extends (tip p) b -> same_block (tip p') b) /\ (~ extends (tip p) b -> same_block (tip p') (tip p)).
Proof.
  unfold broker_Commit. intros (r & Er%run_Done%of_option_Ret & (b & Eb%run_Done & ([ok bc] & Ea%run_Done & E)%sync_bind_Done)%sync_bind_Done)%sync_bind_Done.
  assert (requestPool p !! cm_Digest m = Some (Some r)) as Hr by (destruct (requestPool p !! cm_Digest m); cbn in Er; congruence).
  assert (framed p p' /\ Forall (fun pk => quiet pk.2) pks /\ tip p' = mb_CurrentBlock bc) as (HF & HQ & HT).
  { revert E. cbv zeta. destruct (_ =? _); [|by intros [= <- <-]]. unfold broker_primary.
    intros (pks1 & E1%run_Done & (info & E2%run_Done & (pool & _ & (pool1 & _ & (pool2 & _ & [= <- <-])%sync_bind_Done)%sync_bind_Done)%sync_bind_Done)%sync_bind_Done)%sync_bind_Done.
    split; [done|]. split; [|done]. apply Forall_app. split; [|apply Forall_singleton].
    - unfold send_seqID in E1. refine (sends_quiet "SequenceID" (fun _ => _) (fun sid => _) _ _ _ _ E1); [known|not_phase].
    - unfold broker_info in E2. refine (send_quiet _ _ _ _ _ _ E2); [known|not_phase]. }
  split; [done|]. split; [done|]. exists (Some r), b. split; [done|].
  split; [exists r; split; [done|by apply of_option_Ret]|]. rewrite HT.
  destruct (AddBlock_tip _ _ _ _ Ea) as [(Hx & _ & ->)|(Hx & _ & ->)]; by split.
Qed.

Lemma broker_laws : ExtraOpLaws (H27 := RawBrokerPbftExtraHandleMod).
Proof.
  split.
  - exact relay_Propose_law.
  - exact relay_PrePrepare_law.
  - by intros p m p' [= ->].
  - by intros p m p' [= ->].
  - exact broker_Commit_law.
  - intros p m p'. cbn [HandleforSequentialRequest RawBrokerPbftExtraHandleMod]. unfold broker_Sequential.
    destruct (negb _); [intros [= <-]; split; [done|left; reflexivity]|].
    intros (bc & Ebc & [= <-])%outcome_bind_Ret. by eapply relay_added_law.
Qed.

(** ** Catching up *)

(** The loop returns only if there is a request for every height. *)
Lemma sequential_loop_needs {A} (f : A -> option Request -> outcome A) rs : forall a h last a',
  0 <= h <= last -> last < 2 ^ 64 -> sequential_loop f a rs h last = Ret a' -> last - h < Z.of_nat (length rs).
Proof.
  induction rs as [|r rs IH]; intros a h last a' Hh Hl; cbn [sequential_loop]; rewrite (proj2 (Z.leb_le _ _)) by lia; [done|].
  intros (a1 & _ & E)%outcome_bind_Ret. cbn [length]. destruct (decide (h = last)) as [->|Hne]; [lia|].
  rewrite wrap_u_small in E by (unfold is_u; lia). apply IH in E; lia.
Qed.

(** A replica with the broker module that was left behind never adds a block it is
    sent: the guard lets through only ranges of which the loop runs out. *)
Lemma broker_catchup_adds_nothing p m p' : 0 <= so_Start m < 2 ^ 64 -> 0 <= so_End m < 2 ^ 64 ->
  broker_Sequential p m = Ret p' -> CurChain p' = CurChain p.
Proof.
  intros Hs He. unfold broker_Sequential. destruct (Z.eqb_spec (i64 (u64 (so_Start m - so_End m))) (Z.of_nat (length (so_Requests m)))) as [Hg|];
    cbn [negb]; [|by intros [= <-]].
  intros (bc & E & [= <-])%outcome_bind_Ret. cbn. destruct (decide (so_Start m <= so_End m)) as [Hle|Hgt].
  - exfalso. apply sequential_loop_needs in E as Hn; [|lia..]. revert Hg.
    unfold wrap_s, wrap_u. change (2 ^ 64) with 18446744073709551616 in *. change (2 ^ (64 - 1)) with 9223372036854775808.
    intros Hg. Z.to_euclidean_division_equations. lia.
  - destruct (so_Requests m); cbn [sequential_loop] in E; rewrite (proj2 (Z.leb_gt _ _)) in E by lia; by injection E.
Qed.

Lemma broker_outside_laws : OpInterShardsLaws (H27 := RawBrokerOutsideModule).
Proof.
  split. intros p t c nows p'. cbn [HandleMessageOutsidePBFT RawBrokerOutsideModule]. repeat case_bool_decide.
  - unfold handleSeqIDinfos. by intros (m & _ & [= <-])%sync_bind_Done.
  - unfold handleInjectTx. intros (m & _ & E)%sync_bind_Done. by eapply to_txpool_law.
  - by intros [= <-].
Qed.
End broker.
