(* ===== verification/Reshard.v ===== *)
(** * The re-partition modules of the PBFT replica ([pbftInside_moduleCLPA.go],
      [pbftOutside_moduleCLPA.go], [accountTransfer_module.go], their variants for
      brokers, and [dataSupport/])

    When the supervisor sends a new assignment of accounts to shards, the primary of
    each shard waits until all shards are ready, sends the states of the accounts
    that leave and the pending transactions that follow them, collects what the
    others send, and proposes the transfer as a request of its own; committing it
    changes the partition map and adds the received accounts to the state trie.  In
    between, the primary sleeps in two loops while its handlers run, so the proposal
    is split there.

    The variant for brokers differs in the transactions it sends on, in what it
    checks of a committed block, and in the message types. *)

From stdpp Require Import base gmap strings list pretty.
From Stdlib Require Import ZArith Lia.
From S2P Require Import Prelude Encoding TrieSpec Node Trie TrieMap Hasher Committer Reload Database Core Storage Chain.
From S2P Require Import ChainMem MerkleProof OnChain Message Follower Pbft PbftBroker.

Local Open Scope Z_scope.

Definition PartitionReq : string := "PartitionReq".

(** What happens to a pending transaction when accounts leave for one shard. *)
Inductive fate := Keep | SendOn | BecomesCross.
#[export] Instance fate_dec : EqDecision fate.
Proof. solve_decision. Defined.

(** The two conditions of the relay variant. *)
Definition relay_fate (addrSet : gset Address) (ptx : Transaction) : fate :=
  let condition1 := bool_decide (Sender ptx ∈ addrSet) && negb (Relayed ptx) in
  let condition2 := bool_decide (Recipient ptx ∈ addrSet) && Relayed ptx in
  if condition1 || condition2 then SendOn else Keep.

Definition broker_fate (addrSet : gset Address) (ptx : Transaction) : fate :=
  let ok1 := bool_decide (Sender ptx ∈ addrSet) in
  let ok2 := bool_decide (Recipient ptx ∈ addrSet) in
  let follows (ok : bool) := if ok then SendOn else Keep in
  if bool_decide (RawTxHash ptx = []) then
    if HasBroker ptx then follows (if SenderIsBroker ptx then ok2 else ok1)
    else if ok1 || ok2 then BecomesCross else Keep
  else if bool_decide (FinalRecipient ptx = Recipient ptx) then follows ok2
  else if bool_decide (OriginalSender ptx = Sender ptx) then follows ok1
  else Keep.

Section reshard.
Context `{EthDB} `{FastCache} `{HashEnv} `{EthCommon} `{RLP} `{StateAccountRLP} `{!MemoryDB}.
Context `{Bolt} `{Gob AccountState} `{Gob Transaction} `{Gob Block} `{Gob BlockHeader} `{Gob AccountTransferMsg}.
Context `{Sha256} `{Params}.
Context `{Json Relay} `{Json InjectTxs} `{Json BlockInfoMsg} `{Json SeqIDinfo}.
Context `{Json PartitionModifiedMap} `{Json PartitionReadyMsg} `{Json AccountStateAndTx} `{Json InnerTx2CrossTx}.

(** ** Getting ready *)

Definition sendPartitionReady (p : PbftNode) : outcome (list packet * PbftNode) :=
  let c := cdm p in
  let p := pn_with_cdm p (mkCdm (ModifiedMap c) (AccountTransferRound c) (ReceivedNewAccountState c) (ReceivedNewTx c)
             (AccountStateTx c) (PartitionOn c) ({[pn_ShardID p]} ∪ PartitionReady c) (ReadySeq c) (CollectOver c))
             (pn_at p) in
  '(_, frame) ← send "ready for partition" (mkReady (pn_ShardID p) (sequenceID p)) "";
  let sids := filter (fun sid => sid <> i64 (pn_ShardID p))
                (Z.of_nat <$> seq 0 (Z.to_nat (i64 (ShardNums (mb_Config (CurChain p)))))) in
  Ret ((fun sid => (address p sid 0, frame)) <$> sids, p).

(** The last number heard of each shard is the one before its ready message. *)
Definition getPartitionReady (p : PbftNode) : bool :=
  let c := cdm p in
  bool_decide (map_Forall (fun sid val => ((fun rval => u64 (rval - 1)) <$> ReadySeq c !! sid) = Some val) (seqIDMap p)) &&
  (Z.of_nat (size (PartitionReady c)) =? i64 (ShardNums (mb_Config (CurChain p)))).

(** ** Sending accounts and transactions *)

Definition accountToFetch (p : PbftNode) (M : gmap Address Z) : outcome (list Address) :=
  ofold (fun acc kv =>
      if kv.2 =? pn_ShardID p then Ret acc
      else s ← Get_PartitionMap (CurChain p) kv.1; Ret (if s =? pn_ShardID p then acc ++ [kv.1] else acc))
    [] (map_to_list M).

(** The message for shard [i], and the queue without the transactions that left;
    the last part are those that became cross-shard. *)
Definition send_shard (fate_of : gset Address -> Transaction -> fate) (msgType : string) (p : PbftNode)
    (M : gmap Address Z) (fetched : list (Address * AccountState)) (queue : list Transaction) (i : Z)
  : outcome (packet * list Transaction * list Transaction) :=
  let sent := filter (fun aa => default 0 (M !! aa.1) = i) fetched in
  let addrSet : gset Address := list_to_set sent.*1 in
  let txSend := filter (fun ptx => fate_of addrSet ptx = SendOn) queue in
  pk ← send msgType (mkAccounts sent.*1 sent.*2 txSend (pn_ShardID p)) (address p i 0);
  Ret (pk, filter (fun ptx => fate_of addrSet ptx = Keep) queue,
       filter (fun ptx => fate_of addrSet ptx = BecomesCross) queue).

Fixpoint send_shards (fate_of : gset Address -> Transaction -> fate) (msgType : string) (p : PbftNode)
    (M : gmap Address Z) (fetched : list (Address * AccountState)) (queue : list Transaction) (sids : list Z)
  : outcome (list packet * list Transaction * list Transaction) :=
  match sids with
  | [] => Ret ([], queue, [])
  | i :: sids =>
      '(pk, queue, cross) ← send_shard fate_of msgType p M fetched queue i;
      '(pks, queue, cross') ← send_shards fate_of msgType p M fetched queue sids;
      Ret (pk :: pks, queue, cross ++ cross')
  end.

(** The pool is locked while the messages are made and sent. *)
Definition send_all (fate_of : gset Address -> Transaction -> fate) (msgType : string) (p : PbftNode)
  : sync (list packet * list Transaction * PbftNode) :=
  M ← run (of_option (last (ModifiedMap (cdm p))));
  addrs ← run (accountToFetch p M);
  '(asFetched, _, _, _, _) ← run (FetchAccounts (CurChain p) addrs);
  pool ← run (of_option (mb_Txpool (CurChain p)));
  pool ← GetLocked pool;
  '(pks, queue, cross) ← run (send_shards fate_of msgType p M (zip addrs asFetched) (TxQueue pool) (other_shards p));
  pool ← GetUnlocked (with_queue pool queue);
  Done (pks, cross, pn_with_chain p (mb_with_txpool (CurChain p) pool)).

Definition sendAccounts_and_Txs (p : PbftNode) : sync (list packet * PbftNode) :=
  '(pks, _, p) ← send_all relay_fate "AccountState&txs" p; Done (pks, p).

Definition broker_sendAccounts_and_Txs (p : PbftNode) : sync (list packet * PbftNode) :=
  '(pks, cross, p) ← send_all broker_fate "BrokerAS_transfer" p;
  pk ← run (send "innerShardTx_be_crossShard" (mkInner2Cross cross) (address p DeciderShard 0));
  Done (pks ++ [pk], p).

Definition getCollectOver (p : PbftNode) : bool := CollectOver (cdm p).

(** ** Proposing the transfer *)

(** The received states, by address; a state that is missing is an index out of
    range. *)
Fixpoint receive_states (addrs : list Address) (states : list AccountState) (m : gmap Address AccountState)
  : outcome (gmap Address AccountState) :=
  match addrs with
  | [] => Ret m
  | addr :: addrs => s ← of_option (head states); receive_states addrs (tail states) (<[addr := s]> m)
  end.

Definition receive_all (c : Data_supportCLPA) : outcome (gmap Address AccountState * list Transaction) :=
  ofold (fun acc kv =>
      m ← receive_states (at_Addrs kv.2) (at_AccountState kv.2) acc.1; Ret (m, acc.2 ++ at_Txs kv.2))
    (ReceivedNewAccountState c, ReceivedNewTx c) (map_to_list (AccountStateTx c)).

(** [ModifiedMap[AccountTransferRound]] *)
Definition current_map (c : Data_supportCLPA) : outcome (gmap Address Z) :=
  of_option (ModifiedMap c !! Z.to_nat (AccountTransferRound c)).

(** The check of a received transaction: its account belongs to this shard now. *)
Definition check_tx (p : PbftNode) (u : unit) (tx : Transaction) : outcome unit :=
  M ← current_map (cdm p);
  if default 0 (M !! (if Relayed tx then Recipient tx else Sender tx)) =? pn_ShardID p then Ret tt else Panic.

Definition transfer_request (p : PbftNode) (m : gmap Address AccountState) (now : time) : outcome (option Request) :=
  M ← current_map (cdm p);
  let l := map_to_list m in
  Ret (Some (mkRequest PartitionReq (gob_enc (mkTransfer M l.*1 l.*2 (u64 (Z.of_nat (length (ModifiedMap (cdm p))))))) now)).

Definition proposePartition (checked : bool) (p : PbftNode) (nows : nat -> time) : sync (option Request * PbftNode) :=
  let c := cdm p in
  '(m, txs) ← run (receive_all c);
  let p := pn_with_cdm p (mkCdm (ModifiedMap c) (AccountTransferRound c) m txs (AccountStateTx c) (PartitionOn c)
             (PartitionReady c) (ReadySeq c) (CollectOver c)) (pn_at p) in
  _ ← run (if checked then ofold (check_tx p) tt txs else Ret tt);
  p ← to_txpool p (fun pool => AddTxs2Pool pool txs (fun i => nows (S i)));
  r ← run (transfer_request p m (nows 0%nat));
  Done (r, p).

(** [HandleinPropose] up to where it sleeps next. *)
Definition reshard_Propose (send_accounts : PbftNode -> sync (list packet * PbftNode)) (checked : bool)
    (p : PbftNode) (nows : nat -> time) : sync (list packet * option (option Request) * PbftNode) :=
  match pn_at p with
  | AtStart =>
      if PartitionOn (cdm p) then
        '(pks, p) ← run (sendPartitionReady p); Done (pks, None, pn_with_cdm p (cdm p) AwaitReady)
      else relay_Propose p nows
  | AwaitReady =>
      if getPartitionReady p then
        '(pks, p) ← send_accounts p; Done (pks, None, pn_with_cdm p (cdm p) AwaitCollect)
      else Done ([], None, p)
  | AwaitCollect =>
      if getCollectOver p then
        '(r, p) ← proposePartition checked p nows; Done ([], Some r, pn_with_cdm p (cdm p) AtStart)
      else Done ([], None, p)
  end.

(** ** Committing it *)

Definition update_map (bc : BlockChain) (M : gmap Address Z) : BlockChain :=
  foldl (fun bc kv => Update_PartitionMap bc kv.1 kv.2) bc (map_to_list M).

Definition accountTransfer_do (p : PbftNode) (atm : AccountTransferMsg) : outcome PbftNode :=
  bc ← AddAccounts (update_map (CurChain p) (tm_ModifiedMap atm)) (tm_Addrs atm) (tm_AccountState atm);
  let c := cdm p in
  let maps := if u64 (Z.of_nat (length (ModifiedMap c))) =? ATid atm then ModifiedMap c
              else ModifiedMap c ++ [tm_ModifiedMap atm] in
  Ret (pn_with_cdm (pn_with_chain p bc) (mkCdm maps (ATid atm) ∅ [] ∅ false ∅ (ReadySeq c) false) (pn_at p)).

Definition reshard_PrePrepare (p : PbftNode) (ppmsg : PrePrepare) : outcome (bool * PbftNode) :=
  r ← of_option (pp_Request ppmsg);
  if bool_decide (RequestType r = PartitionReq) then
    Ret (true, pn_with_requests p (<[pp_Digest ppmsg := Some r]> (requestPool p)) (height2Digest p))
  else relay_PrePrepare p ppmsg.

(** One transaction of a committed block at the primary: marked in place when it is
    relayed for the first time. *)
Definition clpa_tx (p : PbftNode) (pool : TxPool) (tx : Transaction) : sync (TxPool * Transaction * bool) :=
  ssid ← run (Get_PartitionMap (CurChain p) (Sender tx));
  rsid ← run (Get_PartitionMap (CurChain p) (Recipient tx));
  if negb (Relayed tx) && negb (ssid =? pn_ShardID p) then Fatal
  else if Relayed tx && negb (rsid =? pn_ShardID p) then Fatal
  else if negb (Relayed tx) && negb (rsid =? pn_ShardID p) then
    pool ← AddRelayTx pool (set_Relayed tx) rsid; Done (pool, set_Relayed tx, true)
  else Done (pool, tx, false).

Fixpoint clpa_loop (p : PbftNode) (pool : TxPool) (txs : list Transaction) : sync (TxPool * list (Transaction * bool)) :=
  match txs with
  | [] => Done (pool, [])
  | tx :: txs =>
      '(pool, tx, relayed) ← clpa_tx p pool tx;
      '(pool, l) ← clpa_loop p pool txs;
      Done (pool, (tx, relayed) :: l)
  end.

Definition clpa_primary (p : PbftNode) (r : Request) (block : Block) (added : bool) (now : time)
  : sync (list packet * PbftNode) :=
  pool ← run (of_option (mb_Txpool (CurChain p)));
  '(pool, l) ← clpa_loop p (with_relay pool (Some ∅)) (Body block);
  pks ← run (relay_sends p pool);
  pool ← ClearRelayPool pool;
  let relay1 := (filter (fun e => e.2 = true) l).*1 in
  let excuted := (filter (fun e => e.2 = false) l).*1 in
  info ← run (send "BlockInfo" (mkBlockInfo (Z.of_nat (length l)) excuted (i64 (AccountTransferRound (cdm p))) (ReqTime r)
                now (pn_ShardID p) (Z.of_nat (length relay1)) relay1 0 [] 0 []) (address p DeciderShard 0));
  pool ← GetLocked pool;
  pool ← GetUnlocked pool;
  let bc := CurChain p in
  let bc := if added then mb_with_block bc (mkBlock (Header block) l.*1 (b_Hash block)) (mb_Storage bc) else bc in
  Done (pks ++ [info], pn_with_chain p (mb_with_txpool bc pool)).

(** A committed request is a transfer or a block. *)
Definition reshard_Commit (primary : PbftNode -> Request -> Block -> bool -> time -> sync (list packet * PbftNode))
    (p : PbftNode) (cmsg : Commit) (now : time) : sync (list packet * PbftNode) :=
  r ← run (of_option (default None (requestPool p !! cm_Digest cmsg)));
  if bool_decide (RequestType r = PartitionReq) then
    atm ← run (must_dec (Content r)); p ← run (accountTransfer_do p atm); Done ([], p)
  else
    block ← run (DecodeB (Content r));
    '(added, bc) ← run (AddBlock (CurChain p) (Some block));
    let p := pn_with_chain p bc in
    if pn_NodeID p =? view p then primary p r block added now else Done ([], p).

(** The class of a committed transaction in the variant for brokers: it looks at the
    addresses only. *)
Definition clpa_broker_class (tx : Transaction) : tx_class :=
  if bool_decide (Recipient tx = FinalRecipient tx) then Broker2
  else if bool_decide (Sender tx = OriginalSender tx) then Broker1 else Executed.

(** The checks of a committed transaction; each failure is a panic. *)
Definition clpa_broker_check (p : PbftNode) (u : unit) (tx : Transaction) : outcome unit :=
  ssid ← Get_PartitionMap (CurChain p) (Sender tx);
  rsid ← Get_PartitionMap (CurChain p) (Recipient tx);
  let senderIsInshard := ssid =? pn_ShardID p in
  let recipientIsInshard := rsid =? pn_ShardID p in
  if bool_decide (Sender tx = OriginalSender tx) && negb senderIsInshard then Panic
  else if bool_decide (Recipient tx = FinalRecipient tx) && negb recipientIsInshard then Panic
  else if bool_decide (RawTxHash tx = []) then
    if HasBroker tx then
      if SenderIsBroker tx && negb recipientIsInshard then Panic
      else if negb (SenderIsBroker tx) && negb senderIsInshard then Panic
      else Ret tt
    else if negb senderIsInshard || negb recipientIsInshard then Panic else Ret tt
  else Ret tt.

Definition clpa_broker_primary (p : PbftNode) (r : Request) (block : Block) (added : bool) (now : time)
  : sync (list packet * PbftNode) :=
  _ ← run (ofold (clpa_broker_check p) tt (Body block));
  pks ← run (send_seqID p);
  info ← run (broker_info p r clpa_broker_class (i64 (AccountTransferRound (cdm p))) (Body block) now);
  pool ← run (of_option (mb_Txpool (CurChain p)));
  pool ← GetLocked pool;
  pool ← GetUnlocked pool;
  Done (pks ++ [info], pn_with_chain p (mb_with_txpool (CurChain p) pool)).

(** A request a replica has missed. *)
Definition reshard_add (p : PbftNode) (r : option Request) : outcome PbftNode :=
  r ← of_option r;
  if bool_decide (RequestType r = BlockRequest) then
    b ← DecodeB (Content r); '(_, bc) ← AddBlock (CurChain p) (Some b); Ret (pn_with_chain p bc)
  else atm ← must_dec (Content r); accountTransfer_do p atm.

Definition reshard_Sequential (p : PbftNode) (som : SendOldMessage) : outcome PbftNode :=
  if negb (i64 (u64 (so_End som - so_Start som + 1)) =? Z.of_nat (length (so_Requests som))) then Ret p
  else
    p ← sequential_loop reshard_add p (so_Requests som) (so_Start som) (so_End som);
    Ret (pn_with_sequence p (u64 (so_End som + 1))).

Definition CLPAPbftInsideExtraHandleMod : ExtraOpInConsensus := {|
  HandleinPropose := reshard_Propose sendAccounts_and_Txs true;
  HandleinPrePrepare := reshard_PrePrepare;
  HandleinPrepare := fun p _ => Ret p;
  HandleinCommit := reshard_Commit clpa_primary;
  HandleReqestforOldSeq := fun p _ => Ret p;
  HandleforSequentialRequest := reshard_Sequential;
|}.

(** The variant for brokers has its own copies of the methods; they differ in the
    messages of the exchange, the check of the received transactions and the report. *)
Definition broker_reshard_Propose : PbftNode -> (nat -> time) -> sync (list packet * option (option Request) * PbftNode) :=
  reshard_Propose broker_sendAccounts_and_Txs false.
Definition broker_reshard_PrePrepare : PbftNode -> PrePrepare -> outcome (bool * PbftNode) := reshard_PrePrepare.
Definition broker_reshard_Commit : PbftNode -> Commit -> time -> sync (list packet * PbftNode) :=
  reshard_Commit clpa_broker_primary.
Definition broker_reshard_Sequential : PbftNode -> SendOldMessage -> outcome PbftNode := reshard_Sequential.

Definition CLPAPbftInsideExtraHandleMod_forBroker : ExtraOpInConsensus := {|
  HandleinPropose := broker_reshard_Propose;
  HandleinPrePrepare := broker_reshard_PrePrepare;
  HandleinPrepare := fun p _ => Ret p;
  HandleinCommit := broker_reshard_Commit;
  HandleReqestforOldSeq := fun p _ => Ret p;
  HandleforSequentialRequest := broker_reshard_Sequential;
|}.

(** ** Messages from the supervisor and from other shards *)

Definition handlePartitionMsg (p : PbftNode) (content : list Z) : outcome PbftNode :=
  pm ← of_option (json_Unmarshal content : option PartitionModifiedMap);
  let c := cdm p in
  Ret (pn_with_cdm p (mkCdm (ModifiedMap c ++ [PartitionModified pm]) (AccountTransferRound c) (ReceivedNewAccountState c)
         (ReceivedNewTx c) (AccountStateTx c) true (PartitionReady c) (ReadySeq c) (CollectOver c)) (pn_at p)).

Definition handlePartitionReady (p : PbftNode) (content : list Z) : outcome PbftNode :=
  pr ← of_option (json_Unmarshal content : option PartitionReadyMsg);
  let c := cdm p in
  Ret (pn_with_cdm p (mkCdm (ModifiedMap c) (AccountTransferRound c) (ReceivedNewAccountState c) (ReceivedNewTx c)
         (AccountStateTx c) (PartitionOn c) ({[pr_FromShard pr]} ∪ PartitionReady c)
         (<[pr_FromShard pr := NowSeqID pr]> (ReadySeq c)) (CollectOver c)) (pn_at p)).

Definition handleAccountStateAndTxMsg (p : PbftNode) (content : list Z) : outcome PbftNode :=
  a ← of_option (json_Unmarshal content : option AccountStateAndTx);
  let c := cdm p in
  let ast := <[at_FromShard a := a]> (AccountStateTx c) in
  let over := Z.of_nat (size ast) =? i64 (ShardNums (mb_Config (CurChain p))) - 1 in
  Ret (pn_with_cdm p (mkCdm (ModifiedMap c) (AccountTransferRound c) (ReceivedNewAccountState c) (ReceivedNewTx c)
         ast (PartitionOn c) (PartitionReady c) (ReadySeq c) (CollectOver c || over)) (pn_at p)).

Definition CLPARelayOutsideModule : OpInterShards := {|
  HandleMessageOutsidePBFT := fun p msgType content nows =>
    if bool_decide (msgType = string_bytes "relay") then handleRelay p content nows
    else if bool_decide (msgType = string_bytes "inject") then handleInjectTx p content nows
    else if bool_decide (msgType = string_bytes "PartitionModifiedMap") then run (handlePartitionMsg p content)
    else if bool_decide (msgType = string_bytes "AccountState&txs") then run (handleAccountStateAndTxMsg p content)
    else if bool_decide (msgType = string_bytes "ready for partition") then run (handlePartitionReady p content)
    else Done p;
|}.

Definition CLPABrokerOutsideModule : OpInterShards := {|
  HandleMessageOutsidePBFT := fun p msgType content nows =>
    if bool_decide (msgType = string_bytes "SequenceID") then handleSeqIDinfos p content
    else if bool_decide (msgType = string_bytes "inject") then handleInjectTx p content nows
    else if bool_decide (msgType = string_bytes "PartitionModifiedMap") then run (handlePartitionMsg p content)
    else if bool_decide (msgType = string_bytes "BrokerAS_transfer") then run (handleAccountStateAndTxMsg p content)
    else if bool_decide (msgType = string_bytes "ready for partition") then run (handlePartitionReady p content)
    else Done p;
|}.

(** ** The replica with these modules *)

Section replica.
Context `{Json (option Request)} `{Json PrePrepare} `{Json Prepare} `{Json Commit} `{Json RequestOldMessage}.
Context `{Json SendOldMessage} `{Json ClientTxSend} `{Json ClientRequestTxProof} `{Json ClientRequestAccountState}.
Context `{Json TxOnChainProof} `{Json AccountStateForClient}.

Definition clpa_Propose : PbftNode -> (nat -> time) -> sync (option (option (option Request) * list packet * PbftNode)) :=
  Propose (H27 := CLPAPbftInsideExtraHandleMod).
Definition clpa_handleMessage : PbftNode -> list Z -> (nat -> time) -> bool -> sync (list packet * PbftNode) :=
  handleMessage (H27 := CLPAPbftInsideExtraHandleMod) (H28 := CLPARelayOutsideModule).
Definition clpa_broker_handleMessage : PbftNode -> list Z -> (nat -> time) -> bool -> sync (list packet * PbftNode) :=
  handleMessage (H27 := CLPAPbftInsideExtraHandleMod_forBroker) (H28 := CLPABrokerOutsideModule).
End replica.
End reshard.

(** ** The map of a chain after a re-partition *)

Section update.
Context `{EthDB} `{FastCache} `{HashEnv} `{EthCommon} `{RLP} `{StateAccountRLP} `{!MemoryDB} `{Bolt}.

Lemma update_map_spec bc (M : gmap Address Z) :
  update_map bc M = mkMBC (mb_triedb bc) (mb_Config bc) (mb_CurrentBlock bc) (mb_Storage bc) (PrecessedTxpool bc)
    (M ∪ mb_PartitionMap bc) (mb_Txpool bc).
Proof.
  unfold update_map. rewrite <- (list_to_map_to_list M) at 2. pose proof (NoDup_fst_map_to_list M) as Hnd. revert bc Hnd.
  induction (map_to_list M) as [|[a v] l IH]; intros bc Hnd; cbn [foldl list_to_map foldr fst snd].
  - rewrite (left_id_L ∅ (∪)). by destruct bc.
  - cbn in Hnd. apply NoDup_cons in Hnd as [Ha Hnd]. rewrite (IH _ Hnd). unfold Update_PartitionMap.
    cbn [mb_triedb mb_Config mb_CurrentBlock mb_Storage PrecessedTxpool mb_PartitionMap mb_Txpool]. f_equal.
    rewrite <- insert_union_l, insert_union_r; [done|]. by apply not_elem_of_list_to_map_1.
Qed.
End update.
