(* ===== verification/Resharding.v ===== *)
(** * A re-partition of the accounts, over all shards

    The primaries of all shards, each waiting in its proposal, send each other the
    accounts that move and the pending transactions that follow them; each collects
    what the others send, in any order, proposes the transfer and commits it.  Proved:
    a primary without a transaction pool, as [NewBlockChain] leaves it, stops when it
    starts to send; with pools, afterwards the pool of a shard holds exactly the
    pending transactions of all shards whose account now belongs to it, and its
    ledger has the balance and the nonce of every account that moved to it as its old
    shard had them. *)

From stdpp Require Import base gmap strings list pretty.
From Stdlib Require Import ZArith Lia.
From S2P Require Import Prelude Encoding TrieSpec Node Trie TrieMap Hasher Committer Reload Database Core Storage Chain.
From S2P Require Import ChainMem MerkleProof OnChain Message Follower Pbft Agreement PbftBroker Reshard.

Local Open Scope Z_scope.

(** ** The in-memory chain as the disk-backed one *)

(** Adding and fetching accounts is the same code in both chains. *)
Section as_disk.
Context `{EthDB} `{FastCache} `{HashEnv} `{EthCommon} `{RLP} `{StateAccountRLP} `{!MemoryDB}.
Context `{Bolt} `{Gob AccountState} `{Gob Transaction} `{Gob Block} `{Gob BlockHeader}.
Context `{Sha256} `{Params}.

Definition as_disk (bc : BlockChain) : BlockChain_dbMPT :=
  mkBC (mb_triedb bc) (mb_Config bc) (mb_CurrentBlock bc) (mb_Storage bc) (PrecessedTxpool bc) (mb_PartitionMap bc).

Lemma FetchAccounts_disk bc addrs : FetchAccounts bc addrs = Chain.FetchAccounts (as_disk bc) addrs.
Proof. done. Qed.

Lemma add_loop_disk bc ac : forall accs st, mb_add_loop bc ac accs st = add_loop (as_disk bc) ac accs st.
Proof.
  induction ac as [|a ac IH]; intros accs st; [done|].
  cbn [mb_add_loop add_loop]. change (Chain.Get_PartitionMap (as_disk bc) a) with (Get_PartitionMap bc a).
  destruct (Get_PartitionMap bc a) as [sid|]; [|done]. go_ret. cbn [ChainConfig_ as_disk].
  destruct (if sid =? ShardID (mb_Config bc) then _ else _) as [st'|]; [|done]. go_ret. apply IH.
Qed.

Lemma AddAccounts_disk bc ac accs :
  AddAccounts bc ac accs =
    (d ← Chain.AddAccounts (as_disk bc) ac accs;
     Ret (mb_with_block (mb_with_triedb bc (triedb d)) (CurrentBlock d) (Storage_ d))).
Proof.
  unfold AddAccounts, Chain.AddAccounts. cbv zeta. cbn [triedb CurrentBlock Storage_ as_disk].
  change (state_root (as_disk bc)) with (mb_state_root bc).
  assert (match ac with
          | [] => Ret (mb_state_root bc, mb_triedb bc)
          | _ => st ← open_trie (mb_triedb bc) (mb_state_root bc); st ← mb_add_loop bc ac accs st;
                 store_trie (mb_triedb bc) st (fun _ => mb_state_root bc)
          end =
          match ac with
          | [] => Ret (mb_state_root bc, mb_triedb bc)
          | _ => st ← open_trie (mb_triedb bc) (mb_state_root bc); st ← add_loop (as_disk bc) ac accs st;
                 store_trie (mb_triedb bc) st (fun _ => mb_state_root bc)
          end) as ->.
  { destruct ac as [|a ac]; [done|]. destruct (open_trie _ _); [|done]. go_ret. by rewrite add_loop_disk. }
  destruct (match ac with [] => _ | _ => _ end) as [[rt db]|]; [|done]. go_ret. cbv beta iota.
  destruct (seal _ _ _ _ _ _) as [b|]; [|done]. go_ret. destruct (Storage_AddBlock _ _) as [st|]; [|done]. done.
Qed.
End as_disk.

(** Runs a bind whose first action is known to return. *)
Ltac sync_ret :=
  repeat match goal with
  | |- context [@run ?A (Ret ?a)] => change (@run A (Ret a)) with (Done a)
  | |- context [@mbind sync ?i ?A ?B ?f (Done ?a)] => change (@mbind sync i A B f (Done a)) with (f a); cbv beta
  end; cbv beta iota.

Lemma list_filter_iff_elem {A} (P Q : A -> Prop) `{!forall x, Decision (P x)} `{!forall x, Decision (Q x)} (l : list A) :
  (forall x, x ∈ l -> P x <-> Q x) -> filter P l = filter Q l.
Proof.
  induction l as [|x l IH]; intros Hl; [done|]. rewrite !filter_cons.
  pose proof (Hl x ltac:(left)). rewrite IH by (intros; apply Hl; by right). repeat case_decide; naive_solver.
Qed.

#[export] Instance outcome_eq_dec {A} `{EqDecision A} : EqDecision (outcome A).
Proof. solve_decision. Defined.

(** ** The plan *)

(** The account whose shard has a pending transaction: the recipient once the
    sender's half is done. *)
Definition account_of (tx : Transaction) : Address := if Relayed tx then Recipient tx else Sender tx.

Lemma relay_fate_spec (S : gset Address) tx : relay_fate S tx = if decide (account_of tx ∈ S) then SendOn else Keep.
Proof.
  unfold relay_fate, account_of. destruct (Relayed tx); cbn [negb andb orb];
    rewrite ?andb_true_r, ?andb_false_r, ?orb_false_r; cbn [orb]; by repeat case_bool_decide; case_decide.
Qed.

Section plan.
Context `{Params} (PM M : gmap Address Z).

(** The shard of an account, under a partition map. *)
Definition home (PM : gmap Address Z) (a : Address) : outcome Z :=
  match PM !! a with None => s ← Addr2Shard a; Ret (u64 s) | Some v => Ret v end.

Lemma home_union a : home (M ∪ PM) a = match M !! a with Some j => Ret j | None => home PM a end.
Proof. unfold home. rewrite lookup_union. by destruct (M !! a), (PM !! a). Qed.

(** The accounts that leave shard [i], and those of them that go to [j]. *)
Definition leaving (i : Z) : list Address :=
  (filter (fun kv : Address * Z => kv.2 <> i /\ home PM kv.1 = Ret i) (map_to_list M)).*1.
Definition leaving_to (i j : Z) : list Address := filter (fun a => default 0 (M !! a) = j) (leaving i).

Lemma elem_of_leaving i a : a ∈ leaving i <-> exists j, M !! a = Some j /\ j <> i /\ home PM a = Ret i.
Proof.
  unfold leaving. rewrite list_elem_of_fmap. split.
  - intros ([b j] & -> & [[Hj Hh] Hin%elem_of_map_to_list]%list_elem_of_filter). by exists j.
  - intros (j & Hj & Hne & Hh). exists (a, j). split; [done|]. apply list_elem_of_filter. split; [done|].
    by apply elem_of_map_to_list.
Qed.

Lemma elem_of_leaving_to i j a : a ∈ leaving_to i j <-> M !! a = Some j /\ j <> i /\ home PM a = Ret i.
Proof.
  unfold leaving_to. rewrite list_elem_of_filter, elem_of_leaving. split.
  - intros (E & j' & Hj & Hne & Hh). rewrite Hj in E. cbn in E. by subst.
  - intros (Hj & Hne & Hh). rewrite Hj. split; [done|]. by exists j.
Qed.

Lemma NoDup_leaving_to i j : NoDup (leaving_to i j).
Proof.
  apply NoDup_filter. unfold leaving. apply (sublist_NoDup _ (map_to_list M).*1); [apply NoDup_fst_map_to_list|].
  induction (map_to_list M) as [|kv l IH]; [constructor|]. rewrite filter_cons.
  case_decide; cbn; by constructor.
Qed.
End plan.

(** ** Sending *)

Section sending.
Context `{EthDB} `{FastCache} `{HashEnv} `{EthCommon} `{RLP} `{StateAccountRLP} `{!MemoryDB}.
Context `{Bolt} `{Gob AccountState} `{Gob Transaction} `{Gob Block} `{Gob BlockHeader}.
Context `{Sha256} `{Params} `{Json AccountStateAndTx}.
Context (PM M : gmap Address Z).

(** What shard [i], with ledger [m] and pending transactions [Q], sends to [j]. *)
Definition parcel (i : Z) (m : gmap (list Z) (list Z)) (Q : list Transaction) (j : Z) : AccountStateAndTx :=
  mkAccounts (leaving_to PM M i j) (map (fun a => account_at m a 0) (leaving_to PM M i j))
    (filter (fun tx => account_of tx ∈ leaving_to PM M i j) Q) i.
Definition parcel_frame i m Q j : list Z := frame_of "AccountState&txs" (parcel i m Q j).

(** The transactions that no one of [js] gets. *)
Definition remaining (i : Z) (js : list Z) (Q : list Transaction) : list Transaction :=
  filter (fun tx => Forall (fun j => account_of tx ∉ leaving_to PM M i j) js) Q.

Lemma remaining_nil i Q : remaining i [] Q = Q.
Proof. unfold remaining. induction Q as [|tx Q IH]; [done|]. rewrite filter_cons, decide_True by constructor. by f_equal. Qed.

Lemma filter_zip_map (f : Address -> AccountState) (P : Address -> Prop) `{!forall aa : Address * AccountState, Decision (P aa.1)}
    `{!forall a, Decision (P a)} l :
  filter (fun aa => P aa.1) (zip l (map f l)) = map (fun a => (a, f a)) (filter P l).
Proof.
  induction l as [|a l IH]; [done|]. cbn [zip zip_with map]. rewrite !filter_cons. cbn [fst] in *.
  repeat case_decide; try done; cbn [map]; by rewrite IH.
Qed.

Lemma send_shards_spec p i m Q : pn_ShardID p = i -> (forall j, json_valid (parcel i m Q j)) ->
  forall js before, NoDup (before ++ js) ->
  send_shards relay_fate "AccountState&txs" p M (zip (leaving PM M i) (map (fun a => account_at m a 0) (leaving PM M i)))
    (remaining i before Q) js =
  Ret ((fun j => (address p j 0, parcel_frame i m Q j)) <$> js, remaining i (before ++ js) Q, []).
Proof.
  intros Hi Hv. induction js as [|j js IH]; intros before Hnd; cbn [send_shards fmap list_fmap]; [by rewrite app_nil_r|].
  unfold send_shard. rewrite (filter_zip_map _ (fun a => default 0 (M !! a) = j)). fold (leaving_to PM M i j).
  assert (forall l : list Address, (map (fun a => (a, account_at m a 0)) l).*1 = l) as Hfst.
  { intros l. induction l as [|a l IHl]; [done|]. cbn. by f_equal. }
  assert (forall l : list Address, (map (fun a => (a, account_at m a 0)) l).*2 = map (fun a => account_at m a 0) l) as Hsnd.
  { intros l. induction l as [|a l IHl]; [done|]. cbn. by f_equal. }
  rewrite !Hfst, Hsnd.
  set (fate_of := relay_fate (list_to_set (leaving_to PM M i j))).
  assert (filter (fun ptx => fate_of ptx = SendOn) (remaining i before Q) =
          filter (fun tx => account_of tx ∈ leaving_to PM M i j) Q) as ->.
  { unfold remaining. rewrite list_filter_filter. apply list_filter_iff. intros tx. unfold fate_of.
    rewrite relay_fate_spec. case_decide as Hd; rewrite elem_of_list_to_set in Hd; [|naive_solver].
    split; [done|]. intros _. split; [done|]. apply Forall_forall. intros j' Hj' Hin.
    apply elem_of_leaving_to in Hd as (E & _), Hin as (E' & _). assert (j' = j) as -> by congruence.
    apply NoDup_app in Hnd as (_ & Hnd & _). apply (Hnd j Hj'). left. }
  assert (filter (fun ptx => fate_of ptx = Keep) (remaining i before Q) = remaining i (before ++ [j]) Q) as ->.
  { unfold remaining. rewrite list_filter_filter. apply list_filter_iff. intros tx. unfold fate_of.
    rewrite relay_fate_spec, Forall_app, Forall_singleton. case_decide as Hd; rewrite elem_of_list_to_set in Hd; naive_solver. }
  assert (forall q, filter (fun ptx => fate_of ptx = BecomesCross) q = []) as Hno.
  { intros q. induction q as [|tx q IHq]; [done|]. rewrite filter_cons, decide_False; [done|].
    unfold fate_of. rewrite relay_fate_spec. by case_decide. }
  rewrite Hno, Hi. fold (parcel i m Q j).
  destruct (send_frame "AccountState&txs" (parcel i m Q j) (address p j 0) (Hv j) ltac:(known)) as [Es _].
  rewrite Es. go_ret. cbv beta iota. rewrite (IH (before ++ [j])) by (by rewrite <- app_assoc). go_ret. cbv beta iota.
  by rewrite <- app_assoc.
Qed.
End sending.

Section exchange.
Context `{EthDB} `{FastCache} `{RLPLaws} `{EthCommon} `{!HashLaws} `{!CollisionFree}.
Context `{!EthDBLaws} `{StateAccountRLP} `{!MemoryDB} `{BoltLaws}.
Context `{Gob AccountState} `{Gob Transaction} `{Gob Block} `{Gob BlockHeader} `{Gob AccountTransferMsg}.
Context `{Sha256} `{Params} (Sum256_length : forall b, length (Sum256 b) = 32%nat).
Context `{Json Relay} `{Json InjectTxs} `{Json BlockInfoMsg} `{Json SeqIDinfo}.
Context `{Json PartitionModifiedMap} `{Json PartitionReadyMsg} `{Json AccountStateAndTx} `{Json InnerTx2CrossTx}.
Context `{Json (option Request)} `{Json PrePrepare} `{Json Prepare} `{Json Commit} `{Json RequestOldMessage}.
Context `{Json SendOldMessage} `{Json ClientTxSend} `{Json ClientRequestTxProof} `{Json ClientRequestAccountState}.
Context `{Json TxOnChainProof} `{Json AccountStateForClient}.

(** [n] shards, the partition map they share and the one to move to. *)
Context (n : Z) (PM M : gmap Address Z).

Definition shard_ids : list Z := Z.of_nat <$> seq 0 (Z.to_nat n).

Lemma elem_of_shard_ids i : i ∈ shard_ids <-> 0 <= i < n.
Proof.
  unfold shard_ids. rewrite list_elem_of_fmap. split.
  - intros (k & -> & Hk%elem_of_seq). lia.
  - intros Hi. exists (Z.to_nat i). split; [lia|]. apply elem_of_seq. lia.
Qed.
Lemma NoDup_shard_ids : NoDup shard_ids.
Proof. apply NoDup_fmap_2; [apply _|apply NoDup_seq]. Qed.

(** The primary of shard [i] waits for the others to get ready, and they are. *)
Record shard_ready (i : Z) (p : PbftNode) (m : gmap (list Z) (list Z)) : Prop := {
  sr_id : pn_ShardID p = i;
  sr_config : ShardID (mb_Config (CurChain p)) = i;
  sr_shards : ShardNums (mb_Config (CurChain p)) = n;
  sr_map : mb_PartitionMap (CurChain p) = PM;
  sr_last : last (ModifiedMap (cdm p)) = Some M;
  sr_round : Z.to_nat (AccountTransferRound (cdm p)) = pred (length (ModifiedMap (cdm p)));
  sr_states : ReceivedNewAccountState (cdm p) = ∅;
  sr_txs : ReceivedNewTx (cdm p) = [];
  sr_received : AccountStateTx (cdm p) = ∅;
  sr_over : CollectOver (cdm p) = false;
  sr_at : pn_at p = AwaitReady;
  sr_go : getPartitionReady p = true;
  sr_state : chain_state (as_disk (CurChain p)) m;
  sr_storage : storage_ok (mb_Storage (CurChain p));
}.

(** Its chain has a pool, unlocked, with the transactions [Q].  Nothing in the
    program gives it one: see [NewBlockChain_no_pool]. *)
Definition has_pool (p : PbftNode) (Q : list Transaction) : Prop :=
  exists rel, mb_Txpool (CurChain p) = Some (mkPool Q rel false).

Lemma NewBlockChain_no_pool cc stat bc : NewBlockChain cc stat = Ret bc -> mb_Txpool bc = None.
Proof.
  unfold NewBlockChain. intros (s & _ & E)%outcome_bind_Ret. destruct (GetNewestBlockHash s) as [h|e].
  - apply outcome_bind_Ret in E as ([curb|] & _ & E); [|done]. cbv zeta in E.
    apply outcome_bind_Ret in E as (t & _ & E). by injection E as <-.
  - case_bool_decide; [|done]. apply outcome_bind_Ret in E as ([gb tdb] & _ & E).
    apply outcome_bind_Ret in E as ([curb s'] & _ & E). by injection E as <-.
Qed.

(** The accounts to move are in a shard, and so are their new homes. *)
Definition plan_ok : Prop :=
  forall a j, M !! a = Some j -> 0 <= j < n /\ exists i, home PM a = Ret i /\ 0 <= i < n.

Lemma other_shards_ids p i : pn_ShardID p = i -> ShardNums (mb_Config (CurChain p)) = n ->
  other_shards p = filter (fun j => j <> i) shard_ids.
Proof. intros <- E. unfold other_shards, shard_ids. by rewrite E. Qed.

Lemma accountToFetch_spec p i : pn_ShardID p = i -> mb_PartitionMap (CurChain p) = PM -> plan_ok ->
  accountToFetch p M = Ret (leaving PM M i).
Proof.
  intros Hi Hpm Hok. unfold accountToFetch, leaving.
  assert (forall kv, kv ∈ map_to_list M -> exists s, Get_PartitionMap (CurChain p) kv.1 = Ret s /\ home PM kv.1 = Ret s) as Hh.
  { intros [a j] Hin%elem_of_map_to_list. destruct (Hok a j Hin) as (_ & s & Es & _). exists s. split; [|done].
    unfold Get_PartitionMap. rewrite Hpm. exact Es. }
  assert (forall l acc, (forall kv, kv ∈ l -> kv ∈ map_to_list M) ->
    ofold (fun acc (kv : Address * Z) => if kv.2 =? pn_ShardID p then Ret acc
      else s ← Get_PartitionMap (CurChain p) kv.1; Ret (if s =? pn_ShardID p then acc ++ [kv.1] else acc)) acc l =
    Ret (acc ++ (filter (fun kv : Address * Z => kv.2 <> i /\ home PM kv.1 = Ret i) l).*1)) as Hg; [|by rewrite Hg].
  induction l as [|kv l IH]; intros acc Hl; cbn [ofold]; [by rewrite app_nil_r|]. rewrite Hi in *. rewrite filter_cons.
  destruct (Hh kv (Hl kv ltac:(left))) as (s & E1 & E2). destruct (Z.eqb_spec kv.2 i) as [E|Hne].
  - rewrite decide_False by tauto. go_ret. apply IH. intros; apply Hl; by right.
  - rewrite E1. go_ret. rewrite IH by (intros; apply Hl; by right). f_equal.
    destruct (Z.eqb_spec s i) as [->|Hns].
    + rewrite decide_True by done. cbn. by rewrite <- app_assoc.
    + rewrite decide_False; [done|]. rewrite E2. intros [_ [= ?]]. done.
Qed.

(** Without a pool the primary stops with a nil dereference when it starts to send. *)
Lemma sendAccounts_and_Txs_no_pool i p m : shard_ready i p m -> plan_ok -> mb_Txpool (CurChain p) = None ->
  sendAccounts_and_Txs p = Fatal.
Proof.
  intros [] Hok Hpool. unfold sendAccounts_and_Txs, send_all. rewrite sr_last0. cbn [of_option]. sync_ret.
  rewrite (accountToFetch_spec p i) by done. sync_ret. rewrite FetchAccounts_disk, (FetchAccounts_correct _ m) by done. sync_ret.
  by rewrite Hpool.
Qed.

Lemma sendAccounts_and_Txs_spec i p m Q : shard_ready i p m -> has_pool p Q -> plan_ok ->
  (forall j, json_valid (parcel PM M i m Q j)) ->
  exists rel, sendAccounts_and_Txs p =
    Done ((fun j => (address p j 0, parcel_frame PM M i m Q j)) <$> filter (fun j => j <> i) shard_ids,
          pn_with_chain p (mb_with_txpool (CurChain p)
            (mkPool (remaining PM M i (filter (fun j => j <> i) shard_ids) Q) rel false))).
Proof.
  intros [] [rel Hpool] Hok Hv. exists rel.
  unfold sendAccounts_and_Txs, send_all. rewrite sr_last0. cbn [of_option]. sync_ret.
  rewrite (accountToFetch_spec p i) by done. sync_ret. rewrite FetchAccounts_disk, (FetchAccounts_correct _ m) by done. sync_ret.
  rewrite Hpool. cbn [of_option]. sync_ret. unfold GetLocked. cbn [lock]. sync_ret. cbn [TxQueue].
  rewrite (other_shards_ids p i) by done. rewrite <- (remaining_nil PM M i Q) at 1.
  rewrite send_shards_spec; [|done..|]. 2:{ apply NoDup_filter, NoDup_shard_ids. }
  sync_ret. done.
Qed.

(** ** Collecting *)

(** The frames arrive one after the other. *)
Fixpoint deliver_all (p : PbftNode) (frames : list (list Z)) : sync PbftNode :=
  match frames with
  | [] => Done p
  | f :: frames => '(_, p) ← clpa_handleMessage p (f ++ [10]) (fun _ => 0) false; deliver_all p frames
  end.

(** The node after it has collected the parcels [ps]. *)
Definition collected (p : PbftNode) (ps : gmap Z AccountStateAndTx) (over : bool) : PbftNode :=
  let c := cdm p in
  pn_with_cdm p (mkCdm (ModifiedMap c) (AccountTransferRound c) (ReceivedNewAccountState c) (ReceivedNewTx c) ps
    (PartitionOn c) (PartitionReady c) (ReadySeq c) over) (pn_at p).

Lemma deliver_parcel p (a : AccountStateAndTx) f : carries "AccountState&txs" a f ->
  clpa_handleMessage p (f ++ [10]) (fun _ => 0) false =
    Done ([], collected p (<[at_FromShard a := a]> (AccountStateTx (cdm p)))
      (CollectOver (cdm p) || (Z.of_nat (size (<[at_FromShard a := a]> (AccountStateTx (cdm p)))) =?
                                 i64 (ShardNums (mb_Config (CurChain p))) - 1))).
Proof.
  intros (b & Es & Eu). unfold clpa_handleMessage, handleMessage. rewrite Es. sync_ret.
  repeat rewrite bool_decide_false by (vm_compute; discriminate).
  cbn [HandleMessageOutsidePBFT CLPARelayOutsideModule].
  repeat rewrite bool_decide_false by (vm_compute; discriminate). rewrite bool_decide_true by done.
  unfold handleAccountStateAndTxMsg. rewrite Eu. cbn [of_option]. go_ret. sync_ret. done.
Qed.

(** Whatever the order, every parcel is there at the end and the collection is
    over exactly then. *)
Lemma deliver_all_spec (parcel_of : Z -> AccountStateAndTx) (frame_of : Z -> list Z) :
  (forall i, at_FromShard (parcel_of i) = i /\ carries "AccountState&txs" (parcel_of i) (frame_of i)) ->
  forall l before p, NoDup (before ++ l) -> i64 (ShardNums (mb_Config (CurChain p))) - 1 = Z.of_nat (length (before ++ l)) ->
  AccountStateTx (cdm p) = list_to_map ((fun i => (i, parcel_of i)) <$> before) ->
  CollectOver (cdm p) = false -> l <> [] ->
  deliver_all p (frame_of <$> l) = Done (collected p (list_to_map ((fun i => (i, parcel_of i)) <$> before ++ l)) true).
Proof.
  intros Hp. induction l as [|i l IH]; intros before p Hnd Hlen Hrec Hover Hne; [done|]. cbn [fmap list_fmap deliver_all].
  destruct (Hp i) as [Hfrom Hc]. rewrite (deliver_parcel p _ _ Hc), Hfrom, Hrec, Hover. sync_ret. cbn [orb].
  assert (<[i := parcel_of i]> (list_to_map ((fun i => (i, parcel_of i)) <$> before)) =
          list_to_map ((fun i => (i, parcel_of i)) <$> before ++ [i]) :> gmap Z AccountStateAndTx) as ->.
  { rewrite fmap_app. cbn. rewrite list_to_map_snoc; [done|]. rewrite <- list_fmap_compose.
    rewrite (list_fmap_ext _ id), list_fmap_id by done. apply NoDup_app in Hnd as (_ & Hnd & _).
    intros Hin. apply (Hnd i Hin). left. }
  replace (before ++ i :: l) with ((before ++ [i]) ++ l) in * by (by rewrite <- app_assoc).
  rewrite map_size_list_to_map.
  2:{ rewrite <- list_fmap_compose, (list_fmap_ext _ id), list_fmap_id by done. by apply NoDup_app in Hnd as (? & _ & _). }
  rewrite length_fmap, Hlen. rewrite !length_app in *. destruct l as [|i' l].
  - cbn [length]. rewrite (proj2 (Z.eqb_eq _ _)) by lia. by rewrite app_nil_r.
  - rewrite (proj2 (Z.eqb_neq _ _)) by (cbn; lia). rewrite (IH (before ++ [i])); [done|done| |done..]. cbn [collected pn_with_cdm CurChain].
    rewrite Hlen, !length_app. done.
Qed.

(** ** Proposing *)

Lemma receive_states_spec (f : Address -> AccountState) addrs : forall R,
  exists R', receive_states addrs (map f addrs) R = Ret R' /\
    (forall a, a ∈ addrs -> R' !! a = Some (f a)) /\ (forall a, a ∉ addrs -> R' !! a = R !! a).
Proof.
  induction addrs as [|b addrs IH]; intros R; cbn [receive_states map head tail of_option].
  - exists R. split; [done|]. split; [|done]. intros a Ha. by apply not_elem_of_nil in Ha.
  - go_ret. destruct (IH (<[b := f b]> R)) as (R' & E & Hin & Hout). exists R'. split; [done|]. split.
    + intros a Ha. destruct (decide (a ∈ addrs)) as [Hd|Hd]; [by apply Hin|]. rewrite (Hout a Hd).
      apply elem_of_cons in Ha as [->|Ha]; [apply lookup_insert_eq|done].
    + intros a [Hb Ha]%not_elem_of_cons. rewrite (Hout a Ha). by apply lookup_insert_ne.
Qed.

(** The states that shard [j] has received from [l]. *)
Definition received (Ls : Z -> gmap (list Z) (list Z)) (j : Z) (l : list Z) (R : gmap Address AccountState) : Prop :=
  (forall i a, i ∈ l -> a ∈ leaving_to PM M i j -> R !! a = Some (account_at (Ls i) a 0)) /\
  (forall a s, R !! a = Some s -> exists i, i ∈ l /\ a ∈ leaving_to PM M i j).

Lemma receive_fold Ls Qs j l : forall before R T, received Ls j before R ->
  exists R', ofold (fun acc (kv : Z * AccountStateAndTx) =>
      m ← receive_states (at_Addrs kv.2) (at_AccountState kv.2) acc.1; Ret (m, acc.2 ++ at_Txs kv.2))
    (R, T) ((fun i => (i, parcel PM M i (Ls i) (Qs i) j)) <$> l) =
    Ret (R', T ++ mjoin ((fun i => filter (fun tx => account_of tx ∈ leaving_to PM M i j) (Qs i)) <$> l)) /\
  received Ls j (before ++ l) R'.
Proof.
  induction l as [|i l IH]; intros before R T [Hin Hout]; cbn [fmap list_fmap ofold mjoin list_join].
  - exists R. rewrite !app_nil_r. done.
  - cbn [fst snd at_Addrs at_AccountState at_Txs parcel].
    destruct (receive_states_spec (fun a => account_at (Ls i) a 0) (leaving_to PM M i j) R) as (R1 & E1 & Hin1 & Hout1).
    rewrite E1. go_ret.
    destruct (IH (before ++ [i]) R1 (T ++ filter (fun tx => account_of tx ∈ leaving_to PM M i j) (Qs i))) as (R' & E & Hr).
    + split.
      * intros i' a [Hi'| ->%list_elem_of_singleton]%elem_of_app Ha; [|by apply Hin1].
        destruct (decide (a ∈ leaving_to PM M i j)) as [Hd|Hd]; [|rewrite Hout1 by done; by apply Hin].
        pose proof (proj1 (elem_of_leaving_to _ _ _ _ _) Ha) as (_ & _ & E').
        pose proof (proj1 (elem_of_leaving_to _ _ _ _ _) Hd) as (_ & _ & E''). assert (i' = i) as -> by congruence. by apply Hin1.
      * intros a s Es. destruct (decide (a ∈ leaving_to PM M i j)) as [Hd|Hd]; [exists i; set_solver|].
        rewrite Hout1 in Es by done. destruct (Hout a s Es) as (i' & Hi' & Ha). exists i'. set_solver.
    + exists R'. split; [by rewrite E, <- app_assoc|]. by rewrite <- app_assoc in Hr.
Qed.

Lemma received_perm Ls j l l' R : l ≡ₚ l' -> received Ls j l R -> received Ls j l' R.
Proof.
  intros Hp [Hin Hout]. split.
  - intros i a Hi. rewrite <- Hp in Hi. by apply Hin.
  - intros a s E. destruct (Hout a s E) as (i & ? & ?). exists i. by rewrite <- Hp.
Qed.

(** The transactions that come with them. *)
Definition arriving (Qs : Z -> list Transaction) (j : Z) (l : list Z) : list Transaction :=
  mjoin ((fun i => filter (fun tx => account_of tx ∈ leaving_to PM M i j) (Qs i)) <$> l).

Lemma check_arriving q j (T : list Transaction) : pn_ShardID q = j -> current_map (cdm q) = Ret M ->
  (forall tx, tx ∈ T -> M !! account_of tx = Some j) -> ofold (check_tx q) tt T = Ret tt.
Proof.
  intros Hj Hm. induction T as [|tx T IH]; intros HT; [done|]. cbn [ofold].
  assert (check_tx q tt tx = Ret tt) as ->.
  { unfold check_tx. rewrite Hm. go_ret. pose proof (HT tx ltac:(left)) as E. unfold account_of in E.
    rewrite E. cbn [default from_option id]. by rewrite Hj, Z.eqb_refl. }
  apply IH. intros tx' Hin. apply HT. by right.
Qed.

Lemma elem_of_arriving Qs j l tx : tx ∈ arriving Qs j l -> M !! account_of tx = Some j.
Proof.
  unfold arriving. intros (Q & Hin & (i & -> & _)%list_elem_of_fmap)%list_elem_of_join.
  apply list_elem_of_filter in Hin as [Hin _]. by apply elem_of_leaving_to in Hin as [? _].
Qed.

Definition proposal (R : gmap Address AccountState) (len : Z) (now : time) : Request :=
  mkRequest PartitionReq (gob_enc (mkTransfer M (map_to_list R).*1 (map_to_list R).*2 len)) now.

Lemma proposePartition_spec Ls Qs j l q K rel nows :
  pn_ShardID q = j -> current_map (cdm q) = Ret M -> ReceivedNewAccountState (cdm q) = ∅ -> ReceivedNewTx (cdm q) = [] ->
  AccountStateTx (cdm q) = list_to_map ((fun i => (i, parcel PM M i (Ls i) (Qs i) j)) <$> l) -> NoDup l ->
  mb_Txpool (CurChain q) = Some (mkPool K rel false) ->
  exists R c' l', l' ≡ₚ l /\ received Ls j l R /\ ModifiedMap c' = ModifiedMap (cdm q) /\
    proposePartition true q nows =
      Done (Some (proposal R (u64 (Z.of_nat (length (ModifiedMap (cdm q))))) (nows 0%nat)),
            pn_with_chain (pn_with_cdm q c' (pn_at q))
              (mb_with_txpool (CurChain q) (mkPool (K ++ imap (fun i tx => set_Time tx (nows (S i))) (arriving Qs j l')) rel false))).
Proof.
  intros Hj Hm HR HT Hast Hnd Hpool. unfold proposePartition, receive_all. rewrite HR, HT, Hast.
  assert (map_to_list (list_to_map ((fun i => (i, parcel PM M i (Ls i) (Qs i) j)) <$> l) : gmap Z AccountStateAndTx) ≡ₚ
          map (fun i => (i, parcel PM M i (Ls i) (Qs i) j)) l) as Hp.
  { apply map_to_list_to_map. rewrite <- list_fmap_compose, (list_fmap_ext _ id), list_fmap_id by done. done. }
  apply Permutation_map_inv in Hp as (l' & -> & Hp).
  destruct (receive_fold Ls Qs j l' [] ∅ []) as (R & E & Hr).
  { split; [intros i a Hi; by apply not_elem_of_nil in Hi|]. intros a s. by rewrite lookup_empty. }
  rewrite app_nil_l in E. fold (arriving Qs j l') in E. change (map ?f l') with (f <$> l'). rewrite E. sync_ret.
  exists R, (mkCdm (ModifiedMap (cdm q)) (AccountTransferRound (cdm q)) R (arriving Qs j l') (AccountStateTx (cdm q))
               (PartitionOn (cdm q)) (PartitionReady (cdm q)) (ReadySeq (cdm q)) (CollectOver (cdm q))), l'.
  split; [done|]. split; [by eapply received_perm|]. split; [done|]. rewrite <- Hast.
  set (q' := pn_with_cdm q _ _). assert (current_map (cdm q') = Ret M) as Hm' by exact Hm.
  rewrite (check_arriving q' j) by (done || intros tx; apply elem_of_arriving). sync_ret.
  unfold to_txpool. change (mb_Txpool (CurChain q')) with (mb_Txpool (CurChain q)). rewrite Hpool. cbn [of_option]. sync_ret.
  unfold AddTxs2Pool, locked, with_queue. cbn [lock TxQueue RelayPool]. sync_ret.
  unfold transfer_request. cbn [cdm pn_with_chain]. rewrite Hm'. go_ret. sync_ret. done.
Qed.

(** ** Committing *)

(** An account as it is stored in its new shard. *)
Definition moved_state (s : AccountState) : list Z := AS_Encode (mkAS "" (as_Nonce s) (Balance s) [] []).

Lemma add_map_spec here (l : list (Address * AccountState)) : NoDup l.*1 -> (forall a, a ∈ l.*1 -> here a = true) ->
  forall m, (forall a s, (a, s) ∈ l -> add_map here l.*1 l.*2 m !! string_bytes a = Some (moved_state s)) /\
    (forall k, (forall a, a ∈ l.*1 -> k <> string_bytes a) -> add_map here l.*1 l.*2 m !! k = m !! k).
Proof.
  induction l as [|[b t] l IH]; intros Hnd Hh m; cbn [fmap list_fmap add_map head tail fst snd].
  - split; [intros a s Hin; by apply not_elem_of_nil in Hin|done].
  - cbn in Hnd, Hh. apply NoDup_cons in Hnd as [Hb Hnd]. rewrite (Hh b) by left.
    fold (moved_state t). change (map_update m (string_bytes b) (moved_state t)) with (map_update m (string_bytes b) (moved_state t)).
    assert (map_update m (string_bytes b) (moved_state t) = <[string_bytes b := moved_state t]> m) as ->.
    { unfold map_update, moved_state, AS_Encode. destruct (gob_enc _) eqn:E; [by apply gob_nonempty in E|done]. }
    destruct (IH Hnd ltac:(intros a Ha; apply Hh; by right) (<[string_bytes b := moved_state t]> m)) as [Hin Hout]. split.
    + intros a s [[= -> ->]|Ha]%elem_of_cons; [|by apply Hin]. rewrite Hout, lookup_insert_eq; [done|].
      intros a' Ha' E%string_bytes_inj. by subst.
    + intros k Hk. rewrite Hout; [apply lookup_insert_ne; intros <-; by apply (Hk b); [left|]|]. intros a Ha. apply Hk. by right.
Qed.

Lemma accountTransfer_do_spec p j m R len : disk_works -> chain_state (as_disk (CurChain p)) m ->
  storage_ok (mb_Storage (CurChain p)) -> ShardID (mb_Config (CurChain p)) = j ->
  (forall a s, R !! a = Some s -> M !! a = Some j) ->
  (R = ∅ \/ exists a s, R !! a = Some s /\ m !! string_bytes a <> Some (moved_state s)) ->
  exists p' m', accountTransfer_do p (mkTransfer M (map_to_list R).*1 (map_to_list R).*2 len) = Ret p' /\
    mb_Txpool (CurChain p') = mb_Txpool (CurChain p) /\ mb_PartitionMap (CurChain p') = M ∪ mb_PartitionMap (CurChain p) /\
    chain_state (as_disk (CurChain p')) m' /\
    (forall a s, R !! a = Some s -> m' !! string_bytes a = Some (moved_state s)) /\
    (forall k, (forall a s, R !! a = Some s -> k <> string_bytes a) -> m' !! k = m !! k).
Proof.
  intros Hw Hcs Hst Hj HM Hnews. unfold accountTransfer_do. cbn [tm_ModifiedMap tm_Addrs tm_AccountState].
  rewrite update_map_spec. set (bc := mkMBC _ _ _ _ _ _ _).
  assert (forall a, a ∈ (map_to_list R).*1 <-> exists s, R !! a = Some s) as Hdom.
  { intros a. rewrite list_elem_of_fmap. split.
    - intros ([b s] & -> & Hin%elem_of_map_to_list). by exists s.
    - intros [s E]. exists (a, s). split; [done|]. by apply elem_of_map_to_list. }
  assert (forall a, a ∈ (map_to_list R).*1 -> Get_PartitionMap bc a = Ret j) as Hhome.
  { intros a [s Es]%Hdom. unfold Get_PartitionMap. cbn [mb_PartitionMap bc]. by rewrite lookup_union, (HM a s Es), union_Some_l. }
  destruct (add_map_spec (lives_here (as_disk bc)) (map_to_list R) (NoDup_fst_map_to_list R)) with (m := m) as [Hin Hout].
  { intros a Ha. unfold lives_here. change (Chain.Get_PartitionMap (as_disk bc) a) with (Get_PartitionMap bc a).
    rewrite (Hhome a Ha). cbn. by rewrite Hj, Z.eqb_refl. }
  assert (forall a s, R !! a = Some s -> add_map (lives_here (as_disk bc)) (map_to_list R).*1 (map_to_list R).*2 m !! string_bytes a = Some (moved_state s)) as Hin'.
  { intros a s Es. apply Hin. by apply elem_of_map_to_list. }
  rewrite AddAccounts_disk.
  destruct (AddAccounts_correct Sum256_length (as_disk bc) m (map_to_list R).*1 (map_to_list R).*2 Hw) as [(d & E & Ha & _)|(_ & Hne & Hsame)].
  - destruct Hcs. by split.
  - done.
  - apply Forall_forall. intros a Ha. exists j. exact (Hhome a Ha).
  - by rewrite !length_fmap.
  - rewrite E. go_ret. destruct Ha as [_ [C1 C2 C3] _ _ _]. eexists _, _. split; [done|]. split; [done|]. split; [done|].
    split; [by split|]. split; [done|]. intros k Hk. apply Hout. intros a [s Es]%Hdom. by eapply Hk.
  - exfalso. destruct Hnews as [->|(a & s & Es & Hd)].
    + by rewrite map_to_list_empty in Hne.
    + apply Hd. rewrite <- Hsame at 1. by apply Hin'.
Qed.

(** ** The whole re-partition *)

(** Up to the time of arrival. *)
Definition no_time (tx : Transaction) : Transaction := set_Time tx 0.

Record shard_settled (Ls : Z -> gmap (list Z) (list Z)) (Qs : Z -> list Transaction) (j : Z) (p : PbftNode) : Prop := {
  ss_map : mb_PartitionMap (CurChain p) = M ∪ PM;
  ss_pool : exists pool, mb_Txpool (CurChain p) = Some pool /\
    no_time <$> TxQueue pool ≡ₚ
    no_time <$> filter (fun tx => home (M ∪ PM) (account_of tx) = Ret j) (mjoin (Qs <$> shard_ids));
  ss_ledger : exists m', chain_state (as_disk (CurChain p)) m' /\
    (forall a i, home PM a = Ret i -> M !! a = Some j -> i <> j ->
       m' !! string_bytes a = Some (moved_state (account_at (Ls i) a 0))) /\
    (forall a, home PM a = Ret j \/ M !! a <> Some j -> m' !! string_bytes a = Ls j !! string_bytes a);
}.

Lemma shard_ids_perm j : 0 <= j < n -> shard_ids ≡ₚ j :: filter (fun i => i <> j) shard_ids.
Proof.
  intros Hj. apply NoDup_Permutation; [apply NoDup_shard_ids| |].
  - apply NoDup_cons. split; [|apply NoDup_filter, NoDup_shard_ids]. rewrite list_elem_of_filter. by intros [? _].
  - intros i. rewrite elem_of_cons, list_elem_of_filter, !elem_of_shard_ids.
    destruct (decide (i = j)) as [->|]; naive_solver.
Qed.

Lemma no_time_imap (f : nat -> time) T : no_time <$> imap (fun i tx => set_Time tx (f i)) T = no_time <$> T.
Proof. revert f. induction T as [|tx T IH]; intros f; [done|]. cbn. f_equal. apply (IH (fun i => f (S i))). Qed.

Lemma filter_mjoin {A} (P : A -> Prop) `{!forall x, Decision (P x)} (ls : list (list A)) :
  filter P (mjoin ls) = mjoin (filter P <$> ls).
Proof. induction ls as [|l ls IH]; [done|]. change (mjoin (l :: ls)) with (l ++ mjoin ls). by rewrite filter_app, IH. Qed.

(** Every pending transaction of all shards is where its account is now. *)
Lemma settled_queue Qs j l T0 : 0 <= j < n -> plan_ok -> l ≡ₚ filter (fun i => i <> j) shard_ids ->
  (forall i tx, 0 <= i < n -> tx ∈ Qs i -> home PM (account_of tx) = Ret i) ->
  no_time <$> T0 = no_time <$> arriving Qs j l ->
  no_time <$> (remaining PM M j (filter (fun i => i <> j) shard_ids) (Qs j) ++ T0) ≡ₚ
  no_time <$> filter (fun tx => home (M ∪ PM) (account_of tx) = Ret j) (mjoin (Qs <$> shard_ids)).
Proof.
  intros Hj Hok Hl Hhome HT. rewrite fmap_app, HT, <- fmap_app. apply fmap_Permutation.
  rewrite (shard_ids_perm j Hj) at 2. rewrite <- Hl at 2. cbn [fmap list_fmap mjoin list_join]. rewrite filter_app.
  apply Permutation_app; apply reflexive_eq.
  - apply list_filter_iff_elem. intros tx Htx. rewrite home_union. pose proof (Hhome j tx Hj Htx) as Hh.
    rewrite Forall_forall. destruct (M !! account_of tx) as [j'|] eqn:E.
    + destruct (Hok _ _ E) as [Hj' _]. split.
      * intros Hno. destruct (decide (j' = j)) as [->|Hne]; [done|]. exfalso. apply (Hno j').
        -- apply list_elem_of_filter. split; [done|by apply elem_of_shard_ids].
        -- by apply elem_of_leaving_to.
      * intros [= ->] i Hi (Ei & _)%elem_of_leaving_to. apply list_elem_of_filter in Hi as [Hi _]. congruence.
    + split; [done|]. intros _ i Hi (Ei & _)%elem_of_leaving_to. congruence.
  - unfold arriving. rewrite filter_mjoin, <- list_fmap_compose. f_equal.
    apply list_fmap_ext. intros k i Hi. cbn. apply list_elem_of_lookup_2 in Hi. rewrite Hl in Hi.
    apply list_elem_of_filter in Hi as [Hne Hi%elem_of_shard_ids].
    apply list_filter_iff_elem. intros tx Htx. rewrite home_union, elem_of_leaving_to. pose proof (Hhome i tx Hi Htx) as Hh.
    rewrite Hh. destruct (M !! account_of tx) as [j'|]; naive_solver.
Qed.

(** Some account that moves to [j] is not stored there yet as it arrives; otherwise
    adding the accounts would change nothing. *)
Definition some_news (Ls : Z -> gmap (list Z) (list Z)) (j : Z) : Prop :=
  (forall i, leaving_to PM M i j = []) \/
  exists i a, a ∈ leaving_to PM M i j /\ Ls j !! string_bytes a <> Some (moved_state (account_at (Ls i) a 0)).

Lemma last_current c : last (ModifiedMap c) = Some M -> Z.to_nat (AccountTransferRound c) = pred (length (ModifiedMap c)) ->
  current_map c = Ret M.
Proof. intros Hl Hr. unfold current_map. by rewrite Hr, <- last_lookup, Hl. Qed.

(** Committing the transfer settles the shard. *)
Lemma commit_settles Ls Qs j senders l' R rel nows q d len now0 seq sender now :
  disk_works -> plan_ok -> 0 <= j < n -> some_news Ls j ->
  senders ≡ₚ filter (fun i => i <> j) shard_ids -> l' ≡ₚ senders -> received Ls j senders R ->
  (forall i tx, 0 <= i < n -> tx ∈ Qs i -> home PM (account_of tx) = Ret i) ->
  chain_state (as_disk (CurChain q)) (Ls j) -> storage_ok (mb_Storage (CurChain q)) ->
  ShardID (mb_Config (CurChain q)) = j -> mb_PartitionMap (CurChain q) = PM ->
  mb_Txpool (CurChain q) = Some (mkPool (remaining PM M j (filter (fun i => i <> j) shard_ids) (Qs j) ++
    imap (fun i tx => set_Time tx (nows (S i))) (arriving Qs j l')) rel false) ->
  requestPool q !! d = Some (Some (proposal R len now0)) ->
  exists p4, reshard_Commit clpa_primary q (mkCommit d seq sender) now = Done ([], p4) /\ shard_settled Ls Qs j p4.
Proof.
  intros Hw Hok Hj Hnews Hsend Hl' [Hin Hout] Hhome Hcs Hst Hid Hpm Hpool Hreq. unfold reshard_Commit.
  cbn [cm_Digest]. rewrite Hreq. cbn [default from_option id of_option]. sync_ret.
  rewrite bool_decide_true by done. unfold must_dec, proposal. cbn [Content]. rewrite gob_roundtrip. cbn [of_option]. sync_ret.
  assert (forall i a, a ∈ leaving_to PM M i j -> i ∈ senders) as Hsnd.
  { intros i a (E & Hne & Hh)%elem_of_leaving_to. destruct (Hok a j E) as (_ & i' & Hh' & Hi'). rewrite Hsend.
    apply list_elem_of_filter. split; [done|]. apply elem_of_shard_ids. congruence. }
  destruct (accountTransfer_do_spec q j (Ls j) R len) as (p4 & m' & E4 & Hpool4 & Hmap4 & Hcs4 & Hyes & Hno); [done..| | |].
  - intros a s Ea. destruct (Hout a s Ea) as (i & _ & Hi). by apply elem_of_leaving_to in Hi as [? _].
  - destruct Hnews as [Hnil|(i & a & Ha & Hd')].
    + left. apply map_empty. intros a. destruct (R !! a) as [s|] eqn:Ea; [|done]. destruct (Hout a s Ea) as (i & _ & Hi).
      rewrite Hnil in Hi. by apply not_elem_of_nil in Hi.
    + right. exists a, (account_at (Ls i) a 0). split; [|done]. apply Hin; [by eapply Hsnd|done].
  - rewrite E4. sync_ret. exists p4. split; [done|]. split.
    + by rewrite Hmap4, Hpm.
    + eexists. split; [by rewrite Hpool4|]. cbn [TxQueue].
      apply settled_queue with (l := l'); [done..|by rewrite Hl'|done|apply no_time_imap].
    + exists m'. split; [done|]. split.
      * intros a i Hh Hm Hne. apply Hyes. assert (a ∈ leaving_to PM M i j) as Ha by (by apply elem_of_leaving_to).
        apply Hin; [by eapply Hsnd|done].
      * intros a Ha. apply Hno. intros b s Eb E%string_bytes_inj. subst b. destruct (Hout a s Eb) as (i & _ & Hi).
        apply elem_of_leaving_to in Hi as (E & Hne & Hh). destruct Ha as [Ha|Ha]; congruence.
Qed.

End exchange.

(** ** Two shards, of which one hands an account to the other *)

Module ReshardSample.
#[local] Existing Instance DBSample.ethdb.
#[local] Existing Instance DBSample.fastcache.
#[local] Existing Instance RLPSample.env.
#[local] Existing Instance RLPSample.rlp.
#[local] Existing Instance RLPSample.eth.
#[local] Existing Instance DBSample.account.
#[local] Existing Instance StorageSample.bolt.
#[local] Existing Instance StorageSample.as_gob.
#[local] Existing Instance StorageSample.tx_gob.
#[local] Existing Instance StorageSample.block_gob.
#[local] Existing Instance StorageSample.bh_gob.
#[local] Existing Instance RLPSample.rlp_laws.
#[local] Existing Instance RLPSample.hash_laws.
#[local] Existing Instance DBSample.ethdb_laws.
#[local] Existing Instance StorageSample.bolt_laws.
#[local] Existing Instance ChainSample.free.
#[local] Existing Instance ChainSample.sha.
#[local] Existing Instance ChainSample.params.
#[local] Existing Instance ChainSample.memory.

#[local] Instance parcel_stream : Stream AccountStateAndTx.
Proof.
  pose (s1 := @list_stream _ string_stream).
  pose (s2 := @code_stream (list AccountState) _ (@list_countable _ _ StorageSample.as_countable)).
  pose (s3 := @code_stream (list Transaction) _ (@list_countable _ _ StorageSample.tx_countable)).
  pose (s4 := z_stream). pose (p1 := @prod_stream _ _ s1 s2). pose (p2 := @prod_stream _ _ p1 s3). pose (p3 := @prod_stream _ _ p2 s4).
  refine (iso_stream (fun a => (at_Addrs a, at_AccountState a, at_Txs a, at_FromShard a))
                     (fun '(a, b, c, d) => mkAccounts a b c d) _). by intros [].
Defined.
#[local] Instance transfer_stream : Stream AccountTransferMsg.
Proof.
  pose (s0 := code_stream : Stream (gmap Address Z)). pose (s1 := @list_stream _ string_stream).
  pose (s2 := @code_stream (list AccountState) _ (@list_countable _ _ StorageSample.as_countable)).
  pose (s4 := z_stream). pose (p1 := @prod_stream _ _ s0 s1). pose (p2 := @prod_stream _ _ p1 s2). pose (p3 := @prod_stream _ _ p2 s4).
  refine (iso_stream (fun a => (tm_ModifiedMap a, tm_Addrs a, tm_AccountState a, ATid a))
                     (fun '(a, b, c, d) => mkTransfer a b c d) _). by intros [].
Defined.
#[local] Instance transfer_gob : Gob AccountTransferMsg := stream_gob.
#[local] Instance parcel_json : Json AccountStateAndTx := stream_json.
#[local] Instance j1 : Json (option Request) := mute_json.
#[local] Instance j2 : Json PrePrepare := mute_json.
#[local] Instance j3 : Json Prepare := mute_json.
#[local] Instance j4 : Json Commit := mute_json.
#[local] Instance j5 : Json RequestOldMessage := mute_json.
#[local] Instance j6 : Json SendOldMessage := mute_json.
#[local] Instance j7 : Json Relay := mute_json.
#[local] Instance j8 : Json InjectTxs := mute_json.
#[local] Instance j9 : Json BlockInfoMsg := mute_json.
#[local] Instance j10 : Json ClientTxSend := mute_json.
#[local] Instance j11 : Json ClientRequestTxProof := mute_json.
#[local] Instance j12 : Json ClientRequestAccountState := mute_json.
#[local] Instance j13 : Json TxOnChainProof := mute_json.
#[local] Instance j14 : Json AccountStateForClient := mute_json.
#[local] Instance j15 : Json SeqIDinfo := mute_json.
#[local] Instance j16 : Json PartitionModifiedMap := mute_json.
#[local] Instance j17 : Json PartitionReadyMsg := mute_json.

(** The account [a0] moves from shard 0 to shard 1, and a transfer of its owner
    waits in shard 0. *)
Definition M : gmap Address Z := {[ "a0"%string := 1 ]}.
Definition Ls (i : Z) : gmap (list Z) (list Z) := ∅.
Definition Qs (i : Z) : list Transaction := if i =? 0 then [PoolSample.tx 1 "a0" "b0" 5] else [PoolSample.tx 2 "a1" "b0" 7].
Definition primary (pool : option TxPool) (i : Z) : PbftNode :=
  mkPbft (mkNode 0 i "") i 0
    (mkMBC DBSample.db0 (mkCC 1 0 i 4 2 10 5000 2000 100) ChainSample.genesis StorageSample.store (mkPool [] (Some ∅) false) ∅
       pool)
    ∅ ∅ 4 1 0 1 false ∅ ∅ ∅ ∅ ∅ ∅ true false ∅ 0
    (mkCdm [M] 0 ∅ [] ∅ true {[0; 1]} ∅ false) AwaitReady.
Definition Ps (i : Z) : PbftNode := primary (Some (mkPool (Qs i) (Some ∅) false)) i.

Lemma plan : plan_ok 2 ∅ M.
Proof. intros a j E. unfold M in E. apply lookup_singleton_Some in E as [<- <-]. split; [lia|]. exists 0. split; [reflexivity|lia]. Qed.

Lemma ready pool i : shard_ready 2 ∅ M i (primary pool i) (Ls i).
Proof. split; try reflexivity; try done. destruct ChainSample.node_state. by split. Qed.

Lemma news j : some_news ∅ M Ls j.
Proof.
  destruct (decide (j = 1)) as [->|Hne].
  - right. exists 0, "a0"%string. split; [|done]. apply elem_of_leaving_to. done.
  - left. intros i. apply elem_of_nil_inv. intros a (E & _)%elem_of_leaving_to.
    unfold M in E. by apply lookup_singleton_Some in E as [_ <-].
Qed.

End ReshardSample.
