(* ===== verification/Committee.v ===== *)
(** * The supervisor's committees ([supervisor/committee/], [broker/broker.go],
      [supervisor/signal/])

    A committee reads the transactions of a data file and injects them into the
    shards, and reacts to the block reports of the shards.  There are four: for
    relayed transactions, for brokers (a transfer between shards is split into two
    halves through a broker's account, the second sent when the first is reported
    in a block), for the re-partition of accounts, and for both of these.

    Their structs repeat each other's fields and methods; here the common fields are
    records of their own ([Feed], [BrokerState], [Clpa]) and a method that differs
    only in how it finds the shard of a transaction takes that as an argument.  A
    method runs as one step: the locks it takes and its sleeps are left out, as what
    it reads while it sleeps is changed by itself only.  Logging is left out, and
    so is [brokerTxPool], which nothing uses. *)

From stdpp Require Import base gmap strings list.
From Stdlib Require Import ZArith Lia SpecFloat.
From S2P Require Import Prelude Database Core Chain Message Follower Pbft Partition.

Local Open Scope Z_scope.

(** ** The stop signal *)

Record StopSignal := mkStop { stopGap : Z; stopThreshold : Z }.

Definition NewStopSignal (stop_Threshold : Z) : StopSignal := mkStop 0 stop_Threshold.
Definition StopGap_Inc (ss : StopSignal) : StopSignal := mkStop (i64 (stopGap ss + 1)) (stopThreshold ss).
Definition StopGap_Reset (ss : StopSignal) : StopSignal := mkStop 0 (stopThreshold ss).
Definition GapEnough (ss : StopSignal) : bool := stopThreshold ss <=? stopGap ss.

(** ** Messages between a committee and its brokers *)

Record BrokerRawMeg := mkRaw {
  rm_Tx : Transaction;
  rm_Broker : Address;
  rm_Hlock : Z;
  rm_Snonce : Z;
  rm_Bnonce : Z;
  rm_Signature : list Z;
}.
Record BrokerType1Meg := mkType1 { b1_RawMeg : BrokerRawMeg; b1_Hcurrent : Z; b1_Broker : Address }.
Record Mag1Confirm := mkConfirm1 { Tx1Hash : list Z; c1_RawMeg : BrokerRawMeg }.
Record BrokerType2Meg := mkType2 { b2_RawMeg : BrokerRawMeg; b2_Broker : Address }.
Record Mag2Confirm := mkConfirm2 { Tx2Hash : list Z; c2_RawMeg : BrokerRawMeg }.

(** ** The brokers *)

(** [ChainConfig] is nil here and never used. *)
Record Broker := mkBroker {
  BrokerRawMegs : gmap (list Z) BrokerRawMeg;
  BrokerAddress : list Address;
  RawTx2BrokerTx : gmap (list Z) (list (list Z));
}.

Fixpoint IsBroker_loop (addrs : list Address) (address : Address) : bool :=
  match addrs with
  | [] => false
  | brokerAddress :: addrs => if bool_decide (brokerAddress = address) then true else IsBroker_loop addrs address
  end.
Definition IsBroker (b : Broker) (address : Address) : bool := IsBroker_loop (BrokerAddress b) address.

(** The lines of the broker file; a file that cannot be opened has none. *)
Fixpoint initBrokerAddr (lines : list string) (num : Z) : list Address :=
  match lines with
  | [] => []
  | line :: lines => line :: (if num - 1 =? 0 then [] else initBrokerAddr lines (num - 1))
  end.

Definition NewBroker (lines : list string) (BrokerNum : Z) : Broker := mkBroker ∅ (initBrokerAddr lines BrokerNum) ∅.

(** ** Reading a record of the data file *)

(** [new(big.Int).SetString(s, 10)]: a sign and decimal digits, at least one. *)
Definition dec_digit (c : Z) : option Z := if (48 <=? c) && (c <=? 57) then Some (c - 48) else None.
Fixpoint dec_digits (acc : Z) (s : list Z) : option Z :=
  match s with
  | [] => Some acc
  | c :: s => d ← dec_digit c; dec_digits (10 * acc + d) s
  end.
Definition SetString10 (s : string) : option Z :=
  match string_bytes s with
  | [] => None
  | [45] => None
  | [43] => None
  | 45 :: ds => Z.opp <$> dec_digits 0 ds
  | 43 :: ds => dec_digits 0 ds
  | ds => dec_digits 0 ds
  end.

(** [s[2:]]. *)
Definition from2 (s : string) : string := String.substring 2 (String.length s - 2) s.

(** [params.InjectSpeed] and [params.BrokerNum]. *)
Class FeedParams := { InjectSpeed : Z; BrokerNum : Z }.

Definition node_address (table : gmap Z (gmap Z string)) (sid nid : Z) : string :=
  default "" (default ∅ (table !! sid) !! nid).

(** The shards [0 .. params.ShardNum - 1]. *)
Definition all_shards `{Params} : list Z := Z.of_nat <$> seq 0 (Z.to_nat (u64 ShardNum)).

(** The data source: [csvPath] stands for the records given to the loop. *)
Record Feed := mkFeed { dataTotalNum : Z; nowDataNum : Z; batchDataNum : Z }.
Definition feed_count (f : Feed) : Feed := mkFeed (dataTotalNum f) (i64 (nowDataNum f + 1)) (batchDataNum f).

(** [time.Since]: a duration saturates at its width. *)
Definition Since (now t : time) : Z := Z.max (- 2 ^ 63) (Z.min (2 ^ 63 - 1) (now - t)).
Definition Second : Z := 1000000000.

Section committee.
Context `{Gob Transaction} `{Sha256} `{Params} `{FeedParams}.
Context `{Json InjectTxs} `{Json PartitionModifiedMap} `{Json BrokerRawMeg} `{Json InnerTx2CrossTx}.

Definition data2tx (data : list string) (nonce : Z) (now : time) : outcome (option Transaction) :=
  d6 ← of_option (data !! 6%nat);
  if negb (bool_decide (d6 = "0"%string)) then Ret None else
  d7 ← of_option (data !! 7%nat);
  if negb (bool_decide (d7 = "0"%string)) then Ret None else
  d3 ← of_option (data !! 3%nat);
  if (String.length d3 <=? 16)%nat then Ret None else
  d4 ← of_option (data !! 4%nat);
  if (String.length d4 <=? 16)%nat then Ret None else
  if bool_decide (d3 = d4) then Ret None else
  d8 ← of_option (data !! 8%nat);
  val ← of_option (SetString10 d8);
  Ret (Some (NewTransaction (from2 d3) (from2 d4) val nonce now)).

(** ** Injecting transactions *)

Definition send_batch (table : gmap Z (gmap Z string)) (sendToShard : gmap Z (list Transaction)) : outcome (list packet) :=
  ofold (fun acc sid =>
      pk ← send "inject" (mkInject (default [] (sendToShard !! sid)) sid) (node_address table sid 0); Ret (acc ++ [pk]))
    [] all_shards.

(** The loop at index [idx], with the rest of the list: [idx] has reached the length
    when the rest is empty. *)
Fixpoint sending_loop (route : Transaction -> outcome Z) (table : gmap Z (gmap Z string)) (idx : Z)
    (txs : list Transaction) (sendToShard : gmap Z (list Transaction)) : outcome (list packet) :=
  due ← (if idx <=? 0 then Ret false
         else if InjectSpeed =? 0 then Panic
         else Ret ((Z.rem idx InjectSpeed =? 0) || bool_decide (txs = [])));
  pks ← (if (due : bool) then send_batch table sendToShard else Ret []);
  let sendToShard := if (due : bool) then ∅ else sendToShard in
  match txs with
  | [] => Ret pks
  | tx :: txs =>
      sid ← route tx;
      rest ← sending_loop route table (idx + 1) txs (<[sid := default [] (sendToShard !! sid) ++ [tx]]> sendToShard);
      Ret (pks ++ rest)
  end.

Definition txSending (route : Transaction -> outcome Z) (table : gmap Z (gmap Z string)) (txlist : list Transaction)
  : outcome (list packet) := sending_loop route table 0 txlist ∅.

(** The shard of an account: by its address, or where the last re-partition put it. *)
Definition addr_shard (key : Address) : outcome Z := s ← Addr2Shard key; Ret (u64 s).
Definition fetchModifiedMap (m : gmap Address Z) (key : Address) : outcome Z :=
  match m !! key with None => addr_shard key | Some val => Ret val end.

(** The shard of a transaction: its sender's, and its recipient's when the sender is
    a broker. *)
Definition sender_route (fetch : Address -> outcome Z) (tx : Transaction) : outcome Z := fetch (Sender tx).
Definition broker_route (fetch : Address -> outcome Z) (b : Broker) (tx : Transaction) : outcome Z :=
  s ← fetch (Sender tx); if IsBroker b (Sender tx) then fetch (Recipient tx) else Ret s.

(** ** Brokered transfers *)

Record BrokerState := mkBS {
  broker : Broker;
  brokerConfirm1Pool : gmap (list Z) Mag1Confirm;
  brokerConfirm2Pool : gmap (list Z) Mag2Confirm;
}.
Definition bs_with_broker (bs : BrokerState) (b : Broker) : BrokerState :=
  mkBS b (brokerConfirm1Pool bs) (brokerConfirm2Pool bs).
Definition bs_with_confirm1 (bs : BrokerState) (m : gmap (list Z) Mag1Confirm) : BrokerState :=
  mkBS (broker bs) m (brokerConfirm2Pool bs).
Definition bs_with_confirm2 (bs : BrokerState) (m : gmap (list Z) Mag2Confirm) : BrokerState :=
  mkBS (broker bs) (brokerConfirm1Pool bs) m.

Definition set_transfer (tx : Transaction) (ctx : Transaction) : Transaction :=
  mkTx (Id tx) (Sender tx) (Recipient tx) (Nonce tx) (Signature tx) (Value tx) (TxHash tx)
    (Time tx) (AllocateTime tx) (ExecutionTime tx) (Relayed tx) (HasBroker tx) (SenderIsBroker tx)
    (Sender ctx) (Recipient ctx) (TxHash ctx).
Definition set_HasBroker (tx : Transaction) (senderIsBroker : bool) : Transaction :=
  mkTx (Id tx) (Sender tx) (Recipient tx) (Nonce tx) (Signature tx) (Value tx) (TxHash tx)
    (Time tx) (AllocateTime tx) (ExecutionTime tx) (Relayed tx) true senderIsBroker
    (OriginalSender tx) (FinalRecipient tx) (RawTxHash tx).

(** The two halves of a transfer. *)
Definition half1 (meg : BrokerType1Meg) (now : time) : Transaction :=
  let ctx := rm_Tx (b1_RawMeg meg) in
  set_transfer (NewTransaction (Sender ctx) (b1_Broker meg) (Value ctx) (Nonce ctx) now) ctx.
Definition half2 (mes : BrokerType2Meg) (now : time) : Transaction :=
  let ctx := rm_Tx (b2_RawMeg mes) in
  set_transfer (NewTransaction (b2_Broker mes) (Recipient ctx) (Value ctx) (Nonce ctx) now) ctx.

(** [nows i] is the clock when the [i]-th half is made. *)
Definition handleBrokerType1Mes (route : Transaction -> outcome Z) (table : gmap Z (gmap Z string)) (bs : BrokerState)
    (megs : list BrokerType1Meg) (nows : nat -> time) : outcome (list packet * BrokerState) :=
  let tx1s := imap (fun i meg => half1 meg (nows i)) megs in
  let pool := foldl (fun m '(meg, tx1) => <[TxHash tx1 := mkConfirm1 (TxHash tx1) (b1_RawMeg meg)]> m)
                (brokerConfirm1Pool bs) (zip megs tx1s) in
  pks ← txSending route table tx1s;
  Ret (pks, bs_with_confirm1 bs pool).

Definition handleBrokerType2Mes (route : Transaction -> outcome Z) (table : gmap Z (gmap Z string)) (bs : BrokerState)
    (megs : list BrokerType2Meg) (nows : nat -> time) : outcome (list packet * BrokerState) :=
  let tx2s := imap (fun i mes => half2 mes (nows i)) megs in
  let pool := foldl (fun m '(mes, tx2) => <[TxHash tx2 := mkConfirm2 (TxHash tx2) (b2_RawMeg mes)]> m)
                (brokerConfirm2Pool bs) (zip megs tx2s) in
  pks ← txSending route table tx2s;
  Ret (pks, bs_with_confirm2 bs pool).

Definition getBrokerRawMagDigest (r : BrokerRawMeg) : outcome (list Z) :=
  b ← of_option (json_Marshal r); Ret (Sum256 b).

Definition note_raw (b : Broker) (meg : BrokerRawMeg) : outcome Broker :=
  d ← getBrokerRawMagDigest meg; Ret (mkBroker (<[d := meg]> (BrokerRawMegs b)) (BrokerAddress b) (RawTx2BrokerTx b)).

Definition handleBrokerRawMag (route : Transaction -> outcome Z) (table : gmap Z (gmap Z string)) (bs : BrokerState)
    (megs : list BrokerRawMeg) (nows : nat -> time) : outcome (list packet * BrokerState) :=
  b ← ofold note_raw (broker bs) megs;
  handleBrokerType1Mes route table (bs_with_broker bs b) ((fun meg => mkType1 meg 0 (rm_Broker meg)) <$> megs) nows.

(** One transaction of a batch: a raw message for the broker, or a transaction to
    send, marked when one of its ends is a broker. *)
Definition deal_tx (fetch : Address -> outcome Z) (b : Broker) (st : list Transaction * list BrokerRawMeg) (tx : Transaction)
  : outcome (list Transaction * list BrokerRawMeg) :=
  let '(itxs, megs) := st in
  rSid ← fetch (Recipient tx);
  sSid ← fetch (Sender tx);
  if negb (rSid =? sSid) && negb (IsBroker b (Recipient tx)) && negb (IsBroker b (Sender tx)) then
    a ← of_option (BrokerAddress b !! 0%nat); Ret (itxs, megs ++ [mkRaw tx a 0 0 0 []])
  else
    let tx := if IsBroker b (Recipient tx) || IsBroker b (Sender tx) then set_HasBroker tx (IsBroker b (Sender tx)) else tx in
    Ret (itxs ++ [tx], megs).

Definition dealTxByBroker (fetch : Address -> outcome Z) (table : gmap Z (gmap Z string)) (bs : BrokerState)
    (txs : list Transaction) (nows : nat -> time) : outcome (list packet * list Transaction * BrokerState) :=
  '(itxs, megs) ← ofold (deal_tx fetch (broker bs)) ([], []) txs;
  '(pks, bs) ← (if bool_decide (megs = []) then Ret ([], bs)
                else handleBrokerRawMag (broker_route fetch (broker bs)) table bs megs nows);
  Ret (pks, itxs, bs).

Definition record_half (b : Broker) (raw : BrokerRawMeg) (h : list Z) : Broker :=
  let k := TxHash (rm_Tx raw) in
  mkBroker (BrokerRawMegs b) (BrokerAddress b) (<[k := default [] (RawTx2BrokerTx b !! k) ++ [h]]> (RawTx2BrokerTx b)).

Definition confirm1_step (st : Broker * list BrokerType2Meg) (c : Mag1Confirm) : outcome (Broker * list BrokerType2Meg) :=
  let '(b, megs) := st in
  d ← getBrokerRawMagDigest (c1_RawMeg c);
  match BrokerRawMegs b !! d with
  | None => Ret (b, megs)
  | Some _ =>
      a ← of_option (BrokerAddress b !! 0%nat);
      Ret (record_half b (c1_RawMeg c) (Tx1Hash c), megs ++ [mkType2 (c1_RawMeg c) a])
  end.

Definition handleTx1ConfirmMag (route : Transaction -> outcome Z) (table : gmap Z (gmap Z string)) (bs : BrokerState)
    (confirms : list Mag1Confirm) (nows : nat -> time) : outcome (list packet * BrokerState) :=
  '(b, megs) ← ofold confirm1_step (broker bs, []) confirms;
  handleBrokerType2Mes route table (bs_with_broker bs b) megs nows.

(** Only what is printed depends on the number of hashes recorded. *)
Definition handleTx2ConfirmMag (bs : BrokerState) (confirms : list Mag2Confirm) : BrokerState :=
  bs_with_broker bs (foldl (fun b c => record_half b (c2_RawMeg c) (Tx2Hash c)) (broker bs) confirms).

Definition createConfirm (route : Transaction -> outcome Z) (table : gmap Z (gmap Z string)) (bs : BrokerState)
    (txs : list Transaction) (nows : nat -> time) : outcome (list packet * BrokerState) :=
  let confirm1s := omap (fun tx => brokerConfirm1Pool bs !! TxHash tx) txs in
  let confirm2s := omap (fun tx => brokerConfirm2Pool bs !! TxHash tx) txs in
  '(pks, bs) ← (if bool_decide (confirm1s = []) then Ret ([], bs) else handleTx1ConfirmMag route table bs confirm1s nows);
  Ret (pks, if bool_decide (confirm2s = []) then bs else handleTx2ConfirmMag bs confirm2s).

(** ** Re-partitions *)

Record Clpa := mkClpa {
  clpaGraph : CLPAState;
  modifiedMap : gmap Address Z;
  clpaLastRunningTime : time;
  clpaFreq : Z;
}.
Definition cl_with_graph (c : Clpa) (g : CLPAState) : Clpa := mkClpa g (modifiedMap c) (clpaLastRunningTime c) (clpaFreq c).
Definition cl_with_time (c : Clpa) (t : time) : Clpa := mkClpa (clpaGraph c) (modifiedMap c) t (clpaFreq c).

(** [new(partition.CLPAState)] followed by [Init_CLPAState(0.5, 100, params.ShardNum)]. *)
Definition new_graph : outcome CLPAState :=
  Init_CLPAState (mkCLPA (mkGraph ∅ None) ∅ [] [] (S754_zero false) 0 0 0 0) (f_div (f_of_int 1) (f_of_int 2)) 100 ShardNum.

Definition clpaMapSend (table : gmap Z (gmap Z string)) (m : gmap Address Z) : outcome (list packet) :=
  '(_, frame) ← send "PartitionModifiedMap" (mkModified m) "";
  Ret ((fun i => (node_address table i 0, frame)) <$> all_shards).

Definition clpaReset (c : Clpa) : outcome Clpa :=
  g ← new_graph;
  Ret (cl_with_graph c (cs_with_partition g (kmap mkVertex (i64 <$> modifiedMap c) ∪ PartitionMap g) (VertexsNumInShard g))).

(** A run of the partition, whose result goes to the shards and into the map. *)
Definition clpa_round (table : gmap Z (gmap Z string)) (c : Clpa) (orders : nat -> list Vertex) (now : time)
  : outcome (list packet * Clpa) :=
  '(mmap, _, g) ← CLPA_Partition (clpaGraph c) orders;
  pks ← clpaMapSend table mmap;
  c ← clpaReset (mkClpa g (mmap ∪ modifiedMap c) (clpaLastRunningTime c) (clpaFreq c));
  Ret (pks, cl_with_time c now).

Definition clpa_due (c : Clpa) (now : time) : bool := i64 (clpaFreq c * Second) <=? Since now (clpaLastRunningTime c).

Definition add_edges (c : Clpa) (es : list (Address * Address)) : outcome Clpa :=
  g ← ofold (fun g '(u, v) => AddEdge g (mkVertex u) (mkVertex v)) (clpaGraph c) es;
  Ret (cl_with_graph c g).

(** ** The four committees *)

Record RelayCommitteeModule := mkRelayC { rc_feed : Feed; rc_IpNodeTable : gmap Z (gmap Z string) }.
Record BrokerCommitteeMod := mkBrokerC { bc_feed : Feed; bc_broker : BrokerState; bc_IpNodeTable : gmap Z (gmap Z string) }.
Record CLPACommitteeModule := mkClpaC { cc_feed : Feed; cc_clpa : Clpa; cc_IpNodeTable : gmap Z (gmap Z string) }.
Record CLPACommitteeMod_Broker := mkClpaBrokerC {
  cb_feed : Feed;
  cb_clpa : Clpa;
  cb_broker : BrokerState;
  cb_IpNodeTable : gmap Z (gmap Z string);
}.

Definition NewRelayCommitteeModule (table : gmap Z (gmap Z string)) (dataNum batchNum : Z) : RelayCommitteeModule :=
  mkRelayC (mkFeed dataNum 0 batchNum) table.
Definition NewBrokerCommitteeMod (table : gmap Z (gmap Z string)) (lines : list string) (dataNum batchNum : Z)
  : BrokerCommitteeMod := mkBrokerC (mkFeed dataNum 0 batchNum) (mkBS (NewBroker lines BrokerNum) ∅ ∅) table.
Definition NewCLPACommitteeModule (table : gmap Z (gmap Z string)) (dataNum batchNum clpaFrequency : Z)
  : outcome CLPACommitteeModule :=
  cg ← new_graph; Ret (mkClpaC (mkFeed dataNum 0 batchNum) (mkClpa cg ∅ 0 clpaFrequency) table).
Definition NewCLPACommitteeMod_Broker (table : gmap Z (gmap Z string)) (lines : list string)
    (dataNum batchNum clpaFrequency : Z) : outcome CLPACommitteeMod_Broker :=
  cg ← new_graph;
  Ret (mkClpaBrokerC (mkFeed dataNum 0 batchNum) (mkClpa cg ∅ 0 clpaFrequency) (mkBS (NewBroker lines BrokerNum) ∅ ∅) table).

Definition relay_txSending (m : RelayCommitteeModule) : list Transaction -> outcome (list packet) :=
  txSending (sender_route addr_shard) (rc_IpNodeTable m).
Definition broker_txSending (m : BrokerCommitteeMod) : list Transaction -> outcome (list packet) :=
  txSending (broker_route addr_shard (broker (bc_broker m))) (bc_IpNodeTable m).
Definition clpa_txSending (m : CLPACommitteeModule) : list Transaction -> outcome (list packet) :=
  txSending (sender_route (fetchModifiedMap (modifiedMap (cc_clpa m)))) (cc_IpNodeTable m).
Definition clpa_broker_txSending (m : CLPACommitteeMod_Broker) : list Transaction -> outcome (list packet) :=
  txSending (broker_route (fetchModifiedMap (modifiedMap (cb_clpa m))) (broker (cb_broker m))) (cb_IpNodeTable m).

(** The broker methods of the last committee: those above, with its own map. *)
Definition clpa_broker_createConfirm (m : CLPACommitteeMod_Broker) (txs : list Transaction) (nows : nat -> time)
  : outcome (list packet * BrokerState) :=
  createConfirm (broker_route (fetchModifiedMap (modifiedMap (cb_clpa m))) (broker (cb_broker m))) (cb_IpNodeTable m)
    (cb_broker m) txs nows.
Definition clpa_broker_dealTxByBroker (m : CLPACommitteeMod_Broker) (txs : list Transaction) (nows : nat -> time)
  : outcome (list packet * list Transaction * BrokerState) :=
  dealTxByBroker (fetchModifiedMap (modifiedMap (cb_clpa m))) (cb_IpNodeTable m) (cb_broker m) txs nows.

(** Block reports. *)
Definition broker_HandleBlockInfo (m : BrokerCommitteeMod) (b : BlockInfoMsg) (nows : nat -> time)
  : outcome (list packet * BrokerCommitteeMod) :=
  if BlockBodyLength b =? 0 then Ret ([], m)
  else
    '(pks, bs) ← createConfirm (broker_route addr_shard (broker (bc_broker m))) (bc_IpNodeTable m) (bc_broker m)
                   (Broker1Txs b ++ Broker2Txs b) nows;
    Ret (pks, mkBrokerC (bc_feed m) bs (bc_IpNodeTable m)).

Definition clpa_HandleBlockInfo (m : CLPACommitteeModule) (b : BlockInfoMsg) : outcome CLPACommitteeModule :=
  if BlockBodyLength b =? 0 then Ret m
  else c ← add_edges (cc_clpa m) ((fun tx => (Sender tx, Recipient tx)) <$> ExcutedTxs b);
       Ret (mkClpaC (cc_feed m) c (cc_IpNodeTable m)).

Definition clpa_broker_HandleBlockInfo (m : CLPACommitteeMod_Broker) (b : BlockInfoMsg) (nows : nat -> time)
  : outcome (list packet * CLPACommitteeMod_Broker) :=
  if BlockBodyLength b =? 0 then Ret ([], m)
  else
    '(pks, bs) ← clpa_broker_createConfirm m (Broker1Txs b ++ Broker2Txs b) nows;
    c ← add_edges (cb_clpa m)
          (((fun tx => (Sender tx, Recipient tx)) <$> filter (fun tx => HasBroker tx = false) (ExcutedTxs b)) ++
           ((fun tx => (OriginalSender tx, FinalRecipient tx)) <$> Broker1Txs b));
    Ret (pks, mkClpaBrokerC (cb_feed m) c bs (cb_IpNodeTable m)).

(** Other messages: transfers within a shard that a re-partition has split. *)
Definition clpa_broker_HandleOtherMessage (m : CLPACommitteeMod_Broker) (msg : list Z) (nows : nat -> time)
  : outcome (list packet * CLPACommitteeMod_Broker) :=
  '(msgType, content) ← SplitMessage msg;
  if negb (bool_decide (msgType = string_bytes "innerShardTx_be_crossShard")) then Ret ([], m)
  else
    itct ← of_option (json_Unmarshal content : option InnerTx2CrossTx);
    '(pks, itxs, bs) ← clpa_broker_dealTxByBroker m (ic_Txs itct) nows;
    let m := mkClpaBrokerC (cb_feed m) (cb_clpa m) bs (cb_IpNodeTable m) in
    pks' ← clpa_broker_txSending m itxs;
    Ret (pks ++ pks', m).

(** ** Reading the data file *)

(** The state of the loop: the committee, the stop signal it shares with the
    supervisor, the current batch, and whether the loop has ended. *)
Record Sending M := mkSending { sg_mod : M; sg_Ss : StopSignal; sg_txlist : list Transaction; sg_done : bool }.
Arguments mkSending {M}.
Arguments sg_mod {M}. Arguments sg_Ss {M}. Arguments sg_txlist {M}. Arguments sg_done {M}.

(** The batch is sent when it is full or the last transaction has been read. *)
Definition batch_due (f : Feed) (txlist : list Transaction) : bool :=
  (Z.of_nat (length txlist) =? batchDataNum f) || (nowDataNum f =? dataTotalNum f).

(** One record: the clock is [now] when the transaction is made. *)
Definition relay_record (s : Sending RelayCommitteeModule) (data : list string) (now : time)
  : outcome (list packet * Sending RelayCommitteeModule) :=
  let m := sg_mod s in
  o ← data2tx data (u64 (nowDataNum (rc_feed m))) now;
  let '(m, txlist) := (match o with
                       | Some tx => (mkRelayC (feed_count (rc_feed m)) (rc_IpNodeTable m), sg_txlist s ++ [tx])
                       | None => (m, sg_txlist s)
                       end) in
  let last := nowDataNum (rc_feed m) =? dataTotalNum (rc_feed m) in
  if batch_due (rc_feed m) txlist then
    pks ← relay_txSending m txlist; Ret (pks, mkSending m (StopGap_Reset (sg_Ss s)) [] last)
  else Ret ([], mkSending m (sg_Ss s) txlist last).

(** [nows] is the clock while the batch is sent. *)
Definition broker_record (s : Sending BrokerCommitteeMod) (data : list string) (now : time) (nows : nat -> time)
  : outcome (list packet * Sending BrokerCommitteeMod) :=
  let m := sg_mod s in
  o ← data2tx data (u64 (nowDataNum (bc_feed m))) now;
  match o with
  | None => Ret ([], s)
  | Some tx =>
      let m := mkBrokerC (feed_count (bc_feed m)) (bc_broker m) (bc_IpNodeTable m) in
      let txlist := sg_txlist s ++ [tx] in
      let last := nowDataNum (bc_feed m) =? dataTotalNum (bc_feed m) in
      if batch_due (bc_feed m) txlist then
        '(pks, itx, bs) ← dealTxByBroker addr_shard (bc_IpNodeTable m) (bc_broker m) txlist nows;
        let m := mkBrokerC (bc_feed m) bs (bc_IpNodeTable m) in
        pks' ← broker_txSending m itx;
        Ret (pks ++ pks', mkSending m (StopGap_Reset (sg_Ss s)) [] last)
      else Ret ([], mkSending m (sg_Ss s) txlist last)
  end.

(** The clocks of an iteration with a re-partition: when the timer starts, when it
    is compared, and when the run has ended. *)
Record Clocks := mkClocks { ck_start : time; ck_check : time; ck_end : time }.

Definition start_timer (c : Clpa) (now : time) : Clpa := if IsZero (clpaLastRunningTime c) then cl_with_time c now else c.

(** The re-partition of an iteration: not before the first batch. *)
Definition clpa_check (table : gmap Z (gmap Z string)) (c : Clpa) (ck : Clocks) (orders : nat -> list Vertex)
  : outcome (list packet * Clpa) :=
  if negb (IsZero (clpaLastRunningTime c)) && clpa_due c (ck_check ck) then clpa_round table c orders (ck_end ck) else Ret ([], c).

Definition clpa_record (s : Sending CLPACommitteeModule) (data : list string) (now : time) (ck : Clocks)
    (orders : nat -> list Vertex) : outcome (list packet * Sending CLPACommitteeModule) :=
  let m := sg_mod s in
  let table := cc_IpNodeTable m in
  o ← data2tx data (u64 (nowDataNum (cc_feed m))) now;
  match o with
  | None => Ret ([], s)
  | Some tx =>
      let f := feed_count (cc_feed m) in
      let txlist := sg_txlist s ++ [tx] in
      '(pks, c, ss, txlist) ←
        (if batch_due f txlist then
           let c := start_timer (cc_clpa m) (ck_start ck) in
           pks ← clpa_txSending (mkClpaC f c table) txlist; Ret (pks, c, StopGap_Reset (sg_Ss s), [])
         else Ret ([], cc_clpa m, sg_Ss s, txlist));
      '(pks', c) ← clpa_check table c ck orders;
      Ret (pks ++ pks', mkSending (mkClpaC f c table) ss txlist (nowDataNum f =? dataTotalNum f))
  end.

Definition clpa_broker_record (s : Sending CLPACommitteeMod_Broker) (data : list string) (now : time) (nows : nat -> time)
    (ck : Clocks) (orders : nat -> list Vertex) : outcome (list packet * Sending CLPACommitteeMod_Broker) :=
  let m := sg_mod s in
  let table := cb_IpNodeTable m in
  o ← data2tx data (u64 (nowDataNum (cb_feed m))) now;
  match o with
  | None => Ret ([], s)
  | Some tx =>
      let f := feed_count (cb_feed m) in
      let txlist := sg_txlist s ++ [tx] in
      '(pks, c, bs, ss, txlist) ←
        (if batch_due f txlist then
           let c := start_timer (cb_clpa m) (ck_start ck) in
           '(pks, itx, bs) ← clpa_broker_dealTxByBroker (mkClpaBrokerC f c (cb_broker m) table) txlist nows;
           pks' ← clpa_broker_txSending (mkClpaBrokerC f c bs table) itx;
           Ret (pks ++ pks', c, bs, StopGap_Reset (sg_Ss s), [])
         else Ret ([], cb_clpa m, cb_broker m, sg_Ss s, txlist));
      '(pks', c) ← clpa_check table c ck orders;
      Ret (pks ++ pks', mkSending (mkClpaBrokerC f c bs table) ss txlist (nowDataNum f =? dataTotalNum f))
  end.

(** The loop after the last record: a round whenever one is due, the timer's start
    not being checked. *)
Definition clpa_wait (table : gmap Z (gmap Z string)) (c : Clpa) (ck : Clocks) (orders : nat -> list Vertex)
  : outcome (list packet * Clpa) :=
  if clpa_due c (ck_check ck) then clpa_round table c orders (ck_end ck) else Ret ([], c).

(** The loop over the records: a record that cannot be read ([None]) panics, and the
    end of the list is the end of the file. *)
Fixpoint reading_loop {M} (record : nat -> Sending M -> list string -> outcome (list packet * Sending M)) (i : nat)
    (s : Sending M) (file : list (option (list string))) : outcome (list packet * Sending M) :=
  match file with
  | [] => Ret ([], s)
  | None :: _ => Panic
  | Some data :: file =>
      '(pks, s) ← record i s data;
      if sg_done s then Ret (pks, s)
      else '(rest, s) ← reading_loop record (S i) s file; Ret (pks ++ rest, s)
  end.

(** [MsgSendingControl]; [clock i] is the clock at the [i]-th record. *)
Definition relay_MsgSendingControl (m : RelayCommitteeModule) (ss : StopSignal) (file : list (option (list string)))
    (clock : nat -> time) : outcome (list packet * Sending RelayCommitteeModule) :=
  reading_loop (fun i s data => relay_record s data (clock i)) 0 (mkSending m ss [] false) file.

Definition broker_MsgSendingControl (m : BrokerCommitteeMod) (ss : StopSignal) (file : list (option (list string)))
    (clock : nat -> time) (clocks : nat -> nat -> time) : outcome (list packet * Sending BrokerCommitteeMod) :=
  reading_loop (fun i s data => broker_record s data (clock i) (clocks i)) 0 (mkSending m ss [] false) file.

(** The loop that waits for the shards to finish: before the [i]-th check of the stop
    signal, [round i] is what happens since the last one, the block reports that arrive
    while the loop sleeps and the re-partition that may be due.  It goes on as long as
    the supervisor's signal, [enough i] at the [i]-th check, makes it. *)
Fixpoint waiting_loop {M} (enough : nat -> bool) (round : nat -> M -> outcome (list packet * M)) (fuel i : nat) (m : M)
  : outcome (list packet * M) :=
  match fuel with
  | O => Panic
  | S fuel =>
      if enough i then Ret ([], m)
      else
        '(pks, m) ← round i m;
        '(rest, m) ← waiting_loop enough round fuel (S i) m;
        Ret (pks ++ rest, m)
  end.

(** The reports [bs] and then the re-partition that may be due. *)
Definition clpa_waiting (m : CLPACommitteeModule) (bs : list BlockInfoMsg) (ck : Clocks) (orders : nat -> list Vertex)
  : outcome (list packet * CLPACommitteeModule) :=
  m ← ofold clpa_HandleBlockInfo m bs;
  '(pks, c) ← clpa_wait (cc_IpNodeTable m) (cc_clpa m) ck orders;
  Ret (pks, mkClpaC (cc_feed m) c (cc_IpNodeTable m)).
Definition clpa_broker_waiting (m : CLPACommitteeMod_Broker) (bs : list (BlockInfoMsg * (nat -> time))) (ck : Clocks)
    (orders : nat -> list Vertex) : outcome (list packet * CLPACommitteeMod_Broker) :=
  '(pks, m) ← ofold (fun '(pks, m) '(b, nows) => '(pks', m) ← clpa_broker_HandleBlockInfo m b nows; Ret (pks ++ pks', m)) ([], m) bs;
  '(pks', c) ← clpa_wait (cb_IpNodeTable m) (cb_clpa m) ck orders;
  Ret (pks ++ pks', mkClpaBrokerC (cb_feed m) c (cb_broker m) (cb_IpNodeTable m)).

(** The stop signal is shared with the supervisor: [gaps i] is what it is at the [i]-th
    check.  Clocks and map orders of the waiting loop come after those of the records. *)
Definition clpa_MsgSendingControl (fuel : nat) (m : CLPACommitteeModule) (ss : StopSignal) (file : list (option (list string)))
    (clock : nat -> time) (clocks : nat -> Clocks) (orders : nat -> nat -> list Vertex)
    (gaps : nat -> StopSignal) (reports : nat -> list BlockInfoMsg) : outcome (list packet * CLPACommitteeModule) :=
  '(pks, s) ← reading_loop (fun i s data => clpa_record s data (clock i) (clocks i) (orders i)) 0 (mkSending m ss [] false) file;
  '(pks', m) ← waiting_loop (fun i => GapEnough (gaps i))
                 (fun i m => clpa_waiting m (reports i) (clocks (length file + i)%nat) (orders (length file + i)%nat)) fuel 0 (sg_mod s);
  Ret (pks ++ pks', m).

Definition clpa_broker_MsgSendingControl (fuel : nat) (m : CLPACommitteeMod_Broker) (ss : StopSignal)
    (file : list (option (list string))) (clock : nat -> time) (nows : nat -> nat -> time) (clocks : nat -> Clocks)
    (orders : nat -> nat -> list Vertex) (gaps : nat -> StopSignal) (reports : nat -> list (BlockInfoMsg * (nat -> time)))
  : outcome (list packet * CLPACommitteeMod_Broker) :=
  '(pks, s) ← reading_loop (fun i s data => clpa_broker_record s data (clock i) (nows i) (clocks i) (orders i)) 0 (mkSending m ss [] false) file;
  '(pks', m) ← waiting_loop (fun i => GapEnough (gaps i))
                 (fun i m => clpa_broker_waiting m (reports i) (clocks (length file + i)%nat) (orders (length file + i)%nat)) fuel 0 (sg_mod s);
  Ret (pks ++ pks', m).

(** The waiting loop ends with the first check at which the signal is enough, after the
    rounds before it. *)
Lemma waiting_loop_ends {M} (enough : nat -> bool) (round : nat -> M -> outcome (list packet * M)) k : forall fuel i m (inv : M -> Prop),
  enough (i + k)%nat = true -> (k < fuel)%nat -> inv m ->
  (forall j m, inv m -> exists pks m', round j m = Ret (pks, m') /\ inv m') ->
  exists pks m', waiting_loop enough round fuel i m = Ret (pks, m') /\ inv m'.
Proof.
  induction k as [|k IH]; intros fuel i m inv He Hf Hm Hr; (destruct fuel as [|fuel]; [lia|]); cbn [waiting_loop].
  - rewrite Nat.add_0_r in He. rewrite He. by eexists _, m.
  - destruct (enough i) eqn:Ei; [by eexists _, m|]. destruct (Hr i m Hm) as (pks & m1 & -> & Hm1). go_ret. cbv beta iota.
    destruct (IH fuel (S i) m1 inv) as (pks' & m' & -> & Hm'); [by replace (S i + k)%nat with (i + S k)%nat by lia|lia|done|done|].
    go_ret. by eexists _, m'.
Qed.
End committee.
Arguments mkSending {M}.
Arguments sg_mod {M}. Arguments sg_Ss {M}. Arguments sg_txlist {M}. Arguments sg_done {M}.
