(* ===== verification/Injection.v ===== *)
(** * What the committees inject ([supervisor/committee/])

    The packets of [txSending] decoded as the shards decode them: every transaction
    of the list reaches its shard exactly once and in order.  From it, what reading
    a whole data file sends. *)

From stdpp Require Import base gmap strings list sorting.
From Stdlib Require Import ZArith Lia.
From S2P Require Import Prelude Database Core Chain Message Follower Pbft Partition Committee.

Local Open Scope Z_scope.

(** ** Lists split by a key *)

Section split.
Context {A B : Type} (key : A -> Z) (f : A -> list B).

Lemma concat_key_cons (ks : list Z) (x : A) (l : list A) : NoDup ks ->
  concat (map (fun k => concat (f <$> filter (fun y => key y = k) (x :: l))) ks) ≡ₚ
  (if decide (key x ∈ ks) then f x else []) ++ concat (map (fun k => concat (f <$> filter (fun y => key y = k) l)) ks).
Proof.
  induction 1 as [|k ks Hk Hks IH]; [rewrite decide_False by apply not_elem_of_nil; done|]. cbn [map concat]. rewrite IH, filter_cons.
  destruct (decide (key x = k)) as [<-|Hne].
  - rewrite (decide_False _ _ Hk), decide_True by left. cbn. by rewrite (assoc (++)).
  - destruct (decide (key x ∈ ks)) as [Hin|Hin].
    + rewrite decide_True by (by right). apply Permutation_app_swap_app.
    + rewrite decide_False by (by intros [|]%elem_of_cons). done.
Qed.

(** The parts by key are a permutation of the elements whose key is listed. *)
Lemma concat_by_key (ks : list Z) (l : list A) : NoDup ks ->
  concat (map (fun k => concat (f <$> filter (fun y => key y = k) l)) ks) ≡ₚ concat (f <$> filter (fun y => key y ∈ ks) l).
Proof.
  intros Hks. induction l as [|x l IH].
  - cbn. clear Hks. by induction ks.
  - rewrite concat_key_cons, IH, filter_cons by done. by case_decide.
Qed.
End split.

Lemma concat_singletons {A} (l : list A) : concat ((fun x => [x]) <$> l) = l.
Proof. induction l as [|x l IH]; [done|]. cbn. by rewrite <- IH at 2. Qed.

Lemma filter_by_key {A} (key : A -> Z) (ks : list Z) (l : list A) : NoDup ks ->
  concat (map (fun k => filter (fun y => key y = k) l) ks) ≡ₚ filter (fun y => key y ∈ ks) l.
Proof.
  intros Hks. pose proof (concat_by_key key (fun x => [x]) ks l Hks) as E. rewrite concat_singletons in E.
  rewrite <- E. rewrite (map_ext _ (fun k => concat ((fun x => [x]) <$> filter (fun y => key y = k) l))); [done|].
  intros k. by rewrite concat_singletons.
Qed.

Section injection.
Context `{Gob Transaction} `{Sha256} `{Params} `{FeedParams} `{Json InjectTxs}.

Lemma elem_of_all_shards sid : 0 <= ShardNum < 2 ^ 63 -> sid ∈ all_shards <-> 0 <= sid < ShardNum.
Proof.
  intros Hs. unfold all_shards. rewrite wrap_u_small by (unfold is_u; lia).
  rewrite list_elem_of_fmap. split.
  - intros (i & -> & Hi%elem_of_seq). lia.
  - intros Hsid. exists (Z.to_nat sid). rewrite elem_of_seq. lia.
Qed.

Lemma NoDup_all_shards : NoDup all_shards.
Proof. apply NoDup_fmap_2; [apply _|apply NoDup_seq]. Qed.

(** ** Decoding the packets *)

(** What a shard reads from a packet. *)
Definition inject_of (pk : packet) : option InjectTxs :=
  match SplitMessage (pk.2 ++ [10]) with
  | Ret (t, c) => if bool_decide (t = string_bytes "inject") then json_Unmarshal c else None
  | Panic => None
  end.

(** The transactions injected into a shard, in order, and all of them. *)
Definition to_shard (sid : Z) (pks : list packet) : list Transaction :=
  concat (it_Txs <$> filter (fun it => it_ToShardID it = sid) (omap inject_of pks)).
Definition sent (pks : list packet) : list Transaction := concat (it_Txs <$> omap inject_of pks).

(** A packet for one of the shards, dialled at its first node. *)
Definition addressed (table : gmap Z (gmap Z string)) (pk : packet) : Prop :=
  exists it, inject_of pk = Some it /\ it_ToShardID it ∈ all_shards /\ pk.1 = node_address table (it_ToShardID it) 0.

Lemma to_shard_app sid l l' : to_shard sid (l ++ l') = to_shard sid l ++ to_shard sid l'.
Proof. unfold to_shard. by rewrite omap_app, filter_app, fmap_app, concat_app. Qed.
Lemma sent_app l l' : sent (l ++ l') = sent l ++ sent l'.
Proof. unfold sent. by rewrite omap_app, fmap_app, concat_app. Qed.

(** The shards' parts make up what is sent. *)
Lemma sent_by_shard table pks : Forall (addressed table) pks ->
  sent pks ≡ₚ concat (map (fun sid => to_shard sid pks) all_shards).
Proof.
  intros Ha. unfold sent, to_shard. rewrite concat_by_key by apply NoDup_all_shards.
  replace (filter _ (omap inject_of pks)) with (omap inject_of pks); [done|]. symmetry.
  induction Ha as [|pk pks (it & E & Hs & _) _ IH]; [done|]. cbn. rewrite E. rewrite filter_cons, decide_True by done. by f_equal.
Qed.

(** ** Sending a batch *)

Context (tx_json : Transaction -> Prop).
Hypothesis inject_json : forall it : InjectTxs, Forall tx_json (it_Txs it) -> json_valid it.

Definition parts_json (m : gmap Z (list Transaction)) : Prop := forall sid, Forall tx_json (default [] (m !! sid)).

Lemma inject_sent sid txs addr : Forall tx_json txs -> exists pk,
  send "inject" (mkInject txs sid) addr = Ret pk /\ inject_of pk = Some (mkInject txs sid) /\ pk.1 = addr.
Proof.
  intros Ht. destruct (send_spec "inject" (mkInject txs sid) addr) as (fr & E & b & Es & Eu).
  - by apply inject_json.
  - apply list_elem_of_In. cbn. tauto.
  - exists (addr, fr). split; [exact E|]. split; [|done]. unfold inject_of. cbn [fst snd]. rewrite Es.
    rewrite bool_decide_true by done. exact Eu.
Qed.

Lemma send_batch_spec table m : parts_json m -> exists pks, send_batch table m = Ret pks /\
  Forall (addressed table) pks /\
  forall sid, to_shard sid pks = if decide (sid ∈ all_shards) then default [] (m !! sid) else [].
Proof.
  intros Hm. unfold send_batch.
  assert (forall ks acc, NoDup ks -> (forall k, k ∈ ks -> k ∈ all_shards) -> Forall (addressed table) acc ->
    exists pks, ofold (fun acc sid =>
      pk ← send "inject" (mkInject (default [] (m !! sid)) sid) (node_address table sid 0); Ret (acc ++ [pk])) acc ks = Ret pks /\
    Forall (addressed table) pks /\
    forall sid, to_shard sid pks = to_shard sid acc ++ if decide (sid ∈ ks) then default [] (m !! sid) else []) as Hloop.
  { induction ks as [|k ks IH]; intros acc Hnd Hin Ha.
    - exists acc. split; [done|]. split; [done|]. intros sid. by rewrite app_nil_r.
    - cbn [ofold]. destruct (inject_sent k _ (node_address table k 0) (Hm k)) as (pk & -> & Ep & Eaddr). go_ret.
      apply NoDup_cons in Hnd as [Hk Hks].
      destruct (IH (acc ++ [pk])) as (pks & E & Hpks & Hto); [done|by intros x Hx; apply Hin; right| |].
      { apply Forall_app. split; [done|]. apply Forall_singleton. exists (mkInject (default [] (m !! k)) k).
        split; [done|]. split; [apply Hin; left|exact Eaddr]. }
      exists pks. split; [exact E|]. split; [done|]. intros sid. rewrite Hto, to_shard_app.
      unfold to_shard at 2. cbn [omap list_omap]. rewrite Ep, filter_cons. cbn [it_ToShardID].
      destruct (decide (k = sid)) as [->|Hne].
      + rewrite (decide_False _ _ Hk), (decide_True _ _ (list_elem_of_here _ _)). cbn. by rewrite !app_nil_r.
      + cbn. rewrite app_nil_r. f_equal. destruct (decide (sid ∈ ks)) as [Hs|Hs].
        * by rewrite decide_True by (by right).
        * rewrite decide_False; [done|]. by intros [|]%elem_of_cons. }
  destruct (Hloop all_shards [] NoDup_all_shards) as (pks & E & Hpks & Hto); [done|constructor|].
  exists pks. split; [exact E|]. split; [exact Hpks|]. intros sid. rewrite Hto. done.
Qed.

(** ** Sending a list *)

Context (route : Transaction -> outcome Z) (home : Transaction -> Z) (table : gmap Z (gmap Z string)).

Lemma parts_json_insert m sid tx : parts_json m -> tx_json tx ->
  parts_json (<[sid := default [] (m !! sid) ++ [tx]]> m).
Proof.
  intros Hm Ht k. destruct (decide (k = sid)) as [->|Hne].
  - rewrite lookup_insert_eq. cbn. apply Forall_app. split; [apply Hm|by apply Forall_singleton].
  - rewrite lookup_insert_ne by done. apply Hm.
Qed.

(** The loop sends what is pending and what is left; nothing is pending at the start. *)
Lemma sending_loop_spec txs : InjectSpeed <> 0 -> Forall (fun tx => tx_json tx /\ route tx = Ret (home tx)) txs ->
  forall idx m, parts_json m -> (0 < idx \/ idx = 0 /\ m = ∅) ->
  exists pks, sending_loop route table idx txs m = Ret pks /\ Forall (addressed table) pks /\
  forall sid, to_shard sid pks =
    if decide (sid ∈ all_shards) then default [] (m !! sid) ++ filter (fun tx => home tx = sid) txs else [].
Proof.
  intros Hsp. induction txs as [|tx txs IH]; intros Hts idx m Hm Hidx.
  - cbn [sending_loop]. destruct Hidx as [Hidx|[-> ->]].
    + rewrite (proj2 (Z.leb_gt _ _)), (proj2 (Z.eqb_neq _ _)), bool_decide_true, orb_true_r by (done || lia). go_ret.
      destruct (send_batch_spec table m Hm) as (pks & E & Ha & Hto). rewrite E. go_ret.
      exists pks. split; [done|]. split; [done|]. intros sid. rewrite Hto. by case_decide; rewrite ?app_nil_r.
    + cbn. exists []. split; [done|]. split; [constructor|]. intros sid. rewrite lookup_empty. by case_decide.
  - apply Forall_cons in Hts as [[Htx Hr] Hts]. cbn [sending_loop].
    set (due := if idx <=? 0 then Ret false else _).
    assert (exists b, due = Ret b /\ (idx = 0 -> b = false)) as (b & Ed & Hb).
    { unfold due. destruct (Z.leb_spec idx 0); [by exists false|]. rewrite (proj2 (Z.eqb_neq _ _)) by done.
      eexists. split; [done|]. lia. }
    clearbody due. rewrite Ed. go_ret. rewrite Hr.
    assert (exists pks, (if b then send_batch table m else Ret []) = Ret pks /\ Forall (addressed table) pks /\
      forall sid, to_shard sid pks ++ (if decide (sid ∈ all_shards) then default [] ((if b then ∅ else m) !! sid) else []) =
        if decide (sid ∈ all_shards) then default [] (m !! sid) else []) as (pks & Ep & Ha & Hto).
    { destruct b.
      - destruct (send_batch_spec table m Hm) as (pks & E & Ha & Hto). exists pks. split; [done|]. split; [done|].
        intros sid. rewrite Hto, lookup_empty. case_decide; by rewrite ?app_nil_r.
      - exists []. split; [done|]. split; [constructor|]. done. }
    rewrite Ep. go_ret.
    destruct (IH Hts (idx + 1) (<[home tx := default [] ((if b then ∅ else m) !! home tx) ++ [tx]]> (if b then ∅ else m)))
      as (rest & Er & Ha' & Hto').
    { apply parts_json_insert; [|done]. destruct b; [|done]. intros k. rewrite lookup_empty. constructor. }
    { left. lia. }
    rewrite Er. go_ret. exists (pks ++ rest). split; [done|]. split; [by apply Forall_app|]. intros sid.
    rewrite to_shard_app, Hto'. specialize (Hto sid). rewrite filter_cons.
    destruct (decide (sid ∈ all_shards)); [|by rewrite app_nil_r in Hto |- *].
    destruct (decide (home tx = sid)) as [<-|Hne].
    + rewrite lookup_insert_eq. cbn [default from_option id]. rewrite <- (assoc (++)), (assoc (++)), Hto. done.
    + rewrite lookup_insert_ne by done. by rewrite (assoc (++)), Hto.
Qed.

Lemma txSending_spec txs : InjectSpeed <> 0 -> Forall (fun tx => tx_json tx /\ route tx = Ret (home tx)) txs ->
  exists pks, txSending route table txs = Ret pks /\ Forall (addressed table) pks /\
  forall sid, to_shard sid pks = if decide (sid ∈ all_shards) then filter (fun tx => home tx = sid) txs else [].
Proof.
  intros Hsp Hts. destruct (sending_loop_spec txs Hsp Hts 0 ∅) as (pks & E & Ha & Hto).
  - intros k. rewrite lookup_empty. constructor.
  - by right.
  - exists pks. split; [exact E|]. split; [done|]. intros sid. by rewrite Hto, lookup_empty.
Qed.

(** Everything with a shard is sent. *)
Lemma txSending_sent txs : InjectSpeed <> 0 -> Forall (fun tx => tx_json tx /\ route tx = Ret (home tx)) txs ->
  exists pks, txSending route table txs = Ret pks /\ Forall (addressed table) pks /\
  sent pks ≡ₚ filter (fun tx => home tx ∈ all_shards) txs.
Proof.
  intros Hsp Hts. destruct (txSending_spec txs Hsp Hts) as (pks & E & Ha & Hto). exists pks.
  split; [done|]. split; [done|]. rewrite (sent_by_shard table pks Ha), <- (filter_by_key home all_shards) by apply NoDup_all_shards.
  rewrite (map_ext_in _ (fun sid => filter (fun tx => home tx = sid) txs)); [done|].
  intros sid Hs%list_elem_of_In. by rewrite Hto, decide_True.
Qed.
End injection.

(** ** A whole data file *)

Section file.
Context `{Gob Transaction} `{Sha256} `{Params} `{FeedParams} `{Json InjectTxs}.
Context (tx_json : Transaction -> Prop).
Hypothesis inject_json : forall it : InjectTxs, Forall tx_json (it_Txs it) -> json_valid it.
Hypothesis speed : InjectSpeed <> 0.
Context (clock : nat -> time).

(** The transactions of the legal records from the [i]-th on, numbered from [nonce]. *)
Fixpoint legal_txs (i : nat) (nonce : Z) (file : list (option (list string))) : list Transaction :=
  match file with
  | Some data :: file =>
      match data2tx data nonce (clock i) with
      | Ret (Some tx) => tx :: legal_txs (S i) (nonce + 1) file
      | _ => legal_txs (S i) nonce file
      end
  | _ => []
  end.

(** Every record can be read: enough fields, and a number where one is expected. *)
Definition readable (file : list (option (list string))) : Prop :=
  Forall (fun o => exists data, o = Some data /\ forall nonce now, exists r, data2tx data nonce now = Ret r) file.

(** The shard of the sender. *)
Definition home_shard (tx : Transaction) : Z := match addr_shard (Sender tx) with Ret s => s | Panic => 0 end.
Definition sendable (tx : Transaction) : Prop := tx_json tx /\ exists s, Addr2Shard (Sender tx) = Ret s.

(** Of the pending and the remaining legal transactions, those that are sent: all up
    to the wanted number, and whole batches only when the file ends before. *)
Definition will_send (want batch : Z) (pending rest : list Transaction) : list Transaction :=
  if want <=? Z.of_nat (length rest) then pending ++ take (Z.to_nat want) rest
  else let all := pending ++ rest in take (Z.to_nat (batch * (Z.of_nat (length all) / batch))) all.
Definition left_over (want batch : Z) (pending rest : list Transaction) : list Transaction :=
  if want <=? Z.of_nat (length rest) then []
  else let all := pending ++ rest in drop (Z.to_nat (batch * (Z.of_nat (length all) / batch))) all.

Lemma sendable_route tx : sendable tx -> tx_json tx /\ sender_route addr_shard tx = Ret (home_shard tx).
Proof.
  intros [Hj [s E]]. split; [done|]. unfold sender_route, home_shard, addr_shard. by rewrite E.
Qed.

(** A legal record that fills no batch joins the pending ones. *)
Lemma will_send_more want batch pending tx rest : 1 < want ->
  will_send want batch pending (tx :: rest) = will_send (want - 1) batch (pending ++ [tx]) rest /\
  left_over want batch pending (tx :: rest) = left_over (want - 1) batch (pending ++ [tx]) rest.
Proof.
  intros Hw. unfold will_send, left_over. cbn [length].
  replace (want <=? Z.of_nat (S (length rest))) with (want - 1 <=? Z.of_nat (length rest))
    by (destruct (Z.leb_spec (want - 1) (Z.of_nat (length rest))), (Z.leb_spec want (Z.of_nat (S (length rest)))); try done; lia).
  rewrite <- !(assoc (++) pending [tx]). cbn [app].
  replace (Z.to_nat want) with (S (Z.to_nat (want - 1))) by lia. by destruct (_ <=? _).
Qed.

(** A full batch is sent before what follows. *)
Lemma will_send_batch want batch full rest : 0 < batch -> Z.of_nat (length full) = batch ->
  will_send want batch full rest = full ++ will_send want batch [] rest /\
  left_over want batch full rest = left_over want batch [] rest.
Proof.
  intros Hb Hf. unfold will_send, left_over. cbn [app]. destruct (_ <=? _); [done|].
  assert (Z.to_nat (batch * (Z.of_nat (length (full ++ rest)) / batch)) =
          (length full + Z.to_nat (batch * (Z.of_nat (length rest) / batch)))%nat) as E.
  { rewrite length_app, Nat2Z.inj_add, Hf, Z.add_comm. rewrite <- (Z.mul_1_l batch) at 2. rewrite Z.div_add by lia.
    assert (0 <= Z.of_nat (length rest) / batch) by (apply Z.div_pos; lia). nia. }
  rewrite E. split; [by rewrite take_app_add|by rewrite drop_app_add].
Qed.
(** One batch of the relay committee. *)
Lemma relay_batch m txs : Forall sendable txs -> exists pks, relay_txSending m txs = Ret pks /\
  Forall (addressed (rc_IpNodeTable m)) pks /\
  forall sid, to_shard sid pks = if decide (sid ∈ all_shards) then filter (fun tx => home_shard tx = sid) txs else [].
Proof.
  intros Ht. apply (txSending_spec tx_json inject_json _ home_shard); [done|].
  eapply Forall_impl; [exact Ht|]. intros tx. apply sendable_route.
Qed.

(** The loop from a record on, with fewer pending transactions than a batch. *)
Lemma relay_loop_spec T B table file : 0 < B -> readable file -> forall i n pending ss,
  0 <= n < T -> n + Z.of_nat (length file) < 2 ^ 63 -> Z.of_nat (length pending) < B ->
  Forall sendable pending -> Forall sendable (legal_txs i n file) ->
  exists pks s', reading_loop (fun i s data => relay_record s data (clock i)) i
      (mkSending (mkRelayC (mkFeed T n B) table) ss pending false) file = Ret (pks, s') /\
    Forall (addressed table) pks /\
    (forall sid, to_shard sid pks = if decide (sid ∈ all_shards)
       then filter (fun tx => home_shard tx = sid) (will_send (T - n) B pending (legal_txs i n file)) else []) /\
    sg_txlist s' = left_over (T - n) B pending (legal_txs i n file).
Proof.
  intros HB. induction 1 as [|o file (data & -> & Hd) Hfile IH]; intros i n pending ss Hn Hlen Hp Hsp Hsl.
  { exists [], (mkSending (mkRelayC (mkFeed T n B) table) ss pending false). split; [done|]. split; [constructor|].
    unfold will_send, left_over. cbn [legal_txs length]. rewrite (proj2 (Z.leb_gt _ _)) by lia.
    rewrite app_nil_r, Z.div_small, Z.mul_0_r by lia. split; [|done]. intros sid. by case_decide. }
  cbn [length] in Hlen. cbn [reading_loop].
  match goal with |- context [relay_record ?s ?d ?c ≫= ?k] => set (next := k) end.
  unfold relay_record. cbn [sg_mod sg_Ss sg_txlist rc_feed rc_IpNodeTable nowDataNum].
  rewrite (wrap_u_small 64 n) by (unfold is_u; lia). cbn [legal_txs] in *.
  destruct (Hd n (clock i)) as [[tx|] Ed]; rewrite Ed in *; go_ret; cbv zeta iota beta.
  2: { unfold batch_due. cbn [batchDataNum nowDataNum dataTotalNum rc_feed].
       rewrite (proj2 (Z.eqb_neq (Z.of_nat (length pending)) B)), (proj2 (Z.eqb_neq n T)) by lia. cbn [orb]. go_ret. unfold next. cbn [sg_done].
       destruct (IH (S i) n pending ss) as (pks & s' & E & Ha & Hto & Hl); [lia|lia|done|done|done|].
       rewrite E. go_ret. cbv beta iota. exists pks, s'. done. }
  apply Forall_cons in Hsl as [Htx Hsl].
  assert (Forall sendable (pending ++ [tx])) as Hsp' by (apply Forall_app; split; [done|by apply Forall_singleton]).
  unfold feed_count, batch_due. cbn [batchDataNum nowDataNum dataTotalNum rc_feed rc_IpNodeTable].
  rewrite (wrap_s_small 64 (n + 1)) by (unfold is_s; lia).
  destruct (relay_batch (mkRelayC (mkFeed T (n + 1) B) table) (pending ++ [tx]) Hsp') as (bat & Eb & Hab & Htob).
  destruct (Z.eqb_spec (n + 1) T) as [HT|HT].
  { rewrite orb_true_r, Eb. go_ret. unfold next. cbn [sg_done]. eexists bat, _. split; [done|]. split; [done|].
    unfold will_send, left_over. cbn [length]. rewrite (proj2 (Z.leb_le _ _)) by lia.
    replace (Z.to_nat (T - n)) with 1%nat by lia. cbn [take firstn]. split; [exact Htob|done]. }
  rewrite orb_false_r. replace (T - (n + 1)) with (T - n - 1) in IH by lia.
  destruct (will_send_more (T - n) B pending tx (legal_txs (S i) (n + 1) file)) as [-> ->]; [lia|].
  replace (T - n - 1) with (T - (n + 1)) by lia.
  destruct (Z.eqb_spec (Z.of_nat (length (pending ++ [tx]))) B) as [HL|HL].
  - rewrite Eb. go_ret. unfold next. cbn [sg_done].
    destruct (IH (S i) (n + 1) [] (StopGap_Reset ss)) as (pks & s' & E & Ha & Hto & Hl); [lia|lia|done|constructor|done|].
    rewrite E. go_ret. cbv beta iota. exists (bat ++ pks), s'. split; [done|]. split; [by apply Forall_app|].
    destruct (will_send_batch (T - (n + 1)) B (pending ++ [tx]) (legal_txs (S i) (n + 1) file) HB HL) as [-> ->].
    split; [|done]. intros sid. rewrite to_shard_app, Htob, Hto. case_decide; [by rewrite (filter_app _ (pending ++ [tx]))|done].
  - go_ret. unfold next. cbn [sg_done].
    destruct (IH (S i) (n + 1) (pending ++ [tx]) ss) as (pks & s' & E & Ha & Hto & Hl); [lia|lia| |done|done|].
    { rewrite length_app in *. cbn in *. lia. }
    rewrite E. go_ret. cbv beta iota. exists pks, s'. done.
Qed.

(** C12. The relay committee on a data file whose legal records have addresses with
    hexadecimal endings: it ends, and every shard is sent exactly those transactions,
    among the ones sent at all, whose sender's address gives that shard, in the order
    of the file and numbered in that order.  Sent at all are the wanted number of
    transactions when the file has so many legal records, and otherwise whole batches
    only: what does not fill the last batch is never sent.  A transaction whose
    sender's address gives a negative remainder belongs to no shard and reaches none. *)
Theorem MsgSendingControl_sends (m : RelayCommitteeModule) (ss : StopSignal) (file : list (option (list string))) :
  0 < batchDataNum (rc_feed m) -> 0 < dataTotalNum (rc_feed m) -> nowDataNum (rc_feed m) = 0 ->
  0 <= ShardNum < 2 ^ 63 -> Z.of_nat (length file) < 2 ^ 63 -> readable file -> Forall sendable (legal_txs 0 0 file) ->
  let legal := legal_txs 0 0 file in
  let T := dataTotalNum (rc_feed m) in
  let B := batchDataNum (rc_feed m) in
  let sending := if T <=? Z.of_nat (length legal) then take (Z.to_nat T) legal
                 else take (Z.to_nat (B * (Z.of_nat (length legal) / B))) legal in
  exists pks s', relay_MsgSendingControl m ss file clock = Ret (pks, s') /\
    Forall (addressed (rc_IpNodeTable m)) pks /\
    (forall sid, 0 <= sid < ShardNum -> to_shard sid pks = filter (fun tx => home_shard tx = sid) sending) /\
    (forall sid, ~ 0 <= sid < ShardNum -> to_shard sid pks = []) /\
    (T <=? Z.of_nat (length legal) = false -> sg_txlist s' = drop (length sending) legal).
Proof.
  intros HB HT Hn Hs Hl Hr Hsl. cbv zeta. destruct m as [[T n B] table]. cbn [rc_feed dataTotalNum nowDataNum batchDataNum rc_IpNodeTable] in *.
  subst n. destruct (relay_loop_spec T B table file HB Hr 0 0 [] ss) as (pks & s' & E & Ha & Hto & Hlo); [lia|lia|cbn; lia|constructor|done|].
  rewrite Z.sub_0_r in *. exists pks, s'. split; [exact E|]. split; [exact Ha|]. unfold will_send, left_over in *. cbn [app] in *. split.
  - intros sid Hsid%elem_of_all_shards; [|done]. by rewrite Hto, decide_True.
  - split; [intros sid Hsid; rewrite Hto, decide_False; [done|by rewrite elem_of_all_shards]|]. intros HTl. rewrite Hlo, HTl. f_equal. rewrite length_take.
    assert (B * (Z.of_nat (length (legal_txs 0 0 file)) / B) <= Z.of_nat (length (legal_txs 0 0 file))) by (apply Z.mul_div_le; lia).
    lia.
Qed.
End file.
