(* ===== verification/Brokering.v ===== *)
(** * Transfers through a broker ([supervisor/committee/committee_broker.go],
      [committee_clpa_broker.go])

    The committee over any sequence of batches to send and of block reports: which
    transactions it splits, that the second half of a transfer is sent exactly when
    its first half is reported, and that both halves say what the transfer says. *)

From stdpp Require Import base gmap strings list sorting.
From Stdlib Require Import ZArith Lia.
From S2P Require Import Prelude Database Core Chain Message Follower Pbft PbftBroker Partition Committee Injection.

Local Open Scope Z_scope.

Section brokering.
Context `{Gob Transaction} `{Sha256} `{Params} `{FeedParams} `{Json InjectTxs} `{Json BrokerRawMeg}.

(** ** What is assumed of the inputs *)

(** Addresses of accounts, transactions and times that JSON carries. *)
Context (acct : Address -> Prop) (tx_json : Transaction -> Prop) (time_json : time -> Prop).
Hypothesis inject_json : forall it : InjectTxs, Forall tx_json (it_Txs it) -> json_valid it.
Hypothesis raw_json : forall tx a, tx_json tx -> acct a -> json_valid (mkRaw tx a 0 0 0 []).
Hypothesis half_json : forall s r v n t ctx, acct s -> acct r -> time_json t -> tx_json ctx ->
  tx_json (set_transfer (NewTransaction s r v n t) ctx).
Hypothesis mark_json : forall tx b, tx_json tx -> tx_json (set_HasBroker tx b).
Hypothesis speed : InjectSpeed <> 0.

(** A transaction that is not a half of a transfer. *)
Definition plain (tx : Transaction) : Prop :=
  tx_json tx /\ acct (Sender tx) /\ acct (Recipient tx) /\ RawTxHash tx = [] /\ TxHash tx <> [].

(** Accounts have a shard.  One whose address gives a negative remainder has none,
    and what is sent to it is lost; such accounts are outside [acct]. *)
Definition places (fetch : Address -> outcome Z) : Prop := forall a, acct a -> exists s, fetch a = Ret s /\ s ∈ all_shards.

(** The broker addresses; the first of them is the one in use. *)
Context (addrs : list Address) (a : Address).
Hypothesis first_broker : addrs !! 0%nat = Some a.
Hypothesis broker_accts : Forall acct addrs.

(** ** What a batch is turned into *)

Definition shard_at (fetch : Address -> outcome Z) (x : Address) : Z := match fetch x with Ret s => s | Panic => 0 end.
(** A transfer between shards with no broker at either end is split; a transaction
    of a broker is marked. *)
Definition splits (fetch : Address -> outcome Z) (tx : Transaction) : bool :=
  negb (shard_at fetch (Recipient tx) =? shard_at fetch (Sender tx)) &&
  negb (IsBroker_loop addrs (Recipient tx)) && negb (IsBroker_loop addrs (Sender tx)).
Definition mark (tx : Transaction) : Transaction :=
  if IsBroker_loop addrs (Recipient tx) || IsBroker_loop addrs (Sender tx)
  then set_HasBroker tx (IsBroker_loop addrs (Sender tx)) else tx.

(** The message of a transfer, and its halves. *)
Definition raw_of (tx : Transaction) : BrokerRawMeg := mkRaw tx a 0 0 0 [].
Definition first_of (tx : Transaction) (now : time) : Transaction := half1 (mkType1 (raw_of tx) 0 a) now.
Definition second_of (tx : Transaction) (now : time) : Transaction := half2 (mkType2 (raw_of tx) a) now.

Lemma fetch_at fetch x : places fetch -> acct x -> fetch x = Ret (shard_at fetch x) /\ shard_at fetch x ∈ all_shards.
Proof. intros Hf Hx. destruct (Hf x Hx) as (s & E & Hs). unfold shard_at. by rewrite E. Qed.

Lemma deal_tx_spec fetch b tx itxs megs : places fetch -> BrokerAddress b = addrs -> plain tx ->
  deal_tx fetch b (itxs, megs) tx =
    Ret (if splits fetch tx then (itxs, megs ++ [raw_of tx]) else (itxs ++ [mark tx], megs)).
Proof.
  intros Hf Hb (_ & Hs & Hr & _). unfold deal_tx, splits, mark, IsBroker. rewrite Hb.
  rewrite (proj1 (fetch_at fetch _ Hf Hr)), (proj1 (fetch_at fetch _ Hf Hs)). go_ret.
  destruct (_ && _); [|done]. by rewrite first_broker.
Qed.

Lemma deal_spec fetch b txs : places fetch -> BrokerAddress b = addrs -> Forall plain txs -> forall st,
  ofold (deal_tx fetch b) st txs =
    Ret (st.1 ++ (mark <$> filter (fun tx => splits fetch tx = false) txs),
         st.2 ++ (raw_of <$> filter (fun tx => splits fetch tx = true) txs)).
Proof.
  intros Hf Hb. induction 1 as [|tx txs Hp _ IH]; intros [itxs megs].
  { cbn. by rewrite !app_nil_r. }
  cbn [ofold]. rewrite deal_tx_spec by done. go_ret. rewrite IH, !filter_cons.
  destruct (splits fetch tx); cbn; by rewrite <- (assoc (++)).
Qed.

(** ** Routes *)

Definition route_home (fetch : Address -> outcome Z) (tx : Transaction) : Z :=
  shard_at fetch (if IsBroker_loop addrs (Sender tx) then Recipient tx else Sender tx).

Definition deliverable (tx : Transaction) : Prop := tx_json tx /\ acct (Sender tx) /\ acct (Recipient tx).

Lemma broker_route_home fetch b tx : places fetch -> BrokerAddress b = addrs -> acct (Sender tx) -> acct (Recipient tx) ->
  broker_route fetch b tx = Ret (route_home fetch tx) /\ route_home fetch tx ∈ all_shards.
Proof.
  intros Hf Hb Hs Hr. destruct (fetch_at fetch _ Hf Hs) as [Es Hs'], (fetch_at fetch _ Hf Hr) as [Er Hr'].
  unfold broker_route, route_home, IsBroker. rewrite Es, Hb. go_ret. by destruct (IsBroker_loop addrs (Sender tx)).
Qed.

(** Everything the committee injects reaches a shard. *)
Lemma broker_sending fetch b table txs : places fetch -> BrokerAddress b = addrs -> Forall deliverable txs ->
  exists pks, txSending (broker_route fetch b) table txs = Ret pks /\ Forall (addressed table) pks /\ sent pks ≡ₚ txs.
Proof.
  intros Hf Hb Ht.
  assert (Forall (fun tx => tx_json tx /\ broker_route fetch b tx = Ret (route_home fetch tx)) txs) as Hr.
  { eapply Forall_impl; [exact Ht|]. intros tx (Hj & Hs & Hre). split; [done|]. by apply broker_route_home. }
  destruct (txSending_sent tx_json inject_json _ _ table txs speed Hr) as (pks & E & Ha & Hsent).
  exists pks. split; [done|]. split; [done|]. rewrite Hsent. clear -Ht Hf Hb.
  induction Ht as [|tx txs (_ & Hs & Hre) _ IH]; [done|].
  rewrite filter_cons, decide_True by (by eapply broker_route_home). by rewrite IH.
Qed.

(** ** Halves *)

Lemma broker_acct : acct a.
Proof. rewrite Forall_forall in broker_accts. apply broker_accts. by eapply list_elem_of_lookup_2. Qed.

Lemma is_broker_a x : x ∈ addrs -> IsBroker_loop addrs x = true.
Proof.
  clear. induction addrs as [|y l IH]; [by intros ?%elem_of_nil|]. intros [->|Hx]%elem_of_cons; cbn.
  - by rewrite bool_decide_true.
  - by case_bool_decide; [|apply IH].
Qed.

Lemma half_deliverable tx now : plain tx -> time_json now -> deliverable (first_of tx now) /\ deliverable (second_of tx now).
Proof.
  intros (Hj & Hs & Hr & _) Ht. pose proof broker_acct.
  split; (split; [by apply half_json|by split]).
Qed.

(** How a shard sorts them. *)
Lemma half_class tx now : plain tx -> IsBroker_loop addrs (Recipient tx) = false ->
  broker_class (first_of tx now) = Broker1 /\ broker_class (second_of tx now) = Broker2.
Proof.
  intros (_ & _ & _ & _ & Hh) Hr. unfold broker_class, first_of, second_of, half1, half2, set_transfer. cbn.
  rewrite !(bool_decide_false (TxHash tx = [])) by done. cbn. split; [|by rewrite bool_decide_true].
  rewrite (bool_decide_true (Sender tx = Sender tx)) by done.
  rewrite bool_decide_false; [done|]. intros E. rewrite <- E, is_broker_a in Hr; [done|]. by eapply list_elem_of_lookup_2.
Qed.

Lemma mark_class tx : RawTxHash tx = [] -> broker_class (mark tx) = Executed.
Proof.
  intros Hr. unfold mark, broker_class. destruct (_ || _); cbn; rewrite Hr; by rewrite bool_decide_true.
Qed.

Lemma mark_deliverable tx : plain tx -> deliverable (mark tx).
Proof. intros (Hj & Hs & Hr & _). unfold mark. destruct (_ || _); [|done]. split; [by apply mark_json|done]. Qed.

(** ** The pools of halves that wait for their report *)

(** Transfers with a half each; the transfer whose half has a hash. *)
Abbreviation transfers := (list (Transaction * Transaction)).
Definition hashes (F : transfers) : list (list Z) := (fun p => TxHash p.2) <$> F.
Definition raw_for (F : transfers) (h : list Z) : option Transaction := fst <$> head (filter (fun p => TxHash p.2 = h) F).

Lemma raw_for_app F F' h : raw_for (F ++ F') h = match raw_for F h with Some tx => Some tx | None => raw_for F' h end.
Proof. unfold raw_for. rewrite filter_app. by destruct (filter _ F). Qed.

Lemma raw_for_None F h : h ∉ hashes F -> raw_for F h = None.
Proof.
  intros Hh. unfold raw_for. replace (filter _ F) with ([] : transfers); [done|]. symmetry. apply elem_of_nil_inv.
  intros p [E Hp]%list_elem_of_filter. apply Hh. apply list_elem_of_fmap. by exists p.
Qed.

Lemma raw_for_Some F h tx : raw_for F h = Some tx -> exists half, (tx, half) ∈ F /\ TxHash half = h.
Proof.
  unfold raw_for. destruct (filter _ F) as [|[x y] l] eqn:E; [done|]. intros [= ->]. exists y.
  assert ((tx, y) ∈ filter (fun p => TxHash p.2 = h) F) as [? ?]%list_elem_of_filter by (rewrite E; left). done.
Qed.

(** A pool filled from the transfers. *)
Lemma pool_filled {C} (mk : list Z -> Transaction -> C) (F' F : transfers) (pool : gmap (list Z) C) :
  NoDup (hashes (F ++ F')) -> (forall h, pool !! h = mk h <$> raw_for F h) ->
  forall h, foldl (fun m '(tx, half) => <[TxHash half := mk (TxHash half) tx]> m) pool F' !! h = mk h <$> raw_for (F ++ F') h.
Proof.
  revert F pool. induction F' as [|[tx half] F' IH]; intros F pool Hnd Hp h.
  { by rewrite app_nil_r. }
  cbn [foldl]. replace (F ++ (tx, half) :: F') with ((F ++ [(tx, half)]) ++ F') in * by (by rewrite <- (assoc (++))).
  apply IH; [done|]. intros h'. unfold hashes in Hnd. rewrite !fmap_app in Hnd. apply NoDup_app in Hnd as (Hnd & _ & _).
  apply NoDup_app in Hnd as (_ & Hd & _). rewrite raw_for_app. destruct (decide (h' = TxHash half)) as [->|Hne].
  - rewrite lookup_insert_eq, raw_for_None.
    + unfold raw_for. rewrite filter_cons, decide_True by done. done.
    + intros Hin. apply (Hd _ Hin). left.
  - rewrite lookup_insert_ne, Hp by done. destruct (raw_for F h'); [done|].
    unfold raw_for. rewrite filter_cons, decide_False by done. done.
Qed.

(** A list with the halves made from it. *)
Definition made (f : Transaction -> time -> Transaction) (nows : nat -> time) (txs : list Transaction) : transfers :=
  imap (fun i tx => (tx, f tx (nows i))) txs.

Lemma made_fst f nows txs : (made f nows txs).*1 = txs.
Proof.
  unfold made. revert nows. induction txs as [|tx txs IH]; intros nows; [done|]. cbn. f_equal. apply (IH (fun i => nows (S i))).
Qed.

Lemma elem_of_made f nows txs p : p ∈ made f nows txs -> p.1 ∈ txs /\ exists i, p.2 = f p.1 (nows i).
Proof. intros (i & tx & -> & Hi)%elem_of_lookup_imap. cbn. split; [by eapply list_elem_of_lookup_2|by exists i]. Qed.

Lemma zip_made {M} (g : Transaction -> M) f h nows txs : (forall tx now, h (g tx) now = f tx now) ->
  imap (fun i m => h m (nows i)) (g <$> txs) = (made f nows txs).*2 /\
  zip (g <$> txs) (imap (fun i m => h m (nows i)) (g <$> txs)) = (fun p => (g p.1, p.2)) <$> made f nows txs.
Proof.
  intros Hh. revert nows. induction txs as [|tx txs IH]; intros nows; [done|].
  destruct (IH (fun i => nows (S i))) as [E1 E2]. unfold made in *. cbn. rewrite !Hh.
  rewrite (imap_ext _ (fun i m => h m (nows (S i)))), (imap_ext (_ ∘ S) (fun i tx => (tx, f tx (nows (S i))))) by done.
  split; [by rewrite E1|by rewrite E2].
Qed.

(** ** The committee's records *)

Record books (bs : BrokerState) (F S : transfers) : Prop := {
  bk_addrs : BrokerAddress (broker bs) = addrs;
  bk_pool1 : forall h, brokerConfirm1Pool bs !! h = (fun tx => mkConfirm1 h (raw_of tx)) <$> raw_for F h;
  bk_pool2 : forall h, brokerConfirm2Pool bs !! h = (fun tx => mkConfirm2 h (raw_of tx)) <$> raw_for S h;
  bk_noted : forall p d, p ∈ F -> getBrokerRawMagDigest (raw_of p.1) = Ret d -> is_Some (BrokerRawMegs (broker bs) !! d);
}.

Lemma raw_digest tx : plain tx -> exists d, getBrokerRawMagDigest (raw_of tx) = Ret d.
Proof.
  intros (Hj & _). unfold getBrokerRawMagDigest. destruct (json_roundtrip (raw_of tx)) as (b & -> & _).
  - by apply raw_json; [|apply broker_acct].
  - by eexists.
Qed.

Lemma note_raws txs : Forall plain txs -> forall b, exists b', ofold note_raw b (raw_of <$> txs) = Ret b' /\
  BrokerAddress b' = BrokerAddress b /\
  (forall d, is_Some (BrokerRawMegs b !! d) -> is_Some (BrokerRawMegs b' !! d)) /\
  (forall tx d, tx ∈ txs -> getBrokerRawMagDigest (raw_of tx) = Ret d -> is_Some (BrokerRawMegs b' !! d)).
Proof.
  induction 1 as [|tx txs Hp _ IH]; intros b.
  { exists b. split; [done|]. split; [done|]. split; [done|]. by intros tx d ?%elem_of_nil. }
  cbn [fmap list_fmap ofold]. unfold note_raw at 2. destruct (raw_digest tx Hp) as [d E]. rewrite E. go_ret.
  destruct (IH (mkBroker (<[d := raw_of tx]> (BrokerRawMegs b)) (BrokerAddress b) (RawTx2BrokerTx b))) as (b' & Eb & Ha & Hold & Hnew).
  exists b'. split; [exact Eb|]. split; [done|]. cbn in Hold. split.
  - intros d' Hd. apply Hold. apply lookup_insert_is_Some'. by right.
  - intros tx' d' [->|Hin]%elem_of_cons Ed; [|by eapply Hnew].
    rewrite E in Ed. injection Ed as <-. apply Hold. by rewrite lookup_insert_eq.
Qed.

Lemma foldl_fmap {A B C} (g : C -> B -> C) (f : A -> B) l : forall c, foldl g c (f <$> l) = foldl (fun c x => g c (f x)) c l.
Proof. induction l as [|x l IH]; intros c; [done|]. apply IH. Qed.

Lemma foldl_ext' {A C} (g g' : C -> A -> C) l : (forall c x, g c x = g' c x) -> forall c, foldl g c l = foldl g' c l.
Proof. intros Hg. induction l as [|x l IH]; intros c; [done|]. cbn. by rewrite Hg. Qed.

Lemma made_deliverable f nows txs : (forall i, time_json (nows i)) -> Forall plain txs ->
  (forall tx now, plain tx -> time_json now -> deliverable (f tx now)) -> Forall deliverable (made f nows txs).*2.
Proof.
  intros Ht Hp Hf. apply Forall_forall. intros x (p & -> & Hin)%list_elem_of_fmap.
  apply elem_of_made in Hin as [Hin [i ->]]. apply Hf; [|done]. rewrite Forall_forall in Hp. by apply Hp.
Qed.

(** A batch: the split transfers are booked and their first halves sent. *)
Lemma raw_mag_spec fetch table bs F S txs nows : places fetch -> books bs F S -> Forall plain txs -> (forall i, time_json (nows i)) ->
  let F' := made first_of nows txs in
  exists pks bs', handleBrokerRawMag (broker_route fetch (broker bs)) table bs (raw_of <$> txs) nows = Ret (pks, bs') /\
    sent pks ≡ₚ F'.*2 /\ BrokerAddress (broker bs') = addrs /\ (NoDup (hashes (F ++ F')) -> books bs' (F ++ F') S).
Proof.
  intros Hf [Ha Hp1 Hp2 Hn] Hp Ht F'. unfold handleBrokerRawMag.
  destruct (note_raws txs Hp (broker bs)) as (b' & Eb & Ha' & Hold & Hnew). rewrite Eb. go_ret.
  unfold handleBrokerType1Mes. rewrite <- list_fmap_compose.
  destruct (zip_made ((fun meg => mkType1 meg 0 (rm_Broker meg)) ∘ raw_of) first_of half1 nows txs (fun _ _ => eq_refl)) as [E1 E2].
  rewrite E2, E1. fold F'.
  destruct (broker_sending fetch (broker bs) table F'.*2 Hf Ha) as (pks & Ep & _ & Hsent).
  { apply made_deliverable; [done|done|]. intros. by apply half_deliverable. }
  rewrite Ep. go_ret. eexists pks, _. split; [done|]. split; [done|]. split; [cbn; congruence|]. intros Hnd. split.
  - cbn. congruence.
  - cbn. intros h. rewrite foldl_fmap.
    rewrite (foldl_ext' _ (fun m '(tx, half) => <[TxHash half := mkConfirm1 (TxHash half) (raw_of tx)]> m)) by (by intros ? []).
    by apply (pool_filled (fun h tx => mkConfirm1 h (raw_of tx))).
  - done.
  - cbn. intros p d [Hin|Hin]%elem_of_app Ed; [by eapply Hold, Hn|]. apply elem_of_made in Hin as [Hin _]. by eapply Hnew.
Qed.

Lemma deal_books fetch table bs F S txs nows : places fetch -> books bs F S -> Forall plain txs -> (forall i, time_json (nows i)) ->
  let F' := made first_of nows (filter (fun tx => splits fetch tx = true) txs) in
  exists pks bs', dealTxByBroker fetch table bs txs nows =
      Ret (pks, mark <$> filter (fun tx => splits fetch tx = false) txs, bs') /\
    sent pks ≡ₚ F'.*2 /\ BrokerAddress (broker bs') = addrs /\ (NoDup (hashes (F ++ F')) -> books bs' (F ++ F') S).
Proof.
  intros Hf Hb Hp Ht F'. unfold dealTxByBroker. rewrite deal_spec by (done || apply Hb). go_ret. cbn [fst snd app].
  assert (Forall plain (filter (fun tx => splits fetch tx = true) txs)) as Hp'.
  { rewrite Forall_forall in *. by intros x [_ Hx]%list_elem_of_filter; apply Hp. }
  destruct (filter (fun tx => splits fetch tx = true) txs) as [|tx txs'] eqn:E.
  - cbn. exists [], bs. split; [done|]. split; [done|]. split; [apply Hb|]. by rewrite app_nil_r.
  - rewrite bool_decide_false by done.
    destruct (raw_mag_spec fetch table bs F S (tx :: txs') nows Hf Hb Hp' Ht) as (pks & bs' & Em & Hs & Ha' & Hbk).
    rewrite Em. go_ret. cbv beta iota. exists pks, bs'. done.
Qed.

(** A report: the first halves in it are looked up, and the second halves sent. *)
Lemma confirms_spec cs : forall b megs, BrokerAddress b = addrs ->
  Forall (fun c => exists d, getBrokerRawMagDigest (c1_RawMeg c) = Ret d /\ is_Some (BrokerRawMegs b !! d)) cs ->
  exists b', ofold confirm1_step (b, megs) cs = Ret (b', megs ++ ((fun c => mkType2 (c1_RawMeg c) a) <$> cs)) /\
    BrokerAddress b' = addrs /\ BrokerRawMegs b' = BrokerRawMegs b.
Proof.
  induction cs as [|c cs IH]; intros b megs Hb Hc.
  { exists b. split; [cbn; by rewrite app_nil_r|done]. }
  apply Forall_cons in Hc as [(d & Ed & [r Er]) Hc].
  assert (confirm1_step (b, megs) c = Ret (record_half b (c1_RawMeg c) (Tx1Hash c), megs ++ [mkType2 (c1_RawMeg c) a])) as E.
  { unfold confirm1_step. rewrite Ed. go_ret. rewrite Er, Hb, first_broker. done. }
  cbn [ofold]. rewrite E. go_ret.
  destruct (IH (record_half b (c1_RawMeg c) (Tx1Hash c)) (megs ++ [mkType2 (c1_RawMeg c) a])) as (b' & E' & Ha & Hr); [done|done|].
  exists b'. split; [|done]. rewrite E'. cbn. by rewrite <- (assoc (++)).
Qed.

Lemma confirm2_books bs F S cs : books bs F S -> books (handleTx2ConfirmMag bs cs) F S.
Proof.
  unfold handleTx2ConfirmMag. intros [Ha Hp1 Hp2 Hn]. revert Ha Hn. generalize (broker bs). induction cs as [|c cs IH]; intros b Ha Hn.
  - by split.
  - by apply IH.
Qed.

(** The transfers whose first half is reported. *)
Definition reported (F : transfers) (hs : list (list Z)) : list Transaction := omap (raw_for F) hs.

Lemma confirm1s_reported bs F S (txs : list Transaction) : books bs F S ->
  let cs := omap (fun tx => brokerConfirm1Pool bs !! TxHash tx) txs in
  (fun c => mkType2 (c1_RawMeg c) a) <$> cs = (fun tx => mkType2 (raw_of tx) a) <$> reported F (TxHash <$> txs).
Proof.
  intros Hb cs. unfold cs, reported. clear cs. induction txs as [|tx txs IH]; [done|].
  cbn [fmap list_fmap omap list_omap]. rewrite (bk_pool1 _ _ _ Hb). destruct (raw_for F (TxHash tx)); [|exact IH]. cbn. by rewrite IH.
Qed.

Lemma report_books fetch table bs F S (txs : list Transaction) nows : places fetch -> books bs F S ->
  Forall (fun p => plain p.1) F -> (forall i, time_json (nows i)) ->
  let S' := made second_of nows (reported F (TxHash <$> txs)) in
  exists pks bs', createConfirm (broker_route fetch (broker bs)) table bs txs nows = Ret (pks, bs') /\
    sent pks ≡ₚ S'.*2 /\ BrokerAddress (broker bs') = addrs /\ (NoDup (hashes (S ++ S')) -> books bs' F (S ++ S')).
Proof.
  intros Hf Hb HF Ht S'. unfold createConfirm. pose proof (confirm1s_reported bs F S txs Hb) as Ec. cbv zeta in Ec.
  set (cs := omap (fun tx => brokerConfirm1Pool bs !! TxHash tx) txs) in *.
  set (cs2 := omap (fun tx => brokerConfirm2Pool bs !! TxHash tx) txs).
  assert (Forall (fun p => plain p) (reported F (TxHash <$> txs))) as Hp.
  { pose proof (proj1 (Forall_forall _ _) HF) as HF0. apply Forall_forall. intros x (h & Hh & (half & Hin & _)%raw_for_Some)%list_elem_of_omap. exact (HF0 _ Hin). }
  assert (exists pks bs1, (if bool_decide (cs = []) then Ret ([], bs)
      else handleTx1ConfirmMag (broker_route fetch (broker bs)) table bs cs nows) = Ret (pks, bs1) /\
    sent pks ≡ₚ S'.*2 /\ BrokerAddress (broker bs1) = addrs /\ (NoDup (hashes (S ++ S')) -> books bs1 F (S ++ S')))
    as (pks & bs1 & E1 & Hs & Ha & Hbk).
  { case_bool_decide as Hcs.
    - rewrite Hcs in Ec. symmetry in Ec. apply fmap_nil_inv in Ec. unfold S'. rewrite Ec. exists [], bs.
      split; [done|]. split; [done|]. split; [apply Hb|]. by rewrite app_nil_r.
    - unfold handleTx1ConfirmMag.
      destruct (confirms_spec cs (broker bs) []) as (b' & Eb & Ha' & Hr); [apply Hb| |].
      { apply Forall_forall. intros c (tx & _ & Hc)%list_elem_of_omap. rewrite (bk_pool1 _ _ _ Hb) in Hc.
        destruct (raw_for F (TxHash tx)) as [rtx|] eqn:Er; [|done]. injection Hc as <-. cbn.
        apply raw_for_Some in Er as (half & Hin & _).
        destruct (raw_digest rtx) as [d Ed]; [rewrite Forall_forall in HF; exact (HF _ Hin)|]. exists d. split; [done|].
        exact (bk_noted _ _ _ Hb _ _ Hin Ed). }
      rewrite Eb. go_ret. cbv beta iota. cbn [app]. rewrite Ec. unfold handleBrokerType2Mes.
      destruct (zip_made (fun tx => mkType2 (raw_of tx) a) second_of half2 nows (reported F (TxHash <$> txs)) (fun _ _ => eq_refl)) as [E1 E2].
      rewrite E2, E1. fold S'.
      destruct (broker_sending fetch (broker bs) table S'.*2 Hf (bk_addrs _ _ _ Hb)) as (pks & Ep & _ & Hsent).
      { apply made_deliverable; [done|done|]. intros. by apply half_deliverable. }
      rewrite Ep. go_ret. eexists pks, _. split; [done|]. split; [done|]. split; [done|]. intros Hnd. destruct Hb as [Hb0 Hp1 Hp2 Hn]. split.
      + done.
      + done.
      + cbn. intros h. rewrite foldl_fmap.
        rewrite (foldl_ext' _ (fun m '(tx, half) => <[TxHash half := mkConfirm2 (TxHash half) (raw_of tx)]> m)) by (by intros ? []).
        by apply (pool_filled (fun h tx => mkConfirm2 h (raw_of tx))).
      + cbn. rewrite Hr. exact Hn. }
  rewrite E1. go_ret. cbv beta iota. eexists pks, _. split; [done|]. split; [done|].
  destruct (bool_decide (cs2 = [])); [by split|]. split; [|intros Hnd; by apply confirm2_books, Hbk].
  clear -Ha. unfold handleTx2ConfirmMag. cbn. revert Ha. generalize (broker bs1). induction cs2 as [|c cs2 IH]; intros b Hb; [done|]. by apply IH.
Qed.

(** ** Runs *)

(** The halves among some transactions, as a shard sorts them. *)
Definition halves (txs : list Transaction) : list Transaction := filter (fun tx => broker_class tx <> Executed) txs.

(** The committee after some batches and block reports: what it has sent, the
    transfers it has split, the other transactions, and the hashes reported.  The map
    of accounts may change between steps; a shard reports halves it was sent. *)
Inductive brokering : BrokerState -> list packet -> list Transaction -> list Transaction -> list (list Z) -> Prop :=
| br_start b : BrokerAddress b = addrs -> brokering (mkBS b ∅ ∅) [] [] [] []
| br_deal bs pks D K R fetch table txs nows pks1 itxs bs' pks2 :
    brokering bs pks D K R -> places fetch -> Forall plain txs -> (forall i, time_json (nows i)) ->
    dealTxByBroker fetch table bs txs nows = Ret (pks1, itxs, bs') ->
    txSending (broker_route fetch (broker bs')) table itxs = Ret pks2 ->
    brokering bs' (pks ++ pks1 ++ pks2) (D ++ filter (fun tx => splits fetch tx = true) txs)
      (K ++ (mark <$> filter (fun tx => splits fetch tx = false) txs)) R
| br_report bs pks D K R fetch table txs nows pks1 bs' :
    brokering bs pks D K R -> places fetch -> (forall i, time_json (nows i)) ->
    Forall (fun tx => TxHash tx ∈ TxHash <$> halves (sent pks)) txs ->
    createConfirm (broker_route fetch (broker bs)) table bs txs nows = Ret (pks1, bs') ->
    brokering bs' (pks ++ pks1) D K (R ++ (TxHash <$> txs)).

(** What the halves say. *)
Definition is_first (tx half : Transaction) : Prop :=
  Sender half = Sender tx /\ Recipient half = a /\ Value half = Value tx /\ Nonce half = Nonce tx /\
  OriginalSender half = Sender tx /\ FinalRecipient half = Recipient tx /\ RawTxHash half = TxHash tx.
Definition is_second (tx half : Transaction) : Prop :=
  Sender half = a /\ Recipient half = Recipient tx /\ Value half = Value tx /\ Nonce half = Nonce tx /\
  OriginalSender half = Sender tx /\ FinalRecipient half = Recipient tx /\ RawTxHash half = TxHash tx.

Definition split_ok (tx : Transaction) : Prop := plain tx /\ IsBroker_loop addrs (Recipient tx) = false.

(** The transactions sent so far are the halves of the booked transfers and the
    others. *)
Record sent_as (txs : list Transaction) (F S : transfers) (K : list Transaction) : Prop := {
  sa_first : of_class broker_class Broker1 txs ≡ₚ F.*2;
  sa_second : of_class broker_class Broker2 txs ≡ₚ S.*2;
  sa_others : of_class broker_class Executed txs ≡ₚ K;
}.

Lemma halves_classes txs : halves txs ≡ₚ of_class broker_class Broker1 txs ++ of_class broker_class Broker2 txs.
Proof.
  unfold halves, of_class. induction txs as [|tx txs IH]; [done|]. rewrite !filter_cons.
  destruct (broker_class tx) eqn:E; repeat (rewrite decide_True by done) || rewrite decide_False by (done || by intros []);
    rewrite ?(decide_False (P := _ = _)) by done; cbn; rewrite IH; [done|done|by rewrite Permutation_middle].
Qed.

Lemma sent_as_hashes txs F S K : sent_as txs F S K -> TxHash <$> halves txs ≡ₚ hashes (F ++ S).
Proof.
  intros [H1' H2' _]. unfold hashes. rewrite halves_classes, H1', H2', !fmap_app, <- !list_fmap_compose. done.
Qed.

Lemma of_class_all c txs : Forall (fun tx => broker_class tx = c) txs -> forall c', of_class broker_class c' txs = if decide (c' = c) then txs else [].
Proof.
  intros Hc c'. unfold of_class. case_decide as E.
  - subst. induction Hc as [|tx txs Ht _ IH]; [done|]. rewrite filter_cons, decide_True by done. by rewrite IH.
  - induction Hc as [|tx txs Ht _ IH]; [done|]. rewrite filter_cons, decide_False by congruence. done.
Qed.

Lemma of_class_perm c l l' : l ≡ₚ l' -> of_class broker_class c l ≡ₚ of_class broker_class c l'.
Proof. unfold of_class. by intros ->. Qed.
Lemma of_class_app c l l' : of_class broker_class c (l ++ l') = of_class broker_class c l ++ of_class broker_class c l'.
Proof. apply filter_app. Qed.

Lemma made_class f nows txs c : Forall split_ok txs -> (forall tx now, split_ok tx -> broker_class (f tx now) = c) ->
  Forall (fun tx => broker_class tx = c) (made f nows txs).*2.
Proof.
  intros Hs Hf. apply Forall_forall. intros x (p & -> & Hin)%list_elem_of_fmap.
  apply elem_of_made in Hin as [Hin [i ->]]. apply Hf. rewrite Forall_forall in Hs. by apply Hs.
Qed.

Lemma splits_ok fetch txs : Forall plain txs -> Forall split_ok (filter (fun tx => splits fetch tx = true) txs).
Proof.
  intros Hp. rewrite Forall_forall in *. intros tx [Hs Hin]%list_elem_of_filter. split; [by apply Hp|].
  unfold splits in Hs. by destruct (IsBroker_loop addrs (Recipient tx)); rewrite ?andb_false_r in Hs.
Qed.

Lemma sent_as_deal txs F S K new1 new2 fetch batch nows :
  sent_as txs F S K -> Forall plain batch ->
  new1 ≡ₚ (made first_of nows (filter (fun tx => splits fetch tx = true) batch)).*2 ->
  new2 ≡ₚ mark <$> filter (fun tx => splits fetch tx = false) batch ->
  sent_as (txs ++ new1 ++ new2) (F ++ made first_of nows (filter (fun tx => splits fetch tx = true) batch)) S
    (K ++ (mark <$> filter (fun tx => splits fetch tx = false) batch)).
Proof.
  intros Hsa Hp E1 E2. pose proof (splits_ok fetch batch Hp) as Hso.
  assert (Forall (fun tx => broker_class tx = Broker1) new1) as H1'.
  { rewrite E1. apply made_class; [done|]. intros tx now [? ?]. by apply half_class. }
  assert (Forall (fun tx => broker_class tx = Executed) new2) as H2'.
  { rewrite E2. apply Forall_forall. intros x (tx & -> & [_ Hin]%list_elem_of_filter)%list_elem_of_fmap.
    apply mark_class. rewrite Forall_forall in Hp. by destruct (Hp _ Hin) as (_ & _ & _ & ? & _). }
  destruct Hsa as [S1 S2 S3]. split; rewrite !of_class_app, ?S1, ?S2, ?S3, !(of_class_all _ _ H1'), !(of_class_all _ _ H2'); cbn;
    rewrite ?app_nil_r; [rewrite fmap_app; by apply Permutation_app|done|by apply Permutation_app].
Qed.

Lemma sent_as_report txs F S K new nows raws : sent_as txs F S K -> Forall split_ok raws ->
  new ≡ₚ (made second_of nows raws).*2 -> sent_as (txs ++ new) F (S ++ made second_of nows raws) K.
Proof.
  intros Hsa Hso E1.
  assert (Forall (fun tx => broker_class tx = Broker2) new) as H1'.
  { rewrite E1. apply made_class; [done|]. intros tx now [? ?]. by apply half_class. }
  destruct Hsa as [S1 S2 S3]. split; rewrite !of_class_app, ?S1, ?S2, ?S3, !(of_class_all _ _ H1'); cbn;
    rewrite ?app_nil_r; [done|rewrite fmap_app; by apply Permutation_app|done].
Qed.

(** Reports made before do not name a half made later. *)
Lemma reported_grow F F' S R : (forall h, h ∈ R -> h ∈ hashes (F ++ S)) -> NoDup (hashes ((F ++ F') ++ S)) ->
  reported (F ++ F') R = reported F R.
Proof.
  intros HR Hnd. unfold reported. induction R as [|h R IH]; [done|]. cbn.
  rewrite IH by (intros x Hx; apply HR; by right).
  replace (raw_for (F ++ F') h) with (raw_for F h); [done|]. rewrite raw_for_app. destruct (raw_for F h) as [tx|] eqn:E; [done|].
  symmetry. apply raw_for_None. intros Hin'. specialize (HR h ltac:(left)).
  unfold hashes in *. rewrite !fmap_app in *. apply NoDup_app in Hnd as (Hnd & Hd & _). apply elem_of_app in HR as [HR|HR].
  - apply NoDup_app in Hnd as (_ & Hd' & _). by apply (Hd' h).
  - apply (Hd h); [|done]. apply elem_of_app. by right.
Qed.

(** ** The invariant *)

Record run_inv (bs : BrokerState) (pks : list packet) (D K : list Transaction) (R : list (list Z)) (F S : transfers) : Prop := {
  ri_books : books bs F S;
  ri_sent : sent_as (sent pks) F S K;
  ri_split : F.*1 = D;
  ri_ok : Forall split_ok D;
  ri_first : Forall (fun p => is_first p.1 p.2) F;
  ri_second : Forall (fun p => is_second p.1 p.2) S;
  ri_order : S.*1 = reported F R;
  ri_known : forall h, h ∈ R -> h ∈ hashes (F ++ S);
}.

Lemma made_says (P : Transaction -> Transaction -> Prop) f nows txs : (forall tx now, P tx (f tx now)) ->
  Forall (fun p => P p.1 p.2) (made f nows txs).
Proof. intros Hf. apply Forall_forall. intros p [_ [i ->]]%elem_of_made. apply Hf. Qed.

Lemma split_plain (F : transfers) D : F.*1 = D -> Forall split_ok D -> Forall (fun p => plain p.1) F.
Proof.
  intros <- Hs. apply Forall_forall. intros p Hp. rewrite Forall_forall in Hs.
  apply (Hs p.1). apply list_elem_of_fmap. by exists p.
Qed.

Lemma reported_ok F R : Forall split_ok F.*1 -> Forall split_ok (reported F R).
Proof.
  intros Hs. rewrite Forall_forall in *. intros x (h & _ & (half & Hin & _)%raw_for_Some)%list_elem_of_omap.
  apply Hs. apply list_elem_of_fmap. by exists (x, half).
Qed.

Lemma reported_app F R R' : reported F (R ++ R') = reported F R ++ reported F R'.
Proof. apply omap_app. Qed.

Lemma prefix_fresh txs new : NoDup (TxHash <$> halves (txs ++ new)) -> NoDup (TxHash <$> halves txs).
Proof. unfold halves. rewrite filter_app, fmap_app. by intros [? _]%NoDup_app. Qed.

Lemma brokering_inv bs pks D K R : brokering bs pks D K R -> NoDup (TxHash <$> halves (sent pks)) ->
  exists F S, run_inv bs pks D K R F S.
Proof.
  induction 1 as [b Hb|bs pks D K R fetch table txs nows pks1 itxs bs' pks2 Hrun IH Hf Hp Ht Ed Es
                 |bs pks D K R fetch table txs nows pks1 bs' Hrun IH Hf Ht Hr Ec]; intros Hnd.
  - exists [], []. split; try done. split; [done|done|done|]. by intros p d ?%elem_of_nil.
  - rewrite !sent_app in Hnd. destruct (IH (prefix_fresh _ _ Hnd)) as (F & S & [Hb Hsa HF Hok H1' H2' Ho Hk]).
    destruct (deal_books fetch table bs F S txs nows Hf Hb Hp Ht) as (q1 & bs1 & E1 & Hs1 & Ha1 & Hb1).
    rewrite Ed in E1. injection E1 as <- -> <-.
    destruct (broker_sending fetch (broker bs') table (mark <$> filter (fun tx => splits fetch tx = false) txs) Hf Ha1)
      as (q2 & E2 & _ & Hs2).
    { rewrite Forall_forall in *. intros x (tx & -> & [_ Hin]%list_elem_of_filter)%list_elem_of_fmap. by apply mark_deliverable, Hp. }
    rewrite Es in E2. injection E2 as <-.
    pose proof (sent_as_deal _ F S K _ _ fetch txs nows Hsa Hp Hs1 Hs2) as Hsa'.
    set (F' := made first_of nows _) in *. rewrite (sent_as_hashes _ _ _ _ Hsa') in Hnd.
    exists (F ++ F'), S. split.
    + apply Hb1. unfold hashes in *. rewrite fmap_app in Hnd. by apply NoDup_app in Hnd as [? _].
    + by rewrite !sent_app.
    + unfold F'. by rewrite fmap_app, HF, made_fst.
    + apply Forall_app. split; [done|by apply splits_ok].
    + apply Forall_app. split; [done|by apply made_says].
    + done.
    + by rewrite (reported_grow F F' S R Hk Hnd).
    + intros h Hh%Hk. unfold hashes in *. rewrite !fmap_app in *. set_solver.
  - rewrite !sent_app in Hnd. destruct (IH (prefix_fresh _ _ Hnd)) as (F & S & [Hb Hsa HF Hok H1' H2' Ho Hk]).
    destruct (report_books fetch table bs F S txs nows Hf Hb (split_plain F D HF Hok) Ht) as (q1 & bs1 & E1 & Hs1 & Ha1 & Hb1).
    rewrite Ec in E1. injection E1 as <- <-.
    pose proof (sent_as_report _ F S K _ nows _ Hsa (reported_ok F _ ltac:(by rewrite HF)) Hs1) as Hsa'.
    set (S' := made second_of nows _) in *. rewrite (sent_as_hashes _ _ _ _ Hsa') in Hnd.
    exists F, (S ++ S'). split; try done.
    + apply Hb1. unfold hashes in *. rewrite fmap_app in Hnd. by apply NoDup_app in Hnd as (_ & _ & ?).
    + by rewrite !sent_app.
    + apply Forall_app. split; [done|by apply made_says].
    + unfold S'. by rewrite fmap_app, Ho, made_fst, reported_app.
    + intros h [Hh|Hh]%elem_of_app.
      * apply Hk in Hh. unfold hashes in *. rewrite !fmap_app in *. set_solver.
      * apply list_elem_of_fmap in Hh as (tx & -> & Hin). rewrite Forall_forall in Hr. apply Hr in Hin.
        rewrite (sent_as_hashes _ _ _ _ Hsa) in Hin. unfold hashes in *. rewrite !fmap_app in *. set_solver.
Qed.

(** C10. Brokered transfers between accounts that have a shard, for any sequence of
    batches and block reports, while accounts may be re-partitioned in between: what
    the committee has sent is, up to the order among shards, the transactions it did
    not split, each as it was but for the broker marks when one of its ends is a
    broker, one first half for every transfer it split, and the second halves; each
    half carries the transfer's value, number, addresses and hash, the first from the
    sender to the broker and the second from the broker to the recipient; and the
    second halves are those of the transfers whose first half has been reported, in
    that order, one for each report.  The committee never gets stuck on such accounts:
    from every such state, every batch and every report is handled without a panic. *)
Theorem broker_protocol (bs : BrokerState) (pks : list packet) (D K : list Transaction) (R : list (list Z)) :
  brokering bs pks D K R -> NoDup (TxHash <$> halves (sent pks)) ->
  (exists F S : transfers,
     of_class broker_class Broker1 (sent pks) ≡ₚ F.*2 /\ of_class broker_class Broker2 (sent pks) ≡ₚ S.*2 /\
     of_class broker_class Executed (sent pks) ≡ₚ K /\
     F.*1 = D /\ Forall (fun p => is_first p.1 p.2) F /\ Forall (fun p => is_second p.1 p.2) S /\
     S.*1 = reported F R) /\
  forall fetch table txs nows, places fetch -> (forall i, time_json (nows i)) ->
    (Forall plain txs -> exists pks1 itxs bs' pks2, dealTxByBroker fetch table bs txs nows = Ret (pks1, itxs, bs') /\
       txSending (broker_route fetch (broker bs')) table itxs = Ret pks2) /\
    (exists pks1 bs', createConfirm (broker_route fetch (broker bs)) table bs txs nows = Ret (pks1, bs')).
Proof.
  intros Hrun Hnd. destruct (brokering_inv bs pks D K R Hrun Hnd) as (F & S & [Hb [S1 S2 S3] HF Hok H1' H2' Ho Hk]). split.
  { by exists F, S. }
  intros fetch table txs nows Hf Ht. split.
  - intros Hp. destruct (deal_books fetch table bs F S txs nows Hf Hb Hp Ht) as (q1 & bs1 & E1 & _ & Ha1 & _).
    destruct (broker_sending fetch (broker bs1) table (mark <$> filter (fun tx => splits fetch tx = false) txs) Hf Ha1)
      as (q2 & E2 & _ & _).
    { rewrite Forall_forall in *. intros x (tx & -> & [_ Hin]%list_elem_of_filter)%list_elem_of_fmap. by apply mark_deliverable, Hp. }
    by exists q1, (mark <$> filter (fun tx => splits fetch tx = false) txs), bs1, q2.
  - destruct (report_books fetch table bs F S txs nows Hf Hb (split_plain F D HF Hok) Ht) as (q1 & bs1 & E1 & _).
    by exists q1, bs1.
Qed.
End brokering.
