(* ===== verification/Rerouting.v ===== *)
(** * Re-partitions seen from the supervisor ([supervisor/committee/committee_clpa.go])

    The committee builds the graph of executed transactions from the block reports,
    runs the partition on it, tells the shards which accounts move, and routes later
    transactions by its own copy of the map.  Proved here: this never panics, and the
    committee's map and the shards' maps are the same function of the account. *)

From stdpp Require Import base gmap strings list.
From Stdlib Require Import ZArith Lia SpecFloat.
From S2P Require Import Prelude Encoding TrieSpec Node Trie TrieMap Hasher Committer Reload Database Core Storage Chain.
From S2P Require Import ChainMem MerkleProof OnChain Message Follower Pbft Partition PbftBroker Reshard Committee Injection.

Local Open Scope Z_scope.

Section graph.
Context `{Params}.

(** ** The graph of the reports *)

Lemma members_insert cs v s k : v ∉ VertexSet (NetGraph cs) ->
  forall cs', VertexSet (NetGraph cs') = {[v]} ∪ VertexSet (NetGraph cs) -> PartitionMap cs' = <[v := s]> (PartitionMap cs) ->
  Z.of_nat (size (members cs' k)) = Z.of_nat (size (members cs k)) + (if k =? s then 1 else 0).
Proof.
  intros Hv cs' Hs Hm. unfold members, shard_of. rewrite Hs, Hm.
  assert (filter (fun u => default 0 (<[v := s]> (PartitionMap cs) !! u) = k) ({[v]} ∪ VertexSet (NetGraph cs)) =
          (if decide (k = s) then {[v]} else ∅) ∪ filter (fun u => default 0 (PartitionMap cs !! u) = k) (VertexSet (NetGraph cs))) as ->.
  { apply set_eq. intros u. rewrite elem_of_union, !elem_of_filter, elem_of_union, elem_of_singleton.
    destruct (decide (u = v)) as [->|Hne].
    - rewrite lookup_insert_eq. cbn. case_decide; set_solver.
    - rewrite lookup_insert_ne by done. case_decide; set_solver. }
  destruct (Z.eqb_spec k s) as [->|Hne].
  - rewrite decide_True by done. rewrite size_union, size_singleton by (apply disjoint_singleton_l; intros [_ ?]%elem_of_filter; done). lia.
  - rewrite decide_False by done. rewrite (left_id_L ∅ (∪)). lia.
Qed.

(** An account has a shard: in the partition, or by its address. *)
Definition placeable (cs : CLPAState) (v : Vertex) (s : Z) : Prop :=
  0 <= s < cs_ShardNum cs /\
  (PartitionMap cs !! v = Some s \/ PartitionMap cs !! v = None /\ Addr2Shard (Addr v) = Ret s).

Lemma AddVertex_ok cs v s : clpa_placed cs -> v ∉ VertexSet (NetGraph cs) -> placeable cs v s ->
  exists cs', AddVertex cs v = Ret cs' /\ clpa_placed cs' /\ PartitionMap cs' = <[v := s]> (PartitionMap cs) /\
    NetGraph cs' = g_AddVertex (NetGraph cs) v /\ cs_ShardNum cs' = cs_ShardNum cs.
Proof.
  intros [Hs Hc Hp Hn Hcnt] Hv [Hr Hpl]. unfold AddVertex. cbn [cs_with_graph PartitionMap VertexsNumInShard].
  assert (match PartitionMap cs !! v with None => Addr2Shard (Addr v) | Some val => Ret val end = Ret s) as ->
    by (destruct Hpl as [->|[-> ->]]; done). go_ret.
  destruct (add_at_spec (VertexsNumInShard cs) s 1) as (nums & -> & Hl & Hk); [unfold in_range; lia|]. go_ret.
  eexists. split; [done|]. split; [|done]. split; cbn.
  - done.
  - intros x u Hu. destruct (Hc x u Hu). set_solver.
  - intros u Hu. destruct (decide (u = v)) as [->|Hne]; [exists s; by rewrite lookup_insert_eq|].
    rewrite lookup_insert_ne by done. apply Hp. set_solver.
  - lia.
  - intros k Hin. rewrite Hk, Hcnt by (unfold in_range in *; lia).
    symmetry. by apply (members_insert cs v s k Hv).
Qed.

(** Every account of the partition is where [ok] says, and so is every other one. *)
Definition placed_by (cs : CLPAState) (ok : Address -> Z -> Prop) : Prop :=
  (forall a s, PartitionMap cs !! mkVertex a = Some s -> ok a s) /\
  (forall a s, ok a s -> 0 <= s < cs_ShardNum cs /\ (PartitionMap cs !! mkVertex a = None -> Addr2Shard a = Ret s)).

Lemma add_end cs (ok : Address -> Z -> Prop) a s : (forall x s1 s2, ok x s1 -> ok x s2 -> s1 = s2) ->
  clpa_placed cs -> placed_by cs ok -> ok a s ->
  exists cs', (if decide (mkVertex a ∈ VertexSet (NetGraph cs)) then Ret cs else AddVertex cs (mkVertex a)) = Ret cs' /\
    clpa_placed cs' /\ placed_by cs' ok /\ cs_ShardNum cs' = cs_ShardNum cs /\ mkVertex a ∈ VertexSet (NetGraph cs') /\
    VertexSet (NetGraph cs) ⊆ VertexSet (NetGraph cs') /\
    (forall x s, PartitionMap cs !! mkVertex x = Some s -> PartitionMap cs' !! mkVertex x = Some s).
Proof.
  intros Hdet Hcs Hpl Ha. destruct Hpl as [Hin Hout]. destruct (Hout a s Ha) as [Hr Hn].
  case_decide as Hv; [exists cs; done|].
  destruct (AddVertex_ok cs (mkVertex a) s Hcs Hv) as (cs' & E & Hcs' & Hm & Hg & Hs).
  { split; [done|]. destruct (PartitionMap cs !! mkVertex a) as [s'|] eqn:Em; [|right; split; [done|by apply Hn]].
    left. f_equal. exact (Hdet a s' s (Hin a s' Em) Ha). }
  exists cs'. rewrite E, Hg. split; [done|]. split; [done|]. split.
  { split; rewrite Hm.
    - intros x s'. destruct (decide (x = a)) as [->|Hne]; [rewrite lookup_insert_eq; by intros [= <-]|].
      rewrite lookup_insert_ne by congruence. apply Hin.
    - intros x s' Hx. rewrite Hs. destruct (Hout x s' Hx) as [? Hx']. split; [done|]. intros [Hne Hx'']%lookup_insert_None.
      by apply Hx'. }
  split; [done|]. split; [set_solver|]. split; [set_solver|]. intros x s' Hx. rewrite Hm.
  destruct (decide (x = a)) as [->|Hne]; [|by rewrite lookup_insert_ne by congruence].
  rewrite lookup_insert_eq. f_equal. exact (Hdet a s s' Ha (Hin a s' Hx)).
Qed.

Lemma g_AddEdge_vertices g u v : u ∈ VertexSet g -> v ∈ VertexSet g -> VertexSet (g_AddEdge g u v) = VertexSet g.
Proof. intros Hu Hv. unfold g_AddEdge. cbv zeta. by rewrite (decide_True _ _ Hu), (decide_True _ _ Hv). Qed.

Lemma AddEdge_ok cs (ok : Address -> Z -> Prop) a b s t : (forall x s1 s2, ok x s1 -> ok x s2 -> s1 = s2) ->
  clpa_placed cs -> placed_by cs ok -> ok a s -> ok b t ->
  exists cs', AddEdge cs (mkVertex a) (mkVertex b) = Ret cs' /\ clpa_placed cs' /\ placed_by cs' ok /\
    cs_ShardNum cs' = cs_ShardNum cs /\
    (forall x s, PartitionMap cs !! mkVertex x = Some s -> PartitionMap cs' !! mkVertex x = Some s).
Proof.
  intros Hdet Hcs Hpl Ha Hb. unfold AddEdge.
  destruct (add_end cs ok a s Hdet Hcs Hpl Ha) as (cs1 & -> & Hcs1 & Hpl1 & Hs1 & Ha1 & _ & Hk1). go_ret.
  destruct (add_end cs1 ok b t Hdet Hcs1 Hpl1 Hb) as (cs2 & -> & Hcs2 & Hpl2 & Hs2 & Hb2 & Hsub & Hk2). go_ret.
  eexists. split; [done|]. destruct Hcs2 as [Hs Hc Hp Hn Hcnt].
  pose proof (g_AddEdge_closed (NetGraph cs2) (mkVertex a) (mkVertex b) Hc) as Hc'.
  pose proof (g_AddEdge_vertices (NetGraph cs2) (mkVertex a) (mkVertex b) (Hsub _ Ha1) Hb2) as Hv'.
  split; [|split; [exact Hpl2|split; [cbn; congruence|cbn; auto]]].
  split; cbn [cs_with_graph NetGraph PartitionMap VertexsNumInShard cs_ShardNum]; try done; [by rewrite Hv'|].
  intros k Hin. rewrite Hcnt by done. unfold members, shard_of.
  cbn [cs_with_graph NetGraph PartitionMap]. by rewrite Hv'.
Qed.
End graph.

#[export] Instance mkVertex_inj : Inj (=) (=) mkVertex.
Proof. by intros x y [=]. Qed.

Section rerouting.
Context `{EthDB} `{FastCache} `{HashEnv} `{EthCommon} `{RLP} `{StateAccountRLP} `{!MemoryDB} `{Bolt}.
Context `{Params} `{FeedParams} `{Json InjectTxs} `{Json PartitionModifiedMap}.
Hypothesis shards : 0 < ShardNum < 2 ^ 63.
Hypothesis map_json : forall M : gmap Address Z, json_valid (mkModified M).
Context (table : gmap Z (gmap Z string)).

(** ** Where the committee sends an account's transactions *)

Definition goes_to (m : gmap Address Z) (x : Address) (s : Z) : Prop := fetchModifiedMap m x = Ret s /\ 0 <= s < ShardNum.

(** An address that gives a shard: its last digits are hexadecimal and their
    remainder is not negative. *)
Definition lives (x : Address) : Prop := exists s, Addr2Shard x = Ret s /\ 0 <= s < ShardNum.

Record clpa_inv (c : Clpa) : Prop := {
  ci_placed : clpa_placed (clpaGraph c);
  ci_shards : cs_ShardNum (clpaGraph c) = ShardNum;
  ci_agree : forall x s, PartitionMap (clpaGraph c) !! mkVertex x = Some s -> goes_to (modifiedMap c) x s;
  ci_known : forall x s, modifiedMap c !! x = Some s -> PartitionMap (clpaGraph c) !! mkVertex x = Some s;
}.

Lemma Addr2Shard_range x s : Addr2Shard x = Ret s -> - ShardNum < s < ShardNum.
Proof.
  unfold Addr2Shard. destruct (ParseUint16 _); [|done]. destruct (ShardNum =? 0); [done|]. intros [= <-].
  pose proof (Z.rem_bound_abs (i64 z) ShardNum). lia.
Qed.

Lemma goes_to_det m x s s' : goes_to m x s -> goes_to m x s' -> s = s'.
Proof. intros [E _] [E' _]. congruence. Qed.

Lemma inv_placed_by c : clpa_inv c -> placed_by (clpaGraph c) (goes_to (modifiedMap c)).
Proof.
  intros [Hp Hs Ha Hk]. split; [done|]. intros x s [E Hr]. rewrite Hs. split; [done|]. intros Hn.
  unfold fetchModifiedMap in E. destruct (modifiedMap c !! x) as [s'|] eqn:Em; [rewrite (Hk _ _ Em) in Hn; done|].
  unfold addr_shard in E. apply outcome_bind_Ret in E as (s0 & E0 & [= <-]). pose proof (Addr2Shard_range _ _ E0).
  rewrite E0. f_equal. unfold wrap_u in *. destruct (Z.ltb_spec s0 0).
  - rewrite <- (Z.mod_add s0 1), Z.mod_small in Hr by lia. lia.
  - by rewrite Z.mod_small by lia.
Qed.

Lemma lives_goes c x : clpa_inv c -> lives x -> exists s, goes_to (modifiedMap c) x s.
Proof.
  intros Hc (s & E & Hs). unfold goes_to, fetchModifiedMap. destruct (modifiedMap c !! x) as [s'|] eqn:Em.
  - exists s'. split; [done|]. by destruct (ci_agree _ Hc _ _ (ci_known _ Hc _ _ Em)).
  - exists s. unfold addr_shard. rewrite E. go_ret. rewrite wrap_u_small by (unfold is_u; lia). done.
Qed.

(** ** Steps *)

Lemma new_graph_ok : exists g, new_graph = Ret g /\ NetGraph g = mkGraph ∅ None /\ PartitionMap g = ∅ /\ cs_ShardNum g = ShardNum /\
  VertexsNumInShard g = replicate (Z.to_nat ShardNum) 0.
Proof. unfold new_graph, Init_CLPAState, make_ints. rewrite (proj2 (Z.ltb_ge _ _)) by lia. go_ret. by eexists. Qed.

(** A graph without vertices, whatever the map says. *)
Lemma empty_placed g m : NetGraph g = mkGraph ∅ None -> cs_ShardNum g = ShardNum ->
  VertexsNumInShard g = replicate (Z.to_nat ShardNum) 0 -> clpa_placed (cs_with_partition g m (VertexsNumInShard g)).
Proof.
  intros Hg Hs Hn. split; cbn [cs_with_partition NetGraph PartitionMap VertexsNumInShard cs_ShardNum]; rewrite ?Hg, ?Hs, ?Hn.
  - done.
  - intros v u. unfold edges. cbn. by intros ?%elem_of_nil.
  - cbn. set_solver.
  - rewrite length_replicate. lia.
  - intros k _. rewrite nth_z_zeros. unfold members. cbn [cs_with_partition NetGraph]. rewrite Hg. cbn [VertexSet].
    match goal with |- context [size ?X] => assert (X = ∅) as -> by set_solver end. by rewrite size_empty.
Qed.

Lemma start_inv g t freq : new_graph = Ret g -> clpa_inv (mkClpa g ∅ t freq).
Proof.
  intros E. destruct new_graph_ok as (g' & E' & Hg & Hm & Hs & Hn). rewrite E in E'. injection E' as <-. split; cbn.
  - pose proof (empty_placed g (PartitionMap g) Hg Hs Hn) as Hp. by destruct g.
  - done.
  - intros x s. by rewrite Hm, lookup_empty.
  - intros x s. by rewrite lookup_empty.
Qed.

Lemma add_edges_ok c es : clpa_inv c -> Forall (fun e => lives e.1 /\ lives e.2) es ->
  exists c', add_edges c es = Ret c' /\ clpa_inv c' /\ modifiedMap c' = modifiedMap c.
Proof.
  intros Hc Hes.
  assert (forall g, clpa_inv (cl_with_graph c g) -> exists g', ofold (fun g '(u, v) => AddEdge g (mkVertex u) (mkVertex v)) g es = Ret g' /\
    clpa_inv (cl_with_graph c g')) as Hloop.
  { induction Hes as [|[u v] es [Hu Hv] _ IH]; intros g Hg; [by exists g|]. cbn [ofold].
    destruct (lives_goes _ _ Hg Hu) as [su Hsu], (lives_goes _ _ Hg Hv) as [sv Hsv]. cbn [fst snd cl_with_graph modifiedMap] in *.
    destruct (AddEdge_ok g (goes_to (modifiedMap c)) u v su sv (goes_to_det _) (ci_placed _ Hg) (inv_placed_by _ Hg) Hsu Hsv)
      as (g' & -> & Hp & [Hpl _] & Hs & Hk). go_ret. apply IH. split; cbn.
    - done.
    - rewrite Hs. apply (ci_shards _ Hg).
    - exact Hpl.
    - intros x s Hx. apply Hk. by apply (ci_known _ Hg). }
  destruct (Hloop (clpaGraph c)) as (g' & E & Hg'); [by destruct c|]. unfold add_edges. rewrite E. go_ret. by eexists.
Qed.

(** ** A round *)

(** The message of a round. *)
Definition told (M : gmap Address Z) : list packet :=
  (fun i => (node_address table i 0, frame_of "PartitionModifiedMap" (mkModified M))) <$> all_shards.

Lemma told_carries M : carries "PartitionModifiedMap" (mkModified M) (frame_of "PartitionModifiedMap" (mkModified M)).
Proof. eapply (send_frame "PartitionModifiedMap" (mkModified M) ""); [done|]. apply list_elem_of_In. cbn. tauto. Qed.

Lemma clpaMapSend_spec M : clpaMapSend table M = Ret (told M).
Proof.
  unfold clpaMapSend. destruct (send_frame "PartitionModifiedMap" (mkModified M) "") as [-> _]; [done| |done].
  apply list_elem_of_In. cbn. tauto.
Qed.

Lemma reset_inv c : (forall x s, modifiedMap c !! x = Some s -> 0 <= s < ShardNum) ->
  exists c', clpaReset c = Ret c' /\ (forall now, clpa_inv (cl_with_time c' now)) /\ modifiedMap c' = modifiedMap c.
Proof.
  intros Hr. unfold clpaReset. destruct new_graph_ok as (g & -> & Hg & Hm & Hs & Hn). go_ret.
  eexists. split; [done|]. split; [|done].
  assert (forall x, (kmap mkVertex (i64 <$> modifiedMap c) ∪ PartitionMap g) !! mkVertex x = modifiedMap c !! x) as Hlk.
  { intros x. rewrite Hm, (right_id_L ∅ (∪)), (lookup_kmap mkVertex), lookup_fmap.
    destruct (modifiedMap c !! x) as [s|] eqn:E; [|done]. cbn. by rewrite wrap_s_small by (unfold is_s; specialize (Hr _ _ E); lia). }
  intros now. split; cbn [cl_with_graph cl_with_time clpaGraph modifiedMap cs_with_partition PartitionMap].
  - by apply empty_placed.
  - exact Hs.
  - intros x s. rewrite Hlk. intros E. split; [unfold fetchModifiedMap; cbn [modifiedMap cl_with_time cl_with_graph]; change (modifiedMap c !! (x : Address) = Some s) in E; by rewrite E|by apply (Hr x)].
  - intros x s. by rewrite Hlk.
Qed.

Lemma result_range cs cs' (res : gmap string Z) : cs_ShardNum cs' = ShardNum -> clpa_ok cs' -> NetGraph cs' = NetGraph cs ->
  (forall v, v ∈ VertexSet (NetGraph cs) -> shard_of cs' v = default (shard_of cs v) (res !! Addr v)) ->
  (forall x, is_Some (res !! x) -> mkVertex x ∈ VertexSet (NetGraph cs)) ->
  forall x s, res !! x = Some s -> 0 <= s < ShardNum.
Proof.
  intros Hs Hok Hg Hres Hin x s E. assert (mkVertex x ∈ VertexSet (NetGraph cs)) as Hv by (apply Hin; by exists s).
  specialize (Hres _ Hv). cbn in Hres. rewrite E in Hres. cbn in Hres. rewrite <- Hres, <- Hs. apply placed_shard; [done|by rewrite Hg].
Qed.

Lemma round_ok c orders now : clpa_inv c -> (forall i v, v ∈ orders i -> v ∈ VertexSet (NetGraph (clpaGraph c))) ->
  exists M n g c', CLPA_Partition (clpaGraph c) orders = Ret (M, n, g) /\ clpa_round table c orders now = Ret (told M, c') /\
    clpa_inv c' /\ modifiedMap c' = M ∪ modifiedMap c.
Proof.
  intros Hc Hord. destruct (CLPA_Partition_run (clpaGraph c) orders (ci_placed _ Hc) Hord)
    as (M & g & E & Hok & Hg & Hs & Hres & Hin & _). unfold clpa_round. rewrite E. go_ret. cbv beta iota.
  rewrite clpaMapSend_spec. go_ret.
  match goal with |- context [clpaReset ?k] => destruct (reset_inv k) as (c' & Er & Hc' & Hm') end.
  { cbn. intros x s [HM|[_ Hx]]%lookup_union_Some_raw.
    - eapply (result_range (clpaGraph c) g M); try done. rewrite Hs. apply Hc.
    - by destruct (ci_agree _ Hc _ _ (ci_known _ Hc _ _ Hx)). }
  rewrite Er. go_ret. eexists M, _, g, _. split; [done|]. split; [done|]. split; [apply Hc'|exact Hm'].
Qed.

(** ** The shards' maps *)

Lemma shard_map bc c M : (forall x, Get_PartitionMap bc x = fetchModifiedMap (modifiedMap c) x) ->
  forall x, Get_PartitionMap (update_map bc M) x = fetchModifiedMap (M ∪ modifiedMap c) x.
Proof.
  intros Hbc x. specialize (Hbc x). unfold Get_PartitionMap, fetchModifiedMap in *. rewrite update_map_spec. cbn [mb_PartitionMap].
  rewrite !lookup_union. destruct (M !! x) as [s|]; [by destruct (mb_PartitionMap bc !! x), (modifiedMap c !! x)|].
  by rewrite !(left_id_L None _).
Qed.

(** ** Runs *)

(** The committee after some reports and rounds, with the maps it has found and what
    it has sent. *)
Inductive clpa_run : Clpa -> list (gmap Address Z) -> list packet -> Prop :=
| cr_start g freq : new_graph = Ret g -> clpa_run (mkClpa g ∅ 0 freq) [] []
| cr_timer c Ms P now : clpa_run c Ms P -> clpa_run (start_timer c now) Ms P
| cr_report c Ms P es c' : clpa_run c Ms P -> Forall (fun e => lives e.1 /\ lives e.2) es ->
    add_edges c es = Ret c' -> clpa_run c' Ms P
| cr_round c Ms P orders now M n g pks c' : clpa_run c Ms P ->
    (forall i v, v ∈ orders i -> v ∈ VertexSet (NetGraph (clpaGraph c))) ->
    CLPA_Partition (clpaGraph c) orders = Ret (M, n, g) -> clpa_round table c orders now = Ret (pks, c') ->
    clpa_run c' (Ms ++ [M]) (P ++ pks).

Lemma run_inv_clpa c Ms P : clpa_run c Ms P -> clpa_inv c /\ P = concat (told <$> Ms) /\
  forall bc, mb_PartitionMap bc = ∅ -> forall x, Get_PartitionMap (foldl update_map bc Ms) x = fetchModifiedMap (modifiedMap c) x.
Proof.
  induction 1 as [g freq E|c Ms P now _ IH|c Ms P es c' _ (IH & HP & Hbc) Hes E|c Ms P orders now M n g pks c' _ (IH & HP & Hbc) Hord EM E].
  - split; [by apply start_inv|]. split; [done|]. intros bc Hb x. cbn. unfold Get_PartitionMap, fetchModifiedMap. by rewrite Hb.
  - unfold start_timer. destruct (IsZero _); [|exact IH]. destruct IH as ([Hp Hs Ha Hk] & HP & Hbc). by split.
  - destruct (add_edges_ok c es IH Hes) as (c1 & E1 & Hc1 & Hm). rewrite E in E1. injection E1 as <-. split; [done|].
    split; [done|]. by rewrite Hm.
  - destruct (round_ok c orders now IH Hord) as (M' & n' & g' & c1 & EM' & E1 & Hc1 & Hm). rewrite E in E1. injection E1 as -> <-.
    rewrite EM in EM'. injection EM' as <- <- <-. split; [done|]. split.
    + rewrite HP, fmap_app, concat_app. cbn. by rewrite app_nil_r.
    + intros bc Hb x. rewrite foldl_app, Hm. cbn [foldl]. apply shard_map. by apply Hbc.
Qed.

Context (tx_json : Transaction -> Prop).
Hypothesis inject_json : forall it : InjectTxs, Forall tx_json (it_Txs it) -> json_valid it.
Hypothesis speed : InjectSpeed <> 0.

(** The shard that a chain with these maps holds responsible for the sender. *)
Definition owner_shard (bc : BlockChain) (tx : Transaction) : Z :=
  match Get_PartitionMap bc (Sender tx) with Ret s => s | Panic => 0 end.

(** C11. Re-partitions, for any sequence of rounds and of block reports on accounts
    whose address gives a shard, that is ends in hexadecimal digits with a remainder
    that is not negative: the committee panics neither on such a report nor in a
    round; each round sends the map it found to every shard; and a chain that has
    applied these maps in order finds the shard of every account as the committee does,
    so that every transaction of such a sender that the committee then sends goes, in
    order, to the shard whose chain owns its sender.  Reports of other accounts are
    not covered: a new vertex with a negative remainder is an index out of range. *)
Theorem rerouting_agrees (c : Clpa) (Ms : list (gmap Address Z)) (P : list packet) (bc : BlockChain) (f : Feed) :
  clpa_run c Ms P -> mb_PartitionMap bc = ∅ ->
  let bc' := foldl update_map bc Ms in
  P = concat (told <$> Ms) /\
  (forall x, Get_PartitionMap bc' x = fetchModifiedMap (modifiedMap c) x) /\
  (forall x, lives x -> exists s, Get_PartitionMap bc' x = Ret s /\ 0 <= s < ShardNum) /\
  (forall txs, Forall (fun tx => tx_json tx /\ lives (Sender tx)) txs -> exists pks,
     clpa_txSending (mkClpaC f c table) txs = Ret pks /\ Forall (addressed table) pks /\
     forall sid, 0 <= sid < ShardNum -> to_shard sid pks = filter (fun tx => owner_shard bc' tx = sid) txs) /\
  (forall es, Forall (fun e => lives e.1 /\ lives e.2) es -> exists c', add_edges c es = Ret c') /\
  (forall orders now, (forall i v, v ∈ orders i -> v ∈ VertexSet (NetGraph (clpaGraph c))) ->
     exists pks c', clpa_round table c orders now = Ret (pks, c')).
Proof.
  intros Hrun Hb bc'. destruct (run_inv_clpa c Ms P Hrun) as (Hc & HP & Hbc). specialize (Hbc bc Hb). fold bc' in Hbc.
  split; [done|]. split; [done|]. split.
  { intros x Hx. rewrite Hbc. by apply lives_goes. }
  split; [|split].
  - intros txs Ht. destruct (txSending_spec tx_json inject_json (sender_route (fetchModifiedMap (modifiedMap c))) (owner_shard bc') table txs speed)
      as (pks & E & Ha & Hto).
    { eapply Forall_impl; [exact Ht|]. intros tx [Hj Hl]. split; [done|]. unfold sender_route, owner_shard. rewrite Hbc.
      by destruct (lives_goes c _ Hc Hl) as (s & -> & _). }
    exists pks. split; [exact E|]. split; [done|]. intros sid Hs. rewrite Hto, decide_True; [done|]. apply elem_of_all_shards; lia.
  - intros es Hes. destruct (add_edges_ok c es Hc Hes) as (c' & E & _). by exists c'.
  - intros orders now Hord. destruct (round_ok c orders now Hc Hord) as (M & n & g & c' & _ & E & _). by exists (told M), c'.
Qed.
End rerouting.
