(* ===== verification/Measure.v ===== *)
(** * The supervisor's measurements ([supervisor/measure/])

    Four quantities, each with a module for relayed and one for brokered
    transactions: throughput, confirmation latency, the ratio of transactions between
    shards, and their number.  The records are binary64 numbers per epoch.

    Proved here: on reports with valid epochs no module panics, and while fewer than
    2^52 transactions are counted the sums of halves are exact, so that the recorded
    numbers are the numbers of transactions. *)

From stdpp Require Import base gmap strings list.
From Stdlib Require Import ZArith Lia SpecFloat.
From S2P Require Import Prelude Database Core Chain Message Follower Pbft Partition Committee.

Local Open Scope Z_scope.

Definition f_add : float64 -> float64 -> float64 := SFadd 53 1024.
Definition f0 : float64 := S754_zero false.
Definition f_half : float64 := f_div (f_of_int 1) (f_of_int 2).

(** [Duration.Seconds]. *)
Definition Seconds (d : Z) : float64 := f_add (f_of_int (Z.quot d Second)) (f_div (f_of_int (Z.rem d Second)) (f_of_int Second)).
(** [t.Sub(u)] saturates like [time.Since]. *)
Definition Sub (t u : time) : Z := Since t u.

(** [l[i] += x]. *)
Definition fadd_at (l : list float64) (i : Z) (x : float64) : outcome (list float64) :=
  v ← at_ l i; Ret (<[Z.to_nat i := f_add v x]> l).
(** [l[i] = x]. *)
Definition set_at {A} (l : list A) (i : Z) (x : A) : outcome (list A) := _ ← at_ l i; Ret (<[Z.to_nat i := x]> l).

(** The loop that appends an entry per epoch until [epochID] is the reported one. *)
Definition extend {A} (epochID epochid : Z) (d : A) (l : list A) : list A := l ++ replicate (Z.to_nat (epochid - epochID)) d.
Definition extend_id (epochID epochid : Z) : Z := Z.max epochID epochid.

(** ** Ratio of transactions between shards *)

Record TestCrossTxRate_Relay := mkCTR {
  ctr_epochID : Z;
  totTxNum : list float64;
  totCrossTxNum : list float64;
  relayTxRecord : gset (list Z);
}.
Definition NewTestCrossTxRate_Relay : TestCrossTxRate_Relay := mkCTR (-1) [] [] ∅.

Definition ctr_relay1 (epochid : Z) (st : list float64 * list float64 * gset (list Z)) (r1tx : Transaction)
  : outcome (list float64 * list float64 * gset (list Z)) :=
  let '(tot, cross, rec) := st in
  cross ← fadd_at cross epochid f_half;
  tot ← fadd_at tot epochid f_half;
  Ret (tot, cross, {[TxHash r1tx]} ∪ rec).
Definition ctr_executed (epochid : Z) (rec : gset (list Z)) (st : list float64 * list float64) (tx : Transaction)
  : outcome (list float64 * list float64) :=
  let '(tot, cross) := st in
  if bool_decide (TxHash tx ∈ rec) then
    tot ← fadd_at tot epochid f_half; cross ← fadd_at cross epochid f_half; Ret (tot, cross)
  else tot ← fadd_at tot epochid (f_of_int 1); Ret (tot, cross).
Definition ctr_Update (t : TestCrossTxRate_Relay) (b : BlockInfoMsg) : outcome TestCrossTxRate_Relay :=
  if BlockBodyLength b =? 0 then Ret t
  else
    let e := bi_Epoch b in
    '(tot, cross, rec) ← ofold (ctr_relay1 e)
        (extend (ctr_epochID t) e f0 (totTxNum t), extend (ctr_epochID t) e f0 (totCrossTxNum t), relayTxRecord t) (Relay1Txs b);
    '(tot, cross) ← ofold (ctr_executed e rec) (tot, cross) (ExcutedTxs b);
    Ret (mkCTR (extend_id (ctr_epochID t) e) tot cross rec).

(** The loop of the outputs over one record, the other read at the same index: a
    quotient per epoch and both sums. *)
Fixpoint output_loop (q : float64 -> float64 -> float64) (main other : list float64) (sm so : float64)
  : outcome (list float64 * float64 * float64) :=
  match main with
  | [] => Ret ([], sm, so)
  | x :: main =>
      y ← of_option (head other);
      '(rest, sm, so) ← output_loop q main (tail other) (f_add sm x) (f_add so y);
      Ret (q x y :: rest, sm, so)
  end.
Definition ctr_Output (t : TestCrossTxRate_Relay) : outcome (list float64 * float64) :=
  '(per, tot, ctx) ← output_loop (fun tot ctx => f_div ctx tot) (totTxNum t) (totCrossTxNum t) f0 f0;
  Ret (per ++ [tot; ctx], f_div ctx tot).

Record TestCrossTxRate_Broker := mkCTB {
  ctb_epochID : Z;
  ctb_totTxNum : list float64;
  ctb_totCrossTxNum : list float64;
  b2num : Z;
  b1num : Z;
}.
Definition NewTestCrossTxRate_Broker : TestCrossTxRate_Broker := mkCTB (-1) [] [] 0 0.

(** Half the halves of brokered transfers in a block. *)
Definition broker_halves (b : BlockInfoMsg) : float64 :=
  f_div (f_add (f_of_int (Broker1TxNum b)) (f_of_int (Broker2TxNum b))) (f_of_int 2).
Definition ctb_Update (t : TestCrossTxRate_Broker) (b : BlockInfoMsg) : outcome TestCrossTxRate_Broker :=
  if BlockBodyLength b =? 0 then Ret t
  else
    let e := bi_Epoch b in
    cross ← fadd_at (extend (ctb_epochID t) e f0 (ctb_totCrossTxNum t)) e (broker_halves b);
    tot ← fadd_at (extend (ctb_epochID t) e f0 (ctb_totTxNum t)) e
            (f_add (f_of_int (Z.of_nat (length (ExcutedTxs b)))) (broker_halves b));
    Ret (mkCTB (extend_id (ctb_epochID t) e) tot cross (i64 (b2num t + i64 (Broker2TxNum b))) (i64 (b1num t + i64 (Broker1TxNum b)))).
Definition ctb_Output (t : TestCrossTxRate_Broker) : outcome (list float64 * float64) :=
  '(per, tot, ctx) ← output_loop (fun tot ctx => f_div ctx tot) (ctb_totTxNum t) (ctb_totCrossTxNum t) f0 f0;
  Ret (per ++ [tot; ctx], f_div ctx tot).

(** ** Confirmation latency *)

Record TestModule_TCL_Relay := mkTCL { tcl_epochID : Z; totTxLatencyEpoch : list float64; tcl_txNum : list float64 }.
Definition NewTestModule_TCL_Relay : TestModule_TCL_Relay := mkTCL (-1) [] [].

Definition tcl_executed (epochid : Z) (mTime : time) (st : list float64 * list float64) (tx : Transaction)
  : outcome (list float64 * list float64) :=
  let '(lat, num) := st in
  if IsZero (Time tx) then Ret st
  else lat ← fadd_at lat epochid (Seconds (Sub mTime (Time tx))); num ← fadd_at num epochid (f_of_int 1); Ret (lat, num).
Definition tcl_Update (t : TestModule_TCL_Relay) (b : BlockInfoMsg) : outcome TestModule_TCL_Relay :=
  if BlockBodyLength b =? 0 then Ret t
  else
    let e := bi_Epoch b in
    '(lat, num) ← ofold (tcl_executed e (CommitTime b))
        (extend (tcl_epochID t) e f0 (totTxLatencyEpoch t), extend (tcl_epochID t) e f0 (tcl_txNum t)) (ExcutedTxs b);
    Ret (mkTCL (extend_id (tcl_epochID t) e) lat num).
Definition tcl_Output (t : TestModule_TCL_Relay) : outcome (list float64 * float64) :=
  '(per, lat, num) ← output_loop f_div (totTxLatencyEpoch t) (tcl_txNum t) f0 f0; Ret (per, f_div lat num).

Record TestModule_TCL_Broker := mkTCLB {
  tclb_epochID : Z;
  tclb_totTxLatencyEpoch : list float64;
  tclb_txNum : list float64;
  brokerTxMap : gmap (list Z) time;
}.
Definition NewTestModule_TCL_Broker : TestModule_TCL_Broker := mkTCLB (-1) [] [] ∅.

(** The second half of a transfer adds its latency but is not counted. *)
Definition tclb_second (epochid : Z) (ptime : time) (m : gmap (list Z) time) (lat : list float64) (b2tx : Transaction)
  : outcome (list float64) :=
  match m !! RawTxHash b2tx with
  | Some t => fadd_at lat epochid (Seconds (Sub ptime t))
  | None => Ret lat
  end.
Definition tclb_Update (t : TestModule_TCL_Broker) (b : BlockInfoMsg) : outcome TestModule_TCL_Broker :=
  if BlockBodyLength b =? 0 then Ret t
  else
    let e := bi_Epoch b in
    '(lat, num) ← ofold (tcl_executed e (CommitTime b))
        (extend (tclb_epochID t) e f0 (tclb_totTxLatencyEpoch t), extend (tclb_epochID t) e f0 (tclb_txNum t)) (ExcutedTxs b);
    let m := foldl (fun m b1tx => <[RawTxHash b1tx := Time b1tx]> m) (brokerTxMap t) (Broker1Txs b) in
    lat ← ofold (tclb_second e (ProposeTime b) m) lat (Broker2Txs b);
    Ret (mkTCLB (extend_id (tclb_epochID t) e) lat num m).
Definition tclb_Output (t : TestModule_TCL_Broker) : outcome (list float64 * float64) :=
  '(per, lat, num) ← output_loop f_div (tclb_totTxLatencyEpoch t) (tclb_txNum t) f0 f0; Ret (per, f_div lat num).

(** ** Number of transactions *)

(** Both modules keep the same record. *)
Record TestTxNumCount := mkTNC { tnc_epochID : Z; tnc_txNum : list float64 }.
Definition NewTestTxNumCount : TestTxNumCount := mkTNC (-1) [].

Definition tnc_count (t : TestTxNumCount) (e : Z) (n : float64) : outcome TestTxNumCount :=
  num ← fadd_at (extend (tnc_epochID t) e f0 (tnc_txNum t)) e n; Ret (mkTNC (extend_id (tnc_epochID t) e) num).
Definition tnc_Update_Relay (t : TestTxNumCount) (b : BlockInfoMsg) : outcome TestTxNumCount :=
  if BlockBodyLength b =? 0 then Ret t else tnc_count t (bi_Epoch b) (f_of_int (Z.of_nat (length (ExcutedTxs b)))).
Definition tnc_Update_Broker (t : TestTxNumCount) (b : BlockInfoMsg) : outcome TestTxNumCount :=
  if BlockBodyLength b =? 0 then Ret t
  else tnc_count t (bi_Epoch b) (f_add (f_of_int (Z.of_nat (length (ExcutedTxs b)))) (broker_halves b)).
Definition tnc_Output (t : TestTxNumCount) : list float64 * float64 := (tnc_txNum t, foldl f_add f0 (tnc_txNum t)).

(** ** Throughput *)

(** [relayTx] is used by the module for relayed transactions only. *)
Record TestModule_avgTPS := mkTPS {
  tps_epochID : Z;
  excutedTxNum : list float64;
  relayTx : gset (list Z);
  startTime : list time;
  endTime : list time;
}.
Definition NewTestModule_avgTPS : TestModule_avgTPS := mkTPS (-1) [] ∅ [] [].

(** The earliest proposal and the latest commit of the epoch. *)
Definition tps_times (t : TestModule_avgTPS) (b : BlockInfoMsg) : outcome (list time * list time) :=
  let e := bi_Epoch b in
  let starts := extend (tps_epochID t) e 0 (startTime t) in
  let ends := extend (tps_epochID t) e 0 (endTime t) in
  st ← at_ starts e;
  starts ← (if IsZero st || (ProposeTime b <? st) then set_at starts e (ProposeTime b) else Ret starts);
  en ← at_ ends e;
  ends ← (if IsZero en || (en <? CommitTime b) then set_at ends e (CommitTime b) else Ret ends);
  Ret (starts, ends).

Definition tps_executed (e : Z) (rec : gset (list Z)) (num : list float64) (tx : Transaction) : outcome (list float64) :=
  fadd_at num e (if bool_decide (TxHash tx ∈ rec) then f_half else f_of_int 1).
Definition tps_Update_Relay (t : TestModule_avgTPS) (b : BlockInfoMsg) : outcome TestModule_avgTPS :=
  if BlockBodyLength b =? 0 then Ret t
  else
    let e := bi_Epoch b in
    let rec := list_to_set (TxHash <$> Relay1Txs b) ∪ relayTx t in
    num ← fadd_at (extend (tps_epochID t) e f0 (excutedTxNum t)) e (f_div (f_of_int (Relay1TxNum b)) (f_of_int 2));
    num ← ofold (tps_executed e rec) num (ExcutedTxs b);
    '(starts, ends) ← tps_times t b;
    Ret (mkTPS (extend_id (tps_epochID t) e) num rec starts ends).
Definition tps_Update_Broker (t : TestModule_avgTPS) (b : BlockInfoMsg) : outcome TestModule_avgTPS :=
  if BlockBodyLength b =? 0 then Ret t
  else
    let e := bi_Epoch b in
    num ← fadd_at (extend (tps_epochID t) e f0 (excutedTxNum t)) e
            (f_add (f_of_int (Z.of_nat (length (ExcutedTxs b)))) (broker_halves b));
    '(starts, ends) ← tps_times t b;
    Ret (mkTPS (extend_id (tps_epochID t) e) num (relayTx t) starts ends).

(** The loop of the output at epoch [eid]; [e] and [l] are the earliest and the latest
    time so far. *)
Fixpoint tps_loop (t : TestModule_avgTPS) (eid : Z) (nums : list float64) (per : list float64) (tot : float64) (e l : time)
  : outcome (list float64 * float64 * time * time) :=
  match nums with
  | [] => Ret (per, tot, e, l)
  | n :: nums =>
      st ← at_ (startTime t) eid;
      en ← at_ (endTime t) eid;
      per ← set_at per eid (f_div n (Seconds (Sub en st)));
      tps_loop t (eid + 1) nums per (f_add tot n) (if st <? e then st else e) (if l <? en then en else l)
  end.
Definition tps_Output (t : TestModule_avgTPS) (now : time) : outcome (list float64 * float64) :=
  if tps_epochID t + 1 <? 0 then Panic
  else
    '(per, tot, e, l) ← tps_loop t 0 (excutedTxNum t) (replicate (Z.to_nat (tps_epochID t + 1)) f0) f0 now 0;
    Ret (per, f_div tot (Seconds (Sub l e))).

(** ** The modules behind their interface *)

Inductive MeasureModule :=
| TPS_Relay (t : TestModule_avgTPS)
| TPS_Broker (t : TestModule_avgTPS)
| TCL_Relay (t : TestModule_TCL_Relay)
| TCL_Broker (t : TestModule_TCL_Broker)
| CrossTxRate_Relay (t : TestCrossTxRate_Relay)
| CrossTxRate_Broker (t : TestCrossTxRate_Broker)
| TxNumberCount_Relay (t : TestTxNumCount)
| TxNumberCount_Broker (t : TestTxNumCount).

Definition UpdateMeasureRecord (m : MeasureModule) (b : BlockInfoMsg) : outcome MeasureModule :=
  match m with
  | TPS_Relay t => TPS_Relay <$> tps_Update_Relay t b
  | TPS_Broker t => TPS_Broker <$> tps_Update_Broker t b
  | TCL_Relay t => TCL_Relay <$> tcl_Update t b
  | TCL_Broker t => TCL_Broker <$> tclb_Update t b
  | CrossTxRate_Relay t => CrossTxRate_Relay <$> ctr_Update t b
  | CrossTxRate_Broker t => CrossTxRate_Broker <$> ctb_Update t b
  | TxNumberCount_Relay t => TxNumberCount_Relay <$> tnc_Update_Relay t b
  | TxNumberCount_Broker t => TxNumberCount_Broker <$> tnc_Update_Broker t b
  end.

Definition OutputMetricName (m : MeasureModule) : string :=
  match m with
  | TPS_Relay _ | TPS_Broker _ => "Average_TPS"
  | TCL_Relay _ | TCL_Broker _ => "Transaction_Confirm_Latency"
  | CrossTxRate_Relay _ | CrossTxRate_Broker _ => "CrossTransaction_ratio"
  | TxNumberCount_Relay _ | TxNumberCount_Broker _ => "Tx_number"
  end.

Definition OutputRecord (m : MeasureModule) (now : time) : outcome (list float64 * float64) :=
  match m with
  | TPS_Relay t | TPS_Broker t => tps_Output t now
  | TCL_Relay t => tcl_Output t
  | TCL_Broker t => tclb_Output t
  | CrossTxRate_Relay t => ctr_Output t
  | CrossTxRate_Broker t => ctb_Output t
  | TxNumberCount_Relay t | TxNumberCount_Broker t => Ret (tnc_Output t)
  end.

(** The module of a name; another name gives none. *)
Definition measure_of (name : string) : list MeasureModule :=
  if bool_decide (name = "TPS_Relay"%string) then [TPS_Relay NewTestModule_avgTPS]
  else if bool_decide (name = "TPS_Broker"%string) then [TPS_Broker NewTestModule_avgTPS]
  else if bool_decide (name = "TCL_Relay"%string) then [TCL_Relay NewTestModule_TCL_Relay]
  else if bool_decide (name = "TCL_Broker"%string) then [TCL_Broker NewTestModule_TCL_Broker]
  else if bool_decide (name = "CrossTxRate_Relay"%string) then [CrossTxRate_Relay NewTestCrossTxRate_Relay]
  else if bool_decide (name = "CrossTxRate_Broker"%string) then [CrossTxRate_Broker NewTestCrossTxRate_Broker]
  else if bool_decide (name = "TxNumberCount_Relay"%string) then [TxNumberCount_Relay NewTestTxNumCount]
  else if bool_decide (name = "TxNumberCount_Broker"%string) then [TxNumberCount_Broker NewTestTxNumCount]
  else [].

(** ** Exact sums *)

Lemma digits_log2 p : Z.pos (digits2_pos p) = Z.log2 (Z.pos p) + 1.
Proof.
  induction p as [p IH|p IH|]; cbn [digits2_pos]; rewrite ?Pos2Z.inj_succ, ?IH; [| |done].
  - rewrite Pos2Z.inj_xI, Z.log2_succ_double by lia. lia.
  - rewrite Pos2Z.inj_xO, Z.log2_double by lia. lia.
Qed.

Lemma iter_pos_nat {A} (f : A -> A) n : forall x, iter_pos f n x = Nat.iter (Pos.to_nat n) f x.
Proof.
  induction n as [n IH|n IH|]; intros x; cbn [iter_pos].
  - rewrite !IH, Pos2Nat.inj_xI, Nat.iter_succ_r, <- Nat.iter_add. f_equal. lia.
  - rewrite !IH, Pos2Nat.inj_xO, <- Nat.iter_add. f_equal. lia.
  - done.
Qed.

Lemma shr_exact M n : 0 < M -> Nat.iter n shr_1 (Build_shr_record (M * 2 ^ Z.of_nat n) false false) = Build_shr_record M false false.
Proof.
  intros HM. induction n as [|n IH]; [by rewrite Z.mul_1_r|]. rewrite Nat.iter_succ_r.
  replace (M * 2 ^ Z.of_nat (S n)) with (2 * (M * 2 ^ Z.of_nat n)) by (rewrite Nat2Z.inj_succ, Z.pow_succ_r by lia; lia).
  assert (0 < M * 2 ^ Z.of_nat n) by nia. destruct (M * 2 ^ Z.of_nat n) eqn:E; try lia. exact IH.
Qed.

Lemma shl_pos p d : Z.pos (Pos.iter xO p d) = Z.pos p * 2 ^ Z.pos d.
Proof.
  induction d as [|d IH] using Pos.peano_ind; [cbn; lia|]. rewrite Pos.iter_succ, Pos2Z.inj_xO, IH, Pos2Z.inj_succ, Z.pow_succ_r by lia. lia.
Qed.

(** A mantissa of 53 digits. *)
Definition normal (M : positive) (E : Z) : Prop := 2 ^ 52 <= Z.pos M < 2 ^ 53 /\ -1074 <= E <= 971.

Lemma normal_fexp M E : normal M E -> fexp 53 1024 (Z.pos (digits2_pos M) + E) = E.
Proof.
  intros [HM HE]. rewrite digits_log2, (Z.log2_unique (Z.pos M) 52) by lia. unfold fexp, emin. lia.
Qed.

Lemma round_aux_normal M E : normal M E -> binary_round_aux 53 1024 false (Z.pos M) E loc_Exact = S754_finite false M E.
Proof.
  intros Hn. unfold binary_round_aux, shr_fexp. cbn [Zdigits2 shr_record_of_loc]. rewrite normal_fexp, Z.sub_diag by done.
  cbn [shr loc_of_shr_record round_nearest_even shr_m Zdigits2 shr_record_of_loc]. rewrite normal_fexp, Z.sub_diag by done.
  cbn [shr shr_m]. rewrite (proj2 (Z.leb_le _ _)); [done|]. destruct Hn. lia.
Qed.

(** Rounding a number that has 53 digits is exact. *)
Lemma round_exact p e M E : normal M E -> (E <= e /\ Z.pos p * 2 ^ (e - E) = Z.pos M \/ e < E /\ Z.pos p = Z.pos M * 2 ^ (E - e)) ->
  binary_round 53 1024 false p e = S754_finite false M E.
Proof.
  intros Hn Hp. destruct Hn as [HM HE] eqn:Heq. clear Heq.
  assert (fexp 53 1024 (Z.pos (digits2_pos p) + e) = E) as Hf.
  { rewrite digits_log2. assert (Z.log2 (Z.pos p) + e = 52 + E) as Hl.
    { destruct Hp as [[He Hp]|[He Hp]].
      - assert (Z.log2 (Z.pos M) = Z.log2 (Z.pos p) + (e - E)) as E1 by (rewrite <- Hp, Z.log2_mul_pow2 by lia; lia).
        rewrite (Z.log2_unique (Z.pos M) 52) in E1 by lia. lia.
      - rewrite Hp, Z.log2_mul_pow2, (Z.log2_unique (Z.pos M) 52) by lia. lia. }
    unfold fexp, emin. lia. }
  unfold binary_round. rewrite Hf. unfold shl_align. destruct Hp as [[He Hp]|[He Hp]].
  - destruct (E - e) eqn:Ed; try lia.
    + assert (e = E) as -> by lia. rewrite Z.sub_diag, Z.mul_1_r in Hp. injection Hp as ->. by apply round_aux_normal.
    + assert (Pos.iter xO p p0 = M) as ->; [|by apply round_aux_normal].
      assert (Z.pos (Pos.iter xO p p0) = Z.pos M) as [= ?]; [|done]. rewrite shl_pos, <- Hp. f_equal. f_equal. lia.
  - destruct (E - e) as [|q|q] eqn:Ed; try lia. unfold binary_round_aux, shr_fexp at 1. cbn [Zdigits2 shr_record_of_loc]. rewrite Hf, Ed.
    cbn [shr]. rewrite <- (positive_nat_Z q) in Hp. rewrite iter_pos_nat, Hp, shr_exact by lia.
    replace (e + Z.pos q) with E by lia. cbn [loc_of_shr_record round_nearest_even shr_m].
    unfold shr_fexp. cbn [Zdigits2 shr_record_of_loc]. rewrite normal_fexp, Z.sub_diag by done. cbn [shr shr_m].
    rewrite (proj2 (Z.leb_le _ _)); [done|]. lia.
Qed.

Definition fl (k e : Z) : spec_float := binary_normalize 53 1024 k e false.

(** The normal form of a number of at most 53 digits. *)
Lemma fl_normal k e : 0 < k < 2 ^ 53 -> -1000 <= e <= 900 -> exists M d, normal M (e - d) /\ 0 <= d <= 52 /\
  Z.pos M = k * 2 ^ d /\ fl k e = S754_finite false M (e - d).
Proof.
  intros Hk He. pose proof (Z.log2_spec k ltac:(lia)) as [Hl Hu]. pose proof (Z.log2_nonneg k) as Hn.
  assert (Z.log2 k <= 52) as H52 by (apply Z.lt_succ_r, Z.log2_lt_pow2; lia).
  set (d := 52 - Z.log2 k). assert (0 < k * 2 ^ d) as Hpos by nia.
  destruct (k * 2 ^ d) as [|M|M] eqn:EM; try lia. exists M, d.
  assert (normal M (e - d)) as HM.
  { split; [|lia]. rewrite <- EM. unfold d. split.
    - replace (2 ^ 52) with (2 ^ Z.log2 k * 2 ^ (52 - Z.log2 k)) by (rewrite <- Z.pow_add_r by lia; f_equal; lia). nia.
    - replace (2 ^ 53) with (2 ^ Z.succ (Z.log2 k) * 2 ^ (52 - Z.log2 k)) by (rewrite <- Z.pow_add_r by lia; f_equal; lia). nia. }
  split; [done|]. split; [lia|]. split; [done|]. destruct k as [|k|k]; try lia. apply round_exact; [done|]. left.
  split; [lia|]. rewrite <- EM. f_equal. f_equal. lia.
Qed.

Lemma fl_add k k' e : 0 <= k -> 0 <= k' -> k + k' < 2 ^ 53 -> -1000 <= e <= 900 -> SFadd 53 1024 (fl k e) (fl k' e) = fl (k + k') e.
Proof.
  intros Hk Hk' Hs He. destruct (Z.eqb_spec k 0) as [->|Hk0].
  { cbn [fl binary_normalize]. destruct (Z.eqb_spec k' 0) as [->|Hk0']; [done|].
    destruct (fl_normal k' e) as (M & d & _ & _ & _ & E); [lia|lia|]. unfold fl in E. cbn [Z.add]. unfold fl at 2. cbn. unfold fl. rewrite E. done. }
  destruct (Z.eqb_spec k' 0) as [->|Hk0'].
  { rewrite Z.add_0_r. destruct (fl_normal k e) as (M & d & _ & _ & _ & E); [lia|lia|]. rewrite E. done. }
  destruct (fl_normal k e) as (M & d & HM & Hd & EM & E); [lia|lia|].
  destruct (fl_normal k' e) as (M' & d' & HM' & Hd' & EM' & E'); [lia|lia|].
  destruct (fl_normal (k + k') e) as (N & f & HN & Hf & EN & EE); [lia|lia|]. rewrite E, E', EE. clear E E' EE.
  unfold SFadd. set (ez := Z.min (e - d) (e - d')).
  assert (forall m g, ez <= e - g -> Z.pos (fst (shl_align m (e - g) ez)) = Z.pos m * 2 ^ (e - g - ez)) as Hal.
  { intros m g Hg. unfold shl_align. destruct (ez - (e - g)) eqn:Ed; try lia.
    - replace (e - g - ez) with 0 by lia. cbn. lia.
    - cbn [fst]. rewrite shl_pos. f_equal. f_equal. lia. }
  cbn [cond_Zopp]. rewrite !Hal by lia. rewrite EM, EM'. rewrite <- !Z.mul_assoc, <- !Z.pow_add_r by lia.
  replace (d + (e - d - ez)) with (e - ez) by lia. replace (d' + (e - d' - ez)) with (e - ez) by lia. rewrite <- Z.mul_add_distr_r.
  assert (0 < (k + k') * 2 ^ (e - ez)) as Hpos by nia.
  destruct ((k + k') * 2 ^ (e - ez)) as [|p|p] eqn:Ep; try lia. cbn [binary_normalize]. apply round_exact; [done|].
  rewrite <- Ep, EN. destruct (Z.leb_spec (e - f) ez).
  - left. split; [done|]. rewrite <- Z.mul_assoc, <- Z.pow_add_r by lia. f_equal. f_equal. lia.
  - right. split; [done|]. rewrite <- Z.mul_assoc, <- Z.pow_add_r by lia. f_equal. f_equal. lia.
Qed.

(** ** The records as numbers of halves *)

(** [k] halves. *)
Definition halves_f (k : Z) : float64 := fl k (-1).

(** A record with [n] epochs, each with its number of halves. *)
Definition counts (l : list float64) (n : Z) (f : Z -> Z) : Prop :=
  Z.of_nat (length l) = n /\ forall i, 0 <= i < n -> at_ l i = Ret (halves_f (f i)).

Definition bump (f : Z -> Z) (e k : Z) (i : Z) : Z := if i =? e then f i + k else f i.

Lemma counts_ext l n f g : counts l n f -> (forall i, 0 <= i < n -> f i = g i) -> counts l n g.
Proof. intros [Hl Hi] Hfg. split; [done|]. intros i Hin. by rewrite Hi, Hfg. Qed.

Lemma at_app {A} (l l' : list A) i : 0 <= i < Z.of_nat (length l) -> at_ (l ++ l') i = at_ l i.
Proof. intros Hi. unfold at_. rewrite (proj2 (Z.ltb_ge _ _)) by lia. by rewrite lookup_app_l by lia. Qed.

Lemma counts_extend l n f e : counts l n f -> (forall i, n <= i -> f i = 0) ->
  counts (extend (n - 1) e f0 l) (Z.max n (e + 1)) f.
Proof.
  intros [Hl Hi] Hz. unfold extend. split; [rewrite length_app, length_replicate; lia|]. intros i Hin.
  destruct (Z.ltb_spec i n); [rewrite at_app by lia; apply Hi; lia|]. unfold at_. rewrite (proj2 (Z.ltb_ge _ _)) by lia.
  rewrite lookup_app_r by lia. rewrite lookup_replicate_2 by lia. by rewrite Hz by lia.
Qed.

Lemma counts_add l n f e k : counts l n f -> 0 <= e < n -> 0 <= f e -> 0 <= k -> f e + k < 2 ^ 53 ->
  exists l', fadd_at l e (halves_f k) = Ret l' /\ counts l' n (bump f e k).
Proof.
  intros [Hl Hi] He Hf Hk Hb. unfold fadd_at. rewrite (Hi e He). go_ret. eexists. split; [done|].
  unfold f_add, halves_f. rewrite fl_add by lia. split; [by rewrite length_insert|]. intros i Hin. unfold bump.
  unfold at_ in *. rewrite (proj2 (Z.ltb_ge _ _)) by lia. destruct (Z.eqb_spec i e) as [->|Hne].
  - by rewrite list_lookup_insert_eq by lia.
  - rewrite list_lookup_insert_ne by lia. specialize (Hi i Hin). by rewrite (proj2 (Z.ltb_ge _ _)) in Hi by lia.
Qed.


(** ** The ratio of relayed transactions *)

Section ratio.
Context (e n : Z).
Hypothesis epoch : 0 <= e < n.

Lemma bump_bump f a b i : bump (bump f e a) e b i = bump f e (a + b) i.
Proof. unfold bump. destruct (i =? e); lia. Qed.
Lemma bump_0 f i : bump f e 0 i = f i.
Proof. unfold bump. destruct (i =? e); lia. Qed.

Lemma relay1_loop (l : list Transaction) : forall tot cross rec f g, counts tot n f -> counts cross n g -> 0 <= f e -> 0 <= g e ->
  f e + Z.of_nat (length l) < 2 ^ 53 -> g e + Z.of_nat (length l) < 2 ^ 53 ->
  exists tot' cross', ofold (ctr_relay1 e) (tot, cross, rec) l = Ret (tot', cross', list_to_set (TxHash <$> l) ∪ rec) /\
    counts tot' n (bump f e (Z.of_nat (length l))) /\ counts cross' n (bump g e (Z.of_nat (length l))).
Proof.
  induction l as [|tx l IH]; intros tot cross rec f g Hf Hg Hf0 Hg0 Hfb Hgb; cbn [length] in *.
  { exists tot, cross. split; [cbn; by rewrite (left_id_L ∅ (∪))|]. split; (eapply counts_ext; [done|]); intros i _; by rewrite bump_0. }
  cbn [ofold]. unfold ctr_relay1 at 2. change f_half with (halves_f 1).
  destruct (counts_add cross n g e 1 Hg epoch) as (cross1 & -> & Hc1); [lia..|]. go_ret.
  destruct (counts_add tot n f e 1 Hf epoch) as (tot1 & -> & Ht1); [lia..|]. go_ret.
  destruct (IH tot1 cross1 ({[TxHash tx]} ∪ rec) _ _ Ht1 Hc1) as (tot' & cross' & E & Ht & Hc);
    [unfold bump; rewrite Z.eqb_refl; lia..|].
  exists tot', cross'. rewrite E. split; [do 2 f_equal; cbn; set_solver|].
  split; (eapply counts_ext; [done|]); intros i _; rewrite bump_bump; f_equal; lia.
Qed.

(** How many of some transactions have been relayed. *)
Definition relayed (rec : gset (list Z)) (l : list Transaction) : Z := Z.of_nat (length (filter (fun tx => TxHash tx ∈ rec) l)).

Lemma relayed_cons rec tx l : relayed rec (tx :: l) = (if bool_decide (TxHash tx ∈ rec) then 1 else 0) + relayed rec l.
Proof. unfold relayed. rewrite filter_cons. case_decide; [rewrite bool_decide_true by done|rewrite bool_decide_false by done]; cbn [length]; lia. Qed.
Lemma relayed_le rec l : 0 <= relayed rec l <= Z.of_nat (length l).
Proof. unfold relayed. pose proof (length_filter (fun tx => TxHash tx ∈ rec) l). lia. Qed.

Lemma executed_loop rec (l : list Transaction) : forall tot cross f g, counts tot n f -> counts cross n g -> 0 <= f e -> 0 <= g e ->
  f e + 2 * Z.of_nat (length l) < 2 ^ 53 -> g e + 2 * Z.of_nat (length l) < 2 ^ 53 ->
  exists tot' cross', ofold (ctr_executed e rec) (tot, cross) l = Ret (tot', cross') /\
    counts tot' n (bump f e (2 * Z.of_nat (length l) - relayed rec l)) /\ counts cross' n (bump g e (relayed rec l)).
Proof.
  induction l as [|tx l IH]; intros tot cross f g Hf Hg Hf0 Hg0 Hfb Hgb; cbn [length] in *.
  { exists tot, cross. split; [done|]. split; (eapply counts_ext; [done|]); intros i _; by rewrite bump_0. }
  cbn [ofold]. rewrite relayed_cons. pose proof (relayed_le rec l).
  assert (exists tot1 cross1 h k, ctr_executed e rec (tot, cross) tx = Ret (tot1, cross1) /\ counts tot1 n (bump f e h) /\
    counts cross1 n (bump g e k) /\ k = (if bool_decide (TxHash tx ∈ rec) then 1 else 0) /\ h = 2 - k) as (tot1 & cross1 & h & k & -> & Ht1 & Hc1 & Hk & Hh).
  { unfold ctr_executed. change f_half with (halves_f 1). change (f_of_int 1) with (halves_f 2). case_bool_decide.
    - destruct (counts_add tot n f e 1 Hf epoch) as (tot1 & -> & Ht1); [lia..|]. go_ret.
      destruct (counts_add cross n g e 1 Hg epoch) as (cross1 & -> & Hc1); [lia..|]. go_ret. by exists tot1, cross1, 1, 1.
    - destruct (counts_add tot n f e 2 Hf epoch) as (tot1 & -> & Ht1); [lia..|]. go_ret. exists tot1, cross, 2, 0.
      split; [done|]. split; [done|]. split; [|done]. eapply counts_ext; [done|]. intros i _. by rewrite bump_0. }
  go_ret. assert (0 <= k <= 1) by (destruct (bool_decide _); lia).
  destruct (IH tot1 cross1 _ _ Ht1 Hc1) as (tot' & cross' & E & Ht & Hc); [unfold bump; rewrite Z.eqb_refl; lia..|].
  exists tot', cross'. rewrite E. split; [done|].
  split; (eapply counts_ext; [done|]); intros i _; rewrite bump_bump; f_equal; lia.
Qed.
End ratio.

(** What the reports say: the relayed hashes, the number of epochs, and per epoch the
    halves of all transactions and of those between shards. *)
Record tally := mkTally { ty_rec : gset (list Z); ty_epochs : Z; ty_all : Z -> Z; ty_cross : Z -> Z }.
Definition tally0 : tally := mkTally ∅ 0 (fun _ => 0) (fun _ => 0).
Definition tally_report (y : tally) (b : BlockInfoMsg) : tally :=
  if BlockBodyLength b =? 0 then y
  else
    let rec := list_to_set (TxHash <$> Relay1Txs b) ∪ ty_rec y in
    let firsts := Z.of_nat (length (Relay1Txs b)) in
    let seconds := relayed rec (ExcutedTxs b) in
    mkTally rec (Z.max (ty_epochs y) (bi_Epoch b + 1))
      (bump (ty_all y) (bi_Epoch b) (firsts + (2 * Z.of_nat (length (ExcutedTxs b)) - seconds)))
      (bump (ty_cross y) (bi_Epoch b) (firsts + seconds)).

(** Twice the transactions of a report. *)
Definition report_size (b : BlockInfoMsg) : Z := 2 * (Z.of_nat (length (Relay1Txs b)) + Z.of_nat (length (ExcutedTxs b))).
Definition epochs (y : tally) : list Z := Z.of_nat <$> seq 0 (Z.to_nat (ty_epochs y)).

Record tally_inv (t : TestCrossTxRate_Relay) (y : tally) (size : Z) : Prop := {
  ti_epoch : ctr_epochID t = ty_epochs y - 1;
  ti_epochs : 0 <= ty_epochs y;
  ti_rec : relayTxRecord t = ty_rec y;
  ti_tot : counts (totTxNum t) (ty_epochs y) (ty_all y);
  ti_cross : counts (totCrossTxNum t) (ty_epochs y) (ty_cross y);
  ti_zero : forall i, ty_epochs y <= i -> ty_all y i = 0 /\ ty_cross y i = 0;
  ti_nonneg : forall i, 0 <= ty_cross y i <= ty_all y i;
  ti_size : zsum (ty_all y) (epochs y) <= size;
}.

Lemma zsum_epochs n f : zsum f (Z.of_nat <$> seq 0 n) = zsum (fun k => f (Z.of_nat k)) (seq 0 n).
Proof. induction (seq 0 n) as [|k l IH]; [done|]. cbn. f_equal. exact IH. Qed.

Lemma zsum_bump n f e k : 0 <= e < Z.of_nat n -> zsum (bump f e k) (Z.of_nat <$> seq 0 n) = zsum f (Z.of_nat <$> seq 0 n) + k.
Proof.
  intros He. rewrite !zsum_epochs. transitivity (zsum (fun i => f (Z.of_nat i)) (seq 0 n) +
    zsum (fun i => if Z.of_nat i =? e then k else 0) (seq 0 n)); [|by rewrite zsum_pick]. rewrite <- zsum_add. apply zsum_ext. intros i _. unfold bump. destruct (_ =? _); lia.
Qed.

Lemma zsum_more n m f : (n <= m)%nat -> (forall i, Z.of_nat n <= i -> f i = 0) ->
  zsum f (Z.of_nat <$> seq 0 m) = zsum f (Z.of_nat <$> seq 0 n).
Proof.
  intros Hnm Hz. replace m with (n + (m - n))%nat by lia. rewrite seq_app, fmap_app, zsum_app. cbn [Nat.add].
  rewrite (zsum_zero f (Z.of_nat <$> seq n (m - n))); [lia|]. intros x (i & -> & Hi%elem_of_seq)%list_elem_of_fmap. apply Hz. lia.
Qed.

Lemma zsum_le {A} (f g : A -> Z) l : (forall x, f x <= g x) -> zsum f l <= zsum g l.
Proof. intros Hfg. induction l as [|x l IH]; simpl; [lia|]. specialize (Hfg x). lia. Qed.

Lemma zsum_ge n f i : (forall j, 0 <= f j) -> 0 <= i < Z.of_nat n -> f i <= zsum f (Z.of_nat <$> seq 0 n).
Proof.
  intros Hf Hi. assert (zsum (fun k => if Z.of_nat k =? i then f i else 0) (seq 0 n) = f i) as E by (by apply zsum_pick).
  rewrite zsum_epochs, <- E. apply zsum_le. intros k. specialize (Hf (Z.of_nat k)). destruct (Z.eqb_spec (Z.of_nat k) i) as [->|]; lia.
Qed.

Lemma ctr_Update_inv t y size b : tally_inv t y size -> 0 <= bi_Epoch b -> size + report_size b < 2 ^ 53 ->
  exists t', ctr_Update t b = Ret t' /\ tally_inv t' (tally_report y b) (size + report_size b).
Proof.
  intros [He Hn Hr Ht Hc Hz Hnn Hs] Hb Hsz. unfold ctr_Update, tally_report, report_size in *.
  destruct (BlockBodyLength b =? 0); [exists t; split; [done|]; split; try done; lia|].
  set (e := bi_Epoch b) in *. set (n := Z.max (ty_epochs y) (e + 1)).
  assert (ty_all y e <= size) as Hsize.
  { destruct (Z.ltb_spec e (ty_epochs y)).
    - etrans; [|exact Hs]. apply zsum_ge; [intros j; specialize (Hnn j); lia|lia].
    - destruct (Hz e) as [-> _]; [lia|]. etrans; [|exact Hs]. apply zsum_nonneg. intros x. specialize (Hnn x). lia. }
  pose proof (Hnn e) as Hne.
  destruct (relay1_loop e n ltac:(lia) (Relay1Txs b) (extend (ctr_epochID t) e f0 (totTxNum t)) (extend (ctr_epochID t) e f0 (totCrossTxNum t))
              (relayTxRecord t) (ty_all y) (ty_cross y)) as (tot1 & cross1 & E1 & Ht1 & Hc1); [| |lia..|].
  { rewrite He. apply counts_extend; [done|]. intros i Hi. by apply Hz. }
  { rewrite He. apply counts_extend; [done|]. intros i Hi. by apply Hz. }
  rewrite E1. go_ret. cbv beta iota. rewrite Hr. set (rec := _ ∪ ty_rec y). pose proof (relayed_le rec (ExcutedTxs b)) as Hrel.
  destruct (executed_loop e n ltac:(lia) rec (ExcutedTxs b) tot1 cross1 _ _ Ht1 Hc1) as (tot2 & cross2 & E2 & Ht2 & Hc2);
    [unfold bump; rewrite Z.eqb_refl; lia..|].
  rewrite E2. go_ret. cbv beta iota. eexists. split; [done|]. split; cbn [ctr_epochID relayTxRecord totTxNum totCrossTxNum ty_rec ty_epochs ty_all ty_cross].
  - unfold extend_id. lia.
  - lia.
  - done.
  - eapply counts_ext; [exact Ht2|]. intros i _. apply bump_bump.
  - eapply counts_ext; [exact Hc2|]. intros i _. apply bump_bump.
  - intros i Hi. destruct (Hz i) as [Ha Hcr]; [lia|]. unfold bump. rewrite (proj2 (Z.eqb_neq _ _)) by lia. done.
  - intros i. specialize (Hnn i). unfold bump. destruct (i =? e); lia.
  - unfold epochs in *. cbn [ty_epochs]. rewrite zsum_bump by lia. rewrite (zsum_more (Z.to_nat (ty_epochs y))); [lia|lia|].
    intros i Hi. apply Hz. lia.
Qed.

(** The sums of the output. *)
Lemma output_sums q (f g : Z -> Z) : forall ks a b, (forall k, 0 <= f k) -> (forall k, 0 <= g k) -> 0 <= a -> 0 <= b ->
  a + zsum f ks < 2 ^ 53 -> b + zsum g ks < 2 ^ 53 ->
  exists per, output_loop q ((fun k => halves_f (f k)) <$> ks) ((fun k => halves_f (g k)) <$> ks) (halves_f a) (halves_f b) =
    Ret (per, halves_f (a + zsum f ks), halves_f (b + zsum g ks)).
Proof.
  induction ks as [|k ks IH]; intros a b Hf Hg Ha Hb Hfa Hgb.
  { exists []. cbn. by rewrite !Z.add_0_r. }
  simpl in Hfa, Hgb. assert (forall h : Z -> Z, (forall j, 0 <= h j) -> 0 <= zsum h ks) as Hnn.
  { intros h Hh. by apply zsum_nonneg. }
  pose proof (Hnn f Hf). pose proof (Hnn g Hg). pose proof (Hf k). pose proof (Hg k).
  cbn [fmap list_fmap output_loop head tail of_option]. go_ret. unfold f_add, halves_f. rewrite !fl_add by lia.
  destruct (IH (a + f k) (b + g k)) as [per E]; [done|done|lia..|]. unfold halves_f in E. rewrite E. go_ret. cbv beta iota.
  eexists. simpl. by rewrite !Z.add_assoc.
Qed.

Lemma counts_list l n f : counts l n f -> 0 <= n -> l = (fun k => halves_f (f k)) <$> (Z.of_nat <$> seq 0 (Z.to_nat n)).
Proof.
  intros [Hl Hi] Hn. apply list_eq. intros i. rewrite !list_lookup_fmap. destruct (decide (i < length l)%nat) as [Hlt|Hge].
  - rewrite lookup_seq_lt by lia. cbn. specialize (Hi (Z.of_nat i) ltac:(lia)). unfold at_ in Hi.
    rewrite (proj2 (Z.ltb_ge _ _)), Nat2Z.id in Hi by lia. destruct (l !! i); [|done]. cbn in Hi. by injection Hi as ->.
  - rewrite (lookup_ge_None_2 l) by lia. by rewrite lookup_seq_ge by lia.
Qed.

(** C14. The ratio of relayed transactions, for any sequence of block reports with
    valid epochs and fewer than 2^52 transactions: the module does not panic, and its
    floating-point records are exact: per epoch they are the reported first halves and
    executed transactions, a relayed one counting a half each time and any other one a
    whole, and the ratio put out is that of the exact sums. *)
Theorem cross_rate_exact (bs : list BlockInfoMsg) :
  Forall (fun b => 0 <= bi_Epoch b) bs -> zsum report_size bs < 2 ^ 53 ->
  exists t per, ofold ctr_Update NewTestCrossTxRate_Relay bs = Ret t /\
    let y := foldl tally_report tally0 bs in
    counts (totTxNum t) (ty_epochs y) (ty_all y) /\ counts (totCrossTxNum t) (ty_epochs y) (ty_cross y) /\
    ctr_Output t = Ret (per, f_div (halves_f (zsum (ty_cross y) (epochs y))) (halves_f (zsum (ty_all y) (epochs y)))).
Proof.
  intros Hbs Hsz.
  assert (forall t y size, tally_inv t y size -> size + zsum report_size bs < 2 ^ 53 ->
    exists t', ofold ctr_Update t bs = Ret t' /\ tally_inv t' (foldl tally_report y bs) (size + zsum report_size bs)) as Hloop.
  { clear Hsz. induction Hbs as [|b bs Hb _ IH]; intros t y size Hi Hs; [exists t; by rewrite Z.add_0_r|]. simpl in Hs |- *.
    assert (forall l, 0 <= zsum report_size l) as Hnn
      by (intros l; apply zsum_nonneg; intros x; unfold report_size; lia).
    pose proof (Hnn bs). destruct (ctr_Update_inv t y size b Hi Hb) as (t1 & -> & Hi1); [lia|]. go_ret.
    destruct (IH t1 _ _ Hi1) as (t' & E & Hi'); [lia|]. exists t'. split; [done|]. by rewrite Z.add_assoc. }
  destruct (Hloop NewTestCrossTxRate_Relay tally0 0) as (t & E & Hi); [|lia|].
  { split; try done; try (split; [done|intros i Hi; cbn in Hi; lia]). }
  set (y := foldl tally_report tally0 bs) in *. destruct Hi as [He Hn Hr Ht Hc Hz Hnn Hs]. unfold ctr_Output.
  assert (zsum (ty_cross y) (epochs y) <= zsum (ty_all y) (epochs y)) as Hle.
  { apply zsum_le. intros x. specialize (Hnn x). lia. }
  destruct (output_sums (fun tot ctx => f_div ctx tot) (ty_all y) (ty_cross y) (epochs y) 0 0) as [per Ep];
    [intros k; specialize (Hnn k); lia|intros k; specialize (Hnn k); lia|lia..|].
  exists t, (per ++ [halves_f (zsum (ty_all y) (epochs y)); halves_f (zsum (ty_cross y) (epochs y))]). split; [done|]. cbv zeta.
  split; [done|]. split; [done|]. rewrite (counts_list _ _ _ Ht Hn), (counts_list _ _ _ Hc Hn). fold (epochs y).
  change f0 with (halves_f 0). rewrite Ep. go_ret. cbv beta iota. by rewrite !Z.add_0_l.
Qed.

(** ** No module panics *)

(** Lists with one entry per epoch. *)
Definition sized {A} (epochID : Z) (l : list A) : Prop := Z.of_nat (length l) = epochID + 1.

Lemma sized_extend {A} id e (d : A) l : sized id l -> sized (extend_id id e) (extend id e d l).
Proof. unfold sized, extend, extend_id. rewrite length_app, length_replicate. lia. Qed.

Lemma at_sized {A} id (l : list A) i : sized id l -> 0 <= i <= id -> exists x, at_ l i = Ret x.
Proof.
  unfold sized. intros Hl Hi. unfold at_. rewrite (proj2 (Z.ltb_ge _ _)) by lia.
  destruct (lookup_lt_is_Some_2 l (Z.to_nat i)) as [x ->]; [lia|]. by exists x.
Qed.

Lemma fadd_sized id l i x : sized id l -> 0 <= i <= id -> exists l', fadd_at l i x = Ret l' /\ sized id l'.
Proof.
  intros Hl Hi. unfold fadd_at. destruct (at_sized id l i Hl Hi) as [v ->]. go_ret. eexists. split; [done|].
  unfold sized. by rewrite length_insert.
Qed.

Lemma set_sized {A} id (l : list A) i x : sized id l -> 0 <= i <= id -> exists l', set_at l i x = Ret l' /\ sized id l'.
Proof.
  intros Hl Hi. unfold set_at. destruct (at_sized id l i Hl Hi) as [v ->]. go_ret. eexists. split; [done|].
  unfold sized. by rewrite length_insert.
Qed.

Lemma ofold_total {S B} (step : S -> B -> outcome S) (good : S -> Prop) (l : list B) :
  (forall s x, good s -> exists s', step s x = Ret s' /\ good s') -> forall s, good s -> exists s', ofold step s l = Ret s' /\ good s'.
Proof.
  intros Hstep. induction l as [|x l IH]; intros s Hs; [by exists s|]. cbn [ofold].
  destruct (Hstep s x Hs) as (s1 & -> & Hs1). go_ret. by apply IH.
Qed.

Definition two_sized (id : Z) (st : list float64 * list float64) : Prop := sized id st.1 /\ sized id st.2.

(** The records of a module have one entry per epoch. *)
Definition measure_wf (m : MeasureModule) : Prop :=
  match m with
  | TPS_Relay t | TPS_Broker t => sized (tps_epochID t) (excutedTxNum t) /\ sized (tps_epochID t) (startTime t) /\ sized (tps_epochID t) (endTime t)
  | TCL_Relay t => two_sized (tcl_epochID t) (totTxLatencyEpoch t, tcl_txNum t)
  | TCL_Broker t => two_sized (tclb_epochID t) (tclb_totTxLatencyEpoch t, tclb_txNum t)
  | CrossTxRate_Relay t => two_sized (ctr_epochID t) (totTxNum t, totCrossTxNum t)
  | CrossTxRate_Broker t => two_sized (ctb_epochID t) (ctb_totTxNum t, ctb_totCrossTxNum t)
  | TxNumberCount_Relay t | TxNumberCount_Broker t => sized (tnc_epochID t) (tnc_txNum t)
  end.

Lemma tps_times_total t b : sized (tps_epochID t) (startTime t) -> sized (tps_epochID t) (endTime t) -> 0 <= bi_Epoch b ->
  exists st en, tps_times t b = Ret (st, en) /\ sized (extend_id (tps_epochID t) (bi_Epoch b)) st /\
    sized (extend_id (tps_epochID t) (bi_Epoch b)) en.
Proof.
  intros Hs He Hb. assert (0 <= bi_Epoch b <= extend_id (tps_epochID t) (bi_Epoch b)) as Hr by (unfold extend_id; lia).
  pose proof (sized_extend _ (bi_Epoch b) 0 _ Hs) as Hs'. pose proof (sized_extend _ (bi_Epoch b) 0 _ He) as He'.
  unfold tps_times. destruct (at_sized _ _ _ Hs' Hr) as [st ->]. go_ret.
  assert (exists l, (if IsZero st || (ProposeTime b <? st) then set_at (extend (tps_epochID t) (bi_Epoch b) 0 (startTime t)) (bi_Epoch b) (ProposeTime b)
    else Ret (extend (tps_epochID t) (bi_Epoch b) 0 (startTime t))) = Ret l /\ sized (extend_id (tps_epochID t) (bi_Epoch b)) l) as (l & -> & Hl)
    by (destruct (_ || _); [by apply set_sized|by eexists]). go_ret.
  destruct (at_sized _ _ _ He' Hr) as [en ->]. go_ret.
  assert (exists l, (if IsZero en || (en <? CommitTime b) then set_at (extend (tps_epochID t) (bi_Epoch b) 0 (endTime t)) (bi_Epoch b) (CommitTime b)
    else Ret (extend (tps_epochID t) (bi_Epoch b) 0 (endTime t))) = Ret l /\ sized (extend_id (tps_epochID t) (bi_Epoch b)) l) as (l' & -> & Hl')
    by (destruct (_ || _); [by apply set_sized|by eexists]). go_ret. by exists l, l'.
Qed.

Lemma two_steps id (e : Z) (st : list float64 * list float64) x y : 0 <= e <= id -> two_sized id st ->
  exists l l', fadd_at st.1 e x = Ret l /\ fadd_at st.2 e y = Ret l' /\ sized id l /\ sized id l'.
Proof.
  intros He [H1 H2]. destruct (fadd_sized id st.1 e x H1 He) as (l & E & Hl), (fadd_sized id st.2 e y H2 He) as (l' & E' & Hl').
  by exists l, l'.
Qed.

Lemma tcl_loop_total id e ct txs st : 0 <= e <= id -> two_sized id st ->
  exists st', ofold (tcl_executed e ct) st txs = Ret st' /\ two_sized id st'.
Proof.
  intros He. apply ofold_total. intros [lat num] tx Hs. unfold tcl_executed. destruct (IsZero (Time tx)); [by exists (lat, num)|].
  destruct (two_steps id e (lat, num) (Seconds (Sub ct (Time tx))) (f_of_int 1) He Hs) as (l & l' & E & E' & Hl & Hl'). cbn [fst snd] in E, E'.
  rewrite E. go_ret. rewrite E'. go_ret. by exists (l, l').
Qed.


(** The first loop of the goal returns, by a lemma on its list and start, or by an
    invariant of its steps. *)
Tactic Notation "run_loop" uconstr(L) "as" simple_intropattern(p) :=
  match goal with |- context [ofold _ ?st ?l] => destruct (L l st) as p end.
Tactic Notation "run_fold" constr(good) "as" simple_intropattern(p) :=
  match goal with |- context [ofold ?f ?st ?l] => destruct (ofold_total f good l) with (s := st) as p end.

(** One report, module by module. *)
Section report.
Context (b : BlockInfoMsg).
Hypothesis epoch_ok : 0 <= bi_Epoch b.
Abbreviation e := (bi_Epoch b).

Lemma in_epoch id : 0 <= e <= extend_id id e.
Proof. unfold extend_id. lia. Qed.

Lemma tps_relay_total t : measure_wf (TPS_Relay t) -> exists t', tps_Update_Relay t b = Ret t' /\ measure_wf (TPS_Relay t').
Proof.
  intros (Hx & Hs & Hn). unfold tps_Update_Relay. destruct (BlockBodyLength b =? 0); [by exists t|].
  destruct (fadd_sized _ _ e (f_div (f_of_int (Relay1TxNum b)) (f_of_int 2)) (sized_extend _ e f0 _ Hx) (in_epoch _)) as (l & -> & Hl). go_ret.
  run_fold (sized (extend_id (tps_epochID t) e) : list float64 -> Prop) as (l' & -> & Hl'); [|done|].
  { intros s tx Hs'. apply fadd_sized; [done|apply in_epoch]. }
  go_ret. destruct (tps_times_total t b Hs Hn epoch_ok) as (st & en & -> & Hst & Hen). go_ret. by eexists.
Qed.

Lemma tps_broker_total t : measure_wf (TPS_Broker t) -> exists t', tps_Update_Broker t b = Ret t' /\ measure_wf (TPS_Broker t').
Proof.
  intros (Hx & Hs & Hn). unfold tps_Update_Broker. destruct (BlockBodyLength b =? 0); [by exists t|].
  destruct (fadd_sized _ _ e (f_add (f_of_int (Z.of_nat (length (ExcutedTxs b)))) (broker_halves b)) (sized_extend _ e f0 _ Hx) (in_epoch _)) as (l & -> & Hl).
  go_ret. destruct (tps_times_total t b Hs Hn epoch_ok) as (st & en & -> & Hst & Hen). go_ret. by eexists.
Qed.

Lemma tcl_total t : measure_wf (TCL_Relay t) -> exists t', tcl_Update t b = Ret t' /\ measure_wf (TCL_Relay t').
Proof.
  intros [Hl Hn]. unfold tcl_Update. destruct (BlockBodyLength b =? 0); [by exists t|].
  run_loop (tcl_loop_total (extend_id (tcl_epochID t) e) e (CommitTime b)) as ([l l'] & -> & Hll);
    [apply in_epoch|split; by apply sized_extend|]. go_ret. by eexists.
Qed.

Lemma tclb_total t : measure_wf (TCL_Broker t) -> exists t', tclb_Update t b = Ret t' /\ measure_wf (TCL_Broker t').
Proof.
  intros [Hl Hn]. unfold tclb_Update. destruct (BlockBodyLength b =? 0); [by exists t|].
  run_loop (tcl_loop_total (extend_id (tclb_epochID t) e) e (CommitTime b)) as ([l l'] & -> & [Hl1 Hl2]);
    [apply in_epoch|split; by apply sized_extend|]. go_ret. cbv beta iota.
  run_fold (sized (extend_id (tclb_epochID t) e) : list float64 -> Prop) as (l2 & -> & Hl3); [|exact Hl1|go_ret; by eexists].
  intros s tx Hs. unfold tclb_second. destruct (_ !! _); [|by exists s]. apply fadd_sized; [done|apply in_epoch].
Qed.

Lemma ctr_total t : measure_wf (CrossTxRate_Relay t) -> exists t', ctr_Update t b = Ret t' /\ measure_wf (CrossTxRate_Relay t').
Proof.
  intros [Ht Hc]. unfold ctr_Update. destruct (BlockBodyLength b =? 0); [by exists t|].
  run_fold (fun st : list float64 * list float64 * gset (list Z) => two_sized (extend_id (ctr_epochID t) e) st.1)
    as ([[l l'] rec] & -> & Hl); [|split; by apply sized_extend|go_ret; cbv beta iota].
  { intros [[tot cross] rec] tx [Ht' Hc']. unfold ctr_relay1.
    destruct (fadd_sized _ cross e f_half Hc' (in_epoch _)) as (l & -> & Hl). go_ret.
    destruct (fadd_sized _ tot e f_half Ht' (in_epoch _)) as (l' & -> & Hl'). go_ret. by eexists. }
  run_fold (two_sized (extend_id (ctr_epochID t) e)) as ([l2 l2'] & -> & Hl2); [|exact Hl|go_ret; by eexists].
  intros [tot cross] tx [Ht' Hc']. unfold ctr_executed. destruct (bool_decide _).
  - destruct (fadd_sized _ tot e f_half Ht' (in_epoch _)) as (m & -> & Hm). go_ret.
    destruct (fadd_sized _ cross e f_half Hc' (in_epoch _)) as (m' & -> & Hm'). go_ret. by eexists.
  - destruct (fadd_sized _ tot e (f_of_int 1) Ht' (in_epoch _)) as (m & -> & Hm). go_ret. by eexists.
Qed.

Lemma ctb_total t : measure_wf (CrossTxRate_Broker t) -> exists t', ctb_Update t b = Ret t' /\ measure_wf (CrossTxRate_Broker t').
Proof.
  intros [Ht Hc]. cbn [fst snd] in Ht, Hc. unfold ctb_Update. destruct (BlockBodyLength b =? 0); [by exists t|].
  destruct (fadd_sized _ _ e (broker_halves b) (sized_extend _ e f0 _ Hc) (in_epoch _)) as (l & -> & Hl). go_ret.
  destruct (fadd_sized _ _ e (f_add (f_of_int (Z.of_nat (length (ExcutedTxs b)))) (broker_halves b)) (sized_extend _ e f0 _ Ht) (in_epoch _)) as (l' & -> & Hl').
  go_ret. by eexists.
Qed.

Lemma tnc_total t x : sized (tnc_epochID t) (tnc_txNum t) -> exists t', tnc_count t e x = Ret t' /\ sized (tnc_epochID t') (tnc_txNum t').
Proof.
  intros Ht. unfold tnc_count. destruct (fadd_sized _ _ e x (sized_extend _ e f0 _ Ht) (in_epoch _)) as (l & -> & Hl). go_ret. by eexists.
Qed.

Lemma measure_update m : measure_wf m -> exists m', UpdateMeasureRecord m b = Ret m' /\ measure_wf m'.
Proof.
  intros Hm. destruct m as [t|t|t|t|t|t|t|t]; cbn [UpdateMeasureRecord].
  - destruct (tps_relay_total t Hm) as (t' & -> & Ht). by exists (TPS_Relay t').
  - destruct (tps_broker_total t Hm) as (t' & -> & Ht). by exists (TPS_Broker t').
  - destruct (tcl_total t Hm) as (t' & -> & Ht). by exists (TCL_Relay t').
  - destruct (tclb_total t Hm) as (t' & -> & Ht). by exists (TCL_Broker t').
  - destruct (ctr_total t Hm) as (t' & -> & Ht). by exists (CrossTxRate_Relay t').
  - destruct (ctb_total t Hm) as (t' & -> & Ht). by exists (CrossTxRate_Broker t').
  - unfold tnc_Update_Relay. destruct (BlockBodyLength b =? 0); [by exists (TxNumberCount_Relay t)|].
    edestruct (tnc_total t) as (t' & -> & Ht); [exact Hm|]. by exists (TxNumberCount_Relay t').
  - unfold tnc_Update_Broker. destruct (BlockBodyLength b =? 0); [by exists (TxNumberCount_Broker t)|].
    edestruct (tnc_total t) as (t' & -> & Ht); [exact Hm|]. by exists (TxNumberCount_Broker t').
Qed.
End report.

(** ** Outputs *)

Lemma output_total q main : forall other sm so, length main = length other ->
  exists per s s', output_loop q main other sm so = Ret (per, s, s') /\ length per = length main.
Proof.
  induction main as [|x main IH]; intros [|y other] sm so Hl; try done; [by exists [], sm, so|].
  cbn [output_loop head tail of_option]. go_ret. injection Hl as Hl.
  destruct (IH other (f_add sm x) (f_add so y) Hl) as (per & s & s' & -> & Hp). go_ret. cbv beta iota.
  exists (q x y :: per), s, s'. split; [done|]. cbn. by rewrite Hp.
Qed.

Lemma tps_loop_total t id nums : sized id (startTime t) -> sized id (endTime t) -> forall eid per tot e l,
  sized id per -> 0 <= eid -> eid + Z.of_nat (length nums) <= id + 1 ->
  exists per' tot' e' l', tps_loop t eid nums per tot e l = Ret (per', tot', e', l').
Proof.
  intros Hs He. induction nums as [|n nums IH]; intros eid per tot e l Hp Hi Hl; cbn [length] in Hl.
  { by exists per, tot, e, l. }
  cbn [tps_loop]. destruct (at_sized id _ eid Hs) as [st ->]; [lia|]. go_ret.
  destruct (at_sized id _ eid He) as [en ->]; [lia|]. go_ret.
  destruct (set_sized id per eid (f_div n (Seconds (Sub en st))) Hp) as (per' & -> & Hp'); [lia|]. go_ret.
  apply IH; [done|lia|lia].
Qed.

Lemma measure_output m now : measure_wf m -> exists r, OutputRecord m now = Ret r.
Proof.
  assert (forall t, sized (tps_epochID t) (excutedTxNum t) /\ sized (tps_epochID t) (startTime t) /\ sized (tps_epochID t) (endTime t) ->
    exists r, tps_Output t now = Ret r) as Htps.
  { intros t (Hx & Hs & He). unfold tps_Output. rewrite (proj2 (Z.ltb_ge _ _)) by (unfold sized in Hx; lia).
    destruct (tps_loop_total t (tps_epochID t) (excutedTxNum t) Hs He 0 (replicate (Z.to_nat (tps_epochID t + 1)) f0) f0 now 0)
      as (per & tot & e & l & ->); [unfold sized in *; rewrite length_replicate; lia|lia|unfold sized in Hx; lia|].
    by eexists. }
  intros Hm. destruct m as [t|t|t|t|t|t|t|t]; cbn [OutputRecord measure_wf] in *; try (by apply Htps); try (by eexists);
    destruct Hm as [H1 H2]; unfold sized in H1, H2; cbn [fst snd] in H1, H2.
  - unfold tcl_Output. destruct (output_total f_div (totTxLatencyEpoch t) (tcl_txNum t) f0 f0) as (per & s & s' & -> & _); [lia|]. by eexists.
  - unfold tclb_Output. destruct (output_total f_div (tclb_totTxLatencyEpoch t) (tclb_txNum t) f0 f0) as (per & s & s' & -> & _); [lia|]. by eexists.
  - unfold ctr_Output. destruct (output_total (fun tot ctx => f_div ctx tot) (totTxNum t) (totCrossTxNum t) f0 f0) as (per & s & s' & -> & _); [lia|]. by eexists.
  - unfold ctb_Output. destruct (output_total (fun tot ctx => f_div ctx tot) (ctb_totTxNum t) (ctb_totCrossTxNum t) f0 f0) as (per & s & s' & -> & _); [lia|]. by eexists.
Qed.

Lemma measure_of_wf name : Forall measure_wf (measure_of name).
Proof. unfold measure_of. repeat (destruct (bool_decide _); [by repeat constructor|]). constructor. Qed.
