(* ===== verification/Stopping.v ===== *)
(** * When the supervisor stops the nodes ([supervisor/supervisor.go],
      [supervisor/signal/supervisorStopModule.go])

    Every interleaving of the reading loop and the message handlers.  The committees
    enter through the laws of their interface. *)

From stdpp Require Import base gmap strings list.
From Stdlib Require Import ZArith Lia.
From S2P Require Import Prelude Database Core Storage Chain Message Follower Pbft Partition Committee Injection Measure Supervisor.

Local Open Scope Z_scope.

Section stopping.
Context `{Gob Transaction} `{Sha256} `{Params} `{FeedParams} `{DataParams}.
Context `{Json InjectTxs} `{Json PartitionModifiedMap} `{Json BrokerRawMeg} `{Json InnerTx2CrossTx} `{Json BlockInfoMsg}.

(** ** What the supervisor relies on *)

(** A record that injects transactions resets the signal, and none does anything else
    to it; waiting injects nothing; a report of an empty block changes nothing. *)
Class CommitteeLaws (M : Type) `{!CommitteeModule M} := {
  record_signal : forall (s : Sending M) data i pks s', send_record s data i = Ret (pks, s') ->
    sg_Ss s' = StopGap_Reset (sg_Ss s) \/ sg_Ss s' = sg_Ss s /\ sent pks = [];
  wait_silent : forall (m : M) i pks m', wait_round m i = Ret (pks, m') -> sent pks = [];
  empty_report : forall (m : M) b nows, BlockBodyLength b = 0 -> HandleBlockInfo m b nows = Ret ([], m);
}.

(** A map of accounts is not an injection. *)
Lemma map_silent table c orders now pks c' : clpa_round table c orders now = Ret (pks, c') -> sent pks = [].
Proof.
  unfold clpa_round. intros ([[M n] g] & _ & (pks' & E & (c1 & _ & [= <- _])%outcome_bind_Ret)%outcome_bind_Ret)%outcome_bind_Ret.
  unfold clpaMapSend in E. apply outcome_bind_Ret in E as ([addr frame] & Es & [= <-]).
  apply send_split in Es as (b & frame' & _ & [= -> ->] & Es); [|apply list_elem_of_In; cbn; tauto].
  unfold sent. induction all_shards as [|i l IH]; [done|]. cbn [fmap list_fmap omap list_omap]. unfold inject_of at 1. cbn [snd].
  rewrite Es. rewrite bool_decide_false by (by vm_compute). exact IH.
Qed.

Lemma check_silent table c ck orders pks c' : clpa_check table c ck orders = Ret (pks, c') -> sent pks = [].
Proof. unfold clpa_check. destruct (_ && _); [apply map_silent|by intros [= <- _]]. Qed.
Lemma wait_map_silent table c ck orders pks c' : clpa_wait table c ck orders = Ret (pks, c') -> sent pks = [].
Proof. unfold clpa_wait. destruct (clpa_due _ _); [apply map_silent|by intros [= <- _]]. Qed.

#[export] Instance relay_committee_laws : CommitteeLaws RelayCommitteeModule.
Proof.
  split.
  - intros s data i pks s'. cbn [send_record relay_committee]. unfold relay_record.
    intros (o & _ & E)%outcome_bind_Ret. destruct o as [tx|]; cbv zeta iota beta in E; destruct (batch_due _ _).
    + apply outcome_bind_Ret in E as (q & _ & [= <- <-]). by left.
    + injection E as <- <-. by right.
    + apply outcome_bind_Ret in E as (q & _ & [= <- <-]). by left.
    + injection E as <- <-. by right.
  - by intros m i pks m' [= <- _].
  - done.
Qed.

#[export] Instance broker_committee_laws : CommitteeLaws BrokerCommitteeMod.
Proof.
  split.
  - intros s data i pks s'. cbn [send_record broker_committee]. unfold broker_record.
    intros ([tx|] & _ & E)%outcome_bind_Ret; [|injection E as <- <-; by right]. cbv zeta in E. destruct (batch_due _ _).
    + apply outcome_bind_Ret in E as ([[q itx] bs] & _ & (q' & _ & [= <- <-])%outcome_bind_Ret). by left.
    + injection E as <- <-. by right.
  - by intros m i pks m' [= <- _].
  - intros m b nows Hb. cbn [HandleBlockInfo broker_committee]. unfold broker_HandleBlockInfo. by rewrite Hb.
Qed.

#[export] Instance clpa_committee_laws : CommitteeLaws CLPACommitteeModule.
Proof.
  split.
  - intros s data i pks s'. cbn [send_record clpa_committee]. unfold clpa_record.
    intros ([tx|] & _ & E)%outcome_bind_Ret; [|injection E as <- <-; by right]. cbv zeta in E.
    apply outcome_bind_Ret in E as ([[[q c] ss] txl] & E1 & ([q' c'] & Ec%check_silent & [= <- <-])%outcome_bind_Ret).
    cbn [sg_Ss]. destruct (batch_due _ _).
    + apply outcome_bind_Ret in E1 as (q1 & _ & [= <- <- <- <-]). by left.
    + injection E1 as <- <- <- <-. right. split; [done|exact Ec].
  - intros m i pks m'. cbn [wait_round clpa_committee].
    intros ([q c] & E%wait_map_silent & [= <- _])%outcome_bind_Ret. exact E.
  - intros m b nows Hb. cbn [HandleBlockInfo clpa_committee]. unfold clpa_HandleBlockInfo. by rewrite Hb.
Qed.

#[export] Instance clpa_broker_committee_laws : CommitteeLaws CLPACommitteeMod_Broker.
Proof.
  split.
  - intros s data i pks s'. cbn [send_record clpa_broker_committee]. unfold clpa_broker_record.
    intros ([tx|] & _ & E)%outcome_bind_Ret; [|injection E as <- <-; by right]. cbv zeta in E.
    apply outcome_bind_Ret in E as ([[[[q c] bs] ss] txl] & E1 & ([q' c'] & Ec%check_silent & [= <- <-])%outcome_bind_Ret).
    cbn [sg_Ss]. destruct (batch_due _ _).
    + apply outcome_bind_Ret in E1 as ([[q1 itx] bs1] & _ & (q2 & _ & [= <- <- <- <- <-])%outcome_bind_Ret). by left.
    + injection E1 as <- <- <- <- <-. right. split; [done|exact Ec].
  - intros m i pks m'. cbn [wait_round clpa_broker_committee].
    intros ([q c] & E%wait_map_silent & [= <- _])%outcome_bind_Ret. exact E.
  - intros m b nows Hb. cbn [HandleBlockInfo clpa_broker_committee]. unfold clpa_broker_HandleBlockInfo. by rewrite Hb.
Qed.

#[export] Instance any_committee_laws : CommitteeLaws Committee.
Proof.
  split.
  - intros s data i pks s'. cbn [send_record any_committee]. unfold inject_pair.
    destruct (sg_mod s) as [m|m|m|m]; intros ([q s1] & E & [= <- <-])%outcome_bind_Ret; exact (record_signal _ _ _ _ _ E).
  - intros m i pks m'. cbn [wait_round any_committee]. unfold inject_pair.
    destruct m as [m|m|m|m]; intros ([q s1] & E & [= <- <-])%outcome_bind_Ret; exact (wait_silent _ _ _ _ E).
  - intros m b nows Hb. cbn [HandleBlockInfo any_committee]. unfold inject_pair.
    destruct m as [m|m|m|m]; by rewrite (empty_report m b nows Hb).
Qed.

(** ** Every interleaving *)

(** The supervisor, the batch in hand, and whether the file is still being read. *)
Record world := mkWorld { w_sup : Supervisor; w_txlist : list Transaction; w_reading : bool }.

(** What matters of a step: transactions injected by the reading loop, a block report
    with its length, anything else. *)
Inductive event := Injected | Reported (len : Z) | Quiet.

Definition sup_with (d : Supervisor) (com : Committee) (ss : StopSignal) : Supervisor :=
  mkSup (sv_IPaddr d) (sv_ChainConfig d) (sv_Ip_nodeTable d) (listenStop d) ss com (testMeasureMods d).

(** A frame that carries a block report. *)
Definition is_report (frame : list Z) (b : BlockInfoMsg) : Prop :=
  exists content, SplitMessage frame = Ret (string_bytes "BlockInfo", content) /\ json_Unmarshal content = Some b.

Inductive sup_step : world -> event -> world -> Prop :=
| ss_record w data i pks s : w_reading w = true ->
    send_record (mkSending (comMod (w_sup w)) (sv_Ss (w_sup w)) (w_txlist w) false) data i = Ret (pks, s) ->
    sup_step w (if bool_decide (sent pks = []) then Quiet else Injected)
      (mkWorld (sup_with (w_sup w) (sg_mod s) (sg_Ss s)) (sg_txlist s) (negb (sg_done s)))
| ss_eof w : w_reading w = true -> sup_step w Quiet (mkWorld (w_sup w) (w_txlist w) false)
| ss_wait w i pks m : w_reading w = false -> wait_round (comMod (w_sup w)) i = Ret (pks, m) ->
    sup_step w Quiet (mkWorld (sup_with (w_sup w) m (sv_Ss (w_sup w))) (w_txlist w) false)
| ss_report w frame b nows pks d : is_report frame b -> 0 <= bi_Epoch b ->
    sup_handleMessage (w_sup w) frame nows = Ret (pks, d) ->
    sup_step w (Reported (BlockBodyLength b)) (mkWorld d (w_txlist w) (w_reading w))
| ss_other w frame t content nows pks d : SplitMessage frame = Ret (t, content) -> t <> string_bytes "BlockInfo" ->
    sup_handleMessage (w_sup w) frame nows = Ret (pks, d) ->
    sup_step w Quiet (mkWorld d (w_txlist w) (w_reading w)).

Inductive sup_steps (w0 : world) : list event -> world -> Prop :=
| sr_start : sup_steps w0 [] w0
| sr_step evs w e w' : sup_steps w0 evs w -> sup_step w e w' -> sup_steps w0 (evs ++ [e]) w'.

(** A run of a supervisor from its start. *)
Definition sup_run (d0 : Supervisor) (evs : list event) (w : world) : Prop := sup_steps (mkWorld d0 [] true) evs w.

Lemma sup_steps_app w0 evs w evs' w' : sup_steps w0 evs w -> sup_steps w evs' w' -> sup_steps w0 (evs ++ evs') w'.
Proof.
  intros Hw. induction 1 as [|evs' w1 e w2 _ IH Hs]; [by rewrite app_nil_r|]. rewrite (assoc (++)). by eapply sr_step.
Qed.

(** The reports of empty blocks since the last injection or report of a block with
    transactions. *)
Definition idle_from (n : Z) (evs : list event) : Z :=
  foldl (fun n e => match e with
                    | Injected => 0
                    | Reported len => if len =? 0 then n + 1 else 0
                    | Quiet => n
                    end) n evs.
Definition idle (evs : list event) : Z := idle_from 0 evs.

Lemma idle_from_le evs : forall n, 0 <= n -> idle evs <= idle_from n evs.
Proof.
  assert (forall evs m n, m <= n -> idle_from m evs <= idle_from n evs) as Hmono.
  { clear evs. intros evs. induction evs as [|e evs IH]; intros m n Hmn; [done|]. unfold idle_from. cbn [foldl]. apply IH.
    destruct e as [|len|]; [lia|destruct (len =? 0); lia|lia]. }
  intros n Hn. by apply Hmono.
Qed.

Lemma idle_snoc evs e : idle (evs ++ [e]) = match e with
  | Injected => 0 | Reported len => if len =? 0 then idle evs + 1 else 0 | Quiet => idle evs end.
Proof. unfold idle, idle_from. by rewrite foldl_app. Qed.

Lemma idle_range evs : 0 <= idle evs <= Z.of_nat (length evs).
Proof.
  induction evs as [|e evs IH] using rev_ind; [done|]. rewrite idle_snoc, length_app. cbn [length].
  destruct e as [|len|]; [lia|destruct (len =? 0); lia|lia].
Qed.

(** ** Measurements on empty and other blocks *)

Lemma update_empty m b : BlockBodyLength b = 0 -> UpdateMeasureRecord m b = Ret m.
Proof.
  intros Hb. destruct m; cbn [UpdateMeasureRecord];
    unfold tps_Update_Relay, tps_Update_Broker, tcl_Update, tclb_Update, ctr_Update, ctb_Update, tnc_Update_Relay, tnc_Update_Broker;
    by rewrite Hb.
Qed.

Lemma update_measures_spec ms b : 0 <= bi_Epoch b -> Forall measure_wf ms ->
  exists ms', update_measures ms b = Ret ms' /\ Forall measure_wf ms' /\ (BlockBodyLength b = 0 -> ms' = ms).
Proof.
  intros Hb Hms. unfold update_measures.
  assert (forall acc, Forall measure_wf acc -> exists ms', ofold (fun acc m => m ← UpdateMeasureRecord m b; Ret (acc ++ [m])) acc ms = Ret ms' /\
    Forall measure_wf ms' /\ (BlockBodyLength b = 0 -> ms' = acc ++ ms)) as Hl.
  { induction Hms as [|m ms Hm _ IH]; intros acc Hacc; [exists acc; by rewrite app_nil_r|]. cbn [ofold].
    destruct (measure_update b Hb m Hm) as (m' & E & Hm'). rewrite E. go_ret.
    destruct (IH (acc ++ [m'])) as (ms' & E' & Hw & He); [apply Forall_app; split; [done|by apply Forall_singleton]|].
    exists ms'. split; [done|]. split; [done|]. intros Hz. rewrite He by done. rewrite (update_empty m b Hz) in E. injection E as <-.
    by rewrite <- (assoc (++)). }
  destruct (Hl []) as (ms' & E & Hw & He); [constructor|]. by exists ms'.
Qed.

(** ** The invariant *)

Record sup_inv (d0 d : Supervisor) (evs : list event) : Prop := {
  si_gap : 0 <= stopGap (sv_Ss d) <= idle evs;
  si_threshold : stopThreshold (sv_Ss d) = stopThreshold (sv_Ss d0);
  si_measures : Forall measure_wf (testMeasureMods d);
  si_config : sv_ChainConfig d = sv_ChainConfig d0;
  si_table : sv_Ip_nodeTable d = sv_Ip_nodeTable d0;
}.

Lemma report_handled d frame b nows : is_report frame b ->
  sup_handleMessage d frame nows =
    ('(pks, com) ← HandleBlockInfo (comMod d) b nows;
     ms ← update_measures (testMeasureMods d) b;
     Ret (pks, mkSup (sv_IPaddr d) (sv_ChainConfig d) (sv_Ip_nodeTable d) (listenStop d)
                 (if BlockBodyLength b =? 0 then StopGap_Inc (sv_Ss d) else StopGap_Reset (sv_Ss d)) com ms)).
Proof.
  intros (content & Es & Eu). unfold sup_handleMessage. rewrite Es. go_ret. cbv beta iota. rewrite bool_decide_true by done.
  unfold handleBlockInfos. by rewrite Eu.
Qed.

Lemma sup_step_inv d0 w evs e w' : sup_inv d0 (w_sup w) evs -> Z.of_nat (length (evs ++ [e])) < 2 ^ 63 -> sup_step w e w' ->
  sup_inv d0 (w_sup w') (evs ++ [e]).
Proof.
  intros [Hg Ht Hm Hc Htb] Hlen Hs. pose proof (idle_range evs) as Hi. rewrite length_app in Hlen. cbn [length] in Hlen.
  destruct Hs as [w data i pks s Hr E|w Hr|w i pks m Hr E|w frame b nows pks d Hf Hb E|w frame t content nows pks d Hsp Hne E];
    cbn [w_sup sup_with].
  - split; try done; cbn [sv_Ss sup_with]; rewrite ?idle_snoc.
    + destruct (record_signal _ _ _ _ _ E) as [-> | [-> Hq]]; cbn [sg_Ss stopGap StopGap_Reset].
      * case_bool_decide; lia.
      * rewrite bool_decide_true by done. lia.
    + destruct (record_signal _ _ _ _ _ E) as [-> | [-> _]]; done.
  - split; try done. rewrite idle_snoc. lia.
  - split; try done. rewrite idle_snoc. cbn. lia.
  - rewrite (report_handled _ _ _ _ Hf) in E. apply outcome_bind_Ret in E as ([q com] & Eh & (ms & Em & [= <- <-])%outcome_bind_Ret).
    destruct (update_measures_spec _ b Hb Hm) as (ms' & Em' & Hw & _). rewrite Em in Em'. injection Em' as <-.
    split; cbn [sv_Ss testMeasureMods sv_ChainConfig sv_Ip_nodeTable]; try done; rewrite ?idle_snoc.
    + destruct (BlockBodyLength b =? 0); cbn [stopGap StopGap_Inc StopGap_Reset]; [|lia]. rewrite wrap_s_small by (unfold is_s; lia). lia.
    + by destruct (BlockBodyLength b =? 0).
  - unfold sup_handleMessage in E. rewrite Hsp in E. revert E. go_ret. cbv beta iota. rewrite bool_decide_false by done.
    intros ([q com] & _ & [= <- <-])%outcome_bind_Ret. split; try done. rewrite idle_snoc. cbn. lia.
Qed.

Lemma sup_run_inv d0 evs w : stopGap (sv_Ss d0) = 0 -> Forall measure_wf (testMeasureMods d0) ->
  sup_run d0 evs w -> Z.of_nat (length evs) < 2 ^ 63 -> sup_inv d0 (w_sup w) evs.
Proof.
  intros Hg Hm. induction 1 as [|evs w e w' _ IH Hs]; intros Hlen.
  - split; try done. cbn. lia.
  - eapply sup_step_inv; [|exact Hlen|exact Hs]. apply IH. rewrite length_app in Hlen. lia.
Qed.

(** ** The gap after the file has been read *)

(** Nothing but a report of a block with transactions resets the gap any more. *)
Lemma step_gap d0 evs w e w' : sup_inv d0 (w_sup w) evs -> Z.of_nat (length (evs ++ [e])) < 2 ^ 63 ->
  w_reading w = false -> sup_step w e w' ->
  w_reading w' = false /\ stopGap (sv_Ss (w_sup w')) = idle_from (stopGap (sv_Ss (w_sup w))) [e].
Proof.
  intros [Hg _ _ _ _] Hlen Hr Hs. pose proof (idle_range evs) as Hi. rewrite length_app in Hlen. cbn [length] in Hlen.
  destruct Hs as [w data i pks s Hr' _|w Hr'|w i pks m _ _|w frame b nows pks d Hf Hb E|w frame t content nows pks d Hsp Hne E];
    [congruence|congruence|done| |]; cbn [w_sup w_reading]; (split; [done|]).
  - rewrite (report_handled _ _ _ _ Hf) in E. apply outcome_bind_Ret in E as ([q com] & _ & (ms & _ & [= <- <-])%outcome_bind_Ret).
    cbn. destruct (BlockBodyLength b =? 0); cbn [stopGap StopGap_Inc StopGap_Reset]; [|done]. by rewrite wrap_s_small by (unfold is_s; lia).
  - unfold sup_handleMessage in E. rewrite Hsp in E. revert E. go_ret. cbv beta iota. rewrite bool_decide_false by done.
    by intros ([q com] & _ & [= <- <-])%outcome_bind_Ret.
Qed.

Lemma steps_gap d0 evs w evs' w' : stopGap (sv_Ss d0) = 0 -> Forall measure_wf (testMeasureMods d0) ->
  sup_run d0 evs w -> w_reading w = false -> sup_steps w evs' w' -> Z.of_nat (length (evs ++ evs')) < 2 ^ 63 ->
  w_reading w' = false /\ stopGap (sv_Ss (w_sup w')) = idle_from (stopGap (sv_Ss (w_sup w))) evs'.
Proof.
  intros Hg Hm Hrun Hr. induction 1 as [|evs' w1 e w2 Hss IH Hs]; intros Hlen; [done|].
  rewrite (assoc (++)), length_app in Hlen. cbn [length] in Hlen. destruct IH as [Hr1 E1]; [lia|].
  destruct (step_gap d0 (evs ++ evs') w1 e w2) as [Hr2 E2]; [|rewrite length_app; cbn; lia|done|done|].
  - apply (sup_run_inv d0 (evs ++ evs') w1 Hg Hm); [by eapply sup_steps_app|lia].
  - split; [done|]. rewrite E2, E1. unfold idle_from. by rewrite foldl_app.
Qed.

(** ** Stopping *)

(** Reports handled one after the other. *)
Fixpoint deliver_reports (d : Supervisor) (frames : list (list Z)) (nows : nat -> time) : outcome Supervisor :=
  match frames with
  | [] => Ret d
  | frame :: frames => '(_, d) ← sup_handleMessage d frame nows; deliver_reports d frames nows
  end.

Lemma empties_delivered frames nows : forall d,
  Forall (fun frame => exists b, is_report frame b /\ BlockBodyLength b = 0 /\ 0 <= bi_Epoch b) frames ->
  Forall measure_wf (testMeasureMods d) -> 0 <= stopGap (sv_Ss d) -> stopGap (sv_Ss d) + Z.of_nat (length frames) < 2 ^ 63 ->
  deliver_reports d frames nows =
    Ret (sup_with d (comMod d) (mkStop (stopGap (sv_Ss d) + Z.of_nat (length frames)) (stopThreshold (sv_Ss d)))).
Proof.
  induction frames as [|frame frames IH]; intros d Hf Hm Hg Hl; cbn [length] in *.
  { cbn. rewrite Z.add_0_r. by destruct d as [? ? ? ? [? ?] ? ?]. }
  apply Forall_cons in Hf as [(b & Hr & Hz & Hb) Hf]. cbn [deliver_reports]. rewrite (report_handled _ _ _ _ Hr), (empty_report _ _ _ Hz). go_ret.
  destruct (update_measures_spec _ b Hb Hm) as (ms & -> & Hw & He). rewrite (He Hz). go_ret. rewrite Hz. cbn [Z.eqb].
  assert (StopGap_Inc (sv_Ss d) = mkStop (stopGap (sv_Ss d) + 1) (stopThreshold (sv_Ss d))) as ->
    by (unfold StopGap_Inc; by rewrite wrap_s_small by (unfold is_s; lia)).
  rewrite IH; cbn [sv_Ss stopGap stopThreshold testMeasureMods]; [|done|done|lia|lia]. unfold sup_with. cbn. do 3 f_equal. lia.
Qed.

Lemma close_returns d now : Forall measure_wf (testMeasureMods d) -> exists rows, CloseSupervisor d now = Ret rows.
Proof.
  intros Hm. unfold CloseSupervisor. assert (forall acc, exists rows, ofold (fun acc m => r ← OutputRecord m now;
    Ret (acc ++ [(OutputMetricName m, r)])) acc (testMeasureMods d) = Ret rows) as Hl; [|apply (Hl [])].
  induction Hm as [|m ms Hw _ IH]; intros acc; [by exists acc|]. cbn [ofold].
  destruct (measure_output m now Hw) as [r ->]. go_ret. apply IH.
Qed.

(** The stop message as a node reads it. *)
Definition is_stop (frame : list Z) : Prop :=
  exists content, SplitMessage (frame ++ [10]) = Ret (string_bytes "stop", content).

Lemma stop_packets_spec d : exists pks, stop_packets d = Ret pks /\
  forall sid nid, 0 <= sid < ShardNums (sv_ChainConfig d) -> 0 <= nid < Nodes_perShard (sv_ChainConfig d) ->
    exists frame, (node_address (sv_Ip_nodeTable d) sid nid, frame) ∈ pks /\ is_stop frame.
Proof.
  unfold stop_packets. destruct (known_type "stop") as [Hl Hz]; [apply list_elem_of_In; cbn; tauto|].
  destruct (merge_split (string_bytes "stop") (string_bytes "this is a stop message~") Hl Hz) as (frame & Em & _). rewrite Em. go_ret.
  eexists. split; [done|]. intros sid nid Hs Hn. exists frame. split.
  - apply list_elem_of_join. exists ((fun nid => (node_address (sv_Ip_nodeTable d) sid nid, frame)) <$> upto (Nodes_perShard (sv_ChainConfig d))).
    split; [apply list_elem_of_fmap; exists nid|apply list_elem_of_fmap; exists sid]; (split; [done|]);
      apply list_elem_of_fmap; [exists (Z.to_nat nid)|exists (Z.to_nat sid)]; rewrite elem_of_seq; lia.
  - destruct (merge_split (string_bytes "stop") (string_bytes "this is a stop message~" ++ [10]) Hl Hz) as (frame' & Em' & Es).
    rewrite (MergeMessage_app _ _ _ _ Em) in Em'. injection Em' as <-. by eexists.
Qed.

Lemma enough_stops d0 d evs now : sup_inv d0 d evs -> stopThreshold (sv_Ss d0) <= stopGap (sv_Ss d) ->
  exists pks rows d', SupervisorTxHandling_end d now = Ret (Some (pks, rows, d')) /\ listenStop d' = true /\
    forall sid nid, 0 <= sid < ShardNums (sv_ChainConfig d0) -> 0 <= nid < Nodes_perShard (sv_ChainConfig d0) ->
      exists frame, (node_address (sv_Ip_nodeTable d0) sid nid, frame) ∈ pks /\ is_stop frame.
Proof.
  intros [Hgap Ht Hw Hc Htb] Hle. unfold SupervisorTxHandling_end, GapEnough. rewrite Ht, (proj2 (Z.leb_le _ _) Hle). cbn [negb].
  destruct (stop_packets_spec d) as (pks & -> & Hpk). go_ret. destruct (close_returns d now Hw) as [rows ->]. go_ret.
  eexists pks, rows, _. split; [done|]. split; [done|]. intros sid nid Hs Hn. rewrite <- Htb. apply Hpk; by rewrite Hc.
Qed.

(** Reports of empty blocks are steps. *)
Lemma deliver_steps frames nows : forall w d,
  Forall (fun frame => exists b, is_report frame b /\ BlockBodyLength b = 0 /\ 0 <= bi_Epoch b) frames ->
  deliver_reports (w_sup w) frames nows = Ret d ->
  sup_steps w (replicate (length frames) (Reported 0)) (mkWorld d (w_txlist w) (w_reading w)).
Proof.
  induction frames as [|frame frames IH]; intros w d Hf E; cbn [deliver_reports] in E.
  { injection E as <-. destruct w. constructor. }
  apply outcome_bind_Ret in E as ([pks d1] & E1 & E). apply Forall_cons in Hf as [(b & Hr & Hz & Hb) Hf].
  eapply (sup_steps_app _ [Reported 0] (mkWorld d1 (w_txlist w) (w_reading w))); [|by apply (IH (mkWorld d1 (w_txlist w) (w_reading w)))].
  rewrite <- Hz. eapply (sr_step _ []); [constructor|]. by eapply ss_report.
Qed.

(** C13. Stopping, for every committee and every interleaving of the reading loop and
    the message handlers.  A poll of the waiting loop stops the nodes only after as
    many reports of empty blocks as the threshold (twice the number of shards), with no
    transaction injected by the reading loop and no block with transactions reported in
    between.  Once the file has been read, a poll after any further steps that contain
    that many reports of empty blocks, with no report of a block with transactions in
    between, does stop: the stop message goes to every node of every shard.  And that
    many such reports can always be handled.  While the file is read there is no poll,
    and a batch that is sent takes the count back to zero. *)
Theorem supervisor_stops (d0 : Supervisor) (evs : list event) (w : world) (now : time) :
  stopGap (sv_Ss d0) = 0 -> Forall measure_wf (testMeasureMods d0) -> sup_run d0 evs w -> Z.of_nat (length evs) < 2 ^ 62 ->
  (forall out, SupervisorTxHandling_end (w_sup w) now = Ret (Some out) -> stopThreshold (sv_Ss d0) <= idle evs) /\
  (w_reading w = false ->
   (forall evs' w', sup_steps w evs' w' -> stopThreshold (sv_Ss d0) <= idle evs' -> Z.of_nat (length evs') < 2 ^ 62 ->
     exists pks rows d', SupervisorTxHandling_end (w_sup w') now = Ret (Some (pks, rows, d')) /\ listenStop d' = true /\
       forall sid nid, 0 <= sid < ShardNums (sv_ChainConfig d0) -> 0 <= nid < Nodes_perShard (sv_ChainConfig d0) ->
         exists frame, (node_address (sv_Ip_nodeTable d0) sid nid, frame) ∈ pks /\ is_stop frame) /\
   (forall frames nows,
     Forall (fun frame => exists b, is_report frame b /\ BlockBodyLength b = 0 /\ 0 <= bi_Epoch b) frames ->
     Z.of_nat (length frames) < 2 ^ 62 ->
     exists d, deliver_reports (w_sup w) frames nows = Ret d /\
       sup_steps w (replicate (length frames) (Reported 0)) (mkWorld d (w_txlist w) false))).
Proof.
  intros Hg Hm Hrun Hlen. pose proof (sup_run_inv d0 evs w Hg Hm Hrun ltac:(lia)) as Hinv. pose proof Hinv as [Hgap Ht Hw Hc Htb]. split.
  { intros out. unfold SupervisorTxHandling_end, GapEnough. rewrite Ht.
    destruct (Z.leb_spec (stopThreshold (sv_Ss d0)) (stopGap (sv_Ss (w_sup w)))); [intros _; lia|done]. }
  intros Hr. split.
  - intros evs' w' Hs Hk Hl'. assert (Z.of_nat (length (evs ++ evs')) < 2 ^ 63) as Hla by (rewrite length_app; lia).
    apply (enough_stops d0 (w_sup w') (evs ++ evs')).
    + apply (sup_run_inv d0 _ w' Hg Hm); [by eapply sup_steps_app|lia].
    + destruct (steps_gap d0 evs w evs' w' Hg Hm Hrun Hr Hs Hla) as [_ ->].
      pose proof (idle_from_le evs' (stopGap (sv_Ss (w_sup w))) ltac:(lia)). lia.
  - intros frames nows Hf Hk. pose proof (idle_range evs).
    pose proof (empties_delivered frames nows (w_sup w) Hf Hw ltac:(lia) ltac:(lia)) as Ed.
    eexists. split; [exact Ed|]. rewrite <- Hr. by eapply deliver_steps.
Qed.
End stopping.
