(* ===== verification/CommitteeSample.v ===== *)
(** * A concrete supervisor with two shards

    The properties of the committees, the measurements and the supervisor applied to
    concrete inputs: a data file, a brokered transfer, a re-partition, block reports. *)

From stdpp Require Import base gmap strings list sorting.
From Stdlib Require Import ZArith Lia.
From S2P Require Import Prelude Encoding TrieSpec Node Trie TrieMap Hasher Committer Reload Database Core Storage Chain.
From S2P Require Import ChainMem MerkleProof OnChain Message Follower Pbft Agreement Partition PbftBroker Reshard.
From S2P Require Import Committee Injection Brokering Rerouting Measure Supervisor Stopping.

Local Open Scope Z_scope.

Module CommitteeSample.
#[local] Existing Instance StorageSample.tx_gob.
#[local] Existing Instance ChainSample.sha.
#[local] Existing Instance ChainSample.params.
#[local] Instance feed_params : FeedParams := {| Committee.InjectSpeed := 2; BrokerNum := 1 |}.
#[local] Instance data_params : DataParams := {| TotalDataSize := 2; BatchSize := 2 |}.

#[local] Instance inject_stream : Stream InjectTxs.
Proof.
  pose (s1 := @code_stream (list Transaction) _ (@list_countable _ _ StorageSample.tx_countable)). pose (s2 := code_stream : Stream Z).
  pose (p := @prod_stream _ _ s1 s2).
  refine (iso_stream (fun a => (it_Txs a, it_ToShardID a)) (fun '(a, b) => mkInject a b) _). by intros [].
Defined.
#[local] Instance raw_stream : Stream BrokerRawMeg.
Proof.
  pose (s1 := @code_stream Transaction _ StorageSample.tx_countable). pose (s2 := code_stream : Stream string).
  pose (s3 := code_stream : Stream (Z * Z * Z * list Z)). pose (p := @prod_stream _ _ s1 s2). pose (q := @prod_stream _ _ p s3).
  refine (iso_stream (fun a => (rm_Tx a, rm_Broker a, (rm_Hlock a, rm_Snonce a, rm_Bnonce a, rm_Signature a)))
            (fun '(a, b, (c, d, e, f)) => mkRaw a b c d e f) _). by intros [].
Defined.
#[local] Instance map_stream : Stream PartitionModifiedMap.
Proof.
  pose (s := code_stream : Stream (gmap Address Z)).
  refine (iso_stream PartitionModified mkModified _). by intros [].
Defined.
#[local] Instance inject_json : Json InjectTxs := stream_json.
#[local] Instance raw_json : Json BrokerRawMeg := stream_json.
#[local] Instance map_json : Json PartitionModifiedMap := stream_json.
#[local] Instance cross_json : Json InnerTx2CrossTx := mute_json.

Lemma inject_valid (it : InjectTxs) : Forall (fun _ => True) (it_Txs it) -> json_valid it.
Proof. done. Qed.

Lemma fast : Committee.InjectSpeed <> 0.
Proof. by vm_compute. Qed.

Definition table : gmap Z (gmap Z string) := {[ 0 := {[ 0 := "h0"%string ]}; 1 := {[ 0 := "h1"%string ]} ]}.

(** ** A data file *)

Definition record (from to val : string) : list string := [""; ""; ""; from; to; ""; "0"; "0"; val]%string.
(** Two transfers, and a record that is not one. *)
Definition file : list (option (list string)) :=
  [Some (record "0x00000000000000000001" "0x00000000000000000002" "5");
   Some [""; ""; ""; "0x00000000000000000001"; "0x00000000000000000002"; ""; "1"; "0"; "5"]%string;
   Some (record "0x00000000000000000002" "0x00000000000000000003" "7")].
Definition relay : RelayCommitteeModule := mkRelayC (mkFeed 2 0 2) table.
Definition clock (i : nat) : time := Z.of_nat i.

Lemma file_readable : readable file.
Proof. repeat constructor; eexists; (split; [reflexivity|]); intros nonce now; eexists; reflexivity. Qed.

Lemma MsgSendingControl_sends_witness : exists pks s',
  relay_MsgSendingControl relay (NewStopSignal 4) file clock = Ret (pks, s') /\
  to_shard 1 pks = [NewTransaction "00000000000000000001" "00000000000000000002" 5 0 0] /\
  to_shard 0 pks = [NewTransaction "00000000000000000002" "00000000000000000003" 7 1 2].
Proof.
  destruct (MsgSendingControl_sends (fun _ => True) inject_valid fast clock relay (NewStopSignal 4) file)
    as (pks & s' & E & _ & Hto & _); try (cbn; lia).
  - apply file_readable.
  - repeat constructor; vm_compute; by eexists.
  - exists pks, s'. split; [exact E|]. split; rewrite Hto by (cbn; lia); reflexivity.
Defined.

(** ** Block reports *)

Definition relayed : Transaction := set_Relayed (NewTransaction "00000000000000000001" "00000000000000000002" 5 0 0).
Definition local_tx : Transaction := NewTransaction "00000000000000000001" "00000000000000000003" 7 1 0.
Definition report (len epoch : Z) (executed relay1 : list Transaction) : BlockInfoMsg :=
  mkBlockInfo len executed epoch 0 1 0 (Z.of_nat (length relay1)) relay1 0 [] 0 [].
(** A block that sends a transaction to the other shard, and the block there. *)
Definition reports : list BlockInfoMsg := [report 2 0 [local_tx] [relayed]; report 1 1 [relayed] []].

Lemma cross_rate_exact_witness : exists t per, ofold ctr_Update NewTestCrossTxRate_Relay reports = Ret t /\
  ctr_Output t = Ret (per, f_div (halves_f 2) (halves_f 4)).
Proof.
  destruct (cross_rate_exact reports) as (t & per & E & _ & _ & Eo).
  - repeat constructor; cbn; lia.
  - vm_compute. reflexivity.
  - exists t, per. split; [exact E|]. rewrite Eo. reflexivity.
Defined.

(** ** Stopping *)

Definition no_report : BlockInfoMsg := report 0 0 [] [].
#[local] Instance report_json : Json BlockInfoMsg.
Proof.
  refine {| json_Marshal := fun _ => Some [1]; json_Unmarshal := fun b => if bool_decide (b = [1; 10]) then Some no_report else None;
            json_valid := fun b => b = no_report |}.
  intros b ->. by exists [1].
Defined.

Definition cc : ChainConfig := mkCC 1 0 0 4 2 10 5000 2000 100.
Definition supervisor : Supervisor :=
  mkSup "h" cc table false (NewStopSignal 4) (CRelay relay) (mjoin (measure_of <$> ["TPS_Relay"; "CrossTxRate_Relay"]%string)).
Definition report_frame : list Z := match MergeMessage (string_bytes "BlockInfo") [1; 10] with Ret f => f | Panic => [] end.

Lemma supervisor_measured : Forall measure_wf (testMeasureMods supervisor).
Proof. cbn. repeat constructor. Qed.

(** The file ends at once; four empty blocks then stop the supervisor. *)
Lemma supervisor_stops_witness : exists d pks rows d',
  deliver_reports supervisor (replicate 4 report_frame) (fun _ => 0) = Ret d /\
  SupervisorTxHandling_end d 0 = Ret (Some (pks, rows, d')) /\ listenStop d' = true.
Proof.
  destruct (supervisor_stops supervisor [Quiet] (mkWorld supervisor [] false) 0) as [_ Hstop].
  - reflexivity.
  - apply supervisor_measured.
  - apply (sr_step _ [] (mkWorld supervisor [] true)); [constructor|]. by apply (ss_eof (mkWorld supervisor [] true)).
  - cbn. lia.
  - destruct (Hstop eq_refl) as [Hs Hd]. destruct (Hd (replicate 4 report_frame) (fun _ => 0)) as (d & E & Hrun).
    + apply Forall_replicate. exists no_report. split; [|done]. exists [1; 10]. split; vm_compute; reflexivity.
    + cbn. lia.
    + destruct (Hs _ _ Hrun) as (pks & rows & d' & Ee & Hl & _); [cbn; lia|cbn; lia|]. exists d, pks, rows, d'. done.
Defined.

(** ** A brokered transfer *)

Definition A0 : Address := "00000000000000000000".
Definition A1 : Address := "00000000000000000001".
Definition B : Address := "00000000000000000003".
Definition acct (x : Address) : Prop := x ∈ [A0; A1; B].
Definition any {A} (_ : A) : Prop := True.
Definition fetch : Address -> outcome Z := fetchModifiedMap ∅.
(** From shard 0 to shard 1. *)
Definition transfer : Transaction := NewTransaction A0 A1 5 0 0.
Definition at7 (_ : nat) : time := 7.

Lemma raw_valid tx x : any tx -> acct x -> json_valid (mkRaw tx x 0 0 0 []).
Proof. done. Qed.
Lemma broker_known : Forall acct [B].
Proof. repeat constructor. Qed.
Lemma fetch_places : places acct fetch.
Proof.
  assert (forall s, 0 <= s < 2 -> s ∈ all_shards) as Hs by (intros s Hs; by apply elem_of_all_shards).
  intros x Hx. unfold acct in Hx. rewrite !elem_of_cons in Hx.
  destruct Hx as [-> | [-> | [-> | []%elem_of_nil]]]; eexists; (split; [reflexivity|]); apply Hs; split; by vm_compute.
Qed.
Lemma transfer_plain : Forall (plain acct any) [transfer].
Proof. repeat constructor. by intros E. Qed.

Lemma broker_protocol_witness : exists bs pks,
  brokering acct any any [B] bs pks [transfer] [] [TxHash (first_of B transfer 7)] /\
  exists F S, F.*1 = [transfer] /\ Forall (fun p => is_second B p.1 p.2) S /\ of_class broker_class Broker2 (sent pks) ≡ₚ S.*2 /\
    S.*1 = reported F [TxHash (first_of B transfer 7)].
Proof.
  pose proof (br_start acct any any [B] (NewBroker [B] 1) eq_refl) as R0.
  assert (books [B] B (mkBS (NewBroker [B] 1) ∅ ∅) [] []) as Hb0 by (split; try done; by intros p d ?%elem_of_nil).
  destruct (deal_books acct any any inject_valid raw_valid (fun _ _ _ _ _ _ _ _ _ _ => I) fast [B] B eq_refl broker_known
              fetch table _ [] [] [transfer] at7 fetch_places Hb0 transfer_plain (fun _ => I)) as (pks1 & bs1 & E1 & Hs1 & _ & Hb1).
  specialize (Hb1 (NoDup_singleton _)).
  destruct (report_books acct any any inject_valid raw_valid (fun _ _ _ _ _ _ _ _ _ _ => I) fast [B] B eq_refl broker_known
              fetch table bs1 _ _ [first_of B transfer 7] at7 fetch_places Hb1) as (pks2 & bs2 & E2 & Hs2 & _).
  { repeat constructor. by intros E. }
  { done. }
  pose proof (br_deal acct any any [B] _ _ _ _ _ fetch table [transfer] at7 pks1 _ bs1 [] R0 fetch_places transfer_plain (fun _ => I) E1 eq_refl) as R1.
  assert (brokering acct any any [B] bs2 (pks1 ++ pks2) [transfer] [] [TxHash (first_of B transfer 7)]) as R2.
  { rewrite app_nil_r in R1.
    refine (br_report acct any any [B] _ _ _ _ _ fetch table [first_of B transfer 7] at7 pks2 bs2 R1 fetch_places (fun _ => I) _ E2).
    apply Forall_singleton, list_elem_of_fmap. exists (first_of B transfer 7). split; [done|]. apply list_elem_of_filter.
    split; [by vm_compute|]. rewrite Hs1. by left. }
  destruct (broker_protocol acct any any inject_valid raw_valid (fun _ _ _ _ _ _ _ _ _ _ => I) (fun _ _ _ => I) fast [B] B eq_refl broker_known
              _ _ _ _ _ R2) as [(F & S & _ & HS & _ & HF & _ & Hsec & Hrep) _].
  - unfold halves. rewrite sent_app, Hs1, Hs2. apply (bool_decide_unpack _). vm_compute. exact I.
  - exists bs2, (pks1 ++ pks2). split; [exact R2|]. by exists F, S.
Defined.

(** ** A re-partition *)

#[local] Existing Instance DBSample.ethdb.
#[local] Existing Instance DBSample.fastcache.
#[local] Existing Instance RLPSample.env.
#[local] Existing Instance RLPSample.rlp.
#[local] Existing Instance RLPSample.eth.
#[local] Existing Instance DBSample.account.
#[local] Existing Instance StorageSample.bolt.
#[local] Existing Instance ChainSample.memory.

Definition chain : BlockChain :=
  mkMBC DBSample.db0 cc ChainSample.genesis StorageSample.store (mkPool [] (Some ∅) false) ∅ None.

Lemma two_shards : 0 < ShardNum < 2 ^ 63.
Proof. cbn. lia. Qed.
Lemma map_valid (M : gmap Address Z) : json_valid (mkModified M).
Proof. done. Qed.
Lemma A0_lives : lives A0.
Proof. exists 0. by split; [reflexivity|cbn; lia]. Qed.
Lemma A1_lives : lives A1.
Proof. exists 1. by split; [reflexivity|cbn; lia]. Qed.

(** A report of a transfer between the shards, then a round over both accounts. *)
Lemma rerouting_agrees_witness : exists c M, clpa_run table c [M] (told table M) /\
  forall x, Get_PartitionMap (update_map chain M) x = fetchModifiedMap (modifiedMap c) x.
Proof.
  destruct (new_graph_ok two_shards) as (g & E & _).
  pose proof (cr_start table g 80 E) as R0. pose proof (start_inv two_shards map_valid g 0 80 E) as I0.
  assert (Forall (fun e => lives e.1 /\ lives e.2) [(A0, A1)]) as Hes by (repeat constructor; apply A0_lives || apply A1_lives).
  destruct (add_edges_ok two_shards _ _ I0 Hes) as (c1 & E1 & I1 & _).
  pose proof (cr_report table _ _ _ _ _ R0 Hes E1) as R1.
  destruct (round_ok two_shards map_valid table c1 (fun _ => elements (VertexSet (NetGraph (clpaGraph c1)))) 5 I1) as (M & n & g' & c2 & EM & Er & _).
  { intros i v Hv. by apply elem_of_elements. }
  assert (clpa_run table c2 [M] (told table M)) as R2.
  { refine (cr_round table _ _ _ _ 5 _ _ _ _ _ R1 _ EM Er). intros i v Hv. by apply elem_of_elements. }
  destruct (rerouting_agrees two_shards map_valid table any inject_valid fast c2 [M] (told table M) chain (mkFeed 2 0 2) R2 eq_refl)
    as (_ & Hmap & _).
  exists c2, M. by split.
Defined.

End CommitteeSample.
