(* ===== verification/StateSync.v ===== *)
(** * The state sync ([trie/sync.go])

    The scheduler of a download: it hands out the nodes of a trie that are missing,
    takes their data in any order, and stores a node once everything below it is
    stored.  Requests are shared pointers in the code; here they live in a heap, a
    list that only grows, and a pointer is an index.  [Syncing] proves what a download
    leaves on the disk. *)

From stdpp Require Import base gmap strings list.
From Stdlib Require Import ZArith Lia.
From S2P Require Import Prelude Encoding Node Trie Hasher Committer Database.

Local Open Scope Z_scope.

(** ** Libraries below the scheduler *)

(** What is queued: the path of a node or the hash of a code. *)
Inductive sync_item :=
| NodeItem (path : list Z)
| CodeItem (hash : list Z).

(** [common/prque]: a priority queue that yields a greatest priority first. *)
Class PrQue := {
  prque : Type;
  prque_New : prque;
  prque_Push : prque -> sync_item -> Z -> prque;
  prque_Peek : prque -> option (sync_item * Z);
  prque_Pop : prque -> prque;
  prque_Empty : prque -> bool;
  prque_Size : prque -> nat;
}.

Class PrQueLaws `{PrQue} := {
  queued : prque -> list (sync_item * Z);
  queued_New : queued prque_New = [];
  queued_Push : forall q x p, queued (prque_Push q x p) ≡ₚ (x, p) :: queued q;
  queued_Empty : forall q, prque_Empty q = true <-> queued q = [];
  queued_Size : forall q, prque_Size q = length (queued q);
  queued_Peek : forall q, queued q <> [] -> exists x p, prque_Peek q = Some (x, p) /\
    queued q ≡ₚ (x, p) :: queued (prque_Pop q) /\ forall y, y ∈ queued q -> y.2 <= p;
}.

(** [core/rawdb]: trie nodes and contract codes on the disk, the nodes by one of two
    schemes; another scheme is a panic. *)
Class RawDB `{EthDB} := {
  HasTrieNode : disk -> list Z -> list Z -> list Z -> string -> outcome bool;
  WriteTrieNode : list Z -> list Z -> list Z -> list Z -> string -> outcome batch;
  HasCodeWithPrefix : disk -> list Z -> bool;
  WriteCode : list Z -> list Z -> batch;
  EmptyCodeHash : list Z;
}.

Definition HashScheme : string := "hashScheme".

(** In the hash scheme a node lies under its hash. *)
Class RawDBLaws `{RawDB} : Prop := {
  HasTrieNode_hash : forall d owner path h,
    HasTrieNode d owner path h HashScheme = Ret (match disk_Get d h with Some _ => true | None => false end);
  WriteTrieNode_hash : forall owner path h b, WriteTrieNode owner path h b HashScheme = Ret [(h, b)];
}.

(** The closures that are passed as [LeafCallback]. *)
Class LeafCallbacks := { LeafCallback : Type }.

(** ** Data *)

Definition maxFetchesPerDepth : Z := 16384.
Definition HashLength : nat := 32.

Record nodeRequest `{LeafCallbacks} := mkNodeReq {
  nr_hash : list Z;
  nr_path : list Z;
  nr_data : option (list Z);
  nr_parent : option nat;
  nr_deps : Z;
  nr_callback : option LeafCallback;
}.

Record codeRequest := mkCodeReq {
  cr_hash : list Z;
  cr_path : list Z;
  cr_data : option (list Z);
  cr_parents : list nat;
}.

Record syncMemBatch := mkMemBatch {
  mb_nodes : gmap (list Z) (list Z);
  mb_hashes : gmap (list Z) (list Z);
  mb_codes : gmap (list Z) (list Z);
  mb_size : Z;
}.

Definition newSyncMemBatch : syncMemBatch := mkMemBatch ∅ ∅ ∅ 0.
Definition hasNode (batch : syncMemBatch) (path : list Z) : bool := bool_decide (is_Some (mb_nodes batch !! path)).
Definition hasCode (batch : syncMemBatch) (hash : list Z) : bool := bool_decide (is_Some (mb_codes batch !! hash)).

(** [ts_heap] holds the node requests that pointers refer to; [ts_database] is the disk
    as it is when it is read. *)
Record Sync `{EthDB} `{PrQue} `{LeafCallbacks} := mkSync {
  ts_scheme : string;
  ts_database : disk;
  ts_membatch : syncMemBatch;
  ts_heap : list nodeRequest;
  ts_nodeReqs : gmap (list Z) nat;
  ts_codeReqs : gmap (list Z) codeRequest;
  ts_queue : prque;
  ts_fetches : gmap Z Z;
}.

Arguments mkNodeReq {_}.
Arguments mkSync {_ _ _}.

Inductive sync_err :=
| ErrNotRequested
| ErrAlreadyProcessed
| ErrDecode (e : decode_err)
| ErrCallback (e : string).

(** ** Paths *)

Definition NewSyncPath (path : list Z) : outcome (list (list Z)) :=
  if (length path <? 64)%nat then c ← hexToCompact path; Ret [c]
  else k ← hexToKeybytes (take 64 path); c ← hexToCompact (drop 64 path); Ret [k; c].

Definition ResolvePath `{EthCommon} (path : list Z) : outcome (list Z * list Z) :=
  if (2 * HashLength <=? length path)%nat then
    k ← hexToKeybytes (take (2 * HashLength) path);
    Ret (BytesToHash k, drop (2 * HashLength) path)
  else Ret (zero_hash, path).

(** The nibbles of the priority, from position [i] on, fourteen at most. *)
Fixpoint prio_nibbles (i : nat) (path : list Z) (prio : Z) : Z :=
  match path with
  | x :: path =>
      if (i <? 14)%nat
      then prio_nibbles (S i) path (Z.lor prio (i64 (Z.shiftl (u8 (15 - x)) (52 - Z.of_nat i * 4))))
      else prio
  | [] => prio
  end.
Definition sync_prio (path : list Z) : Z := prio_nibbles 0 path (i64 (Z.shiftl (Z.of_nat (length path)) 56)).

Section sync.
Context `{EthDB} `{PrQue} `{LeafCallbacks} `{!RawDB} `{RLP} `{EthCommon}.

Definition with_heap (s : Sync) (heap : list nodeRequest) : Sync :=
  mkSync (ts_scheme s) (ts_database s) (ts_membatch s) heap (ts_nodeReqs s) (ts_codeReqs s) (ts_queue s) (ts_fetches s).
Definition set_data (r : nodeRequest) (data : list Z) : nodeRequest :=
  mkNodeReq (nr_hash r) (nr_path r) (Some data) (nr_parent r) (nr_deps r) (nr_callback r).
Definition add_deps (n : Z) (r : nodeRequest) : nodeRequest :=
  mkNodeReq (nr_hash r) (nr_path r) (nr_data r) (nr_parent r) (nr_deps r + n) (nr_callback r).

(** ** Scheduling *)

(** The request becomes the next cell of the heap. *)
Definition scheduleNodeRequest (s : Sync) (req : nodeRequest) : Sync :=
  mkSync (ts_scheme s) (ts_database s) (ts_membatch s) (ts_heap s ++ [req])
    (<[nr_path req := length (ts_heap s)]> (ts_nodeReqs s)) (ts_codeReqs s)
    (prque_Push (ts_queue s) (NodeItem (nr_path req)) (sync_prio (nr_path req))) (ts_fetches s).

Definition scheduleCodeRequest (s : Sync) (req : codeRequest) : Sync :=
  match ts_codeReqs s !! cr_hash req with
  | Some old =>
      let old := mkCodeReq (cr_hash old) (cr_path old) (cr_data old) (cr_parents old ++ cr_parents req) in
      mkSync (ts_scheme s) (ts_database s) (ts_membatch s) (ts_heap s) (ts_nodeReqs s)
        (<[cr_hash req := old]> (ts_codeReqs s)) (ts_queue s) (ts_fetches s)
  | None =>
      mkSync (ts_scheme s) (ts_database s) (ts_membatch s) (ts_heap s) (ts_nodeReqs s)
        (<[cr_hash req := req]> (ts_codeReqs s))
        (prque_Push (ts_queue s) (CodeItem (cr_hash req)) (sync_prio (cr_path req))) (ts_fetches s)
  end.

(** The link to the designated parent: one dependency more. *)
Definition link_parent (s : Sync) (parent parentPath : list Z) : outcome (option nat * Sync) :=
  if bool_decide (parent = zero_hash) then Ret (None, s)
  else
    match ts_nodeReqs s !! parentPath with
    | None => Panic
    | Some j => Ret (Some j, with_heap s (alter (add_deps 1) j (ts_heap s)))
    end.

Definition AddSubTrie (s : Sync) (root path parent parentPath : list Z) (callback : option LeafCallback) : outcome Sync :=
  if bool_decide (root = EmptyRootHash) then Ret s
  else if hasNode (ts_membatch s) path then Ret s
  else
    '(owner, inner) ← ResolvePath path;
    known ← HasTrieNode (ts_database s) owner inner root (ts_scheme s);
    if (known : bool) then Ret s
    else
      '(ancestor, s) ← link_parent s parent parentPath;
      Ret (scheduleNodeRequest s (mkNodeReq root path None ancestor 0 callback)).

Definition AddCodeEntry (s : Sync) (hash path parent parentPath : list Z) : outcome Sync :=
  if bool_decide (hash = EmptyCodeHash) then Ret s
  else if hasCode (ts_membatch s) hash then Ret s
  else if HasCodeWithPrefix (ts_database s) hash then Ret s
  else
    '(ancestor, s) ← link_parent s parent parentPath;
    Ret (scheduleCodeRequest s (mkCodeReq hash path None (match ancestor with Some j => [j] | None => [] end))).

Definition NewSync (root : list Z) (database : disk) (callback : option LeafCallback) (scheme : string) : outcome Sync :=
  AddSubTrie (mkSync scheme database newSyncMemBatch [] ∅ ∅ prque_New ∅) root [] zero_hash [] callback.

(** ** Handing out *)

(** The loop of [Missing]; every round that does not end it takes an item off the
    queue, whose size bounds it. *)
Fixpoint missing_loop (fuel : nat) (max : Z) (s : Sync) (paths hashes codes : list (list Z))
  : outcome (list (list Z) * list (list Z) * list (list Z) * Sync) :=
  match fuel with
  | O => Panic
  | S fuel =>
      if negb (prque_Empty (ts_queue s)) && ((max =? 0) || (Z.of_nat (length hashes + length codes) <? max)) then
        match prque_Peek (ts_queue s) with
        | None => Panic
        | Some (item, prio) =>
            let depth := Z.shiftr prio 56 in
            if maxFetchesPerDepth <? default 0 (ts_fetches s !! depth) then Ret (paths, hashes, codes, s)
            else
              let s := mkSync (ts_scheme s) (ts_database s) (ts_membatch s) (ts_heap s) (ts_nodeReqs s) (ts_codeReqs s)
                         (prque_Pop (ts_queue s)) (<[depth := default 0 (ts_fetches s !! depth) + 1]> (ts_fetches s)) in
              match item with
              | CodeItem hash => missing_loop fuel max s paths hashes (codes ++ [hash])
              | NodeItem path =>
                  match ts_nodeReqs s !! path with
                  | None => missing_loop fuel max s paths hashes codes
                  | Some i =>
                      req ← of_option (ts_heap s !! i);
                      missing_loop fuel max s (paths ++ [path]) (hashes ++ [nr_hash req]) codes
                  end
              end
        end
      else Ret (paths, hashes, codes, s)
  end.
Definition Missing (s : Sync) (max : Z) : outcome (list (list Z) * list (list Z) * list (list Z) * Sync) :=
  missing_loop (S (prque_Size (ts_queue s))) max s [] [] [].

(** ** Completion *)

Definition batch_add (b : syncMemBatch) (req : nodeRequest) : syncMemBatch :=
  let data := default [] (nr_data req) in
  mkMemBatch (<[nr_path req := data]> (mb_nodes b)) (<[nr_path req := nr_hash req]> (mb_hashes b)) (mb_codes b)
    (u64 (mb_size b + Z.of_nat (HashLength + length data))).

Definition count_fetched (n : nat) (fetches : gmap Z Z) : gmap Z Z :=
  <[Z.of_nat n := default 0 (fetches !! Z.of_nat n) - 1]> fetches.

(** One dependency less; the last one completes the parent. *)
Definition notify_parent (commit : Sync -> nat -> outcome Sync) (s : Sync) (j : nat) : outcome Sync :=
  parent ← of_option (ts_heap s !! j);
  let s := with_heap s (<[j := add_deps (-1) parent]> (ts_heap s)) in
  if nr_deps parent - 1 =? 0 then commit s j else Ret s.

(** A parent is older than its children, so the age of the request bounds the climb. *)
Fixpoint commit_node (fuel : nat) (s : Sync) (i : nat) : outcome Sync :=
  match fuel with
  | O => Panic
  | S fuel =>
      req ← of_option (ts_heap s !! i);
      let s := mkSync (ts_scheme s) (ts_database s) (batch_add (ts_membatch s) req) (ts_heap s)
                 (base.delete (nr_path req) (ts_nodeReqs s)) (ts_codeReqs s) (ts_queue s)
                 (count_fetched (length (nr_path req)) (ts_fetches s)) in
      match nr_parent req with
      | None => Ret s
      | Some j => notify_parent (commit_node fuel) s j
      end
  end.
Definition commitNodeRequest (s : Sync) (i : nat) : outcome Sync := commit_node (S i) s i.

Definition commitCodeRequest (s : Sync) (req : codeRequest) : outcome Sync :=
  let data := default [] (cr_data req) in
  let b := ts_membatch s in
  let b := mkMemBatch (mb_nodes b) (mb_hashes b) (<[cr_hash req := data]> (mb_codes b))
             (u64 (mb_size b + Z.of_nat (HashLength + length data))) in
  let s := mkSync (ts_scheme s) (ts_database s) b (ts_heap s) (ts_nodeReqs s)
             (base.delete (cr_hash req) (ts_codeReqs s)) (ts_queue s) (count_fetched (length (cr_path req)) (ts_fetches s)) in
  foldl (fun o j => s ← o; notify_parent commitNodeRequest s j) (Ret s) (cr_parents req).

(** ** Taking in *)

Definition childNodes (path : list Z) (object : node) : outcome (list (list Z * node)) :=
  match object with
  | ShortNode key val _ =>
      let key := if hasTerm key then take (length key - 1) key else key in
      Ret [(path ++ key, val)]
  | FullNode cs _ =>
      Ret (omap (fun ic => match ic.2 with NilNode => None | c => Some (path ++ [Z.of_nat ic.1], c) end) (imap pair cs))
  | _ => Panic
  end.

(** The keys reported with a leaf: of one trie, or of a trie below another. *)
Definition leaf_keys (path : list Z) : outcome (list (list Z)) :=
  if (length path =? 2 * HashLength)%nat then k ← hexToKeybytes path; Ret [k]
  else if (length path =? 4 * HashLength)%nat then
    k1 ← hexToKeybytes (take (2 * HashLength) path); k2 ← hexToKeybytes (drop (2 * HashLength) path); Ret [k1; k2]
  else Ret [].

(** The callback may add tries and codes below the request. *)
Context (invoke : LeafCallback -> list (list Z) -> list Z -> list Z -> list Z -> list Z -> Sync -> outcome (option string * Sync)).

(** Request [i]'s children in order: values are reported, hashes that are not known
    yet become requests. *)
Fixpoint children_loop (s : Sync) (i : nat) (req : nodeRequest) (children : list (list Z * node))
  : outcome (res sync_err (list nodeRequest) * Sync) :=
  match children with
  | [] => Ret (Ok [], s)
  | (path, n) :: children =>
      '(err, s) ← match nr_callback req, n with
                  | Some callback, ValueNode v =>
                      paths ← leaf_keys path; invoke callback paths path v (nr_hash req) (nr_path req) s
                  | _, _ => Ret (None, s)
                  end;
      match err with
      | Some e => Ret (Err (ErrCallback e), s)
      | None =>
          miss ← match n with
                 | HashNode h =>
                     if hasNode (ts_membatch s) path then Ret []
                     else
                       let chash := BytesToHash h in
                       '(owner, inner) ← ResolvePath path;
                       known ← HasTrieNode (ts_database s) owner inner chash (ts_scheme s);
                       Ret (if (known : bool) then [] else [mkNodeReq chash path None (Some i) 0 (nr_callback req)])
                 | _ => Ret []
                 end;
          '(rest, s) ← children_loop s i req children;
          Ret (match rest with Ok rest => Ok (miss ++ rest) | Err e => Err e end, s)
      end
  end.

(** The database is asked concurrently: [arrived] is the order in which the missing
    children arrive. *)
Definition children (arrived : list nodeRequest -> list nodeRequest) (s : Sync) (i : nat) (req : nodeRequest) (object : node)
  : outcome (res sync_err (list nodeRequest) * Sync) :=
  cs ← childNodes (nr_path req) object;
  '(r, s) ← children_loop s i req cs;
  Ret (match r with Ok requests => Ok (arrived requests) | Err e => Err e end, s).

Definition ProcessNode (arrived : list nodeRequest -> list nodeRequest) (s : Sync) (path data : list Z)
  : outcome (option sync_err * Sync) :=
  match ts_nodeReqs s !! path with
  | None => Ret (Some ErrNotRequested, s)
  | Some i =>
      req ← of_option (ts_heap s !! i);
      match nr_data req with
      | Some _ => Ret (Some ErrAlreadyProcessed, s)
      | None =>
          match decodeNode (Some (nr_hash req)) data with
          | Err DecodePanic => Panic
          | Err e => Ret (Some (ErrDecode e), s)
          | Ok n =>
              let s := with_heap s (<[i := set_data req data]> (ts_heap s)) in
              '(r, s) ← children arrived s i (set_data req data) n;
              match r with
              | Err e => Ret (Some e, s)
              | Ok requests =>
                  req ← of_option (ts_heap s !! i);
                  if (length requests =? 0)%nat && (nr_deps req =? 0) then s ← commitNodeRequest s i; Ret (None, s)
                  else
                    let s := with_heap s (<[i := add_deps (Z.of_nat (length requests)) req]> (ts_heap s)) in
                    Ret (None, foldl scheduleNodeRequest s requests)
              end
          end
      end
  end.

Definition ProcessCode (s : Sync) (hash data : list Z) : outcome (option sync_err * Sync) :=
  match ts_codeReqs s !! hash with
  | None => Ret (Some ErrNotRequested, s)
  | Some req =>
      match cr_data req with
      | Some _ => Ret (Some ErrAlreadyProcessed, s)
      | None =>
          s ← commitCodeRequest s (mkCodeReq (cr_hash req) (cr_path req) (Some data) (cr_parents req));
          Ret (None, s)
      end
  end.

(** ** Writing out *)

(** The writes of [Commit] into the batch [dbw], the maps visited in the given orders. *)
Fixpoint write_nodes (b : syncMemBatch) (scheme : string) (order : list (list Z * list Z)) : outcome batch :=
  match order with
  | [] => Ret []
  | (path, value) :: order =>
      '(owner, inner) ← ResolvePath path;
      ops ← WriteTrieNode owner inner (default zero_hash (mb_hashes b !! path)) value scheme;
      rest ← write_nodes b scheme order;
      Ret (ops ++ rest)
  end.
Definition Sync_Commit (s : Sync) (order codes : list (list Z * list Z)) (dbw : batch) : outcome (batch * Sync) :=
  ops ← write_nodes (ts_membatch s) (ts_scheme s) order;
  Ret (dbw ++ ops ++ flat_map (fun kv => WriteCode kv.1 kv.2) codes,
       mkSync (ts_scheme s) (ts_database s) newSyncMemBatch (ts_heap s) (ts_nodeReqs s) (ts_codeReqs s) (ts_queue s) (ts_fetches s)).

Definition MemSize (s : Sync) : Z := mb_size (ts_membatch s).
Definition Pending (s : Sync) : nat := (size (ts_nodeReqs s) + size (ts_codeReqs s))%nat.
End sync.
