(* ===== verification/Syncing.v ===== *)
(** * What a state sync leaves on the disk ([trie/sync.go])

    A download answers the requests of the scheduler in any order.  Proved here: at
    every moment a stored node of the trie is stored with everything below it, also on
    the disk, so an interrupted download can be resumed; when nothing is pending the
    whole trie is stored; and a client that answers what [Missing] hands out gets
    there. *)

From stdpp Require Import base gmap strings list sorting.
From Stdlib Require Import ZArith Lia.
From S2P Require Import Prelude Encoding TrieSpec Node Trie TrieMap Hasher Committer Reload Database MerkleProof Iteration StateSync.

Local Open Scope Z_scope.

(** RLP writes a string out in full. *)
Class RLPSize `{HashEnv} : Prop := Bytes_length : forall s, (length s <= length (rlp_WriteBytes s))%nat.

(** ** The nodes of the target *)

(** [q] is the path of the inner child [c] of the node [t] at [p]. *)
Inductive kid (p : list Z) : ptrie -> list Z -> ptrie -> Prop :=
| kid_short k c : pinner c = true -> kid p (PShort k c) (p ++ k) c
| kid_full cs i c : cs !! i = Some c -> pinner c = true -> kid p (PFull cs) (p ++ [Z.of_nat i]) c.

Lemma kid_longer p t q c : spot p t -> kid p t q c -> exists y, q = p ++ y /\ y <> [].
Proof.
  intros Hs Hk. revert Hs. destruct Hk as [k c' _|cs i c' _ _]; intros Hs; [|by eexists]. exists k. split; [done|]. exact (proj2 (spot_short _ _ _ Hs)).
Qed.

Lemma kid_in p t q c : kid p t q c -> (q, c) ∈ below p t (-1).
Proof.
  intros [k c' Hi|cs i c' E Hi]; cbn [below].
  - cbn. rewrite pre_below by (by destruct c'). left.
  - change (Z.to_nat (-1 + 1)) with 0%nat. rewrite drop_0. apply elem_of_kids. exists i, c'. split; [done|].
    cbn [Nat.add]. rewrite pre_below by (by destruct c'). left.
Qed.

Lemma pre_in_pre t : forall p q s, (q, s) ∈ pre p t -> pre q s ⊆ pre p t.
Proof.
  induction t as [|v|k c IH|cs IH] using ptrie_nested_ind; intros p q s; cbn [pre].
  - by intros ?%elem_of_nil.
  - by intros [= -> ->]%list_elem_of_singleton.
  - intros [[= -> ->]|Hin]%elem_of_cons; [done|]. intros x Hx. right. by apply (IH _ _ _ Hin).
  - intros [[= -> ->]|Hin]%elem_of_cons; [done|]. intros x Hx. right. apply elem_of_kids in Hin as (i & c & E & Hin).
    apply elem_of_kids. exists i, c. split; [done|]. by apply (IH i c E _ _ _ Hin).
Qed.

Lemma kid_node t p0 p s q c : (p, s) ∈ pre p0 t -> kid p s q c -> (q, c) ∈ pre p0 t.
Proof.
  intros Hin Hk. apply (pre_in_pre _ _ _ _ Hin). rewrite pre_below by (by destruct Hk). right. by apply kid_in.
Qed.

(** A node has one place above it. *)
Lemma kid_below p t q c p' t' c' : spot p t -> kid p t q c -> (p', t') ∈ below p t (-1) -> ~ kid p' t' q c'.
Proof.
  intros Hs Hk Hin Hk'.
  assert (exists y, p' = q ++ y \/ (exists x, p' = p ++ x :: y /\ exists i, q = p ++ [i])) as [y Hy].
  { revert Hs Hin. destruct Hk as [k c0 Hi|cs i c0 E Hi]; intros Hs Hin; cbn [below] in Hin.
    - cbn in Hin. destruct (spot_short _ _ _ Hs) as [Hc _]. destruct (pre_ext _ _ _ Hc Hin) as [y Ey]. exists y. by left.
    - change (Z.to_nat (-1 + 1)) with 0%nat in Hin. rewrite drop_0 in Hin. apply elem_of_kids in Hin as (j & c1 & E1 & Hin).
      destruct (slot_ext _ _ _ _ _ Hs E1 Hin) as [y Ey]. exists y. right. exists (Z.of_nat j). split; [exact Ey|]. by eexists. }
  assert (spot p' t') as Hs'.
  { pose proof (pre_spots t p Hs) as Hf. rewrite Forall_forall in Hf. apply (Hf (p', t')). rewrite pre_below by (by destruct Hk). by right. }
  destruct (kid_longer _ _ _ _ Hs' Hk') as (z & Eq & Hz). destruct Hy as [->|(x & -> & i & ->)].
  - apply (f_equal length) in Eq. rewrite !length_app in Eq. destruct z; [done|cbn in Eq; lia].
  - apply (f_equal length) in Eq. rewrite !length_app in Eq. destruct z; [done|cbn in Eq; lia].
Qed.

Lemma kid_unique t : forall p, spot p t -> forall p1 t1 p2 t2 q c1 c2, (p1, t1) ∈ pre p t -> (p2, t2) ∈ pre p t ->
  kid p1 t1 q c1 -> kid p2 t2 q c2 -> p1 = p2.
Proof.
  induction t as [|v|k c IH|cs IH] using ptrie_nested_ind; intros p Hs p1 t1 p2 t2 q c1 c2 H1 H2 K1 K2.
  - by apply elem_of_nil in H1.
  - apply list_elem_of_singleton in H1 as [= -> ->]. by inversion K1.
  - rewrite pre_below in H1, H2 by done.
    apply elem_of_cons in H1 as [[= -> ->]|H1], H2 as [[= -> ->]|H2]; [done| | |].
    + by destruct (kid_below _ _ _ _ _ _ _ Hs K1 H2 K2).
    + by destruct (kid_below _ _ _ _ _ _ _ Hs K2 H1 K1).
    + cbn in H1, H2. destruct (spot_short _ _ _ Hs) as [Hc _]. by eapply (IH _ Hc).
  - rewrite pre_below in H1, H2 by done.
    apply elem_of_cons in H1 as [[= -> ->]|H1], H2 as [[= -> ->]|H2]; [done| | |].
    + by destruct (kid_below _ _ _ _ _ _ _ Hs K1 H2 K2).
    + by destruct (kid_below _ _ _ _ _ _ _ Hs K2 H1 K1).
    + cbn [below] in H1, H2. change (Z.to_nat (-1 + 1)) with 0%nat in *. rewrite drop_0 in *.
      apply elem_of_kids in H1 as (i1 & s1 & E1 & H1), H2 as (i2 & s2 & E2 & H2). cbn [Nat.add] in *.
      pose proof (kid_node _ _ _ _ _ _ H1 K1) as Q1. pose proof (kid_node _ _ _ _ _ _ H2 K2) as Q2.
      destruct (slot_ext _ _ _ _ _ Hs E1 Q1) as [y1 Ey1], (slot_ext _ _ _ _ _ Hs E2 Q2) as [y2 Ey2]. cbn in Ey1, Ey2.
      rewrite Ey1 in Ey2. apply app_inv_head in Ey2. injection Ey2 as Ei _. apply Nat2Z.inj in Ei as ->. rewrite E1 in E2. injection E2 as <-.
      eapply (IH _ _ E1); [|done..]. eapply spot_full; [done..|]. intros ->. by apply elem_of_nil in H1.
Qed.

Lemma pre_unique t p q s1 s2 : spot p t -> (q, s1) ∈ pre p t -> (q, s2) ∈ pre p t -> s1 = s2.
Proof.
  intros Hs H1 H2. pose proof (pre_sorted t p Hs) as Hsort. induction Hsort as [|x l _ IH Hx]; [by apply elem_of_nil in H1|].
  rewrite Forall_forall in Hx.
  assert (forall s, (q, s) ∈ l -> x.1 <> q) as Hne.
  { intros s Hin E. specialize (Hx _ Hin). rewrite E in Hx. cbn in Hx. by destruct (irreflexivity before q). }
  apply elem_of_cons in H1 as [<-|H1], H2 as [E2|H2].
  - by injection E2.
  - by destruct (Hne _ H2).
  - subst x. by destruct (Hne _ H1).
  - by apply IH.
Qed.

(** ** Decoding one node *)

Definition unhashed (n : node) : Prop := is_inner n = true -> (cache n).1 = None.

Section decoding.
Context `{RLP}.

(** The decoder gives the hash to the outermost node only. *)
Lemma decoded_cache fuel ho buf n : decodeNodeUnsafe fuel ho buf = Ok n -> (cache n).1 = ho.
Proof.
  destruct fuel as [|fuel]; [done|]. cbn [decodeNodeUnsafe]. case_match; [done|]. case_match; [|done]. destruct a as [elems rest].
  case_match; [|case_match; [|done]]; unfold wrapError; intros Hn; case_match eqn:Ed; simplify_eq; try (by case_match).
  - unfold decodeShort in Ed. apply res_bind_Ok in Ed as ([kbuf r] & _ & Ed). case_match; [|done]. case_match.
    + repeat case_match; by simplify_eq.
    + apply res_bind_Ok in Ed as ([? ?] & _ & Ed). by simplify_eq.
  - unfold decodeFull in Ed. apply res_bind_Ok in Ed as ([clds r] & _ & Ed).
    apply res_bind_Ok in Ed as ([? ?] & _ & Ed). by simplify_eq.
Qed.

Lemma decodeRef_unhashed fuel buf n rest : decodeRef (decodeNodeUnsafe fuel) buf = Ok (n, rest) -> unhashed n.
Proof.
  unfold decodeRef. intros E. apply res_bind_Ok in E as ([[kind val] r] & _ & E). destruct kind; [done| |].
  - repeat case_match; by simplify_eq.
  - case_match; [done|]. apply res_bind_Ok in E as (n' & En & E). simplify_eq. intros _. by eapply decoded_cache.
Qed.

Lemma decodeFull_unhashed fuel k : forall i buf ns rest, decodeFull_loop (decodeNodeUnsafe fuel) k i buf = Ok (ns, rest) -> Forall unhashed ns.
Proof.
  induction k as [|k IH]; intros i buf ns rest E; cbn [decodeFull_loop] in E; [by injection E as <- <-|].
  apply res_bind_Ok in E as ([c r] & Ec & E). apply res_bind_Ok in E as ([cs r'] & Ecs & E). injection E as <- <-.
  constructor; [|by eapply IH]. unfold wrapError in Ec. case_match eqn:Er; [|by repeat case_match]. injection Ec as ->. by eapply decodeRef_unhashed.
Qed.

Lemma decoded_unhashed fuel ho buf n : decodeNodeUnsafe fuel ho buf = Ok n ->
  match n with ShortNode _ c _ => unhashed c | FullNode cs _ => Forall unhashed cs | _ => False end.
Proof.
  destruct fuel as [|fuel]; [done|]. cbn [decodeNodeUnsafe]. case_match; [done|]. case_match; [|done]. destruct a as [elems rest].
  case_match; [|case_match; [|done]]; unfold wrapError; intros Hn; case_match eqn:Ed; simplify_eq; try (by repeat case_match).
  - unfold decodeShort in Ed. apply res_bind_Ok in Ed as ([kbuf r] & _ & Ed). case_match; [|done]. case_match.
    + repeat case_match; by simplify_eq.
    + apply res_bind_Ok in Ed as ([c ?] & Ec & Ed). simplify_eq. unfold wrapError in Ec. case_match eqn:Er; [|by repeat case_match]. injection Ec as ->.
      by eapply decodeRef_unhashed.
  - unfold decodeFull in Ed. apply res_bind_Ok in Ed as ([clds r] & El & Ed).
    apply res_bind_Ok in Ed as ([? ?] & _ & Ed). simplify_eq. apply Forall_app. split; [by eapply decodeFull_unhashed|].
    apply Forall_singleton. by case_match.
Qed.
End decoding.

Section stored.
Context `{RLPLaws} `{EthCommon} `{!HashLaws} `{!CollisionFree} `{!RLPSize}.

(** A child as it is in its parent's encoding. *)
Definition child_view (n : node) (c : ptrie) : Prop :=
  match n with
  | NilNode => c = PNil
  | ValueNode v => c = PVal v
  | HashNode h => h = keccak256 (penc c) /\ pinner c = true /\ (32 <= length (penc c))%nat
  | _ => pinner c = true /\ (length (penc c) < 32)%nat
  end.

Lemma child_view_of clean rd p n c : p <> [] -> @expands _ _ (hash_flags clean) rd p n c -> @settled (hash_flags clean) p n c -> unhashed n ->
  child_view n c.
Proof.
  intros Hp He Hs Hu. inversion He as [| |? ? ? ? ? Hfl|? ? ? ? Hfl|? ? n0 t [Hfl _] Hl _ He']; subst; cbn; try done.
  - inversion Hs as [| |? ? ? ? ? Hemb| |]; subst. specialize (Hu eq_refl). cbn in Hu. by destruct (Hemb Hu) as [_ ?].
  - inversion Hs as [| | |? ? ? ? Hemb|]; subst. specialize (Hu eq_refl). cbn in Hu. by destruct (Hemb Hu) as [_ ?].
  - destruct (Hfl h eq_refl) as [-> [?|?]]; [done|]. split; [done|]. split; [|done]. apply load_inner in Hl.
    destruct n0; try done; by inversion He'.
Qed.

(** The node that the encoding of a canonical trie decodes to. *)
Definition node_view (n : node) (t : ptrie) : Prop :=
  match n, t with
  | ShortNode k c _, PShort k' c' => k = k' /\ child_view c c'
  | FullNode cs _, PFull ts => length cs = length ts /\ forall i c t, cs !! i = Some c -> ts !! i = Some t -> child_view c t
  | _, _ => False
  end.

Lemma decode_view t : wf t -> pinner t = true ->
  exists n, decodeNode (Some (keccak256 (penc t))) (penc t) = Ok n /\ node_view n t.
Proof.
  intros Hw Hi.
  destruct (decodes_all (solid (ideal t)) (ideal_reader t) (ideal_serves t) t [] (S (length (penc t)))
              (Some (keccak256 (penc t))) []) as (n & E & He & Hs); [|done|done|lia|auto|].
  { apply pstored_solid. by apply ideal_stored. }
  rewrite app_nil_r in E. exists n. split; [exact E|]. pose proof (decoded_unhashed _ _ _ _ E) as Hu.
  destruct n as [| | |k c f|cs f]; try done.
  - inversion He as [| |? ? ? ? t' _ _ Hc| |]; subst. inversion Hs as [| |? ? ? ? ? _ Hsc| |]; subst. cbn. split; [done|].
    eapply child_view_of; [|done..]. cbn. by eapply wf_short_ne.
  - inversion He as [| | |? ? ? ts _ _ Hlen Hc|]; subst. inversion Hs as [| | |? ? ? ? _ _ Hsc|]; subst. cbn. split; [done|].
    intros i c t Ec Et. eapply child_view_of; [|by eapply Hc|by eapply Hsc|]; [done|]. rewrite Forall_forall in Hu.
    apply Hu. by eapply list_elem_of_lookup_2.
Qed.

(** A node that fits into its parent refers to nothing by hash. *)
Lemma pstored_small D t : (length (penc t) < 32)%nat -> pstored D false t.
Proof.
  assert (forall c l, (length (pref c) <= l)%nat -> (l < 32)%nat -> pinner c = true -> (length (penc c) < 32)%nat) as Hc.
  { intros c l Hl Hl' Hi. destruct (decide (length (penc c) < 32)%nat); [done|].
    rewrite pref_large in Hl by (done || lia). pose proof (Bytes_length (keccak256 (penc c))) as Hb. rewrite keccak256_length in Hb. lia. }
  induction t as [|v|k c IH|cs IH] using ptrie_nested_ind; intros Hl; constructor.
  - intros [?|?]; [done|lia].
  - destruct (pinner c) eqn:Hi; [|destruct c; try done; constructor]. apply IH.
    rewrite penc_short in Hl. pose proof (List_length (rlp_WriteBytes (compact k) ++ pref c)) as Hll. rewrite length_app in Hll.
    apply (Hc c (length (pref c))); [done|lia|done].
  - intros [?|?]; [done|lia].
  - intros i c E. destruct (pinner c) eqn:Hi; [|destruct c; try done; constructor]. apply (IH i c E).
    rewrite penc_full in Hl. pose proof (List_length (flat_map pref cs)) as Hll. pose proof (length_flat_map_pref cs i c E).
    apply (Hc c (length (pref c))); [done|lia|done].
Qed.

(** The children of a node that it refers to by hash. *)
Definition hkid (p : list Z) (t : ptrie) (q : list Z) (c : ptrie) : Prop := kid p t q c /\ (32 <= length (penc c))%nat.

Lemma pstored_less D t : pstored D true t -> pstored D false t.
Proof. inversion 1; subst; constructor; auto. Qed.

(** Only entries under their own hash count. *)
Lemma pstored_keccak (D1 D2 : list Z -> list Z -> Prop) r t :
  (forall b, D1 (keccak256 b) b -> D2 (keccak256 b) b) -> pstored D1 r t -> pstored D2 r t.
Proof. intros Hm. induction 1; constructor; eauto. Qed.

Lemma pstored_hashed D t : pstored D false t -> (32 <= length (penc t))%nat -> pstored D true t.
Proof. inversion 1; subst; intros Hl; constructor; auto. Qed.

Lemma pstored_unfold D p t : pinner t = true ->
  pstored D true t <-> D (keccak256 (penc t)) (penc t) /\ forall q c, hkid p t q c -> pstored D true c.
Proof.
  intros Hi. split.
  - intros Hs. split; [by apply (pstored_self D true); auto|]. intros q c [Hk Hl]. apply pstored_hashed; [|done].
    destruct Hk as [k c' _|cs i c' E _]; inversion Hs; subst; eauto.
  - intros [Hd Hk]. assert (forall q c, kid p t q c -> pstored D false c) as Hc.
    { intros q c Hq. destruct (decide (length (penc c) < 32)%nat) as [Hl|Hl]; [by apply pstored_small|].
      apply pstored_less, (Hk q c). split; [done|lia]. }
    destruct t as [| |k c|cs]; try done; constructor; [done| |done|].
    + destruct (pinner c) eqn:Hic; [eapply Hc; by constructor|]. destruct c; try done; constructor.
    + intros i c E. destruct (pinner c) eqn:Hic; [eapply Hc; by econstructor|]. destruct c; try done; constructor.
Qed.
End stored.

(** ** Counting *)

Lemma count_app {A} (p : A -> bool) l1 l2 : count p (l1 ++ l2) = (count p l1 + count p l2)%nat.
Proof. unfold count. by rewrite filter_app, length_app. Qed.

Lemma count_agree {A} (p p' : A -> bool) l : (forall i x, l !! i = Some x -> p x = p' x) -> count p l = count p' l.
Proof.
  induction l as [|x l IH]; intros Hx; [done|]. rewrite !count_cons, (Hx 0%nat x) by done. f_equal. apply IH. intros i y. apply (Hx (S i)).
Qed.

Lemma count_one {A} (p p' : A -> bool) l i x : l !! i = Some x -> p x = true -> p' x = false ->
  (forall j y, l !! j = Some y -> j <> i -> p y = p' y) -> count p l = S (count p' l).
Proof.
  revert i. induction l as [|y l IH]; intros [|i] E Hp Hp' Ho; try done; rewrite !count_cons.
  - injection E as ->. rewrite Hp, Hp'. cbn. f_equal. apply count_agree. intros j z Ej. by apply (Ho (S j) z).
  - rewrite (Ho 0%nat y) by done. rewrite (IH i E Hp Hp'); [lia|].
    intros j z Ej Hne. apply (Ho (S j) z Ej). lia.
Qed.

Lemma count_all {A} (p : A -> bool) l : (forall i x, l !! i = Some x -> p x = true) -> count p l = length l.
Proof.
  induction l as [|x l IH]; intros Hx; [done|]. rewrite count_cons, (Hx 0%nat x) by done. cbn. f_equal. apply IH. intros i y. apply (Hx (S i)).
Qed.

Lemma count_pos_ex {A} (p : A -> bool) l : (0 < count p l)%nat -> exists i x, l !! i = Some x /\ p x = true.
Proof.
  intros Hc. destruct (list_find (fun x => p x = true) l) as [[i x]|] eqn:E.
  - apply list_find_Some in E as (? & ? & _). by exists i, x.
  - apply list_find_None in E. assert (count p l = 0%nat) as Hz; [|lia]. apply count_0. intros i x Hx.
    rewrite Forall_lookup in E. specialize (E i x Hx). cbn in E. by destruct (p x).
Qed.

Lemma count_alter {A} (p : A -> bool) (g : A -> A) l j : (forall x, p (g x) = p x) -> count p (alter g j l) = count p l.
Proof.
  intros Hg. revert j. induction l as [|x l IH]; intros j; [by destruct j|]. destruct j as [|j].
  - transitivity (count p (g x :: l)); [done|]. by rewrite !count_cons, Hg.
  - transitivity (count p (x :: alter g j l)); [done|]. by rewrite !count_cons, IH.
Qed.

(** ** The requests *)

Section requests.
Context `{RLPLaws} `{EthCommon} `{!HashLaws} `{!CollisionFree} `{!RLPSize} `{LeafCallbacks}.
Context (pt : ptrie) (Hwf : wf pt) (Hinner : pinner pt = true).

Abbreviation node_at p t := ((p, t) ∈ pre [] pt).
Abbreviation store := (list Z -> list Z -> Prop).

Lemma target_spot : spot [] pt.
Proof. exists false. split; [done|]. split; [constructor|]. by intros ->. Qed.

Lemma node_spot p t : node_at p t -> spot p t.
Proof. intros Hin. pose proof (pre_spots pt [] target_spot) as Hf. rewrite Forall_forall in Hf. apply (Hf _ Hin). Qed.

Lemma node_root : node_at [] pt.
Proof. rewrite pre_below by (by intros ->). left. Qed.

Lemma node_unique p t t' : node_at p t -> node_at p t' -> t = t'.
Proof. apply pre_unique, target_spot. Qed.

Lemma node_wf p t : node_at p t -> pinner t = true -> wf t /\ hex_path p.
Proof. intros Hin Hi. destruct (node_spot p t Hin) as ([] & Hw & Hp & _); [by destruct t|done]. Qed.

Lemma node_parent p1 t1 p2 t2 q c1 c2 : node_at p1 t1 -> node_at p2 t2 -> kid p1 t1 q c1 -> kid p2 t2 q c2 -> p1 = p2.
Proof. apply (kid_unique pt), target_spot. Qed.

(** A request that is not done. *)
Definition pend (reqs : gmap (list Z) nat) (r : nodeRequest) : Prop := is_Some (reqs !! nr_path r).

(** A request that the request [j] waits for. *)
Definition awaited (reqs : gmap (list Z) nat) (j : nat) (r : nodeRequest) : bool :=
  bool_decide (nr_parent r = Some j) && bool_decide (pend reqs r).

(** What request stands for which node, with what is stored below it. *)
Definition req_ok (reqs : gmap (list Z) nat) (A : store) (r : nodeRequest) : Prop :=
  exists t, node_at (nr_path r) t /\ pinner t = true /\ nr_hash r = keccak256 (penc t) /\ nr_callback r = None /\
  match nr_data r with
  | None => pend reqs r /\ nr_deps r = 0
  | Some b => b = penc t /\ (pend reqs r \/ pstored A true t)
  end.

(** Every request but the first hangs below one that was answered. *)
Definition parent_ok (heap : list nodeRequest) (reqs : gmap (list Z) nat) (i : nat) (r : nodeRequest) : Prop :=
  match nr_parent r with
  | None => nr_path r = []
  | Some j => (j < i)%nat /\ exists pr t c, heap !! j = Some pr /\ is_Some (nr_data pr) /\ node_at (nr_path pr) t /\
      kid (nr_path pr) t (nr_path r) c /\ (pend reqs r -> pend reqs pr)
  end.

(** An answered request waits for the children that are not stored. *)
Definition waits (reqs : gmap (list Z) nat) (A : store) (r : nodeRequest) : Prop :=
  forall t q c, node_at (nr_path r) t -> hkid (nr_path r) t q c -> pstored A true c \/ is_Some (reqs !! q).

(** The requests in the heap, those not done by path, and the nodes stored; [ex] is a
    request whose last dependency is gone. *)
Record core (heap : list nodeRequest) (reqs : gmap (list Z) nat) (A : store) (ex : option nat) : Prop := {
  co_req : forall i r, heap !! i = Some r -> req_ok reqs A r;
  co_ptr : forall p i, reqs !! p = Some i -> exists r, heap !! i = Some r /\ nr_path r = p;
  co_paths : forall i j r r', heap !! i = Some r -> heap !! j = Some r' -> nr_path r = nr_path r' -> i = j;
  co_parent : forall i r, heap !! i = Some r -> parent_ok heap reqs i r;
  co_deps : forall i r, heap !! i = Some r -> nr_deps r = Z.of_nat (count (awaited reqs i) heap);
  co_wait : forall i r, heap !! i = Some r -> is_Some (nr_data r) -> pend reqs r -> waits reqs A r /\ (ex <> Some i -> 0 < nr_deps r);
  co_ex : forall i, ex = Some i -> exists r, heap !! i = Some r /\ is_Some (nr_data r) /\ pend reqs r /\ nr_deps r = 0;
  co_root : pstored A true pt \/ is_Some (reqs !! []);
}.

Lemma core_mono heap reqs A A' ex : (forall b, A (keccak256 b) b -> A' (keccak256 b) b) -> core heap reqs A ex -> core heap reqs A' ex.
Proof.
  intros Hm [Hr Hp Hpa Hpar Hd Hw He Hro]. assert (forall t, pstored A true t -> pstored A' true t) as Hm' by (intros t; by apply pstored_keccak).
  split; try done.
  - intros i r Ei. destruct (Hr i r Ei) as (t & ? & ? & ? & ? & Hda). exists t. do 4 (split; [done|]). destruct (nr_data r); [|done].
    destruct Hda as [? [?|?]]; auto.
  - intros i r Ei Hda Hpe. destruct (Hw i r Ei Hda Hpe) as [Hk ?]. split; [|done]. intros t q c Hn Hq. destruct (Hk t q c Hn Hq); auto.
  - destruct Hro; auto.
Qed.

Lemma pend_ptr heap reqs A ex i r : core heap reqs A ex -> heap !! i = Some r -> pend reqs r -> reqs !! nr_path r = Some i.
Proof.
  intros Hc Ei [j Ej]. rewrite Ej. f_equal. destruct (co_ptr _ _ _ _ Hc _ _ Ej) as (r' & Er & Ep). by eapply (co_paths _ _ _ _ Hc j i).
Qed.

(** The request for a child of a requested node waits below it. *)
Lemma child_awaited heap reqs A ex i r t q c : core heap reqs A ex -> heap !! i = Some r -> node_at (nr_path r) t -> kid (nr_path r) t q c ->
  is_Some (reqs !! q) -> exists j r', heap !! j = Some r' /\ nr_path r' = q /\ awaited reqs i r' = true.
Proof.
  intros Hc Ei Hn Hk [j Ej]. destruct (co_ptr _ _ _ _ Hc _ _ Ej) as (r' & Er & Ep). exists j, r'. split; [done|]. split; [done|].
  pose proof (co_parent _ _ _ _ Hc _ _ Er) as Hpar. unfold parent_ok in Hpar. unfold awaited.
  assert (pend reqs r') as Hpe by (unfold pend; rewrite Ep; by eexists). rewrite (bool_decide_true (pend _ _)) by done.
  rewrite andb_true_r. destruct (nr_parent r') as [k|].
  - destruct Hpar as (_ & pr & t' & c' & Ek & _ & Hn' & Hk' & _). rewrite Ep in Hk'.
    pose proof (node_parent _ _ _ _ _ _ _ Hn Hn' Hk Hk') as Epp. rewrite (co_paths _ _ _ _ Hc i k r pr Ei Ek Epp). by apply bool_decide_true.
  - rewrite Ep in Hpar. rewrite Hpar in Hk. destruct (kid_longer _ _ _ _ (node_spot _ _ Hn) Hk) as (y & Ey & Hy).
    symmetry in Ey. by apply app_eq_nil in Ey as [_ ?].
Qed.

Lemma exempt_complete heap reqs A i r t : core heap reqs A (Some i) -> heap !! i = Some r -> node_at (nr_path r) t ->
  count (awaited reqs i) heap = 0%nat /\ forall q c, hkid (nr_path r) t q c -> pstored A true c.
Proof.
  intros Hc Ei Hn. destruct (co_ex _ _ _ _ Hc i eq_refl) as (r0 & Ei' & Hda & Hpe & Hd). rewrite Ei in Ei'. injection Ei' as <-.
  assert (count (awaited reqs i) heap = 0%nat) as Hz by (pose proof (co_deps _ _ _ _ Hc i r Ei); lia). split; [done|].
  intros q c Hq. destruct (co_wait _ _ _ _ Hc i r Ei Hda Hpe) as [Hw _]. destruct (Hw t q c Hn Hq) as [?|Hs]; [done|].
  destruct (child_awaited _ _ _ _ _ _ _ _ _ Hc Ei Hn (proj1 Hq) Hs) as (j & r' & Ej & _ & Ha). rewrite count_0 in Hz. by rewrite (Hz _ _ Ej) in Ha.
Qed.

(** ** Completing a request *)

Definition notified (heap : list nodeRequest) (r : nodeRequest) : list nodeRequest :=
  match nr_parent r with Some j => alter (add_deps (-1)) j heap | None => heap end.
Definition next_done (heap : list nodeRequest) (r : nodeRequest) : option nat :=
  match nr_parent r with
  | Some j => match heap !! j with Some pr => if nr_deps pr - 1 =? 0 then Some j else None | None => None end
  | None => None
  end.

Definition adjusted (r : nodeRequest) (k : nat) (x : nodeRequest) : nodeRequest :=
  if bool_decide (nr_parent r = Some k) then add_deps (-1) x else x.

Lemma adjusted_same r k x : nr_path (adjusted r k x) = nr_path x /\ nr_hash (adjusted r k x) = nr_hash x /\
  nr_callback (adjusted r k x) = nr_callback x /\ nr_data (adjusted r k x) = nr_data x /\ nr_parent (adjusted r k x) = nr_parent x.
Proof. unfold adjusted. by case_bool_decide. Qed.

Lemma notified_lookup heap r k x : notified heap r !! k = Some x <-> exists x0, heap !! k = Some x0 /\ x = adjusted r k x0.
Proof.
  unfold notified, adjusted. destruct (nr_parent r) as [j|].
  - destruct (decide (j = k)) as [->|Hne].
    + rewrite list_lookup_alter_eq, bool_decide_true by done. destruct (heap !! k); cbn; naive_solver.
    + rewrite list_lookup_alter_ne, bool_decide_false by congruence. naive_solver.
  - rewrite bool_decide_false by done. naive_solver.
Qed.

Section commit.
Context (heap : list nodeRequest) (reqs : gmap (list Z) nat) (A A' : store) (i : nat) (r : nodeRequest).
Context (Hc : core heap reqs A (Some i)) (Ei : heap !! i = Some r).
Context (HA : forall h b, A h b -> A' h b) (Hnew : A' (nr_hash r) (default [] (nr_data r))).
Let reqs' := base.delete (nr_path r) reqs.

Lemma commit_pend k x : heap !! k = Some x -> pend reqs' x <-> pend reqs x /\ k <> i.
Proof.
  intros Ek. unfold pend, reqs'. destruct (decide (k = i)) as [->|Hne].
  - rewrite Ei in Ek. injection Ek as <-. rewrite lookup_delete_eq. split; [by intros [? ?]|by intros [_ ?]].
  - rewrite lookup_delete_ne; [tauto|]. intros E. by apply Hne, (co_paths _ _ _ _ Hc k i x r).
Qed.

Lemma commit_complete t : node_at (nr_path r) t -> pstored A' true t.
Proof.
  intros Hn. destruct (exempt_complete _ _ _ _ _ _ Hc Ei Hn) as [_ Hk]. destruct (co_req _ _ _ _ Hc i r Ei) as (t' & Hn' & Hi & Eh & _ & Hda).
  rewrite (node_unique _ _ _ Hn Hn') in *. destruct (co_ex _ _ _ _ Hc i eq_refl) as (r0 & Ei' & [b Eb] & _). rewrite Ei in Ei'. injection Ei' as <-.
  rewrite Eb in Hda, Hnew. destruct Hda as [-> _]. apply (pstored_unfold _ (nr_path r)); [done|]. split; [by rewrite <- Eh|].
  intros q c Hq. eapply pstored_mono; [exact HA|]. by apply (Hk q).
Qed.

Lemma commit_parent j : nr_parent r = Some j -> (j < i)%nat /\ exists pr, heap !! j = Some pr /\ is_Some (nr_data pr) /\ pend reqs pr /\ 0 < nr_deps pr.
Proof.
  intros Ej. pose proof (co_parent _ _ _ _ Hc i r Ei) as Hp. unfold parent_ok in Hp. rewrite Ej in Hp.
  destruct Hp as (Hlt & pr & t & c & Epr & Hda & _ & _ & Hpe). split; [done|]. exists pr. split; [done|]. split; [done|].
  destruct (co_ex _ _ _ _ Hc i eq_refl) as (r0 & Ei' & _ & Hpr & _). rewrite Ei in Ei'. injection Ei' as <-. split; [by apply Hpe|].
  destruct (co_wait _ _ _ _ Hc j pr Epr Hda (Hpe Hpr)) as [_ Hd]. apply Hd. intros [= ?]. lia.
Qed.

Lemma commit_count k : Z.of_nat (count (awaited reqs' k) (notified heap r)) =
  Z.of_nat (count (awaited reqs k) heap) - (if bool_decide (nr_parent r = Some k) then 1 else 0).
Proof.
  assert (count (awaited reqs' k) (notified heap r) = count (awaited reqs' k) heap) as ->.
  { unfold notified. destruct (nr_parent r); [|done]. by apply count_alter. }
  destruct (co_ex _ _ _ _ Hc i eq_refl) as (r0 & Ei' & _ & Hpr & _). rewrite Ei in Ei'. injection Ei' as <-.
  assert (forall j y, heap !! j = Some y -> j <> i -> awaited reqs k y = awaited reqs' k y) as Ho.
  { intros j y Ej Hne. unfold awaited. f_equal. apply bool_decide_ext. rewrite (commit_pend j y Ej). tauto. }
  assert (~ pend reqs' r) as Hnp by (rewrite (commit_pend i r Ei); tauto).
  case_bool_decide as Ep.
  - rewrite (count_one (awaited reqs k) (awaited reqs' k) heap i r Ei); [lia|..|done].
    + unfold awaited. by rewrite !bool_decide_true.
    + unfold awaited. by rewrite (bool_decide_false (pend _ _)), andb_false_r.
  - rewrite (count_agree (awaited reqs k) (awaited reqs' k)); [lia|]. intros j y Ej. destruct (decide (j = i)) as [->|Hne]; [|by apply (Ho j)].
    rewrite Ei in Ej. injection Ej as <-. unfold awaited. by rewrite (bool_decide_false (nr_parent r = Some k)).
Qed.

Lemma core_commit : core (notified heap r) reqs' A' (next_done heap r).
Proof.
  assert (forall t, pstored A true t -> pstored A' true t) as Hm by (intros t; by apply pstored_mono).
  destruct (co_ex _ _ _ _ Hc i eq_refl) as (r0 & Ei' & Hdr & Hpr & Hdeps). rewrite Ei in Ei'. injection Ei' as <-.
  split.
  - intros k x (x0 & Ek & Ex)%notified_lookup. destruct (co_req _ _ _ _ Hc k x0 Ek) as (t & Hn & Hi & Eh & Ec & Hda).
    destruct (adjusted_same r k x0) as (Ep & Eh' & Ec' & Ed & _). rewrite <- Ex in *.
    exists t. rewrite Ep, Ed, Eh', Ec'. do 4 (split; [done|]). unfold pend. rewrite Ep. change (is_Some (reqs' !! nr_path x0)) with (pend reqs' x0).
    destruct (nr_data x0) as [b|] eqn:Ed0; rewrite (commit_pend k x0 Ek).
    + destruct Hda as [-> Hda]. split; [done|]. destruct (decide (k = i)) as [->|Hne]; [|destruct Hda; auto].
      right. rewrite Ei in Ek. injection Ek as <-. by apply commit_complete.
    + destruct Hda as [Hpe Hd]. assert (k <> i) as Hne by (intros ->; rewrite Ei in Ek; injection Ek as <-; rewrite Ed0 in Hdr; by destruct Hdr).
      split; [done|]. rewrite Ex. unfold adjusted. case_bool_decide as Ej; [|done]. destruct (commit_parent k Ej) as (_ & pr & Epr & Hdp & _).
      rewrite Ek in Epr. injection Epr as <-. rewrite Ed0 in Hdp. by destruct Hdp.
  - intros p k Ek. apply lookup_delete_Some in Ek as [_ Ek]. destruct (co_ptr _ _ _ _ Hc p k Ek) as (x0 & E0 & <-).
    eexists. split; [apply notified_lookup; by exists x0|]. apply adjusted_same.
  - intros k j x y (x0 & Ek & ->)%notified_lookup (y0 & Ej & ->)%notified_lookup E.
    apply (co_paths _ _ _ _ Hc k j x0 y0 Ek Ej). by rewrite (proj1 (adjusted_same r k x0)), (proj1 (adjusted_same r j y0)) in E.
  - intros k x (x0 & Ek & Ex)%notified_lookup. pose proof (co_parent _ _ _ _ Hc k x0 Ek) as Hp. unfold parent_ok in *.
    destruct (adjusted_same r k x0) as (Ep & _ & _ & _ & Epa). rewrite <- Ex in *. rewrite Epa. unfold pend. rewrite Ep.
    destruct (nr_parent x0) as [j|] eqn:Ej; [|done]. destruct Hp as (Hlt & pr & t & c & Epr & Hdp & Hn & Hk & Hpe). split; [done|].
    eexists _, t, c. split; [apply notified_lookup; by exists pr|].
    destruct (adjusted_same r j pr) as (Epp & _ & _ & Epd & _). rewrite Epp, Epd. do 3 (split; [done|]).
    change (is_Some (reqs' !! nr_path x0) -> is_Some (reqs' !! nr_path pr)) with (pend reqs' x0 -> pend reqs' pr).
    rewrite (commit_pend k x0 Ek), (commit_pend j pr Epr). intros [Hpx Hne]. split; [by apply Hpe|]. intros ->.
    destruct (exempt_complete _ _ _ _ _ t Hc Ei) as [Hz _]; [congruence|]. rewrite count_0 in Hz. specialize (Hz k x0 Ek).
    unfold awaited in Hz. by rewrite !bool_decide_true in Hz.
  - intros k x (x0 & Ek & ->)%notified_lookup. pose proof (co_deps _ _ _ _ Hc k x0 Ek) as Hd. rewrite commit_count. unfold adjusted. case_bool_decide; cbn [nr_deps add_deps]; lia.
  - intros k x (x0 & Ek & Ex)%notified_lookup Hda Hpe.
    destruct (adjusted_same r k x0) as (Ep & _ & _ & Ed & _). rewrite <- Ex in *.
    unfold pend in Hpe. rewrite Ep in Hpe. rewrite Ed in Hda. apply (commit_pend k x0 Ek) in Hpe as [Hpe Hne].
    destruct (co_wait _ _ _ _ Hc k x0 Ek Hda Hpe) as [Hw Hd]. split.
    + intros t q c Hn Hq. rewrite Ep in Hn, Hq. destruct (Hw t q c Hn Hq) as [?|Hs]; [by left; apply Hm|].
      destruct (decide (q = nr_path r)) as [->|Hqr]; [left|right; unfold reqs'; by rewrite lookup_delete_ne].
      apply commit_complete. by apply (kid_node _ _ _ _ _ _ Hn), Hq.
    + rewrite Ex. unfold adjusted. intros Hex. specialize (Hd ltac:(congruence)). case_bool_decide as Ej; [|done]. cbn [nr_deps add_deps].
      unfold next_done in Hex. rewrite Ej, Ek in Hex. destruct (Z.eqb_spec (nr_deps x0 - 1) 0); [done|lia].
  - intros k. unfold next_done. destruct (nr_parent r) as [j|] eqn:Ej; [|done]. destruct (commit_parent j Ej) as (Hlt & pr & Epr & Hdp & Hpp & _).
    rewrite Epr. destruct (Z.eqb_spec (nr_deps pr - 1) 0) as [Hz|]; [|done]. intros [= <-]. eexists. split; [apply notified_lookup; by exists pr|].
    unfold adjusted. rewrite bool_decide_true by done. cbn [nr_data nr_deps add_deps]. split; [done|]. split; [|lia].
    change (pend reqs' pr). apply (commit_pend j pr Epr). split; [done|lia].
  - destruct (decide (nr_path r = [])) as [E|E]; [left; apply commit_complete; rewrite E; apply node_root|].
    destruct (co_root _ _ _ _ Hc) as [?|?]; [by left; apply Hm|right]. unfold reqs'. by rewrite lookup_delete_ne.
Qed.
End commit.

(** ** Answering a request *)

Section process.
Context (heap : list nodeRequest) (reqs reqs' : gmap (list Z) nat) (A : store) (i : nat) (r : nodeRequest) (t : ptrie) (news : list nodeRequest).
Context (Hc : core heap reqs A None) (Ei : heap !! i = Some r) (Hdata : nr_data r = None) (Hn : node_at (nr_path r) t).
(** The new requests are for children that are referred to by hash, and the other ones
    are stored. *)
Context (Hnews : forall k x, news !! k = Some x -> nr_parent x = Some i /\ nr_data x = None /\ nr_deps x = 0 /\ nr_callback x = None /\
  exists c, hkid (nr_path r) t (nr_path x) c /\ nr_hash x = keccak256 (penc c)).
Context (Hdup : NoDup (nr_path <$> news)).
Context (Hcover : forall q c, hkid (nr_path r) t q c -> pstored A true c \/ q ∈ nr_path <$> news).
Context (Hreg : forall k x, news !! k = Some x -> reqs' !! nr_path x = Some (length heap + k)%nat).
Context (Hold : forall p, p ∉ nr_path <$> news -> reqs' !! p = reqs !! p).

Let r' := add_deps (Z.of_nat (length news)) (set_data r (penc t)).
Let heap' := <[i := r']> heap ++ news.

Lemma news_path p : p ∈ nr_path <$> news -> exists k x, news !! k = Some x /\ nr_path x = p.
Proof. intros (x & -> & Hx)%list_elem_of_fmap. apply list_elem_of_lookup in Hx as [k Hk]. by exists k, x. Qed.

Lemma news_fresh k y : heap !! k = Some y -> nr_path y ∉ nr_path <$> news.
Proof.
  intros Ek (l & x & El & Ep)%news_path. destruct (Hnews l x El) as (_ & _ & _ & _ & c & [Hk _] & _). rewrite Ep in Hk.
  pose proof (co_parent _ _ _ _ Hc k y Ek) as Hp. unfold parent_ok in Hp. destruct (nr_parent y) as [j|].
  - destruct Hp as (_ & pr & t' & c' & Epr & [b Eb] & Hn' & Hk' & _). pose proof (node_parent _ _ _ _ _ _ _ Hn Hn' Hk Hk') as Epp.
    rewrite (co_paths _ _ _ _ Hc i j r pr Ei Epr Epp) in Ei. congruence.
  - rewrite Hp in Hk. destruct (kid_longer _ _ _ _ (node_spot _ _ Hn) Hk) as (z & Ez & Hz). symmetry in Ez. by apply app_eq_nil in Ez as [_ ?].
Qed.

Lemma process_pend k y : heap !! k = Some y -> pend reqs' y <-> pend reqs y.
Proof. intros Ek. unfold pend. by rewrite Hold by (by eapply news_fresh). Qed.

Lemma process_kept p : is_Some (reqs !! p) -> is_Some (reqs' !! p).
Proof.
  intros Hp. destruct (decide (p ∈ nr_path <$> news)) as [(k & x & Ek & <-)%news_path|Hne]; [rewrite (Hreg k x Ek); by eexists|by rewrite Hold].
Qed.

Lemma process_lookup k y : heap' !! k = Some y ->
  (k = i /\ y = r') \/ (k <> i /\ heap !! k = Some y) \/ (exists l, k = (length heap + l)%nat /\ news !! l = Some y).
Proof.
  unfold heap'. intros [Ek|[Hk Ek]]%lookup_app_Some.
  - apply list_lookup_insert_Some in Ek as [(-> & -> & _)|[Hne Ek]]; [by left|right; left; by split; [congruence|]].
  - rewrite length_insert in *. right. right. exists (k - length heap)%nat. split; [lia|done].
Qed.

Lemma process_at k y : heap !! k = Some y -> k <> i -> heap' !! k = Some y.
Proof. intros Ek Hne. unfold heap'. apply lookup_app_l_Some. by rewrite list_lookup_insert_ne. Qed.
Lemma process_self : heap' !! i = Some r'.
Proof. unfold heap'. apply lookup_app_l_Some, list_lookup_insert_eq. by eapply lookup_lt_Some. Qed.
Lemma process_new l x : news !! l = Some x -> heap' !! (length heap + l)%nat = Some x.
Proof. intros El. unfold heap'. rewrite lookup_app_r by (rewrite length_insert; lia). rewrite length_insert. by replace (length heap + l - length heap)%nat with l by lia. Qed.

Lemma process_count k : count (awaited reqs' k) heap' = (count (awaited reqs k) heap + if bool_decide (k = i) then length news else 0)%nat.
Proof.
  unfold heap'. rewrite count_app. f_equal.
  - pose proof (count_insert (awaited reqs' k) heap i r r' Ei) as Hi. change (awaited reqs' k r') with (awaited reqs' k r) in Hi.
    transitivity (count (awaited reqs' k) heap); [destruct (awaited reqs' k r); lia|]. apply count_agree. intros j y Ej. unfold awaited. f_equal.
    apply bool_decide_ext. by eapply process_pend.
  - case_bool_decide as Ek.
    + subst k. apply count_all. intros l x El. destruct (Hnews l x El) as (Ep & _). unfold awaited. rewrite (bool_decide_true (nr_parent x = _)) by done.
      apply bool_decide_true. unfold pend. rewrite (Hreg l x El). by eexists.
    + apply count_0. intros l x El. destruct (Hnews l x El) as (Ep & _). unfold awaited. by rewrite (bool_decide_false (nr_parent x = _)) by congruence.
Qed.

Lemma core_process : core heap' reqs' A (if (length news =? 0)%nat then Some i else None).
Proof.
  destruct (co_req _ _ _ _ Hc i r Ei) as (t0 & Hn0 & Hi & Eh & Ecb & Hd0). rewrite (node_unique _ _ _ Hn0 Hn) in *. clear t0 Hn0.
  rewrite Hdata in Hd0. destruct Hd0 as [Hpr Hz].
  assert (pend reqs' r') as Hpr' by (change (pend reqs' r); by apply (process_pend i)).
  pose proof (lookup_lt_Some _ _ _ Ei) as Hilt. split.
  - intros k y [[-> ->]|[[Hne Ek]|(l & -> & El)]]%process_lookup.
    + exists t. do 4 (split; [done|]). cbn. split; [done|]. by left.
    + destruct (co_req _ _ _ _ Hc k y Ek) as (s & ? & ? & ? & ? & Hda). exists s. do 4 (split; [done|]).
      destruct (nr_data y); rewrite (process_pend k y Ek); done.
    + destruct (Hnews l y El) as (_ & Ed & Ez & Eb & c & [Hk _] & Ec). exists c. rewrite Ed. split; [by eapply kid_node|].
      split; [by destruct Hk|]. do 2 (split; [done|]). split; [|done]. unfold pend. rewrite (Hreg l y El). by eexists.
  - intros p k Ek. destruct (decide (p ∈ nr_path <$> news)) as [(l & x & El & <-)%news_path|Hne].
    + rewrite (Hreg l x El) in Ek. injection Ek as <-. exists x. split; [by apply process_new|done].
    + rewrite Hold in Ek by done. destruct (co_ptr _ _ _ _ Hc p k Ek) as (y & Ey & Ep). destruct (decide (k = i)) as [->|Hki].
      * exists r'. split; [apply process_self|]. rewrite Ei in Ey. by injection Ey as <-.
      * exists y. split; [by apply process_at|done].
  - assert (forall k y, heap' !! k = Some y -> (exists y0, heap !! k = Some y0 /\ nr_path y = nr_path y0) \/
      exists l, k = (length heap + l)%nat /\ news !! l = Some y) as Hcase.
    { intros k y [[-> ->]|[[_ Ek]|?]]%process_lookup; [left; by exists r|left; by exists y|by right]. }
    intros k j y z Ek Ej Ep. apply Hcase in Ek as [(y0 & Ek & Ey)|(l & -> & El)], Ej as [(z0 & Ej & Ez)|(m & -> & Em)].
    + apply (co_paths _ _ _ _ Hc k j y0 z0 Ek Ej). congruence.
    + destruct (news_fresh k y0 Ek). rewrite <- Ey, Ep. apply list_elem_of_fmap. exists z. split; [done|]. by eapply list_elem_of_lookup_2.
    + destruct (news_fresh j z0 Ej). rewrite <- Ez, <- Ep. apply list_elem_of_fmap. exists y. split; [done|]. by eapply list_elem_of_lookup_2.
    + f_equal. eapply (NoDup_lookup _ _ _ (nr_path y) Hdup); rewrite list_lookup_fmap; [by rewrite El|by rewrite Em, Ep].
  - assert (forall k y0 y, heap !! k = Some y0 -> nr_parent y = nr_parent y0 -> nr_path y = nr_path y0 -> parent_ok heap' reqs' k y) as Hpo.
    { intros k y0 y Ek Epa Ep. pose proof (co_parent _ _ _ _ Hc k y0 Ek) as Hp. unfold parent_ok, pend in *. rewrite Epa, Ep. destruct (nr_parent y0) as [j|]; [|done].
      destruct Hp as (Hlt & pr & s & c & Epr & Hdp & Hs & Hk & Hpe). split; [done|].
      rewrite Hold by (by eapply news_fresh). destruct (decide (j = i)) as [->|Hji].
      - rewrite Ei in Epr. injection Epr as <-. rewrite Hdata in Hdp. by destruct Hdp.
      - exists pr, s, c. split; [by apply process_at|]. do 3 (split; [done|]). by rewrite Hold by (by eapply news_fresh). }
    intros k y [[-> ->]|[[Hne Ek]|(l & -> & El)]]%process_lookup; [by apply (Hpo i r)|by apply (Hpo k y)|].
    destruct (Hnews l y El) as (Epa & _ & _ & _ & c & [Hk _] & _). unfold parent_ok. rewrite Epa. split; [lia|].
    exists r', t, c. split; [apply process_self|]. split; [by eexists|]. do 2 (split; [done|]). done.
  - intros k y [[-> ->]|[[Hne Ek]|(l & -> & El)]]%process_lookup; rewrite process_count.
    + rewrite bool_decide_true by done. cbn [nr_deps add_deps set_data r']. pose proof (co_deps _ _ _ _ Hc i r Ei). lia.
    + rewrite bool_decide_false by done. rewrite (co_deps _ _ _ _ Hc k y Ek). lia.
    + destruct (Hnews l y El) as (_ & _ & Ez & _). rewrite Ez, bool_decide_false by lia.
      assert (count (awaited reqs (length heap + l)) heap = 0%nat) as ->; [|done]. apply count_0. intros j x Ej.
      pose proof (co_parent _ _ _ _ Hc j x Ej) as Hp. unfold parent_ok in Hp. unfold awaited. rewrite (bool_decide_false (nr_parent x = _)); [done|].
      intros E. rewrite E in Hp. destruct Hp as [Hlt _]. apply lookup_lt_Some in Ej. lia.
  - intros k y [[-> ->]|[[Hne Ek]|(l & -> & El)]]%process_lookup Hda Hpe.
    + split.
      * intros s q c Hs Hq. change (nr_path r') with (nr_path r) in *. rewrite (node_unique _ _ _ Hs Hn) in *.
        destruct (Hcover q c Hq) as [?|(l & x & El & <-)%news_path]; [by left|right]. rewrite (Hreg l x El). by eexists.
      * cbn [nr_deps add_deps set_data r']. destruct (Nat.eqb_spec (length news) 0); [done|lia].
    + apply (process_pend k y Ek) in Hpe. destruct (co_wait _ _ _ _ Hc k y Ek Hda Hpe) as [Hw Hd]. split; [|intros _; by apply Hd].
      intros s q c Hs Hq. destruct (Hw s q c Hs Hq) as [?|?]; [by left|right; by apply process_kept].
    + destruct (Hnews l y El) as (_ & Ed & _). rewrite Ed in Hda. by destruct Hda.
  - intros k. destruct (Nat.eqb_spec (length news) 0) as [E|]; [|done]. intros [= <-]. exists r'. split; [apply process_self|]. split; [by eexists|].
    split; [done|]. cbn [nr_deps add_deps set_data r']. lia.
  - destruct (co_root _ _ _ _ Hc) as [?|?]; [by left|right; by apply process_kept].
Qed.
End process.
End requests.

(** ** The scheduler *)

Lemma alter_insert {A} (f : A -> A) (l : list A) j x : l !! j = Some x -> <[j := f x]> l = alter f j l.
Proof.
  intros Ej. apply list_eq. intros k. destruct (decide (j = k)) as [<-|Hne].
  - rewrite list_lookup_insert_eq by (by eapply lookup_lt_Some). rewrite list_lookup_alter_eq, Ej. done.
  - by rewrite list_lookup_insert_ne, list_lookup_alter_ne.
Qed.

Section scheduler.
Context `{EthDB} `{!EthDBLaws} `{PrQue} `{!PrQueLaws} `{LeafCallbacks} `{!RawDB} `{!RawDBLaws}.
Context `{RLPLaws} `{EthCommon} `{!HashLaws} `{!CollisionFree} `{!RLPSize}.
Context (pt : ptrie) (Hwf : wf pt) (Hinner : pinner pt = true).

Abbreviation node_at p t := ((p, t) ∈ pre [] pt).
Abbreviation core := (core pt).

Definition on_disk (d : disk) (h b : list Z) : Prop := disk_Get d h = Some b.
(** The nodes on the disk and in the batch. *)
Definition avail (s : Sync) (h b : list Z) : Prop :=
  on_disk (ts_database s) h b \/ exists p, mb_nodes (ts_membatch s) !! p = Some b /\ mb_hashes (ts_membatch s) !! p = Some h.

(** What of the trie is on the disk is there with everything below it. *)
Definition disk_closed (d : disk) : Prop :=
  forall p t, node_at p t -> pinner t = true -> is_Some (disk_Get d (keccak256 (penc t))) -> pstored (on_disk d) true t.

Record sync_inv (s : Sync) (ex : option nat) : Prop := {
  sv_scheme : ts_scheme s = HashScheme;
  sv_codes : ts_codeReqs s = ∅ /\ mb_codes (ts_membatch s) = ∅;
  sv_core : core (ts_heap s) (ts_nodeReqs s) (avail s) ex;
  sv_mem : forall p b, mb_nodes (ts_membatch s) !! p = Some b -> exists t, node_at p t /\ pinner t = true /\ b = penc t /\
    mb_hashes (ts_membatch s) !! p = Some (keccak256 (penc t)) /\ pstored (avail s) true t;
  sv_disk : disk_closed (ts_database s);
}.

(** The paths of the requests that are not answered, and how many are. *)
Definition open_paths (heap : list nodeRequest) : list (list Z) :=
  omap (fun r => match nr_data r with None => Some (nr_path r) | Some _ => None end) heap.
Definition answered (heap : list nodeRequest) : nat := count (fun r => match nr_data r with None => false | Some _ => true end) heap.

(** The accounts of the fetches: at each depth, the requests not done less the queued
    ones. *)
Definition at_depth (reqs : gmap (list Z) nat) (d : Z) : nat := size (filter (fun kv => Z.of_nat (length kv.1) = d) reqs).
Definition queued_at (q : prque) (d : Z) : nat := count (fun x => Z.shiftr x.2 56 =? d) (queued q).
Definition accounted (s : Sync) : Prop :=
  forall d, default 0 (ts_fetches s !! d) = Z.of_nat (at_depth (ts_nodeReqs s) d) - Z.of_nat (queued_at (ts_queue s) d).

Lemma at_depth_delete reqs p i d : reqs !! p = Some i ->
  Z.of_nat (at_depth (base.delete p reqs) d) = Z.of_nat (at_depth reqs d) - (if bool_decide (Z.of_nat (length p) = d) then 1 else 0).
Proof.
  intros Ep. unfold at_depth. case_bool_decide as Ed.
  - rewrite map_filter_delete, map_size_delete_Some; [|eexists; by apply map_lookup_filter_Some].
    assert (0 < size (filter (fun kv : list Z * nat => Z.of_nat (length kv.1) = d) reqs))%nat; [|lia].
    assert (size (filter (fun kv : list Z * nat => Z.of_nat (length kv.1) = d) reqs) <> 0%nat) as Hne; [|lia].
    apply map_size_ne_0_lookup. exists p. exists i. by apply map_lookup_filter_Some.
  - rewrite map_filter_delete_not; [lia|]. intros j Ej. by rewrite Ep in Ej; injection Ej as <-.
Qed.

Lemma at_depth_insert reqs p i d : reqs !! p = None ->
  Z.of_nat (at_depth (<[p := i]> reqs) d) = Z.of_nat (at_depth reqs d) + (if bool_decide (Z.of_nat (length p) = d) then 1 else 0).
Proof.
  intros Ep. unfold at_depth. case_bool_decide as Ed.
  - rewrite map_filter_insert_True by done. rewrite map_size_insert_None; [lia|]. apply map_lookup_filter_None. by left.
  - rewrite map_filter_insert_False by done. rewrite delete_id by done. lia.
Qed.

(** A commit of requests changes what is stored and pending, nothing else. *)
Record kept (s s' : Sync) : Prop := {
  kp_database : ts_database s' = ts_database s;
  kp_queue : ts_queue s' = ts_queue s;
  kp_open : open_paths (ts_heap s') = open_paths (ts_heap s);
  kp_answered : answered (ts_heap s') = answered (ts_heap s);
  kp_accounted : accounted s -> accounted s';
}.

Lemma sync_kept_trans s1 s2 s3 : kept s1 s2 -> kept s2 s3 -> kept s1 s3.
Proof. intros [] []. split; try congruence. auto. Qed.

Lemma open_alter n heap j : open_paths (alter (add_deps n) j heap) = open_paths heap /\ answered (alter (add_deps n) j heap) = answered heap.
Proof.
  split; [|by apply count_alter]. unfold open_paths. revert j. induction heap as [|r heap IH]; intros j; [by destruct j|].
  destruct j as [|j]; [done|]. cbn. destruct (nr_data r); [apply IH|]. f_equal. apply IH.
Qed.

(** One request completed, and its parent notified. *)
Definition committed_one (s : Sync) (r : nodeRequest) : Sync :=
  mkSync (ts_scheme s) (ts_database s) (batch_add (ts_membatch s) r) (notified (ts_heap s) r)
    (base.delete (nr_path r) (ts_nodeReqs s)) (ts_codeReqs s) (ts_queue s) (count_fetched (length (nr_path r)) (ts_fetches s)).

Lemma committed_one_inv s i r : sync_inv s (Some i) -> ts_heap s !! i = Some r ->
  sync_inv (committed_one s r) (next_done (ts_heap s) r) /\ kept s (committed_one s r).
Proof.
  intros [Hsch [Hcod Hcod'] Hc Hmem Hdisk] Ei.
  destruct (co_req _ _ _ _ _ Hc i r Ei) as (t & Hn & Hi & Eh & Ecb & Hda). destruct (co_ex _ _ _ _ _ Hc i eq_refl) as (r0 & Ei' & [b Eb] & Hpe & _).
  rewrite Ei in Ei'. injection Ei' as <-. rewrite Eb in Hda. destruct Hda as [-> _].
  assert (forall h b, avail s h b -> avail (committed_one s r) h b) as Hav.
  { intros h b [?|(p & E1 & E2)]; [by left|right]. exists p. cbn. destruct (decide (p = nr_path r)) as [->|Hne].
    - destruct (Hmem _ _ E1) as (t' & Hn' & _ & -> & E & _). rewrite E in E2. injection E2 as <-.
      rewrite (node_unique pt Hwf Hinner _ _ _ Hn Hn') in *. rewrite !lookup_insert_eq, Eb, Eh. done.
    - by rewrite !lookup_insert_ne by done. }
  assert (avail (committed_one s r) (nr_hash r) (default [] (nr_data r))) as Hnew.
  { right. exists (nr_path r). cbn. by rewrite !lookup_insert_eq. }
  split; [split|split].
  - done.
  - done.
  - by apply (core_commit pt Hwf Hinner (ts_heap s) (ts_nodeReqs s) (avail s) _ i r).
  - intros p b'. cbn. destruct (decide (p = nr_path r)) as [->|Hne].
    + rewrite !lookup_insert_eq, Eb. intros [= <-]. exists t. do 3 (split; [done|]). split; [by rewrite Eh|].
      by apply (commit_complete pt Hwf Hinner (ts_heap s) (ts_nodeReqs s) (avail s) (avail (committed_one s r)) i r).
    + rewrite !lookup_insert_ne by done. intros E. destruct (Hmem _ _ E) as (t' & ? & ? & ? & ? & ?). exists t'. do 4 (split; [done|]).
      by eapply pstored_mono.
  - done.
  - done.
  - done.
  - cbn. unfold notified. destruct (nr_parent r); [|done]. by apply open_alter.
  - cbn. unfold notified. destruct (nr_parent r); [|done]. by apply open_alter.
  - intros Hac d. specialize (Hac d). cbn. unfold count_fetched. 
    rewrite (at_depth_delete _ _ i) by (by eapply pend_ptr). case_bool_decide as Ed.
    + subst d. rewrite lookup_insert_eq. cbn. lia.
    + rewrite lookup_insert_ne by done. lia.
Qed.

Lemma commit_node_spec fuel : forall s i, (i < fuel)%nat -> sync_inv s (Some i) ->
  exists s', commit_node fuel s i = Ret s' /\ sync_inv s' None /\ kept s s'.
Proof.
  induction fuel as [|fuel IH]; intros s i Hf Hinv; [lia|]. cbn [commit_node].
  destruct (co_ex _ _ _ _ _ (sv_core _ _ Hinv) i eq_refl) as (r & Ei & _). rewrite Ei. cbn [of_option]. go_ret. cbv zeta.
  destruct (committed_one_inv s i r Hinv Ei) as [Hinv' Hk]. unfold committed_one, notified, next_done in *.
  destruct (nr_parent r) as [j|] eqn:Ej; [|by eexists].
  destruct (commit_parent pt (ts_heap s) (ts_nodeReqs s) (avail s) i r (sv_core _ _ Hinv) Ei j Ej) as (Hlt & pr & Epr & _).
  unfold notify_parent. cbn [ts_heap]. rewrite Epr. cbn [of_option]. go_ret. cbv zeta.
  unfold with_heap. cbn [ts_heap ts_scheme ts_database ts_membatch ts_nodeReqs ts_codeReqs ts_queue ts_fetches].
  rewrite (alter_insert (add_deps (-1)) _ _ _ Epr). rewrite Epr in Hinv'. destruct (nr_deps pr - 1 =? 0); [|by eexists].
  destruct (IH _ j ltac:(lia) Hinv') as (s' & E & ? & ?). exists s'. split; [done|]. split; [done|]. by eapply sync_kept_trans.
Qed.
(** ** Scheduling *)

Definition item (p : list Z) : sync_item * Z := (NodeItem p, sync_prio p).

Lemma prio_nibbles_depth path : forall i prio, hex_path path -> Z.shiftr (prio_nibbles i path prio) 56 = Z.shiftr prio 56.
Proof.
  induction path as [|x path IH]; intros i prio Hp; cbn [prio_nibbles]; [done|]. destruct (Nat.ltb_spec i 14); [|done].
  apply Forall_cons in Hp as [Hx Hp]. rewrite IH, Z.shiftr_lor by done. unfold is_nibble in Hx.
  rewrite wrap_u_small by (unfold is_u; lia).
  assert (0 <= Z.shiftl (15 - x) (52 - Z.of_nat i * 4) < 2 ^ 56) as Hs.
  { rewrite Z.shiftl_mul_pow2 by lia. replace (2 ^ 56) with (2 ^ (52 - Z.of_nat i * 4) * 2 ^ (4 + Z.of_nat i * 4)) by (rewrite <- Z.pow_add_r by lia; f_equal; lia).
    assert (2 ^ 4 <= 2 ^ (4 + Z.of_nat i * 4)) by (apply Z.pow_le_mono_r; lia).
    assert (0 < 2 ^ (52 - Z.of_nat i * 4)) by (apply Z.pow_pos_nonneg; lia). nia. }
  rewrite wrap_s_small; [|lia|unfold is_s; lia]. rewrite (Z.shiftr_div_pow2 (Z.shiftl _ _)), Z.div_small, Z.lor_0_r by lia. done.
Qed.

Lemma sync_prio_depth p : hex_path p -> (length p < 128)%nat -> Z.shiftr (sync_prio p) 56 = Z.of_nat (length p).
Proof.
  intros Hp Hl. unfold sync_prio. rewrite prio_nibbles_depth by done. rewrite wrap_s_small; [|lia|].
  - rewrite Z.shiftr_shiftl_l by lia. by rewrite Z.sub_diag, Z.shiftl_0_r.
  - unfold is_s. rewrite Z.shiftl_mul_pow2 by lia. lia.
Qed.

#[local] Instance queued_count_perm d : Proper ((≡ₚ) ==> eq) (count (fun x : sync_item * Z => Z.shiftr x.2 56 =? d)).
Proof. intros l l' Hl. unfold count. by rewrite Hl. Qed.

Record scheduled (s : Sync) (news : list nodeRequest) (s' : Sync) : Prop := {
  sd_scheme : ts_scheme s' = ts_scheme s;
  sd_database : ts_database s' = ts_database s;
  sd_membatch : ts_membatch s' = ts_membatch s;
  sd_heap : ts_heap s' = ts_heap s ++ news;
  sd_codes : ts_codeReqs s' = ts_codeReqs s;
  sd_queue : queued (ts_queue s') ≡ₚ (item ∘ nr_path <$> news) ++ queued (ts_queue s);
  sd_old : forall p, p ∉ nr_path <$> news -> ts_nodeReqs s' !! p = ts_nodeReqs s !! p;
  sd_new : NoDup (nr_path <$> news) -> forall k x, news !! k = Some x -> ts_nodeReqs s' !! nr_path x = Some (length (ts_heap s) + k)%nat;
  sd_accounted : NoDup (nr_path <$> news) -> Forall (fun x => ts_nodeReqs s !! nr_path x = None) news ->
    Forall (fun x => Z.shiftr (sync_prio (nr_path x)) 56 = Z.of_nat (length (nr_path x))) news -> accounted s -> accounted s';
}.

Lemma schedule_one s x : scheduled s [x] (scheduleNodeRequest s x).
Proof.
  split; try done; cbn.
  - apply queued_Push.
  - intros p Hp. apply lookup_insert_ne. set_solver.
  - intros _ [|k] y E; [|done]. injection E as <-. rewrite Nat.add_0_r. apply lookup_insert_eq.
  - intros _ [Hx _]%Forall_cons [Hd _]%Forall_cons Hac d. cbn. rewrite (Hac d), at_depth_insert by done. unfold queued_at. rewrite queued_Push, count_cons. cbn [snd].
    rewrite Hd. destruct (Z.eqb_spec (Z.of_nat (length (nr_path x))) d); case_bool_decide; lia.
Qed.

Lemma schedule_all news : forall s, scheduled s news (foldl scheduleNodeRequest s news).
Proof.
  induction news as [|x news IH]; intros s.
  { split; try done. by rewrite app_nil_r. }
  cbn [foldl]. specialize (IH (scheduleNodeRequest s x)). pose proof (schedule_one s x) as Ho. split.
  - by rewrite (sd_scheme _ _ _ IH), (sd_scheme _ _ _ Ho).
  - by rewrite (sd_database _ _ _ IH), (sd_database _ _ _ Ho).
  - by rewrite (sd_membatch _ _ _ IH), (sd_membatch _ _ _ Ho).
  - rewrite (sd_heap _ _ _ IH), (sd_heap _ _ _ Ho). by rewrite <- (assoc (++)).
  - by rewrite (sd_codes _ _ _ IH), (sd_codes _ _ _ Ho).
  - rewrite (sd_queue _ _ _ IH), (sd_queue _ _ _ Ho). cbn. by rewrite Permutation_middle.
  - intros p Hp. cbn in Hp. rewrite (sd_old _ _ _ IH), (sd_old _ _ _ Ho) by set_solver. done.
  - intros [Hx Hnd]%NoDup_cons [|k] y E.
    + injection E as <-. rewrite (sd_old _ _ _ IH) by done. by apply (sd_new _ _ _ Ho ltac:(by apply NoDup_singleton) 0%nat).
    + rewrite (sd_new _ _ _ IH Hnd k y E), (sd_heap _ _ _ Ho), length_app. cbn. f_equal. lia.
  - intros [Hx Hnd]%NoDup_cons [Hf Hfs]%Forall_cons [Hd Hds]%Forall_cons Hac. apply (sd_accounted _ _ _ IH Hnd); [|done|].
    + rewrite Forall_forall in *. intros y Hy. rewrite (sd_old _ _ _ Ho); [by apply Hfs|]. cbn. intros [E|?%elem_of_nil]%elem_of_cons; [|done].
      apply Hx. rewrite <- E. apply list_elem_of_fmap. by exists y.
    + apply (sd_accounted _ _ _ Ho); [by apply NoDup_singleton|by constructor|by constructor|done].
Qed.
(** ** The children of an answered request *)

Lemma ResolvePath_ok p : hex_path p -> exists owner inner, ResolvePath p = Ret (owner, inner).
Proof.
  intros Hp. unfold ResolvePath. destruct (2 * HashLength <=? length p)%nat eqn:E; [|by eexists _, _]. apply Nat.leb_le in E.
  assert (hex_path (take (2 * HashLength) p)) as Ht by (by apply Forall_take).
  assert (length (take (2 * HashLength) p) = 64%nat) as Hl by (rewrite length_take; unfold HashLength in *; lia).
  unfold hexToKeybytes. rewrite hasTerm_path by done. rewrite Hl. change (Nat.odd 64) with false. cbv iota.
  rewrite <- Hl, decodeNibbles_pack; [|done|rewrite Hl; by exists 32%nat]. go_ret. by eexists _, _.
Qed.

(** The node that the batch or the disk knows is stored with everything below it. *)
Lemma known_mem s p c : sync_inv s None -> node_at p c -> hasNode (ts_membatch s) p = true -> pstored (avail s) true c.
Proof.
  intros Hinv Hn Hm. unfold hasNode in Hm. apply bool_decide_eq_true in Hm as [b Eb].
  destruct (sv_mem _ _ Hinv p b Eb) as (t & Hn' & _ & _ & _ & Hs). by rewrite (node_unique pt Hwf Hinner _ _ _ Hn Hn').
Qed.

Lemma known_disk s p c : sync_inv s None -> node_at p c -> pinner c = true -> is_Some (disk_Get (ts_database s) (keccak256 (penc c))) ->
  pstored (avail s) true c.
Proof. intros Hinv Hn Hi Hd. eapply pstored_mono; [|by eapply (sv_disk _ _ Hinv)]. intros h b ?. by left. Qed.

Definition hash_child (p : list Z) (t : ptrie) (x : list Z * node) : Prop :=
  forall h, x.2 = HashNode h -> exists c, hkid p t x.1 c /\ h = keccak256 (penc c).

Context (invoke : LeafCallback -> list (list Z) -> list Z -> list Z -> list Z -> list Z -> Sync -> outcome (option string * Sync)).

Lemma children_loop_spec s i req t cs : sync_inv s None -> nr_callback req = None -> node_at (nr_path req) t -> Forall (hash_child (nr_path req) t) cs ->
  exists news, children_loop invoke s i req cs = Ret (Ok news, s) /\
    Forall (fun x => nr_parent x = Some i /\ nr_data x = None /\ nr_deps x = 0 /\ nr_callback x = None /\
      exists c, hkid (nr_path req) t (nr_path x) c /\ nr_hash x = keccak256 (penc c)) news /\
    (nr_path <$> news) `sublist_of` cs.*1 /\
    forall q h c, (q, HashNode h) ∈ cs -> node_at q c -> h = keccak256 (penc c) -> pinner c = true -> pstored (avail s) true c \/ q ∈ nr_path <$> news.
Proof.
  intros Hinv Hcb Hn. induction 1 as [|[q n] cs Hq _ (news & E & Hnews & Hsub & Hcov)].
  { exists []. do 3 (split; [done|]). by intros q h c ?%elem_of_nil. }
  cbn [children_loop]. rewrite Hcb. cbn [fst snd] in *.
  assert (exists miss, (match n with
     | HashNode h => if hasNode (ts_membatch s) q then Ret []
         else '(owner, inner) ← ResolvePath q; known ← HasTrieNode (ts_database s) owner inner (BytesToHash h) (ts_scheme s);
           Ret (if (known : bool) then [] else [mkNodeReq (BytesToHash h) q None (Some i) 0 None])
     | _ => Ret [] end) = Ret miss /\
     (miss = [] /\ (forall h c, n = HashNode h -> node_at q c -> h = keccak256 (penc c) -> pinner c = true -> pstored (avail s) true c) \/
      exists c, hkid (nr_path req) t q c /\ miss = [mkNodeReq (keccak256 (penc c)) q None (Some i) 0 None])) as (miss & Em & Hmiss).
  { destruct n as [|v|h|k c f|ns f]; try (by exists []; split; [|left; split]).
    destruct (Hq h eq_refl) as (c & Hk & ->). assert (node_at q c) as Hqc by (by apply (kid_node _ _ _ _ _ _ Hn), Hk).
    destruct (hasNode (ts_membatch s) q) eqn:Eh.
    { exists []. split; [done|]. left. split; [done|]. intros h c' _ Hc' _ _. by eapply known_mem. }
    assert (pinner c = true) as Hic by (by destruct Hk as [[]]).
    destruct (ResolvePath_ok q) as (owner & inner & Er); [by apply (node_wf pt Hwf Hinner q c)|]. rewrite Er. go_ret. cbv beta iota.
    rewrite (sv_scheme _ _ Hinv), HasTrieNode_hash, BytesToHash_id by apply keccak256_length. go_ret. eexists. split; [done|].
    destruct (disk_Get (ts_database s) (keccak256 (penc c))) eqn:Ed; [left|right; by exists c]. split; [done|].
    intros h c' [= <-] Hc' _ Hic'. rewrite (node_unique pt Hwf Hinner _ _ _ Hc' Hqc). eapply known_disk; [done..|]. by rewrite Ed. }
  cbv beta iota.
  go_ret. cbv beta iota. rewrite Em. go_ret. rewrite E. go_ret. cbv beta iota. exists (miss ++ news). split; [done|].
  destruct Hmiss as [[-> Hst]|(c & Hk & ->)].
  - split; [done|]. split; [by constructor|]. intros q' h c [[= -> <-]|Hin]%elem_of_cons Hc Eh Hi; [left; by eapply Hst|by eapply Hcov].
  - split; [constructor; [|done]; do 4 (split; [done|]); by exists c|]. split; [by constructor|].
    intros q' h c' [[= -> _]|Hin]%elem_of_cons Hc Eh Hi; [right; left|]. destruct (Hcov q' h c' Hin Hc Eh Hi) as [?|?]; [by left|right; by right].
Qed.

(** The children of the node that an encoding decodes to. *)
Lemma childNodes_spec p n t : wf t -> node_view n t -> exists cs, childNodes p n = Ret cs /\ Forall (hash_child p t) cs /\ NoDup cs.*1 /\
  forall q c, hkid p t q c -> (q, HashNode (keccak256 (penc c))) ∈ cs.
Proof.
  intros Hw Hv. destruct n as [| | |k cn f|ns f], t as [| |k' c|ts]; try done.
  - destruct Hv as [<- Hv]. cbn [childNodes]. eexists. split; [done|].
    destruct (wf_short_inv k c Hw) as (isl & Hk & Hc & _ & _).
    assert (pinner c = true -> hasTerm k = false) as Ht.
    { intros Hi. destruct isl; [by destruct Hc as (v & -> & _)|]. apply hasTerm_path, Hk. }
    split; [|split].
    + constructor; [|constructor]. intros h E. cbn in E. subst cn. destruct Hv as (-> & Hi & Hl). exists c. split; [|done]. cbn [fst]. rewrite (Ht Hi).
      split; [by constructor|done].
    + apply NoDup_singleton.
    + intros q c' [Hq Hl]. inversion Hq as [? ? Hi|]; subst. rewrite (Ht Hi). destruct cn; cbn in Hv; subst; try done; [|lia..].
      destruct Hv as (-> & _ & _). left.
  - destruct Hv as [Hlen Hv]. cbn [childNodes]. eexists. split; [done|].
    set (f' := fun ic : nat * node => match ic.2 with NilNode => None | c => Some (p ++ [Z.of_nat ic.1], c) end).
    assert (forall x, x ∈ omap f' (imap pair ns) <-> exists j m, ns !! j = Some m /\ m <> NilNode /\ x = (p ++ [Z.of_nat j], m)) as Hin.
    { intros x. rewrite list_elem_of_omap. split.
      - intros ([j m] & (j' & m' & [= -> ->] & Ej)%elem_of_lookup_imap_1 & Ex). exists j', m'. split; [done|].
        unfold f' in Ex. cbn in Ex. destruct m'; by simplify_eq.
      - intros (j & m & Ej & Hm & ->). exists (j, m). split; [by apply (elem_of_lookup_imap_2 pair)|]. unfold f'. cbn. by destruct m. }
    split; [|split].
    + apply Forall_forall. intros x (j & m & Ej & _ & ->)%Hin h E. cbn in *. subst m.
      destruct (lookup_lt_is_Some_2 ts j) as [c Ec]; [rewrite <- Hlen; by eapply lookup_lt_Some|].
      destruct (Hv _ _ _ Ej Ec) as (-> & Hi & Hl). exists c. split; [|done]. split; [by constructor|done].
    + assert (forall l i0, (omap f' (imap (fun i => pair (i0 + i)%nat) l)).*1 `sublist_of` ((fun j => p ++ [Z.of_nat j]) <$> seq i0 (length l))) as Hsub.
      { induction l as [|m l IH]; intros i0; [constructor|]. cbn [imap length seq fmap list_fmap]. rewrite Nat.add_0_r.
        rewrite (imap_ext _ (fun i => pair (S i0 + i)%nat)) by (intros j y _; cbn; f_equal; lia). specialize (IH (S i0)).
        cbn [omap list_omap]. destruct m; unfold f' at 1; cbn [fst snd fmap list_fmap]; by constructor. }
      eapply sublist_NoDup; [|apply (Hsub ns 0%nat)]. apply NoDup_fmap_2; [|apply NoDup_seq].
      intros j j' E. apply app_inv_head in E. injection E. lia.
    + intros q c [Hq Hl]. inversion Hq as [|? i ? Ec Hi]; subst. destruct (lookup_lt_is_Some_2 ns i) as [m Em]; [rewrite Hlen; by eapply lookup_lt_Some|].
      apply Hin. exists i, m. split; [done|]. pose proof (Hv _ _ _ Em Ec) as Hm. destruct m; cbn in Hm; subst; try done; [|lia..]. by destruct Hm as (-> & _).
Qed.
(** ** Answers *)

Lemma open_answer heap i r r' : heap !! i = Some r -> nr_data r = None -> is_Some (nr_data r') ->
  open_paths heap ≡ₚ nr_path r :: open_paths (<[i := r']> heap) /\ answered (<[i := r']> heap) = S (answered heap).
Proof.
  intros Ei Ed [b Ed']. split.
  - rewrite <- (take_drop_middle heap i r Ei) at 1. rewrite insert_take_drop by (by eapply lookup_lt_Some).
    unfold open_paths. rewrite !omap_app. cbn. rewrite Ed, Ed'. by rewrite Permutation_middle.
  - unfold answered. pose proof (count_insert (fun r => match nr_data r with None => false | Some _ => true end) heap i r r' Ei) as Hc.
    cbv beta in Hc. rewrite Ed, Ed' in Hc. lia.
Qed.

Lemma open_news news : Forall (fun x => nr_data x = None) news -> open_paths news = nr_path <$> news /\ answered news = 0%nat.
Proof.
  induction 1 as [|x news Hx _ [IH IH']]; [done|]. unfold open_paths, answered in *. rewrite count_cons. cbn. rewrite Hx, IH, IH'. done.
Qed.

(** Keys short enough for the priorities. *)
Definition shallow : Prop := forall p t, node_at p t -> pinner t = true -> (length p < 128)%nat.

(** What an accepted answer changes: the request is open no more, its missing children
    are, and they are queued. *)
Record answer_ok (s : Sync) (p : list Z) (s' : Sync) : Prop := {
  an_inv : sync_inv s' None;
  an_database : ts_database s' = ts_database s;
  an_answered : answered (ts_heap s') = S (answered (ts_heap s));
  an_open : exists rest news, open_paths (ts_heap s) ≡ₚ p :: rest /\ open_paths (ts_heap s') ≡ₚ rest ++ news /\
    queued (ts_queue s') ≡ₚ (item <$> news) ++ queued (ts_queue s);
  an_accounted : shallow -> accounted s -> accounted s';
}.

Lemma inv_heap s heap reqs ex queue fetches : sync_inv s None -> core heap reqs (avail s) ex ->
  sync_inv (mkSync (ts_scheme s) (ts_database s) (ts_membatch s) heap reqs (ts_codeReqs s) queue fetches) ex.
Proof. intros [? ? ? ? ?] ?. by split. Qed.

(** With no callback, the loop over the children reads only the batch and the disk. *)
Lemma children_loop_heap s heap i r cs : nr_callback r = None -> forall news,
  children_loop invoke s i r cs = Ret (Ok news, s) -> children_loop invoke (with_heap s heap) i r cs = Ret (Ok news, with_heap s heap).
Proof.
  intros Ecb. induction cs as [|[q m] cs IH]; intros news; cbn [children_loop]; [by intros [= <-]|].
  rewrite Ecb. cbv beta iota. go_ret. cbv beta iota. change (ts_membatch (with_heap s heap)) with (ts_membatch s).
  change (ts_database (with_heap s heap)) with (ts_database s). change (ts_scheme (with_heap s heap)) with (ts_scheme s).
  intros (miss & Em & E)%outcome_bind_Ret. rewrite Em. go_ret. apply outcome_bind_Ret in E as ([rest s2] & Er & E). injection E as E ->.
  destruct rest as [rest|]; [|done]. injection E as <-. by rewrite (IH rest Er).
Qed.

(** The requests that the answer [penc t] to request [i] leads to. *)
Definition news_ok (s : Sync) (i : nat) (r : nodeRequest) (t : ptrie) (news : list nodeRequest) : Prop :=
  (forall k x, news !! k = Some x -> nr_parent x = Some i /\ nr_data x = None /\ nr_deps x = 0 /\ nr_callback x = None /\
    exists c, hkid (nr_path r) t (nr_path x) c /\ nr_hash x = keccak256 (penc c)) /\
  NoDup (nr_path <$> news) /\
  forall q c, hkid (nr_path r) t q c -> pstored (avail s) true c \/ q ∈ nr_path <$> news.

Lemma children_spec arrived s i r t n : sync_inv s None -> (forall l, arrived l ≡ₚ l) -> nr_callback r = None -> node_at (nr_path r) t -> wf t ->
  node_view n t -> forall heap, exists news, children invoke arrived (with_heap s heap) i r n = Ret (Ok news, with_heap s heap) /\ news_ok s i r t news.
Proof.
  intros Hinv Harr Ecb Hn Hwt Hv heap. destruct (childNodes_spec (nr_path r) n t Hwt Hv) as (cs & Ecs & Hhc & Hnd & Hcov).
  destruct (children_loop_spec s i r t cs Hinv Ecb Hn Hhc) as (news & Eloop & Hnews & Hsub & Hkn).
  apply (children_loop_heap _ heap _ _ _ Ecb) in Eloop. unfold children. rewrite Ecs. go_ret. rewrite Eloop. go_ret. cbv beta iota.
  exists (arrived news). split; [done|]. split; [|split].
  - intros k x Ek. rewrite Forall_forall in Hnews. apply Hnews. rewrite <- (Harr news). by eapply list_elem_of_lookup_2.
  - rewrite (Harr news). by eapply sublist_NoDup.
  - intros q c Hq. rewrite (Harr news). apply (Hkn q (keccak256 (penc c)) c); [by apply Hcov|by apply (kid_node _ _ _ _ _ _ Hn), Hq|done|by destruct Hq as [[]]].
Qed.

(** No child is missing: the request is done. *)
Lemma answer_last s i r t : sync_inv s None -> ts_heap s !! i = Some r -> nr_data r = None -> node_at (nr_path r) t -> news_ok s i r t [] ->
  exists s', commitNodeRequest (with_heap s (<[i := set_data r (penc t)]> (ts_heap s))) i = Ret s' /\ answer_ok s (nr_path r) s'.
Proof.
  intros Hinv Ei Ed Hn (Hnews & Hnd & Hcov). pose proof (sv_core _ _ Hinv) as Hc.
  destruct (open_answer (ts_heap s) i r (set_data r (penc t)) Ei Ed ltac:(by eexists)) as [Hop Han].
  pose proof (core_process pt Hwf Hinner (ts_heap s) (ts_nodeReqs s) (ts_nodeReqs s) (avail s) i r t [] Hc Ei Ed Hn Hnews Hnd Hcov) as Hproc.
  cbv zeta in Hproc. cbn [length Nat.eqb Z.of_nat] in Hproc. rewrite app_nil_r in Hproc.
  assert (add_deps 0 (set_data r (penc t)) = set_data r (penc t)) as E2 by (unfold set_data, add_deps; cbn; by rewrite Z.add_0_r). change (Z.of_nat 0) with 0 in Hproc. rewrite E2 in Hproc.
  set (s1 := with_heap s (<[i := set_data r (penc t)]> (ts_heap s))).
  assert (sync_inv s1 (Some i)) as Hinv1 by (apply inv_heap; [done|]; by apply Hproc).
  destruct (commit_node_spec (S i) s1 i ltac:(lia) Hinv1) as (s' & E & Hinv' & [Hk1 Hk2 Hk3 Hk4 Hk5]).
  exists s'. split; [done|]. split; [done|done|by rewrite Hk4| |intros _ Hac; by apply Hk5].
  exists (open_paths (<[i := set_data r (penc t)]> (ts_heap s))), []. rewrite Hk2, Hk3, app_nil_r. done.
Qed.

(** The missing children are scheduled. *)
Lemma answer_more s i r t news : sync_inv s None -> ts_heap s !! i = Some r -> nr_data r = None -> node_at (nr_path r) t -> news_ok s i r t news -> news <> [] ->
  answer_ok s (nr_path r) (foldl scheduleNodeRequest (with_heap s (<[i := add_deps (Z.of_nat (length news)) (set_data r (penc t))]> (ts_heap s))) news).
Proof.
  intros Hinv Ei Ed Hn (Hnews & Hnd & Hcov) Hne. pose proof (sv_core _ _ Hinv) as Hc. set (r2 := add_deps _ _).
  destruct (open_answer (ts_heap s) i r r2 Ei Ed ltac:(by eexists)) as [Hop Han].
  destruct (open_news news) as [Hop' Han']; [apply Forall_forall; intros x [k Ek]%list_elem_of_lookup; by apply (Hnews k x Ek)|].
  pose proof (schedule_all news (with_heap s (<[i := r2]> (ts_heap s)))) as Hsd.
  set (s' := foldl scheduleNodeRequest _ news) in *. destruct Hsd as [D1 D2 D3 D4 D5 D6 D7 D8 D9].
  cbn [with_heap ts_scheme ts_database ts_membatch ts_heap ts_codeReqs ts_queue ts_nodeReqs] in *.
  specialize (D8 Hnd). rewrite length_insert in D8. assert (avail s' = avail s) as Eav by (unfold avail; by rewrite D2, D3). split.
  - destruct Hinv as [V1 V2 V3 V4 V5]. split; rewrite ?Eav, ?D1, ?D2, ?D3, ?D5; try done. rewrite D4.
    pose proof (core_process pt Hwf Hinner (ts_heap s) (ts_nodeReqs s) (ts_nodeReqs s') (avail s) i r t news Hc Ei Ed Hn Hnews Hnd Hcov D8 D7) as Hproc.
    by destruct news.
  - done.
  - rewrite D4. unfold answered in *. rewrite count_app, Han, Han'. lia.
  - exists (open_paths (<[i := r2]> (ts_heap s))), (nr_path <$> news). split; [done|]. split.
    + rewrite D4. unfold open_paths in *. rewrite omap_app. by rewrite Hop'.
    + rewrite D6. rewrite <- list_fmap_compose. done.
  - intros Hsh Hac. apply D9; [done| | |exact Hac]; apply Forall_forall; intros x [k Ek]%list_elem_of_lookup.
    + destruct (ts_nodeReqs s !! nr_path x) as [j|] eqn:Ej; [|done]. exfalso. destruct (co_ptr _ _ _ _ _ Hc _ _ Ej) as (y & Ey & Epy).
      apply (news_fresh pt Hwf Hinner (ts_heap s) (ts_nodeReqs s) (avail s) i r t news Hc Ei Ed Hn Hnews j y Ey).
      rewrite Epy. apply list_elem_of_fmap. exists x. split; [done|]. by eapply list_elem_of_lookup_2.
    + destruct (Hnews k x Ek) as (_ & _ & _ & _ & c & [Hk _] & _).
      assert (node_at (nr_path x) c) as Hnx by (by eapply kid_node). assert (pinner c = true) as Hic by (by destruct Hk).
      apply sync_prio_depth; [by apply (node_wf pt Hwf Hinner _ _ Hnx Hic)|by eapply Hsh].
Qed.

Lemma ProcessNode_spec arrived s p data : sync_inv s None -> (forall l, arrived l ≡ₚ l) ->
  (forall i r, ts_nodeReqs s !! p = Some i -> ts_heap s !! i = Some r -> keccak256 data = nr_hash r) ->
  match ts_nodeReqs s !! p with
  | None => ProcessNode invoke arrived s p data = Ret (Some ErrNotRequested, s)
  | Some i => exists r, ts_heap s !! i = Some r /\ nr_path r = p /\
      match nr_data r with
      | Some _ => ProcessNode invoke arrived s p data = Ret (Some ErrAlreadyProcessed, s)
      | None => exists s', ProcessNode invoke arrived s p data = Ret (None, s') /\ answer_ok s p s'
      end
  end.
Proof.
  intros Hinv Harr Hdata. unfold ProcessNode. destruct (ts_nodeReqs s !! p) as [i|] eqn:Ep; [|done].
  pose proof (sv_core _ _ Hinv) as Hc. destruct (co_ptr _ _ _ _ _ Hc p i Ep) as (r & Ei & <-). exists r. split; [done|]. split; [done|].
  rewrite Ei. cbn [of_option]. go_ret. specialize (Hdata i r eq_refl Ei). destruct (nr_data r) as [b|] eqn:Ed; [done|].
  destruct (co_req _ _ _ _ _ Hc i r Ei) as (t & Hn & Hi & Eh & Ecb & Hda). rewrite Ed in Hda. destruct Hda as [Hpe Hz].
  rewrite Eh in Hdata. apply keccak256_inj in Hdata as ->. destruct (node_wf pt Hwf Hinner _ _ Hn Hi) as [Hwt _].
  destruct (decode_view t Hwt Hi) as (n & En & Hv). rewrite Eh, En. cbv zeta.
  set (heap1 := <[i := set_data r (penc t)]> (ts_heap s)).
  destruct (children_spec arrived s i (set_data r (penc t)) t n Hinv Harr Ecb Hn Hwt Hv heap1) as (news & E & Hnews). rewrite E. go_ret. cbv beta iota.
  change (ts_heap (with_heap s heap1)) with heap1.
  assert (heap1 !! i = Some (set_data r (penc t))) as -> by (apply list_lookup_insert_eq; by eapply lookup_lt_Some). cbn [of_option]. go_ret.
  change (nr_deps (set_data r (penc t))) with (nr_deps r). rewrite Hz, Z.eqb_refl, andb_true_r.
  destruct news as [|x news]; cbn [length Nat.eqb].
  - destruct (answer_last s i r t Hinv Ei Ed Hn Hnews) as (s' & Es & Ha). fold heap1 in Es. exists s'. rewrite Es. by go_ret.
  - eexists. split; [done|]. pose proof (answer_more s i r t (x :: news) Hinv Ei Ed Hn Hnews ltac:(done)) as Ha. cbn [length] in Ha.
    unfold heap1. rewrite list_insert_insert_eq. exact Ha.
Qed.

(** ** Handing out *)

Lemma item_inj : Inj eq eq item.
Proof. by intros p q [= ->]. Qed.

(** [Missing] takes paths off the queue and counts them. *)
Record handed (s : Sync) (new : list (list Z)) (s' : Sync) : Prop := {
  hd_inv : sync_inv s' None;
  hd_heap : ts_heap s' = ts_heap s;
  hd_reqs : ts_nodeReqs s' = ts_nodeReqs s;
  hd_database : ts_database s' = ts_database s;
  hd_accounted : accounted s -> accounted s';
  hd_queue : forall ps, queued (ts_queue s) ≡ₚ item <$> ps -> Forall (fun p => is_Some (ts_nodeReqs s !! p)) ps ->
    exists ps', queued (ts_queue s') ≡ₚ item <$> ps' /\ ps ≡ₚ new ++ ps';
}.

Lemma handed_none s : sync_inv s None -> handed s [] s.
Proof. intros Hinv. split; try done. intros ps Hq _. by exists ps. Qed.

(** The state after an item was taken. *)
Definition popped (s : Sync) (prio : Z) : Sync :=
  mkSync (ts_scheme s) (ts_database s) (ts_membatch s) (ts_heap s) (ts_nodeReqs s) (ts_codeReqs s) (prque_Pop (ts_queue s))
    (<[Z.shiftr prio 56 := default 0 (ts_fetches s !! Z.shiftr prio 56) + 1]> (ts_fetches s)).

Lemma popped_accounted s x prio : queued (ts_queue s) ≡ₚ (x, prio) :: queued (prque_Pop (ts_queue s)) -> accounted s -> accounted (popped s prio).
Proof.
  intros Hq Hac d. specialize (Hac d). cbn. unfold queued_at in *. rewrite Hq, count_cons in Hac. cbn [snd] in Hac.
  destruct (Z.eqb_spec (Z.shiftr prio 56) d) as [Ed|Hne].
  - rewrite Ed, lookup_insert_eq. cbn. lia.
  - rewrite lookup_insert_ne by done. lia.
Qed.

Lemma handed_pop s x prio new s' : sync_inv s None -> queued (ts_queue s) ≡ₚ (x, prio) :: queued (prque_Pop (ts_queue s)) ->
  handed (popped s prio) new s' ->
  handed s (match x with NodeItem p => match ts_nodeReqs s !! p with Some _ => p :: new | None => new end | CodeItem _ => new end) s'.
Proof.
  intros Hinv Hq [H1' H2' H3' H4' H5' H6']. split; try done.
  - intros Hac. apply H5'. by eapply popped_accounted.
  - intros ps Hps Hall. cbn in H6'. rewrite Hps in Hq.
    assert ((x, prio) ∈ item <$> ps) as (p & [= -> ->] & Hp)%list_elem_of_fmap by (rewrite Hq; left).
    apply elem_of_Permutation in Hp as [ps' Hps'].
    rewrite Hps' in Hall. apply Forall_cons in Hall as [[i Ei] Hall]. rewrite Ei. cbn.
    destruct (H6' ps') as (ps'' & Hq'' & Hp''); [|done|].
    + rewrite Hps' in Hq. cbn in Hq. change (item p :: (item <$> ps') ≡ₚ item p :: queued (prque_Pop (ts_queue s))) in Hq. by apply Permutation_cons_inv in Hq.
    + exists ps''. split; [done|]. by rewrite Hps', Hp''.
Qed.

Lemma missing_loop_spec max fuel : forall s paths hashes codes, (length (queued (ts_queue s)) < fuel)%nat -> sync_inv s None ->
  exists new nh nc s', missing_loop fuel max s paths hashes codes = Ret (paths ++ new, hashes ++ nh, codes ++ nc, s') /\ handed s new s' /\
    (max = 0 -> forall p prio, prque_Peek (ts_queue s) = Some (NodeItem p, prio) -> is_Some (ts_nodeReqs s !! p) -> queued (ts_queue s) <> [] ->
      default 0 (ts_fetches s !! Z.shiftr prio 56) <= maxFetchesPerDepth -> new <> []) /\
    (Forall2 (fun p h => exists i r, ts_nodeReqs s !! p = Some i /\ ts_heap s !! i = Some r /\ nr_hash r = h) new nh).
Proof.
  induction fuel as [|fuel IH]; intros s paths hashes codes Hf Hinv; [lia|]. cbn [missing_loop].
  assert (forall P : Prop, P -> exists new nh nc s', Ret (paths, hashes, codes, s) = Ret (paths ++ new, hashes ++ nh, codes ++ nc, s') /\ handed s new s' /\ (new <> [] \/ P) /\
    (Forall2 (fun p h => exists i r, ts_nodeReqs s !! p = Some i /\ ts_heap s !! i = Some r /\ nr_hash r = h) new nh)) as Hstop.
  { intros P HP. exists [], [], [], s. rewrite !app_nil_r. split; [done|]. split; [by apply handed_none|]. split; [by right|constructor]. }
  destruct (prque_Empty (ts_queue s)) eqn:Eq; cbn [negb andb].
  { apply queued_Empty in Eq. destruct (Hstop (queued (ts_queue s) = []) Eq) as (new & nh & nc & s' & E & Hh & Hn & Hf2). exists new, nh, nc, s'.
    do 2 (split; [done|]). split; [|done]. intros _ p prio _ _ Hne. by destruct Hn. }
  assert (queued (ts_queue s) <> []) as Hne by (intros E%queued_Empty; congruence).
  destruct (queued_Peek (ts_queue s) Hne) as (x & prio & Ep & Hq & _). rewrite Ep.
  destruct ((max =? 0) || (Z.of_nat (length hashes + length codes) <? max)) eqn:Em.
  2: { destruct (Hstop (max <> 0)) as (new & nh & nc & s' & E & Hh & Hn & Hf2); [apply orb_false_iff in Em as [Em _]; by apply Z.eqb_neq|].
       exists new, nh, nc, s'. do 2 (split; [done|]). split; [|done]. intros ? p pr _ _ _. by destruct Hn. }
  destruct (Z.ltb_spec maxFetchesPerDepth (default 0 (ts_fetches s !! Z.shiftr prio 56))) as [Hth|Hth].
  { destruct (Hstop (maxFetchesPerDepth < default 0 (ts_fetches s !! Z.shiftr prio 56)) Hth) as (new & nh & nc & s' & E & Hh & Hn & Hf2).
    exists new, nh, nc, s'. do 2 (split; [done|]). split; [|done]. intros _ p pr [= _ <-] _ _ Hle. destruct Hn; [done|lia]. }
  change (mkSync _ _ _ _ _ _ _ _) with (popped s prio).
  assert (sync_inv (popped s prio) None) as Hinv' by (apply inv_heap; [done|apply Hinv]).
  assert (length (queued (ts_queue (popped s prio))) < fuel)%nat as Hf' by (cbn; rewrite Hq in Hf; cbn in Hf; lia).
  change (ts_nodeReqs (popped s prio)) with (ts_nodeReqs s) in *. change (ts_heap (popped s prio)) with (ts_heap s) in *.
  pose proof (fun new s' => handed_pop s x prio new s' Hinv Hq) as Hpop.
  destruct x as [p|h]; [destruct (ts_nodeReqs s !! p) as [i|] eqn:Ei|].
  - destruct (co_ptr _ _ _ _ _ (sv_core _ _ Hinv) p i Ei) as (r & Er & _). rewrite Er. cbn [of_option]. go_ret.
    destruct (IH (popped s prio) (paths ++ [p]) (hashes ++ [nr_hash r]) codes Hf' Hinv') as (new & nh & nc & s' & E & Hh & _ & Hf2).
    exists (p :: new), (nr_hash r :: nh), nc, s'. rewrite E, <- !(assoc (++)). split; [done|]. split; [by apply Hpop|]. split; [done|].
    constructor; [by exists i, r|done].
  - destruct (IH (popped s prio) paths hashes codes Hf' Hinv') as (new & nh & nc & s' & E & Hh & _ & Hf2).
    exists new, nh, nc, s'. split; [done|]. split; [by apply Hpop|]. split; [|done]. intros _ p' pr [= <- _] [? ?]. congruence.
  - destruct (IH (popped s prio) paths hashes (codes ++ [h]) Hf' Hinv') as (new & nh & nc & s' & E & Hh & _ & Hf2).
    exists new, nh, (h :: nc), s'. rewrite E, <- !(assoc (++)). split; [done|]. split; [by apply Hpop|]. done.
Qed.
(** ** Never throttled for good *)

Lemma open_elem heap p : p ∈ open_paths heap <-> exists i r, heap !! i = Some r /\ nr_path r = p /\ nr_data r = None.
Proof.
  unfold open_paths. rewrite list_elem_of_omap. split.
  - intros (r & [i Ei]%list_elem_of_lookup & E). exists i, r. destruct (nr_data r) eqn:Ed; [done|]. by injection E.
  - intros (i & r & Ei & <- & Ed). exists r. split; [by eapply list_elem_of_lookup_2|]. by rewrite Ed.
Qed.

Lemma open_pending s p : sync_inv s None -> p ∈ open_paths (ts_heap s) -> is_Some (ts_nodeReqs s !! p).
Proof.
  intros Hinv (i & r & Ei & <- & Ed)%open_elem. destruct (co_req _ _ _ _ _ (sv_core _ _ Hinv) i r Ei) as (t & _ & _ & _ & _ & Hd). rewrite Ed in Hd. apply Hd.
Qed.

Lemma open_NoDup heap reqs A : core heap reqs A None -> NoDup (open_paths heap).
Proof.
  intros Hc. unfold open_paths. eapply sublist_NoDup with (l2 := nr_path <$> heap).
  - apply NoDup_alt. intros i j p Hi Hj. rewrite list_lookup_fmap in Hi, Hj.
    apply fmap_Some in Hi as (r & Er & ->), Hj as (r' & Er' & E). by apply (co_paths _ _ _ _ _ Hc i j r r').
  - clear Hc. induction heap as [|r heap IH]; [constructor|]. cbn. destruct (nr_data r); by constructor.
Qed.

(** A request that waits has an open one below it. *)
Lemma open_below s : sync_inv s None -> shallow -> forall n i r, (128 - length (nr_path r) <= n)%nat -> ts_heap s !! i = Some r ->
  pend (ts_nodeReqs s) r -> is_Some (nr_data r) -> exists q, q ∈ open_paths (ts_heap s) /\ (length (nr_path r) < length q)%nat.
Proof.
  intros Hinv Hsh. pose proof (sv_core _ _ Hinv) as Hc. induction n as [|n IH]; intros i r Hl Ei Hpe Hda;
    (destruct (co_req _ _ _ _ _ Hc i r Ei) as (t & Hn & Hi & _); pose proof (Hsh _ _ Hn Hi)); [lia|].
  destruct (co_wait _ _ _ _ _ Hc i r Ei Hda Hpe) as [_ Hd]. specialize (Hd ltac:(done)). rewrite (co_deps _ _ _ _ _ Hc i r Ei) in Hd.
  destruct (count_pos_ex (awaited (ts_nodeReqs s) i) (ts_heap s) ltac:(lia)) as (j & r' & Ej & Ha).
  apply andb_true_iff in Ha as [Hpar%bool_decide_eq_true Hpe'%bool_decide_eq_true].
  pose proof (co_parent _ _ _ _ _ Hc j r' Ej) as Hp. unfold parent_ok in Hp. rewrite Hpar in Hp.
  destruct Hp as (_ & pr & t' & c & Epr & _ & Hn' & Hk & _). rewrite Ei in Epr. injection Epr as <-.
  destruct (kid_longer _ _ _ _ (node_spot pt Hwf Hinner _ _ Hn') Hk) as (y & Ey & Hy).
  assert (length (nr_path r) < length (nr_path r'))%nat as Hlt by (rewrite Ey, length_app; destruct y; [done|cbn; lia]).
  destruct (nr_data r') as [b|] eqn:Ed'.
  - destruct (IH j r' ltac:(lia) Ej Hpe' ltac:(by eexists)) as (q & Hq & ?). exists q. split; [done|lia].
  - exists (nr_path r'). split; [|done]. apply open_elem. by exists j, r'.
Qed.

(** At the depth of the first item in the queue, every request not done is queued. *)
Lemma not_throttled s p prio : sync_inv s None -> shallow -> accounted s -> queued (ts_queue s) ≡ₚ item <$> open_paths (ts_heap s) ->
  prque_Peek (ts_queue s) = Some (NodeItem p, prio) -> queued (ts_queue s) <> [] -> default 0 (ts_fetches s !! Z.shiftr prio 56) <= 0.
Proof.
  intros Hinv Hsh Hac Hq Ep Hne. destruct (queued_Peek (ts_queue s) Hne) as (x & pr & Ep' & Hpop & Hmax). rewrite Ep in Ep'. injection Ep' as <- <-.
  assert (forall q, q ∈ open_paths (ts_heap s) -> Z.shiftr (sync_prio q) 56 = Z.of_nat (length q)) as Hdepth.
  { intros q (i & r & Ei & <- & _)%open_elem. destruct (co_req _ _ _ _ _ (sv_core _ _ Hinv) i r Ei) as (t & Hn & Hi & _).
    apply sync_prio_depth; [by apply (node_wf pt Hwf Hinner _ _ Hn Hi)|by eapply Hsh]. }
  rewrite (Hac _). set (d := Z.shiftr prio 56). unfold at_depth, queued_at. rewrite Hq.
  assert (forall q, is_Some (ts_nodeReqs s !! q) -> Z.of_nat (length q) = d -> q ∈ open_paths (ts_heap s)) as Hop.
  { intros q [i Ei] Hd. destruct (co_ptr _ _ _ _ _ (sv_core _ _ Hinv) q i Ei) as (r & Er & <-). apply open_elem. exists i, r. do 2 (split; [done|]).
    destruct (nr_data r) as [b|] eqn:Ed; [exfalso|done].
    destruct (open_below s Hinv Hsh 128 i r ltac:(lia) Er ltac:(by eexists) ltac:(by eexists)) as (q' & Hq' & Hlt).
    assert (item q' ∈ queued (ts_queue s)) as Hin by (rewrite Hq; apply list_elem_of_fmap; by exists q').
    specialize (Hmax _ Hin). cbn in Hmax. assert (Z.shiftr (sync_prio q') 56 <= d) as Hle by (unfold d; rewrite !Z.shiftr_div_pow2 by lia; by apply Z.div_le_mono).
    rewrite (Hdepth q' Hq') in Hle. lia. }
  assert (size (filter (fun kv => Z.of_nat (length kv.1) = d) (ts_nodeReqs s)) <=
    count (fun x => (Z.shiftr x.2 56 =? d)%Z) (item <$> open_paths (ts_heap s)))%nat as Hle; [|lia].
  rewrite <- length_map_to_list, <- (length_fmap fst).
  assert (count (fun x => Z.shiftr x.2 56 =? d) (item <$> open_paths (ts_heap s)) =
    length (filter (fun q => Z.of_nat (length q) = d) (open_paths (ts_heap s)))) as ->.
  { clear -Hdepth. induction (open_paths (ts_heap s)) as [|q l IH]; [done|]. cbn [fmap list_fmap]. rewrite count_cons, filter_cons. cbn [snd item].
    rewrite (Hdepth q) by left. rewrite IH by (intros q' ?; apply Hdepth; by right). destruct (Z.eqb_spec (Z.of_nat (length q)) d); case_decide; cbn; lia. }
  apply submseteq_length, NoDup_submseteq; [apply NoDup_fst_map_to_list|]. intros q ([q' i] & -> & Hin)%list_elem_of_fmap.
  apply elem_of_map_to_list, map_lookup_filter_Some in Hin as [Hin Hd]. apply list_elem_of_filter. split; [done|]. by apply Hop.
Qed.
(** ** Writing out *)

Lemma batch_get_in ops h b : batch_get ops h = Some b -> (h, b) ∈ ops.
Proof.
  induction ops as [|[k v] ops IH]; [done|]. cbn. destruct (batch_get ops h); [intros E; right; by apply IH|].
  case_bool_decide; [|done]. subst. intros [= ->]. left.
Qed.

Lemma batch_get_same ops h b : (h, b) ∈ ops -> (forall b', (h, b') ∈ ops -> b' = b) -> batch_get ops h = Some b.
Proof.
  induction ops as [|[k v] ops IH]; intros Hin Hall; [by apply elem_of_nil in Hin|]. cbn [batch_get].
  destruct (batch_get ops h) as [w|] eqn:E.
  - f_equal. apply Hall. right. by apply batch_get_in.
  - apply elem_of_cons in Hin as [[= -> ->]|Hin]; [by rewrite bool_decide_true|].
    discriminate (IH Hin (fun b' Hb' => Hall b' (list_elem_of_further _ _ _ Hb'))).
Qed.

Lemma write_nodes_spec s order : sync_inv s None -> (forall x, x ∈ order -> mb_nodes (ts_membatch s) !! x.1 = Some x.2) ->
  exists ops, write_nodes (ts_membatch s) (ts_scheme s) order = Ret ops /\
    (forall h b, (h, b) ∈ ops <-> h = keccak256 b /\ exists p, (p, b) ∈ order).
Proof.
  intros Hinv. induction order as [|[p b] order IH]; intros Hin; cbn [write_nodes].
  { exists []. split; [done|]. intros h b. rewrite elem_of_nil. split; [done|]. by intros (_ & p & ?%elem_of_nil). }
  destruct IH as (ops & E & Hops); [intros x Hx; apply Hin; by right|].
  destruct (sv_mem _ _ Hinv p b) as (t & Hn & Hi & -> & Eh & _); [apply (Hin (p, b)); left|].
  destruct (ResolvePath_ok p) as (owner & inner & Er); [by apply (node_wf pt Hwf Hinner p t)|]. rewrite Er. go_ret. cbv beta iota.
  rewrite Eh, (sv_scheme _ _ Hinv). cbn [default from_option id]. rewrite WriteTrieNode_hash. go_ret. rewrite (sv_scheme _ _ Hinv) in E. rewrite E. go_ret.
  eexists. split; [done|]. intros h b. cbn. rewrite elem_of_cons, Hops. split.
  - intros [[= -> ->]|[-> [q Hq]]]; [split; [done|]; exists p; left|split; [done|]; exists q; by right].
  - intros [-> [q [[= -> ->]|Hq]%elem_of_cons]]; [by left|right; split; [done|by exists q]].
Qed.

(** The scheduler over a disk with new content. *)
Definition with_disk (s : Sync) (d : disk) : Sync :=
  mkSync (ts_scheme s) d (ts_membatch s) (ts_heap s) (ts_nodeReqs s) (ts_codeReqs s) (ts_queue s) (ts_fetches s).

(** A commit whose batch reached the disk. *)
Definition flushes (s s' : Sync) : Prop :=
  exists order codes ops s1 d', order ≡ₚ map_to_list (mb_nodes (ts_membatch s)) /\ codes ≡ₚ map_to_list (mb_codes (ts_membatch s)) /\
    Sync_Commit s order codes [] = Ret (ops, s1) /\ disk_Write (ts_database s1) ops = Ok d' /\ s' = with_disk s1 d'.

Lemma Sync_Commit_spec s order codes : sync_inv s None -> order ≡ₚ map_to_list (mb_nodes (ts_membatch s)) -> codes ≡ₚ map_to_list (mb_codes (ts_membatch s)) ->
  exists ops, Sync_Commit s order codes [] = Ret (ops, mkSync (ts_scheme s) (ts_database s) newSyncMemBatch (ts_heap s) (ts_nodeReqs s) (ts_codeReqs s) (ts_queue s) (ts_fetches s)) /\
    (forall h b, (h, b) ∈ ops <-> h = keccak256 b /\ exists p, mb_nodes (ts_membatch s) !! p = Some b).
Proof.
  intros Hinv Ho Hco. destruct (write_nodes_spec s order Hinv) as (ops & E & Hops).
  { intros [p b]. rewrite Ho. by intros ?%elem_of_map_to_list. }
  unfold Sync_Commit. rewrite E. go_ret. destruct (sv_codes _ _ Hinv) as [_ Ec]. rewrite Ec, map_to_list_empty in Hco. apply Permutation_nil_r in Hco as ->.
  eexists. split; [done|]. intros h b. cbn. rewrite app_nil_r, Hops. split; intros [-> [p Hp]]; (split; [done|]); exists p.
  - rewrite Ho in Hp. by apply elem_of_map_to_list in Hp.
  - rewrite Ho. by apply elem_of_map_to_list.
Qed.

Lemma flush_inv s s' : sync_inv s None -> flushes s s' -> sync_inv s' None /\ mb_nodes (ts_membatch s') = ∅ /\
  ts_heap s' = ts_heap s /\ ts_nodeReqs s' = ts_nodeReqs s /\ ts_codeReqs s' = ts_codeReqs s /\ ts_queue s' = ts_queue s /\ ts_fetches s' = ts_fetches s.
Proof.
  intros Hinv (order & codes & ops & s1 & d' & Ho & Hco & E & Ew & ->). destruct (Sync_Commit_spec s order codes Hinv Ho Hco) as (ops' & E' & Hops).
  rewrite E in E'. injection E' as -> ->. pose proof (disk_Write_Get _ _ _ Ew) as Hget. cbn [ts_database] in Hget.
  assert (forall b, avail s (keccak256 b) b -> on_disk d' (keccak256 b) b) as Hav.
  { intros b Hb. unfold on_disk. rewrite Hget. destruct (batch_get ops' (keccak256 b)) as [w|] eqn:Eb.
    - apply batch_get_in, Hops in Eb as [Ek _]. by apply keccak256_inj in Ek as ->.
    - destruct Hb as [Hb|(p & Hb & Hh)]; [done|]. exfalso.
      rewrite (batch_get_same ops' (keccak256 b) b) in Eb; [done|apply Hops; split; [done|by exists p]|].
      intros b' [Ek _]%Hops. by apply keccak256_inj in Ek. }
  split; [|done]. split; cbn.
  - apply Hinv.
  - split; [apply Hinv|done].
  - eapply core_mono; [|apply Hinv]. intros b Hb. left. by apply Hav.
  - intros p b. by rewrite lookup_empty.
  - intros p t Hn Hi [b Eb]. apply (pstored_keccak (avail s)); [exact Hav|]. rewrite Hget in Eb.
    destruct (batch_get ops' (keccak256 (penc t))) as [w|] eqn:Ew'.
    + apply batch_get_in, Hops in Ew' as [Ek [q Eq]]. apply keccak256_inj in Ek. destruct (sv_mem _ _ Hinv q w Eq) as (t' & Hn' & Hi' & -> & _ & Hs).
      destruct (node_wf pt Hwf Hinner _ _ Hn Hi) as [Hw _], (node_wf pt Hwf Hinner _ _ Hn' Hi') as [Hw' _].
      by rewrite (penc_inj t t' Hw Hw' Hi Hi' Ek).
    + eapply known_disk; [done..|]. by eexists.
Qed.

(** ** The start *)

Lemma root_nonempty : keccak256 (penc pt) <> EmptyRootHash.
Proof.
  intros E. rewrite EmptyRootHash_keccak in E. apply keccak256_inj in E. destruct (penc_List pt Hinner) as [c Ec]. rewrite Ec in E.
  apply (Bytes_not_List [] c [] []); [done|]. by rewrite !app_nil_r.
Qed.

Lemma NewSync_spec d : disk_closed d -> exists s, NewSync (keccak256 (penc pt)) d None HashScheme = Ret s /\ sync_inv s None /\ ts_database s = d /\
  queued (ts_queue s) ≡ₚ item <$> open_paths (ts_heap s) /\ accounted s /\ ts_membatch s = newSyncMemBatch.
Proof.
  intros Hd. unfold NewSync, AddSubTrie. rewrite bool_decide_false by apply root_nonempty. unfold hasNode. cbn [ts_membatch newSyncMemBatch mb_nodes].
  rewrite lookup_empty, bool_decide_false by (by intros [? ?]). change (ResolvePath []) with (Ret (zero_hash, @nil Z)). go_ret. cbv beta iota.
  rewrite HasTrieNode_hash. go_ret. cbn [ts_database]. destruct (disk_Get d (keccak256 (penc pt))) as [b|] eqn:Eb.
  - eexists. split; [done|]. split; [|split; [done|]; split; [by cbn; rewrite queued_New|]; split; [|done]].
    + split; cbn; try done. split; try done; [intros i r Ei; by rewrite lookup_nil in Ei..|].
      left. eapply pstored_mono; [|apply (Hd [] pt); [by apply node_root|done|by eexists]]. intros h b' ?. by left.
    + intros dd. cbn. unfold at_depth, queued_at. rewrite lookup_empty, queued_New. by rewrite map_filter_empty, map_size_empty.
  - unfold link_parent. rewrite bool_decide_true by done. go_ret. cbv beta iota. unfold scheduleNodeRequest. cbn.
    eexists. split; [done|]. split; [|split; [done|]; split; [by cbn; rewrite queued_Push, queued_New|]; split; [|done]].
    + split; cbn; try done. set (r := mkNodeReq _ _ _ _ _ _).
      assert (forall i x, [r] !! i = Some x -> i = 0%nat /\ x = r) as Hone by (intros [|i] x E; [by injection E as <-|done]). split.
      * intros i x [-> ->]%Hone. exists pt. split; [by apply node_root|]. do 3 (split; [done|]). cbn. split; [|done].
        unfold pend. cbn. rewrite lookup_insert_eq. by eexists.
      * intros p i [[<- <-]|[_ E]]%lookup_insert_Some; [by exists r|by rewrite lookup_empty in E].
      * by intros i j x y [-> _]%Hone [-> _]%Hone.
      * by intros i x [-> ->]%Hone.
      * intros i x [-> ->]%Hone. unfold count, awaited. by rewrite filter_cons.
      * intros i x [-> ->]%Hone [? ?]. done.
      * done.
      * right. rewrite lookup_insert_eq. by eexists.
    + intros dd. cbn. rewrite lookup_empty, (at_depth_insert ∅ []) by apply lookup_empty. unfold at_depth at 1, queued_at.
      rewrite queued_Push, queued_New, count_cons, map_filter_empty, map_size_empty. cbn [snd]. change (Z.shiftr (i64 (Z.shiftl (Z.of_nat 0) 56)) 56) with 0.
      change (Z.of_nat (length (@nil Z))) with 0. destruct (Z.eqb_spec 0 dd); case_bool_decide; cbn; lia.
Qed.
(** ** Downloads *)

(** The calls of a client: answers in any order, unrequested and repeated ones too; an
    answer to a request has the hash that was asked for. *)
Inductive sync_step (s : Sync) : Sync -> Prop :=
| step_Missing max paths hashes codes s' : Missing s max = Ret (paths, hashes, codes, s') -> sync_step s s'
| step_ProcessNode arrived p data err s' : (forall l, arrived l ≡ₚ l) ->
    (forall i r, ts_nodeReqs s !! p = Some i -> ts_heap s !! i = Some r -> keccak256 data = nr_hash r) ->
    ProcessNode invoke arrived s p data = Ret (err, s') -> sync_step s s'
| step_flush s' : flushes s s' -> sync_step s s'.

Lemma Missing_spec s max : sync_inv s None -> exists new nh nc s', Missing s max = Ret (new, nh, nc, s') /\ handed s new s' /\
  (max = 0 -> forall p prio, prque_Peek (ts_queue s) = Some (NodeItem p, prio) -> is_Some (ts_nodeReqs s !! p) -> queued (ts_queue s) <> [] ->
    default 0 (ts_fetches s !! Z.shiftr prio 56) <= maxFetchesPerDepth -> new <> []) /\
  Forall2 (fun p h => exists i r, ts_nodeReqs s !! p = Some i /\ ts_heap s !! i = Some r /\ nr_hash r = h) new nh.
Proof. intros Hinv. apply (missing_loop_spec max (S (prque_Size (ts_queue s))) s [] [] []); [rewrite queued_Size; lia|done]. Qed.

Lemma step_inv s s' : sync_inv s None -> sync_step s s' -> sync_inv s' None.
Proof.
  intros Hinv [max ps hs cs s1 E|arrived p data err s1 Harr Hdata E|s1 Hf].
  - destruct (Missing_spec s max Hinv) as (new & nh & nc & s2 & E' & Hh & _). rewrite E in E'. injection E' as -> -> -> ->. apply Hh.
  - pose proof (ProcessNode_spec arrived s p data Hinv Harr Hdata) as Hp. destruct (ts_nodeReqs s !! p); [|congruence].
    destruct Hp as (r & _ & _ & Hp). destruct (nr_data r); [congruence|]. destruct Hp as (s2 & E' & Ha). rewrite E in E'. injection E' as -> ->. apply Ha.
  - by apply (flush_inv s s1).
Qed.

Lemma reachable_inv s s' : sync_inv s None -> rtc sync_step s s' -> sync_inv s' None.
Proof. induction 2; [done|]. eauto using step_inv. Qed.

Lemma done_stored s : sync_inv s None -> Pending s = 0%nat -> mb_nodes (ts_membatch s) = ∅ -> pstored (on_disk (ts_database s)) true pt.
Proof.
  intros Hinv Hp Hm. assert (ts_nodeReqs s = ∅) as Er by (apply map_size_empty_inv; unfold Pending in Hp; lia).
  destruct (co_root _ _ _ _ _ (sv_core _ _ Hinv)) as [Hs|[i Hi]]; [|by rewrite Er, lookup_empty in Hi].
  eapply pstored_mono; [|exact Hs]. intros h b [?|(p & Hb & _)]; [done|]. by rewrite Hm, lookup_empty in Hb.
Qed.

(** ** The loop of a client *)

(** Ask for everything that is missing, answer it, and write it out, until nothing is
    pending. *)
Fixpoint answers (arrived : list nodeRequest -> list nodeRequest) (fetch : list Z -> list Z -> list Z) (todo : list (list Z * list Z)) (s : Sync) : outcome Sync :=
  match todo with
  | [] => Ret s
  | (p, h) :: todo => '(_, s) ← ProcessNode invoke arrived s p (fetch p h); answers arrived fetch todo s
  end.
Fixpoint download (n : nat) (arrived : list nodeRequest -> list nodeRequest) (fetch : list Z -> list Z -> list Z) (s : Sync) : outcome Sync :=
  match n with
  | O => Panic
  | S n =>
      if (Pending s =? 0)%nat then Ret s
      else
        '(paths, hashes, _, s) ← Missing s 0;
        s ← answers arrived fetch (zip paths hashes) s;
        '(ops, s) ← Sync_Commit s (map_to_list (mb_nodes (ts_membatch s))) (map_to_list (mb_codes (ts_membatch s))) [];
        match disk_Write (ts_database s) ops with
        | Ok d => download n arrived fetch (with_disk s d)
        | Err _ => Panic
        end
  end.

(** Between rounds everything open is queued. *)
Record ready (s : Sync) : Prop := {
  rd_inv : sync_inv s None;
  rd_queue : queued (ts_queue s) ≡ₚ item <$> open_paths (ts_heap s);
  rd_accounted : accounted s;
}.

Section loop.
Context (arrived : list nodeRequest -> list nodeRequest) (fetch : list Z -> list Z -> list Z).
Context (Harr : forall l, arrived l ≡ₚ l) (Hsh : shallow).
Context (Hfetch : forall p t, node_at p t -> pinner t = true -> keccak256 (fetch p (keccak256 (penc t))) = keccak256 (penc t)).
Context (Hwrite : forall d ops, exists d', disk_Write d ops = Ok d').

Lemma sync_answers_spec todo : forall s ps, sync_inv s None -> accounted s -> queued (ts_queue s) ≡ₚ item <$> ps -> open_paths (ts_heap s) ≡ₚ todo.*1 ++ ps ->
  Forall (fun x => exists t, node_at x.1 t /\ pinner t = true /\ x.2 = keccak256 (penc t)) todo ->
  exists s', answers arrived fetch todo s = Ret s' /\ ready s' /\ answered (ts_heap s') = (answered (ts_heap s) + length todo)%nat.
Proof.
  induction todo as [|[p h] todo IH]; intros s ps Hinv Hac Hq Hop Htodo; cbn [answers].
  { exists s. split; [done|]. split; [split; [done|by rewrite Hop|done]|cbn; lia]. }
  apply Forall_cons in Htodo as [(t & Hn & Hi & Eh) Htodo]. cbn [fst snd] in *. subst h. cbn in Hop.
  assert (p ∈ open_paths (ts_heap s)) as Hpo by (rewrite Hop; left). pose proof Hpo as (i & r & Ei & Ep & Ed)%open_elem.
  assert (forall j x, ts_nodeReqs s !! p = Some j -> ts_heap s !! j = Some x -> keccak256 (fetch p (keccak256 (penc t))) = nr_hash x) as Hdata.
  { intros j x Ej Ex. rewrite (Hfetch p t Hn Hi). destruct (co_req _ _ _ _ _ (sv_core _ _ Hinv) j x Ex) as (t' & Hn' & _ & -> & _).
    destruct (co_ptr _ _ _ _ _ (sv_core _ _ Hinv) p j Ej) as (x' & Ex' & Epx). rewrite Ex in Ex'. injection Ex' as <-. rewrite Epx in Hn'.
    by rewrite (node_unique pt Hwf Hinner _ _ _ Hn Hn'). }
  pose proof (ProcessNode_spec arrived s p (fetch p (keccak256 (penc t))) Hinv Harr Hdata) as Hp.
  destruct (open_pending s p Hinv Hpo) as [j Ej]. rewrite Ej in Hp. destruct Hp as (x & Ex & Epx & Hp).
  rewrite (co_paths _ _ _ _ _ (sv_core _ _ Hinv) j i x r Ex Ei ltac:(congruence)) in Ex. rewrite Ei in Ex. injection Ex as <-. rewrite Ed in Hp.
  destruct Hp as (s1 & E & [A1 A2 A3 (rest & news & O1 & O2 & O3) A5]). rewrite E. go_ret. cbv beta iota.
  destruct (IH s1 (news ++ ps) A1 (A5 Hsh Hac)) as (s' & E' & Hr & Ha).
  - rewrite O3, Hq. by rewrite fmap_app.
  - rewrite O2. rewrite Hop in O1. apply Permutation_cons_inv in O1. rewrite <- O1. rewrite <- (assoc (++)). by rewrite (comm (++) ps).
  - done.
  - exists s'. split; [done|]. split; [done|]. rewrite Ha, A3. cbn [length]. lia.
Qed.

Lemma ready_queue s : ready s -> Pending s <> 0%nat -> queued (ts_queue s) <> [].
Proof.
  intros [Hinv Hq _] Hp E. rewrite E in Hq. symmetry in Hq. apply Permutation_nil_r, fmap_nil_inv in Hq.
  destruct (sv_codes _ _ Hinv) as [Hco _]. unfold Pending in Hp. rewrite Hco, map_size_empty, Nat.add_0_r in Hp.
  apply map_size_ne_0_lookup in Hp as (p & i & Ei). destruct (co_ptr _ _ _ _ _ (sv_core _ _ Hinv) p i Ei) as (r & Er & <-).
  destruct (nr_data r) as [b|] eqn:Ed.
  - destruct (open_below s Hinv Hsh 128 i r ltac:(lia) Er ltac:(by eexists) ltac:(by eexists)) as (q & Hin & _). rewrite Hq in Hin. by apply elem_of_nil in Hin.
  - assert (nr_path r ∈ open_paths (ts_heap s)) as Hin by (apply open_elem; by exists i, r). rewrite Hq in Hin. by apply elem_of_nil in Hin.
Qed.

Lemma answered_bound s : sync_inv s None -> (answered (ts_heap s) <= length (pre [] pt))%nat.
Proof.
  intros Hinv. transitivity (length (ts_heap s)); [apply length_filter|]. rewrite <- (length_fmap nr_path), <- (length_fmap fst (pre [] pt)).
  apply submseteq_length, NoDup_submseteq.
  - apply NoDup_alt. intros i j p Hi Hj. rewrite list_lookup_fmap in Hi, Hj.
    apply fmap_Some in Hi as (r & Er & ->), Hj as (r' & Er' & E). by apply (co_paths _ _ _ _ _ (sv_core _ _ Hinv) i j r r').
  - intros p (r & -> & [i Ei]%list_elem_of_lookup)%list_elem_of_fmap. destruct (co_req _ _ _ _ _ (sv_core _ _ Hinv) i r Ei) as (t & Hn & _).
    apply list_elem_of_fmap. by exists (nr_path r, t).
Qed.

Lemma round_spec s : ready s -> Pending s <> 0%nat -> exists paths hashes codes s1 s2, Missing s 0 = Ret (paths, hashes, codes, s1) /\
  answers arrived fetch (zip paths hashes) s1 = Ret s2 /\ ready s2 /\ (answered (ts_heap s) < answered (ts_heap s2))%nat.
Proof.
  intros Hready Hp. pose proof (ready_queue s Hready Hp) as Hne. destruct Hready as [Hinv Hq Hac].
  destruct (Missing_spec s 0 Hinv) as (new & nh & nc & s1 & E & [D1 D2 D3 D4 D5 D6] & Hnew & Hf2).
  assert (Forall (fun p => is_Some (ts_nodeReqs s !! p)) (open_paths (ts_heap s))) as Hpend by (apply Forall_forall; intros p Hin; by apply open_pending).
  destruct (D6 _ Hq Hpend) as (ps & Hq1 & Hops). exists new, nh, nc, s1.
  assert (new <> []) as Hn.
  { destruct (queued_Peek (ts_queue s) Hne) as (x & prio & Ep & Hpop & _).
    assert ((x, prio) ∈ item <$> open_paths (ts_heap s)) as (p & [= -> ->] & Hin)%list_elem_of_fmap by (rewrite <- Hq, Hpop; left).
    apply (Hnew eq_refl p (sync_prio p) Ep); [by apply open_pending|done|].
    pose proof (not_throttled s p (sync_prio p) Hinv Hsh Hac Hq Ep Hne). unfold maxFetchesPerDepth. lia. }
  assert (length new = length nh) as Hlen by (by eapply Forall2_length).
  destruct (sync_answers_spec (zip new nh) s1 ps D1 (D5 Hac) Hq1) as (s2 & E2 & Hr2 & Ha2).
  - rewrite D2, fst_zip by lia. done.
  - apply Forall_forall. intros [p h] [k Hk]%list_elem_of_lookup. apply lookup_zip_with_Some in Hk as (p' & h' & [= -> ->] & E1 & E2).
    destruct (Forall2_lookup_lr _ _ _ _ _ _ Hf2 E1 E2) as (i & r & Ei & Er & <-). destruct (co_ptr _ _ _ _ _ (sv_core _ _ Hinv) _ i Ei) as (r' & Er' & <-).
    rewrite Er in Er'. injection Er' as <-. destruct (co_req _ _ _ _ _ (sv_core _ _ Hinv) i r Er) as (t & Hnt & Hi & Eh & _). by exists t.
  - exists s2. split; [done|]. split; [done|]. split; [done|]. rewrite Ha2, D2. destruct new, nh; cbn in *; try done. lia.
Qed.

Lemma download_spec n : forall s, ready s -> mb_nodes (ts_membatch s) = ∅ -> (length (pre [] pt) - answered (ts_heap s) < n)%nat ->
  exists s', download n arrived fetch s = Ret s' /\ sync_inv s' None /\ Pending s' = 0%nat /\ mb_nodes (ts_membatch s') = ∅.
Proof.
  induction n as [|n IH]; intros s Hready Hm Hn; [lia|]. cbn [download]. destruct (Nat.eqb_spec (Pending s) 0) as [Hp|Hp].
  { exists s. split; [done|]. split; [apply Hready|done]. }
  destruct (round_spec s Hready Hp) as (paths & hashes & codes & s1 & s2 & E1 & E2 & Hr2 & Hlt). rewrite E1. go_ret. cbv beta iota. rewrite E2. go_ret.
  destruct (Sync_Commit_spec s2 (map_to_list (mb_nodes (ts_membatch s2))) (map_to_list (mb_codes (ts_membatch s2))) (rd_inv _ Hr2)) as (ops & E & _); [done..|].
  rewrite E. go_ret. cbv beta iota. cbn [ts_database]. destruct (Hwrite (ts_database s2) ops) as [d Ed]. rewrite Ed.
  assert (flushes s2 (with_disk (mkSync (ts_scheme s2) (ts_database s2) newSyncMemBatch (ts_heap s2) (ts_nodeReqs s2) (ts_codeReqs s2) (ts_queue s2) (ts_fetches s2)) d)) as Hfl.
  { eexists _, _, ops, _, d. do 2 (split; [done|]). by split. }
  destruct (flush_inv _ _ (rd_inv _ Hr2) Hfl) as (Hinv3 & Hm3 & _). pose proof (answered_bound s2 (rd_inv _ Hr2)).
  assert (length (pre [] pt) - answered (ts_heap s2) < n)%nat as Hn2 by lia.
  apply IH; [|done|exact Hn2]. destruct Hr2 as [_ Hq2 Hac2]. split; [done|exact Hq2|exact Hac2].
Qed.
End loop.
End scheduler.

(** ** What a download leaves *)

Section correct.
Context `{EthDB} `{!EthDBLaws} `{PrQue} `{!PrQueLaws} `{LeafCallbacks} `{!RawDB} `{!RawDBLaws}.
Context `{RLPLaws} `{EthCommon} `{!HashLaws} `{!CollisionFree} `{!RLPSize}.
Context (invoke : LeafCallback -> list (list Z) -> list Z -> list Z -> list Z -> list Z -> Sync -> outcome (option string * Sync)).

(** The map can be opened from the disk under the root. *)
Definition opens (d : disk) (rt : list Z) (m : gmap (list Z) (list Z)) : Prop :=
  forall GetReader r, GetReader rt = Some r -> serves r (on_disk d) ->
  exists t, New (TrieID rt) GetReader = Ret (Ok t) /\ @trie_rep _ _ (hash_flags (clean_stored (solid (on_disk d)))) t m.

Lemma length_keybytes k : length (keybytesToHex k) = S (2 * length k).
Proof. unfold keybytesToHex. rewrite length_app. induction k as [|b k IH]; [done|]. cbn in *. lia. Qed.

Lemma inner_leaf t : forall p, spot p t -> exists q v, (q, PVal v) ∈ pre p t.
Proof.
  induction t as [|v|k c IH|cs IH] using ptrie_nested_ind; intros p Hs.
  - by destruct Hs as (? & _ & _ & ?).
  - exists p, v. left.
  - destruct (spot_short _ _ _ Hs) as [Hc _]. destruct (IH _ Hc) as (q & v & Hin). exists q, v. by right.
  - destruct (spot_full_some _ _ Hs) as (i & c & Ei & Hc). destruct (IH i c Ei _ (spot_full _ _ _ _ Hs Ei Hc)) as (q & v & Hin).
    exists q, v. right. apply elem_of_kids. by exists i, c.
Qed.

Lemma shallow_keys pt m : pt_holds pt m -> pinner pt = true -> (forall k v, m !! k = Some v -> (length k < 64)%nat) -> shallow pt.
Proof.
  intros Hh Hi Hk p t Hn Hit. pose proof (target_spot pt (holds_wf _ _ Hh) Hi) as Hs.
  destruct (inner_leaf t p (node_spot pt (holds_wf _ _ Hh) Hi p t Hn)) as (q & v & Hq).
  destruct (pre_ext t p _ (node_spot pt (holds_wf _ _ Hh) Hi p t Hn) Hq) as [y Ey]. cbn in Ey.
  destruct (pre_placed pt m Hh ltac:(by intros ->)) as [_ Hpl]. rewrite Forall_forall in Hpl. pose proof (pre_in_pre pt [] p t Hn _ Hq) as Hq'.
  destruct (Hpl _ Hq') as [_ Hv]. destruct (Hv v eq_refl) as (k & Hb & Ek). cbn in Ek.
  assert (m !! k = Some v) as Hm by (apply (pre_bindings pt m k v Hh Hb); by rewrite <- Ek). specialize (Hk k v Hm).
  destruct (decide (y = [])) as [->|Hy].
  - rewrite app_nil_r in Ey. subst q. by rewrite (pre_unique pt [] _ _ _ Hs Hn Hq') in Hit.
  - apply (f_equal length) in Ek. rewrite length_keybytes, Ey, length_app in Ek. destruct y; [done|cbn in Ek; lia].
Qed.

Lemma stored_opens pt m d : pt_holds pt m -> pinner pt = true -> pstored (on_disk d) true pt -> opens d (keccak256 (penc pt)) m.
Proof.
  intros Hh Hi Hs GetReader r Hg Hr. destruct (New_spec (on_disk d) (keccak256 (penc pt)) m pt GetReader r) as (t & E & _ & Ht); try done.
  - by destruct pt.
  - intros E. by destruct (root_nonempty pt Hi).
  - by exists t.
Qed.

(** C32. A state sync is safe against interruption, when answers have the hash that was
    asked for, which the callers of [ProcessNode] check and it does not.  From a disk on
    which the nodes of the target that it holds are there with everything below them,
    and after any sequence of [Missing], of answers with the hashes that were asked for
    (in any order, unasked and repeated ones included), and of commits written to the
    disk: no call panics, the disk still has that property, and when nothing is pending
    and the batch is written out, the target opens from the disk with all its bindings. *)
Theorem sync_safe (pt : ptrie) (m : gmap (list Z) (list Z)) (d : disk) :
  pt_holds pt m -> m <> ∅ -> disk_closed pt d ->
  exists s0, NewSync (keccak256 (penc pt)) d None HashScheme = Ret s0 /\
  forall s, rtc (sync_step invoke) s0 s ->
    disk_closed pt (ts_database s) /\
    (forall max, exists x, Missing s max = Ret x) /\
    (forall arrived p data, (forall l, arrived l ≡ₚ l) ->
       (forall i r, ts_nodeReqs s !! p = Some i -> ts_heap s !! i = Some r -> keccak256 data = nr_hash r) ->
       exists x, ProcessNode invoke arrived s p data = Ret x) /\
    (forall order codes, order ≡ₚ map_to_list (mb_nodes (ts_membatch s)) -> codes ≡ₚ map_to_list (mb_codes (ts_membatch s)) ->
       exists x, Sync_Commit s order codes [] = Ret x) /\
    (Pending s = 0%nat -> mb_nodes (ts_membatch s) = ∅ -> opens (ts_database s) (keccak256 (penc pt)) m).
Proof.
  intros Hh Hm Hd. pose proof (pinner_nonempty pt m Hh Hm) as Hi. pose proof (holds_wf _ _ Hh) as Hw.
  destruct (NewSync_spec pt Hw Hi d Hd) as (s0 & E & Hinv0 & _). exists s0. split; [done|]. intros s Hs.
  pose proof (reachable_inv pt Hw Hi invoke s0 s Hinv0 Hs) as Hinv. split; [apply Hinv|]. split; [|split; [|split]].
  - intros max. destruct (Missing_spec pt s max Hinv) as (? & ? & ? & ? & E' & _). by eexists.
  - intros arrived p data Harr Hdata. pose proof (ProcessNode_spec pt Hw Hi invoke arrived s p data Hinv Harr Hdata) as Hp.
    destruct (ts_nodeReqs s !! p); [|by eexists]. destruct Hp as (r & _ & _ & Hp). destruct (nr_data r); [by eexists|]. destruct Hp as (s' & E' & _). by eexists.
  - intros order codes Ho Hc. destruct (Sync_Commit_spec pt Hw Hi s order codes Hinv Ho Hc) as (ops & E' & _). by eexists.
  - intros Hp Hb. apply stored_opens; [done..|]. by apply done_stored.
Qed.

(** C33. A download ends: a client that asks for everything missing, answers with data of
    the right hash and writes the batches out gets, within as many rounds as the target
    has nodes, to a state with nothing pending, and the target opens from the disk.  The
    limit on fetches per depth never stops it for good. *)
Theorem sync_completes (pt : ptrie) (m : gmap (list Z) (list Z)) (d : disk) (arrived : list nodeRequest -> list nodeRequest) (fetch : list Z -> list Z -> list Z) :
  pt_holds pt m -> m <> ∅ -> disk_closed pt d -> (forall k v, m !! k = Some v -> (length k < 64)%nat) ->
  (forall l, arrived l ≡ₚ l) ->
  (forall p t, (p, t) ∈ pre [] pt -> pinner t = true -> keccak256 (fetch p (keccak256 (penc t))) = keccak256 (penc t)) ->
  (forall d ops, exists d', disk_Write d ops = Ok d') ->
  exists s0, NewSync (keccak256 (penc pt)) d None HashScheme = Ret s0 /\
  forall n, (length (pre [] pt) < n)%nat -> exists s, download invoke n arrived fetch s0 = Ret s /\ Pending s = 0%nat /\
    opens (ts_database s) (keccak256 (penc pt)) m.
Proof.
  intros Hh Hm Hd Hk Harr Hfetch Hwrite. pose proof (pinner_nonempty pt m Hh Hm) as Hi. pose proof (holds_wf _ _ Hh) as Hw.
  destruct (NewSync_spec pt Hw Hi d Hd) as (s0 & E & Hinv0 & Ed & Hq & Hac & Hb). exists s0. split; [done|]. intros n Hn.
  destruct (download_spec pt Hw Hi invoke arrived fetch Harr (shallow_keys pt m Hh Hi Hk) Hfetch Hwrite n s0) as (s & Es & Hinv & Hp & Hbs);
    [by split|by rewrite Hb|lia|]. exists s. split; [done|]. split; [done|]. apply stored_opens; [done..|]. by apply done_stored.
Qed.
End correct.

(** ** A concrete download *)

Module SyncSample.
#[local] Existing Instance RLPSample.rlp.
#[local] Existing Instance RLPSample.env.
#[local] Existing Instance RLPSample.eth.
#[local] Existing Instance RLPSample.rlp_laws.
#[local] Existing Instance RLPSample.hash_laws.
#[local] Existing Instance DBSample.ethdb.
#[local] Instance ethdb_laws : EthDBLaws := DBSample.ethdb_laws.
#[local] Instance free : CollisionFree := RLPSample.keccak_inj.

#[local] Instance rlp_size : RLPSize.
Proof. intros [|x s]; cbn; lia. Qed.

(** A queue as a list, searched for its greatest priority. *)
Fixpoint take_max (x : sync_item * Z) (l : list (sync_item * Z)) : (sync_item * Z) * list (sync_item * Z) :=
  match l with
  | [] => (x, [])
  | y :: l => let mr := take_max y l in if mr.1.2 <? x.2 then (x, mr.1 :: mr.2) else (mr.1, x :: mr.2)
  end.

#[local] Instance queue : PrQue := {|
  prque := list (sync_item * Z);
  prque_New := [];
  prque_Push := fun q x p => (x, p) :: q;
  prque_Peek := fun q => match q with [] => None | x :: l => Some (take_max x l).1 end;
  prque_Pop := fun q => match q with [] => [] | x :: l => (take_max x l).2 end;
  prque_Empty := fun q => match q with [] => true | _ => false end;
  prque_Size := length;
|}.

Lemma take_max_spec l : forall x, x :: l ≡ₚ (take_max x l).1 :: (take_max x l).2 /\ forall y, y ∈ x :: l -> y.2 <= (take_max x l).1.2.
Proof.
  induction l as [|y l IH]; intros x; cbn [take_max fst snd].
  - split; [done|]. by intros y ->%list_elem_of_singleton.
  - destruct (IH y) as [Hp Hm]. destruct (Z.ltb_spec (take_max y l).1.2 x.2); cbn [fst snd]; (split; [rewrite Hp; (done || by apply Permutation_swap)|]);
      intros z [->|Hz]%elem_of_cons; [done|specialize (Hm z Hz); lia|lia|by apply Hm].
Qed.

#[local] Instance queue_laws : PrQueLaws.
Proof.
  refine {| queued := fun q : @prque queue => q : list (sync_item * Z) |}; cbn; [done|done| |done|].
  - intros [|x q]; done.
  - intros [|x q] Hne; [done|]. destruct (take_max_spec q x) as [Hp Hm]. destruct (take_max x q) as [[y p] r] eqn:E.
    exists y, p. split; [done|]. cbn in *. by split.
Defined.

#[local] Instance rawdb : RawDB := {|
  HasTrieNode := fun d _ _ h _ => Ret (match disk_Get d h with Some _ => true | None => false end);
  WriteTrieNode := fun _ _ h b _ => Ret [(h, b)];
  HasCodeWithPrefix := fun d h => match disk_Get d (99 :: h) with Some _ => true | None => false end;
  WriteCode := fun h b => [(99 :: h, b)];
  EmptyCodeHash := keccak256 [];
|}.
#[local] Instance rawdb_laws : RawDBLaws.
Proof. by split. Qed.

#[local] Instance callbacks : LeafCallbacks := {| LeafCallback := Empty_set |}.
Definition invoke (c : LeafCallback) (keys : list (list Z)) (path leaf parent parentPath : list Z) (s : Sync) : outcome (option string * Sync) :=
  match c with end.

(** Two keys with values too long to be embedded. *)
Definition target : ptrie :=
  (pinsert (pinsert PNil (keybytesToHex [1; 2]) (PVal (replicate 40 7))).2 (keybytesToHex [3; 4]) (PVal (replicate 40 9))).2.
Definition content : gmap (list Z) (list Z) := <[ [3; 4] := replicate 40 9 ]> (<[ [1; 2] := replicate 40 7 ]> ∅).

Lemma target_holds : pt_holds target content.
Proof. repeat (apply pt_holds_insert; [|repeat constructor; unfold is_byte; lia|done]). apply pt_holds_empty. Qed.

Lemma content_some : content <> ∅.
Proof. intros E. assert (content !! [3; 4] = None) as En by (by rewrite E, lookup_empty). done. Qed.

Definition empty_disk : disk := (∅ : gmap (list Z) (list Z)).
Lemma empty_closed : disk_closed target empty_disk.
Proof. intros p t _ _ [b Eb]. change ((∅ : gmap (list Z) (list Z)) !! keccak256 (penc t) = Some b) in Eb. by rewrite lookup_empty in Eb. Qed.

Definition fetch (p h : list Z) : list Z :=
  match list_find (fun x => x.1 = p) (pre [] target) with Some (_, x) => penc x.2 | None => [] end.

Lemma fetch_right p t : (p, t) ∈ pre [] target -> fetch p (keccak256 (penc t)) = penc t.
Proof.
  intros Hin. unfold fetch. destruct (list_find _ _) as [[i [q s]]|] eqn:E.
  - apply list_find_Some in E as (Ei & Eq & _). cbn in *. subst q. f_equal. symmetry.
    apply (pre_unique target [] p t s); [|done|by eapply list_elem_of_lookup_2]. apply (target_spot target); [apply target_holds|done].
  - apply list_find_None in E. rewrite Forall_forall in E. by destruct (E _ Hin).
Qed.

(** The root is asked for and answered. *)
Lemma sync_safe_witness : exists s0 paths hashes codes s1 err s2,
  NewSync (keccak256 (penc target)) empty_disk None HashScheme = Ret s0 /\
  Missing s0 0 = Ret (paths, hashes, codes, s1) /\
  ProcessNode invoke (fun l => l) s1 [] (penc target) = Ret (err, s2) /\
  disk_closed target (ts_database s2) /\ exists x, Missing s2 0 = Ret x.
Proof.
  destruct (sync_safe invoke target content empty_disk) as (s0 & E & Hs).
  - exact target_holds.
  - exact content_some.
  - exact empty_closed.
  - destruct (Hs s0 (rtc_refl _ _)) as (_ & Hm & _). destruct (Hm 0) as ([[[paths hashes] codes] s1] & E1).
    assert (match NewSync (keccak256 (penc target)) empty_disk None HashScheme with
            | Ret s0 => match Missing s0 0 with
                        | Ret (_, _, _, s1) => match ts_nodeReqs s1 !! [] with
                            | Some i => match ts_heap s1 !! i with
                                        | Some r => bool_decide (keccak256 (penc target) = nr_hash r) | None => true end
                            | None => true end
                        | Panic => true end
            | Panic => true end = true) as Hc by (vm_compute; reflexivity).
    rewrite E, E1 in Hc.
    assert (forall i r, ts_nodeReqs s1 !! [] = Some i -> ts_heap s1 !! i = Some r -> keccak256 (penc target) = nr_hash r) as Hh.
    { intros i r Ei Er. rewrite Ei, Er in Hc. by apply bool_decide_eq_true in Hc. }
    assert (rtc (sync_step invoke) s0 s1) as Hr1 by (apply rtc_once; by eapply step_Missing).
    destruct (Hs s1 Hr1) as (_ & _ & Hp & _). destruct (Hp (fun l => l) [] (penc target) (fun l => reflexivity l) Hh) as ([err s2] & E2).
    assert (rtc (sync_step invoke) s0 s2) as Hr2 
      by (eapply rtc_r; [exact Hr1|eapply (step_ProcessNode _ _ (fun l => l)); [intros l; reflexivity|exact Hh|exact E2]]).
    destruct (Hs s2 Hr2) as (Hd & Hm2 & _). exists s0, paths, hashes, codes, s1, err, s2.
    split; [exact E|]. split; [exact E1|]. split; [exact E2|]. split; [exact Hd|exact (Hm2 0)].
Defined.

Lemma sync_completes_witness : exists s0, NewSync (keccak256 (penc target)) empty_disk None HashScheme = Ret s0 /\
  exists s, download invoke 10 (fun l => l) fetch s0 = Ret s /\ Pending s = 0%nat /\ opens (ts_database s) (keccak256 (penc target)) content.
Proof.
  destruct (sync_completes invoke target content empty_disk (fun l => l) fetch) as (s0 & E & Hs).
  - exact target_holds.
  - exact content_some.
  - exact empty_closed.
  - intros k v Hk. unfold content in Hk. apply lookup_insert_Some in Hk as [[<- _]|[_ [[<- _]|[_ Hk]]%lookup_insert_Some]]; [cbn; lia|cbn; lia|].
    by rewrite lookup_empty in Hk.
  - done.
  - intros p t Hin _. by rewrite fetch_right.
  - intros d ops. by eexists.
  - exists s0. split; [exact E|]. apply Hs. vm_compute. lia.
Defined.
End SyncSample.
