(* ===== verification/RangeProof.v ===== *)
(** * Range proofs ([trie/proof.go])

    A range of bindings is proved by two paths of the trie, to a key at or before its
    start and to one at or after its end: the paths are rebuilt from the proof, what
    lies between them is cut off, the bindings are inserted, and the root hash must
    come out.  The code links and cuts nodes in place; every node it changes was decoded
    for this call, so the changes are made here on the returned tree.  [RangeProofs]
    proves what an accepted range means. *)

From stdpp Require Import base gmap strings list fin_maps.
From Stdlib Require Import ZArith Lia.
From S2P Require Import Prelude Encoding Node Trie Hasher MerkleProof Iterator StackTrie.

Local Open Scope Z_scope.

Inductive range_err :=
| ErrDataLengths
| ErrNotIncreasing
| ErrDeletion
| ErrWrongRoot (want have : list Z)
| ErrProofNodeMissing (hash : list Z)
| ErrBadProofNode (e : decode_err)
| ErrNotContained
| ErrMoreEntries
| ErrInvalidKey
| ErrInvalidData
| ErrEdgeKeys
| ErrEdgeLengths
| ErrEmptyRange.

Section range.
Context `{RLP} `{EthCommon} `{HashEnv}.

(** ** The paths of a proof *)

Definition resolveNode (proof : proofDb) (hash : list Z) : outcome (res range_err node) :=
  match proof !! hash with
  | None => Ret (Err (ErrProofNodeMissing hash))
  | Some buf =>
      match decodeNode (Some hash) buf with
      | Err DecodePanic => Panic
      | Err e => Ret (Err (ErrBadProofNode e))
      | Ok n => Ret (Ok n)
      end
  end.

(** [pnode.Val = child] or [pnode.Children[key[0]] = child]. *)
Definition link (parent : node) (key : list Z) (child : node) : node :=
  match parent with
  | ShortNode k _ f => ShortNode k child f
  | FullNode cs f => FullNode (<[Z.to_nat (default 0 (head key)) := child]> cs) f
  | _ => parent
  end.

(** The loop at [parent]: the node with the path below it resolved, and the value. An
    empty value ends in the [panic] of the next round. *)
Fixpoint path_loop (fuel : nat) (proof : proofDb) (allowNonExistent : bool) (parent : node) (key : list Z)
  : outcome (res range_err (node * option (list Z))) :=
  match fuel with
  | O => Panic
  | S fuel =>
      match parent with
      | ShortNode _ _ _ | FullNode _ _ =>
          '(keyrest, child) ← proof_get parent key false;
          let below (child : node) : outcome (res range_err (node * option (list Z))) :=
            r ← path_loop fuel proof allowNonExistent child keyrest;
            Ret (match r with Ok (child, v) => Ok (link parent key child, v) | Err e => Err e end) in
          match child with
          | NilNode => Ret (if allowNonExistent then Ok (parent, None) else Err ErrNotContained)
          | ShortNode _ _ _ | FullNode _ _ => below child
          | HashNode h =>
              r ← resolveNode proof (BytesToHash h);
              match r with Err e => Ret (Err e) | Ok child => below child end
          | ValueNode v => if (0 <? length v)%nat then Ret (Ok (parent, Some v)) else Panic
          end
      | _ => Panic
      end
  end.

(** Every round goes down a node of the proof, embedded or not. *)
Definition proof_size (proof : proofDb) : nat := map_fold (fun _ b n => (S (length b) + n)%nat) 0%nat proof.

(** With no root yet, the root node is taken from the proof. *)
Definition proofToPath (rootHash : list Z) (root : option node) (key : list Z) (proof : proofDb) (allowNonExistent : bool)
  : outcome (res range_err (node * option (list Z))) :=
  let key := keybytesToHex key in
  r ← match root with Some n => Ret (Ok n) | None => resolveNode proof rootHash end;
  match r with
  | Err e => Ret (Err e)
  | Ok root => path_loop (S (length key + proof_size proof)) proof allowNonExistent root key
  end.

(** ** Cutting *)

(** A node after the cut, or the order to its parent, a full node, to drop it. *)
Inductive cut := Keep (n : node) | Remove.

(** [Children[lo..hi-1] = nil]. *)
Definition clear (lo hi : nat) (cs : list node) : list node :=
  imap (fun i c => if (lo <=? i)%nat && (i <? hi)%nat then NilNode else c) cs.

Definition put_child (cs : list node) (i : nat) (r : cut) : list node :=
  <[i := match r with Keep c => c | Remove => NilNode end]> cs.

(** [unset] below a full or a short parent, which says whether the child may be
    dropped. *)
Fixpoint unset (child : node) (key : list Z) (pos : nat) (removeLeft : bool) {struct child} : outcome cut :=
  match child with
  | FullNode cs _ =>
      match key !! pos with
      | None => Panic
      | Some x =>
          let i := Z.to_nat x in
          let cs' := if removeLeft then clear 0 i cs else clear (S i) 16 cs in
          r ← nth_with (fun c => unset c key (S pos) removeLeft) Panic cs i;
          Ret (Keep (FullNode (put_child cs' i r) newFlag))
      end
  | ShortNode k v _ =>
      if (length (drop pos key) <? length k)%nat || negb (bool_decide (k = take (length k) (drop pos key))) then
        let c := bytes_Compare k (drop pos key) in
        Ret (if (if removeLeft then c <? 0 else 0 <? c) then Remove else Keep child)
      else
        match v with
        | ValueNode _ => Ret Remove
        | _ =>
            r ← unset v key (pos + length k) removeLeft;
            match r with Keep v => Ret (Keep (ShortNode k v newFlag)) | Remove => Panic end
        end
  | NilNode => Ret (Keep NilNode)
  | _ => Panic
  end.

(** [a != b] on two children: the interface holds a pointer, or a slice that cannot be
    compared. *)
Definition differ (l r : Z) (a b : node) : outcome bool :=
  match a, b with
  | HashNode _, HashNode _ | ValueNode _, ValueNode _ => Panic
  | _, _ => Ret (negb (l =? r))
  end.

(** Down to the fork of the two paths, and the cut there. *)
Fixpoint unset_fork (n : node) (left right : list Z) (pos : nat) {struct n} : outcome (res range_err cut) :=
  match n with
  | ShortNode k v _ =>
      let forkLeft := bytes_Compare (take (length k) (drop pos left)) k in
      let forkRight := bytes_Compare (take (length k) (drop pos right)) k in
      if (forkLeft =? 0) && (forkRight =? 0) then
        r ← unset_fork v left right (pos + length k);
        match r with
        | Err e => Ret (Err e)
        | Ok (Keep v) => Ret (Ok (Keep (ShortNode k v newFlag)))
        | Ok Remove => Panic
        end
      else if (forkLeft =? -1) && (forkRight =? -1) then Ret (Err ErrEmptyRange)
      else if (forkLeft =? 1) && (forkRight =? 1) then Ret (Err ErrEmptyRange)
      else if negb (forkLeft =? 0) && negb (forkRight =? 0) then Ret (Ok Remove)
      else
        match v with
        | ValueNode _ => Ret (Ok Remove)
        | _ =>
            r ← (if negb (forkRight =? 0) then unset v (drop pos left) (length k) false
                 else unset v (drop pos right) (length k) true);
            match r with Keep v => Ret (Ok (Keep (ShortNode k v newFlag))) | Remove => Panic end
        end
  | FullNode cs _ =>
      match left !! pos, right !! pos with
      | Some l, Some r =>
          let i := Z.to_nat l in
          let j := Z.to_nat r in
          leftnode ← of_option (cs !! i);
          rightnode ← of_option (cs !! j);
          fork ← (if is_nil leftnode || is_nil rightnode then Ret true else differ l r leftnode rightnode);
          if (fork : bool) then
            let cs := clear (S i) j cs in
            leftnode ← of_option (cs !! i);
            a ← unset leftnode (drop pos left) 1 false;
            let cs := put_child cs i a in
            rightnode ← of_option (cs !! j);
            b ← unset rightnode (drop pos right) 1 true;
            Ret (Ok (Keep (FullNode (put_child cs j b) newFlag)))
          else
            r ← nth_with (fun c => unset_fork c left right (S pos)) Panic cs i;
            Ret (match r with Err e => Err e | Ok c => Ok (Keep (FullNode (put_child cs i c) newFlag)) end)
      | _, _ => Panic
      end
  | _ => Panic
  end.

(** The cut tree; without a parent to drop it from, the whole tree is given up. *)
Definition unsetInternal (n : node) (left right : list Z) : outcome (res range_err (bool * node)) :=
  r ← unset_fork n (keybytesToHex left) (keybytesToHex right) 0;
  Ret (match r with Err e => Err e | Ok (Keep n) => Ok (false, n) | Ok Remove => Ok (true, n) end).

(** ** Elements to the right *)

Fixpoint right_of (n : node) (key : list Z) (pos : nat) {struct n} : outcome bool :=
  match n with
  | FullNode cs _ =>
      match key !! pos with
      | None => Panic
      | Some x =>
          let i := Z.to_nat x in
          if existsb (fun c => negb (is_nil c)) (take (16 - S i) (drop (S i) cs)) then Ret true
          else nth_with (fun c => right_of c key (S pos)) Panic cs i
      end
  | ShortNode k v _ =>
      if (length (drop pos key) <? length k)%nat || negb (bool_decide (k = take (length k) (drop pos key)))
      then Ret (0 <? bytes_Compare k (drop pos key))
      else right_of v key (pos + length k)
  | ValueNode _ | NilNode => Ret false
  | HashNode _ => Panic
  end.
Definition hasRightElement (n : node) (key : list Z) : outcome bool := right_of n (keybytesToHex key) 0.

(** ** Verification *)

Fixpoint increasing (keys : list (list Z)) : bool :=
  match keys with
  | k :: ((k' :: _) as keys') => if 0 <=? bytes_Compare k k' then false else increasing keys'
  | _ => true
  end.

(** The updates of the stack trie, and those of the trie, whose errors are dropped. *)
Fixpoint fill_stack (st : StackTrie) (kvs : list (list Z * list Z)) : outcome StackTrie :=
  match kvs with
  | [] => Ret st
  | (k, v) :: kvs => '(st, _) ← StackTrie.Update st k v; fill_stack st kvs
  end.
Fixpoint fill_trie (t : Trie) (kvs : list (list Z * list Z)) : outcome Trie :=
  match kvs with
  | [] => Ret t
  | (k, v) :: kvs => '(_, t) ← Trie.Update t k v; fill_trie t kvs
  end.

(** With two edge paths. *)
Definition verify_edges (rootHash firstKey lastKey : list Z) (kvs : list (list Z * list Z)) (proof : proofDb) : outcome (res range_err bool) :=
  r1 ← proofToPath rootHash None firstKey proof true;
  match r1 with
  | Err e => Ret (Err e)
  | Ok (root, _) =>
      r2 ← proofToPath rootHash (Some root) lastKey proof true;
      match r2 with
      | Err e => Ret (Err e)
      | Ok (root, _) =>
          r3 ← unsetInternal root firstKey lastKey;
          match r3 with
          | Err e => Ret (Err e)
          | Ok (empty, root) =>
              tr ← fill_trie (mkTrie (if (empty : bool) then NilNode else root) (replicate 32 0) 0 newEmptyReader newTracer) kvs;
              '(have, tr) ← Hasher.Hash tr;
              if bool_decide (have = rootHash) then
                k ← of_option (last kvs.*1);
                more ← hasRightElement (Trie.root tr) k;
                Ret (Ok more)
              else Ret (Err (ErrWrongRoot rootHash have))
          end
      end
  end.

Definition VerifyRangeProof (rootHash firstKey lastKey : list Z) (keys values : list (list Z)) (proof : option proofDb)
  : outcome (res range_err bool) :=
  if negb (length keys =? length values)%nat then Ret (Err ErrDataLengths)
  else if negb (increasing keys) then Ret (Err ErrNotIncreasing)
  else if existsb (fun v => (length v =? 0)%nat) values then Ret (Err ErrDeletion)
  else
    let kvs := zip keys values in
    match proof with
    | None =>
        st ← fill_stack (NewStackTrie false) kvs;
        '(have, _, _) ← StackTrie.Hash st;
        Ret (if bool_decide (have = rootHash) then Ok false else Err (ErrWrongRoot rootHash have))
    | Some proof =>
        if (length keys =? 0)%nat then
          r ← proofToPath rootHash None firstKey proof true;
          match r with
          | Err e => Ret (Err e)
          | Ok (root, val) =>
              more ← match val with Some _ => Ret true | None => hasRightElement root firstKey end;
              Ret (if (more : bool) then Err ErrMoreEntries else Ok false)
          end
        else if (length keys =? 1)%nat && bool_decide (firstKey = lastKey) then
          r ← proofToPath rootHash None firstKey proof false;
          match r with
          | Err e => Ret (Err e)
          | Ok (root, val) =>
              if negb (bool_decide (keys = [firstKey])) then Ret (Err ErrInvalidKey)
              else if negb (bool_decide (values = [default [] val])) then Ret (Err ErrInvalidData)
              else more ← hasRightElement root firstKey; Ret (Ok more)
          end
        else if 0 <=? bytes_Compare firstKey lastKey then Ret (Err ErrEdgeKeys)
        else if negb (length firstKey =? length lastKey)%nat then Ret (Err ErrEdgeLengths)
        else verify_edges rootHash firstKey lastKey kvs proof
    end.
End range.
