(* ===== verification/RangeProofs.v ===== *)
(** * What an accepted range means ([trie/proof.go])

    The two paths of a range proof are genuine parts of the trie with the given root
    hash; cutting what lies between them leaves a loose trie that holds the bindings
    outside the range and leads every key of the range to an empty slot; inserting the
    claimed bindings there can only give the root hash when it gives the trie back.  So
    an accepted range is complete and correct, provided the caller has checked that the
    keys lie in it: the last part shows a range that is accepted without. *)

From stdpp Require Import base gmap strings list fin_maps.
From Stdlib Require Import ZArith Lia.
From S2P Require Import Prelude Encoding TrieSpec Node Trie TrieMap Hasher Committer Reload Database MerkleProof Iterator Iteration StackTrie RangeProof.

Local Open Scope Z_scope.

(** ** Nodes whose path to a key is in memory *)

Fixpoint resolved (n : node) (key : list Z) {struct n} : Prop :=
  match n with
  | HashNode _ => False
  | NilNode | ValueNode _ => True
  | ShortNode k c _ => take (length k) key = k -> resolved c (drop (length k) key)
  | FullNode cs _ =>
      match key with [] => True | x :: key => nth_with (fun c => resolved c key) True cs (Z.to_nat x) end
  end.

Lemma resolved_short k c f l : resolved (ShortNode k c f) (k ++ l) <-> resolved c l.
Proof. cbn [resolved]. rewrite take_app_length, drop_app_length. tauto. Qed.

Lemma resolved_short_miss k c f key : (forall l, key <> k ++ l) -> resolved (ShortNode k c f) key.
Proof. intros Hm E. destruct (Hm (drop (length k) key)). rewrite <- E at 1. by rewrite take_drop. Qed.

Lemma resolved_short_sub k c c' f f' key : (forall l, resolved c l -> resolved c' l) ->
  resolved (ShortNode k c f) key -> resolved (ShortNode k c' f') key.
Proof. intros Hc Hr E. by apply Hc, Hr. Qed.

Lemma resolved_full cs f x key :
  resolved (FullNode cs f) (x :: key) <-> (forall c, cs !! Z.to_nat x = Some c -> resolved c key).
Proof.
  cbn [resolved]. rewrite nth_with_lookup. destruct (cs !! Z.to_nat x) as [c|]; [|by split].
  split; [by intros ? ? [= <-]|]. auto.
Qed.

Lemma resolved_full_insert cs f f' i c key :
  (forall x l, key = x :: l -> Z.to_nat x = i -> resolved c l) ->
  (forall x l, key = x :: l -> Z.to_nat x <> i -> resolved (FullNode cs f) key) ->
  resolved (FullNode (<[i := c]> cs) f') key.
Proof.
  intros Hc Hr. destruct key as [|x l]; [done|]. apply resolved_full. intros d Hd.
  apply list_lookup_insert_Some in Hd as [(Ei & -> & _)|[Hne Hd]]; [by apply (Hc x)|].
  specialize (Hr x l eq_refl ltac:(done)). rewrite resolved_full in Hr. by apply Hr.
Qed.

(** ** The paths of a proof are parts of the trie *)

Section sound.
Context `{RLPLaws} `{EthCommon} `{!HashLaws} `{!CollisionFree}.
#[local] Instance flags_range : FlagSpec := hash_flags (fun _ _ => True).

Context (pt : ptrie).
Let rd := ideal_reader pt.

Lemma ideal_hashed h b : ideal_store pt !! h = Some b -> h = keccak256 b.
Proof. intros E%elem_of_list_to_map_2. by apply list_elem_of_fmap in E as (s & [= -> ->] & _). Qed.

(** A hash node on the path is resolved to what it stands for, or reported. *)
Lemma resolveNode_spec db p h n t : hashed_db db -> hash_flag p (mkFlag (Some h) false) t -> load rd p h = Some n ->
  resolveNode db (BytesToHash h) = Ret (Ok n) \/ resolveNode db (BytesToHash h) = Ret (Err (ErrProofNodeMissing h)).
Proof.
  intros Hdb Hf Hl. destruct (Hf h eq_refl) as [-> _]. unfold load, rd, nodeBlob, is_banned in Hl.
  cbn [banned ideal_reader tr_reader NodeBlob] in Hl. rewrite BytesToHash_id in * by apply keccak256_length.
  destruct (ideal_store pt !! keccak256 (penc t)) as [b|] eqn:Eb; cbn [from_option id] in Hl; [|done].
  apply ideal_hashed, keccak256_inj in Eb as <-. unfold resolveNode.
  destruct (db !! keccak256 (penc t)) as [b|] eqn:Ed; [|by right].
  apply Hdb, keccak256_inj in Ed as <-. left.
  destruct (length (penc t) =? 0)%nat; [done|]. unfold mustDecodeNode in Hl.
  destruct (decodeNode (Some (keccak256 (penc t))) (penc t)) as [n'|]; [by injection Hl as ->|done].
Qed.

(** What following a path below a node gives: the same subtrie, more of it in
    memory. *)
Record followed (p : list Z) (n n' : node) (t : ptrie) (key : list Z) (allow : bool) : Prop := {
  fo_expands : expands rd p n' t;
  fo_settled : settled p n t -> settled p n' t;
  fo_resolved : resolved n' key;
  fo_keeps : forall k, resolved n k -> resolved n' k;
  fo_allowed : pget t key = None -> allow = true;
}.

Definition followed_by (r : outcome (res range_err (node * option (list Z)))) (wrap : node -> node)
  (p : list Z) (n : node) (t : ptrie) (key : list Z) (allow : bool) : Prop :=
  (exists n', r = Ret (Ok (wrap n', pget t key)) /\ followed p n n' t key allow) \/ (exists e, r = Ret (Err e)).

(** One round of the loop, below the node that was left. *)
Definition follow (rec : node -> outcome (res range_err (node * option (list Z)))) (db : proofDb) (allow : bool)
  (parent : node) (wrap : node -> node) (child : node) : outcome (res range_err (node * option (list Z))) :=
  let below (child : node) : outcome (res range_err (node * option (list Z))) :=
    r ← rec child; Ret (match r with Ok (child, v) => Ok (wrap child, v) | Err e => Err e end) in
  match child with
  | NilNode => Ret (if allow then Ok (parent, None) else Err ErrNotContained)
  | ShortNode _ _ _ | FullNode _ _ => below child
  | HashNode h =>
      r ← resolveNode db (BytesToHash h);
      match r with Err e => Ret (Err e) | Ok child => below child end
  | ValueNode v => if (0 <? length v)%nat then Ret (Ok (parent, Some v)) else Panic
  end.

Lemma follow_inner rec wrap p n n' t key allow : is_inner n' = true ->
  (settled p n t -> settled p n' t) -> (forall k, resolved n k -> resolved n' k) ->
  followed_by (rec n') id p n' t key allow ->
  followed_by (r ← rec n'; Ret (match r with Ok (child, v) => Ok (wrap child, v) | Err e => Err e end)) wrap p n t key allow.
Proof.
  intros Hi Hs Hr [(n2 & E & [F1 F2 F3 F4 F5])|[e E]]; rewrite E; go_ret; cbv iota; [left|right; by eexists].
  exists n2. split; [done|]. split; auto.
Qed.

Lemma follow_spec rec db allow parent wrap p c t b key : hashed_db db ->
  expands rd p c t -> wf_at b t -> key_at b key -> parent = wrap c ->
  (forall c', is_inner c' = true -> expands rd p c' t -> b = false -> followed_by (rec c') id p c' t key allow) ->
  followed_by (follow rec db allow parent wrap c) wrap p c t key allow.
Proof.
  intros Hdb He Hw Hk -> IH.
  assert (pinner t = true -> b = false) as Hb by (intros ?; destruct b; [by destruct t|done]).
  pose proof He as He0. destruct He as [p|p v|p k c f t Hf Hs Hc|p cs f ts Hf Hs Hlen Hch|p h n t Hf Hl Hs He]; cbn [follow].
  - destruct allow; [left|right; by eexists]. exists NilNode. split; [done|]. split; done.
  - destruct b; [|done]. assert (0 <? length v = true)%nat as -> by (destruct v; done). left. exists (ValueNode v).
    split; [done|]. split; done.
  - apply (follow_inner rec); auto.
  - apply (follow_inner rec); auto.
  - pose proof (load_inner _ _ _ _ Hl) as Hi. destruct (resolveNode_spec db p h n t Hdb (proj1 Hf) Hl) as [ -> | -> ]; go_ret; cbv iota;
      [|right; by eexists].
    apply (follow_inner rec wrap p (HashNode h) n); auto; [done|]. apply IH; auto. by apply Hb, (expands_pinner (fun _ _ => True) rd p n t).
Qed.

Lemma path_loop_spec db allow : hashed_db db -> forall fuel p n t key,
  is_inner n = true -> expands rd p n t -> wf t -> hex_key key -> (length key < fuel)%nat ->
  followed_by (path_loop fuel db allow n key) id p n t key allow.
Proof.
  intros Hdb fuel. induction fuel as [|fuel IH]; intros p n t key Hi He Hw Hk Hf; [lia|].
  destruct He as [p|p v|p k c f t Hfl Hs Hc|p cs f ts Hfl Hs Hlen Hch|p h n t Hfl Hl Hs He]; try done.
  - pose proof (wf_short_ne k t Hw) as Hne. cbn [path_loop proof_get].
    destruct (short_key_cases key k t Hw Hk) as [(l & isl & Ek & Hl & Hwl)|(Hm & _)].
    + destruct (key_test key k l Ek) as [ -> -> ]. go_ret. cbv iota beta.
      destruct (follow_spec (fun c => path_loop fuel db allow c l) db allow (ShortNode k c f)
        (fun c => ShortNode k c f) (p ++ k) c t isl l Hdb Hc Hwl Hl eq_refl) as [(c' & E & [F1 F2 F3 F4 F5])|[e E]].
      { intros c' Hi' Hc' ->. apply IH; try done. rewrite Ek, length_app in Hf. assert (0 < length k)%nat by (destruct k; [done|cbn; lia]). lia. }
      * left. exists (ShortNode k c' f). rewrite (pget_short k t key l Ek). split; [exact E|]. rewrite Ek. split.
        -- constructor; auto.
        -- intros Hst. inversion Hst; subst. constructor; auto.
        -- by apply resolved_short.
        -- intros q. by apply resolved_short_sub.
        -- by rewrite (pget_short k t (k ++ l) l).
      * right. exists e. exact E.
    + rewrite (key_test_miss key k Hm). go_ret. cbv iota beta. destruct allow; [left|right; by eexists].
      exists (ShortNode k c f). rewrite pget_short_miss by done. split; [done|].
      split; [by constructor|done|by apply resolved_short_miss|done|done].
  - destruct key as [|x key]; [by apply hex_key_nil in Hk|].
    destruct (key_child_idx cs ts x key Hlen Hw Hk) as (c & t & Ec & Et & Ex & Hwt & Hkt & Hlt).
    cbn [path_loop proof_get]. rewrite nth_with_lookup, Ec. go_ret. cbv iota beta.
    destruct (follow_spec (fun c => path_loop fuel db allow c key) db allow (FullNode cs f)
      (fun c => FullNode (<[Z.to_nat x := c]> cs) f) (p ++ [Z.of_nat (Z.to_nat x)]) c t _ key Hdb (Hch _ _ _ Ec Et) Hwt Hkt)
      as [(c' & E & [F1 F2 F3 F4 F5])|[e E]].
    { by rewrite list_insert_id. }
    { intros c' Hi' Hc' Eb. rewrite Eb in Hwt, Hkt. apply IH; try done. cbn in Hf. lia. }
    * left. exists (FullNode (<[Z.to_nat x := c']> cs) f). rewrite pget_full, Et. split; [exact E|].
      assert (expands rd p (FullNode cs f) (PFull ts)) as Hself by by constructor. split.
      -- rewrite <- (list_insert_id ts (Z.to_nat x) t) by done. eapply expands_full_insert; [done|lia|done|by rewrite list_insert_id|].
         intros Hh. split; [done|]. apply F2. by apply (Hs Hh).
      -- intros Hst. eapply settled_full_insert; [done|done|]. apply F2. inversion Hst as [| | |? ? ? ? _ _ Hch'|]; subst. by apply Hch'.
      -- apply resolved_full. intros d. rewrite list_lookup_insert_eq by lia. by intros [= <-].
      -- intros q Hq. apply (resolved_full_insert cs f); [|done]. intros y l -> Ey. apply F4. rewrite resolved_full, Ey in Hq. by apply Hq.
      -- rewrite pget_full, Et. done.
    * right. exists e. exact E.
Qed.
(** A node in memory that stands for the trie, with the path to a key. *)
Definition opened (n : node) (key : list Z) : Prop := expands rd [] n pt /\ resolved n (keybytesToHex key).

Lemma opened_inner n key : pinner pt = true -> opened n key -> is_inner n = true.
Proof. intros Hi [He Hr]. by destruct He. Qed.

Lemma root_resolved db : hashed_db db -> wf pt -> pinner pt = true ->
  (exists n, resolveNode db (root_hash pt) = Ret (Ok n) /\ is_inner n = true /\ expands rd [] n pt) \/
  resolveNode db (root_hash pt) = Ret (Err (ErrProofNodeMissing (root_hash pt))).
Proof.
  intros Hdb Hw Hi. unfold resolveNode. rewrite pinner_root_hash by done.
  destruct (db !! keccak256 (penc pt)) as [b|] eqn:Ed; [|by right]. apply Hdb, keccak256_inj in Ed as <-. left.
  destruct (decode_penc pt Hw Hi) as (n & -> & Hn & He). exists n. split; [done|]. split; [done|].
  eapply (expands_mono (hash_flags (clean_stored (solid (ideal pt)))) _ _ (fun _ => True)); [done| |done|done|exact He].
  intros p f t _ [Hf _]. by split.
Qed.

Lemma proofToPath_first db key allow : hashed_db db -> wf pt -> pinner pt = true -> bytes key ->
  (exists n, proofToPath (root_hash pt) None key db allow = Ret (Ok (n, pget pt (keybytesToHex key))) /\ opened n key /\
     (pget pt (keybytesToHex key) = None -> allow = true)) \/
  (exists e, proofToPath (root_hash pt) None key db allow = Ret (Err e)).
Proof.
  intros Hdb Hw Hi Hb. unfold proofToPath. destruct (root_resolved db Hdb Hw Hi) as [(n & -> & Hn & He)| -> ]; go_ret; cbv iota;
    [|right; by eexists].
  destruct (path_loop_spec db allow Hdb (S (length (keybytesToHex key) + proof_size db)) [] n pt (keybytesToHex key) Hn He Hw
              (keybytesToHex_key key Hb) ltac:(lia)) as [(n' & E & [F1 _ F3 _ F5])|[e E]]; rewrite E; [left|right; by eexists].
  by exists n'.
Qed.

Lemma proofToPath_second db key1 key2 n : hashed_db db -> wf pt -> pinner pt = true -> bytes key2 -> opened n key1 ->
  (exists n' v, proofToPath (root_hash pt) (Some n) key2 db true = Ret (Ok (n', v)) /\ opened n' key1 /\ opened n' key2) \/
  (exists e, proofToPath (root_hash pt) (Some n) key2 db true = Ret (Err e)).
Proof.
  intros Hdb Hw Hi Hb Ho. pose proof (opened_inner n key1 Hi Ho) as Hn. destruct Ho as [He Hr]. unfold proofToPath. go_ret. cbv iota.
  destruct (path_loop_spec db true Hdb (S (length (keybytesToHex key2) + proof_size db)) [] n pt (keybytesToHex key2) Hn He Hw
              (keybytesToHex_key key2 Hb) ltac:(lia)) as [(n' & E & [F1 _ F3 F4 _])|[e E]]; rewrite E; [left|right; by eexists].
  eexists n', _. split; [done|]. split; split; auto.
Qed.

(** ** Cutting *)

(** The keys a cut removes: one side of a key, or the range between two. *)
Definition side (removeLeft : bool) (key q : list Z) : bool :=
  if removeLeft then bool_decide (~ before key q) else bool_decide (~ before q key).
Definition within (l r q : list Z) : bool := side false l q && side true r q.

Definition cut_node (r : cut) : node := match r with Keep n => n | Remove => NilNode end.

(** [r] stands for what [t] holds outside [S], and has every key of [S] in memory. *)
Definition cut_to (b : bool) (S : list Z -> bool) (p : list Z) (n : node) (t : ptrie) (t' : ptrie) : Prop :=
  expands rd p n t' /\ wfl_at true b t' /\
  (forall q, key_at b q -> pget t' q = if S q then None else pget t q) /\
  (forall q, key_at b q -> S q = true -> resolved n q).

Definition cut_ok (b : bool) (S : list Z -> bool) (p : list Z) (t : ptrie) (r : cut) : Prop :=
  exists t', cut_to b S p (cut_node r) t t' /\
    ((exists cs, t = PFull cs) -> exists n cs, r = Keep n /\ t' = PFull cs).

Lemma cut_to_ext b S S' p n t t' : (forall q, key_at b q -> S q = S' q) -> cut_to b S p n t t' -> cut_to b S' p n t t'.
Proof.
  intros E (C1 & C2 & C3 & C4). split; [done|]. split; [done|]. split.
  - intros q Hq. by rewrite <- E, C3.
  - intros q Hq. rewrite <- E by done. auto.
Qed.

(** Nothing of the subtrie is in the set, or all of it. *)
Lemma cut_to_same b S p n t : expands rd p n t -> wf_at b t ->
  (forall q, key_at b q -> S q = true -> pget t q = None /\ resolved n q) -> cut_to b S p n t t.
Proof.
  intros He Hw Hs. split; [done|]. split; [by apply wfl_weaken|]. split; [|by intros; apply Hs].
  intros q Hq. destruct (S q) eqn:E; [by apply Hs|done].
Qed.

Lemma cut_to_nil b S p t : (forall q, key_at b q -> S q = false -> pget t q = None) -> cut_to b S p NilNode t PNil.
Proof.
  intros Hs. split; [constructor|]. split; [by destruct b|]. split; [|done].
  intros q Hq. destruct (S q) eqn:E; [done|]. by rewrite Hs.
Qed.

Lemma choose_list {A B} (P : nat -> A -> B -> Prop) (l : list A) :
  (forall i a, l !! i = Some a -> exists b, P i a b) ->
  exists l', length l = length l' /\ forall i a b, l !! i = Some a -> l' !! i = Some b -> P i a b.
Proof.
  revert P. induction l as [|a l IH]; intros P Hl; [by exists []|]. destruct (Hl 0%nat a eq_refl) as [b Hb].
  destruct (IH (fun i => P (S i))) as (l' & Hlen & Hl'); [intros i x Hx; by apply (Hl (S i))|].
  exists (b :: l'). split; [cbn; lia|]. intros [|i] x y Hx Hy; [by simplify_eq/=|]. by apply (Hl' i).
Qed.

(** A full node is cut child by child. *)
Lemma cut_full S p cs' ts : wf (PFull ts) -> length cs' = length ts ->
  (forall i c t, cs' !! i = Some c -> ts !! i = Some t ->
     exists t', cut_to (i =? 16)%nat (fun q => S (Z.of_nat i :: q)) (p ++ [Z.of_nat i]) c t t') ->
  cut_ok false S p (PFull ts) (Keep (FullNode cs' newFlag)).
Proof.
  intros Hw Hl Hc. pose proof (proj1 (wf_full ts) Hw) as (H17 & _ & _).
  destruct (choose_list (fun i c t' => exists t, ts !! i = Some t /\
    cut_to (i =? 16)%nat (fun q => S (Z.of_nat i :: q)) (p ++ [Z.of_nat i]) c t t') cs') as (ts' & Hl' & Hch).
  { intros i c Ec. destruct (lookup_lt_is_Some_2 ts i) as [t Et]; [rewrite <- Hl; by eapply lookup_lt_Some|].
    destruct (Hc i c t Ec Et) as [t' Ht']. exists t'. eauto. }
  exists (PFull ts'). split; [|intros _; by eexists _, _]. cbn [cut_node].
  assert (forall x q, hex_key (x :: q) -> exists c t', cs' !! Z.to_nat x = Some c /\ ts' !! Z.to_nat x = Some t' /\
            Z.of_nat (Z.to_nat x) = x /\ key_at (Z.to_nat x =? 16)%nat q) as Hkey.
  { intros x q Hq. destruct (hex_key_child x q Hq) as (Hx & Hx0 & Hkq).
    destruct (lookup_lt_is_Some_2 cs' (Z.to_nat x)) as [c Ec]; [lia|].
    destruct (lookup_lt_is_Some_2 ts' (Z.to_nat x)) as [t' Et]; [lia|]. exists c, t'. repeat split; try done. lia. }
  split; [|split; [|split]].
  - apply ex_full; [done|done|done|]. intros i c t' Ec Et. by destruct (Hch i c t' Ec Et) as (t & _ & He & _).
  - apply (@wfl_full true). split; [lia|]. split; [lia|]. intros i t' Et.
    destruct (lookup_lt_is_Some_2 cs' i) as [c Ec]; [rewrite Hl'; by eapply lookup_lt_Some|].
    by destruct (Hch i c t' Ec Et) as (t & _ & _ & Hw' & _).
  - intros [|x q] Hq; [by apply hex_key_nil in Hq|]. destruct (Hkey x q Hq) as (c & t' & Ec & Et & Ex & Hkq).
    destruct (Hch _ _ _ Ec Et) as (t & Ets & _ & _ & Hg & _). rewrite !pget_full, Et, Ets. rewrite Hg by done. by rewrite Ex.
  - intros [|x q] Hq HS; [done|]. destruct (Hkey x q Hq) as (c & t' & Ec & Et & Ex & Hkq).
    apply resolved_full. intros d Ed. simplify_eq. destruct (Hch _ _ _ Ec Et) as (t & Ets & _ & _ & _ & Hr).
    apply Hr; [done|]. by rewrite Ex.
Qed.
Lemma cut_short S S' k p n t t' cs : wf (PShort k t) -> hex_path k -> t' = PFull cs -> cut_to false S' (p ++ k) n t t' ->
  (forall q, hex_key q -> S (k ++ q) = S' q) -> cut_to false S p (ShortNode k n newFlag) (PShort k t) (PShort k t').
Proof.
  intros Hw Hk -> (C1 & C2 & C3 & C4) HS. split; [|split; [|split]].
  - by apply ex_short.
  - cbn. split; [by apply (wf_short_ne (loose:=false) k t)|]. by split.
  - intros q Hq. destruct (bool_decide (take (length k) q = k)) eqn:Et.
    + apply take_length_app_decide in Et as (l & ->). rewrite !(pget_short k _ (k ++ l) l) by done.
      assert (hex_key l) by (by apply (hex_key_app_inv k)). rewrite HS by done. by apply C3.
    + rewrite !pget_short_miss by (by apply not_prefix). by destruct (S q).
  - intros q Hq Hs. destruct (bool_decide (take (length k) q = k)) eqn:Et.
    + apply take_length_app_decide in Et as (l & ->). apply resolved_short.
      assert (hex_key l) by (by apply (hex_key_app_inv k)). apply C4; [done|]. by rewrite <- HS.
    + by apply resolved_short_miss, not_prefix.
Qed.

(** A key at a short node: along it, or off at some symbol. *)
Lemma short_key_split key k t : wf (PShort k t) -> hex_key key ->
  (exists l isl, key = k ++ l /\ key_at isl l /\ wf_at isl t /\
     (if isl then exists v, t = PVal v else hex_path k /\ exists cs, t = PFull cs)) \/
  (exists pq x y key' k', key = pq ++ x :: key' /\ k = pq ++ y :: k' /\ x <> y).
Proof.
  intros Hw Hk. destruct (wf_short_inv k t Hw) as (isl & Hkk & Hcc & Hwc & _).
  assert (if isl then hex_key k else hex_path k) as Hkk' by (destruct isl; naive_solver).
  destruct (key_short_cases key k isl Hk Hkk') as [(Em & l & El & Hl)|(pq & x & y & key' & k' & Ekey & Ek & Hxy & _)].
  - left. exists l, isl. do 3 (split; [done|]). destruct isl; naive_solver.
  - right. by exists pq, x, y, key', k'.
Qed.

Lemma side_cons rl x rest y q : side rl (x :: rest) (y :: q) =
  if decide (y = x) then side rl rest q else if rl then bool_decide (y < x) else bool_decide (x < y).
Proof.
  unfold side. case_decide as E; destruct rl; apply bool_decide_ext; rewrite before_cons; subst; try lia.
  all: split; [intros Hn Hb; apply Hn; by right|intros Hn [?|[_ ?]]; [lia|done]].
Qed.

Lemma side_app rl k a b : side rl (k ++ a) (k ++ b) = side rl a b.
Proof. induction k as [|x k IH]; [done|]. cbn [app]. by rewrite side_cons, decide_True. Qed.

Lemma side_refl rl a : side rl a a = true.
Proof. unfold side. destruct rl; apply bool_decide_eq_true; by apply irreflexivity, before_strict. Qed.

Lemma side_off rl pq x y a b : x <> y ->
  side rl (pq ++ x :: a) (pq ++ y :: b) = if rl then bool_decide (y < x) else bool_decide (x < y).
Proof. intros Hxy. by rewrite side_app, side_cons, decide_False. Qed.

Lemma compare_off pq x y a b : x <> y -> bytes_Compare (pq ++ x :: a) (pq ++ y :: b) = if bool_decide (x < y) then -1 else 1.
Proof.
  intros Hxy. induction pq as [|z pq IH]; cbn [app bytes_Compare].
  - case_bool_decide; [by rewrite (proj2 (Z.ltb_lt _ _))|]. rewrite (proj2 (Z.ltb_ge x y)), (proj2 (Z.ltb_lt y x)) by lia. done.
  - by rewrite Z.ltb_irrefl.
Qed.

(** Tries whose keys all end at leaves: no value sits in a full node. *)
Inductive bare : ptrie -> Prop :=
| bare_nil : bare PNil
| bare_val v : bare (PVal v)
| bare_short k c : bare c -> bare (PShort k c)
| bare_full cs : cs !! 16%nat = Some PNil -> (forall i c, cs !! i = Some c -> bare c) -> bare (PFull cs).

Lemma expands_pnil p n : expands rd p n PNil -> n = NilNode.
Proof. intros He. apply expands_nil in He. by destruct n. Qed.

Lemma expands_pval p n v : expands rd p n (PVal v) -> n = ValueNode v.
Proof.
  intros He. inversion He as [| | | |? ? n0 ? _ Hl _ He0]; subst; [done|]. apply load_inner in Hl. inversion He0; by subst.
Qed.

Lemma clear_lookup lo hi cs j : clear lo hi cs !! j = (fun c => if (lo <=? j)%nat && (j <? hi)%nat then NilNode else c) <$> cs !! j.
Proof. unfold clear. by rewrite list_lookup_imap. Qed.

(** The children of a full node next to the one a key goes through. *)
Lemma unset_sibling (rl : bool) ts cs f p x rest j c t : expands rd p (FullNode cs f) (PFull ts) -> wf (PFull ts) -> bare (PFull ts) ->
  0 <= x <= 16 -> j <> Z.to_nat x -> ts !! j = Some t ->
  (if rl then clear 0 (Z.to_nat x) cs else clear (S (Z.to_nat x)) 16 cs) !! j = Some c ->
  exists t', cut_to (j =? 16)%nat (fun q => side rl (x :: rest) (Z.of_nat j :: q)) (p ++ [Z.of_nat j]) c t t'.
Proof.
  intros He Hw Hb Hx Hj Et Ec. pose proof (proj1 (wf_full ts) Hw) as (H17 & _ & Hch).
  assert (clear (if rl then 0 else S (Z.to_nat x)) (if rl then Z.to_nat x else 16) cs !! j = Some c) as Ec' by (by destruct rl).
  rewrite clear_lookup in Ec'. apply fmap_Some in Ec' as (d & Ed & ->).
  destruct (expands_full_lookup _ _ _ _ _ _ _ He Ed) as (t0 & Et0 & Hd). simplify_eq.
  pose proof (lookup_lt_Some _ _ _ Et) as Hlt.
  assert (forall q, side rl (x :: rest) (Z.of_nat j :: q) = if rl then bool_decide (Z.of_nat j < x) else bool_decide (x < Z.of_nat j)) as HS.
  { intros q. rewrite side_cons, decide_False by lia. done. }
  match goal with |- context [if ?e then NilNode else _] => destruct e eqn:Ecl end.
  - exists PNil. apply cut_to_nil. intros q _. rewrite HS. apply andb_true_iff in Ecl as [El%Nat.leb_le Eh%Nat.ltb_lt].
    destruct rl; rewrite bool_decide_eq_false; lia.
  - exists t. apply cut_to_same; [done|by apply Hch|]. intros q _. rewrite HS. intros Hs.
    apply andb_false_iff in Ecl as [El%Nat.leb_gt|Eh%Nat.ltb_ge]; destruct rl; apply bool_decide_eq_true in Hs; try lia.
    assert (j = 16)%nat as -> by lia. inversion Hb as [| | |? H16 _]; subst. simplify_eq. by rewrite (expands_pnil _ _ Hd).
Qed.
Lemma bare_child ts i t : bare (PFull ts) -> wf (PFull ts) -> ts !! i = Some t -> bare t /\ forall v, t <> PVal v.
Proof.
  intros Hb Hw Et. inversion Hb as [| | |? H16 Hch]; subst. split; [by eapply Hch|]. intros v ->.
  pose proof (proj1 (wf_full ts) Hw) as (_ & _ & Hwc). pose proof (Hwc _ _ Et) as Hv.
  destruct (Nat.eqb_spec i 16) as [->|]; [by simplify_eq|done].
Qed.

(** A short node off the path is dropped or kept whole. *)
Lemma unset_off rl pq x y key' k' c f p t b : x <> y -> expands rd p (ShortNode (pq ++ y :: k') c f) (PShort (pq ++ y :: k') t) ->
  wf (PShort (pq ++ y :: k') t) -> b = false ->
  let k := pq ++ y :: k' in let key := pq ++ x :: key' in
  cut_ok b (side rl key) p (PShort k t) (if (if rl then bytes_Compare k key <? 0 else 0 <? bytes_Compare k key) then Remove else Keep (ShortNode k c f)).
Proof.
  intros Hxy He Hw -> k key.
  assert (forall q v, pget (PShort k t) q = Some v -> side rl key q = if rl then bool_decide (y < x) else bool_decide (x < y)) as Hin.
  { intros q v Hg. destruct (pget_short_Some k t q) as [l ->]; [by rewrite Hg|]. unfold k, key. rewrite <- app_assoc. cbn [app].
    by apply side_off. }
  assert ((if rl then bytes_Compare k key <? 0 else 0 <? bytes_Compare k key) = if rl then bool_decide (y < x) else bool_decide (x < y)) as ->.
  { unfold k, key. rewrite compare_off by done. destruct rl; repeat case_bool_decide; done || lia. }
  destruct (if rl then bool_decide (y < x) else bool_decide (x < y)) eqn:E.
  - exists PNil. split; [|by intros [? ?]]. apply cut_to_nil. intros q Hq Hs. destruct (pget _ q) as [v|] eqn:Hg; [|done].
    by rewrite (Hin _ _ Hg) in Hs.
  - exists (PShort k t). split; [|by intros [? ?]]. cbn [cut_node]. apply cut_to_same; [done..|]. intros q Hq Hs.
    destruct (bool_decide (take (length k) q = k)) eqn:Et.
    + exfalso. apply take_length_app_decide in Et as (l & ->). unfold k, key in Hs. rewrite <- app_assoc in Hs. cbn [app] in Hs.
      rewrite side_off in Hs by done. congruence.
    + pose proof (not_prefix _ _ Et) as Hno. split; [by apply pget_short_miss|by apply resolved_short_miss].
Qed.

Lemma unset_spec rl t : forall p n b pre rest,
  expands rd p n t -> wf_at b t -> bare t -> key_at b rest -> resolved n rest -> (forall v, t <> PVal v) ->
  exists r, unset n (pre ++ rest) (length pre) rl = Ret r /\ cut_ok b (side rl rest) p t r.
Proof.
  induction t as [|v|k t IH|ts IH] using ptrie_nested_ind; intros p n b pre rest He Hw Hb Hk Hr Hv; [|by destruct (Hv v)|..].
  - rewrite (expands_pnil _ _ He). eexists. split; [done|]. exists PNil. split; [|by intros [? ?]].
    apply cut_to_nil. done.
  - inversion He as [| |? ? c f ? Hf Hs Hc| |]; subst; [|done]. destruct b; [done|]. cbn [wfl_at key_at] in Hw, Hk.
    cbn [unset]. rewrite drop_app_length.
    destruct (short_key_split rest k t Hw Hk) as [(l & isl & -> & Hl & Hwl & Ht)|(pq & x & y & key' & k' & -> & -> & Hxy)].
    + destruct (key_test (k ++ l) k l eq_refl) as [ -> _ ]. destruct isl.
      * destruct Ht as [v ->]. cbn in Hl. subst l. rewrite (expands_pval _ _ _ Hc). eexists. split; [done|]. exists PNil. split; [|by intros [? ?]].
        apply cut_to_nil. intros q Hq HS. destruct (pget _ q) as [u|] eqn:Hg; [|done].
        destruct (pget_short_Some k (PVal v) q) as [l ->]; [by rewrite Hg|].
        destruct Hw as [Hkk _]. apply hex_key_app_key in Hq; [|done]. subst l. by rewrite side_refl in HS.
      * destruct Ht as [Hp [cs ->]]. rewrite resolved_short in Hr. inversion Hb; subst.
        destruct (IH (p ++ k) c false (pre ++ k) l) as (r & E & t' & Hct & Hfull); try done.
        rewrite <- app_assoc, length_app in E. rewrite E. destruct Hfull as (n' & cs' & -> & ->); [by eexists|]. go_ret.
        exists (Keep (ShortNode k n' newFlag)). split; [by destruct c|].
        exists (PShort k (PFull cs')). split; [|by intros [? ?]]. eapply cut_short; [done..|]. intros q Hq. apply side_app.
    + rewrite (key_test_miss (pq ++ x :: key') (pq ++ y :: k')).
      2:{ intros l El. rewrite <- app_assoc in El. apply app_inv_head in El. cbn in El. by injection El as <- _. }
      eexists. split; [done|]. by apply unset_off.
  - inversion He as [| | |? cs f ? Hf Hs Hlen Hch|]; subst; [|done]. destruct b; [done|]. cbn [wfl_at key_at] in Hw, Hk.
    destruct rest as [|x rest]; [by apply hex_key_nil in Hk|].
    destruct (key_child_idx cs ts x rest Hlen Hw Hk) as (c & t & Ec & Et & Ex & Hwt & Hkt & Hlt).
    destruct (bare_child ts _ _ Hb Hw Et) as [Hbt Hvt]. cbn [unset]. rewrite list_lookup_middle by done. rewrite nth_with_lookup, Ec.
    destruct (IH _ _ Et (p ++ [x]) c (Z.to_nat x =? 16)%nat (pre ++ [x]) rest) as (r & E & t' & Hct & _); try done.
    { pose proof (Hch _ _ _ Ec Et) as Hcx. by rewrite Ex in Hcx. }
    { rewrite resolved_full in Hr. by apply Hr. }
    rewrite <- app_assoc, length_app in E. cbn [app length] in E. rewrite Nat.add_1_r in E. rewrite E. go_ret.
    eexists. split; [done|]. pose proof (proj1 (wf_full ts) Hw) as (H17 & _ & _).
    apply cut_full; [done|unfold put_child, clear; destruct rl; by rewrite length_insert, length_imap|].
    intros j d u Ed Eu. unfold put_child in Ed. fold (cut_node r) in Ed.
    apply list_lookup_insert_Some in Ed as [(<- & <- & _)|[Hne Ed]].
    + simplify_eq. exists t'. rewrite Ex. eapply cut_to_ext; [|exact Hct]. intros q _. cbv beta.
      by rewrite side_cons, decide_True.
    + eapply (unset_sibling rl ts cs f); try done; lia.
Qed.
Lemma within_app k l r q : within (k ++ l) (k ++ r) (k ++ q) = within l r q.
Proof. unfold within. by rewrite !side_app. Qed.

Lemma compare_refl a : bytes_Compare a a = 0.
Proof. induction a as [|x a IH]; [done|]. cbn. by rewrite Z.ltb_irrefl. Qed.

Lemma fork_on k l : bytes_Compare (take (length k) (k ++ l)) k = 0.
Proof. rewrite take_app_length. apply compare_refl. Qed.

Lemma fork_off pq x y a b : x <> y ->
  bytes_Compare (take (length (pq ++ y :: b)) (pq ++ x :: a)) (pq ++ y :: b) = if bool_decide (x < y) then -1 else 1.
Proof.
  intros Hxy. rewrite length_app, take_app_add. cbn [length take]. by apply compare_off.
Qed.

Lemma fork_off_eq k pq x y a b : k = pq ++ y :: b -> x <> y ->
  bytes_Compare (take (length k) (pq ++ x :: a)) k = if bool_decide (x < y) then -1 else 1.
Proof. intros ->. apply fork_off. Qed.

Lemma before_off_iff pq x y a b : before (pq ++ x :: a) (pq ++ y :: b) -> x <> y -> x < y.
Proof. rewrite before_app, before_cons. intros [?|[? _]] ?; done. Qed.

(** A short node all of whose keys lie in the range. *)
Lemma cut_whole S p k t : (forall q, hex_key (k ++ q) -> pget t q <> None -> S (k ++ q) = true) -> cut_ok false S p (PShort k t) Remove.
Proof.
  intros HS. exists PNil. split; [|by intros [? ?]]. apply cut_to_nil. intros q Hq Hs. cbn [key_at] in Hq.
  destruct (pget _ q) as [v|] eqn:Hg; [|done]. destruct (pget_short_Some k t q) as [l ->]; [by rewrite Hg|].
  rewrite (pget_short k t _ l) in Hg by done. rewrite HS in Hs; [done|done|by rewrite Hg].
Qed.

Definition fork_ok (p : list Z) (t : ptrie) (l r : list Z) (o : outcome (res range_err cut)) : Prop :=
  exists res, o = Ret res /\ forall c, res = Ok c -> cut_ok false (within l r) p t c.

(** One path along a short node, the other one off it. *)
Lemma fork_half rl S k c p t l isl : expands rd (p ++ k) c t -> wf (PShort k t) -> bare t ->
  key_at isl l -> wf_at isl t -> (if isl then exists v, t = PVal v else hex_path k /\ exists cs, t = PFull cs) ->
  resolved c l -> (forall q, S (k ++ q) = side rl l q) ->
  exists rr, (match c with
     | ValueNode _ => Ret (Ok Remove)
     | _ => r ← unset c (k ++ l) (length k) rl;
            match r with Keep v => Ret (Ok (Keep (ShortNode k v newFlag))) | Remove => Panic end
     end : outcome (res range_err cut)) = Ret rr /\ forall r, rr = Ok r -> cut_ok false S p (PShort k t) r.
Proof.
  intros Hc Hw Hb Hl Hwl Ht Hr HS.  destruct isl.
  - destruct Ht as [v ->]. cbn in Hl. subst l. rewrite (expands_pval _ _ _ Hc). eexists. split; [done|]. intros r [= <-].
    apply cut_whole. intros q Hq _. destruct Hw as [Hkk _]. apply hex_key_app_key in Hq; [|done]. subst q. rewrite HS. apply side_refl.
  - destruct Ht as [Hp [cs ->]]. destruct (unset_spec rl (PFull cs) (p ++ k) c false k l) as (r & E & t' & Hct & Hfull); try done.
    destruct Hfull as (n' & cs' & -> & ->); [by eexists|]. exists (Ok (Keep (ShortNode k n' newFlag))). rewrite E. go_ret.
    split; [|intros r [= <-]; exists (PShort k (PFull cs')); split; [|by intros [? ?]]; by eapply cut_short].
    by destruct c.
Qed.

Lemma fork_short k t p c f pre l r : expands rd p (ShortNode k c f) (PShort k t) -> wf (PShort k t) -> bare t ->
  hex_key l -> hex_key r -> resolved (ShortNode k c f) l -> resolved (ShortNode k c f) r -> before l r ->
  (forall l' r', l = k ++ l' -> r = k ++ r' -> hex_key l' -> hex_key r' -> pinner t = true ->
     fork_ok (p ++ k) t l' r' (unset_fork c ((pre ++ k) ++ l') ((pre ++ k) ++ r') (length (pre ++ k)))) ->
  fork_ok p (PShort k t) l r (unset_fork (ShortNode k c f) (pre ++ l) (pre ++ r) (length pre)).
Proof.
  intros He Hw Hb Hl Hr Rl Rr Hlr IH. assert (expands rd (p ++ k) c t) as Hc by (by inversion He).
  cbn [unset_fork]. rewrite !drop_app_length. unfold fork_ok.
  destruct (short_key_split l k t Hw Hl) as [(l' & isl & -> & Hl' & Hwl & Ht)|(pq & x & y & l' & k' & El & Ek & Hxy)];
    destruct (short_key_split r k t Hw Hr) as [(r' & isr & -> & Hr' & Hwr & Ht')|(pq' & x' & y' & r' & k'' & Er & Ek' & Hxy')].
  - rewrite !fork_on. cbn [Z.eqb andb]. rewrite before_app in Hlr. destruct isl.
    { exfalso. destruct Ht as [v ->]. destruct isr; [|by destruct Ht' as [_ [? ?]]]. cbn in Hl', Hr'. subst. by apply irreflexivity in Hlr; [|apply before_strict]. }
    destruct isr; [by destruct Ht as [_ [? ->]], Ht'|]. destruct Ht as [Hp [cs ->]].
    destruct (IH l' r' eq_refl eq_refl Hl' Hr' eq_refl) as (res & E & Hres). rewrite <- !app_assoc, length_app in E. rewrite E. go_ret.
    destruct res as [rc|e]; [|by eexists]. destruct (Hres rc eq_refl) as (t' & Hct & Hfull).
    destruct Hfull as (n' & cs' & -> & ->); [by eexists|]. eexists. split; [done|]. intros r [= <-].
    exists (PShort k (PFull cs')). split; [|by intros [? ?]]. eapply cut_short; [done..|]. intros q Hq. apply within_app.
  - rewrite resolved_short in Rl. subst r. rewrite fork_on. rewrite (fork_off_eq k _ _ _ _ _ Ek' Hxy').
    rewrite Ek', <- app_assoc in Hlr. cbn [app] in Hlr. pose proof (before_off_iff _ _ _ _ _ Hlr ltac:(done)) as Hlt.
    rewrite bool_decide_false by lia. cbn [Z.eqb andb negb].
    apply (fork_half false (within (k ++ l') (pq' ++ x' :: r')) k c p t l' isl); try done.
    intros q. unfold within. rewrite side_app. rewrite Ek', <- app_assoc. cbn [app]. rewrite side_off by done.
    by rewrite bool_decide_true, andb_true_r.
  - rewrite resolved_short in Rr. subst l. rewrite fork_on. rewrite (fork_off_eq k _ _ _ _ _ Ek Hxy).
    rewrite Ek, <- app_assoc in Hlr. cbn [app] in Hlr. pose proof (before_off_iff _ _ _ _ _ Hlr ltac:(done)) as Hlt.
    rewrite bool_decide_true by lia. cbn [Z.eqb andb negb].
    apply (fork_half true (within (pq ++ x :: l') (k ++ r')) k c p t r' isr); try done.
    intros q. unfold within. rewrite side_app. rewrite Ek, <- app_assoc. cbn [app]. rewrite side_off by done.
    by rewrite bool_decide_true.
  - subst l r. rewrite (fork_off_eq k _ _ _ _ _ Ek Hxy). rewrite (fork_off_eq k _ _ _ _ _ Ek' Hxy').
    repeat case_bool_decide; cbn [Z.eqb andb negb]; try (by eexists); cbn; eexists; (split; [done|]); intros c0 [= <-]; apply cut_whole; intros q _ _; unfold within.
    + assert (side false (pq ++ x :: l') (k ++ q) = true) as ->.
      { rewrite Ek, <- app_assoc. cbn [app]. rewrite side_off by done. by apply bool_decide_true. }
      rewrite Ek', <- app_assoc. cbn [app]. rewrite side_off by done. apply bool_decide_true. lia.
    + exfalso. assert (before (k ++ q) (pq ++ x :: l')) as B1 by (rewrite Ek, <- app_assoc; apply before_sibling; lia).
      assert (before (pq' ++ x' :: r') (k ++ q)) as B2 by (rewrite Ek', <- app_assoc; apply before_sibling; lia).
      eapply (irreflexivity before (k ++ q)). etrans; [exact B1|]. etrans; [exact Hlr|exact B2].
Qed.
Lemma within_cons x l y r z q : within (x :: l) (y :: r) (z :: q) =
  (if decide (z = x) then side false l q else bool_decide (x < z)) && (if decide (z = y) then side true r q else bool_decide (z < y)).
Proof. unfold within. by rewrite !side_cons. Qed.

(** The children the two paths part at are not compared as slices. *)
Lemma differ_spec ts cs f p x y l r c d : expands rd p (FullNode cs f) (PFull ts) -> wf (PFull ts) -> bare (PFull ts) ->
  cs !! Z.to_nat x = Some c -> cs !! Z.to_nat y = Some d -> resolved (FullNode cs f) (x :: l) -> resolved (FullNode cs f) (y :: r) ->
  differ x y c d = Ret (negb (x =? y)).
Proof.
  intros He Hw Hb Ec Ed Rl Rr. rewrite resolved_full in Rl, Rr. specialize (Rl c Ec). specialize (Rr d Ed).
  destruct c as [|v|h| |]; try done. destruct d as [|u| | |]; try done.
  destruct (expands_full_lookup _ _ _ _ _ _ _ He Ec) as (t & Et & Hv). destruct (bare_child ts _ _ Hb Hw Et) as [_ Hno].
  inversion Hv; subst. by destruct (Hno v).
Qed.

(** The fork inside one child, whose cut is put back. *)
Lemma fork_down ts cs f p x l r t (res : Prelude.res range_err cut) : expands rd p (FullNode cs f) (PFull ts) -> wf (PFull ts) ->
  0 <= x -> ts !! Z.to_nat x = Some t -> (Z.to_nat x =? 16)%nat = false ->
  (forall c, res = Ok c -> cut_ok false (within l r) (p ++ [x]) t c) ->
  forall c, (match res with Err e => Err e | Ok c => Ok (Keep (FullNode (put_child cs (Z.to_nat x) c) newFlag)) end : Prelude.res range_err cut) = Ok c ->
  cut_ok false (within (x :: l) (x :: r)) p (PFull ts) c.
Proof.
  intros He Hw Hx Et E16 Hres c Ec. destruct res as [rc|e]; [|done]. injection Ec as <-. inversion He as [| | |? ? ? ? _ _ Hlen Hch|]; subst.
  destruct (Hres rc eq_refl) as (t' & Hct & _). pose proof (proj1 (wf_full ts) Hw) as (_ & _ & Hwc).
  apply cut_full; [done|unfold put_child; by rewrite length_insert|]. intros j d u Ed Eu. unfold put_child in Ed. fold (cut_node rc) in Ed.
  apply list_lookup_insert_Some in Ed as [(<- & <- & _)|[Hne Ed]].
  - simplify_eq. exists t'. rewrite E16, Z2Nat.id by done. eapply cut_to_ext; [|exact Hct]. intros q _. cbv beta.
    by rewrite within_cons, !decide_True.
  - exists u. apply cut_to_same; [by eapply Hch|by apply Hwc|]. intros q _. rewrite within_cons, !decide_False by lia.
    intros [?%bool_decide_eq_true ?%bool_decide_eq_true]%andb_true_iff. lia.
Qed.

(** The fork at a full node: both sides cut, what lies between dropped. *)
Lemma fork_here ts cs f p x y l r c d : expands rd p (FullNode cs f) (PFull ts) -> wf (PFull ts) -> bare (PFull ts) ->
  hex_key (x :: l) -> hex_key (y :: r) -> cs !! Z.to_nat x = Some c -> cs !! Z.to_nat y = Some d ->
  resolved (FullNode cs f) (x :: l) -> resolved (FullNode cs f) (y :: r) -> x < y ->
  exists a b, unset c (x :: l) 1 false = Ret a /\ unset d (y :: r) 1 true = Ret b /\
    cut_ok false (within (x :: l) (y :: r)) p (PFull ts)
      (Keep (FullNode (put_child (put_child (clear (S (Z.to_nat x)) (Z.to_nat y) cs) (Z.to_nat x) a) (Z.to_nat y) b) newFlag)).
Proof.
  intros He Hw Hb Hl Hr Ec Ed Rl Rr Hxy. inversion He as [| | |? ? ? ? _ _ Hlen Hch|]; subst.
  destruct (key_child_idx cs ts x l Hlen Hw Hl) as (c' & t & Ec' & Et & Ex & Hwt & Hkt & _). simplify_eq.
  destruct (key_child_idx cs ts y r Hlen Hw Hr) as (d' & u & Ed' & Eu & Ey & Hwu & Hku & _). simplify_eq.
  destruct (bare_child ts _ _ Hb Hw Et) as [Hbt Hvt]. destruct (bare_child ts _ _ Hb Hw Eu) as [Hbu Hvu].
  rewrite resolved_full in Rl, Rr. pose proof (proj1 (wf_full ts) Hw) as (_ & _ & Hwc).
  destruct (unset_spec false t (p ++ [x]) c (Z.to_nat x =? 16)%nat [x] l) as (a & Ea & t' & Hta & _); try done; [|by apply Rl|].
  { pose proof (Hch _ _ _ Ec Et) as Hcx. by rewrite Ex in Hcx. }
  destruct (unset_spec true u (p ++ [y]) d (Z.to_nat y =? 16)%nat [y] r) as (b & Eb & u' & Hub & _); try done; [|by apply Rr|].
  { pose proof (Hch _ _ _ Ed Eu) as Hcy. by rewrite Ey in Hcy. }
  exists a, b. split; [exact Ea|]. split; [exact Eb|].
  apply cut_full; [done|unfold put_child, clear; by rewrite !length_insert, length_imap|]. intros j e w Ej Ew.
  unfold put_child in Ej. fold (cut_node a) in Ej. fold (cut_node b) in Ej.
  apply list_lookup_insert_Some in Ej as [(<- & <- & _)|[Hny Ej]];
    [|apply list_lookup_insert_Some in Ej as [(<- & <- & _)|[Hnx Ej]]].
  - simplify_eq. exists u'. rewrite Ey. eapply cut_to_ext; [|exact Hub]. intros q _. cbv beta.
    rewrite within_cons, decide_False, decide_True, bool_decide_true by lia. done.
  - simplify_eq. exists t'. rewrite Ex. eapply cut_to_ext; [|exact Hta]. intros q _. cbv beta.
    rewrite within_cons, decide_True, decide_False, bool_decide_true by lia. by rewrite andb_true_r.
  - rewrite clear_lookup in Ej. apply fmap_Some in Ej as (e' & Ej & ->). case_match eqn:Ecl.
    + exists PNil. apply cut_to_nil. intros q _. apply andb_true_iff in Ecl as [El%Nat.leb_le Eh%Nat.ltb_lt].
      rewrite within_cons, !decide_False, !bool_decide_true by lia. done.
    + exists w. apply cut_to_same; [by eapply Hch|by apply Hwc|]. intros q _. rewrite within_cons, !decide_False by lia.
      intros [?%bool_decide_eq_true ?%bool_decide_eq_true]%andb_true_iff. apply andb_false_iff in Ecl as [El%Nat.leb_gt|Eh%Nat.ltb_ge]; lia.
Qed.

(** Both paths end at the same empty slot: nothing is cut. *)
Lemma fork_empty ts cs f p x l r : expands rd p (FullNode cs f) (PFull ts) -> wf (PFull ts) ->
  0 <= x -> ts !! Z.to_nat x = Some PNil ->
  cut_ok false (within (x :: l) (x :: r)) p (PFull ts)
    (Keep (FullNode (put_child (put_child (clear (S (Z.to_nat x)) (Z.to_nat x) cs) (Z.to_nat x) (Keep NilNode)) (Z.to_nat x) (Keep NilNode)) newFlag)).
Proof.
  intros He Hw Hx Et. inversion He as [| | |? ? ? ? _ _ Hlen Hch|]; subst. pose proof (proj1 (wf_full ts) Hw) as (_ & _ & Hwc).
  apply cut_full; [done|unfold put_child, clear; by rewrite !length_insert, length_imap|]. intros j e w Ej Ew.
  unfold put_child in Ej. rewrite list_insert_insert_eq in Ej.
  apply list_lookup_insert_Some in Ej as [(<- & <- & _)|[Hne Ej]]; [simplify_eq; exists PNil; by apply cut_to_nil|].
  rewrite clear_lookup in Ej. apply fmap_Some in Ej as (e' & Ej & ->). exists w.
  assert ((S (Z.to_nat x) <=? j)%nat && (j <? Z.to_nat x)%nat = false) as ->.
  { apply andb_false_iff. rewrite Nat.leb_gt, Nat.ltb_ge. lia. }
  apply cut_to_same; [by eapply Hch|by apply Hwc|]. intros q _. rewrite within_cons, !decide_False by lia.
  intros [?%bool_decide_eq_true ?%bool_decide_eq_true]%andb_true_iff. lia.
Qed.

Definition cut_sides (cs : list node) (x y : Z) (left right : list Z) : outcome (res range_err cut) :=
  let cs := clear (S (Z.to_nat x)) (Z.to_nat y) cs in
  leftnode ← of_option (cs !! Z.to_nat x);
  a ← unset leftnode left 1 false;
  let cs := put_child cs (Z.to_nat x) a in
  rightnode ← of_option (cs !! Z.to_nat y);
  b ← unset rightnode right 1 true;
  Ret (Ok (Keep (FullNode (put_child cs (Z.to_nat y) b) newFlag))).

Lemma clear_outside lo hi (cs : list node) j c : cs !! j = Some c -> (j < lo \/ hi <= j)%nat -> clear lo hi cs !! j = Some c.
Proof.
  intros Ec Hj. rewrite clear_lookup, Ec. cbn [fmap option_fmap option_map].
  assert ((lo <=? j)%nat && (j <? hi)%nat = false) as ->; [|done]. apply andb_false_iff. rewrite Nat.leb_gt, Nat.ltb_ge. lia.
Qed.

Lemma cut_sides_apart ts cs f p x y l r c d : expands rd p (FullNode cs f) (PFull ts) -> wf (PFull ts) -> bare (PFull ts) ->
  hex_key (x :: l) -> hex_key (y :: r) -> cs !! Z.to_nat x = Some c -> cs !! Z.to_nat y = Some d ->
  resolved (FullNode cs f) (x :: l) -> resolved (FullNode cs f) (y :: r) -> x < y ->
  fork_ok p (PFull ts) (x :: l) (y :: r) (cut_sides cs x y (x :: l) (y :: r)).
Proof.
  intros He Hw Hb Hl Hr Ec Ed Rl Rr Hxy. pose proof (hex_key_child x l Hl) as (_ & Hx & _).
  destruct (fork_here ts cs f p x y l r c d) as (a & b & Ea & Eb & Hok); try done. unfold cut_sides.
  rewrite (clear_outside _ _ cs _ c Ec) by lia. cbn [of_option]. go_ret. rewrite Ea. go_ret. cbv zeta. unfold put_child.
  rewrite list_lookup_insert_ne by lia. rewrite (clear_outside _ _ cs _ d Ed) by lia. cbn [of_option]. go_ret. rewrite Eb. go_ret.
  eexists. split; [done|]. intros e [= <-]. exact Hok.
Qed.

Lemma cut_sides_same ts cs f p x l r : expands rd p (FullNode cs f) (PFull ts) -> wf (PFull ts) ->
  0 <= x -> (Z.to_nat x < length cs)%nat -> cs !! Z.to_nat x = Some NilNode ->
  fork_ok p (PFull ts) (x :: l) (x :: r) (cut_sides cs x x (x :: l) (x :: r)).
Proof.
  intros He Hw Hx Hlt Ec. unfold cut_sides. rewrite (clear_outside _ _ cs _ _ Ec) by lia. cbn [of_option]. go_ret. cbn [unset]. go_ret.
  cbv zeta. unfold put_child. rewrite list_lookup_insert_eq by (unfold clear; rewrite length_imap; lia). cbn [of_option]. go_ret. cbn [unset]. go_ret.
  eexists. split; [done|]. intros e [= <-]. apply (fork_empty ts cs f); try done.
  destruct (expands_full_lookup _ _ _ _ _ _ _ He Ec) as (t & Et & Hn). apply expands_nil in Hn. by destruct t.
Qed.

Lemma unset_fork_spec t : forall p n pre l r,
  expands rd p n t -> wf t -> bare t -> hex_key l -> hex_key r -> resolved n l -> resolved n r -> before l r -> pinner t = true ->
  fork_ok p t l r (unset_fork n (pre ++ l) (pre ++ r) (length pre)).
Proof.
  induction t as [|v|k t IH|ts IH] using ptrie_nested_ind; intros p n pre l r He Hw Hb Hl Hr Rl Rr Hlr Hi; try done.
  - destruct n as [| | |k0 c f|]; try done; try (by inversion He). assert (k0 = k) as -> by (by inversion He). inversion Hb; subst.
    apply fork_short; try done. intros l' r' -> -> Hl' Hr' Ht. rewrite resolved_short in Rl, Rr. rewrite before_app in Hlr.
    apply IH; try done; [by inversion He|]. destruct t; try done. by destruct Hw as (_ & _ & ?).
  - destruct n as [| | | |cs f]; try done; try (by inversion He). inversion He as [| | |? ? ? ? _ _ Hlen Hch|]; subst.
    destruct l as [|x l]; [by apply hex_key_nil in Hl|]. destruct r as [|y r]; [by apply hex_key_nil in Hr|].
    destruct (key_child_idx cs ts x l Hlen Hw Hl) as (c & t & Ec & Et & Ex & Hwt & Hkt & Hlt).
    destruct (key_child_idx cs ts y r Hlen Hw Hr) as (d & u & Ed & Eu & Ey & Hwu & Hku & _).
    cbn [unset_fork]. rewrite !list_lookup_middle by done. rewrite Ec, Ed. cbn [of_option]. go_ret.
    rewrite (differ_spec ts cs f p x y l r) by done. rewrite !drop_app_length, nth_with_lookup, Ec.
    assert (x < y \/ x = y /\ before l r) as Hcase by (by apply before_cons).
    destruct (is_nil c || is_nil d) eqn:En; [|destruct (Z.eqb_spec x y) as [->|Hne]]; cbn [negb]; go_ret.
    + change (fork_ok p (PFull ts) (x :: l) (y :: r) (cut_sides cs x y (x :: l) (y :: r))). destruct Hcase as [Hxy|[<- Hlr']].
      * by apply (cut_sides_apart ts cs f p x y l r c d).
      * apply (cut_sides_same ts cs f p x l r); try done; [lia|]. simplify_eq. by destruct c.
    + destruct Hcase as [?|[_ Hlr']]; [lia|]. simplify_eq. destruct (bare_child ts _ _ Hb Hw Et) as [Hbt Hvt].
      assert (pnil t = false) as Hnt by (rewrite <- (expands_nil _ _ _ _ (Hch _ _ _ Ec Et)); by destruct c).
      assert ((Z.to_nat y =? 16)%nat = false) as E16.
      { inversion Hb as [| | |? H16 _]; subst. destruct (Nat.eqb_spec (Z.to_nat y) 16) as [E|]; [|done]. rewrite E in Et. by simplify_eq. }
      rewrite E16 in Hwt, Hkt, Hku. rewrite resolved_full in Rl, Rr.
      destruct (IH _ _ Et (p ++ [y]) c (pre ++ [y]) l r) as (res & E & Hres); try done; [|by apply Rl|by apply Rr|by destruct t|].
      { pose proof (Hch _ _ _ Ec Et) as Hcx. by rewrite Ex in Hcx. }
      rewrite <- !app_assoc, length_app in E. cbn [app length] in E. rewrite Nat.add_1_r in E. rewrite E. go_ret.
      eexists. split; [done|]. eapply (fork_down ts cs f); try done. lia.
    + change (fork_ok p (PFull ts) (x :: l) (y :: r) (cut_sides cs x y (x :: l) (y :: r))). destruct Hcase as [Hxy|[? _]]; [|done].
      by apply (cut_sides_apart ts cs f p x y l r c d).
Qed.
(** ** Filling *)

(** Along a path in memory an insertion does not ask the reader. *)
Lemma insert_any_reader rd1 rd2 fuel : forall n p key v tr, resolved n key ->
  Trie.insert rd1 fuel n p key v tr = Trie.insert rd2 fuel n p key v tr.
Proof.
  induction fuel as [|fuel IH]; intros n p key v tr Hr; [done|]. cbn [Trie.insert]. destruct key as [|x key]; [done|].
  destruct n as [|u|h|k c f|cs f]; try done.
  - destruct (Nat.eqb_spec (prefixLen (x :: key) k) (length k)) as [E|_]; unfold mbind, TM_bind.
    + apply prefixLen_full in E as [l El]. rewrite El in *. rewrite (proj2 (prefixLen_full (k ++ l) k)) by (by exists l).
      rewrite resolved_short in Hr. rewrite drop_app_length. by rewrite (IH c _ l).
    + destruct (tm_of _ tr) as [[[kx|] tr1]|]; try done. rewrite (IH NilNode) by done.
      destruct (Trie.insert rd2 _ NilNode _ _ _ tr1) as [[[[? c1]|] tr2]|]; try done.
      destruct (tm_of _ tr2) as [[[ky|] tr3]|]; try done. by rewrite (IH NilNode).
  - unfold mbind, TM_bind. destruct (cs !! Z.to_nat x) as [c|] eqn:Ec; cbn; [|done].
    rewrite resolved_full in Hr. by rewrite (IH c _ key) by (by apply Hr).
Qed.
Lemma resolved_leafnode k c f pq y l : resolved (ShortNode (pq ++ y :: k) c f) (pq ++ y :: l) -> resolved (leafnode k c) l.
Proof.
  intros Hr. destruct (bool_decide (take (length k) l = k)) eqn:Et.
  - apply take_length_app_decide in Et as (l' & ->).
    assert (resolved c l') as Hc.
    { apply (resolved_short (pq ++ y :: k) c f). by rewrite <- app_assoc. }
    destruct k; [done|]. by apply resolved_short.
  - destruct k; [by rewrite take_0, bool_decide_true in Et|]. by apply resolved_short_miss, not_prefix.
Qed.

Lemma resolved_leaf_val k v l : resolved (leafnode k (ValueNode v)) l.
Proof. by destruct k. Qed.

Lemma resolved_split pq x y key' k' c f v k2 : 0 <= x -> 0 <= y -> Forall (fun z => 0 <= z) k2 ->
  resolved (ShortNode (pq ++ y :: k') c f) k2 ->
  resolved (leafnode pq (FullNode (<[Z.to_nat x := leafnode key' (ValueNode v)]> (<[Z.to_nat y := leafnode k' c]> empty_full)) newFlag)) k2.
Proof.
  intros Hx Hy Hk2 Hr. set (br := FullNode _ _).
  assert (forall l, k2 = pq ++ l -> resolved br l) as Hbr.
  { intros l ->. apply Forall_app in Hk2 as [_ Hl]. unfold br.
    apply (resolved_full_insert _ newFlag); intros z l' -> Ez; apply Forall_cons in Hl as [Hz _]; [apply resolved_leaf_val|].
    apply (resolved_full_insert _ newFlag).
    - intros z0 l0 [= <- <-] Ey. assert (z = y) as -> by lia. by eapply resolved_leafnode.
    - intros z0 l0 [= <- <-] _. apply resolved_full. by intros c0 [-> _]%lookup_replicate. }
  destruct pq as [|q0 pq]; [by apply Hbr|]. cbn [leafnode]. destruct (bool_decide (take (length (q0 :: pq)) k2 = q0 :: pq)) eqn:Et.
  - apply take_length_app_decide in Et as (l & ->). apply resolved_short. by apply Hbr.
  - by apply resolved_short_miss, not_prefix.
Qed.

Lemma hex_key_nonneg k : hex_key k -> Forall (fun z => 0 <= z) k.
Proof.
  intros (p & Hp & ->). apply Forall_app. split; [|repeat constructor; lia]. eapply Forall_impl; [exact Hp|]. unfold is_nibble. lia.
Qed.

Lemma insert_branch_shape rd0 fuel p c f pq x y key' k' v tr :
  length pq = prefixLen (pq ++ x :: key') (pq ++ y :: k') ->
  exists tr', Trie.insert rd0 (S (S fuel)) (ShortNode (pq ++ y :: k') c f) p (pq ++ x :: key') (ValueNode v) tr =
    Ret (Ok (true, leafnode pq (FullNode (<[Z.to_nat x := leafnode key' (ValueNode v)]> (<[Z.to_nat y := leafnode k' c]> empty_full)) newFlag)), tr').
Proof.
  intros Hlp. assert (exists z r, pq ++ x :: key' = z :: r) as (z & r & Ez) by (destruct pq; eauto).
  remember (S fuel) as fuel1 eqn:Ef1. rewrite Ez. cbn [Trie.insert]. rewrite <- Ez, <- Hlp.
  rewrite (proj2 (Nat.eqb_neq _ _)) by (rewrite length_app; simpl; lia).
  rewrite !list_lookup_middle by done. cbn [tm_of]. unfold mbind, TM_bind. cbn [mret TM_ret].
  rewrite !drop_middle, take_app_length. subst fuel1.
  destruct (insert_nil rd0 fuel (p ++ take (length pq + 1) (pq ++ y :: k')) k' c tr) as [tr1 ->].
  destruct (insert_nil rd0 fuel (p ++ take (length pq + 1) (pq ++ x :: key')) key' (ValueNode v) tr1) as [tr2 ->].
  destruct pq as [|q0 pq]; eexists; done.
Qed.

Lemma insert_keeps rd0 fuel : forall p n t b key v tr d n' tr' k2,
  expands rd p n t -> wfl_at true b t -> key_at b key -> key_at b k2 -> resolved n key -> resolved n k2 ->
  Trie.insert rd0 fuel n p key (ValueNode v) tr = Ret (Ok (d, n'), tr') -> resolved n' k2.
Proof.
  induction fuel as [|fuel IH]; intros p n t b key v tr d n' tr' k2 He Hw Hk Hk2 Hr Hr2 E; [done|].
  destruct key as [|x0 key0] eqn:Ek0.
  { cbn [Trie.insert] in E. destruct n; injection E as <- <- <-; done. }
  rewrite <- Ek0 in *. destruct b; [cbn in Hk; by rewrite Ek0 in Hk|]. cbn [wfl_at key_at] in Hw, Hk, Hk2.
  destruct n as [|u|h|k c f|cs f]; [..|done| |].
  - cbn [Trie.insert] in E. rewrite Ek0 in E. cbn in E. injection E as <- <- <-. done.
  - cbn [Trie.insert] in E. rewrite Ek0 in E. done.
  - inversion He as [| |? ? ? ? t' _ _ Hc| |]; subst.
    destruct (short_key_cases _ k t' Hw Hk) as [(l & isl & El & Hl & Hwt)|(_ & _ & pq & x & y & key' & k' & Ekey & -> & Hlp & Hx & Hy)].
    + cbn [Trie.insert] in E. rewrite El in *. rewrite (proj2 (prefixLen_full (k ++ l) k)) in E by (by exists l).
      rewrite Nat.eqb_refl, take_app_length, drop_app_length in E. unfold mbind, TM_bind in E. rewrite resolved_short in Hr.
      destruct (Trie.insert rd0 fuel c (p ++ k) l (ValueNode v) tr) as [[[[d1 nn]|] tr1]|] eqn:Ei; try done.
      destruct d1; injection E as <- <- <-; [|done]. destruct (bool_decide (take (length k) k2 = k)) eqn:Et.
      * apply take_length_app_decide in Et as (l2 & ->). rewrite resolved_short in *.
        eapply (IH (p ++ k) c t' isl l v tr _ _ _ l2); try done.
        destruct (wf_short_inv k t' Hw) as (isl' & Hkk & _ & Hwt' & _). destruct isl, isl'; cbn in *; subst.
        -- by apply (hex_key_app_key k).
        -- by destruct t'.
        -- by destruct t'.
        -- by apply (hex_key_app_inv k); [destruct Hkk|].
      * by apply resolved_short_miss, not_prefix.
    + rewrite Ekey in *. destruct fuel as [|fuel].
      { exfalso. assert (exists z r, pq ++ x :: key' = z :: r) as (z & r & Ez) by (destruct pq; eauto).
        rewrite Ez in E. cbn [Trie.insert] in E. rewrite <- Ez, <- Hlp in E.
        rewrite (proj2 (Nat.eqb_neq _ _)) in E by (rewrite length_app; simpl; lia).
        rewrite !list_lookup_middle in E by done. done. }
      destruct (insert_branch_shape rd0 fuel p c f pq x y key' k' v tr Hlp) as [tr2 E2]. rewrite E2 in E. injection E as <- <- <-.
      eapply resolved_split; [lia|lia|by apply hex_key_nonneg|done].
  - inversion He as [| | |? ? ? ts _ _ Hlen Hch|]; subst. cbn [Trie.insert] in E.
    destruct (key_child_idx cs ts x0 key0 Hlen Hw Hk) as (c & t & Ec & Et & Ex & Hwt & Hkt & Hlt).
    rewrite Ec in E. cbn [tm_of] in E. unfold mbind, TM_bind in E. cbn [mret TM_ret] in E. rewrite resolved_full in Hr.
    destruct (Trie.insert rd0 fuel c (p ++ [x0]) key0 (ValueNode v) tr) as [[[[d1 nn]|] tr1]|] eqn:Ei; try done.
    destruct d1; injection E as <- <- <-; [|done]. apply (resolved_full_insert cs f); [|done].
    intros x l -> Ei'. destruct (hex_key_child x l Hk2) as (_ & _ & Hkl). rewrite Ei' in Hkl.
    eapply (IH (p ++ [x0]) c t _ key0 v tr _ _ _ l); [|done..|by apply Hr| |done].
    + pose proof (Hch _ _ _ Ec Et) as Hcx. by rewrite Ex in Hcx.
    + rewrite resolved_full, Ei' in Hr2. by apply Hr2.
Qed.
Lemma fill_trie_spec kvs : forall t q,
  expands rd [] (Trie.root t) q -> wfl true q -> NoDup kvs.*1 ->
  Forall (fun kv => bytes kv.1 /\ kv.2 <> [] /\ resolved (Trie.root t) (keybytesToHex kv.1)) kvs ->
  exists t' q', fill_trie t kvs = Ret t' /\ expands rd [] (Trie.root t') q' /\ wfl true q' /\
    (forall k, bytes k -> pget q' (keybytesToHex k) =
       match (list_to_map kvs : gmap (list Z) (list Z)) !! k with Some v => Some v | None => pget q (keybytesToHex k) end) /\
    (forall k, hex_key k -> resolved (Trie.root t) k -> resolved (Trie.root t') k).
Proof.
  induction kvs as [|[k v] kvs IH]; intros t q He Hw Hnd Hkv; [by exists t, q|].
  apply Forall_cons in Hkv as [(Hb & Hv & Hr) Hkv]. cbn [fst snd] in *. apply NoDup_cons in Hnd as [Hk Hnd].
  pose proof (keybytesToHex_key k Hb) as Hhk.
  destruct (insert_expands (loose:=true) rd [] (Trie.root t) q He (fuel_for (keybytesToHex k)) false (keybytesToHex k) v (trace t) Hw Hhk Hv
              (enough_fuel_for _ _)) as (n' & tr' & E & He').
  rewrite (insert_any_reader rd (reader t)) in E by done.
  destruct (pinsert_spec (loose:=true) q false (keybytesToHex k) v Hw Hhk Hv) as [Hw' _ _ _ _ Hget].
  assert (forall k2, hex_key k2 -> resolved (Trie.root t) k2 -> resolved n' k2) as Hkeep.
  { intros k2 Hk2 Hr2. by eapply (insert_keeps (reader t) _ [] (Trie.root t) q false (keybytesToHex k)). }
  cbn [fill_trie]. unfold Trie.Update, Trie.update. destruct v as [|v0 v]; [done|]. cbn [length Nat.eqb negb]. rewrite E. cbn [set_root]. go_ret.
  cbv iota. destruct (IH (mkTrie n' (owner t) (unhashed t + 1) (reader t) tr') _ He' Hw' Hnd) as (t' & q' & Ef & He2 & Hw2 & Hg2 & Hr2).
  { eapply Forall_impl; [exact Hkv|]. intros [k' v'] (Hb' & Hv' & Hr'). split; [done|]. split; [done|].
    apply Hkeep; [by apply keybytesToHex_key|done]. }
  exists t', q'. split; [done|]. split; [done|]. split; [done|]. split; [|by intros; apply Hr2; [|apply Hkeep]].
  intros k' Hb'. rewrite Hg2, list_to_map_cons, Hget by (done || by apply keybytesToHex_key).
  destruct (decide (k' = k)) as [->|Hne].
  - rewrite lookup_insert_eq, decide_True by done. by rewrite (not_elem_of_list_to_map_1 kvs k).
  - rewrite lookup_insert_ne by done. rewrite decide_False; [done|]. rewrite hex_eq_iff by done. done.
Qed.

(** ** Elements to the right *)

Lemma existsb_range (g : node -> bool) cs lo hi :
  existsb g (take (hi - lo) (drop lo cs)) = true <-> exists j c, (lo <= j < hi)%nat /\ cs !! j = Some c /\ g c = true.
Proof.
  rewrite existsb_exists. split.
  - intros (c & Hc & Hg). apply list_elem_of_In, list_elem_of_lookup in Hc as [i Hi].
    apply lookup_take_Some in Hi as [Hi Hlt]. rewrite lookup_drop in Hi. exists (lo + i)%nat, c. split; [lia|done].
  - intros (j & c & Hj & Hc & Hg). exists c. split; [|done]. apply list_elem_of_In, list_elem_of_lookup. exists (j - lo)%nat.
    rewrite lookup_take_Some, lookup_drop. split; [|lia]. by replace (lo + (j - lo))%nat with j by lia.
Qed.

Definition right_ok (b : bool) (t : ptrie) (rest : list Z) (o : outcome bool) : Prop :=
  exists r, o = Ret r /\ (r = true <-> exists q v, key_at b q /\ pget t q = Some v /\ before rest q).

Lemma right_none b t rest : (forall q, key_at b q -> before rest q -> pget t q = None) -> right_ok b t rest (Ret false).
Proof. intros Hn. exists false. split; [done|]. split; [done|]. intros (q & v & Hq & Hg & Hb). by rewrite Hn in Hg. Qed.

Lemma right_short k t p c f pre rest : expands rd p (ShortNode k c f) (PShort k t) -> wf (PShort k t) -> hex_key rest ->
  (forall l isl, rest = k ++ l -> key_at isl l -> wf_at isl t -> right_ok isl t l (right_of c ((pre ++ k) ++ l) (length (pre ++ k)))) ->
  right_ok false (PShort k t) rest (right_of (ShortNode k c f) (pre ++ rest) (length pre)).
Proof.
  intros He Hw Hk IH. cbn [right_of]. rewrite drop_app_length.
  destruct (short_key_split rest k t Hw Hk) as [(l & isl & -> & Hl & Hwl & Ht)|(pq & x & y & key' & k' & -> & -> & Hxy)].
  - destruct (key_test (k ++ l) k l eq_refl) as [ -> _ ]. destruct (IH l isl eq_refl Hl Hwl) as (r & E & Hr).
    rewrite <- app_assoc, length_app in E. rewrite E. exists r. split; [done|]. rewrite Hr. split.
    + intros (q & v & Hq & Hg & Hb). exists (k ++ q), v. split; [|by rewrite (pget_short k t _ q), before_app].
      destruct isl; [cbn in Hq, Hl; by subst|]. apply hex_key_app; naive_solver.
    + intros (q & v & Hq & Hg & Hb). destruct (pget_short_Some k t q) as [l' ->]; [by rewrite Hg|].
      rewrite (pget_short k t _ l') in Hg by done. rewrite before_app in Hb. exists l', v. split; [|done]. destruct isl; cbn in *.
      * destruct Ht as [u ->]. destruct Hw as [Hkk _]. by apply (hex_key_app_key k).
      * apply (hex_key_app_inv k); naive_solver.
  - rewrite (key_test_miss (pq ++ x :: key') (pq ++ y :: k')).
    2:{ intros l El. rewrite <- app_assoc in El. apply app_inv_head in El. cbn in El. by injection El as <- _. }
    rewrite compare_off by done. case_bool_decide as Hlt; cbn.
    + apply right_none. intros q Hq Hb. apply pget_short_miss. intros l ->. rewrite <- app_assoc in Hb. cbn [app] in Hb.
      apply before_off_iff in Hb; [lia|done].
    + exists true. split; [done|]. split; [|done]. intros _. destruct (wf_inhabited _ false Hw eq_refl) as (q & v & Hq & Hg).
      exists q, v. split; [done|]. split; [done|]. destruct (pget_short_Some (pq ++ y :: k') t q) as [l ->]; [by rewrite Hg|].
      rewrite <- app_assoc. apply before_sibling. lia.
Qed.

Lemma right_of_spec t : forall p n b pre rest,
  expands rd p n t -> wf_at b t -> bare t -> key_at b rest -> resolved n rest ->
  right_ok b t rest (right_of n (pre ++ rest) (length pre)).
Proof.
  induction t as [|v|k t IH|ts IH] using ptrie_nested_ind; intros p n b pre rest He Hw Hb Hk Hr.
  - rewrite (expands_pnil _ _ He). by apply right_none.
  - rewrite (expands_pval _ _ _ He). destruct b; [|done]. cbn in Hk. subst rest. apply right_none. by intros q ->.
  - destruct n as [| | |k0 c f|]; try done; try (by inversion He). assert (k0 = k) as -> by (by inversion He). inversion Hb; subst.
    destruct b; [done|]. cbn [wfl_at key_at] in Hw, Hk. eapply right_short; try done. intros l isl -> Hl Hwl.
    rewrite resolved_short in Hr. eapply IH; try done. by inversion He.
  - destruct n as [| | | |cs f]; try done; try (by inversion He). inversion He as [| | |? ? ? ? _ _ Hlen Hch|]; subst.
    destruct b; [done|]. cbn [wfl_at key_at] in Hw, Hk. destruct rest as [|x rest]; [by apply hex_key_nil in Hk|].
    destruct (key_child_idx cs ts x rest Hlen Hw Hk) as (c & t & Ec & Et & Ex & Hwt & Hkt & Hlt).
    cbn [right_of]. rewrite list_lookup_middle by done. rewrite nth_with_lookup, Ec.
    pose proof (proj1 (wf_full ts) Hw) as (H17 & _ & Hwc).
    destruct (existsb _ _) eqn:Eex.
    + apply existsb_range in Eex as (j & d & Hj & Ed & Hd). destruct (expands_full_lookup _ _ _ _ _ _ _ He Ed) as (u & Eu & Hu).
      assert (nonnil u = true) as Hnu by (unfold nonnil; by rewrite <- (expands_nil _ _ _ _ Hu)).
      destruct (wf_inhabited u _ (Hwc _ _ Eu) Hnu) as (q & v & Hq & Hg). exists true. split; [done|]. split; [|done]. intros _.
      exists (Z.of_nat j :: q), v. split; [apply child_key; [lia|done]|]. rewrite pget_full, Nat2Z.id, Eu. split; [done|].
      apply before_cons. left. lia.
    + rewrite resolved_full in Hr.
      destruct (IH _ _ Et (p ++ [x]) c (Z.to_nat x =? 16)%nat (pre ++ [x]) rest) as (r & E & Hrr); try done.
      { pose proof (Hch _ _ _ Ec Et) as Hcx. by rewrite Ex in Hcx. }
      { inversion Hb; subst; eauto. }
      { by apply Hr. }
      rewrite <- app_assoc, length_app in E. cbn [app length] in E. rewrite Nat.add_1_r in E. rewrite E. exists r. split; [done|]. rewrite Hrr.
      split.
      * intros (q & v & Hq & Hg & Hbf). exists (x :: q), v. split; [rewrite <- Ex; apply child_key; [lia|done]|].
        rewrite pget_full, Et. split; [done|]. apply before_cons. by right.
      * intros ([|z q] & v & Hq & Hg & Hbf); [done|]. apply before_cons in Hbf as [Hlt'|[<- Hbf]].
        -- exfalso. destruct (key_child_idx cs ts z q Hlen Hw Hq) as (d & u & Ed & Eu & Ez & _ & _ & Hz).
           rewrite pget_full, Eu in Hg. assert (u = PNil) as ->; [|done].
           destruct (decide (Z.to_nat z = 16%nat)) as [E16|Hz16].
           { inversion Hb as [| | |? H16 _]; subst. rewrite E16 in Eu. by simplify_eq. }
           destruct (is_nil d) eqn:End.
           { pose proof (expands_nil _ _ _ _ (Hch _ _ _ Ed Eu)) as Hn. rewrite End in Hn. by destruct u. }
           rewrite (proj2 (existsb_range (fun c => negb (is_nil c)) cs (S (Z.to_nat x)) 16)) in Eex; [done|].
           exists (Z.to_nat z), d. split; [lia|]. by rewrite End.
        -- destruct (hex_key_child x q Hq) as (_ & _ & Hkq). rewrite pget_full, Et in Hg. by exists q, v.
Qed.
(** Hashing only sets caches. *)
Lemma hashFull_resolved (hash : node -> bool -> outcome (node * node)) cs :
  (forall i c hd cd, cs !! i = Some c -> hash c false = Ret (hd, cd) -> forall k, resolved c k -> resolved cd k) ->
  forall i ccs kcs, hashFullNodeChildren hash i cs = Ret (ccs, kcs) ->
  forall j d, kcs !! j = Some d -> exists c, cs !! j = Some c /\ forall k, resolved c k -> resolved d k.
Proof.
  induction cs as [|c cs IH]; intros Hc i ccs kcs E j d Hd; [by injection E as <- <-|].
  rewrite hashFullNodeChildren_cons in E. unfold mbind, outcome_bind in E.
  destruct (if (i <? 16)%nat then _ else _) as [[hd cd]|] eqn:E1; [|done].
  destruct (hashFullNodeChildren hash (S i) cs) as [[ccs' kcs']|] eqn:E2; [|done]. injection E as <- <-.
  destruct j as [|j]; cbn in Hd.
  - injection Hd as <-. exists c. split; [done|]. destruct (i <? 16)%nat; [|by injection E1 as <- <-].
    destruct c; try (by apply (Hc 0%nat _ _ _ eq_refl E1)). by injection E1 as <- <-.
  - apply (IH ltac:(intros i' c' hd' cd' Hc'; by apply (Hc (S i'))) (S i) ccs' kcs' E2 j d Hd).
Qed.

Lemma hash_resolved n : forall force hd cd, hasher_hash n force = Ret (hd, cd) -> forall k, resolved n k -> resolved cd k.
Proof.
  induction n as [|v|h|k0 c f IH|cs f IH] using node_nested_ind; intros force hd cd E k Hr;
    try (by injection E as <- <-); cbn [hasher_hash] in E.
  - destruct (cache (ShortNode k0 c f)).1; [by injection E as <- <-|]. unfold hashShortNodeChildren in E.
    destruct (hexToCompact k0) as [ck|]; [|done]. unfold mbind, outcome_bind in E.
    destruct (if is_inner c then hasher_hash c false else Ret (c, c)) as [[h1 c1]|] eqn:E1; [|done]. injection E as <- <-.
    eapply resolved_short_sub; [|exact Hr]. destruct (is_inner c); [by eapply IH|by injection E1 as <- <-].
  - destruct (cache (FullNode cs f)).1; [by injection E as <- <-|]. unfold mbind, outcome_bind in E.
    destruct (hashFullNodeChildren hasher_hash 0 cs) as [[ccs kcs]|] eqn:E1; [|done]. injection E as <- <-.
    destruct k as [|x k]; [done|]. apply resolved_full. intros d Hd.
    destruct (hashFull_resolved hasher_hash cs ltac:(intros i c hd' cd' Hc Eh; by eapply IH) 0 ccs kcs E1 _ _ Hd) as (c & Ec & Hcd).
    apply Hcd. cbn [snd] in *. rewrite resolved_full in Hr. by apply Hr.
Qed.

Lemma Hash_resolved t h t' k : Hasher.Hash t = Ret (h, t') -> resolved (Trie.root t) k -> resolved (Trie.root t') k.
Proof.
  unfold Hasher.Hash, hashRoot. intros E Hr. destruct (Trie.root t) as [|v|h0|k0 c f|cs f] eqn:Et; [by cbn in E; injection E as <- <-|..].
  all: rewrite <- Et in *; destruct (hasher_hash (Trie.root t) true) as [[hd cd]|] eqn:Eh; [|done]; cbn in E;
    destruct hd; try done; injection E as <- <-; cbn; by eapply hash_resolved.
Qed.

(** ** Ranges of byte keys *)

Lemma compare_eq a b : bytes_Compare a b = 0 <-> a = b.
Proof.
  split; [|intros ->; apply compare_refl]. revert b. induction a as [|x a IH]; intros [|y b]; cbn; try done.
  destruct (Z.ltb_spec x y); [done|]. destruct (Z.ltb_spec y x); [done|]. intros ->%IH. f_equal. lia.
Qed.

Lemma compare_flip a b : bytes_Compare a b = 1 -> before b a.
Proof.
  revert b. induction a as [|x a IH]; intros [|y b]; cbn; try done.
  destruct (Z.ltb_spec x y); [done|]. destruct (Z.ltb_spec y x); rewrite before_cons; [by left|]. intros ?%IH. right. split; [lia|done].
Qed.

Lemma before_total a b : ~ before a b -> a = b \/ before b a.
Proof. intros Hn. destruct (compare_cases a b) as [?|[?%compare_eq|?%compare_flip]]; [done|by left|by right]. Qed.

(** Keys of one length are ordered as their nibbles are. *)
Lemma hex_before a b : bytes a -> bytes b -> length a = length b -> before (keybytesToHex a) (keybytesToHex b) <-> before a b.
Proof.
  revert b. induction a as [|x a IH]; intros [|y b] Ha Hb Hl; try done. apply Forall_cons in Ha as [Hx Ha]. apply Forall_cons in Hb as [Hy Hb].
  unfold keybytesToHex. cbn [flat_map app]. fold (keybytesToHex a) (keybytesToHex b). rewrite !before_cons, IH by (done || by injection Hl).
  unfold is_byte in *. pose proof (Z.div_mod x 16 ltac:(lia)). pose proof (Z.div_mod y 16 ltac:(lia)).
  pose proof (Z.mod_pos_bound x 16 ltac:(lia)). pose proof (Z.mod_pos_bound y 16 ltac:(lia)). split.
  - intros [?|[? [?|[? ?]]]]; [left; lia|left; lia|right; split; [lia|done]].
  - intros [Hlt|[-> ?]]; [|by right; split; [|right]]. destruct (decide (x / 16 = y / 16)); [right; split; [done|left; lia]|left; lia].
Qed.

Definition in_range (firstKey lastKey k : list Z) : Prop := ~ before k firstKey /\ ~ before lastKey k.

Lemma within_range a b k : bytes a -> bytes b -> bytes k -> length a = length b -> length k = length a ->
  within (keybytesToHex a) (keybytesToHex b) (keybytesToHex k) = true <-> in_range a b k.
Proof.
  intros Ha Hb Hk Hl Hlk. unfold within, side, in_range. rewrite andb_true_iff, !bool_decide_eq_true, !hex_before by (done || lia). done.
Qed.

Lemma increasing_sorted keys : increasing keys = true -> forall i j a b, (i < j)%nat -> keys !! i = Some a -> keys !! j = Some b -> before a b.
Proof.
  induction keys as [|k keys IH]; intros Hi i j a b Hij Ea Eb; [done|].
  assert (increasing keys = true /\ forall k' keys', keys = k' :: keys' -> before k k') as [Hin Hk].
  { cbn [increasing] in Hi. destruct keys as [|k' keys]; [done|]. destruct (0 <=? bytes_Compare k k') eqn:Ec; [done|].
    split; [done|]. intros ? ? [= <- <-]. by apply compare_lt. }
  destruct j as [|j]; [lia|]. destruct i as [|i]; [|by apply (IH Hin i j); [lia|..]]. injection Ea as <-. cbn in Eb.
  destruct keys as [|k' keys]; [done|]. pose proof (Hk k' keys eq_refl) as Hkk. destruct j as [|j]; [by injection Eb as <-|].
  etrans; [exact Hkk|]. by apply (IH Hin 0%nat (S j)); [lia|..].
Qed.

Lemma increasing_NoDup keys : increasing keys = true -> NoDup keys.
Proof.
  intros Hi. apply NoDup_alt. intros i j a Ea Eb. destruct (Nat.lt_trichotomy i j) as [Hij|[?|Hij]]; [|done|];
    destruct (irreflexivity before a); by eapply increasing_sorted.
Qed.

(** ** The three kinds of proof *)

Context (m : gmap (list Z) (list Z)) (Hholds : pt_holds pt m) (Hm : m <> ∅).
Context (db : proofDb) (Hdb : hashed_db db).

Lemma stored_key k v : m !! k = Some v -> bytes k /\ pget pt (keybytesToHex k) = Some v.
Proof. intros E. destruct (holds_dom _ _ Hholds k v E) as [Hb _]. split; [done|]. by rewrite (holds_get _ _ Hholds). Qed.

(** What the elements to the right of a key amount to. *)
Lemma hasRight_spec n key : bare pt -> bytes key -> opened n key -> (forall k v, m !! k = Some v -> length k = length key) ->
  exists r, hasRightElement n key = Ret r /\ (r = true <-> exists k v, m !! k = Some v /\ before key k).
Proof.
  intros Hbare Hb [He Hr] Hlen. destruct (right_of_spec pt [] n false [] (keybytesToHex key) He (holds_wf _ _ Hholds) Hbare
    (keybytesToHex_key key Hb) Hr) as (r & E & Hrr). exists r. split; [exact E|]. rewrite Hrr. split.
  - intros (q & v & Hq & Hg & Hbf). destruct (holds_keys _ _ Hholds q v Hq Hg) as (k & Hbk & ->).
    rewrite (holds_get _ _ Hholds) in Hg by done. exists k, v. split; [done|]. apply hex_before; try done. by rewrite (Hlen k v).
  - intros (k & v & Hk & Hbf). destruct (stored_key k v Hk) as [Hbk Hg]. exists (keybytesToHex k), v.
    split; [by apply keybytesToHex_key|]. split; [done|]. apply hex_before; try done. by rewrite (Hlen k v).
Qed.

(** What is proved of the trie for a range with [keys] in it. *)
Definition range_proved (firstKey lastKey : list Z) (kvs : list (list Z * list Z)) (more : bool) : Prop :=
  (forall k, in_range firstKey lastKey k -> m !! k = (list_to_map kvs : gmap (list Z) (list Z)) !! k) /\
  (more = true <-> exists k v, m !! k = Some v /\ before (default firstKey (last kvs.*1)) k).
Section fixed.
Context (firstKey : list Z) (Hfirst : bytes firstKey).
Context (Hlen : forall k v, m !! k = Some v -> length k = length firstKey).

Lemma bare_fixed t : forall b n, wf_at b t -> (forall q v, key_at b q -> pget t q = Some v -> length q = n) -> bare t.
Proof using.
  induction t as [|v|k t IH|ts IH] using ptrie_nested_ind; intros b n Hw Hn; [constructor..| |].
  - destruct b; [done|]. cbn [wfl_at] in Hw. destruct (wf_short_inv k t Hw) as (isl & Hk & _ & Hwt & _). constructor.
    apply (IH isl (n - length k)%nat Hwt). intros q v Hq Hg.
    assert (length (k ++ q) = n) as E; [|rewrite length_app in E; lia].
    eapply (Hn _ v); [|by rewrite (pget_short k t (k ++ q) q)].
    destruct isl; cbn in *; [by subst; rewrite app_nil_r|]. apply hex_key_app; naive_solver.
  - destruct b; [done|]. cbn [wfl_at] in Hw. pose proof (proj1 (wf_full ts) Hw) as (H17 & _ & Hwc).
    assert (forall i c, ts !! i = Some c -> bare c) as Hch.
    { intros i c Hc. apply (IH i c Hc _ (n - 1)%nat (Hwc _ _ Hc)). intros q v Hq Hg. pose proof (lookup_lt_Some _ _ _ Hc).
      specialize (Hn (Z.of_nat i :: q) v (child_key i q ltac:(lia) Hq)). rewrite pget_full, Nat2Z.id, Hc in Hn. specialize (Hn Hg). cbn in Hn. lia. }
    constructor; [|done]. destruct (lookup_lt_is_Some_2 ts 16) as [c Hc]; [lia|]. rewrite Hc. f_equal.
    pose proof (Hwc _ _ Hc) as Hv. cbn in Hv. destruct c as [|v| |]; try done. exfalso.
    assert (n = 1)%nat as ->.
    { rewrite <- (Hn [16] v); [done|exists []; by split; [constructor|]|]. rewrite pget_full. change (Z.to_nat 16) with 16%nat. by rewrite Hc. }
    assert (forall x q, hex_key (x :: q) -> pget (PFull ts) (x :: q) <> None -> x = 16) as Hx.
    { intros x q Hq Hg. destruct (pget (PFull ts) (x :: q)) as [u|] eqn:E; [|done]. pose proof (Hn _ u Hq E) as Hl. destruct q; [|done].
      apply hex_key_cons in Hq as [[? _]|[_ Hq]]; [done|by apply hex_key_nil in Hq]. }
    destruct (full_two_keys ts Hw) as (x & q & x' & q' & Hne & Hq & Hq' & Hg & Hg'). by rewrite (Hx x q), (Hx x' q') in Hne.
Qed.

Lemma hex_length k : length (keybytesToHex k) = (2 * length k + 1)%nat.
Proof using. unfold keybytesToHex. rewrite length_app. cbn. induction k as [|x k IH]; [done|]. cbn in *. lia. Qed.

Lemma pt_bare : bare pt.
Proof.
  apply (bare_fixed pt false (2 * length firstKey + 1) (holds_wf _ _ Hholds)). intros q v Hq Hg.
  destruct (holds_keys _ _ Hholds q v Hq Hg) as (k & Hb & ->). rewrite (holds_get _ _ Hholds) in Hg by done.
  by rewrite hex_length, (Hlen k v).
Qed.

(** Bindings outside the keys' length do not matter. *)
Lemma range_ext (lastKey : list Z) (kvs : gmap (list Z) (list Z)) : (forall k v, kvs !! k = Some v -> bytes k /\ length k = length firstKey) ->
  (forall k, bytes k -> length k = length firstKey -> in_range firstKey lastKey k -> m !! k = kvs !! k) ->
  forall k, in_range firstKey lastKey k -> m !! k = kvs !! k.
Proof.
  intros Hkvs Heq k Hk. destruct (m !! k) as [v|] eqn:E1.
  - rewrite <- E1. apply Heq; [|by eapply Hlen|done]. by destruct (stored_key k v E1).
  - destruct (kvs !! k) as [v|] eqn:E2; [|done]. destruct (Hkvs k v E2). rewrite <- E1, <- E2. by apply Heq.
Qed.

Lemma pt_inner : pinner pt = true.
Proof. by eapply pinner_nonempty. Qed.

Lemma zero_sound lastKey n : opened n firstKey -> m !! firstKey = None -> hasRightElement n firstKey = Ret false ->
  range_proved firstKey lastKey [] false.
Proof.
  intros Ho Hnone Hr. destruct (hasRight_spec n firstKey pt_bare Hfirst Ho Hlen) as (r & E & Hright). rewrite Hr in E. injection E as <-.
  split; [|exact Hright]. intros k [Hk _]. rewrite list_to_map_nil, lookup_empty. destruct (m !! k) as [v|] eqn:Ek; [|done]. exfalso.
  apply before_total in Hk as [->|Hk]; [congruence|]. apply diff_false_true, Hright. by exists k, v.
Qed.

Lemma one_sound n v more : opened n firstKey -> m !! firstKey = Some v -> hasRightElement n firstKey = Ret more ->
  range_proved firstKey firstKey [(firstKey, v)] more.
Proof.
  intros Ho Hv Hr. destruct (hasRight_spec n firstKey pt_bare Hfirst Ho Hlen) as (r & E & Hright). rewrite Hr in E. injection E as <-.
  split; [|exact Hright]. intros k [Hk Hk']. apply before_total in Hk as [->|Hk]; [|done].
  cbn. by rewrite lookup_insert_eq.
Qed.

(** The cut trie filled with the bindings hashes to the root only when it is the trie. *)
Lemma refilled lastKey kvs n q0 : bytes lastKey -> length lastKey = length firstKey -> NoDup kvs.*1 -> kvs <> [] ->
  Forall (fun kv => bytes kv.1 /\ kv.2 <> [] /\ length kv.1 = length firstKey /\ in_range firstKey lastKey kv.1) kvs ->
  cut_to false (within (keybytesToHex firstKey) (keybytesToHex lastKey)) [] n pt q0 ->
  exists tr tr' q, fill_trie (mkTrie n (replicate 32 0) 0 newEmptyReader newTracer) kvs = Ret tr /\
    Hasher.Hash tr = Ret (root_hash q, tr') /\
    (root_hash q = root_hash pt ->
     (forall k, in_range firstKey lastKey k -> m !! k = (list_to_map kvs : gmap (list Z) (list Z)) !! k) /\
     forall k, bytes k -> length k = length firstKey -> in_range firstKey lastKey k -> opened (Trie.root tr') k).
Proof.
  intros Hlast Hll Hnd Hne Hkv (Ce & Cw & Cg & Cr).
  assert (forall k, bytes k -> length k = length firstKey -> in_range firstKey lastKey k ->
            within (keybytesToHex firstKey) (keybytesToHex lastKey) (keybytesToHex k) = true) as Hin.
  { intros k Hb Hl Hk. by apply within_range; try done. }
  destruct (fill_trie_spec kvs (mkTrie n (replicate 32 0) 0 newEmptyReader newTracer) q0 Ce Cw Hnd) as (tr & q & Ef & He & Hw & Hg & Hr).
  { eapply Forall_impl; [exact Hkv|]. intros [k v] (Hb & Hv & Hl & Hk). cbn [fst snd] in *. split; [done|]. split; [done|].
    apply Cr; [by apply keybytesToHex_key|by apply Hin]. }
  destruct (Hash_expands (fun _ _ => True) rd tr q He Hw) as (tr' & Eh & He' & _). exists tr, tr', q. split; [done|]. split; [done|]. intros Eq.
  assert (pinner q = true) as Hiq.
  { destruct kvs as [|[k v] kvs]; [done|]. apply Forall_cons in Hkv as [(Hb & _) _]. specialize (Hg k Hb).
    rewrite list_to_map_cons, lookup_insert_eq in Hg. by destruct q. }
  assert (q = pt) as ->.
  { apply (penc_inj (loose:=true)); [done|apply (wfl_weaken false), (holds_wf _ _ Hholds)|done|apply pt_inner|].
    rewrite !pinner_root_hash in Eq by (done || apply pt_inner). by apply keccak256_inj. }
  split.
  - apply range_ext.
    { intros k v Ek. apply elem_of_list_to_map_2 in Ek. rewrite Forall_forall in Hkv. by destruct (Hkv _ Ek) as (? & _ & ? & _). }
    intros k Hb Hl Hk. rewrite <- (holds_get _ _ Hholds k Hb), Hg by done.
    destruct (_ !! k); [done|]. rewrite Cg by (by apply keybytesToHex_key). by rewrite Hin.
  - intros k Hb Hl Hk. split; [done|]. eapply Hash_resolved; [exact Eh|]. apply Hr; [by apply keybytesToHex_key|]. apply Cr; [by apply keybytesToHex_key|by apply Hin].
Qed.

Lemma verify_edges_sound lastKey kvs : bytes lastKey -> length lastKey = length firstKey -> before firstKey lastKey ->
  NoDup kvs.*1 -> kvs <> [] ->
  Forall (fun kv => bytes kv.1 /\ kv.2 <> [] /\ length kv.1 = length firstKey /\ in_range firstKey lastKey kv.1) kvs ->
  exists r, verify_edges (root_hash pt) firstKey lastKey kvs db = Ret r /\
    forall more, r = Ok more -> range_proved firstKey lastKey kvs more.
Proof.
  intros Hlast Hll Hlt Hnd Hne Hkv. unfold verify_edges. pose proof (holds_wf _ _ Hholds) as Hw. pose proof pt_inner as Hi.
  destruct (proofToPath_first db firstKey true Hdb Hw Hi Hfirst) as [(n1 & -> & Ho1 & _)|[e ->]]; go_ret; cbv iota; [|by eexists].
  destruct (proofToPath_second db firstKey lastKey n1 Hdb Hw Hi Hlast Ho1) as [(n2 & v2 & -> & [He Hr1] & [_ Hr2])|[e ->]]; go_ret; cbv iota; [|by eexists].
  unfold unsetInternal.
  destruct (unset_fork_spec pt [] n2 [] (keybytesToHex firstKey) (keybytesToHex lastKey)) as (res & E & Hres);
    [done|done|apply pt_bare|by apply keybytesToHex_key..|done|done|by apply hex_before|done|].
  cbn [app length] in E. rewrite E. go_ret. destruct res as [c|e]; cbv iota; [|by eexists].
  destruct (Hres c eq_refl) as (q0 & Hcut & _).
  destruct (refilled lastKey kvs (cut_node c) q0 Hlast Hll Hnd Hne Hkv Hcut) as (tr & tr' & q & Ef & Eh & Hq).
  destruct (last kvs.*1) as [kl|] eqn:El; [|by apply last_None, fmap_nil_inv in El].
  assert (bytes kl /\ length kl = length firstKey /\ in_range firstKey lastKey kl) as (Hbl & Hlkl & Hkl).
  { apply last_Some_elem_of, list_elem_of_fmap in El as (kv & -> & Hin). rewrite Forall_forall in Hkv. by destruct (Hkv kv Hin) as (? & _ & ? & ?). }
  assert (exists e n3, (match c with Keep n => Ok (false, n) | Remove => Ok (true, n2) end : res range_err (bool * node)) = Ok (e, n3) /\
            (if e then NilNode else n3) = cut_node c) as (e & n3 & -> & ->) by (destruct c; by do 2 eexists).
  rewrite Ef. go_ret. rewrite Eh. go_ret. cbv beta iota. case_bool_decide as Eroot; [|by eexists]. cbn [of_option]. go_ret.
  destruct (Hq Eroot) as [Hmap Hopen].
  destruct (hasRight_spec (Trie.root tr') kl pt_bare Hbl (Hopen kl Hbl Hlkl Hkl)) as (r & -> & Hright).
  { intros k v Hk. rewrite Hlkl. by eapply Hlen. }
  go_ret. eexists. split; [done|]. intros more [= <-]. split; [exact Hmap|]. by rewrite El.
Qed.

Lemma proof_bindings (lastKey : list Z) (keys values : list (list Z)) : length keys = length values -> Forall bytes keys ->
  existsb (fun v => (length v =? 0)%nat) values = false ->
  Forall (fun k => length k = length firstKey /\ in_range firstKey lastKey k) keys ->
  Forall (fun kv => bytes kv.1 /\ kv.2 <> [] /\ length kv.1 = length firstKey /\ in_range firstKey lastKey kv.1) (zip keys values).
Proof.
  intros Hl Hb Hv Hk. apply Forall_forall. intros [k v] Hin. apply elem_of_zip_l in Hin as Hk'. apply elem_of_zip_r in Hin as Hv'.
  rewrite Forall_forall in Hb, Hk. destruct (Hk k Hk'). split; [by apply Hb|]. split; [|done]. intros E. cbn in E. subst v.
  assert (existsb (fun v : list Z => (length v =? 0)%nat) values = true); [|congruence]. apply existsb_exists.
  exists []. by split; [apply list_elem_of_In|].
Qed.
End fixed.
End sound.

Section theorems.
Context `{RLPLaws} `{EthCommon} `{!HashLaws} `{!CollisionFree}.

Lemma VerifyRangeProof_edges (pt : ptrie) (m : gmap (list Z) (list Z)) (firstKey lastKey : list Z) (keys values : list (list Z))
  (db : proofDb) :
  pt_holds pt m -> m <> ∅ -> hashed_db db -> bytes firstKey -> bytes lastKey -> Forall bytes keys ->
  (forall k v, m !! k = Some v -> length k = length firstKey) ->
  Forall (fun k => length k = length firstKey /\ in_range firstKey lastKey k) keys ->
  exists r, VerifyRangeProof (root_hash pt) firstKey lastKey keys values (Some db) = Ret r /\
    forall more, r = Ok more -> range_proved m firstKey lastKey (zip keys values) more.
Proof.
  intros Hh Hm Hdb Hf Hla Hb Hlen Hk. pose proof (holds_wf _ _ Hh) as Hw. pose proof (pinner_nonempty pt m Hh Hm) as Hi.
  unfold VerifyRangeProof. destruct (Nat.eqb_spec (length keys) (length values)) as [Hl|]; cbn [negb]; [|by eexists].
  destruct (increasing keys) eqn:Hinc; cbn [negb]; [|by eexists]. destruct (existsb _ values) eqn:Hv; [by eexists|].
  pose proof (holds_get _ _ Hh firstKey Hf) as Hg.
  destruct (Nat.eqb_spec (length keys) 0) as [E0|Hn0].
  { destruct keys; [|done]. destruct (proofToPath_first pt db firstKey true Hdb Hw Hi Hf) as [(n & -> & Ho & _)|[e ->]]; go_ret; cbv iota; [|by eexists].
    rewrite Hg. destruct (m !! firstKey) as [v|] eqn:Efk; go_ret; [by eexists|].
    destruct (hasRight_spec pt m Hh n firstKey (pt_bare pt m Hh firstKey Hlen) Hf Ho Hlen) as (r & Er & _). rewrite Er. go_ret.
    destruct r; eexists; (split; [done|]); [done|]. intros more [= <-]. by apply (zero_sound pt m Hh firstKey Hf Hlen lastKey n). }
  destruct ((length keys =? 1)%nat && bool_decide (firstKey = lastKey)) eqn:E1.
  { apply andb_true_iff in E1 as [E1%Nat.eqb_eq <-%bool_decide_eq_true].
    destruct (proofToPath_first pt db firstKey false Hdb Hw Hi Hf) as [(n & -> & Ho & Hsome)|[e ->]]; go_ret; cbv iota; [|by eexists].
    rewrite Hg in *. destruct (m !! firstKey) as [v|] eqn:Efk; [|by specialize (Hsome eq_refl)]. cbn [default from_option id].
    case_bool_decide as Ek; cbn [negb]; [|by eexists]. case_bool_decide as Ev; cbn [negb]; [|by eexists]. subst.
    destruct (hasRight_spec pt m Hh n firstKey (pt_bare pt m Hh firstKey Hlen) Hf Ho Hlen) as (r & Er & _). rewrite Er. go_ret.
    eexists. split; [done|]. intros more [= <-]. by apply (one_sound pt m Hh firstKey Hf Hlen n). }
  destruct (0 <=? bytes_Compare firstKey lastKey) eqn:Ec; [by eexists|]. apply compare_lt in Ec.
  destruct (Nat.eqb_spec (length firstKey) (length lastKey)) as [Hll|]; cbn [negb]; [|by eexists].
  apply (verify_edges_sound pt m Hh Hm db Hdb firstKey Hf Hlen); try done.
  - rewrite fst_zip by lia. by apply increasing_NoDup.
  - destruct keys, values; done.
  - by apply proof_bindings.
Qed.

(** Without edges: the stack trie of all bindings. *)
Lemma fill_stack_Updates kvs : forall st, fill_stack st kvs = '(st, _) ← Updates st kvs; Ret st.
Proof.
  induction kvs as [|[k v] kvs IH]; intros st; [done|]. cbn [fill_stack Updates].
  destruct (StackTrie.Update st k v) as [[st1 ws1]|]; [|done]. unfold mbind, outcome_bind. rewrite IH.
  unfold mbind, outcome_bind. by destruct (Updates st1 kvs) as [[st2 ws2]|].
Qed.

(** Ascending keys of one length. *)
Lemma ascending_zip keys values n : length keys = length values -> increasing keys = true ->
  existsb (fun v => (length v =? 0)%nat) values = false -> Forall (fun k => bytes k /\ length k = n) keys -> ascending (zip keys values).
Proof.
  intros Hl Hi Hv Hk. split.
  - apply Forall_forall. intros [k v] Hin. apply elem_of_zip_l in Hin as Hk'. apply elem_of_zip_r in Hin as Hv'.
    rewrite Forall_forall in Hk. destruct (Hk k Hk'). split; [done|]. intros E. cbn in E. subst v.
    assert (existsb (fun v : list Z => (length v =? 0)%nat) values = true); [|congruence]. apply existsb_exists.
    exists []. by split; [apply list_elem_of_In|].
  - rewrite fst_zip by lia. intros i j a b Hij Ea Eb. pose proof (increasing_sorted keys Hi i j a b Hij Ea Eb) as Hab.
    rewrite Forall_lookup in Hk. destruct (Hk i a Ea) as [_ Ha]. destruct (Hk j b Eb) as [_ Hb]. clear -Ha Hb Hab.
    revert b n Ha Hb Hab. induction a as [|x a IH]; intros [|y b] n Ha Hb Hab; cbn in *; subst; try done.
    apply before_cons in Hab as [Hxy|[-> Hab]]; [by exists [], x, y, a, b|]. injection Hb as Hb.
    destruct (IH b (length a) eq_refl Hb Hab) as (p & x' & y' & a' & b' & -> & -> & Hlt). by exists (y :: p), x', y', a', b'.
Qed.

(** Without a proof the bindings must be the whole trie. *)
Lemma VerifyRangeProof_all (pt : ptrie) (m : gmap (list Z) (list Z)) (n : nat) (firstKey lastKey : list Z) (keys values : list (list Z)) :
  pt_holds pt m -> length keys = length values -> increasing keys = true ->
  existsb (fun v => (length v =? 0)%nat) values = false -> Forall (fun k => bytes k /\ length k = n) keys ->
  exists r, VerifyRangeProof (root_hash pt) firstKey lastKey keys values None = Ret r /\
    (r = Ok false <-> m = list_to_map (zip keys values)) /\ r <> Ok true.
Proof.
  intros Hh Hl Hi Hv Hk. unfold VerifyRangeProof. rewrite (proj2 (Nat.eqb_eq _ _) Hl), Hi, Hv. cbn [negb].
  pose proof (ascending_zip keys values n Hl Hi Hv Hk) as Ha.
  destruct (Updates_spec false (zip keys values) [] (NewStackTrie false) PNil ∅) as (st & ws & t & E & Hs & Ht);
    [by left|apply pt_holds_empty|done|by intros ? ? ? ? _ Hm%lookup_empty_Some|].
  rewrite (right_id_L ∅ (∪)) in Ht. destruct (Hash_stands false _ st t Hs (holds_wf _ _ Ht)) as (st' & ws' & E').
  rewrite fill_stack_Updates, E. go_ret. cbv iota. go_ret. rewrite E'. go_ret. cbv iota.
  eexists. split; [done|]. case_bool_decide as Er; (split; [|done]).
  - split; [|done]. intros _. by apply (root_hash_inj pt t).
  - split; [done|]. intros ->. destruct Er. by rewrite (pt_holds_unique t pt _ Ht Hh).
Qed.

(** C34. Soundness of range proofs: against the root hash of a non-empty trie whose
    keys have one length, for keys that lie between the two edge keys, and with a proof
    whose nodes are stored under their hashes, whoever made it, the verifier never
    panics; when it accepts, the given bindings are exactly those the trie has in the
    range, none missing and none wrong, and the flag says whether the trie has a key
    behind the last one.  Without a proof it accepts only the bindings of the whole
    trie. *)
Theorem VerifyRangeProof_sound (pt : ptrie) (m : gmap (list Z) (list Z)) (firstKey lastKey : list Z) (keys values : list (list Z))
  (proof : option proofDb) :
  pt_holds pt m -> m <> ∅ -> (forall db, proof = Some db -> hashed_db db) ->
  bytes firstKey -> bytes lastKey -> Forall bytes keys ->
  (forall k v, m !! k = Some v -> length k = length firstKey) ->
  Forall (fun k => length k = length firstKey /\ (proof <> None -> in_range firstKey lastKey k)) keys ->
  exists r, VerifyRangeProof (root_hash pt) firstKey lastKey keys values proof = Ret r /\
    forall more, r = Ok more ->
    match proof with
    | Some _ => range_proved m firstKey lastKey (zip keys values) more
    | None => m = list_to_map (zip keys values) /\ more = false
    end.
Proof.
  intros Hh Hm Hdb Hf Hla Hb Hlen Hk. destruct proof as [db|].
  - apply VerifyRangeProof_edges; try done; [by apply Hdb|]. eapply Forall_impl; [exact Hk|]. intros k [? Hin]. split; [done|by apply Hin].
  - assert (Forall (fun k => bytes k /\ length k = length firstKey) keys) as Hk'.
    { apply Forall_and. split; [done|]. eapply Forall_impl; [exact Hk|]. by intros k [? _]. }
    pose proof (fun H1 H2 H3 => VerifyRangeProof_all pt m (length firstKey) firstKey lastKey keys values Hh H1 H2 H3 Hk') as Hall.
    revert Hall. unfold VerifyRangeProof.
    destruct (Nat.eqb_spec (length keys) (length values)) as [Hl|]; cbn [negb]; [|intros _; by eexists].
    destruct (increasing keys); cbn [negb]; [|intros _; by eexists]. destruct (existsb _ values); [intros _; by eexists|].
    intros Hall. destruct (Hall Hl eq_refl eq_refl) as (r & E & Hr & Hnt). exists r. split; [exact E|]. intros [] ->; [done|].
    split; [by apply Hr|done].
Qed.
End theorems.

(** ** A concrete trie *)

Module RangeSample.
Definition val (z : Z) : list Z := replicate 33 z.
Definition bindings : list (list Z * list Z) :=
  [([17], val 1); ([18], val 2); ([33], val 3); ([34], val 4); ([49], val 5); ([50], val 6)].
Definition tree : ptrie := foldl (fun t kv => (pinsert t (keybytesToHex kv.1) (PVal kv.2)).2) PNil bindings.
Definition stored : gmap (list Z) (list Z) := foldl (fun m kv => <[kv.1 := kv.2]> m) ∅ bindings.

Lemma tree_holds : pt_holds tree stored.
Proof.
  unfold tree, stored. assert (Forall (fun kv => bytes kv.1 /\ kv.2 <> []) bindings) as Hb.
  { repeat constructor; unfold is_byte; try done; lia. }
  assert (pt_holds PNil ∅) as Hh by apply pt_holds_empty. revert Hh. generalize PNil (∅ : gmap (list Z) (list Z)).
  induction Hb as [|[k v] kvs [Hk Hv] _ IH]; intros t m Hh; [done|]. cbn [foldl]. by apply IH, pt_holds_insert.
Defined.

(** All nodes of the trie, under their hashes. *)
Definition store : proofDb := @ideal_store RLPSample.env tree.
Lemma store_hashed : @hashed_db RLPSample.env store.
Proof. intros h b E. by apply (@ideal_hashed RLPSample.env tree). Defined.

Definition root : list Z := @root_hash RLPSample.env RLPSample.eth tree.
Definition verify (firstKey lastKey : list Z) (kvs : list (list Z * list Z)) : outcome (res range_err bool) :=
  @VerifyRangeProof RLPSample.rlp RLPSample.eth RLPSample.env root firstKey lastKey kvs.*1 kvs.*2 (Some store).
End RangeSample.

(** On this trie: the keys of a range are not checked against its edges.  The verifier
    drops the error of the insertion that cannot find its node, so here it accepts a
    binding in front of the first edge that the trie does not hold, and it panics on one
    behind the last edge. *)
Example VerifyRangeProof_unchecked :
  pt_holds RangeSample.tree RangeSample.stored /\
  RangeSample.verify [33] [34] [([19], [9]); ([33], RangeSample.val 3); ([34], RangeSample.val 4)] = Ret (Ok true) /\
  RangeSample.stored !! [19] = None /\
  RangeSample.verify [33] [34] [([33], RangeSample.val 3); ([34], RangeSample.val 4); ([51], [9])] = Panic.
Proof. split; [apply RangeSample.tree_holds|]. split; [vm_compute; reflexivity|]. split; vm_compute; reflexivity. Qed.

Lemma RangeSample_length k v : RangeSample.stored !! k = Some v -> length k = 1%nat.
Proof.
  intros Hk. apply elem_of_map_to_list in Hk. vm_compute in Hk.
  repeat (apply elem_of_cons in Hk as [Hk|Hk]; [by injection Hk as -> _|]). by apply not_elem_of_nil in Hk.
Defined.

Lemma VerifyRangeProof_sound_witness :
  RangeSample.verify [19] [35] [([33], RangeSample.val 3); ([34], RangeSample.val 4)] = Ret (Ok true) /\
  range_proved RangeSample.stored [19] [35] [([33], RangeSample.val 3); ([34], RangeSample.val 4)] true.
Proof.
  split; [vm_compute; reflexivity|].
  destruct (@VerifyRangeProof_sound RLPSample.rlp RLPSample.env RLPSample.rlp_laws RLPSample.eth RLPSample.hash_laws
              RLPSample.keccak_inj RangeSample.tree RangeSample.stored [19] [35] [[33]; [34]] [RangeSample.val 3; RangeSample.val 4]
              (Some RangeSample.store)) as (r & E & Hr).
  - apply RangeSample.tree_holds.
  - done.
  - intros db [= <-]. apply RangeSample.store_hashed.
  - repeat constructor; unfold is_byte; lia.
  - repeat constructor; unfold is_byte; lia.
  - repeat constructor; unfold is_byte; lia.
  - apply RangeSample_length.
  - repeat (constructor; [split; [done|intros _; split; by vm_compute]|]). constructor.
  - apply Hr. vm_compute in E. by injection E as <-.
Defined.
