(* ===== verification/Decoding.v ===== *)
(** * Nodes decoded from untrusted bytes ([trie/node.go])

    Proofs and downloads hand bytes of strangers to the decoder.  Whatever they are, it
    returns an error or a well-typed node: the parts of the program that switch on the
    kind of a node or index its children rely on it. *)

From stdpp Require Import base gmap strings list pretty.
From Stdlib Require Import ZArith Lia.
From S2P Require Import Prelude Encoding Node Hasher Reload.

Local Open Scope Z_scope.

(** What the [rlp] package says of its splitters: they return subslices of the input,
    behind a header; only a single byte is its own content. *)
Class RLPSlices `{RLP} : Prop := {
  Split_slices b k c r : rlp_Split b = Ok (k, c, r) -> exists hd, b = hd ++ c ++ r;
  SplitList_slices b c r : rlp_SplitList b = Ok (c, r) -> exists x hd, b = x :: hd ++ c ++ r;
  SplitString_slices b c r : rlp_SplitString b = Ok (c, r) -> exists hd, b = hd ++ c ++ r;
}.

(** A child slot of a node, and the nodes: a value only behind a terminated key or in
    the last slot of a full node, references by hash of 32 bytes, sixteen children and
    a value slot. *)
Inductive slot : node -> Prop :=
| slot_nil : slot NilNode
| slot_hash h : length h = 32%nat -> Forall is_byte h -> slot (HashNode h)
| slot_leaf k v f : hex_key k -> Forall is_byte v -> dirty f = false -> slot (ShortNode k (ValueNode v) f)
| slot_ext k c f : hex_path k -> slot c -> dirty f = false -> slot (ShortNode k c f)
| slot_full cs v f : length cs = 16%nat -> (forall i c, cs !! i = Some c -> slot c) ->
    (v = NilNode \/ exists b, v = ValueNode b /\ b <> [] /\ Forall is_byte b) -> dirty f = false -> slot (FullNode (cs ++ [v]) f).

(** The decoder's verdict: no panic, and a result that satisfies [P]. *)
Definition decodes_to {A} (P : A -> Prop) (r : res decode_err A) : Prop :=
  r <> Err DecodePanic /\ forall a, r = Ok a -> P a.

Lemma decodes_err {A} (P : A -> Prop) what : decodes_to P (Err (PlainErr what)).
Proof. by split. Qed.

Lemma decodes_bind {A B} (P : A -> Prop) (Q : B -> Prop) r (f : A -> res decode_err B) :
  decodes_to P r -> (forall a, P a -> decodes_to Q (f a)) -> decodes_to Q (r ≫= f).
Proof. intros [Hp Hr] Hf. destruct r as [a|e]; [by apply Hf, Hr|]. split; [|done]. intros E. apply Hp. by injection E as ->. Qed.

Lemma decodes_wrap {A} (P : A -> Prop) r ctx : decodes_to P r -> decodes_to P (wrapError r ctx).
Proof. intros [Hp Hr]. split; by destruct r as [a|[]]. Qed.

Lemma decodes_plain {A} (P : A -> Prop) (r : res string A) : (forall a, r = Ok a -> P a) -> decodes_to P (plain r).
Proof. intros Hr. split; destruct r as [a|]; try done. intros b [= <-]. by apply Hr. Qed.

(** ** Keys *)

Lemma nibbles_path b : Forall is_byte b -> hex_path (flat_map (fun b => [b / 16; b mod 16]) b).
Proof.
  induction 1 as [|x b Hx _ IH]; [constructor|]. cbn. unfold is_byte in Hx. repeat constructor; [..|exact IH]; unfold is_nibble.
  - apply Z.div_pos; lia.
  - apply Z.div_lt_upper_bound; lia.
  - apply Z.mod_pos_bound; lia.
  - apply Z.mod_pos_bound; lia.
Qed.

(** Any bytes are the compact form of some key, ended or not. *)
Lemma compactToHex_total b : Forall is_byte b -> exists k, compactToHex b = Ret k /\ if hasTerm k then hex_key k else hex_path k.
Proof.
  intros Hb. destruct b as [|x b]; [exists []; by split; [|constructor]|]. pose proof (nibbles_path _ Hb) as Hn.
  unfold compactToHex. set (base := keybytesToHex (x :: b)). change (base !! 0%nat) with (Some (x / 16)). cbn [of_option]. go_ret.
  assert (Z.to_nat (2 - Z.land (x / 16) 1) <= 2)%nat as Hchop by (pose proof (Z.land_nonneg (x / 16) 1); lia).
  set (chop := Z.to_nat _) in *. set (ns := flat_map (fun b => [b / 16; b mod 16]) (x :: b)) in *.
  assert (2 <= length ns)%nat as Hlen by (cbn; lia). destruct (x / 16 <? 2).
  - assert (take (length base - 1) base = ns) as -> by apply last_take_minus_one. rewrite (proj2 (Nat.leb_le _ _)) by lia.
    exists (drop chop ns). split; [done|]. assert (hex_path (drop chop ns)) as Hp by (by apply Forall_drop). by rewrite hasTerm_path.
  - assert (base = ns ++ [16]) as -> by done. rewrite (proj2 (Nat.leb_le _ _)) by (rewrite length_app; lia).
    exists (drop chop (ns ++ [16])). split; [done|]. rewrite drop_app_le by lia. rewrite hasTerm_app. exists (drop chop ns).
    split; [by apply Forall_drop|done].
Qed.

Section typed.
Context `{RLPSlices}.

Lemma slice_bytes (hd c r b : list Z) : b = hd ++ c ++ r -> Forall is_byte b ->
  Forall is_byte c /\ Forall is_byte r /\ (length c + length r <= length b)%nat.
Proof. intros ->. rewrite !Forall_app, !length_app. intros (_ & ? & ?). split; [done|]. split; [done|lia]. Qed.

(** ** The decoder *)

Section level.
Context (dec : option (list Z) -> list Z -> res decode_err node) (n : nat).
Context (Hdec : forall h b, Forall is_byte b -> (length b < n)%nat -> decodes_to (fun m => slot m /\ is_inner m = true) (dec h b)).

Definition read_slot (b : list Z) (r : node * list Z) : Prop := slot r.1 /\ Forall is_byte r.2 /\ (length r.2 <= length b)%nat.

Lemma decodeRef_typed b : Forall is_byte b -> (length b < n)%nat -> decodes_to (read_slot b) (decodeRef dec b).
Proof.
  intros Hb Hl. unfold decodeRef. apply (decodes_bind (fun '(k, c, r) => rlp_Split b = Ok (k, c, r))).
  { apply decodes_plain. by intros [[k c] r] E. }
  intros [[k c] r] E. destruct (Split_slices b k c r E) as [hd Es]. destruct (slice_bytes hd c r b Es Hb) as (Hc & Hr & Hle).
  destruct k; [apply decodes_err| |].
  - destruct (length c =? 0)%nat; [split; [done|]; intros ? [= <-]; split; [constructor|by split; [|cbn; lia]]|].
    destruct (Nat.eqb_spec (length c) 32); [|apply decodes_err]. split; [done|]. intros ? [= <-]. split; [by constructor|by split; [|cbn; lia]].
  - destruct (hashLen <? length b - length r)%nat; [apply decodes_err|].
    apply (decodes_bind (fun m => slot m /\ is_inner m = true)); [by apply Hdec|]. intros m [Hm _]. split; [done|]. intros ? [= <-].
    split; [done|]. split; [done|cbn; lia].
Qed.

Lemma decodeShort_typed h elems : Forall is_byte elems -> (length elems < n)%nat ->
  decodes_to (fun m => slot m /\ is_inner m = true) (decodeShort dec h elems).
Proof.
  intros Hb Hl. unfold decodeShort. apply (decodes_bind (fun '(k, r) => rlp_SplitString elems = Ok (k, r))).
  { apply decodes_plain. by intros [k r] E. }
  intros [kb r] E. destruct (SplitString_slices elems kb r E) as [hd Es]. destruct (slice_bytes hd kb r elems Es Hb) as (Hkb & Hr & Hle).
  destruct (compactToHex_total kb Hkb) as (k & -> & Hk). cbv zeta. destruct (hasTerm k).
  - destruct (rlp_SplitString r) as [[v r']|e] eqn:Ev; [|apply decodes_err].
    destruct (SplitString_slices r v r' Ev) as [hd' Es']. destruct (slice_bytes hd' v r' r Es' Hr) as (Hv & _).
    split; [done|]. intros ? [= <-]. split; [by constructor|done].
  - apply (decodes_bind (read_slot r)); [apply decodes_wrap, decodeRef_typed; [done|lia]|]. intros [c r'] (Hc & _).
    split; [done|]. intros ? [= <-]. split; [by apply slot_ext|done].
Qed.

Lemma decodeFull_loop_typed m : forall i elems, Forall is_byte elems -> (length elems < n)%nat ->
  decodes_to (fun '(cs, r) => length cs = m /\ (forall j c, cs !! j = Some c -> slot c) /\ Forall is_byte r) (decodeFull_loop dec m i elems).
Proof.
  induction m as [|m IH]; intros i elems Hb Hl; [split; [done|]; by intros ? [= <-]|]. cbn [decodeFull_loop].
  apply (decodes_bind (read_slot elems)); [by apply decodes_wrap, decodeRef_typed|]. intros [c r] (Hc & Hr & Hle). cbn [fst snd] in *.
  eapply decodes_bind; [apply (IH (S i) r); [done|lia]|]. intros [cs r'] (Hl' & Hcs & Hr'). split; [done|]. intros ? [= <-].
  split; [cbn; lia|]. split; [|done]. intros [|j] d Hd; [by injection Hd as <-|by eapply Hcs].
Qed.

Lemma decodeFull_typed h elems : Forall is_byte elems -> (length elems < n)%nat ->
  decodes_to (fun m => slot m /\ is_inner m = true) (decodeFull dec h elems).
Proof.
  intros Hb Hl. unfold decodeFull. eapply decodes_bind; [by apply decodeFull_loop_typed|]. intros [cs r] (Hlen & Hcs & Hr).
  apply (decodes_bind (fun '(v, r') => Forall is_byte v)).
  { apply decodes_plain. intros [v r'] E. destruct (SplitString_slices r v r' E) as [hd Es]. by destruct (slice_bytes hd v r' r Es Hr). }
  intros [v r'] Hv. split; [done|]. intros ? [= <-]. split; [|done]. apply slot_full; try done.
  destruct v as [|x v]; [by left|right]. by exists (x :: v).
Qed.
End level.

Lemma decodeNodeUnsafe_typed fuel : forall h b, Forall is_byte b -> (length b < fuel)%nat ->
  decodes_to (fun m => slot m /\ is_inner m = true) (decodeNodeUnsafe fuel h b).
Proof.
  induction fuel as [|fuel IH]; intros h b Hb Hl; [lia|]. cbn [decodeNodeUnsafe].
  destruct (length b =? 0)%nat; [apply decodes_err|]. destruct (rlp_SplitList b) as [[elems r]|e] eqn:E; [|apply decodes_err].
  destruct (SplitList_slices b elems r E) as (x & hd & Es). pose proof Hb as Hb'. rewrite Es in Hb'. apply Forall_cons in Hb' as [_ Hb'].
  destruct (slice_bytes hd elems r _ eq_refl Hb') as (He & _ & _).
  assert (length elems < fuel)%nat as Hle by (rewrite Es in Hl; cbn in Hl; rewrite !length_app in Hl; lia).
  cbv zeta. destruct (rlp_CountValues elems =? 2); [by apply decodes_wrap, (decodeShort_typed _ fuel)|].
  destruct (rlp_CountValues elems =? 17); [by apply decodes_wrap, (decodeFull_typed _ fuel)|apply decodes_err].
Qed.

(** C35. The decoder is total on untrusted bytes: on any byte string it returns an
    error or a node, it never panics and never runs out of the nesting its input
    allows; a node it returns is a short or a full node and well typed at every level,
    embedded nodes included. *)
Theorem decodeNode_typed (h : option (list Z)) (buf : list Z) :
  Forall is_byte buf -> decodeNode h buf <> Err DecodePanic /\ forall n, decodeNode h buf = Ok n -> is_inner n = true /\ slot n.
Proof.
  intros Hb. destruct (decodeNodeUnsafe_typed (S (length buf)) h buf Hb ltac:(lia)) as [Hp Hn]. split; [done|].
  intros n E. by destruct (Hn n E).
Qed.
End typed.

(** The sample encoder slices its input. *)
Lemma sample_slices : @RLPSlices RLPSample.rlp.
Proof.
  assert (forall b k c r, RLPSample.split b = Ok (k, c, r) -> exists x hd, b = x :: hd ++ c ++ r) as Hs.
  { intros b k c r E. unfold RLPSample.split in E. repeat case_match; simplify_eq/=; try (by exists 128, []).
    all: eexists _, [_]; cbn; by rewrite take_drop. }
  split; cbn.
  - intros b k c r E. destruct (Hs b k c r E) as (x & hd & ->). by exists (x :: hd).
  - intros b c r E. destruct (RLPSample.split b) as [[[[] c'] r']|] eqn:Es; simplify_eq. by eapply Hs.
  - intros b c r E. destruct (RLPSample.split b) as [[[[] c'] r']|] eqn:Es; simplify_eq. destruct (Hs _ _ _ _ Es) as (x & hd & ->). by exists (x :: hd).
Defined.

(** A short node with an embedded leaf. *)
Definition sample_blob : list Z := [192; 12; 129; 2; 0; 18; 192; 6; 129; 1; 32; 129; 1; 7].
Definition sample_node : node := ShortNode [1; 2] (ShortNode [16] (ValueNode [7]) (mkFlag None false)) (mkFlag None false).

Lemma decodeNode_typed_witness : @decodeNode RLPSample.rlp None sample_blob = Ok sample_node /\ slot sample_node.
Proof.
  split; [vm_compute; reflexivity|]. apply (@decodeNode_typed RLPSample.rlp sample_slices None sample_blob).
  - repeat constructor; unfold is_byte; lia.
  - vm_compute. reflexivity.
Defined.
