(* ===== verification/SecureTrie.v ===== *)
(** * The key-hashing trie ([trie/secure_trie.go]) and the rest of [trie/trie.go]

    [StateTrie] stores every value under the hash of its key and remembers which key a
    hash belongs to, in a cache of its own and, after a commit, in the preimage store of
    the database.  Proved here: over any operations it is a map on the plain keys, and
    a commit records every name. *)

From stdpp Require Import base gmap strings list fin_maps.
From Stdlib Require Import ZArith Lia.
From S2P Require Import Prelude Encoding TrieSpec Node Trie TrieMap Hasher Committer Reload Database MerkleProof Iterator.

Local Open Scope Z_scope.

(** ** The other operations of a trie *)

Inductive getNode_err := NonConsensus | NodeMissing (e : MissingNodeError).

Section trie.
Context `{RLP} `{HashEnv} `{EthCommon}.

(** The wrappers log an error and return what they have. *)
Definition MustGet (t : Trie) (key : list Z) : outcome (option (list Z) * Trie) :=
  '(r, t) ← Trie.Get t key; Ret (match r with Ok v => v | Err _ => None end, t).
Definition MustUpdate (t : Trie) (key value : list Z) : outcome Trie := '(_, t) ← Trie.Update t key value; Ret t.
Definition MustDelete (t : Trie) (key : list Z) : outcome Trie := '(_, t) ← Trie.Delete t key; Ret t.

(** The item, the node with what was resolved below it, and the number of resolved
    nodes. *)
Abbreviation getNode_result := (option (list Z) * node * Z * option getNode_err * tracer)%type.

(** The node at the end of the path is read from the store under its hash; a node
    without one is in no store. *)
Definition getNode_end (rd : trieReader) (origNode : node) (path : list Z) (tr : tracer) : getNode_result :=
  match (match origNode with HashNode h => Some h | _ => (cache origNode).1 end) with
  | None => (None, origNode, 0, Some NonConsensus, tr)
  | Some h =>
      match nodeBlob rd path (BytesToHash h) with
      | Ok blob => (Some blob, origNode, 1, None, tr)
      | Err e => (None, origNode, 1, Some (NodeMissing e), tr)
      end
  end.

(** Two rounds per symbol of the path, as in [get]. *)
Fixpoint getNode (rd : trieReader) (fuel : nat) (origNode : node) (path : list Z) (pos : nat) (tr : tracer) : outcome getNode_result :=
  match fuel with
  | O => Panic
  | S fuel =>
      match origNode with
      | NilNode => Ret (None, NilNode, 0, None, tr)
      | _ =>
          if (length path <=? pos)%nat then Ret (getNode_end rd origNode path tr)
          else
            match origNode with
            | NilNode | ValueNode _ => Ret (None, NilNode, 0, None, tr)
            | ShortNode k val f =>
                if (length path - pos <? length k)%nat || negb (bool_decide (k = take (length k) (drop pos path)))
                then Ret (None, origNode, 0, None, tr)
                else
                  '(item, newnode, resolved, err, tr) ← getNode rd fuel val path (pos + length k) tr;
                  let n := match err with None => if 0 <? resolved then ShortNode k newnode f else origNode | Some _ => origNode end in
                  Ret (item, n, resolved, err, tr)
            | FullNode cs f =>
                x ← of_option (path !! pos);
                child ← of_option (cs !! Z.to_nat x);
                '(item, newnode, resolved, err, tr) ← getNode rd fuel child path (pos + 1) tr;
                let n := match err with
                         | None => if 0 <? resolved then FullNode (<[Z.to_nat x := newnode]> cs) f else origNode
                         | Some _ => origNode
                         end in
                Ret (item, n, resolved, err, tr)
            | HashNode h =>
                '(r, tr) ← resolveAndTrack rd h (take pos path) tr;
                match r with
                | Err e => Ret (None, origNode, 1, Some (NodeMissing e), tr)
                | Ok child =>
                    '(item, newnode, resolved, err, tr) ← getNode rd fuel child path pos tr;
                    Ret (item, newnode, resolved + 1, err, tr)
                end
            end
      end
  end.

Definition GetNode (t : Trie) (path : list Z) : outcome (option (list Z) * Z * option getNode_err * Trie) :=
  hex ← compactToHex path;
  '(item, newroot, resolved, err, tr) ← getNode (reader t) (fuel_for hex) (root t) hex 0 (trace t);
  Ret (match err with
       | Some e => (None, resolved, Some e, mkTrie (root t) (owner t) (unhashed t) (reader t) tr)
       | None => (item, resolved, None, mkTrie (if 0 <? resolved then newroot else root t) (owner t) (unhashed t) (reader t) tr)
       end).

Definition MustGetNode (t : Trie) (path : list Z) : outcome (option (list Z) * Z * Trie) :=
  '(item, resolved, _, t) ← GetNode t path; Ret (item, resolved, t).

(** [Node] is the method of that name of the reader inside. *)
Definition NodeIterator (Node : list Z -> list Z -> list Z -> outcome (res string node)) (t : Trie) (start : list Z)
  : outcome nodeIterator := newNodeIterator Node t start.
End trie.

(** ** Accounts *)

(** [types.StateAccount] and its RLP encoding. *)
Class AccountCodec := {
  StateAccount : Type;
  EncodeToBytes : StateAccount -> res string (list Z);
  DecodeBytes : list Z -> res string StateAccount;
}.

Inductive secure_err := SecMissing (e : MissingNodeError) | SecRlp (e : string).

(** ** The trie *)

(** The cache counts only while the trie owns it; [preimages] is the store of the
    database, which the operations that use it get as an argument. *)
Record StateTrie := mkStateTrie {
  sec_trie : Trie;
  secKeyCache : gmap (list Z) (list Z);
  secKeyCacheOwner : bool;
}.

Section secure.
Context `{RLP} `{HashEnv} `{EthCommon} `{EthDB} `{FastCache} `{AccountCodec}.

Definition NewStateTrie (id : ID) (db : option Database) : outcome (res new_err StateTrie) :=
  match db with
  | None => Panic
  | Some db =>
      r ← New id (GetReader db);
      Ret (match r with Err e => Err e | Ok t => Ok (mkStateTrie t ∅ false) end)
  end.
Definition NewSecure (stateRoot owner root : list Z) (db : option Database) : outcome (res new_err StateTrie) :=
  NewStateTrie (mkID stateRoot owner root) db.

Definition hashKey (key : list Z) : list Z := keccak256 key.

Definition getSecKeyCache (t : StateTrie) : StateTrie :=
  if secKeyCacheOwner t then t else mkStateTrie (sec_trie t) ∅ true.

Definition with_trie (t : StateTrie) (tr : Trie) : StateTrie := mkStateTrie tr (secKeyCache t) (secKeyCacheOwner t).
Definition with_cache (t : StateTrie) (c : gmap (list Z) (list Z)) : StateTrie := mkStateTrie (sec_trie t) c (secKeyCacheOwner t).

(** [t.getSecKeyCache()[hk] = key] and [delete(t.getSecKeyCache(), hk)]. *)
Definition remember (t : StateTrie) (hk key : list Z) : StateTrie :=
  let t := getSecKeyCache t in with_cache t (<[hk := key]> (secKeyCache t)).
Definition forget (t : StateTrie) (hk : list Z) : StateTrie :=
  let t := getSecKeyCache t in with_cache t (base.delete hk (secKeyCache t)).

Definition sec_MustGet (t : StateTrie) (key : list Z) : outcome (option (list Z) * StateTrie) :=
  '(v, tr) ← MustGet (sec_trie t) (hashKey key); Ret (v, with_trie t tr).

Definition GetStorage (t : StateTrie) (key : list Z) : outcome (res MissingNodeError (option (list Z)) * StateTrie) :=
  '(r, tr) ← Trie.Get (sec_trie t) (hashKey key); Ret (r, with_trie t tr).

Definition GetAccountByHash (t : StateTrie) (addrHash : list Z) : outcome (res secure_err (option StateAccount) * StateTrie) :=
  '(r, tr) ← Trie.Get (sec_trie t) addrHash;
  Ret (match r with
       | Err e => Err (SecMissing e)
       | Ok None => Ok None
       | Ok (Some v) => match DecodeBytes v with Ok a => Ok (Some a) | Err e => Err (SecRlp e) end
       end, with_trie t tr).
Definition GetAccount (t : StateTrie) (address : list Z) : outcome (res secure_err (option StateAccount) * StateTrie) :=
  GetAccountByHash t (hashKey address).

Definition sec_GetNode (t : StateTrie) (path : list Z) : outcome (option (list Z) * Z * option getNode_err * StateTrie) :=
  '(item, resolved, err, tr) ← GetNode (sec_trie t) path; Ret (item, resolved, err, with_trie t tr).

Definition sec_MustUpdate (t : StateTrie) (key value : list Z) : outcome StateTrie :=
  tr ← MustUpdate (sec_trie t) (hashKey key) value; Ret (remember (with_trie t tr) (hashKey key) key).

Definition UpdateStorage (t : StateTrie) (key value : list Z) : outcome (option MissingNodeError * StateTrie) :=
  '(r, tr) ← Trie.Update (sec_trie t) (hashKey key) value;
  Ret (match r with
       | Err e => (Some e, with_trie t tr)
       | Ok _ => (None, remember (with_trie t tr) (hashKey key) key)
       end).

Definition UpdateAccount (t : StateTrie) (address : list Z) (acc : StateAccount) : outcome (option secure_err * StateTrie) :=
  match EncodeToBytes acc with
  | Err e => Ret (Some (SecRlp e), t)
  | Ok data =>
      '(r, tr) ← Trie.Update (sec_trie t) (hashKey address) data;
      Ret (match r with
           | Err e => (Some (SecMissing e), with_trie t tr)
           | Ok _ => (None, remember (with_trie t tr) (hashKey address) address)
           end)
  end.

Definition sec_MustDelete (t : StateTrie) (key : list Z) : outcome StateTrie :=
  let t := forget t (hashKey key) in
  tr ← MustDelete (sec_trie t) (hashKey key); Ret (with_trie t tr).

Definition DeleteStorage (t : StateTrie) (key : list Z) : outcome (option MissingNodeError * StateTrie) :=
  let t := forget t (hashKey key) in
  '(r, tr) ← Trie.Delete (sec_trie t) (hashKey key);
  Ret (match r with Err e => Some e | Ok _ => None end, with_trie t tr).
Definition DeleteAccount (t : StateTrie) (address : list Z) : outcome (option MissingNodeError * StateTrie) := DeleteStorage t address.

Definition GetKey (t : StateTrie) (db : Database) (shaKey : list Z) : option (list Z) * StateTrie :=
  let t := getSecKeyCache t in
  (match secKeyCache t !! shaKey with
   | Some key => Some key
   | None =>
       match db_preimages db with
       | None => None
       | Some st => preimage db st (BytesToHash shaKey)
       end
   end, t).

(** The names as a map from hashes, handed to the store. *)
Definition cached_preimages (c : gmap (list Z) (list Z)) : gmap (list Z) (list Z) :=
  list_to_map ((fun hk => (BytesToHash hk.1, hk.2)) <$> map_to_list c).

Definition sec_Commit (t : StateTrie) (db : Database) (collectLeaf : bool)
  : outcome (list Z * option NodeSet * StateTrie * Database) :=
  let t := getSecKeyCache t in
  let '(t, db) :=
    if (0 <? size (secKeyCache t))%nat then
      (with_cache t ∅,
       match db_preimages db with
       | None => db
       | Some st => set_preimages db (Some (insertPreimage st (map_to_list (cached_preimages (secKeyCache t)))))
       end)
    else (t, db) in
  '(h, set, tr) ← Committer.Commit (sec_trie t) collectLeaf;
  Ret (h, set, with_trie t tr, db).

Definition sec_Hash (t : StateTrie) : outcome (list Z * StateTrie) :=
  '(h, tr) ← Hasher.Hash (sec_trie t); Ret (h, with_trie t tr).

(** The copy takes the cache along but does not own it. *)
Definition sec_Copy (t : StateTrie) : StateTrie := mkStateTrie (Trie.Copy (sec_trie t)) (secKeyCache t) false.

Definition sec_NodeIterator (Node : list Z -> list Z -> list Z -> outcome (res string node)) (t : StateTrie) (start : list Z)
  : outcome nodeIterator := NodeIterator Node (sec_trie t) start.

Definition sec_Prove (Node : list Z -> list Z -> list Z -> outcome (res string node)) (t : StateTrie) (key : list Z) (fromLevel : Z)
  (db : proofDb) : outcome (res MissingNodeError proofDb) := Prove Node (sec_trie t) key fromLevel db.
End secure.

(** ** A map on plain keys *)

(** The keys in use: hashed to bytes, and apart. *)
Class HashedKeys `{HashEnv} (K : list Z -> Prop) : Prop := {
  hk_bytes : forall k, K k -> bytes (keccak256 k);
  hk_inj : forall k k', K k -> K k' -> keccak256 k = keccak256 k' -> k = k';
}.

(** What a client can do with a trie; [OpCopy] goes on with the copy. *)
Inductive sec_op `{AccountCodec} :=
| OpGet (k : list Z)
| OpUpdate (k v : list Z)
| OpDelete (k : list Z)
| OpGetAccount (a : list Z)
| OpUpdateAccount (a : list Z) (acc : StateAccount)
| OpKey (k : list Z)
| OpCopy.
Inductive sec_answer `{AccountCodec} :=
| AnsValue (v : option (list Z))
| AnsAccount (a : option StateAccount)
| AnsDone
| AnsErr (e : secure_err).

Definition op_key `{AccountCodec} (o : sec_op) : option (list Z) :=
  match o with
  | OpGet k | OpUpdate k _ | OpDelete k | OpGetAccount k | OpUpdateAccount k _ | OpKey k => Some k
  | OpCopy => None
  end.

Section machine.
Context `{RLP} `{HashEnv} `{EthCommon} `{EthDB} `{FastCache} `{AccountCodec}.

Definition run_op (db : Database) (t : StateTrie) (o : sec_op) : outcome (sec_answer * StateTrie) :=
  match o with
  | OpGet k => '(r, t) ← GetStorage t k; Ret (match r with Ok v => AnsValue v | Err e => AnsErr (SecMissing e) end, t)
  | OpUpdate k v => '(e, t) ← UpdateStorage t k v; Ret (match e with None => AnsDone | Some e => AnsErr (SecMissing e) end, t)
  | OpDelete k => '(e, t) ← DeleteStorage t k; Ret (match e with None => AnsDone | Some e => AnsErr (SecMissing e) end, t)
  | OpGetAccount a => '(r, t) ← GetAccount t a; Ret (match r with Ok a => AnsAccount a | Err e => AnsErr e end, t)
  | OpUpdateAccount a acc => '(e, t) ← UpdateAccount t a acc; Ret (match e with None => AnsDone | Some e => AnsErr e end, t)
  | OpKey k => let '(v, t) := GetKey t db (hashKey k) in Ret (AnsValue v, t)
  | OpCopy => Ret (AnsDone, sec_Copy t)
  end.

Fixpoint run_ops (db : Database) (t : StateTrie) (ops : list sec_op) : outcome (list sec_answer * StateTrie) :=
  match ops with
  | [] => Ret ([], t)
  | o :: ops => '(a, t) ← run_op db t o; '(l, t) ← run_ops db t ops; Ret (a :: l, t)
  end.

(** The specification: a map, and the set of the keys that were written through this
    trie and not deleted since; [known] are the keys of the store. *)
Definition spec_op (known : list Z -> bool) (s : gmap (list Z) (list Z) * gset (list Z)) (o : sec_op)
  : sec_answer * (gmap (list Z) (list Z) * gset (list Z)) :=
  let '(m, names) := s in
  match o with
  | OpGet k => (AnsValue (m !! k), s)
  | OpUpdate k v => (AnsDone, (map_update m k v, {[k]} ∪ names))
  | OpDelete k => (AnsDone, (base.delete k m, names ∖ {[k]}))
  | OpGetAccount a =>
      (match m !! a with
       | None => AnsAccount None
       | Some v => match DecodeBytes v with Ok acc => AnsAccount (Some acc) | Err e => AnsErr (SecRlp e) end
       end, s)
  | OpUpdateAccount a acc =>
      match EncodeToBytes acc with
      | Err e => (AnsErr (SecRlp e), s)
      | Ok data => (AnsDone, (map_update m a data, {[a]} ∪ names))
      end
  | OpKey k => (AnsValue (if decide (k ∈ names) then Some k else if known k then Some k else None), s)
  | OpCopy => (AnsDone, (m, ∅))
  end.

Fixpoint spec_ops (known : list Z -> bool) (s : gmap (list Z) (list Z) * gset (list Z)) (ops : list sec_op)
  : list sec_answer * (gmap (list Z) (list Z) * gset (list Z)) :=
  match ops with
  | [] => ([], s)
  | o :: ops => let '(a, s) := spec_op known s o in let '(l, s) := spec_ops known s ops in (a :: l, s)
  end.
End machine.

Section refines.
Context `{RLP} `{HashLaws} `{EthDB} `{FastCache} `{AccountCodec} (K : list Z -> Prop) `{!HashedKeys K}.
Context (D : list Z -> list Z -> Prop).
#[local] Instance flags_secure : FlagSpec := hash_flags (clean_stored D).

(** The values under the hashes of their keys. *)
Record hashed_map (m' m : gmap (list Z) (list Z)) : Prop := {
  hm_get : forall k, K k -> m' !! keccak256 k = m !! k;
  hm_key : forall h v, m' !! h = Some v -> exists k, K k /\ h = keccak256 k;
}.

(** The cache holds the names, by hash. *)
Definition cache_of (c : gmap (list Z) (list Z)) (names : gset (list Z)) : Prop :=
  (forall h k, c !! h = Some k <-> k ∈ names /\ h = keccak256 k) /\ forall k, k ∈ names -> K k.

Definition secure_rep (t : StateTrie) (s : gmap (list Z) (list Z) * gset (list Z)) : Prop :=
  (exists m', trie_rep (sec_trie t) m' /\ hashed_map m' s.1) /\
  cache_of (if secKeyCacheOwner t then secKeyCache t else ∅) s.2.

(** What the store knows is right. *)
Definition store_knows (db : Database) (known : list Z -> bool) : Prop :=
  forall k, K k -> match db_preimages db with None => None | Some st => preimage db st (keccak256 k) end = if known k then Some k else None.

Lemma hashed_update m' m k v : hashed_map m' m -> K k -> hashed_map (map_update m' (keccak256 k) v) (map_update m k v).
Proof.
  intros [Hg Hk] HK. split.
  - intros k' HK'. unfold map_update. destruct (decide (k' = k)) as [->|Hne].
    + destruct v; [by rewrite !lookup_delete_eq|by rewrite !lookup_insert_eq].
    + assert (keccak256 k <> keccak256 k') as Hh by (intros E; apply hk_inj in E; congruence).
      destruct v; [rewrite !lookup_delete_ne by congruence|rewrite !lookup_insert_ne by congruence]; by apply Hg.
  - intros h u E. unfold map_update in E. destruct v; [apply lookup_delete_Some in E as [_ E]; by eapply Hk|].
    apply lookup_insert_Some in E as [[<- _]|[_ E]]; [by exists k|by eapply Hk].
Qed.

Lemma cache_insert c names k : cache_of c names -> K k -> cache_of (<[keccak256 k := k]> c) ({[k]} ∪ names).
Proof.
  intros [Hc HK] Hk. split; [|set_solver]. intros h k'. rewrite lookup_insert_Some, Hc, elem_of_union, elem_of_singleton. split.
  - intros [[<- <-]|[_ [Hn ->]]]; auto.
  - intros [[->|Hn] ->]; [by left|]. destruct (decide (keccak256 k = keccak256 k')) as [E|Hne]; [|by right].
    left. split; [done|]. apply hk_inj in E; auto.
Qed.

Lemma cache_delete c names k : cache_of c names -> K k -> cache_of (base.delete (keccak256 k) c) (names ∖ {[k]}).
Proof.
  intros [Hc HK] Hk. split; [|set_solver]. intros h k'. rewrite lookup_delete_Some, Hc, elem_of_difference, elem_of_singleton. split.
  - intros [Hne [Hn ->]]. split; [|done]. split; [done|]. by intros ->.
  - intros [[Hn Hne] ->]. split; [|done]. intros E. apply hk_inj in E; [by apply Hne|done|by apply HK].
Qed.

Lemma cache_empty : cache_of ∅ ∅.
Proof using.
  split; [|intros k Hk; by apply not_elem_of_empty in Hk]. intros h k. rewrite lookup_empty. split; [done|].
  intros [Hn _]. by apply not_elem_of_empty in Hn.
Qed.

Lemma rep_cache t s : secure_rep t s -> secure_rep (getSecKeyCache t) s /\ cache_of (secKeyCache (getSecKeyCache t)) s.2 /\
  sec_trie (getSecKeyCache t) = sec_trie t /\ secKeyCacheOwner (getSecKeyCache t) = true.
Proof. intros [Ht Hc]. unfold secure_rep, getSecKeyCache. by destruct (secKeyCacheOwner t) eqn:E; rewrite ?E. Qed.

(** One operation answers as the specification does. *)
Lemma run_op_refines db known t s o : store_knows db known -> secure_rep t s -> (forall k, op_key o = Some k -> K k) ->
  exists t', run_op db t o = Ret ((spec_op known s o).1, t') /\ secure_rep t' (spec_op known s o).2.
Proof.
  intros Hst Hrep Hk. destruct s as [m names]. pose proof Hrep as [(m' & Ht & Hm) Hc]. cbn [fst snd] in *.
  assert (forall k v, K k -> exists tr, Trie.Update (sec_trie t) (hashKey k) v = Ret (Ok (), tr) /\
            secure_rep (remember (with_trie t tr) (hashKey k) k) (map_update m k v, {[k]} ∪ names)) as Hupd.
  { intros k v HK. destruct (trie_Update_spec (sec_trie t) m' (keccak256 k) v Ht (hk_bytes k HK)) as (tr & E & Ht' & _).
    exists tr. split; [done|]. split; [exists (map_update m' (keccak256 k) v); split; [|by apply hashed_update]|].
    - unfold remember, getSecKeyCache, with_trie, with_cache. cbn. by destruct (secKeyCacheOwner t).
    - unfold remember, getSecKeyCache, with_trie, with_cache. cbn. destruct (secKeyCacheOwner t); cbn; by apply cache_insert. }
  assert (forall k, K k -> exists tr, Trie.Get (sec_trie t) (hashKey k) = Ret (Ok (m !! k), tr) /\ secure_rep (with_trie t tr) (m, names)) as Hget.
  { intros k HK. destruct (trie_Get_spec (sec_trie t) m' (keccak256 k) Ht (hk_bytes k HK)) as (tr & E & Ht' & _).
    exists tr. unfold hashKey. rewrite E, (hm_get _ _ Hm k HK). split; [done|]. split; [by exists m'|done]. }
  destruct o as [k|k v|k|a|a acc|k|]; cbn [run_op spec_op op_key] in *.
  - destruct (Hget k (Hk k eq_refl)) as (tr & E & Hr). unfold GetStorage. rewrite E. go_ret. by eexists.
  - destruct (Hupd k v (Hk k eq_refl)) as (tr & E & Hr). unfold UpdateStorage. rewrite E. go_ret. by eexists.
  - pose proof (Hk k eq_refl) as HK. unfold DeleteStorage, Trie.Delete. cbv zeta.
    assert (sec_trie (forget t (hashKey k)) = sec_trie t) as -> by (unfold forget, getSecKeyCache; by destruct (secKeyCacheOwner t)).
    destruct (delete_rep (sec_trie t) m' (keccak256 k) Ht (hk_bytes k HK)) as (tr & E & Ht' & _). unfold hashKey. rewrite E. go_ret.
    eexists. split; [done|]. split; [exists (base.delete (keccak256 k) m'); split; [done|]|].
    + by apply (hashed_update m' m k []).
    + unfold forget, getSecKeyCache, with_trie, with_cache. destruct t as [tr0 c0 []]; cbn in Hc |- *; by apply cache_delete.
  - destruct (Hget a (Hk a eq_refl)) as (tr & E & Hr). unfold GetAccount, GetAccountByHash. rewrite E. go_ret. cbv iota.
    eexists. split; [|done]. destruct (m !! a) as [v|]; [|done]. by destruct (DecodeBytes v).
  - unfold UpdateAccount. destruct (EncodeToBytes acc) as [data|e]; [|go_ret; by eexists].
    destruct (Hupd a data (Hk a eq_refl)) as (tr & E & Hr). rewrite E. go_ret. by eexists.
  - pose proof (Hk k eq_refl) as HK. unfold GetKey. destruct (rep_cache t _ Hrep) as (Hr & [Hcc _] & _). cbn [snd] in Hcc.
    eexists. split; [|exact Hr]. unfold hashKey. rewrite BytesToHash_id by apply keccak256_length. rewrite (Hst k HK).
    destruct (secKeyCache (getSecKeyCache t) !! keccak256 k) as [k'|] eqn:E.
    + apply Hcc in E as [Hn E]. apply hk_inj in E; [|done|by apply Hc]. subst k'. by rewrite decide_True.
    + rewrite decide_False; [done|]. intros Hn. by rewrite (proj2 (Hcc (keccak256 k) k)) in E.
  - eexists. split; [done|]. split; [|apply cache_empty]. exists m'. split; [|done]. destruct Ht as (pt & He & Hh). by exists pt.
Qed.

Lemma run_ops_refines db known ops : store_knows db known -> Forall (fun o => forall k, op_key o = Some k -> K k) ops ->
  forall t s, secure_rep t s ->
  exists t', run_ops db t ops = Ret ((spec_ops known s ops).1, t') /\ secure_rep t' (spec_ops known s ops).2.
Proof.
  intros Hst. induction 1 as [|o ops Ho _ IH]; intros t s Hr; [by exists t|]. cbn [run_ops spec_ops].
  destruct (run_op_refines db known t s o Hst Hr Ho) as (t1 & E1 & Hr1). rewrite E1. go_ret. cbv iota.
  destruct (spec_op known s o) as [a s1]. cbn [fst snd] in *. destruct (IH t1 s1 Hr1) as (t2 & E2 & Hr2). rewrite E2. go_ret. cbv iota.
  destruct (spec_ops known s1 ops) as [l s2]. by exists t2.
Qed.

(** *** Commits *)

Lemma insertPreimage_union l : NoDup l.*1 -> forall st, preimages (insertPreimage st l) = preimages st ∪ list_to_map l.
Proof using.
  induction l as [|[h p] l IH]; intros Hnd st; [by rewrite list_to_map_nil, (right_id_L ∅ (∪))|]. apply NoDup_cons in Hnd as [Hh Hnd].
  unfold insertPreimage in *. cbn [foldl fst snd]. rewrite (IH Hnd), list_to_map_cons. destruct (preimages st !! h) as [q|] eqn:E.
  - apply map_eq. intros h'. destruct (decide (h' = h)) as [->|Hne]; rewrite !lookup_union; [rewrite E, lookup_insert_eq; by destruct (list_to_map (M:=gmap (list Z) (list Z)) l !! h)|].
    by rewrite lookup_insert_ne.
  - cbn [preimages]. rewrite <- insert_union_l, insert_union_r; [done|]. exact E.
Qed.

Lemma cached_same c names : cache_of c names -> cached_preimages c = c.
Proof.
  intros [Hc _]. unfold cached_preimages.
  rewrite (list_fmap_ext _ id (map_to_list c)).
  - by rewrite list_fmap_id, list_to_map_to_list.
  - intros i [h k] E. apply list_elem_of_lookup_2, elem_of_map_to_list, Hc in E as [_ ->]. cbn.
    by rewrite BytesToHash_id by apply keccak256_length.
Qed.

Lemma names_committed db known st c names : db_preimages db = Some st -> store_knows db known -> cache_of c names ->
  store_knows (set_preimages db (Some (insertPreimage st (map_to_list (cached_preimages c))))) (fun k => known k || bool_decide (k ∈ names)).
Proof.
  intros Est Hst Hc k HK. cbn [db_preimages set_preimages]. unfold preimage. cbn [diskdb set_preimages].
  rewrite insertPreimage_union by apply NoDup_fst_map_to_list. rewrite list_to_map_to_list, (cached_same c names Hc), lookup_union.
  specialize (Hst k HK). rewrite Est in Hst. unfold preimage in Hst. destruct Hc as [Hc HN].
  destruct (preimages st !! keccak256 k) as [p|]; [|destruct (c !! keccak256 k) as [k'|] eqn:Ec].
  - destruct (known k); [|done]. injection Hst as ->. cbn. by destruct (c !! keccak256 k).
  - apply Hc in Ec as [Hn E]. apply hk_inj in E; [|done|by apply HN]. subst k'. cbn. by rewrite bool_decide_true, orb_true_r.
  - cbn. rewrite Hst. destruct (known k); [done|]. rewrite bool_decide_false; [done|].
    intros Hn. by rewrite (proj2 (Hc (keccak256 k) k)) in Ec.
Qed.

Lemma sec_Commit_spec db known t s collectLeaf : store_knows db known -> secure_rep t s ->
  exists pt m' ons t' db', sec_Commit t db collectLeaf = Ret (root_hash pt, ons, t', db') /\ pt_holds pt m' /\ hashed_map m' s.1 /\
    (db_preimages db <> None -> store_knows db' (fun k => known k || bool_decide (k ∈ s.2))).
Proof.
  intros Hst Hrep. destruct (rep_cache t s Hrep) as ([(m' & (pt & He & Hh) & Hm) _] & Hc & _ & _). unfold sec_Commit. cbv zeta.
  set (t0 := getSecKeyCache t) in *. destruct (Commit_spec D (sec_trie t0) m' pt collectLeaf He Hh) as (ons & tr & E & _).
  destruct (0 <? size (secKeyCache t0))%nat eqn:Esz.
  - cbn [sec_trie with_cache]. rewrite E. go_ret. cbv iota. do 5 eexists. split; [done|]. split; [done|]. split; [done|]. intros Hp.
    destruct (db_preimages db) as [st|] eqn:Est; [|done]. by apply names_committed.
  - rewrite E. go_ret. cbv iota. do 5 eexists. split; [done|]. split; [done|]. split; [done|]. intros _ k HK. rewrite (Hst k HK).
    assert (k ∉ s.2) as Hn; [|by rewrite bool_decide_false, orb_false_r].
    intros Hn. destruct Hc as [Hc _]. apply Nat.ltb_ge in Esz. assert (secKeyCache t0 = ∅) as Ec by (apply map_size_empty_inv; lia).
    pose proof (proj2 (Hc (keccak256 k) k) (conj Hn eq_refl)) as Hk. by rewrite Ec, lookup_empty in Hk.
Qed.

(** C18. The key-hashing trie is a map on plain keys: on keys whose hashes are apart,
    every sequence of reads, writes and deletions of values and accounts, of lookups of
    the key of a hash and of copies answers as a map does that remembers the names
    written through it, a copy starting with none; a commit returns the root hash of the
    trie with the values under the hashes of their keys, and from then on the store
    knows every name. *)
Theorem StateTrie_refines (db : Database) (known : list Z -> bool) (t : StateTrie) (s : gmap (list Z) (list Z) * gset (list Z))
  (ops : list sec_op) (collectLeaf : bool) :
  store_knows db known -> secure_rep t s -> Forall (fun o => forall k, op_key o = Some k -> K k) ops ->
  exists t' pt m' ons t'' db', run_ops db t ops = Ret ((spec_ops known s ops).1, t') /\
    sec_Commit t' db collectLeaf = Ret (root_hash pt, ons, t'', db') /\
    pt_holds pt m' /\ hashed_map m' (spec_ops known s ops).2.1 /\
    (db_preimages db <> None -> store_knows db' (fun k => known k || bool_decide (k ∈ (spec_ops known s ops).2.2))).
Proof.
  intros Hst Hr Ho. destruct (run_ops_refines db known ops Hst Ho t s Hr) as (t' & E & Hr').
  destruct (sec_Commit_spec db known t' _ collectLeaf Hst Hr') as (pt & m' & ons & t'' & db' & Ec & Hh & Hm & Hn).
  by exists t', pt, m', ons, t'', db'.
Qed.
End refines.

(** ** A concrete trie *)

Module SecureSample.
#[export] Instance codec : AccountCodec :=
  {| StateAccount := Z; EncodeToBytes := fun a => Ok [a]; DecodeBytes := fun b => match b with [a] => Ok a | _ => Err "rlp" end |}.

Definition K (k : list Z) : Prop := k = [1] \/ k = [2].
Lemma hashed_keys : @HashedKeys HashSample.env K.
Proof.
  split.
  - intros k [->| ->]; repeat constructor; unfold is_byte; cbn; lia.
  - intros k k' [->| ->] [->| ->]; by cbn.
Defined.

(** A database that records preimages, and an empty trie on it. *)
Definition db : @Database DBSample.ethdb DBSample.fastcache := set_preimages DBSample.db0 (Some (mkPreimages ∅ 0)).
Definition tree : StateTrie := mkStateTrie (mkTrie NilNode (replicate 32 0) 0 newEmptyReader newTracer) ∅ false.
Definition five : @StateAccount codec := 5.
Definition ops : list sec_op :=
  [OpUpdate [1] [7]; OpKey [1]; OpUpdateAccount [2] five; OpGetAccount [2]; OpCopy; OpKey [1]; OpGet [1]; OpDelete [1]; OpGet [1];
   OpUpdate [2] [9]; OpKey [2]].
Definition nothing : gmap (list Z) (list Z) * gset (list Z) := (∅, ∅).
End SecureSample.

Lemma StateTrie_refines_witness :
  (spec_ops (fun _ => false) SecureSample.nothing SecureSample.ops).1 =
    [AnsDone; AnsValue (Some [1]); AnsDone; AnsAccount (Some SecureSample.five); AnsDone; AnsValue None; AnsValue (Some [7]); AnsDone; AnsValue None;
     AnsDone; AnsValue (Some [2])] /\
  exists t' pt m' ons t'' db',
    @run_ops Sample.rlp HashSample.env Sample.eth _ _ _ SecureSample.db SecureSample.tree SecureSample.ops =
      Ret ((spec_ops (fun _ => false) SecureSample.nothing SecureSample.ops).1, t') /\
    @sec_Commit HashSample.env Sample.eth _ _ t' SecureSample.db false = Ret (@root_hash HashSample.env Sample.eth pt, ons, t'', db') /\
    pt_holds pt m' /\ @hashed_map HashSample.env SecureSample.K m' (spec_ops (fun _ => false) SecureSample.nothing SecureSample.ops).2.1 /\
    (db_preimages SecureSample.db <> None ->
     @store_knows HashSample.env _ _ SecureSample.K db'
       (fun k => false || bool_decide (k ∈ (spec_ops (fun _ => false) SecureSample.nothing SecureSample.ops).2.2))).
Proof.
  split; [vm_compute; reflexivity|].
  apply (@StateTrie_refines Sample.rlp HashSample.env Sample.eth HashSample.laws DBSample.ethdb DBSample.fastcache SecureSample.codec
           SecureSample.K SecureSample.hashed_keys (fun _ _ => False) SecureSample.db (fun _ => false) SecureSample.tree
           SecureSample.nothing SecureSample.ops false).
  - intros k _. vm_compute. reflexivity.
  - split; [|apply cache_empty]. exists ∅. split; [exists PNil; split; [constructor|apply pt_holds_empty]|]. split; [done|].
    intros h v E. by rewrite lookup_empty in E.
  - repeat (constructor; [by intros k [= <-]; (by left) || by right|]). constructor.
Defined.
