(* ===== verification/Combine.v ===== *)
(** * Iterators made of iterators ([trie/iterator.go])

    [NodeIterator] is the interface of the iterators over nodes, as a class with the
    node iterator, the difference iterator and the union iterator as instances.  The
    union iterator keeps its sources in a binary heap, the one of [container/heap] of
    the standard library.  [Combining] proves what the combined iterators visit. *)

From stdpp Require Import base gmap strings list.
From Stdlib Require Import ZArith Lia.
From S2P Require Import Prelude Encoding Node Trie Hasher MerkleProof Iterator.

Local Open Scope Z_scope.

(** ** The interface *)

Class NodeIterator (I : Type) := {
  ni_Next : I -> bool -> outcome (bool * I);
  ni_Error : I -> option MissingNodeError;
  ni_Hash : I -> outcome (list Z);
  ni_Parent : I -> outcome (list Z);
  ni_Path : I -> outcome (list Z);
  ni_NodeBlob : I -> outcome (list Z * I);
  ni_Leaf : I -> outcome bool;
  ni_LeafKey : I -> outcome (list Z);
  ni_LeafBlob : I -> outcome (list Z);
  ni_LeafProof : I -> outcome (list (list Z));
  ni_AddResolver : I -> NodeResolver -> outcome I;
}.

Section node_iterator.
Context `{RLP} `{EthCommon} `{HashEnv} (Node : list Z -> list Z -> list Z -> outcome (res string node)).

#[export] Instance nodeIterator_methods : NodeIterator nodeIterator := {|
  ni_Next := Next Node;
  ni_Error := it_Error;
  ni_Hash := fun it => Ret (it_Hash it);
  ni_Parent := fun it => Ret (it_Parent it);
  ni_Path := fun it => Ret (it_path it);
  ni_NodeBlob := fun it => Ret (it_NodeBlob it);
  ni_Leaf := fun it => Ret (Leaf it);
  ni_LeafKey := LeafKey;
  ni_LeafBlob := LeafBlob;
  ni_LeafProof := LeafProof;
  ni_AddResolver := fun it resolver => Ret (AddResolver it resolver);
|}.
End node_iterator.

(** ** Comparing positions *)

Definition compareNodes {I J} `{NodeIterator I} `{NodeIterator J} (a : I) (b : J) : outcome Z :=
  pa ← ni_Path a;
  pb ← ni_Path b;
  let cmp := bytes_Compare pa pb in
  if negb (cmp =? 0) then Ret cmp
  else
    la ← ni_Leaf a;
    lb ← ni_Leaf b;
    if (la : bool) && negb lb then Ret (-1)
    else if (lb : bool) && negb la then Ret 1
    else
      ha ← ni_Hash a;
      hb ← ni_Hash b;
      let cmp := bytes_Compare ha hb in
      if negb (cmp =? 0) then Ret cmp
      else if la && lb then
        va ← ni_LeafBlob a;
        vb ← ni_LeafBlob b;
        Ret (bytes_Compare va vb)
      else Ret 0.

(** ** The difference iterator *)

Record differenceIterator (I J : Type) := mkDiff {
  di_a : I;
  di_b : J;
  di_eof : bool;
  di_count : Z;
}.
Arguments mkDiff {I J} di_a di_b di_eof di_count.
Arguments di_a {I J} _.
Arguments di_b {I J} _.
Arguments di_eof {I J} _.
Arguments di_count {I J} _.

Section difference.
Context {I J : Type} `{NodeIterator I} `{NodeIterator J}.

Definition NewDifferenceIterator (a : I) (b : J) : outcome (differenceIterator I J) :=
  '(_, a) ← ni_Next a true;
  Ret (mkDiff a b false 0).

(** The loop of [Next]: every round moves at least one of the two on. *)
Fixpoint di_loop (fuel : nat) (it : differenceIterator I J) : outcome (bool * differenceIterator I J) :=
  match fuel with
  | O => Panic
  | S fuel =>
      cmp ← compareNodes (di_a it) (di_b it);
      if cmp =? -1 then
        '(more, a) ← ni_Next (di_a it) true;
        if (more : bool) then di_loop fuel (mkDiff a (di_b it) (di_eof it) (di_count it + 1))
        else Ret (true, mkDiff a (di_b it) true (di_count it))
      else if cmp =? 1 then Ret (true, it)
      else
        ha ← ni_Hash (di_a it);
        let hasHash := bool_decide (ha = zero_hash) in
        '(more, b) ← ni_Next (di_b it) hasHash;
        if (more : bool) then
          '(more, a) ← ni_Next (di_a it) hasHash;
          if (more : bool) then di_loop fuel (mkDiff a b (di_eof it) (di_count it + 2))
          else Ret (true, mkDiff a b true (di_count it + 1))
        else Ret (false, mkDiff (di_a it) b (di_eof it) (di_count it))
  end.

Definition di_Next (fuel : nat) (it : differenceIterator I J) (_ : bool) : outcome (bool * differenceIterator I J) :=
  '(more, b) ← ni_Next (di_b it) true;
  if (more : bool) then
    let it := mkDiff (di_a it) b (di_eof it) (di_count it + 1) in
    if di_eof it then Ret (true, it) else di_loop fuel it
  else Ret (false, mkDiff (di_a it) b (di_eof it) (di_count it)).

Definition di_Hash (it : differenceIterator I J) : outcome (list Z) := ni_Hash (di_b it).
Definition di_Parent (it : differenceIterator I J) : outcome (list Z) := ni_Parent (di_b it).
Definition di_Leaf (it : differenceIterator I J) : outcome bool := ni_Leaf (di_b it).
Definition di_LeafKey (it : differenceIterator I J) : outcome (list Z) := ni_LeafKey (di_b it).
Definition di_LeafBlob (it : differenceIterator I J) : outcome (list Z) := ni_LeafBlob (di_b it).
Definition di_LeafProof (it : differenceIterator I J) : outcome (list (list Z)) := ni_LeafProof (di_b it).
Definition di_Path (it : differenceIterator I J) : outcome (list Z) := ni_Path (di_b it).
Definition di_NodeBlob (it : differenceIterator I J) : outcome (list Z * differenceIterator I J) :=
  '(blob, b) ← ni_NodeBlob (di_b it);
  Ret (blob, mkDiff (di_a it) b (di_eof it) (di_count it)).
Definition di_AddResolver (it : differenceIterator I J) (resolver : NodeResolver) : outcome (differenceIterator I J) := Panic.
Definition di_Error (it : differenceIterator I J) : option MissingNodeError :=
  match ni_Error (di_a it) with Some err => Some err | None => ni_Error (di_b it) end.

#[export] Instance differenceIterator_methods (fuel : nat) : NodeIterator (differenceIterator I J) := {|
  ni_Next := di_Next fuel;
  ni_Error := di_Error;
  ni_Hash := di_Hash;
  ni_Parent := di_Parent;
  ni_Path := di_Path;
  ni_NodeBlob := di_NodeBlob;
  ni_Leaf := di_Leaf;
  ni_LeafKey := di_LeafKey;
  ni_LeafBlob := di_LeafBlob;
  ni_LeafProof := di_LeafProof;
  ni_AddResolver := di_AddResolver;
|}.
End difference.

(** ** Heaps ([container/heap])

    The items as a list, with the order of the items.  Indices out of range panic. *)

Section heap.
Context {A : Type} (less : A -> A -> outcome bool).

Definition heap_Less (h : list A) (i j : nat) : outcome bool :=
  match h !! i, h !! j with Some x, Some y => less x y | _, _ => Panic end.
Definition heap_Swap (h : list A) (i j : nat) : outcome (list A) :=
  match h !! i, h !! j with Some x, Some y => Ret (<[i := y]> (<[j := x]> h)) | _, _ => Panic end.

(** Every round halves the index. *)
Fixpoint heap_up (fuel : nat) (h : list A) (j : nat) : outcome (list A) :=
  match fuel with
  | O => Panic
  | S fuel =>
      let i := ((j - 1) / 2)%nat in
      if (i =? j)%nat then Ret h
      else
        lt ← heap_Less h j i;
        if (lt : bool) then h ← heap_Swap h i j; heap_up fuel h i else Ret h
  end.

(** Every round raises the index, which stays below [n]. *)
Fixpoint heap_down (fuel : nat) (h : list A) (i n : nat) : outcome (list A) :=
  match fuel with
  | O => Panic
  | S fuel =>
      let j1 := (2 * i + 1)%nat in
      if (n <=? j1)%nat then Ret h
      else
        let j2 := (j1 + 1)%nat in
        right ← (if (j2 <? n)%nat then heap_Less h j2 j1 else Ret false);
        let j := if (right : bool) then j2 else j1 in
        lt ← heap_Less h j i;
        if (lt : bool) then h ← heap_Swap h i j; heap_down fuel h j n else Ret h
  end.

(** The loop of [Init], with [k] calls left. *)
Fixpoint heap_sift (k : nat) (h : list A) : outcome (list A) :=
  match k with
  | O => Ret h
  | S i => h ← heap_down (S (length h)) h i (length h); heap_sift i h
  end.
Definition heap_Init (h : list A) : outcome (list A) := heap_sift (length h / 2) h.

Definition heap_Push (h : list A) (x : A) : outcome (list A) :=
  let h := h ++ [x] in
  heap_up (S (length h)) h (length h - 1).

(** The item and the heap without it. *)
Definition heap_Pop (h : list A) : outcome (A * list A) :=
  let n := (length h - 1)%nat in
  h ← heap_Swap h 0 n;
  h ← heap_down (S n) h 0 n;
  match h !! n with Some x => Ret (x, take n h) | None => Panic end.
End heap.

(** ** The union iterator *)

Record unionIterator (I : Type) := mkUnion {
  ui_items : list I;
  ui_count : Z;
}.
Arguments mkUnion {I} ui_items ui_count.
Arguments ui_items {I} _.
Arguments ui_count {I} _.

Section union.
Context {I : Type} `{NodeIterator I}.

(** The order of [nodeIteratorHeap]. *)
Definition nodes_less (a b : I) : outcome bool :=
  cmp ← compareNodes a b;
  Ret (cmp <? 0).

Definition NewUnionIterator (iters : list I) : outcome (unionIterator I) :=
  h ← heap_Init nodes_less iters;
  Ret (mkUnion h 0).

(** Whether the next item is to be skipped with [least]. *)
Definition ui_same (descend : bool) (least top : I) : outcome bool :=
  pre ← (if descend then Ret false else p ← ni_Path top; q ← ni_Path least; Ret (bytes_HasPrefix p q));
  if (pre : bool) then Ret true
  else cmp ← compareNodes least top; Ret (cmp =? 0).

(** The loop of [Next]: every round moves one item on. *)
Fixpoint ui_skip (fuel : nat) (descend : bool) (least : I) (items : list I) (count : Z) : outcome (list I * Z) :=
  match fuel with
  | O => Panic
  | S fuel =>
      match items with
      | [] => Ret (items, count)
      | top :: _ =>
          same ← ui_same descend least top;
          if (same : bool) then
            '(skipped, items) ← heap_Pop nodes_less items;
            h ← ni_Hash skipped;
            '(more, skipped) ← ni_Next skipped (bool_decide (h = zero_hash));
            if (more : bool) then
              items ← heap_Push nodes_less items skipped;
              ui_skip fuel descend least items (count + 1)
            else ui_skip fuel descend least items count
          else Ret (items, count)
      end
  end.

Definition ui_Next (fuel : nat) (it : unionIterator I) (descend : bool) : outcome (bool * unionIterator I) :=
  match ui_items it with
  | [] => Ret (false, it)
  | _ =>
      '(least, items) ← heap_Pop nodes_less (ui_items it);
      '(items, count) ← ui_skip fuel descend least items (ui_count it);
      '(more, least) ← ni_Next least descend;
      if (more : bool) then
        items ← heap_Push nodes_less items least;
        Ret ((0 <? length items)%nat, mkUnion items (count + 1))
      else Ret ((0 <? length items)%nat, mkUnion items count)
  end.

(** The first item; there is none at the end. *)
Definition ui_first (it : unionIterator I) : outcome I :=
  match ui_items it with [] => Panic | x :: _ => Ret x end.

Definition ui_Hash (it : unionIterator I) : outcome (list Z) := x ← ui_first it; ni_Hash x.
Definition ui_Parent (it : unionIterator I) : outcome (list Z) := x ← ui_first it; ni_Parent x.
Definition ui_Leaf (it : unionIterator I) : outcome bool := x ← ui_first it; ni_Leaf x.
Definition ui_LeafKey (it : unionIterator I) : outcome (list Z) := x ← ui_first it; ni_LeafKey x.
Definition ui_LeafBlob (it : unionIterator I) : outcome (list Z) := x ← ui_first it; ni_LeafBlob x.
Definition ui_LeafProof (it : unionIterator I) : outcome (list (list Z)) := x ← ui_first it; ni_LeafProof x.
Definition ui_Path (it : unionIterator I) : outcome (list Z) := x ← ui_first it; ni_Path x.
Definition ui_NodeBlob (it : unionIterator I) : outcome (list Z * unionIterator I) :=
  match ui_items it with
  | [] => Panic
  | x :: items => '(blob, x) ← ni_NodeBlob x; Ret (blob, mkUnion (x :: items) (ui_count it))
  end.
Definition ui_AddResolver (it : unionIterator I) (resolver : NodeResolver) : outcome (unionIterator I) := Panic.
Fixpoint first_error (items : list I) : option MissingNodeError :=
  match items with
  | [] => None
  | x :: items => match ni_Error x with Some err => Some err | None => first_error items end
  end.
Definition ui_Error (it : unionIterator I) : option MissingNodeError := first_error (ui_items it).

#[export] Instance unionIterator_methods (fuel : nat) : NodeIterator (unionIterator I) := {|
  ni_Next := ui_Next fuel;
  ni_Error := ui_Error;
  ni_Hash := ui_Hash;
  ni_Parent := ui_Parent;
  ni_Path := ui_Path;
  ni_NodeBlob := ui_NodeBlob;
  ni_Leaf := ui_Leaf;
  ni_LeafKey := ui_LeafKey;
  ni_LeafBlob := ui_LeafBlob;
  ni_LeafProof := ui_LeafProof;
  ni_AddResolver := ui_AddResolver;
|}.
End union.
