(* ===== verification/HeapOrder.v ===== *)
(** * Binary heaps

    The heap operations of [Combine] keep the items in heap order and lose none: the
    first item is a least one, which [heap_Pop] takes out. *)

From stdpp Require Import base list.
From Stdlib Require Import ZArith Lia.
From S2P Require Import Prelude Combine.

Local Open Scope nat_scope.

(** The heap order: an item is at most its two children. *)
Definition child (p c : nat) : Prop := c = 2 * p + 1 \/ c = 2 * p + 2.

Section order.
Context {A : Type} (less : A -> A -> outcome bool) (P : A -> Prop) (le : A -> A -> Prop).
Context `{!PreOrder le}.

(** On items that satisfy [P], comparing them decides an order between them. *)
Hypothesis less_spec : forall x y, P x -> P y -> exists b, less x y = Ret b /\ if (b : bool) then le x y else le y x.

Definition le_at (h : list A) (p c : nat) : Prop := forall x y, h !! p = Some x -> h !! c = Some y -> le x y.

(** The first [n] items are in order from the [k]-th on. *)
Definition ordered (h : list A) (n k : nat) : Prop := forall p c, k <= p -> child p c -> c < n -> le_at h p c.

Lemma heap_Less_spec h i j x y : Forall P h -> h !! i = Some x -> h !! j = Some y ->
  exists b, heap_Less less h i j = Ret b /\ if (b : bool) then le x y else le y x.
Proof.
  intros HP Hi Hj. unfold heap_Less. rewrite Hi, Hj. rewrite Forall_lookup in HP. apply less_spec; [by eapply HP|by eapply HP].
Qed.

(** ** Swapping *)

Lemma heap_Swap_spec (h : list A) i j : i < length h -> j < length h ->
  exists h', heap_Swap h i j = Ret h' /\ h' ≡ₚ h /\
    forall k, h' !! k = if decide (k = i) then h !! j else if decide (k = j) then h !! i else h !! k.
Proof.
  intros Hi Hj. destruct (lookup_lt_is_Some_2 h i Hi) as [x Ex]. destruct (lookup_lt_is_Some_2 h j Hj) as [y Ey].
  unfold heap_Swap. rewrite Ex, Ey. eexists. split; [done|]. split; [by apply Permutation_insert_swap|]. intros k.
  destruct (decide (k = i)) as [->|Hki]; [rewrite list_lookup_insert_eq; [done|by rewrite length_insert]|].
  rewrite list_lookup_insert_ne by done. destruct (decide (k = j)) as [->|Hkj]; [by rewrite list_lookup_insert_eq|].
  by rewrite list_lookup_insert_ne.
Qed.

(** ** Down *)

(** In order, but for the item at [i], which may be above its children. *)
Definition sinking (h : list A) (n k i : nat) : Prop :=
  (forall p c, k <= p -> child p c -> c < n -> p <> i -> le_at h p c) /\
  (forall p c, k <= p -> child p i -> child i c -> c < n -> le_at h p c).

Lemma sinking_done h n k i : sinking h n k i -> (forall c, child i c -> c < n -> le_at h i c) -> ordered h n k.
Proof. intros [H1 _] Hi p c Hp Hc Hn. destruct (decide (p = i)) as [->|]; auto. Qed.

Lemma sinking_swap (h h' : list A) n k i j : k <= i -> child i j -> j < n -> sinking h n k i ->
  (forall x y, h !! j = Some x -> h !! i = Some y -> le x y) ->
  (forall c x y, child i c -> c < n -> h !! j = Some x -> h !! c = Some y -> le x y) ->
  (forall m, h' !! m = if decide (m = i) then h !! j else if decide (m = j) then h !! i else h !! m) ->
  sinking h' n k j.
Proof.
  intros Hk Hij Hj [H1 H2] Hji Hmin Hl. assert (i < j) as Hlt by (unfold child in Hij; lia). split.
  - intros p c Hp Hc Hn Hpj x y Hx Hy. rewrite Hl in Hx, Hy. destruct (decide (p = i)) as [->|Hpi].
    + destruct (decide (c = i)) as [->|Hci]; [unfold child in Hc; lia|]. destruct (decide (c = j)); [by eapply Hji|by eapply Hmin].
    + rewrite decide_False in Hx by done. destruct (decide (c = i)) as [->|Hci]; [by apply (H2 p j)|].
      destruct (decide (c = j)) as [->|Hcj]; [unfold child in *; lia|]. by apply (H1 p c).
  - intros p c Hp Hpj Hjc Hn x y Hx Hy. assert (p = i) as -> by (unfold child in *; lia). rewrite Hl in Hx, Hy.
    rewrite decide_True in Hx by done. rewrite !decide_False in Hy by (unfold child in *; lia). apply (H1 j c); [lia|done|done|lia|done|done].
Qed.

(** The least child. *)
Lemma least_child (h : list A) i n : Forall P h -> n <= length h -> 2 * i + 1 < n ->
  exists right, (if 2 * i + 1 + 1 <? n then heap_Less less h (2 * i + 1 + 1) (2 * i + 1) else Ret false) = Ret right /\
    let j := if (right : bool) then 2 * i + 1 + 1 else 2 * i + 1 in
    child i j /\ j < n /\ forall c x y, child i c -> c < n -> h !! j = Some x -> h !! c = Some y -> le x y.
Proof.
  intros HP Hn Hi. destruct (lookup_lt_is_Some_2 h (2 * i + 1)) as [u Eu]; [lia|].
  destruct (Nat.ltb_spec (2 * i + 1 + 1) n) as [Hr|Hr].
  - destruct (lookup_lt_is_Some_2 h (2 * i + 1 + 1)) as [v Ev]; [lia|].
    destruct (heap_Less_spec h _ _ v u HP Ev Eu) as (b & -> & Hb). exists b. split; [done|].
    split; [destruct b; unfold child; lia|]. split; [destruct b; lia|]. intros c x y Hc Hcn Hx Hy.
    assert (c = 2 * i + 1 \/ c = 2 * i + 1 + 1) as [->| ->] by (unfold child in Hc; lia); destruct b; simplify_eq; done.
  - exists false. split; [done|]. split; [unfold child; lia|]. split; [lia|]. intros c x y Hc Hcn Hx Hy.
    assert (c = 2 * i + 1) as -> by (unfold child in Hc; lia). by simplify_eq.
Qed.

Lemma heap_down_spec n k fuel : forall h i, Forall P h -> n <= length h -> k <= i -> n - i < fuel -> sinking h n k i ->
  exists h', heap_down less fuel h i n = Ret h' /\ h' ≡ₚ h /\ (forall m, n <= m -> h' !! m = h !! m) /\ ordered h' n k.
Proof.
  induction fuel as [|fuel IH]; intros h i HP Hn Hk Hf Hs; [lia|]. cbn [heap_down].
  destruct (Nat.leb_spec n (2 * i + 1)) as [Hle|Hlt].
  { exists h. do 3 (split; [done|]). apply (sinking_done h n k i Hs). intros c Hc ?. unfold child in Hc. lia. }
  destruct (least_child h i n HP Hn Hlt) as (right & -> & Hij & Hj & Hmin). go_ret.
  set (j := if right then _ else _) in *. clearbody j. assert (i < j) by (unfold child in Hij; lia).
  destruct (lookup_lt_is_Some_2 h j) as [x Ex]; [lia|]. destruct (lookup_lt_is_Some_2 h i) as [y Ey]; [lia|].
  destruct (heap_Less_spec h j i x y HP Ex Ey) as (b & -> & Hb). go_ret. destruct b.
  - destruct (heap_Swap_spec h i j) as (h1 & -> & Hp1 & Hl1); [lia|lia|]. go_ret.
    destruct (IH h1 j) as (h' & E & Hp & Hend & Ho); [by rewrite Hp1|by rewrite Hp1|lia|lia| |].
    { apply (sinking_swap h h1 n k i j); [done..| |exact Hmin|exact Hl1]. intros. by simplify_eq. }
    exists h'. split; [done|]. split; [by rewrite Hp|]. split; [|done]. intros m Hm. rewrite Hend, Hl1 by done.
    by rewrite !decide_False by lia.
  - exists h. do 3 (split; [done|]). apply (sinking_done h n k i Hs). intros c Hc Hcn u v Hu Hv. simplify_eq.
    transitivity x; [done|by eapply Hmin].
Qed.

(** ** Up *)

(** In order, but for the item at [j], which may be below its parent. *)
Definition rising (h : list A) (j : nat) : Prop :=
  (forall p c, child p c -> c <> j -> le_at h p c) /\ (forall p c, child p j -> child j c -> le_at h p c).

Lemma rising_swap (h h' : list A) i j : child i j -> rising h j -> (forall x y, h !! j = Some x -> h !! i = Some y -> le x y) -> i < length h ->
  (forall m, h' !! m = if decide (m = i) then h !! j else if decide (m = j) then h !! i else h !! m) ->
  rising h' i.
Proof.
  intros Hij [H1 H2] Hji Hi Hl. assert (i < j) as Hlt by (unfold child in Hij; lia).
  destruct (lookup_lt_is_Some_2 h i Hi) as [w Ew]. split.
  - intros p c Hc Hci x y Hx Hy. rewrite Hl in Hx, Hy. rewrite (decide_False (P:=c = i)) in Hy by done.
    destruct (decide (p = i)) as [->|Hpi].
    + destruct (decide (c = j)) as [->|Hcj]; [by eapply Hji|]. transitivity w; [by apply (Hji x w)|by apply (H1 i c)].
    + rewrite (decide_False (P:=c = j)) in Hy by (unfold child in *; lia). destruct (decide (p = j)) as [->|Hpj]; [by apply (H2 i c)|].
      apply (H1 p c); [done|unfold child in *; lia|done|done].
  - intros p c Hpi Hic x y Hx Hy. rewrite Hl in Hx, Hy. assert (p < i) by (unfold child in Hpi; lia).
    rewrite !decide_False in Hx by lia. assert (i < c) by (unfold child in Hic; lia). rewrite (decide_False (P:=c = i)) in Hy by lia.
    assert (le x w) as Hxw by (apply (H1 p i); [done|lia|done|done]).
    destruct (decide (c = j)) as [->|Hcj]; [by simplify_eq|]. transitivity w; [done|]. by apply (H1 i c).
Qed.

Lemma heap_up_spec fuel : forall h j, Forall P h -> j < length h -> j < fuel -> rising h j ->
  exists h', heap_up less fuel h j = Ret h' /\ h' ≡ₚ h /\ ordered h' (length h') 0.
Proof.
  induction fuel as [|fuel IH]; intros h j HP Hj Hf Hr; [lia|]. cbn [heap_up]. pose proof (Nat.div_mod_eq (j - 1) 2) as Ed.
  pose proof (Nat.mod_upper_bound (j - 1) 2 ltac:(lia)) as Em. set (i := (j - 1) / 2) in *. clearbody i.
  destruct (Nat.eqb_spec i j) as [->|Hne].
  { exists h. do 2 (split; [done|]). intros p c _ Hc _. apply (proj1 Hr); [done|]. unfold child in Hc. lia. }
  assert (child i j) as Hij by (unfold child; lia). assert (i < j) by (unfold child in Hij; lia).
  destruct (lookup_lt_is_Some_2 h j Hj) as [x Ex]. destruct (lookup_lt_is_Some_2 h i) as [y Ey]; [lia|].
  destruct (heap_Less_spec h j i x y HP Ex Ey) as (b & -> & Hb). go_ret. destruct b.
  - destruct (heap_Swap_spec h i j) as (h1 & -> & Hp1 & Hl1); [lia|lia|]. go_ret.
    destruct (IH h1 i) as (h' & E & Hp & Ho); [by rewrite Hp1|rewrite Hp1; lia|lia| |].
    { apply (rising_swap h h1 i j); [done..| |lia|exact Hl1]. intros. by simplify_eq. }
    exists h'. split; [done|]. split; [by rewrite Hp|done].
  - exists h. do 2 (split; [done|]). intros p c _ Hc Hn. destruct (decide (c = j)) as [->|Hcj]; [|by apply (proj1 Hr)].
    assert (p = i) as -> by (unfold child in *; lia). intros u v Hu Hv. by simplify_eq.
Qed.

(** ** The operations *)

Definition is_heap (h : list A) : Prop := Forall P h /\ ordered h (length h) 0.

Lemma heap_min h x : is_heap h -> head h = Some x -> Forall (le x) h.
Proof.
  intros [_ Ho] Hx. apply Forall_lookup. intros i. induction i as [i IH] using lt_wf_ind. intros y Hy.
  destruct i as [|i]; [by destruct h; simplify_eq/=|]. pose proof (Nat.div_mod_eq i 2) as Ed.
  pose proof (Nat.mod_upper_bound i 2 ltac:(lia)). set (p := i / 2) in *. clearbody p.
  pose proof (lookup_lt_Some _ _ _ Hy). destruct (lookup_lt_is_Some_2 h p) as [u Eu]; [lia|].
  transitivity u; [apply (IH p); [lia|done]|]. apply (Ho p (S i)); [lia|unfold child; lia|lia|done|done].
Qed.

Lemma heap_Init_spec h : Forall P h -> exists h', heap_Init less h = Ret h' /\ h' ≡ₚ h /\ is_heap h'.
Proof.
  intros HP. unfold heap_Init.
  assert (forall k h, Forall P h -> ordered h (length h) k -> exists h', heap_sift less k h = Ret h' /\ h' ≡ₚ h /\ is_heap h') as Hs.
  { clear h HP. induction k as [|i IH]; intros h HP Ho; [by exists h|]. cbn [heap_sift].
    destruct (heap_down_spec (length h) i (S (length h)) h i) as (h1 & -> & Hp1 & _ & Ho1); [done|done|done|lia| |].
    { split; [intros p c ? ? ? ?; apply Ho; [lia|done|done]|]. intros p c ? Hc. unfold child in Hc. lia. }
    go_ret. destruct (IH h1) as (h' & E & Hp & Hh); [by rewrite Hp1|by rewrite (Permutation_length Hp1)|]. exists h'. split; [done|]. split; [by rewrite Hp|done]. }
  apply Hs; [done|]. intros p c Hp Hc Hn. pose proof (Nat.div_mod_eq (length h) 2). pose proof (Nat.mod_upper_bound (length h) 2 ltac:(lia)).
  unfold child in Hc. lia.
Qed.

Lemma heap_Push_spec h x : is_heap h -> P x -> exists h', heap_Push less h x = Ret h' /\ h' ≡ₚ x :: h /\ is_heap h'.
Proof.
  intros [HP Ho] Hx. unfold heap_Push. assert (Forall P (h ++ [x])) as HP1 by (apply Forall_app; split; [done|by apply Forall_singleton]).
  destruct (heap_up_spec (S (length (h ++ [x]))) (h ++ [x]) (length (h ++ [x]) - 1)) as (h' & E & Hp & Ho');
    [done|rewrite length_app; cbn; lia|lia| |].
  - rewrite length_app. cbn [length]. replace (length h + 1 - 1) with (length h) by lia. split.
    + intros p c Hc Hne u v Hu Hv. assert (p < c) by (unfold child in Hc; lia). pose proof (lookup_lt_Some _ _ _ Hv) as Hl.
      rewrite length_app in Hl. cbn in Hl. rewrite lookup_app_l in Hu, Hv by lia. apply (Ho p c); [lia|done|lia|done|done].
    + intros p c _ Hc u v _ Hv. apply lookup_lt_Some in Hv. rewrite length_app in Hv. unfold child in Hc. cbn in Hv. lia.
  - exists h'. split; [done|]. split; [rewrite Hp; by rewrite Permutation_app_comm|]. split; [by rewrite Hp|done].
Qed.

Lemma heap_Pop_spec h : is_heap h -> h <> [] ->
  exists x h', heap_Pop less h = Ret (x, h') /\ head h = Some x /\ h ≡ₚ x :: h' /\ Forall (le x) h' /\ is_heap h'.
Proof.
  intros Hh Hne. pose proof Hh as [HP Ho]. destruct h as [|x0 h0] eqn:Eh; [done|]. rewrite <- Eh in *. assert (length h = S (length h0)) as El by (by rewrite Eh).
  unfold heap_Pop. replace (length h - 1) with (length h0) by lia. set (n := length h0) in *.
  destruct (heap_Swap_spec h 0 n) as (h1 & -> & Hp1 & Hl1); [lia|lia|]. go_ret.
  destruct (heap_down_spec n 0 (S n) h1 0) as (h2 & -> & Hp2 & Hend & Ho2); [by rewrite Hp1|rewrite Hp1; lia|lia|lia| |].
  { split; [|intros p c _ Hc; unfold child in Hc; lia]. intros p c _ Hc Hn Hp u v. assert (p < c) by (unfold child in Hc; lia).
    rewrite !Hl1, !decide_False by lia. apply Ho; [lia|done|lia]. }
  go_ret. assert (h2 !! n = Some x0) as En.
  { rewrite Hend, Hl1 by lia. destruct (decide (n = 0)) as [->|Hn0]; [by rewrite Eh|]. by rewrite decide_True, Eh. }
  rewrite En. assert (h2 = take n h2 ++ [x0]) as Et.
  { rewrite <- (take_drop n h2) at 1. f_equal. rewrite (drop_S _ _ _ En), drop_ge; [done|]. rewrite Hp2, Hp1. lia. }
  assert (h ≡ₚ x0 :: take n h2) as Hperm by (rewrite <- Hp1, <- Hp2, Et at 1; by rewrite Permutation_app_comm).
  assert (length (take n h2) = n) as Elt by (apply Permutation_length in Hperm; cbn in Hperm; lia).
  exists x0, (take n h2). split; [done|]. split; [by rewrite Eh|]. split; [done|]. split.
  - pose proof (heap_min h x0 Hh ltac:(by rewrite Eh)) as Hmin. rewrite Hperm in Hmin. by apply Forall_cons in Hmin as [_ ?].
  - split; [rewrite Hperm in HP; by apply Forall_cons in HP as [_ ?]|]. rewrite Elt. intros p c _ Hc Hn u v Hu Hv.
    rewrite lookup_take_lt in Hu by (unfold child in Hc; lia). rewrite lookup_take_lt in Hv by lia. apply (Ho2 p c); [lia|done..].
Qed.
End order.
