(* ===== verification/Combining.v ===== *)
(** * What the combined iterators visit

    An iterator promises to walk a forest in preorder and to leave out what is below
    the current node when it is told to ([NodeIteratorLaws]).  On any two that do so
    and agree on what is below a hash, the difference iterator visits the elements of
    the second that are not in the first, and the union iterator visits the elements
    of all, each once and in order.  [Combined] shows that the node iterator keeps the
    promise, and what follows for tries. *)

From stdpp Require Import base gmap strings list sorting.
From Stdlib Require Import ZArith Lia.
From S2P Require Import Prelude Encoding Iterator Iteration Combine HeapOrder.

Local Open Scope Z_scope.

(** ** Elements and their order *)

(** What [compareNodes] sees of a position; an inner node has no blob. *)
Record elem := mkElem { e_path : list Z; e_hash : list Z; e_blob : list Z }.

#[export] Instance elem_eq_dec : EqDecision elem.
Proof. solve_decision. Defined.

(** Where an iterator is before its first step and after its last. *)
Definition start : elem := mkElem [] zero_hash [].

Definition elem_lt (x y : elem) : Prop :=
  before (e_path x) (e_path y) \/ e_path x = e_path y /\
  (before (e_hash x) (e_hash y) \/ e_hash x = e_hash y /\ before (e_blob x) (e_blob y)).

#[export] Instance elem_lt_strict : StrictOrder elem_lt.
Proof.
  split.
  - intros x [H1|[_ [H1|[_ H1]]]]; by apply irreflexivity in H1; [|apply before_strict].
  - intros x y z. unfold elem_lt. intros [H1|[E1 [H1|[F1 H1]]]] [H2|[E2 [H2|[F2 H2]]]];
      rewrite ?E1, ?E2, ?F1, ?F2 in *;
      first [left; by etransitivity|left; congruence|right; split; [done|]];
      first [left; by etransitivity|left; congruence|right; split; [done|]; by etransitivity].
Qed.

Lemma bytes_Compare_eq a : forall b, bytes_Compare a b = 0 <-> a = b.
Proof.
  induction a as [|x a IH]; intros [|y b]; cbn; try (split; congruence).
  destruct (Z.ltb_spec x y); [split; [lia|intros [= -> ->]; lia]|]. destruct (Z.ltb_spec y x); [split; [lia|intros [= -> ->]; lia]|].
  rewrite IH. assert (x = y) as -> by lia. split; congruence.
Qed.

Lemma compare_gt a : forall b, bytes_Compare a b = 1 <-> before b a.
Proof.
  unfold before. induction a as [|x a IH]; intros [|y b]; cbn; try done.
  destruct (Z.ltb_spec x y), (Z.ltb_spec y x); try lia. apply IH.
Qed.

Inductive compared {A} (lt : A -> A -> Prop) (x y : A) : Z -> Prop :=
| cmp_lt : lt x y -> compared lt x y (-1)
| cmp_eq : x = y -> compared lt x y 0
| cmp_gt : lt y x -> compared lt x y 1.

Lemma compare_bytes a b : compared before a b (bytes_Compare a b).
Proof.
  destruct (compare_cases a b) as [E|[E|E]]; pose proof E as E'; rewrite E.
  - by constructor.
  - constructor. by apply bytes_Compare_eq.
  - constructor. by apply compare_gt.
Qed.

(** ** Forests *)

Inductive twig := Twig (e : elem) (ks : list twig).
Definition t_elem (t : twig) : elem := match t with Twig e _ => e end.

(** A twig and all below it, in preorder. *)
Fixpoint subs (t : twig) : list twig := match t with Twig _ ks => t :: flat_map subs ks end.
Abbreviation allsubs := (flat_map subs).
Definition elems (f : list twig) : list elem := t_elem <$> allsubs f.

Lemma allsubs_cons e ks f : allsubs (Twig e ks :: f) = Twig e ks :: allsubs (ks ++ f).
Proof. cbn. by rewrite flat_map_app. Qed.

Lemma elems_cons e ks f : elems (Twig e ks :: f) = e :: elems (ks ++ f).
Proof. unfold elems. by rewrite allsubs_cons. Qed.

Lemma elems_app f g : elems (f ++ g) = elems f ++ elems g.
Proof. unfold elems. by rewrite flat_map_app, fmap_app. Qed.

(** Twigs with the same hash are the same. *)
Definition coherent (f g : list twig) : Prop :=
  forall x y, x ∈ allsubs f -> y ∈ allsubs g -> t_elem x = t_elem y -> e_hash (t_elem x) <> zero_hash -> x = y.

Lemma coherent_mono f g f' g' : coherent f g -> allsubs f' ⊆ allsubs f -> allsubs g' ⊆ allsubs g -> coherent f' g'.
Proof. intros Hc Hf Hg x y Hx Hy. apply Hc; [by apply Hf|by apply Hg]. Qed.

(** ** The promise of an iterator *)

(** [at_ it e ks rest]: the iterator is at the element [e], with [ks] below it and
    [rest] after that. *)
Class NodeIteratorLaws (I : Type) `{NodeIterator I} (at_ : I -> elem -> list twig -> list twig -> Prop) : Prop := {
  ni_looks : forall it e ks rest, at_ it e ks rest ->
    ni_Path it = Ret (e_path e) /\ ni_Hash it = Ret (e_hash e) /\ ni_Leaf it = Ret (hasTerm (e_path e)) /\
    if hasTerm (e_path e) then ni_LeafBlob it = Ret (e_blob e) else e_blob e = [];
  ni_moves : forall it e ks rest, at_ it e ks rest -> forall descend : bool,
    match (if descend then ks else []) ++ rest with
    | [] => exists it', ni_Next it descend = Ret (false, it') /\ at_ it' start [] []
    | Twig e' ks' :: rest' => exists it', ni_Next it descend = Ret (true, it') /\ at_ it' e' ks' rest'
    end;
}.

(** What a client sees at a position, and on a tour of all positions. *)
Definition visit {I} `{NodeIterator I} (it : I) : outcome elem :=
  p ← ni_Path it;
  h ← ni_Hash it;
  l ← ni_Leaf it;
  v ← (if (l : bool) then ni_LeafBlob it else Ret []);
  Ret (mkElem p h v).

Fixpoint tour {I} `{NodeIterator I} (n : nat) (it : I) : outcome (list elem * I) :=
  match n with
  | O => Panic
  | S n =>
      '(more, it) ← ni_Next it true;
      if (more : bool) then e ← visit it; '(es, last_) ← tour n it; Ret (e :: es, last_) else Ret ([], it)
  end.

Section promise.
Context {I J : Type} `{NodeIterator I} `{NodeIterator J} {at_a : I -> elem -> list twig -> list twig -> Prop}
  {at_b : J -> elem -> list twig -> list twig -> Prop} `{!NodeIteratorLaws I at_a} `{!NodeIteratorLaws J at_b}.

Lemma visit_at it e ks rest : at_a it e ks rest -> visit it = Ret e.
Proof.
  intros Ha. destruct (ni_looks it e ks rest Ha) as (Ep & Eh & El & Eb). unfold visit. rewrite Ep, Eh, El. go_ret.
  destruct e as [p h v]. cbn [e_path e_hash e_blob] in *. destruct (hasTerm p); [by rewrite Eb|by rewrite Eb].
Qed.

Lemma compareNodes_spec a b x y ka ra kb rb : at_a a x ka ra -> at_b b y kb rb ->
  exists c, compareNodes a b = Ret c /\ compared elem_lt x y c.
Proof.
  intros Ha Hb. destruct (ni_looks a x ka ra Ha) as (Ep & Eh & El & Ev), (ni_looks b y kb rb Hb) as (Fp & Fh & Fl & Fv).
  unfold compareNodes. rewrite Ep, Fp. go_ret. destruct (compare_bytes (e_path x) (e_path y)) as [Hp|Hp|Hp]; cbn [Z.eqb negb].
  1, 3: eexists; split; [done|]; constructor; by left.
  rewrite El, Fl. go_ret. rewrite <- Hp in *. set (leaf := hasTerm (e_path x)) in *.
  replace (leaf && negb leaf) with false by (by destruct leaf). cbv iota. rewrite Eh, Fh. go_ret.
  destruct (compare_bytes (e_hash x) (e_hash y)) as [Hh|Hh|Hh]; cbn [Z.eqb negb].
  1, 3: eexists; split; [done|]; constructor; right; split; [done|]; by left.
  destruct leaf; cbn [andb].
  - rewrite Ev, Fv. go_ret. eexists. split; [done|]. destruct (compare_bytes (e_blob x) (e_blob y)) as [Hv|Hv|Hv]; constructor.
    1, 3: right; split; [done|]; right; done.
    destruct x, y; cbn in *; congruence.
  - eexists. split; [done|]. constructor. destruct x, y; cbn in *; congruence.
Qed.
End promise.

(** ** The difference *)

Lemma filter_all {A} (P : A -> Prop) `{!forall x, Decision (P x)} l : Forall P l -> filter P l = l.
Proof. induction 1 as [|x l Hx _ IH]; [done|]. by rewrite filter_cons_True, IH. Qed.

Lemma filter_none {A} (P : A -> Prop) `{!forall x, Decision (P x)} l : Forall (fun x => ~ P x) l -> filter P l = [].
Proof. induction 1 as [|x l Hx _ IH]; [done|]. by rewrite filter_cons_False. Qed.

Abbreviation sorted := (StronglySorted elem_lt).

Lemma sorted_above e l x : sorted (e :: l) -> x ∈ l -> elem_lt e x.
Proof. intros [_ Hl]%StronglySorted_inv Hx. rewrite Forall_forall in Hl. by apply Hl. Qed.

Lemma elems_sorted_nodup l : sorted l -> NoDup l.
Proof.
  induction 1 as [|x l _ IH Hx]; constructor; [|done]. intros Hin. rewrite Forall_forall in Hx. apply (irreflexivity elem_lt x), Hx, Hin.
Qed.

Lemma elems_sorted_r l1 l2 : sorted (l1 ++ l2) -> sorted l2.
Proof. by intros (_ & _ & ?)%StronglySorted_app. Qed.

Section difference.
Context {I J : Type} `{NodeIterator I} `{NodeIterator J} {at_a : I -> elem -> list twig -> list twig -> Prop}
  {at_b : J -> elem -> list twig -> list twig -> Prop} `{!NodeIteratorLaws I at_a} `{!NodeIteratorLaws J at_b}.

(** The elements of the first iterator. *)
Context (all : list elem).
Definition fresh_of (l : list elem) : list elem := filter (.∉ all) l.

(** What is left of the two: an element of the first is still ahead when it is ahead in
    the second. *)
Record abreast (fa fb : list twig) : Prop := {
  ab_sorted_a : sorted (elems fa);
  ab_sorted_b : sorted (elems fb);
  ab_ahead : forall e, e ∈ elems fb -> e ∈ all -> e ∈ elems fa;
  ab_all : elems fa ⊆ all;
  ab_coherent : coherent fa fb;
}.

Lemma abreast_fresh fb : abreast [] fb -> fresh_of (elems fb) = elems fb.
Proof.
  intros Hab. apply filter_all. apply Forall_forall. intros e He Ha. pose proof (ab_ahead _ _ Hab e He Ha) as Hn. by apply elem_of_nil in Hn.
Qed.

Lemma abreast_drop_b fa e kb rb : abreast fa (Twig e kb :: rb) -> abreast fa (kb ++ rb).
Proof.
  intros [Ha Hb Hah Hal Hco]. rewrite elems_cons in Hb, Hah. split; [done|by apply StronglySorted_inv in Hb as [? _]| |done|].
  - intros x Hx. apply Hah. by right.
  - eapply coherent_mono; [done|done|]. rewrite allsubs_cons. intros x Hx. by right.
Qed.

Lemma abreast_drop_a e ka ra fb : abreast (Twig e ka :: ra) fb -> Forall (elem_lt e) (elems fb) -> abreast (ka ++ ra) fb.
Proof.
  intros [Ha Hb Hah Hal Hco] Hlt. rewrite elems_cons in Ha, Hah, Hal. split; [by apply StronglySorted_inv in Ha as [? _]|done| | |].
  - intros x Hx Hxa. destruct (proj1 (elem_of_cons _ _ _) (Hah x Hx Hxa)) as [->|?]; [|done].
    rewrite Forall_forall in Hlt. by destruct (irreflexivity elem_lt e (Hlt _ Hx)).
  - intros x Hx. apply Hal. by right.
  - eapply coherent_mono; [done| |done]. rewrite allsubs_cons. intros x Hx. by right.
Qed.

(** Equal elements: both go on, leaving out what is below a hash. *)
Lemma abreast_skip e ka ra kb rb (descend : bool) : abreast (Twig e ka :: ra) (Twig e kb :: rb) ->
  (descend = false -> e_hash e <> zero_hash) ->
  abreast ((if descend then ka else []) ++ ra) ((if descend then kb else []) ++ rb) /\
  fresh_of (elems (Twig e kb :: rb)) = fresh_of (elems ((if descend then kb else []) ++ rb)).
Proof.
  intros Hab Hd. pose proof Hab as [Ha Hb Hah Hal Hco]. rewrite elems_cons in Ha, Hb, Hah, Hal.
  assert (e ∈ all) as Hea by (apply Hal; left).
  assert (abreast (ka ++ ra) (kb ++ rb)) as Hboth.
  { apply (abreast_drop_a e); [by apply (abreast_drop_b _ e)|]. apply Forall_forall. intros x Hx. by apply (sorted_above e (elems (kb ++ rb))). }
  assert (fresh_of (elems (Twig e kb :: rb)) = fresh_of (elems (kb ++ rb))) as Efr.
  { rewrite elems_cons. unfold fresh_of. rewrite filter_cons_False; [done|]. intros Hn. by apply Hn. }
  destruct descend; [done|]. rewrite Efr. cbn [app]. specialize (Hd eq_refl).
  assert (Twig e ka = Twig e kb) as [= ->].
  { apply Hco; [rewrite allsubs_cons; left|rewrite allsubs_cons; left|done|done]. }
  destruct Hboth as [Ha' Hb' Hah' Hal' Hco']. rewrite elems_app in Ha', Hb', Hah', Hal'.
  split.
  - split; [by apply elems_sorted_r in Ha'|by apply elems_sorted_r in Hb'| | |].
    + intros x Hx Hxa. apply elems_sorted_nodup, NoDup_app in Hb' as (_ & Hdis & _).
      pose proof (Hah' x (proj2 (elem_of_app _ _ _) (or_intror Hx)) Hxa) as Hin. rewrite elems_app in Hin.
      apply elem_of_app in Hin as [Hk|?]; [|done]. by destruct (Hdis x Hk).
    + intros x Hx. apply Hal', elem_of_app. by right.
    + eapply coherent_mono; [done|..]; rewrite flat_map_app; intros x Hx; apply elem_of_app; by right.
  - rewrite elems_app. unfold fresh_of. rewrite filter_app. rewrite (filter_none (.∉ all) (elems kb)); [done|].
    apply Forall_forall. intros x Hx Hn. apply Hn, Hal', elem_of_app. by left.
Qed.

(** The iterator at an element, with the elements it has still to visit. *)
Definition diff_at (it : differenceIterator I J) (e : elem) (l : list elem) : Prop :=
  exists kb rb, at_b (di_b it) e kb rb /\ fresh_of (elems (kb ++ rb)) = l /\
    if di_eof it then fresh_of (elems (kb ++ rb)) = elems (kb ++ rb)
    else exists ea ka ra, at_a (di_a it) ea ka ra /\ abreast (Twig ea ka :: ra) (kb ++ rb).

Definition diff_moved (l : list elem) (r : outcome (bool * differenceIterator I J)) : Prop :=
  match l with
  | [] => exists it', r = Ret (false, it')
  | e :: l => exists it', r = Ret (true, it') /\ diff_at it' e l
  end.

(** Returning at the current element of the second iterator. *)
Lemma diff_stay a b eof count e kb rb r : e ∉ all -> at_b b e kb rb -> r = Ret (true, mkDiff a b eof count) ->
  (if eof then fresh_of (elems (kb ++ rb)) = elems (kb ++ rb)
   else exists ea ka ra, at_a a ea ka ra /\ abreast (Twig ea ka :: ra) (kb ++ rb)) ->
  diff_moved (fresh_of (elems (Twig e kb :: rb))) r.
Proof.
  intros He Hb -> Hrest. rewrite elems_cons. unfold fresh_of. rewrite filter_cons_True by done. eexists. split; [done|].
  by exists kb, rb.
Qed.

Lemma fresh_head e l : fresh_of (e :: l) = e :: l -> e ∉ all /\ fresh_of l = l.
Proof.
  unfold fresh_of. destruct (decide (e ∈ all)) as [Hin|Hin].
  - rewrite filter_cons_False by (intros Hn; by apply Hn). intros E. pose proof (length_filter (.∉ all) l) as Hl. rewrite E in Hl. cbn in Hl. lia.
  - rewrite filter_cons_True by done. intros [= E]. done.
Qed.

Lemma di_loop_spec fuel : forall it ea ka ra eb kb rb, di_eof it = false -> at_a (di_a it) ea ka ra -> at_b (di_b it) eb kb rb ->
  abreast (Twig ea ka :: ra) (Twig eb kb :: rb) -> (length (elems (Twig ea ka :: ra)) < fuel)%nat ->
  diff_moved (fresh_of (elems (Twig eb kb :: rb))) (di_loop fuel it).
Proof.
  induction fuel as [|fuel IH]; intros it ea ka ra eb kb rb Heof Ha Hb Hab Hf; [lia|]. cbn [di_loop]. rewrite elems_cons in Hf. cbn in Hf.
  pose proof (ab_sorted_b _ _ Hab) as Hsb. pose proof (ab_sorted_a _ _ Hab) as Hsa. rewrite elems_cons in Hsa, Hsb.
  destruct (compareNodes_spec (di_a it) (di_b it) ea eb ka ra kb rb Ha Hb) as (c & -> & Hc). go_ret. destruct Hc as [Hlt|Heq|Hgt]; cbn [Z.eqb Pos.eqb].
  - assert (Forall (elem_lt ea) (elems (Twig eb kb :: rb))) as Hall.
    { rewrite elems_cons. constructor; [done|]. apply Forall_forall. intros x Hx. transitivity eb; [done|by eapply sorted_above]. }
    pose proof (abreast_drop_a _ _ _ _ Hab Hall) as Hab'. pose proof (ni_moves (di_a it) ea ka ra Ha true) as Hm. cbn [app] in Hm.
    destruct (ka ++ ra) as [|[e' ks'] rest'].
    + destruct Hm as (a' & -> & Ha'). go_ret. cbv beta iota. pose proof (abreast_fresh _ Hab') as Efr. rewrite elems_cons in Efr.
      destruct (fresh_head _ _ Efr) as [Hne Efr']. by eapply diff_stay.
    + destruct Hm as (a' & -> & Ha'). go_ret. cbv beta iota. eapply IH; [done|exact Ha'|exact Hb|exact Hab'|lia].
  - subst eb. destruct (ni_looks (di_a it) ea ka ra Ha) as (_ & -> & _). go_ret.
    set (hz := bool_decide (e_hash ea = zero_hash)). destruct (abreast_skip ea ka ra kb rb hz Hab) as [Hab' ->].
    { unfold hz. by intros ?%bool_decide_eq_false. }
    pose proof (ni_moves (di_b it) ea kb rb Hb hz) as Hmb. pose proof (ni_moves (di_a it) ea ka ra Ha hz) as Hma.
    assert (length (elems ((if hz then ka else []) ++ ra)) <= length (elems (ka ++ ra)))%nat as Hle.
    { rewrite !elems_app, !length_app. destruct hz; cbn; lia. }
    destruct ((if hz then kb else []) ++ rb) as [|[eb' kb'] rb'].
    { destruct Hmb as (b' & -> & _). go_ret. cbv beta iota. by eexists. }
    destruct Hmb as (b' & -> & Hb'). go_ret. cbv beta iota. destruct ((if hz then ka else []) ++ ra) as [|[ea' ka'] ra'].
    + destruct Hma as (a' & -> & Ha'). go_ret. cbv beta iota. pose proof (abreast_fresh _ Hab') as Efr. rewrite elems_cons in Efr.
      destruct (fresh_head _ _ Efr) as [Hne Efr']. by eapply diff_stay.
    + destruct Hma as (a' & -> & Ha'). go_ret. cbv beta iota. eapply IH; [done|exact Ha'|exact Hb'|exact Hab'|lia].
  - destruct it as [a b eof count]. cbn in *. subst eof. eapply diff_stay; [|exact Hb|done|].
    + intros Hin. pose proof (ab_ahead _ _ Hab eb) as Hah. rewrite !elems_cons in Hah. specialize (Hah ltac:(left) Hin).
      apply elem_of_cons in Hah as [->|Hx]; [by apply irreflexivity in Hgt; [|apply elem_lt_strict]|].
      pose proof (sorted_above _ _ _ Hsa Hx) as Hx'. apply (irreflexivity elem_lt ea). by transitivity eb.
    + exists ea, ka, ra. split; [done|]. by apply (abreast_drop_b _ eb).
Qed.

Lemma abreast_length fa fb : abreast fa fb -> (length (elems fa) <= length all)%nat.
Proof. intros [Ha _ _ Hal _]. apply submseteq_length, NoDup_submseteq; [by apply elems_sorted_nodup|done]. Qed.

Lemma di_Next_spec fuel it e l : diff_at it e l -> (length all < fuel)%nat -> forall descend, diff_moved l (di_Next fuel it descend).
Proof.
  intros (kb & rb & Hb & <- & Hrest) Hf descend. unfold di_Next. pose proof (ni_moves (di_b it) e kb rb Hb true) as Hm. cbn [app] in Hm.
  destruct (kb ++ rb) as [|[e' ks'] rest'].
  { destruct Hm as (b' & -> & _). go_ret. cbv beta iota. by eexists. }
  destruct Hm as (b' & -> & Hb'). go_ret. cbv beta iota zeta. cbn [di_eof]. destruct (di_eof it) eqn:Heof.
  - rewrite elems_cons in Hrest. destruct (fresh_head _ _ Hrest) as [Hne Efr]. by eapply diff_stay.
  - destruct Hrest as (ea & ka & ra & Ha & Hab). eapply di_loop_spec; [done|exact Ha|exact Hb'|exact Hab|].
    pose proof (abreast_length _ _ Hab). lia.
Qed.

Lemma diff_tour fuel : (length all < fuel)%nat -> forall l n it e, diff_at it e l -> (length l < n)%nat ->
  exists last_, @tour _ (differenceIterator_methods fuel) n it = Ret (l, last_).
Proof.
  intros Hf. induction l as [|e' l IH]; intros n it e Hd Hn; (destruct n as [|n]; [lia|]); cbn [tour ni_Next differenceIterator_methods].
  - destruct (di_Next_spec fuel it e [] Hd Hf true) as (it' & ->). go_ret. by exists it'.
  - destruct (di_Next_spec fuel it e (e' :: l) Hd Hf true) as (it' & -> & Hd'). go_ret. cbv beta iota.
    assert (@visit _ (differenceIterator_methods fuel) it' = Ret e') as ->.
    { destruct Hd' as (kb & rb & Hb & _). exact (visit_at (I:=J) (di_b it') e' kb rb Hb). }
    go_ret. destruct (IH n it' e' Hd') as (last_ & ->); [cbn in Hn; lia|]. go_ret. by exists last_.
Qed.
End difference.

(** ** The union *)

Definition elem_le (x y : elem) : Prop := x = y \/ elem_lt x y.

#[export] Instance elem_le_pre : PreOrder elem_le.
Proof.
  split; [intros x; by left|]. intros x y z [->|H1] [->|H2]; unfold elem_le; auto. right. by transitivity y.
Qed.

Lemma elem_le_lt x y z : elem_le x y -> elem_lt y z -> elem_lt x z.
Proof. intros [->|H1] H2; [done|by transitivity y]. Qed.

Lemma elem_lt_le x y : elem_lt x y -> elem_le y x -> False.
Proof. intros H1 [->|H2]; [by apply (irreflexivity elem_lt x)|]. apply (irreflexivity elem_lt x). by transitivity y. Qed.

Section union.
Context {I : Type} `{NodeIterator I} {at_ : I -> elem -> list twig -> list twig -> Prop} `{!NodeIteratorLaws I at_}.

(** All twigs of the sources. *)
Context (world : list twig).
Hypothesis Hworld : forall x y, x ∈ world -> y ∈ world -> t_elem x = t_elem y -> e_hash (t_elem x) <> zero_hash -> x = y.

(** An item of the heap with its forest: the twig it is at comes first. *)
Definition holds_forest (x : I) (f : list twig) : Prop :=
  exists e ks rest, f = Twig e ks :: rest /\ at_ x e ks rest /\ sorted (elems f) /\ allsubs f ⊆ world.

Definition key (x : I) : elem := match visit x with Ret e => e | Panic => start end.
Definition item_ok (x : I) : Prop := exists f, holds_forest x f.
Definition item_le (x y : I) : Prop := elem_le (key x) (key y).
#[export] Instance item_le_pre : PreOrder item_le.
Proof. split; [intros x; unfold item_le; done|]. intros x y z. unfold item_le. by etransitivity. Qed.

Lemma key_at x e ks rest : at_ x e ks rest -> key x = e.
Proof. intros Hx. unfold key. by rewrite (visit_at x e ks rest Hx). Qed.

Lemma nodes_less_spec x y : item_ok x -> item_ok y -> exists b, nodes_less x y = Ret b /\ if (b : bool) then item_le x y else item_le y x.
Proof.
  intros (f & e & ks & rest & _ & Hx & _) (g & e' & ks' & rest' & _ & Hy & _). unfold nodes_less, item_le.
  rewrite (key_at _ _ _ _ Hx), (key_at _ _ _ _ Hy). destruct (compareNodes_spec x y e e' ks rest ks' rest' Hx Hy) as (c & -> & Hc). go_ret.
  eexists. split; [done|]. destruct Hc as [?| ->|?]; cbn; [by right|by left|by right].
Qed.

(** The heap with the forests of its items, and the elements they have left. *)
Definition left_of (ps : list (I * list twig)) : list elem := flat_map (fun p => elems p.2) ps.
Definition heap_of (items : list I) (ps : list (I * list twig)) : Prop :=
  items = ps.*1 /\ Forall (fun p => holds_forest p.1 p.2) ps /\ is_heap item_ok item_le items.

Lemma left_of_perm ps ps' : ps ≡ₚ ps' -> left_of ps ≡ₚ left_of ps'.
Proof. apply Permutation_flat_map. Qed.

Lemma elem_of_left_of e ps : e ∈ left_of ps <-> exists p, p ∈ ps /\ e ∈ elems p.2.
Proof.
  unfold left_of. rewrite list_elem_of_In, in_flat_map. split; intros (p & Hp & He); exists p; revert Hp He; rewrite !list_elem_of_In; done.
Qed.

Lemma heap_of_ok ps : Forall (fun p => holds_forest p.1 p.2) ps -> Forall item_ok ps.*1.
Proof. intros Hf. apply Forall_fmap. eapply Forall_impl; [exact Hf|]. intros p Hp. by exists p.2. Qed.

Lemma heap_of_Pop items ps : heap_of items ps -> items <> [] ->
  exists x f items' ps', heap_Pop nodes_less items = Ret (x, items') /\ head items = Some x /\ heap_of items' ps' /\ ps ≡ₚ (x, f) :: ps' /\
    holds_forest x f /\ Forall (item_le x) items'.
Proof.
  intros (-> & Hf & Hh) Hne. destruct (heap_Pop_spec nodes_less item_ok item_le nodes_less_spec ps.*1 Hh Hne) as (x & h' & E & Hhd & Hp & Hle & Hh').
  symmetry in Hp. apply Permutation_map_inv in Hp as ([|[x' f] ps'] & Ep & Hp); [done|]. injection Ep as -> ->.
  exists x', f, ps'.*1, ps'. split; [done|]. split; [done|]. rewrite Hp in Hf. apply Forall_cons in Hf as [Hx Hf]. done.
Qed.

Lemma heap_of_Push items ps x f : heap_of items ps -> holds_forest x f ->
  exists items' ps', heap_Push nodes_less items x = Ret items' /\ heap_of items' ps' /\ ps' ≡ₚ (x, f) :: ps.
Proof.
  intros (-> & Hf & Hh) Hx. destruct (heap_Push_spec nodes_less item_ok item_le nodes_less_spec ps.*1 x Hh) as (h' & E & Hp & Hh'); [by exists f|].
  change (x :: ps.*1) with (((x, f) :: ps).*1) in Hp. symmetry in Hp. apply Permutation_sym, Permutation_map_inv in Hp as (ps' & -> & Hp).
  exists (ps'.*1), ps'. split; [done|]. split; [|done]. split; [done|]. split; [|done]. rewrite <- Hp. by constructor.
Qed.

Lemma heap_of_min items ps x f m : heap_of items ps -> head items = Some x -> holds_forest x f -> head (elems f) = Some m ->
  Forall (elem_le m) (left_of ps).
Proof.
  intros (-> & Hf & Hh) Hhd (e & ks & rest & -> & Hx & _) Hm. rewrite elems_cons in Hm. injection Hm as ->.
  pose proof (heap_min item_ok item_le ps.*1 x Hh Hhd) as Hmin. apply Forall_forall. intros y ([x1 f1] & Hp & Hy)%elem_of_left_of.
  rewrite Forall_forall in Hf. pose proof (proj1 (Forall_forall _ _) Hmin) as Hmin'. destruct (Hf _ Hp) as (e1 & k1 & r1 & E1 & Hx1 & Hs & _). cbn [fst snd] in E1, Hx1, Hs, Hy. subst f1.
  assert (elem_le m e1) as Hle.
  { specialize (Hmin' x1 ltac:(apply list_elem_of_fmap; by exists (x1, Twig e1 k1 :: r1))). unfold item_le in Hmin'.
    by rewrite (key_at _ _ _ _ Hx), (key_at _ _ _ _ Hx1) in Hmin'. }
  rewrite elems_cons in Hs, Hy. apply elem_of_cons in Hy as [->|Hy]; [done|]. right. eapply elem_le_lt; [done|]. by eapply sorted_above.
Qed.

(** Moving an item on: what is left of its forest. *)
Lemma holds_moved x e ks rest (descend : bool) : holds_forest x (Twig e ks :: rest) -> at_ x e ks rest ->
  let f := (if descend then ks else []) ++ rest in
  elems f ⊆ elems (Twig e ks :: rest) /\ Forall (elem_lt e) (elems f) /\
  match f with
  | [] => exists x', ni_Next x descend = Ret (false, x')
  | _ => exists x', ni_Next x descend = Ret (true, x') /\ holds_forest x' f
  end.
Proof.
  intros (e0 & ks0 & rest0 & E & _ & Hs & Hw) Hx f. injection E as <- <- <-. pose proof (ni_moves x e ks rest Hx descend) as Hm. fold f in Hm.
  rewrite elems_cons, elems_app in *. rewrite allsubs_cons, flat_map_app in Hw.
  assert (elems f = (if descend then elems ks else []) ++ elems rest) as Ef by (unfold f; rewrite elems_app; by destruct descend).
  assert (elems f ⊆ elems ks ++ elems rest) as Hsub by (rewrite Ef; destruct descend; [done|]; cbn; intros y Hy; apply elem_of_app; by right).
  assert (sorted (elems f)) as Hsf.
  { apply StronglySorted_inv in Hs as [Hs _]. rewrite Ef. destruct descend; [done|]. by apply elems_sorted_r in Hs. }
  split; [intros y Hy; right; by apply Hsub|]. split.
  { apply Forall_forall. intros y Hy. eapply sorted_above; [done|by apply Hsub]. }
  destruct f as [|[e' ks'] rest'] eqn:Ef'; [destruct Hm as (x' & E & _); by exists x'|]. destruct Hm as (x' & E & Hx'). exists x'. split; [done|].
  exists e', ks', rest'. split; [done|]. split; [done|]. split; [done|]. rewrite <- Ef'. intros y Hy. apply Hw. right. apply elem_of_app.
  unfold f in Hy. rewrite flat_map_app in Hy. apply elem_of_app in Hy as [Hy|Hy]; [|by right]. left. by destruct descend; [|apply elem_of_nil in Hy].
Qed.

(** Items at the element of the least one are moved on; of what they skip, the least
    one has everything. *)
Lemma ui_skip_spec least m ks rest fuel : at_ least m ks rest -> holds_forest least (Twig m ks :: rest) ->
  forall items ps count, heap_of items ps -> Forall (elem_le m) (left_of ps) -> (length (left_of ps) < fuel)%nat ->
  exists items' ps' count', ui_skip fuel true least items count = Ret (items', count') /\ heap_of items' ps' /\
    Forall (elem_lt m) (left_of ps') /\ (length (left_of ps') <= length (left_of ps))%nat /\ left_of ps' ⊆ left_of ps /\
    forall e, e ∈ left_of ps -> e ∈ left_of ps' \/ e ∈ elems (Twig m ks :: rest).
Proof.
  intros Hat Hleast. induction fuel as [|fuel IH]; intros items ps count Hh Hge Hf; [lia|]. cbn [ui_skip].
  destruct items as [|top items0] eqn:Eit.
  { destruct Hh as (Ei & ?). exists [], [], count. split; [done|]. destruct ps; [|done]. split; [done|]. split; [constructor|]. by auto. }
  rewrite <- Eit in *. assert (items <> []) as Hne by (by rewrite Eit).
  destruct (heap_of_Pop items ps Hh Hne) as (x & f & items1 & ps1 & Epop & Hhd & Hh1 & Hperm & Hx & _).
  assert (top = x) as -> by (rewrite Eit in Hhd; by injection Hhd).
  pose proof Hx as (e & k1 & r1 & -> & Hxat & Hxs & Hxw). unfold ui_same. go_ret. cbv iota.
  destruct (compareNodes_spec least x m e ks rest k1 r1 Hat Hxat) as (c & -> & Hc). go_ret.
  pose proof (left_of_perm _ _ Hperm) as Hlp. cbn [left_of flat_map snd] in Hlp. fold (left_of ps1) in Hlp.
  destruct Hc as [Hlt| <-|Hgt]; cbn [Z.eqb].
  - exists items, ps, count. split; [done|]. split; [done|]. split; [|by auto].
    eapply Forall_impl; [eapply (heap_of_min items ps x (Twig e k1 :: r1) e Hh Hhd Hx); by rewrite elems_cons|].
    intros y [<-|Hy]; [done|by transitivity e].
  - rewrite Epop. go_ret. cbv beta iota. destruct (ni_looks x m k1 r1 Hxat) as (_ & -> & _). go_ret.
    set (hz := bool_decide (e_hash m = zero_hash)). destruct (holds_moved x m k1 r1 hz Hx Hxat) as (Hsub & Habove & Hmove).
    set (f := (if hz then k1 else []) ++ r1) in *.
    assert (exists x' items2 ps2 count2, (
        '(more, skipped) ← ni_Next x hz;
        (if (more : bool) then items ← heap_Push nodes_less items1 skipped; ui_skip fuel true least items (count + 1)
         else ui_skip fuel true least items1 count)) = ui_skip fuel true least items2 count2 /\ heap_of items2 ps2 /\
        (f = [] /\ ps2 = ps1 \/ ps2 ≡ₚ (x', f) :: ps1)) as (x' & items2 & ps2 & count2 & -> & Hh2 & Hps2).
    { destruct f as [|t f0] eqn:Ef.
      - destruct Hmove as (x' & ->). go_ret. exists x', items1, ps1, count. split; [done|]. split; [done|]. by left.
      - destruct Hmove as (x' & -> & Hx'). go_ret. cbv beta iota. destruct (heap_of_Push items1 ps1 x' (t :: f0) Hh1 Hx') as (items2 & ps2 & -> & Hh2 & Hp2).
        go_ret. exists x', items2, ps2, (count + 1). split; [done|]. split; [done|]. by right. }
    assert (left_of ps2 ≡ₚ elems f ++ left_of ps1) as Hl2.
    { destruct Hps2 as [[-> ->]|Hp2]; [done|]. by apply left_of_perm in Hp2. }
    assert (length (elems f) <= length (elems (k1 ++ r1)))%nat as Hlf by (unfold f; rewrite !elems_app, !length_app; destruct hz; cbn; lia).
    assert (left_of ps2 ⊆ left_of ps) as Hsub2.
    { intros y. rewrite Hl2, Hlp, !elem_of_app. intros [Hy|Hy]; [left; by apply Hsub|by right]. }
    rewrite elems_cons in Hlp.
    destruct (IH items2 ps2 count2 Hh2) as (items' & ps' & count' & -> & Hh' & Hlt' & Hlen & Hsub' & Hcov).
    + rewrite Forall_forall in Hge |- *. intros y Hy. by apply Hge, Hsub2.
    + apply Permutation_length in Hl2, Hlp. rewrite length_app in Hl2. cbn in Hlp. rewrite length_app in Hlp. lia.
    + exists items', ps', count'. split; [done|]. split; [done|]. split; [done|]. split.
      { apply Permutation_length in Hl2, Hlp. rewrite length_app in Hl2. cbn in Hlp. rewrite length_app in Hlp. lia. }
      split; [intros y Hy; by apply Hsub2, Hsub'|]. intros y. rewrite Hlp. rewrite <- app_comm_cons, elem_of_cons, elem_of_app.
      intros [->|[Hy|Hy]].
      * right. rewrite elems_cons. left.
      * destruct (decide (y ∈ elems f)) as [Hyf|Hyf]; [apply Hcov; rewrite Hl2; apply elem_of_app; by left|].
        right. unfold f, hz in Hyf. rewrite elems_app in Hy, Hyf. rewrite elem_of_app in Hy, Hyf. case_bool_decide as Ez; [tauto|].
        assert (Twig m k1 = Twig m ks) as [= ->].
        { destruct Hleast as (? & ? & ? & _ & _ & _ & Hw). apply Hworld; [apply Hxw; rewrite allsubs_cons; left|apply Hw; rewrite allsubs_cons; left|done|done]. }
        rewrite elems_cons, elems_app. right. apply elem_of_app. tauto.
      * apply Hcov. rewrite Hl2. apply elem_of_app. by right.
  - exfalso. rewrite Forall_forall in Hge. eapply elem_lt_le; [exact Hgt|]. apply Hge. rewrite Hlp, elems_cons. left.
Qed.

Definition union_at (it : unionIterator I) (m : elem) (ps : list (I * list twig)) : Prop :=
  heap_of (ui_items it) ps /\ exists x f, head (ui_items it) = Some x /\ holds_forest x f /\ head (elems f) = Some m.

(** One call: it drops the current element, and is then at the least of the others. *)
Lemma ui_Next_spec fuel it m ps : union_at it m ps -> (length (left_of ps) < fuel)%nat ->
  exists more it' ps', ui_Next fuel it true = Ret (more, it') /\ (length (left_of ps') < length (left_of ps))%nat /\
    (forall e, e ∈ left_of ps <-> e = m \/ e ∈ left_of ps') /\ Forall (elem_lt m) (left_of ps') /\
    if (more : bool) then exists m', union_at it' m' ps' else left_of ps' = [].
Proof.
  intros [Hh (x0 & f0 & Hhd0 & Hx0 & Hm0)] Hf. unfold ui_Next. destruct (ui_items it) as [|top items0] eqn:Eit; [done|]. rewrite <- Eit in *.
  destruct (heap_of_Pop (ui_items it) ps Hh) as (x & f & items1 & ps1 & -> & Hhd & Hh1 & Hperm & Hx & _); [by rewrite Eit|]. go_ret. cbv beta iota.
  assert (x = x0) as <- by congruence. pose proof Hx0 as (m0 & ks & rest & -> & Hat & _). rewrite elems_cons in Hm0. injection Hm0 as ->.
  pose proof Hx as (m1 & ks1 & rest1 & -> & Hat1 & _). assert (m1 = m) as -> by (by rewrite <- (key_at _ _ _ _ Hat1), (key_at _ _ _ _ Hat)).
  clear Hx0 Hat ks rest. pose proof (left_of_perm _ _ Hperm) as Hlp. cbn [left_of flat_map snd] in Hlp. fold (left_of ps1) in Hlp.
  assert (Forall (elem_le m) (left_of ps)) as Hge.
  { eapply heap_of_min; [exact Hh|exact Hhd|exact Hx|]. by rewrite elems_cons. }
  pose proof (Permutation_length Hlp) as Hlen. rewrite elems_cons, length_app in Hlen. cbn in Hlen.
  destruct (ui_skip_spec x m ks1 rest1 fuel Hat1 Hx items1 ps1 (ui_count it) Hh1) as (items2 & ps2 & c2 & -> & Hh2 & Hlt2 & Hlen2 & Hsub2 & Hcov2).
  { rewrite Hlp in Hge. by apply Forall_app in Hge as [_ ?]. }
  { lia. }
  go_ret. cbv beta iota. destruct (holds_moved x m ks1 rest1 true Hx Hat1) as (Hsub & Habove & Hmove). cbv iota in Hsub, Habove, Hmove.
  assert (exists items3 ps3 c3, (
      '(more, least) ← ni_Next x true;
      (if (more : bool) then items ← heap_Push nodes_less items2 least; Ret ((0 <? length items)%nat, mkUnion items (c2 + 1))
       else Ret ((0 <? length items2)%nat, mkUnion items2 c2))) = Ret ((0 <? length items3)%nat, mkUnion items3 c3) /\ heap_of items3 ps3 /\
      left_of ps3 ≡ₚ elems (ks1 ++ rest1) ++ left_of ps2) as (items3 & ps3 & c3 & -> & Hh3 & Hl3).
  { destruct (ks1 ++ rest1) as [|t g].
    - destruct Hmove as (x' & ->). go_ret. by exists items2, ps2, c2.
    - destruct Hmove as (x' & -> & Hx'). go_ret. cbv beta iota. destruct (heap_of_Push items2 ps2 x' (t :: g) Hh2 Hx') as (items3 & ps3 & -> & Hh3 & Hp3).
      go_ret. exists items3, ps3, (c2 + 1). split; [done|]. split; [done|]. by apply left_of_perm in Hp3. }
  exists (0 <? length items3)%nat, (mkUnion items3 c3), ps3. split; [done|].
  split; [rewrite (Permutation_length Hl3), length_app; lia|]. split; [|split].
  - intros e. rewrite Hl3, Hlp, elems_cons, !elem_of_app, elem_of_cons. split.
    + intros [[->|?]|He]; [by left|by right; left|]. destruct (Hcov2 e He) as [?|Hc]; [by right; right|].
      rewrite elems_cons in Hc. apply elem_of_cons in Hc as [->|?]; [by left|by right; left].
    + intros [->|[?|?]]; [by left; left|by left; right|right; by apply Hsub2].
  - rewrite Hl3. apply Forall_app. done.
  - destruct items3 as [|y items3]; cbn.
    + destruct Hh3 as (E & _). by destruct ps3.
    + pose proof Hh3 as (E & Hfor & _). destruct ps3 as [|[y' g] ps3]; [done|]. injection E as -> ->.
      apply Forall_cons in Hfor as [(e & ks & rest & Eg & Hy & Hs & Hw) _]. cbn in Eg, Hy. exists e. split; [done|].
      exists y', g. split; [done|]. split; [exists e, ks, rest; done|]. rewrite Eg. by rewrite elems_cons.
Qed.

Lemma union_visit fuel it m ps : union_at it m ps -> @visit _ (unionIterator_methods fuel) it = Ret m.
Proof.
  intros [_ (x & f & Hhd & (e & ks & rest & -> & Hx & _) & Hm)]. rewrite elems_cons in Hm. injection Hm as ->.
  pose proof (visit_at x m ks rest Hx) as Hv. unfold visit in *. cbn [ni_Path ni_Hash ni_Leaf ni_LeafBlob unionIterator_methods].
  unfold ui_Path, ui_Hash, ui_Leaf, ui_LeafBlob, ui_first. destruct (ui_items it) as [|x' items]; [done|]. injection Hhd as ->. go_ret. exact Hv.
Qed.

Lemma union_tour fuel n : forall it m ps, union_at it m ps -> (length (left_of ps) < fuel)%nat -> (length (left_of ps) < n)%nat ->
  exists l last_, @tour _ (unionIterator_methods fuel) n it = Ret (l, last_) /\ sorted (m :: l) /\ forall e, e ∈ left_of ps <-> e ∈ m :: l.
Proof.
  induction n as [|n IH]; intros it m ps Hu Hf Hn; [lia|].
  cbn [tour ni_Next unionIterator_methods].
  destruct (ui_Next_spec fuel it m ps Hu Hf) as (more & it' & ps' & -> & Hlen & Hiff & Habove & Hmore). go_ret. cbv beta iota. destruct more.
  - destruct Hmore as (m' & Hu'). rewrite (union_visit fuel it' m' ps' Hu'). go_ret.
    destruct (IH it' m' ps' Hu') as (l & last_ & -> & Hs & Hl); [lia|lia|]. go_ret. cbv beta iota. exists (m' :: l), last_. split; [done|].
    split; [|intros e; by rewrite Hiff, Hl, <- elem_of_cons].
    constructor; [done|]. apply Forall_forall. intros e He. rewrite Forall_forall in Habove. by apply Habove, Hl.
  - exists [], it'. split; [done|]. split; [by repeat constructor|]. intros e. rewrite Hiff, Hmore, list_elem_of_singleton, elem_of_nil. tauto.
Qed.
End union.

Section difference_tour.
Context {I J : Type} `{NodeIterator I} `{NodeIterator J} {at_a : I -> elem -> list twig -> list twig -> Prop}
  {at_b : J -> elem -> list twig -> list twig -> Prop} `{!NodeIteratorLaws I at_a} `{!NodeIteratorLaws J at_b}.

Lemma start_new f : sorted (start :: elems f) -> start ∉ elems f.
Proof. intros Hs Hin. apply (irreflexivity elem_lt start). by eapply sorted_above. Qed.

Lemma fresh_start fa fb : sorted (start :: elems fb) ->
  fresh_of (start :: elems fa) (elems fb) = filter (.∉ elems fa) (elems fb).
Proof.
  intros Hs%start_new. unfold fresh_of. revert Hs. generalize (elems fb) as l. induction l as [|x l IH]; intros Hl; [done|].
  apply not_elem_of_cons in Hl as [Hx Hl]. rewrite !filter_cons, IH by done.
  destruct (decide (x ∉ start :: elems fa)) as [Hd|Hd], (decide (x ∉ elems fa)) as [Hd'|Hd']; [done|..|done]; exfalso; set_solver.
Qed.

(** The first iterator is moved to its first element, if there is one. *)
Lemma difference_opens a b fa fb : at_a a start [] fa -> at_b b start [] fb -> sorted (start :: elems fa) -> sorted (start :: elems fb) ->
  coherent fa fb -> exists it, NewDifferenceIterator a b = Ret it /\
    diff_at (at_a:=at_a) (at_b:=at_b) (start :: elems fa) it start (filter (.∉ elems fa) (elems fb)).
Proof.
  intros Ha Hb Hsa Hsb Hco. pose proof (start_new fb Hsb) as Hns. pose proof (fresh_start fa fb Hsb) as Efr.
  unfold NewDifferenceIterator. pose proof (ni_moves a start [] _ Ha true) as Hm. cbn [app] in Hm.
  assert (forall f, elems f ⊆ start :: elems fa -> elems fa ⊆ elems f -> sorted (elems f) -> coherent f fb -> abreast (start :: elems fa) f fb) as Hab.
  { intros f Hsub Hcov Hs Hcf. split; [done|by apply StronglySorted_inv in Hsb as [? _]| |done|done].
    intros e He [->|Hal]%elem_of_cons; [done|by apply Hcov]. }
  assert (exists a' ea ka ra, ni_Next a true = Ret (negb (bool_decide (fa = [])), a') /\ at_a a' ea ka ra /\
    abreast (start :: elems fa) (Twig ea ka :: ra) fb) as (a' & ea & ka & ra & -> & Ha' & Hab').
  { destruct fa as [|[e ks] rest].
    - destruct Hm as (a' & E & Ha'). exists a', start, [], []. split; [done|]. split; [done|]. apply Hab; [intros x Hx; exact Hx|by intros x Hx%elem_of_nil|by repeat constructor|].
      intros x y Hx. cbn in Hx. apply list_elem_of_singleton in Hx as ->. cbn. done.
    - destruct Hm as (a' & E & Ha'). exists a', e, ks, rest. split; [done|]. split; [done|]. apply Hab; [intros x Hx; by right|done| |done].
      by apply StronglySorted_inv in Hsa as [? _]. }
  go_ret. cbv beta iota. eexists. split; [done|]. exists [], fb. split; [done|]. split; [done|]. by exists ea, ka, ra.
Qed.

Lemma difference_walk a b fa fb : at_a a start [] fa -> at_b b start [] fb -> sorted (start :: elems fa) -> sorted (start :: elems fb) ->
  coherent fa fb -> exists it, NewDifferenceIterator a b = Ret it /\
    exists N, forall fuel, (N <= fuel)%nat -> exists last_,
      @tour _ (differenceIterator_methods fuel) fuel it = Ret (filter (.∉ elems fa) (elems fb), last_).
Proof.
  intros Ha Hb Hsa Hsb Hco. destruct (difference_opens a b fa fb Ha Hb Hsa Hsb Hco) as (it & E & Hd). exists it. split; [done|].
  exists (S (length (start :: elems fa) + length (elems fb))). intros fuel Hf.
  eapply (diff_tour (at_a:=at_a) (at_b:=at_b)); [|exact Hd|]; [lia|]. pose proof (length_filter (.∉ elems fa) (elems fb)). lia.
Qed.
End difference_tour.

Lemma sorted_filter (P : elem -> Prop) `{!forall x, Decision (P x)} l : sorted l -> sorted (filter P l).
Proof.
  induction 1 as [|x l _ IH Hx]; [constructor|]. rewrite filter_cons. case_decide; [|done]. constructor; [done|].
  apply Forall_forall. intros y Hy. apply list_elem_of_filter in Hy as [_ Hy]. rewrite Forall_forall in Hx. by apply Hx.
Qed.

Section union_tour.
Context {I : Type} `{NodeIterator I} {at_ : I -> elem -> list twig -> list twig -> Prop} `{!NodeIteratorLaws I at_}.

Lemma sorted_unique l1 l2 : sorted l1 -> sorted l2 -> (forall e, e ∈ l1 <-> e ∈ l2) -> l1 = l2.
Proof.
  intros H1 H2 Hiff. apply (StronglySorted_unique_strong elem_lt); [|done|done|].
  - intros x y _ _ Hxy Hyx. by destruct (elem_lt_le x y Hxy (or_intror Hyx)).
  - apply NoDup_Permutation; [by apply elems_sorted_nodup|by apply elems_sorted_nodup|done].
Qed.

Definition source_ok (it : I) (f : list twig) : Prop := at_ it start [] f /\ sorted (start :: elems f).

(** The sources with their forests, at the start. *)
Lemma sources_begin world its fs : Forall2 source_ok its fs -> Twig start [] ∈ world -> (forall f, f ∈ fs -> allsubs f ⊆ world) ->
  exists ps, ps.*1 = its /\ ps.*2 = (fun f => Twig start [] :: f) <$> fs /\ Forall (fun p => holds_forest (at_:=at_) world p.1 p.2) ps.
Proof.
  induction 1 as [|x f its fs [Hx Hs] _ IH]; intros Hst Hw; [by exists []|].
  destruct IH as (ps & <- & E2 & Hps); [done|intros g Hg; apply Hw; by right|]. exists ((x, Twig start [] :: f) :: ps).
  split; [done|]. split; [cbn; by rewrite E2|]. constructor; [|done]. exists start, [], f. split; [done|]. split; [done|].
  cbn [snd]. rewrite elems_cons, allsubs_cons. split; [done|]. intros y [->|Hy]%elem_of_cons; [done|]. apply (Hw f); [left|done].
Qed.

Lemma union_opens its fs : Forall2 source_ok its fs -> (forall f g, f ∈ fs -> g ∈ fs -> coherent f g) -> its <> [] ->
  let world := Twig start [] :: flat_map allsubs fs in
  (forall x y, x ∈ world -> y ∈ world -> t_elem x = t_elem y -> e_hash (t_elem x) <> zero_hash -> x = y) /\
  exists it ps, NewUnionIterator its = Ret it /\ union_at (at_:=at_) world it start ps /\
    forall e, e ∈ left_of ps <-> e = start \/ exists f, f ∈ fs /\ e ∈ elems f.
Proof.
  intros Hsrc Hco Hne world. split.
  { intros x y Hx Hy E Hnz. unfold world in Hx, Hy. apply elem_of_cons in Hx as [->|Hx]; [by destruct Hnz|].
    apply elem_of_cons in Hy as [->|Hy]; [by destruct Hnz; rewrite E|].
    apply list_elem_of_In, in_flat_map in Hx as (f & Hf & Hx), Hy as (g & Hg & Hy).
    apply (Hco f g); by try apply list_elem_of_In. }
  destruct (sources_begin world its fs Hsrc) as (ps0 & E1 & E2 & Hps0); [left| |].
  { intros f Hf x Hx. right. apply list_elem_of_In, in_flat_map. exists f. split; by apply list_elem_of_In. }
  destruct (heap_Init_spec nodes_less (item_ok (at_:=at_) world) item_le (nodes_less_spec world) its) as (h & Eh & Hp & Hh).
  { rewrite <- E1. by apply heap_of_ok. }
  rewrite <- E1 in Hp. apply Permutation_sym in Hp. pose proof Hp as Hp'. symmetry in Hp'. apply Permutation_map_inv in Hp' as (ps & Ep & Hperm).
  assert (Forall (fun p => p.2 ∈ (fun f => Twig start [] :: f) <$> fs) ps) as Hin.
  { rewrite <- Hperm. apply Forall_forall. intros p Hpin. rewrite <- E2. apply list_elem_of_fmap. by exists p. }
  rewrite Hperm in Hps0. exists (mkUnion h 0), ps. split; [unfold NewUnionIterator; by rewrite Eh|]. split.
  - split; [done|]. cbn [ui_items]. destruct ps as [|[x f] ps].
    { exfalso. apply Permutation_sym, Permutation_nil in Hperm. subst ps0. by rewrite <- E1 in Hne. }
    apply Forall_cons in Hps0 as [Hx _]. apply Forall_cons in Hin as [(g & Eg & _)%list_elem_of_fmap _]. cbn in Eg. exists x, f.
    split; [by rewrite Ep|]. split; [done|]. by rewrite Eg, elems_cons.
  - intros e. rewrite elem_of_left_of. split.
    + intros (p & Hpin & He). rewrite Forall_forall in Hin. destruct (proj1 (list_elem_of_fmap _ _ _) (Hin p Hpin)) as (f & Ef & Hf).
      rewrite Ef, elems_cons in He. apply elem_of_cons in He as [->|He]; [by left|right; by exists f].
    + assert (forall f, f ∈ fs -> exists p, p ∈ ps /\ p.2 = Twig start [] :: f) as Hall.
      { intros f Hf. assert (Twig start [] :: f ∈ ps0.*2) as Hin0 by (rewrite E2; apply list_elem_of_fmap; by exists f).
        apply list_elem_of_fmap in Hin0 as (p & Ep0 & Hp0). exists p. split; [by rewrite <- Hperm|done]. }
      intros [->|(f & Hf & He)].
      * destruct Hsrc as [|x f its fs]; [done|]. destruct (Hall f) as (p & Hpin & E); [left|]. exists p. split; [done|]. rewrite E, elems_cons. left.
      * destruct (Hall f Hf) as (p & Hpin & E). exists p. split; [done|]. rewrite E, elems_cons. by right.
Qed.

Lemma union_walk its fs : Forall2 source_ok its fs -> (forall f g, f ∈ fs -> g ∈ fs -> coherent f g) ->
  exists it seen, NewUnionIterator its = Ret it /\ sorted seen /\ (forall e, e ∈ seen <-> exists f, f ∈ fs /\ e ∈ elems f) /\
    exists N, forall fuel, (N <= fuel)%nat -> exists last_, @tour _ (unionIterator_methods fuel) fuel it = Ret (seen, last_).
Proof.
  intros Hsrc Hco. destruct (decide (fs = [])) as [->|Hne].
  { inversion Hsrc; subst. exists (mkUnion [] 0), []. split; [done|]. split; [constructor|]. split.
    - intros e. split; [by intros ?%elem_of_nil|]. intros (f & ?%elem_of_nil & _). done.
    - exists 1%nat. intros [|fuel] Hf; [lia|]. by eexists. }
  destruct (union_opens its fs Hsrc Hco) as (Hw & it & ps & E & Hu & Hleft); [by intros ->; inversion Hsrc; subst|].
  assert (forall fuel, (length (left_of ps) < fuel)%nat -> exists l last_, @tour _ (unionIterator_methods fuel) fuel it = Ret (l, last_) /\
    sorted l /\ forall e, e ∈ l <-> exists f, f ∈ fs /\ e ∈ elems f) as Ht.
  { intros fuel Hf. destruct (union_tour _ Hw fuel fuel it start ps Hu Hf Hf) as (l & last_ & Et & Hs & Hl). exists l, last_. split; [done|].
    split; [by apply StronglySorted_inv in Hs as [? _]|]. intros e. specialize (Hleft e). rewrite Hl, elem_of_cons in Hleft.
    assert (start ∉ l) as Hn1 by (intros Hin; apply (irreflexivity elem_lt start); by eapply sorted_above).
    assert (forall f, f ∈ fs -> start ∉ elems f) as Hn2.
    { intros f Hf'. destruct (proj1 (list_elem_of_lookup _ _) Hf') as [i Ei]. destruct (Forall2_lookup_r _ _ _ _ _ Hsrc Ei) as (x & _ & [_ Hsf]). by apply start_new. }
    split; intros He.
    - destruct (proj1 Hleft (or_intror He)) as [->|?]; done.
    - destruct (proj2 Hleft (or_intror He)) as [->|?]; [|done]. destruct He as (f & Hf' & He). by destruct (Hn2 f Hf'). }
  destruct (Ht (S (length (left_of ps))) ltac:(lia)) as (l & _ & _ & Hs & Hl). exists it, l. do 3 (split; [done|]).
  exists (S (length (left_of ps))). intros fuel Hf. destruct (Ht fuel ltac:(lia)) as (l' & last_ & Et & Hs' & Hl'). exists last_. rewrite Et.
  do 2 f_equal. apply sorted_unique; [done|done|]. intros e. by rewrite Hl', Hl.
Qed.
End union_tour.
