(* ===== verification/Combined.v ===== *)
(** * Difference and union of tries

    A trie is a forest of elements; the node iterator walks it and so keeps the promise
    of [Combining].  Hashes that do not collide make two tries agree on what is below a
    hash, so the difference and the union iterator over tries are right. *)

From stdpp Require Import base gmap strings list sorting.
From Stdlib Require Import ZArith Lia.
From S2P Require Import Prelude Encoding Node TrieSpec Trie TrieMap Hasher Reload Database MerkleProof Iterator Iteration Combine HeapOrder Combining.

Local Open Scope Z_scope.

(** ** The forest of a trie *)

(** A hash has no negative byte, and the empty string is cropped to the zero hash. *)
Class HashBytes `{HashEnv} `{EthCommon} : Prop := {
  keccak256_nonneg : forall b, Forall (fun x => 0 <= x) (keccak256 b);
  BytesToHash_nil : BytesToHash [] = zero_hash;
}.

Section forest.
Context `{HashEnv} `{EthCommon}.

(** The hash a node is stored under; embedded nodes and values have none. *)
Definition node_hash (p : list Z) (t : ptrie) : list Z :=
  if pinner t && (bool_decide (p = []) || (32 <=? length (penc t))%nat) then keccak256 (penc t) else zero_hash.
Definition node_elem (p : list Z) (t : ptrie) : elem := mkElem p (node_hash p t) (match t with PVal v => v | _ => [] end).

Fixpoint forest (p : list Z) (t : ptrie) : list twig :=
  match t with
  | PNil => []
  | PVal _ => [Twig (node_elem p t) []]
  | PShort k c => [Twig (node_elem p t) (forest (p ++ k) c)]
  | PFull cs => [Twig (node_elem p t) (kids (fun i c => forest (p ++ [Z.of_nat i]) c) 0 cs)]
  end.

(** The forest below a node, from the child after [idx] on. *)
Definition beneath (p : list Z) (t : ptrie) (idx : Z) : list twig :=
  match t with
  | PShort k c => if idx <? 0 then forest (p ++ k) c else []
  | PFull cs => kids (fun i c => forest (p ++ [Z.of_nat i]) c) (Z.to_nat (idx + 1)) (drop (Z.to_nat (idx + 1)) cs)
  | _ => []
  end.

Definition node_twig (x : list Z * ptrie) : twig := Twig (node_elem x.1 x.2) (beneath x.1 x.2 (-1)).

Lemma forest_twig p t : t <> PNil -> forest p t = [node_twig (p, t)].
Proof. destruct t; done. Qed.

Lemma forest_pre t : forall p, allsubs (forest p t) = node_twig <$> pre p t.
Proof.
  induction t as [|v|k c IH|cs IH] using ptrie_nested_ind; intros p; [done|done|..].
  - cbn [forest pre]. rewrite allsubs_cons, app_nil_r. cbn [fmap list_fmap]. f_equal. apply IH.
  - cbn [forest pre]. rewrite allsubs_cons, app_nil_r. cbn [fmap list_fmap]. f_equal.
    generalize 0%nat as i. induction cs as [|c cs IHcs]; intros i; [done|]. cbn [kids]. rewrite flat_map_app, fmap_app.
    f_equal; [by apply (IH 0%nat c)|]. apply IHcs. intros j c' E. by apply (IH (S j) c').
Qed.

Lemma elems_forest p t : elems (forest p t) = (fun x => node_elem x.1 x.2) <$> pre p t.
Proof. unfold elems. rewrite forest_pre, <- list_fmap_compose. done. Qed.

Lemma kids_skip {A} (f : nat -> ptrie -> list A) ts i j : (i <= j <= length ts)%nat ->
  (forall m t, (i <= m < j)%nat -> ts !! m = Some t -> f m t = []) -> kids f i (drop i ts) = kids f j (drop j ts).
Proof.
  intros Hij. remember (j - i)%nat as d eqn:Ed. revert i Hij Ed. induction d as [|d IH]; intros i Hij Ed Hn.
  - by replace i with j by lia.
  - destruct (lookup_lt_is_Some_2 ts i) as [t Et]; [lia|]. rewrite (kids_drop f i ts i t Et), (Hn i t) by (lia || done).
    apply IH; [lia|lia|]. intros m t' Hm. apply Hn. lia.
Qed.

Lemma findChild_first cs path anc i :
  match findChild cs i path anc with
  | None => forall j c, (i <= j)%nat -> cs !! j = Some c -> is_nil c = true
  | Some (st, q, j) => exists c, (i <= j)%nat /\ cs !! j = Some c /\ is_nil c = false /\ st = child_state c anc path /\
      q = path ++ [Z.of_nat j] /\ forall m c', (i <= m < j)%nat -> cs !! m = Some c' -> is_nil c' = true
  end.
Proof.
  unfold findChild. remember (length cs - i)%nat as d eqn:Ed. revert i Ed. induction d as [|d IH]; intros i Ed.
  { rewrite drop_ge by lia. cbn. intros j c Hj E. apply lookup_lt_Some in E. lia. }
  destruct (lookup_lt_is_Some_2 cs i) as [c Ec]; [lia|]. rewrite (drop_S _ _ _ Ec). specialize (IH (S i) ltac:(lia)).
  destruct (is_nil c) eqn:En.
  - destruct c; try done. cbn [findChild_loop]. destruct (findChild_loop (drop (S i) cs) (S i) path anc) as [[[st q] j]|].
    + destruct IH as (c & Hj & E & En' & ? & ? & Hm). exists c. split; [lia|]. do 4 (split; [done|]). intros m c' Hmj Ec'.
      destruct (decide (m = i)) as [->|]; [by rewrite Ec in Ec'; injection Ec' as <-|]. apply (Hm m); [lia|done].
    + intros j c Hj E. destruct (decide (j = i)) as [->|]; [by rewrite Ec in E; injection E as <-|]. apply (IH j); [lia|done].
  - assert (findChild_loop (c :: drop (S i) cs) i path anc = Some (child_state c anc path, path ++ [Z.of_nat i], i)) as -> by (by destruct c).
    exists c. split; [lia|]. do 4 (split; [done|]). intros. lia.
Qed.
End forest.

(** ** The node iterator keeps the promise *)

Section walking.
Context `{RLPLaws} `{EthCommon} `{!HashLaws} `{!CollisionFree} `{!HashBytes} (clean : list Z -> ptrie -> Prop).
#[local] Instance flags_walk : FlagSpec := hash_flags clean.
Context (Node : node_source).

(** The nodes that the store serves carry their hashes. *)
Definition serves_settled (rd : trieReader) : Prop :=
  forall p h t, expands rd p (HashNode h) t ->
  exists n, Node (tr_owner rd) p (BytesToHash h) = Ret (Ok n) /\ is_inner n = true /\ expands rd p n t /\ settled p n t.

Lemma serves_settled_nodes rd : serves_settled rd -> serves_nodes clean rd Node.
Proof. intros Hs p h t He. destruct (Hs p h t He) as (n & ? & ? & ? & _). by exists n. Qed.

(** A state for the node [t] at [path], not yet descended into; once it is loaded its
    hash is known. *)
Record new_state (rd : trieReader) (st : nodeIteratorState) (path : list Z) (t : ptrie) : Prop := {
  ns_expands : expands rd path (st_node st) t;
  ns_settled : settled path (st_node st) t;
  ns_spot : spot path t;
  ns_index : st_index st = -1;
  ns_hash : resolved (st_node st) = true -> st_hash st = node_hash path t;
}.

(** The cached hash of a settled node. *)
Lemma cached_hash rd path n t : expands rd path n t -> settled path n t -> resolved n = true ->
  BytesToHash (default [] (cache n).1) = node_hash path t.
Proof.
  intros He Hs Hr. destruct He as [p|p v|p k c f t Hf _ _|p cs f ts Hf _ _ _|p h n t]; try done.
  1, 2: cbn; apply BytesToHash_nil.
  1: inversion Hs as [| |? ? ? ? ? Hn _| |]; subst. 2: inversion Hs as [| | |? ? ? ? Hn _ _|]; subst.
  1, 2: unfold node_hash; cbn [pinner cache fst andb]; destruct (hash f) as [h|] eqn:Eh;
    [destruct (proj1 Hf h Eh) as [-> Hl]; cbn [default]; rewrite BytesToHash_id by apply keccak256_length
    |destruct (Hn eq_refl) as [Hp Hl]; cbn [default]; rewrite BytesToHash_nil].
  1, 3: destruct Hl as [->|Hl]; [by rewrite bool_decide_true|rewrite (proj2 (Nat.leb_le _ _)) by done; by rewrite orb_true_r].
  1, 2: by rewrite bool_decide_false, (proj2 (Nat.leb_gt _ _)).
Qed.

Lemma stored_hash path h t : flag_ok path (mkFlag (Some h) false) t -> pinner t = true -> BytesToHash h = node_hash path t.
Proof.
  intros Hf Hi. destruct (proj1 Hf h eq_refl) as [-> Hl]. rewrite BytesToHash_id by apply keccak256_length. unfold node_hash. rewrite Hi. cbn [andb].
  destruct Hl as [->|Hl]; [by rewrite bool_decide_true|]. rewrite (proj2 (Nat.leb_le _ _)) by done. by rewrite orb_true_r.
Qed.

Lemma child_state_new rd c anc path q s : expands rd q c s -> settled q c s -> spot q s -> new_state rd (child_state c anc path) q s.
Proof. intros He Hst Hs. split; cbn; try done. intros Hr. by eapply cached_hash. Qed.

Lemma resolve_new it rd st path t : serves_settled rd -> reader (it_trie it) = rd -> it_resolver it = None -> new_state rd st path t ->
  exists st', st_resolve Node it st path = Ret (Ok st') /\ new_state rd st' path t /\ resolved (st_node st') = true /\ st_pathlen st' = st_pathlen st.
Proof.
  intros Hread Hr Hn Hst. pose proof Hst as [He Hse Hs Hi Hh]. unfold st_resolve. destruct (st_node st) as [|v|h|k c f|cs f] eqn:En;
    try (exists st; rewrite En; done).
  inversion He as [| | | |? ? n0 ? Hf Hl _ Hn0]; subst. destruct (Hread path h t He) as (n & E & Hin & Hne & Hnse).
  assert (reader_node (reader (it_trie it)) Node path (BytesToHash h) = Ret (Ok n)) as En'.
  { destruct (serves_reader_node clean _ Node path h t (serves_settled_nodes _ Hread) He) as (n' & E' & _). unfold reader_node in *.
    destruct (is_banned _ path); [done|]. destruct (tr_reader _); [|done]. rewrite E. go_ret. by destruct n. }
  unfold resolveHash. rewrite Hn, En'. go_ret. eexists. split; [done|]. cbn. split; [|split; [by destruct n|done]]. split; cbn; try done.
  intros _. apply stored_hash; [done|]. eapply expands_pinner; [exact Hn0|by eapply load_inner].
Qed.

(** The stack at a path with the forest that is still to be visited. *)
Inductive walk_stack (rd : trieReader) : list nodeIteratorState -> list Z -> list twig -> Prop :=
| ws_nil : walk_stack rd [] [] []
| ws_cons st rest path t todo :
    expands rd path (st_node st) t -> settled path (st_node st) t -> resolved (st_node st) = true -> spot path t ->
    (st_pathlen st <= length path)%nat -> -1 <= st_index st ->
    walk_stack rd rest (take (st_pathlen st) path) todo ->
    walk_stack rd (st :: rest) path (beneath path t (st_index st) ++ todo).

Lemma beneath_full path ts j s : ts !! j = Some s -> s <> PNil ->
  kids (fun i c => forest (path ++ [Z.of_nat i]) c) j (drop j ts) = node_twig (path ++ [Z.of_nat j], s) :: beneath path (PFull ts) (Z.of_nat j).
Proof.
  intros E Hs. rewrite (kids_drop _ j ts j s E), forest_twig by done. cbn [beneath app]. by replace (Z.to_nat (Z.of_nat j + 1)) with (S j) by lia.
Qed.

Lemma nextChild_walk rd parent anc path t : expands rd path (st_node parent) t -> settled path (st_node parent) t ->
  resolved (st_node parent) = true -> spot path t -> -1 <= st_index parent ->
  match nextChild parent anc path with
  | None => beneath path t (st_index parent) = []
  | Some (st, q, parent') => exists s, new_state rd st q s /\ (exists y, q = path ++ y) /\ st_pathlen st = length path /\
      parent' = st_at parent (st_index parent') /\ -1 <= st_index parent' /\
      beneath path t (st_index parent) = node_twig (q, s) :: beneath path t (st_index parent' + 1)
  end.
Proof.
  intros He Hst Hr Hs Hi. unfold nextChild. destruct (st_node parent) as [|v|h|k c f|cs f] eqn:En; try done.
  - inversion He; subst. by destruct Hs as (b & _ & _ & ?).
  - by inversion He; subst.
  - inversion He as [| |? ? ? ? t' _ _ Hc| |]; subst. inversion Hst as [| |? ? ? ? ? _ Hsc| |]; subst. destruct (spot_short _ _ _ Hs) as [Hpc _].
    cbn [beneath]. destruct (Z.ltb_spec (st_index parent) 0) as [Hlt|]; [|done]. exists t'. split; [by apply child_state_new|]. split; [by eexists|].
    split; [done|]. split; [by destruct parent|]. split; [done|]. destruct (Z.ltb_spec (st_index parent + 1) 0); [lia|].
    apply forest_twig. by destruct Hpc as (? & _ & _ & ?).
  - inversion He as [| | |? ? ? ts _ _ Hlen Hch|]; subst. inversion Hst as [| | |? ? ? ? _ _ Hsc|]; subst.
    pose proof (findChild_first cs path anc (Z.to_nat (st_index parent + 1))) as Hf.
    assert (forall j c, cs !! j = Some c -> is_nil c = true -> forall s, ts !! j = Some s -> forest (path ++ [Z.of_nat j]) s = []) as Hnil.
    { intros j c Ec Enil s Es. pose proof (expands_nil _ _ _ _ (Hch j c s Ec Es)) as E. rewrite Enil in E. by destruct s. }
    set (i := Z.to_nat (st_index parent + 1)) in *. destruct (findChild cs i path anc) as [[[st q] j]|].
    + destruct Hf as (c & Hij & Ec & Enil & -> & -> & Hbetween). pose proof (lookup_lt_Some _ _ _ Ec) as Hjl.
      destruct (lookup_lt_is_Some_2 ts j) as [s Es]; [lia|]. pose proof (Hch j c s Ec Es) as Hec.
      assert (s <> PNil) as Hns by (rewrite (expands_nil _ _ _ _ Hec) in Enil; by destruct s).
      exists s. split; [apply child_state_new; [done|by apply Hsc|by eapply spot_full]|]. split; [by eexists|]. split; [done|]. split; [done|].
      cbn [st_index st_at]. split; [lia|]. rewrite Z.sub_add, <- (beneath_full path ts j s Es Hns). cbn [beneath]. fold i. apply kids_skip; [lia|].
      intros m t Hm Et. destruct (lookup_lt_is_Some_2 cs m) as [c' Ec']; [lia|]. by eapply Hnil; [|eapply Hbetween|].
    + cbn [beneath]. fold i. destruct (decide (i <= length ts)%nat); [|by rewrite drop_ge by lia]. rewrite (kids_skip _ ts i (length ts)); [by rewrite drop_all|lia|].
      intros m t Hm Et. destruct (lookup_lt_is_Some_2 cs m) as [c' Ec']; [lia|]. eapply Hnil; [done|eapply (Hf m); [lia|done]|done].
Qed.

Abbreviation next_child := (fun parent ancestor path => Ret (nextChild parent ancestor path)).

(** A state on the top of the stack. *)
Definition on_top (rd : trieReader) (st : nodeIteratorState) (rest : list nodeIteratorState) (path : list Z) (t : ptrie) (todo : list twig) : Prop :=
  new_state rd st path t /\ resolved (st_node st) = true /\ (st_pathlen st <= length path)%nat /\
  walk_stack rd rest (take (st_pathlen st) path) todo.

Lemma peek_loop_walk rd it : serves_settled rd -> reader (it_trie it) = rd -> it_resolver it = None ->
  forall stack path todo, walk_stack rd stack path todo ->
  match todo with
  | [] => peek_loop Node next_child it stack path = Ret (Err errIteratorEnd, it_at it [] [])
  | x :: todo' => exists st q s parent rest path', x = node_twig (q, s) /\
      peek_loop Node next_child it stack path = Ret (Ok (st, true, q), it_at it (parent :: rest) path') /\
      on_top rd st (st_at parent (st_index parent + 1) :: rest) q s todo'
  end.
Proof.
  intros Hread Hr Hn. induction 1 as [|parent rest path t todo He Hse Hres Hs Hl Hi Hrest IH]; [done|].
  cbn [peek_loop]. set (anc := if bool_decide _ then _ else _). go_ret.
  pose proof (nextChild_walk rd parent anc path t He Hse Hres Hs Hi) as Hc.
  destruct (nextChild parent anc path) as [[[st q] parent']|]; [|rewrite Hc; exact IH].
  destruct Hc as (s & Hnew & [y ->] & Hpl & Hp & Hpi & ->). cbn [app].
  destruct (resolve_new it rd st _ s Hread Hr Hn Hnew) as (st' & E & Hnew' & Hres' & Epl). rewrite E. go_ret. cbv beta iota.
  exists st', (path ++ y), s, parent', rest, path. split; [done|]. split; [done|]. split; [done|]. split; [done|]. rewrite Epl, Hpl.
  split; [rewrite length_app; lia|]. rewrite take_app_length.
  assert (st_node parent' = st_node parent /\ st_pathlen parent' = st_pathlen parent) as [En Ep] by (by rewrite Hp).
  change (st_index parent' + 1) with (st_index (st_at parent' (st_index parent' + 1))) at 2.
  constructor; cbn; rewrite ?En, ?Ep; try done. lia.
Qed.

Record walk_ready (it : nodeIterator) : Prop := {
  wr_resolver : it_resolver it = None;
  wr_serves : serves_settled (reader (it_trie it));
  wr_err : it_err it = None;
}.

(** Where a node iterator can be: before its first step, at a node, at the end. *)
Inductive node_at : nodeIterator -> elem -> list twig -> list twig -> Prop :=
| na_start it pt m : walk_ready it -> it_stack it = [] -> it_path it = [] ->
    hashed_rep clean (it_trie it) m pt -> spot [] pt -> node_at it start [] (forest [] pt)
| na_node it st rest t todo : walk_ready it -> it_stack it = st :: rest ->
    on_top (reader (it_trie it)) st rest (it_path it) t todo ->
    node_at it (node_elem (it_path it) t) (beneath (it_path it) t (-1)) todo
| na_end it : it_err it = Some errIteratorEnd -> it_stack it = [] -> it_path it = [] -> node_at it start [] [].

Lemma node_at_looks it e ks rest : node_at it e ks rest ->
  it_path it = e_path e /\ it_Hash it = e_hash e /\ if hasTerm (e_path e) then LeafBlob it = Ret (e_blob e) else e_blob e = [].
Proof.
  intros [it' pt m _ Est Ep _ _|it' st rest' t todo _ Est ([He _ Hs _ Hh] & Hr & _)|it' _ Est Ep].
  1, 3: unfold it_Hash; by rewrite Est, Ep.
  split; [done|]. split; [unfold it_Hash; rewrite Est; by apply Hh|]. cbn [e_path e_blob node_elem]. destruct t as [|v|k c|cs].
  - by destruct Hs as (? & _ & _ & ?).
  - destruct (spot_value _ _ Hs) as (p & _ & ->). rewrite hasTerm_app. unfold LeafBlob. rewrite Est. destruct (st_node st); by inversion He.
  - by rewrite hasTerm_path by (by eapply spot_inner).
  - by rewrite hasTerm_path by (by eapply spot_inner).
Qed.

(** The first step. *)
Lemma init_walk it pt m : walk_ready it -> hashed_rep clean (it_trie it) m pt -> spot [] pt ->
  exists st t', init Node it = Ret (Ok st, mkNodeIt t' (it_stack it) (it_path it) (it_err it) (it_resolver it)) /\
    reader t' = reader (it_trie it) /\ hashed_rep clean t' m pt /\ new_state (reader (it_trie it)) st [] pt /\ resolved (st_node st) = true /\ st_pathlen st = 0%nat.
Proof.
  intros [Hn Hread _] Hrep Hs. assert (pt <> PNil) as Hne by (by destruct Hs as (? & _ & _ & ?)).
  assert (pinner pt = true) as Hpi by (apply (wf_pinner (loose:=false)); [apply Hrep|by destruct pt]). unfold init.
  destruct (Hash_spec clean (it_trie it) m pt Hrep) as (t' & E & Hrep' & Hset & Er & _). pose proof (proj1 Hrep') as He'. rewrite E. go_ret. cbv beta iota zeta.
  assert (root_hash pt = keccak256 (penc pt)) as Erh by (by destruct pt).
  rewrite (bool_decide_false (root_hash pt = EmptyRootHash)) by (rewrite Erh; by apply List_not_empty).
  set (it' := mkNodeIt t' _ _ _ _). set (st0 := mkNIS _ _ _ _ _). rewrite Er in He'.
  destruct (resolve_new it' (reader (it_trie it)) st0 [] pt Hread) as (st & Es & Hnew & Hres & Hpl); [done|done| |].
  { split; cbn; try done. intros _. rewrite Erh. unfold node_hash. rewrite Hpi, bool_decide_true by done. done. }
  rewrite Es. go_ret. exists st, t'. done.
Qed.

Lemma node_at_moves it e ks rest : node_at it e ks rest -> forall descend : bool,
  match (if descend then ks else []) ++ rest with
  | [] => exists it', Next Node it descend = Ret (false, it') /\ node_at it' start [] []
  | Twig e' ks' :: rest' => exists it', Next Node it descend = Ret (true, it') /\ node_at it' e' ks' rest'
  end.
Proof.
  intros [it' pt m Hwr Est Ep Hrep Hs|it' st rest' t todo Hwr Est Htop|it' Ee Est Ep] descend.
  - replace ((if descend then [] else []) ++ forest [] pt) with (forest [] pt) by (by destruct descend).
    rewrite forest_twig by (by destruct Hs as (? & _ & _ & ?)). unfold Next, step, peek. rewrite (wr_err _ Hwr), Est. unfold peek_init.
    destruct (init_walk it' pt m Hwr Hrep Hs) as (st & t' & -> & Er & _ & Hnew & Hres & Hpl). go_ret. cbv beta iota. go_ret. cbv beta iota.
    eexists. split; [done|]. destruct Hwr as [Hn Hread He]. unfold push. cbn [it_fail it_stack it_at it_path it_trie]. rewrite Est.
    set (it1 := it_at _ _ _). change (node_at it1 (node_elem (it_path it1) pt) (beneath (it_path it1) pt (-1)) []). eapply (na_node it1 st []); [|done|].
    + split; cbn; [done|by rewrite Er|done].
    + unfold on_top. change (reader (it_trie it1)) with (reader t'). change (it_path it1) with (@nil Z). rewrite Er. split; [done|]. split; [done|]. split; [by rewrite Hpl|]. rewrite take_nil. constructor.
  - destruct Htop as (Hnew & Hres & Hl & Hrest). pose proof Hwr as [Hn Hread He]. unfold Next, step, peek. rewrite He, Est. cbv beta iota.
    set (it0 := if descend then it' else pop it').
    assert (walk_stack (reader (it_trie it')) (it_stack it0) (it_path it0) ((if descend then beneath (it_path it') t (-1) else []) ++ todo)) as Hst.
    { unfold it0. destruct descend.
      - rewrite Est, <- (ns_index _ _ _ _ Hnew). destruct Hnew as [? ? ? Hidx _]. constructor; try done. lia.
      - unfold pop. rewrite Est. done. }
    assert (it_trie it0 = it_trie it' /\ it_resolver it0 = None) as [Et0 Er0] by (unfold it0, pop; rewrite Est; by destruct descend).
    pose proof (peek_loop_walk (reader (it_trie it')) it0 Hread ltac:(by rewrite Et0) Er0 _ _ _ Hst) as Hpk.
    destruct ((if descend then beneath (it_path it') t (-1) else []) ++ todo) as [|[e' ks'] rest1].
    + rewrite Hpk. go_ret. eexists. split; [done|]. by apply na_end.
    + destruct Hpk as (st' & q & s & parent & rest2 & path' & [= -> ->] & -> & Htop'). go_ret. eexists. split; [done|].
      unfold push. cbn [it_fail it_stack it_at it_path it_trie fst snd]. set (it1 := it_at _ _ _).
      change (node_at it1 (node_elem (it_path it1) s) (beneath (it_path it1) s (-1)) rest1).
      eapply (na_node it1); [|done|]; [split; cbn; [done|by rewrite Et0|done]|]. change (it_trie it1) with (it_trie it0). rewrite Et0. exact Htop'.
  - replace ((if descend then [] else []) ++ []) with (@nil twig) by (by destruct descend). unfold Next. rewrite Ee. exists it'. split; [done|].
    by apply na_end.
Qed.

#[export] Instance nodeIterator_laws : @NodeIteratorLaws nodeIterator (nodeIterator_methods Node) node_at.
Proof.
  split; cbn [ni_Path ni_Hash ni_Leaf ni_LeafBlob ni_Next nodeIterator_methods].
  - intros it e ks rest Hat. destruct (node_at_looks it e ks rest Hat) as (Ep & -> & Hb). unfold Leaf. rewrite Ep. done.
  - exact node_at_moves.
Qed.

(** ** Iterators over tries *)

Lemma newNodeIterator_walk t m : trie_rep t m -> serves_settled (reader t) ->
  exists it pt, newNodeIterator Node t [] = Ret it /\ pt_holds pt m /\ node_at it start [] (forest [] pt).
Proof.
  intros (pt & He & Hh) Hread. unfold newNodeIterator.
  destruct (Hash_spec clean t m pt) as (t' & E & Hrep' & _ & Er & _); [by split|]. rewrite E. go_ret. cbv beta iota.
  destruct (decide (pt = PNil)) as [->|Hne].
  { rewrite bool_decide_true by done. eexists _, PNil. split; [done|]. split; [done|]. by apply na_end. }
  assert (pinner pt = true) as Hpi by (apply (wf_pinner (loose:=false)); [apply Hh|by destruct pt]).
  rewrite bool_decide_false by (destruct pt; try done; by apply List_not_empty).
  assert (spot [] pt) as Hs by (exists false; split; [apply Hh|]; split; [constructor|done]).
  set (it0 := mkNodeIt t' [] [] None None). assert (walk_ready it0) as Hwr by (split; cbn; [done|by rewrite Er|done]).
  unfold seek. cbn [keybytesToHex flat_map app removelast length Nat.add seek_loop]. unfold peekSeek. cbn [it_stack it0]. unfold peek_init.
  destruct (init_walk it0 pt m Hwr Hrep' Hs) as (st & t2 & E2 & Er2 & Hrep2 & _). fold it0. rewrite E2. go_ret. cbv beta iota. go_ret. cbv beta iota.
  change (0 <=? bytes_Compare [] _) with true. cbv iota. go_ret. eexists _, pt. split; [done|]. split; [done|].
  eapply (na_start _ pt m); [|done|done|exact Hrep2|done]. split; cbn; [done| |done]. rewrite Er2. cbn. by rewrite Er.
Qed.

Lemma before_zeros h : forall n, length h = n -> Forall (fun x => 0 <= x) h -> h <> replicate n 0 -> before (replicate n 0) h.
Proof.
  induction h as [|x h IH]; intros n <- Hp Hne; [done|]. cbn [length replicate]. apply Forall_cons in Hp as [Hx Hp]. apply before_cons.
  destruct (decide (x = 0)) as [->|]; [|left; lia]. right. split; [done|]. apply IH; [done|done|]. intros E. apply Hne. cbn. by f_equal.
Qed.

Lemma forest_sorted pt : spot [] pt -> sorted (start :: elems (forest [] pt)).
Proof.
  intros Hs. pose proof (pre_sorted pt [] Hs) as Hp. assert (pt <> PNil) as Hne by (by destruct Hs as (? & _ & _ & ?)).
  assert (pinner pt = true) as Hpi by (destruct Hs as ([] & Hw & Hk & _); [by apply hex_key_nil in Hk|apply (wf_pinner (loose:=false)); [done|by destruct pt]]).
  rewrite elems_forest. assert (elem_lt start (node_elem [] pt)) as Hroot.
  { right. split; [done|]. left. cbn [e_hash node_elem start]. unfold node_hash. rewrite Hpi, bool_decide_true by done. cbn [andb orb].
    apply (before_zeros _ 32); [apply keccak256_length|apply keccak256_nonneg|apply keccak256_nonzero]. }
  assert (forall l, StronglySorted (fun a b => before a.1 b.1) l -> sorted ((fun x : list Z * ptrie => node_elem x.1 x.2) <$> l)) as Hl.
  { induction 1 as [|x l _ IH Hx]; [constructor|]. cbn. constructor; [done|]. apply Forall_fmap. eapply Forall_impl; [exact Hx|]. intros y Hy. by left. }
  constructor; [by apply Hl|]. rewrite (pre_below [] pt Hne) in *. cbn [fmap list_fmap fst snd]. constructor; [done|].
  apply StronglySorted_inv in Hp as [_ Hp]. apply Forall_fmap. eapply Forall_impl; [exact Hp|]. intros y Hy. left. exact Hy.
Qed.

Lemma elem_of_forest x pt : x ∈ allsubs (forest [] pt) -> pt <> PNil -> wf pt ->
  exists q s, x = node_twig (q, s) /\ spot q s.
Proof.
  intros Hx Hne Hw. assert (spot [] pt) as Hs by (exists false; split; [done|]; split; [constructor|done]).
  rewrite forest_pre in Hx. apply list_elem_of_fmap in Hx as ([q s] & -> & Hx). exists q, s. split; [done|].
  pose proof (pre_spots pt [] Hs) as Hf. rewrite Forall_forall in Hf. by apply (Hf _ Hx).
Qed.

(** Two tries agree on what is below a hash. *)
Lemma forest_coherent pa pb : wf pa -> wf pb -> coherent (forest [] pa) (forest [] pb).
Proof.
  intros Ha Hb x y Hx Hy E Hnz. destruct (decide (pa = PNil)) as [->|Hna]; [by apply elem_of_nil in Hx|].
  destruct (decide (pb = PNil)) as [->|Hnb]; [by apply elem_of_nil in Hy|].
  destruct (elem_of_forest x pa Hx Hna Ha) as (q & s & -> & Hs). destruct (elem_of_forest y pb Hy Hnb Hb) as (q' & s' & -> & Hs').
  cbn [t_elem node_twig fst snd node_elem e_hash] in *. injection E as Eq Eh _. subst q'. f_equal. f_equal.
  unfold node_hash in *. destruct (pinner s) eqn:Hi; cbn [andb] in *; [|done]. destruct (bool_decide (q = []) || (32 <=? length (penc s))%nat); [|done].
  destruct (pinner s') eqn:Hi'; cbn [andb] in *; [|by rewrite Eh in Hnz].
  destruct (bool_decide (q = []) || (32 <=? length (penc s'))%nat); [|by rewrite Eh in Hnz]. apply keccak256_inj in Eh.
  destruct Hs as ([] & Hw & _), Hs' as ([] & Hw' & _); try (by destruct s); try (by destruct s').
  by apply (penc_inj (loose:=false) s s' Hw Hw').
Qed.

(** The bindings are the elements with the paths of keys. *)
Lemma leaf_elem pt m k v : pt_holds pt m -> bytes k ->
  mkElem (keybytesToHex k) zero_hash v ∈ elems (forest [] pt) <-> m !! k = Some v.
Proof.
  intros Hh Hk. destruct (decide (pt = PNil)) as [->|Hne].
  { rewrite <- (holds_get _ _ Hh k Hk). split; [by intros ?%elem_of_nil|done]. }
  assert (spot [] pt) as Hs by (exists false; split; [apply Hh|]; split; [constructor|done]).
  rewrite <- (pre_bindings pt m k v Hh Hk), elems_forest, list_elem_of_fmap. split.
  - intros ([q s] & [= <- Eh ->] & Hin). pose proof (pre_spots pt [] Hs) as Hf. rewrite Forall_forall in Hf. destruct (Hf _ Hin) as [Hsp _].
    cbn [fst snd] in *. destruct s as [|v|c s|cs]; [by destruct Hsp as (? & _ & _ & ?)|done|..]; exfalso;
      pose proof (spot_inner _ _ Hsp eq_refl) as Hp; apply hasTerm_path in Hp; destruct (keybytesToHex_key k Hk) as (p & _ & E); by rewrite E, hasTerm_app in Hp.
  - intros Hin. by exists (keybytesToHex k, PVal v).
Qed.

Lemma holds_sorted pt m : pt_holds pt m -> sorted (start :: elems (forest [] pt)).
Proof.
  intros Hh. destruct (decide (pt = PNil)) as [->|Hne]; [by repeat constructor|]. apply forest_sorted. exists false.
  split; [apply Hh|]. split; [constructor|done].
Qed.

(** C30. The difference iterator over two tries, on any mixture of loaded and stored
    nodes that carry their hashes: the tour of it ends and sees, in ascending order,
    exactly the nodes of the second trie that are not in the first; among them the
    values are the bindings of the second map that the first does not have.  A subtree
    with the same hash in both is left out without being read. *)
Theorem difference_correct (ta tb : Trie) (ma mb : gmap (list Z) (list Z)) :
  trie_rep ta ma -> trie_rep tb mb -> serves_settled (reader ta) -> serves_settled (reader tb) ->
  exists ia ib it pa pb, newNodeIterator Node ta [] = Ret ia /\ newNodeIterator Node tb [] = Ret ib /\
    @NewDifferenceIterator _ _ (nodeIterator_methods Node) ia ib = Ret it /\ pt_holds pa ma /\ pt_holds pb mb /\
    let seen := filter (.∉ elems (forest [] pa)) (elems (forest [] pb)) in
    (exists N, forall fuel, (N <= fuel)%nat -> exists last_,
      @tour _ (@differenceIterator_methods _ _ (nodeIterator_methods Node) (nodeIterator_methods Node) fuel) fuel it = Ret (seen, last_)) /\
    sorted seen /\
    forall k v, bytes k -> mkElem (keybytesToHex k) zero_hash v ∈ seen <-> mb !! k = Some v /\ ma !! k <> Some v.
Proof.
  intros Hta Htb Hra Hrb. destruct (newNodeIterator_walk ta ma Hta Hra) as (ia & pa & Ea & Ha & Hia).
  destruct (newNodeIterator_walk tb mb Htb Hrb) as (ib & pb & Eb & Hb & Hib).
  pose proof (holds_sorted pa ma Ha) as Hsa. pose proof (holds_sorted pb mb Hb) as Hsb.
  destruct (@difference_walk _ _ _ _ _ _ nodeIterator_laws nodeIterator_laws ia ib (forest [] pa) (forest [] pb) Hia Hib Hsa Hsb) as (it & Eit & Ht); [apply forest_coherent; [apply Ha|apply Hb]|].
  exists ia, ib, it, pa, pb. do 6 (split; [done|]). split; [apply sorted_filter; by apply StronglySorted_inv in Hsb as [? _]|].
  intros k v Hk. rewrite list_elem_of_filter, (leaf_elem pa ma k v Ha Hk), (leaf_elem pb mb k v Hb Hk). tauto.
Qed.

Lemma iterators_walk ts ms : Forall2 trie_rep ts ms -> Forall (fun t => serves_settled (reader t)) ts ->
  exists its pts, Forall2 (fun t it => newNodeIterator Node t [] = Ret it) ts its /\ Forall2 pt_holds pts ms /\
    Forall2 (@source_ok _ node_at) its (forest [] <$> pts).
Proof.
  induction 1 as [|t m ts ms Ht _ IH]; intros Hs; [by exists [], []|]. apply Forall_cons in Hs as [Hst Hs].
  destruct (IH Hs) as (its & pts & H1' & H2' & H3'). destruct (newNodeIterator_walk t m Ht Hst) as (it & pt & E & Hh & Hat).
  exists (it :: its), (pt :: pts). split; [by constructor|]. split; [by constructor|]. cbn. constructor; [|done].
  split; [done|by eapply holds_sorted].
Qed.

(** C31. The union iterator over any number of tries: the tour of it ends and sees
    exactly the nodes of all of them, each once and in ascending order; among them the
    values are the bindings of the maps. *)
Theorem union_correct (ts : list Trie) (ms : list (gmap (list Z) (list Z))) :
  Forall2 trie_rep ts ms -> Forall (fun t => serves_settled (reader t)) ts ->
  exists its it pts seen, Forall2 (fun t it => newNodeIterator Node t [] = Ret it) ts its /\
    @NewUnionIterator _ (nodeIterator_methods Node) its = Ret it /\ Forall2 pt_holds pts ms /\
    (exists N, forall fuel, (N <= fuel)%nat -> exists last_,
      @tour _ (@unionIterator_methods _ (nodeIterator_methods Node) fuel) fuel it = Ret (seen, last_)) /\
    sorted seen /\ (forall e, e ∈ seen <-> exists pt, pt ∈ pts /\ e ∈ elems (forest [] pt)) /\
    forall k v, bytes k -> mkElem (keybytesToHex k) zero_hash v ∈ seen <-> exists m, m ∈ ms /\ m !! k = Some v.
Proof.
  intros Hts Hserve. destruct (iterators_walk ts ms Hts Hserve) as (its & pts & Hits & Hpts & Hsrc).
  destruct (@union_walk _ _ _ nodeIterator_laws its (forest [] <$> pts) Hsrc) as (it & seen & Eit & Hs & Hin & Ht).
  { intros f g (pf & -> & Hf)%list_elem_of_fmap (pg & -> & Hg)%list_elem_of_fmap.
    apply list_elem_of_lookup in Hf as [i Hf], Hg as [j Hg]. destruct (Forall2_lookup_l _ _ _ _ _ Hpts Hf) as (mf & _ & Hmf).
    destruct (Forall2_lookup_l _ _ _ _ _ Hpts Hg) as (mg & _ & Hmg). apply forest_coherent; [apply Hmf|apply Hmg]. }
  assert (forall e, e ∈ seen <-> exists pt, pt ∈ pts /\ e ∈ elems (forest [] pt)) as Hin'.
  { intros e. rewrite Hin. split; [intros (f & (pt & -> & Hpt)%list_elem_of_fmap & He); by exists pt|].
    intros (pt & Hpt & He). exists (forest [] pt). split; [apply list_elem_of_fmap; by exists pt|done]. }
  exists its, it, pts, seen. do 6 (split; [done|]). intros k v Hk. rewrite Hin'. split.
  - intros (pt & Hpt & He). apply list_elem_of_lookup in Hpt as [i Hpt]. destruct (Forall2_lookup_l _ _ _ _ _ Hpts Hpt) as (m & Em & Hh).
    exists m. split; [by eapply list_elem_of_lookup_2|]. by apply (leaf_elem pt m k v Hh Hk).
  - intros (m & Hm & Ev). apply list_elem_of_lookup in Hm as [i Hm]. destruct (Forall2_lookup_r _ _ _ _ _ Hpts Hm) as (pt & Ept & Hh).
    exists pt. split; [by eapply list_elem_of_lookup_2|]. by apply (leaf_elem pt m k v Hh Hk).
Qed.
End walking.

(** ** Concrete tries *)

Module CombineSample.
#[local] Existing Instance RLPSample.rlp.
#[local] Existing Instance RLPSample.env.
#[local] Existing Instance RLPSample.rlp_laws.

(** [common.BytesToHash]: the last 32 bytes, filled up with zeros in front. *)
Definition crop (b : list Z) : list Z := replicate (32 - length b) 0 ++ drop (length b - 32) b.
#[local] Instance eth : EthCommon := {| BytesToHash := crop; EmptyRootHash := keccak256 [128] |}.
#[local] Instance hash_laws : HashLaws.
Proof. split; try done. intros h E. cbn. unfold crop. by rewrite E. Qed.
#[local] Instance free : CollisionFree := RLPSample.keccak_inj.
#[local] Instance hash_bytes : HashBytes.
Proof. split; [|done]. intros b. cbn. repeat constructor; lia. Qed.
#[local] Instance flags : FlagSpec := hash_flags (fun _ _ => True).

Definition empty : Trie := mkTrie NilNode [] 0 newEmptyReader newTracer.
Definition grow (kvs : list (list Z * list Z)) : Trie :=
  fold_left (fun t kv => match Trie.Update t kv.1 kv.2 with Ret (_, t) => t | Panic => t end) kvs empty.
Definition mapped (kvs : list (list Z * list Z)) : gmap (list Z) (list Z) := fold_left (fun m kv => <[ kv.1 := kv.2 ]> m) kvs ∅.

Lemma grow_rep kvs : Forall (fun kv => bytes kv.1 /\ kv.2 <> []) kvs -> trie_rep (grow kvs) (mapped kvs).
Proof.
  unfold grow, mapped. assert (trie_rep empty ∅) as He by (exists PNil; split; [constructor|apply pt_holds_empty]).
  revert He. generalize empty as t. generalize (∅ : gmap (list Z) (list Z)) as m. induction kvs as [|[k v] kvs IH]; intros m t Ht Hb; [done|].
  apply Forall_cons in Hb as [[Hk Hv] Hb]. cbn [fold_left fst snd]. cbn in Hk, Hv.
  destruct (trie_Update_spec t m k v Ht Hk) as (t' & -> & Ht' & _). apply IH; [|done]. by destruct v.
Qed.

Definition old_pairs : list (list Z * list Z) := [([18], [7]); ([33], [9])].
Definition new_pairs : list (list Z * list Z) := [([18], [7]); ([33], [9]); ([18; 5], [8])].

Lemma old_rep : trie_rep (grow old_pairs) (mapped old_pairs).
Proof. apply grow_rep. repeat constructor; try done; unfold is_byte; cbn; lia. Qed.
Lemma new_rep : trie_rep (grow new_pairs) (mapped new_pairs).
Proof. apply grow_rep. repeat constructor; try done; unfold is_byte; cbn; lia. Qed.

Lemma in_memory t : reader t = newEmptyReader -> serves_settled (fun _ _ => True) no_node (reader t).
Proof. intros -> p h s He. inversion He as [| | | |? ? n ? _ Hl _ _]; subst. discriminate Hl. Qed.

Lemma difference_correct_witness : exists ia ib it seen, newNodeIterator no_node (grow old_pairs) [] = Ret ia /\
  newNodeIterator no_node (grow new_pairs) [] = Ret ib /\ @NewDifferenceIterator _ _ (nodeIterator_methods no_node) ia ib = Ret it /\
  (exists N, forall fuel, (N <= fuel)%nat -> exists last_,
    @tour _ (@differenceIterator_methods _ _ (nodeIterator_methods no_node) (nodeIterator_methods no_node) fuel) fuel it = Ret (seen, last_)) /\
  mkElem (keybytesToHex [18; 5]) zero_hash [8] ∈ seen /\ mkElem (keybytesToHex [33]) zero_hash [9] ∉ seen.
Proof.
  destruct (difference_correct (fun _ _ => True) no_node (grow old_pairs) (grow new_pairs) (mapped old_pairs) (mapped new_pairs))
    as (ia & ib & it & pa & pb & Ea & Eb & Eit & _ & _ & Ht & _ & Hleaf).
  - exact old_rep.
  - exact new_rep.
  - apply in_memory. vm_compute. reflexivity.
  - apply in_memory. vm_compute. reflexivity.
  - eexists ia, ib, it, _. split; [exact Ea|]. split; [exact Eb|]. split; [exact Eit|]. split; [exact Ht|]. split.
    + apply Hleaf; [repeat constructor; unfold is_byte; lia|]. split; [vm_compute; reflexivity|]. by vm_compute.
    + rewrite Hleaf by (repeat constructor; unfold is_byte; lia). intros [_ Hn]. apply Hn. vm_compute. reflexivity.
Defined.

Lemma union_correct_witness : exists its it seen, length its = 2%nat /\ @NewUnionIterator _ (nodeIterator_methods no_node) its = Ret it /\
  (exists N, forall fuel, (N <= fuel)%nat -> exists last_,
    @tour _ (@unionIterator_methods _ (nodeIterator_methods no_node) fuel) fuel it = Ret (seen, last_)) /\
  mkElem (keybytesToHex [18; 5]) zero_hash [8] ∈ seen /\ mkElem (keybytesToHex [33]) zero_hash [9] ∈ seen.
Proof.
  destruct (union_correct (fun _ _ => True) no_node [grow old_pairs; grow new_pairs] [mapped old_pairs; mapped new_pairs])
    as (its & it & pts & seen & Hits & Eit & _ & Ht & _ & _ & Hleaf).
  - constructor; [exact old_rep|]. constructor; [exact new_rep|constructor].
  - constructor; [apply in_memory; vm_compute; reflexivity|]. constructor; [apply in_memory; vm_compute; reflexivity|constructor].
  - exists its, it, seen. split; [by rewrite <- (Forall2_length _ _ _ Hits)|]. split; [exact Eit|]. split; [exact Ht|]. split.
    + apply Hleaf; [repeat constructor; unfold is_byte; lia|]. exists (mapped new_pairs). split; [right; left|vm_compute; reflexivity].
    + apply Hleaf; [repeat constructor; unfold is_byte; lia|]. exists (mapped new_pairs). split; [right; left|vm_compute; reflexivity].
Defined.

(** A source that fails is dropped from the heap, and its error with it: the union of a
    trie in memory and one whose root cannot be read tours the first alone and ends
    without an error. *)
Definition lost : Trie :=
  mkTrie (HashNode (keccak256 [1])) [] 0 (mkTrieReader [] (Some (mkReader (fun _ _ _ => Err "disk"%string))) None) newTracer.
Definition failing (o p h : list Z) : outcome (res string node) := Ret (Err "disk"%string).

Lemma union_loses_error : exists ia ib it seen last_, newNodeIterator failing (grow old_pairs) [] = Ret ia /\ newNodeIterator failing lost [] = Ret ib /\
  it_Error ib <> None /\ @NewUnionIterator _ (nodeIterator_methods failing) [ia; ib] = Ret it /\
  @tour _ (@unionIterator_methods _ (nodeIterator_methods failing) 20) 20 it = Ret (seen, last_) /\
  @ui_Error _ (nodeIterator_methods failing) last_ = None.
Proof. eexists _, _, _, _, _. split; [vm_compute; reflexivity|]. split; [vm_compute; reflexivity|]. split; [done|]. split; [vm_compute; reflexivity|].
  split; vm_compute; reflexivity. Qed.
(** Told to leave out what is below the current node before the first step, the union
    takes the empty path of the start for it and drops every source but one. *)
Definition left_pairs : list (list Z * list Z) := [([18], [7])].
Definition right_pairs : list (list Z * list Z) := [([33], [9])].

Lemma union_start_skips : exists ia ib it it' seen last_,
  newNodeIterator no_node (grow left_pairs) [] = Ret ia /\ newNodeIterator no_node (grow right_pairs) [] = Ret ib /\
  @NewUnionIterator _ (nodeIterator_methods no_node) [ia; ib] = Ret it /\
  @ui_Next _ (nodeIterator_methods no_node) 20 it false = Ret (true, it') /\ length (ui_items it') = 1%nat /\
  @tour _ (@unionIterator_methods _ (nodeIterator_methods no_node) 20) 20 it' = Ret (seen, last_) /\
  mkElem (keybytesToHex [33]) zero_hash [9] ∉ seen.
Proof.
  eexists _, _, _, _, _, _. do 4 (split; [vm_compute; reflexivity|]). split; [reflexivity|]. split; [vm_compute; reflexivity|].
  apply (bool_decide_unpack _). vm_compute. exact Logic.I.
Qed.
End CombineSample.
