(* ===== verification/RingLock.v ===== *)
(** * The locks of the hash ring ([local/hash_ring.go])

    Two locks that expire.  [LockEntityV2] never waits: a call either takes the lock or
    fails.  [LockEntity], which the ring embeds, waits for a mutex while it holds a
    second one that unlocking needs; its goroutines and the guards that release it after
    a time are modelled as a step relation.  Proved: the first lock excludes others until
    it expires; the second excludes others when locks do not expire, and a goroutine
    that waits for it blocks its release for ever. *)

From stdpp Require Import base gmap strings list relations.
From Stdlib Require Import ZArith Lia.
From S2P Require Import Prelude Core.

Local Open Scope Z_scope.

(** ** The lock that does not wait *)

(** A goroutine is named by its process and its number
    ([GetProcessAndGoroutineIDStr]), times are in nanoseconds. *)
Record LockEntityV2 := mkLock2 { l2_locked : bool; l2_expireAt : Z; l2_owner : string }.

Definition NewLockEntityV2 : LockEntityV2 := mkLock2 false 0 "".

Definition lock2_Lock (l : LockEntityV2) (expireSeconds : Z) (me : string) (now : Z) : option string * LockEntityV2 :=
  if negb (l2_locked l) || (l2_expireAt l <? now) then
    (None, mkLock2 true (now + i64 (expireSeconds * 1000000000)) me)
  else (Some "accquire by others"%string, l).

Definition lock2_Unlock (l : LockEntityV2) (me : string) (now : Z) : option string * LockEntityV2 :=
  if negb (l2_locked l) || (l2_expireAt l <? now) then (Some "not locked"%string, l)
  else if negb (bool_decide (l2_owner l = me)) then (Some "not your lock"%string, l)
  else (None, mkLock2 false (l2_expireAt l) (l2_owner l)).

(** Calls of goroutines, each at its time. *)
Inductive call2 := CallLock (expireSeconds : Z) | CallUnlock.
Definition lock2_call (l : LockEntityV2) (c : string * Z * call2) : option string * LockEntityV2 :=
  let '(me, now, op) := c in
  match op with CallLock s => lock2_Lock l s me now | CallUnlock => lock2_Unlock l me now end.
Fixpoint lock2_run (l : LockEntityV2) (cs : list (string * Z * call2)) : list (option string) * LockEntityV2 :=
  match cs with
  | [] => ([], l)
  | c :: cs => let '(r, l) := lock2_call l c in let '(rs, l) := lock2_run l cs in (r :: rs, l)
  end.

(** A lock that was taken for some seconds excludes every call until the time has
    passed, but for the call of its owner that releases it. *)
Lemma lock2_exclusive l s me now l' cs : 0 <= s -> s * 1000000000 < 2 ^ 63 ->
  lock2_Lock l s me now = (None, l') ->
  Forall (fun c => now <= c.1.2 <= now + s * 1000000000 /\ (c.2 = CallUnlock -> c.1.1 <> me)) cs ->
  (lock2_run l' cs).2 = l' /\ Forall (fun r => is_Some r) (lock2_run l' cs).1.
Proof.
  intros Hs Hw HL Hcs. unfold lock2_Lock in HL. destruct (negb (l2_locked l) || (l2_expireAt l <? now)); [|done]. injection HL as <-.
  rewrite wrap_s_small by (unfold is_s; lia). set (l' := mkLock2 _ _ _).
  induction Hcs as [|[[u t] op] cs [Ht Hop] _ IH]; [done|]. cbn [lock2_run lock2_call fst snd] in *.
  assert (exists r, match op with CallLock s0 => lock2_Lock l' s0 u t | CallUnlock => lock2_Unlock l' u t end = (Some r, l')) as [r ->].
  { destruct op as [s0|]; unfold lock2_Lock, lock2_Unlock; cbn [l2_locked l2_expireAt l2_owner l' negb orb];
      rewrite (proj2 (Z.ltb_ge _ _)) by lia; [by eexists|]. rewrite bool_decide_false by (specialize (Hop eq_refl); congruence). by eexists. }
  destruct (lock2_run l' cs) as [rs l2]. cbn [fst snd] in *. destruct IH as [-> Hrs]. split; [done|]. constructor; [by eexists|done].
Qed.

(** ** The lock of the ring *)

(** Where a goroutine is in [Lock] or [Unlock]: before the second mutex, or holding it
    and before the first. *)
Inductive place := Outside | LockEntry (expireSeconds : Z) | LockInner (expireSeconds : Z) | UnlockEntry.

(** The goroutine that releases a lock after its time: it waits for the time or for its
    cancellation, then it waits for the second mutex. *)
Inductive guard_place := GWaiting | GEntry | GDone.
Record guard := mkGuard { gd_token : string; gd_cancelled : bool; gd_place : guard_place }.

(** The mutexes, the cancel function (the guard it cancels) and the owner; the
    goroutines, those that have taken the lock and not given it back, the guards, and
    whether a mutex was unlocked that was not locked, which ends the process. *)
Record LockEntity := mkLE {
  le_lock : bool;
  le_doubleLock : bool;
  le_cancel : option nat;
  le_owner : string;
  le_places : gmap string place;
  le_holders : gset string;
  le_guards : list guard;
  le_fatal : bool;
}.

Definition NewLockEntity (goroutines : gset string) : LockEntity :=
  mkLE false false None "" (gset_to_gmap Outside goroutines) ∅ [] false.

Definition le_at (s : LockEntity) (t : string) (p : place) : LockEntity :=
  mkLE (le_lock s) (le_doubleLock s) (le_cancel s) (le_owner s) (<[t := p]> (le_places s)) (le_holders s) (le_guards s) (le_fatal s).
Definition le_double (s : LockEntity) (b : bool) : LockEntity :=
  mkLE (le_lock s) b (le_cancel s) (le_owner s) (le_places s) (le_holders s) (le_guards s) (le_fatal s).
Definition le_guard (s : LockEntity) (n : nat) (g : guard) : LockEntity :=
  mkLE (le_lock s) (le_doubleLock s) (le_cancel s) (le_owner s) (le_places s) (le_holders s) (<[n := g]> (le_guards s)) (le_fatal s).

(** The rest of [Lock], from taking the first mutex on. *)
Definition le_Lock (s : LockEntity) (token : string) (expireSeconds : Z) : LockEntity :=
  if expireSeconds <=? 0 then
    mkLE true (le_doubleLock s) (le_cancel s) token (le_places s) ({[ token ]} ∪ le_holders s) (le_guards s) (le_fatal s)
  else
    mkLE true (le_doubleLock s) (Some (length (le_guards s))) token (le_places s) ({[ token ]} ∪ le_holders s)
      (le_guards s ++ [mkGuard token false GWaiting]) (le_fatal s).

(** The body of [unlock], under the second mutex. *)
Definition cancelled (g : guard) : guard := mkGuard (gd_token g) true (gd_place g).
Definition le_unlock (s : LockEntity) (token : string) : option string * LockEntity :=
  if negb (bool_decide (le_owner s = token)) then (Some "not your lock"%string, s)
  else
    let guards := match le_cancel s with Some n => alter cancelled n (le_guards s) | None => le_guards s end in
    (None, mkLE false (le_doubleLock s) (le_cancel s) "" (le_places s) (le_holders s) guards (le_fatal s || negb (le_lock s))).
(** [Unlock] of a goroutine; a guard unlocks with the token of the one it guards, who
    does not hear of it. *)
Definition le_Unlock (s : LockEntity) (token : string) : option string * LockEntity :=
  let '(err, s) := le_unlock s token in
  (err, match err with
        | None => mkLE (le_lock s) (le_doubleLock s) (le_cancel s) (le_owner s) (le_places s) (le_holders s ∖ {[ token ]}) (le_guards s) (le_fatal s)
        | Some _ => s
        end).

(** One step of a goroutine or of a guard: a mutex is taken only when it is free, and
    what follows up to the next mutex runs with it. *)
Inductive le_step (s : LockEntity) : LockEntity -> Prop :=
| ls_call_lock t e : le_places s !! t = Some Outside -> le_step s (le_at s t (LockEntry e))
| ls_lock_double t e : le_places s !! t = Some (LockEntry e) -> le_doubleLock s = false ->
    le_step s (le_double (le_at s t (LockInner e)) true)
| ls_lock t e : le_places s !! t = Some (LockInner e) -> le_lock s = false ->
    le_step s (le_double (le_Lock (le_at s t Outside) t e) false)
| ls_call_unlock t : le_places s !! t = Some Outside -> le_step s (le_at s t UnlockEntry)
| ls_unlock t : le_places s !! t = Some UnlockEntry -> le_doubleLock s = false -> le_step s (le_Unlock (le_at s t Outside) t).2
| ls_timer n g : le_guards s !! n = Some g -> gd_place g = GWaiting ->
    le_step s (le_guard s n (mkGuard (gd_token g) (gd_cancelled g) GEntry))
| ls_cancel n g : le_guards s !! n = Some g -> gd_place g = GWaiting -> gd_cancelled g = true ->
    le_step s (le_guard s n (mkGuard (gd_token g) true GDone))
| ls_guard n g : le_guards s !! n = Some g -> gd_place g = GEntry -> le_doubleLock s = false ->
    le_step s (le_unlock (le_guard s n (mkGuard (gd_token g) (gd_cancelled g) GDone)) (gd_token g)).2.

(** A goroutine that holds the second mutex and waits for the first, which is taken. *)
Definition stuck (s : LockEntity) (t : string) (e : Z) : Prop :=
  le_places s !! t = Some (LockInner e) /\ le_lock s = true /\ le_doubleLock s = true.

Lemma stuck_step s s' t e : stuck s t e -> le_step s s' ->
  stuck s' t e /\ le_holders s' = le_holders s /\ le_owner s' = le_owner s /\
  forall u p, le_places s !! u = Some p -> p <> Outside -> le_places s' !! u = Some p.
Proof.
  intros (Ht & Hl & Hd) Hst. destruct Hst as [u e' Hu|u e' Hu Hf|u e' Hu Hf|u Hu|u Hu Hf|n g Hg Hp|n g Hg Hp Hc|n g Hg Hp Hf]; try congruence.
  - assert (u <> t) by congruence. unfold stuck. cbn. rewrite lookup_insert_ne by done. do 3 (split; [done|]).
    intros v p Hv Hp. rewrite lookup_insert_ne by congruence. done.
  - assert (u <> t) by congruence. unfold stuck. cbn. rewrite lookup_insert_ne by done. do 3 (split; [done|]).
    intros v p Hv Hp. rewrite lookup_insert_ne by congruence. done.
  - done.
  - done.
Qed.

Lemma stuck_steps s s' t e : stuck s t e -> rtc le_step s s' ->
  stuck s' t e /\ le_holders s' = le_holders s /\
  forall u p, le_places s !! u = Some p -> p <> Outside -> le_places s' !! u = Some p.
Proof.
  intros Hs Hr. revert Hs. induction Hr as [s|s s1 s' Hst _ IH]; intros Hs; [by auto|].
  destruct (stuck_step s s1 t e Hs Hst) as (Hs1 & Eh & _ & Hp). destruct (IH Hs1) as (Hs' & Eh' & Hp').
  split; [done|]. split; [congruence|]. intros u p Hu Hne. apply Hp'; [by apply Hp|done].
Qed.

(** C25. Contention for the lock of the ring blocks it for ever.  Whenever the lock is
    held and another goroutine that has called [Lock] takes the free second mutex, then
    from there on, in whatever order goroutines and guards run, no call of [Lock] or
    [Unlock] returns any more, and the lock is never released, by its holder or by its
    guard when the time is over. *)
Theorem contention_deadlocks (s : LockEntity) (t : string) (e : Z) :
  le_lock s = true -> le_places s !! t = Some (LockEntry e) -> le_doubleLock s = false ->
  exists s1, le_step s s1 /\ forall s', rtc le_step s1 s' ->
    le_lock s' = true /\ le_holders s' = le_holders s /\ le_places s' !! t = Some (LockInner e) /\
    forall s'' u p, le_step s' s'' -> le_places s' !! u = Some p -> p <> Outside -> le_places s'' !! u = Some p.
Proof.
  intros Hl Ht Hd. eexists. split; [by apply (ls_lock_double s t e)|]. set (s1 := le_double _ _). intros s' Hr.
  assert (stuck s1 t e) as Hs1 by (split; [by apply lookup_insert_eq|done]).
  destruct (stuck_steps s1 s' t e Hs1 Hr) as (Hs' & Eh & _). pose proof Hs' as (Ht' & Hl' & _). split; [done|]. split; [by rewrite Eh|].
  split; [done|]. intros s'' u p Hst. by apply (stuck_step s' s'' t e Hs' Hst).
Qed.

(** ** Exclusion without expiry *)

Definition unlimited (s : LockEntity) : Prop :=
  forall t e, le_places s !! t = Some (LockEntry e) \/ le_places s !! t = Some (LockInner e) -> e <= 0.

Record le_inv (s : LockEntity) : Prop := {
  li_guards : le_guards s = [] /\ le_cancel s = None;
  li_fatal : le_fatal s = false;
  li_names : le_places s !! ""%string = None;
  li_double : forall t e, le_places s !! t = Some (LockInner e) -> le_doubleLock s = true;
  li_owner : if le_lock s then le_owner s <> ""%string /\ le_holders s = {[ le_owner s ]} else le_owner s = ""%string /\ le_holders s = ∅;
}.

Lemma le_inv_new goroutines : ""%string ∉ goroutines -> le_inv (NewLockEntity goroutines).
Proof.
  intros Hn. split; try done; cbn.
  - by apply lookup_gset_to_gmap_None.
  - intros t e [_ E]%lookup_gset_to_gmap_Some. done.
Qed.

(** A place changes without taking or giving back the second mutex. *)
Lemma le_inv_place s t p q : le_inv s -> le_places s !! t = Some q -> (forall e, p <> LockInner e) -> le_inv (le_at s t p).
Proof.
  intros [Hg Hf Hn Hd Ho] Ht Hp. assert (t <> ""%string) by congruence. split; cbn; try done.
  - by rewrite lookup_insert_ne.
  - intros u e. destruct (decide (u = t)) as [->|]; [rewrite lookup_insert_eq; intros [= E]; by destruct (Hp e)|]. rewrite lookup_insert_ne by done. apply Hd.
Qed.

Lemma le_inv_step s s' : le_inv s -> (forall t u e e', le_places s !! t = Some (LockInner e) -> le_places s !! u = Some (LockInner e') -> t = u) ->
  unlimited s -> le_step s s' ->
  le_inv s' /\ (forall t u e e', le_places s' !! t = Some (LockInner e) -> le_places s' !! u = Some (LockInner e') -> t = u).
Proof.
  intros Hinv Huniq Hun Hst. pose proof Hinv as [[Hg Hc] Hf Hn Hd Ho].
  destruct Hst as [t e Ht|t e Ht Hfree|t e Ht Hfree|t Ht|t Ht Hfree|n g Hgn _|n g Hgn _ _|n g Hgn _ _]; try (by rewrite Hg in Hgn).
  - split; [by apply (le_inv_place s t _ Outside)|]. intros u v x y. cbn. rewrite !lookup_insert. repeat case_decide; try done. apply Huniq.
  - assert (t <> ""%string) by congruence. split.
    + split; cbn; try done. by rewrite lookup_insert_ne.
    + assert (forall u x, le_places s !! u <> Some (LockInner x)) as Hnone by (intros u x Hu; apply Hd in Hu; congruence).
      intros u v x y. cbn. rewrite !lookup_insert. repeat case_decide; try congruence; intros E1 E2; by edestruct Hnone.
  - pose proof (Hun t e (or_intror Ht)) as He. unfold le_Lock. rewrite (proj2 (Z.leb_le e 0) He). rewrite Hfree in Ho. destruct Ho as [_ Hh].
    assert (t <> ""%string) by congruence.
    assert (forall u x, <[t := Outside]> (le_places s) !! u <> Some (LockInner x)) as Hnone.
    { intros u x. rewrite lookup_insert. case_decide as Hut; [done|]. intros Hu. by destruct Hut; eapply Huniq. }
    split; [|intros u v x y Hu; by destruct (Hnone u x)]. split; cbn; try done.
    + by rewrite lookup_insert_ne.
    + intros u x Hu. by destruct (Hnone u x).
    + split; [done|]. rewrite Hh. set_solver.
  - split; [by apply (le_inv_place s t _ Outside)|]. intros u v x y. cbn. rewrite !lookup_insert. repeat case_decide; try done. apply Huniq.
  - pose proof (le_inv_place s t Outside UnlockEntry Hinv Ht ltac:(done)) as Hinv'.
    assert (forall u v x y, le_places (le_at s t Outside) !! u = Some (LockInner x) -> le_places (le_at s t Outside) !! v = Some (LockInner y) -> u = v) as Hu'.
    { intros u v x y. cbn. rewrite !lookup_insert. repeat case_decide; try done. apply Huniq. }
    unfold le_Unlock, le_unlock. cbn [le_owner le_at]. case_bool_decide as Eo; cbn [negb snd]; [|done].
    split; [|exact Hu']. destruct Hinv' as [Hg' Hf' Hn' Hd' Ho']. cbn in *. rewrite Hc, Hg, Hf.
    assert (t <> ""%string) by congruence. destruct (le_lock s); [|destruct Ho as [Ho _]; congruence]. destruct Ho as [_ Hh].
    split; cbn; try done. split; [done|]. rewrite Hh, Eo. set_solver.
Qed.

(** While no lock expires, at most one goroutine has the lock, it is the one the lock
    names as its owner, and no mutex is unlocked that is not locked. *)
Lemma lock_exclusive goroutines s : ""%string ∉ goroutines -> rtc (fun s s' => le_step s s' /\ unlimited s') (NewLockEntity goroutines) s ->
  le_fatal s = false /\ forall a b, a ∈ le_holders s -> b ∈ le_holders s -> a = b /\ le_lock s = true /\ le_owner s = a.
Proof.
  intros Hn Hr. assert (le_inv s) as [_ Hf _ _ Ho].
  { assert (le_inv (NewLockEntity goroutines)) as Hi by (by apply le_inv_new).
    assert (forall t p, le_places (NewLockEntity goroutines) !! t = Some p -> p = Outside) as Hout.
    { intros t p. cbn. by intros [_ <-]%lookup_gset_to_gmap_Some. }
    assert (unlimited (NewLockEntity goroutines)) as Hun by (by intros t e [E|E]; apply Hout in E).
    assert (forall t u e e', le_places (NewLockEntity goroutines) !! t = Some (LockInner e) ->
      le_places (NewLockEntity goroutines) !! u = Some (LockInner e') -> t = u) as Hq by (by intros t u e e' E; apply Hout in E).
    revert Hi Hun Hq. clear Hout. induction Hr as [s|s s1 s' [Hst Hun1] _ IH]; intros Hi Hun Hq; [done|].
    destruct (le_inv_step s s1 Hi Hq Hun Hst) as [Hi1 Hq1]. by apply IH. }
  split; [done|]. intros a b Ha Hb. destruct (le_lock s); [|by rewrite (proj2 Ho) in Ha; apply not_elem_of_empty in Ha]. destruct Ho as [_ Hh].
  rewrite Hh in Ha, Hb. apply elem_of_singleton in Ha, Hb. split; [congruence|]. split; [done|congruence].
Qed.

(** ** Concrete runs *)

Module LockSample.
(** Two goroutines: the first has the lock and the second has called [Lock]. *)
Definition initial : LockEntity := NewLockEntity {[ "1_1"%string; "1_2"%string ]}.
Definition contended : LockEntity :=
  le_at (le_double (le_Lock (le_at (le_double (le_at (le_at initial "1_1" (LockEntry 15)) "1_1" (LockInner 15)) true) "1_1" Outside) "1_1" 15) false)
    "1_2" (LockEntry 15).

Lemma contended_reached : rtc le_step initial contended.
Proof.
  eapply rtc_l; [by apply (ls_call_lock _ "1_1" 15)|]. eapply rtc_l; [by apply (ls_lock_double _ "1_1" 15)|].
  eapply rtc_l; [by apply (ls_lock _ "1_1" 15)|]. eapply rtc_l; [by apply (ls_call_lock _ "1_2" 15)|]. apply rtc_refl.
Qed.

Lemma contention_deadlocks_witness : rtc le_step initial contended /\ le_holders contended = {[ "1_1"%string ]} /\
  exists s1, le_step contended s1 /\ forall s', rtc le_step s1 s' -> le_lock s' = true /\ le_holders s' = {[ "1_1"%string ]}.
Proof.
  split; [exact contended_reached|]. split; [vm_compute; reflexivity|].
  destruct (contention_deadlocks contended "1_2" 15) as (s1 & Hst & Hall).
  - vm_compute. reflexivity.
  - vm_compute. reflexivity.
  - vm_compute. reflexivity.
  - exists s1. split; [exact Hst|]. intros s' Hr. destruct (Hall s' Hr) as (Hl & Hh & _). split; [exact Hl|]. rewrite Hh. vm_compute. reflexivity.
Defined.

(** The token names a goroutine, not one of its locks: a guard whose time is over while
    its goroutine unlocks and locks again releases the new lock, and two goroutines
    have it. *)
Lemma guard_frees_next_lock : exists s, rtc le_step initial s /\ "1_1"%string ∈ le_holders s /\ "1_2"%string ∈ le_holders s.
Proof.
  eexists. split.
  - eapply rtc_l; [by apply (ls_call_lock _ "1_1" 15)|]. eapply rtc_l; [by apply (ls_lock_double _ "1_1" 15)|].
    eapply rtc_l; [by apply (ls_lock _ "1_1" 15)|]. eapply rtc_l; [by apply (ls_timer _ 0 (mkGuard "1_1" false GWaiting))|].
    eapply rtc_l; [by apply (ls_call_unlock _ "1_1")|]. eapply rtc_l; [by apply (ls_unlock _ "1_1")|].
    eapply rtc_l; [by apply (ls_call_lock _ "1_1" 15)|]. eapply rtc_l; [by apply (ls_lock_double _ "1_1" 15)|].
    eapply rtc_l; [by apply (ls_lock _ "1_1" 15)|]. eapply rtc_l; [by apply (ls_guard _ 0 (mkGuard "1_1" true GEntry))|].
    eapply rtc_l; [by apply (ls_call_lock _ "1_2" 15)|]. eapply rtc_l; [by apply (ls_lock_double _ "1_2" 15)|].
    eapply rtc_l; [by apply (ls_lock _ "1_2" 15)|]. apply rtc_refl.
  - split; apply (bool_decide_unpack _); vm_compute; exact Logic.I.
Qed.
End LockSample.
