(* ===== verification/Generator.v ===== *)
(** * The transactions of the proposer ([consensus_shard/subMPT/temptool.go])

    The proposer takes its transactions from the records of a data file, or makes them
    up.  Records arrive as lists of strings, the clock and the random bytes as
    functions.  Proved: a positive number of transactions is the number of legal records
    that is read, in their order, with their positions as nonces; zero is not. *)

From stdpp Require Import base gmap strings list.
From Stdlib Require Import ZArith Lia.
From S2P Require Import Prelude Core Storage Committee.

Local Open Scope Z_scope.

Definition last16bitsToInt (data : list Z) : outcome Z :=
  if (length data <? 2)%nat then Panic
  else Ret (foldl (fun result b => i64 (i64 (Z.shiftl result 8) + b)) 0 (drop (length data - 2) data)).

(** [hex.EncodeToString]. *)
Definition hex_char (d : Z) : Ascii.ascii := Ascii.ascii_of_nat (Z.to_nat (if d <? 10 then 48 + d else 87 + d)).
Definition hex_byte (b : Z) : list Ascii.ascii := [hex_char (Z.shiftr b 4); hex_char (Z.land b 15)].
Definition EncodeToString (b : list Z) : string := String.string_of_list_ascii (flat_map hex_byte b).

(** [random i] is the [i]-th byte read; the reader never fails. *)
Definition generateRandomHexString (len : nat) (random : nat -> Z) : string :=
  EncodeToString (random <$> seq 0 (len / 2)).

Section generator.
Context `{Gob Transaction} `{Sha256}.

(** The [i]-th transaction: two fresh addresses and a value below 123456. *)
Definition ProposerGenerateTxs (txSize : nat) (uniqueSource : Z) (random1 random2 : nat -> nat -> Z) (value : nat -> Z)
    (now : nat -> time) : list Transaction :=
  (fun i => NewTransaction (generateRandomHexString 40 (random1 i)) (generateRandomHexString 40 (random2 i)) (value i)
              (u64 (i64 (uniqueSource + Z.of_nat i))) (now i)) <$> seq 0 txSize.

(** A record that is too short or whose value is not a number panics. *)
Definition gen_data2tx (data : list string) (nonce : Z) (now : time) : outcome (option Transaction) :=
  d6 ← of_option (data !! 6%nat);
  if negb (bool_decide (d6 = "0"%string)) then Ret None else
  d7 ← of_option (data !! 7%nat);
  if negb (bool_decide (d7 = "0"%string)) then Ret None else
  d3 ← of_option (data !! 3%nat);
  if (String.length d3 <=? 16)%nat then Ret None else
  d4 ← of_option (data !! 4%nat);
  if (String.length d4 <=? 16)%nat then Ret None else
  if bool_decide (d3 = d4) then Ret None else
  d8 ← of_option (data !! 8%nat);
  val ← of_option (SetString10 d8);
  Ret (Some (NewTransaction4 (from2 d3) (from2 d4) val nonce now)).

(** The loop over the records of the file: the end of the list is the end of the file,
    and a record that cannot be read ([None]) panics. *)
Fixpoint generate_loop (txSize : Z) (i : nat) (file : list (option (list string))) (now : nat -> time) (nowDataNum : Z)
    (txlist : list Transaction) : outcome (list Transaction) :=
  match file with
  | [] => Ret txlist
  | None :: _ => Panic
  | Some data :: file =>
      o ← gen_data2tx data (u64 nowDataNum) (now i);
      let '(txlist, nowDataNum) := match o with
                                   | Some tx => (txlist ++ [tx], i64 (nowDataNum + 1))
                                   | None => (txlist, nowDataNum)
                                   end in
      if nowDataNum =? txSize then Ret txlist else generate_loop txSize (S i) file now nowDataNum txlist
  end.

Definition ProposerGenerateTxs3 (txSize : Z) (file : list (option (list string))) (now : nat -> time) : outcome (list Transaction) :=
  generate_loop txSize 0 file now 0 [].

(** The transfer that a record describes, [None] for a record that is passed over. *)
Definition fields (tx : Transaction) : Address * Address * Z := (Sender tx, Recipient tx, Value tx).
Definition transfer_of (data : list string) : outcome (option (Address * Address * Z)) :=
  o ← gen_data2tx data 0 0; Ret (option_map fields o).

Lemma gen_data2tx_transfer data nonce now :
  match gen_data2tx data nonce now with
  | Ret o => transfer_of data = Ret (option_map fields o) /\ (forall tx, o = Some tx -> Nonce tx = nonce)
  | Panic => transfer_of data = Panic
  end.
Proof.
  unfold transfer_of, gen_data2tx. repeat (match goal with |- context [of_option ?x] => destruct x; cbn [of_option]; go_ret; [|done] end ||
    match goal with |- context [if ?b then _ else _] => destruct b; [done|] end). split; [done|]. by intros tx [= <-].
Qed.

Lemma generate_loop_spec txSize now file : forall i n txlist, 0 <= n < txSize -> txSize < 2 ^ 63 -> n = Z.of_nat (length txlist) ->
  forall kinds, Forall2 (fun o k => exists data, o = Some data /\ transfer_of data = Ret k) file kinds ->
  exists txs, generate_loop txSize i file now n txlist = Ret (txlist ++ txs) /\
    fields <$> txs = take (Z.to_nat (txSize - n)) (omap id kinds) /\
    Nonce <$> txs = Z.of_nat <$> seq (Z.to_nat n) (length txs).
Proof.
  induction file as [|o file IH]; intros i n txlist Hn Hmax En kinds Hk; inversion Hk as [|? k ? ks (data & -> & Et) Hks]; subst o kinds || subst kinds.
  { exists []. split; [by rewrite app_nil_r|]. split; [cbn; by destruct (Z.to_nat _)|done]. }
  cbn [generate_loop]. pose proof (gen_data2tx_transfer data (u64 n) (now i)) as Hd. destruct (gen_data2tx data (u64 n) (now i)) as [o|]; [|congruence].
  destruct Hd as [Et' Hno]. rewrite Et in Et'. injection Et' as ->. go_ret. destruct o as [tx|]; cbn [option_map].
  - rewrite wrap_s_small by (unfold is_s; lia). specialize (Hno tx eq_refl). rewrite wrap_u_small in Hno by (unfold is_u; lia).
    cbn [omap list_omap id]. destruct (Z.eqb_spec (n + 1) txSize) as [E|E].
    + exists [tx]. split; [done|]. replace (Z.to_nat (txSize - n)) with 1%nat by lia. split; [by cbn; rewrite take_0|]. cbn. rewrite Hno. by rewrite Z2Nat.id by lia.
    + destruct (IH (S i) (n + 1) (txlist ++ [tx])) with (kinds := ks) as (txs & -> & Ef & Enn); [lia|lia|rewrite length_app; cbn; lia|done|].
      exists (tx :: txs). split; [by rewrite <- (assoc (++))|]. split.
      * replace (Z.to_nat (txSize - n)) with (S (Z.to_nat (txSize - (n + 1)))) by lia. cbn. by rewrite <- Ef.
      * cbn. rewrite Hno, Enn. rewrite Z2Nat.id by lia. by replace (Z.to_nat (n + 1)) with (S (Z.to_nat n)) by lia.
  - destruct (Z.eqb_spec n txSize) as [?|_]; [lia|]. cbn [omap list_omap id]. by apply IH.
Qed.

(** The transactions of the proposer: when every record can be read, the first
    [txSize] legal ones in their order, numbered from zero. *)
Lemma generated_first txSize file now kinds : 0 < txSize < 2 ^ 63 ->
  Forall2 (fun o k => exists data, o = Some data /\ transfer_of data = Ret k) file kinds ->
  exists txs, ProposerGenerateTxs3 txSize file now = Ret txs /\
    fields <$> txs = take (Z.to_nat txSize) (omap id kinds) /\
    Nonce <$> txs = Z.of_nat <$> seq 0 (length txs).
Proof.
  intros Hs Hk. destruct (generate_loop_spec txSize now file 0 0 [] ltac:(lia) ltac:(lia) eq_refl kinds Hk) as (txs & E & Ef & En).
  rewrite Z.sub_0_r in Ef. by exists txs.
Qed.
End generator.

(** Asked for no transactions, the loop has passed the end of the count when its first
    record is legal, and reads the whole file. *)
Module GeneratorSample.
#[local] Existing Instance StorageSample.tx_gob.
#[local] Instance sha : Sha256 := {| Sum256 := fun b => b |}.
Definition record : list string := ["";"";"";"0x1111111111111111";"0x2222222222222222";"";"0";"0";"5"]%string.

Lemma none_is_all : match ProposerGenerateTxs3 0 (Some <$> [record; record; record]) (fun _ => 0) with
                    | Ret txs => length txs = 3%nat
                    | Panic => False
                    end.
Proof. reflexivity. Qed.
End GeneratorSample.
